(* ===== verification/_CoqProject ===== *)
-Q . S2P
Prelude.v
Queue.v
Bit.v
Keyboard.v
Os.v
Main.v
Lib.v
Term.v
TermDraw.v
TermOps.v
FsHandle.v
Fs.v
LObject.v
LPattern.v
LTablib.v
LTablibSort.v
Ide.v
IdeProps.v
Fat.v
FatProps.v
FatRead.v
Disk.v
DiskBoot.v
Vfs.v
LPatternSpec.v
LStrlib.v
LZio.v
LLex.v
LLexProps.v
LLexRead.v
LNum.v
LOpcodes.v
LProto.v
LDebug.v
LUndump.v
LVm.v
LVmProps.v
LDo.v
LDoProps.v
LDoResume.v
LApi.v
LApiProps.v
LAuxlib.v
LBase.v
LCode.v
LCodeJumps.v
LCodePool.v
LParser.v
LGrammar.v
LExpr.v
LFinal.v
LCompile.v
LCompileExp.v
LCompileReg.v
LCompileVal.v
LCompileOps.v
LCompileCond.v
LCompileBool.v
LCompileLogic.v
LCompileExpr.v
LSyntax.v
LParseExpr.v
LCompileRet.v
LParseRet.v
LExec.v
LGc.v
LGcProps.v
LGcMark.v
LGcClear.v
LGcAtomic.v
LGcCorrect.v
LFunc.v
LString.v
LStringProps.v
LTable.v
LTableHash.v
LTableMap.v
LTableCount.v
LTableRehash.v
LTableProps.v
