(* ===== verification/Prelude.v ===== *)
(** * CraftOSOS: a verification library

    CraftOSOS boots ComputerCraft's CraftOS on a PC: [main.cpp] sets up the machine
    and runs a Lua 5.1 interpreter (src/lua) whose first program is bios.lua; the Lua
    program yields to wait for events, and [main2] resumes it with the next one. The
    interpreter's libraries are C functions over the hardware: [os.cpp] turns PS/2
    bytes, timers and queued values into events, [term.cpp] draws characters on a VGA
    screen, [fs.cpp] and [fs_handle.c] give files of the root file system, whose
    driver (src/includeos-patch) reads FAT volumes. [lib.c] registers all of them.

    ** The files, and the code they model

    - [Prelude]: widths of C integers, loops as [loopM] (a bounded iteration that ends
      with [None] when the bound is too small), the lemmas and hints all files share.
    - [Queue] (queue.c): the linked queues of events, over an explicit heap of nodes;
      [FifoQueue] is the interface the event loop is proved against.
    - [Bit] (bit.h), [Lib] (lib.c and the five registration tables).
    - [Keyboard] (the scan-code tables of os.cpp), [Os] (the event loop and the os
      functions), [Main] (main2 of main.cpp as a step relation over the state of [Os]).
    - [Term] (term.cpp: cells, cursor, palette, bit planes), [TermDraw] (what
      [blit_line] leaves on the planes), [TermOps] (the terminal's operations).
    - [FsHandle] (fs_handle.c), [Fs] (fs.cpp), [Fat] (fat.cpp, fat.hpp, fat_sync.cpp
      and parts of fat_async.cpp) with [FatProps] and [FatRead].
    - [LObject] (lobject.c), [LTable] (ltable.c) with [LTableHash] (the chains of the
      node vector), [LTableMap] (a table as a finite map), [LTableCount] and
      [LTableRehash] (the sizes a rehash picks, and that it finds room) and
      [LTableProps] (the theorems).
    - [LPattern] (the matcher of lstrlib.c) with [LPatternSpec]; [LStrlib] (the rest of
      lstrlib.c); [LTablib] (ltablib.c) with [LTablibSort].
    - [LZio] (lzio.c), [LLex] (llex.c) with [LLexProps] and [LLexRead]; [LProto] (the
      prototypes of lobject.h), [LOpcodes] (lopcodes.h), [LDebug] (the code checker of
      ldebug.c), [LUndump] (ldump.c and lundump.c).
    - [Ide] (ide.cpp, over any device with ports) with [IdeProps], whose class [AtaDisk]
      is what the driver relies on of the two drives of a channel: their registers and
      selection, when they are busy, their capacity.
    - [LFunc] (the upvalues of lfunc.c).
    - [LGc] (the mark phase of lgc.c and its write barriers) with [LGcProps] (shapes and
      well-formed heaps), [LGcMark] (marking and propagation), [LGcClear] (weak tables),
      [LGcAtomic] (the end of the phase) and [LGcCorrect] (the theorems); [LString]
      (lstring.c and the sweep of strings) with [LStringProps].
    - [Disk] (disk.cpp: partition tables and the choice of the volume) with [DiskBoot]
      (FAT12 and FAT16 volumes as the FAT specification describes them, and the boot of the
      machine from one over the IDE drive); [Vfs] (vfs.hpp).
    - [LNum] (numbers as IEEE-754 patterns), [LVm] (the interpreter loop of lvm.c over
      the class [LuaState]: the heap, the metatables and calls) with [LVmProps].
    - [LCode] (lcode.c) with [LCodeJumps] (jump lists threaded through the code) and
      [LCodePool] (the constants); [LParser] (the parser's state, variables, blocks and
      functions) and [LGrammar] (the rules of lparser.c).
    - The correctness of the compiler: [LExpr] (what an expression means), [LFinal] (what
      the words of unfinished code may still become), [LCompile], [LCompileExp],
      [LCompileReg], [LCompileVal], [LCompileOps], [LCompileCond], [LCompileBool],
      [LCompileLogic] (one function of lcode.c after the other), [LCompileExpr] (their
      calls as the grammar makes them), [LSyntax] (tokens of expressions), [LParseExpr]
      (the rules of expressions), [LCompileRet] and [LParseRet] (return statements and
      whole chunks).
    - [LDo] (ldo.c: calls, results, errors, coroutines; with the call operations of
      lvm.c) over the class [Host] of what it calls, with [LDoProps] (calls and protected
      calls) and [LDoResume] (coroutines); [LExec] ([luaV_execute] on a thread: the turns
      of [LVm] and the operations of [LDo]; and the call of a compiled chunk).
    - [LApi] (lapi.c: the functions C code uses on the stack) with [LApiProps] (the stack
      as a list); [LAuxlib] (lauxlib.c, and the theorem about its string buffers).
    - [LBase] (lbaselib.c: the global functions and the coroutine library over [LApi]).

    Definitions carry the names of the C functions. State that the code keeps in
    globals or behind pointers is a record passed along; an access the language leaves
    undefined (outside an array, through a dangling pointer, a shift that is too long)
    is [None], an error the code reports is a value of its own.

    ** What the theorems show

    - Lua tables: every store, through any number of rehashes, is the insertion of a
      finite map; traversal yields each element once; the length operator ends at a
      border; resizing and the collector's pass keep the elements.
    - Events: the linked queue refines a FIFO; [getNextEvent] delivers the first event
      that passes the filter, and delivers every event with its own parameters as long as
      the Lua stacks have room; [main2] opens and closes a session's resources in pairs.
    - Terminal: after every operation the bit planes show the cells.
    - Pattern matching: the matcher is sound and complete for a declarative relation,
      and never leaves its strings.
    - Chunks: what the dumper writes, the loader reads back; accepted code stays
      inside its own code, one operation apart (see the findings); truncated files are
      refused.
    - Scanner: every chunk is scanned to its end, without a read outside the buffers,
      and what the format %q writes is read back.
    - Files: the functional behaviour of handles and of paths; FAT tables of the three
      formats give back the entries written in them, and reading a file gives the
      bytes of its clusters; the theorems about errors show where the driver does not.
    - Sorting: table.sort returns a sorted permutation for every consistent order.
    - Collector: from a well-formed heap, the tri-colour invariant holds through every
      turn of the mark phase, every barrier and every new object; at its end nothing
      reachable is dead, and no marked object refers to an unmarked one, weakly or not.
    - Strings: the table never holds two strings with the same bytes, [luaS_newlstr]
      returns live strings, and the sweep frees exactly the dead ones of a chain and makes
      the others white.
    - Disk: a synchronous read inside the disk returns the words of the sectors asked for,
      of the drive asked, and uses no port while the drive is busy; the interrupt handler
      serves queued reads in order, each with its own sectors.
    - Upvalues: closures over one variable share its upvalue, which keeps the value when
      the variable goes out of scope; both keep the invariant of the mark phase, and in the
      other phases closing frees the dead ones and leaves none gray.
    - Compiler: for every return statement, [luaY_parser] makes code that the interpreter
      runs to the value of the expression, or to its error ([LParseRet]). Behind it is a
      relation between a state of the code generator and what the finished code does
      from there ([coded] of [LCompile], [compiled] of [LCompileExp]): it holds for all ways to finish the code,
      since pending jumps, the last instruction and the register of a TESTSET may still
      change ([role_of] of [LFinal]).
    - Boot: a FAT12 or FAT16 volume in the first partition is mounted and bios.lua is what
      is read from it; what the path of a mount point finds, also when the same directory
      is mounted twice.
    - Calls: a call leaves exactly the wanted results at the function and the caller's
      frame as it was, whatever the functions do that keep the same discipline, and
      never touches a slot outside of the stack (but for the finding about varargs); a
      protected call brings the thread back to where it was with the message on top; a
      resumed coroutine gets the arguments as the results of its yield, and one that
      fails refuses every later resume; no error gets out of pcall ([LBase]). [LExec]: the call of a parsed chunk ends with the value of its
      expression.
    - C interface: the functions that move values refine list operations, with positive
      and negative indices; a string buffer ends as one string of all that was added, in
      twelve slots.

    ** Bounds

    A loop of the code is [loopM] or a Fixpoint with a bound that the theorems show to
    be enough: the length of the rest of a stream (scanner), of the pattern (matcher),
    of the list (queues, chains), the number of clusters or sectors (FAT), the size of a
    table (rehash, length), the interval (sort). Theorems about such functions state
    the result, so they include that the bound suffices; the exceptions are loops that
    do not end in the code either (reading for ever at the end of a file, a restart
    after a reboot), which are theorems of their own. The recursion of
    [reallymarkobject] is bounded by three, since an upvalue may hold a userdata and
    this one tables only; [propagateall] by the gray objects and the objects of the heap,
    each of which turns gray once. The interpreter on a thread runs for a given number of
    turns, which may be too small ([None]); error handlers inside of error handlers are
    limited by the count of C calls ([LEVELS]).

    ** Parameters

    Code that is not in the repository is a parameter: the answers of IncludeOS (stat,
    ls, the block device, the ports, the fields of its on-disk structures, the adapter's
    registers, whether os::shutdown and os::reboot return), of the C library (strtod, strtoul, strerror, rename, unlink), the hashes
    of the strings a table holds, the functions and tables Lua programs hand to the
    libraries.

    ** Not modelled

    The models of the libraries (lstrlib.c, ltablib.c, os.cpp and the others) take the
    values of their arguments; the interface they are called through is modelled on its
    own ([LApi], [LAuxlib]), without lua_gc and the loading of files. Of ldo.c, the panic
    of an unprotected error and the protected parser; of the interpreter loop, the line
    and count hooks and what metamethods do inside of a turn (calls of an interface). The
    functions of lbaselib.c that load chunks; the standard libraries that only wrap the C
    library (liolib.c, loslib.c, lmathlib.c, loadlib.c), memory allocation and its failure; of the collector the sweep of
    objects that are not strings, finalizers and pacing; the asynchronous FAT
    traversal; print_tree of the virtual file system; the
    font, the hardware set-up of main.cpp and what reads the clock. *)
From stdpp Require Export prelude list gmap numbers strings.
From Stdlib Require Export ZArith Lia.

#[global] Arguments Z.eqb : simpl never.
#[global] Arguments Z.leb : simpl never.
#[global] Arguments Z.ltb : simpl never.
#[global] Arguments Z.land : simpl never.
#[global] Arguments Z.lor : simpl never.
#[global] Arguments Z.lxor : simpl never.
#[global] Arguments Z.shiftl : simpl never.
#[global] Arguments Z.shiftr : simpl never.
#[global] Arguments Z.testbit : simpl never.
#[global] Arguments Z.pow : simpl never.
#[global] Arguments Z.div : simpl never.
#[global] Arguments Z.modulo : simpl never.

(** ** Machine integers

    A C integer of width [w] is a [Z]; the conversions below are the ones C
    applies on assignment and on the result of arithmetic (two's complement for
    the signed types, as every compiler of the project does). *)
Definition uwrap (w x : Z) : Z := (x mod 2 ^ w)%Z.
Definition swrap (w x : Z) : Z := ((x + 2 ^ (w - 1)) mod 2 ^ w - 2 ^ (w - 1))%Z.
Abbreviation u8 := (uwrap 8).
Abbreviation u16 := (uwrap 16).
Abbreviation u32 := (uwrap 32).
Abbreviation u64 := (uwrap 64).
Abbreviation i8 := (swrap 8).
Abbreviation i32 := (swrap 32).
Abbreviation i64 := (swrap 64).

Definition INT_MAX : Z := (2 ^ 31 - 1)%Z.
Definition INT_MIN : Z := (- 2 ^ 31)%Z.

(** ** Loops

    [loop n f s] is [for (i = 0; i < n; i++) s = f(i, s)]; [loopM] is the same
    loop when the body may fail. *)
Definition loop {S : Type} (n : nat) (f : nat -> S -> S) (s : S) : S :=
  foldl (fun s i => f i s) s (seq 0 n).

Definition loopM {S : Type} (n : nat) (f : nat -> S -> option S) (s : S) : option S :=
  foldl (fun os i => s ← os; f i s) (Some s) (seq 0 n).

#[global] Arguments loop : simpl never.
#[global] Arguments loopM : simpl never.

(** ** Byte memory

    [memset], [memcpy] and [memmove] on a buffer held as a list; a store outside
    the buffer has no counterpart here, callers state their bounds. *)
Definition slice {A} (off len : nat) (l : list A) : list A := take len (drop off l).

Definition overwrite {A} (off : nat) (new l : list A) : list A :=
  take off l ++ new ++ drop (off + length new) l.

Definition memset {A} (off : nat) (v : A) (len : nat) (l : list A) : list A :=
  overwrite off (replicate len v) l.

Definition memmove {A} (dst src len : nat) (l : list A) : list A :=
  overwrite dst (slice src len l) l.

(** ** C strings

    A string is its bytes as [Z]s; the C string at a pointer stops at the first
    zero byte. *)
Abbreviation bytes := (list Z).

Fixpoint cstr (l : bytes) : bytes :=
  match l with
  | [] => []
  | b :: l' => if decide (b = 0%Z) then [] else b :: cstr l'
  end.

Definition bytes_of_string (s : string) : bytes :=
  (fun a => Z.of_N (Ascii.N_of_ascii a)) <$> String.list_ascii_of_string s.
Definition string_of_bytes (b : bytes) : string :=
  String.string_of_list_ascii ((fun c => Ascii.ascii_of_N (Z.to_N (c mod 256))) <$> b).

(** ** Little-endian integers of [n] bytes *)
Fixpoint le_encode (n : nat) (x : Z) : bytes :=
  match n with
  | O => []
  | S n' => (x mod 256)%Z :: le_encode n' (x / 256)%Z
  end.

Fixpoint le_decode (l : bytes) : Z :=
  match l with
  | [] => 0%Z
  | b :: l' => (b + 256 * le_decode l')%Z
  end.

Definition is_byte (b : Z) : Prop := (0 <= b < 256)%Z.

#[export] Instance is_byte_dec b : Decision (is_byte b).
Proof. unfold is_byte. apply _. Defined.

(** ** Results

    The result of a library function that may raise a Lua error. *)
Inductive lua_result (A : Type) := Return (a : A) | Error (msg : string).
Arguments Return {A} a.
Arguments Error {A} msg.

(** The interpreter's functions also need a place for what C leaves undefined
    (and for fuel that runs out, which theorems exclude): [None]. *)
Definition LuaM (A : Type) : Type := option (lua_result A).

Definition lret {A} (a : A) : LuaM A := Some (Return a).
Definition lerror {A} (msg : string) : LuaM A := Some (Error msg).
Definition llift {A} (o : option A) : LuaM A := Return <$> o.
Definition lbind {A B} (m : LuaM A) (k : A -> LuaM B) : LuaM B :=
  match m with
  | None => None
  | Some (Error msg) => Some (Error msg)
  | Some (Return a) => k a
  end.

Declare Scope craftos_scope.
Notation "'let*' p ':=' m 'in' k" := (lbind m (fun p => k))
  (at level 200, p pattern, m at level 100, k at level 200) : craftos_scope.
Open Scope craftos_scope.

(** [lsafe m P]: [m] is defined, and returns only values with [P] (or raises an error). *)
Definition lsafe {A} (m : LuaM A) (P : A -> Prop) : Prop :=
  match m with None => False | Some (Error _) => True | Some (Return a) => P a end.

Lemma lbind_assoc {A B C} (m : LuaM A) (f : A -> LuaM B) (g : B -> LuaM C) : lbind (lbind m f) g = lbind m (fun a => lbind (f a) g).
Proof. by destruct m as [[a|msg]|]. Qed.
Lemma lsafe_bind {A B} (P : A -> Prop) (Q : B -> Prop) m k :
  lsafe m P -> (forall a, P a -> lsafe (k a) Q) -> lsafe (lbind m k) Q.
Proof. destruct m as [[a|msg]|]; simpl; auto. Qed.

Lemma lsafe_mono {A} (P Q : A -> Prop) m : lsafe m P -> (forall a, P a -> Q a) -> lsafe m Q.
Proof. destruct m as [[a|msg]|]; simpl; auto. Qed.

Lemma lsafe_and {A} (P Q : A -> Prop) m : lsafe m P -> (forall a, m = lret a -> Q a) -> lsafe m (fun a => P a /\ Q a).
Proof. destruct m as [[a|msg]|]; simpl; auto. Qed.

Lemma lsafe_lift {A} (o : option A) a (P : A -> Prop) : o = Some a -> P a -> lsafe (llift o) P.
Proof. by intros ->. Qed.

Lemma lsafe_ret {A} (a : A) (P : A -> Prop) : P a -> lsafe (lret a) P.
Proof. done. Qed.

Lemma lsafe_error {A} msg (P : A -> Prop) : lsafe (@lerror A msg) P.
Proof. done. Qed.

(** Binding a value that is already there. *)
Lemma lbind_lift {A B} (o : option A) a (k : A -> LuaM B) : o = Some a -> lbind (llift o) k = k a.
Proof. by intros ->. Qed.

(** ** Lemmas on machine integers *)
Lemma uwrap_range w x : (0 <= w)%Z -> (0 <= uwrap w x < 2 ^ w)%Z.
Proof. intros. apply Z.mod_pos_bound. apply Z.pow_pos_nonneg; lia. Qed.

Lemma uwrap_small w x : (0 <= x < 2 ^ w)%Z -> uwrap w x = x.
Proof. apply Z.mod_small. Qed.

Lemma uwrap_idemp w x : uwrap w (uwrap w x) = uwrap w x.
Proof. apply Zmod_mod. Qed.

Lemma swrap_small w x : (0 < w)%Z -> (- 2 ^ (w - 1) <= x < 2 ^ (w - 1))%Z -> swrap w x = x.
Proof.
  intros Hw Hx. unfold swrap. rewrite Z.mod_small; [lia|].
  assert (2 ^ w = 2 * 2 ^ (w - 1))%Z by (rewrite <- Z.pow_succ_r; [f_equal|]; lia). lia.
Qed.

Lemma swrap_range w x : (0 < w)%Z -> (- 2 ^ (w - 1) <= swrap w x < 2 ^ (w - 1))%Z.
Proof.
  intros Hw. unfold swrap.
  assert (2 ^ w = 2 * 2 ^ (w - 1))%Z by (rewrite <- Z.pow_succ_r; [f_equal|]; lia).
  pose proof (Z.mod_pos_bound (x + 2 ^ (w - 1)) (2 ^ w)).
  pose proof (Z.pow_pos_nonneg 2 (w - 1)). lia.
Qed.

Lemma uwrap_testbit w x i : (0 <= w)%Z -> Z.testbit (uwrap w x) i = (Z.testbit x i && (i <? w)%Z).
Proof.
  intros Hw. unfold uwrap. destruct (Z.ltb_spec i w).
  - rewrite andb_true_r. destruct (Z.neg_nonneg_cases i).
    + by rewrite !Z.testbit_neg_r.
    + by rewrite Z.mod_pow2_bits_low.
  - rewrite andb_false_r. apply Z.mod_pow2_bits_high. lia.
Qed.

Lemma mod_mod_pow2 w1 w2 x : (0 <= w1 <= w2)%Z -> ((x mod 2 ^ w2) mod 2 ^ w1 = x mod 2 ^ w1)%Z.
Proof.
  intros Hw. symmetry. apply Znumtheory.Zmod_div_mod.
  - apply Z.pow_pos_nonneg; lia.
  - apply Z.pow_pos_nonneg; lia.
  - exists (2 ^ (w2 - w1))%Z. rewrite <- Z.pow_add_r by lia. f_equal. lia.
Qed.

Lemma swrap_uwrap w1 w2 x : (0 < w1 <= w2)%Z -> swrap w1 (uwrap w2 x) = swrap w1 x.
Proof.
  intros Hw. unfold swrap, uwrap. f_equal.
  rewrite <- (Zplus_mod_idemp_l (x mod 2 ^ w2)), <- (Zplus_mod_idemp_l x).
  by rewrite mod_mod_pow2 by lia.
Qed.

Lemma testbit_high w x i : (0 <= x < 2 ^ w)%Z -> (w <= i)%Z -> Z.testbit x i = false.
Proof.
  intros Hx Hi. destruct (Z.neg_nonneg_cases w).
  { rewrite Z.pow_neg_r in Hx; lia. }
  rewrite <- (Z.mod_small x (2 ^ w)) by done. apply Z.mod_pow2_bits_high. lia.
Qed.

Lemma testbit_neg_high w x i : (- 2 ^ w <= x < 0)%Z -> (0 <= w <= i)%Z -> Z.testbit x i = true.
Proof.
  intros Hx Hi. rewrite <- (Z.lnot_involutive x), Z.lnot_spec by lia.
  rewrite (testbit_high w); [done| |lia]. unfold Z.lnot. lia.
Qed.

Lemma swrap_testbit w x i : (0 < w)%Z -> (i < w)%Z -> Z.testbit (swrap w x) i = Z.testbit x i.
Proof.
  intros Hw Hi. destruct (Z.neg_nonneg_cases i); [by rewrite !Z.testbit_neg_r|].
  unfold swrap.
  rewrite <- (Z.mod_pow2_bits_low _ w i), <- (Z.mod_pow2_bits_low x w i) by lia.
  rewrite Zminus_mod_idemp_l.
  by replace (x + 2 ^ (w - 1) - 2 ^ (w - 1))%Z with x by lia.
Qed.

(** ** Lemmas on loops *)
Lemma loop_S {S} n (f : nat -> S -> S) s : loop (Datatypes.S n) f s = f n (loop n f s).
Proof. unfold loop. by rewrite seq_S, foldl_app. Qed.

Lemma loop_0 {S} (f : nat -> S -> S) s : loop 0 f s = s.
Proof. done. Qed.

Lemma loop_ind {S} (P : nat -> S -> Prop) n (f : nat -> S -> S) s :
  P 0 s -> (forall i s, i < n -> P i s -> P (Datatypes.S i) (f i s)) -> P n (loop n f s).
Proof.
  induction n as [|n IH]; intros H0 Hs; [done|].
  rewrite loop_S. apply Hs; [lia|]. apply IH; [done|]. intros; apply Hs; auto with lia.
Qed.

Lemma loopM_S {S} n (f : nat -> S -> option S) s :
  loopM (Datatypes.S n) f s = (s' ← loopM n f s; f n s').
Proof. unfold loopM. by rewrite seq_S, foldl_app. Qed.

Lemma loopM_ind {S} (P : nat -> S -> Prop) n (f : nat -> S -> option S) s :
  P 0 s ->
  (forall i s, i < n -> P i s -> exists s', f i s = Some s' /\ P (Datatypes.S i) s') ->
  exists s', loopM n f s = Some s' /\ P n s'.
Proof.
  induction n as [|n IH]; intros H0 Hs; [by exists s|].
  rewrite loopM_S. destruct IH as (s1 & -> & Hp); [done|auto with lia|].
  apply Hs; [lia|done].
Qed.

(** ** Lemmas on buffers *)
Lemma length_slice {A} off len (l : list A) :
  off + len <= length l -> length (slice off len l) = len.
Proof. intros. unfold slice. rewrite length_take, length_drop. lia. Qed.

Lemma lookup_slice {A} off len (l : list A) i :
  i < len -> slice off len l !! i = l !! (off + i).
Proof. intros. unfold slice. rewrite lookup_take_lt by done. apply lookup_drop. Qed.

Lemma length_overwrite {A} off (new l : list A) :
  off + length new <= length l -> length (overwrite off new l) = length l.
Proof.
  intros. unfold overwrite. rewrite !length_app, length_take, length_drop. lia.
Qed.

Lemma lookup_overwrite {A} off (new l : list A) i :
  off + length new <= length l ->
  overwrite off new l !! i =
    if decide (off <= i < off + length new) then new !! (i - off) else l !! i.
Proof.
  intros Hl. unfold overwrite.
  assert (length (take off l) = off) as Ht by (rewrite length_take; lia).
  case_decide as Hi.
  - rewrite lookup_app_r by lia. rewrite Ht, lookup_app_l by lia. done.
  - destruct (decide (i < off)).
    + rewrite lookup_app_l by lia. apply lookup_take_lt. lia.
    + rewrite lookup_app_r by lia. rewrite Ht. rewrite lookup_app_r by lia.
      rewrite lookup_drop. f_equal. lia.
Qed.

Lemma length_memset {A} off (v : A) len l :
  off + len <= length l -> length (memset off v len l) = length l.
Proof. intros. apply length_overwrite. by rewrite length_replicate. Qed.

Lemma lookup_memset {A} off (v : A) len l i :
  off + len <= length l ->
  memset off v len l !! i = if decide (off <= i < off + len) then Some v else l !! i.
Proof.
  intros Hl. unfold memset. rewrite lookup_overwrite by (rewrite length_replicate; lia).
  rewrite length_replicate. case_decide; [|done]. apply lookup_replicate_2. lia.
Qed.

Lemma length_memmove {A} dst src len (l : list A) :
  dst + len <= length l -> src + len <= length l ->
  length (memmove dst src len l) = length l.
Proof. intros. apply length_overwrite. rewrite length_slice; lia. Qed.

Lemma lookup_memmove {A} dst src len (l : list A) i :
  dst + len <= length l -> src + len <= length l ->
  memmove dst src len l !! i =
    if decide (dst <= i < dst + len) then l !! (src + (i - dst)) else l !! i.
Proof.
  intros Hd Hs. unfold memmove. rewrite lookup_overwrite by (rewrite length_slice; lia).
  rewrite length_slice by lia. case_decide; [|done]. apply lookup_slice. lia.
Qed.

(** ** Lemmas on C strings and little-endian integers *)
Lemma cstr_no_zero l : 0%Z ∉ cstr l.
Proof.
  induction l as [|b l IH]; simpl; [by apply not_elem_of_nil|].
  case_decide; [by apply not_elem_of_nil|]. rewrite not_elem_of_cons. auto.
Qed.

Lemma cstr_id l : 0%Z ∉ l -> cstr l = l.
Proof.
  induction l as [|b l IH]; simpl; [done|]. rewrite not_elem_of_cons. intros [? ?].
  rewrite decide_False by done. f_equal; auto.
Qed.

Lemma cstr_terminated l1 l2 : 0%Z ∉ l1 -> cstr (l1 ++ 0%Z :: l2) = l1.
Proof.
  induction l1 as [|b l IH]; simpl; [done|]. rewrite not_elem_of_cons. intros [? ?].
  rewrite decide_False by done. f_equal; auto.
Qed.

Lemma length_le_encode n x : length (le_encode n x) = n.
Proof. revert x. induction n; intros; simpl; auto. Qed.

Lemma le_encode_bytes n x : Forall is_byte (le_encode n x).
Proof.
  revert x. induction n as [|n IH]; intros; simpl; constructor; [|done].
  unfold is_byte. pose proof (Z.mod_pos_bound x 256). lia.
Qed.

Lemma le_decode_encode n x :
  (0 <= x < 2 ^ (8 * Z.of_nat n))%Z -> le_decode (le_encode n x) = x.
Proof.
  revert x. induction n as [|n IH]; intros x Hx; [simpl in *; lia|].
  simpl. rewrite IH.
  - pose proof (Z.div_mod x 256). lia.
  - replace (8 * Z.of_nat (S n))%Z with (8 + 8 * Z.of_nat n)%Z in Hx by lia.
    rewrite Z.pow_add_r in Hx by lia. change (2 ^ 8)%Z with 256%Z in Hx.
    split; [apply Z.div_pos; lia|]. apply Z.div_lt_upper_bound; lia.
Qed.

Lemma le_encode_decode l : Forall is_byte l -> le_encode (length l) (le_decode l) = l.
Proof.
  induction 1 as [|b l Hb Hl IH]; [done|]. simpl. unfold is_byte in Hb. f_equal.
  - rewrite Z.mul_comm, Z_mod_plus_full. apply Z.mod_small. lia.
  - rewrite Z.mul_comm, Z_div_plus_full by lia. rewrite (Z.div_small b) by lia. done.
Qed.

Lemma le_decode_range l : Forall is_byte l -> (0 <= le_decode l < 2 ^ (8 * Z.of_nat (length l)))%Z.
Proof.
  induction 1 as [|b l Hb Hl IH]; [simpl; lia|]. cbn [le_decode length]. unfold is_byte in Hb.
  replace (8 * Z.of_nat (S (length l)))%Z with (8 + 8 * Z.of_nat (length l))%Z by lia.
  rewrite Z.pow_add_r by lia. change (2 ^ 8)%Z with 256%Z. lia.
Qed.

(** ** Automation *)
Create HintDb craftos discriminated.
Create Rewrite HintDb craftos.
#[export] Hint Rewrite @length_overwrite @length_memset @length_memmove
  using (rewrite ?length_replicate; lia) : craftos.
#[export] Hint Resolve le_encode_bytes cstr_no_zero : craftos.

(** Case analysis on every [if] and [match] of the goal, closing the absurd cases. *)
Ltac split_ifs :=
  repeat match goal with
  | |- context [if decide ?P then _ else _] => destruct (decide P)
  | |- context [if ?b then _ else _] => destruct b eqn:?
  end; try done; try lia.

(** Peels the binds of an option computation known to succeed. *)
Ltac inv_bind H :=
  repeat match type of H with
  | (_ ≫= _) = Some _ => apply bind_Some in H as (? & ? & H)
  end.
