(* ===== verification/Queue.v ===== *)
(** * The linked queue of queue.c and queue.h

    Nodes live in a heap of [malloc]ed cells, [queue] holds the two pointers, and
    every operation is the C function on that heap: [None] is the undefined
    behaviour of dereferencing a pointer that is not a live cell. [FifoQueue] is
    the interface the event loop is proved against; the linked queue is its
    instance. *)
From S2P Require Import Prelude.

Section Definitions.
Context {A : Type}.

Abbreviation loc := positive.

(** [struct pointer_type]: [data] is [None] for the NULL pointer. *)
Record pointer_type := { data : option A; next : option loc }.

(** [struct queue], [NULL] being [None]. *)
Record queue := { _front : option loc; _back : option loc }.

Abbreviation heap := (gmap loc pointer_type).

(** [eventQueue._back = NULL; eventQueue._front = NULL] *)
Definition queue_init : queue := {| _front := None; _back := None |}.

Definition queue_empty (q : queue) : bool := bool_decide (_back q = None).

(** The loop of [queue_size]: the fuel bounds the cells a chain can visit. *)
Fixpoint count_nodes (fuel : nat) (h : heap) (current : option loc) (i : Z) : option Z :=
  match current, fuel with
  | None, _ => Some i
  | Some _, O => None
  | Some p, S fuel' => n ← h !! p; count_nodes fuel' h (next n) (i32 (i + 1))
  end.

Definition queue_size (h : heap) (q : queue) : option Z :=
  i ← count_nodes (size h) h (_front q) 0; Some (u64 i).

Definition queue_front (h : heap) (q : queue) : option (option A) :=
  match _front q with
  | None => Some None
  | Some p => n ← h !! p; Some (data n)
  end.

Definition queue_back (h : heap) (q : queue) : option (option A) :=
  match _back q with
  | None => Some None
  | Some p => n ← h !! p; Some (data n)
  end.

(** [malloc] returns a cell that is not in use. *)
Definition malloc (h : heap) : loc := fresh (dom h).

Definition queue_push (h : heap) (q : queue) (val : option A) : option (heap * queue) :=
  let p := malloc h in
  let h := <[p := {| data := val; next := None |}]> h in
  h ← match _back q, _front q with
      | Some b, Some _ =>
          n ← h !! b; Some (<[b := {| data := data n; next := Some p |}]> h)
      | _, _ => Some h
      end;
  Some (h, {| _front := match _front q with None => Some p | f => f end;
              _back := Some p |}).

Definition queue_pop (h : heap) (q : queue) : option (heap * queue) :=
  match _front q with
  | None => Some (h, q)
  | Some p =>
      n ← h !! p;
      Some (delete p h,
            {| _front := next n;
               _back := match next n with None => None | Some _ => _back q end |})
  end.

(** A run of queue operations and the values [queue_front] showed on the way. *)
Inductive op := Push (v : option A) | Pop | Front.

Definition step (h : heap) (q : queue) (o : op) : option (heap * queue * list (option A)) :=
  match o with
  | Push v => '(h, q) ← queue_push h q v; Some (h, q, [])
  | Pop => '(h, q) ← queue_pop h q; Some (h, q, [])
  | Front => v ← queue_front h q; Some (h, q, [v])
  end.

Fixpoint run (h : heap) (q : queue) (ops : list op) : option (heap * queue * list (option A)) :=
  match ops with
  | [] => Some (h, q, [])
  | o :: ops =>
      '(h, q, out) ← step h q o;
      '(h, q, out') ← run h q ops;
      Some (h, q, out ++ out')
  end.

(** The abstract queue: a list, pushed at its end and popped at its head. *)
Definition abs_step (xs : list (option A)) (o : op) : list (option A) * list (option A) :=
  match o with
  | Push v => (xs ++ [v], [])
  | Pop => (tail xs, [])
  | Front => (xs, [default None (head xs)])
  end.

Fixpoint abs_run (xs : list (option A)) (ops : list op) : list (option A) * list (option A) :=
  match ops with
  | [] => (xs, [])
  | o :: ops =>
      let '(xs, out) := abs_step xs o in
      let '(xs, out') := abs_run xs ops in (xs, out ++ out')
  end.

(** [chain h p ls xs]: from [p], the cells [ls] in order hold [xs] and end in NULL. *)
Fixpoint chain (h : heap) (p : option loc) (ls : list loc) (xs : list (option A)) : Prop :=
  match ls, xs with
  | [], [] => p = None
  | l :: ls, x :: xs =>
      p = Some l /\ exists nx, h !! l = Some {| data := x; next := nx |} /\ chain h nx ls xs
  | _, _ => False
  end.

(** The representation invariant of a queue that owns the cells [ls]. *)
Definition repr (h : heap) (q : queue) (ls : list loc) (xs : list (option A)) : Prop :=
  NoDup ls /\ chain h (_front q) ls xs /\ _back q = last ls.

(** Cells outside [ls] are the same in both heaps. *)
Definition frame (ls : list loc) (h h' : heap) : Prop :=
  forall l, l ∉ ls -> h !! l <> None -> h' !! l = h !! l.

End Definitions.

Arguments pointer_type : clear implicits.
Arguments op : clear implicits.
Abbreviation heap A := (gmap positive (pointer_type A)).

(** ** The interface *)
Class FifoQueue (Q A : Type) := {
  fq_empty : Q -> bool;
  fq_size : Q -> option Z;
  fq_front : Q -> option (option A);
  fq_push : Q -> option A -> option Q;
  fq_pop : Q -> option Q;
  fq_new : Q;
  fq_repr : Q -> list (option A) -> Prop;
  fq_new_repr : fq_repr fq_new [];
  fq_empty_spec q xs : fq_repr q xs -> fq_empty q = bool_decide (xs = []);
  fq_size_spec q xs : fq_repr q xs -> (Z.of_nat (length xs) <= INT_MAX)%Z ->
    fq_size q = Some (Z.of_nat (length xs));
  fq_front_spec q xs : fq_repr q xs -> fq_front q = Some (default None (head xs));
  fq_push_spec q xs v : fq_repr q xs -> exists q', fq_push q v = Some q' /\ fq_repr q' (xs ++ [v]);
  fq_pop_spec q xs : fq_repr q xs -> exists q', fq_pop q = Some q' /\ fq_repr q' (tail xs);
}.

(** ** Chains *)
Section Lemmas.
Context {A : Type}.
Implicit Types (h : heap A) (q : queue) (ls : list positive) (xs : list (option A)).

Lemma chain_length h p ls xs : chain h p ls xs -> length ls = length xs.
Proof.
  revert p xs. induction ls as [|l ls IH]; intros p [|x xs]; simpl; try done.
  intros (_ & nx & _ & Hc). f_equal. eauto.
Qed.

Lemma chain_dom h p ls xs l : chain h p ls xs -> l ∈ ls -> is_Some (h !! l).
Proof.
  revert p xs. induction ls as [|l' ls IH]; intros p [|x xs]; simpl; try done.
  - intros _ []%not_elem_of_nil.
  - intros (_ & nx & Hl & Hc) [->|?]%elem_of_cons; eauto.
Qed.

Lemma chain_ext h h' p ls xs :
  (forall l, l ∈ ls -> h' !! l = h !! l) -> chain h p ls xs -> chain h' p ls xs.
Proof.
  revert p xs. induction ls as [|l ls IH]; intros p [|x xs] He; simpl; try done.
  intros (-> & nx & Hl & Hc). split; [done|]. exists nx.
  rewrite He by apply list_elem_of_here. split; [done|].
  apply IH; [|done]. intros; apply He; by apply list_elem_of_further.
Qed.

Lemma chain_snoc h p ls xs l b n v :
  chain h p (ls ++ [b]) xs -> NoDup (ls ++ [b]) -> l ∉ ls ++ [b] ->
  h !! b = Some n ->
  chain (<[b := {| data := data n; next := Some l |}]>
          (<[l := {| data := v; next := None |}]> h)) p (ls ++ [b; l]) (xs ++ [v]).
Proof.
  revert p xs. induction ls as [|l' ls IH]; intros p [|x xs]; simpl; try done.
  - intros (-> & nx & Hb & Hc) _ Hl Hn. split; [done|]. exists (Some l).
    destruct xs; [|done]. simpl in Hc. simplify_eq. simpl.
    assert (b <> l) by set_solver. rewrite lookup_insert_eq. split; [done|].
    split; [done|]. exists None. by rewrite lookup_insert_ne, lookup_insert_eq by done.
  - intros (-> & nx & Hb & Hc) [Hd1 Hd2]%NoDup_cons Hl Hn. split; [done|]. exists nx.
    rewrite lookup_insert_ne, lookup_insert_ne by set_solver. split; [done|].
    apply IH; try done. set_solver.
Qed.

Lemma last_app_split (ls : list positive) : ls = [] \/ exists ls' b, ls = ls' ++ [b].
Proof. destruct ls as [|b ls'] using rev_ind; eauto. Qed.

Lemma repr_front_None h q ls xs : repr h q ls xs -> _front q = None -> ls = [] /\ xs = [].
Proof. intros (_ & Hc & _) Hf. destruct ls, xs; simpl in Hc; naive_solver. Qed.

Lemma repr_back_None h q ls xs : repr h q ls xs -> (_back q = None <-> xs = []).
Proof.
  intros (_ & Hc & ->). apply chain_length in Hc.
  destruct (last_app_split ls) as [->|(ls' & b & ->)].
  - split; [|done]. by destruct xs.
  - rewrite last_snoc. split; [done|]. intros ->. rewrite length_app in Hc. simpl in Hc. lia.
Qed.

(** A chain of distinct live cells is no longer than the heap. *)
Lemma chain_size h p ls xs : chain h p ls xs -> NoDup ls -> length ls <= size h.
Proof.
  intros Hc Hn. rewrite <- (size_list_to_set (C := gset positive) ls) by done.
  rewrite <- (size_dom (D := gset positive) h). apply subseteq_size. intros l Hl%elem_of_list_to_set.
  apply elem_of_dom. eauto using chain_dom.
Qed.

Lemma count_nodes_chain fuel h p ls xs i :
  chain h p ls xs -> length ls <= fuel -> (0 <= i)%Z ->
  (i + Z.of_nat (length ls) <= INT_MAX)%Z ->
  count_nodes fuel h p i = Some (i + Z.of_nat (length ls))%Z.
Proof.
  revert p xs i fuel. induction ls as [|l ls IH]; intros p [|x xs] i fuel; simpl; try done.
  - intros -> _ _ _. destruct fuel; simpl; f_equal; lia.
  - intros (-> & nx & Hl & Hc) Hf Hi Hm. destruct fuel as [|fuel]; [lia|]. simpl.
    rewrite Hl. simpl. unfold INT_MAX in *. rewrite swrap_small by lia.
    rewrite (IH nx xs) by (done || lia). f_equal. lia.
Qed.

Lemma queue_size_spec h q ls xs :
  repr h q ls xs -> (Z.of_nat (length xs) <= INT_MAX)%Z ->
  queue_size h q = Some (Z.of_nat (length xs)).
Proof.
  intros (Hn & Hc & _) Hl. pose proof (chain_length _ _ _ _ Hc) as He. unfold queue_size.
  rewrite (count_nodes_chain _ _ _ ls xs) by (eauto using chain_size || lia). simpl. f_equal.
  rewrite He. apply uwrap_small. unfold INT_MAX in *. lia.
Qed.

Lemma queue_empty_spec h q ls xs : repr h q ls xs -> queue_empty q = bool_decide (xs = []).
Proof. intros H%repr_back_None. unfold queue_empty. by apply bool_decide_ext. Qed.

Lemma queue_front_spec h q ls xs :
  repr h q ls xs -> queue_front h q = Some (default None (head xs)).
Proof.
  intros (_ & Hc & _). unfold queue_front.
  destruct ls as [|l ls], xs as [|x xs]; simpl in Hc; try done.
  - by rewrite Hc.
  - destruct Hc as (-> & nx & -> & _). done.
Qed.

Lemma queue_back_spec h q ls xs :
  repr h q ls xs -> queue_back h q = Some (default None (last xs)).
Proof.
  intros (_ & Hc & Hb). unfold queue_back. rewrite Hb. clear Hb. revert Hc.
  generalize (_front q). revert xs.
  induction ls as [|l ls IH]; intros xs p Hc.
  - by destruct xs.
  - destruct xs as [|x xs]; [done|]. simpl in Hc. destruct Hc as (-> & nx & Hl & Hc).
    destruct ls as [|l' ls], xs as [|x' xs]; simpl in Hc; try done.
    + simpl. by rewrite Hl.
    + rewrite !last_cons_cons. by apply (IH (x' :: xs) nx).
Qed.

(** Pushing: the value is queued behind the others, in a cell that was not in use. *)
Lemma queue_push_repr h q ls xs v :
  repr h q ls xs ->
  exists h' q', queue_push h q v = Some (h', q') /\
    repr h' q' (ls ++ [malloc h]) (xs ++ [v]) /\ malloc h ∉ dom h /\ frame ls h h'.
Proof.
  intros Hr. pose proof Hr as (Hn & Hc & Hb).
  assert (malloc h ∉ dom h) as Hfresh by apply is_fresh.
  assert (malloc h ∉ ls) as Hnew.
  { intros Hin. apply Hfresh, elem_of_dom. eauto using chain_dom. }
  unfold queue_push. destruct (last_app_split ls) as [->|(ls' & b & ->)].
  - simpl in Hc. destruct xs; [|done]. rewrite Hb, Hc. simpl.
    eexists _, _. split; [done|]. split; [|split; [done|]].
    + repeat split; simpl; [by apply NoDup_singleton|]. exists None.
      by rewrite lookup_insert_eq.
    + intros l _ Hl. rewrite lookup_insert_ne; [done|]. intros <-.
      apply Hl, not_elem_of_dom_1, Hfresh.
  - rewrite last_snoc in Hb. rewrite Hb.
    destruct (_front q) as [f|] eqn:Hf.
    2:{ destruct (repr_front_None h q (ls' ++ [b]) xs) as [? _]; [done..|]. by destruct ls'. }
    destruct (chain_dom h (Some f) (ls' ++ [b]) xs b) as [n Hbn]; [done|set_solver|].
    rewrite lookup_insert_ne by set_solver. rewrite Hbn. simpl.
    eexists _, _. split; [done|]. split; [|split; [done|]].
    + split; [|split].
      * apply NoDup_app. split_and!; [done| |by apply NoDup_singleton]. set_solver.
      * cbn [_front]. rewrite <- app_assoc. by apply chain_snoc.
      * cbn [_back]. by rewrite last_snoc.
    + intros l Hl Hin. rewrite lookup_insert_ne by set_solver. rewrite lookup_insert_ne; [done|].
      intros <-. apply Hin, not_elem_of_dom_1, Hfresh.
Qed.

(** Popping: the head value leaves and its cell is freed. *)
Lemma queue_pop_repr h q ls xs :
  repr h q ls xs ->
  exists h' q', queue_pop h q = Some (h', q') /\ repr h' q' (tail ls) (tail xs) /\ frame ls h h'.
Proof.
  intros (Hn & Hc & Hb). unfold queue_pop. destruct ls as [|l ls], xs as [|x xs]; simpl in Hc; try done.
  - rewrite Hc. eexists _, _. repeat split; simpl; [constructor|done|by rewrite Hb].
  - destruct Hc as (-> & nx & Hl & Hc). rewrite Hl. simpl. apply NoDup_cons in Hn as [Hn1 Hn2].
    do 2 eexists. split; [done|]. split; [split; [done|split]|].
    + cbn [_front]. eapply chain_ext; [|done]. intros l' Hl'. rewrite lookup_delete_ne; [done|].
      by intros ->.
    + cbn [_back]. rewrite Hb. destruct ls as [|l' ls]; [by destruct xs; simpl in Hc; simplify_eq|].
      destruct xs; [done|]. simpl in Hc. destruct Hc as (-> & _). done.
    + intros l' Hl' _. rewrite lookup_delete_ne; [done|]. set_solver.
Qed.

End Lemmas.

(** ** The linked queue implements the interface *)
#[export] Program Instance linked_queue (A : Type) : FifoQueue (heap A * queue) A := {
  fq_empty q := queue_empty (snd q);
  fq_size q := queue_size (fst q) (snd q);
  fq_front q := queue_front (fst q) (snd q);
  fq_push q v := queue_push (fst q) (snd q) v;
  fq_pop q := queue_pop (fst q) (snd q);
  fq_new := (∅, queue_init);
  fq_repr q xs := exists ls, repr (fst q) (snd q) ls xs;
}.
Next Obligation. intros A. exists []. repeat split. constructor. Qed.
Next Obligation. intros A q xs [ls H]. by eapply queue_empty_spec. Qed.
Next Obligation. intros A q xs [ls H] ?. by eapply queue_size_spec. Qed.
Next Obligation. intros A q xs [ls H]. by eapply queue_front_spec. Qed.
Next Obligation.
  intros A q xs v [ls H]. destruct (queue_push_repr _ _ _ _ v H) as (h' & q' & Hp & Hr & _).
  exists (h', q'). eauto.
Qed.
Next Obligation.
  intros A q xs [ls H]. destruct (queue_pop_repr _ _ _ _ H) as (h' & q' & Hp & Hr & _).
  exists (h', q'). eauto.
Qed.

Section Runs.
Context {A : Type}.

Lemma step_refines (h : heap A) q ls xs o :
  repr h q ls xs ->
  exists h' q' ls', step h q o = Some (h', q', snd (abs_step xs o)) /\
    repr h' q' ls' (fst (abs_step xs o)).
Proof.
  intros Hr. destruct o as [v| |]; simpl.
  - destruct (queue_push_repr _ _ _ _ v Hr) as (h' & q' & -> & Hr' & _). eauto 10.
  - destruct (queue_pop_repr _ _ _ _ Hr) as (h' & q' & -> & Hr' & _). eauto 10.
  - rewrite (queue_front_spec _ _ _ _ Hr). simpl. eauto 10.
Qed.

Lemma run_refines (h : heap A) q ls xs ops :
  repr h q ls xs ->
  exists h' q' ls', run h q ops = Some (h', q', snd (abs_run xs ops)) /\
    repr h' q' ls' (fst (abs_run xs ops)).
Proof.
  revert h q ls xs. induction ops as [|o ops IH]; intros h q ls xs Hr; simpl; [eauto 10|].
  destruct (step_refines h q ls xs o Hr) as (h1 & q1 & ls1 & -> & Hr1).
  destruct (abs_step xs o) as [xs1 out]. simpl in *.
  destruct (IH _ _ _ _ Hr1) as (h2 & q2 & ls2 & -> & Hr2).
  destruct (abs_run xs1 ops) as [xs2 out']. simpl in *. eauto 10.
Qed.

(** C13. Any sequence of pushes, pops and reads on a queue that starts empty runs
    without touching a dead cell, shows the values the abstract first-in first-out
    list shows, and ends representing that list. *)
Theorem queue_refines_fifo (ops : list (op A)) :
  exists h q ls, run ∅ queue_init ops = Some (h, q, snd (abs_run [] ops)) /\
    repr h q ls (fst (abs_run [] ops)) /\ queue_empty q = bool_decide (fst (abs_run [] ops) = []).
Proof.
  destruct (run_refines ∅ queue_init [] [] ops) as (h & q & ls & Hrun & Hr).
  { repeat split. constructor. }
  exists h, q, ls. split_and!; [done|done|]. by eapply queue_empty_spec.
Qed.

(** Pushing on one queue and popping from it leave a second queue that shares
    the heap intact: its cells keep representing the same values. *)
Theorem queues_do_not_interfere (h : heap A) q1 q2 ls1 ls2 xs1 xs2 v :
  repr h q1 ls1 xs1 -> repr h q2 ls2 xs2 -> ls1 ## ls2 ->
  (exists h' q1' ls1', queue_push h q1 v = Some (h', q1') /\
     repr h' q1' ls1' (xs1 ++ [v]) /\ repr h' q2 ls2 xs2 /\ ls1' ## ls2) /\
  (exists h' q1' ls1', queue_pop h q1 = Some (h', q1') /\
     repr h' q1' ls1' (tail xs1) /\ repr h' q2 ls2 xs2 /\ ls1' ## ls2).
Proof.
  intros H1 H2 Hd. pose proof H2 as (Hn & Hc & Hb).
  assert (forall h', frame ls1 h h' -> repr h' q2 ls2 xs2) as Hf.
  { intros h' Hf. split_and!; try done. eapply chain_ext; [|done]. intros l Hl.
    apply Hf; [by intros ?; apply (Hd l)|]. apply not_eq_None_Some. eauto using chain_dom. }
  split.
  - destruct (queue_push_repr _ _ _ _ v H1) as (h' & q' & Hp & Hr & Hfr & Hframe).
    exists h', q', (ls1 ++ [malloc h]). split_and!; eauto. intros l [Hl|Hl%list_elem_of_singleton]%elem_of_app Hl2; [by apply (Hd l)|].
    subst. apply Hfr, elem_of_dom. eauto using chain_dom.
  - destruct (queue_pop_repr _ _ _ _ H1) as (h' & q' & Hp & Hr & Hframe).
    exists h', q', (tail ls1). split_and!; eauto. intros l Hl. apply Hd.
    by destruct ls1; [|apply list_elem_of_further].
Qed.

End Runs.

(** Two queues in one heap, as [eventQueue] and [timerQueue] are. *)
Definition two_queues : heap Z * queue * queue :=
  let node v nx := {| data := Some v; next := nx |} in
  (<[1%positive := node 10%Z (Some 2%positive)]> (<[2%positive := node 20%Z None]>
     (<[3%positive := node 30%Z None]> ∅)),
   {| _front := Some 1%positive; _back := Some 2%positive |},
   {| _front := Some 3%positive; _back := Some 3%positive |}).

Lemma queues_do_not_interfere_witness :
  exists h' q1' ls1', queue_pop two_queues.1.1 two_queues.1.2 = Some (h', q1') /\
     repr h' q1' ls1' [Some 20%Z] /\ repr h' two_queues.2 [3%positive] [Some 30%Z] /\
     ls1' ## [3%positive].
Proof.
  refine (proj2 (queues_do_not_interfere two_queues.1.1 two_queues.1.2 two_queues.2
            [1%positive; 2%positive] [3%positive] [Some 10%Z; Some 20%Z] [Some 30%Z]
            (Some 40%Z) _ _ _)).
  - split_and!; [by compute_done| |done]. split; [done|]. eexists. split; [done|].
    split; [done|]. by eexists.
  - split_and!; [by compute_done| |done]. split; [done|]. by eexists.
  - set_solver.
Defined.
