(* ===== verification/Bit.v ===== *)
(** * The bit library of bit.h

    Each function is [bit_<name>] on the integers [lua_tointeger] returned for its
    arguments; [unsigned int a = lua_tointeger(L, n)] keeps the low 32 bits.
    [None] is a shift whose count is not below the width, which C leaves undefined. *)
From S2P Require Import Prelude.
#[local] Open Scope Z_scope.

Definition bit_band (x y : Z) : Z := let a := u32 x in let b := u32 y in Z.land a b.
Definition bit_bor (x y : Z) : Z := let a := u32 x in let b := u32 y in Z.lor a b.
Definition bit_bnot (x : Z) : Z := let a := u32 x in Z.land (u32 (Z.lnot a)) 0xFFFFFFFF.
Definition bit_bxor (x y : Z) : Z := let a := u32 x in let b := u32 y in Z.lxor a b.

(** [a << b] and [a >> b] on [unsigned int]. *)
Definition shl32 (a b : Z) : option Z := if (0 <=? b) && (b <? 32) then Some (u32 (Z.shiftl a b)) else None.
Definition shr32 (a b : Z) : option Z := if (0 <=? b) && (b <? 32) then Some (Z.shiftr a b) else None.

Definition bit_blshift (x y : Z) : option Z := let a := u32 x in let b := u32 y in shl32 a b.

Definition bit_brshift (x y : Z) : option Z :=
  let a := u32 x in let b := u32 y in
  hi ← shr32 a b;
  s ← shl32 (Z.land a 0x80000000) b;
  fill ← shl32 (u32 (s - 1)) (u32 (32 - b));
  Some (Z.lor hi fill).

Definition bit_blogic_rshift (x y : Z) : option Z := let a := u32 x in let b := u32 y in shr32 a b.

(** The arithmetic shift of the 32-bit two's-complement value of [x]. *)
Definition arith_shift (x b : Z) : Z := u32 (Z.shiftr (i32 x) b).

(** Bits [i] of a 32-bit result. *)
Definition bit32 (f : Z -> bool) (i : Z) : bool := (0 <=? i) && (i <? 32) && f i.

Lemma u32_testbit x i : Z.testbit (u32 x) i = bit32 (Z.testbit x) i.
Proof.
  rewrite uwrap_testbit by lia. unfold bit32. destruct (Z.leb_spec 0 i); simpl.
  - apply andb_comm.
  - by rewrite Z.testbit_neg_r.
Qed.

Lemma ones32_testbit i : Z.testbit 0xFFFFFFFF i = bit32 (fun _ => true) i.
Proof.
  change 0xFFFFFFFF with (Z.ones 32). unfold bit32. rewrite andb_true_r.
  destruct (Z.leb_spec 0 i), (Z.ltb_spec i 32); simpl.
  - apply Z.ones_spec_low. lia.
  - apply Z.ones_spec_high. lia.
  - apply Z.testbit_neg_r. lia.
  - apply Z.testbit_neg_r. lia.
Qed.

Create Rewrite HintDb bits.
#[export] Hint Rewrite Z.land_spec Z.lor_spec Z.lxor_spec u32_testbit ones32_testbit : bits.

(** The logical operations are those of 32-bit words: on any two integers,
    negative or wider than 32 bits, bit [i] of the result is the boolean operation
    on bits [i] of the arguments for [i < 32] and is clear above. *)
Theorem bit_logic_bitwise (x y i : Z) :
  Z.testbit (bit_band x y) i = bit32 (fun i => Z.testbit x i && Z.testbit y i) i /\
  Z.testbit (bit_bor x y) i = bit32 (fun i => Z.testbit x i || Z.testbit y i) i /\
  Z.testbit (bit_bxor x y) i = bit32 (fun i => xorb (Z.testbit x i) (Z.testbit y i)) i /\
  Z.testbit (bit_bnot x) i = bit32 (fun i => negb (Z.testbit x i)) i.
Proof.
  unfold bit_band, bit_bor, bit_bxor, bit_bnot. cbv zeta. autorewrite with bits.
  unfold bit32. destruct (Z.leb_spec 0 i), (Z.ltb_spec i 32); simpl; try by split_and!.
  rewrite Z.lnot_spec by lia. rewrite u32_testbit. unfold bit32.
  rewrite (proj2 (Z.leb_le 0 i)), (proj2 (Z.ltb_lt i 32)) by lia. simpl.
  by rewrite andb_true_r.
Qed.

Lemma shl32_spec a b : 0 <= b < 32 -> shl32 a b = Some (u32 (a * 2 ^ b)).
Proof.
  intros. unfold shl32. rewrite (proj2 (Z.leb_le _ _)), (proj2 (Z.ltb_lt _ _)) by lia. simpl.
  by rewrite Z.shiftl_mul_pow2 by lia.
Qed.

Lemma shr32_spec a b : 0 <= b < 32 -> shr32 a b = Some (a / 2 ^ b).
Proof.
  intros. unfold shr32. rewrite (proj2 (Z.leb_le _ _)), (proj2 (Z.ltb_lt _ _)) by lia. simpl.
  by rewrite Z.shiftr_div_pow2 by lia.
Qed.

(** [blshift] multiplies modulo 2^32 and [blogic_rshift] divides the unsigned
    value, for every count below 32; a larger count is undefined in both. *)
Theorem bit_shifts (x b : Z) :
  0 <= b < 2 ^ 32 ->
  bit_blshift x b = (if b <? 32 then Some ((x * 2 ^ b) mod 2 ^ 32) else None) /\
  bit_blogic_rshift x b = (if b <? 32 then Some ((x mod 2 ^ 32) / 2 ^ b) else None).
Proof.
  intros Hb. unfold bit_blshift, bit_blogic_rshift. cbv zeta. rewrite (uwrap_small 32 b) by done.
  destruct (Z.ltb_spec b 32).
  - rewrite shl32_spec, shr32_spec by lia. split; [|done]. unfold uwrap.
    by rewrite Zmult_mod_idemp_l.
  - unfold shl32, shr32. rewrite (proj2 (Z.ltb_ge b 32)) by done. by rewrite andb_false_r.
Qed.

Lemma sign_shift_vanishes a b : 1 <= b < 32 -> u32 (Z.land a 0x80000000 * 2 ^ b) = 0.
Proof.
  intros Hb. unfold uwrap. rewrite <- Z.shiftl_mul_pow2 by lia.
  apply Z.bits_inj'. intros i Hi. rewrite Z.bits_0. change (2 ^ 32) with (2 ^ 32)%Z.
  destruct (Z.ltb_spec i 32); [|apply Z.mod_pow2_bits_high; lia].
  rewrite Z.mod_pow2_bits_low, Z.shiftl_spec, Z.land_spec by lia.
  change 0x80000000 with (2 ^ 31). rewrite Z.pow2_bits_eqb by lia.
  rewrite (proj2 (Z.eqb_neq 31 (i - b))) by lia. apply andb_false_r.
Qed.

Lemma fill_ones b : 1 <= b < 32 -> u32 (u32 (0 - 1) * 2 ^ (32 - b)) = Z.shiftl (Z.ones b) (32 - b).
Proof.
  intros Hb. change (u32 (0 - 1)) with (Z.ones 32).
  apply Z.bits_inj'. intros i Hi. rewrite uwrap_testbit by lia.
  rewrite <- Z.shiftl_mul_pow2, !Z.shiftl_spec by lia.
  destruct (Z.ltb_spec i 32), (Z.ltb_spec i (32 - b)); try lia.
  - rewrite !Z.testbit_neg_r by lia. done.
  - rewrite !Z.ones_spec_low by lia. done.
  - rewrite (Z.ones_spec_high b) by lia. apply andb_false_r.
Qed.

(** [brshift] by [1 <= b < 32] shifts the word right and always fills the [b]
    vacated bits with ones, so it is the arithmetic shift exactly when the operand
    is negative as a 32-bit integer; a count of 0 or above 31 is undefined. *)
Theorem bit_brshift_fills_ones (x b : Z) :
  1 <= b < 32 ->
  bit_brshift x b = Some (Z.lor (Z.shiftr (u32 x) b) (Z.shiftl (Z.ones b) (32 - b))) /\
  (bit_brshift x b = Some (arith_shift x b) <-> i32 x < 0) /\
  bit_brshift x 0 = None.
Proof.
  intros Hb. assert (bit_brshift x b =
    Some (Z.lor (Z.shiftr (u32 x) b) (Z.shiftl (Z.ones b) (32 - b)))) as He.
  { unfold bit_brshift. cbv zeta. rewrite (uwrap_small 32 b), (uwrap_small 32 (32 - b)) by lia.
    rewrite shr32_spec, shl32_spec by lia. simpl.
    rewrite sign_shift_vanishes by done. rewrite shl32_spec by lia. simpl.
    rewrite fill_ones by done. by rewrite Z.shiftr_div_pow2 by lia. }
  split; [done|]. split.
  2:{ unfold bit_brshift. cbv zeta. change (u32 0) with 0. rewrite shr32_spec, shl32_spec by lia.
      simpl. unfold shl32. done. }
  rewrite He. unfold arith_shift.
  assert (forall i, 0 <= i < 32 -> Z.testbit (i32 x) i = Z.testbit (u32 x) i) as Hlow.
  { intros i Hi. rewrite swrap_testbit, uwrap_testbit by lia.
    by rewrite (proj2 (Z.ltb_lt i 32)), andb_true_r by lia. }
  pose proof (swrap_range 32 x ltac:(lia)) as Hr. change (2 ^ (32 - 1)) with (2 ^ 31) in Hr.
  split.
  - intros [= Heq]. assert (Z.testbit (u32 (Z.shiftr (i32 x) b)) (32 - b) = true) as Ht.
    { rewrite <- Heq, Z.lor_spec, Z.shiftl_spec by lia.
      rewrite (Z.ones_spec_low b) by lia. apply orb_true_r. }
    rewrite uwrap_testbit, Z.shiftr_spec in Ht by lia.
    apply andb_true_iff in Ht as [Ht _]. replace (32 - b + b) with 32 in Ht by lia.
    destruct (Z.ltb_spec (i32 x) 0) as [|Hge]; [done|].
    by rewrite (testbit_high 32 (i32 x) 32) in Ht by lia.
  - intros Hneg. f_equal. apply Z.bits_inj'. intros i Hi.
    rewrite uwrap_testbit, Z.lor_spec, !Z.shiftr_spec, Z.shiftl_spec by lia.
    destruct (Z.ltb_spec i 32), (Z.ltb_spec i (32 - b)).
    + rewrite (Z.testbit_neg_r (Z.ones b)), Hlow by lia. by rewrite orb_false_r, andb_true_r.
    + rewrite (Z.ones_spec_low b) by lia. rewrite orb_true_r, andb_true_r. symmetry.
      apply (testbit_neg_high 31); lia.
    + lia.
    + rewrite (Z.ones_spec_high b) by lia. rewrite orb_false_r, andb_false_r.
      rewrite uwrap_testbit by lia. by rewrite (proj2 (Z.ltb_ge (i + b) 32)), andb_false_r by lia.
Qed.

Lemma bit_shifts_witness : 0 <= 4 < 2 ^ 32 /\
  bit_blshift 0xF0000001 4 = Some 16 /\ bit_blogic_rshift (-1) 4 = Some 0x0FFFFFFF.
Proof. split; [lia|]. exact (conj (proj1 (bit_shifts 0xF0000001 4 ltac:(lia))) (proj2 (bit_shifts (-1) 4 ltac:(lia)))). Defined.

(** [bit.brshift(4, 1)] is [0x80000002], where the arithmetic shift is [2]. *)
Lemma bit_brshift_fills_ones_witness : 1 <= 1 < 32 /\ bit_brshift 4 1 = Some 0x80000002 /\ arith_shift 4 1 = 2.
Proof. split; [lia|]. split; [exact (proj1 (bit_brshift_fills_ones 4 1 ltac:(lia)))|reflexivity]. Defined.
