(* ===== verification/Keyboard.v ===== *)
(** * Scan codes: the PS/2 tables and conversions of os.cpp

    A scan code is a byte held as [Z]; [convert_ps2_code] threads the global
    [modifiers]. A [char] result is 0 when the key produces no character. *)
From S2P Require Import Prelude.
#[local] Open Scope Z_scope.

(** [enum modifiers] *)
Definition MODIFIER_SHIFT : Z := 1.
Definition MODIFIER_CONTROL : Z := 2.
Definition MODIFIER_ALT : Z := 4.

(** The members of [ps2code_ext_t] the code tests for. *)
Definition PS2CODE_EXT_LEFT_CONTROL : Z := 0x1D.
Definition PS2CODE_EXT_LEFT_SHIFT : Z := 0x2A.
Definition PS2CODE_EXT_RIGHT_SHIFT : Z := 0x36.
Definition PS2CODE_EXT_LEFT_ALT : Z := 0x38.
Definition PS2CODE_EXT_CAPS_LOCK : Z := 0x3A.

(** The string constants, with their terminating zero; [26] is ['\032'], a key
    without a character. *)
Definition ps2codes_sc1 : bytes :=
  [0; 26; 49; 50; 51; 52; 53; 54; 55; 56; 57; 48; 45; 61; 26; 26; 113; 119; 101; 114;
   116; 121; 117; 105; 111; 112; 91; 93; 26; 26; 97; 115; 100; 102; 103; 104; 106; 107;
   108; 59; 39; 96; 26; 92; 122; 120; 99; 118; 98; 110; 109; 44; 46; 47; 26; 0; 26; 32;
   26; 26; 26; 26; 26; 26; 26; 26; 26; 26; 26; 26; 26; 0; 0; 0; 0; 0; 0; 0; 0; 0; 0; 0;
   0; 0; 0; 0; 0; 0; 26; 26; 0].

Definition ps2codes_sc1_upper : bytes :=
  [0; 26; 33; 64; 35; 36; 37; 94; 38; 42; 40; 41; 95; 43; 26; 26; 81; 87; 69; 82; 84; 89;
   85; 73; 79; 80; 123; 125; 26; 26; 65; 83; 68; 70; 71; 72; 74; 75; 76; 58; 34; 126; 26;
   124; 90; 88; 67; 86; 66; 78; 77; 60; 62; 63; 26; 0; 26; 32; 26; 26; 26; 26; 26; 26; 26;
   26; 26; 26; 26; 26; 26; 0; 0; 0; 0; 0; 0; 0; 0; 0; 0; 0; 0; 0; 0; 0; 0; 0; 26; 26; 0].

(** [s[code]]; the callers keep the index inside the constant. *)
Definition char_at (s : bytes) (code : Z) : Z := default 0 (s !! Z.to_nat code).

Definition getcode (code : Z) : Z := Z.land code 0x7f.

Definition set_mod (m modifiers : Z) : Z := Z.lor modifiers m.
Definition clear_mod (m modifiers : Z) : Z := Z.land modifiers (Z.lnot m).

(** [convert_ps2_code code] from the current [modifiers]: the new modifiers and
    the character. *)
Definition convert_ps2_code (modifiers code : Z) : Z * Z :=
  if (code =? 0xAA) || (code =? 0xB6) then (clear_mod MODIFIER_SHIFT modifiers, 0)
  else if code =? 0x9D then (clear_mod MODIFIER_CONTROL modifiers, 0)
  else if code =? 0xB8 then (clear_mod MODIFIER_ALT modifiers, 0)
  else if (0x58 <? code) || (char_at ps2codes_sc1 code =? 0) then (modifiers, 0)
  else if char_at ps2codes_sc1 code =? 26 then
    let c := getcode code in
    ((if (c =? PS2CODE_EXT_LEFT_SHIFT) || (c =? PS2CODE_EXT_RIGHT_SHIFT) then
        set_mod MODIFIER_SHIFT modifiers
      else if c =? PS2CODE_EXT_LEFT_CONTROL then set_mod MODIFIER_CONTROL modifiers
      else if c =? PS2CODE_EXT_LEFT_ALT then set_mod MODIFIER_ALT modifiers
      else if c =? PS2CODE_EXT_CAPS_LOCK then
        Z.lor (clear_mod MODIFIER_SHIFT modifiers)
              (if Z.land modifiers MODIFIER_SHIFT =? 0 then 1 else 0)
      else modifiers), 0)
  else (modifiers,
        if negb (Z.land modifiers MODIFIER_SHIFT =? 0) then char_at ps2codes_sc1_upper code
        else char_at ps2codes_sc1 code).

Definition iscode (code : Z) : bool := negb (Z.land code 0x80 =? 0).

Definition ps2tocc (code : Z) : Z :=
  if Z.land code 0xFF00 =? 0xE000 then Z.lor (Z.land code 0x7F) 0x80
  else if Z.land code 0xFF7F7F =? 0xE11D45 then 197
  else Z.land code 0x7F.

(** ** Lemmas *)
(** All bytes, for exhaustive checks. *)
Definition all_bytes : list Z := Z.of_nat <$> seq 0 256.

Lemma all_bytes_spec b : is_byte b -> b ∈ all_bytes.
Proof.
  intros Hb. unfold is_byte in Hb. apply list_elem_of_fmap. exists (Z.to_nat b).
  split; [lia|]. apply elem_of_seq. lia.
Qed.

Lemma forallb_bytes (f : Z -> bool) : forallb f all_bytes = true -> forall b, is_byte b -> f b = true.
Proof.
  rewrite forallb_forall. intros H b Hb. apply H, list_elem_of_In, all_bytes_spec, Hb.
Qed.

Definition all_modifiers : list Z := [0; 1; 2; 3; 4; 5; 6; 7].

Lemma all_modifiers_spec m : 0 <= m < 8 -> m ∈ all_modifiers.
Proof.
  intros Hm. assert (m = 0 \/ m = 1 \/ m = 2 \/ m = 3 \/ m = 4 \/ m = 5 \/ m = 6 \/ m = 7) as Hc by lia.
  unfold all_modifiers. repeat destruct Hc as [->|Hc]; subst; set_solver.
Qed.

(** Exhaustive check over every modifier state and every byte. *)
Lemma forall_mod_byte (f : Z -> Z -> bool) :
  forallb (fun m => forallb (f m) all_bytes) all_modifiers = true ->
  forall m b, 0 <= m < 8 -> is_byte b -> f m b = true.
Proof.
  rewrite forallb_forall. intros H m b Hm Hb. apply forallb_bytes; [|done].
  apply H, list_elem_of_In, all_modifiers_spec, Hm.
Qed.

Definition printable (c : Z) : bool := (32 <=? c) && (c <=? 126).

Definition convert_ok (m b : Z) : bool :=
  let '(m', c) := convert_ps2_code m b in
  ((0 <=? m') && (m' <? 8)) && ((c =? 0) || (printable c && (m' =? m))).

(** From any modifier state and for any byte, the conversion keeps the
    modifiers a set of the three flags, returns 0 or a printable ASCII character,
    and changes no modifier when it returns a character: calling it a second time,
    as [getNextEvent] does, yields the same character. *)
Theorem convert_ps2_code_char (m b : Z) :
  0 <= m < 8 -> is_byte b ->
  let '(m', c) := convert_ps2_code m b in
  0 <= m' < 8 /\ (c = 0 \/ 32 <= c <= 126 /\ m' = m /\ convert_ps2_code m' b = (m, c)).
Proof.
  intros Hm Hb. assert (convert_ok m b = true) as H.
  { apply forall_mod_byte; [by vm_compute|done|done]. }
  unfold convert_ok, printable in H. destruct (convert_ps2_code m b) as [m' c] eqn:He.
  apply andb_true_iff in H as [H1 H2]. split; [lia|].
  apply orb_true_iff in H2 as [H2|H2]; [left; lia|right].
  apply andb_true_iff in H2 as [H2 H3]. apply Z.eqb_eq in H3 as ->. split; [lia|]. by rewrite He.
Qed.

Lemma convert_ps2_code_char_witness :
  (0 <= 1 < 8 /\ is_byte 0x1E) /\ (convert_ps2_code 1 0x1E = (1, 65) /\ 32 <= 65 <= 126).
Proof.
  split; [split; [lia|by compute_done]|]. split; [reflexivity|].
  destruct (convert_ps2_code_char 1 0x1E ltac:(lia) ltac:(by compute_done)) as [_ [H|H]].
  - discriminate H.
  - exact (proj1 H).
Defined.

Definition shift_ok (m b : Z) : bool :=
  let press := fst (convert_ps2_code m 0x2A) in
  let caps := fst (convert_ps2_code m 0x3A) in
  (snd (convert_ps2_code press b) =? (if (0x58 <? b) || (char_at ps2codes_sc1 b =? 0) || (char_at ps2codes_sc1 b =? 26)
                                      then 0 else char_at ps2codes_sc1_upper b)) &&
  (fst (convert_ps2_code press 0xAA) =? clear_mod MODIFIER_SHIFT m) &&
  (fst (convert_ps2_code caps 0x3A) =? m) &&
  (Z.land caps MODIFIER_SHIFT =? 1 - Z.land m MODIFIER_SHIFT).

(** While shift is down every character key gives the character of the upper
    table, releasing shift clears the flag, and caps lock toggles that same flag:
    pressing it twice restores the modifiers. *)
Theorem shift_and_caps (m b : Z) :
  0 <= m < 8 -> is_byte b ->
  let press := fst (convert_ps2_code m 0x2A) in
  let caps := fst (convert_ps2_code m 0x3A) in
  (snd (convert_ps2_code press b) <> 0 -> snd (convert_ps2_code press b) = char_at ps2codes_sc1_upper b) /\
  fst (convert_ps2_code press 0xAA) = clear_mod MODIFIER_SHIFT m /\
  fst (convert_ps2_code caps 0x3A) = m /\
  Z.land caps MODIFIER_SHIFT = 1 - Z.land m MODIFIER_SHIFT.
Proof.
  intros Hm Hb. assert (shift_ok m b = true) as H.
  { apply forall_mod_byte; [by vm_compute|done|done]. }
  unfold shift_ok in H. cbv zeta in H.
  apply andb_true_iff in H as [H H4]. apply andb_true_iff in H as [H H3].
  apply andb_true_iff in H as [H1 H2]. cbv zeta. split; [|lia].
  apply Z.eqb_eq in H1. rewrite H1. by destruct ((_ || _) || _).
Qed.

Lemma shift_and_caps_witness :
  (0 <= 0 < 8 /\ is_byte 0x10) /\
  snd (convert_ps2_code (fst (convert_ps2_code 0 0x2A)) 0x10) = 81.
Proof.
  split; [split; [lia|by compute_done]|].
  exact (proj1 (shift_and_caps 0 0x10 ltac:(lia) ltac:(by compute_done)) ltac:(discriminate)).
Defined.
