(* ===== verification/Os.v ===== *)
(** * The event loop of os.cpp

    [os_state] holds the globals [running], [label], [label_defined],
    [eventQueue], [timerQueue], [paramQueue] and [modifiers], and the hardware as
    the code sees it: the bytes waiting in the keyboard controller and, for every
    coming call of [Events::get().process_events()], the bytes and timer interrupts
    it brings. The two queues are any implementation of [FifoQueue]. *)
From S2P Require Import Prelude Queue Keyboard.
#[local] Open Scope Z_scope.

(** A value of the embedded Lua, as far as this file handles it. *)
Inductive lua_value :=
  | LNil
  | LBoolean (b : bool)
  | LInteger (n : Z)
  | LString (s : string)
  | LOther (ref : Z).

(** What one call of [process_events] brings: bytes for the keyboard controller
    and timers that fire. *)
Record tick := { tick_bytes : list Z; tick_timers : list Z }.

(** The result of code that waits for hardware: a value, still waiting when the
    hardware script has ended, out of fuel, or undefined behaviour. *)
Inductive outcome (A : Type) :=
  | Done (a : A)
  | Waiting
  | OutOfFuel
  | Undefined.
Arguments Done {A} a.
Arguments Waiting {A}.
Arguments OutOfFuel {A}.
Arguments Undefined {A}.

#[export] Instance outcome_bind : MBind outcome := fun A B f m =>
  match m with Done a => f a | Waiting => Waiting | OutOfFuel => OutOfFuel | Undefined => Undefined end.

(** A queue operation that dereferences a dead cell is undefined behaviour. *)
Definition of_queue {A} (o : option A) : outcome A :=
  match o with Some a => Done a | None => Undefined end.

Section Os.
Context {EQ TQ : Type} `{!FifoQueue EQ string} `{!FifoQueue TQ Z}.

Record os_state := {
  running : Z;
  label : option string;
  label_defined : bool;
  eventQueue : EQ;
  timerQueue : TQ;
  paramQueue : list (list lua_value);
  modifiers : Z;
  kbd : list Z;
  sched : list tick;
}.

Definition with_events (q : EQ) (s : os_state) : os_state :=
  {| running := running s; label := label s; label_defined := label_defined s;
     eventQueue := q; timerQueue := timerQueue s; paramQueue := paramQueue s;
     modifiers := modifiers s; kbd := kbd s; sched := sched s |}.
Definition with_timers (q : TQ) (s : os_state) : os_state :=
  {| running := running s; label := label s; label_defined := label_defined s;
     eventQueue := eventQueue s; timerQueue := q; paramQueue := paramQueue s;
     modifiers := modifiers s; kbd := kbd s; sched := sched s |}.
Definition with_params (p : list (list lua_value)) (s : os_state) : os_state :=
  {| running := running s; label := label s; label_defined := label_defined s;
     eventQueue := eventQueue s; timerQueue := timerQueue s; paramQueue := p;
     modifiers := modifiers s; kbd := kbd s; sched := sched s |}.
Definition with_modifiers (m : Z) (s : os_state) : os_state :=
  {| running := running s; label := label s; label_defined := label_defined s;
     eventQueue := eventQueue s; timerQueue := timerQueue s; paramQueue := paramQueue s;
     modifiers := m; kbd := kbd s; sched := sched s |}.
Definition with_kbd (k : list Z) (s : os_state) : os_state :=
  {| running := running s; label := label s; label_defined := label_defined s;
     eventQueue := eventQueue s; timerQueue := timerQueue s; paramQueue := paramQueue s;
     modifiers := modifiers s; kbd := k; sched := sched s |}.
Definition with_sched (t : list tick) (s : os_state) : os_state :=
  {| running := running s; label := label s; label_defined := label_defined s;
     eventQueue := eventQueue s; timerQueue := timerQueue s; paramQueue := paramQueue s;
     modifiers := modifiers s; kbd := kbd s; sched := t |}.
Definition with_running (r : Z) (s : os_state) : os_state :=
  {| running := r; label := label s; label_defined := label_defined s;
     eventQueue := eventQueue s; timerQueue := timerQueue s; paramQueue := paramQueue s;
     modifiers := modifiers s; kbd := kbd s; sched := sched s |}.
Definition with_label (l : option string) (s : os_state) : os_state :=
  {| running := running s; label := l; label_defined := true;
     eventQueue := eventQueue s; timerQueue := timerQueue s; paramQueue := paramQueue s;
     modifiers := modifiers s; kbd := kbd s; sched := sched s |}.

(** A timer id travels as the [data] pointer of the queue: id 0 is NULL. *)
Definition timer_data (id : Z) : option Z := if id =? 0 then None else Some id.

Definition timerEvent (id : Z) (s : os_state) : option os_state :=
  q ← fq_push (timerQueue s) (timer_data id); Some (with_timers q s).

Fixpoint fire_timers (ids : list Z) (s : os_state) : option os_state :=
  match ids with
  | [] => Some s
  | id :: ids => s ← timerEvent id s; fire_timers ids s
  end.

(** One call of [process_events] under the tick [t]. *)
Definition process_events (t : tick) (s : os_state) : option os_state :=
  fire_timers (tick_timers t) (with_kbd (kbd s ++ tick_bytes t) s).

(** The polling loop of [get_scancode]: it ends when the controller has a byte
    or a timer has fired. *)
Fixpoint wait_input (ts : list tick) (s : os_state) : outcome os_state :=
  if bool_decide (kbd s = []) && fq_empty (timerQueue s) then
    match ts with
    | [] => Waiting
    | t :: ts => s ← of_queue (process_events t (with_sched ts s)); wait_input ts s
    end
  else Done s.

(** [inb(0x60)] takes the byte out of the controller. *)
Definition read_data (s : os_state) : Z * os_state :=
  match kbd s with
  | [] => (0, s)
  | b :: k => (b, with_kbd k s)
  end.

Definition get_scancode (s : os_state) : outcome (Z * os_state) :=
  s ← wait_input (sched s) s;
  if negb (fq_empty (timerQueue s)) then Done (0, s) else Done (read_data s).

(** The two reads of the 0xE1 case are made left to right. *)
Definition getkey (s : os_state) : outcome (Z * os_state) :=
  '(code, s) ← get_scancode s;
  if code =? 0xE0 then
    '(b, s) ← get_scancode s; Done (Z.lor 0xE000 b, s)
  else if code =? 0xE1 then
    '(b1, s) ← get_scancode s;
    '(b2, s) ← get_scancode s;
    Done (Z.lor (Z.lor 0xE00000 (Z.shiftl b1 8)) b2, s)
  else Done (code, s).

(** The values that fit on a new thread above the entry of its first call info.
    Nothing here calls [lua_checkstack] on [paramQueue] or on the threads in it, so a
    push beyond them is a write outside of the stack: undefined. *)
Definition PARAM_SLOTS : Z := 44.
Definition fits (n : nat) : bool := Z.of_nat n <=? PARAM_SLOTS.

(** [lua_newthread(paramQueue)] with its values pushed, then [queue_push]. *)
Definition push_event (name : option string) (args : list lua_value) (s : os_state) : option os_state :=
  if fits (S (length (paramQueue s))) && fits (length args) then
    q ← fq_push (eventQueue s) name;
    Some (with_events q (with_params (paramQueue s ++ [args]) s))
  else None.

Definition char_string (c : Z) : string := String (Ascii.ascii_of_N (Z.to_N c)) EmptyString.

(** The [if ((code = getkey()))] block of [getNextEvent]. *)
Definition key_events (code : Z) (s : os_state) : option os_state :=
  if code =? 0 then Some s
  else
    s ← push_event (Some (if negb (Z.land code 0x80 =? 0) then "key_up" else "key"))
                   [LInteger (ps2tocc code); LBoolean false] s;
    let '(m, c) := convert_ps2_code (modifiers s) (u8 code) in
    let s := with_modifiers m s in
    if c =? 0 then Some s
    else
      let '(m, c) := convert_ps2_code (modifiers s) (u8 code) in
      push_event (Some "char") [LString (char_string c)] (with_modifiers m s).

(** [while (!queue_empty(&timerQueue))]: the fuel is the length of the queue. *)
Fixpoint timer_events (fuel : nat) (s : os_state) : option os_state :=
  if fq_empty (timerQueue s) then Some s
  else match fuel with
  | O => None
  | S fuel =>
      id ← fq_front (A := Z) (timerQueue s);
      s ← push_event (Some "timer") [LInteger (default 0 id)] s;
      q ← fq_pop (timerQueue s);
      timer_events fuel (with_timers q s)
  end.

Definition timer_count (s : os_state) : nat :=
  match fq_size (timerQueue s) with Some n => Z.to_nat n | None => O end.

(** The body of [while (queue_size(&eventQueue) == 0)]. *)
Definition pump (s : os_state) : outcome os_state :=
  '(code, s) ← getkey s;
  s ← of_queue (key_events code s);
  of_queue (timer_events (timer_count s) s).

(** What [getNextEvent] leaves on the coroutine's stack, its return value and
    whether it printed the misalignment warning. *)
Record event_result := { pushed : list lua_value; nresults : Z; warned : bool }.

(** [luaL_checkstack]'s limit on the slots of a C function. *)
Definition LUAI_MAXCSTACK : Z := 8000.

Definition lua_checkstack (used size : Z) : bool :=
  negb ((LUAI_MAXCSTACK <? size) || (LUAI_MAXCSTACK <? used + size)).

(** The tail of [getNextEvent] after its loop, [used] being the stack slots of [L]. *)
Definition deliver (used : Z) (ev : option string) (s : os_state) : option (event_result * os_state) :=
  n ← fq_size (eventQueue s);
  let warn := negb (Z.of_nat (length (paramQueue s)) =? n + 1) in
  match paramQueue s with
  | [] => Some ({| pushed := []; nresults := 0; warned := warn |}, s)
  | param :: rest =>
      let count := Z.of_nat (length param) in
      if negb (lua_checkstack used (count + 1)) then
        Some ({| pushed := []; nresults := 0; warned := warn |}, s)
      else
        let name := match ev with None => LNil | Some n => LString n end in
        Some ({| pushed := name :: param; nresults := count + 1; warned := warn |},
              with_params rest s)
  end.

(** [strlen(filter) > 0 && strcmp(ev, filter) != 0]; [strcmp(NULL, _)] is undefined. *)
Definition rejects (filter : string) (ev : option string) : option bool :=
  if decide (filter = EmptyString) then Some false
  else n ← ev; Some (bool_decide (n <> filter)).

(** [getNextEvent]: one unit of fuel per turn of either loop. *)
Fixpoint getNextEvent (fuel : nat) (used : Z) (filter : string) (s : os_state)
    : outcome (event_result * os_state) :=
  match fuel with
  | O => OutOfFuel
  | S fuel =>
      n ← of_queue (fq_size (eventQueue s));
      if n =? 0 then s ← pump s; getNextEvent fuel used filter s
      else
        ev ← of_queue (fq_front (A := string) (eventQueue s));
        q ← of_queue (fq_pop (eventQueue s));
        let s := with_events q s in
        r ← of_queue (rejects filter ev);
        if (r : bool) then getNextEvent fuel used filter (with_params (tail (paramQueue s)) s)
        else of_queue (deliver used ev s)
  end.

(** ** The os library *)
Definition os_getComputerID (s : os_state) : list lua_value * os_state := ([LInteger 0], s).

Definition os_getComputerLabel (s : os_state) : list lua_value * os_state :=
  if negb (label_defined s) then ([], s)
  else ([match label s with None => LNil | Some l => LString l end], s).

(** The argument is what [lua_tostring(L, 1)] returned, [None] for NULL. *)
Definition os_setComputerLabel (l : option string) (s : os_state) : list lua_value * os_state :=
  ([], with_label l s).

(** [name] is [lua_tostring(L, 1)] and [args] the values above it. *)
Definition os_queueEvent (name : option string) (args : list lua_value) (s : os_state) : option os_state :=
  push_event name args s.

Definition os_setAlarm (s : os_state) : list lua_value * os_state := ([], s).
Definition os_cancelAlarm (s : os_state) : list lua_value * os_state := ([], s).
(** [os::shutdown] and [os::reboot] of IncludeOS; [None] when the call does not return:
    the machine is off, or starts again from [Service::start] with all variables new. *)
Section Power.
Variables machine_shutdown machine_reboot : os_state -> option os_state.
Definition os_shutdown (s : os_state) : option (list lua_value * os_state) :=
  s ← machine_shutdown (with_running 0 s); Some ([], s).
Definition os_reboot (s : os_state) : option (list lua_value * os_state) :=
  s ← machine_reboot (with_running 2 s); Some ([], s).
End Power.

End Os.
Arguments os_state : clear implicits.

(** ** Invariants of the event loop *)
Section OsProofs.
Context {EQ TQ : Type} `{!FifoQueue EQ string} `{!FifoQueue TQ Z}.
Abbreviation state := (os_state EQ TQ).
Implicit Types (s : state) (evs : list (option string)) (tms : list (option Z)).

(** The two queues represent [evs] and [tms]. *)
Definition holds s evs tms : Prop := fq_repr (eventQueue s) evs /\ fq_repr (timerQueue s) tms.

Definition tick_weight (t : tick) : nat := 3 * length (tick_bytes t) + 2 * length (tick_timers t).

(** An upper bound on the events still to come out: three per scan-code byte and
    two per timer, so every turn of the loops of [getNextEvent] decreases it. *)
Definition weight s evs tms : nat :=
  3 * length (kbd s) + sum_list_with tick_weight (sched s) + 2 * length tms + length evs.

(** The parameters of every queued event are queued beside it, in order, and no
    queued name is NULL. *)
Definition aligned s evs tms : Prop :=
  holds s evs tms /\ length (paramQueue s) = length evs /\ Forall is_Some evs.

(** An event is a name with its parameters: what the two queues hold together. *)
Abbreviation event := (string * list lua_value)%type.
Definition names (evs : list event) : list (option string) := (fun e => Some e.1) <$> evs.
Definition paired s (evs : list event) tms : Prop := aligned s (names evs) tms /\ paramQueue s = snd <$> evs.

(** What a key code and the timers that have fired are as events. *)
Definition key_spec (m code : Z) : list event * Z :=
  if code =? 0 then ([], m)
  else
    let key := ((if Z.testbit code 7 then "key_up" else "key")%string, [LInteger (ps2tocc code); LBoolean false]) in
    let '(m1, c1) := convert_ps2_code m (u8 code) in
    if c1 =? 0 then ([key], m1)
    else let '(m2, c2) := convert_ps2_code m1 (u8 code) in ([key; ("char"%string, [LString (char_string c2)])], m2).
Definition timer_spec tms : list event := (fun t => ("timer"%string, [LInteger (default 0 t)])) <$> tms.
Definition turn_events (code m : Z) tms : list event := (key_spec m code).1 ++ timer_spec tms.

(** The hardware as the event loop sees it is the same. *)
Definition same_input s s' : Prop := kbd s' = kbd s /\ sched s' = sched s /\ timerQueue s' = timerQueue s /\ modifiers s' = modifiers s.
(** [es] is what whole turns of the loop make of the hardware of [s]. *)
Inductive produces : state -> list event -> Prop :=
  | produces_nothing s : produces s []
  | produces_turn s s' code s1 tms1 s2 es :
      same_input s s' -> getkey s' = Done (code, s1) -> fq_repr (timerQueue s1) tms1 -> pump s' = Done s2 -> produces s2 es ->
      produces s (turn_events code (modifiers s1) tms1 ++ es).

(** No interrupt brings more than 42 timers. *)
Definition calm s tms : Prop := (length tms <= 42)%nat /\ Forall (fun t => length (tick_timers t) <= 42)%nat (sched s).

(** The parts of the state the input functions leave alone. *)
Definition same_output s s' : Prop :=
  paramQueue s' = paramQueue s /\ modifiers s' = modifiers s /\ running s' = running s /\
  label s' = label s /\ label_defined s' = label_defined s.

Lemma same_output_refl s : same_output s s.
Proof. by repeat split. Qed.

Lemma same_output_trans s1 s2 s3 : same_output s1 s2 -> same_output s2 s3 -> same_output s1 s3.
Proof. unfold same_output. naive_solver congruence. Qed.

Lemma fire_timers_spec ids s evs tms :
  holds s evs tms ->
  exists s', fire_timers ids s = Some s' /\ holds s' evs (tms ++ (timer_data <$> ids)) /\
    kbd s' = kbd s /\ sched s' = sched s /\ same_output s s'.
Proof.
  revert s tms. induction ids as [|id ids IH]; intros s tms Hh; simpl.
  - exists s. rewrite app_nil_r. eauto using same_output_refl.
  - destruct Hh as [He Ht]. unfold timerEvent.
    destruct (fq_push_spec _ _ (timer_data id) Ht) as (q & -> & Hq). simpl.
    destruct (IH (with_timers q s) _ (conj He Hq)) as (s' & -> & Hh & Hk & Hs & Ho).
    exists s'. rewrite <- app_assoc in Hh. eauto.
Qed.

Lemma process_events_spec t s evs tms :
  holds s evs tms ->
  let tms' := tms ++ (timer_data <$> tick_timers t) in
  exists s', process_events t s = Some s' /\ holds s' evs tms' /\ sched s' = sched s /\
    same_output s s' /\ weight s' evs tms' = (weight s evs tms + tick_weight t)%nat.
Proof.
  intros Hh tms'. unfold process_events.
  destruct (fire_timers_spec (tick_timers t) (with_kbd (kbd s ++ tick_bytes t) s) evs tms Hh)
    as (s' & -> & Hh' & Hk & Hs & Ho).
  exists s'. split_and!; [done..|].
  unfold tms', weight, tick_weight. rewrite Hk, Hs. cbn [kbd with_kbd sched].
  rewrite !length_app, length_fmap. lia.
Qed.

Lemma wait_input_spec ts s evs tms :
  holds s evs tms -> sched s = ts ->
  match wait_input ts s with
  | Done s' => exists tms', holds s' evs tms' /\ same_output s s' /\
      weight s' evs tms' = weight s evs tms /\ (kbd s' <> [] \/ tms' <> []) /\ (calm s tms -> calm s' tms')
  | Waiting => True
  | _ => False
  end.
Proof.
  revert s tms. induction ts as [|t ts IH]; intros s tms Hh Hts; simpl;
    destruct (bool_decide_reflect (kbd s = [])) as [Hk|Hk]; simpl;
    try (exists tms; split_and!; eauto using same_output_refl; done).
  - rewrite (fq_empty_spec _ _ (proj2 Hh)). case_bool_decide; [done|].
    exists tms. eauto 6 using same_output_refl.
  - rewrite (fq_empty_spec _ _ (proj2 Hh)). case_bool_decide; simpl.
    2:{ exists tms. eauto 6 using same_output_refl. }
    destruct (process_events_spec t (with_sched ts s) evs tms Hh)
      as (s1 & -> & Hh1 & Hs1 & Ho1 & Hw1). simpl. set (tms1 := tms ++ _) in *.
    specialize (IH s1 tms1 Hh1 Hs1). destruct (wait_input ts s1) as [s2| | |]; try done.
    destruct IH as (tms2 & Hh2 & Ho2 & Hw2 & Hne & Hcalm). exists tms2. split_and!; [done| |  |done|].
    3:{ intros [_ Hall]. apply Hcalm. rewrite Hts in Hall. apply Forall_cons in Hall as [Ht Hall]. split; [|by rewrite Hs1].
        subst tms tms1. cbn [app]. by rewrite length_fmap. }
    + eapply same_output_trans; [|done]. exact Ho1.
    + rewrite Hw2, Hw1. unfold weight. rewrite Hts. cbn [kbd sched with_sched sum_list_with]. lia.
Qed.

Lemma get_scancode_spec s evs tms :
  holds s evs tms ->
  match get_scancode s with
  | Done (b, s') => exists tms', holds s' evs tms' /\ same_output s s' /\
      ((tms' <> [] /\ b = 0 /\ weight s' evs tms' = weight s evs tms) \/
       (weight s' evs tms' + 3 = weight s evs tms)%nat) /\ (calm s tms -> calm s' tms')
  | Waiting => True
  | _ => False
  end.
Proof.
  intros Hh. unfold get_scancode. pose proof (wait_input_spec (sched s) s evs tms Hh eq_refl) as Hw.
  destruct (wait_input (sched s) s) as [s1| | |]; simpl; try done.
  destruct Hw as (tms1 & Hh1 & Ho1 & Hw1 & Hne & Hcalm).
  rewrite (fq_empty_spec _ _ (proj2 Hh1)). case_bool_decide as Ht; simpl.
  - destruct Hne as [Hk|?]; [|done]. unfold read_data. destruct (kbd s1) as [|b k] eqn:Hkb; [done|].
    exists tms1. split_and!; [exact Hh1|exact Ho1| |exact Hcalm]. right. rewrite <- Hw1. unfold weight.
    rewrite Hkb. cbn [kbd with_kbd sched length]. lia.
  - exists tms1. eauto 7.
Qed.

Lemma getkey_spec s evs tms :
  holds s evs tms ->
  match getkey s with
  | Done (c, s') => exists tms', holds s' evs tms' /\ same_output s s' /\
      ((tms' <> [] /\ c = 0 /\ weight s' evs tms' = weight s evs tms) \/
       (weight s' evs tms' + 3 <= weight s evs tms)%nat) /\ (calm s tms -> calm s' tms')
  | Waiting => True
  | _ => False
  end.
Proof.
  intros Hh. unfold getkey. pose proof (get_scancode_spec _ _ _ Hh) as H1.
  destruct (get_scancode s) as [[b1 s1]| | |]; simpl; try done.
  destruct H1 as (t1 & Hh1 & Ho1 & Hw1 & Hc1). pose proof (get_scancode_spec _ _ _ Hh1) as H2.
  destruct (Z.eqb_spec b1 0xE0); [|destruct (Z.eqb_spec b1 0xE1)].
  - destruct (get_scancode s1) as [[b2 s2]| | |]; simpl; try done.
    destruct H2 as (t2 & Hh2 & Ho2 & Hw2 & Hc2). exists t2.
    split_and!; [done|by eapply same_output_trans| |by auto]. right. naive_solver lia.
  - destruct (get_scancode s1) as [[b2 s2]| | |]; simpl; try done.
    destruct H2 as (t2 & Hh2 & Ho2 & Hw2 & Hc2). pose proof (get_scancode_spec _ _ _ Hh2) as H3.
    destruct (get_scancode s2) as [[b3 s3]| | |]; simpl; try done.
    destruct H3 as (t3 & Hh3 & Ho3 & Hw3 & Hc3). exists t3.
    split_and!; [done|eapply same_output_trans; [done|by eapply same_output_trans]| |by auto].
    right. naive_solver lia.
  - exists t1. split_and!; [done..| |done]. destruct Hw1 as [?|?]; [by left|right; lia].
Qed.

(** Pushing an event with its parameters keeps the queues together, while both fit. *)
Lemma push_event_spec name args s (evs : list event) tms :
  paired s evs tms -> (length evs < 44)%nat -> (length args <= 44)%nat ->
  exists s', push_event (Some name) args s = Some s' /\ paired s' (evs ++ [(name, args)]) tms /\
    kbd s' = kbd s /\ sched s' = sched s /\ timerQueue s' = timerQueue s /\ modifiers s' = modifiers s.
Proof.
  intros [([He Ht] & Hl & Hf) Hp] Hroom Hargs. unfold push_event, fits, PARAM_SLOTS.
  assert (length (paramQueue s) = length evs) as El by (by rewrite Hp, length_fmap).
  assert ((Z.of_nat (S (length (paramQueue s))) <=? 44) && (Z.of_nat (length args) <=? 44) = true) as -> by (rewrite andb_true_iff, !Z.leb_le; lia).
  destruct (fq_push_spec _ _ (Some name) He) as (q & -> & Hq). simpl.
  eexists. split; [done|]. split; [|by split_and!]. unfold paired, names. rewrite !fmap_app. split; [split_and!|].
  - by split.
  - simpl. rewrite !length_app. simpl. unfold names in Hl. lia.
  - apply Forall_app. split; [done|]. repeat constructor. by eexists.
  - simpl. by rewrite Hp.
Qed.

Lemma pressed_bit code : negb (Z.land code 0x80 =? 0) = Z.testbit code 7.
Proof.
  destruct (Z.testbit code 7) eqn:E.
  - apply negb_true_iff, Z.eqb_neq. intros H. assert (Z.testbit (Z.land code 0x80) 7 = false) as H7 by (rewrite H; apply Z.bits_0).
    rewrite Z.land_spec, E in H7. by vm_compute in H7.
  - apply negb_false_iff, Z.eqb_eq, Z.bits_inj'. intros n Hn. rewrite Z.bits_0, Z.land_spec. change 0x80 with (2 ^ 7).
    rewrite Z.pow2_bits_eqb by lia. destruct (Z.eqb_spec 7 n) as [<-|]; [by rewrite E|by rewrite andb_false_r].
Qed.

Lemma key_spec_length m code : (length (key_spec m code).1 <= 2)%nat.
Proof. unfold key_spec. destruct (code =? 0); [cbn; lia|]. destruct (convert_ps2_code m _) as [m1 c1]. destruct (c1 =? 0); [cbn; lia|]. destruct (convert_ps2_code m1 _). cbn. lia. Qed.
Lemma key_events_spec code s (evs : list event) tms :
  paired s evs tms -> (length evs <= 42)%nat -> let '(es, m) := key_spec (modifiers s) code in
  exists s', key_events code s = Some s' /\ paired s' (evs ++ es) tms /\
    kbd s' = kbd s /\ sched s' = sched s /\ timerQueue s' = timerQueue s /\ modifiers s' = m.
Proof.
  intros Ha Hroom. unfold key_events, key_spec. destruct (Z.eqb_spec code 0) as [|Hc].
  { exists s. rewrite app_nil_r. by split_and!. }
  rewrite pressed_bit. set (ev := if Z.testbit code 7 then "key_up"%string else "key"%string).
  destruct (push_event_spec ev [LInteger (ps2tocc code); LBoolean false] s evs tms Ha) as (s1 & -> & Ha1 & Hk1 & Hs1 & Ht1 & Hm1); [cbn; lia..|]. simpl.
  rewrite Hm1. destruct (convert_ps2_code (modifiers s) (u8 code)) as [m c].
  destruct (c =? 0).
  { exists (with_modifiers m s1). by split_and!. }
  cbn [modifiers with_modifiers]. destruct (convert_ps2_code m (u8 code)) as [m2 c2].
  destruct (push_event_spec "char" [LString (char_string c2)] (with_modifiers m2 (with_modifiers m s1)) (evs ++ [(ev, [LInteger (ps2tocc code); LBoolean false])]) tms Ha1)
    as (s2 & -> & Ha2 & Hk2 & Hs2 & Ht2 & Hm2); [rewrite ?length_app; cbn; lia..|].
  exists s2. rewrite <- app_assoc in Ha2. split_and!; [done|exact Ha2|by rewrite Hk2|by rewrite Hs2|by rewrite Ht2|by rewrite Hm2].
Qed.

Lemma timer_events_spec tms s (evs : list event) :
  paired s evs tms -> (length evs + length tms <= 44)%nat ->
  exists s', timer_events (length tms) s = Some s' /\ paired s' (evs ++ timer_spec tms) [] /\
    kbd s' = kbd s /\ sched s' = sched s /\ modifiers s' = modifiers s.
Proof.
  revert s evs. induction tms as [|t tms IH]; intros s evs Ha Hroom; simpl;
    pose proof Ha as [((He & Ht) & Hl & Hf) Hp]; rewrite (fq_empty_spec _ _ Ht).
  - rewrite bool_decide_true by done. exists s. rewrite app_nil_r. by split_and!.
  - rewrite bool_decide_false by done. rewrite (fq_front_spec _ _ Ht). simpl. cbn [length] in Hroom.
    destruct (push_event_spec "timer" [LInteger (default 0 t)] s evs (t :: tms) Ha)
      as (s1 & -> & [((He1 & Ht1) & Hl1 & Hf1) Hp1] & Hk1 & Hs1 & Hq1 & Hm1); [cbn; lia..|]. simpl.
    destruct (fq_pop_spec _ _ Ht1) as (q & -> & Hq). simpl.
    destruct (IH (with_timers q s1) (evs ++ [("timer"%string, [LInteger (default 0 t)])])) as (s' & -> & Ha' & Hk & Hs & Hm).
    { split; [split_and!; [split; [exact He1|exact Hq]|exact Hl1|exact Hf1]|exact Hp1]. }
    { rewrite length_app. cbn. lia. }
    exists s'. rewrite <- app_assoc in Ha'. split_and!; [done|exact Ha'|by rewrite Hk|by rewrite Hs|by rewrite Hm].
Qed.

(** One turn of the inner loop: it queues exactly the events of its key and timers, and
    uses up weight. *)
Lemma pump_spec s tms :
  paired s [] tms -> calm s tms ->
  match pump s with
  | Done s' => exists code s1 tms1, getkey s = Done (code, s1) /\ fq_repr (timerQueue s1) tms1 /\
      let evs' := turn_events code (modifiers s1) tms1 in
      paired s' evs' [] /\ (length evs' <= 44)%nat /\ calm s' [] /\ (weight s' (names evs') [] < weight s [] tms)%nat
  | Waiting => True
  | _ => False
  end.
Proof.
  intros [(Hh & Hl & Hf) Hp] Hcalm. unfold pump. pose proof (getkey_spec _ _ _ Hh) as Hg.
  destruct (getkey s) as [[code s1]| | |]; simpl; try done.
  destruct Hg as (t1 & Hh1 & Ho1 & Hw1 & Hc1). destruct (Hc1 Hcalm) as [Hc2 Hc3].
  assert (paired s1 [] t1) as Ha1 by (split; [split_and!; [done|by rewrite (proj1 Ho1)|done]|by rewrite (proj1 Ho1)]).
  pose proof (key_events_spec code s1 [] t1 Ha1 ltac:(cbn; lia)) as Hk. pose proof (key_spec_length (modifiers s1) code) as Hlen.
  assert (code = 0 -> (key_spec (modifiers s1) code).1 = []) as Hzero by (by intros ->).
  destruct (key_spec (modifiers s1) code) as [es m] eqn:Es. cbn [fst] in Hlen, Hzero. destruct Hk as (s2 & -> & Ha2 & Hk2 & Hs2 & Ht2 & Hm2). simpl.
  assert (timer_count s2 = length t1) as ->.
  { unfold timer_count. destruct Ha2 as [((_ & Ht) & _) _]. rewrite (fq_size_spec _ _ Ht); change INT_MAX with 2147483647; lia. }
  destruct (timer_events_spec t1 s2 es Ha2 ltac:(lia)) as (s3 & -> & Ha3 & Hk3 & Hs3 & Hm3). simpl.
  exists code, s1, t1. split; [done|]. split; [apply Hh1|]. unfold turn_events. rewrite Es. cbn [fst].
  assert (length (es ++ timer_spec t1) = (length es + length t1)%nat) as El by (unfold timer_spec; by rewrite length_app, length_fmap).
  split; [exact Ha3|]. split; [lia|]. split; [split; [cbn; lia|by rewrite Hs3, Hs2]|].
  unfold weight in *. rewrite Hk3, Hs3, Hk2, Hs2. unfold names. rewrite length_fmap. setoid_rewrite El. cbn [length] in *.
  destruct Hw1 as [(Hne & -> & Hw1)|Hw1]; [|lia]. rewrite (Hzero eq_refl) in *. destruct t1; [done|]. cbn [length] in *. lia.
Qed.

Lemma same_input_refl s : same_input s s.
Proof. by repeat split. Qed.
Lemma produces_same_input s s' es : same_input s s' -> produces s' es -> produces s es.
Proof.
  intros Hs Hp. revert Hs. destruct Hp as [s'|s' s'' code s1 tms1 s2 es (G1 & G2 & G3 & G4) Hg Ht Hpump Hes]; intros (H1 & H2 & H3 & H4); [constructor|].
  eapply (produces_turn s s''); [repeat split; congruence|done..].
Qed.

(** The name of an event that the filter lets through. *)
Definition accepts (filter name : string) : Prop := filter = EmptyString \/ name = filter.
Lemma rejects_spec filter name : exists b, rejects filter (Some name) = Some b /\ (b = true <-> ~ accepts filter name).
Proof.
  unfold rejects, accepts. destruct (decide (filter = EmptyString)) as [Hf|Hf].
  - exists false. split; [done|]. split; [done|]. tauto.
  - eexists. split; [reflexivity|]. rewrite bool_decide_eq_true. tauto.
Qed.

(** The result for the event [(name, args)], with [evs'] behind it. *)
Definition answered (used : Z) name args (evs' : list event) (r : event_result) (s' : state) : Prop := exists tms', warned r = false /\
  if lua_checkstack used (Z.of_nat (length args) + 1) then
    pushed r = LString name :: args /\ nresults r = Z.of_nat (length args) + 1 /\ paired s' evs' tms'
  else pushed r = [] /\ nresults r = 0 /\ holds s' (names evs') tms' /\ paramQueue s' = args :: (snd <$> evs').

Lemma deliver_spec used name args s (evs : list event) tms :
  holds s (names evs) tms -> (length evs <= 44)%nat -> paramQueue s = args :: (snd <$> evs) ->
  exists r s', deliver used (Some name) s = Some (r, s') /\ answered used name args evs r s'.
Proof.
  intros [He Ht] Hl Hp. unfold deliver, answered. rewrite (fq_size_spec _ _ He) by (unfold names; rewrite length_fmap; change INT_MAX with 2147483647; lia). simpl. rewrite Hp.
  unfold names. cbn [length]. rewrite !length_fmap.
  assert (negb (Z.of_nat (S (length evs)) =? Z.of_nat (length evs) + 1) = false) as -> by (rewrite negb_false_iff, Z.eqb_eq; lia).
  destruct (lua_checkstack used _); simpl; do 2 eexists; (split; [done|]); exists tms; split_and!; try done; simpl.
  - split; [|done]. split_and!; [by split|simpl; unfold names; by rewrite !length_fmap|]. apply Forall_fmap, Forall_forall. intros e _. by eexists.
Qed.

Lemma getNextEvent_spec fuel used filter s (evs : list event) tms :
  paired s evs tms -> (length evs <= 44)%nat -> calm s tms -> (weight s (names evs) tms < fuel)%nat ->
  match getNextEvent fuel used filter s with
  | Done (r, s') => exists made skipped name args rest, produces s made /\ evs ++ made = skipped ++ (name, args) :: rest /\
      Forall (fun e => ~ accepts filter e.1) skipped /\ accepts filter name /\ answered used name args rest r s'
  | Waiting => True
  | _ => False
  end.
Proof.
  revert s evs tms. induction fuel as [|fuel IH]; intros s evs tms Ha Hroom Hcalm Hfuel; [lia|].
  cbn [getNextEvent]. pose proof Ha as [((He & Ht) & Hl & Hf) Hp].
  rewrite (fq_size_spec _ _ He) by (unfold names; rewrite length_fmap; change INT_MAX with 2147483647; lia). simpl. unfold names at 1. rewrite length_fmap.
  destruct evs as [|[name args] evs]; cbn [length].
  - pose proof (pump_spec _ _ Ha Hcalm) as Hpump. simpl. destruct (pump s) as [s1| | |] eqn:Epump; simpl; try done.
    destruct Hpump as (code & s0 & tms1 & Hg & Ht1 & Ha1 & Hl1 & Hc1 & Hw1).
    pose proof (IH s1 _ [] Ha1 Hl1 Hc1 ltac:(change (names []) with (@nil (option string)) in Hfuel; lia)) as H.
    destruct (getNextEvent fuel used filter s1) as [[r s']| | |]; try done.
    destruct H as (made & skipped & name & args & evs' & Hm & Heq & Hsk & Hacc & Hans). eexists _, skipped, name, args, evs'.
    split; [eapply produces_turn; [apply same_input_refl|exact Hg|exact Ht1|exact Epump|exact Hm]|]. by split_and!.
  - replace (Z.of_nat (S (length evs)) =? 0) with false by (symmetry; apply Z.eqb_neq; lia).
    rewrite (fq_front_spec _ _ He). simpl. destruct (fq_pop_spec _ _ He) as (q & -> & Hq). simpl in Hq |- *. cbn [length] in Hroom.
    destruct (rejects_spec filter name) as (b & -> & Hb). simpl. destruct b.
    + assert (paired (with_params (tail (paramQueue s)) (with_events q s)) evs tms) as Ha1.
      { apply Forall_cons in Hf as [_ Hf]. rewrite Hp. split; [split_and!; [by split|simpl; unfold names; by rewrite !length_fmap|done]|done]. }
      pose proof (IH _ evs tms Ha1 ltac:(lia) Hcalm ltac:(unfold weight, names in *; rewrite length_fmap in *; cbn [length kbd sched with_params with_events] in *; lia)) as H.
      destruct (getNextEvent fuel used filter _) as [[r s']| | |]; try done.
      destruct H as (made & skipped & name' & args' & evs' & Hm & Heq & Hsk & Hacc & Hans). exists made, ((name, args) :: skipped), name', args', evs'.
      split; [eapply produces_same_input; [|exact Hm]; by repeat split|]. split; [cbn; by rewrite Heq|]. split; [|done]. constructor; [by apply Hb|done].
    + destruct (deliver_spec used name args (with_events q s) evs tms) as (r & s' & -> & Hans); [by split|lia|exact Hp|]. simpl.
      exists [], [], name, args, evs. split; [constructor|]. rewrite app_nil_r. split; [done|]. split; [constructor|]. split; [|done].
      destruct (decide (accepts filter name)) as [|Hn]; [done|]. by apply Hb in Hn.
Qed.

(** C8. The two queues of names and of parameters work as one queue of events. From a
    state where they hold the events [evs], whatever bytes and timers the hardware
    brings: [getNextEvent] ends after a bounded number of turns or still waits for
    hardware. What it returns is the first event that the filter accepts of [evs] and
    then of the events its turns make of the keyboard and the timers ([turn_events]: key
    or key_up with its number, char, timer with its id, in that order); the events before
    it are dropped. The values are the name and the parameters that were queued with
    it, their number is what it returns, the warning is not printed, and the queues hold
    the events behind it. When the coroutine has no room for the values (for the other
    case see [full_stack_misaligns]) it returns none and the parameters stay. It is
    assumed that the 44 slots of [paramQueue], which the code does not check, are enough:
    at most 44 queued events, and at most 42 timers that fire at once. *)
Theorem getNextEvent_keeps_alignment (used : Z) (filter : string) s (evs : list event) tms :
  paired s evs tms -> (length evs <= 44)%nat -> calm s tms ->
  match getNextEvent (S (weight s (names evs) tms)) used filter s with
  | Done (r, s') => exists made skipped name args rest, produces s made /\ evs ++ made = skipped ++ (name, args) :: rest /\
      Forall (fun e => ~ accepts filter e.1) skipped /\ accepts filter name /\ answered used name args rest r s'
  | Waiting => True
  | OutOfFuel | Undefined => False
  end.
Proof. intros Ha Hl Hc. apply getNextEvent_spec with tms; [done..|lia]. Qed.

Lemma getNextEvent_skip used filter s pre name post fuel tms :
  filter <> EmptyString -> Forall (fun e => exists n, e = Some n /\ n <> filter) pre ->
  aligned s (pre ++ Some name :: post) tms ->
  Z.of_nat (length (pre ++ Some name :: post)) < INT_MAX ->
  exists s', holds s' (Some name :: post) tms /\
    paramQueue s' = drop (length pre) (paramQueue s) /\ kbd s' = kbd s /\ sched s' = sched s /\
    getNextEvent (length pre + fuel) used filter s = getNextEvent fuel used filter s'.
Proof.
  intros Hfe. revert s. induction pre as [|e pre IH]; intros s Hpre Ha Hmax.
  { exists s. destruct Ha as (Hh & _). by split_and!. }
  apply Forall_cons in Hpre as [(n & -> & Hn) Hpre]. pose proof Ha as ((He & Ht) & Hl & Hf).
  cbn [length app Nat.add] in *. cbn [getNextEvent].
  rewrite (fq_size_spec _ _ He) by (cbn [length]; lia). simpl.
  rewrite (fq_front_spec _ _ He). simpl.
  destruct (fq_pop_spec _ _ He) as (q & -> & Hq). simpl.
  unfold rejects. rewrite decide_False by done. simpl. rewrite bool_decide_true by done.
  destruct (paramQueue s) as [|p ps] eqn:Hps; [done|]. apply Forall_cons in Hf as [_ Hf].
  destruct (IH (with_params ps (with_events q s)) Hpre) as (s' & Hh' & Hp' & Hk' & Hs' & Heq).
  { split; [by split|split; [simpl in *; lia|done]]. }
  { lia. }
  exists s'. by split_and!.
Qed.

(** C7. A filter selects the first event of that name: the events before it are
    dropped with their parameters, the ones behind it stay queued with theirs, and
    no hardware is consulted; the values are the name and exactly the parameters
    queued with that event. *)
Theorem getNextEvent_first_match (used : Z) (filter : string) s pre post tms ppre p ppost :
  filter <> EmptyString -> Forall (fun e => exists n, e = Some n /\ n <> filter) pre ->
  aligned s (pre ++ Some filter :: post) tms ->
  paramQueue s = ppre ++ p :: ppost -> length ppre = length pre ->
  Z.of_nat (length (pre ++ Some filter :: post)) < INT_MAX ->
  lua_checkstack used (Z.of_nat (length p) + 1) = true ->
  exists s', getNextEvent (S (length pre)) used filter s =
      Done ({| pushed := LString filter :: p; nresults := Z.of_nat (length p) + 1; warned := false |}, s') /\
    aligned s' post tms /\ paramQueue s' = ppost /\ kbd s' = kbd s /\ sched s' = sched s.
Proof.
  intros Hfe Hpre Ha Hp Hlen Hmax Hcs.
  destruct (getNextEvent_skip used filter s pre filter post 1 tms Hfe Hpre Ha Hmax)
    as (s1 & (He & Ht) & Hp1 & Hk1 & Hs1 & Heq).
  replace (S (length pre)) with (length pre + 1)%nat by lia. rewrite Heq. cbn [getNextEvent].
  pose proof Ha as (_ & Hl & Hf). rewrite length_app in Hmax. cbn [length] in Hmax.
  rewrite (fq_size_spec _ _ He) by (cbn [length]; lia). simpl.
  rewrite (fq_front_spec _ _ He). simpl. destruct (fq_pop_spec _ _ He) as (q & -> & Hq). simpl.
  unfold rejects. rewrite decide_False by done. simpl. rewrite bool_decide_false by tauto.
  rewrite Hp in Hp1, Hl. rewrite <- Hlen, drop_app_length in Hp1.
  rewrite !length_app in Hl. cbn [length] in Hl.
  unfold deliver. simpl. rewrite (fq_size_spec _ _ Hq) by (simpl; lia). simpl. rewrite Hp1, Hcs. simpl.
  replace (Z.of_nat (S (length ppost)) =? Z.of_nat (length post) + 1) with true
    by (symmetry; apply Z.eqb_eq; lia). simpl.
  eexists. split; [done|]. split; [|by split_and!].
  split; [by split|split; [simpl; lia|]]. apply Forall_app in Hf as [_ Hf]. by apply Forall_cons in Hf as [_ ?].
Qed.

End OsProofs.

(** ** Where the event loop goes wrong *)
Section OsDefects.
Context {EQ TQ : Type} `{!FifoQueue EQ string} `{!FifoQueue TQ Z}.
Implicit Types (s : os_state EQ TQ) (evs : list (option string)) (tms : list (option Z)).

(** When the coroutine's stack has no room for an event, [getNextEvent] has
    removed the event from the queue but not its parameters: it returns no values,
    prints no warning, and from then on there is one parameter list too many, so
    every later event is delivered with the parameters of the one before it. *)
Theorem full_stack_misaligns (used : Z) s name evs tms p ps :
  aligned s (Some name :: evs) tms -> paramQueue s = p :: ps ->
  Z.of_nat (length evs) < INT_MAX ->
  lua_checkstack used (Z.of_nat (length p) + 1) = false ->
  exists s', getNextEvent 1 used "" s = Done ({| pushed := []; nresults := 0; warned := false |}, s') /\
    holds s' evs tms /\ paramQueue s' = p :: ps /\
    length (paramQueue s') = S (length evs).
Proof.
  intros ((He & Ht) & Hl & Hf) Hp Hmax Hcs. cbn [getNextEvent].
  rewrite (fq_size_spec _ _ He) by (cbn [length]; lia). cbn [of_queue mbind outcome_bind length].
  replace (Z.of_nat (S (length evs)) =? 0) with false by (symmetry; apply Z.eqb_neq; lia).
  rewrite (fq_front_spec _ _ He). simpl.
  destruct (fq_pop_spec _ _ He) as (q & -> & Hq). simpl. unfold deliver. simpl.
  rewrite (fq_size_spec _ _ Hq) by (simpl; lia). simpl. rewrite Hp, Hcs in *. simpl in *.
  injection Hl as Hl. rewrite Hl.
  replace (Z.of_nat (S (length evs)) =? Z.of_nat (length evs) + 1) with true
    by (symmetry; apply Z.eqb_eq; lia).
  simpl. eexists. split; [done|]. simpl. rewrite Hp. simpl. by split_and!; [split| |rewrite Hl].
Qed.

(** [os_queueEvent] does not look how many events are queued: the next one behind 44 is
    written outside of the stack of [paramQueue], as are parameters behind the 44th. *)
Lemma params_overflow name args s :
  length (paramQueue s) = 44%nat \/ (44 < length args)%nat -> os_queueEvent name args s = None.
Proof.
  intros Hl. unfold os_queueEvent, push_event, fits, PARAM_SLOTS.
  assert ((Z.of_nat (S (length (paramQueue s))) <=? 44) && (Z.of_nat (length args) <=? 44) = false) as ->; [|done].
  apply andb_false_iff. rewrite !Z.leb_gt. lia.
Qed.

Lemma get_scancode_ready s evs b bs :
  holds s evs [] -> kbd s = b :: bs -> get_scancode s = Done (b, with_kbd bs s).
Proof.
  intros [He Ht] Hk. unfold get_scancode.
  assert (forall ts, wait_input ts s = Done s) as ->
    by (intros []; simpl; by rewrite Hk).
  simpl. rewrite (fq_empty_spec _ _ Ht). simpl. unfold read_data. by rewrite Hk.
Qed.

(** A timer interrupt between the two bytes of an extended key splits it:
    [getkey] returns the bare prefix 0xE000, which is reported as key 128, and the
    second byte stays in the controller to be read as a plain key. *)
Theorem timer_splits_extended_key s evs b bs id ids ts :
  holds s evs [] -> kbd s = [0xE0] ->
  sched s = {| tick_bytes := b :: bs; tick_timers := id :: ids |} :: ts ->
  exists s', getkey s = Done (0xE000, s') /\ ps2tocc 0xE000 = 128 /\
    kbd s' = b :: bs /\ holds s' evs (timer_data <$> id :: ids).
Proof.
  intros [He Ht] Hk Hs. unfold getkey.
  rewrite (get_scancode_ready s evs 0xE0 [] (conj He Ht) Hk). simpl.
  unfold get_scancode. cbn [sched with_kbd]. rewrite Hs. cbn [wait_input kbd with_kbd timerQueue].
  rewrite bool_decide_true, (fq_empty_spec _ _ Ht), bool_decide_true by done. simpl.
  unfold process_events. cbn [tick_timers tick_bytes].
  destruct (fire_timers_spec (id :: ids)
    (with_kbd (kbd (with_sched ts (with_kbd [] s)) ++ b :: bs) (with_sched ts (with_kbd [] s)))
    evs [] (conj He Ht)) as (s2 & Hf & Hh2 & Hk2 & Hs2 & _).
  rewrite Hf. simpl.
  assert (forall ts, wait_input ts s2 = Done s2) as Hw.
  { intros ts'. destruct ts'; simpl; rewrite Hk2; simpl; done. }
  rewrite Hw. simpl. rewrite (fq_empty_spec _ _ (proj2 Hh2)). rewrite bool_decide_false by done.
  simpl. exists s2. by split_and!.
Qed.

End OsDefects.

(** A press of a plain or extended key and its release name the same key. *)
Definition same_key_ok (b : Z) : bool :=
  (ps2tocc b =? Z.land b 0x7F) && (ps2tocc (Z.lor b 0x80) =? ps2tocc b) &&
  (ps2tocc (Z.lor 0xE000 b) =? Z.land b 0x7F + 128) &&
  (ps2tocc (Z.lor 0xE000 (Z.lor b 0x80)) =? ps2tocc (Z.lor 0xE000 b)).

(** A key and its release report the same key number, plain keys below 128 and
    extended keys above, so the two kinds never collide; but the three-byte Pause
    sequence is never recognised: [getkey] tags it 0xE0 where [ps2tocc] tests for
    0xE1, so it is reported as key 69 (Num Lock) and 197 only ever comes from an
    extended 0x45. *)
Theorem ps2tocc_keys (b b1 b2 : Z) :
  is_byte b -> is_byte b1 -> is_byte b2 ->
  ps2tocc b = Z.land b 0x7F /\ ps2tocc (Z.lor b 0x80) = ps2tocc b /\
  ps2tocc (Z.lor 0xE000 b) = Z.land b 0x7F + 128 /\
  ps2tocc (Z.lor 0xE000 (Z.lor b 0x80)) = ps2tocc (Z.lor 0xE000 b) /\
  ps2tocc (Z.lor (Z.lor 0xE00000 (Z.shiftl 0x1D 8)) 0x45) = 69 /\
  Z.land (Z.lor (Z.lor 0xE00000 (Z.shiftl b1 8)) b2) 0xFF7F7F <> 0xE11D45.
Proof.
  intros Hb H1 H2. assert (same_key_ok b = true) as H.
  { apply forallb_bytes; [by vm_compute|done]. }
  unfold same_key_ok in H. split_and!; try lia; [done|].
  intros He. assert (Z.testbit (Z.land (Z.lor (Z.lor 0xE00000 (Z.shiftl b1 8)) b2) 0xFF7F7F) 16 = true) as Ht
    by (rewrite He; done).
  unfold is_byte in *. rewrite Z.land_spec, !Z.lor_spec, Z.shiftl_spec in Ht by lia.
  rewrite (testbit_high 8 b2), (testbit_high 8 b1) in Ht by lia. by vm_compute in Ht.
Qed.

(** ** Witnesses: the event loop over the linked queue *)
Abbreviation os_concrete := (os_state (heap string * queue) (heap Z * queue)).

Definition os_start (keys : list Z) (ticks : list tick) : os_concrete :=
  {| running := 1; label := None; label_defined := false; eventQueue := fq_new;
     timerQueue := fq_new; paramQueue := []; modifiers := 0; kbd := keys; sched := ticks |}.

Lemma os_start_aligned keys ticks : aligned (os_start keys ticks) [] [].
Proof. split; [split; apply fq_new_repr|by split]. Qed.

(** Key [a] (0x1E) pressed with nothing queued. *)
Lemma getNextEvent_keeps_alignment_witness :
  exists r s', getNextEvent (EQ := heap string * queue) (TQ := heap Z * queue) 4 0 "char" (os_start [0x1E] []) = Done (r, s') /\
    pushed r = [LString "char"; LString "a"] /\
    exists made skipped name args rest, produces (os_start [0x1E] []) made /\ made = skipped ++ (name, args) :: rest /\
      Forall (fun e => ~ accepts "char" e.1) skipped /\ accepts "char" name /\ answered 0 name args rest r s'.
Proof.
  pose proof (getNextEvent_keeps_alignment 0 "char" (os_start [0x1E] []) [] []
    (conj (os_start_aligned _ _) eq_refl) ltac:(cbn; lia) ltac:(split; [cbn; lia|constructor])) as H.
  change (S (weight (os_start [30] []) (names []) [])) with 4%nat in H.
  destruct (getNextEvent 4 0 "char" (os_start [0x1E] [])) as [[r s']| | |] eqn:E; [|done..].
  exists r, s'. split; [reflexivity|]. split; [|exact H]. vm_compute in E. by injection E as <- _.
Defined.

(** Two events queued through [os_queueEvent]. *)
Definition os_queued : option os_concrete :=
  s ← os_queueEvent (Some "first"%string) [LInteger 1] (os_start [] []);
  os_queueEvent (Some "second"%string) [LInteger 2] s.

Lemma os_queued_aligned : exists s, os_queued = Some s /\
  aligned s [Some "first"; Some "second"]%string [] /\ paramQueue s = [[LInteger 1]; [LInteger 2]].
Proof.
  unfold os_queued, os_queueEvent.
  destruct (push_event_spec "first" [LInteger 1] (os_start [] []) [] [] (conj (os_start_aligned _ _) eq_refl))
    as (s1 & -> & Ha1 & _); [cbn; lia..|]. simpl.
  destruct (push_event_spec "second" [LInteger 2] s1 _ [] Ha1) as (s2 & -> & [Ha2 Hp2] & _); [cbn; lia..|].
  exists s2. split_and!; [done|exact Ha2|exact Hp2].
Qed.

Lemma getNextEvent_first_match_witness : exists s s', os_queued = Some s /\
  getNextEvent 2 0 "second" s =
    Done ({| pushed := [LString "second"; LInteger 2]; nresults := 2; warned := false |}, s') /\
  paramQueue s' = [].
Proof.
  destruct os_queued_aligned as (s & Hs & Ha & Hp). exists s.
  destruct (getNextEvent_first_match 0 "second" s [Some "first"%string] [] [] [[LInteger 1]] [LInteger 2] []
    ltac:(done)) as (s' & He & _ & Hp' & _); try done.
  - repeat constructor. by eexists.
  - exists s'. by split_and!.
Defined.

Lemma full_stack_misaligns_witness : exists s s', os_queued = Some s /\
  getNextEvent 1 8000 "" s = Done ({| pushed := []; nresults := 0; warned := false |}, s') /\
  length (paramQueue s') = 2%nat.
Proof.
  destruct os_queued_aligned as (s & Hs & Ha & Hp). exists s.
  destruct (full_stack_misaligns 8000 s "first" [Some "second"%string] [] [LInteger 1] [[LInteger 2]] Ha Hp
    ltac:(vm_compute; reflexivity) eq_refl) as (s' & He & _ & _ & Hlen).
  exists s'. by split_and!.
Defined.

(** Left arrow (0xE0 0x4B) with timer 7 firing between its bytes. *)
Lemma timer_splits_extended_key_witness : exists s',
  getkey (EQ := heap string * queue) (TQ := heap Z * queue)
    (os_start [0xE0] [{| tick_bytes := [0x4B]; tick_timers := [7] |}]) = Done (0xE000, s') /\
  kbd s' = [0x4B].
Proof.
  destruct (timer_splits_extended_key (os_start [0xE0] [{| tick_bytes := [0x4B]; tick_timers := [7] |}])
    [] 0x4B [] 7 [] [] (proj1 (os_start_aligned _ _)) eq_refl eq_refl) as (s' & He & _ & Hk & _).
  exists s'. by split.
Defined.

Lemma ps2tocc_keys_witness : (is_byte 0x4B /\ is_byte 0x1D /\ is_byte 0x45) /\
  ps2tocc (Z.lor 0xE000 0x4B) = 203 /\ ps2tocc 0xE01D45 = 69.
Proof.
  split; [by split_and!; compute_done|].
  destruct (ps2tocc_keys 0x4B 0x1D 0x45 ltac:(by compute_done) ltac:(by compute_done) ltac:(by compute_done))
    as (_ & _ & H3 & _ & H5 & _).
  split; [exact H3|exact H5].
Defined.
