(* ===== verification/Main.v ===== *)
(** * The kernel's main function: main.cpp

    [main2] as a step relation. A configuration is the label the code is at with the
    locals that live there, the state of os.cpp and the log of the calls that open
    and close the session's resources. The Lua program the machine runs (bios.lua and
    the interpreter) is any function [resume] from a coroutine, the values it is
    resumed with and the state to what [lua_resume] reports; [bios] is the result of
    [luaL_loadbuffer], which is the same in every session. *)
From S2P Require Import Prelude Queue Keyboard Os.
#[local] Open Scope Z_scope.

(** The calls of [main2] on the interpreter and the screen. *)
Inductive action :=
  | NewState | TermInit | ResumeLua (args : list lua_value) | TermClose | CloseState.

(** The drive loop of [Service::start]: it looks at a drive before it tests whether
    there is one; [None] is the access through the end iterator. *)
Fixpoint find_drive (sizes : list Z) : option nat :=
  match sizes with
  | [] => None
  | size :: sizes => if size <? 10 then S <$> find_drive sizes else Some O
  end.

Section Main.
Context {EQ TQ : Type} `{!FifoQueue EQ string} `{!FifoQueue TQ Z}.
Variable coroutine : Type.

(** What [lua_resume] reports: a yield with the string on top of the stack, if
    there is one, and the stack slots in use; the end of the program; an error. Or it does
    not return: [os.reboot] or [os.shutdown] has ended the run of the machine. *)
Inductive resumed :=
  | Yielded (filter : option string) (used : Z) (co : coroutine)
  | Finished
  | Failed (msg : string)
  | PoweredOff.

Variable resume : coroutine -> list lua_value -> os_state EQ TQ -> resumed * os_state EQ TQ.
Variable bios : string + coroutine.

(** Where [main2] is. [Running] is the test of the main loop, with [None] once
    [status] is not LUA_YIELD any more; [Off] is where a reset has cut it short. *)
Inductive phase :=
  | Start
  | Running (co : option coroutine) (args : list lua_value)
  | Closing
  | Off
  | Returned (code : Z).

Record config := Config { at_ : phase; osst : os_state EQ TQ; log : list action }.

Inductive main_step : config -> config -> Prop :=
  (** From [start] to the first test of the loop; [paramQueue] is a new thread. *)
  | step_load s l co :
      bios = inr co ->
      main_step (Config Start s l)
                (Config (Running (Some co) []) (with_params [] s) (l ++ [NewState; TermInit]))
  (** The BIOS does not compile: the state is not closed. *)
  | step_load_error s l msg :
      bios = inl msg ->
      main_step (Config Start s l)
                (Config (Returned 2) (with_params [] s) (l ++ [NewState; TermInit; TermClose]))
  | step_yield s l co args filter used co' s1 n r s2 :
      running s = 1 ->
      resume co args s = (Yielded filter used co', s1) ->
      getNextEvent n used (default EmptyString filter) s1 = Done (r, s2) ->
      main_step (Config (Running (Some co) args) s l)
                (Config (Running (Some co') (pushed r)) s2 (l ++ [ResumeLua args]))
  | step_finish s l co args s1 :
      running s = 1 ->
      resume co args s = (Finished, s1) ->
      main_step (Config (Running (Some co) args) s l)
                (Config (Running None []) s1 (l ++ [ResumeLua args]))
  | step_fail s l co args msg s1 :
      running s = 1 ->
      resume co args s = (Failed msg, s1) ->
      main_step (Config (Running (Some co) args) s l)
                (Config (Returned 1) s1 (l ++ [ResumeLua args; TermClose; CloseState]))
  | step_off s l co args s1 :
      running s = 1 ->
      resume co args s = (PoweredOff, s1) ->
      main_step (Config (Running (Some co) args) s l)
                (Config Off s1 (l ++ [ResumeLua args]))
  (** The loop ends: the program has ended, or [running] was changed. *)
  | step_leave s l co args :
      (co = None \/ running s <> 1) ->
      main_step (Config (Running co args) s l) (Config Closing s (l ++ [TermClose; CloseState]))
  | step_reboot s l :
      running s = 2 ->
      main_step (Config Closing s l) (Config Start s l)
  | step_return s l :
      running s <> 2 ->
      main_step (Config Closing s l) (Config (Returned 0) s l).

(** The start of [main2] resets the two event queues. *)
Definition main2_entry (s : os_state EQ TQ) : config :=
  Config Start (with_events fq_new (with_timers fq_new s)) [].

(** The same step as a function; [fuel] bounds the turns of [getNextEvent]. *)
Definition main_next (fuel : nat) (c : config) : outcome config :=
  let s := osst c in
  match at_ c with
  | Start =>
      match bios with
      | inl _ => Done (Config (Returned 2) (with_params [] s) (log c ++ [NewState; TermInit; TermClose]))
      | inr co => Done (Config (Running (Some co) []) (with_params [] s) (log c ++ [NewState; TermInit]))
      end
  | Running (Some co) args =>
      if running s =? 1 then
        match resume co args s with
        | (Yielded filter used co', s1) =>
            '(r, s2) ← getNextEvent fuel used (default EmptyString filter) s1;
            Done (Config (Running (Some co') (pushed r)) s2 (log c ++ [ResumeLua args]))
        | (Finished, s1) => Done (Config (Running None []) s1 (log c ++ [ResumeLua args]))
        | (Failed _, s1) => Done (Config (Returned 1) s1 (log c ++ [ResumeLua args; TermClose; CloseState]))
        | (PoweredOff, s1) => Done (Config Off s1 (log c ++ [ResumeLua args]))
        end
      else Done (Config Closing s (log c ++ [TermClose; CloseState]))
  | Running None args => Done (Config Closing s (log c ++ [TermClose; CloseState]))
  | Closing => if running s =? 2 then Done (Config Start s (log c)) else Done (Config (Returned 0) s (log c))
  | Off | Returned _ => Waiting
  end.

Lemma main_next_step fuel c c' : main_next fuel c = Done c' -> main_step c c'.
Proof.
  destruct c as [p s l]. unfold main_next; cbn [at_ osst log].
  destruct p as [|[co|] args| | |code]; [destruct bios eqn:E| | | |done|done].
  - intros [= <-]. by econstructor.
  - intros [= <-]. by econstructor.
  - destruct (Z.eqb_spec (running s) 1) as [Hr|Hr].
    2:{ intros [= <-]. constructor. by right. }
    destruct (resume co args s) as [[f u co'| |m|] s1] eqn:Er.
    + destruct (getNextEvent _ _ _ _) as [[r s2]| | |] eqn:Eg; try done. cbn.
      intros [= <-]. by eapply step_yield.
    + intros [= <-]. by constructor.
    + intros [= <-]. by econstructor.
    + intros [= <-]. by constructor.
  - intros [= <-]. constructor. by left.
  - destruct (Z.eqb_spec (running s) 2); intros [= <-]; by constructor.
Qed.

(** ** Resources *)

Definition opened : list action -> nat :=
  sum_list_with (fun a => match a with NewState => 1 | _ => 0 end)%nat.
Definition closed : list action -> nat :=
  sum_list_with (fun a => match a with CloseState => 1 | _ => 0 end)%nat.
Definition shown : list action -> nat :=
  sum_list_with (fun a => match a with TermInit => 1 | _ => 0 end)%nat.
Definition hidden : list action -> nat :=
  sum_list_with (fun a => match a with TermClose => 1 | _ => 0 end)%nat.

Definition balanced (c : config) : Prop :=
  shown (log c) = (hidden (log c) + match at_ c with Running _ _ | Off => 1 | _ => 0 end)%nat /\
  opened (log c) = (closed (log c) +
    match at_ c with Running _ _ | Off => 1 | Returned k => if decide (k = 2%Z) then 1 else 0 | _ => 0 end)%nat.

Lemma counts_app l1 l2 :
  opened (l1 ++ l2) = (opened l1 + opened l2)%nat /\ closed (l1 ++ l2) = (closed l1 + closed l2)%nat /\
  shown (l1 ++ l2) = (shown l1 + shown l2)%nat /\ hidden (l1 ++ l2) = (hidden l1 + hidden l2)%nat.
Proof. unfold opened, closed, shown, hidden. by rewrite !sum_list_with_app. Qed.

Lemma main_step_balanced c c' : main_step c c' -> balanced c -> balanced c'.
Proof.
  intros Hs [H1 H2]. unfold balanced.
  destruct Hs; cbn [at_ log] in *;
    try (match goal with |- context [opened (?a ++ ?b)] =>
           destruct (counts_app a b) as (-> & -> & -> & ->) end);
    change (opened []) with O; cbn in *; repeat case_decide; lia.
Qed.

(** Over every run of the machine, through any number of reboots, the screen is
    opened and closed in turn and every interpreter state that is created is closed (or
    is in use when the machine goes off), with one exception: when the BIOS does not compile [main2] returns 2 and leaves
    the state it created open. *)
Theorem sessions_balanced (s : os_state EQ TQ) (c : config) :
  rtc main_step (main2_entry s) c ->
  shown (log c) = (hidden (log c) + match at_ c with Running _ _ | Off => 1 | _ => 0 end)%nat /\
  opened (log c) = (closed (log c) +
    match at_ c with Running _ _ | Off => 1 | Returned k => if decide (k = 2%Z) then 1 else 0 | _ => 0 end)%nat.
Proof.
  intros Hr. change (balanced c). assert (balanced (main2_entry s)) as H by done.
  revert H. induction Hr; eauto using main_step_balanced.
Qed.

(** The configuration after [n] steps. *)
Fixpoint main_run (fuel n : nat) (c : config) : outcome config :=
  match n with
  | O => Done c
  | S n => c ← main_next fuel c; main_run fuel n c
  end.

(** ** Shutdown *)

(** Nothing in the event loop changes [running]. *)
Definition keeps_running {A} (o : outcome (A * os_state EQ TQ)) (s : os_state EQ TQ) : Prop :=
  match o with Done (_, s') => running s' = running s | _ => True end.

Lemma fire_timers_running ids (s s' : os_state EQ TQ) :
  fire_timers ids s = Some s' -> running s' = running s.
Proof.
  revert s. induction ids as [|id ids IH]; cbn; intros s; [by intros [= <-]|].
  unfold timerEvent. destruct (fq_push _ _) as [q|]; [cbn|done]. by intros ->%IH.
Qed.

Lemma wait_input_running ts (s s' : os_state EQ TQ) :
  wait_input ts s = Done s' -> running s' = running s.
Proof.
  revert s. induction ts as [|t ts IH]; intros s; cbn; destruct (_ && _); try done; try by intros [= <-].
  unfold process_events. destruct (fire_timers _ _) as [s1|] eqn:E; [cbn|done].
  apply fire_timers_running in E. intros ->%IH. exact E.
Qed.

Lemma get_scancode_running (s s' : os_state EQ TQ) b :
  get_scancode s = Done (b, s') -> running s' = running s.
Proof.
  unfold get_scancode. destruct (wait_input _ _) as [s1| | |] eqn:E; try done.
  apply wait_input_running in E. cbn. destruct (negb _); [intros [= <- <-]; done|].
  unfold read_data. destruct (kbd s1); intros [= <- <-]; done.
Qed.

Lemma getkey_running (s s' : os_state EQ TQ) b : getkey s = Done (b, s') -> running s' = running s.
Proof.
  unfold getkey. destruct (get_scancode s) as [[c s1]| | |] eqn:E1; try done.
  apply get_scancode_running in E1. cbn. destruct (c =? 0xE0).
  { destruct (get_scancode s1) as [[c2 s2]| | |] eqn:E2; try done.
    apply get_scancode_running in E2. cbn. intros [= <- <-]. congruence. }
  destruct (c =? 0xE1); [|by intros [= <- <-]].
  destruct (get_scancode s1) as [[c2 s2]| | |] eqn:E2; try done.
  apply get_scancode_running in E2. cbn.
  destruct (get_scancode s2) as [[c3 s3]| | |] eqn:E3; try done.
  apply get_scancode_running in E3. cbn. intros [= <- <-]. congruence.
Qed.

Lemma push_event_running name args (s s' : os_state EQ TQ) :
  push_event name args s = Some s' -> running s' = running s.
Proof. unfold push_event. destruct (_ && _); [|done]. destruct (fq_push _ _); [by intros [= <-]|done]. Qed.

Lemma key_events_running code (s s' : os_state EQ TQ) :
  key_events code s = Some s' -> running s' = running s.
Proof.
  unfold key_events. destruct (code =? 0); [by intros [= <-]|].
  destruct (push_event _ _ s) as [s1|] eqn:E1; [|done]. apply push_event_running in E1. cbn.
  destruct (convert_ps2_code _ _) as [m c]. destruct (c =? 0); [by intros [= <-]|].
  destruct (convert_ps2_code _ _) as [m' c'].
  intros E2%push_event_running. by rewrite E2.
Qed.

Lemma timer_events_running n (s s' : os_state EQ TQ) :
  timer_events n s = Some s' -> running s' = running s.
Proof.
  revert s. induction n as [|n IH]; intros s; cbn; destruct (fq_empty _); try done; try by intros [= <-].
  destruct (fq_front _) as [id|]; [cbn|done].
  destruct (push_event _ _ s) as [s1|] eqn:E1; [|done]. apply push_event_running in E1. cbn.
  destruct (fq_pop _) as [q|]; [cbn|done]. intros ->%IH. exact E1.
Qed.

Lemma getNextEvent_running n used filter (s : os_state EQ TQ) :
  keeps_running (getNextEvent n used filter s) s.
Proof.
  revert s. induction n as [|n IH]; intros s; [done|]. cbn.
  destruct (fq_size _) as [k|]; [cbn|done]. destruct (k =? 0).
  - unfold pump. destruct (getkey s) as [[code s1]| | |] eqn:E1; try done. cbn.
    destruct (key_events code s1) as [s2|] eqn:E2; [cbn|done].
    destruct (timer_events _ s2) as [s3|] eqn:E3; [cbn|done].
    apply getkey_running in E1. apply key_events_running in E2. apply timer_events_running in E3.
    pose proof (IH s3) as H. unfold keeps_running in *.
    destruct (getNextEvent _ _ _ _) as [[r s4]| | |]; congruence.
  - destruct (fq_front _) as [ev|]; [cbn|done]. destruct (fq_pop _) as [q|]; [cbn|done].
    destruct (rejects filter ev) as [[|]|]; cbn; [| |done].
    + pose proof (IH (with_params (tail (paramQueue s)) (with_events q s))) as H.
      unfold keeps_running in *. destruct (getNextEvent _ _ _ _) as [[r s4]| | |]; done.
    + unfold deliver. destruct (fq_size _) as [k'|]; [cbn|done].
      destruct (paramQueue s) as [|param rest]; [done|]. by destruct (negb (lua_checkstack _ _)).
Qed.

(** When [os::shutdown] returns, [os.shutdown] takes effect one event later: after the resume in which Lua
    calls it and yields, [main2] first waits in [getNextEvent] for an event that
    passes the filter; when one comes the loop ends, the screen and the interpreter
    are closed and [main2] returns 0. While none comes the machine only waits. *)
Theorem shutdown_after_next_event (fuel : nat) c co args name used co' s1 :
  at_ c = Running (Some co) args -> running (osst c) = 1 ->
  resume co args (osst c) = (Yielded name used co', s1) -> running s1 = 0 ->
  match getNextEvent fuel used (default EmptyString name) s1 with
  | Done (r, s2) => main_run fuel 3 c =
      Done (Config (Returned 0) s2 (log c ++ [ResumeLua args; TermClose; CloseState]))
  | Waiting => main_run fuel 1 c = Waiting
  | _ => True
  end.
Proof.
  destruct c as [p s l]. cbn [at_ osst log]. intros -> Hr E Hr1.
  destruct (getNextEvent _ _ _ _) as [[r s2]| | |] eqn:Eg; try done.
  - pose proof (getNextEvent_running fuel used (default EmptyString name) s1) as Hr2.
    unfold keeps_running in Hr2. rewrite Eg, Hr1 in Hr2. cbn [main_run].
    assert (main_next fuel (Config (Running (Some co) args) s l) =
      Done (Config (Running (Some co') (pushed r)) s2 (l ++ [ResumeLua args]))) as ->
      by (unfold main_next; cbn [at_ osst log]; by rewrite Hr, E, Eg).
    cbn [mbind outcome_bind]. unfold main_next at 2. cbn [at_ osst log]. rewrite Hr2.
    change (0 =? 1) with false. cbn iota. cbn [mbind outcome_bind].
    unfold main_next. cbn [at_ osst log]. rewrite Hr2. change (0 =? 2) with false.
    cbn iota. cbn [mbind outcome_bind]. by rewrite <- !app_assoc.
  - cbn [main_run]. unfold main_next. cbn [at_ osst log]. rewrite Hr, E, Eg. done.
Qed.

End Main.
Arguments Yielded {coroutine}.
Arguments Finished {coroutine}.
Arguments Failed {coroutine}.
Arguments PoweredOff {coroutine}.
Arguments Start {coroutine}.
Arguments Running {coroutine}.
Arguments Closing {coroutine}.
Arguments Off {coroutine}.
Arguments Returned {coroutine}.
Arguments Config {EQ TQ coroutine}.
Arguments at_ {EQ TQ coroutine}.
Arguments osst {EQ TQ coroutine}.
Arguments log {EQ TQ coroutine}.

(** The drive loop finds the first drive of at least ten sectors, when there is one;
    otherwise it goes through the end iterator before the test that should have
    stopped the machine with a message. *)
Lemma find_drive_first (sizes : list Z) (d : nat) :
  find_drive sizes = Some d <->
  (exists size, sizes !! d = Some size /\ 10 <= size) /\
  (forall i size, (i < d)%nat -> sizes !! i = Some size -> size < 10).
Proof.
  revert d. induction sizes as [|x sizes IH]; intros d; cbn [find_drive].
  { split; [done|]. intros [(? & ? & _) _]. done. }
  destruct (Z.ltb_spec x 10) as [Hx|Hx].
  - destruct d as [|d]; cbn.
    { split; [|intros [(? & [= ->] & ?) _]; lia]. destruct (find_drive sizes); done. }
    transitivity (find_drive sizes = Some d).
    { destruct (find_drive sizes); cbn; split; congruence. }
    rewrite IH. split; intros [H1 H2]; (split; [done|]).
    + intros [|i] size Hi; cbn; [congruence|]. apply H2. lia.
    + intros i size Hi. apply (H2 (S i)). lia.
  - split.
    + intros [= <-]. split; [exists x; by split|]. intros; lia.
    + intros [_ H]. destruct d as [|d]; [done|]. specialize (H O x ltac:(lia) eq_refl). lia.
Qed.

(** [Service::start] boots from the first drive of at least ten sectors. When no
    drive is that large (or there is none) the loop reads the end iterator, so the
    panic it was written to end in is never reached. *)
Theorem boot_drive (sizes : list Z) :
  match find_drive sizes with
  | Some d => (exists size, sizes !! d = Some size /\ 10 <= size) /\
      forall i size, (i < d)%nat -> sizes !! i = Some size -> size < 10
  | None => Forall (fun size => size < 10) sizes
  end.
Proof.
  destruct (find_drive sizes) as [d|] eqn:E; [by apply find_drive_first|].
  induction sizes as [|x sizes IH]; [done|]. cbn in E.
  destruct (Z.ltb_spec x 10); [|done]. constructor; [done|]. apply IH.
  by destruct (find_drive sizes).
Qed.

(** ** Witnesses *)

(** A BIOS that calls [os.shutdown] (or [os.reboot]) and yields for an event. *)
Definition boot (call : os_concrete -> option (list lua_value * os_concrete)) :
    unit -> list lua_value -> os_concrete -> resumed unit * os_concrete :=
  fun _ _ s => match call s with Some (_, s) => (Yielded None 0 tt, s) | None => (PoweredOff, s) end.
(** [os::shutdown] tells the kernel to stop and returns; [os::reboot] does not return. *)
Definition shutdown : os_concrete -> option (list lua_value * os_concrete) := os_shutdown Some.
Definition reboot : os_concrete -> option (list lua_value * os_concrete) := os_reboot (fun _ => None).

Definition booted (s : os_concrete) : config unit :=
  Config (Running (Some tt) []) s [].

Lemma sessions_balanced_witness : exists c,
  rtc (main_step unit (boot shutdown) (inl "near end"%string)) (main2_entry unit (os_start [] [])) c /\
  at_ c = Returned 2 /\ (opened (log c) = closed (log c) + 1)%nat.
Proof.
  eexists. split; [eapply rtc_l; [by eapply step_load_error|apply rtc_refl]|]. split; [done|].
  apply (sessions_balanced unit (boot shutdown) (inl "near end"%string) (os_start [] [])).
  eapply rtc_l; [by eapply step_load_error|apply rtc_refl].
Defined.

Example reboot_ends_the_run : exists s, main_run unit (boot reboot) (inr tt) 9 1 (booted (os_start [] [])) = Done (Config Off s [ResumeLua []]).
Proof. eexists. vm_compute. reflexivity. Qed.

Lemma shutdown_after_next_event_witness : exists s2,
  main_run unit (boot shutdown) (inr tt) 9 3 (booted (os_start [0x1E] [])) =
    Done (Config (Returned 0) s2 [ResumeLua []; TermClose; CloseState]).
Proof.
  pose proof (shutdown_after_next_event unit (boot shutdown) (inr tt) 9 (booted (os_start [0x1E] []))
    tt [] None 0 tt (with_running 0 (os_start [0x1E] [])) eq_refl eq_refl eq_refl eq_refl) as H.
  destruct (getNextEvent 9 0 _ _) as [[r s2]| | |] eqn:E; [|vm_compute in E; discriminate E..].
  exists s2. exact H.
Defined.
