(* ===== verification/Lib.v ===== *)
(** * Library registration: lib.c and the registration tables

    [load_library] of lib.c and the five tables the program registers, bit.h,
    fs.cpp, os.cpp, redstone.h and term.cpp. A C function is named by its symbol. *)
From S2P Require Import Prelude.

Inductive cfunction := Cfun (symbol : string).

#[export] Instance cfunction_eq_dec : EqDecision cfunction.
Proof. solve_decision. Defined.

(** [library_t] of lib.h. *)
Record library_t := {
  lib_name : string;
  lib_count : nat;
  lib_keys : list string;
  lib_values : list cfunction;
}.

(** The globals table, each global a table of functions. *)
Abbreviation globals := (gmap string (gmap string cfunction)).

(** [load_library]: a new table, one [lua_settable] per index below [count], then
    [lua_setglobal]; [None] reads past the arrays. *)
Definition load_library (G : globals) (lib : library_t) : option globals :=
  t ← loopM (lib_count lib) (fun i t =>
        k ← lib_keys lib !! i; v ← lib_values lib !! i; Some (<[k := v]> t)) ∅;
  Some (<[lib_name lib := t]> G).

Definition bit_keys : list string :=
  ["band"; "bor"; "bnot"; "bxor"; "blshift"; "brshift"; "blogic_rshift"]%string.

Definition bit_values : list cfunction :=
  Cfun <$> ["bit_band"; "bit_bor"; "bit_bnot"; "bit_bxor"; "bit_blshift"; "bit_brshift";
   "bit_blogic_rshift"]%string.

Definition bit_lib : library_t :=
  {| lib_name := "bit"; lib_count := 7; lib_keys := bit_keys; lib_values := bit_values |}.

Definition fs_keys : list string :=
  ["list"; "exists"; "isDir"; "isReadOnly"; "getName"; "getDrive"; "getSize";
   "getFreeSpace"; "makeDir"; "move"; "copy"; "delete"; "combine"; "open"; "find"; "getDir"]%string.

Definition fs_values : list cfunction :=
  Cfun <$> ["fs_list"; "fs_exists"; "fs_isDir"; "fs_isReadOnly"; "fs_getName"; "fs_getDrive";
   "fs_getSize"; "fs_getFreeSpace"; "fs_makeDir"; "fs_move"; "fs_copy"; "fs_delete";
   "fs_combine"; "fs_open"; "fs_find"; "fs_getDir"]%string.

Definition fs_lib : library_t :=
  {| lib_name := "fs"; lib_count := 16; lib_keys := fs_keys; lib_values := fs_values |}.

Definition os_keys : list string :=
  ["getComputerID"; "getComputerLabel"; "setComputerLabel"; "queueEvent"; "clock";
   "startTimer"; "cancelTimer"; "time"; "epoch"; "day"; "setAlarm"; "cancelAlarm";
   "shutdown"; "reboot"]%string.

Definition os_values : list cfunction :=
  Cfun <$> ["os_getComputerID"; "os_getComputerLabel"; "os_setComputerLabel"; "os_queueEvent";
   "os_clock"; "os_startTimer"; "os_cancelTimer"; "os_time"; "os_epoch"; "os_day";
   "os_setAlarm"; "os_cancelAlarm"; "os_shutdown"; "os_reboot"]%string.

Definition os_lib : library_t :=
  {| lib_name := "os"; lib_count := 14; lib_keys := os_keys; lib_values := os_values |}.

Definition rs_keys : list string :=
  ["getSides"; "getInput"; "setOutput"; "getOutput"; "getAnalogInput"; "setAnalogOutput";
   "getAnalogOutput"; "getBundledInput"; "getBundledOutput"; "setBundledOutput";
   "testBundledInput"]%string.

Definition rs_values : list cfunction :=
  Cfun <$> ["rs_getSides"; "rs_false"; "rs_none"; "rs_false"; "rs_0"; "rs_none"; "rs_0"; "rs_0";
   "rs_0"; "rs_none"; "rs_false"]%string.

Definition rs_lib : library_t :=
  {| lib_name := "redstone"; lib_count := 11; lib_keys := rs_keys; lib_values := rs_values |}.

Definition term_keys : list string :=
  ["write"; "scroll"; "setCursorPos"; "setCursorBlink"; "getCursorPos"; "getSize"; "clear";
   "clearLine"; "setTextColour"; "setTextColor"; "setBackgroundColour";
   "setBackgroundColor"; "isColour"; "isColor"; "getTextColour"; "getTextColor";
   "getBackgroundColour"; "getBackgroundColor"; "blit"; "getPaletteColor";
   "getPaletteColour"; "setPaletteColor"; "setPaletteColour"]%string.

Definition term_values : list cfunction :=
  Cfun <$> ["term_write"; "term_scroll"; "term_setCursorPos"; "term_setCursorBlink";
   "term_getCursorPos"; "term_getSize"; "term_clear"; "term_clearLine"; "term_setTextColor";
   "term_setTextColor"; "term_setBackgroundColor"; "term_setBackgroundColor";
   "term_isColor"; "term_isColor"; "term_getTextColor"; "term_getTextColor";
   "term_getBackgroundColor"; "term_getBackgroundColor"; "term_blit";
   "term_getPaletteColor"; "term_getPaletteColor"; "term_setPaletteColor";
   "term_setPaletteColor"]%string.

Definition term_lib : library_t :=
  {| lib_name := "term"; lib_count := 23; lib_keys := term_keys; lib_values := term_values |}.

(** [load_library] for every library [main2] loads, in its order, then
    [redstone] again under the name [rs]. *)
Definition load_all : option globals :=
  G ← load_library ∅ bit_lib;
  G ← load_library G fs_lib;
  G ← load_library G os_lib;
  G ← load_library G rs_lib;
  rs ← G !! "redstone"%string;
  load_library (<["rs"%string := rs]> G) term_lib.

(** The arrays have the declared length and no key twice. *)
Definition well_registered (lib : library_t) : Prop :=
  length (lib_keys lib) = lib_count lib /\ length (lib_values lib) = lib_count lib /\
  NoDup (lib_keys lib).

#[export] Instance well_registered_dec lib : Decision (well_registered lib).
Proof. unfold well_registered. apply _. Defined.

Lemma load_library_table lib G :
  well_registered lib ->
  exists t, load_library G lib = Some (<[lib_name lib := t]> G) /\
    forall k f, t !! k = Some f <-> exists i, lib_keys lib !! i = Some k /\ lib_values lib !! i = Some f.
Proof.
  intros (Hk & Hv & Hn). unfold load_library.
  destruct (loopM_ind (fun n (t : gmap string cfunction) => forall k f, t !! k = Some f <->
      exists i, i < n /\ lib_keys lib !! i = Some k /\ lib_values lib !! i = Some f) (lib_count lib)
    (fun i t => k ← lib_keys lib !! i; v ← lib_values lib !! i; Some (<[k := v]> t)) ∅)
    as (t & -> & Ht).
  - intros k f. rewrite lookup_empty. split; [done|]. intros (i & ? & _). lia.
  - intros i t Hi IH.
    destruct (lookup_lt_is_Some_2 (lib_keys lib) i) as [k Hki]; [lia|].
    destruct (lookup_lt_is_Some_2 (lib_values lib) i) as [v Hvi]; [lia|].
    rewrite Hki, Hvi. simpl. eexists. split; [done|]. intros k' f. rewrite lookup_insert. case_decide as Heq.
    + subst k'. split.
      * intros [= <-]. eauto with lia.
      * intros (j & _ & Hj & Hf). by rewrite (NoDup_lookup _ _ _ _ Hn Hj Hki), Hvi in Hf.
    + rewrite IH. split; intros (j & Hj & Hjk & Hjv); exists j; (split; [|done]); [lia|].
      assert (j <> i) by (intros ->; congruence). lia.
  - simpl. exists t. split; [done|]. intros k f. rewrite Ht. split; intros (i & Hi).
    + naive_solver.
    + exists i. split; [|done]. rewrite <- Hk. apply lookup_lt_Some with k, Hi.
Qed.

(** Loading a library whose arrays have the declared length and distinct keys
    creates one global table that maps each key to the function at the same index
    and nothing else, and leaves the other globals alone; the five registration
    tables of the program satisfy those conditions. *)
Theorem load_library_registers (G : globals) :
  Forall (fun lib => exists t, load_library G lib = Some (<[lib_name lib := t]> G) /\
    (forall i k f, lib_keys lib !! i = Some k -> lib_values lib !! i = Some f -> t !! k = Some f) /\
    dom t = list_to_set (lib_keys lib)) [bit_lib; fs_lib; os_lib; rs_lib; term_lib].
Proof.
  assert (Forall well_registered [bit_lib; fs_lib; os_lib; rs_lib; term_lib]) as Hw by (by compute_done).
  eapply Forall_impl; [exact Hw|]. intros lib Hlib.
  destruct (load_library_table lib G Hlib) as (t & He & Ht). exists t. split_and!; [done| |].
  - intros i k f Hk Hf. apply Ht. eauto.
  - apply set_eq. intros k. rewrite elem_of_dom, elem_of_list_to_set. split.
    + intros [f Hf]. apply Ht in Hf as (i & Hk & _). by eapply list_elem_of_lookup_2.
    + intros [i Hk]%list_elem_of_lookup_1. destruct Hlib as (Hl1 & Hl2 & _).
      destruct (lookup_lt_is_Some_2 (lib_values lib) i) as [f Hf].
      { rewrite Hl2, <- Hl1. by eapply lookup_lt_Some. }
      exists f. apply Ht. eauto.
Qed.

(** Start-up registers the six globals, [rs] being the same table as [redstone]. *)
Lemma load_all_globals :
  match load_all with
  | Some G => bool_decide (dom G = list_to_set ["bit"; "fs"; "os"; "redstone"; "rs"; "term"]%string) &&
              bool_decide (G !! "rs"%string = G !! "redstone"%string)
  | None => false
  end = true.
Proof. vm_compute. reflexivity. Qed.
