(* ===== verification/Term.v ===== *)
(** * The terminal of term.cpp

    [term] holds the globals of the file: the character and colour cells, the
    cursor, the palette and the four bit planes of [pixel_buffer]. What the code
    sends to the VGA adapter is the list [io]. The glyphs of font.h are the
    variable [header_data] and the adapter's attribute registers the variable
    [ac_register]; every result holds for any of them. [None] is an access outside
    an array. *)
From S2P Require Import Prelude.
#[local] Open Scope Z_scope.

Definition TERM_HEIGHT : Z := 26.
Definition TERM_WIDTH : Z := 53.

(** Array reads and writes with C indices. *)
Definition load {A} (l : list A) (i : Z) : option A :=
  if 0 <=? i then l !! Z.to_nat i else None.
Definition store {A} (l : list A) (i : Z) (v : A) : option (list A) :=
  if (0 <=? i) && (i <? Z.of_nat (length l)) then Some (<[Z.to_nat i := v]> l) else None.
Definition fill (l : bytes) (off v len : Z) : option bytes :=
  if (0 <=? off) && (0 <=? len) && (off + len <=? Z.of_nat (length l)) then
    Some (memset (Z.to_nat off) v (Z.to_nat len) l) else None.
Definition move (l : bytes) (dst src len : Z) : option bytes :=
  if (0 <=? dst) && (0 <=? src) && (0 <=? len) && (dst + len <=? Z.of_nat (length l)) &&
     (src + len <=? Z.of_nat (length l)) then
    Some (memmove (Z.to_nat dst) (Z.to_nat src) (Z.to_nat len) l) else None.

(** What reaches the adapter: port output and input, and accesses to its memory. *)
Inductive hw :=
  | SetMode
  | Outb (port val : Z)
  | Inb (port : Z)
  | VCopy (addr : Z) (data : bytes)
  | VFill (addr val len : Z)
  | VStore (addr val : Z)
  | VAnd (addr mask : Z).

Record term := {
  characters : bytes;
  colors : bytes;
  current_colors : Z;
  cursorX : Z;
  cursorY : Z;
  cursorBlink : bool;
  cursorShow : bool;
  palette : list Z;
  pixel_buffer : list bytes;
  io : list hw;
}.

Definition with_cells (ch co : bytes) (s : term) : term :=
  {| characters := ch; colors := co; current_colors := current_colors s; cursorX := cursorX s;
     cursorY := cursorY s; cursorBlink := cursorBlink s; cursorShow := cursorShow s;
     palette := palette s; pixel_buffer := pixel_buffer s; io := io s |}.
Definition with_current (c : Z) (s : term) : term :=
  {| characters := characters s; colors := colors s; current_colors := c; cursorX := cursorX s;
     cursorY := cursorY s; cursorBlink := cursorBlink s; cursorShow := cursorShow s;
     palette := palette s; pixel_buffer := pixel_buffer s; io := io s |}.
Definition with_cursor (x y : Z) (s : term) : term :=
  {| characters := characters s; colors := colors s; current_colors := current_colors s;
     cursorX := x; cursorY := y; cursorBlink := cursorBlink s; cursorShow := cursorShow s;
     palette := palette s; pixel_buffer := pixel_buffer s; io := io s |}.
Definition with_blink (b : bool) (s : term) : term :=
  {| characters := characters s; colors := colors s; current_colors := current_colors s;
     cursorX := cursorX s; cursorY := cursorY s; cursorBlink := b; cursorShow := b;
     palette := palette s; pixel_buffer := pixel_buffer s; io := io s |}.
Definition with_palette (p : list Z) (s : term) : term :=
  {| characters := characters s; colors := colors s; current_colors := current_colors s;
     cursorX := cursorX s; cursorY := cursorY s; cursorBlink := cursorBlink s;
     cursorShow := cursorShow s; palette := p; pixel_buffer := pixel_buffer s; io := io s |}.
Definition with_pixels (p : list bytes) (s : term) : term :=
  {| characters := characters s; colors := colors s; current_colors := current_colors s;
     cursorX := cursorX s; cursorY := cursorY s; cursorBlink := cursorBlink s;
     cursorShow := cursorShow s; palette := palette s; pixel_buffer := p; io := io s |}.
Definition emit (e : list hw) (s : term) : term :=
  {| characters := characters s; colors := colors s; current_colors := current_colors s;
     cursorX := cursorX s; cursorY := cursorY s; cursorBlink := cursorBlink s;
     cursorShow := cursorShow s; palette := palette s; pixel_buffer := pixel_buffer s;
     io := io s ++ e |}.

(** The initial values of the globals. *)
Definition palette_init : list Z :=
  [0xf0f0f0; 0xf2b233; 0xe57fd8; 0x99b2f2; 0xdede6c; 0x7fcc19; 0xf2b2cc; 0x4c4c4c;
   0x999999; 0x4c99b2; 0xb266e5; 0x3366cc; 0x7f664c; 0x57a64e; 0xcc4c4c; 0x111111].

Definition term_init_state : term :=
  {| characters := replicate 1378 0; colors := replicate 1378 0; current_colors := 0xF0;
     cursorX := 0; cursorY := 0; cursorBlink := true; cursorShow := true;
     palette := palette_init; pixel_buffer := replicate 4 (replicate (Z.to_nat 38400) 0); io := [] |}.

Section Term.
Variable header_data : Z -> Z.
Variable ac_register : Z -> Z.

(** ** Drawing *)

(** The pixel value of font column [px], row [py] of the character [ch] drawn in
    the colours [col]: the foreground in the low nibble, the background above. *)
Definition glyph (ch col py px : Z) : Z :=
  if negb (header_data (Z.shiftr ch 4 * 864 + py * 96 + Z.land ch 0x0f * 6 + px) =? 0)
  then Z.land col 0x0f else Z.shiftr col 4.

(** The block [bitmap] that [malloc] returns: a byte that was not written yet is
    not there to be read. *)
Abbreviation bitmap_t := (gmap Z Z).

(** The four stores of one font pixel. *)
Definition bitmap_pixel (length x py px val : Z) (bm : bitmap_t) : bitmap_t :=
  <[py * length * 24 + length * 12 + x * 12 + px * 2 + 1 := val]>
  (<[py * length * 24 + length * 12 + x * 12 + px * 2 := val]>
  (<[py * length * 24 + x * 12 + px * 2 + 1 := val]>
  (<[py * length * 24 + x * 12 + px * 2 := val]> bm))).

Definition draw_char (length x ch col : Z) (bm : bitmap_t) : bitmap_t :=
  loop 9 (fun py bm =>
    loop 6 (fun px bm =>
      bitmap_pixel length x (Z.of_nat py) (Z.of_nat px) (glyph ch col (Z.of_nat py) (Z.of_nat px)) bm)
    bm) bm.

(** The first nest of loops of [blit_line]. *)
Definition draw_bitmap (s : term) (y start_x length : Z) : option bitmap_t :=
  loopM (Z.to_nat length) (fun x bm =>
    ch ← load (characters s) (y * TERM_WIDTH + Z.of_nat x + start_x);
    col ← load (colors s) (y * TERM_WIDTH + Z.of_nat x + start_x);
    Some (draw_char length (Z.of_nat x) ch col bm)) ∅.

(** The loop variables of one row of one plane. *)
Record row_state := { boff : Z; xoff : Z; b : Z; plane : bytes }.

(** One turn of [for (px = 0; px < length * 12; px++)]. *)
Definition row_step (bm : bitmap_t) (i py length : Z) (px : nat) (r : row_state) : option row_state :=
  v ← bm !! (py * length * 12 + Z.of_nat px);
  let b' := u8 (Z.lor (b r) (Z.shiftl (Z.land (Z.shiftr v i) 1) (boff r))) in
  let boff' := boff r - 1 in
  if boff' <? 0 then
    p ← store (plane r) (xoff r) b';
    Some {| boff := 7; xoff := xoff r + 1; b := 0; plane := p |}
  else Some {| boff := boff'; xoff := xoff r; b := b'; plane := plane r |}.

(** The body of [for (py = 0; py < 18; py++)] for plane [i]. *)
Definition blit_row (bm : bitmap_t) (i y start_x length py : Z) (p : bytes) : option bytes :=
  let boff0 := 7 - Z.modulo start_x 2 * 4 in
  let xoff0 := y * 1440 + py * 80 + start_x * 3 / 2 in
  b0 ← (if negb (boff0 =? 7) then v ← load p xoff0; Some (Z.land v 0xF0) else Some 0);
  r ← loopM (Z.to_nat (length * 12)) (row_step bm i py length)
        {| boff := boff0; xoff := xoff0; b := b0; plane := p |};
  if negb (boff r =? 7) then
    v ← load (plane r) (xoff r);
    store (plane r) (xoff r) (u8 (Z.lor (b r) (Z.land v (Z.shiftl 1 (8 - boff r) - 1))))
  else Some (plane r).

(** The body of the plane loop, with the plane select and the copy to the adapter. *)
Definition blit_plane (bm : bitmap_t) (y start_x length : Z) (i : nat) (s : term) : option term :=
  p ← pixel_buffer s !! i;
  p ← loopM 18 (fun py p => blit_row bm (Z.of_nat i) y start_x length (Z.of_nat py) p) p;
  Some (emit [Outb 0x3C4 0x02; Outb 0x3C5 (Z.shiftl 1 (Z.of_nat i));
              VCopy (0xA0000 + y * 1440) (slice (Z.to_nat (y * 1440)) 1440 p)]
             (with_pixels (<[i := p]> (pixel_buffer s)) s)).

Definition blit_line (y start_x end_x : Z) (s : term) : option term :=
  let length := end_x - start_x + 1 in
  bm ← draw_bitmap s y start_x length;
  loopM 4 (blit_plane bm y start_x length) s.

Definition blit_screen (s : term) : option term :=
  loopM 26 (fun i s => blit_line (Z.of_nat i) 0 (TERM_WIDTH - 1) s) s.

Definition cursor_on_screen (s : term) : bool :=
  (0 <=? cursorX s) && (cursorX s <? TERM_WIDTH) && (0 <=? cursorY s) && (cursorY s <? TERM_HEIGHT).

(** The writes that underline the cursor's cell on plane [i]. *)
Definition cursor_io (s : term) (i : nat) : list hw :=
  let base := 0xA0000 + cursorY s * 1440 + cursorX s * 3 / 2 in
  [Outb 0x3C4 0x02; Outb 0x3C5 (Z.shiftl 1 (Z.of_nat i))] ++
  (if negb (Z.modulo (cursorX s) 2 =? 0) then
     [VAnd (base + 1280) 0xF0; VStore (base + 1281) 0; VAnd (base + 1360) 0xF0; VStore (base + 1361) 0]
   else
     [VStore (base + 1280) 0; VAnd (base + 1281) 0x0F; VStore (base + 1360) 0; VAnd (base + 1361) 0x0F]).

Definition redrawCursor (s : term) : option term :=
  if (cursorX s <? 0) || (TERM_WIDTH <=? cursorX s) || (cursorY s <? 0) || (TERM_HEIGHT <=? cursorY s) then Some s
  else
    s ← blit_line (cursorY s) (cursorX s) (cursorX s) s;
    if cursorShow s then Some (loop 4 (fun i s => emit (cursor_io s i) s) s) else Some s.

(** ** Initialisation *)
Definition dac_entry (s : term) (i : nat) : list hw :=
  let c := default 0 (palette s !! i) in
  [Inb 0x3DA; Outb 0x3C0 (Z.of_nat i); Inb 0x3C1; Outb 0x3C8 (ac_register (Z.of_nat i));
   Outb 0x3C9 (Z.land (Z.shiftr c 18) 0x3F); Outb 0x3C9 (Z.land (Z.shiftr c 10) 0x3F);
   Outb 0x3C9 (Z.land (Z.shiftr c 2) 0x3F)].

Definition clear_plane (i : nat) (s : term) : option term :=
  p ← pixel_buffer s !! i;
  p ← fill p 0 0xFF 38400;
  Some (emit [Outb 0x3C4 0x02; Outb 0x3C5 (Z.shiftl 1 (Z.of_nat i)); Outb 0x3CE 0x04;
              Outb 0x3CF (Z.of_nat i); VFill 0xA0000 0xFF 38400]
             (with_pixels (<[i := p]> (pixel_buffer s)) s)).

Definition termInit (s : term) : option term :=
  let s := emit [SetMode] s in
  let s := loop 16 (fun i s => emit (dac_entry s i) s) s in
  s ← loopM 4 clear_plane s;
  let s := emit [Outb 0x3CE 0x00; Outb 0x3CF 0x00; Outb 0x3CE 0x01; Outb 0x3CF 0x00;
                 Outb 0x3CE 0x03; Outb 0x3CF 0x00; Outb 0x3CE 0x05; Outb 0x3CF 0x00;
                 Outb 0x3CE 0x08; Outb 0x3CF 0xFF] s in
  ch ← fill (characters s) 0 32 (TERM_WIDTH * TERM_HEIGHT);
  co ← fill (colors s) 0 0xF0 (TERM_WIDTH * TERM_HEIGHT);
  s ← blit_screen (with_cells ch co s);
  s ← redrawCursor s;
  Some (emit [Inb 0x3DA; Outb 0x3C0 0x20] s).

(** ** The term library *)

(** The loop of [term_write] from column [x]. *)
Fixpoint write_cells (s : term) (str : bytes) (x : Z) (ch co : bytes) : option (bytes * bytes) :=
  match str with
  | [] => Some (ch, co)
  | c :: str =>
      if x <? TERM_WIDTH then
        if x <? 0 then write_cells s str (x + 1) ch co
        else
          ch ← store ch (cursorY s * TERM_WIDTH + x) (u8 c);
          co ← store co (cursorY s * TERM_WIDTH + x) (current_colors s);
          write_cells s str (x + 1) ch co
      else Some (ch, co)
  end.

(** The redraw that ends [term_write] and [term_blit]; [cursorX + len] is a
    [size_t]. *)
Definition finish_write (len : Z) (s : term) : option term :=
  let sum := u64 (cursorX s + len) in
  s ← (if 0 <? sum then
         blit_line (cursorY s) (if 0 <? cursorX s then cursorX s else 0)
           (i32 (if TERM_WIDTH <=? sum then TERM_WIDTH - 1 else u64 (sum - 1))) s
       else Some s);
  s ← (if cursor_on_screen s then blit_line (cursorY s) (cursorX s) (cursorX s) s else Some s);
  redrawCursor (with_cursor (i32 sum) (cursorY s) s).

Definition term_write (str : bytes) (s : term) : option term :=
  if (cursorY s <? 0) || (TERM_HEIGHT <=? cursorY s) || (TERM_WIDTH <=? cursorX s) then Some s
  else
    '(ch, co) ← write_cells s str (cursorX s) (characters s) (colors s);
    finish_write (Z.of_nat (length str)) (with_cells ch co s).

(** [n] is the value of [lua_tointeger(L, 1)]. *)
Definition term_scroll (n : Z) (s : term) : option term :=
  let scroll := i32 n in
  '(ch, co) ←
    (if (TERM_HEIGHT <=? scroll) || (TERM_HEIGHT <=? i32 (- scroll)) then
       ch ← fill (characters s) 0 32 (TERM_WIDTH * TERM_HEIGHT);
       co ← fill (colors s) 0 (current_colors s) (TERM_WIDTH * TERM_HEIGHT);
       Some (ch, co)
     else if 0 <? scroll then
       ch ← move (characters s) 0 (scroll * TERM_WIDTH) ((TERM_HEIGHT - scroll) * TERM_WIDTH);
       ch ← fill ch ((TERM_HEIGHT - scroll) * TERM_WIDTH) 32 (scroll * TERM_WIDTH);
       co ← move (colors s) 0 (scroll * TERM_WIDTH) ((TERM_HEIGHT - scroll) * TERM_WIDTH);
       co ← fill co ((TERM_HEIGHT - scroll) * TERM_WIDTH) (current_colors s) (scroll * TERM_WIDTH);
       Some (ch, co)
     else if scroll <? 0 then
       ch ← move (characters s) (- scroll * TERM_WIDTH) 0 ((TERM_HEIGHT + scroll) * TERM_WIDTH);
       ch ← fill ch 0 32 (- scroll * TERM_WIDTH);
       co ← move (colors s) (- scroll * TERM_WIDTH) 0 ((TERM_HEIGHT + scroll) * TERM_WIDTH);
       co ← fill co 0 (current_colors s) (- scroll * TERM_WIDTH);
       Some (ch, co)
     else Some (characters s, colors s));
  blit_screen (with_cells ch co s).

Definition term_setCursorPos (x y : Z) (s : term) : option term :=
  s ← (if cursor_on_screen s then blit_line (cursorY s) (cursorX s) (cursorX s) s else Some s);
  redrawCursor (with_cursor (i32 (x - 1)) (i32 (y - 1)) s).

Definition term_setCursorBlink (b : bool) (s : term) : option term := redrawCursor (with_blink b s).

Definition term_getCursorPos (s : term) : list Z := [i32 (cursorX s + 1); i32 (cursorY s + 1)].
Definition term_getSize (s : term) : list Z := [TERM_WIDTH; TERM_HEIGHT].

Definition term_clear (s : term) : option term :=
  ch ← fill (characters s) 0 32 (TERM_WIDTH * TERM_HEIGHT);
  co ← fill (colors s) 0 (current_colors s) (TERM_WIDTH * TERM_HEIGHT);
  blit_screen (with_cells ch co s).

Definition term_clearLine (s : term) : option term :=
  if (cursorY s <? 0) || (TERM_HEIGHT <=? cursorY s) then Some s
  else
    ch ← fill (characters s) (cursorY s * TERM_WIDTH) 32 TERM_WIDTH;
    co ← fill (colors s) (cursorY s * TERM_WIDTH) (current_colors s) TERM_WIDTH;
    blit_line (cursorY s) 0 (TERM_WIDTH - 1) (with_cells ch co s).

(** [(int)log2(n)]: of a positive integer its floor (exact below 2^47), and the
    conversion of the infinity or NaN of any other one, which x86 makes [INT_MIN]. *)
Definition log2_int (n : Z) : Z := if 0 <? n then Z.log2 n else INT_MIN.

Definition term_setTextColor (n : Z) (s : term) : term :=
  with_current (Z.lor (Z.land (current_colors s) 0xF0) (Z.land (log2_int n) 0x0F)) s.

Definition term_setBackgroundColor (n : Z) (s : term) : term :=
  with_current (Z.lor (Z.land (current_colors s) 0x0F) (Z.land (i32 (Z.shiftl (log2_int n) 4)) 0xF0)) s.

Definition term_isColor (s : term) : bool := true.
Definition term_getTextColor (s : term) : Z := Z.shiftl 1 (Z.land (current_colors s) 0x0F).
Definition term_getBackgroundColor (s : term) : Z := Z.shiftl 1 (Z.shiftr (current_colors s) 4).

(** Characters as bytes. *)
Definition hexch (c : Z) : Z :=
  if (48 <=? c) && (c <=? 57) then c - 48
  else if (97 <=? c) && (c <=? 102) then c - 97 + 10
  else -1.

(** The loop of [term_blit] from column [x]; it has no test of [cursorY]. *)
Fixpoint blit_cells (s : term) (cells : list (Z * Z * Z)) (x : Z) (ch co : bytes) : option (bytes * bytes) :=
  match cells with
  | [] => Some (ch, co)
  | (c, f, g) :: cells =>
      if x <? TERM_WIDTH then
        if x <? 0 then blit_cells s cells (x + 1) ch co
        else
          ch ← store ch (cursorY s * TERM_WIDTH + x) (u8 c);
          co ← store co (cursorY s * TERM_WIDTH + x) (u8 (Z.lor (hexch f) (Z.shiftl (hexch g) 4)));
          blit_cells s cells (x + 1) ch co
      else Some (ch, co)
  end.

Definition term_blit (str fg bg : bytes) (s : term) : option (lua_result term) :=
  if negb ((length str =? length fg)%nat && (length fg =? length bg)%nat) then
    Some (Error "arguments must be the same length")
  else
    '(ch, co) ← blit_cells s (zip (zip str fg) bg) (cursorX s) (characters s) (colors s);
    s ← finish_write (Z.of_nat (length str)) (with_cells ch co s);
    Some (Return s).

(** The numerators over 255 of the three results. *)
Definition term_getPaletteColor (n : Z) (s : term) : option (list Z) :=
  c ← load (palette s) (log2_int n);
  Some [Z.land c 0xFF; Z.land (Z.shiftr c 8) 0xFF; Z.land (Z.shiftr c 24) 0xFF].

(** [r], [g] and [b] are the [int]s made of the arguments times 63; the outputs
    are [unsigned char]s. *)
Definition term_setPaletteColor (n r g b : Z) (s : term) : option term :=
  let color := log2_int n in
  let s := emit [Inb 0x3DA; Outb 0x3C0 (u8 color); Inb 0x3C1; Outb 0x3C8 (ac_register (u8 color));
                 Outb 0x3C9 (u8 r); Outb 0x3C9 (u8 g); Outb 0x3C9 (u8 b);
                 Inb 0x3DA; Outb 0x3C0 0x20] s in
  p ← store (palette s) color (u32 (Z.lor (Z.lor (Z.shiftl b 2) (Z.shiftl g 10)) (Z.shiftl r 18)));
  Some (with_palette p s).

End Term.
