(* ===== verification/TermDraw.v ===== *)
(** * What [blit_line] puts on the bit planes

    Seen as bits, a plane is 480 rows of 640 pixels, most significant bit first.
    The lemmas follow the loops of [blit_line]: the bitmap, one row of one plane,
    one plane, the four planes. *)
From S2P Require Import Prelude Term.
#[local] Open Scope Z_scope.

(** The pixel at bit address [a] of a plane. *)
Definition bit_at (p : bytes) (a : Z) : bool :=
  match load p (a / 8) with Some v => Z.testbit v (7 - a mod 8) | None => false end.

(** ** Array accesses *)
Lemma load_store {A} (l l' : list A) i v j :
  store l i v = Some l' -> load l' j = if decide (j = i) then Some v else load l j.
Proof.
  unfold store, load. intros H.
  destruct (Z.leb_spec 0 i), (Z.ltb_spec i (Z.of_nat (length l))); simpl in H; simplify_eq.
  case_decide as Hj.
  - subst. rewrite (proj2 (Z.leb_le 0 i)) by lia. apply list_lookup_insert_eq. lia.
  - destruct (Z.leb_spec 0 j); [|done]. apply list_lookup_insert_ne. lia.
Qed.

Lemma store_ok {A} (l : list A) i v :
  0 <= i < Z.of_nat (length l) -> exists l', store l i v = Some l' /\ length l' = length l.
Proof.
  intros Hi. unfold store. rewrite (proj2 (Z.leb_le 0 i)), (proj2 (Z.ltb_lt i _)) by lia.
  eexists. split; [done|]. apply length_insert.
Qed.

Lemma load_ok {A} (l : list A) i : 0 <= i < Z.of_nat (length l) -> exists v, load l i = Some v.
Proof.
  intros Hi. unfold load. rewrite (proj2 (Z.leb_le 0 i)) by lia.
  apply lookup_lt_is_Some_2. lia.
Qed.

Lemma bit_at_store p p' i v a :
  store p i v = Some p' -> bit_at p' a = if decide (a / 8 = i) then Z.testbit v (7 - a mod 8) else bit_at p a.
Proof. intros H. unfold bit_at. rewrite (load_store _ _ _ _ _ H). by case_decide. Qed.

Lemma bit_at_load p i v j :
  load p i = Some v -> 0 <= j < 8 -> bit_at p (8 * i + (7 - j)) = Z.testbit v j.
Proof.
  intros Hl Hj. unfold bit_at.
  replace ((8 * i + (7 - j)) / 8) with i by (apply (Z.div_unique _ _ _ (7 - j)); lia).
  rewrite Hl. f_equal.
  assert ((8 * i + (7 - j)) mod 8 = 7 - j) by (symmetry; apply (Z.mod_unique _ _ i); lia). lia.
Qed.

Section Draw.
Variable header_data : Z -> Z.

(** ** The bitmap *)
Definition bm_key (length row c : Z) : Z := row * length * 12 + c.

Lemma bm_key_inj L r c r' c' :
  0 <= c < L * 12 -> 0 <= c' < L * 12 -> bm_key L r c = bm_key L r' c' <-> r = r' /\ c = c'.
Proof.
  intros Hc Hc'. unfold bm_key. split; [|by intros [-> ->]]. intros H.
  assert (r = r') as ->; [|split; lia].
  destruct (Z.lt_trichotomy r r') as [|[|]]; [exfalso|done|exfalso]; nia.
Qed.

Lemma bitmap_pixel_lookup L x py px val bm row c :
  0 <= x < L -> 0 <= px < 6 -> 0 <= c < L * 12 ->
  bitmap_pixel L x py px val bm !! bm_key L row c =
    if decide (row / 2 = py /\ c / 2 = 6 * x + px) then Some val else bm !! bm_key L row c.
Proof.
  intros Hx Hpx Hc. unfold bitmap_pixel.
  replace (py * L * 24 + L * 12 + x * 12 + px * 2 + 1) with (bm_key L (2 * py + 1) (12 * x + 2 * px + 1)) by (unfold bm_key; ring).
  replace (py * L * 24 + L * 12 + x * 12 + px * 2) with (bm_key L (2 * py + 1) (12 * x + 2 * px)) by (unfold bm_key; ring).
  replace (py * L * 24 + x * 12 + px * 2 + 1) with (bm_key L (2 * py) (12 * x + 2 * px + 1)) by (unfold bm_key; ring).
  replace (py * L * 24 + x * 12 + px * 2) with (bm_key L (2 * py) (12 * x + 2 * px)) by (unfold bm_key; ring).
  pose proof (Z.div_mod row 2 ltac:(lia)). pose proof (Z.mod_pos_bound row 2 ltac:(lia)).
  pose proof (Z.div_mod c 2 ltac:(lia)). pose proof (Z.mod_pos_bound c 2 ltac:(lia)).
  rewrite !lookup_insert.
  assert (12 * x + 2 * px + 1 < L * 12) by lia.
  repeat case_decide; try done; exfalso;
    repeat match goal with
    | H : bm_key _ _ _ = bm_key _ _ _ |- _ => apply bm_key_inj in H; [|lia|lia]; destruct H
    | H : bm_key _ _ _ <> bm_key _ _ _ |- _ => rewrite bm_key_inj in H by lia
    end; lia.
Qed.

Lemma draw_char_lookup L x ch col bm row c :
  0 <= x < L -> 0 <= row < 18 -> 0 <= c < L * 12 ->
  draw_char header_data L x ch col bm !! bm_key L row c =
    if decide (c / 12 = x) then Some (glyph header_data ch col (row / 2) ((c mod 12) / 2))
    else bm !! bm_key L row c.
Proof.
  intros Hx Hrow Hc. unfold draw_char.
  pose proof (Z.div_mod row 2 ltac:(lia)). pose proof (Z.mod_pos_bound row 2 ltac:(lia)).
  pose proof (Z.div_mod c 12 ltac:(lia)). pose proof (Z.mod_pos_bound c 12 ltac:(lia)).
  pose proof (Z.div_mod (c mod 12) 2 ltac:(lia)). pose proof (Z.mod_pos_bound (c mod 12) 2 ltac:(lia)).
  assert (c / 2 = 6 * (c / 12) + (c mod 12) / 2) as Hc2.
  { symmetry. apply (Z.div_unique _ _ _ ((c mod 12) mod 2)); lia. }
  set (v := Some (glyph header_data ch col (row / 2) ((c mod 12) / 2))).
  set (P := fun (n : nat) (bm' : gmap Z Z) => bm' !! bm_key L row c =
    if decide (c / 12 = x /\ row / 2 < Z.of_nat n) then v else bm !! bm_key L row c).
  match goal with |- loop 9 ?f bm !! _ = _ => assert (P 9%nat (loop 9 f bm)) as Hl end.
  2:{ rewrite Hl. repeat case_decide; try lia; done. }
  apply loop_ind; unfold P.
  { by rewrite decide_False by lia. }
  intros py bm1 Hpy Hbm1.
  set (Q := fun (n : nat) (bm' : gmap Z Z) => bm' !! bm_key L row c =
    if decide (c / 12 = x /\ row / 2 = Z.of_nat py /\ (c mod 12) / 2 < Z.of_nat n) then v
    else bm1 !! bm_key L row c).
  match goal with |- loop 6 ?f bm1 !! _ = _ => assert (Q 6%nat (loop 6 f bm1)) as Hl end.
  2:{ rewrite Hl, Hbm1. repeat case_decide; try lia; done. }
  apply loop_ind; unfold Q.
  { by rewrite decide_False by lia. }
  intros px bm2 Hpx Hbm2. rewrite bitmap_pixel_lookup by lia. rewrite Hbm2, Hc2. unfold v.
  repeat case_decide; try lia; try done. do 2 f_equal; lia.
Qed.

(** The value drawn at row [row] and column [c] of a run of cells. *)
Definition cell_pixel (s : term) (y sx row c : Z) : Z :=
  glyph header_data (default 0 (load (characters s) (y * TERM_WIDTH + sx + c / 12)))
        (default 0 (load (colors s) (y * TERM_WIDTH + sx + c / 12))) (row / 2) ((c mod 12) / 2).

Definition cells_ok (s : term) : Prop :=
  length (characters s) = 1378%nat /\ length (colors s) = 1378%nat.

Lemma draw_bitmap_lookup s y sx L :
  cells_ok s -> 0 <= y < TERM_HEIGHT -> 0 <= sx -> 0 <= L -> sx + L <= TERM_WIDTH ->
  exists bm, draw_bitmap header_data s y sx L = Some bm /\
    forall row c, 0 <= row < 18 -> 0 <= c < L * 12 ->
      bm !! bm_key L row c = Some (cell_pixel s y sx row c).
Proof.
  intros [Hc1 Hc2] Hy Hsx HL Hend. unfold TERM_HEIGHT, TERM_WIDTH in *. unfold draw_bitmap.
  destruct (loopM_ind (fun n (bm : gmap Z Z) => forall row c, 0 <= row < 18 -> 0 <= c < L * 12 ->
      c / 12 < Z.of_nat n -> bm !! bm_key L row c = Some (cell_pixel s y sx row c)) (Z.to_nat L)
    (fun x bm => ch ← load (characters s) (y * TERM_WIDTH + Z.of_nat x + sx);
                 col ← load (colors s) (y * TERM_WIDTH + Z.of_nat x + sx);
                 Some (draw_char header_data L (Z.of_nat x) ch col bm)) ∅) as (bm & -> & Hbm).
  - intros row c Hr Hc Hlt. exfalso. pose proof (Z.div_pos c 12). lia.
  - intros x bm Hx IH. unfold TERM_WIDTH.
    destruct (load_ok (characters s) (y * 53 + Z.of_nat x + sx)) as [ch Hch]; [lia|].
    destruct (load_ok (colors s) (y * 53 + Z.of_nat x + sx)) as [co Hco]; [lia|].
    rewrite Hch, Hco. simpl. eexists. split; [done|]. intros row c Hr Hc Hlt.
    rewrite draw_char_lookup by lia. case_decide as Hcx.
    + unfold cell_pixel, TERM_WIDTH. rewrite Hcx.
      replace (y * 53 + sx + Z.of_nat x) with (y * 53 + Z.of_nat x + sx) by lia. by rewrite Hch, Hco.
    + apply IH; lia.
  - exists bm. split; [done|]. intros row c Hr Hc. apply Hbm; [done..|].
    apply Z.div_lt_upper_bound; lia.
Qed.

(** ** One row of one plane *)
Lemma row_bit_spec v w i k j :
  0 <= i -> 0 <= k < 8 -> 0 <= j < 8 ->
  Z.testbit (u8 (Z.lor w (Z.shiftl (Z.land (Z.shiftr v i) 1) k))) j =
    Z.testbit w j || ((j =? k) && Z.testbit v i).
Proof.
  intros Hi Hk Hj. rewrite uwrap_testbit, Z.lor_spec, Z.shiftl_spec by lia.
  rewrite (proj2 (Z.ltb_lt j 8)), andb_true_r by lia. f_equal. rewrite Z.land_spec.
  destruct (Z.eqb_spec j k).
  - subst. rewrite Z.sub_diag, Z.shiftr_spec by lia. simpl. by rewrite andb_true_r.
  - change 1 with (2 ^ 0). rewrite Z.pow2_bits_eqb by lia.
    rewrite (proj2 (Z.eqb_neq 0 (j - k))) by lia. apply andb_false_r.
Qed.

(** The plane after the bits from [P0] up to [hi] are drawn with [want]. *)
Definition drawn (p : bytes) (want : Z -> bool) (P0 a : Z) : bool :=
  if P0 <=? a then want (a - P0) else bit_at p a.

Record row_inv (p : bytes) (want : Z -> bool) (P0 px : Z) (r : row_state) : Prop := {
  ri_boff : 0 <= boff r <= 7;
  ri_addr : 8 * xoff r + 7 - boff r = P0 + px;
  ri_len : length (plane r) = length p;
  ri_low : forall j, 0 <= j <= boff r -> Z.testbit (b r) j = false;
  ri_high : forall j, boff r < j < 8 -> Z.testbit (b r) j = drawn p want P0 (8 * xoff r + 7 - j);
  ri_plane : forall a, bit_at (plane r) a = if a <? 8 * xoff r then drawn p want P0 a else bit_at p a;
}.

Lemma row_step_inv bm i py L px p want P0 r v :
  row_inv p want P0 (Z.of_nat px) r -> 0 <= i -> 0 <= P0 ->
  bm !! bm_key L py (Z.of_nat px) = Some v -> want (Z.of_nat px) = Z.testbit v i ->
  P0 + Z.of_nat px < 8 * Z.of_nat (length p) ->
  exists r', row_step bm i py L px r = Some r' /\ row_inv p want P0 (Z.of_nat (S px)) r'.
Proof.
  intros [Hb Ha Hl Hlo Hhi Hp] Hi HP Hv Hw Hlt. unfold row_step. unfold bm_key in Hv. rewrite Hv. simpl.
  set (b' := u8 _).
  assert (forall j, boff r <= j < 8 -> Z.testbit b' j = drawn p want P0 (8 * xoff r + 7 - j)) as Hb'.
  { intros j Hj. unfold b'. rewrite row_bit_spec by lia. destruct (Z.eqb_spec j (boff r)).
    - subst j. rewrite Hlo by lia. simpl. rewrite Ha. unfold drawn.
      rewrite (proj2 (Z.leb_le P0 _)) by lia. rewrite <- Hw. f_equal. lia.
    - rewrite orb_false_r. apply Hhi. lia. }
  destruct (Z.ltb_spec (boff r - 1) 0).
  - destruct (store_ok (plane r) (xoff r) b') as (p' & Hs & Hl'); [rewrite Hl; lia|].
    rewrite Hs. simpl. eexists. split; [done|]. split; simpl; try lia.
    + intros j Hj. apply Z.bits_0.
    + intros a. rewrite (bit_at_store _ _ _ _ _ Hs), Hp.
      pose proof (Z.div_mod a 8 ltac:(lia)). pose proof (Z.mod_pos_bound a 8 ltac:(lia)).
      case_decide as Hd.
      * rewrite (proj2 (Z.ltb_lt a (8 * (xoff r + 1)))) by lia. rewrite Hb' by lia. f_equal. lia.
      * destruct (Z.ltb_spec a (8 * xoff r)), (Z.ltb_spec a (8 * (xoff r + 1))); try done; lia.
  - eexists. split; [done|]. split; simpl; try lia.
    + intros j Hj. unfold b'. rewrite row_bit_spec by lia.
      rewrite (proj2 (Z.eqb_neq j (boff r))), orb_false_r by lia. apply Hlo. lia.
    + intros j Hj. apply Hb'. lia.
    + done.
Qed.

(** The bits a row shows: the last column keeps the old bit when the run ends in
    the middle of a byte. *)
Definition row_result (p : bytes) (want : Z -> bool) (P0 n a : Z) : bool :=
  if (P0 <=? a) && (a <? P0 + n) then
    want (a - P0) || ((a =? P0 + n - 1) && ((P0 + n) mod 8 =? 4) && bit_at p a)
  else bit_at p a.

Lemma row_start y sx py :
  0 <= sx -> 8 * (y * 1440 + py * 80 + sx * 3 / 2) + sx mod 2 * 4 = (18 * y + py) * 640 + 12 * sx.
Proof.
  intros Hsx. pose proof (Z.div_mod sx 2 ltac:(lia)). pose proof (Z.mod_pos_bound sx 2 ltac:(lia)).
  assert (sx * 3 / 2 = 3 * (sx / 2) + sx mod 2); [|lia].
  symmetry. apply (Z.div_unique _ _ _ (sx mod 2)); lia.
Qed.

Lemma tail_mask_spec v w k j :
  0 <= k <= 8 -> 0 <= j < 8 ->
  Z.testbit (u8 (Z.lor w (Z.land v (Z.shiftl 1 k - 1)))) j = Z.testbit w j || (Z.testbit v j && (j <? k)).
Proof.
  intros Hk Hj. rewrite uwrap_testbit, Z.lor_spec, Z.land_spec by lia.
  rewrite (proj2 (Z.ltb_lt j 8)), andb_true_r by lia. f_equal. f_equal.
  replace (Z.shiftl 1 k - 1) with (Z.ones k) by (rewrite Z.ones_equiv, Z.shiftl_1_l; lia).
  destruct (Z.ltb_spec j k); [apply Z.ones_spec_low|apply Z.ones_spec_high]; lia.
Qed.

Lemma blit_row_spec bm i y sx L py p want :
  0 <= i -> 0 <= y < TERM_HEIGHT -> 0 <= sx -> 0 <= L -> sx + L <= TERM_WIDTH -> 0 <= py < 18 ->
  Z.of_nat (length p) = 38400 ->
  (forall c, 0 <= c < L * 12 -> exists v, bm !! bm_key L py c = Some v /\ want c = Z.testbit v i) ->
  exists p', blit_row bm i y sx L py p = Some p' /\ length p' = length p /\
    forall a, bit_at p' a = row_result p want ((18 * y + py) * 640 + 12 * sx) (L * 12) a.
Proof.
  intros Hi Hy Hsx HL Hend Hpy Hlen Hbm. unfold TERM_HEIGHT, TERM_WIDTH in *.
  set (P0 := (18 * y + py) * 640 + 12 * sx).
  pose proof (row_start y sx py Hsx) as HP0. fold P0 in HP0.
  set (x0 := y * 1440 + py * 80 + sx * 3 / 2) in *.
  pose proof (Z.mod_pos_bound sx 2 ltac:(lia)) as Hm.
  assert (0 <= P0 /\ P0 + 12 * L < 307200) as [HP HPL] by (unfold P0; lia).
  unfold blit_row. fold x0.
  assert (exists b0, (if negb (7 - sx mod 2 * 4 =? 7) then v ← load p x0; Some (Z.land v 0xF0) else Some 0) = Some b0 /\
    row_inv p want P0 0 {| boff := 7 - sx mod 2 * 4; xoff := x0; b := b0; plane := p |}) as (b0 & -> & Hinv).
  { assert (forall a, bit_at p a = if a <? 8 * x0 then drawn p want P0 a else bit_at p a) as Hpl.
    { intros a. destruct (Z.ltb_spec a (8 * x0)); [|done]. unfold drawn.
      by rewrite (proj2 (Z.leb_gt P0 a)) by lia. }
    assert (sx mod 2 = 0 \/ sx mod 2 = 1) as [Hs|Hs] by lia; rewrite Hs in *; simpl.
    - exists 0. split; [done|]. split; simpl; try lia; [|done]. intros. apply Z.bits_0.
    - destruct (load_ok p x0) as [v Hv]; [lia|]. change (negb (7 - 1 * 4 =? 7)) with true. cbn iota.
      rewrite Hv. simpl. eexists. split; [done|]. split; simpl; try lia; [| |done].
      + intros j Hj. rewrite Z.land_spec. assert (j = 0 \/ j = 1 \/ j = 2 \/ j = 3) as Hc by lia.
        repeat destruct Hc as [->|Hc]; subst; apply andb_false_r.
      + intros j Hj. rewrite Z.land_spec. unfold drawn. rewrite (proj2 (Z.leb_gt P0 _)) by lia.
        replace (8 * x0 + 7 - j) with (8 * x0 + (7 - j)) by lia. rewrite (bit_at_load _ _ _ j Hv) by lia.
        assert (j = 4 \/ j = 5 \/ j = 6 \/ j = 7) as Hc by lia.
        repeat destruct Hc as [->|Hc]; subst; apply andb_true_r. }
  simpl.
  destruct (loopM_ind (fun n r => row_inv p want P0 (Z.of_nat n) r) (Z.to_nat (L * 12))
    (row_step bm i py L) {| boff := 7 - sx mod 2 * 4; xoff := x0; b := b0; plane := p |} Hinv)
    as (r & -> & Hr).
  { intros px r Hpx Hr. destruct (Hbm (Z.of_nat px)) as (v & Hv & Hw); [lia|].
    eapply row_step_inv; try done. lia. }
  simpl. destruct Hr as [Hb Ha Hl Hlo Hhi Hp]. rewrite Z2Nat.id in Ha by lia.
  assert ((P0 + L * 12) mod 8 = 7 - boff r) as Hmod.
  { symmetry. apply (Z.mod_unique _ _ (xoff r)); lia. }
  assert (boff r = 7 \/ boff r = 3) as Hbo.
  { assert ((7 - boff r) mod 4 = 0) as H4.
    { rewrite <- Hmod. unfold P0. replace ((18 * y + py) * 640 + 12 * sx + L * 12)
        with (4 * ((18 * y + py) * 160 + 3 * sx + 3 * L)) by ring.
      pose proof (Z.div_mod (4 * ((18 * y + py) * 160 + 3 * sx + 3 * L)) 8 ltac:(lia)).
      set (q := (4 * ((18 * y + py) * 160 + 3 * sx + 3 * L)) mod 8) in *.
      replace q with ((((18 * y + py) * 160 + 3 * sx + 3 * L) - 2 * ((4 * ((18 * y + py) * 160 + 3 * sx + 3 * L)) / 8)) * 4) by lia.
      apply Z_mod_mult. }
    assert (boff r = 0 \/ boff r = 1 \/ boff r = 2 \/ boff r = 3 \/ boff r = 4 \/ boff r = 5 \/ boff r = 6 \/ boff r = 7) as Hc by lia.
    repeat destruct Hc as [Hc|Hc]; rewrite Hc in H4; try discriminate H4; auto. }
  unfold row_result. destruct Hbo as [Hbo|Hbo]; rewrite Hbo in *; simpl.
  - exists (plane r). split_and!; [done|done|]. intros a. rewrite Hp, Hmod. unfold drawn.
    destruct (Z.ltb_spec a (8 * xoff r)), (Z.leb_spec P0 a), (Z.ltb_spec a (P0 + L * 12));
      simpl; try done; try lia.
    rewrite andb_false_r. simpl. by rewrite orb_false_r.
  - change (negb (3 =? 7)) with true. cbn iota.
    destruct (load_ok (plane r) (xoff r)) as [v Hv]; [rewrite Hl; lia|]. rewrite Hv. simpl.
    match goal with |- context [store (plane r) (xoff r) ?w] => set (w0 := w) end.
    destruct (store_ok (plane r) (xoff r) w0) as (p' & Hs & Hl'); [rewrite Hl; lia|].
    exists p'. split_and!; [done|congruence|]. intros a.
    rewrite (bit_at_store _ _ _ _ _ Hs), Hp, Hmod. clear Hs.
    pose proof (Z.div_mod a 8 ltac:(lia)). pose proof (Z.mod_pos_bound a 8 ltac:(lia)).
    change (7 - 3 =? 4) with true. rewrite andb_true_r.
    case_decide as Hd.
    + assert (bit_at p a = Z.testbit v (7 - a mod 8)) as Hold.
      { rewrite <- (bit_at_load _ _ _ (7 - a mod 8) Hv) by lia. rewrite Hp.
        rewrite (proj2 (Z.ltb_ge _ _)) by lia. f_equal. lia. }
      unfold w0. rewrite tail_mask_spec by lia.
      set (j := 7 - a mod 8) in *. destruct (Z.ltb_spec a (P0 + L * 12)) as [Hin|Hout].
      * rewrite Hhi by lia. replace (8 * xoff r + 7 - j) with a by lia. unfold drawn.
        destruct (Z.leb_spec P0 a); simpl.
        -- f_equal. rewrite Hold. destruct (Z.eqb_spec a (P0 + L * 12 - 1)), (Z.ltb_spec j (8 - 3));
             simpl; try lia; try apply andb_true_r; apply andb_false_r.
        -- rewrite Hold. by destruct (Z.testbit v j).
      * rewrite andb_false_r, Hlo by lia. rewrite Hold. simpl.
        rewrite (proj2 (Z.ltb_lt j (8 - 3))) by lia. apply andb_true_r.
    + unfold drawn. destruct (Z.ltb_spec a (8 * xoff r)), (Z.leb_spec P0 a), (Z.ltb_spec a (P0 + L * 12));
        simpl; try done; try lia.
      rewrite (proj2 (Z.eqb_neq a _)) by lia. simpl. by rewrite orb_false_r.
Qed.

(** ** One plane, and the four planes *)
Definition planes_ok (s : term) : Prop :=
  length (pixel_buffer s) = 4%nat /\ Forall (fun p => Z.of_nat (length p) = 38400) (pixel_buffer s).

(** Everything but the planes and the trace is the same. *)
Definition same_text (s s' : term) : Prop :=
  characters s' = characters s /\ colors s' = colors s /\ current_colors s' = current_colors s /\
  cursorX s' = cursorX s /\ cursorY s' = cursorY s /\ cursorBlink s' = cursorBlink s /\
  cursorShow s' = cursorShow s /\ palette s' = palette s.

(** The pixel of plane [i] at row [r], column [c]. *)
Definition pixel (s : term) (i : nat) (r c : Z) : bool :=
  match pixel_buffer s !! i with Some p => bit_at p (r * 640 + c) | None => false end.

(** What a run of cells shows at a pixel whose old value was [old]. *)
Definition run_pixel (s : term) (y sx ex : Z) (i : nat) (r c : Z) (old : bool) : bool :=
  if decide (18 * y <= r < 18 * y + 18 /\ 12 * sx <= c < 12 * (ex + 1)) then
    Z.testbit (cell_pixel s y sx (r - 18 * y) (c - 12 * sx)) (Z.of_nat i) ||
    (bool_decide (c = 12 * (ex + 1) - 1) && Z.odd (ex + 1) && old)
  else old.

Lemma mul4_mod8 n : (4 * n) mod 8 =? 4 = Z.odd n.
Proof.
  destruct (Z.odd n) eqn:E.
  - apply Z.odd_spec in E as [k ->]. apply Z.eqb_eq. symmetry. apply (Z.mod_unique _ _ k); lia.
  - rewrite <- Z.negb_even in E. apply negb_false_iff, Z.even_spec in E as [k ->].
    apply Z.eqb_neq. replace (4 * (2 * k)) with (k * 8) by lia. by rewrite Z_mod_mult.
Qed.

Lemma row_result_pixel p want y sx ex py r c :
  0 <= sx -> sx <= ex + 1 -> ex < TERM_WIDTH -> 0 <= c < 640 ->
  row_result p want ((18 * y + py) * 640 + 12 * sx) ((ex - sx + 1) * 12) (r * 640 + c) =
    if decide (r = 18 * y + py /\ 12 * sx <= c < 12 * (ex + 1)) then
      want (c - 12 * sx) || (bool_decide (c = 12 * (ex + 1) - 1) && Z.odd (ex + 1) && bit_at p (r * 640 + c))
    else bit_at p (r * 640 + c).
Proof.
  intros Hsx Hse Hex Hc. unfold TERM_WIDTH in *. unfold row_result.
  set (P0 := (18 * y + py) * 640 + 12 * sx).
  assert ((P0 + (ex - sx + 1) * 12) mod 8 =? 4 = Z.odd (ex + 1)) as ->.
  { unfold P0. replace ((18 * y + py) * 640 + 12 * sx + (ex - sx + 1) * 12)
      with (4 * (ex + 1) + ((18 * y + py) * 80 + (ex + 1)) * 8) by ring.
    rewrite Z_mod_plus_full. apply mul4_mod8. }
  destruct (Z.leb_spec P0 (r * 640 + c)), (Z.ltb_spec (r * 640 + c) (P0 + (ex - sx + 1) * 12)); simpl;
    unfold P0 in *; case_decide as Hd; try done; try lia.
  - destruct Hd as [-> Hcr].
    replace ((18 * y + py) * 640 + c - ((18 * y + py) * 640 + 12 * sx)) with (c - 12 * sx) by lia.
    do 3 f_equal. destruct (Z.eqb_spec ((18 * y + py) * 640 + c) ((18 * y + py) * 640 + 12 * sx + (ex - sx + 1) * 12 - 1));
      [rewrite bool_decide_true|rewrite bool_decide_false]; lia || done.
Qed.

Lemma blit_plane_spec bm y sx ex i s p :
  0 <= y < TERM_HEIGHT -> 0 <= sx -> sx <= ex + 1 -> ex < TERM_WIDTH ->
  (forall row c, 0 <= row < 18 -> 0 <= c < (ex - sx + 1) * 12 ->
     bm !! bm_key (ex - sx + 1) row c = Some (cell_pixel s y sx row c)) ->
  pixel_buffer s !! i = Some p -> Z.of_nat (length p) = 38400 ->
  exists s' p', blit_plane bm y sx (ex - sx + 1) i s = Some s' /\ same_text s s' /\
    pixel_buffer s' = <[i := p']> (pixel_buffer s) /\ Z.of_nat (length p') = 38400 /\
    forall r c, 0 <= c < 640 ->
      bit_at p' (r * 640 + c) = run_pixel s y sx ex i r c (bit_at p (r * 640 + c)).
Proof.
  intros Hy Hsx Hse Hex Hbm Hp Hlen. unfold blit_plane. rewrite Hp. cbn [mbind option_bind].
  set (Q := fun (n : nat) (q : bytes) => Z.of_nat (length q) = 38400 /\ forall r c, 0 <= c < 640 ->
    bit_at q (r * 640 + c) = if decide (r < 18 * y + Z.of_nat n)
      then run_pixel s y sx ex i r c (bit_at p (r * 640 + c)) else bit_at p (r * 640 + c)).
  match goal with |- context [loopM 18 ?f p] =>
    destruct (loopM_ind Q 18 f p) as (p' & -> & Hl' & Hp') end; unfold Q in *.
  - split; [done|]. intros r c Hc. case_decide; [|done]. unfold run_pixel. rewrite decide_False by lia. done.
  - intros py q Hpy [Hlq Hq].
    destruct (blit_row_spec bm (Z.of_nat i) y sx (ex - sx + 1) (Z.of_nat py) q
      (fun c => Z.testbit (cell_pixel s y sx (Z.of_nat py) c) (Z.of_nat i))) as (q' & -> & Hlq' & Hq');
      [unfold TERM_WIDTH in *; lia..| |].
    { intros c Hc. eexists. split; [apply Hbm; lia|done]. }
    exists q'. split; [done|]. split; [lia|]. intros r c Hc.
    rewrite Hq', row_result_pixel, Hq by done. unfold run_pixel. unfold TERM_WIDTH in *.
    case_decide as Hd.
    + destruct Hd as [-> Hcr]. repeat (rewrite decide_False by lia). rewrite !decide_True by lia.
      do 3 f_equal. lia.
    + repeat case_decide; try done; lia.
  - simpl. exists (emit [Outb 0x3C4 0x02; Outb 0x3C5 (Z.shiftl 1 (Z.of_nat i));
      VCopy (0xA0000 + y * 1440) (slice (Z.to_nat (y * 1440)) 1440 p')]
      (with_pixels (<[i := p']> (pixel_buffer s)) s)), p'.
    split_and!; try done. intros r c Hc. rewrite Hp' by done. case_decide; [done|].
    unfold run_pixel. rewrite decide_False by lia. done.
Qed.

(** [blit_line] redraws exactly the pixels of the cells [sx .. ex] of line [y]. *)
Lemma blit_line_spec y sx ex s :
  cells_ok s -> planes_ok s -> 0 <= y < TERM_HEIGHT -> 0 <= sx -> sx <= ex + 1 -> ex < TERM_WIDTH ->
  exists s', blit_line header_data y sx ex s = Some s' /\ same_text s s' /\ planes_ok s' /\
    forall i r c, (i < 4)%nat -> 0 <= c < 640 ->
      pixel s' i r c = run_pixel s y sx ex i r c (pixel s i r c).
Proof.
  intros Hc [Hp4 Hpl] Hy Hsx Hse Hex. unfold blit_line. cbv zeta.
  destruct (draw_bitmap_lookup s y sx (ex - sx + 1)) as (bm & -> & Hbm);
    [done|done|lia|lia|unfold TERM_WIDTH in *; lia|]. cbn [mbind option_bind].
  set (Q := fun (n : nat) (t : term) => same_text s t /\ planes_ok t /\
    forall i r c, (i < 4)%nat -> 0 <= c < 640 ->
      pixel t i r c = if decide (i < n)%nat then run_pixel s y sx ex i r c (pixel s i r c) else pixel s i r c).
  destruct (loopM_ind Q 4 (blit_plane bm y sx (ex - sx + 1)) s) as (s' & -> & Hs & Hp & Hpix); unfold Q in *.
  - split_and!; [by split_and!|by split|]. intros i r c Hi Hc'. by rewrite decide_False by lia.
  - intros k t Hk (Ht & [Ht4 Htl] & Hpix).
    destruct (lookup_lt_is_Some_2 (pixel_buffer t) k) as [p Hpk]; [lia|].
    assert (Z.of_nat (length p) = 38400) as Hlp by (by eapply Forall_lookup_1 in Htl).
    assert (forall row c, cell_pixel t y sx row c = cell_pixel s y sx row c) as Hcell.
    { intros. unfold cell_pixel. destruct Ht as (-> & -> & _). done. }
    destruct (blit_plane_spec bm y sx ex k t p) as (t' & p' & -> & Ht' & Hpb & Hlp' & Hpix');
      [done..| |done|done|].
    { intros row c Hrow Hcc. rewrite Hcell. by apply Hbm. }
    exists t'. split; [done|]. split; [|split].
    + unfold same_text in *. naive_solver congruence.
    + split; rewrite Hpb; [by rewrite length_insert|by apply Forall_insert].
    + intros i r c Hi Hc'. specialize (Hpix i r c Hi Hc'). unfold pixel in *. rewrite Hpb.
      destruct (decide (i = k)) as [->|Hne].
      * rewrite list_lookup_insert_eq by lia. rewrite Hpix' by done. rewrite decide_True by lia.
        rewrite Hpk in Hpix. rewrite decide_False in Hpix by lia. rewrite Hpix.
        unfold run_pixel. by rewrite Hcell.
      * rewrite list_lookup_insert_ne by done. rewrite Hpix. repeat case_decide; try done; lia.
  - exists s'. split_and!; [done..|]. intros i r c Hi Hc'. rewrite Hpix by done. by rewrite decide_True by lia.
Qed.

End Draw.
