(* ===== verification/TermOps.v ===== *)
(** * What the terminal operations do

    [shows s] says the bit planes display the cells; every operation of the term
    library keeps it. The cell-level theorems say what text and colours each
    operation leaves on the screen. *)
From S2P Require Import Prelude Term TermDraw.
#[local] Open Scope Z_scope.

(** The state of the terminal that every operation keeps. *)
Definition term_ok (s : term) : Prop :=
  cells_ok s /\ planes_ok s /\ length (palette s) = 16%nat /\ is_byte (current_colors s) /\
  INT_MIN <= cursorX s <= INT_MAX /\ INT_MIN <= cursorY s <= INT_MAX.

(** The operations a Lua program can call. *)
Inductive term_op :=
  | Write (str : bytes)
  | Scroll (n : Z)
  | SetCursorPos (x y : Z)
  | SetCursorBlink (b : bool)
  | Clear
  | ClearLine
  | SetTextColor (n : Z)
  | SetBackgroundColor (n : Z)
  | Blit (str fg bg : bytes)
  | SetPaletteColor (n r g b : Z).

Section Ops.
Variable header_data : Z -> Z.
Variable ac_register : Z -> Z.

Definition term_step (op : term_op) (s : term) : option term :=
  match op with
  | Write str => term_write header_data str s
  | Scroll n => term_scroll header_data n s
  | SetCursorPos x y => term_setCursorPos header_data x y s
  | SetCursorBlink b => term_setCursorBlink header_data b s
  | Clear => term_clear header_data s
  | ClearLine => term_clearLine header_data s
  | SetTextColor n => Some (term_setTextColor n s)
  | SetBackgroundColor n => Some (term_setBackgroundColor n s)
  | Blit str fg bg =>
      r ← term_blit header_data str fg bg s;
      Some (match r with Return s' => s' | Error _ => s end)
  | SetPaletteColor n r g b => term_setPaletteColor ac_register n r g b s
  end.

(** The calls that stay inside the arrays: [term_blit] has no test of the row and
    needs the cursor on a line of the screen, the scroll count must have an [int]
    negation, and a palette colour must be one of the sixteen. *)
Definition safe_op (op : term_op) (s : term) : Prop :=
  match op with
  | Write str => Z.of_nat (length str) < 2 ^ 31
  | Scroll n => i32 n <> INT_MIN
  | Blit str fg bg => Z.of_nat (length str) < 2 ^ 31 /\ 0 <= cursorY s < TERM_HEIGHT /\ cursorX s <= TERM_WIDTH
  | SetPaletteColor n _ _ _ => 1 <= n < 2 ^ 16
  | _ => True
  end.

(** The pixel [row], [c] of the cell in column [x] of line [y]. *)
Definition cell_bit (s : term) (i : nat) (y x row c : Z) : bool :=
  Z.testbit (glyph header_data (default 0 (load (characters s) (y * TERM_WIDTH + x)))
                   (default 0 (load (colors s) (y * TERM_WIDTH + x))) (row / 2) (c / 2)) (Z.of_nat i).

(** A cell is displayed: every pixel is the glyph's, but the last column of a cell
    in an even column may keep a bit of an earlier drawing. *)
Definition cell_shown (s : term) (y x : Z) : Prop :=
  forall (i : nat) row c, (i < 4)%nat -> 0 <= row < 18 -> 0 <= c < 12 ->
    let shown := pixel s i (18 * y + row) (12 * x + c) in
    (cell_bit s i y x row c = true -> shown = true) /\
    (c <> 11 \/ Z.odd x = true -> shown = cell_bit s i y x row c).

Definition shows (s : term) : Prop :=
  forall y x, 0 <= y < TERM_HEIGHT -> 0 <= x < TERM_WIDTH -> cell_shown s y x.

(** ** Redrawing *)
Lemma cell_bit_text s s' i y x row c : same_text s s' -> cell_bit s' i y x row c = cell_bit s i y x row c.
Proof. intros (H1 & H2 & _). unfold cell_bit. by rewrite H1, H2. Qed.

Lemma run_pixel_cell s y sx ex i y' x row c old :
  0 <= sx -> 0 <= row < 18 -> 0 <= c < 12 ->
  run_pixel header_data s y sx ex i (18 * y' + row) (12 * x + c) old =
    if decide (y' = y /\ sx <= x <= ex) then
      cell_bit s i y x row c || (bool_decide (x = ex /\ c = 11) && Z.odd (ex + 1) && old)
    else old.
Proof.
  intros Hsx Hr Hc. unfold run_pixel.
  destruct (decide (y' = y /\ sx <= x <= ex)) as [[-> Hx]|Hn];
    [rewrite decide_True by lia|by rewrite decide_False by lia].
  unfold cell_bit, cell_pixel.
  replace (18 * y + row - 18 * y) with row by lia.
  replace (12 * x + c - 12 * sx) with (c + (x - sx) * 12) by lia.
  rewrite Z_div_plus_full, Z_mod_plus_full, Z.div_small, Z.mod_small by lia.
  replace (y * TERM_WIDTH + sx + (0 + (x - sx))) with (y * TERM_WIDTH + x) by lia.
  do 3 f_equal. apply bool_decide_ext. lia.
Qed.

(** Redrawing a run shows its cells and leaves the other cells as they were. *)
Lemma blit_line_shows y sx ex s :
  cells_ok s -> planes_ok s -> 0 <= y < TERM_HEIGHT -> 0 <= sx -> sx <= ex + 1 -> ex < TERM_WIDTH ->
  exists s', blit_line header_data y sx ex s = Some s' /\ same_text s s' /\ planes_ok s' /\
    (forall x, sx <= x <= ex -> cell_shown s' y x) /\
    (forall y' x, 0 <= x < TERM_WIDTH -> (y' <> y \/ x < sx \/ ex < x) -> cell_shown s y' x -> cell_shown s' y' x).
Proof.
  intros Hc Hp Hy Hsx Hse Hex.
  destruct (blit_line_spec header_data y sx ex s Hc Hp Hy Hsx Hse Hex) as (s' & He & Ht & Hp' & Hpix).
  exists s'. split; [done|]. split; [done|]. split; [done|]. unfold TERM_WIDTH in *. split.
  - intros x Hx i row c Hi Hr Hcc. cbv zeta. rewrite (cell_bit_text _ _ _ _ _ _ _ Ht).
    rewrite Hpix, run_pixel_cell, decide_True by (done || lia). split.
    + by intros ->.
    + intros Hn. case_bool_decide as Hb; simpl; [|by rewrite orb_false_r].
      destruct Hb as [-> ->]. destruct Hn as [?|Hodd]; [lia|].
      rewrite Z.odd_add, Hodd. simpl. by rewrite orb_false_r.
  - intros y' x Hx Hout Hold i row c Hi Hr Hcc. cbv zeta. rewrite (cell_bit_text _ _ _ _ _ _ _ Ht).
    rewrite Hpix, run_pixel_cell, decide_False by (done || lia). by apply Hold.
Qed.

Lemma same_text_trans s1 s2 s3 : same_text s1 s2 -> same_text s2 s3 -> same_text s1 s3.
Proof. unfold same_text. naive_solver congruence. Qed.

Lemma same_text_refl s : same_text s s.
Proof. by repeat split. Qed.

Lemma same_text_ok s s' : same_text s s' -> planes_ok s' -> term_ok s -> term_ok s'.
Proof.
  intros (H1 & H2 & H3 & H4 & H5 & _ & _ & H8) Hp ([Hc1 Hc2] & _ & Hl & Hb & Hx & Hy).
  unfold term_ok, cells_ok. rewrite H1, H2, H3, H4, H5, H8.
  exact (conj (conj Hc1 Hc2) (conj Hp (conj Hl (conj Hb (conj Hx Hy))))).
Qed.

(** Redrawing a run of a screen that shows its other cells. *)
Lemma redraw_run y sx ex s :
  term_ok s -> 0 <= y < TERM_HEIGHT -> 0 <= sx -> sx <= ex + 1 -> ex < TERM_WIDTH ->
  (forall y' x, 0 <= y' < TERM_HEIGHT -> 0 <= x < TERM_WIDTH -> ~ (y' = y /\ sx <= x <= ex) -> cell_shown s y' x) ->
  exists s', blit_line header_data y sx ex s = Some s' /\ same_text s s' /\ term_ok s' /\ shows s'.
Proof.
  intros Hok Hy Hsx Hse Hex Hold. pose proof Hok as (Hc & Hp & _).
  destruct (blit_line_shows y sx ex s Hc Hp Hy Hsx Hse Hex) as (s' & He & Ht & Hp' & Hin & Hout).
  exists s'. split; [done|]. split; [done|]. split; [by eapply same_text_ok|].
  intros y' x Hy' Hx. destruct (decide (y' = y /\ sx <= x <= ex)) as [[-> Hr]|Hn]; [by apply Hin|].
  apply Hout; [done|lia|]. by apply Hold.
Qed.

Lemma redraw_shown y sx ex s :
  term_ok s -> shows s -> 0 <= y < TERM_HEIGHT -> 0 <= sx -> sx <= ex + 1 -> ex < TERM_WIDTH ->
  exists s', blit_line header_data y sx ex s = Some s' /\ same_text s s' /\ term_ok s' /\ shows s'.
Proof. intros Hok Hs **. apply redraw_run; auto. Qed.

Lemma blit_screen_shows s :
  term_ok s -> exists s', blit_screen header_data s = Some s' /\ same_text s s' /\ term_ok s' /\ shows s'.
Proof.
  intros Hok. unfold blit_screen.
  set (Q := fun (n : nat) (t : term) => same_text s t /\ term_ok t /\
    forall y x, 0 <= y < Z.of_nat n -> 0 <= x < TERM_WIDTH -> cell_shown t y x).
  destruct (loopM_ind Q 26 (fun i s => blit_line header_data (Z.of_nat i) 0 (TERM_WIDTH - 1) s) s)
    as (s' & -> & Ht & Hok' & Hs); unfold Q in *.
  - split; [apply same_text_refl|]. split; [done|]. lia.
  - intros n t Hn (Ht & Hokt & Hs). pose proof Hokt as (Hc & Hp & _).
    destruct (blit_line_shows (Z.of_nat n) 0 (TERM_WIDTH - 1) t Hc Hp) as (t' & He & Ht' & Hp' & Hin & Hout);
      [unfold TERM_HEIGHT, TERM_WIDTH; lia..|].
    exists t'. split; [done|]. split; [by eapply same_text_trans|]. split; [by eapply same_text_ok|].
    intros y x Hy Hx. destruct (decide (y = Z.of_nat n)) as [->|].
    + apply Hin. lia.
    + apply Hout; [done|lia|]. apply Hs; lia.
  - exists s'. split; [done|]. split; [done|]. split; [done|]. intros y x Hy Hx. apply Hs; [|done].
    unfold TERM_HEIGHT in Hy. lia.
Qed.

Lemma emit_shows e s : shows s -> shows (emit e s).
Proof. done. Qed.

Lemma loop_emit_frame n (f : nat -> term -> list hw) s :
  term_ok s -> shows s ->
  let s' := loop n (fun i s => emit (f i s) s) s in same_text s s' /\ term_ok s' /\ shows s'.
Proof.
  intros Hok Hs. cbv zeta.
  apply (loop_ind (fun _ t => same_text s t /\ term_ok t /\ shows t)).
  - split; [apply same_text_refl|done].
  - intros i t _ (Ht & Hokt & Hst). done.
Qed.

Lemma redrawCursor_shows s :
  term_ok s -> shows s ->
  exists s', redrawCursor header_data s = Some s' /\ same_text s s' /\ term_ok s' /\ shows s'.
Proof.
  intros Hok Hs. unfold redrawCursor. destruct (_ || _) eqn:Hoff.
  { exists s. split; [done|]. split; [apply same_text_refl|done]. }
  destruct (redraw_shown (cursorY s) (cursorX s) (cursorX s) s) as (s1 & -> & Ht & Hok1 & Hs1);
    [done|done|lia..|]. cbn [mbind option_bind].
  destruct (cursorShow s1).
  - destruct (loop_emit_frame 4 (fun i s => cursor_io s i) s1 Hok1 Hs1) as (Ht2 & Hok2 & Hs2).
    eexists. split; [reflexivity|]. split; [by eapply same_text_trans|done].
  - exists s1. done.
Qed.

Lemma erase_cursor_shows s :
  term_ok s -> shows s ->
  exists s', (if cursor_on_screen s then blit_line header_data (cursorY s) (cursorX s) (cursorX s) s else Some s) = Some s' /\
    same_text s s' /\ term_ok s' /\ shows s'.
Proof.
  intros Hok Hs. destruct (cursor_on_screen s) eqn:Hon.
  - unfold cursor_on_screen in Hon. apply redraw_shown; [done|done|lia..].
  - exists s. split; [done|]. split; [apply same_text_refl|done].
Qed.

(** ** Cells *)

(** The common form of the loops of [term_write] and [term_blit]: characters with
    their colours, from column [x] on. *)
Fixpoint put_cells (y x : Z) (cells : list (Z * Z)) (ch co : bytes) : option (bytes * bytes) :=
  match cells with
  | [] => Some (ch, co)
  | (c, k) :: cells =>
      if x <? TERM_WIDTH then
        if x <? 0 then put_cells y (x + 1) cells ch co
        else
          ch ← store ch (y * TERM_WIDTH + x) c;
          co ← store co (y * TERM_WIDTH + x) k;
          put_cells y (x + 1) cells ch co
      else Some (ch, co)
  end.

Lemma write_cells_put s str x ch co :
  write_cells s str x ch co = put_cells (cursorY s) x ((fun c => (u8 c, current_colors s)) <$> str) ch co.
Proof.
  revert x ch co. induction str as [|c str IH]; intros x ch co; [done|]. simpl.
  destruct (x <? TERM_WIDTH), (x <? 0); try done.
  destruct (store ch _ _) as [ch'|]; [|done]. simpl. destruct (store co _ _); [|done]. simpl. apply IH.
Qed.

Definition blit_cell (cell : Z * Z * Z) : Z * Z :=
  let '(c, f, g) := cell in (u8 c, u8 (Z.lor (hexch f) (Z.shiftl (hexch g) 4))).

Lemma blit_cells_put s cells x ch co :
  blit_cells s cells x ch co = put_cells (cursorY s) x (blit_cell <$> cells) ch co.
Proof.
  revert x ch co. induction cells as [|[[c f] g] cells IH]; intros x ch co; [done|]. simpl.
  destruct (x <? TERM_WIDTH), (x <? 0); try done.
  destruct (store ch _ _) as [ch'|]; [|done]. simpl. destruct (store co _ _); [|done]. simpl. apply IH.
Qed.

(** The cell of column [col] is one the run from [x] of length [n] writes. *)
Definition in_run (x : Z) (n : nat) (col : Z) : Prop := 0 <= col < TERM_WIDTH /\ x <= col < x + Z.of_nat n.

#[local] Instance in_run_dec x n col : Decision (in_run x n col).
Proof. unfold in_run. apply _. Defined.

Lemma put_cells_spec y x cells ch co :
  length ch = 1378%nat -> length co = 1378%nat -> 0 <= y < TERM_HEIGHT ->
  exists ch' co', put_cells y x cells ch co = Some (ch', co') /\
    length ch' = 1378%nat /\ length co' = 1378%nat /\
    (forall k, load ch' k = if decide (in_run x (length cells) (k - y * TERM_WIDTH))
       then fst <$> cells !! Z.to_nat (k - y * TERM_WIDTH - x) else load ch k) /\
    (forall k, load co' k = if decide (in_run x (length cells) (k - y * TERM_WIDTH))
       then snd <$> cells !! Z.to_nat (k - y * TERM_WIDTH - x) else load co k).
Proof.
  intros Hch Hco Hy. unfold in_run, TERM_WIDTH, TERM_HEIGHT in *. revert x ch co Hch Hco.
  induction cells as [|[c k0] cells IH]; intros x ch co Hch Hco.
  { exists ch, co. simpl. split_and!; try done; intros k; by rewrite decide_False by lia. }
  simpl. unfold TERM_WIDTH. destruct (Z.ltb_spec x 53); [|
    exists ch, co; split_and!; try done; intros k; by rewrite decide_False by lia].
  assert (forall k, x + 1 <= k - y * 53 -> forall A (f : Z * Z -> A) (e : Z * Z),
    f <$> ((e :: cells) !! Z.to_nat (k - y * 53 - x)) = f <$> cells !! Z.to_nat (k - y * 53 - (x + 1))) as Hshift.
  { intros k Hk A f e. replace (Z.to_nat (k - y * 53 - x)) with (S (Z.to_nat (k - y * 53 - (x + 1)))) by lia. done. }
  destruct (Z.ltb_spec x 0).
  - destruct (IH (x + 1) ch co Hch Hco) as (ch' & co' & -> & Hl1 & Hl2 & H1 & H2).
    exists ch', co'. split_and!; try done; intros k; rewrite ?H1, ?H2;
      destruct (decide (0 <= k - y * 53 < 53 /\ x + 1 <= k - y * 53 < x + 1 + Z.of_nat (length cells)));
      [rewrite decide_True by lia; rewrite <- Hshift with (e := (c, k0)) by lia; done
      |rewrite decide_False by lia; done
      |rewrite decide_True by lia; rewrite <- Hshift with (e := (c, k0)) by lia; done
      |rewrite decide_False by lia; done].
  - destruct (store_ok ch (y * 53 + x) c) as (ch1 & Hs1 & Hl1); [lia|].
    destruct (store_ok co (y * 53 + x) k0) as (co1 & Hs2 & Hl2); [lia|].
    rewrite Hs1, Hs2. simpl.
    destruct (IH (x + 1) ch1 co1) as (ch' & co' & -> & Hl1' & Hl2' & H1 & H2); [lia..|].
    exists ch', co'. split_and!; try done; intros k; rewrite ?H1, ?H2.
    all: destruct (decide (0 <= k - y * 53 < 53 /\ x + 1 <= k - y * 53 < x + 1 + Z.of_nat (length cells)));
      [rewrite decide_True by lia; rewrite <- Hshift with (e := (c, k0)) by lia; done|].
    all: rewrite ?(load_store _ _ _ _ _ Hs1), ?(load_store _ _ _ _ _ Hs2).
    all: destruct (decide (k = y * 53 + x)) as [->|]; [rewrite decide_True by lia|rewrite decide_False by lia; done].
    all: by replace (y * 53 + x - y * 53 - x) with 0 by lia.
Qed.

(** ** Finishing a write *)
Lemma finish_write_shows len s :
  term_ok s -> 0 <= cursorY s < TERM_HEIGHT -> cursorX s <= TERM_WIDTH -> 0 <= len < 2 ^ 31 ->
  (forall y x, 0 <= y < TERM_HEIGHT -> 0 <= x < TERM_WIDTH ->
     ~ (y = cursorY s /\ cursorX s <= x < cursorX s + len) -> cell_shown s y x) ->
  exists s', finish_write header_data len s = Some s' /\ term_ok s' /\ shows s' /\
    characters s' = characters s /\ colors s' = colors s /\ cursorX s' = i32 (cursorX s + len) /\
    cursorY s' = cursorY s.
Proof.
  intros Hok Hy Hx Hlen Hsh. pose proof Hok as (_ & _ & _ & _ & Hrx & _).
  unfold INT_MIN, INT_MAX, TERM_WIDTH in *. unfold finish_write. cbv zeta.
  set (cx := cursorX s) in *. set (n := cx + len) in *.
  assert (exists s1, (if 0 <? u64 n then blit_line header_data (cursorY s) (if 0 <? cx then cx else 0)
      (i32 (if TERM_WIDTH <=? u64 n then TERM_WIDTH - 1 else u64 (u64 n - 1))) s else Some s) = Some s1 /\
    same_text s s1 /\ term_ok s1 /\ shows s1) as (s1 & -> & Ht1 & Hok1 & Hs1).
  { unfold TERM_WIDTH. destruct (Z.lt_trichotomy n 0) as [Hn|[Hn|Hn]].
    - assert (u64 n = n + 2 ^ 64) as ->.
      { unfold uwrap. symmetry. apply (Z.mod_unique _ _ (-1)); lia. }
      rewrite (proj2 (Z.ltb_lt 0 _)), (proj2 (Z.leb_le 53 _)), (proj2 (Z.ltb_ge 0 cx)) by lia.
      change (i32 (53 - 1)) with 52. apply redraw_run; unfold TERM_WIDTH; try done; try lia.
      intros y' x Hy' Hx' _. apply Hsh; [done|done|lia].
    - rewrite Hn. simpl. exists s. split; [done|]. split; [apply same_text_refl|]. split; [done|].
      intros y' x Hy' Hx'. apply Hsh; [done|done|]. unfold TERM_WIDTH in *. lia.
    - rewrite (uwrap_small 64 n), (proj2 (Z.ltb_lt 0 n)) by lia.
      set (sx := if 0 <? cx then cx else 0). assert (sx = Z.max 0 cx) as -> by (unfold sx; destruct (Z.ltb_spec 0 cx); lia).
      set (ex := i32 _). assert (ex = Z.min 52 (n - 1)) as ->.
      { unfold ex. destruct (Z.leb_spec 53 n); [change (i32 (53 - 1)) with 52; lia|].
        rewrite uwrap_small by lia. rewrite swrap_small; lia. }
      apply redraw_run; unfold TERM_WIDTH; try done; try lia.
      intros y' x Hy' Hx' Hnot. apply Hsh; [done|done|]. unfold TERM_WIDTH in *. lia. }
  cbn [mbind option_bind].
  destruct (erase_cursor_shows s1 Hok1 Hs1) as (s2 & -> & Ht2 & Hok2 & Hs2). cbn [mbind option_bind].
  pose proof (same_text_trans _ _ _ Ht1 Ht2) as Ht.
  destruct (redrawCursor_shows (with_cursor (i32 (u64 n)) (cursorY s2) s2)) as (s3 & -> & Ht3 & Hok3 & Hs3).
  - destruct Hok2 as (Hc2 & Hp2 & Hl2 & Hb2 & _ & Hy2).
    pose proof (swrap_range 32 (u64 n) ltac:(lia)) as Hr. change (2 ^ (32 - 1)) with (2 ^ 31) in Hr.
    refine (conj Hc2 (conj Hp2 (conj Hl2 (conj Hb2 (conj _ Hy2))))).
    cbn [cursorX with_cursor]. unfold INT_MIN, INT_MAX. lia.
  - exact Hs2.
  - exists s3. destruct Ht3 as (E1 & E2 & E3 & E4 & E5 & _), Ht as (F1 & F2 & _ & _ & F5 & _).
    cbn [characters colors cursorX cursorY with_cursor] in *.
    split; [done|]. split; [done|]. split; [done|]. rewrite E1, E2, E4, E5, F1, F2, F5.
    split_and!; try done. apply swrap_uwrap. lia.
Qed.

Lemma cells_kept_shown s ch co (P : Z -> Z -> Prop) :
  shows s ->
  (forall y x, 0 <= y < TERM_HEIGHT -> 0 <= x < TERM_WIDTH -> ~ P y x ->
     load ch (y * TERM_WIDTH + x) = load (characters s) (y * TERM_WIDTH + x) /\
     load co (y * TERM_WIDTH + x) = load (colors s) (y * TERM_WIDTH + x)) ->
  forall y x, 0 <= y < TERM_HEIGHT -> 0 <= x < TERM_WIDTH -> ~ P y x -> cell_shown (with_cells ch co s) y x.
Proof.
  intros Hs Heq y x Hy Hx HP. destruct (Heq y x Hy Hx HP) as [H1 H2].
  intros i row c Hi Hr Hc. unfold cell_bit. cbn [characters colors with_cells]. rewrite H1, H2.
  by apply (Hs y x Hy Hx).
Qed.

Lemma with_cells_ok s ch co :
  term_ok s -> length ch = 1378%nat -> length co = 1378%nat -> term_ok (with_cells ch co s).
Proof. intros (_ & Hok) H1 H2. exact (conj (conj H1 H2) Hok). Qed.

(** Writing a run of cells at the cursor, as [term_write] and [term_blit] do. *)
Lemma put_and_finish cells s :
  term_ok s -> shows s -> 0 <= cursorY s < TERM_HEIGHT -> cursorX s <= TERM_WIDTH ->
  Z.of_nat (length cells) < 2 ^ 31 ->
  exists ch co s', put_cells (cursorY s) (cursorX s) cells (characters s) (colors s) = Some (ch, co) /\
    finish_write header_data (Z.of_nat (length cells)) (with_cells ch co s) = Some s' /\
    term_ok s' /\ shows s' /\ cursorX s' = i32 (cursorX s + Z.of_nat (length cells)) /\ cursorY s' = cursorY s /\
    (forall y x, 0 <= x < TERM_WIDTH ->
       load (characters s') (y * TERM_WIDTH + x) =
         (if decide (y = cursorY s /\ in_run (cursorX s) (length cells) x)
          then fst <$> cells !! Z.to_nat (x - cursorX s) else load (characters s) (y * TERM_WIDTH + x)) /\
       load (colors s') (y * TERM_WIDTH + x) =
         (if decide (y = cursorY s /\ in_run (cursorX s) (length cells) x)
          then snd <$> cells !! Z.to_nat (x - cursorX s) else load (colors s) (y * TERM_WIDTH + x))).
Proof.
  intros Hok Hs Hy Hx Hlen. pose proof Hok as ([Hc1 Hc2] & _).
  destruct (put_cells_spec (cursorY s) (cursorX s) cells (characters s) (colors s) Hc1 Hc2 Hy)
    as (ch & co & Hput & Hl1 & Hl2 & Hch & Hco).
  assert (forall y x, 0 <= x < TERM_WIDTH ->
    in_run (cursorX s) (length cells) (y * TERM_WIDTH + x - cursorY s * TERM_WIDTH) <->
    (y = cursorY s /\ in_run (cursorX s) (length cells) x)) as Hdec.
  { intros y x Hxr. unfold in_run, TERM_WIDTH in *. destruct (decide (y = cursorY s)) as [->|Hne]; lia. }
  assert (forall y x, 0 <= x < TERM_WIDTH ->
    load ch (y * TERM_WIDTH + x) =
      (if decide (y = cursorY s /\ in_run (cursorX s) (length cells) x)
       then fst <$> cells !! Z.to_nat (x - cursorX s) else load (characters s) (y * TERM_WIDTH + x)) /\
    load co (y * TERM_WIDTH + x) =
      (if decide (y = cursorY s /\ in_run (cursorX s) (length cells) x)
       then snd <$> cells !! Z.to_nat (x - cursorX s) else load (colors s) (y * TERM_WIDTH + x))) as Hcells.
  { intros y x Hxr. rewrite Hch, Hco. specialize (Hdec y x Hxr).
    destruct (decide (y = cursorY s /\ _)) as [[-> Hin]|Hn], (decide (in_run _ _ _)) as [Hin'|Hn'];
      try tauto.
    replace (cursorY s * TERM_WIDTH + x - cursorY s * TERM_WIDTH - cursorX s) with (x - cursorX s) by lia. done. }
  destruct (finish_write_shows (Z.of_nat (length cells)) (with_cells ch co s))
    as (s' & Hf & Hok' & Hs' & E1 & E2 & E3 & E4); [by apply with_cells_ok|done|done|lia| |].
  { apply (cells_kept_shown s ch co (fun y x => y = cursorY s /\ cursorX s <= x < cursorX s + Z.of_nat (length cells))).
    - done.
    - intros y x Hy' Hx' Hn. destruct (Hcells y x Hx') as [-> ->].
      rewrite !decide_False by (unfold in_run; lia). done. }
  exists ch, co, s'. split; [done|]. split; [done|]. split; [done|]. split; [done|].
  split; [done|]. split; [done|]. rewrite E1, E2. exact Hcells.
Qed.

(** ** Scrolling and clearing *)
Lemma fill_ok l off v len :
  0 <= off -> 0 <= len -> off + len <= Z.of_nat (length l) ->
  exists l', fill l off v len = Some l' /\ length l' = length l /\
    forall k, load l' k = if decide (off <= k < off + len) then Some v else load l k.
Proof.
  intros Ho Hl Hb. unfold fill. rewrite !(proj2 (Z.leb_le _ _)) by lia. simpl.
  eexists. split; [done|]. split; [apply length_memset; lia|]. intros k. unfold load.
  destruct (Z.leb_spec 0 k); [|by rewrite decide_False by lia].
  rewrite lookup_memset by lia.
  destruct (decide (off <= k < off + len)); [rewrite decide_True by lia|rewrite decide_False by lia]; done.
Qed.

Lemma move_ok l dst src len :
  0 <= dst -> 0 <= src -> 0 <= len -> dst + len <= Z.of_nat (length l) -> src + len <= Z.of_nat (length l) ->
  exists l', move l dst src len = Some l' /\ length l' = length l /\
    forall k, load l' k = if decide (dst <= k < dst + len) then load l (src + (k - dst)) else load l k.
Proof.
  intros Hd Hs Hl H1 H2. unfold move. rewrite !(proj2 (Z.leb_le _ _)) by lia. simpl.
  eexists. split; [done|]. split; [apply length_memmove; lia|]. intros k. unfold load.
  destruct (Z.leb_spec 0 k).
  - rewrite lookup_memmove by lia.
    destruct (decide (dst <= k < dst + len)); [rewrite decide_True by lia|by rewrite decide_False by lia].
    rewrite (proj2 (Z.leb_le 0 _)) by lia. f_equal. lia.
  - rewrite decide_False by lia. done.
Qed.

(** What [term_scroll] makes of one of the two arrays: line [r] gets line [r + n],
    and a line from outside the screen is [v]. *)
Definition scrolled (n v : Z) (l l' : bytes) : Prop :=
  length l' = length l /\ forall r x, 0 <= r < TERM_HEIGHT -> 0 <= x < TERM_WIDTH ->
    load l' (r * TERM_WIDTH + x) =
      if decide (0 <= r + n < TERM_HEIGHT) then load l ((r + n) * TERM_WIDTH + x) else Some v.

Lemma scroll_all n v l :
  length l = 1378%nat -> TERM_HEIGHT <= n \/ n <= - TERM_HEIGHT ->
  exists l', fill l 0 v (TERM_WIDTH * TERM_HEIGHT) = Some l' /\ scrolled n v l l'.
Proof.
  intros Hl Hn. unfold TERM_WIDTH, TERM_HEIGHT in *.
  destruct (fill_ok l 0 v (53 * 26)) as (l' & He & Hl' & Hk); [lia..|].
  exists l'. split; [done|]. split; [done|]. unfold TERM_WIDTH, TERM_HEIGHT. intros r x Hr Hx.
  rewrite Hk, decide_True, decide_False by lia. done.
Qed.

Lemma scroll_up n v l :
  length l = 1378%nat -> 0 < n < TERM_HEIGHT ->
  exists l1 l2, move l 0 (n * TERM_WIDTH) ((TERM_HEIGHT - n) * TERM_WIDTH) = Some l1 /\
    fill l1 ((TERM_HEIGHT - n) * TERM_WIDTH) v (n * TERM_WIDTH) = Some l2 /\ scrolled n v l l2.
Proof.
  intros Hl Hn. unfold TERM_WIDTH, TERM_HEIGHT in *.
  destruct (move_ok l 0 (n * 53) ((26 - n) * 53)) as (l1 & He1 & Hl1 & Hk1); [lia..|].
  destruct (fill_ok l1 ((26 - n) * 53) v (n * 53)) as (l2 & He2 & Hl2 & Hk2); [lia..|].
  exists l1, l2. split; [done|]. split; [done|]. split; [congruence|]. unfold TERM_WIDTH, TERM_HEIGHT.
  intros r x Hr Hx. rewrite Hk2, Hk1. destruct (decide (0 <= r + n < 26)).
  - rewrite decide_False, decide_True by lia. f_equal. lia.
  - rewrite decide_True by lia. done.
Qed.

Lemma scroll_down n v l :
  length l = 1378%nat -> - TERM_HEIGHT < n < 0 ->
  exists l1 l2, move l (- n * TERM_WIDTH) 0 ((TERM_HEIGHT + n) * TERM_WIDTH) = Some l1 /\
    fill l1 0 v (- n * TERM_WIDTH) = Some l2 /\ scrolled n v l l2.
Proof.
  intros Hl Hn. unfold TERM_WIDTH, TERM_HEIGHT in *.
  destruct (move_ok l (- n * 53) 0 ((26 + n) * 53)) as (l1 & He1 & Hl1 & Hk1); [lia..|].
  destruct (fill_ok l1 0 v (- n * 53)) as (l2 & He2 & Hl2 & Hk2); [lia..|].
  exists l1, l2. split; [done|]. split; [done|]. split; [congruence|]. unfold TERM_WIDTH, TERM_HEIGHT.
  intros r x Hr Hx. rewrite Hk2, Hk1. destruct (decide (0 <= r + n < 26)).
  - rewrite decide_False, decide_True by lia. f_equal. lia.
  - rewrite decide_True by lia. done.
Qed.

Lemma scroll_none v l : scrolled 0 v l l.
Proof. split; [done|]. intros r x Hr Hx. rewrite Z.add_0_r, decide_True by lia. done. Qed.

(** The cells a scroll leaves, before the screen is redrawn. *)
Lemma term_scroll_cells n s :
  term_ok s -> i32 n <> INT_MIN ->
  exists ch co, term_scroll header_data n s = blit_screen header_data (with_cells ch co s) /\
    scrolled (i32 n) 32 (characters s) ch /\ scrolled (i32 n) (current_colors s) (colors s) co.
Proof.
  intros ([Hc1 Hc2] & _) Hn. unfold term_scroll. cbv zeta.
  pose proof (swrap_range 32 n ltac:(lia)) as Hr. change (2 ^ (32 - 1)) with 2147483648 in Hr.
  unfold INT_MIN in Hn. change (2 ^ 31) with 2147483648 in Hn. set (k := i32 n) in *.
  assert (i32 (- k) = - k) as -> by (rewrite swrap_small; [done|lia|change (2 ^ (32 - 1)) with 2147483648; lia]).
  destruct ((TERM_HEIGHT <=? k) || (TERM_HEIGHT <=? - k)) eqn:Hbig.
  { destruct (scroll_all k 32 (characters s) Hc1) as (ch & -> & Hch); [lia|].
    destruct (scroll_all k (current_colors s) (colors s) Hc2) as (co & -> & Hco); [lia|].
    exists ch, co. done. }
  destruct (Z.ltb_spec 0 k).
  { destruct (scroll_up k 32 (characters s) Hc1) as (c1 & ch & -> & Hf & Hch); [lia|].
    destruct (scroll_up k (current_colors s) (colors s) Hc2) as (c2 & co & Hm & Hf2 & Hco); [lia|].
    cbn [mbind option_bind]. rewrite Hf. cbn [mbind option_bind]. rewrite Hm. cbn [mbind option_bind].
    rewrite Hf2. exists ch, co. done. }
  destruct (Z.ltb_spec k 0).
  { destruct (scroll_down k 32 (characters s) Hc1) as (c1 & ch & -> & Hf & Hch); [lia|].
    destruct (scroll_down k (current_colors s) (colors s) Hc2) as (c2 & co & Hm & Hf2 & Hco); [lia|].
    cbn [mbind option_bind]. rewrite Hf. cbn [mbind option_bind]. rewrite Hm. cbn [mbind option_bind].
    rewrite Hf2. exists ch, co. done. }
  assert (k = 0) as -> by lia. exists (characters s), (colors s). split; [done|].
  split; apply scroll_none.
Qed.

Lemma log2_int_range n k : 1 <= n < 2 ^ k -> 0 <= log2_int n < k.
Proof.
  intros Hn. unfold log2_int. rewrite (proj2 (Z.ltb_lt 0 n)) by lia.
  split; [apply Z.log2_nonneg|]. apply Z.log2_lt_pow2; lia.
Qed.

Lemma with_current_ok s c : is_byte c -> term_ok s -> shows s -> term_ok (with_current c s) /\ shows (with_current c s).
Proof. intros Hc (H1 & H2 & H3 & _ & H5) Hs. split; [exact (conj H1 (conj H2 (conj H3 (conj Hc H5))))|exact Hs]. Qed.

Lemma nibble_byte x y m1 m2 : 0 <= m1 < 256 -> 0 <= m2 < 256 -> is_byte (Z.lor (Z.land x m1) (Z.land y m2)).
Proof.
  intros H1 H2. assert (forall x m, 0 <= m < 256 -> 0 <= Z.land x m < 2 ^ 8) as Hand.
  { intros a m Hm. split; [apply Z.land_nonneg; lia|].
    rewrite <- (Z.mod_small m (2 ^ 8)), <- Z.land_ones, Z.land_assoc, Z.land_ones by lia.
    apply Z.mod_pos_bound. lia. }
  unfold is_byte. pose proof (Hand x m1 H1). pose proof (Hand y m2 H2).
  split; [apply Z.lor_nonneg; lia|]. change 256 with (2 ^ 8).
  destruct (Z.eq_dec (Z.lor (Z.land x m1) (Z.land y m2)) 0) as [->|]; [lia|].
  apply Z.log2_lt_pow2; [|rewrite Z.log2_lor by lia; apply Z.max_lub_lt].
  - assert (0 <= Z.lor (Z.land x m1) (Z.land y m2)) by (apply Z.lor_nonneg; lia). lia.
  - destruct (Z.eq_dec (Z.land x m1) 0) as [->|]; [done|apply Z.log2_lt_pow2; lia].
  - destruct (Z.eq_dec (Z.land y m2) 0) as [->|]; [done|apply Z.log2_lt_pow2; lia].
Qed.

Lemma clear_line_shows s :
  term_ok s -> shows s -> exists s', term_clearLine header_data s = Some s' /\ term_ok s' /\ shows s'.
Proof.
  intros Hok Hs. pose proof Hok as ([Hc1 Hc2] & _). unfold term_clearLine.
  destruct ((cursorY s <? 0) || (TERM_HEIGHT <=? cursorY s)) eqn:Hoff; [by exists s|].
  unfold TERM_WIDTH, TERM_HEIGHT in Hoff.
  destruct (fill_ok (characters s) (cursorY s * TERM_WIDTH) 32 TERM_WIDTH) as (ch & -> & Hl1 & Hk1);
    [unfold TERM_WIDTH; lia..|].
  destruct (fill_ok (colors s) (cursorY s * TERM_WIDTH) (current_colors s) TERM_WIDTH) as (co & Hf & Hl2 & Hk2);
    [unfold TERM_WIDTH; lia..|].
  cbn [mbind option_bind]. rewrite Hf. cbn [mbind option_bind].
  destruct (redraw_run (cursorY s) 0 (TERM_WIDTH - 1) (with_cells ch co s)) as (s' & He & _ & Hok' & Hs').
  - apply with_cells_ok; [done|congruence..].
  - unfold TERM_HEIGHT. lia.
  - lia.
  - unfold TERM_WIDTH. lia.
  - lia.
  - intros y x Hy Hx Hn. apply (cells_kept_shown s ch co (fun y x => y = cursorY s)); [done| |done|done|lia].
    intros y' x' Hy' Hx' Hne. rewrite Hk1, Hk2, !decide_False by (unfold TERM_WIDTH in *; lia). done.
  - by exists s'.
Qed.

Lemma clear_shows s :
  term_ok s -> exists s', term_clear header_data s = Some s' /\ term_ok s' /\ shows s'.
Proof.
  intros Hok. pose proof Hok as ([Hc1 Hc2] & _). unfold term_clear.
  destruct (scroll_all 26 32 (characters s) Hc1) as (ch & -> & Hl1 & _); [by left|].
  destruct (scroll_all 26 (current_colors s) (colors s) Hc2) as (co & Hf & Hl2 & _); [by left|].
  cbn [mbind option_bind]. rewrite Hf. cbn [mbind option_bind].
  destruct (blit_screen_shows (with_cells ch co s)) as (s' & He & _ & H); [|by exists s'].
  apply with_cells_ok; [done|congruence..].
Qed.

Lemma set_cursor_shows x y s :
  term_ok s -> shows s -> exists s', term_setCursorPos header_data x y s = Some s' /\ term_ok s' /\ shows s'.
Proof.
  intros Hok Hs. unfold term_setCursorPos.
  destruct (erase_cursor_shows s Hok Hs) as (s1 & -> & Ht1 & Hok1 & Hs1). cbn [mbind option_bind].
  destruct (redrawCursor_shows (with_cursor (i32 (x - 1)) (i32 (y - 1)) s1)) as (s2 & -> & _ & H);
    [|exact Hs1|by exists s2].
  destruct Hok1 as (H1 & H2 & H3 & H4 & _). refine (conj H1 (conj H2 (conj H3 (conj H4 (conj _ _))))).
  - pose proof (swrap_range 32 (x - 1) ltac:(lia)). cbn [cursorX with_cursor].
    change (2 ^ (32 - 1)) with (2 ^ 31) in *. unfold INT_MIN, INT_MAX. lia.
  - pose proof (swrap_range 32 (y - 1) ltac:(lia)). cbn [cursorY with_cursor].
    change (2 ^ (32 - 1)) with (2 ^ 31) in *. unfold INT_MIN, INT_MAX. lia.
Qed.

Lemma scroll_shows n s :
  term_ok s -> i32 n <> INT_MIN ->
  exists s', term_scroll header_data n s = Some s' /\ term_ok s' /\ shows s'.
Proof.
  intros Hok Hn. pose proof Hok as ([Hc1 Hc2] & _).
  destruct (term_scroll_cells n s Hok Hn) as (ch & co & -> & [Hl1 _] & [Hl2 _]).
  destruct (blit_screen_shows (with_cells ch co s)) as (s' & He & _ & H); [|by exists s'].
  apply with_cells_ok; [done|congruence..].
Qed.

Lemma set_palette_shows n r g b s :
  term_ok s -> shows s -> 1 <= n < 2 ^ 16 ->
  exists s', term_setPaletteColor ac_register n r g b s = Some s' /\ term_ok s' /\ shows s'.
Proof.
  intros (H1 & H2 & H3 & H4) Hs Hn. unfold term_setPaletteColor. cbv zeta.
  pose proof (log2_int_range n 16 Hn).
  match goal with |- context [store (palette ?t) ?i ?v] => destruct (store_ok (palette t) i v) as (p & Hst & Hl) end.
  { cbn [palette emit]. rewrite H3. lia. }
  rewrite Hst. cbn [mbind option_bind]. eexists. split; [done|]. split; [|exact Hs].
  refine (conj H1 (conj H2 (conj _ H4))). cbn [palette with_palette]. cbn [palette emit] in Hl. congruence.
Qed.

(** C14. The display stays coherent. From a state where the planes show the cells, every
    operation with the arguments listed here stays inside the arrays and ends in a state
    where the planes show the new cells, up to the right column of even cells, which may
    keep a bit of what was drawn there before. The arguments ([safe_op]): a write of any text
    (of fewer than 2^31 bytes) with the cursor anywhere; a scroll by any number but
    INT_MIN; any cursor position; any text or background colour; clearing; a blit
    with the cursor in a row of the screen and not right of its end, with any characters (fewer than 2^31)
    and colours (in another row it writes outside of the arrays, see
    [term_blit_row_unchecked]); the palette entry of one of the sixteen colours. *)
Theorem display_coherent (op : term_op) s :
  term_ok s -> shows s -> safe_op op s ->
  exists s', term_step op s = Some s' /\ term_ok s' /\ shows s'.
Proof.
  intros Hok Hs Hsafe. destruct op; cbn [term_step safe_op] in *.
  - unfold term_write. destruct ((cursorY s <? 0) || _ || _) eqn:Hoff; [by exists s|].
    unfold TERM_WIDTH, TERM_HEIGHT in Hoff. rewrite write_cells_put.
    destruct (put_and_finish ((fun c => (u8 c, current_colors s)) <$> str) s) as (ch & co & s' & -> & Hf & Hok' & Hs' & _);
      [done|done|unfold TERM_HEIGHT; lia|unfold TERM_WIDTH; lia|by rewrite length_fmap|].
    rewrite length_fmap in Hf. cbn [mbind option_bind]. rewrite Hf. by exists s'.
  - by apply scroll_shows.
  - by apply set_cursor_shows.
  - unfold term_setCursorBlink. destruct (redrawCursor_shows (with_blink b s)) as (s' & He & _ & H); [done|done|by exists s'].
  - by apply clear_shows.
  - by apply clear_line_shows.
  - eexists. split; [done|]. apply with_current_ok; [|done|done]. apply nibble_byte; lia.
  - eexists. split; [done|]. apply with_current_ok; [|done|done]. apply nibble_byte; lia.
  - destruct Hsafe as (Hl & Hy & Hx). unfold term_blit. destruct (negb _) eqn:Hlen; [by exists s|].
    apply negb_false_iff, andb_true_iff in Hlen as [H1%Nat.eqb_eq H2%Nat.eqb_eq].
    assert (length (blit_cell <$> zip (zip str fg) bg) = length str) as Hn.
    { rewrite length_fmap, !length_zip_with. lia. }
    rewrite blit_cells_put.
    destruct (put_and_finish (blit_cell <$> zip (zip str fg) bg) s) as (ch & co & s' & -> & Hf & Hok' & Hs' & _);
      [done..|by rewrite Hn|].
    rewrite Hn in Hf. cbn [mbind option_bind]. rewrite Hf. by exists s'.
  - by apply set_palette_shows.
Qed.

(** [term_write] at any cursor position puts exactly the characters that fall
    on the screen, in the current colours, changes no other cell, and moves the
    cursor by the length of the text; with the cursor on no line, or right of the
    screen, it changes nothing at all. *)
Theorem term_write_text (str : bytes) s :
  term_ok s -> shows s -> Z.of_nat (length str) < 2 ^ 31 ->
  if decide (0 <= cursorY s < TERM_HEIGHT /\ cursorX s < TERM_WIDTH) then
    exists s', term_write header_data str s = Some s' /\
      cursorX s' = i32 (cursorX s + Z.of_nat (length str)) /\ cursorY s' = cursorY s /\
      forall y x, 0 <= x < TERM_WIDTH ->
        load (characters s') (y * TERM_WIDTH + x) =
          (if decide (y = cursorY s /\ in_run (cursorX s) (length str) x)
           then u8 <$> str !! Z.to_nat (x - cursorX s) else load (characters s) (y * TERM_WIDTH + x)) /\
        load (colors s') (y * TERM_WIDTH + x) =
          (if decide (y = cursorY s /\ in_run (cursorX s) (length str) x)
           then Some (current_colors s) else load (colors s) (y * TERM_WIDTH + x))
  else term_write header_data str s = Some s.
Proof.
  intros Hok Hs Hlen. unfold term_write. case_decide as Hon; unfold TERM_WIDTH, TERM_HEIGHT in Hon.
  2:{ destruct ((cursorY s <? 0) || _ || _) eqn:Hoff; [done|]. unfold TERM_WIDTH, TERM_HEIGHT in Hoff. lia. }
  assert ((cursorY s <? 0) || (TERM_HEIGHT <=? cursorY s) || (TERM_WIDTH <=? cursorX s) = false) as ->
    by (unfold TERM_WIDTH, TERM_HEIGHT; lia).
  rewrite write_cells_put.
  destruct (put_and_finish ((fun c => (u8 c, current_colors s)) <$> str) s)
    as (ch & co & s' & -> & Hf & _ & _ & Hcx & Hcy & Hcells);
    [done|done|unfold TERM_HEIGHT; lia|unfold TERM_WIDTH; lia|by rewrite length_fmap|].
  rewrite length_fmap in *. cbn [mbind option_bind]. rewrite Hf. exists s'.
  split; [done|]. split; [done|]. split; [done|]. intros y x Hx. destruct (Hcells y x Hx) as [-> ->].
  case_decide as Hd; [|done]. rewrite list_lookup_fmap. split; [by destruct (str !! _)|].
  destruct Hd as [_ [_ Hd]].
  destruct (lookup_lt_is_Some_2 str (Z.to_nat (x - cursorX s))) as [c ->]; [lia|]. done.
Qed.

(** [term_scroll n] moves every line up by [n] (down for a negative [n]): line
    [r] shows the old line [r + n], and a line that comes from outside the screen
    is blank in the current colours; a count of the screen height or more clears
    it. *)
Theorem term_scroll_lines (n : Z) s :
  term_ok s -> i32 n <> INT_MIN ->
  exists s', term_scroll header_data n s = Some s' /\
    scrolled (i32 n) 32 (characters s) (characters s') /\
    scrolled (i32 n) (current_colors s) (colors s) (colors s') /\
    cursorX s' = cursorX s /\ cursorY s' = cursorY s.
Proof.
  intros Hok Hn. pose proof Hok as ([Hc1 Hc2] & _).
  destruct (term_scroll_cells n s Hok Hn) as (ch & co & -> & Hch & Hco).
  destruct (blit_screen_shows (with_cells ch co s)) as (s' & He & Ht & _).
  - apply with_cells_ok; [done|rewrite (proj1 Hch); done|rewrite (proj1 Hco); done].
  - exists s'. destruct Ht as (E1 & E2 & _ & E4 & E5 & _). rewrite E1, E2, E4, E5. by split_and!.
Qed.

(** [term_blit] never tests the row: with the cursor on a line outside the
    screen and a column inside it, writing any text leaves the character array. *)
Theorem term_blit_row_unchecked (str fg bg : bytes) s :
  cells_ok s -> 0 <= cursorX s < TERM_WIDTH ->
  length fg = length str -> length bg = length str -> str <> [] ->
  cursorY s < 0 \/ TERM_HEIGHT <= cursorY s ->
  term_blit header_data str fg bg s = None.
Proof.
  intros [Hc1 Hc2] Hx Hf Hb Hne Hy. unfold TERM_HEIGHT, TERM_WIDTH in *. unfold term_blit.
  rewrite Hf, Hb, !Nat.eqb_refl. simpl.
  destruct str as [|c str], fg as [|f fg], bg as [|g bg]; try done. simpl. unfold TERM_WIDTH.
  rewrite (proj2 (Z.ltb_lt _ 53)), (proj2 (Z.ltb_ge _ 0)) by lia.
  unfold store. destruct (Z.leb_spec 0 (cursorY s * 53 + cursorX s)),
    (Z.ltb_spec (cursorY s * 53 + cursorX s) (Z.of_nat (length (characters s)))); simpl; try done. lia.
Qed.

End Ops.

(** ** Initialisation, colours and palette *)
Section Setup.
Variable header_data : Z -> Z.
Variable ac_register : Z -> Z.

Lemma clear_plane_ok i s :
  term_ok s -> (i < 4)%nat -> exists s', clear_plane i s = Some s' /\ term_ok s' /\ same_text s s'.
Proof.
  intros (Hc & [Hp4 Hpl] & Hrest) Hi. unfold clear_plane.
  destruct (lookup_lt_is_Some_2 (pixel_buffer s) i) as [p Hp]; [lia|]. rewrite Hp. cbn [mbind option_bind].
  assert (Z.of_nat (length p) = 38400) as Hl by (by eapply Forall_lookup_1 in Hpl).
  destruct (fill_ok p 0 0xFF 38400) as (p' & -> & Hl' & _); [lia..|]. cbn [mbind option_bind].
  eexists. split; [done|]. split; [|by repeat split].
  refine (conj Hc (conj _ Hrest)). split; cbn [pixel_buffer with_pixels emit].
  - by rewrite length_insert.
  - apply Forall_insert; [done|lia].
Qed.

(** Initialisation from any well-formed state gives a blank screen: every cell
    is a space in white on black, the planes show it, and the cursor, palette and
    colour settings are the ones before. *)
Theorem termInit_blank s :
  term_ok s ->
  exists s', termInit header_data ac_register s = Some s' /\ term_ok s' /\ shows header_data s' /\
    (forall y x, 0 <= y < TERM_HEIGHT -> 0 <= x < TERM_WIDTH ->
       load (characters s') (y * TERM_WIDTH + x) = Some 32 /\
       load (colors s') (y * TERM_WIDTH + x) = Some 0xF0) /\
    cursorX s' = cursorX s /\ cursorY s' = cursorY s /\ palette s' = palette s /\
    current_colors s' = current_colors s.
Proof.
  intros Hok. unfold termInit. cbv zeta.
  set (s0 := loop 16 _ _).
  assert (same_text s s0 /\ term_ok s0) as [Ht0 Hok0].
  { apply (loop_ind (fun _ t => same_text s t /\ term_ok t)).
    - split; [by repeat split|exact Hok].
    - intros i t _ H. exact H. }
  destruct (loopM_ind (fun _ t => same_text s t /\ term_ok t) 4 clear_plane s0) as (s1 & -> & Ht1 & Hok1);
    [done| |].
  { intros i t Hi [Ht Hokt]. destruct (clear_plane_ok i t Hokt Hi) as (t' & -> & Hok' & Ht').
    exists t'. split; [done|]. split; [by eapply same_text_trans|done]. }
  cbn [mbind option_bind].
  match goal with |- context [characters ?t] => set (s2 := t) end.
  assert (term_ok s2) as Hok2 by exact Hok1. assert (same_text s s2) as Ht2 by exact Ht1.
  pose proof Hok2 as ([Hc1 Hc2] & _).
  destruct (scroll_all 26 32 (characters s2) Hc1) as (ch & -> & Hl1 & Hch); [by left|]. cbn [mbind option_bind].
  destruct (scroll_all 26 0xF0 (colors s2) Hc2) as (co & -> & Hl2 & Hco); [by left|]. cbn [mbind option_bind].
  destruct (blit_screen_shows header_data (with_cells ch co s2)) as (s3 & -> & Ht3 & Hok3 & Hs3).
  { apply with_cells_ok; [done|congruence..]. }
  cbn [mbind option_bind].
  destruct (redrawCursor_shows header_data s3 Hok3 Hs3) as (s4 & -> & Ht4 & Hok4 & Hs4). cbn [mbind option_bind].
  eexists. split; [done|]. split; [exact Hok4|]. split; [exact Hs4|].
  destruct (same_text_trans _ _ _ Ht3 Ht4) as (E1 & E2 & E3 & E4 & E5 & _ & _ & E8).
  destruct Ht2 as (_ & _ & F3 & F4 & F5 & _ & _ & F8).
  cbn [characters colors cursorX cursorY palette current_colors emit with_cells] in *.
  rewrite E1, E2, E3, E4, E5, E8, F3, F4, F5, F8. split_and!; try done.
  intros y x Hy Hx. rewrite Hch, Hco by done. rewrite !decide_False by (unfold TERM_HEIGHT in *; lia). done.
Qed.

(** A colour argument as ComputerCraft passes it: one of 2^0 .. 2^15. *)
Definition colour_ok (cur k : Z) : bool :=
  let t := Z.lor (Z.land cur 0xF0) (Z.land (log2_int (2 ^ k)) 0x0F) in
  let g := Z.lor (Z.land cur 0x0F) (Z.land (i32 (Z.shiftl (log2_int (2 ^ k)) 4)) 0xF0) in
  (Z.shiftl 1 (Z.land t 0x0F) =? 2 ^ k) && (Z.shiftl 1 (Z.shiftr t 4) =? Z.shiftl 1 (Z.shiftr cur 4)) &&
  (Z.shiftl 1 (Z.shiftr g 4) =? 2 ^ k) && (Z.shiftl 1 (Z.land g 0x0F) =? Z.shiftl 1 (Z.land cur 0x0F)).

Lemma colour_ok_all : forallb (fun k => forallb (fun cur => colour_ok cur k)
  (Z.of_nat <$> seq 0 256)) (Z.of_nat <$> seq 0 16) = true.
Proof. vm_compute. reflexivity. Qed.

(** Setting the text or the background colour to one of the sixteen colours
    reads back as that colour and leaves the other one unchanged. *)
Theorem colours_round_trip (k : Z) s :
  is_byte (current_colors s) -> 0 <= k < 16 ->
  term_getTextColor (term_setTextColor (2 ^ k) s) = 2 ^ k /\
  term_getBackgroundColor (term_setTextColor (2 ^ k) s) = term_getBackgroundColor s /\
  term_getBackgroundColor (term_setBackgroundColor (2 ^ k) s) = 2 ^ k /\
  term_getTextColor (term_setBackgroundColor (2 ^ k) s) = term_getTextColor s.
Proof.
  intros Hb Hk. unfold is_byte in Hb.
  pose proof (proj1 (forallb_forall _ _) colour_ok_all k) as H1.
  assert (In k (Z.of_nat <$> seq 0 16)) as Hin1.
  { apply list_elem_of_In, list_elem_of_fmap. exists (Z.to_nat k). split; [lia|]. apply elem_of_seq. lia. }
  pose proof (proj1 (forallb_forall _ _) (H1 Hin1) (current_colors s)) as H2.
  assert (In (current_colors s) (Z.of_nat <$> seq 0 256)) as Hin2.
  { apply list_elem_of_In, list_elem_of_fmap. exists (Z.to_nat (current_colors s)).
    split; [lia|]. apply elem_of_seq. lia. }
  specialize (H2 Hin2). unfold colour_ok in H2. cbv zeta in H2.
  unfold term_getTextColor, term_getBackgroundColor, term_setTextColor, term_setBackgroundColor.
  cbn [current_colors with_current]. lia.
Qed.

Lemma palette_word r g b : 0 <= r < 64 -> 0 <= g < 64 -> 0 <= b < 64 ->
  let c := u32 (Z.lor (Z.lor (Z.shiftl b 2) (Z.shiftl g 10)) (Z.shiftl r 18)) in
  Z.land c 0xFF = 4 * b /\ Z.land (Z.shiftr c 8) 0xFF = 4 * g /\ Z.land (Z.shiftr c 24) 0xFF = 0.
Proof.
  intros Hr Hg Hb. cbv zeta.
  assert (Z.lor (Z.lor (Z.shiftl b 2) (Z.shiftl g 10)) (Z.shiftl r 18) = b * 4 + g * 1024 + r * 262144) as ->.
  { rewrite !Z.shiftl_mul_pow2 by lia. change (2 ^ 2) with 4. change (2 ^ 10) with 1024. change (2 ^ 18) with 262144.
    assert (forall x y k, 0 <= k -> 0 <= x < 2 ^ k -> Z.lor x (y * 2 ^ k) = x + y * 2 ^ k) as Hlor.
    { intros x y k Hk Hx. rewrite <- Z.add_lor_land.
      enough (Z.land x (y * 2 ^ k) = 0) by lia. apply Z.bits_inj'. intros i Hi.
      rewrite Z.land_spec, Z.bits_0. destruct (Z.ltb_spec i k).
      - rewrite Z.mul_pow2_bits_low by lia. apply andb_false_r.
      - by rewrite (testbit_high k) by lia. }
    change 1024 with (2 ^ 10). rewrite (Hlor (b * 4) g 10) by lia.
    change 262144 with (2 ^ 18). rewrite (Hlor _ r 18) by lia. lia. }
  rewrite uwrap_small by lia. rewrite !Z.shiftr_div_pow2 by lia.
  change 0xFF with (Z.ones 8). rewrite !Z.land_ones by lia.
  change (2 ^ 8) with 256. change (2 ^ 24) with 16777216. split_and!.
  - symmetry. apply (Z.mod_unique _ _ (g * 4 + r * 1024)); lia.
  - assert ((b * 4 + g * 1024 + r * 262144) / 256 = g * 4 + r * 1024) as ->.
    { symmetry. apply (Z.div_unique _ _ _ (b * 4)); lia. }
    symmetry. apply (Z.mod_unique _ _ (r * 4)); lia.
  - rewrite (Z.div_small _ 16777216) by lia. done.
Qed.

(** A palette colour set from [r], [g], [b] (each 0..63 after the scaling)
    reads back as blue, green and 0, over 255: the getter returns the blue
    component first and shifts the red one out, so the red component is lost. Other
    palette entries keep their value. *)
Theorem palette_loses_red (n n' r g b : Z) s :
  length (palette s) = 16%nat -> 1 <= n < 2 ^ 16 -> 1 <= n' < 2 ^ 16 ->
  0 <= r < 64 -> 0 <= g < 64 -> 0 <= b < 64 ->
  exists s', term_setPaletteColor ac_register n r g b s = Some s' /\
    term_getPaletteColor n s' = Some [4 * b; 4 * g; 0] /\
    (Z.log2 n' <> Z.log2 n -> term_getPaletteColor n' s' = term_getPaletteColor n' s).
Proof.
  intros Hp Hn Hn' Hr Hg Hb. unfold term_setPaletteColor. cbv zeta.
  pose proof (log2_int_range n 16 Hn).
  match goal with |- context [store (palette ?t) ?i ?v] => destruct (store_ok (palette t) i v) as (p & Hst & Hl) end.
  { cbn [palette emit]. rewrite Hp. lia. }
  rewrite Hst. cbn [mbind option_bind]. eexists. split; [done|].
  cbn [palette emit] in Hst. unfold term_getPaletteColor. cbn [palette with_palette emit]. split.
  - rewrite (load_store _ _ _ _ _ Hst), decide_True by done. cbn [mbind option_bind].
    destruct (palette_word r g b Hr Hg Hb) as (-> & -> & ->). done.
  - intros Hne. rewrite (load_store _ _ _ _ _ Hst), decide_False; [done|]. unfold log2_int.
    by rewrite !(proj2 (Z.ltb_lt 0 _)) by lia.
Qed.

(** [blit_line] on a run of cells inside the screen draws, on each of the four
    planes, every pixel of those cells with the bit of the glyph's colour, and
    touches no other pixel; in the last column of a run that ends in an even cell
    the new bit is or-ed with the old one (the tail mask is one bit too wide). *)
Theorem blit_line_pixels (y sx ex : Z) s :
  cells_ok s -> planes_ok s -> 0 <= y < TERM_HEIGHT -> 0 <= sx -> sx <= ex + 1 -> ex < TERM_WIDTH ->
  exists s', blit_line header_data y sx ex s = Some s' /\ same_text s s' /\
    forall (i : nat) y' x row c, (i < 4)%nat -> 0 <= x < TERM_WIDTH -> 0 <= row < 18 -> 0 <= c < 12 ->
      pixel s' i (18 * y' + row) (12 * x + c) =
        if decide (y' = y /\ sx <= x <= ex) then
          cell_bit header_data s i y x row c ||
          (bool_decide (x = ex /\ c = 11) && Z.odd (ex + 1) && pixel s i (18 * y' + row) (12 * x + c))
        else pixel s i (18 * y' + row) (12 * x + c).
Proof.
  intros Hc Hp Hy Hsx Hse Hex.
  destruct (blit_line_spec header_data y sx ex s Hc Hp Hy Hsx Hse Hex) as (s' & He & Ht & _ & Hpix).
  exists s'. split; [done|]. split; [done|]. intros i y' x row c Hi Hx Hr Hcc. unfold TERM_WIDTH in *.
  rewrite Hpix by lia. by apply run_pixel_cell.
Qed.

End Setup.

(** ** Witnesses: the initial state of the globals, with a one-pixel font *)
Definition font1 (k : Z) : Z := if k =? 0 then 1 else 0.
Definition ac1 (i : Z) : Z := i.

Lemma init_ok : term_ok term_init_state.
Proof.
  split; [split; apply length_replicate|]. split.
  - split; [apply length_replicate|]. apply Forall_replicate. rewrite length_replicate. lia.
  - split; [done|]. split; [by compute_done|]. split; done.
Qed.

Lemma load_replicate {A} n (v : A) k : load (replicate n v) k = if decide (0 <= k < Z.of_nat n) then Some v else None.
Proof.
  unfold load. destruct (Z.leb_spec 0 k); [|by rewrite decide_False by lia].
  case_decide; [apply lookup_replicate_2; lia|].
  apply lookup_ge_None_2. rewrite length_replicate. lia.
Qed.

Lemma init_pixel i r c : (i < 4)%nat -> pixel term_init_state i r c = false.
Proof.
  intros Hi. unfold pixel. cbn [pixel_buffer term_init_state]. rewrite lookup_replicate_2 by lia.
  unfold bit_at. rewrite load_replicate. case_decide; [apply Z.bits_0|done].
Qed.

Lemma init_shows font : shows font term_init_state.
Proof.
  intros y x Hy Hx i row c Hi Hr Hc. cbv zeta. rewrite init_pixel by done.
  assert (cell_bit font term_init_state i y x row c = false) as ->; [|done].
  unfold cell_bit. cbn [characters colors term_init_state]. rewrite !load_replicate.
  unfold TERM_HEIGHT, TERM_WIDTH in *. rewrite decide_True by lia. cbn [default].
  unfold glyph. rewrite Z.land_0_l, Z.shiftr_0_l. destruct (negb _); apply Z.bits_0.
Qed.

Lemma display_coherent_witness : exists s',
  term_step font1 ac1 (Write [72; 105]) term_init_state = Some s' /\ term_ok s' /\ shows font1 s'.
Proof. apply (display_coherent font1 ac1 (Write [72; 105]) term_init_state init_ok (init_shows font1)). reflexivity. Defined.

Lemma term_write_text_witness : exists s', term_write font1 [72; 105] term_init_state = Some s' /\
  cursorX s' = 2 /\ load (characters s') 1 = Some 105.
Proof.
  pose proof (term_write_text font1 ac1 [72; 105] term_init_state init_ok (init_shows font1) ltac:(reflexivity)) as H.
  rewrite decide_True in H by (split; [split|]; reflexivity || discriminate).
  destruct H as (s' & He & Hx & _ & Hc). exists s'. split; [exact He|]. split; [exact Hx|].
  exact (proj1 (Hc 0 1 ltac:(unfold TERM_WIDTH; lia))).
Defined.

Lemma term_scroll_lines_witness : i32 1 <> INT_MIN /\ exists s',
  term_scroll font1 1 term_init_state = Some s' /\ load (characters s') (25 * 53) = Some 32.
Proof.
  split; [discriminate|].
  destruct (term_scroll_lines font1 1 term_init_state init_ok ltac:(discriminate)) as (s' & He & [_ Hc] & _).
  exists s'. split; [exact He|]. exact (Hc 25 0 ltac:(unfold TERM_HEIGHT; lia) ltac:(unfold TERM_WIDTH; lia)).
Defined.

Lemma term_blit_row_unchecked_witness :
  term_blit font1 [72] [48] [49] (with_cursor 0 26 term_init_state) = None.
Proof.
  apply (term_blit_row_unchecked font1 [72] [48] [49] (with_cursor 0 26 term_init_state));
    [exact (proj1 init_ok)|split; reflexivity || discriminate|reflexivity|reflexivity|discriminate|right; discriminate].
Defined.

Lemma termInit_blank_witness : exists s', termInit font1 ac1 term_init_state = Some s' /\ shows font1 s'.
Proof.
  destruct (termInit_blank font1 ac1 term_init_state init_ok) as (s' & He & _ & Hs & _).
  exact (ex_intro _ s' (conj He Hs)).
Defined.

Lemma colours_round_trip_witness : (is_byte 0xF0 /\ 0 <= 14 < 16) /\
  term_getTextColor (term_setTextColor 16384 term_init_state) = 16384.
Proof.
  split; [split; [by compute_done|lia]|].
  exact (proj1 (colours_round_trip 14 term_init_state ltac:(by compute_done) ltac:(lia))).
Defined.

(** A colour set to full red (63, 0, 0) reads back as black. *)
Lemma palette_loses_red_witness : exists s',
  term_setPaletteColor ac1 1 63 0 0 term_init_state = Some s' /\ term_getPaletteColor 1 s' = Some [0; 0; 0].
Proof.
  destruct (palette_loses_red ac1 1 2 63 0 0 term_init_state eq_refl ltac:(lia) ltac:(lia) ltac:(lia) ltac:(lia) ltac:(lia))
    as (s' & He & Hg & _). exact (ex_intro _ s' (conj He Hg)).
Defined.

Lemma blit_line_pixels_witness : exists s', blit_line font1 0 0 0 term_init_state = Some s' /\
  pixel s' 0 0 0 = cell_bit font1 term_init_state 0 0 0 0 0.
Proof.
  destruct (blit_line_pixels font1 0 0 0 term_init_state (proj1 init_ok) (proj1 (proj2 init_ok)))
    as (s' & He & _ & Hp); [split; [done|reflexivity]|done|done|reflexivity|].
  exists s'. split; [exact He|].
  pose proof (Hp 0%nat 0 0 0 0 ltac:(lia) ltac:(unfold TERM_WIDTH; lia) ltac:(lia) ltac:(lia)) as E.
  rewrite decide_True in E by (split; [reflexivity|lia]). rewrite bool_decide_false in E by lia.
  cbn [andb] in E. rewrite orb_false_r in E. exact E.
Defined.
