(* ===== verification/FsHandle.v ===== *)
(** * File handles (src/fs_handle.c)

    The closures that fs.open returns, over a model of a stdio stream: the content
    of the file, the position and the end-of-file flag. [uninit] is the byte that
    [malloc] (or the stack) happens to hold where the code does not write the
    terminating NUL; a string without a terminator inside its buffer is read past
    its end, which is [None]. *)
From stdpp Require Import base list option.
From Stdlib Require Import ZArith Lia ZifyBool.
From S2P Require Import Prelude.
Local Open Scope Z_scope.

(** ** stdio *)
Record file := File { content : bytes; pos : Z; eof : bool }.

Definition feof (fp : file) : bool := eof fp.
Definition ftell (fp : file) : Z := pos fp.

(** [fgetc]: the byte at the position, or EOF (-1) with the flag set. *)
Definition fgetc (fp : file) : Z * file :=
  match content fp !! Z.to_nat (pos fp) with
  | Some c => (c, File (content fp) (pos fp + 1) (eof fp))
  | None => (-1, File (content fp) (pos fp) true)
  end.

(** [fseek] to an absolute position: it clears the flag, and fails without effect
    on a position before the start. *)
Definition fseek (fp : file) (p : Z) : file :=
  if p <? 0 then fp else File (content fp) p false.

Definition fwrite (s : bytes) (fp : file) : file :=
  File (overwrite (Z.to_nat (pos fp)) s (content fp ++ replicate (Z.to_nat (pos fp) - length (content fp)) 0))
       (pos fp + Z.of_nat (length s)) (eof fp).

(** ** Characters *)
Definition checkChar (c : Z) : Z :=
  let c := i8 c in
  if c =? 127 then 63
  else if ((32 <=? c) && (c <? 127)) || (c =? 10) || (c =? 9) || (c =? 13) then c
  else 63.

(** What a handle method gives Lua: nothing (nil), a string or a number. *)
Inductive lua_ret := RNil | RString (s : bytes) | RInteger (n : Z).

Section Handle.
Variable uninit : Z.

(** The C string in a buffer whose last byte is the uninitialised one. *)
Definition unterminated (s : bytes) : option bytes := if uninit =? 0 then Some (cstr s) else None.

(** [for (i = 0; !feof(fp) && i < size; i++) retval[i] = checkChar(fgetc(fp));] *)
Fixpoint read_chars (n : nat) (fp : file) : bytes * file :=
  match n with
  | O => ([], fp)
  | S n =>
      if feof fp then ([], fp)
      else let '(c, fp) := fgetc fp in
           let '(s, fp) := read_chars n fp in (checkChar c :: s, fp)
  end.

(** The same loop without the test of feof. *)
Fixpoint get_chars (n : nat) (fp : file) : bytes * file :=
  match n with
  | O => ([], fp)
  | S n => let '(c, fp) := fgetc fp in let '(s, fp) := get_chars n fp in (checkChar c :: s, fp)
  end.

Definition handle_readAll (fp : file) : lua_ret * file :=
  if feof fp then (RNil, fp)
  else
    let p := ftell fp in
    let fp := fseek fp (Z.of_nat (length (content fp))) in
    let size := ftell fp - p in
    let fp := fseek fp p in
    let '(s, fp) := read_chars (Z.to_nat size) fp in
    (* the buffer was cleared: the rest of it is NUL *)
    (RString (cstr (s ++ replicate (Z.to_nat size + 1 - length s) 0)), fp).

(** [while (fgetc(fp) != '\n' && !feof(fp)) size++;] *)
Fixpoint line_size (fuel : nat) (fp : file) (size : Z) : option (Z * file) :=
  match fuel with
  | O => None
  | S fuel =>
      let '(c, fp) := fgetc fp in
      if negb (c =? 10) && negb (feof fp) then line_size fuel fp (size + 1) else Some (size, fp)
  end.

Definition handle_readLine (fp : file) : option (lua_ret * file) :=
  if feof fp then Some (RNil, fp)
  else
    '(size, fp) ← line_size (S (length (content fp))) fp 0;
    let fp := fseek fp (ftell fp + (0 - size - 1)) in
    let '(s, fp) := get_chars (Z.to_nat size) fp in
    let '(_, fp) := fgetc fp in
    s ← unterminated s;
    Some (RString s, fp).

Definition handle_readChar (fp : file) : option (lua_ret * file) :=
  if feof fp then Some (RNil, fp)
  else
    let '(c, fp) := fgetc fp in
    s ← unterminated [checkChar c];
    Some (RString s, fp).

Definition handle_readByte (fp : file) : lua_ret * file :=
  if feof fp then (RNil, fp)
  else let '(c, fp) := fgetc fp in (RInteger (i8 c), fp).

(** The Lua string arrives as a C string: it ends at its first NUL. *)
Definition handle_writeString (str : bytes) (fp : file) : file := fwrite (cstr str) fp.
Definition handle_writeLine (str : bytes) (fp : file) : file := fwrite [10] (fwrite (cstr str) fp).
Definition handle_writeByte (n : Z) (fp : file) : file := fwrite [u8 (Z.land n 0xFF)] fp.
Definition handle_flush (fp : file) : file := fp.

(** ** Lemmas on the stream *)
Definition file_ok (fp : file) : Prop := Forall is_byte (content fp) /\ 0 <= pos fp <= Z.of_nat (length (content fp)).

Lemma checkChar_nonzero c : checkChar c <> 0.
Proof. unfold checkChar. repeat case_match; lia. Qed.

Lemma cstr_checkChar l : cstr (checkChar <$> l) = checkChar <$> l.
Proof. apply cstr_id. intros (c & Hc & _)%list_elem_of_fmap. by apply (checkChar_nonzero c). Qed.

Lemma fgetc_some fp c : content fp !! Z.to_nat (pos fp) = Some c -> fgetc fp = (c, File (content fp) (pos fp + 1) (eof fp)).
Proof. unfold fgetc. by intros ->. Qed.

Lemma get_chars_spec n fp : 0 <= pos fp -> pos fp + Z.of_nat n <= Z.of_nat (length (content fp)) ->
  get_chars n fp = (checkChar <$> slice (Z.to_nat (pos fp)) n (content fp), File (content fp) (pos fp + Z.of_nat n) (eof fp)).
Proof.
  revert fp. induction n as [|n IH]; intros [l p e] Hp Hn; cbn [get_chars content pos eof] in *.
  - unfold slice. rewrite take_0. by rewrite Z.add_0_r.
  - destruct (lookup_lt_is_Some_2 l (Z.to_nat p)) as [c Hc]; [lia|].
    rewrite (fgetc_some (File l p e) c Hc). cbn [content pos eof]. rewrite IH by (cbn [content pos eof]; lia). cbn [content pos eof].
    unfold slice. rewrite (drop_S l c (Z.to_nat p)) by done. cbn [take fmap list_fmap].
    replace (Z.to_nat (p + 1)) with (S (Z.to_nat p)) by lia. f_equal. f_equal. lia.
Qed.

Lemma read_chars_get n fp : eof fp = false -> 0 <= pos fp -> pos fp + Z.of_nat n <= Z.of_nat (length (content fp)) ->
  read_chars n fp = get_chars n fp.
Proof.
  revert fp. induction n as [|n IH]; intros [l p e] He Hp Hn; cbn [read_chars get_chars feof content pos eof] in *; [done|].
  rewrite He. destruct (lookup_lt_is_Some_2 l (Z.to_nat p)) as [c Hc]; [lia|].
  rewrite (fgetc_some (File l p false) c Hc). cbn [content pos eof]. by rewrite IH by (cbn [content pos eof]; done || lia).
Qed.

(** The rest of the current line, and what is left after it. *)
Fixpoint line_of (l : bytes) : bytes :=
  match l with [] => [] | c :: l => if c =? 10 then [] else c :: line_of l end.

Lemma line_size_spec fuel l p size :
  0 <= p <= Z.of_nat (length l) -> (length l - Z.to_nat p < fuel)%nat ->
  let n := length (line_of (drop (Z.to_nat p) l)) in
  line_size fuel (File l p false) size =
    Some (size + Z.of_nat n,
          if (n <? length l - Z.to_nat p)%nat then File l (p + Z.of_nat n + 1) false
          else File l (Z.of_nat (length l)) true).
Proof.
  revert p size. induction fuel as [|fuel IH]; intros p size Hp Hf; [lia|]. cbv zeta. cbn [line_size].
  destruct (decide (p = Z.of_nat (length l))) as [->|Hne].
  - unfold fgetc. cbn [content pos]. rewrite lookup_ge_None_2 by lia. cbn [feof eof negb andb].
    rewrite drop_ge by lia. cbn [line_of length]. rewrite (proj2 (Nat.ltb_ge _ _)) by lia. by rewrite Z.add_0_r.
  - destruct (lookup_lt_is_Some_2 l (Z.to_nat p)) as [c Hc]; [lia|].
    rewrite (fgetc_some (File l p false) c Hc). cbn [content pos eof feof]. rewrite andb_true_r.
    rewrite (drop_S l c (Z.to_nat p)) by done. cbn [line_of]. destruct (Z.eqb_spec c 10) as [->|Hc10]; cbn [negb].
    + cbn [length]. rewrite (proj2 (Nat.ltb_lt _ _)) by lia. by rewrite !Z.add_0_r.
    + rewrite IH by lia. cbn [length]. replace (Z.to_nat (p + 1)) with (S (Z.to_nat p)) by lia.
      f_equal. f_equal; [lia|]. set (n := length (line_of (drop (S (Z.to_nat p)) l))).
      destruct (Nat.ltb_spec n (length l - S (Z.to_nat p))), (Nat.ltb_spec (S n) (length l - Z.to_nat p)); try lia; [|done].
      f_equal. lia.
Qed.

Lemma line_of_prefix l : take (length (line_of l)) l = line_of l.
Proof. induction l as [|c l IH]; [done|]. simpl. destruct (c =? 10); simpl; [done|]. by rewrite IH. Qed.

Lemma line_of_lt l : (length (line_of l) < length l)%nat <-> 10 ∈ l.
Proof.
  induction l as [|c l IH]; simpl; [rewrite elem_of_nil; lia|]. rewrite elem_of_cons.
  destruct (Z.eqb_spec c 10) as [->|Hne]; simpl; [split; [by left|lia]|].
  split; [intros H; right; apply IH; lia|intros [?|H]; [lia|]; apply IH in H; lia].
Qed.

(** [readAll] returns everything from the position on, with every character that
    is not printable ASCII, a newline, a tab or a carriage return shown as a
    question mark, and leaves the handle at the end of the file. *)
Theorem readAll_rest (fp : file) :
  file_ok fp -> eof fp = false ->
  handle_readAll fp = (RString (checkChar <$> drop (Z.to_nat (pos fp)) (content fp)),
                       File (content fp) (Z.of_nat (length (content fp))) false).
Proof.
  destruct fp as [l p e]. intros [_ Hp] He. cbn [content pos eof] in *. unfold handle_readAll. cbn [feof eof ftell pos content].
  rewrite He. unfold fseek. cbn [content pos].
  rewrite (proj2 (Z.ltb_ge (Z.of_nat (length l)) 0)) by lia. cbn [pos content].
  rewrite (proj2 (Z.ltb_ge p 0)) by lia. unfold ftell. cbn [pos].
  rewrite read_chars_get by (cbn [content pos eof]; done || lia). rewrite get_chars_spec by (cbn [content pos eof]; lia). cbn [content pos eof].
  unfold slice. rewrite take_ge by (rewrite length_drop; lia).
  f_equal; [f_equal|f_equal; lia].
  rewrite length_fmap, length_drop. replace (_ + 1 - _)%nat with 1%nat by lia. simpl.
  apply cstr_terminated. intros (c & Hc & _)%list_elem_of_fmap. by apply (checkChar_nonzero c).
Qed.

(** [readLine] before a newline returns the line without it (characters shown as
    by [readAll]) and moves past the newline, provided the byte that [malloc] left
    where the terminator belongs is zero; otherwise it reads past its buffer. *)
Theorem readLine_line (fp : file) :
  file_ok fp -> eof fp = false -> 10 ∈ drop (Z.to_nat (pos fp)) (content fp) ->
  let line := line_of (drop (Z.to_nat (pos fp)) (content fp)) in
  handle_readLine fp =
    if uninit =? 0
    then Some (RString (checkChar <$> line), File (content fp) (pos fp + Z.of_nat (length line) + 1) false)
    else None.
Proof.
  destruct fp as [l p e]. intros [_ Hp] He Hnl. cbn [content pos eof] in *. subst e. cbv zeta.
  unfold handle_readLine. cbn [feof eof content].
  rewrite line_size_spec by lia. cbn [mbind option_bind].
  pose proof (proj2 (line_of_lt _) Hnl) as Hlt. rewrite length_drop in Hlt.
  rewrite (proj2 (Nat.ltb_lt _ _)) by lia. set (n := length (line_of (drop (Z.to_nat p) l))) in *.
  cbn [ftell pos content]. unfold fseek. cbn [pos content].
  replace (p + Z.of_nat n + 1 + (0 - (0 + Z.of_nat n) - 1)) with p by lia.
  rewrite (proj2 (Z.ltb_ge p 0)) by lia. rewrite get_chars_spec by (cbn [content pos eof]; lia). cbn [content pos eof].
  unfold slice. replace (Z.to_nat (0 + Z.of_nat n)) with n by lia. unfold n at 2. rewrite line_of_prefix.
  destruct (lookup_lt_is_Some_2 l (Z.to_nat (p + Z.of_nat n))) as [c Hc]; [lia|].
  rewrite (fgetc_some (File l (p + Z.of_nat n) false) c Hc).
  cbn [content pos eof]. unfold unterminated. rewrite cstr_checkChar.
  destruct (uninit =? 0); [|done]. cbn [mbind option_bind]. do 3 f_equal.
Qed.

(** On a file that is not empty [readLine] never reports the end: at the end of
    the file it steps one character back and forward again, and returns an empty
    line, for ever. *)
Theorem readLine_never_ends (l : bytes) (n : nat) :
  l <> [] -> uninit = 0 ->
  Nat.iter n (fun r => '(_, fp) ← r; handle_readLine fp) (Some (RNil, File l (Z.of_nat (length l)) false)) =
    Some (if n is O then RNil else RString [], File l (Z.of_nat (length l)) false).
Proof.
  intros Hl Hu. assert (0 < length l)%nat as Hlen by (destruct l; simpl; [done|lia]).
  assert (handle_readLine (File l (Z.of_nat (length l)) false) = Some (RString [], File l (Z.of_nat (length l)) false)) as Hstep.
  { unfold handle_readLine. cbn [feof eof content]. rewrite line_size_spec by lia. cbn [mbind option_bind].
    rewrite drop_ge by lia. cbn [line_of length]. rewrite (proj2 (Nat.ltb_ge _ _)) by lia.
    cbn [ftell pos]. unfold fseek. cbn [content].
    rewrite (proj2 (Z.ltb_ge _ 0)) by lia.
    replace (Z.of_nat (length l) + (0 - (0 + Z.of_nat 0) - 1)) with (Z.of_nat (length l) - 1) by lia.
    change (Z.to_nat (0 + Z.of_nat 0)) with 0%nat. cbn [get_chars].
    destruct (lookup_lt_is_Some_2 l (Z.to_nat (Z.of_nat (length l) - 1))) as [c Hc]; [lia|].
    rewrite (fgetc_some (File l (Z.of_nat (length l) - 1) false) c Hc). cbn [content pos eof].
    unfold unterminated. rewrite Hu. rewrite (Z.sub_add 1 (Z.of_nat (length l))). reflexivity. }
  induction n as [|n IH]; [done|]. rewrite Nat.iter_succ, IH. cbn [mbind option_bind]. by rewrite Hstep.
Qed.

(** [read] in binary mode returns the byte as a signed char: bytes from 128 on
    come out negative, and the first read at the end of the file returns -1, like
    the byte 255, instead of nil. *)
Theorem readByte_signed (fp : file) :
  file_ok fp -> eof fp = false ->
  fst (handle_readByte fp) =
    match content fp !! Z.to_nat (pos fp) with
    | Some c => RInteger (if c <? 128 then c else c - 256)
    | None => RInteger (-1)
    end.
Proof.
  destruct fp as [l p e]. intros [Hl _] He. cbn [content pos eof] in *. unfold handle_readByte, fgetc. cbn [feof eof content pos].
  rewrite He. destruct (l !! Z.to_nat p) as [c|] eqn:E; [|done]. cbn [fst]. f_equal.
  pose proof (Forall_lookup_1 _ _ _ _ Hl E) as Hc. unfold is_byte in Hc. unfold swrap. change (2 ^ (8 - 1)) with 128. change (2 ^ 8) with 256.
  destruct (Z.ltb_spec c 128); [rewrite Z.mod_small by lia; lia|].
  assert ((c + 128) mod 256 = c - 128) as ->; [|lia]. symmetry. apply (Z.mod_unique _ _ 1); lia.
Qed.

End Handle.

(** ** Witnesses *)
Definition two_lines : file := File [104; 105; 10; 255] 0 false.

Lemma two_lines_ok : file_ok two_lines.
Proof. split; [repeat constructor; by compute_done|by compute_done]. Qed.

Lemma readAll_rest_witness : handle_readAll two_lines = (RString [104; 105; 10; 63], File [104; 105; 10; 255] 4 false).
Proof. rewrite (readAll_rest two_lines two_lines_ok eq_refl). reflexivity. Defined.

Lemma readLine_line_witness : handle_readLine 0 two_lines = Some (RString [104; 105], File [104; 105; 10; 255] 3 false).
Proof.
  rewrite (readLine_line 0 two_lines two_lines_ok eq_refl); [reflexivity|]. by apply (bool_decide_eq_true_1 _).
Defined.

Lemma readLine_never_ends_witness :
  Nat.iter 5 (fun r => '(_, fp) ← r; handle_readLine 0 fp) (Some (RNil, File [120] 1 false)) =
    Some (RString [], File [120] 1 false).
Proof. exact (readLine_never_ends 0 [120] 5 ltac:(discriminate) eq_refl). Defined.

Lemma readByte_signed_witness : fst (handle_readByte (File [255] 0 false)) = RInteger (-1).
Proof.
  rewrite (readByte_signed (File [255] 0 false)); [reflexivity| |reflexivity].
  split; [repeat constructor; by compute_done|by compute_done].
Defined.
