(* ===== verification/Fs.v ===== *)
(** * The fs library (src/fs.cpp)

    Path handling ([basename], [dirname], [fs_combine]) on C strings, directory
    listing, copying, and the table of methods that [fs_open] builds. The root file
    system (IncludeOS) answers [stat] and [ls]: its answers are the [dirent]
    arguments; [fopen] works on a map from paths to contents. A read or write
    outside a buffer is [None]. *)
From stdpp Require Import base list option gmap sorting.
From Stdlib Require Import ZArith Lia ZifyBool.
From S2P Require Import Prelude.
Local Open Scope Z_scope.

Definition SLASH : Z := 47.
Definition BACKSLASH : Z := 92.

(** What a library function gives Lua, or the arguments of [err]. *)
Inductive fs_result (A : Type) := Ok (a : A) | Err (path msg : bytes) (errno : Z).
Arguments Ok {A} a.
Arguments Err {A} path msg errno.

(** ** Paths *)

(** [strrchr(path, c)]: the offset of the last occurrence. *)
Fixpoint strrchr (path : bytes) (c : Z) : option nat :=
  match path with
  | [] => None
  | x :: path => match strrchr path c with
                 | Some i => Some (S i)
                 | None => if x =? c then Some 0%nat else None
                 end
  end.

(** [path[0] == c], the NUL of an empty string being no [c]. *)
Definition starts_with (path : bytes) (c : Z) : bool :=
  match path with [] => false | x :: _ => x =? c end.

Definition basename (path : bytes) : bytes :=
  match strrchr path SLASH with None => path | Some i => drop (S i) path end.

Definition dirname (path : bytes) : bytes :=
  let path := if starts_with path SLASH then tail path else path in
  match strrchr path SLASH with
  | Some i => take i path
  | None => match strrchr path BACKSLASH with Some i => take i path | None => path end
  end.

Definition fs_getName (path : bytes) : bytes := basename (cstr path).
Definition fs_getDir (path : bytes) : bytes := dirname (cstr path).

(** A write of a C string of length [n] (and its NUL) into a buffer of [size]. *)
Definition fits (n size : nat) : option unit := if (S n <=? size)%nat then Some tt else None.

Definition strip_slash (s : bytes) : bytes := if starts_with s SLASH then cstr (tail s) else cstr s.

(** [p[len - 1]]: before the string when it is empty. *)
Definition last_char (s : bytes) : option Z := last s.

Definition fs_combine (basePath localPath : bytes) : option bytes :=
  let blen := length basePath in
  let llen := length localPath in
  let size := (blen + llen + 2)%nat in
  let retval := strip_slash basePath in
  _ ← fits (length retval) size;
  c ← last_char basePath;
  let retval := if c =? SLASH then retval else retval ++ [SLASH] in
  _ ← fits (length retval) size;
  let retval := retval ++ strip_slash localPath in
  _ ← fits (length retval) size;
  c ← last_char localPath;
  if c =? SLASH then if decide (retval = []) then None else Some (take (length retval - 1) retval)
  else Some retval.

(** ** Directory entries *)
Record dirent := Dirent {
  d_valid : bool; d_dir : bool; d_file : bool; d_attrib : Z; d_size : Z; d_name : bytes }.

(** [a.name() < b.name()]: the order of std::string. *)
Fixpoint name_le (a b : bytes) : bool :=
  match a, b with
  | [], _ => true
  | _ :: _, [] => false
  | x :: a, y :: b => (x <? y) || ((x =? y) && name_le a b)
  end.

(** [std::sort] by name. *)
Definition dirent_le (a b : dirent) : Prop := name_le (d_name a) (d_name b) = true.
#[export] Instance dirent_le_dec a b : Decision (dirent_le a b).
Proof. unfold dirent_le. apply _. Defined.

(** The entries the loop skips: neither file nor directory, or hidden (the long
    name attribute 0x0F apart). *)
Definition skipped (d : dirent) : bool :=
  (negb (d_dir d) && negb (d_file d))
  || (negb (Z.land (d_attrib d) 0x0F =? 0x0F) && negb (Z.land (d_attrib d) 0x02 =? 0)).

(** The loop of [fs_list], at entry [i] with [io] entries skipped. *)
Fixpoint list_loop (entries : list dirent) (i io : Z) (t : gmap Z bytes) : gmap Z bytes :=
  match entries with
  | [] => t
  | d :: entries =>
      if skipped d then list_loop entries (i + 1) (io + 1) t
      else list_loop entries (i + 1) io (<[i - io := d_name d]> t)
  end.

Section Fs.
Variable errno : Z.

Definition fs_list (path : bytes) (d : dirent) (ls : list dirent) : fs_result (gmap Z bytes) :=
  if d_dir d then Ok (list_loop (merge_sort dirent_le ls) 0 0 ∅)
  else Err (cstr path) (bytes_of_string "Not a directory") errno.

Definition fs_exists (d : dirent) : bool := d_valid d.
Definition fs_isDir (d : dirent) : bool := d_dir d.
Definition fs_isReadOnly (path : bytes) : bool := true.
Definition fs_getDrive : bytes := bytes_of_string "hdd".
Definition fs_getSize (path : bytes) (d : dirent) : fs_result Z :=
  if d_file d then Ok (d_size d)
  else if d_dir d then Ok 0
  else Err (cstr path) (bytes_of_string "No such file") errno.
Definition fs_getFreeSpace : Z := 100000000.
Definition fs_find : gmap Z bytes := ∅.

(** The stub [mkdir] of the file: it creates nothing and succeeds. *)
Definition mkdir (path : bytes) : Z := 0.
Fixpoint recurse_mkdir (fuel : nat) (path : bytes) : option Z :=
  match fuel with
  | O => None
  | S fuel =>
      if negb (mkdir path =? 0) then
        if (errno =? 2) && negb (bool_decide (path = [SLASH])) then
          r ← recurse_mkdir fuel (dirname path);
          if negb (r =? 0) then Some 1 else Some 0
        else Some 1
      else Some 0
  end.

Definition fs_makeDir (fuel : nat) (strerror : Z -> bytes) (path : bytes) : option (fs_result unit) :=
  r ← recurse_mkdir fuel (cstr path);
  Some (if negb (r =? 0) then Err (cstr path) (strerror errno) errno else Ok tt).

(** [rename] and [unlink] of the C library, on the files of the root file system. *)
Definition fs_move (rename : bytes -> bytes -> gmap bytes bytes -> Z * gmap bytes bytes) (strerror : Z -> bytes)
    (fromPath toPath : bytes) (files : gmap bytes bytes) : fs_result unit * gmap bytes bytes :=
  let '(r, files) := rename (cstr fromPath) (cstr toPath) files in
  (if negb (r =? 0) then Err (cstr fromPath) (strerror errno) errno else Ok tt, files).

Definition fs_delete (unlink : bytes -> gmap bytes bytes -> Z * gmap bytes bytes) (strerror : Z -> bytes)
    (path : bytes) (files : gmap bytes bytes) : fs_result unit * gmap bytes bytes :=
  let '(r, files) := unlink (cstr path) files in
  (if negb (r =? 0) then Err (cstr path) (strerror errno) errno else Ok tt, files).

(** ** Copying *)

(** The open files of [fs_copy] read from [from] at offset [pos] and append to [to]. *)
Fixpoint copy_loop (fuel : nat) (from to : bytes) (pos : nat) (files : gmap bytes bytes) : option (gmap bytes bytes) :=
  match fuel with
  | O => None
  | S fuel =>
      let tmp := slice pos 1024 (default [] (files !! from)) in
      let files := <[to := default [] (files !! to) ++ tmp]> files in
      if (length tmp <? 1024)%nat then Some files else copy_loop fuel from to (pos + length tmp) files
  end.

Definition fs_copy (can_write : bytes -> bool) (fromPath toPath : bytes) (files : gmap bytes bytes)
  : option (fs_result unit * gmap bytes bytes) :=
  let from := cstr fromPath in
  let to := cstr toPath in
  match files !! from with
  | None => Some (Err from (bytes_of_string "Cannot read file") errno, files)
  | Some c =>
      if can_write to then
        files ← copy_loop (S (length c / 1024)) from to 0 (<[to := []]> files);
        Some (Ok tt, files)
      else Some (Err to (bytes_of_string "Cannot write file") errno, files)
  end.

(** ** Opening *)
Inductive handle_fn :=
  Handle_close | Handle_readAll | Handle_readLine | Handle_readChar | Handle_readByte
| Handle_writeString | Handle_writeLine | Handle_writeByte | Handle_flush.

(** [fs_open]: [fdopen] is NULL or not, [strerror] the text of [errno]. *)
Definition fs_open (fdopen : bytes -> bool) (strerror : Z -> bytes) (path mode : bytes) (d : dirent)
  : fs_result (gmap string handle_fn) :=
  let mode := cstr mode in
  if negb (d_file d) then Err (cstr path) (bytes_of_string "No such file") errno
  else if negb (fdopen mode) then Err (cstr path) (strerror errno) errno
  else
    let t : gmap string handle_fn := <["close"%string := Handle_close]> ∅ in
    if decide (mode = bytes_of_string "r") then
      let t := <["readAll"%string := Handle_readAll]> t in
      let t := <["readLine"%string := Handle_readLine]> t in
      Ok (<["read"%string := Handle_readChar]> t)
    else if bool_decide (mode = bytes_of_string "w") || bool_decide (mode = bytes_of_string "a") then
      let t := <["write"%string := Handle_writeString]> t in
      let t := <["writeLine"%string := Handle_writeLine]> t in
      Ok (<["flush"%string := Handle_flush]> t)
    else if decide (mode = bytes_of_string "rb") then
      Ok (<["read"%string := Handle_readByte]> t)
    else if decide (mode = bytes_of_string "wb") then
      let t := <["write"%string := Handle_writeByte]> t in
      Ok (<["flush"%string := Handle_flush]> t)
    else Err mode (bytes_of_string "Invalid mode") errno.
End Fs.

(** ** Path components *)

(** The names between the slashes of a path, the empty ones left out. *)
Fixpoint split_at_slash (cur : bytes) (s : bytes) : list bytes :=
  match s with
  | [] => [cur]
  | c :: s => if c =? SLASH then cur :: split_at_slash [] s else split_at_slash (cur ++ [c]) s
  end.
Definition components (s : bytes) : list bytes := filter (fun n => n <> []) (split_at_slash [] s).

Lemma split_at_slash_app cur s1 s2 :
  split_at_slash cur (s1 ++ SLASH :: s2) = split_at_slash cur s1 ++ split_at_slash [] s2.
Proof. revert cur. induction s1 as [|c s1 IH]; intros cur; simpl; [done|]. destruct (c =? SLASH); by rewrite IH. Qed.

Lemma components_app s1 s2 : components (s1 ++ SLASH :: s2) = components s1 ++ components s2.
Proof. unfold components. by rewrite split_at_slash_app, filter_app. Qed.

Lemma components_slash s : components (SLASH :: s) = components s.
Proof. apply (components_app [] s). Qed.

Lemma components_snoc s : components (s ++ [SLASH]) = components s.
Proof. rewrite components_app. apply app_nil_r. Qed.

Lemma strip_slash_eq s : 0 ∉ s -> strip_slash s = if starts_with s SLASH then tail s else s.
Proof.
  intros Hs. unfold strip_slash. rewrite !cstr_id; [done..|]. destruct s; [done|]. set_solver.
Qed.

Lemma components_strip s : 0 ∉ s -> components (strip_slash s) = components s.
Proof.
  intros Hs. rewrite strip_slash_eq by done. destruct s as [|c s]; [done|]. cbn [starts_with tail].
  destruct (Z.eqb_spec c SLASH) as [->|]; [|done]. symmetry. apply components_slash.
Qed.

Lemma strip_slash_length s : 0 ∉ s -> (length (strip_slash s) <= length s)%nat.
Proof. intros Hs. rewrite strip_slash_eq by done. destruct s; simpl; [lia|]. case_match; simpl; lia. Qed.

Lemma strip_slash_last s c : 0 ∉ s -> last s = Some c -> strip_slash s = [] \/ last (strip_slash s) = Some c.
Proof.
  intros Hs Hl. rewrite strip_slash_eq by done. destruct s as [|x s]; [done|]. cbn [starts_with tail].
  destruct (x =? SLASH); [|by right]. destruct s as [|y s]; [by left|]. right. by rewrite last_cons_cons in Hl.
Qed.

Lemma fits_within n size : (n < size)%nat -> fits n size = Some tt.
Proof. intros. unfold fits. by rewrite (proj2 (Nat.leb_le _ _)) by lia. Qed.

Lemma strip_slash_nil s c : 0 ∉ s -> last s = Some c -> strip_slash s = [] -> s = [SLASH].
Proof.
  intros Hs Hl. rewrite strip_slash_eq by done. destruct s as [|x s]; [done|]. cbn [starts_with tail].
  destruct (Z.eqb_spec x SLASH) as [->|]; [by intros ->|done].
Qed.

(** After the first half the buffer is empty or ends in a slash, with the components of the base. *)
Lemma combine_base s c : 0 ∉ s -> last s = Some c ->
  let r := if c =? SLASH then strip_slash s else strip_slash s ++ [SLASH] in
  exists q, components q = components s /\ (r = q ++ [SLASH] \/ (r = [] /\ components s = [])).
Proof.
  intros Hs Hl. cbv zeta. destruct (Z.eqb_spec c SLASH) as [->|].
  - destruct (strip_slash_last _ _ Hs Hl) as [H0|H0].
    + exists s. split; [done|]. right. split; [done|]. by rewrite <- components_strip, H0.
    + destruct (proj1 (last_Some _ _) H0) as [q Hq]. exists q. split; [|by left].
      by rewrite <- components_snoc, <- Hq, components_strip.
  - exists (strip_slash s). split; [by apply components_strip|by left].
Qed.

(** [fs.combine] of two non-empty paths without NUL bytes has the components of
    the first followed by those of the second, with every write inside the buffer;
    joining two lone slashes writes before the buffer. *)
Theorem fs_combine_components (basePath localPath : bytes) :
  0 ∉ basePath -> 0 ∉ localPath -> basePath <> [] -> localPath <> [] ->
  match fs_combine basePath localPath with
  | Some r => components r = components basePath ++ components localPath
  | None => basePath = [SLASH] /\ localPath = [SLASH]
  end.
Proof.
  intros Hb Hl Hbn Hln. unfold fs_combine, last_char.
  pose proof (strip_slash_length _ Hb) as Hbl. pose proof (strip_slash_length _ Hl) as Hll.
  rewrite fits_within by lia. cbn [mbind option_bind].
  destruct (last basePath) as [c|] eqn:Ec; [|by apply last_None in Ec]. cbn [mbind option_bind].
  set (r := if c =? SLASH then strip_slash basePath else strip_slash basePath ++ [SLASH]).
  assert (length r <= length basePath + 1)%nat as Hr.
  { unfold r. case_match; [lia|]. rewrite length_app. simpl. lia. }
  rewrite !fits_within by (rewrite ?length_app; lia). cbn [mbind option_bind].
  destruct (last localPath) as [d|] eqn:Ed; [|by apply last_None in Ed]. cbn [mbind option_bind].
  assert (components (r ++ strip_slash localPath) = components basePath ++ components localPath) as Hcomp.
  { destruct (combine_base _ _ Hb Ec) as (q & Hqc & [Hq|[Hq Hn]]); fold r in Hq; rewrite Hq.
    - rewrite <- app_assoc. simpl. by rewrite components_app, Hqc, components_strip.
    - rewrite Hn. simpl. by apply components_strip. }
  destruct (Z.eqb_spec d SLASH) as [->|]; [|done].
  case_decide as Hnil.
  - apply app_eq_nil in Hnil as [Hr0 Hl0]. split.
    + unfold r in Hr0. destruct (Z.eqb_spec c SLASH) as [->|]; [|by apply app_eq_nil in Hr0 as [_ ?]].
      by eapply strip_slash_nil.
    + by eapply strip_slash_nil.
  - destruct (exists_last Hnil) as (q & x & Hq). rewrite Hq in Hcomp |- *.
    assert (x = SLASH) as ->.
    { assert (last (r ++ strip_slash localPath) = Some SLASH) as HL; [|rewrite Hq, last_snoc in HL; by injection HL].
      destruct (strip_slash_last _ _ Hl Ed) as [H0|H0]; [|by rewrite last_app, H0].
      rewrite H0, app_nil_r in *. unfold r in Hnil |- *. destruct (Z.eqb_spec c SLASH) as [->|]; [|by rewrite last_snoc].
      destruct (strip_slash_last _ _ Hb Ec) as [H1|H1]; [by rewrite H1 in Hnil|done]. }
    rewrite length_app. simpl. rewrite Nat.add_sub, take_app_length. by rewrite <- Hcomp, components_snoc.
Qed.

(** ** Names and directories *)
Lemma strrchr_None path c : strrchr path c = None <-> c ∉ path.
Proof.
  induction path as [|x path IH]; simpl; [set_solver|]. rewrite not_elem_of_cons.
  destruct (strrchr path c); [split; [done|]; intros [_ ?]; by apply IH in H|].
  destruct (Z.eqb_spec x c); [split; [done|]; intros [? _]; congruence|]. split; [intros _; split; [congruence|by apply IH]|done].
Qed.

Lemma strrchr_Some path c i : strrchr path c = Some i ->
  path = take i path ++ c :: drop (S i) path /\ c ∉ drop (S i) path.
Proof.
  revert i. induction path as [|x path IH]; intros i Hi; simpl in *; [done|].
  destruct (strrchr path c) as [j|] eqn:E.
  - injection Hi as <-. destruct (IH j eq_refl) as [H1 H2]. split; [|done]. simpl. by f_equal.
  - destruct (Z.eqb_spec x c) as [->|]; [|done]. injection Hi as <-. split; [done|]. by apply strrchr_None.
Qed.

(** For a path with a slash (none at its start) [fs.getDir] and [fs.getName] split
    it at the last slash; for a name without slashes and backslashes [fs.getDir]
    returns the name itself, not the empty path. *)
Theorem dirname_basename (path : bytes) :
  0 ∉ path -> starts_with path SLASH = false ->
  (SLASH ∈ path -> fs_getDir path ++ SLASH :: fs_getName path = path /\ SLASH ∉ fs_getName path) /\
  (SLASH ∉ path -> BACKSLASH ∉ path -> fs_getDir path = path /\ fs_getName path = path).
Proof.
  intros H0 Hs. unfold fs_getDir, fs_getName, dirname, basename. rewrite cstr_id, Hs by done. split.
  - intros Hin. destruct (strrchr path SLASH) as [i|] eqn:E; [|by apply strrchr_None in E].
    apply strrchr_Some in E as [E1 E2]. by rewrite <- E1.
  - intros Hn1 Hn2. by rewrite (proj2 (strrchr_None _ _) Hn1), (proj2 (strrchr_None _ _) Hn2).
Qed.

(** ** Listing *)
Lemma name_le_total a b : name_le a b = true \/ name_le b a = true.
Proof.
  revert b. induction a as [|x a IH]; intros [|y b]; simpl; auto.
  destruct (Z.lt_trichotomy x y) as [H|[->|H]]; [left; lia| |right; lia].
  rewrite !Z.eqb_refl. destruct (IH b) as [->| ->]; [left|right]; lia.
Qed.

Lemma name_le_trans a b c : name_le a b = true -> name_le b c = true -> name_le a c = true.
Proof.
  revert b c. induction a as [|x a IH]; intros [|y b] [|z c]; simpl; try done. intros H1 H2.
  destruct (Z.ltb_spec x y), (Z.ltb_spec y z), (Z.ltb_spec x z), (Z.eqb_spec x y), (Z.eqb_spec y z), (Z.eqb_spec x z);
    simpl in *; try done; try lia. by apply (IH b).
Qed.

#[export] Instance dirent_le_trans : Transitive dirent_le.
Proof. intros a b c. apply name_le_trans. Qed.
#[export] Instance dirent_le_total : Total dirent_le.
Proof. intros a b. apply name_le_total. Qed.

Definition listed (d : dirent) : Prop := skipped d = false.
#[export] Instance listed_dec d : Decision (listed d).
Proof. unfold listed. apply _. Defined.

Lemma list_loop_below l i io t k : k < i - io -> list_loop l i io t !! k = t !! k.
Proof.
  revert i io t. induction l as [|d l IH]; intros i io t Hk; [done|]. cbn [list_loop].
  destruct (skipped d); rewrite IH by lia; [done|]. by rewrite lookup_insert_ne by lia.
Qed.

Lemma list_loop_spec l i io t k : i - io <= k ->
  list_loop l i io t !! k =
    match filter listed l !! Z.to_nat (k - (i - io)) with Some d => Some (d_name d) | None => t !! k end.
Proof.
  revert i io t. induction l as [|d l IH]; intros i io t Hk; [done|]. cbn [list_loop].
  rewrite filter_cons. destruct (decide (listed d)) as [Hd|Hd]; unfold listed in Hd.
  2: { rewrite (not_false_is_true _ Hd), IH by lia. by replace (k - (i + 1 - (io + 1))) with (k - (i - io)) by lia. }
  - rewrite Hd. destruct (decide (k = i - io)) as [->|Hne].
    + rewrite Z.sub_diag. simpl. rewrite (list_loop_below l (i + 1) io _ (i - io)) by lia. by rewrite lookup_insert_eq.
    + rewrite IH by lia. replace (Z.to_nat (k - (i - io))) with (S (Z.to_nat (k - (i + 1 - io)))) by lia. simpl.
      by rewrite lookup_insert_ne by lia.
Qed.

Lemma sorted_filter {A} (R : relation A) (P : A -> Prop) `{!forall x, Decision (P x)} l :
  StronglySorted R l -> StronglySorted R (filter P l).
Proof.
  induction 1 as [|x l Hl IH Hx]; [constructor|]. rewrite filter_cons. case_decide; [|done].
  constructor; [done|]. rewrite Forall_forall in Hx |- *. intros y [_ ?]%list_elem_of_filter. auto.
Qed.

(** [fs.list] gives the visible entries in the order of their names, under the
    keys from 0 (and not 1) to their number less one. *)
Theorem fs_list_sorted (errno : Z) (path : bytes) (d : dirent) (ls : list dirent) :
  d_dir d = true ->
  exists l t, fs_list errno path d ls = Ok t /\ l ≡ₚ filter listed ls /\ StronglySorted dirent_le l /\
    (forall k : nat, t !! Z.of_nat k = d_name <$> l !! k) /\ (forall k, k < 0 -> t !! k = None).
Proof.
  intros Hd. unfold fs_list. rewrite Hd.
  exists (filter listed (merge_sort dirent_le ls)), (list_loop (merge_sort dirent_le ls) 0 0 ∅).
  split; [done|]. split; [by rewrite merge_sort_Permutation|]. split; [|split].
  - apply sorted_filter, StronglySorted_merge_sort; apply _.
  - intros k. rewrite list_loop_spec by lia. replace (Z.to_nat _) with k by lia. by destruct (_ !! k).
  - intros k Hk. by rewrite list_loop_below by lia.
Qed.

(** ** Copying *)
Lemma copy_loop_spec fuel from to c pos files :
  from <> to -> files !! from = Some c -> files !! to = Some (take pos c) -> (pos <= length c)%nat ->
  (length c - pos < fuel * 1024)%nat ->
  copy_loop fuel from to pos files = Some (<[to := c]> files).
Proof.
  intros Hne. revert pos files. induction fuel as [|fuel IH]; intros pos files Hf Ht Hpos Hfuel; [lia|].
  cbn [copy_loop]. rewrite Hf, Ht. cbn [default id]. unfold slice.
  assert (take pos c ++ take 1024 (drop pos c) = take (pos + 1024) c) as -> by (by rewrite take_take_drop).
  rewrite length_take, length_drop. destruct (Nat.ltb_spec (1024 `min` (length c - pos)) 1024) as [Hl|Hl].
  - by rewrite take_ge by lia.
  - rewrite IH; [by rewrite insert_insert_eq| | |lia|lia].
    + by rewrite lookup_insert_ne.
    + rewrite lookup_insert_eq. do 2 f_equal. lia.
Qed.

(** [fs.copy] gives the target exactly the content of the source and touches no
    other file; copying a file onto itself empties it. *)
Theorem fs_copy_contents (errno : Z) (can_write : bytes -> bool) (from to c : bytes) (files : gmap bytes bytes) :
  0 ∉ from -> 0 ∉ to -> files !! from = Some c -> can_write to = true ->
  fs_copy errno can_write from to files =
    Some (Ok tt, <[to := if decide (from = to) then [] else c]> files).
Proof.
  intros H0 H1 Hf Hw. unfold fs_copy. rewrite !cstr_id, Hf, Hw by done. case_decide as Heq.
  - subst to. cbn [copy_loop]. rewrite lookup_insert_eq. cbn [default id slice]. unfold slice. rewrite drop_nil, take_nil.
    cbn [length Nat.ltb Nat.leb mbind option_bind app]. by rewrite insert_insert_eq.
  - rewrite (copy_loop_spec _ from to c); [by rewrite insert_insert_eq|done|by rewrite lookup_insert_ne|by rewrite lookup_insert_eq|lia|].
    rewrite Nat.sub_0_r. pose proof (Nat.div_mod_eq (length c) 1024). pose proof (Nat.mod_upper_bound (length c) 1024). lia.
Qed.

(** ** Opening *)

(** [fs.open] of an existing file succeeds exactly for the modes r, w, a, rb and wb;
    every handle closes, reads exactly in the modes r and rb, and writes exactly in
    the others, by characters in text modes and by bytes in binary modes. *)
Theorem fs_open_modes (errno : Z) (fdopen : bytes -> bool) (strerror : Z -> bytes) (path mode : bytes) (d : dirent) :
  0 ∉ mode -> d_file d = true -> fdopen mode = true ->
  let reads := bool_decide (mode = bytes_of_string "r") || bool_decide (mode = bytes_of_string "rb") in
  let writes := bool_decide (mode ∈ bytes_of_string <$> ["w"; "a"; "wb"]%string) in
  match fs_open errno fdopen strerror path mode d with
  | Ok t => reads || writes = true /\ t !! "close"%string = Some Handle_close /\
      t !! "read"%string = (if reads then Some (if bool_decide (mode = bytes_of_string "r") then Handle_readChar else Handle_readByte) else None) /\
      t !! "write"%string = (if writes then Some (if bool_decide (mode = bytes_of_string "wb") then Handle_writeByte else Handle_writeString) else None) /\
      (is_Some (t !! "flush"%string) <-> writes = true)
  | Err p _ _ => reads || writes = false /\ p = mode
  end.
Proof.
  intros Hm Hd Hf. cbv zeta. unfold fs_open. rewrite (cstr_id mode) by done. rewrite Hd, Hf. cbn [negb].
  destruct (decide (mode = bytes_of_string "r")) as [->|H1]; [vm_compute; naive_solver|].
  destruct (decide (mode = bytes_of_string "w")) as [->|H2]; [vm_compute; naive_solver|].
  destruct (decide (mode = bytes_of_string "a")) as [->|H3]; [vm_compute; naive_solver|].
  destruct (decide (mode = bytes_of_string "rb")) as [->|H4]; [vm_compute; naive_solver|].
  destruct (decide (mode = bytes_of_string "wb")) as [->|H5]; [vm_compute; naive_solver|].
  rewrite !(bool_decide_eq_false_2 (mode = _)) by done. cbn [orb].
  split; [|done]. apply bool_decide_eq_false_2. cbn [fmap list_fmap]. set_solver.
Qed.

(** ** Witnesses *)
Lemma fs_combine_components_witness :
  components [97; 47; 98; 47; 99] =
    components [47; 97; 47] ++ components [98; 47; 99; 47].
Proof.
  refine (fs_combine_components [47; 97; 47] [98; 47; 99; 47] _ _ _ _);
    try (intros Hin; repeat (apply elem_of_cons in Hin as [?|Hin]; [lia|]); by apply elem_of_nil in Hin); discriminate.
Defined.

Lemma dirname_basename_witness :
  fs_getDir (bytes_of_string "rom/apis/io") = bytes_of_string "rom/apis" /\
  fs_getDir (bytes_of_string "startup") = bytes_of_string "startup".
Proof.
  split; [reflexivity|].
  destruct (dirname_basename (bytes_of_string "startup")) as [_ H];
    [apply (bool_decide_eq_true_1 _); reflexivity|reflexivity|].
  apply H; apply (bool_decide_eq_true_1 _); reflexivity.
Defined.

Definition plain_file (name : string) : dirent := Dirent true false true 0 10 (bytes_of_string name).
Definition root_dir : dirent := Dirent true true false 0x10 0 [].

Lemma fs_list_sorted_witness :
  exists l t, fs_list 0 [47] root_dir [plain_file "rom"; plain_file "bios.lua"] = Ok t /\
    l ≡ₚ [plain_file "rom"; plain_file "bios.lua"] /\ StronglySorted dirent_le l /\
    (forall k : nat, t !! Z.of_nat k = d_name <$> l !! k) /\ (forall k, k < 0 -> t !! k = None).
Proof. exact (fs_list_sorted 0 [47] root_dir [plain_file "rom"; plain_file "bios.lua"] eq_refl). Defined.

Lemma fs_copy_contents_witness :
  fs_copy 0 (fun _ => true) [97] [98] (<[[97] := [1; 2; 3]]> ∅) =
    Some (Ok tt, <[[98] := [1; 2; 3]]> (<[[97] := [1; 2; 3]]> ∅)).
Proof.
  refine (fs_copy_contents 0 (fun _ => true) [97] [98] [1; 2; 3] (<[[97] := [1; 2; 3]]> ∅) _ _ _ eq_refl).
  - by apply (bool_decide_eq_true_1 _).
  - by apply (bool_decide_eq_true_1 _).
  - reflexivity.
Defined.

Lemma fs_open_modes_witness :
  match fs_open 0 (fun _ => true) (fun _ => []) [97] (bytes_of_string "rb") (plain_file "a") with
  | Ok t => t !! "read"%string = Some Handle_readByte
  | Err _ _ _ => False
  end.
Proof.
  pose proof (fs_open_modes 0 (fun _ => true) (fun _ => []) [97] (bytes_of_string "rb") (plain_file "a")) as H.
  cbv zeta in H. specialize (H ltac:(apply (bool_decide_eq_true_1 _); reflexivity) eq_refl eq_refl).
  vm_compute in H. vm_compute. exact (proj1 (proj2 (proj2 H))).
Defined.
