(* ===== verification/LObject.v ===== *)
(** * Lua values (src/lua/lobject.h, src/lua/lobject.c)

    A [tvalue] is a [TValue]: a tag with its payload. A [lua_Number] is its
    64-bit IEEE-754 pattern, since the table code hashes the pattern; only the
    comparison and the two conversions to and from [int] are needed, and they are
    written out on patterns. A collectable value is its tag and its address. The
    second half holds the integer helpers of lobject.c ("floating point bytes"
    of the instructions, binary logarithm) and the chunk names of error
    messages. *)
From stdpp Require Import base list strings option.
From Stdlib Require Import ZArith Lia.
From S2P Require Import Prelude.
Local Open Scope Z_scope.

(** ** Numbers *)
Definition num_sign : Z := 2 ^ 63.
Definition num_inf : Z := 0x7FF0000000000000.

(** [luai_numisnan] *)
Definition luai_numisnan (n : Z) : bool := num_inf <? n mod num_sign.

(** [luai_numeq]: IEEE equality, false on NaN, true on the two zeros. *)
Definition luai_numeq (a b : Z) : bool :=
  negb (luai_numisnan a) && negb (luai_numisnan b) &&
  ((a =? b) || ((a mod num_sign =? 0) && (b mod num_sign =? 0))).

(** [cast_num]: the double of an int (exact). *)
Definition cast_num (k : Z) : Z :=
  if k =? 0 then 0 else
  let m := Z.abs k in
  let e := Z.log2 m in
  (if k <? 0 then num_sign else 0) + (e + 1023) * 2 ^ 52 + (m * 2 ^ (52 - e) - 2 ^ 52).

(** [lua_number2int]: [(int)(d)], truncation; out of range the conversion
    instruction gives [INT_MIN]. *)
Definition lua_number2int (n : Z) : Z :=
  let e := (n / 2 ^ 52) mod 2048 in
  let m := n mod 2 ^ 52 + 2 ^ 52 in
  if e <? 1023 then 0
  else if 1054 <=? e then INT_MIN
  else let v := m / 2 ^ (1075 - e) in
       if num_sign <=? n then - v else v.

(** ** Tagged values *)
Inductive gctype := GString | GTable | GFunction | GUserdata | GThread.

#[export] Instance gctype_eq_dec : EqDecision gctype.
Proof. solve_decision. Defined.

(** [TDead p] is the tag [LUA_TDEADKEY], which the collector gives to keys only. *)
Inductive tvalue :=
  | TNil
  | TBoolean (b : bool)
  | TLightUserData (p : Z)
  | TNumber (n : Z)
  | TGC (ty : gctype) (p : Z)
  | TDead (p : Z).

#[export] Instance tvalue_eq_dec : EqDecision tvalue.
Proof. solve_decision. Defined.

Definition ttisnil (o : tvalue) : bool := match o with TNil => true | _ => false end.
Definition l_isfalse (o : tvalue) : bool := match o with TNil | TBoolean false => true | _ => false end.
Definition iscollectable (o : tvalue) : bool := match o with TGC _ _ | TDead _ => true | _ => false end.

Definition luaO_rawequalObj (t1 t2 : tvalue) : bool :=
  match t1, t2 with
  | TNil, TNil => true
  | TNumber a, TNumber b => luai_numeq a b
  | TBoolean a, TBoolean b => Bool.eqb a b
  | TLightUserData p, TLightUserData q => p =? q
  | TGC ty p, TGC ty' q => bool_decide (ty = ty') && (p =? q)
  | TDead p, TDead q => p =? q
  | _, _ => false
  end.

(** ** Integer helpers *)
Fixpoint int2fb_loop (fuel : nat) (x e : Z) : option (Z * Z) :=
  if 16 <=? x then
    match fuel with
    | O => None
    | S fuel => int2fb_loop fuel (Z.shiftr (u32 (x + 1)) 1) (e + 1)
    end
  else Some (x, e).

Definition luaO_int2fb (x : Z) : option Z :=
  '(x, e) ← int2fb_loop 32 x 0;
  Some (if x <? 8 then x else Z.lor (Z.shiftl (e + 1) 3) (x - 8)).

Definition luaO_fb2int (x : Z) : Z :=
  let e := Z.land (Z.shiftr x 3) 31 in
  if e =? 0 then x else Z.shiftl (Z.land x 7 + 8) (e - 1).

(** The table [log_2] of luaO_log2: entry [x] is the position of the highest bit
    plus one. *)
Definition log_2 : list Z := 0 ::
  replicate 1 1 ++ replicate 2 2 ++ replicate 4 3 ++ replicate 8 4 ++ replicate 16 5 ++
  replicate 32 6 ++ replicate 64 7 ++ replicate 128 8.

Fixpoint log2_loop (fuel : nat) (l x : Z) : option Z :=
  if 256 <=? x then
    match fuel with O => None | S fuel => log2_loop fuel (l + 8) (Z.shiftr x 8) end
  else v ← log_2 !! Z.to_nat x; Some (l + v).

Definition luaO_log2 (x : Z) : option Z := log2_loop 4 (-1) x.

(** [ceillog2(x)] of lobject.h; the callers pass [x >= 1]. *)
Definition ceillog2 (x : Z) : option Z := l ← luaO_log2 (u32 (x - 1)); Some (l + 1).

(** ** Chunk names

    [luaO_chunkid source bufflen] is what the function leaves at the start of
    [out], the terminating NUL included; [source] is the C string without its
    NUL. The subtraction from [bufflen] is on [size_t]. *)
Definition strncpy (src : bytes) (n : nat) : bytes := take n src ++ replicate (n - length src) 0.

Fixpoint strcspn (s reject : bytes) : nat :=
  match s with
  | [] => 0
  | c :: s => if bool_decide (c ∈ reject) then 0 else S (strcspn s reject)
  end.

Definition luaO_chunkid (source : bytes) (bufflen : Z) : bytes :=
  match source with
  | 61 :: rest => <[Z.to_nat (bufflen - 1) := 0]> (strncpy rest (Z.to_nat bufflen))
  | 64 :: source =>
      let bufflen := u64 (bufflen - 8) in
      let l := Z.of_nat (length source) in
      (if bufflen <? l then bytes_of_string "..." ++ drop (Z.to_nat (l - bufflen)) source
       else source) ++ [0]
  | _ =>
      let len := Z.of_nat (strcspn source [10; 13]) in
      let bufflen := u64 (bufflen - 17) in
      let len := if bufflen <? len then bufflen else len in
      bytes_of_string "[string " ++ [34] ++
      (if Z.to_nat len <? length source
       then take (Z.to_nat len) source ++ bytes_of_string "..."
       else source)%nat ++
      [34] ++ bytes_of_string "]" ++ [0]
  end.

(** ** Lemmas on numbers *)
Lemma luai_numeq_refl n : luai_numisnan n = false -> luai_numeq n n = true.
Proof. intros H. unfold luai_numeq. by rewrite H, Z.eqb_refl. Qed.

Lemma luai_numeq_nan a b : luai_numeq a b = true -> luai_numisnan a = false /\ luai_numisnan b = false.
Proof. unfold luai_numeq. destruct (luai_numisnan a), (luai_numisnan b); done. Qed.

Lemma luai_numeq_sym a b : luai_numeq a b = luai_numeq b a.
Proof. unfold luai_numeq. rewrite (Z.eqb_sym a b). destruct (luai_numisnan a), (luai_numisnan b), (b =? a), (a mod num_sign =? 0), (b mod num_sign =? 0); done. Qed.

Lemma luai_numeq_trans a b c : luai_numeq a b = true -> luai_numeq b c = true -> luai_numeq a c = true.
Proof.
  unfold luai_numeq. destruct (luai_numisnan a), (luai_numisnan b), (luai_numisnan c); simpl; try done.
  intros H1 H2. destruct (Z.eqb_spec a b), (Z.eqb_spec b c); subst; simpl in *; rewrite ?Z.eqb_refl; try done.
  - by rewrite H2, orb_true_r.
  - by rewrite H1, orb_true_r.
  - apply andb_true_iff in H1 as [-> _], H2 as [_ ->]. apply orb_true_r.
Qed.

(** A pattern in range: equal numbers have the same pattern or are the zeros. *)
Lemma luai_numeq_cases a b :
  luai_numeq a b = true -> a = b \/ (a mod num_sign = 0 /\ b mod num_sign = 0).
Proof.
  unfold luai_numeq. intros H. apply andb_true_iff in H as [_ H]. apply orb_true_iff in H as [H|H].
  - left. lia.
  - right. lia.
Qed.

Lemma zero_number2int a : a mod num_sign = 0 -> lua_number2int a = 0.
Proof.
  intros H. unfold lua_number2int. unfold num_sign in H.
  apply Z.mod_divide in H as [q ->]; [|lia].
  replace (q * 2 ^ 63) with (q * 2048 * 2 ^ 52) by lia.
  rewrite Z.div_mul by lia. replace (q * 2048) with (0 + q * 2048) by lia.
  rewrite Z.mod_add by lia. done.
Qed.

Lemma number2int_numeq a b : luai_numeq a b = true -> lua_number2int a = lua_number2int b.
Proof.
  intros H. apply luai_numeq_cases in H as [->|[Ha Hb]]; [done|]. by rewrite !zero_number2int.
Qed.

(** The pattern of a non-zero int, field by field. *)
Lemma cast_num_fields k :
  INT_MIN <= k <= INT_MAX -> k <> 0 ->
  let m := Z.abs k in let e := Z.log2 m in
  0 <= e <= 31 /\ 2 ^ e <= m < 2 ^ (e + 1) /\
  0 <= m * 2 ^ (52 - e) - 2 ^ 52 < 2 ^ 52 /\ m * 2 ^ (52 - e) / 2 ^ (52 - e) = m.
Proof.
  intros Hk Hk0. cbv zeta. unfold INT_MIN, INT_MAX in Hk.
  assert (0 < Z.abs k <= 2 ^ 31) as Hm by lia.
  pose proof (Z.log2_nonneg (Z.abs k)). pose proof (Z.log2_spec (Z.abs k) ltac:(lia)) as Hs.
  pose proof (Z.log2_le_mono (Z.abs k) (2 ^ 31) ltac:(lia)) as Hle. rewrite Z.log2_pow2 in Hle by lia.
  set (m := Z.abs k) in *. set (e := Z.log2 m) in *. unfold Z.succ in Hs.
  assert (2 ^ e * 2 ^ (52 - e) = 2 ^ 52) as E1 by (rewrite <- Z.pow_add_r by lia; f_equal; lia).
  assert (2 ^ (e + 1) * 2 ^ (52 - e) = 2 * 2 ^ 52) as E2.
  { rewrite Z.pow_add_r by lia. change (2 ^ 1) with 2. nia. }
  pose proof (Z.pow_pos_nonneg 2 (52 - e)). split; [lia|]. split; [lia|]. split; [nia|].
  apply Z.div_mul. lia.
Qed.

Lemma number2int_cast k : INT_MIN <= k <= INT_MAX -> lua_number2int (cast_num k) = k.
Proof.
  intros Hk. destruct (Z.eqb_spec k 0) as [->|Hk0]; [done|].
  destruct (cast_num_fields k Hk Hk0) as (He & Hm & Hf & Hd).
  unfold cast_num. rewrite (proj2 (Z.eqb_neq k 0)) by done.
  set (m := Z.abs k) in *. set (e := Z.log2 m) in *. set (f := m * 2 ^ (52 - e) - 2 ^ 52) in *.
  set (s := if k <? 0 then num_sign else 0).
  assert (exists q, s = q * 2048 * 2 ^ 52 /\ 0 <= q) as [q [Hq Hq0]].
  { unfold s, num_sign. destruct (k <? 0); [exists 1|exists 0]; lia. }
  unfold lua_number2int.
  assert ((s + (e + 1023) * 2 ^ 52 + f) / 2 ^ 52 = q * 2048 + (e + 1023)) as ->.
  { symmetry. apply (Z.div_unique _ _ _ f); lia. }
  assert ((s + (e + 1023) * 2 ^ 52 + f) mod 2 ^ 52 = f) as ->.
  { symmetry. apply (Z.mod_unique _ _ (q * 2048 + (e + 1023))); lia. }
  assert ((q * 2048 + (e + 1023)) mod 2048 = e + 1023) as ->.
  { symmetry. apply (Z.mod_unique _ _ q); lia. }
  rewrite (proj2 (Z.ltb_ge (e + 1023) 1023)) by lia.
  destruct (Z.leb_spec 1054 (e + 1023)).
  - assert (e = 31) as E by lia. rewrite E in Hm. unfold INT_MIN, INT_MAX in *. lia.
  - replace (1075 - (e + 1023)) with (52 - e) by lia.
    unfold f. replace (m * 2 ^ (52 - e) - 2 ^ 52 + 2 ^ 52) with (m * 2 ^ (52 - e)) by lia. rewrite Hd.
    assert ((e + 1023) * 2 ^ 52 + f < 2 ^ 63).
    { assert ((e + 1023) * 2 ^ 52 <= 1053 * 2 ^ 52) by nia. lia. }
    unfold num_sign, m, s, num_sign in *. destruct (Z.ltb_spec k 0); match goal with |- context [?a <=? ?b] => destruct (Z.leb_spec a b) end; lia.
Qed.

Lemma cast_num_not_nan k : INT_MIN <= k <= INT_MAX -> luai_numisnan (cast_num k) = false.
Proof.
  intros Hk. destruct (Z.eqb_spec k 0) as [->|Hk0]; [done|].
  destruct (cast_num_fields k Hk Hk0) as (He & Hm & Hf & Hd).
  unfold cast_num, luai_numisnan. rewrite (proj2 (Z.eqb_neq k 0)) by done.
  set (e := Z.log2 (Z.abs k)) in *. set (f := Z.abs k * 2 ^ (52 - e) - 2 ^ 52) in *.
  assert (((if k <? 0 then num_sign else 0) + (e + 1023) * 2 ^ 52 + f) mod num_sign = (e + 1023) * 2 ^ 52 + f) as ->.
  { assert ((e + 1023) * 2 ^ 52 <= 1054 * 2 ^ 52) by nia. unfold num_sign. symmetry.
    destruct (k <? 0); [apply (Z.mod_unique _ _ 1)|apply (Z.mod_unique _ _ 0)]; lia. }
  unfold num_inf. apply Z.ltb_ge. assert ((e + 1023) * 2 ^ 52 <= 1054 * 2 ^ 52) by nia. lia.
Qed.

Lemma number2int_range n : INT_MIN <= lua_number2int n <= INT_MAX.
Proof.
  unfold lua_number2int, INT_MIN, INT_MAX. set (e := (n / 2 ^ 52) mod 2048).
  pose proof (Z.mod_pos_bound n (2 ^ 52) ltac:(lia)).
  destruct (Z.ltb_spec e 1023); [lia|]. destruct (Z.leb_spec 1054 e); [lia|].
  assert (0 <= (n mod 2 ^ 52 + 2 ^ 52) / 2 ^ (1075 - e) < 2 ^ 31) as Hv.
  { split; [apply Z.div_pos; [lia|apply Z.pow_pos_nonneg; lia]|].
    apply Z.div_lt_upper_bound; [apply Z.pow_pos_nonneg; lia|].
    assert (2 ^ 22 <= 2 ^ (1075 - e)) by (apply Z.pow_le_mono_r; lia). nia. }
  destruct (_ <=? n); lia.
Qed.

(** ** Raw equality of keys *)
Lemma rawequal_sym a b : luaO_rawequalObj a b = luaO_rawequalObj b a.
Proof.
  destruct a as [|[]| | | |], b as [|[]| | | |]; simpl; try done; try apply Z.eqb_sym.
  - apply luai_numeq_sym.
  - rewrite Z.eqb_sym. f_equal. apply bool_decide_ext. split; congruence.
Qed.

Lemma rawequal_trans a b c :
  luaO_rawequalObj a b = true -> luaO_rawequalObj b c = true -> luaO_rawequalObj a c = true.
Proof.
  destruct a as [|[]| | | |], b as [|[]| | | |], c as [|[]| | | |]; simpl; try done;
    try (rewrite !Z.eqb_eq; congruence).
  - apply luai_numeq_trans.
  - rewrite !andb_true_iff, !bool_decide_eq_true, !Z.eqb_eq. intros [-> ->] [-> ->]. done.
Qed.

(** ** Integer helpers *)
Lemma log_2_spec (x : nat) : (x < 256)%nat -> log_2 !! x = Some (if Nat.eqb x 0 then 0 else Z.log2 (Z.of_nat x) + 1).
Proof.
  intros Hx.
  assert (forallb (fun x => bool_decide (log_2 !! x =
    Some (if Nat.eqb x 0 then 0 else Z.log2 (Z.of_nat x) + 1))) (seq 0 256) = true) as H by (vm_compute; done).
  rewrite forallb_forall in H. specialize (H x ltac:(apply in_seq; lia)).
  by apply bool_decide_eq_true in H.
Qed.

Lemma log2_loop_spec fuel l x :
  1 <= x < 2 ^ (8 * Z.of_nat (S fuel)) -> log2_loop fuel l x = Some (l + 1 + Z.log2 x).
Proof.
  revert l x. induction fuel as [|fuel IH]; intros l x Hx; cbn [log2_loop].
  - change (2 ^ (8 * Z.of_nat 1)) with 256 in Hx. rewrite (proj2 (Z.leb_gt 256 x)) by lia.
    rewrite log_2_spec by lia. rewrite (proj2 (Nat.eqb_neq _ 0)) by lia. simpl. f_equal. rewrite Z2Nat.id by lia. lia.
  - destruct (Z.leb_spec 256 x) as [H|H].
    + rewrite Z.shiftr_div_pow2 by lia. change (2 ^ 8) with 256.
      assert (2 ^ (8 * Z.of_nat (S (S fuel))) = 256 * 2 ^ (8 * Z.of_nat (S fuel))) as E.
      { change 256 with (2 ^ 8). rewrite <- Z.pow_add_r by lia. f_equal. lia. }
      rewrite IH.
      * f_equal. assert (Z.log2 x = Z.log2 (x / 256) + 8); [|lia].
        symmetry. change 256 with (2 ^ 8). rewrite <- Z.shiftr_div_pow2 by lia. rewrite Z.log2_shiftr by lia.
        assert (8 <= Z.log2 x); [|lia]. change 8 with (Z.log2 256). by apply Z.log2_le_mono.
      * split; [apply Z.div_le_lower_bound; lia|apply Z.div_lt_upper_bound; lia].
    + rewrite log_2_spec by lia. rewrite (proj2 (Nat.eqb_neq _ 0)) by lia. simpl. f_equal. rewrite Z2Nat.id by lia. lia.
Qed.

Lemma luaO_log2_spec x : 1 <= x < 2 ^ 32 -> luaO_log2 x = Some (Z.log2 x).
Proof.
  intros Hx. unfold luaO_log2. rewrite log2_loop_spec; [f_equal; lia|].
  split; [lia|]. eapply Z.lt_le_trans; [apply Hx|]. apply Z.pow_le_mono_r; lia.
Qed.

Lemma ceillog2_spec x : 1 <= x <= 2 ^ 31 -> ceillog2 x = Some (Z.log2_up x).
Proof.
  intros Hx. unfold ceillog2. rewrite uwrap_small by lia.
  destruct (Z.eqb_spec x 1) as [->|Hx1]; [done|].
  rewrite luaO_log2_spec by lia. cbn [mbind option_bind]. f_equal. rewrite Z.log2_up_eqn by lia.
  unfold Z.succ. by replace (Z.pred x) with (x - 1) by lia.
Qed.

(** The loop of [luaO_int2fb] divides by a power of two, rounding up. *)
Lemma int2fb_loop_spec fuel x e :
  0 <= x -> x <= 2 ^ 31 -> x <= 15 * 2 ^ Z.of_nat fuel ->
  exists y d, int2fb_loop fuel x e = Some (y, e + d) /\ 0 <= d /\ y < 16 /\
    x <= y * 2 ^ d < x + 2 ^ d /\ (0 < d -> 8 <= y) /\ (0 < d -> 15 * 2 ^ (d - 1) < x) /\ (d = 0 -> y = x).
Proof.
  revert x e. induction fuel as [|fuel IH]; intros x e H0 Hx Hf; cbn [int2fb_loop].
  - change (2 ^ Z.of_nat 0) with 1 in Hf. rewrite (proj2 (Z.leb_gt 16 x)) by lia.
    exists x, 0. change (2 ^ 0) with 1. rewrite Z.add_0_r. repeat split; lia.
  - destruct (Z.leb_spec 16 x) as [H|H].
    + rewrite uwrap_small by lia. rewrite Z.shiftr_div_pow2 by lia. change (2 ^ 1) with 2.
      assert (2 ^ Z.of_nat (S fuel) = 2 * 2 ^ Z.of_nat fuel) as E.
      { rewrite <- Z.pow_succ_r by lia. f_equal. lia. }
      pose proof (Z.div_mod (x + 1) 2 ltac:(lia)) as Hdm. pose proof (Z.mod_pos_bound (x + 1) 2 ltac:(lia)) as Hmb.
      set (x' := (x + 1) / 2) in *.
      destruct (IH x' (e + 1)) as (y & d & -> & Hd & Hy & Hr & H8 & H15 & Hz); [lia..|].
      exists y, (d + 1). rewrite Z.add_assoc. assert (2 ^ (d + 1) = 2 * 2 ^ d) as Ed by (rewrite Z.pow_add_r by lia; lia).
      pose proof (Z.pow_pos_nonneg 2 d ltac:(lia) Hd). rewrite Ed.
      replace (e + d + 1) with (e + 1 + d) by lia.
      split; [done|]. split; [lia|]. split; [lia|].
      assert (d = 0 \/ 0 < d) as [->|Hd0] by lia.
      * rewrite (Hz eq_refl) in *. change (2 ^ 0) with 1 in *. repeat split; lia.
      * specialize (H8 Hd0). specialize (H15 Hd0). replace (d + 1 - 1) with (d - 1 + 1) by lia.
        rewrite (Z.pow_add_r 2 (d - 1)) by lia. change (2 ^ 1) with 2. repeat split; lia.
    + exists x, 0. change (2 ^ 0) with 1. rewrite Z.add_0_r. repeat split; lia.
Qed.

Lemma fb_decode y e : 0 <= e -> 8 <= y < 16 ->
  let r := Z.lor (Z.shiftl (e + 1) 3) (y - 8) in r = 8 * (e + 1) + (y - 8) /\ (e < 31 -> luaO_fb2int r = y * 2 ^ e).
Proof.
  intros He Hy. cbv zeta.
  assert (Z.lor (Z.shiftl (e + 1) 3) (y - 8) = 8 * (e + 1) + (y - 8)) as ->.
  { rewrite Z.shiftl_mul_pow2 by lia. change (2 ^ 3) with 8.
    pose proof (Z.add_lor_land ((e + 1) * 8) (y - 8)) as Hal.
    enough (Z.land ((e + 1) * 8) (y - 8) = 0) by lia. apply Z.bits_inj'. intros i Hi.
    rewrite Z.land_spec, Z.bits_0. destruct (Z.ltb_spec i 3).
    - change ((e + 1) * 8) with ((e + 1) * 2 ^ 3). by rewrite Z.mul_pow2_bits_low by lia.
    - rewrite (testbit_high 3 (y - 8)) by lia. apply andb_false_r. }
  split; [done|]. intros He31. unfold luaO_fb2int. rewrite Z.shiftr_div_pow2 by lia. change (2 ^ 3) with 8.
  assert ((8 * (e + 1) + (y - 8)) / 8 = e + 1) as -> by (symmetry; apply (Z.div_unique _ _ _ (y - 8)); lia).
  change 31 with (Z.ones 5). change 7 with (Z.ones 3). rewrite !Z.land_ones by lia. change (2 ^ 5) with 32. change (2 ^ 3) with 8.
  rewrite (Z.mod_small (e + 1)) by lia. rewrite (proj2 (Z.eqb_neq _ 0)) by lia.
  assert ((8 * (e + 1) + (y - 8)) mod 8 = y - 8) as -> by (symmetry; apply (Z.mod_unique _ _ (e + 1)); lia).
  rewrite Z.shiftl_mul_pow2 by lia. f_equal; [|f_equal]; lia.
Qed.

(** The "floating point byte" of a table size up to 2^31 fits in the nine
    bits of an instruction operand; decoding it never gives a smaller size, exceeds
    the size by less than two fifteenths of it, and is exact below 16. *)
Theorem int2fb_rounds_up (x : Z) :
  0 <= x <= 2 ^ 31 ->
  exists r, luaO_int2fb x = Some r /\ 0 <= r < 2 ^ 9 /\
    x <= luaO_fb2int r /\ 15 * (luaO_fb2int r - x) <= 2 * x /\ (x < 16 -> luaO_fb2int r = x).
Proof.
  intros Hx. unfold luaO_int2fb.
  destruct (int2fb_loop_spec 32 x 0) as (y & d & -> & Hd & Hy & Hr & H8 & H15 & Hz); [lia..|].
  cbn [mbind option_bind]. eexists. split; [reflexivity|]. rewrite Z.add_0_l.
  assert (d = 0 \/ 0 < d) as [->|Hd0] by lia.
  - rewrite (Hz eq_refl) in *. clear Hr H8 H15 Hz. destruct (Z.ltb_spec x 8).
    + assert (luaO_fb2int x = x) as ->; [|lia]. unfold luaO_fb2int.
      rewrite Z.shiftr_div_pow2 by lia. rewrite Z.div_small by lia. done.
    + destruct (fb_decode x 0 ltac:(lia) ltac:(lia)) as [E1 E2]. rewrite E1 in *. rewrite E2 by lia.
      change (2 ^ 0) with 1. lia.
  - specialize (H8 Hd0). specialize (H15 Hd0). rewrite (proj2 (Z.ltb_ge y 8)) by lia.
    assert (2 ^ d = 2 * 2 ^ (d - 1)) by (rewrite <- Z.pow_succ_r by lia; f_equal; lia).
    assert (d < 30). { destruct (Z.ltb_spec d 30) as [|Hge]; [done|]. pose proof (Z.pow_le_mono_r 2 30 d ltac:(lia) Hge). lia. }
    destruct (fb_decode y d Hd ltac:(lia)) as [E1 E2]. rewrite E1 in *. rewrite E2 by lia.
    split; [lia|]. split; [lia|]. split; [lia|]. intros Hlt.
    pose proof (Z.pow_le_mono_r 2 1 d ltac:(lia) ltac:(lia)). lia.
Qed.

Lemma int2fb_rounds_up_witness : 0 <= 100 <= 2 ^ 31 /\ exists r, luaO_int2fb 100 = Some r /\ luaO_fb2int r = 104.
Proof.
  split; [lia|]. destruct (int2fb_rounds_up 100 ltac:(lia)) as (r & E & _). exists r. split; [exact E|].
  vm_compute in E. injection E as <-. reflexivity.
Defined.

(** ** Chunk names *)
Lemma bytes_dots : bytes_of_string "..." = [46; 46; 46].
Proof. reflexivity. Qed.

Lemma bytes_string_ : bytes_of_string "[string " = [91; 115; 116; 114; 105; 110; 103; 32].
Proof. reflexivity. Qed.

Lemma bytes_close : bytes_of_string "]" = [93].
Proof. reflexivity. Qed.

Lemma strcspn_le s r : (strcspn s r <= length s)%nat.
Proof. induction s as [|c s IH]; simpl; [lia|]. case_bool_decide; lia. Qed.

Lemma chunk_cases (source : bytes) :
  (exists rest, source = 61 :: rest) \/ (exists rest, source = 64 :: rest) \/
  (match source with 61 :: _ | 64 :: _ => False | _ => True end).
Proof.
  destruct source as [|c source]; [by right; right|].
  destruct (decide (c = 61)) as [->|]; [by left; eexists|].
  destruct (decide (c = 64)) as [->|]; [by right; left; eexists|]. right. right.
  destruct c as [|p|p]; try done; repeat (destruct p as [p|p|]; try done).
Qed.

(** A chunk name that is not marked with [=] or [@]. *)
Lemma chunkid_string_fits (source : bytes) (bufflen : Z) :
  18 <= bufflen < 2 ^ 64 -> (match source with 61 :: _ | 64 :: _ => False | _ => True end) ->
  Z.of_nat (length (luaO_chunkid source bufflen)) <= bufflen /\ 0 ∈ luaO_chunkid source bufflen.
Proof.
  intros Hb Hs.
  assert (luaO_chunkid source bufflen =
    let len := Z.of_nat (strcspn source [10; 13]) in
    let bl := u64 (bufflen - 17) in
    let len := if bl <? len then bl else len in
    bytes_of_string "[string " ++ [34] ++
      (if Z.to_nat len <? length source
       then take (Z.to_nat len) source ++ bytes_of_string "..."
       else source)%nat ++ [34] ++ bytes_of_string "]" ++ [0]) as ->.
  { destruct source as [|c source]; [done|]. simpl.
    destruct (decide (c = 61)) as [->|]; [done|]. destruct (decide (c = 64)) as [->|]; [done|].
    clear Hs. destruct c as [|p|p]; try reflexivity; repeat (destruct p as [p|p|]; try reflexivity); done. }
  cbv zeta. rewrite uwrap_small by lia. rewrite bytes_dots, bytes_string_, bytes_close.
  pose proof (strcspn_le source [10; 13]). split.
  - rewrite !length_app. simpl length. destruct (Z.ltb_spec (bufflen - 17) (Z.of_nat (strcspn source [10; 13])));
      match goal with |- context [(?a <? ?b)%nat] => destruct (Nat.ltb_spec a b) end;
      rewrite ?length_app, ?length_take; simpl length; lia.
  - rewrite !elem_of_app. do 5 right. by left.
Qed.

(** C39. The name [luaO_chunkid] writes for a chunk, its terminating NUL included,
    fits in the buffer whatever the source; a name given with [=] is kept up to
    the buffer size, and a file name given with [@] is kept whole when it fits and
    is otherwise cut to its end behind three dots. *)
Theorem chunkid_fits (source : bytes) (bufflen : Z) :
  18 <= bufflen < 2 ^ 64 -> 0 ∉ source -> Z.of_nat (length source) < 2 ^ 64 ->
  let out := luaO_chunkid source bufflen in
  Z.of_nat (length out) <= bufflen /\ 0 ∈ out /\
  (forall rest, source = 61 :: rest -> cstr out = take (Z.to_nat (bufflen - 1)) rest) /\
  (forall rest, source = 64 :: rest ->
     cstr out = if decide (Z.of_nat (length rest) <= bufflen - 8) then rest
                else bytes_of_string "..." ++ drop (length rest - Z.to_nat (bufflen - 8)) rest).
Proof.
  intros Hb Hz Hl. cbv zeta.
  destruct (chunk_cases source) as [[rest ->]|[[rest ->]|Hn]].
  - apply not_elem_of_cons in Hz as [_ Hz]. cbn [luaO_chunkid].
    set (n := Z.to_nat (bufflen - 1)). assert (Z.to_nat bufflen = S n) as -> by lia.
    unfold strncpy. set (l := take (S n) rest ++ replicate (S n - length rest) 0).
    assert (length l = S n) as Hlen.
    { unfold l. rewrite length_app, length_take, length_replicate. lia. }
    assert (<[n := 0]> l = take n l ++ [0]) as ->.
    { rewrite insert_take_drop by lia. rewrite (drop_ge l (S n)) by (rewrite Hlen; done). done. }
    rewrite length_app, length_take. simpl length. split; [lia|].
    split; [apply elem_of_app; right; by left|]. split; [|intros ? [=]]. intros ? [= <-].
    unfold l. destruct (decide (length rest <= n)%nat).
    + rewrite (take_ge rest (S n)) by lia. rewrite (take_ge rest n) by lia.
      rewrite take_app_ge by lia. rewrite <- app_assoc. rewrite take_replicate.
      destruct (n - length rest)%nat as [|m] eqn:Hm.
      * by apply cstr_terminated.
      * rewrite Nat.min_l by lia. simpl. by apply cstr_terminated.
    + rewrite (take_app_le _ _ n) by (rewrite length_take; lia). rewrite take_take, Nat.min_l by lia.
      rewrite cstr_terminated; [done|]. intros Hin. apply Hz. by eapply elem_of_take in Hin as [? [? _]];
        eapply list_elem_of_lookup_2.
  - apply not_elem_of_cons in Hz as [_ Hz]. cbn [length] in Hl. cbn [luaO_chunkid]. cbv zeta.
    rewrite uwrap_small by lia. rewrite bytes_dots.
    set (d := Z.to_nat (Z.of_nat (length rest) - (bufflen - 8))).
    assert (0 ∉ drop d rest) as Hzd. { intros Hin. apply Hz. rewrite <- (take_drop d rest). apply elem_of_app. by right. }
    assert (0 ∉ [46; 46; 46] ++ drop d rest) as Hzdd.
    { intros [Hin|Hin]%elem_of_app; [|done]. by apply (bool_decide_eq_true_2 _) in Hin. }
    split.
    { rewrite length_app. destruct (Z.ltb_spec (bufflen - 8) (Z.of_nat (length rest)));
        rewrite ?length_app, ?length_drop; cbn [length]; lia. }
    split; [apply elem_of_app; right; by left|]. split; [intros ? [=]|]. intros ? [= <-].
    rewrite cstr_terminated.
    * destruct (Z.ltb_spec (bufflen - 8) (Z.of_nat (length rest))).
      -- rewrite decide_False by lia. f_equal. unfold d. f_equal. lia.
      -- by rewrite decide_True by lia.
    * by destruct (_ <? _).
  - destruct (chunkid_string_fits source bufflen Hb Hn) as [H1 H2].
    split; [done|]. split; [done|]. split; by intros rest ->.
Qed.

Lemma chunkid_fits_witness :
  cstr (luaO_chunkid (bytes_of_string "@rom/bios.lua") 60) = bytes_of_string "rom/bios.lua".
Proof.
  destruct (chunkid_fits (bytes_of_string "@rom/bios.lua") 60 ltac:(lia)
    ltac:(by apply (bool_decide_eq_true_1 _); vm_compute) ltac:(vm_compute; reflexivity)) as (_ & _ & _ & H).
  rewrite (H _ eq_refl). reflexivity.
Defined.
