(* ===== verification/LPattern.v ===== *)
(** * Pattern matching (src/lua/lstrlib.c, the matcher)

    Pointers into the subject and into the pattern are offsets; a pattern is followed
    by its NUL, and a read further out is [None], which the theorems exclude. The
    recursion is as in the code, with the function for the recursive calls as an
    argument of the helpers ([m]); every call moves forward in the pattern, so the
    length of the pattern bounds the depth. *)
From stdpp Require Import base list option.
From Stdlib Require Import ZArith Lia ZifyBool.
From S2P Require Import Prelude.
Local Open Scope nat_scope.

(** ** Characters (the C locale) *)
Section Ctype.
Local Open Scope Z_scope.
Definition isdigit (c : Z) : bool := (48 <=? c) && (c <=? 57).
Definition islower (c : Z) : bool := (97 <=? c) && (c <=? 122).
Definition isupper (c : Z) : bool := (65 <=? c) && (c <=? 90).
Definition isalpha (c : Z) : bool := islower c || isupper c.
Definition isalnum (c : Z) : bool := isalpha c || isdigit c.
Definition iscntrl (c : Z) : bool := ((0 <=? c) && (c <=? 31)) || (c =? 127).
Definition isspace (c : Z) : bool := ((9 <=? c) && (c <=? 13)) || (c =? 32).
Definition ispunct (c : Z) : bool := (33 <=? c) && (c <=? 126) && negb (isalnum c).
Definition isxdigit (c : Z) : bool := isdigit c || ((65 <=? c) && (c <=? 70)) || ((97 <=? c) && (c <=? 102)).
Definition tolower (c : Z) : Z := if isupper c then c + 32 else c.
Definition toupper (c : Z) : Z := if islower c then c - 32 else c.

Definition L_ESC : Z := 37.
Definition CH_CARET : Z := 94.
Definition CH_RBRACKET : Z := 93.
Definition CH_LBRACKET : Z := 91.
Definition CH_MINUS : Z := 45.

Definition match_class (c cl : Z) : bool :=
  let neg (res : bool) := if islower cl then res else negb res in
  let k := tolower cl in
  if k =? 97 then neg (isalpha c)            (* a *)
  else if k =? 99 then neg (iscntrl c)       (* c *)
  else if k =? 100 then neg (isdigit c)      (* d *)
  else if k =? 108 then neg (islower c)      (* l *)
  else if k =? 112 then neg (ispunct c)      (* p *)
  else if k =? 115 then neg (isspace c)      (* s *)
  else if k =? 117 then neg (isupper c)      (* u *)
  else if k =? 119 then neg (isalnum c)      (* w *)
  else if k =? 120 then neg (isxdigit c)     (* x *)
  else if k =? 122 then neg (c =? 0)         (* z *)
  else cl =? c.
End Ctype.

Definition CAP_UNFINISHED : Z := -1.
Definition CAP_POSITION : Z := -2.
Definition LUA_MAXCAPTURES : nat := 32.

(** [level] and [capture]; [src_init] and [src_end] are those of the section's subject. *)
Record MatchState := Ms { level : nat; capture : list (nat * Z) }.

(** A [MatchState] on the stack: the captures are not initialised before use. *)
Definition ms_init : MatchState := Ms 0 (replicate LUA_MAXCAPTURES (0, CAP_UNFINISHED)).

(** The result of a match: the end of the match or NULL, and the state. *)
Abbreviation matchM := (LuaM (option nat * MatchState)).

Section Match.
Variables src pat : bytes.

(** [*p] and [*s], up to the NUL that ends each string. *)
Definition pch (p : nat) : option Z := if p =? length pat then Some 0%Z else pat !! p.
Definition sch (s : nat) : option Z := if s =? length src then Some 0%Z else src !! s.
Definition src_end : nat := length src.

Definition check_capture (ms : MatchState) (l : Z) : LuaM nat :=
  let l := (l - 49)%Z in
  if ((l <? 0) || (Z.of_nat (level ms) <=? l))%Z then lerror "invalid capture index"
  else let* c := llift (capture ms !! Z.to_nat l) in
       if (snd c =? CAP_UNFINISHED)%Z then lerror "invalid capture index" else lret (Z.to_nat l).

(** [for (level--; level>=0; level--)] *)
Fixpoint close_loop (ms : MatchState) (level : nat) : LuaM nat :=
  match level with
  | O => lerror "invalid pattern capture"
  | S l => let* c := llift (capture ms !! l) in
           if (snd c =? CAP_UNFINISHED)%Z then lret l else close_loop ms l
  end.
Definition capture_to_close (ms : MatchState) : LuaM nat := close_loop ms (level ms).

(** The do-while that looks for the closing bracket. *)
Fixpoint bracket_end (fuel p : nat) : LuaM nat :=
  match fuel with
  | O => None
  | S fuel =>
      let* x := llift (pch p) in
      if (x =? 0)%Z then lerror "malformed pattern (missing ']')"
      else
        let p := S p in
        let* y := llift (pch p) in
        let p := if (x =? L_ESC)%Z && negb (y =? 0)%Z then S p else p in
        let* z := llift (pch p) in
        if (z =? CH_RBRACKET)%Z then lret (S p) else bracket_end fuel p
  end.

Definition classend (p : nat) : LuaM nat :=
  let* x := llift (pch p) in
  let p := S p in
  if (x =? L_ESC)%Z then
    let* y := llift (pch p) in
    if (y =? 0)%Z then lerror "malformed pattern (ends with '%')" else lret (S p)
  else if (x =? CH_LBRACKET)%Z then
    let* y := llift (pch p) in
    bracket_end (S (length pat)) (if (y =? CH_CARET)%Z then S p else p)
  else lret p.

(** [while (++p < ec)] *)
Fixpoint bracket_loop (fuel : nat) (c : Z) (p ec : nat) (sig : bool) : option bool :=
  match fuel with
  | O => None
  | S fuel =>
      let p := S p in
      if p <? ec then
        x ← pch p;
        if (x =? L_ESC)%Z then
          let p := S p in
          y ← pch p;
          if match_class c y then Some sig else bracket_loop fuel c p ec sig
        else
          y ← pch (p + 1);
          if (y =? CH_MINUS)%Z && (p + 2 <? ec) then
            let p := p + 2 in
            lo ← pch (p - 2); hi ← pch p;
            if (lo <=? c)%Z && (c <=? hi)%Z then Some sig else bracket_loop fuel c p ec sig
          else if (x =? c)%Z then Some sig else bracket_loop fuel c p ec sig
      else Some (negb sig)
  end.

Definition matchbracketclass (c : Z) (p ec : nat) : option bool :=
  y ← pch (p + 1);
  if (y =? CH_CARET)%Z then bracket_loop (S ec) c (S p) ec false else bracket_loop (S ec) c p ec true.

Definition singlematch (c : Z) (p ep : nat) : option bool :=
  x ← pch p;
  if (x =? 46)%Z then Some true
  else if (x =? L_ESC)%Z then y ← pch (p + 1); Some (match_class c y)
  else if (x =? CH_LBRACKET)%Z then matchbracketclass c p (ep - 1)
  else Some (x =? c)%Z.

(** [s < src_end && singlematch(uchar( *s), p, ep)] *)
Definition single_at (s p ep : nat) : LuaM bool :=
  if s <? src_end then let* c := llift (sch s) in llift (singlematch c p ep) else lret false.

(** [while (++s < ms->src_end)], [fuel] rounds. *)
Fixpoint balance_loop (fuel s : nat) (b e : Z) (cont : nat) : option (option nat) :=
  match fuel with
  | O => None
  | S fuel =>
      let s := S s in
      if s <? src_end then
        c ← sch s;
        if (c =? e)%Z then
          if cont =? 1 then Some (Some (S s)) else balance_loop fuel s b e (cont - 1)
        else if (c =? b)%Z then balance_loop fuel s b e (S cont)
        else balance_loop fuel s b e cont
      else Some None
  end.

Definition matchbalance (s p : nat) : LuaM (option nat) :=
  let* x := llift (pch p) in
  if (x =? 0)%Z then lerror "unbalanced pattern"
  else
    let* y := llift (pch (p + 1)) in
    if (y =? 0)%Z then lerror "unbalanced pattern"
    else
      let* c := llift (sch s) in
      if negb (c =? x)%Z then lret None
      else llift (balance_loop (S src_end) s x y 1).

Definition match_capture (ms : MatchState) (s : nat) (l : Z) : LuaM (option nat) :=
  let* l := check_capture ms l in
  let* c := llift (capture ms !! l) in
  let len := u64 (snd c) in
  if (len <=? Z.of_nat (src_end - s))%Z then
    if bool_decide (slice (fst c) (Z.to_nat len) src = slice s (Z.to_nat len) src)
    then lret (Some (s + Z.to_nat len)) else lret None
  else lret None.

Section Rec.
(** The recursive call. *)
Variable m : MatchState -> nat -> nat -> matchM.

(** The first loop: how far the item repeats from [s + i]. *)
Fixpoint expand_count (fuel s p ep i : nat) : LuaM nat :=
  match fuel with
  | O => None
  | S fuel =>
      let* ok := single_at (s + i) p ep in
      if ok : bool then expand_count fuel s p ep (S i) else lret i
  end.

(** [while (i>=0)]: [n] is [i + 1]. *)
Fixpoint expand_loop (n s ep : nat) (ms : MatchState) : matchM :=
  match n with
  | O => lret (None, ms)
  | S i =>
      let* r := m ms (s + i) (ep + 1) in
      if fst r is Some e then lret (Some e, snd r) else expand_loop i s ep (snd r)
  end.

Definition max_expand (ms : MatchState) (s p ep : nat) : matchM :=
  let* i := expand_count (S src_end) s p ep 0 in
  expand_loop (S i) s ep ms.

Fixpoint min_expand (fuel : nat) (ms : MatchState) (s p ep : nat) : matchM :=
  match fuel with
  | O => None
  | S fuel =>
      let* r := m ms s (ep + 1) in
      if fst r is Some e then lret (Some e, snd r)
      else
        let* ok := single_at s p ep in
        if ok : bool then min_expand fuel (snd r) (S s) p ep else lret (None, snd r)
  end.

Definition start_capture (ms : MatchState) (s p : nat) (what : Z) : matchM :=
  let l := level ms in
  if LUA_MAXCAPTURES <=? l then lerror "too many captures"
  else
    let* r := m (Ms (S l) (<[l := (s, what)]> (capture ms))) s p in
    if fst r is Some e then lret r else lret (None, Ms (level (snd r) - 1) (capture (snd r))).

Definition end_capture (ms : MatchState) (s p : nat) : matchM :=
  let* l := capture_to_close ms in
  let* c := llift (capture ms !! l) in
  let* r := m (Ms (level ms) (<[l := (fst c, (Z.of_nat s - Z.of_nat (fst c))%Z)]> (capture ms))) s p in
  if fst r is Some e then lret r
  else let* c := llift (capture (snd r) !! l) in
       lret (None, Ms (level (snd r)) (<[l := (fst c, CAP_UNFINISHED)]> (capture (snd r)))).

(** A pattern item and its suffix. *)
Definition match_default (ms : MatchState) (s p : nat) : matchM :=
  let* ep := classend p in
  let* ok := single_at s p ep in
  let* c := llift (pch ep) in
  if (c =? 63)%Z then  (* optional *)
    let next ms := m ms s (ep + 1) in
    if ok : bool then
      let* r := m ms (S s) (ep + 1) in
      if fst r is Some e then lret r else next (snd r)
    else next ms
  else if (c =? 42)%Z then max_expand ms s p ep
  else if (c =? 43)%Z then if ok : bool then max_expand ms (S s) p ep else lret (None, ms)
  else if (c =? 45)%Z then min_expand (S src_end) ms s p ep
  else if ok : bool then m ms (S s) ep
  else lret (None, ms).

(** The frontier: the class of the set starts at [p]. *)
Definition match_frontier (ms : MatchState) (s p : nat) : matchM :=
  let* c := llift (pch p) in
  if negb (c =? CH_LBRACKET)%Z then lerror "missing '[' after '%f' in pattern"
  else
    let* ep := classend p in
    let* previous := (if s =? 0 then lret 0%Z else llift (sch (s - 1))) in
    let* before := llift (matchbracketclass previous p (ep - 1)) in
    if before : bool then lret (None, ms)
    else
      let* c := llift (sch s) in
      let* after := llift (matchbracketclass c p (ep - 1)) in
      if after : bool then m ms s ep else lret (None, ms).
End Rec.

Fixpoint match_ (fuel : nat) (ms : MatchState) (s p : nat) : matchM :=
  match fuel with
  | O => None
  | S fuel =>
      let m := match_ fuel in
      let* c := llift (pch p) in
      if (c =? 40)%Z then
        let* c1 := llift (pch (p + 1)) in
        if (c1 =? 41)%Z then start_capture m ms s (p + 2) CAP_POSITION
        else start_capture m ms s (p + 1) CAP_UNFINISHED
      else if (c =? 41)%Z then end_capture m ms s (p + 1)
      else if (c =? L_ESC)%Z then
        let* c1 := llift (pch (p + 1)) in
        if (c1 =? 98)%Z then
          let* r := matchbalance s (p + 2) in
          if r is Some s then m ms s (p + 4) else lret (None, ms)
        else if (c1 =? 102)%Z then match_frontier m ms s (p + 2)
        else if isdigit c1 then
          let* r := match_capture ms s c1 in
          if r is Some s then m ms s (p + 2) else lret (None, ms)
        else match_default m ms s p
      else if (c =? 0)%Z then lret (Some s, ms)
      else if (c =? 36)%Z then
        let* c1 := llift (pch (p + 1)) in
        if (c1 =? 0)%Z then lret (if s =? src_end then Some s else None, ms)
        else match_default m ms s p
      else match_default m ms s p
  end.

(** The pattern is read forward: its length bounds the depth of the calls. *)
Definition do_match (ms : MatchState) (s p : nat) : matchM := match_ (S (length pat)) ms s p.
End Match.

(** ** The matcher stays inside its strings *)
Section Safe.
Variables src pat : bytes.
Abbreviation pch := (pch pat).
Abbreviation sch := (sch src).
Abbreviation plen := (length pat).
Abbreviation slen := (length src).

Lemma pch_total p : p <= plen -> exists c, pch p = Some c.
Proof.
  intros Hp. unfold LPattern.pch. destruct (Nat.eqb_spec p plen); [by eexists|].
  apply lookup_lt_is_Some_2. lia.
Qed.

Lemma sch_total s : s <= slen -> exists c, sch s = Some c.
Proof.
  intros Hp. unfold LPattern.sch. destruct (Nat.eqb_spec s slen); [by eexists|].
  apply lookup_lt_is_Some_2. lia.
Qed.

Lemma pch_nonzero p c : pch p = Some c -> c <> 0%Z -> p < plen.
Proof.
  unfold LPattern.pch. destruct (Nat.eqb_spec p plen); [congruence|]. intros H%lookup_lt_Some _. done.
Qed.

(** Reads a pattern or subject character known to be there. *)
Ltac read_char :=
  match goal with
  | |- lsafe (lbind (llift (LPattern.pch pat ?p)) _) _ =>
      let c := fresh "c" in let H := fresh "Hc" in
      destruct (pch_total p) as [c H]; [lia|]; rewrite (lbind_lift _ c _ H)
  | |- is_Some (LPattern.pch pat ?p ≫= _) =>
      let c := fresh "c" in let H := fresh "Hc" in
      destruct (pch_total p) as [c H]; [lia|]; rewrite H; cbn [mbind option_bind]
  end.

Lemma bracket_end_safe fuel p : p <= plen -> plen < fuel + p ->
  lsafe (bracket_end pat fuel p) (fun ep => p + 1 < ep <= plen).
Proof.
  revert p. induction fuel as [|fuel IH]; intros p Hp Hf; [lia|]. cbn [bracket_end].
  read_char. destruct (Z.eqb_spec c 0); [done|]. pose proof (pch_nonzero p c Hc ltac:(done)).
  read_char. set (q := if (_ && _)%bool then S (S p) else S p).
  assert (S p <= q <= plen) as Hq.
  { unfold q. destruct (Z.eqb_spec c L_ESC); simpl; [|lia]. destruct (Z.eqb_spec c0 0); simpl; [lia|].
    pose proof (pch_nonzero _ c0 Hc0 ltac:(done)). lia. }
  read_char. destruct (Z.eqb_spec c1 CH_RBRACKET) as [->|].
  - pose proof (pch_nonzero q _ Hc1 ltac:(done)). simpl. lia.
  - eapply lsafe_mono; [apply IH; lia|]. simpl. lia.
Qed.

Lemma classend_safe p c : pch p = Some c -> c <> 0%Z ->
  lsafe (classend pat p) (fun ep => p < ep <= plen /\
    (c = L_ESC -> p + 2 <= ep) /\ (c = CH_LBRACKET -> p + 2 <= ep)).
Proof.
  intros Hc Hne. pose proof (pch_nonzero p c Hc Hne). unfold classend. rewrite (lbind_lift _ c _ Hc).
  destruct (Z.eqb_spec c L_ESC) as [->|].
  - read_char. destruct (Z.eqb_spec c 0); [done|]. pose proof (pch_nonzero _ c Hc0 ltac:(done)). simpl. split; [lia|]. split; [lia|done].
  - destruct (Z.eqb_spec c CH_LBRACKET) as [->|]; [|simpl; split; [lia|done]].
    read_char. set (q := if (c =? CH_CARET)%Z then S (S p) else S p).
    assert (S p <= q <= plen) as Hq.
    { unfold q. destruct (Z.eqb_spec c CH_CARET) as [->|]; [|lia]. pose proof (pch_nonzero _ _ Hc0 ltac:(done)). lia. }
    eapply lsafe_mono; [apply bracket_end_safe; lia|]. simpl. intros ep Hep. split; [lia|]. split; [done|lia].
Qed.

Lemma bracket_loop_total fuel c p ec sig : ec <= plen -> ec < fuel + p -> 0 < fuel -> p < plen ->
  is_Some (bracket_loop pat fuel c p ec sig).
Proof.
  revert p. induction fuel as [|fuel IH]; intros p He Hf Hf0 Hp; [lia|]. cbn [bracket_loop].
  destruct (Nat.ltb_spec (S p) ec); [|done]. read_char. destruct (c0 =? L_ESC)%Z.
  - read_char. destruct (match_class c c1); [done|]. destruct (decide (S (S p) < plen)); [apply IH; lia|].
    destruct fuel; [lia|]. cbn [bracket_loop]. destruct (Nat.ltb_spec (S (S (S p))) ec); [lia|done].
  - read_char. destruct (Nat.ltb_spec (S p + 2) ec); destruct (c1 =? CH_MINUS)%Z; simpl.
    + read_char. read_char. destruct ((_ <=? _)%Z && (_ <=? _)%Z); [done|]. apply IH; lia.
    + destruct (c0 =? c)%Z; [done|]. apply IH; lia.
    + destruct (c0 =? c)%Z; [done|]. apply IH; lia.
    + destruct (c0 =? c)%Z; [done|]. apply IH; lia.
Qed.

Lemma matchbracketclass_total c p ec : p < ec -> ec <= plen -> is_Some (matchbracketclass pat c p ec).
Proof.
  intros Hp He. unfold matchbracketclass. read_char. destruct (Z.eqb_spec c0 CH_CARET) as [->|].
  - pose proof (pch_nonzero _ _ Hc ltac:(done)). apply bracket_loop_total; lia.
  - apply bracket_loop_total; lia.
Qed.

Lemma singlematch_total c p ep x : pch p = Some x -> x <> 0%Z -> p < ep -> ep <= plen ->
  (x = L_ESC -> p + 2 <= ep) -> (x = CH_LBRACKET -> p + 2 <= ep) -> is_Some (singlematch pat c p ep).
Proof.
  intros Hx Hne Hp He H1 H2. unfold singlematch. rewrite Hx. cbn [mbind option_bind].
  destruct (x =? 46)%Z; [done|]. destruct (Z.eqb_spec x L_ESC) as [->|]; [read_char; done|].
  destruct (Z.eqb_spec x CH_LBRACKET) as [->|]; [|done]. specialize (H2 eq_refl). apply matchbracketclass_total; lia.
Qed.

Lemma balance_loop_safe fuel s b e cont : slen < fuel + s -> 0 < fuel ->
  exists r, balance_loop src fuel s b e cont = Some r /\ forall s', r = Some s' -> s < s' <= slen.
Proof.
  revert s cont. induction fuel as [|fuel IH]; intros s cont Hf Hf0; [lia|]. cbn [balance_loop].
  - unfold src_end. destruct (Nat.ltb_spec (S s) slen); [|eexists; split; [done|congruence]].
    destruct (sch_total (S s)) as [c Hc]; [lia|]. rewrite Hc. cbn [mbind option_bind].
    assert (forall cont, exists r, balance_loop src fuel (S s) b e cont = Some r /\ forall s', r = Some s' -> s < s' <= slen) as Hrec.
    { intros n. destruct (IH (S s) n) as (r & Hr & Hs'); [lia..|]. exists r. split; [done|]. intros s' E. specialize (Hs' s' E). lia. }
    destruct (c =? e)%Z; [destruct (cont =? 1)|destruct (c =? b)%Z]; auto.
    eexists; split; [done|]. intros s' [= <-]. lia.
Qed.

(** *** Captures *)

(** A capture of a match that has come to [s]: open, a position, or a piece of the subject. *)
Definition cap_ok (s : nat) (c : nat * Z) : Prop :=
  fst c <= slen /\
  ((snd c = CAP_UNFINISHED /\ fst c <= s) \/ snd c = CAP_POSITION \/
   (0 <= snd c /\ Z.of_nat (fst c) + snd c <= Z.of_nat slen)%Z).

Definition ms_ok (s : nat) (ms : MatchState) : Prop :=
  length (capture ms) = LUA_MAXCAPTURES /\ level ms <= LUA_MAXCAPTURES /\
  Forall (cap_ok s) (take (level ms) (capture ms)).

(** A failed match leaves the captures below [level] as they were. *)
Definition ms_same (ms ms' : MatchState) : Prop :=
  level ms' = level ms /\ length (capture ms') = LUA_MAXCAPTURES /\
  take (level ms) (capture ms') = take (level ms) (capture ms).

(** What a match from [s] in state [ms] may give. *)
Definition match_good (s : nat) (ms : MatchState) (r : option nat * MatchState) : Prop :=
  match fst r with
  | Some e => s <= e <= slen /\ ms_ok e (snd r)
  | None => ms_same ms (snd r)
  end.

Lemma ms_same_ok s ms ms' : ms_ok s ms -> ms_same ms ms' -> ms_ok s ms'.
Proof. intros (Hl & Hlev & Hc) (El & Hl' & Ec). split; [done|]. rewrite El, Ec. done. Qed.

Lemma ms_same_trans ms1 ms2 ms3 : ms_same ms1 ms2 -> ms_same ms2 ms3 -> ms_same ms1 ms3.
Proof. intros (E1 & _ & T1) (E2 & L2 & T2). split; [congruence|]. split; [done|]. rewrite E1 in T2. congruence. Qed.

Lemma ms_same_refl ms s : ms_ok s ms -> ms_same ms ms.
Proof. by intros (H & _). Qed.

Lemma ms_ok_mono s s' ms : s <= s' -> ms_ok s ms -> ms_ok s' ms.
Proof.
  intros Hs (Hl & Hlev & Hc). split; [done|]. split; [done|]. eapply Forall_impl; [exact Hc|].
  unfold cap_ok. intros c (H1 & H2). split; [done|]. destruct H2 as [[? ?]|?]; [left; split; [done|lia]|by right].
Qed.

Lemma capture_lookup s ms i : ms_ok s ms -> i < level ms -> exists c, capture ms !! i = Some c /\ cap_ok s c.
Proof.
  intros (Hl & Hlev & Hc) Hi. destruct (lookup_lt_is_Some_2 (capture ms) i) as [c Hi']; [lia|]. exists c. split; [done|].
  rewrite Forall_forall in Hc. apply Hc. apply list_elem_of_lookup. exists i. by rewrite lookup_take_lt.
Qed.

Lemma close_loop_safe s ms n : ms_ok s ms -> n <= level ms ->
  lsafe (close_loop ms n) (fun l => l < level ms /\ exists c, capture ms !! l = Some c /\ snd c = CAP_UNFINISHED /\ cap_ok s c).
Proof.
  intros Hok. induction n as [|n IH]; intros Hn; [done|]. cbn [close_loop].
  destruct (capture_lookup s ms n Hok) as (c & Hc & Hcok); [lia|]. rewrite (lbind_lift _ c _ Hc).
  destruct (Z.eqb_spec (snd c) CAP_UNFINISHED); [|apply IH; lia]. apply lsafe_ret. split; [lia|]. by exists c.
Qed.

Lemma match_capture_safe s ms l : ms_ok s ms -> s <= slen ->
  lsafe (match_capture src ms s l) (fun r => forall e, r = Some e -> s <= e <= slen).
Proof.
  intros Hok Hs. unfold match_capture, check_capture.
  destruct (((l - 49 <? 0) || (Z.of_nat (level ms) <=? l - 49))%Z) eqn:E; [done|].
  destruct (capture_lookup s ms (Z.to_nat (l - 49)) Hok) as (c & Hc & Hcok); [lia|]. rewrite (lbind_lift _ c _ Hc).
  destruct (snd c =? CAP_UNFINISHED)%Z; [done|]. cbn [lbind lret]. rewrite (lbind_lift _ c _ Hc).
  destruct (Z.leb_spec (u64 (snd c)) (Z.of_nat (src_end src - s))); [|done]. case_bool_decide; [|done].
  apply lsafe_ret. intros e [= <-]. unfold src_end in *. pose proof (uwrap_range 64 (snd c)). lia.
Qed.

(** *** The helpers, for recursive calls that are good *)
Section RecSafe.
Variable m : MatchState -> nat -> nat -> matchM.
Variable p0 : nat.
Hypothesis Hm : forall ms s p, ms_ok s ms -> s <= slen -> p0 < p <= plen -> lsafe (m ms s p) (match_good s ms).

Lemma good_mono s s' ms r : s <= s' -> match_good s' ms r -> match_good s ms r.
Proof. unfold match_good. destruct (fst r); [|done]. intros ? [? ?]. split; [lia|done]. Qed.

Lemma good_same s ms ms' r : ms_same ms ms' -> match_good s ms' r -> match_good s ms r.
Proof. unfold match_good. destruct (fst r); [done|]. apply ms_same_trans. Qed.

Lemma single_at_safe s p ep x : pch p = Some x -> x <> 0%Z -> p < ep -> ep <= plen ->
  (x = L_ESC -> p + 2 <= ep) -> (x = CH_LBRACKET -> p + 2 <= ep) ->
  lsafe (single_at src pat s p ep) (fun ok => ok = true -> s < slen).
Proof.
  intros. unfold single_at, src_end. destruct (Nat.ltb_spec s slen); [|done].
  destruct (sch_total s) as [c Hc]; [lia|]. rewrite (lbind_lift _ c _ Hc).
  destruct (singlematch_total c p ep x) as [ok Hok]; [done..|]. eapply lsafe_lift; [exact Hok|done].
Qed.

Lemma expand_loop_safe n s ep ms : ms_ok s ms -> s + n <= S slen -> p0 < ep + 1 <= plen ->
  lsafe (expand_loop m n s ep ms) (match_good s ms).
Proof.
  revert ms. induction n as [|i IH]; intros ms Hok Hs Hep; cbn [expand_loop].
  - apply lsafe_ret. by apply (ms_same_refl ms s).
  - eapply lsafe_bind; [apply Hm; [by apply (ms_ok_mono s); [lia|]|lia|lia]|].
    intros [[e|] ms'] Hg; cbn [fst snd]; [apply lsafe_ret; by apply (good_mono s (s + i)); [lia|]|].
    unfold match_good in Hg. simpl in Hg. eapply lsafe_mono; [apply IH; [by apply (ms_same_ok s ms)|lia|lia]|].
    intros r. by apply good_same.
Qed.

Section Item.
Variables p ep : nat.
Variable x : Z.
Hypothesis Hx : pch p = Some x.
Hypothesis Hx0 : x <> 0%Z.
Hypothesis Hep : p < ep.
Hypothesis Hepl : ep <= plen.
Hypothesis Hesc : x = L_ESC -> p + 2 <= ep.
Hypothesis Hbr : x = CH_LBRACKET -> p + 2 <= ep.

Lemma expand_count_safe fuel s i : s + i <= slen -> slen < fuel + (s + i) ->
  lsafe (expand_count src pat fuel s p ep i) (fun n => s + n <= slen).
Proof.
  revert i. induction fuel as [|fuel IH]; intros i Hi Hf; [lia|]. cbn [expand_count].
  eapply lsafe_bind; [by eapply single_at_safe|]. intros [|] Hok; [|done]. specialize (Hok eq_refl). apply IH; lia.
Qed.

Lemma max_expand_safe ms s : ms_ok s ms -> s <= slen -> p0 < ep + 1 <= plen ->
  lsafe (max_expand src pat m ms s p ep) (match_good s ms).
Proof.
  intros Hok Hs He. unfold max_expand. eapply lsafe_bind; [apply expand_count_safe; unfold src_end; lia|].
  intros i Hi. cbv beta in Hi. apply expand_loop_safe; [done|lia|done].
Qed.

Lemma min_expand_safe fuel ms s : ms_ok s ms -> s <= slen -> slen < fuel + s -> p0 < ep + 1 <= plen ->
  lsafe (min_expand src pat m fuel ms s p ep) (match_good s ms).
Proof.
  revert ms s. induction fuel as [|fuel IH]; intros ms s Hok Hs Hf He; [lia|]. cbn [min_expand].
  eapply lsafe_bind; [by apply Hm|]. intros [[e|] ms'] Hg; cbn [fst snd]; [done|].
  unfold match_good in Hg. simpl in Hg. eapply lsafe_bind; [by eapply single_at_safe|]. intros [|] Hsi; [|done].
  specialize (Hsi eq_refl). eapply lsafe_mono; [apply IH; [|lia|lia|done]|].
  - apply (ms_ok_mono s); [lia|]. by apply (ms_same_ok s ms).
  - intros r Hr. apply (good_same s ms ms'); [done|]. by apply (good_mono s (S s)); [lia|].
Qed.
End Item.

Lemma start_capture_safe ms s p what : ms_ok s ms -> s <= slen -> p0 < p <= plen ->
  what = CAP_UNFINISHED \/ what = CAP_POSITION -> lsafe (start_capture m ms s p what) (match_good s ms).
Proof.
  intros (Hl & Hlev & Hc) Hs Hp Hw. unfold start_capture. destruct (Nat.leb_spec LUA_MAXCAPTURES (level ms)); [done|].
  set (ms1 := Ms (S (level ms)) (<[level ms := (s, what)]> (capture ms))).
  assert (take (S (level ms)) (<[level ms := (s, what)]> (capture ms)) = take (level ms) (capture ms) ++ [(s, what)]) as Etake.
  { rewrite (take_S_r _ _ (s, what)) by (apply list_lookup_insert_eq; lia). by rewrite take_insert_ge by lia. }
  assert (ms_ok s ms1) as Hok1.
  { unfold ms1. split; cbn [level capture]; [by rewrite length_insert|]. split; [lia|]. rewrite Etake.
    apply Forall_app. split; [done|]. constructor; [|constructor]. split; [done|]. destruct Hw; [left|right; left]; done. }
  eapply lsafe_bind; [by apply Hm|]. intros [[e|] ms'] Hg; cbn [fst snd]; [done|]. apply lsafe_ret.
  destruct Hg as (E1 & E2 & E3). subst ms1. unfold match_good. cbn [fst snd level capture] in *. split; cbn [level capture]; [lia|]. split; [done|].
  rewrite Etake in E3. apply (f_equal (take (level ms))) in E3. rewrite take_take, Nat.min_l in E3 by lia. rewrite E3.
  rewrite take_app_le by (rewrite length_take; lia). rewrite take_take. f_equal. lia.
Qed.

Lemma end_capture_safe ms s p : ms_ok s ms -> s <= slen -> p0 < p <= plen ->
  lsafe (end_capture m ms s p) (match_good s ms).
Proof.
  intros Hok Hs Hp. unfold end_capture, capture_to_close. eapply lsafe_bind; [by eapply close_loop_safe|].
  intros l (Hl & c & Hc & Hun & Hcok). rewrite (lbind_lift _ c _ Hc). destruct Hok as (Hlen & Hlev & Hall).
  set (c' := (fst c, (Z.of_nat s - Z.of_nat (fst c))%Z)).
  set (ms1 := Ms (level ms) (<[l := c']> (capture ms))).
  assert (ms_ok s ms1) as Hok1.
  { unfold ms1. split; cbn [level capture]; [by rewrite length_insert|]. split; [done|]. rewrite take_insert_lt by done.
    apply Forall_insert; [done|]. unfold cap_ok in *. simpl. destruct Hcok as [? [[? ?]|[?|?]]]; [|unfold CAP_UNFINISHED, CAP_POSITION in *; lia|unfold CAP_UNFINISHED in *; lia].
    split; [done|]. right. right. lia. }
  eapply lsafe_bind; [by apply Hm|]. intros [[e|] ms'] Hg; cbn [fst snd]; [done|].
  destruct Hg as (E1 & E2 & E3). subst ms1. unfold match_good. cbn [fst snd level capture] in *. rewrite take_insert_lt in E3 by done.
  assert (capture ms' !! l = Some c') as Hc'.
  { rewrite <- (lookup_take_lt _ (level ms)) by done. rewrite E3. rewrite list_lookup_insert_eq; [done|]. rewrite length_take. lia. }
  rewrite (lbind_lift _ c' _ Hc'). apply lsafe_ret. split; cbn [level capture snd]; [done|]. split; [by rewrite length_insert|].
  rewrite take_insert_lt by done. rewrite E3, list_insert_insert_eq. cbn [fst c'].
  apply list_insert_id. rewrite lookup_take_lt by done. rewrite Hc. destruct c; simpl in *. congruence.
Qed.

Lemma match_default_safe ms s x : ms_ok s ms -> s <= slen -> p0 < plen -> pch p0 = Some x -> x <> 0%Z ->
  lsafe (match_default src pat m ms s p0) (match_good s ms).
Proof.
  intros Hok Hs Hp Hx Hx0. unfold match_default. eapply lsafe_bind; [by eapply classend_safe|].
  intros ep ([Hep Hepl] & Hesc & Hbr). eapply lsafe_bind; [by eapply single_at_safe|]. intros ok Hsok.
  destruct (pch_total ep) as [c Hc]; [lia|]. rewrite (lbind_lift _ c _ Hc).
  assert (c <> 0%Z -> p0 < ep + 1 <= plen) as Hnext by (intros Hc0; pose proof (pch_nonzero ep c Hc Hc0); lia).
  destruct (Z.eqb_spec c 63) as [->|]; [|destruct (Z.eqb_spec c 42) as [->|]; [|destruct (Z.eqb_spec c 43) as [->|];
    [|destruct (Z.eqb_spec c 45) as [->|]]]].
  - specialize (Hnext ltac:(done)). destruct ok; [|by apply Hm]. specialize (Hsok eq_refl).
    eapply lsafe_bind; [apply Hm; [by apply (ms_ok_mono s); [lia|]|lia|done]|].
    intros [[e|] ms'] Hg; cbn [fst snd]; [apply lsafe_ret; by apply (good_mono s (S s)); [lia|]|].
    unfold match_good in Hg. simpl in Hg. eapply lsafe_mono; [apply Hm; [by apply (ms_same_ok s ms)|done|done]|].
    intros r. by apply good_same.
  - specialize (Hnext ltac:(done)). by eapply max_expand_safe.
  - specialize (Hnext ltac:(done)). destruct ok; [|apply lsafe_ret; by apply (ms_same_refl ms s)]. specialize (Hsok eq_refl).
    eapply lsafe_mono; [eapply max_expand_safe; eauto; by apply (ms_ok_mono s); [lia|]|]. intros r. apply good_mono. lia.
  - specialize (Hnext ltac:(done)). eapply min_expand_safe; eauto. unfold src_end. lia.
  - destruct ok; [|apply lsafe_ret; by apply (ms_same_refl ms s)]. specialize (Hsok eq_refl).
    eapply lsafe_mono; [apply Hm; [by apply (ms_ok_mono s); [lia|]|lia|lia]|]. intros r. apply good_mono. lia.
Qed.

Lemma match_frontier_safe ms s p : ms_ok s ms -> s <= slen -> p0 <= p -> p <= plen ->
  lsafe (match_frontier src pat m ms s p) (match_good s ms).
Proof.
  intros Hok Hs Hp Hpl. unfold match_frontier. destruct (pch_total p) as [c Hc]; [lia|]. rewrite (lbind_lift _ c _ Hc).
  destruct (Z.eqb_spec c CH_LBRACKET) as [->|]; [|done]. cbn [negb].
  eapply lsafe_bind; [by eapply classend_safe|]. intros ep ([Hep Hepl] & _ & Hbr). specialize (Hbr eq_refl).
  eapply (lsafe_bind (fun _ => True)).
  { destruct (Nat.eqb_spec s 0); [done|]. destruct (sch_total (s - 1)) as [q Hq]; [lia|]. by eapply lsafe_lift. }
  intros prev _. destruct (matchbracketclass_total prev p (ep - 1)) as [b1 Hb1]; [lia..|]. rewrite (lbind_lift _ b1 _ Hb1).
  destruct b1; [apply lsafe_ret; by apply (ms_same_refl ms s)|].
  destruct (sch_total s) as [q Hq]; [lia|]. rewrite (lbind_lift _ q _ Hq).
  destruct (matchbracketclass_total q p (ep - 1)) as [b2 Hb2]; [lia..|]. rewrite (lbind_lift _ b2 _ Hb2).
  destruct b2; [|apply lsafe_ret; by apply (ms_same_refl ms s)]. apply Hm; [done|done|lia].
Qed.

Lemma matchbalance_safe s p : s <= slen -> p <= plen ->
  lsafe (matchbalance src pat s p) (fun r => p + 2 <= plen /\ forall e, r = Some e -> s <= e <= slen).
Proof.
  intros Hs Hp. unfold matchbalance. destruct (pch_total p) as [x Hx]; [lia|]. rewrite (lbind_lift _ x _ Hx).
  destruct (Z.eqb_spec x 0); [done|]. pose proof (pch_nonzero p x Hx ltac:(done)).
  destruct (pch_total (p + 1)) as [y Hy]; [lia|]. rewrite (lbind_lift _ y _ Hy). destruct (Z.eqb_spec y 0); [done|].
  pose proof (pch_nonzero _ y Hy ltac:(done)). destruct (sch_total s) as [c Hc]; [lia|]. rewrite (lbind_lift _ c _ Hc).
  destruct (negb (c =? x)%Z); [apply lsafe_ret; split; [lia|congruence]|].
  destruct (balance_loop_safe (S (src_end src)) s x y 1) as (r & Hr & Hrs); [unfold src_end; lia|lia|].
  eapply lsafe_lift; [exact Hr|]. split; [lia|]. intros e ->. specialize (Hrs e eq_refl). lia.
Qed.
End RecSafe.

Lemma match_safe fuel ms s p : ms_ok s ms -> s <= slen -> p <= plen -> plen < fuel + p ->
  lsafe (match_ src pat fuel ms s p) (match_good s ms).
Proof.
  revert ms s p. induction fuel as [|fuel IH]; intros ms s p Hok Hs Hp Hf; [lia|]. cbn [match_].
  assert (Hm : forall ms s p', ms_ok s ms -> s <= slen -> p < p' <= plen -> lsafe (match_ src pat fuel ms s p') (match_good s ms)).
  { intros. apply IH; [done|done|lia|lia]. }
  destruct (pch_total p) as [c Hc]; [lia|]. rewrite (lbind_lift _ c _ Hc).
  assert (c <> 0%Z -> p < plen) as Hlt by (by apply pch_nonzero).
  assert (c <> 0%Z -> lsafe (match_default src pat (match_ src pat fuel) ms s p) (match_good s ms)) as Hdef.
  { intros Hc0. by eapply match_default_safe; eauto. }
  assert (forall c1, pch (p + 1) = Some c1 -> c1 <> 0%Z -> p + 2 <= plen) as Hlt1 by (intros c1 H1 H2; pose proof (pch_nonzero _ _ H1 H2); lia).
  destruct (Z.eqb_spec c 40) as [->|]; [specialize (Hlt ltac:(done))|].
  { destruct (pch_total (p + 1)) as [c1 Hc1]; [lia|]. rewrite (lbind_lift _ c1 _ Hc1).
    destruct (Z.eqb_spec c1 41) as [->|]; eapply start_capture_safe; eauto; try lia. specialize (Hlt1 _ Hc1 ltac:(done)). lia. }
  destruct (Z.eqb_spec c 41) as [->|]; [specialize (Hlt ltac:(done)); eapply end_capture_safe; eauto; lia|].
  destruct (Z.eqb_spec c L_ESC) as [->|].
  { specialize (Hlt ltac:(done)). destruct (pch_total (p + 1)) as [c1 Hc1]; [lia|]. rewrite (lbind_lift _ c1 _ Hc1).
    destruct (Z.eqb_spec c1 98) as [->|].
    { specialize (Hlt1 _ Hc1 ltac:(done)). eapply lsafe_bind; [apply matchbalance_safe; lia|].
      intros [e|] [Hpe Hse]; [|apply lsafe_ret; by apply (ms_same_refl ms s)]. specialize (Hse e eq_refl).
      eapply lsafe_mono; [apply Hm; [by apply (ms_ok_mono s); [lia|]|lia|lia]|]. intros r. apply good_mono. lia. }
    destruct (Z.eqb_spec c1 102) as [->|].
    { specialize (Hlt1 _ Hc1 ltac:(done)). eapply match_frontier_safe; eauto; lia. }
    destruct (isdigit c1) eqn:Ed; [|by apply Hdef].
    assert (c1 <> 0%Z) by (unfold isdigit in Ed; lia). specialize (Hlt1 _ Hc1 ltac:(done)).
    eapply lsafe_bind; [by apply match_capture_safe|]. intros [e|] Hse; [|apply lsafe_ret; by apply (ms_same_refl ms s)].
    specialize (Hse e eq_refl). eapply lsafe_mono; [apply Hm; [by apply (ms_ok_mono s); [lia|]|lia|lia]|]. intros r. apply good_mono. lia. }
  destruct (Z.eqb_spec c 0) as [->|]; [apply lsafe_ret; split; [lia|done]|].
  destruct (Z.eqb_spec c 36) as [->|]; [|by apply Hdef].
  specialize (Hlt ltac:(done)). destruct (pch_total (p + 1)) as [c1 Hc1]; [lia|]. rewrite (lbind_lift _ c1 _ Hc1).
  destruct (Z.eqb_spec c1 0); [|by apply Hdef]. apply lsafe_ret. unfold src_end. destruct (Nat.eqb_spec s slen).
  - split; [lia|done].
  - by apply (ms_same_refl ms s).
Qed.
End Safe.
