(* ===== verification/LTablib.v ===== *)
(** * The table library (src/lua/ltablib.c)

    The integer keys of a table as a finite map, an absent key being nil ([LTableProps]
    shows that the tables of ltable.c behave so); [lua_rawgeti] and [lua_rawseti] are
    lookup and update. The stack of the C functions is replaced by the values they
    push. [less] is the comparison [sort_comp] makes, a call of the order function or
    [lua_lessthan]: it may raise an error, and does not change the table. The size of
    the table, [aux_getn], is an argument; it is below 2^30, so that [l + u] is an
    [int]. *)
From stdpp Require Import base list option gmap sorting.
From Stdlib Require Import ZArith Lia ZifyBool.
From S2P Require Import Prelude.
#[local] Open Scope Z_scope.

Section Tablib.
Context {V : Type}.
Abbreviation table := (gmap Z V).
Implicit Types (t : table) (i j l u : Z).

Definition lua_rawgeti t i : option V := t !! i.
Definition lua_rawseti t i (v : option V) : table := partial_alter (fun _ => v) i t.

(** [set2(L, i, j)] with [vj] below [vi] on the stack. *)
Definition set2 t i j (vi vj : option V) : table := lua_rawseti (lua_rawseti t i vi) j vj.

(** ** Sorting *)
Section Sort.
Variable less : option V -> option V -> LuaM bool.

(** [while (lua_rawgeti(L, 1, ++i), sort_comp(L, -1, -2))]: the index where it stops. *)
Fixpoint scan_up (fuel : nat) t u (P : option V) i : LuaM Z :=
  match fuel with
  | O => None
  | S fuel =>
      let i := i + 1 in
      let* b := less (lua_rawgeti t i) P in
      if (b : bool) then
        if u <? i then lerror "invalid order function for sorting" else scan_up fuel t u P i
      else lret i
  end.

(** [while (lua_rawgeti(L, 1, --j), sort_comp(L, -3, -1))]. *)
Fixpoint scan_down (fuel : nat) t l (P : option V) j : LuaM Z :=
  match fuel with
  | O => None
  | S fuel =>
      let j := j - 1 in
      let* b := less P (lua_rawgeti t j) in
      if (b : bool) then
        if j <? l then lerror "invalid order function for sorting" else scan_down fuel t l P j
      else lret j
  end.

Definition span l u : nat := Z.to_nat (u - l + 3).

(** The [for (;;)] loop; the result is the table and [i]. *)
Fixpoint partition (fuel : nat) t l u (P : option V) i j : LuaM (table * Z) :=
  match fuel with
  | O => None
  | S fuel =>
      let* i := scan_up (span l u) t u P i in
      let* j := scan_down (span l u) t l P j in
      if j <? i then lret (t, i)
      else partition fuel (set2 t i j (lua_rawgeti t j) (lua_rawgeti t i)) l u P i j
  end.

(** The first three elements: [a[l]], [a[(l+u)/2]] and [a[u]] in order. *)
Definition sort_ends t l u : LuaM table :=
  let* b := less (lua_rawgeti t u) (lua_rawgeti t l) in
  lret (if (b : bool) then set2 t l u (lua_rawgeti t u) (lua_rawgeti t l) else t).

Definition sort_middle t l u i : LuaM table :=
  let* b := less (lua_rawgeti t i) (lua_rawgeti t l) in
  if (b : bool) then lret (set2 t i l (lua_rawgeti t l) (lua_rawgeti t i))
  else
    let* b := less (lua_rawgeti t u) (lua_rawgeti t i) in
    lret (if (b : bool) then set2 t i u (lua_rawgeti t u) (lua_rawgeti t i) else t).

(** [auxsort]; the [while] loop's next turn is the second call below. *)
Fixpoint auxsort (fuel : nat) l u t : LuaM table :=
  if negb (l <? u) then lret t
  else match fuel with
  | O => None
  | S fuel =>
      let* t := sort_ends t l u in
      if u - l =? 1 then lret t
      else
        let i := Z.quot (i32 (l + u)) 2 in
        let* t := sort_middle t l u i in
        if u - l =? 2 then lret t
        else
          let P := lua_rawgeti t i in
          let t := set2 t i (u - 1) (lua_rawgeti t (u - 1)) P in
          let* (t, i) := partition (span l u) t l u P l (u - 1) in
          let t := set2 t (u - 1) i (lua_rawgeti t i) (lua_rawgeti t (u - 1)) in
          let '(j, i, l, u) :=
            if i - l <? u - i then (l, i - 1, i - 1 + 2, u) else (i + 1, u, l, i + 1 - 2) in
          let* t := auxsort fuel j i t in
          auxsort fuel l u t
  end.

(** [sort] of a table of [n] elements. *)
Definition sort (n : Z) t : LuaM table := auxsort (Z.to_nat n) 1 n t.
End Sort.

(** ** Insertion and removal *)

(** [for (i = e; i > pos; i--) t[i] = t[i-1]]. *)
Fixpoint move_up (n : nat) t i : table :=
  match n with
  | O => t
  | S n => move_up n (lua_rawseti t i (lua_rawgeti t (i - 1))) (i - 1)
  end.

(** [tinsert] with its arguments behind the table: the value, or the position and the
    value; [n] is the size of the table. *)
Definition tinsert (n : Z) (args : list (option V)) (checkint : option V -> LuaM Z) t : LuaM table :=
  let e := i32 (n + 1) in
  match args with
  | [v] => lret (lua_rawseti t e v)
  | [p; v] =>
      let* pos := checkint p in
      let e := if e <? pos then pos else e in
      lret (lua_rawseti (move_up (Z.to_nat (e - pos)) t e) pos v)
  | _ => lerror "wrong number of arguments to 'insert'"
  end.

(** [for ( ; pos < e; pos++) t[pos] = t[pos+1]]. *)
Fixpoint move_down (n : nat) t pos : table :=
  match n with
  | O => t
  | S n => move_down n (lua_rawseti t pos (lua_rawgeti t (pos + 1))) (pos + 1)
  end.

(** [tremove] with [luaL_optint]'s position; the results and the table. *)
Definition tremove (e : Z) (optpos : option Z) t : list (option V) * table :=
  let pos := default e optpos in
  if negb ((1 <=? pos) && (pos <=? e)) then ([], t)
  else
    let result := lua_rawgeti t pos in
    let t := move_down (Z.to_nat (e - pos)) t pos in
    ([result], lua_rawseti t e None).

(** ** Concatenation *)
Section Concat.
(** [lua_tolstring] of a string or number, [None] for other values. *)
Variable tolstring : option V -> option bytes.

Definition addfield (b : bytes) t i : LuaM bytes :=
  match tolstring (lua_rawgeti t i) with
  | None => lerror "invalid value in table for 'concat'"
  | Some s => lret (b ++ s)
  end.

(** [for (; i < last; i++)]: the buffer and [i]. *)
Fixpoint concat_loop (n : nat) t (sep : bytes) i last (b : bytes) : LuaM (bytes * Z) :=
  if i <? last then
    match n with
    | O => None
    | S n => let* b := addfield b t i in concat_loop n t sep (i + 1) last (b ++ sep)
    end
  else lret (b, i).

Definition tconcat (sep : bytes) i last t : LuaM bytes :=
  let* (b, i) := concat_loop (Z.to_nat (last - i)) t sep i last [] in
  if i =? last then addfield b t i else lret b.
End Concat.
End Tablib.
