(* ===== verification/LTablibSort.v ===== *)
(** * The sort of the table library is correct *)
From stdpp Require Import base list option gmap sorting.
From Stdlib Require Import ZArith Lia ZifyBool.
From S2P Require Import Prelude LTablib.
#[local] Open Scope Z_scope.

Section Sorting.
Context {V : Type}.
Abbreviation table := (gmap Z V).
Implicit Types (t : table) (i j l u k : Z).

(** ** Swaps *)
Definition swap t i j : table := set2 t i j (t !! j) (t !! i).

Lemma lookup_swap t i j k : swap t i j !! k = if decide (k = j) then t !! i else if decide (k = i) then t !! j else t !! k.
Proof.
  unfold swap, set2, lua_rawseti. destruct (decide (k = j)) as [->|Hj].
  - by rewrite lookup_partial_alter_eq.
  - rewrite lookup_partial_alter_ne by done. destruct (decide (k = i)) as [->|Hi].
    + by rewrite lookup_partial_alter_eq.
    + by rewrite lookup_partial_alter_ne.
Qed.

(** Tables that differ by swaps of elements between [l] and [u]. *)
Definition permutes l u : table -> table -> Prop :=
  rtc (fun t t' => exists i j, l <= i <= u /\ l <= j <= u /\ t' = swap t i j).

Lemma permutes_swap l u t i j : l <= i <= u -> l <= j <= u -> permutes l u t (swap t i j).
Proof. intros. apply rtc_once. by exists i, j. Qed.

Lemma permutes_mono l u l' u' t t' : l <= l' -> u' <= u -> permutes l' u' t t' -> permutes l u t t'.
Proof.
  intros Hl Hu. apply rtc_subrel. intros x y (i & j & ? & ? & ->). exists i, j. split_and!; try done; lia.
Qed.

Lemma permutes_outside l u t t' k : permutes l u t t' -> k < l \/ u < k -> t' !! k = t !! k.
Proof.
  intros Hp Hk. induction Hp as [|x y z (i & j & Hi & Hj & ->) _ IH]; [done|].
  rewrite IH, lookup_swap. destruct (decide _); [lia|]. destruct (decide _); [lia|]. done.
Qed.

Lemma permutes_all (Q : option V -> Prop) l u t t' : permutes l u t t' ->
  (forall k, l <= k <= u -> Q (t !! k)) -> forall k, l <= k <= u -> Q (t' !! k).
Proof.
  intros Hp. induction Hp as [|x y z (i & j & Hi & Hj & ->) _ IH]; intros HQ; [done|].
  apply IH. intros k Hk. rewrite lookup_swap. destruct (decide _); [auto|]. destruct (decide _); auto.
Qed.

(** The elements 1 to [n] as a list. *)
Definition elements (n : nat) t : list (option V) := (fun k : nat => t !! Z.of_nat k) <$> seq 1 n.

Lemma list_swap_Permutation {A} (xs : list A) (i j : nat) x y :
  xs !! i = Some x -> xs !! j = Some y -> <[j := x]> (<[i := y]> xs) ≡ₚ xs.
Proof.
  intros Hi Hj. pose proof (lookup_lt_Some _ _ _ Hi) as Hil. pose proof (lookup_lt_Some _ _ _ Hj) as Hjl.
  assert (forall (l : list A) (k : nat) v, (k < length l)%nat -> <[k := v]> l ≡ₚ v :: delete k l) as Hins.
  { intros l k v Hk. rewrite (delete_Permutation (<[k := v]> l) k v) by (by apply list_lookup_insert_eq).
    f_equiv. clear -Hk. revert k Hk. induction l as [|a l IH]; intros [|k] Hk; cbn in *; try done; try lia.
    f_equiv. apply IH. lia. }
  destruct (decide (i = j)) as [->|Hne].
  { rewrite Hi in Hj. injection Hj as ->. rewrite list_insert_insert_eq. by rewrite list_insert_id. }
  rewrite Hins by (by rewrite length_insert).
  assert (y :: delete j (<[i := y]> xs) ≡ₚ y :: delete i xs) as Hp.
  { rewrite <- (Hins xs i y) by done. symmetry. apply delete_Permutation. by rewrite list_lookup_insert_ne. }
  apply Permutation_cons_inv in Hp. rewrite Hp. symmetry. by apply delete_Permutation.
Qed.

Lemma elements_lookup n t (k : nat) : (k < n)%nat -> elements n t !! k = Some (t !! (Z.of_nat k + 1)).
Proof.
  intros Hk. unfold elements. rewrite list_lookup_fmap, lookup_seq_lt by done. cbn. do 2 f_equal. lia.
Qed.

Lemma length_elements n t : length (elements n t) = n.
Proof. unfold elements. by rewrite length_fmap, length_seq. Qed.

Lemma elements_swap n t i j : 1 <= i <= Z.of_nat n -> 1 <= j <= Z.of_nat n ->
  elements n (swap t i j) = <[Z.to_nat (j - 1) := t !! i]> (<[Z.to_nat (i - 1) := t !! j]> (elements n t)).
Proof.
  intros Hi Hj. apply list_eq. intros k. destruct (decide (k < n)%nat) as [Hk|Hk].
  - rewrite elements_lookup by done. rewrite lookup_swap.
    destruct (decide (Z.of_nat k + 1 = j)) as [Ej|Ej].
    { assert (k = Z.to_nat (j - 1)) as -> by lia. rewrite list_lookup_insert_eq; [done|].
      rewrite length_insert, length_elements. lia. }
    rewrite list_lookup_insert_ne by lia. destruct (decide (Z.of_nat k + 1 = i)) as [Ei|Ei].
    { assert (k = Z.to_nat (i - 1)) as -> by lia. rewrite list_lookup_insert_eq; [done|].
      rewrite length_elements. lia. }
    rewrite list_lookup_insert_ne by lia. by rewrite elements_lookup.
  - rewrite !lookup_ge_None_2; [done|..]; rewrite ?length_insert, length_elements; lia.
Qed.

Lemma permutes_elements n t t' : permutes 1 (Z.of_nat n) t t' -> elements n t' ≡ₚ elements n t.
Proof.
  intros Hp. induction Hp as [|x y z (i & j & Hi & Hj & ->) _ IH]; [done|]. rewrite IH. clear IH z.
  rewrite elements_swap by done. apply list_swap_Permutation; rewrite elements_lookup by lia; do 2 f_equal; lia.
Qed.

(** ** A valid order *)
Variable less : option V -> option V -> LuaM bool.
Variable lt : option V -> option V -> bool.
Variable dom : option V -> Prop.

(** On the values with [dom] the order function answers [lt], without errors, and
    [lt] is a strict weak order. *)
Record valid_order : Prop := {
  vo_less : forall x y, dom x -> dom y -> less x y = lret (lt x y);
  vo_asym : forall x y, dom x -> dom y -> lt x y = true -> lt y x = false;
  vo_trans : forall x y z, dom x -> dom y -> dom z -> lt y x = false -> lt z y = false -> lt z x = false;
}.

Definition le (x y : option V) : Prop := lt y x = false.
Definition in_dom t l u : Prop := forall k, l <= k <= u -> dom (t !! k).
Definition sorted t l u : Prop := forall i j, l <= i <= j -> j <= u -> le (t !! i) (t !! j).

Section Valid.
Hypothesis Hvo : valid_order.

Lemma le_refl x : dom x -> le x x.
Proof.
  intros Hx. unfold le. destruct (lt x x) eqn:E; [|done]. by rewrite (vo_asym Hvo x x Hx Hx E) in E.
Qed.

Lemma le_trans x y z : dom x -> dom y -> dom z -> le x y -> le y z -> le x z.
Proof. intros. by eapply (vo_trans Hvo x y z). Qed.

Lemma lt_le x y : dom x -> dom y -> lt x y = true -> le x y.
Proof. intros. by apply (vo_asym Hvo). Qed.

Lemma scan_up_spec fuel t u P i : dom P -> in_dom t (i + 1) u ->
  (exists k, i < k <= u /\ le P (t !! k)) -> (Z.to_nat (u - i) <= fuel)%nat ->
  exists i', scan_up less fuel t u P i = lret i' /\ i < i' <= u /\ le P (t !! i') /\
    (forall k, i < k < i' -> le (t !! k) P) /\ (forall k, i < k <= u -> le P (t !! k) -> i' <= k).
Proof.
  intros HP. revert i. induction fuel as [|fuel IH]; intros i Hd (k0 & Hk0 & Hle) Hf; [lia|].
  cbn [scan_up]. unfold lua_rawgeti. rewrite (vo_less Hvo) by (done || apply Hd; lia).
  change (lbind (lret ?a) ?f) with (f a). cbv beta. destruct (lt (t !! (i + 1)) P) eqn:E.
  - assert (k0 <> i + 1) by (intros ->; unfold le in Hle; congruence).
    destruct (Z.ltb_spec u (i + 1)); [lia|].
    destruct (IH (i + 1)) as (i' & -> & Hi & Hp & Hlt & Hmin); [intros k Hk; apply Hd; lia|exists k0; split; [lia|done]|lia|].
    exists i'. split; [done|]. split; [lia|]. split; [done|]. split.
    + intros k Hk. destruct (decide (k = i + 1)) as [->|]; [apply lt_le; [apply Hd; lia|done|done]|apply Hlt; lia].
    + intros k Hk Hlk. destruct (decide (k = i + 1)) as [->|]; [unfold le in Hlk; congruence|apply Hmin; [lia|done]].
  - exists (i + 1). split; [done|]. split; [lia|]. split; [exact E|]. split; intros; lia.
Qed.

Lemma scan_down_spec fuel t l P j : dom P -> in_dom t l (j - 1) ->
  (exists k, l <= k < j /\ le (t !! k) P) -> (Z.to_nat (j - l) <= fuel)%nat ->
  exists j', scan_down less fuel t l P j = lret j' /\ l <= j' < j /\ le (t !! j') P /\
    (forall k, j' < k < j -> le P (t !! k)).
Proof.
  intros HP. revert j. induction fuel as [|fuel IH]; intros j Hd (k0 & Hk0 & Hle) Hf; [lia|].
  cbn [scan_down]. unfold lua_rawgeti. rewrite (vo_less Hvo) by (done || apply Hd; lia).
  change (lbind (lret ?a) ?f) with (f a). cbv beta. destruct (lt P (t !! (j - 1))) eqn:E.
  - assert (k0 <> j - 1) by (intros ->; unfold le in Hle; congruence).
    destruct (Z.ltb_spec (j - 1) l); [lia|].
    destruct (IH (j - 1)) as (j' & -> & Hj & Hp & Hlt); [intros k Hk; apply Hd; lia|exists k0; split; [lia|done]|lia|].
    exists j'. split; [done|]. split; [lia|]. split; [done|].
    intros k Hk. destruct (decide (k = j - 1)) as [->|]; [apply lt_le; [done|apply Hd; lia|done]|apply Hlt; lia].
  - exists (j - 1). split; [done|]. split; [lia|]. split; [exact E|]. intros; lia.
Qed.

(** The loop's invariant: a[l..i] <= P <= a[j..u], with P at u-1. *)
Lemma partition_spec fuel t l u P i j : in_dom t l u -> dom P ->
  l <= i <= j -> l < j <= u - 1 -> i < u - 1 -> t !! (u - 1) = P ->
  (forall k, l <= k <= i -> le (t !! k) P) -> (forall k, j <= k <= u -> le P (t !! k)) ->
  (Z.to_nat (u - i) <= fuel)%nat ->
  exists t' i', partition less fuel t l u P i j = lret (t', i') /\ permutes l (u - 2) t t' /\
    l < i' <= u - 1 /\ (forall k, l <= k < i' -> le (t' !! k) P) /\ (forall k, i' <= k <= u -> le P (t' !! k)).
Proof.
  intros Hd HP. revert t i j Hd. induction fuel as [|fuel IH]; intros t i j Hd Hij Hj Hiu1 Ht Hlo Hhi Hf; [lia|].
  cbn [partition].
  assert (in_dom t (i + 1) u) as Hd1 by (intros k Hk; apply Hd; lia).
  destruct (scan_up_spec (span l u) t u P i HP Hd1) as (i' & -> & Hi' & Hpi & Hlti & Hmin).
  { exists (u - 1). split; [lia|]. rewrite Ht. by apply le_refl. }
  { unfold span. lia. }
  assert (i' <= u - 1) as Hiu by (apply Hmin; [lia|rewrite Ht; by apply le_refl]).
  change (lbind (lret ?a) ?f) with (f a). cbv beta.
  destruct (scan_down_spec (span l u) t l P j HP) as (j' & -> & Hj' & Hpj & Hltj).
  { intros k Hk. apply Hd. lia. } { exists l. split; [lia|]. apply Hlo. lia. } { unfold span. lia. }
  change (lbind (lret ?a) ?f) with (f a). cbv beta.
  assert (forall k, l <= k < i' -> le (t !! k) P) as Hlo'.
  { intros k Hk. destruct (decide (k <= i)); [apply Hlo; lia|apply Hlti; lia]. }
  assert (forall k, j' < k <= u -> le P (t !! k)) as Hhi'.
  { intros k Hk. destruct (decide (j <= k)); [apply Hhi; lia|apply Hltj; lia]. }
  destruct (Z.ltb_spec j' i') as [Hlt|Hge].
  - exists t, i'. split; [done|]. split; [apply rtc_refl|]. split; [lia|]. split; [done|]. intros k Hk. apply Hhi'. lia.
  - change (set2 t i' j' (lua_rawgeti t j') (lua_rawgeti t i')) with (swap t i' j').
    assert (permutes l (u - 2) t (swap t i' j')) as Hsw by (apply permutes_swap; lia).
    destruct (IH (swap t i' j') i' j') as (t' & i2 & -> & Hp & Hi2 & Hlo2 & Hhi2).
    + intros k. apply (permutes_all dom l u t); [|done]. by eapply permutes_mono, Hsw; lia.
    + lia.
    + lia.
    + lia.
    + rewrite (permutes_outside _ _ _ _ _ Hsw) by lia. done.
    + intros k Hk. rewrite lookup_swap. destruct (decide (k = j')) as [->|].
      { assert (i' = j') as -> by lia. done. }
      destruct (decide (k = i')) as [->|]; [done|apply Hlo'; lia].
    + intros k Hk. rewrite lookup_swap. destruct (decide (k = j')) as [->|]; [done|].
      destruct (decide (k = i')) as [->|]; [lia|apply Hhi'; lia].
    + lia.
    + exists t', i2. split; [done|]. split; [by etrans|]. split; [lia|done].
Qed.

Lemma sort_ends_spec t l u : in_dom t l u -> l < u ->
  exists t', sort_ends less t l u = lret t' /\ permutes l u t t' /\ le (t' !! l) (t' !! u).
Proof.
  intros Hd Hlu. unfold sort_ends, lua_rawgeti. rewrite (vo_less Hvo) by (apply Hd; lia).
  change (lbind (lret ?a) ?f) with (f a). cbv beta. destruct (lt (t !! u) (t !! l)) eqn:E.
  - change (set2 t l u (t !! u) (t !! l)) with (swap t l u). exists (swap t l u). split; [done|].
    split; [apply permutes_swap; lia|]. rewrite !lookup_swap.
    rewrite (decide_False (P := l = u)), (decide_True (P := l = l)), (decide_True (P := u = u)) by lia.
    apply lt_le; [apply Hd; lia..|done].
  - exists t. split; [done|]. split; [apply rtc_refl|exact E].
Qed.

Lemma sort_middle_spec t l u i : in_dom t l u -> l < i < u -> le (t !! l) (t !! u) ->
  exists t', sort_middle less t l u i = lret t' /\ permutes l u t t' /\
    le (t' !! l) (t' !! i) /\ le (t' !! i) (t' !! u) /\ le (t' !! l) (t' !! u).
Proof.
  intros Hd Hi Hle. unfold sort_middle, lua_rawgeti. rewrite (vo_less Hvo) by (apply Hd; lia).
  change (lbind (lret ?a) ?f) with (f a). cbv beta.
  assert (dom (t !! l) /\ dom (t !! i) /\ dom (t !! u)) as (Dl & Di & Du) by (split_and!; apply Hd; lia).
  destruct (lt (t !! i) (t !! l)) eqn:E.
  - change (set2 t i l (t !! l) (t !! i)) with (swap t i l). exists (swap t i l). split; [done|].
    split; [apply permutes_swap; lia|]. rewrite !lookup_swap.
    rewrite (decide_True (P := l = l)), (decide_False (P := i = l)), (decide_True (P := i = i)),
      (decide_False (P := u = l)), (decide_False (P := u = i)) by lia.
    split_and!; [by apply lt_le|done|]. eapply (le_trans _ (t !! l)); [done..|by apply lt_le|done].
  - rewrite (vo_less Hvo) by done. change (lbind (lret ?a) ?f) with (f a). cbv beta.
    destruct (lt (t !! u) (t !! i)) eqn:E2.
    + change (set2 t i u (t !! u) (t !! i)) with (swap t i u). exists (swap t i u). split; [done|].
      split; [apply permutes_swap; lia|]. rewrite !lookup_swap.
      rewrite (decide_False (P := l = u)), (decide_False (P := l = i)), (decide_False (P := i = u)),
        (decide_True (P := i = i)), (decide_True (P := u = u)) by lia.
      split_and!; [done|by apply lt_le|]. done.
    + exists t. split; [done|]. split; [apply rtc_refl|done].
Qed.

Lemma in_dom_permutes t t' l u : permutes l u t t' -> in_dom t l u -> in_dom t' l u.
Proof. intros Hp Hd. exact (permutes_all dom l u t t' Hp Hd). Qed.

(** The pivot step: the table split around the pivot at [i]. *)
Definition split_at t l u i (P : option V) : Prop :=
  t !! i = P /\ (forall k, l <= k < i -> le (t !! k) P) /\ (forall k, i < k <= u -> le P (t !! k)).

Lemma pivot_spec t l u m : in_dom t l u -> l < m < u -> 2 < u - l ->
  le (t !! l) (t !! m) -> le (t !! m) (t !! u) ->
  exists t' i, partition less (span l u) (swap t m (u - 1)) l u (t !! m) l (u - 1) = lret (t', i) /\
    l < i <= u - 1 /\ permutes l u t (swap t' (u - 1) i) /\ split_at (swap t' (u - 1) i) l u i (t !! m).
Proof.
  intros Hd Hm Hu Hlm Hmu. set (P := t !! m) in *. set (t3 := swap t m (u - 1)).
  assert (permutes l u t t3) as Hp3 by (apply permutes_swap; lia).
  pose proof (in_dom_permutes _ _ _ _ Hp3 Hd) as Hd3.
  destruct (partition_spec (span l u) t3 l u P l (u - 1)) as (t4 & i & -> & Hp4 & Hi & Hlo & Hhi);
    [done|apply Hd; lia|lia|lia|lia| | | |unfold span; lia|].
  { unfold t3. rewrite lookup_swap. by rewrite decide_True by done. }
  { intros k Hk. assert (k = l) as -> by lia. unfold t3. rewrite lookup_swap.
    rewrite decide_False by lia. by rewrite decide_False by lia. }
  { intros k Hk. unfold t3. rewrite lookup_swap. destruct (decide (k = u - 1)) as [->|].
    - apply le_refl. apply Hd. lia.
    - assert (k = u) as -> by lia. by rewrite decide_False by lia. }
  exists t4, i. split; [done|]. split; [lia|]. split.
  { etrans; [exact Hp3|]. etrans; [eapply permutes_mono, Hp4; lia|]. apply permutes_swap; lia. }
  assert (t4 !! (u - 1) = P) as Ht4.
  { rewrite (permutes_outside _ _ _ _ _ Hp4) by lia. unfold t3. rewrite lookup_swap. by rewrite decide_True by done. }
  split; [rewrite lookup_swap; by rewrite decide_True by done|]. split; intros k Hk; rewrite lookup_swap.
  - rewrite !decide_False by lia. by apply Hlo.
  - rewrite decide_False by lia. case_decide; apply Hhi; lia.
Qed.

(** Sorting one side of the pivot keeps the split. *)
Lemma split_side t t' l u i P a b : (a = l /\ b = i - 1) \/ (a = i + 1 /\ b = u) ->
  permutes a b t t' -> split_at t l u i P -> split_at t' l u i P.
Proof.
  intros Hab Hp (Hi & Hlo & Hhi). split; [by rewrite (permutes_outside _ _ _ _ _ Hp) by lia|].
  split; intros k Hk; (destruct (decide (a <= k <= b)) as [Hin|Hout];
    [|rewrite (permutes_outside _ _ _ _ _ Hp) by lia; auto]).
  - apply (permutes_all (fun x => le x P) _ _ _ _ Hp); [intros; apply Hlo; lia|done].
  - apply (permutes_all (fun x => le P x) _ _ _ _ Hp); [intros; apply Hhi; lia|done].
Qed.

Lemma sorted_outside t t' l u a b : permutes a b t t' -> u < a \/ b < l -> sorted t l u -> sorted t' l u.
Proof. intros Hp Hab Hs i j Hi Hj. rewrite !(permutes_outside _ _ _ _ _ Hp) by lia. by apply Hs. Qed.

(** Two sorted sides and the pivot between them are sorted. *)
Lemma sorted_split t l u i P : in_dom t l u -> l <= i <= u -> split_at t l u i P ->
  sorted t l (i - 1) -> sorted t (i + 1) u -> sorted t l u.
Proof.
  intros Hd Hi (Ht & Hlo & Hhi) HL HR a b Ha Hb.
  destruct (decide (b < i)); [apply HL; lia|]. destruct (decide (i < a)); [apply HR; lia|].
  assert (dom P) as HP by (rewrite <- Ht; apply Hd; lia).
  apply (le_trans _ P); [apply Hd; lia|done|apply Hd; lia|..].
  - destruct (decide (a = i)) as [->|]; [rewrite Ht; by apply le_refl|apply Hlo; lia].
  - destruct (decide (b = i)) as [->|]; [rewrite Ht; by apply le_refl|apply Hhi; lia].
Qed.

(** Sorting a side and then the other. *)
Lemma sort_sides fuel t l u i P a b c d :
  (a = l /\ b = i - 1 /\ c = i + 1 /\ d = u) \/ (a = i + 1 /\ b = u /\ c = l /\ d = i - 1) ->
  in_dom t l u -> l <= i <= u -> split_at t l u i P ->
  (forall x l' u', in_dom x l' u' -> (l' = a /\ u' = b) \/ (l' = c /\ u' = d) ->
    exists y, auxsort less fuel l' u' x = lret y /\ permutes l' u' x y /\ sorted y l' u') ->
  exists z, lbind (auxsort less fuel a b t) (auxsort less fuel c d) = lret z /\
    permutes l u t z /\ sorted z l u.
Proof.
  intros Hcase Hd Hi Hsp Hrec.
  destruct (Hrec t a b) as (y & Ey & Hpy & Hsy); [intros k Hk; apply Hd; lia|by left|].
  destruct (Hrec y c d) as (z & Ez & Hpz & Hsz); [|by right|].
  { intros k Hk. rewrite (permutes_outside _ _ _ _ _ Hpy) by lia. apply Hd. lia. }
  exists z. rewrite Ey. cbn [lbind]. split; [done|].
  assert (permutes l u t z) as Hp by (etrans; [eapply permutes_mono, Hpy|eapply permutes_mono, Hpz]; lia).
  split; [done|]. apply (sorted_split z l u i P); [by eapply in_dom_permutes|done|..].
  - eapply (split_side y); [|exact Hpz|eapply split_side; [|exact Hpy|exact Hsp]]; lia.
  - destruct Hcase as [(-> & -> & -> & ->)|(-> & -> & -> & ->)]; [|done]. eapply sorted_outside; [exact Hpz|lia|done].
  - destruct Hcase as [(-> & -> & -> & ->)|(-> & -> & -> & ->)]; [done|]. eapply sorted_outside; [exact Hpz|lia|done].
Qed.

Lemma sorted_small t l u : in_dom t l u -> le (t !! l) (t !! u) -> u - l <= 1 \/
  (u - l = 2 /\ le (t !! l) (t !! (l + 1)) /\ le (t !! (l + 1)) (t !! u)) -> sorted t l u.
Proof.
  intros Hd Hlu Hcase i j Hi Hj. destruct (decide (i = j)) as [->|]; [apply le_refl, Hd; lia|].
  destruct (decide (i = l)) as [->|]; [destruct (decide (j = u)) as [->|]; [done|]|].
  - destruct Hcase as [?|(? & ? & ?)]; [lia|]. by assert (j = l + 1) as -> by lia.
  - destruct Hcase as [?|(? & ? & ?)]; [lia|]. assert (i = l + 1) as -> by lia. by assert (j = u) as -> by lia.
Qed.

Lemma auxsort_spec fuel l u t : in_dom t l u -> 1 <= l -> u < 2 ^ 30 -> (Z.to_nat (u - l + 1) <= fuel)%nat ->
  exists t', auxsort less fuel l u t = lret t' /\ permutes l u t t' /\ sorted t' l u.
Proof.
  revert l u t. induction fuel as [|fuel IH]; intros l u t Hd Hl Hu Hf; cbn [auxsort];
    (destruct (Z.ltb_spec l u) as [Hlu|Hlu]; cbn [negb];
     [|exists t; split; [done|split; [apply rtc_refl|]]; intros i j Hi Hj;
       assert (i = j) as -> by lia; apply le_refl, Hd; lia]); [lia|].
  destruct (sort_ends_spec t l u Hd Hlu) as (t1 & -> & Hp1 & Hle1).
  change (lbind (lret ?a) ?f) with (f a). cbv beta.
  pose proof (in_dom_permutes _ _ _ _ Hp1 Hd) as Hd1.
  destruct (Z.eqb_spec (u - l) 1) as [E1|E1].
  { exists t1. split; [done|]. split; [done|]. apply sorted_small; [done|done|lia]. }
  rewrite swrap_small by lia. rewrite Z.quot_div_nonneg by lia. cbv zeta.
  pose proof (Z.div_mod (l + u) 2 ltac:(lia)). pose proof (Z.mod_pos_bound (l + u) 2 ltac:(lia)).
  set (m := (l + u) / 2) in *. assert (l < m < u) as Hm by lia.
  destruct (sort_middle_spec t1 l u m Hd1 Hm Hle1) as (t2 & -> & Hp2 & Hlm & Hmu & Hlu2).
  change (lbind (lret ?a) ?f) with (f a). cbv beta.
  pose proof (in_dom_permutes _ _ _ _ Hp2 Hd1) as Hd2.
  destruct (Z.eqb_spec (u - l) 2) as [E2|E2].
  { exists t2. split; [done|]. split; [by etrans|]. assert (m = l + 1) as Em by lia. rewrite Em in *.
    apply sorted_small; [done|done|]. by right. }
  destruct (pivot_spec t2 l u m Hd2 Hm ltac:(lia) Hlm Hmu) as (t4 & i & E & Hi & Hp5 & Hsp).
  unfold lua_rawgeti. change (set2 t2 m (u - 1) (t2 !! (u - 1)) (t2 !! m)) with (swap t2 m (u - 1)). rewrite E.
  change (lbind (lret ?a) ?f) with (f a). cbv beta iota.
  change (set2 t4 (u - 1) i (t4 !! i) (t4 !! (u - 1))) with (swap t4 (u - 1) i).
  pose proof (in_dom_permutes _ _ _ _ Hp5 Hd2) as Hd5.
  assert (forall a b c d, (a = l /\ b = i - 1 /\ c = i + 1 /\ d = u) \/ (a = i + 1 /\ b = u /\ c = l /\ d = i - 1) ->
    exists z, lbind (auxsort less fuel a b (swap t4 (u - 1) i)) (auxsort less fuel c d) = lret z /\
      permutes l u t z /\ sorted z l u) as Hend.
  { intros a b c d Hcase.
    destruct (sort_sides fuel (swap t4 (u - 1) i) l u i (t2 !! m) a b c d Hcase Hd5 ltac:(lia) Hsp) as (z & Ez & Hp & Hs).
    { intros x l' u' Hx Hlu'. apply IH; [done|lia|lia|lia]. }
    exists z. split; [done|]. split; [|done]. etrans; [exact Hp1|]. etrans; [exact Hp2|]. by etrans. }
  destruct (Z.ltb_spec (i - l) (u - i)).
  - destruct (Hend l (i - 1) (i + 1) u) as (z & Ez & Hz); [by left|]. exists z. rewrite <- Ez.
    replace (i - 1 + 2) with (i + 1) by lia. done.
  - destruct (Hend (i + 1) u l (i - 1)) as (z & Ez & Hz); [by right|]. exists z. rewrite <- Ez.
    replace (i + 1 - 2) with (i - 1) by lia. done.
Qed.
End Valid.

(** C26. [table.sort] sorts: with an order function that is a strict weak order on the
    elements, the sort of a table of [n] elements ends without an error, whatever
    pivots are met, its elements 1 to [n] are a permutation of the old ones, no
    element is less than one before it, and no other key has changed. *)
Theorem sort_sorts (n : nat) t :
  valid_order -> in_dom t 1 (Z.of_nat n) -> Z.of_nat n < 2 ^ 30 ->
  exists t', sort less (Z.of_nat n) t = lret t' /\ elements n t' ≡ₚ elements n t /\
    (forall i j, 1 <= i <= j -> j <= Z.of_nat n -> lt (t' !! j) (t' !! i) = false) /\
    (forall k, k < 1 \/ Z.of_nat n < k -> t' !! k = t !! k).
Proof.
  intros Hvo Hd Hn. unfold sort. rewrite Nat2Z.id.
  destruct (auxsort_spec Hvo n 1 (Z.of_nat n) t Hd ltac:(lia) Hn ltac:(lia)) as (t' & -> & Hp & Hs).
  exists t'. split; [done|]. split; [by apply permutes_elements|]. split; [exact Hs|].
  intros k Hk. by eapply permutes_outside.
Qed.
End Sorting.

(** ** Insertion and removal *)
Section Insertion.
Context {V : Type}.
Abbreviation table := (gmap Z V).
Implicit Types (t : table) (i k : Z).

Lemma lookup_rawseti t i v k : lua_rawseti t i v !! k = if decide (k = i) then v else t !! k.
Proof.
  unfold lua_rawseti. destruct (decide (k = i)) as [->|]; [by rewrite lookup_partial_alter_eq|].
  by rewrite lookup_partial_alter_ne.
Qed.

Lemma lookup_move_up n t i k :
  move_up n t i !! k = if decide (i - Z.of_nat n < k <= i) then t !! (k - 1) else t !! k.
Proof.
  revert t i. induction n as [|n IH]; intros t i; cbn [move_up].
  { rewrite decide_False by lia. done. }
  rewrite IH. unfold lua_rawgeti. rewrite !lookup_rawseti. repeat case_decide; try lia; try done. by subst.
Qed.

Lemma lookup_move_down n t i k :
  move_down n t i !! k = if decide (i <= k < i + Z.of_nat n) then t !! (k + 1) else t !! k.
Proof.
  revert t i. induction n as [|n IH]; intros t i; cbn [move_down].
  { rewrite decide_False by lia. done. }
  rewrite IH. unfold lua_rawgeti. rewrite !lookup_rawseti. repeat case_decide; try lia; try done. by subst.
Qed.

(** The table has the elements [xs] at 1, 2, ... and nothing at larger keys. *)
Definition holds t (xs : list (option V)) : Prop :=
  forall k : nat, t !! (Z.of_nat k + 1) = default None (xs !! k).

(** [table.insert(t, pos, v)] inserts: the elements from [pos] on move up by one,
    [v] stands at [pos], keys outside are untouched; and [table.remove(t, pos)] then
    returns [v] and gives back the table as it was. *)
Theorem insert_then_remove (n pos : Z) (v : option V) (checkint : option V -> LuaM Z) p t (xs : list (option V)) :
  n = Z.of_nat (length xs) -> n < INT_MAX -> 1 <= pos <= n + 1 -> checkint p = lret pos -> holds t xs ->
  exists t', tinsert n [p; v] checkint t = lret t' /\
    holds t' (take (Z.to_nat (pos - 1)) xs ++ v :: drop (Z.to_nat (pos - 1)) xs) /\
    (forall k, k < 1 -> t' !! k = t !! k) /\
    tremove (n + 1) (Some pos) t' = ([v], t).
Proof.
  intros Hn Hmax Hpos Hci Ht. unfold tinsert. rewrite Hci. cbn [lbind lret].
  rewrite swrap_small by (unfold INT_MAX in *; lia). destruct (Z.ltb_spec (n + 1) pos); [lia|].
  eexists. split; [done|]. set (t' := lua_rawseti _ pos v).
  assert (forall k, t' !! k = if decide (k = pos) then v else if decide (pos < k <= n + 1) then t !! (k - 1) else t !! k) as Hl.
  { intros k. unfold t'. rewrite lookup_rawseti, lookup_move_up. rewrite Z2Nat.id by lia. repeat case_decide; try lia; done. }
  assert (forall k, n < k -> t !! k = None) as Hend.
  { intros k Hk. specialize (Ht (Z.to_nat (k - 1))). rewrite Z2Nat.id in Ht by lia.
    replace (k - 1 + 1) with k in Ht by lia. rewrite Ht, lookup_ge_None_2 by lia. done. }
  split; [|split].
  - intros k. rewrite Hl. assert (length (take (Z.to_nat (pos - 1)) xs) = Z.to_nat (pos - 1)) as Hlt by (rewrite length_take; lia).
    destruct (decide (Z.of_nat k + 1 = pos)).
    { rewrite lookup_app_r by lia. rewrite Hlt. replace (k - Z.to_nat (pos - 1))%nat with O by lia. done. }
    destruct (decide (Z.of_nat k + 1 < pos)).
    { rewrite decide_False by lia. rewrite lookup_app_l by lia. rewrite lookup_take_lt by lia. apply Ht. }
    rewrite lookup_app_r by lia. rewrite Hlt.
    replace (k - Z.to_nat (pos - 1))%nat with (S (k - Z.to_nat pos)) by lia.
    change ((v :: ?l) !! S ?m) with (l !! m). rewrite lookup_drop. replace (Z.to_nat (pos - 1) + (k - Z.to_nat pos))%nat with (k - 1)%nat by lia.
    rewrite <- Ht. replace (Z.of_nat (k - 1) + 1) with (Z.of_nat k) by lia.
    case_decide; [f_equal; lia|]. rewrite !Hend by lia. done.
  - intros k Hk. rewrite Hl. rewrite !decide_False by lia. done.
  - unfold tremove. cbv zeta. change (default (n + 1) (Some pos)) with pos. destruct (Z.leb_spec 1 pos), (Z.leb_spec pos (n + 1)); try lia. cbn [andb negb].
    assert (lua_rawgeti t' pos = v) as -> by (unfold lua_rawgeti; by rewrite Hl, decide_True).
    f_equal. apply map_eq. intros k. rewrite lookup_rawseti, lookup_move_down, !Hl. rewrite Z2Nat.id by lia.
    destruct (decide (k = n + 1)) as [->|]; [by rewrite Hend by lia|].
    repeat case_decide; try lia; try done. f_equal. lia.
Qed.

(** ** Concatenation *)
Variable tolstring : option V -> option bytes.

Fixpoint join (sep : bytes) (ss : list bytes) : bytes :=
  match ss with [] => [] | [s] => s | s :: ss => s ++ sep ++ join sep ss end.

Lemma concat_loop_spec n t sep i b ss : length ss = n ->
  (forall (k : nat) s, ss !! k = Some s -> tolstring (t !! (i + Z.of_nat k)) = Some s) ->
  concat_loop tolstring n t sep i (i + Z.of_nat n) b = lret (b ++ concat ((fun s => s ++ sep) <$> ss), i + Z.of_nat n).
Proof.
  revert i b ss. induction n as [|n IH]; intros i b ss Hlen Hs; cbn [concat_loop].
  - destruct ss; [|done]. destruct (Z.ltb_spec i (i + Z.of_nat 0)); [lia|]. cbn. rewrite app_nil_r. f_equal. f_equal. f_equal. lia.
  - destruct ss as [|s ss]; [done|]. destruct (Z.ltb_spec i (i + Z.of_nat (S n))); [|lia].
    unfold addfield, lua_rawgeti. pose proof (Hs O s eq_refl) as H0. rewrite Z.add_0_r in H0. rewrite H0. cbn [lbind lret].
    replace (i + Z.of_nat (S n)) with (i + 1 + Z.of_nat n) by lia.
    rewrite (IH _ _ ss) by (try (by injection Hlen); intros k x Hk; specialize (Hs (S k) x Hk); rewrite <- Hs; f_equal; f_equal; lia).
    cbn [fmap list_fmap concat]. by rewrite <- !app_assoc.
Qed.

Lemma join_snoc sep ss s : concat ((fun x => x ++ sep) <$> ss) ++ s = join sep (ss ++ [s]).
Proof.
  induction ss as [|x ss IH]; [done|]. cbn [fmap list_fmap concat app join]. rewrite <- app_assoc, IH.
  destruct (ss ++ [s]) eqn:E; [by destruct ss|]. by rewrite <- app_assoc.
Qed.

(** [table.concat(t, sep, i, j)] is the strings (or numbers) of the elements [i] to [j]
    joined by [sep], the empty string when [j < i]; an element that is neither raises
    an error. *)
Theorem tconcat_joins t sep (i : Z) (ss : list bytes) :
  (forall (k : nat) s, ss !! k = Some s -> tolstring (t !! (i + Z.of_nat k)) = Some s) ->
  tconcat tolstring sep i (i + Z.of_nat (length ss) - 1) t = lret (join sep ss) /\
  (tolstring (t !! (i + Z.of_nat (length ss))) = None ->
    tconcat tolstring sep i (i + Z.of_nat (length ss)) t = lerror "invalid value in table for 'concat'").
Proof.
  intros Hs. unfold tconcat. split.
  - destruct ss as [|s ss _] using rev_ind.
    + cbn [length]. replace (Z.to_nat _) with O by lia. cbn [concat_loop].
      destruct (Z.ltb_spec i (i + Z.of_nat 0 - 1)); [lia|]. cbn [lbind lret].
      destruct (Z.eqb_spec i (i + Z.of_nat 0 - 1)); [lia|]. done.
    + rewrite length_app. cbn [length]. replace (i + Z.of_nat (length ss + 1) - 1) with (i + Z.of_nat (length ss)) by lia.
      replace (Z.to_nat (i + Z.of_nat (length ss) - i)) with (length ss) by lia.
      rewrite (concat_loop_spec _ t sep i [] ss); [|done|intros k x Hk; apply Hs; by apply lookup_app_l_Some].
      cbn [lbind lret]. rewrite Z.eqb_refl. unfold addfield, lua_rawgeti.
      rewrite (Hs (length ss) s) by (rewrite lookup_app_r, Nat.sub_diag by lia; done).
      cbn [app]. by rewrite join_snoc.
  - intros Hn. replace (Z.to_nat (i + Z.of_nat (length ss) - i)) with (length ss) by lia.
    rewrite (concat_loop_spec _ t sep i [] ss) by done. cbn [lbind lret]. rewrite Z.eqb_refl.
    unfold addfield, lua_rawgeti. by rewrite Hn.
Qed.
End Insertion.

(** ** Witnesses *)
Definition sample_less (x y : option Z) : LuaM bool :=
  match x, y with Some a, Some b => lret (a <? b) | _, _ => lerror "attempt to compare nil with number" end.
Definition sample_lt (x y : option Z) : bool := match x, y with Some a, Some b => a <? b | _, _ => false end.

Definition table_of (xs : list Z) : gmap Z Z := list_to_map (zip (Z.of_nat <$> seq 1 (length xs)) xs).

Lemma sort_sorts_witness : exists t',
  sort sample_less 8 (table_of [5; 3; 8; 1; 9; 2; 7; 3]) = lret t' /\
  elements 8 t' = Some <$> [1; 2; 3; 3; 5; 7; 8; 9] /\
  forall i j, 1 <= i <= j -> j <= 8 -> sample_lt (t' !! j) (t' !! i) = false.
Proof.
  assert (valid_order sample_less sample_lt (fun x => is_Some x)) as Hvo.
  { split.
    - intros x y [a ->] [b ->]. reflexivity.
    - intros x y [a ->] [b ->]. cbn. lia.
    - intros x y z [a ->] [b ->] [c ->]. cbn. lia. }
  assert (in_dom (fun x => is_Some x) (table_of [5; 3; 8; 1; 9; 2; 7; 3]) 1 8) as Hd.
  { intros k Hk. assert (k = 1 \/ k = 2 \/ k = 3 \/ k = 4 \/ k = 5 \/ k = 6 \/ k = 7 \/ k = 8) as Hc by lia.
    repeat (destruct Hc as [->|Hc]; [by eexists|]). subst k. by eexists. }
  destruct (sort_sorts sample_less sample_lt (fun x => is_Some x) 8 _ Hvo Hd eq_refl) as (t' & E & _ & Hs & _).
  exists t'. split; [exact E|]. split; [vm_compute in E; injection E as <-; reflexivity|exact Hs].
Defined.

Lemma insert_then_remove_witness : exists t',
  tinsert 3 [Some 2; Some 9] (fun p => match p with Some k => lret k | None => lerror "number expected" end)
    (table_of [4; 5; 6]) = lret t' /\ elements 4 t' = Some <$> [4; 9; 5; 6] /\
  tremove 4 (Some 2) t' = ([Some 9], table_of [4; 5; 6]).
Proof.
  destruct (insert_then_remove 3 2 (Some 9) (fun p => match p with Some k => lret k | None => lerror "number expected" end)
    (Some 2) (table_of [4; 5; 6]) [Some 4; Some 5; Some 6] eq_refl eq_refl ltac:(lia) eq_refl) as (t' & E & _ & _ & Hr).
  { intros [|[|[|k]]]; try reflexivity. unfold table_of. cbn. rewrite !lookup_insert_ne by lia. apply lookup_empty. }
  exists t'. split; [exact E|]. split; [vm_compute in E; injection E as <-; reflexivity|exact Hr].
Defined.

Lemma tconcat_joins_witness :
  tconcat (fun x : option Z => (fun a => [a]) <$> x) [44] 1 3 (table_of [65; 66; 67]) = lret [65; 44; 66; 44; 67].
Proof.
  exact (proj1 (tconcat_joins (fun x : option Z => (fun a => [a]) <$> x) (table_of [65; 66; 67]) [44] 1 [[65]; [66]; [67]]
    ltac:(intros [|[|[|k]]] s Hk; first [injection Hk as <-; reflexivity|discriminate Hk]))).
Defined.
