(* ===== verification/Ide.v ===== *)
(** * The IDE driver (src/includeos-patch/ide.cpp)

    The driver over a device: [Device] has the port accesses the code makes, on a state
    of the device. A buffer is the list of the 16-bit words the code sees through its
    [uint16_t*]; the sizes of a sector are IncludeOS's. Callbacks are any functions on the state of the driver, so they may
    queue further requests. Waiting for the busy flag to clear is bounded by [spin]
    reads: [None] is a device that stays busy, and also a wild access. The probing of
    the PCI device and the subscription to the interrupt are left out. *)
From S2P Require Import Prelude.
#[local] Open Scope Z_scope.

Definition IDE_DATA : Z := 0x1F0.
Definition IDE_SECCNT : Z := 0x1F2.
Definition IDE_LBA0 : Z := 0x1F3.
Definition IDE_LBA1 : Z := 0x1F4.
Definition IDE_LBA2 : Z := 0x1F5.
Definition IDE_DRV : Z := 0x1F6.
Definition IDE_CMD : Z := 0x1F7.
Definition IDE_SECCOUNT1 : Z := 0x1F8.
Definition IDE_LBA3 : Z := 0x1F9.
Definition IDE_LBA4 : Z := 0x1FA.
Definition IDE_LBA5 : Z := 0x1FB.
Definition IDE_STATUS : Z := IDE_CMD.
Definition IDE_CTRL_IRQ : Z := 0x3F6.
Definition IDE_CMD_READ : Z := 0x20.
Definition IDE_CMD_WRITE : Z := 0x30.
Definition IDE_CMD_IDENTIFY : Z := 0xEC.
Definition IDE_DRQ : Z := 8.
Definition IDE_DRDY : Z := 64.
Definition IDE_BUSY : Z := 128.
Definition IDE_TIMEOUT : nat := 2048.
Definition SECTOR_SIZE : Z := 512.
Definition SECTOR_ARRAY : nat := 256.

Class Device (D : Type) := {
  inb : Z -> D -> Z * D;
  inw : Z -> D -> Z * D;
  outb : Z -> Z -> D -> D;
  outw : Z -> Z -> D -> D;
}.

Section Ide.
Context {D : Type} `{Device D} {CB : Type}.
Variable spin : nat.

(** ** Waiting and registers *)
Fixpoint spinwait_status_busy (fuel : nat) (d : D) : option D :=
  match fuel with
  | O => None
  | S fuel =>
      let (ret, d) := inb IDE_STATUS d in
      if Z.land ret IDE_BUSY =? IDE_BUSY then spinwait_status_busy fuel d else Some d
  end.

Fixpoint wait_flags (i : nat) (flags : Z) (set : bool) (d : D) : D :=
  match i with
  | O => d
  | S i =>
      let (ret, d) := inb IDE_STATUS d in
      if (if set then Z.land ret flags =? flags else negb (Z.land ret flags =? flags)) then d else wait_flags i flags set d
  end.
Definition wait_status_flags (flags : Z) (set : bool) (d : D) : option D :=
  d ← spinwait_status_busy spin d; Some (wait_flags IDE_TIMEOUT flags set d).

Definition set_drive (drive : Z) (d : D) : option D := d ← wait_status_flags IDE_DRQ true d; Some (outb IDE_DRV (u8 drive) d).
Definition set_nbsectors (cnt : Z) (d : D) : option D := d ← wait_status_flags IDE_DRQ true d; Some (outb IDE_SECCNT (u8 cnt) d).
Definition set_reg (port v : Z) (d : D) : option D := d ← wait_status_flags IDE_DRQ true d; Some (outb port (u8 v) d).
Definition set_blocknum (blk : Z) (d : D) : option D :=
  d ← set_reg IDE_LBA0 (Z.land blk 0xFF) d;
  d ← set_reg IDE_LBA1 (Z.shiftr (Z.land blk 0xFF00) 8) d;
  d ← set_reg IDE_LBA2 (Z.shiftr (Z.land blk 0xFF0000) 16) d;
  d ← set_reg IDE_SECCOUNT1 1 d;
  d ← set_reg IDE_LBA3 (Z.shiftr (Z.land blk 0xFF000000) 24) d;
  d ← set_reg IDE_LBA4 0 d;
  set_reg IDE_LBA5 0 d.
Definition set_command (command : Z) (d : D) : option D :=
  d ← wait_status_flags IDE_DRDY false d; Some (outb IDE_CMD (u8 command) d).
Definition set_irq_mode (on : bool) (d : D) : option D :=
  d ← wait_status_flags IDE_DRDY false d; Some (outb IDE_CTRL_IRQ (if on then 0 else 1) d).

(** The command sequence that all four requests share. *)
Definition drive_byte (drive_id blk : Z) : Z := u8 (Z.lor (Z.lor 0xE0 drive_id) (Z.land (Z.shiftr blk 24) 0x0F)).
Definition start (irq : bool) (drive_id blk cnt command : Z) (d : D) : option D :=
  d ← set_irq_mode irq d;
  d ← set_drive (drive_byte drive_id blk) d;
  d ← set_nbsectors cnt d;
  d ← set_blocknum blk d;
  set_command command d.

Fixpoint in_words (n : nat) (d : D) : list Z * D :=
  match n with
  | O => ([], d)
  | S n => let (w, d) := inw IDE_DATA d in let (ws, d) := in_words n d in (w :: ws, d)
  end.
Definition out_words (ws : list Z) (d : D) : D := fold_left (fun d w => outw IDE_DATA w d) ws d.

(** ** The driver *)
Record workq_item := {
  wq_drive_id : Z; wq_read : bool; wq_sector : Z; wq_position : Z; wq_total : Z; wq_buffer : list Z; wq_call : CB;
}.
Record ide := { drive_id : Z; num_blocks : Z; work_queue : list workq_item; device : D }.

Definition set_device (d : D) (s : ide) : ide :=
  {| drive_id := drive_id s; num_blocks := num_blocks s; work_queue := work_queue s; device := d |}.
Definition set_queue (q : list workq_item) (s : ide) : ide :=
  {| drive_id := drive_id s; num_blocks := num_blocks s; work_queue := q; device := device s |}.

(** The capacity, from the words of the identification. *)
Definition capacity (read_array : list Z) : option Z :=
  w82 ← read_array !! 82%nat; w83 ← read_array !! 83%nat;
  let command_sets := u32 (Z.lor w82 (Z.shiftl w83 16)) in
  let words := if negb (Z.land command_sets (Z.shiftl 1 26) =? 0) then (101, 100)%nat else (61, 60)%nat in
  hi ← read_array !! words.1; lo ← read_array !! words.2;
  Some (u64 (Z.lor (i32 (Z.shiftl hi 16)) lo)).

(** The constructor, from [set_irq_mode] on. *)
Definition IDE_init (id : Z) (d : D) : option ide :=
  d ← set_irq_mode false d;
  d ← set_drive (Z.lor 0xA0 id) d;
  d ← set_nbsectors 0 d;
  d ← set_blocknum 0 d;
  d ← set_command IDE_CMD_IDENTIFY d;
  let (status, d) := inb IDE_STATUS d in
  if status =? 0 then None
  else
    d ← wait_status_flags IDE_DRDY false d;
    let (ws, d) := in_words SECTOR_ARRAY d in
    n ← capacity ws;
    Some {| drive_id := id; num_blocks := n; work_queue := []; device := d |}.

(** *** Synchronous requests: [Some None] is a null buffer. *)
Fixpoint read_sectors (cnt : nat) (d : D) : option (list Z * D) :=
  match cnt with
  | O => Some ([], d)
  | S cnt =>
      d ← wait_status_flags IDE_DRDY false d;
      let (ws, d) := in_words SECTOR_ARRAY d in
      '(rest, d) ← read_sectors cnt d; Some (ws ++ rest, d)
  end.

Definition read_sync (blk cnt : Z) (s : ide) : option (option (list Z) * ide) :=
  if blk >=? num_blocks s then Some (None, s)
  else
    d ← start false (drive_id s) blk cnt IDE_CMD_READ (device s);
    '(ws, d) ← read_sectors (Z.to_nat cnt) d;
    Some (Some ws, set_device d s).

Definition sectors_of (buffer : list Z) : Z := Z.of_nat (length buffer) / Z.of_nat SECTOR_ARRAY.

(** [true] is a refused write. *)
Definition write_sync (blk : Z) (buffer : list Z) (s : ide) : option (bool * ide) :=
  if u64 (blk + sectors_of buffer) >? num_blocks s then Some (true, s)
  else
    let total := u32 (sectors_of buffer) in
    d ← start false (drive_id s) blk total IDE_CMD_WRITE (device s);
    Some (false, set_device (out_words (take (Z.to_nat (u32 (total * Z.of_nat SECTOR_ARRAY))) buffer) d) s).

(** *** Queued requests *)

(** What a callback gets: a buffer (null for a refused read), or whether a write failed. *)
Inductive answer := Buffer (b : option (list Z)) | Failed (b : bool).
Variable callback : CB -> answer -> ide -> option ide.

Definition work_begin_next (s : ide) : option ide :=
  match work_queue s with
  | [] => Some s
  | item :: _ =>
      if negb (wq_position item =? 0) then None
      else
        d ← start true (wq_drive_id item) (wq_sector item) (wq_total item)
              (if wq_read item then IDE_CMD_READ else IDE_CMD_WRITE) (device s);
        Some (set_device d s)
  end.

Definition enqueue (item : workq_item) (s : ide) : option ide :=
  let s := set_queue (work_queue s ++ [item]) s in
  if (length (work_queue s) =? 1)%nat then work_begin_next s else Some s.

Definition read (blk count : Z) (call : CB) (s : ide) : option ide :=
  if (u64 (blk + count) >=? num_blocks s) || (count =? 0) then callback call (Buffer None) s
  else
    let total := u32 count in
    enqueue {| wq_drive_id := drive_id s; wq_read := true; wq_sector := blk; wq_position := 0; wq_total := total;
               wq_buffer := replicate (Z.to_nat (u32 (total * SECTOR_SIZE) / 2)) 0; wq_call := call |} s.

Definition write (blk : Z) (buffer : list Z) (call : CB) (s : ide) : option ide :=
  if u64 (blk + sectors_of buffer) >? num_blocks s then callback call (Failed true) s
  else if negb (Z.of_nat (length buffer) mod Z.of_nat SECTOR_ARRAY =? 0) then None
  else
    enqueue {| wq_drive_id := drive_id s; wq_read := false; wq_sector := blk; wq_position := 0;
               wq_total := u32 (sectors_of buffer); wq_buffer := buffer; wq_call := call |} s.

Definition advance (buffer : list Z) (item : workq_item) : workq_item :=
  {| wq_drive_id := wq_drive_id item; wq_read := wq_read item; wq_sector := wq_sector item;
     wq_position := wq_position item + 1; wq_total := wq_total item; wq_buffer := buffer; wq_call := wq_call item |}.
Definition done (item : workq_item) : bool := wq_position item =? wq_total item.

(** One turn of the handler's loop. The item is a reference into the queue: when a read
    is complete it is popped, and the test [item.read == false] behind reads what is left
    of it; [stale] says whether that memory still holds [read]. *)
Definition irq_turn (stale : bool) (s : ide) : option ide :=
  match work_queue s with
  | [] => None
  | item :: queue =>
      d ← wait_status_flags IDE_DRDY false (device s);
      let pos := (Z.to_nat (wq_position item) * SECTOR_ARRAY)%nat in
      if (length (wq_buffer item) <? pos + SECTOR_ARRAY)%nat then None
      else if wq_read item then
        let (ws, d) := in_words SECTOR_ARRAY d in
        let item := advance (take pos (wq_buffer item) ++ ws ++ drop (pos + SECTOR_ARRAY) (wq_buffer item)) item in
        let s := set_queue (item :: queue) (set_device d s) in
        if done item then
          s ← callback (wq_call item) (Buffer (Some (wq_buffer item))) (set_queue queue s);
          s ← work_begin_next s;
          if stale then Some s else None
        else Some s
      else
        let d := out_words (take SECTOR_ARRAY (drop pos (wq_buffer item))) d in
        let item := advance (wq_buffer item) item in
        let s := set_queue (item :: queue) (set_device d s) in
        if done item then
          s ← callback (wq_call item) (Failed false) (set_queue queue s); work_begin_next s
        else Some s
  end.

Fixpoint irq_handler (fuel : nat) (stale : bool) (s : ide) : option ide :=
  match work_queue s with
  | [] => Some s
  | _ => match fuel with O => None | S fuel => s ← irq_turn stale s; irq_handler fuel stale s end
  end.
End Ide.
#[global] Arguments workq_item : clear implicits.
#[global] Arguments ide : clear implicits.
