(* ===== verification/IdeProps.v ===== *)
(** * The IDE driver reads what is on the disk

    [AtaDisk] is the interface to the two drives of an ATA channel: what the standard
    promises for PIO reads with 28-bit block numbers, on an abstract view of the channel
    (its registers, for how many more reads the status says busy, the words waiting in the
    data port, the contents of each drive's sectors, and [other], what is outside the
    drives). A drive is busy after a command and between two sectors, for at most [lag]
    reads of the status; what a port does while it is busy, and a command whose drive byte
    lacks the bits of LBA or whose sectors are not all on the drive, are not promised. *)
From Stdlib Require Import ZifyBool.
From S2P Require Import Prelude Ide.
#[local] Open Scope Z_scope.

Record view (O : Type) := View { regs : gmap Z Z; busy : nat; pending : list Z; content : Z -> Z -> list Z; other : O }.
#[global] Arguments View {O}.
#[global] Arguments regs {O}.
#[global] Arguments busy {O}.
#[global] Arguments pending {O}.
#[global] Arguments content {O}.
#[global] Arguments other {O}.

Definition reg {O} (v : view O) (p : Z) : Z := default 0 (regs v !! p).
(** The command block: the drive byte has the LBA bit (6, with 5 and 7 set as in every
    drive byte), the bit of the drive (4) and the top of the block number. *)
Definition lba_mode {O} (v : view O) : Prop := Z.land (reg v IDE_DRV) 0xE0 = 0xE0.
Definition selected {O} (v : view O) : Z := Z.land (reg v IDE_DRV) 0x10.
Definition lba28 {O} (v : view O) : Z :=
  reg v IDE_LBA0 + 2 ^ 8 * reg v IDE_LBA1 + 2 ^ 16 * reg v IDE_LBA2 + 2 ^ 24 * Z.land (reg v IDE_DRV) 0x0F.
Definition sector_count {O} (v : view O) : Z := if reg v IDE_SECCNT =? 0 then 256 else reg v IDE_SECCNT.

Definition with_reg {O} (p x : Z) (v : view O) : view O := View (<[p := x]> (regs v)) (busy v) (pending v) (content v) (other v).
Definition with_busy {O} (n : nat) (v : view O) : view O := View (regs v) n (pending v) (content v) (other v).
Definition with_pending {O} (ws : list Z) (v : view O) : view O := View (regs v) (busy v) ws (content v) (other v).
Abbreviation ready := (with_busy 0%nat).

Lemma reg_with {O} p x (v : view O) q : reg (with_reg p x v) q = if q =? p then x else reg v q.
Proof.
  unfold reg, with_reg. cbn. destruct (Z.eqb_spec q p) as [->|]; [by rewrite lookup_insert_eq|by rewrite lookup_insert_ne].
Qed.
Lemma reg_busy {O} n (v : view O) q : reg (with_busy n v) q = reg v q.
Proof. done. Qed.

(** The words of [n] sectors of the drive [u] from [blk] on. *)
Definition sectors {O} (v : view O) (u blk : Z) (n : nat) : list Z := concat ((fun i => content v u (blk + Z.of_nat i)) <$> seq 0 n).

Lemma sectors_content {O} (v v' : view O) u blk n : content v = content v' -> sectors v u blk n = sectors v' u blk n.
Proof. unfold sectors. by intros ->. Qed.

Lemma sectors_S {O} (v : view O) u blk n : sectors v u blk (S n) = content v u blk ++ sectors v u (blk + 1) n.
Proof.
  unfold sectors. cbn [seq]. rewrite fmap_cons. cbn [concat]. rewrite Z.add_0_r. f_equal. f_equal.
  rewrite <- fmap_S_seq, <- list_fmap_compose. apply list_fmap_ext. intros i x _. cbn. f_equal. lia.
Qed.

Class AtaDisk (D O : Type) `{Device D} := {
  look : D -> view O;
  lag : nat;
  disk_size : Z -> Z;
  busy_lag d : (busy (look d) <= lag)%nat;
  inb_status d : match busy (look d) with
    | O => Z.land (inb IDE_STATUS d).1 IDE_BUSY <> IDE_BUSY /\ look (inb IDE_STATUS d).2 = look d
    | S n => Z.land (inb IDE_STATUS d).1 IDE_BUSY = IDE_BUSY /\ look (inb IDE_STATUS d).2 = with_busy n (look d)
    end;
  outb_reg p v d : p <> IDE_CMD -> busy (look d) = 0%nat -> look (outb p v d) = with_reg p v (look d);
  outb_read d : busy (look d) = 0%nat -> lba_mode (look d) ->
    lba28 (look d) + sector_count (look d) <= disk_size (selected (look d)) ->
    exists n, look (outb IDE_CMD IDE_CMD_READ d) =
      with_busy n (with_pending (sectors (look d) (selected (look d)) (lba28 (look d)) (Z.to_nat (sector_count (look d))))
        (with_reg IDE_CMD IDE_CMD_READ (look d)));
  inw_next d w ws : busy (look d) = 0%nat -> pending (look d) = w :: ws ->
    (inw IDE_DATA d).1 = w /\
    exists n, look (inw IDE_DATA d).2 = with_busy n (with_pending ws (look d)) /\ ((length ws mod SECTOR_ARRAY)%nat <> 0%nat -> n = 0%nat);
  sector_length d u i : length (content (look d) u i) = SECTOR_ARRAY;
}.

Section Reads.
Context {D O CB : Type} `{AtaDisk D O}.
Variable spin : nat.
(** The driver polls for longer than the drive is busy. *)
Hypothesis Hspin : (lag < spin)%nat.
Implicit Types (d : D) (v : view O).

(** ** Waiting *)
Lemma wait_flags_look i flags set d : busy (look d) = 0%nat -> look (wait_flags i flags set d) = look d.
Proof.
  revert d. induction i as [|i IH]; intros d Hb; [done|]. cbn [wait_flags].
  pose proof (inb_status d) as Hs. rewrite Hb in Hs. destruct (inb IDE_STATUS d) as [ret d'] eqn:E. destruct Hs as [_ Hl]. cbn in Hl.
  destruct (if set then _ else _); [done|]. rewrite IH; congruence.
Qed.

Lemma spinwait_ok n d : (busy (look d) < n)%nat -> exists d', spinwait_status_busy n d = Some d' /\ look d' = ready (look d).
Proof.
  revert d. induction n as [|n IH]; intros d Hn; [lia|]. cbn [spinwait_status_busy].
  pose proof (inb_status d) as Hs. destruct (inb IDE_STATUS d) as [ret d']. cbn [fst snd] in Hs.
  destruct (busy (look d)) as [|k] eqn:Eb; destruct Hs as [Hb Hl].
  - destruct (Z.eqb_spec (Z.land ret IDE_BUSY) IDE_BUSY); [done|]. exists d'. split; [done|]. rewrite Hl.
    destruct (look d). unfold with_busy. cbn in *. by rewrite Eb.
  - rewrite Hb, Z.eqb_refl. destruct (IH d') as (d'' & E & Hl'); [rewrite Hl; cbn; lia|]. exists d''. split; [done|]. by rewrite Hl', Hl.
Qed.

Lemma wait_ok flags set d : exists d', wait_status_flags spin flags set d = Some d' /\ look d' = ready (look d).
Proof using Hspin.
  unfold wait_status_flags. pose proof (busy_lag d) as Hb. destruct (spinwait_ok spin d ltac:(lia)) as (d' & -> & Hl).
  cbn [mbind option_bind]. eexists. split; [done|]. rewrite wait_flags_look by (by rewrite Hl). done.
Qed.

Lemma set_reg_ok p x d : p <> IDE_CMD -> exists d', set_reg spin p x d = Some d' /\ look d' = with_reg p (u8 x) (ready (look d)).
Proof using Hspin.
  intros Hp. unfold set_reg. destruct (wait_ok IDE_DRQ true d) as (d' & -> & Hl). cbn [mbind option_bind].
  eexists. split; [done|]. rewrite outb_reg by (done || by rewrite Hl). by rewrite Hl.
Qed.

(** ** The command sequence *)
Lemma byte_of_block blk m n : 0 <= n -> m = Z.shiftl 255 n -> 0 <= Z.shiftr (Z.land blk m) n < 256 /\
  Z.shiftr (Z.land blk m) n = Z.land (Z.shiftr blk n) 255.
Proof.
  intros Hn ->. assert (Z.shiftr (Z.land blk (Z.shiftl 255 n)) n = Z.land (Z.shiftr blk n) 255) as ->.
  { rewrite Z.shiftr_land, Z.shiftr_shiftl_l by lia. by rewrite Z.sub_diag, Z.shiftl_0_r. }
  split; [|done]. change 255 with (Z.ones 8). rewrite Z.land_ones by lia. apply Z.mod_pos_bound. lia.
Qed.

(** The four parts of a block number that the registers hold. *)
Lemma block_parts blk : 0 <= blk < 2 ^ 28 ->
  Z.land blk 255 + 2 ^ 8 * Z.land (Z.shiftr blk 8) 255 + 2 ^ 16 * Z.land (Z.shiftr blk 16) 255 + 2 ^ 24 * Z.land (Z.shiftr blk 24) 15 = blk.
Proof.
  intros Hb. change 255 with (Z.ones 8). change 15 with (Z.ones 4). rewrite !Z.land_ones, !Z.shiftr_div_pow2 by lia.
  change (2 ^ 8) with 256. change (2 ^ 16) with 65536. change (2 ^ 24) with 16777216. change (2 ^ 4) with 16.
  pose proof (Z.div_mod blk 256). pose proof (Z.div_mod (blk / 256) 256). pose proof (Z.div_mod (blk / 65536) 256).
  assert (blk / 65536 = blk / 256 / 256) as E1 by (rewrite Z.div_div by lia; done).
  assert (blk / 16777216 = blk / 65536 / 256) as E2 by (rewrite Z.div_div by lia; done).
  assert (0 <= blk / 16777216 < 16) as E3.
  { split; [apply Z.div_pos; lia|]. apply Z.div_lt_upper_bound; [lia|]. cbn in Hb. lia. }
  rewrite (Z.mod_small (blk / 16777216) 16) by done. lia.
Qed.

Definition drive_ok (id : Z) : Prop := id = 0 \/ id = 0x10.

Lemma drive_byte_nibble id blk : drive_ok id -> Z.land (drive_byte id blk) 0x0F = Z.land (Z.shiftr blk 24) 15.
Proof.
  intros Hid. unfold drive_byte, uwrap. apply Z.bits_inj'. intros i Hi.
  rewrite !Z.land_spec. destruct (Z.ltb_spec i 8) as [Hlt|Hge].
  - rewrite Z.mod_pow2_bits_low by lia. rewrite !Z.lor_spec, Z.land_spec.
    destruct (Z.testbit 15 i) eqn:E15; [|by rewrite !andb_false_r]. rewrite !andb_true_r.
    assert (i < 4) by (destruct (Z.ltb_spec i 4); [done|]; rewrite (testbit_high 4 15) in E15; [done|lia|lia]).
    assert (Z.testbit 0xE0 i = false /\ Z.testbit id i = false) as [-> ->]; [|done].
    assert (i = 0 \/ i = 1 \/ i = 2 \/ i = 3) as [-> |[-> |[-> | ->]]] by lia; destruct Hid as [-> | ->]; done.
  - rewrite (testbit_high 8 15) by lia. by rewrite !andb_false_r.
Qed.

(** The other bits of the drive byte: LBA, and the drive. *)
Lemma drive_byte_high id blk : drive_ok id -> Z.land (drive_byte id blk) 0xE0 = 0xE0 /\ Z.land (drive_byte id blk) 0x10 = id.
Proof.
  intros Hid. assert (0 <= Z.land (Z.shiftr blk 24) 15 < 16) as Hn.
  { change 15 with (Z.ones 4). rewrite Z.land_ones by lia. apply Z.mod_pos_bound. lia. }
  unfold drive_byte. revert Hn. generalize (Z.land (Z.shiftr blk 24) 15) as n. intros n Hn.
  assert (Forall (fun n => Z.land (u8 (Z.lor (Z.lor 0xE0 id) n)) 0xE0 = 0xE0 /\ Z.land (u8 (Z.lor (Z.lor 0xE0 id) n)) 0x10 = id) (seqZ 0 16)) as Hall
    by (destruct Hid as [-> | ->]; vm_compute; repeat constructor).
  rewrite Forall_forall in Hall. apply Hall, elem_of_seqZ. lia.
Qed.

Lemma set_blocknum_ok blk d : exists d', set_blocknum spin blk d = Some d' /\
  look d' = with_reg IDE_LBA5 0 (with_reg IDE_LBA4 0 (with_reg IDE_LBA3 (u8 (Z.shiftr (Z.land blk 0xFF000000) 24))
    (with_reg IDE_SECCOUNT1 1 (with_reg IDE_LBA2 (u8 (Z.shiftr (Z.land blk 0xFF0000) 16))
    (with_reg IDE_LBA1 (u8 (Z.shiftr (Z.land blk 0xFF00) 8)) (with_reg IDE_LBA0 (u8 (Z.land blk 0xFF)) (ready (look d)))))))).
Proof using Hspin.
  unfold set_blocknum.
  destruct (set_reg_ok IDE_LBA0 (Z.land blk 0xFF) d) as (d1 & -> & L1); [done|]. cbn [mbind option_bind].
  destruct (set_reg_ok IDE_LBA1 (Z.shiftr (Z.land blk 0xFF00) 8) d1) as (d2 & -> & L2); [done|]. cbn [mbind option_bind].
  destruct (set_reg_ok IDE_LBA2 (Z.shiftr (Z.land blk 0xFF0000) 16) d2) as (d3 & -> & L3); [done|]. cbn [mbind option_bind].
  destruct (set_reg_ok IDE_SECCOUNT1 1 d3) as (d4 & -> & L4); [done|]. cbn [mbind option_bind].
  destruct (set_reg_ok IDE_LBA3 (Z.shiftr (Z.land blk 0xFF000000) 24) d4) as (d5 & -> & L5); [done|]. cbn [mbind option_bind].
  destruct (set_reg_ok IDE_LBA4 0 d5) as (d6 & -> & L6); [done|]. cbn [mbind option_bind].
  destruct (set_reg_ok IDE_LBA5 0 d6) as (d7 & -> & L7); [done|]. exists d7. split; [done|].
  by rewrite L7, L6, L5, L4, L3, L2, L1.
Qed.

(** The registers a read command looks at. *)
Lemma start_regs irq id blk cnt d : drive_ok id -> 0 <= blk < 2 ^ 28 -> 1 <= cnt <= 256 ->
  exists d5, start spin irq id blk cnt IDE_CMD_READ d = Some (outb IDE_CMD IDE_CMD_READ d5) /\ busy (look d5) = 0%nat /\
    content (look d5) = content (look d) /\ other (look d5) = other (look d) /\
    lba_mode (look d5) /\ selected (look d5) = id /\ lba28 (look d5) = blk /\ sector_count (look d5) = cnt.
Proof using Hspin.
  intros Hid Hb Hc. pose proof (drive_byte_nibble id blk Hid) as Hn. destruct (drive_byte_high id blk Hid) as [Hm Hs].
  assert (0 <= drive_byte id blk < 256) as Hdb by (apply uwrap_range; lia). unfold start.
  destruct (wait_ok IDE_DRDY false d) as (d0 & E0 & L0). unfold set_irq_mode. rewrite E0. cbn [mbind option_bind].
  set (d1 := outb IDE_CTRL_IRQ _ d0).
  assert (look d1 = with_reg IDE_CTRL_IRQ (if irq then 0 else 1) (ready (look d))) as L1.
  { unfold d1. rewrite outb_reg by (done || by rewrite L0). by rewrite L0. }
  change (set_drive spin (drive_byte id blk) d1) with (set_reg spin IDE_DRV (drive_byte id blk) d1).
  destruct (set_reg_ok IDE_DRV (drive_byte id blk) d1) as (d2 & -> & L2); [done|]. cbn [mbind option_bind].
  change (set_nbsectors spin cnt d2) with (set_reg spin IDE_SECCNT cnt d2).
  destruct (set_reg_ok IDE_SECCNT cnt d2) as (d3 & -> & L3); [done|]. cbn [mbind option_bind].
  destruct (set_blocknum_ok blk d3) as (d4 & -> & L4). cbn [mbind option_bind]. unfold set_command.
  destruct (wait_ok IDE_DRDY false d4) as (d5 & -> & L5). cbn [mbind option_bind]. exists d5.
  change (u8 IDE_CMD_READ) with IDE_CMD_READ. split; [done|]. rewrite L5, L4, L3, L2, L1. do 3 (split; [done|]).
  match goal with |- lba_mode ?v /\ _ => assert (reg v IDE_DRV = drive_byte id blk) as Ed end.
  { rewrite ?reg_busy; repeat rewrite ?reg_with, ?reg_busy. change (u8 (drive_byte id blk) = drive_byte id blk). by apply uwrap_small. }
  unfold lba_mode, selected. rewrite Ed. split; [done|]. split; [done|]. split.
  - unfold lba28. rewrite Ed. repeat rewrite ?reg_with, ?reg_busy.
    change (u8 (Z.land blk 255) + 2 ^ 8 * u8 (Z.shiftr (Z.land blk 65280) 8) + 2 ^ 16 * u8 (Z.shiftr (Z.land blk 16711680) 16) +
      2 ^ 24 * Z.land (drive_byte id blk) 15 = blk).
    destruct (byte_of_block blk 65280 8 ltac:(lia) eq_refl) as [R1 E1]. destruct (byte_of_block blk 16711680 16 ltac:(lia) eq_refl) as [R2 E2].
    destruct (byte_of_block blk 255 0 ltac:(lia) eq_refl) as [R0 _]. rewrite Z.shiftr_0_r in R0.
    rewrite !uwrap_small by (cbn; lia). rewrite Hn, E1, E2. by apply block_parts.
  - unfold sector_count. repeat rewrite ?reg_with, ?reg_busy. change ((if u8 cnt =? 0 then 256 else u8 cnt) = cnt). destruct (decide (cnt = 256)) as [->|]; [done|].
    rewrite uwrap_small by (cbn; lia). destruct (Z.eqb_spec cnt 0); lia.
Qed.

(** After the command the words of the sectors wait in the data port. *)
Lemma start_ok irq id blk cnt d : drive_ok id -> 0 <= blk < 2 ^ 28 -> 1 <= cnt <= 256 -> blk + cnt <= disk_size id ->
  exists d', start spin irq id blk cnt IDE_CMD_READ d = Some d' /\
    pending (look d') = sectors (look d) id blk (Z.to_nat cnt) /\ content (look d') = content (look d) /\ other (look d') = other (look d).
Proof using Hspin.
  intros Hid Hb Hc Hsz. destruct (start_regs irq id blk cnt d Hid Hb Hc) as (d5 & E & Hz & Ec & Eo & Em & Es & El & En).
  destruct (outb_read d5 Hz Em) as (n & L); [by rewrite Es, El, En|]. eexists. split; [exact E|]. rewrite L, Es, El, En.
  cbn [pending content other with_busy with_pending with_reg]. split; [|done]. by apply sectors_content.
Qed.

(** ** Reading words *)
Lemma sectors_length d v u blk n : content v = content (look d) -> length (sectors v u blk n) = (n * SECTOR_ARRAY)%nat.
Proof using H0.
  clear Hspin.
  intros Hc. revert blk. induction n as [|n IH]; intros blk; [done|]. rewrite sectors_S, length_app, IH, Hc, (sector_length d). lia.
Qed.

(** The words of a sector, or its last [n]: the drive is not busy before the next one. *)
Lemma in_words_ok n d ws rest : length ws = n -> (n <= SECTOR_ARRAY)%nat -> (length rest mod SECTOR_ARRAY = 0)%nat ->
  (n <> 0%nat -> busy (look d) = 0%nat) -> pending (look d) = ws ++ rest ->
  (in_words n d).1 = ws /\ pending (look (in_words n d).2) = rest /\
  content (look (in_words n d).2) = content (look d) /\ other (look (in_words n d).2) = other (look d).
Proof.
  intros Hl Hn Hr. revert d ws Hl. induction n as [|n IH]; intros d ws Hl Hb Hp.
  - by destruct ws.
  - destruct ws as [|w ws]; [done|]. cbn [app] in Hp. destruct (inw_next d w (ws ++ rest) (Hb ltac:(lia)) Hp) as [Ew (b & El & Hz)]. cbn [in_words].
    destruct (inw IDE_DATA d) as [w' d']. cbn in Ew, El. subst w'. injection Hl as Hl.
    destruct (IH ltac:(lia) d' ws Hl) as (E1 & E2 & E3 & E4).
    + intros Hn0. rewrite El. cbn. apply Hz. rewrite length_app, Hl, Nat.Div0.add_mod, Hr, Nat.add_0_r, Nat.Div0.mod_mod.
      rewrite Nat.mod_small; lia.
    + by rewrite El.
    + destruct (in_words n d') as [ws' d'']. cbn in *. subst ws'. rewrite E3, E4, El. done.
Qed.

Lemma read_sectors_ok n d u blk v : pending (look d) = sectors v u blk n -> content (look d) = content v ->
  exists d', read_sectors spin n d = Some (sectors v u blk n, d') /\ content (look d') = content v /\ other (look d') = other (look d).
Proof using Hspin.
  revert d blk. induction n as [|n IH]; intros d blk Hp Hc; [by exists d|]. cbn [read_sectors].
  destruct (wait_ok IDE_DRDY false d) as (d1 & -> & L1). cbn [mbind option_bind]. rewrite sectors_S in *.
  destruct (in_words_ok SECTOR_ARRAY d1 (content v u blk) (sectors v u (blk + 1) n)) as (E1 & E2 & E3 & E4).
  { rewrite <- Hc. apply sector_length. }
  { done. }
  { rewrite (sectors_length d) by done. apply Nat.Div0.mod_mul. }
  { by rewrite L1. }
  { by rewrite L1. }
  destruct (in_words SECTOR_ARRAY d1) as [ws d2]. cbn [fst snd] in *. subst ws.
  destruct (IH d2 (blk + 1)) as (d3 & -> & Hc3 & Ho3); [done|by rewrite E3, L1|].
  cbn [mbind option_bind]. exists d3. split; [done|]. split; [done|]. by rewrite Ho3, E4, L1.
Qed.

Lemma read_sync_ok (s : ide D CB) (blk cnt : Z) :
  drive_ok (drive_id s) -> 0 <= blk < num_blocks s -> blk < 2 ^ 28 -> 1 <= cnt <= 256 -> blk + cnt <= disk_size (drive_id s) ->
  exists s', read_sync spin blk cnt s = Some (Some (sectors (look (device s)) (drive_id s) blk (Z.to_nat cnt)), s') /\
    work_queue s' = work_queue s /\ content (look (device s')) = content (look (device s)).
Proof using Hspin.
  intros Hid Hb Hb28 Hc Hsz. unfold read_sync. assert ((blk >=? num_blocks s) = false) as -> by lia.
  destruct (start_ok false (drive_id s) blk cnt (device s) Hid ltac:(lia) Hc Hsz) as (d1 & -> & Hp & Hc1 & Ho1). cbn [mbind option_bind].
  destruct (read_sectors_ok (Z.to_nat cnt) d1 (drive_id s) blk (look (device s)) Hp Hc1) as (d2 & -> & Hc2 & _). cbn [mbind option_bind].
  by eexists.
Qed.

(** C33. A synchronous read of at most 256 sectors that are all on the drive, and begin in
    its first 2^28, returns the words of exactly these sectors of this drive: the drive,
    the block number and the count survive their way through the registers, the loop takes
    all the words the drive offers, and no port is used while the drive is busy, before
    the command, after it or between two sectors. The drive is one that keeps the
    interface [AtaDisk]; its answers to the status are polled for longer than it is busy. *)
Theorem read_sync_contents (s : ide D CB) (blk cnt : Z) :
  drive_ok (drive_id s) -> 0 <= blk < num_blocks s -> blk < 2 ^ 28 -> 1 <= cnt <= 256 -> blk + cnt <= disk_size (drive_id s) ->
  exists s', read_sync spin blk cnt s = Some (Some (sectors (look (device s)) (drive_id s) blk (Z.to_nat cnt)), s') /\
    work_queue s' = work_queue s /\ content (look (device s')) = content (look (device s)).
Proof using Hspin. apply read_sync_ok. Qed.

(** ** The queue *)
Section Queue.
Variable callback : CB -> answer -> ide D CB -> option (ide D CB).
Variable record : CB -> list Z -> O -> O.

(** A callback takes its buffer and leaves the driver alone. *)
Hypothesis Hcall : forall c ws s, exists s', callback c (Buffer (Some ws)) s = Some s' /\
  work_queue s' = work_queue s /\ content (look (device s')) = content (look (device s)) /\
  other (look (device s')) = record c ws (other (look (device s))).

(** A queued read that has not been started, and one of which [p] sectors have arrived. *)
Definition queued (it : workq_item CB) : Prop :=
  drive_ok (wq_drive_id it) /\ wq_read it = true /\ 0 <= wq_sector it < 2 ^ 28 /\ 1 <= wq_total it <= 256 /\
  wq_sector it + wq_total it <= disk_size (wq_drive_id it) /\ wq_position it = 0 /\
  wq_buffer it = replicate (Z.to_nat (wq_total it) * SECTOR_ARRAY) 0.

Definition at_position (c : Z -> Z -> list Z) (it : workq_item CB) (p : nat) : workq_item CB :=
  {| wq_drive_id := wq_drive_id it; wq_read := true; wq_sector := wq_sector it; wq_position := Z.of_nat p; wq_total := wq_total it;
     wq_buffer := concat ((fun i => c (wq_drive_id it) (wq_sector it + Z.of_nat i)) <$> seq 0 p) ++
                  replicate ((Z.to_nat (wq_total it) - p) * SECTOR_ARRAY) 0;
     wq_call := wq_call it |}.

(** The words a request asks for. *)
Definition data_of (c : Z -> Z -> list Z) (it : workq_item CB) : list Z :=
  concat ((fun i => c (wq_drive_id it) (wq_sector it + Z.of_nat i)) <$> seq 0 (Z.to_nat (wq_total it))).

(** [p] sectors of the first request have been read. *)
Record serving (it : workq_item CB) (p : nat) (queue : list (workq_item CB)) (c : Z -> Z -> list Z) (o : O) (s : ide D CB) : Prop := {
  sv_queue : work_queue s = at_position c it p :: queue;
  sv_content : content (look (device s)) = c;
  sv_other : other (look (device s)) = o;
  sv_pending : pending (look (device s)) = sectors (look (device s)) (wq_drive_id it) (wq_sector it + Z.of_nat p) (Z.to_nat (wq_total it) - p);
}.

Lemma at_zero c it : queued it -> at_position c it 0 = it.
Proof.
  intros (_ & Hr & _ & _ & _ & Hp & Hb). destruct it. unfold at_position. cbn in *. subst. by rewrite Nat.sub_0_r.
Qed.

(** The word buffer after one more sector. *)
Lemma next_buffer d c it p : content (look d) = c -> (p < Z.to_nat (wq_total it))%nat ->
  let b := wq_buffer (at_position c it p) in
  length b = (Z.to_nat (wq_total it) * SECTOR_ARRAY)%nat /\
  take (p * SECTOR_ARRAY) b ++ c (wq_drive_id it) (wq_sector it + Z.of_nat p) ++ drop (p * SECTOR_ARRAY + SECTOR_ARRAY) b = wq_buffer (at_position c it (S p)).
Proof using H0.
  clear Hspin.
  intros Hc Hp b. pose proof (sectors_length d (look d) (wq_drive_id it) (wq_sector it) p eq_refl) as Hl. unfold sectors in Hl. rewrite Hc in Hl.
  set (pre := concat _) in Hl. assert (b = pre ++ replicate ((Z.to_nat (wq_total it) - p) * SECTOR_ARRAY) 0) as -> by done. split.
  - rewrite length_app, length_replicate, Hl. nia.
  - rewrite take_app_length' by done. rewrite drop_app_ge by lia. rewrite drop_replicate, Hl. cbn [at_position wq_buffer].
    rewrite seq_S, fmap_app, concat_app. cbn [fmap list_fmap concat]. rewrite app_nil_r, <- app_assoc.
    assert ((Z.to_nat (wq_total it) - p) * SECTOR_ARRAY - (p * SECTOR_ARRAY + SECTOR_ARRAY - p * SECTOR_ARRAY) =
      (Z.to_nat (wq_total it) - S p) * SECTOR_ARRAY)%nat as -> by (unfold SECTOR_ARRAY; lia). done.
Qed.

Definition stop_at (queue : list (workq_item CB)) (c : Z -> Z -> list Z) (o : O) (s : ide D CB) : Prop :=
  match queue with
  | [] => work_queue s = [] /\ content (look (device s)) = c /\ other (look (device s)) = o
  | it :: queue => serving it 0 queue c o s
  end.

Lemma begin_ok queue c o s : Forall queued queue -> work_queue s = queue -> content (look (device s)) = c -> other (look (device s)) = o ->
  exists s', work_begin_next spin s = Some s' /\ stop_at queue c o s'.
Proof using Hspin.
  intros Hq Hw Hc Ho. unfold work_begin_next. rewrite Hw. destruct queue as [|it queue]; [by exists s|].
  apply Forall_cons in Hq as [Hit _]. pose proof (at_zero c it Hit) as Hz. destruct Hit as (Hd & Hr & Hs & Ht & Hsz & Hp & _). rewrite Hp, Hr. cbn [Z.eqb negb].
  destruct (start_ok true (wq_drive_id it) (wq_sector it) (wq_total it) (device s) Hd Hs Ht Hsz) as (d & -> & Ed & Ec & Eo). cbn [mbind option_bind].
  eexists. split; [done|]. split.
  - cbn. by rewrite Hz.
  - cbn. by rewrite Ec.
  - cbn. by rewrite Eo.
  - cbn [device set_device]. rewrite Ed, Z.add_0_r, Nat.sub_0_r. by apply sectors_content.
Qed.

Lemma turn_ok it p queue c o s : Forall queued queue -> serving it p queue c o s -> (p < Z.to_nat (wq_total it))%nat ->
  exists s', irq_turn spin callback true s = Some s' /\
    if (S p =? Z.to_nat (wq_total it))%nat then stop_at queue c (record (wq_call it) (data_of c it) o) s'
    else serving it (S p) queue c o s'.
Proof using Hspin Hcall.
  intros Hq [Hw Hc Ho Hpd] Hp. unfold irq_turn. rewrite Hw. destruct (wait_ok IDE_DRDY false (device s)) as (d1 & -> & L1). cbn [mbind option_bind].
  cbn [wq_position at_position]. rewrite Nat2Z.id.
  destruct (next_buffer d1 c it p) as [Hl Hb]; [by rewrite L1|done|]. cbn zeta in Hl, Hb. rewrite Hl.
  assert ((Z.to_nat (wq_total it) * SECTOR_ARRAY <? p * SECTOR_ARRAY + SECTOR_ARRAY)%nat = false) as -> by (apply Nat.ltb_ge; nia).
  cbn [wq_read at_position].
  assert (Z.to_nat (wq_total it) - p = S (Z.to_nat (wq_total it) - S p))%nat as En by lia. rewrite En, sectors_S, Hc in Hpd.
  destruct (in_words_ok SECTOR_ARRAY d1 (c (wq_drive_id it) (wq_sector it + Z.of_nat p)) (sectors (look (device s)) (wq_drive_id it) (wq_sector it + Z.of_nat p + 1) (Z.to_nat (wq_total it) - S p))) as (E1 & E2 & E3 & E4).
  { rewrite <- Hc. apply sector_length. }
  { done. }
  { rewrite (sectors_length (device s)) by done. apply Nat.Div0.mod_mul. }
  { by rewrite L1. }
  { by rewrite L1. }
  destruct (in_words SECTOR_ARRAY d1) as [ws d2]. cbn [fst snd] in E1, E2, E3, E4. subst ws. rewrite L1 in E3, E4. cbn [content other with_busy] in E3, E4.
  unfold advance. cbn [wq_drive_id wq_read wq_sector wq_position wq_total wq_call at_position]. rewrite Hb.
  assert (Build_workq_item (wq_drive_id it) true (wq_sector it) (Z.of_nat p + 1) (wq_total it) (wq_buffer (at_position c it (S p))) (wq_call it) =
    at_position c it (S p)) as -> by (unfold at_position; f_equal; lia).
  unfold done. cbn [wq_position wq_total at_position].
  assert ((Z.of_nat (S p) =? wq_total it) = (S p =? Z.to_nat (wq_total it))%nat) as -> by lia.
  destruct (S p =? Z.to_nat (wq_total it))%nat eqn:Ep.
  - apply Nat.eqb_eq in Ep. set (s1 := set_queue queue _).
    assert (wq_buffer (at_position c it (S p)) = data_of c it) as ->.
    { unfold data_of. cbn [at_position wq_buffer]. by rewrite Ep, Nat.sub_diag, app_nil_r. }
    destruct (Hcall (wq_call it) (data_of c it) s1) as (s2 & -> & Q2 & C2 & O2). cbn [mbind option_bind].
    destruct (begin_ok queue c (record (wq_call it) (data_of c it) o) s2) as (s3 & -> & Hs3); [done|by rewrite Q2|..].
    + rewrite C2. cbn. by rewrite E3.
    + rewrite O2. f_equal. cbn. by rewrite E4.
    + cbn [mbind option_bind]. by exists s3.
  - eexists. split; [done|]. split.
    + done.
    + cbn. by rewrite E3.
    + cbn. by rewrite E4.
    + cbn [device set_queue set_device]. rewrite E2.
      replace (wq_sector it + Z.of_nat (S p)) with (wq_sector it + Z.of_nat p + 1) by lia. by apply sectors_content.
Qed.

Definition turns (queue : list (workq_item CB)) : nat := sum_list ((fun it => Z.to_nat (wq_total it)) <$> queue).

Definition served (c : Z -> Z -> list Z) (queue : list (workq_item CB)) (o : O) : O :=
  fold_left (fun o it => record (wq_call it) (data_of c it) o) queue o.

Lemma serve_ok n it p queue c o s fuel : Forall queued queue -> n = (Z.to_nat (wq_total it) - p)%nat -> (0 < n)%nat ->
  serving it p queue c o s ->
  exists s', irq_handler spin callback (n + fuel) true s = irq_handler spin callback fuel true s' /\
    stop_at queue c (record (wq_call it) (data_of c it) o) s'.
Proof using Hspin Hcall.
  intros Hq. revert p s. induction n as [|n IH]; intros p s En Hn Hs; [lia|].
  destruct (turn_ok it p queue c o s Hq Hs ltac:(lia)) as (s1 & E & H1). cbn [Nat.add irq_handler]. rewrite (sv_queue _ _ _ _ _ _ Hs), E.
  cbn [mbind option_bind]. destruct (S p =? Z.to_nat (wq_total it))%nat eqn:Ep.
  - apply Nat.eqb_eq in Ep. assert (n = 0)%nat as -> by lia. by exists s1.
  - apply Nat.eqb_neq in Ep. apply (IH (S p)); [lia|lia|done].
Qed.

(** C25. The work queue is a FIFO. When requests to read wait in the queue, each for at most
    256 sectors that are on its drive, the first of them started, the interrupt handler
    empties the queue, and calls the callback of each request once, in the order of the
    requests, with the words of the sectors the request asked for - if the callbacks leave
    the driver alone, and the memory of a request that has left the queue is still intact
    when the handler tests it. *)
Theorem irq_handler_serves_queue (s : ide D CB) (queue : list (workq_item CB)) :
  Forall queued queue -> stop_at queue (content (look (device s))) (other (look (device s))) s ->
  exists s', irq_handler spin callback (turns queue) true s = Some s' /\ work_queue s' = [] /\
    other (look (device s')) = served (content (look (device s))) queue (other (look (device s))).
Proof using Hspin Hcall.
  set (c := content _). generalize (other (look (device s))). intros o Hq Hs. clearbody c.
  revert s o Hs. induction queue as [|it queue IH]; intros s o Hs.
  - destruct Hs as (Hw & _ & Ho). exists s. split; [|done]. cbn. by rewrite Hw.
  - apply Forall_cons in Hq as [Hit Hq]. destruct Hit as (_ & _ & _ & Ht & _).
    destruct (serve_ok (Z.to_nat (wq_total it)) it 0 queue c o s (turns queue) Hq) as (s1 & E & H1); [lia|lia|done|].
    destruct (IH Hq s1 _ H1) as (s' & E' & ?). exists s'. split; [|done]. change (turns (it :: queue)) with (Z.to_nat (wq_total it) + turns queue)%nat.
    by rewrite E, E'.
Qed.
End Queue.

(** The bounds of queued requests differ: with the same block number and size, one that
    ends with the disk's last sector is queued if it is a write, but a read is refused and
    its callback gets a null buffer. *)
Theorem last_sector_refused (callback : CB -> answer -> ide D CB -> option (ide D CB)) (s : ide D CB) (call : CB) (blk cnt : Z) :
  0 <= blk -> 0 < cnt < 2 ^ 32 -> blk + cnt = num_blocks s -> num_blocks s < 2 ^ 64 ->
  read spin callback blk cnt call s = callback call (Buffer None) s /\
  forall buffer, Z.of_nat (length buffer) = cnt * 256 ->
    write spin callback blk buffer call s =
      enqueue spin {| wq_drive_id := drive_id s; wq_read := false; wq_sector := blk; wq_position := 0; wq_total := cnt;
                      wq_buffer := buffer; wq_call := call |} s.
Proof using Type.
  clear Hspin. intros Hb Hc Hn H64. split.
  - unfold read. rewrite uwrap_small by lia. assert ((blk + cnt >=? num_blocks s) = true) as -> by lia. done.
  - intros buffer Hl. unfold write. assert (sectors_of buffer = cnt) as ->.
    { unfold sectors_of. rewrite Hl. change (Z.of_nat SECTOR_ARRAY) with 256. apply Z.div_mul. lia. }
    rewrite !uwrap_small by lia. assert ((blk + cnt >? num_blocks s) = false) as -> by lia. rewrite Hl.
    change (Z.of_nat SECTOR_ARRAY) with 256. by rewrite Z.mod_mul.
Qed.
End Reads.

(** ** Witnesses

    A channel with two drives of 64 and 128 sectors, whose contents are part of its state. A
    drive is busy for two reads of the status after a command and after a sector, and does
    not take a register then. [other] is the log of the finished requests: the callback and
    the first word it got. *)
Record drive := { d_regs : gmap Z Z; d_busy : nat; d_pending : list Z; d_content : Z -> Z -> list Z; d_log : list (nat * Z) }.
Definition drive_words (d : drive) (u i : Z) : list Z := resize SECTOR_ARRAY 0 (d_content d u i).
Definition two_sizes (u : Z) : Z := if u =? 0 then 64 else 128.
Definition seen (d : drive) : view (list (nat * Z)) := View (d_regs d) (d_busy d `min` 2)%nat (d_pending d) (drive_words d) (d_log d).
Definition set_busy (n : nat) (d : drive) : drive :=
  {| d_regs := d_regs d; d_busy := n; d_pending := d_pending d; d_content := d_content d; d_log := d_log d |}.
Definition set_pending (ws : list Z) (d : drive) : drive :=
  {| d_regs := d_regs d; d_busy := d_busy d; d_pending := ws; d_content := d_content d; d_log := d_log d |}.
Definition put (p x : Z) (d : drive) : drive :=
  {| d_regs := <[p := x]> (d_regs d); d_busy := d_busy d; d_pending := d_pending d; d_content := d_content d; d_log := d_log d |}.
Definition may_read {O} (sizes : Z -> Z) (v : view O) : bool :=
  (Z.land (reg v IDE_DRV) 0xE0 =? 0xE0) && (lba28 v + sector_count v <=? sizes (selected v)).

#[export] Instance drive_device : Device drive := {
  inb p d := match busy (seen d) with O => (0x58, d) | S n => (0xD8, set_busy n d) end;
  inw _ d :=
    let ws := tail (d_pending d) in
    let n := if decide (length ws mod SECTOR_ARRAY = 0)%nat then 2%nat else 0%nat in
    (default 0 (head (d_pending d)), set_busy n (set_pending ws d));
  outb p x d :=
    match busy (seen d) with
    | S _ => d
    | O =>
        let v := seen d in
        if decide (p = IDE_CMD) then
          let d := put p x d in
          if (x =? IDE_CMD_READ) && may_read two_sizes v
          then set_busy 2 (set_pending (sectors v (selected v) (lba28 v) (Z.to_nat (sector_count v))) d) else d
        else put p x d
    end;
  outw _ _ d := d;
}.

#[export] Instance drive_disk : AtaDisk drive (list (nat * Z)).
Proof.
  refine {| look := seen; lag := 2%nat; disk_size := two_sizes |}.
  - intros d. cbn. lia.
  - intros d. cbn [inb drive_device]. destruct (busy (seen d)) as [|n] eqn:E; [by split|]. split; [done|]. cbn [snd].
    change (d_busy d `min` 2 = S n)%nat in E. unfold seen, with_busy. cbn. f_equal. lia.
  - intros p v d Hp Hb. cbn [outb drive_device]. rewrite Hb. by rewrite decide_False by done.
  - intros d Hb Hm Hr. exists 2%nat. cbn [outb drive_device]. rewrite Hb, decide_True by done.
    assert (may_read two_sizes (seen d) = true) as ->; [|done]. unfold may_read. rewrite Hm. by apply Z.leb_le.
  - intros [r b pd ct l] w ws Hb Hp. cbn [seen d_pending pending] in Hp. subst pd. split; [done|].
    exists ((if decide (length ws mod SECTOR_ARRAY = 0)%nat then 2%nat else 0%nat) `min` 2)%nat. split; [done|]. intros Hn.
    by rewrite decide_False by done.
  - intros d u i. apply length_resize.
Defined.

Definition log_callback (c : nat) (a : answer) (s : ide drive nat) : option (ide drive nat) :=
  match a with
  | Buffer (Some ws) =>
      let d := device s in
      Some (set_device {| d_regs := d_regs d; d_busy := d_busy d; d_pending := d_pending d; d_content := d_content d;
                          d_log := d_log d ++ [(c, default 0 (head ws))] |} s)
  | _ => Some s
  end.
Definition log_record (c : nat) (ws : list Z) (l : list (nat * Z)) : list (nat * Z) := l ++ [(c, default 0 (head ws))].

(** All words of a sector are its number, on the second drive 1000 more. *)
Definition numbered (u i : Z) : list Z := replicate SECTOR_ARRAY (i + if u =? 0 then 0 else 1000).
Definition demo_drive : drive := {| d_regs := ∅; d_busy := 0; d_pending := []; d_content := numbered; d_log := [] |}.
Definition demo_ide : ide drive nat := {| drive_id := 0; num_blocks := 10; work_queue := []; device := demo_drive |}.

(** The last two sectors of the second drive. *)
Definition second_ide : ide drive nat := {| drive_id := 0x10; num_blocks := 128; work_queue := []; device := demo_drive |}.
Lemma read_sync_contents_witness : exists s', read_sync 3 126 2 second_ide = Some (Some (replicate 256 1126 ++ replicate 256 1127), s').
Proof.
  destruct (read_sync_contents (H0 := drive_disk) 3 (le_n 3) second_ide 126 2) as (s' & E & _); [by right|cbn; lia|lia|lia|done|].
  exists s'. rewrite E. done.
Defined.

Definition request (id : nat) (blk cnt : Z) : workq_item nat := {|
  wq_drive_id := 0; wq_read := true; wq_sector := blk; wq_position := 0; wq_total := cnt;
  wq_buffer := replicate (Z.to_nat cnt * SECTOR_ARRAY) 0; wq_call := id |}.

(** Two requests: sectors 5 and 6 for callback 1, sector 3 for callback 2. *)
Lemma irq_handler_serves_queue_witness : exists s0 s',
  (s ← read 3 log_callback 5 2 1%nat demo_ide; read 3 log_callback 3 1 2%nat s) = Some s0 /\
  irq_handler 3 log_callback 3 true s0 = Some s' /\ d_log (device s') = [(1%nat, 5); (2%nat, 3)].
Proof.
  pose (s0 := (s ← read 3 log_callback 5 2 1%nat demo_ide; read 3 log_callback 3 1 2%nat s)).
  destruct s0 as [s|] eqn:E0; [|by vm_compute in E0]. exists s.
  assert (Some (work_queue s) = Some [request 1 5 2; request 2 3 1]) as Eq.
  { change (Some (work_queue s)) with (work_queue <$> Some s). rewrite <- E0. vm_compute. reflexivity. }
  assert (Some (d_pending (device s), d_log (device s)) = Some (replicate 256 5 ++ replicate 256 6, [])) as Ed.
  { change (Some (d_pending (device s), d_log (device s))) with ((fun s => (d_pending (device s), d_log (device s))) <$> Some s).
    rewrite <- E0. vm_compute. reflexivity. }
  assert (Some (d_content (device s)) = Some numbered) as Ec.
  { change (Some (d_content (device s))) with ((fun s => d_content (device s)) <$> Some s). rewrite <- E0. vm_compute. reflexivity. }
  injection Eq as Eq. injection Ed as Ep El. injection Ec as Ec.
  destruct (irq_handler_serves_queue (H0 := drive_disk) 3 (le_n 3) log_callback log_record) with
    (s := s) (queue := [request 1 5 2; request 2 3 1]) as (s' & E & _ & Ho).
  - intros c ws s1. eexists. split; [reflexivity|]. split; [reflexivity|]. by split.
  - assert (queued (request 1 5 2) /\ queued (request 2 3 1)) as [? ?] by (split; (split; [by left|]); by repeat split).
    by repeat constructor.
  - split; [|done..|].
    + rewrite Eq. reflexivity.
    + cbn [look drive_disk seen pending]. rewrite Ep. unfold sectors, seen, drive_words. cbn [content]. rewrite Ec. reflexivity.
  - exists s'. split; [done|]. split; [exact E|]. change (other (look (device s'))) with (d_log (device s')) in Ho. rewrite Ho.
    change (other (look (device s))) with (d_log (device s)). rewrite El.
    change (content (look (device s))) with (drive_words (device s)). unfold drive_words. rewrite Ec. reflexivity.
Defined.

Lemma last_sector_refused_witness : read 3 log_callback 9 1 1%nat demo_ide = Some demo_ide.
Proof.
  exact (proj1 (last_sector_refused (D := drive) 3 log_callback demo_ide 1%nat 9 1 ltac:(lia) ltac:(lia) eq_refl ltac:(cbn; lia))).
Defined.
