(* ===== verification/Fat.v ===== *)
(** * The FAT file system (src/includeos-patch/fat.cpp, fat_sync.cpp, fat_async.cpp, fat.hpp)

    The driver's state is [FAT_]: the geometry read from the boot sector, the file
    allocation table as the bytes [init] copied, and the cache of directory listings.
    What IncludeOS provides is a parameter or a record of what its accessors return:
    the block device [read_sync], the fields of the boot sector and of a 32-byte
    directory entry. [os::panic] is an [Error]; an access outside a buffer is [None].
    Integers have the widths of the declarations. *)
From stdpp Require Import base list option gmap.
From Stdlib Require Import ZArith Lia ZifyBool.
From S2P Require Import Prelude LPattern.
#[local] Open Scope Z_scope.

(** ** Data *)
Definition T_FAT12 : Z := 0.
Definition T_FAT16 : Z := 1.
Definition T_FAT32 : Z := 2.

(** The BIOS parameter block of the boot sector, and the 32-bit words of [boot]. *)
Record BPB := {
  bytes_per_sector : Z; bpb_sectors_per_cluster : Z; reserved_sectors : Z; fa_tables : Z;
  root_entries : Z; small_sectors : Z; bpb_sectors_per_fat : Z; hidden_sectors : Z;
  large_sectors : Z;
}.
Record mbr := { mbr_bpb : BPB; mbr_magic : Z; boot_word : Z -> Z }.

(** What a directory entry says, short or long. *)
Inductive Enttype := INVALID_ENTITY | DIR | FILE.
#[export] Instance Enttype_eq_dec : EqDecision Enttype.
Proof. solve_decision. Defined.

Record cl_dir := {
  shortname : bytes; attrib : Z; is_longname : bool; is_last : bool; long_index : Z;
  longname : list Z;
  d_type : Enttype; dir_cluster : Z -> Z; d_size : Z; get_modified : Z;
}.

Record Dirent := {
  etype : Enttype; name : bytes; block : Z; parent : Z; size : Z; attributes : Z; modified : Z;
}.

Record FAT := {
  lba_base : Z; sector_size : Z; sectors : Z; clusters : Z; fat_type : Z; reserved : Z;
  sectors_per_fat : Z; sectors_per_cluster : Z; root_dir_sectors : Z; root_cluster : Z;
  data_index : Z; data_sectors : Z; file_allocation_table : bytes;
}.

Inductive error_t := no_error | E_IO | E_MNT | E_NOTDIR | E_NOENT.

(** ** Clusters (fat.hpp) *)
Definition cl_to_sector (f : FAT) (cl : Z) : Z :=
  if cl <=? 2 then
    u32 (lba_base f + data_index f + (root_cluster f - 2) * sectors_per_cluster f - root_dir_sectors f)
  else u32 (lba_base f + data_index f + (cl - 2) * sectors_per_cluster f).

Definition table_byte (f : FAT) (i : Z) : option Z :=
  if i <? 0 then None else file_allocation_table f !! Z.to_nat i.

(** An element of the table read as an array of [n]-byte integers. *)
Definition table_entry (f : FAT) (n : nat) (cl : Z) : option Z :=
  let i := (Z.to_nat cl * n)%nat in
  if (i + n <=? length (file_allocation_table f))%nat
  then Some (le_decode (slice i n (file_allocation_table f))) else None.

Definition next_cluster (f : FAT) (cl : Z) : option Z :=
  if fat_type f =? T_FAT12 then
    if negb (cl mod 2 =? 0) then
      b1 ← table_byte f (cl / 2 * 3 + 1);
      b2 ← table_byte f (cl / 2 * 3 + 2);
      Some (Z.lor (Z.shiftr (Z.land b1 0xF0) 4) (Z.shiftl b2 4))
    else
      b1 ← table_byte f (cl / 2 * 3 + 1);
      b0 ← table_byte f (cl / 2 * 3);
      Some (Z.lor (Z.shiftl (Z.land b1 0x0F) 8) b0)
  else if fat_type f =? T_FAT16 then table_entry f 2 cl
  else table_entry f 4 cl.

Definition cl_to_entry_offset (f : FAT) (cl : Z) : Z :=
  if fat_type f =? T_FAT16 then u16 (u32 (cl * 2) mod sector_size f) else u16 (u32 (cl * 4) mod sector_size f).
Definition cl_to_entry_sector (f : FAT) (cl : Z) : Z :=
  if fat_type f =? T_FAT16 then u16 (reserved f + u32 (cl * 2) / sector_size f)
  else u16 (reserved f + u32 (cl * 4) / sector_size f).

Definition roundup (n multiple : Z) : Z := (n + multiple - 1) / multiple * multiple.

(** [std::equal] over the characters of [a]; [b]'s terminator is compared like a
    character and a comparison behind it is undefined. *)
Fixpoint iequals (a b : bytes) : option bool :=
  match a with
  | [] => Some true
  | x :: a =>
      match b with
      | y :: b => if tolower x =? tolower y then iequals a b else Some false
      | [] => if tolower x =? 0 then None else Some false
      end
  end.

(** ** Directories (fat.cpp) *)
Definition blank (c : Z) : bool := (c =? 32) || ((9 <=? c) && (c <=? 13)).

Fixpoint drop_blank (s : bytes) : bytes :=
  match s with c :: s' => if blank c then drop_blank s' else s | [] => [] end.

Definition trim_right_copy (s : bytes) : bytes := reverse (drop_blank (reverse s)).

(** The characters one long-name entry adds to the name. *)
Fixpoint name_part (l : list Z) : bytes :=
  match l with
  | c :: l => if (c =? 0xFFFF) || (c =? 0) then [] else Z.land c 0xFF :: name_part l
  | [] => []
  end.

(** The loop over the [idx] long entries down from [L]; [final] is [final_name] up to
    [final_count], in a buffer of 256 characters. *)
Fixpoint long_name (root : list cl_dir) (idx : nat) (L : Z) (final : bytes) : option bytes :=
  match idx with
  | O => Some final
  | S idx =>
      e ← (if L <? 0 then None else root !! Z.to_nat L);
      let final := final ++ name_part (take 13 (longname e)) in
      if (256 <=? length final)%nat then None
      else if (240 <? length final)%nat then Some final
      else long_name root idx (L - 1) final
  end.

Section Fat.
Variable f : FAT.

Definition make_dirent (nm : bytes) (sector : Z) (e : cl_dir) : Dirent :=
  {| etype := d_type e; name := nm; block := dir_cluster e (root_cluster f); parent := sector;
     size := d_size e; attributes := attrib e; modified := get_modified e |}.

(** The name of a short entry: in lower case, with a dot unless it is a directory.
    ([dirname.erase(end)] removes nothing.) *)
Definition short_dirname (e : cl_dir) : bytes :=
  let d := take 11 (shortname e) in
  tolower <$> (if negb (Z.land (attrib e) 0x10 =? 0) then trim_right_copy d
               else trim_right_copy (take 8 d) ++ [46] ++ trim_right_copy (take 3 (drop 8 d))).

Fixpoint dirent_loop (fuel : nat) (sector : Z) (root : list cl_dir) (i : Z) (dirents : list Dirent)
    : option (bool * list Dirent) :=
  let n := 16 * sectors_per_cluster f in
  if n <=? i then Some (false, dirents)
  else match fuel with
  | O => None
  | S fuel =>
      e ← root !! Z.to_nat i;
      c ← shortname e !! 0%nat;
      if c =? 0 then Some (true, dirents)
      else if c =? 0xE5 then dirent_loop fuel sector root (i + 1) dirents
      else if is_longname e then
        if is_last e then
          let total := long_index e in
          if n <=? i + total then Some (false, dirents)
          else
            final ← long_name root (Z.to_nat total) (i + (total - 1)) [];
            D ← root !! Z.to_nat (i + total);
            dirent_loop fuel sector root (i + total + 1) (dirents ++ [make_dirent final sector D])
        else dirent_loop fuel sector root (i + 1) dirents
      else dirent_loop fuel sector root (i + 1) (dirents ++ [make_dirent (short_dirname e) sector e])
  end.

Definition int_dirent (sector : Z) (root : list cl_dir) (dirents : list Dirent) : option (bool * list Dirent) :=
  dirent_loop (Z.to_nat (16 * sectors_per_cluster f)) sector root 0 dirents.

(** ** Reading (fat_sync.cpp) *)

(** [device.read_sync]; [block_size] is the device's; [cl_dir_array] is the buffer read
    as directory entries. *)
Variable read_sync : Z -> Z -> option bytes.
Variable block_size : Z.
Variable cl_dir_array : bytes -> list cl_dir.

(** [data->begin() + a] to [data->begin() + b]. *)
Definition range (data : bytes) (a b : Z) : option bytes :=
  if (a <=? b) && (b <=? Z.of_nat (length data))
  then Some (slice (Z.to_nat a) (Z.to_nat (b - a)) data) else None.

(** [for (cn, cl; cn < nclust; cn++, cl = next_cluster(cl))]; [k] turns are left. *)
Fixpoint read_loop (k : nat) (nclust stapos endpos cn cl : Z) (finaldata : bytes) : LuaM bytes :=
  match k with
  | O => lret finaldata
  | S k =>
      match read_sync (cl_to_sector f cl) (sectors_per_cluster f) with
      | None => lerror "Could not read sector"
      | Some data =>
          let C := block_size * sectors_per_cluster f in
          let* part := llift (
            if (nclust =? 1) && negb (endpos mod C =? 0) then range data (stapos mod C) (endpos mod C)
            else if cn =? 0 then range data (stapos mod C) (Z.of_nat (length data))
            else if (cn =? nclust - 1) && negb (endpos mod C =? 0) then range data 0 (endpos mod C)
            else Some data) in
          let* cl := llift (next_cluster f cl) in
          read_loop k nclust stapos endpos (cn + 1) cl (finaldata ++ part)
      end
  end.

(** The first cluster and the number of clusters to read. *)
Definition read_start (stapos : Z) : Z := stapos / (sector_size f * sectors_per_cluster f).
Definition read_count (stapos endpos : Z) : Z :=
  u64 (roundup endpos (sector_size f * sectors_per_cluster f) / (sector_size f * sectors_per_cluster f)
       - read_start stapos).

Definition read (ent : Dirent) (pos n : Z) : LuaM bytes :=
  let stapos := size ent `min` pos in
  let endpos := size ent `min` u64 (pos + n) in
  let nclust := read_count stapos endpos in
  read_loop (Z.to_nat nclust) nclust stapos endpos 0 (u32 (block ent + read_start stapos)) [].

(** ** Listing (fat_sync.cpp) *)
Abbreviation cache := (gmap Z (list Dirent)).

Definition end_of_chain (cluster : Z) : bool :=
  ((fat_type f =? T_FAT12) && (0xFF8 <=? cluster)) || ((fat_type f =? T_FAT16) && (0xFFF8 <=? cluster)) ||
  ((fat_type f =? T_FAT32) && (0xFFFFFFF8 <=? cluster)).

(** The [do]-[while] of [int_ls]; the second component is [ents]. *)
Fixpoint ls_loop (fuel : nat) (cluster : Z) (ents : list Dirent) : option (error_t * list Dirent) :=
  match fuel with
  | O => None
  | S fuel =>
      match read_sync (cl_to_sector f cluster) (sectors_per_cluster f) with
      | None => Some (E_IO, ents)
      | Some data =>
          '(done, ents) ← int_dirent (cl_to_sector f cluster) (cl_dir_array data) ents;
          cluster ← next_cluster f cluster;
          if end_of_chain cluster then Some (no_error, ents)
          else if (done : bool) then Some (no_error, ents) else ls_loop fuel cluster ents
      end
  end.

Definition int_ls (fuel : nat) (cluster : Z) (ents : list Dirent) (c : cache)
    : option (error_t * list Dirent * cache) :=
  match c !! cluster with
  | Some l => Some (no_error, l, c)
  | None =>
      '(err, ents) ← ls_loop fuel cluster ents;
      match err with
      | no_error => Some (no_error, ents, <[cluster := ents]> c)
      | err => Some (err, ents, c)
      end
  end.

(** The loop over [ents]: the entry to enter, an error, or no match. *)
Fixpoint find_dir (nm : bytes) (ents : list Dirent) : option (error_t + option Dirent) :=
  match ents with
  | [] => Some (inr None)
  | e :: ents =>
      b ← iequals (name e) nm;
      if (b : bool) then
        Some (if bool_decide (etype e = DIR) then inr (Some e) else inl E_NOTDIR)
      else find_dir nm ents
  end.

(** [traverse]; [found] is declared outside the loop over the path. *)
Fixpoint traverse_from (fuel : nat) (path : list bytes) (cluster : Z) (found : option Dirent) (c : cache)
    : option (error_t * list Dirent * cache) :=
  match path with
  | [] => int_ls fuel cluster [] c
  | nm :: path =>
      '(err, ents, c) ← int_ls fuel cluster [] c;
      match err with
      | no_error =>
          r ← find_dir nm ents;
          match r with
          | inl err => Some (err, ents, c)
          | inr m =>
              match (match m with Some e => Some e | None => found end) with
              | None => Some (E_NOENT, ents, c)
              | Some d => traverse_from fuel path (block d) (Some d) c
              end
          end
      | err => Some (err, ents, c)
      end
  end.

Definition traverse (fuel : nat) (path : list bytes) (start : option Dirent) (c : cache)
    : option (error_t * list Dirent * cache) :=
  traverse_from fuel path (match start with Some d => block d | None => 0 end) None c.

Definition ls_path (fuel : nat) (path : list bytes) (c : cache) : option (error_t * list Dirent * cache) :=
  traverse fuel path None c.

Definition ls_entry (fuel : nat) (ent : Dirent) (c : cache) : option (error_t * list Dirent * cache) :=
  if bool_decide (etype ent = DIR) then int_ls fuel (block ent) [] c else Some (E_NOTDIR, [], c).

Definition invalid_dirent : Dirent :=
  {| etype := INVALID_ENTITY; name := []; block := 0; parent := 0; size := 0; attributes := 0; modified := 0 |}.
Definition root_dirent : Dirent :=
  {| etype := DIR; name := [47]; block := 0; parent := 0; size := 0; attributes := 0; modified := 0 |}.

Fixpoint find_entry (nm : bytes) (ents : list Dirent) : option Dirent :=
  match ents with
  | [] => Some invalid_dirent
  | e :: ents => b ← iequals (name e) nm; if (b : bool) then Some e else find_entry nm ents
  end.

Definition stat (fuel : nat) (path : list bytes) (start : option Dirent) (c : cache) : option (Dirent * cache) :=
  match reverse path with
  | [] => Some (root_dirent, c)
  | filename :: rpath =>
      '(err, dirents, c) ← traverse fuel (reverse rpath) start c;
      match err with
      | no_error => d ← find_entry filename dirents; Some (d, c)
      | _ => Some (invalid_dirent, c)
      end
  end.

(** ** The asynchronous versions (fat_async.cpp), with the device's answers in order *)
Fixpoint int_ls_async (fuel : nat) (sector : Z) (dirents : list Dirent) : option (error_t * list Dirent) :=
  match fuel with
  | O => None
  | S fuel =>
      match read_sync sector 1 with
      | None => Some (E_IO, dirents)
      | Some data =>
          '(done, dirents) ← int_dirent sector (cl_dir_array data) dirents;
          if (done : bool) then Some (no_error, dirents) else int_ls_async fuel (u32 (sector + 1)) dirents
      end
  end.

Definition read_async (ent : Dirent) (pos n : Z) : option (error_t * bytes) :=
  if n =? 0 then Some (E_IO, [])
  else
    let stapos := u32 (size ent `min` pos) in
    let endpos := u32 (size ent `min` u64 (pos + n)) in
    let n := u64 (endpos - stapos) in
    let sector := u32 (stapos / sector_size f) in
    let nsect := u32 (roundup endpos (sector_size f) / sector_size f - sector) in
    let internal_ofs := u32 (stapos mod block_size) in
    match read_sync (cl_to_sector f (block ent) + sector) nsect with
    | None => Some (E_IO, [])
    | Some data =>
        if negb (internal_ofs =? 0) then
          d ← range data internal_ofs (internal_ofs + n); Some (no_error, d)
        else Some (no_error, take (Z.to_nat n) data ++ replicate (Z.to_nat n - length data) 0)
    end.
End Fat.

(** ** Initialisation (fat.cpp) *)

(** [FAT_::init(base_sector)] for the partition at [base]; division by the sectors per
    cluster is the machine's. [read_sync] is the device's. *)
Definition init (read_sync : Z -> Z -> option bytes) (base : Z) (m : mbr) : LuaM FAT :=
  let bpb := mbr_bpb m in
  let sector_size := bytes_per_sector bpb in
  if sector_size <? 512 then lerror "FAT32: Invalid sector size"
  else
    let sectors := if negb (small_sectors bpb =? 0) then small_sectors bpb else large_sectors bpb in
    let sectors_per_fat :=
      if bpb_sectors_per_fat bpb =? 0 then boot_word m 25 else bpb_sectors_per_fat bpb in
    let root_dir_sectors := u16 ((root_entries bpb * 32 + (sector_size - 1)) / sector_size) in
    let data_index := u32 (reserved_sectors bpb + fa_tables bpb * sectors_per_fat + root_dir_sectors) in
    let data_sectors := u32 (sectors - data_index) in
    if bpb_sectors_per_cluster bpb =? 0 then None
    else
      let clusters := data_sectors / bpb_sectors_per_cluster bpb in
      let fat_type := if clusters <? 4085 then T_FAT12 else if clusters <? 65525 then T_FAT16 else T_FAT32 in
      if fa_tables bpb =? 0 then None
      else
        let bytes := bpb_sectors_per_fat bpb * bytes_per_sector bpb in
        match read_sync (hidden_sectors bpb + reserved_sectors bpb) (bpb_sectors_per_fat bpb) with
        | None => lerror "Could not read FAT"
        | Some data =>
            if (length data <? Z.to_nat bytes)%nat then None
            else lret {|
              lba_base := u32 base; sector_size := sector_size; sectors := sectors; clusters := clusters;
              fat_type := fat_type; reserved := reserved_sectors bpb; sectors_per_fat := sectors_per_fat;
              sectors_per_cluster := bpb_sectors_per_cluster bpb; root_dir_sectors := root_dir_sectors;
              root_cluster := 2; data_index := data_index; data_sectors := data_sectors;
              file_allocation_table := take (Z.to_nat bytes) data |}
        end.
