(* ===== verification/FatProps.v ===== *)
(** * Properties of the FAT file system *)
From stdpp Require Import base list option gmap.
From Stdlib Require Import ZArith Lia ZifyBool.
From S2P Require Import Prelude LPattern Fat.
#[local] Open Scope Z_scope.

(** ** The file allocation table *)

(** A FAT12 table packs two entries in three bytes. *)
Fixpoint pack12 (l : list Z) : bytes :=
  match l with
  | a :: b :: l => a mod 256 :: (a / 256 + 16 * (b mod 16)) :: b / 16 :: pack12 l
  | [a] => [a mod 256; a / 256]
  | [] => []
  end.

Definition entry_bits (ft : Z) : Z := if ft =? T_FAT12 then 12 else if ft =? T_FAT16 then 16 else 32.

(** The table on disk for a list of entries. *)
Definition encode_table (ft : Z) (l : list Z) : bytes :=
  if ft =? T_FAT12 then pack12 l
  else if ft =? T_FAT16 then concat (le_encode 2 <$> l) else concat (le_encode 4 <$> l).

Lemma pair_ind (P : list Z -> Prop) :
  P [] -> (forall a, P [a]) -> (forall a b l, P l -> P (a :: b :: l)) -> forall l, P l.
Proof.
  intros H0 H1 H2. assert (forall l, P l /\ forall a, P (a :: l)) as H; [|intros l; apply H].
  induction l as [|b l [IH1 IH2]]; split; auto.
Qed.

(** The three bytes of a pair of entries. *)
Lemma pack12_pair l k a : l !! (2 * k)%nat = Some a ->
  pack12 l !! (3 * k)%nat = Some (a mod 256) /\
  exists h, pack12 l !! (3 * k + 1)%nat = Some (a / 256 + 16 * h) /\
    forall b, l !! (2 * k + 1)%nat = Some b -> h = b mod 16 /\ pack12 l !! (3 * k + 2)%nat = Some (b / 16).
Proof.
  revert k a. induction l as [|x|x y l IH] using pair_ind; intros k a Hk.
  - done.
  - destruct k as [|k]; [|done]. injection Hk as ->. cbn. split; [done|]. exists 0.
    split; [f_equal; lia|done].
  - destruct k as [|k].
    + injection Hk as ->. cbn. split; [done|]. exists (y mod 16). split; [done|]. by intros b [= ->].
    + replace (2 * S k)%nat with (S (S (2 * k))) in * by lia. cbn [lookup list_lookup] in Hk.
      destruct (IH k a Hk) as (H1 & h & H2 & H3).
      replace (3 * S k)%nat with (S (S (S (3 * k)))) by lia.
      cbn [pack12 lookup list_lookup Nat.add]. split; [done|]. by exists h.
Qed.

Lemma lor_shiftl a x k : 0 <= k -> 0 <= a < 2 ^ k -> Z.lor a (Z.shiftl x k) = a + x * 2 ^ k.
Proof.
  intros Hk Ha. pose proof (Z.add_lor_land a (Z.shiftl x k)) as H.
  assert (Z.land a (Z.shiftl x k) = 0) as E.
  { apply Z.bits_inj'. intros i Hi. rewrite Z.land_spec, Z.bits_0, Z.shiftl_spec by done.
    destruct (Z.ltb_spec i k); [rewrite (Z.testbit_neg_r x) by lia; apply andb_false_r|].
    by rewrite (testbit_high k a) by done. }
  rewrite E, Z.shiftl_mul_pow2 in H by done. rewrite Z.shiftl_mul_pow2 by done. lia.
Qed.

Lemma high_nibble b : Z.shiftr (Z.land b 0xF0) 4 = (b / 16) mod 16.
Proof.
  rewrite Z.shiftr_land. change (Z.shiftr 0xF0 4) with (Z.ones 4).
  rewrite Z.land_ones, Z.shiftr_div_pow2 by lia. done.
Qed.

Lemma low_nibble b : Z.land b 0x0F = b mod 16.
Proof. change 0x0F with (Z.ones 4). by rewrite Z.land_ones. Qed.

Lemma table_byte_lookup f (i : nat) z : z = Z.of_nat i -> table_byte f z = file_allocation_table f !! i.
Proof.
  intros ->. unfold table_byte. destruct (Z.ltb_spec (Z.of_nat i) 0); [lia|]. by rewrite Nat2Z.id.
Qed.

Lemma concat_entries n (l : list Z) k a :
  l !! k = Some a ->
  (k * n + n <= length (concat (le_encode n <$> l)))%nat /\ slice (k * n) n (concat (le_encode n <$> l)) = le_encode n a.
Proof.
  revert k. induction l as [|x l IH]; intros k Hk; [done|]. cbn [fmap list_fmap concat].
  rewrite length_app, length_le_encode. destruct k as [|k].
  - injection Hk as ->. split; [lia|]. unfold slice. change (0 * n)%nat with 0%nat. rewrite drop_0.
    rewrite take_app_le by (by rewrite length_le_encode). rewrite take_ge; [done|]. by rewrite length_le_encode.
  - destruct (IH k Hk) as [Hl He]. split; [lia|]. rewrite <- He. unfold slice. f_equal.
    rewrite drop_app_ge by (rewrite length_le_encode; lia). rewrite length_le_encode. f_equal. lia.
Qed.

(** [next_cluster] decodes the table: for each of the three formats, on a table that
    holds the entries [l] it returns the entry of the cluster, whether the two FAT12
    entries that share a byte are read at an even or an odd cluster. *)
Theorem next_cluster_entry (f : FAT) (l : list Z) (cl : nat) (e : Z) :
  fat_type f = T_FAT12 \/ fat_type f = T_FAT16 \/ fat_type f = T_FAT32 ->
  Forall (fun x => 0 <= x < 2 ^ entry_bits (fat_type f)) l ->
  file_allocation_table f = encode_table (fat_type f) l ->
  l !! cl = Some e -> next_cluster f (Z.of_nat cl) = Some e.
Proof.
  intros Ht Hl Hf He. pose proof (Forall_lookup_1 _ _ _ _ Hl He) as Hr.
  unfold next_cluster. destruct Ht as [Ht|Ht].
  - rewrite Ht in *. change (T_FAT12 =? T_FAT12) with true. cbv iota.
    change (encode_table T_FAT12 l) with (pack12 l) in Hf. change (2 ^ entry_bits T_FAT12) with 4096 in *.
    pose proof (Z.div_mod (Z.of_nat cl) 2 ltac:(lia)) as Hdm. pose proof (Z.mod_pos_bound (Z.of_nat cl) 2 ltac:(lia)).
    assert (exists k : nat, Z.of_nat cl / 2 = Z.of_nat k) as [k Hk] by (exists (Z.to_nat (Z.of_nat cl / 2)); lia).
    destruct (Z.eqb_spec (Z.of_nat cl mod 2) 0) as [E|E]; cbn [negb].
    + assert (cl = (2 * k)%nat) as Ecl by lia. rewrite Hk. rewrite Ecl in He. destruct (pack12_pair l k e He) as (H0 & h & H1 & _).
      rewrite (table_byte_lookup f (3 * k + 1) (Z.of_nat k * 3 + 1)), (table_byte_lookup f (3 * k) (Z.of_nat k * 3)) by lia. rewrite Hf, H0, H1.
      cbn [mbind option_bind]. f_equal. rewrite low_nibble, Z.lor_comm, lor_shiftl by (try apply Z.mod_pos_bound; lia).
      change (2 ^ 8) with 256. rewrite (Z.mul_comm 16 h), Z_mod_plus_full, (Z.mod_small (e / 256)); [|split; [apply Z.div_pos; lia|apply Z.div_lt_upper_bound; lia]].
      pose proof (Z.div_mod e 256). lia.
    + assert (cl = (2 * k + 1)%nat) as Ecl by lia. rewrite Hk. rewrite Ecl in He.
      destruct (lookup_lt_is_Some_2 l (2 * k)) as [a Ha]; [apply lookup_lt_Some in He; lia|].
      pose proof (Forall_lookup_1 _ _ _ _ Hl Ha) as Hra. cbv beta in Hra.
      destruct (pack12_pair l k a Ha) as (_ & h & H1 & H2). destruct (H2 e He) as [-> H3].
      rewrite (table_byte_lookup f (3 * k + 1) (Z.of_nat k * 3 + 1)), (table_byte_lookup f (3 * k + 2) (Z.of_nat k * 3 + 2)) by lia. rewrite Hf, H1, H3.
      cbn [mbind option_bind]. f_equal.
      pose proof (Z.mod_pos_bound e 16 ltac:(lia)).
      assert (0 <= a / 256 < 16) by (split; [apply Z.div_pos; lia|apply Z.div_lt_upper_bound; lia]).
      rewrite high_nibble, (Z.mul_comm 16), Z_div_plus_full, (Z.div_small (a / 256)), Z.add_0_l, Zmod_mod by lia.
      rewrite lor_shiftl by (change (2 ^ 4) with 16; lia).
      pose proof (Z.div_mod e 16). lia.
  - assert (forall n, file_allocation_table f = concat (le_encode n <$> l) -> entry_bits (fat_type f) = 8 * Z.of_nat n ->
      table_entry f n (Z.of_nat cl) = Some e) as Hn.
    { intros n Hfn Hb. unfold table_entry. rewrite Nat2Z.id, Hfn.
      destruct (concat_entries n l cl e He) as [Hlen ->].
      destruct (Nat.leb_spec (cl * n + n) (length (concat (le_encode n <$> l)))); [|lia].
      f_equal. apply le_decode_encode. by rewrite <- Hb. }
    destruct Ht as [Ht|Ht]; rewrite Ht in *; by apply Hn.
Qed.

(** ** Name comparison *)

(** [iequals(a, b)] does not compare for equality: it is true exactly when [a] is, up
    to case, a prefix of [b], so a directory entry answers to every name that starts
    with its own (and an entry with an empty name to every name). *)
Theorem iequals_prefix (a b : bytes) :
  0 ∉ a -> iequals a b = Some (bool_decide ((tolower <$> a) `prefix_of` (tolower <$> b))).
Proof.
  assert (forall c, tolower c = 0 -> c = 0) as Hz.
  { intros c. unfold tolower, isupper. destruct ((65 <=? c) && (c <=? 90)) eqn:E; lia. }
  revert b. induction a as [|x a IH]; intros b Ha.
  { cbn. rewrite bool_decide_true; [done|]. apply prefix_nil. }
  apply not_elem_of_cons in Ha as [Hx Ha]. cbn [iequals]. destruct b as [|y b].
  - destruct (Z.eqb_spec (tolower x) 0) as [E|]; [by apply Hz in E|].
    rewrite bool_decide_false; [done|]. intros H. by apply prefix_nil_not in H.
  - cbn [fmap list_fmap]. destruct (Z.eqb_spec (tolower x) (tolower y)) as [E|E].
    + rewrite IH by done. f_equal. apply bool_decide_ext. rewrite E. split.
      * by apply prefix_cons.
      * by intros ?%prefix_cons_inv_2.
    + rewrite bool_decide_false; [done|]. by intros ?%prefix_cons_inv_1.
Qed.

(** ** Directories *)
Lemma name_part_length l : (length (name_part l) <= length l)%nat.
Proof. induction l as [|c l IH]; cbn; [done|]. destruct (_ || _); cbn; lia. Qed.

(** The buffer of 256 characters is never overrun. *)
Lemma long_name_fits root idx L final : Z.of_nat idx <= L + 1 -> L < Z.of_nat (length root) ->
  (length final <= 240)%nat ->
  exists nm, long_name root idx L final = Some nm /\ (length nm <= 253)%nat.
Proof.
  revert L final. induction idx as [|idx IH]; intros L final Hi HL Hf; cbn [long_name].
  { exists final. split; [done|lia]. }
  destruct (Z.ltb_spec L 0); [lia|].
  destruct (lookup_lt_is_Some_2 root (Z.to_nat L)) as [e ->]; [lia|]. cbn [mbind option_bind].
  pose proof (name_part_length (take 13 (longname e))) as Hp. rewrite length_take in Hp.
  set (p := name_part (take 13 (longname e))) in *. rewrite length_app.
  destruct (Nat.leb_spec 256 (length final + length p)); [lia|].
  destruct (Nat.ltb_spec 240 (length final + length p)).
  - eexists. split; [done|]. rewrite length_app. lia.
  - apply IH; [lia|lia|]. rewrite length_app. lia.
Qed.

(** The width of the fields: a name of eleven bytes, an unsigned index. *)
Definition entry_ok (e : cl_dir) : Prop := length (shortname e) = 11%nat /\ 0 <= long_index e < 256.

Lemma drop_blank_length s : (length (drop_blank s) <= length s)%nat.
Proof. induction s as [|c s IH]; cbn; [done|]. destruct (blank c); cbn; lia. Qed.

Lemma trim_length s : (length (trim_right_copy s) <= length s)%nat.
Proof. unfold trim_right_copy. rewrite length_reverse. etrans; [apply drop_blank_length|]. by rewrite length_reverse. Qed.

Lemma short_dirname_length e : (length (short_dirname e) <= 12)%nat.
Proof.
  unfold short_dirname. rewrite length_fmap. set (d := take 11 _).
  assert (length d <= 11)%nat as Hd by (unfold d; rewrite length_take; lia).
  destruct (negb _); [pose proof (trim_length d); lia|]. rewrite !length_app.
  pose proof (trim_length (take 8 d)) as H1. pose proof (trim_length (take 3 (drop 8 d))) as H2.
  rewrite length_take in H1, H2. cbn [length]. lia.
Qed.

Lemma dirent_loop_total f sector root fuel i ents :
  length root = Z.to_nat (16 * sectors_per_cluster f) -> Forall entry_ok root ->
  0 <= i -> (Z.to_nat (16 * sectors_per_cluster f) - Z.to_nat i <= fuel)%nat ->
  exists done new, dirent_loop f fuel sector root i ents = Some (done, ents ++ new) /\
    Forall (fun d => length (name d) <= 253 /\ parent d = sector)%nat new /\ (length new <= fuel)%nat.
Proof.
  intros Hlen Hok. revert i ents. induction fuel as [|fuel IH]; intros i ents Hi Hf; cbn [dirent_loop];
    (destruct (Z.leb_spec (16 * sectors_per_cluster f) i); [exists false, []; rewrite app_nil_r; split_and!; [done|constructor|cbn; lia]|]); [lia|].
  destruct (lookup_lt_is_Some_2 root (Z.to_nat i)) as [e He]; [lia|]. rewrite He. cbn [mbind option_bind].
  destruct (Forall_lookup_1 _ _ _ _ Hok He) as [Hsn Hli].
  destruct (shortname e) as [|c sn] eqn:Esn; [done|]. cbn [lookup list_lookup mbind option_bind].
  assert (forall j ents', i < j -> exists done new, dirent_loop f fuel sector root j ents' = Some (done, ents' ++ new) /\
    Forall (fun d => length (name d) <= 253 /\ parent d = sector)%nat new /\ (length new <= fuel)%nat) as Hgo
    by (intros; apply IH; lia).
  assert (forall j nm d, i < j -> (length nm <= 253)%nat -> exists done new,
    dirent_loop f fuel sector root j (ents ++ [make_dirent f nm sector d]) = Some (done, ents ++ new) /\
    Forall (fun d => length (name d) <= 253 /\ parent d = sector)%nat new /\ (length new <= S fuel)%nat) as Hadd.
  { intros j nm d Hj Hnm. destruct (Hgo j (ents ++ [make_dirent f nm sector d]) Hj) as (dn & new & -> & Hn & Hl).
    exists dn, (make_dirent f nm sector d :: new). rewrite <- app_assoc. split; [done|].
    split; [constructor; [by split|done]|cbn [length]; lia]. }
  assert (forall j, i < j -> exists done new, dirent_loop f fuel sector root j ents = Some (done, ents ++ new) /\
    Forall (fun d => length (name d) <= 253 /\ parent d = sector)%nat new /\ (length new <= S fuel)%nat) as Hskip.
  { intros j Hj. destruct (Hgo j ents Hj) as (dn & new & ? & ? & ?). exists dn, new. split_and!; [done..|lia]. }
  destruct (c =? 0). { exists true, []. rewrite app_nil_r. split_and!; [done|constructor|cbn; lia]. }
  destruct (c =? 0xE5); [by apply Hskip; lia|].
  destruct (is_longname e); [|apply Hadd; [lia|pose proof (short_dirname_length e); lia]].
  destruct (is_last e); [|apply Hskip; lia].
  destruct (Z.leb_spec (16 * sectors_per_cluster f) (i + long_index e)).
  { exists false, []. rewrite app_nil_r. split_and!; [done|constructor|cbn; lia]. }
  destruct (long_name_fits root (Z.to_nat (long_index e)) (i + (long_index e - 1)) []) as (nm & -> & Hnm);
    [lia|lia|cbn; lia|]. cbn [mbind option_bind].
  destruct (lookup_lt_is_Some_2 root (Z.to_nat (i + long_index e))) as [D ->]; [lia|]. cbn [mbind option_bind].
  apply Hadd; [lia|done].
Qed.


(** ** Witnesses *)
Definition table_fat (ft : Z) (table : bytes) : FAT := {|
  lba_base := 63; sector_size := 512; sectors := 2000; clusters := 1900; fat_type := ft; reserved := 1;
  sectors_per_fat := 6; sectors_per_cluster := 1; root_dir_sectors := 32; root_cluster := 2;
  data_index := 45; data_sectors := 1955; file_allocation_table := table |}.

Lemma next_cluster_entry_witness :
  next_cluster (table_fat T_FAT12 (encode_table T_FAT12 [0xFF8; 0xFFF; 3; 0xABC; 0xFFF])) 3 = Some 0xABC.
Proof.
  apply (next_cluster_entry _ [0xFF8; 0xFFF; 3; 0xABC; 0xFFF] 3 0xABC); [by left| |reflexivity|reflexivity].
  repeat constructor; vm_compute; discriminate.
Defined.

Lemma iequals_prefix_witness :
  (0 ∉ [82; 79; 77]) /\ iequals [82; 79; 77] [114; 111; 109; 120] = Some true.
Proof.
  assert (0 ∉ [82; 79; 77]) as H by (rewrite !not_elem_of_cons; split_and!; try done; apply not_elem_of_nil).
  split; [exact H|]. exact (iequals_prefix [82; 79; 77] [114; 111; 109; 120] H).
Defined.

(** A cluster of sixteen entries: a name of 26 characters in two long entries and its
    short entry, an unused entry, and the end. *)
Definition sample_cluster : list cl_dir :=
  let e sn ln last idx nm := {| shortname := sn; attrib := 0; is_longname := ln; is_last := last; long_index := idx;
    longname := nm; d_type := FILE; dir_cluster := fun r => r + 7; d_size := 9; get_modified := 0 |} in
  let nm c := c :: replicate 10 32 in
  [e (nm 66) true true 2 (replicate 13 98); e (nm 1) true false 1 (replicate 13 97); e (nm 65) false false 1 [];
   e (nm 0xE5) false false 0x25 []] ++ replicate 12 (e (replicate 11 0) false false 0 []).

