(* ===== verification/FatRead.v ===== *)
(** * Reading files and directories of the FAT file system *)
From stdpp Require Import base list option gmap.
From Stdlib Require Import ZArith Lia ZifyBool.
From S2P Require Import Prelude LPattern Fat.
#[local] Open Scope Z_scope.

(** ** Slices of a file *)
Lemma slice_slice {A} a n b m (l : list A) : (b + m <= n)%nat -> slice b m (slice a n l) = slice (a + b) m l.
Proof.
  intros H. unfold slice. rewrite <- (drop_drop l b a).
  rewrite skipn_firstn_comm, take_take. f_equal. lia.
Qed.

Lemma slice_app {A} a n m (l : list A) : slice a n l ++ slice (a + n) m l = slice a (n + m) l.
Proof.
  unfold slice. rewrite <- (drop_drop l n a). rewrite <- (take_drop n (drop a l)) at 3.
  destruct (decide (n <= length (drop a l))%nat) as [Hn|Hn].
  - rewrite take_app_ge by (rewrite length_take; lia). f_equal. rewrite length_take. f_equal. lia.
  - rewrite (drop_ge (drop a l)) by lia. by rewrite take_nil, !app_nil_r, !take_ge by (rewrite ?length_take; lia).
Qed.

(** A cluster of a file is a slice of its contents. *)
Lemma slice_concat {A} (C k : nat) (ds : list (list A)) d :
  Forall (fun d => length d = C) ds -> ds !! k = Some d -> slice (k * C) C (concat ds) = d.
Proof.
  intros Hc. revert k. induction Hc as [|x ds Hx Hc IH]; intros k Hk; [done|]. cbn [concat].
  unfold slice in *. destruct k as [|k].
  - injection Hk as ->. cbn [Nat.mul]. rewrite drop_0, <- Hx. apply take_app_length.
  - cbn [Nat.mul]. rewrite drop_app_ge by lia. replace (C + k * C - length x)%nat with (k * C)%nat by lia. by apply IH.
Qed.

Section Read.
Variable f : FAT.
Variable read_sync : Z -> Z -> option bytes.
Variable block_size : Z.

(** A file on disk: its clusters [chain], linked by the table, and their data, each
    of one cluster's bytes. *)
Record file_on_disk (chain : list Z) (datas : list bytes) : Prop := {
  fd_length : length datas = length chain;
  fd_data : forall k c, chain !! k = Some c -> read_sync (cl_to_sector f c) (sectors_per_cluster f) = datas !! k;
  fd_size : Forall (fun d => Z.of_nat (length d) = block_size * sectors_per_cluster f) datas;
  fd_next : forall k c, chain !! k = Some c ->
    exists n, next_cluster f c = Some n /\ forall c', chain !! S k = Some c' -> n = c';
}.

Lemma range_slice data a b : 0 <= a <= b -> b <= Z.of_nat (length data) ->
  range data a b = Some (slice (Z.to_nat a) (Z.to_nat (b - a)) data).
Proof. intros. unfold range. destruct ((a <=? b) && (b <=? Z.of_nat (length data))) eqn:E; [done|lia]. Qed.

(** The part of cluster [k] between [s] and [e]. *)
Lemma part_of_cluster C k s e (d : bytes) content (nclust cn : Z) :
  0 < C -> Z.of_nat (length d) = C -> slice (Z.to_nat (k * C)) (Z.to_nat C) content = d ->
  0 <= s <= e -> 0 <= cn < nclust -> s / C + cn = k -> (s / C + nclust - 1) * C < e <= (s / C + nclust) * C ->
  (if (nclust =? 1) && negb (e mod C =? 0) then range d (s mod C) (e mod C)
   else if cn =? 0 then range d (s mod C) (Z.of_nat (length d))
   else if (cn =? nclust - 1) && negb (e mod C =? 0) then range d 0 (e mod C)
   else Some d) =
  Some (slice (Z.to_nat (Z.max s (k * C))) (Z.to_nat (Z.min e ((k + 1) * C) - Z.max s (k * C))) content).
Proof.
  intros HC Hd Hs Hse Hcn Hk He.
  pose proof (Z.div_mod s C ltac:(lia)) as Hds. pose proof (Z.mod_pos_bound s C HC) as Hms.
  pose proof (Z.div_mod e C ltac:(lia)) as Hde. pose proof (Z.mod_pos_bound e C HC) as Hme.
  assert (0 <= s / C) by (apply Z.div_pos; lia).
  assert (forall a b, 0 <= a <= b -> b <= C -> slice (Z.to_nat a) (Z.to_nat (b - a)) d =
    slice (Z.to_nat (k * C + a)) (Z.to_nat (b - a)) content) as Hsl.
  { intros a b Hab Hb. rewrite <- Hs, slice_slice by lia. f_equal. rewrite Z2Nat.inj_add by nia. done. }
  assert (forall q, e = C * q + e mod C -> e mod C <> 0 -> (q = s / C + nclust - 1)) as Hq.
  { intros q Hq Hne. nia. }
  assert (e mod C = 0 -> e = (s / C + nclust) * C) as Hfull.
  { intros E. rewrite E in Hde. assert (e / C = s / C + nclust) by nia. nia. }
  destruct (Z.eqb_spec nclust 1) as [E1|E1]; cbn [andb].
  - assert (cn = 0) as -> by lia. change (0 =? 0) with true. cbv iota.
    destruct (Z.eqb_spec (e mod C) 0) as [Ee|Ee]; cbn [negb].
    + rewrite range_slice by lia. rewrite Hsl by lia. f_equal. f_equal; f_equal; nia.
    + pose proof (Hq _ Hde Ee). rewrite range_slice by nia. rewrite Hsl by nia. f_equal. f_equal; f_equal; nia.
  - destruct (Z.eqb_spec cn 0) as [E0|E0].
    + rewrite range_slice by lia. rewrite Hsl by lia. f_equal. f_equal; f_equal; nia.
    + destruct (Z.eqb_spec cn (nclust - 1)) as [El|El]; cbn [andb]; [destruct (Z.eqb_spec (e mod C) 0) as [Ee|Ee]; cbn [negb]|].
      * rewrite <- Hs at 1. specialize (Hfull Ee). f_equal. f_equal; f_equal; nia.
      * pose proof (Hq _ Hde Ee). rewrite range_slice by lia. rewrite Hsl by lia. f_equal. f_equal; f_equal; nia.
      * rewrite <- Hs at 1. f_equal. f_equal; f_equal; nia.
Qed.

Lemma cluster_loop_spec chain datas (nclust s e cn : Z) (n : nat) :
  let C := block_size * sectors_per_cluster f in
  file_on_disk chain datas -> 0 < C -> 0 <= s <= e ->
  (s / C + nclust - 1) * C < e <= (s / C + nclust) * C -> s / C + nclust <= Z.of_nat (length chain) ->
  0 <= cn -> cn + Z.of_nat n = nclust ->
  forall cl acc, (0 < n -> chain !! Z.to_nat (s / C + cn) = Some cl)%nat ->
  acc = slice (Z.to_nat s) (Z.to_nat (Z.min e ((s / C + cn) * C) - s)) (concat datas) ->
  read_loop f read_sync block_size n nclust s e cn cl acc =
    lret (slice (Z.to_nat s) (Z.to_nat (Z.min e ((s / C + nclust) * C) - s)) (concat datas)).
Proof.
  intros C Hf HC Hse He Hlen. revert cn. induction n as [|n IH]; intros cn Hcn Hn cl acc Hcl Hacc.
  { cbn [read_loop]. rewrite Hacc. assert (cn = nclust) as -> by lia. done. }
  assert (0 <= s / C) by (apply Z.div_pos; lia).
  specialize (Hcl ltac:(lia)). cbn [read_loop].
  destruct (lookup_lt_is_Some_2 datas (Z.to_nat (s / C + cn))) as [d Hd].
  { rewrite (fd_length _ _ Hf). by eapply lookup_lt_Some. }
  rewrite (fd_data _ _ Hf _ _ Hcl), Hd.
  pose proof (Forall_lookup_1 _ _ _ _ (fd_size _ _ Hf) Hd) as Hdl. cbv beta in Hdl. fold C in Hdl |- *.
  assert (slice (Z.to_nat ((s / C + cn) * C)) (Z.to_nat C) (concat datas) = d) as Hsl.
  { rewrite Z2Nat.inj_mul by lia. apply slice_concat; [|done].
    eapply Forall_impl; [apply (fd_size _ _ Hf)|]. cbv beta. intros x Hx. fold C in Hx. lia. }
  rewrite (part_of_cluster C (s / C + cn) s e d (concat datas) nclust cn) by (done || lia).
  destruct (fd_next _ _ Hf _ _ Hcl) as (nx & -> & Hnx).
  change (lbind (llift (Some ?a)) ?k) with (k a). cbv beta.
  change (lbind (llift (Some ?a)) ?k) with (k a). cbv beta.
  apply IH; [lia|lia| |].
  - intros Hn0. destruct (lookup_lt_is_Some_2 chain (Z.to_nat (s / C + (cn + 1)))) as [c' Hc']; [lia|].
    rewrite Hc'. f_equal. symmetry. apply Hnx. rewrite <- Hc'. f_equal. lia.
  - rewrite Hacc. pose proof (Z.div_mod s C ltac:(lia)) as Hds. pose proof (Z.mod_pos_bound s C HC) as Hms.
    destruct (Z.eq_dec cn 0) as [->|Hne].
    + assert ((s / C + 0) * C <= s) by lia.
      replace (Z.to_nat (Z.min e ((s / C + 0) * C) - s)) with 0%nat by lia.
      change (slice (Z.to_nat s) 0 (concat datas)) with (@nil Z). cbn [app].
      rewrite (Z.max_l s) by lia. replace (s / C + 0 + 1) with (s / C + (0 + 1)) by lia. done.
    + assert (s < (s / C + cn) * C) by nia. assert ((s / C + cn) * C <= (s / C + nclust - 1) * C) by nia.
      assert ((s / C + (cn + 1)) * C = (s / C + cn) * C + C) as HX by lia.
      replace (s / C + cn + 1) with (s / C + (cn + 1)) by lia. rewrite HX.
      set (X := (s / C + cn) * C) in *.
      rewrite (Z.max_r s) by lia. rewrite (Z.min_r e X) by lia.
      replace (Z.to_nat X) with (Z.to_nat s + Z.to_nat (X - s))%nat by lia.
      rewrite slice_app. f_equal. lia.
Qed.

Lemma read_slice (chain : list Z) (datas : list bytes) (ent : Dirent) (pos n : Z) :
  let C := sector_size f * sectors_per_cluster f in
  let s := size ent `min` pos in let e := size ent `min` (pos + n) in
  file_on_disk chain datas -> block_size = sector_size f -> 0 < C < 2 ^ 32 ->
  0 <= pos -> 0 <= n -> pos + n < 2 ^ 64 -> 0 <= size ent < 2 ^ 32 ->
  size ent <= Z.of_nat (length chain) * C ->
  (s < e \/ s mod C <> 0 -> chain !! Z.to_nat (s / C) = Some (u32 (block ent + s / C))) ->
  read f read_sync block_size ent pos n = lret (slice (Z.to_nat s) (Z.to_nat (e - s)) (concat datas)).
Proof.
  intros C s e Hf Hb HC Hp Hn Hpn Hsz Hlen Hstart. unfold read. rewrite (uwrap_small 64 (pos + n)) by lia.
  fold s e. assert (0 <= s <= e /\ e < 2 ^ 32 /\ e <= size ent) as (Hse & He32 & Hes) by (subst s e; lia).
  assert (block_size * sectors_per_cluster f = C) as HbC by (by rewrite Hb).
  pose proof (Z.div_mod s C ltac:(lia)) as Hds. pose proof (Z.mod_pos_bound s C ltac:(lia)) as Hms.
  assert (0 <= s / C) by (apply Z.div_pos; lia).
  pose proof (Z.div_mod (e + C - 1) C ltac:(lia)) as Hde. pose proof (Z.mod_pos_bound (e + C - 1) C ltac:(lia)) as Hme.
  set (q := (e + C - 1) / C) in *.
  assert (read_start f s = s / C) as Hrs by done.
  assert (read_count f s e = q - s / C) as Hrc.
  { unfold read_count. rewrite Hrs. unfold roundup. fold C. fold q. rewrite Z.div_mul by lia.
    apply uwrap_small. assert (0 <= q <= e) by nia. nia. }
  rewrite Hrc, Hrs. destruct (Z.eq_dec q (s / C)) as [Eq|Eq].
  - rewrite Eq, Z.sub_diag. cbn [Z.to_nat read_loop]. replace (e - s) with 0 by nia. done.
  - assert (s / C < q) by nia.
    pose proof (cluster_loop_spec chain datas (q - s / C) s e 0 (Z.to_nat (q - s / C))) as Hloop.
    cbv zeta in Hloop. rewrite HbC in Hloop. replace (s / C + (q - s / C)) with q in Hloop by lia. rewrite Z.add_0_r in Hloop.
    rewrite Hloop; clear Hloop.
    + f_equal. f_equal. assert (e <= q * C) by lia. lia.
    + done.
    + lia.
    + done.
    + split; [|lia]. assert (q * C = C * q) by lia. assert ((q - 1) * C = q * C - C) as -> by lia. lia.
    + assert ((q - 1) * C < Z.of_nat (length chain) * C) as Hm by lia.
      apply Z.mul_lt_mono_pos_r in Hm; lia.
    + lia.
    + lia.
    + intros _. apply Hstart. destruct (Z.eq_dec s e) as [E|E]; [|left; lia]. right. intros E0.
      assert (s = C * (s / C)) as E1 by lia. assert (q = s / C); [|lia].
      unfold q. rewrite <- E. rewrite E1 at 1. replace (C * (s / C) + C - 1) with ((C - 1) + (s / C) * C) by lia.
      rewrite Z_div_plus_full by lia. rewrite Z.div_small by lia. lia.
    + replace (Z.to_nat (Z.min e (s / C * C) - s)) with 0%nat by lia. done.
Qed.

(** C23. A synchronous read returns the bytes of the file: for a file whose clusters the
    table links and whose data the device returns, reading [n] bytes at [pos] gives
    the part of the contents between [pos] and [pos + n], cut off at the file's size,
    whenever the cluster that holds [pos] is [block() + cluster], the cluster the
    code starts at: that is, for every read that starts in the first cluster and for
    files whose clusters up to [pos] are consecutive. *)
Theorem read_contents (chain : list Z) (datas : list bytes) (ent : Dirent) (pos n : Z) :
  let C := sector_size f * sectors_per_cluster f in
  let s := size ent `min` pos in let e := size ent `min` (pos + n) in
  file_on_disk chain datas -> block_size = sector_size f -> 0 < C < 2 ^ 32 ->
  0 <= pos -> 0 <= n -> pos + n < 2 ^ 64 -> 0 <= size ent < 2 ^ 32 ->
  size ent <= Z.of_nat (length chain) * C ->
  (s < e \/ s mod C <> 0 -> chain !! Z.to_nat (s / C) = Some (u32 (block ent + s / C))) ->
  read f read_sync block_size ent pos n = lret (slice (Z.to_nat s) (Z.to_nat (e - s)) (concat datas)).
Proof. apply read_slice. Qed.
End Read.

(** ** Where reads go wrong *)

(** A read that starts in the second cluster of a file does not follow the table: it
    reads cluster [block() + 1] of the disk, whatever file that cluster belongs to. *)
Theorem read_second_cluster (f : FAT) read_sync block_size (ent : Dirent) (pos n nx : Z) (other : bytes) :
  let C := sector_size f * sectors_per_cluster f in
  block_size = sector_size f -> 0 < C < 2 ^ 32 -> C <= pos -> 0 < n -> pos + n <= 2 * C ->
  2 * C <= size ent < 2 ^ 32 -> 0 <= block ent < 2 ^ 31 ->
  read_sync (cl_to_sector f (block ent + 1)) (sectors_per_cluster f) = Some other ->
  Z.of_nat (length other) = C -> next_cluster f (block ent + 1) = Some nx ->
  read f read_sync block_size ent pos n = lret (slice (Z.to_nat (pos - C)) (Z.to_nat n) other).
Proof.
  intros C Hb HC Hp Hn Hpn Hsz Hbl Hr Hlen Hnx. unfold read.
  rewrite (uwrap_small 64 (pos + n)) by lia. rewrite !Z.min_r by lia.
  assert (block_size * sectors_per_cluster f = C) as HbC by (by rewrite Hb).
  assert (pos / C = 1) as Hs by (symmetry; apply Z.div_unique with (pos - C); lia).
  assert ((pos + n + C - 1) / C = 2) as He by (symmetry; apply Z.div_unique with (pos + n + C - 1 - 2 * C); lia).
  assert (pos mod C = pos - C) as Hms by (symmetry; apply Z.mod_unique with 1; lia).
  assert (read_start f pos = 1) as -> by done.
  assert (read_count f pos (pos + n) = 1) as ->.
  { unfold read_count, read_start, roundup. fold C. by rewrite He, Hs, Z.div_mul by lia. }
  change (Z.to_nat 1) with 1%nat. cbn [read_loop]. rewrite (uwrap_small 32 (block ent + 1)) by lia.
  rewrite Hr, Hnx, HbC, Hms. change (1 =? 1) with true. change (0 =? 0) with true. cbn [andb].
  destruct (Z.eqb_spec ((pos + n) mod C) 0) as [E|E]; cbn [negb].
  - assert (pos + n = 2 * C) as Hend.
    { pose proof (Z.div_mod (pos + n) C ltac:(lia)). assert ((pos + n) / C = 2); [|lia].
      assert (1 < (pos + n) / C < 3); [|lia]. nia. }
    rewrite range_slice by lia.
    change (lbind (llift (Some ?a)) ?k) with (k a). cbv beta. change (lbind (llift (Some ?a)) ?k) with (k a).
    cbv beta. cbn [read_loop app]. f_equal. f_equal. lia.
  - assert ((pos + n) mod C = pos + n - C) as ->.
    { symmetry. apply Z.mod_unique with 1; [|lia]. left.
      split; [lia|]. destruct (Z.eq_dec (pos + n) (2 * C)) as [E2|]; [|lia].
      rewrite E2, Z_mod_mult in E. done. }
    rewrite range_slice by lia.
    change (lbind (llift (Some ?a)) ?k) with (k a). cbv beta. change (lbind (llift (Some ?a)) ?k) with (k a).
    cbv beta. cbn [read_loop app]. f_equal. f_equal. lia.
Qed.

(** On a FAT12 or FAT16 volume the first data cluster, number 2, is not reachable:
    [cl_to_sector] sends it to the root directory, [root_dir_sectors] before the data
    area, while every other cluster lies [cl - 2] clusters behind the start of the
    data area. *)
Theorem cluster_two_is_root (f : FAT) (cl : Z) :
  root_cluster f = 2 -> 0 <= lba_base f -> 0 <= sectors_per_cluster f ->
  0 <= root_dir_sectors f <= data_index f -> 2 <= cl ->
  lba_base f + data_index f + (cl - 2) * sectors_per_cluster f < 2 ^ 32 ->
  cl_to_sector f 2 = cl_to_sector f 0 /\
  cl_to_sector f 2 = lba_base f + data_index f - root_dir_sectors f /\
  (2 < cl -> cl_to_sector f cl = lba_base f + data_index f + (cl - 2) * sectors_per_cluster f).
Proof.
  intros Hroot Hl Hs Hr Hcl Hlt. unfold cl_to_sector. rewrite Hroot. split; [done|].
  assert (0 <= (cl - 2) * sectors_per_cluster f) by nia. split.
  - change (2 <=? 2) with true. cbv iota. rewrite uwrap_small; lia.
  - intros Hgt. destruct (Z.leb_spec cl 2); [lia|]. rewrite uwrap_small; lia.
Qed.

Lemma next_cluster_empty (f : FAT) (cl : Z) : file_allocation_table f = [] -> next_cluster f cl = None.
Proof.
  intros He. unfold next_cluster, table_byte, table_entry. rewrite He. cbn [length].
  assert (forall i, (if i <? 0 then None else @lookup nat Z bytes _ (Z.to_nat i) []) = None) as Hn
    by (intros i; by destruct (i <? 0)).
  destruct (fat_type f =? T_FAT12); [destruct (negb _); rewrite !Hn; reflexivity|].
  destruct (fat_type f =? T_FAT16); by match goal with |- context [(?a <=? 0)%nat] => destruct (Nat.leb_spec a 0); [lia|] end.
Qed.

(** A FAT32 volume is mounted without its table: [init] finds the sectors per FAT in
    the extended boot sector, but copies [bpb->sectors_per_fat] sectors, which is 0 on
    FAT32; every [next_cluster] then reads outside the copy. *)
Theorem fat32_table_missing read_sync (base : Z) (m : mbr) (f : FAT) :
  bpb_sectors_per_fat (mbr_bpb m) = 0 -> init read_sync base m = lret f ->
  file_allocation_table f = [] /\ sectors_per_fat f = boot_word m 25 /\
  forall cl, 0 <= cl -> next_cluster f cl = None.
Proof.
  intros H0 Hi. unfold init in Hi. rewrite H0 in Hi. cbn [Z.mul] in Hi.
  destruct (bytes_per_sector (mbr_bpb m) <? 512); [done|]. cbv zeta in Hi.
  destruct (bpb_sectors_per_cluster (mbr_bpb m) =? 0); [done|].
  destruct (fa_tables (mbr_bpb m) =? 0); [done|].
  destruct (read_sync _ _) as [data|]; [|done].
  destruct (_ <? _)%nat; [done|]. injection Hi as <-. cbn [file_allocation_table sectors_per_fat].
  split; [done|]. split; [done|]. intros cl Hcl. by apply next_cluster_empty.
Qed.

(** ** Listings and paths *)
Section Listing.
Variable f : FAT.
Variable read_sync : Z -> Z -> option bytes.
Variable cl_dir_array : bytes -> list cl_dir.
#[local] Abbreviation ls_loop := (ls_loop f read_sync cl_dir_array).
#[local] Abbreviation int_ls := (int_ls f read_sync cl_dir_array).
#[local] Abbreviation traverse_from := (traverse_from f read_sync cl_dir_array).
#[local] Abbreviation stat := (stat f read_sync cl_dir_array).
Abbreviation cache := (gmap Z (list Dirent)).

(** The listings in the cache are those of the disk. *)
Definition cache_ok (c : cache) : Prop :=
  forall cl l, c !! cl = Some l -> exists fuel, ls_loop fuel cl [] = Some (no_error, l).

Lemma ls_loop_mono fuel1 fuel2 cl ents r : (fuel1 <= fuel2)%nat ->
  ls_loop fuel1 cl ents = Some r -> ls_loop fuel2 cl ents = Some r.
Proof.
  revert fuel2 cl ents. induction fuel1 as [|fuel1 IH]; intros fuel2 cl ents Hle H; [done|].
  destruct fuel2 as [|fuel2]; [lia|]. cbn [Fat.ls_loop] in *.
  destruct (read_sync _ _) as [data|]; [|done]. destruct (int_dirent _ _ _ _) as [[dn e]|]; [|done].
  cbn [mbind option_bind] in *. destruct (next_cluster _ _) as [nx|]; [|done]. cbn [mbind option_bind] in *.
  destruct (end_of_chain f nx); [done|]. destruct dn; [done|]. apply IH; [lia|done].
Qed.

(** The cache of listings is transparent: from a cache that holds listings of the
    disk, [int_ls] reports the entries and the error a fresh listing reports, and
    leaves such a cache; so a later listing of the directory is the same without
    reading the disk. *)
Theorem int_ls_cached (fuel : nat) (cl : Z) (c c' : cache) (err : error_t) (ents : list Dirent) :
  cache_ok c -> int_ls fuel cl [] c = Some (err, ents, c') ->
  cache_ok c' /\ (exists fuel', ls_loop fuel' cl [] = Some (err, ents)) /\
  (err = no_error -> forall fuel2, int_ls fuel2 cl [] c' = Some (no_error, ents, c')).
Proof.
  intros Hc H. unfold Fat.int_ls in H. destruct (c !! cl) as [l|] eqn:El.
  - injection H as <- <- <-. split; [done|]. split; [by apply Hc|]. intros _ fuel2. unfold Fat.int_ls. by rewrite El.
  - destruct (ls_loop fuel cl []) as [[e l]|] eqn:E; [|done]. cbn [mbind option_bind] in H.
    assert (exists fuel', ls_loop fuel' cl [] = Some (e, l)) as Hex by by exists fuel.
    destruct e; injection H as <- <- <-; (split; [|split; [done|]]); try done.
    + intros cl' l' Hl'. destruct (decide (cl' = cl)) as [->|Hne].
      * rewrite lookup_insert_eq in Hl'. injection Hl' as <-. done.
      * rewrite lookup_insert_ne in Hl' by done. by apply Hc.
    + intros _ fuel2. unfold Fat.int_ls. by rewrite lookup_insert_eq.
Qed.

(** A directory that does not exist is skipped: [found] keeps the last directory
    that matched, so a component with no match behind one that matched leaves the
    search where it is, and the file is found as if the component were not there. *)
Theorem traverse_skips_missing (fuel : nat) (dn missing fn : bytes) (ents0 ents1 : list Dirent) (d : Dirent) (c : cache) :
  c !! 0 = Some ents0 -> find_dir dn ents0 = Some (inr (Some d)) ->
  c !! block d = Some ents1 -> find_dir missing ents1 = Some (inr None) ->
  stat fuel [dn; missing; fn] None c = stat fuel [dn; fn] None c.
Proof.
  intros H0 Hd H1 Hm. unfold Fat.stat, traverse. cbn [reverse rev_append].
  change (reverse [dn; missing; fn]) with [fn; missing; dn]. change (reverse [dn; fn]) with [fn; dn].
  change (reverse [missing; dn]) with [dn; missing]. change (reverse [dn]) with [dn]. cbv iota.
  cbn [Fat.traverse_from]. unfold Fat.int_ls. rewrite H0. cbn [mbind option_bind].
  rewrite Hd. cbn [mbind option_bind]. rewrite H1. cbn [mbind option_bind]. rewrite Hm. cbn [mbind option_bind].
  rewrite H1. done.
Qed.
End Listing.

(** ** Witnesses *)
Definition sample_fat (table : bytes) : FAT := {|
  lba_base := 63; sector_size := 512; sectors := 2000; clusters := 1900; fat_type := T_FAT12; reserved := 1;
  sectors_per_fat := 6; sectors_per_cluster := 1; root_dir_sectors := 32; root_cluster := 2;
  data_index := 45; data_sectors := 1955; file_allocation_table := table |}.

(** A disk that repeats the low byte of the sector number. *)
Definition sample_disk (sec n : Z) : option bytes := Some (concat (replicate (Z.to_nat n) (replicate 512 (sec mod 256)))).

Definition sample_file (start len : Z) : Dirent :=
  {| etype := FILE; name := [97]; block := start; parent := 0; size := len; attributes := 0; modified := 0 |}.

(** Clusters 3 and 5 form a file of 600 bytes, 4 belongs to another file. *)
Definition sample_table : bytes := [0xF8; 0xFF; 0xFF; 0xFF; 0x5F; 0x00; 0xFF; 0xFF; 0xFF].

Lemma sample_file_on_disk :
  file_on_disk (sample_fat sample_table) sample_disk 512 [3; 5] [replicate 512 109; replicate 512 111].
Proof.
  split.
  - done.
  - intros [|[|k]] c; [intros [= <-]; by vm_compute|intros [= <-]; by vm_compute|done].
  - by repeat constructor.
  - intros [|[|k]] c; [intros [= <-]; exists 5; split; [by vm_compute|by intros c' [= <-]]
      |intros [= <-]; exists 0xFFF; split; [by vm_compute|done]|done].
Qed.

Lemma read_contents_witness :
  read (sample_fat sample_table) sample_disk 512 (sample_file 3 600) 10 1000 =
    lret (slice 10 590 (concat [replicate 512 109; replicate 512 111])).
Proof.
  exact (read_contents (sample_fat sample_table) sample_disk 512 [3; 5] [replicate 512 109; replicate 512 111]
    (sample_file 3 600) 10 1000 sample_file_on_disk eq_refl ltac:(vm_compute; split; reflexivity)
    ltac:(vm_compute; discriminate) ltac:(vm_compute; discriminate) ltac:(vm_compute; reflexivity)
    ltac:(vm_compute; split; [discriminate|reflexivity]) ltac:(vm_compute; discriminate)
    ltac:(intros _; vm_compute; reflexivity)).
Defined.

(** The second half of a file of two clusters, 3 and 5, comes from cluster 4. *)
Lemma read_second_cluster_witness :
  read (sample_fat sample_table) sample_disk 512 (sample_file 3 1024) 512 512 = lret (slice 0 512 (replicate 512 110)).
Proof.
  exact (read_second_cluster (sample_fat sample_table) sample_disk 512 (sample_file 3 1024) 512 512 0xFFF
    (replicate 512 110) eq_refl ltac:(vm_compute; split; reflexivity) ltac:(vm_compute; discriminate)
    ltac:(lia) ltac:(vm_compute; discriminate) ltac:(vm_compute; split; [discriminate|reflexivity])
    ltac:(vm_compute; split; [discriminate|reflexivity]) ltac:(vm_compute; reflexivity) eq_refl
    ltac:(vm_compute; reflexivity)).
Defined.

Lemma cluster_two_is_root_witness :
  cl_to_sector (sample_fat []) 2 = 76 /\ (2 < 3 -> cl_to_sector (sample_fat []) 3 = 109).
Proof.
  destruct (cluster_two_is_root (sample_fat []) 3 eq_refl ltac:(vm_compute; discriminate) ltac:(vm_compute; discriminate)
    ltac:(vm_compute; split; discriminate) ltac:(lia) ltac:(vm_compute; reflexivity)) as (_ & H2 & H3).
  split; [exact H2|exact H3].
Defined.

Definition fat32_boot : mbr := {|
  mbr_bpb := {| bytes_per_sector := 512; bpb_sectors_per_cluster := 1; reserved_sectors := 32; fa_tables := 2;
    root_entries := 0; small_sectors := 0; bpb_sectors_per_fat := 0; hidden_sectors := 63; large_sectors := 80000 |};
  mbr_magic := 0xAA55; boot_word := fun i => if i =? 25 then 600 else 2 |}.

Lemma fat32_table_missing_witness : exists f, init sample_disk 63 fat32_boot = lret f /\
  fat_type f = T_FAT32 /\ forall cl, 0 <= cl -> next_cluster f cl = None.
Proof.
  eexists. split; [reflexivity|]. split; [reflexivity|].
  eapply (fat32_table_missing sample_disk 63 fat32_boot); [reflexivity|reflexivity].
Defined.

(** A directory with one entry, behind which the listing ends. *)
Definition dir_entry (nm : bytes) (cl : Z) : cl_dir := {|
  shortname := nm; attrib := 0x10; is_longname := false; is_last := false; long_index := 1; longname := [];
  d_type := DIR; dir_cluster := fun _ => cl; d_size := 0; get_modified := 0 |}.
Definition sample_dir (data : bytes) : list cl_dir := [dir_entry [82; 79; 77] 4; dir_entry [0] 0].

Lemma int_ls_cached_witness : exists ents c',
  int_ls (sample_fat sample_table) sample_disk sample_dir 3 3 [] ∅ = Some (no_error, ents, c') /\
  name <$> ents = [[114; 111; 109]] /\
  int_ls (sample_fat sample_table) sample_disk sample_dir 0 3 [] c' = Some (no_error, ents, c').
Proof.
  assert (cache_ok (sample_fat sample_table) sample_disk sample_dir ∅) as H0 by (intros cl l Hl; discriminate Hl).
  destruct (int_ls (sample_fat sample_table) sample_disk sample_dir 3 3 [] ∅) as [[[err ents] c']|] eqn:E;
    [|vm_compute in E; discriminate E].
  pose proof (int_ls_cached _ _ _ 3 3 ∅ c' err ents H0 E) as (_ & _ & H).
  exists ents, c'. assert (err = no_error /\ name <$> ents = [[114; 111; 109]]) as [-> Hn].
  { vm_compute in E. injection E as <- <- _. split; reflexivity. }
  split; [reflexivity|]. split; [exact Hn|]. exact (H eq_refl 0%nat).
Defined.

(** rom/none/bios.lua is found in rom. *)
Lemma traverse_skips_missing_witness :
  let rom := {| etype := DIR; name := [114; 111; 109]; block := 4; parent := 0; size := 0; attributes := 16; modified := 0 |} in
  let bios := {| etype := FILE; name := [98; 105; 111; 115]; block := 9; parent := 0; size := 5; attributes := 0; modified := 0 |} in
  let c : gmap Z (list Dirent) := <[0 := [rom]]> (<[4 := [bios]]> ∅) in
  stat (sample_fat []) sample_disk sample_dir 0 [[114; 111; 109]; [110; 111; 110; 101]; [98; 105; 111; 115]] None c =
  Some (bios, c).
Proof.
  intros rom bios c.
  rewrite (traverse_skips_missing (sample_fat []) sample_disk sample_dir 0 [114; 111; 109] [110; 111; 110; 101]
    [98; 105; 111; 115] [rom] [bios] rom c eq_refl eq_refl eq_refl eq_refl). reflexivity.
Defined.
