(* ===== verification/Disk.v ===== *)
(** * Disks (src/includeos-patch/disk.cpp, fat.cpp, main.cpp)

    From a block device to a mounted file system and the bytes of bios.lua. The device
    is IncludeOS's interface [Block_device]: the answers to the requests, null or a
    buffer; the answer of an asynchronous request is what its callback gets. The fields
    of the master boot record are IncludeOS's too ([as_mbr]). A result is the error the
    callback [on_init] gets with the file system; an [Error] is an exception or a panic,
    [None] the access through a null pointer. *)
From stdpp Require Import base list option gmap.
From Stdlib Require Import ZArith Lia ZifyBool.
From S2P Require Import Prelude Fat.
#[local] Open Scope Z_scope.

Record block_device := {
  dev_size : Z;
  dev_block_size : Z;
  dev_read : Z -> option bytes;             (* one block *)
  dev_read_sync : Z -> Z -> option bytes;
}.

Record partition_entry := {
  p_flags : Z; p_type : Z; p_lba_begin : Z; p_sectors : Z;
  get_LBA : Z; get_sectors : Z;             (* IncludeOS's functions of the entry *)
}.
(** [Partition(flags, id, LBA, sectors)]. *)
Definition Partition : Type := (Z * Z * Z * Z)%type.
Record boot_record := { br_boot : mbr; br_signature : Z; br_part : list partition_entry }.

(** [partition_t]. *)
Definition MBR : nat := 0.
Definition VBR1 : nat := 1.
Definition PARTITIONS : nat := 4.

Section Disk.
Variable device : block_device.
Variable as_mbr : bytes -> boot_record.

(** The partitions of a record, by index. *)
Fixpoint parts_from (m : boot_record) (i n : nat) : option (list Partition) :=
  match n with
  | O => Some []
  | S n => p ← br_part m !! i; ps ← parts_from m (S i) n; Some ((p_flags p, p_type p, get_LBA p, get_sectors p) :: ps)
  end.

Definition partitions : option (error_t * list Partition) :=
  match dev_read device 0 with
  | None => Some (E_IO, [])
  | Some data => ps ← parts_from (as_mbr data) 0 PARTITIONS; Some (no_error, ps)
  end.

(** [FAT_::init(base, size, on_init)]; the buffer is used before the test for null. *)
Definition FAT_init (base : Z) : LuaM (error_t * option FAT) :=
  let* data := llift (dev_read device base) in
  let m := br_boot (as_mbr data) in
  if negb (mbr_magic m =? 0xAA55) then lret (E_MNT, None)
  else let* f := init (dev_read_sync device) base m in lret (no_error, Some f).

Definition internal_init (part : nat) : LuaM (error_t * option FAT) :=
  if (part =? MBR)%nat then FAT_init 0
  else
    match dev_read device 0 with
    | None => lret (E_IO, None)
    | Some data =>
        let* p := llift (br_part (as_mbr data) !! (part - 1)%nat) in
        if p_sectors p =? 0 then lerror "No such partition (length was zero)" else FAT_init (p_lba_begin p)
    end.

(** [init_fs(part, func)]. *)
Definition init_fs (part : nat) : LuaM (error_t * option FAT) := internal_init part.

(** The test for a FAT on the MBR. *)
Definition fat_on_mbr (m : boot_record) : bool :=
  let bpb := mbr_bpb (br_boot m) in
  (512 <=? bytes_per_sector bpb) && negb (fa_tables bpb =? 0) &&
  (negb (br_signature m =? 0) || negb (large_sectors bpb =? 0)).

(** The loop over the partition list, from partition [i] on. *)
Definition usable (p : partition_entry) : bool :=
  negb (p_type p =? 0) && negb (p_lba_begin p =? 0) && negb (p_sectors p =? 0).
Fixpoint find_partition (m : boot_record) (i n : nat) : option (option nat) :=
  match n with
  | O => Some None
  | S n => p ← br_part m !! i; if usable p then Some (Some i) else find_partition m (S i) n
  end.

(** [init_fs(func)]; [filesys] is what the disk holds already, null at first. *)
Definition init_fs_auto (filesys : option FAT) : LuaM (error_t * option FAT) :=
  match dev_read device 0 with
  | None => let* f := llift filesys in lret (E_IO, Some f)
  | Some data =>
      let m := as_mbr data in
      if fat_on_mbr m then internal_init MBR
      else
        let* i := llift (find_partition m 0 PARTITIONS) in
        match i with
        | Some i => internal_init (VBR1 + i)
        | None =>
            match filesys with
            | Some f => lret (E_MNT, Some f)
            | None => lerror "Filesystem not ready - make sure to init_fs before accessing"
            end
        end
  end.

(** ** The boot (main.cpp): the callback of [init_fs], and [main2] up to the BIOS *)
Variable cl_dir_array : bytes -> list cl_dir.

Definition bios_name : bytes := bytes_of_string "bios.lua".

Definition load_bios (fuel : nat) (f : FAT) : LuaM bytes :=
  let* r := llift (stat f (dev_read_sync device) cl_dir_array fuel [bios_name] None ∅) in
  let bios_dir := r.1 in
  if bool_decide (etype bios_dir = INVALID_ENTITY) then lerror "Couldn't load BIOS file"
  else read f (dev_read_sync device) (dev_block_size device) bios_dir 0 (size bios_dir + size bios_dir / 512).

Definition boot (fuel : nat) : LuaM bytes :=
  let* r := init_fs VBR1 in
  match r with
  | (no_error, Some f) => load_bios fuel f
  | _ => lerror "Could not load filesystem"
  end.
End Disk.
