(* ===== verification/DiskBoot.v ===== *)
(** * From the disk to the BIOS

    The parts of the boot composed. [volume] is a FAT12 or FAT16 volume as the FAT
    specification describes it: where its tables, its root directory and its clusters lie
    and what they hold, without the driver's definitions. On any device that returns the
    bytes of such a disk, mounting and reading give the bytes of the file; an IDE drive that
    keeps the ATA interface ([AtaDisk]) is such a device in every state between requests,
    and the two together are the boot ([boot_loads_bios]). *)
From Stdlib Require Import ZifyBool.
From S2P Require Import Prelude LPattern Ide IdeProps Fat FatProps FatRead Disk.
#[local] Open Scope Z_scope.

(** ** Bytes of a disk *)

(** The bytes of 16-bit words in memory. *)
Definition bytes_of_words (ws : list Z) : bytes := concat ((fun w => [w mod 256; w / 256]) <$> ws).

(** The bytes of [cnt] sectors, and a disk of [n] sectors as a device. *)
Definition disk_bytes (c : Z -> list Z) (blk : Z) (cnt : nat) : bytes :=
  bytes_of_words (concat ((fun i => c (blk + Z.of_nat i)) <$> seq 0 cnt)).
Definition disk_reads (c : Z -> list Z) (n blk cnt : Z) : option bytes :=
  if blk >=? n then None else Some (disk_bytes c blk (Z.to_nat cnt)).

Lemma bytes_of_words_length ws : length (bytes_of_words ws) = (2 * length ws)%nat.
Proof. unfold bytes_of_words. induction ws as [|w ws IH]; [done|]. cbn [fmap list_fmap concat app length] in *. lia. Qed.
Lemma disk_bytes_length c blk cnt : (forall i, length (c i) = SECTOR_ARRAY) -> length (disk_bytes c blk cnt) = (512 * cnt)%nat.
Proof.
  intros Hc. unfold disk_bytes. rewrite bytes_of_words_length. assert (forall l : list nat,
    length (concat ((fun i => c (blk + Z.of_nat i)) <$> l)) = (256 * length l)%nat) as ->; [|rewrite length_seq; lia].
  intros l. induction l as [|i l IH]; [done|]. cbn [fmap list_fmap concat length]. rewrite length_app, Hc, IH. unfold SECTOR_ARRAY. lia.
Qed.

(** ** A FAT volume *)
Record volume := {
  v_start : Z;            (* its first sector on the disk *)
  v_total : Z;            (* sectors *)
  v_reserved : Z;         (* before the first table *)
  v_fats : Z; v_fat_size : Z;
  v_root_entries : Z;
  v_spc : Z;              (* sectors per cluster *)
  v_table : list Z;       (* the entries of the table *)
}.
Section Layout.
Variable v : volume.
Definition table_start : Z := v_start v + v_reserved v.
Definition root_start : Z := table_start + v_fats v * v_fat_size v.
Definition root_sectors : Z := (v_root_entries v * 32 + 511) / 512.
Definition data_start : Z := root_start + root_sectors.
Definition cluster_count : Z := (v_start v + v_total v - data_start) / v_spc v.
(** The type of a volume is decided by the number of its clusters and nothing else. *)
Definition v_type : Z := if cluster_count <? 4085 then T_FAT12 else T_FAT16.
Definition cluster_start (c : Z) : Z := data_start + (c - 2) * v_spc v.
(** The first entry of the table has the byte of a fixed disk in its low bits. *)
Definition media_entry : Z := if v_type =? T_FAT12 then 0xFF8 else 0xFFF8.

(** A volume with 512-byte sectors, not FAT32, inside a disk of [n] sectors. *)
Record volume_ok (n : Z) : Prop := {
  vo_start : 0 <= v_start v;
  vo_end : v_start v + v_total v <= n;
  vo_reserved : 1 <= v_reserved v < 2 ^ 16;
  vo_fats : 1 <= v_fats v < 2 ^ 8;
  vo_fat_size : 1 <= v_fat_size v <= 256;
  vo_root : 0 <= v_root_entries v < 2 ^ 16;
  vo_spc : 1 <= v_spc v <= 128;
  vo_data : data_start <= v_start v + v_total v;
  vo_clusters : cluster_count < 65525;
  vo_root_cluster : root_start + v_spc v <= n;
  vo_table : Forall (fun x => 0 <= x < 2 ^ entry_bits v_type) (v_table v);
  vo_entries : Z.of_nat (length (v_table v)) = cluster_count + 2;
  vo_media : v_table v !! 0%nat = Some media_entry;
}.

(** What the boot sector says. *)
Record describes (b : BPB) : Prop := {
  ds_bytes : bytes_per_sector b = 512;
  ds_spc : bpb_sectors_per_cluster b = v_spc v;
  ds_reserved : reserved_sectors b = v_reserved v;
  ds_fats : fa_tables b = v_fats v;
  ds_root : root_entries b = v_root_entries v;
  ds_total : small_sectors b = v_total v \/ small_sectors b = 0 /\ large_sectors b = v_total v;
  ds_fat_size : bpb_sectors_per_fat b = v_fat_size v;
  ds_hidden : hidden_sectors b = v_start v;
}.

(** The volume in the first partition of a disk with the sectors [c]. *)
Record on_disk (c : Z -> list Z) (as_mbr : bytes -> boot_record) : Prop := {
  od_part : exists p, br_part (as_mbr (disk_bytes c 0 1)) !! 0%nat = Some p /\ p_lba_begin p = v_start v /\ p_sectors p <> 0;
  od_magic : mbr_magic (br_boot (as_mbr (disk_bytes c (v_start v) 1))) = 0xAA55;
  od_boot : describes (mbr_bpb (br_boot (as_mbr (disk_bytes c (v_start v) 1))));
  od_table : encode_table v_type (v_table v) `prefix_of` disk_bytes c table_start (Z.to_nat (v_fat_size v));
}.
End Layout.

(** *** Directories *)

(** What a directory is a sequence of: a free entry, an entry with a short name, or entries
    with the parts of a long name, the last part first, before the entry they belong to. *)
Inductive item := Deleted (e : cl_dir) | Short (e : cl_dir) | Long (ls : list cl_dir) (e : cl_dir).
Definition entries_of (it : item) : list cl_dir := match it with Deleted e | Short e => [e] | Long ls e => ls ++ [e] end.

Definition in_use (e : cl_dir) : Prop := exists c, shortname e !! 0%nat = Some c /\ c <> 0 /\ c <> 0xE5.
(** The parts hold the characters, a zero and then 0xFFFF, or end with the last character. *)
Definition spells (ls : list cl_dir) (text : bytes) : Prop :=
  Forall (fun e => length (longname e) = 13%nat) ls /\ Forall (fun c => 0 < c < 256) text /\ (length text <= 240)%nat /\
  exists pad, concat (longname <$> reverse ls) = text ++ pad /\ (length pad <= 13)%nat /\ (pad = [] \/ exists k, pad = 0 :: replicate k 0xFFFF).
Definition item_ok (it : item) : Prop :=
  match it with
  | Deleted e => shortname e !! 0%nat = Some 0xE5
  | Short e => in_use e /\ is_longname e = false
  | Long ls e => exists l, head ls = Some l /\ in_use l /\ is_longname l = true /\ is_last l = true /\ long_index l = Z.of_nat (length ls)
  end.

(** The entry of bios.lua, and an entry the search of the driver passes: it takes every
    entry whose name is a prefix of the one it looks for. *)
Definition is_bios (it : item) (e : cl_dir) : Prop :=
  match it with
  | Deleted _ => False
  | Short e' => e' = e /\ shortname e = bytes_of_string "BIOS    LUA" /\ Z.land (attrib e) 0x10 = 0
  | Long ls e' => e' = e /\ exists text, spells ls text /\ tolower <$> text = bios_name
  end.
Definition passed_name (nm : bytes) : Prop := 0 ∉ nm /\ ~ (tolower <$> nm) `prefix_of` bios_name.
Definition passed (it : item) : Prop :=
  match it with
  | Deleted _ => True
  | Short e => passed_name (short_dirname e)
  | Long ls e => exists text, spells ls text /\ passed_name text
  end.

(** The file bios.lua in the part of the root directory that fills one cluster's sectors, with
    its chain of clusters, none of which is the first one, number 2. *)
Record bios_file (v : volume) (root : list cl_dir) (e : cl_dir) (chain : list Z) : Prop := {
  bf_length : Z.of_nat (length root) = 16 * v_spc v;
  bf_fields : Forall entry_ok root;
  bf_listed : exists before it after, root = concat (entries_of <$> before) ++ entries_of it ++ after /\
    Forall item_ok before /\ Forall passed before /\ item_ok it /\ is_bios it e;
  bf_type : d_type e = FILE;
  bf_size : 0 <= d_size e < 2 ^ 32 /\ d_size e <= Z.of_nat (length chain) * (512 * v_spc v);
  bf_first : chain !! 0%nat = Some (dir_cluster e 2);
  bf_clusters : Forall (fun c => 2 < c < cluster_count v + 2) chain;
  bf_links : forall k c c', chain !! k = Some c -> chain !! S k = Some c' -> v_table v !! Z.to_nat c = Some c';
}.
Definition file_bytes (c : Z -> list Z) (v : volume) (e : cl_dir) (chain : list Z) : bytes :=
  take (Z.to_nat (d_size e)) (concat ((fun k => disk_bytes c (cluster_start v k) (Z.to_nat (v_spc v))) <$> chain)).

(** ** The driver's directory parser reads such a directory *)
Lemma name_part_text text pad : Forall (fun c => 0 < c < 256) text -> pad = [] \/ (exists k, pad = 0 :: replicate k 0xFFFF) ->
  name_part (text ++ pad) = text.
Proof.
  intros Ht Hp. induction Ht as [|c text Hc Ht IH]; [by destruct Hp as [->|[k ->]]|]. cbn [app name_part].
  assert ((c =? 65535) || (c =? 0) = false) as -> by lia. rewrite IH. f_equal.
  change 255 with (Z.ones 8). rewrite Z.land_ones by lia. apply Z.mod_small. lia.
Qed.

Lemma name_parts_text (ls : list (list Z)) text pad : Forall (fun l => length l = 13%nat) ls -> Forall (fun c => 0 < c < 256) text ->
  concat ls = text ++ pad -> (length pad <= 13)%nat -> pad = [] \/ (exists k, pad = 0 :: replicate k 0xFFFF) ->
  concat (name_part <$> ls) = text.
Proof.
  intros Hl. revert text. induction Hl as [|l ls Hl Hls IH]; intros text Ht E Hn Hp.
  { symmetry in E. apply app_nil in E as [-> _]. done. }
  destruct ls as [|l' ls].
  { cbn in E |- *. rewrite app_nil_r in *. rewrite E. by apply name_part_text. }
  assert (13 <= length (concat (l' :: ls)))%nat as Hm by (apply Forall_cons in Hls as [Hl' _]; cbn; rewrite length_app; lia).
  remember (l' :: ls) as r eqn:Er. cbn [concat] in E.
  assert (take 13 text = l /\ concat r = drop 13 text ++ pad) as [Et Er'].
  { pose proof (f_equal length E) as El. rewrite !length_app in El.
    rewrite <- (take_drop 13 text), <- app_assoc in E. apply app_inj_1 in E as [-> E]; [done|]. rewrite length_take. lia. }
  cbn [fmap list_fmap concat]. rewrite (IH (drop 13 text)); [|by apply Forall_drop|done|done|done].
  rewrite <- (take_drop 13 text) at 2. f_equal. rewrite <- Et at 1. rewrite <- (app_nil_r (take 13 text)) at 1.
  apply name_part_text; [by apply Forall_take|by left].
Qed.

(** The backward loop over the parts. *)
Lemma long_name_parts (before ls after : list cl_dir) k final : (k <= length ls)%nat ->
  (length (final ++ concat ((fun e => name_part (take 13 (longname e))) <$> reverse (take k ls))) <= 240)%nat ->
  long_name (before ++ ls ++ after) k (Z.of_nat (length before) + Z.of_nat k - 1) final =
    Some (final ++ concat ((fun e => name_part (take 13 (longname e))) <$> reverse (take k ls))).
Proof.
  revert final. induction k as [|k IH]; intros final Hk Hlen; cbn [long_name]; [by rewrite app_nil_r|].
  destruct (lookup_lt_is_Some_2 ls k) as [e He]; [lia|].
  assert ((before ++ ls ++ after) !! (length before + k)%nat = Some e) as Hl.
  { rewrite lookup_app_r by lia. replace (length before + k - length before)%nat with k by lia. by apply lookup_app_l_Some. }
  assert ((Z.of_nat (length before) + Z.of_nat (S k) - 1 <? 0) = false) as -> by lia.
  replace (Z.to_nat (Z.of_nat (length before) + Z.of_nat (S k) - 1)) with (length before + k)%nat by lia. rewrite Hl. cbn [mbind option_bind].
  rewrite (take_S_r _ _ e He), reverse_app in Hlen |- *. cbn [reverse rev_append app fmap list_fmap concat] in Hlen |- *.
  change (rev_append [e] []) with [e] in *. cbn [app fmap list_fmap concat] in Hlen |- *.
  set (p := name_part (take 13 (longname e))) in *. rewrite (app_assoc final p) in Hlen |- *.
  assert (length (final ++ p) <= 240)%nat as Hp by (rewrite length_app in Hlen; lia).
  assert ((256 <=? length (final ++ p))%nat = false) as -> by lia. assert ((240 <? length (final ++ p))%nat = false) as -> by lia.
  replace (Z.of_nat (length before) + Z.of_nat (S k) - 1 - 1) with (Z.of_nat (length before) + Z.of_nat k - 1) by lia.
  apply IH; [lia|done].
Qed.

Lemma long_name_text before ls after text : spells ls text ->
  long_name (before ++ ls ++ after) (length ls) (Z.of_nat (length before) + (Z.of_nat (length ls) - 1)) [] = Some text.
Proof.
  intros (Hl & Ht & H240 & pad & E & Hn & Hp). rewrite Z.add_sub_assoc.
  assert (concat ((fun e => name_part (take 13 (longname e))) <$> reverse (take (length ls) ls)) = text) as Ec.
  { rewrite take_ge by lia. transitivity (concat (name_part <$> (longname <$> reverse ls))).
    - f_equal. rewrite <- list_fmap_compose. apply list_fmap_ext. intros i e He. cbn. rewrite take_ge; [done|].
      rewrite Forall_forall in Hl. rewrite (Hl e); [done|]. apply elem_of_reverse. by eapply list_elem_of_lookup_2.
    - eapply name_parts_text; [|exact Ht|exact E|exact Hn|exact Hp]. apply Forall_fmap, Forall_reverse. exact Hl. }
  rewrite long_name_parts; [by rewrite Ec|done|by rewrite Ec].
Qed.

Lemma entries_pos it : item_ok it -> (1 <= length (entries_of it))%nat.
Proof. destruct it; cbn [entries_of]; rewrite ?length_app; cbn; lia. Qed.
Lemma items_length items : Forall item_ok items -> (length items <= length (concat (entries_of <$> items)))%nat.
Proof.
  induction 1 as [|it items Hi _ IH]; [done|]. cbn [fmap list_fmap concat length]. rewrite length_app.
  pose proof (entries_pos it Hi). lia.
Qed.

Section Parse.
Variable (f : FAT) (sector : Z).

(** The name the driver gives to an item, and the entries it lists for it. *)
Definition item_name (it : item) (nm : bytes) : Prop :=
  match it with Deleted _ => False | Short e => nm = short_dirname e | Long ls _ => spells ls nm end.
Definition lists (it : item) (ds : list Dirent) : Prop :=
  match it with
  | Deleted _ => ds = []
  | Short e | Long _ e => exists nm, item_name it nm /\ ds = [make_dirent f nm sector e]
  end.

Lemma loop_item fuel before it after ds ents : Z.of_nat (length (before ++ entries_of it ++ after)) = 16 * sectors_per_cluster f ->
  item_ok it -> lists it ds ->
  dirent_loop f (S fuel) sector (before ++ entries_of it ++ after) (Z.of_nat (length before)) ents =
  dirent_loop f fuel sector (before ++ entries_of it ++ after) (Z.of_nat (length (before ++ entries_of it))) (ents ++ ds).
Proof.
  intros Hlen Hok Hds. pose proof (entries_pos it Hok) as Hpos. pose proof Hlen as Hlen'. rewrite !length_app in Hlen'.
  cbn [dirent_loop]. set (root := before ++ entries_of it ++ after) in *.
  assert ((16 * sectors_per_cluster f <=? Z.of_nat (length before)) = false) as -> by lia. rewrite Nat2Z.id.
  assert (forall e l, entries_of it = e :: l -> root !! length before = Some e) as Hhd.
  { intros e l E. unfold root. rewrite lookup_app_r, Nat.sub_diag, E by lia. done. }
  destruct it as [e|e|ls e]; cbn [item_ok lists item_name entries_of] in *.
  - rewrite (Hhd e [] eq_refl). cbn [mbind option_bind]. rewrite Hok. cbn [mbind option_bind]. change (0xE5 =? 0) with false.
    change (0xE5 =? 0xE5) with true. cbv iota. subst ds. rewrite app_nil_r, length_app. cbn [length]. f_equal. lia.
  - destruct Hok as [(ch & Ec & H0 & H5) Hl]. rewrite (Hhd e [] eq_refl). cbn [mbind option_bind]. rewrite Ec. cbn [mbind option_bind].
    assert ((ch =? 0) = false) as -> by lia. assert ((ch =? 0xE5) = false) as -> by lia. rewrite Hl.
    destruct Hds as (nm & -> & ->). rewrite length_app. cbn [length]. f_equal. lia.
  - destruct Hok as (l & El & (ch & Ec & H0 & H5) & Hl & Hlast & Hi). destruct ls as [|l' ls']; [done|]. injection El as ->.
    set (ls := l :: ls') in *. rewrite (Hhd l (ls' ++ [e]) eq_refl). cbn [mbind option_bind]. rewrite Ec. cbn [mbind option_bind].
    assert ((ch =? 0) = false) as -> by lia. assert ((ch =? 0xE5) = false) as -> by lia. rewrite Hl, Hlast, Hi.
    rewrite length_app in Hlen'. cbn [length] in Hlen'.
    assert ((16 * sectors_per_cluster f <=? Z.of_nat (length before) + Z.of_nat (length ls)) = false) as -> by lia. rewrite Nat2Z.id.
    destruct Hds as (nm & Hnm & ->). assert (root = before ++ ls ++ e :: after) as Er by (unfold root; by rewrite <- app_assoc).
    rewrite Er at 1. rewrite (long_name_text before ls (e :: after) nm Hnm). cbn [mbind option_bind].
    assert (root !! Z.to_nat (Z.of_nat (length before) + Z.of_nat (length ls)) = Some e) as ->.
    { rewrite Er. replace (Z.to_nat _) with (length before + length ls)%nat by lia. rewrite lookup_app_r by lia.
      rewrite lookup_app_r by lia. by replace (length before + length ls - length before - length ls)%nat with 0%nat by lia. }
    cbn [mbind option_bind]. rewrite !length_app. cbn [length]. f_equal. lia.
Qed.

Lemma loop_items items : forall fuel before after ents dss,
  Z.of_nat (length (before ++ concat (entries_of <$> items) ++ after)) = 16 * sectors_per_cluster f ->
  Forall item_ok items -> Forall2 lists items dss ->
  dirent_loop f (length items + fuel) sector (before ++ concat (entries_of <$> items) ++ after) (Z.of_nat (length before)) ents =
  dirent_loop f fuel sector (before ++ concat (entries_of <$> items) ++ after)
    (Z.of_nat (length (before ++ concat (entries_of <$> items)))) (ents ++ concat dss).
Proof.
  induction items as [|it items IH]; intros fuel before after ents dss Hlen Hok Hds.
  - apply Forall2_nil_inv_l in Hds as ->. cbn [fmap list_fmap concat length Nat.add]. by rewrite !app_nil_r.
  - apply Forall2_cons_inv_l in Hds as (ds & dss' & Hd & Hds & ->). apply Forall_cons in Hok as [Hit Hok].
    cbn [fmap list_fmap concat length Nat.add] in *. rewrite <- app_assoc in Hlen |- *.
    rewrite (loop_item _ before it (concat (entries_of <$> items) ++ after) ds) by done.
    pose proof (IH fuel (before ++ entries_of it) after (ents ++ ds) dss') as H. rewrite <- !app_assoc in H.
    by rewrite H.
Qed.
End Parse.

(** The search for bios.lua. *)
Lemma bios_no_nul : 0 ∉ bios_name.
Proof. change bios_name with [98; 105; 111; 115; 46; 108; 117; 97]. rewrite !not_elem_of_cons. split_and!; try done. apply not_elem_of_nil. Qed.
Lemma find_passed ds ents : Forall (fun d => passed_name (name d)) ds -> find_entry bios_name (ds ++ ents) = find_entry bios_name ents.
Proof.
  induction 1 as [|d ds [Hz Hp] Hds IH]; [done|]. cbn [app find_entry]. rewrite iequals_prefix by done. cbn [mbind option_bind].
  assert (tolower <$> bios_name = bios_name) as -> by reflexivity. by rewrite bool_decide_eq_false_2 by done.
Qed.
Lemma tolower_nonzero (nm : bytes) : 0 ∉ (tolower <$> nm) -> 0 ∉ nm.
Proof. intros H Hin. apply H. apply list_elem_of_fmap. exists 0. by split. Qed.
Lemma find_bios d ents : tolower <$> name d = bios_name -> find_entry bios_name (d :: ents) = Some d.
Proof.
  intros E. cbn [find_entry]. rewrite iequals_prefix by (apply tolower_nonzero; rewrite E; apply bios_no_nul). cbn [mbind option_bind].
  rewrite E. by rewrite bool_decide_eq_true_2.
Qed.
Lemma short_bios e : shortname e = bytes_of_string "BIOS    LUA" -> Z.land (attrib e) 0x10 = 0 -> short_dirname e = bios_name.
Proof. intros E Ha. unfold short_dirname. rewrite E, Ha. reflexivity. Qed.

Lemma passed_lists f sector it : item_ok it -> passed it ->
  exists ds, lists f sector it ds /\ Forall (fun d => passed_name (name d)) ds.
Proof.
  destruct it as [e|e|ls e]; cbn [passed lists item_name].
  - by exists [].
  - intros _ Hp. exists [make_dirent f (short_dirname e) sector e]. split; [by eexists|]. by apply Forall_singleton.
  - intros _ (text & Hs & Hp). exists [make_dirent f text sector e]. split; [by exists text|]. by apply Forall_singleton.
Qed.
Lemma bios_lists f sector it e : is_bios it e ->
  exists nm, lists f sector it [make_dirent f nm sector e] /\ tolower <$> nm = bios_name.
Proof.
  destruct it as [e'|e'|ls e']; cbn [is_bios lists item_name]; [done|..].
  - intros (-> & Hn & Ha). exists bios_name. split; [|reflexivity]. exists bios_name. split; [|done]. by rewrite short_bios.
  - intros (-> & text & Hs & Ht). exists text. split; [by exists text|done].
Qed.

(** The root directory as the driver lists it: bios.lua is found, with its size and its
    first cluster. *)
Lemma root_listed (f : FAT) v sector root e chain : bios_file v root e chain -> sectors_per_cluster f = v_spc v -> root_cluster f = 2 ->
  exists done ents d, int_dirent f sector root [] = Some (done, ents) /\ find_entry bios_name ents = Some d /\
    etype d = FILE /\ block d = dir_cluster e 2 /\ Fat.size d = d_size e.
Proof.
  intros Hb Es Er. pose proof (bf_length _ _ _ _ Hb) as Hlen. destruct (bf_listed _ _ _ _ Hb) as (before & it & after & Hroot & Hok & Hpass & Hit & Hbios).
  assert (exists dss, Forall2 (lists f sector) before dss /\ Forall (fun d => passed_name (name d)) (concat dss)) as (dss & Hdss & Hp).
  { clear Hroot. induction before as [|i before IH]; [exists []; split; [constructor|constructor]|].
    apply Forall_cons in Hok as [Hi Hok]. apply Forall_cons in Hpass as [Hpi Hpass]. destruct (IH Hok Hpass) as (dss & H1 & H2).
    destruct (passed_lists f sector i Hi Hpi) as (ds & ? & ?). exists (ds :: dss). split; [by constructor|]. by apply Forall_app. }
  destruct (bios_lists f sector it e Hbios) as (nm & Hl & Hnm).
  set (items := before ++ [it]). assert (root = [] ++ concat (entries_of <$> items) ++ after) as Hroot'.
  { unfold items. rewrite Hroot, fmap_app, concat_app. cbn. by rewrite app_nil_r, <- app_assoc. }
  assert (Forall item_ok items) as Hall by (apply Forall_app; split; [done|by constructor]). pose proof (items_length items Hall) as Hci.
  assert (length items <= length root)%nat as Hil.
  { rewrite Hroot'. cbn [app]. rewrite length_app. lia. }
  unfold int_dirent. rewrite Es, <- Hlen, Nat2Z.id. assert (exists k, length root = length items + k)%nat as [k Hk] by (exists (length root - length items)%nat; lia).
  rewrite Hk. assert (length root - length items = k)%nat as Ek by lia. rewrite Hroot'. change 0 with (Z.of_nat (length (@nil cl_dir))) at 1.
  rewrite (loop_items f sector items k [] after [] (dss ++ [[make_dirent f nm sector e]])).
  - rewrite <- Hroot'. destruct (dirent_loop_total f sector root k (Z.of_nat (length ([] ++ concat (entries_of <$> items))))
      ([] ++ concat (dss ++ [[make_dirent f nm sector e]]))) as (dn & new & E & _).
    + rewrite Es. lia.
    + apply Hb.
    + lia.
    + rewrite Es, <- Hlen, !Nat2Z.id, <- Ek. cbn [app]. lia.
    + rewrite E. eexists _, _, _. split; [done|]. rewrite concat_app. cbn [concat app]. rewrite <- !app_assoc.
      rewrite find_passed by done. cbn [app]. rewrite find_bios by done. split; [done|]. cbn [make_dirent etype block Fat.size].
      rewrite Er. split; [apply Hb|]. done.
  - rewrite <- Hroot', Es. lia.
  - done.
  - apply Forall2_app; [done|]. by constructor.
Qed.

(** ** The driver mounts such a volume *)
Section Mount.
Variables (c : Z -> list Z) (n : Z) (v : volume) (device : block_device) (as_mbr : bytes -> boot_record) (dirs : bytes -> list cl_dir).
Hypothesis Hsec : forall i, length (c i) = SECTOR_ARRAY.
Hypothesis Hv : volume_ok v n.
Hypothesis Hn : n <= 2 ^ 28.
Hypothesis Hdisk : on_disk v c as_mbr.
(** The device returns the bytes of the disk; of its last sector not asynchronously. *)
Hypothesis Hblock : dev_block_size device = 512.
Hypothesis Hasync : forall blk, 0 <= blk -> blk + 1 < n -> dev_read device blk = Some (disk_bytes c blk 1).
Hypothesis Hsync : forall blk cnt, 0 <= blk -> 1 <= cnt <= 256 -> blk + cnt <= n ->
  dev_read_sync device blk cnt = Some (disk_bytes c blk (Z.to_nat cnt)).
#[local] Abbreviation read_sync := (dev_read_sync device).

(** The driver's view of the volume. *)
Definition fat_of : FAT := {|
  lba_base := v_start v; sector_size := 512; Fat.sectors := v_total v; clusters := cluster_count v; fat_type := v_type v;
  reserved := v_reserved v; sectors_per_fat := v_fat_size v; sectors_per_cluster := v_spc v; root_dir_sectors := root_sectors v;
  root_cluster := 2; data_index := v_reserved v + v_fats v * v_fat_size v + root_sectors v;
  data_sectors := v_start v + v_total v - data_start v;
  file_allocation_table := disk_bytes c (table_start v) (Z.to_nat (v_fat_size v)) |}.

(** Where the parts of the volume are. *)
Record bounds : Prop := {
  bo_root : 0 <= root_sectors v < 2 ^ 16;
  bo_fats : 1 <= v_fats v * v_fat_size v < 2 ^ 16;
  bo_table : 0 <= table_start v /\ table_start v + v_fat_size v <= n;
  bo_start : 0 <= root_start v;
  bo_clusters : 0 <= cluster_count v /\ cluster_count v * v_spc v <= v_start v + v_total v - data_start v;
}.
Lemma volume_bounds : bounds.
Proof using Hv.
  destruct Hv. assert (0 <= root_sectors v < 2 ^ 16) as Hr.
  { unfold root_sectors. split; [apply Z.div_pos; lia|]. apply Z.div_lt_upper_bound; lia. }
  assert (v_fat_size v <= v_fats v * v_fat_size v <= 256 * v_fats v) as Hf by nia.
  split; try (unfold data_start, root_start, table_start in *; lia).
  unfold cluster_count. split; [apply Z.div_pos; lia|].
  rewrite Z.mul_comm. apply Z.mul_div_le. lia.
Qed.

Lemma disk_length blk cnt : Z.of_nat (length (disk_bytes c blk cnt)) = 512 * Z.of_nat cnt.
Proof using Hsec. rewrite disk_bytes_length by done. lia. Qed.

Lemma init_volume b : describes v (mbr_bpb b) -> init read_sync (v_start v) b = lret fat_of.
Proof using Hsec Hv Hn Hsync.
  intros [D1 D2 D3 D4 D5 D6 D7 D8]. destruct volume_bounds as [[B1 B2] [B3 B4] [B5 B6] B7 [B8 B9]]. pose proof Hv as [V1 V2 V3 V4 V5 V6 V7 V8 V9 _ _ _ _].
  unfold init. rewrite D1, D2, D3, D4, D5, D7, D8. change (512 <? 512) with false. cbv iota zeta.
  assert ((if negb (small_sectors (mbr_bpb b) =? 0) then small_sectors (mbr_bpb b) else large_sectors (mbr_bpb b)) = v_total v) as ->.
  { unfold data_start, root_start, table_start in V8. destruct D6 as [->|[-> ->]]; [|done]. assert ((v_total v =? 0) = false) as -> by nia. done. }
  assert ((v_fat_size v =? 0) = false) as -> by lia. change (512 - 1) with 511. fold (root_sectors v).
  rewrite (uwrap_small 16) by lia. unfold data_start, root_start, table_start in *.
  rewrite (uwrap_small 32 (_ + root_sectors v)) by lia.
  assert (v_total v - (v_reserved v + v_fats v * v_fat_size v + root_sectors v) = v_start v + v_total v - (v_start v + v_reserved v + v_fats v * v_fat_size v + root_sectors v)) as -> by lia.
  rewrite (uwrap_small 32 (_ - _)) by lia. assert ((v_spc v =? 0) = false) as -> by lia. assert ((v_fats v =? 0) = false) as -> by lia.
  rewrite Hsync by lia. change ((v_start v + v_total v - (v_start v + v_reserved v + v_fats v * v_fat_size v + root_sectors v)) / v_spc v) with (cluster_count v).
  change (v_start v + v_reserved v) with (table_start v).
  assert (length (disk_bytes c (table_start v) (Z.to_nat (v_fat_size v))) = Z.to_nat (v_fat_size v * 512)) as El.
  { rewrite disk_bytes_length by done. lia. }
  rewrite El, Nat.ltb_irrefl. rewrite take_ge by lia. f_equal. unfold fat_of. f_equal; [apply uwrap_small; lia|].
  unfold v_type. assert ((cluster_count v <? 65525) = true) as -> by lia. done.
Qed.

Lemma mount_volume : init_fs device as_mbr VBR1 = lret (no_error, Some fat_of).
Proof using Hsec Hv Hn Hsync Hasync Hdisk.
  destruct Hdisk as [(p & Hp & Hl & Hs) Hm Hb _]. destruct volume_bounds as [[B1 B2] [B3 B4] [B5 B6] B7 [B8 B9]]. pose proof Hv as [V1 V2 V3 V4 V5 V6 V7 V8 V9 _ _ _ _].
  unfold data_start, root_start, table_start in *.
  unfold init_fs, internal_init. change (VBR1 =? MBR)%nat with false. cbv iota. rewrite Hasync by lia.
  change (VBR1 - 1)%nat with 0%nat. rewrite (lbind_lift _ _ _ Hp). assert ((p_sectors p =? 0) = false) as -> by lia.
  rewrite Hl. unfold FAT_init. rewrite Hasync by lia. rewrite (lbind_lift _ _ _ eq_refl). cbv zeta. rewrite Hm.
  change (negb (43605 =? 43605)) with false. cbv iota. by rewrite init_volume.
Qed.

(** Sectors of clusters, and the table. *)
Lemma root_cl_to_sector : cl_to_sector fat_of 0 = root_start v.
Proof using Hv Hn.
  destruct volume_bounds as [[B1 B2] [B3 B4] [B5 B6] B7 [B8 B9]]. pose proof Hv as [V1 V2 V3 V4 V5 V6 V7 V8 V9 V10 _ _ _].
  unfold cl_to_sector, root_start, table_start, data_start, root_start, table_start in *. change (0 <=? 2) with true. cbv iota.
  cbn [fat_of lba_base data_index sectors_per_cluster root_cluster root_dir_sectors]. rewrite uwrap_small; lia.
Qed.
Lemma file_cl_to_sector k : 2 < k < cluster_count v + 2 ->
  cl_to_sector fat_of k = cluster_start v k /\ 0 <= cluster_start v k /\ cluster_start v k + v_spc v <= n.
Proof using Hv Hn.
  intros Hk. destruct volume_bounds as [[B1 B2] [B3 B4] [B5 B6] B7 [B8 B9]]. pose proof Hv as [V1 V2 V3 V4 V5 V6 V7 V8 V9 V10 _ _ _].
  assert (0 <= (k - 2) * v_spc v /\ (k - 2) * v_spc v + v_spc v <= cluster_count v * v_spc v) as [K1 K2] by nia.
  unfold cl_to_sector, cluster_start. assert ((k <=? 2) = false) as -> by lia.
  unfold data_start, root_start, table_start in *. cbn [fat_of lba_base data_index sectors_per_cluster]. split; [|lia].
  rewrite uwrap_small by lia. lia.
Qed.

Lemma next_cluster_app (f : FAT) (table rest : bytes) k x : file_allocation_table f = table ++ rest ->
  next_cluster (table_fat (fat_type f) table) k = Some x -> next_cluster f k = Some x.
Proof using Type.
  intros Et. assert (forall i y, table_byte (table_fat (fat_type f) table) i = Some y -> table_byte f i = Some y) as Hb.
  { intros i y. unfold table_byte. cbn [table_fat file_allocation_table]. rewrite Et. destruct (i <? 0); [done|]. apply lookup_app_l_Some. }
  assert (forall m y, table_entry (table_fat (fat_type f) table) m k = Some y -> table_entry f m k = Some y) as He.
  { intros m y. unfold table_entry. cbn [table_fat file_allocation_table]. rewrite Et, length_app. destruct (Nat.leb_spec (Z.to_nat k * m + m) (length table)) as [Hl|]; [|done].
    assert ((Z.to_nat k * m + m <=? length table + length rest)%nat = true) as -> by lia.
    unfold slice. rewrite drop_app_le, take_app_le by (rewrite ?length_drop; lia). done. }
  unfold next_cluster. cbn [table_fat fat_type]. destruct (fat_type f =? T_FAT12).
  - destruct (negb _).
    + destruct (table_byte (table_fat _ _) (k / 2 * 3 + 1)) as [b1|] eqn:E1; [|done]. destruct (table_byte (table_fat _ _) (k / 2 * 3 + 2)) as [b2|] eqn:E2; [|done].
      by rewrite (Hb _ _ E1), (Hb _ _ E2).
    + destruct (table_byte (table_fat _ _) (k / 2 * 3 + 1)) as [b1|] eqn:E1; [|done]. destruct (table_byte (table_fat _ _) (k / 2 * 3)) as [b2|] eqn:E2; [|done].
      by rewrite (Hb _ _ E1), (Hb _ _ E2).
  - destruct (fat_type f =? T_FAT16); apply He.
Qed.
Lemma v_type_cases : v_type v = T_FAT12 \/ v_type v = T_FAT16.
Proof using Type. unfold v_type. destruct (_ <? _); auto. Qed.
Lemma volume_next k x : v_table v !! Z.to_nat k = Some x -> 0 <= k -> next_cluster fat_of k = Some x.
Proof using Hv Hdisk.
  intros Hk H0. destruct (od_table _ _ _ Hdisk) as [rest Et].
  apply (next_cluster_app fat_of (encode_table (v_type v) (v_table v)) rest); [done|].
  rewrite <- (Z2Nat.id k) by done. apply (next_cluster_entry _ (v_table v)); [|apply Hv|done|done].
  cbn [table_fat fat_type fat_of]. destruct v_type_cases; auto.
Qed.

(** ** The file *)
Variables (e : cl_dir) (chain : list Z) (fuel : nat).
Hypothesis Hfile : bios_file v (dirs (disk_bytes c (root_start v) (Z.to_nat (v_spc v)))) e chain.
Hypothesis Hfuel : (0 < fuel)%nat.

Lemma bios_stat : exists d cache, stat fat_of read_sync dirs fuel [bios_name] None ∅ = Some (d, cache) /\
  etype d = FILE /\ block d = dir_cluster e 2 /\ Fat.size d = d_size e.
Proof using Hv Hn Hdisk Hsync Hfile Hfuel.
  destruct (root_listed fat_of v (root_start v) _ e chain Hfile eq_refl eq_refl) as (dn & ents & d & E & Hd & Ht & Hbl & Hsz).
  pose proof Hv as [V1 V2 V3 V4 V5 V6 V7 V8 V9 V10 V11 V12 V13]. pose proof (bo_start volume_bounds).
  assert (exists cache, int_ls fat_of read_sync dirs fuel 0 [] ∅ = Some (no_error, ents, cache)) as (cache & El).
  { unfold int_ls. rewrite lookup_empty. destruct fuel as [|k]; [lia|]. cbn [ls_loop]. rewrite root_cl_to_sector.
    change (sectors_per_cluster fat_of) with (v_spc v). rewrite Hsync by lia. rewrite E. cbn [mbind option_bind].
    rewrite (volume_next 0 (media_entry v)) by done. cbn [mbind option_bind].
    assert (end_of_chain fat_of (media_entry v) = true) as ->.
    { unfold end_of_chain, media_entry. cbn [fat_of fat_type]. by destruct v_type_cases as [-> | ->]. }
    by eexists. }
  exists d, cache. split; [|done]. unfold stat, traverse. cbn [reverse rev_append traverse_from]. rewrite El. cbn [mbind option_bind]. by rewrite Hd.
Qed.

Lemma bios_on_disk : file_on_disk fat_of read_sync 512 chain ((fun k => disk_bytes c (cluster_start v k) (Z.to_nat (v_spc v))) <$> chain).
Proof using Hsec Hv Hn Hdisk Hsync Hfile.
  clear Hfuel. pose proof (bf_clusters _ _ _ _ Hfile) as Hcl. rewrite Forall_forall in Hcl. pose proof (vo_spc _ _ Hv) as Hs. split.
  - by rewrite length_fmap.
  - intros i k Hi. rewrite list_lookup_fmap, Hi. cbn [fmap option_fmap option_map].
    destruct (file_cl_to_sector k) as (-> & K1 & K2); [by eapply Hcl, list_elem_of_lookup_2|]. apply Hsync; [done|cbn; lia|done].
  - apply Forall_fmap, Forall_forall. intros k _. unfold compose. rewrite disk_length. cbn [fat_of sectors_per_cluster]. lia.
  - intros i k Hi. assert (2 < k < cluster_count v + 2) as Hk by by eapply Hcl, list_elem_of_lookup_2.
    destruct (lookup_lt_is_Some_2 (v_table v) (Z.to_nat k)) as [x Hx]; [pose proof (vo_entries _ _ Hv); lia|].
    exists x. split; [apply volume_next; [done|lia]|]. intros k' Hk'. pose proof (bf_links _ _ _ _ Hfile i k k' Hi Hk'). congruence.
Qed.

Lemma load_volume : load_bios device dirs fuel fat_of = lret (file_bytes c v e chain).
Proof using Hsec Hv Hn Hdisk Hblock Hsync Hfile Hfuel.
  destruct bios_stat as (d & cache & Hstat & Ht & Hbl & Hsz). unfold load_bios. rewrite (lbind_lift _ _ _ Hstat). cbv zeta. cbn [fst].
  rewrite bool_decide_eq_false_2 by (rewrite Ht; done). rewrite Hblock, Hsz.
  pose proof (bf_size _ _ _ _ Hfile) as [S1 S2]. pose proof (vo_spc _ _ Hv) as Hs.
  pose proof (bf_clusters _ _ _ _ Hfile) as Hcl. rewrite Forall_forall in Hcl.
  pose proof (Hcl _ (list_elem_of_lookup_2 _ _ _ (bf_first _ _ _ _ Hfile))) as Hc0. pose proof (vo_clusters _ _ Hv) as Hcc.
  pose proof (Z.div_pos (d_size e) 512 ltac:(lia) ltac:(lia)) as Hd. pose proof (Z.div_le_upper_bound (d_size e) 512 (2 ^ 32) ltac:(lia) ltac:(lia)).
  pose proof (read_slice fat_of read_sync 512 chain _ d 0 (d_size e + d_size e / 512) bios_on_disk) as Hread. cbv zeta in Hread.
  rewrite Hsz in Hread. assert (d_size e `min` 0 = 0) as E0 by lia. assert (d_size e `min` (0 + (d_size e + d_size e / 512)) = d_size e) as E1 by lia.
  change (sector_size fat_of) with 512 in Hread. change (sectors_per_cluster fat_of) with (v_spc v) in Hread.
  rewrite E0, E1, Z.div_0_l in Hread by lia. rewrite Hread.
  - rewrite Z.sub_0_r. done.
  - done.
  - lia.
  - lia.
  - lia.
  - lia.
  - lia.
  - lia.
  - intros _. rewrite Z.add_0_r, Hbl. rewrite uwrap_small by lia. apply Hfile.
Qed.

Lemma boot_volume : boot device as_mbr dirs fuel = lret (file_bytes c v e chain).
Proof using Hsec Hv Hn Hdisk Hblock Hasync Hsync Hfile Hfuel.
  unfold boot. rewrite mount_volume. change (lbind (lret ?x) ?k) with (k x). cbv beta iota. apply load_volume.
Qed.
End Mount.

(** ** A drive as a block device *)

(** A device with the log of the answers its callbacks got. *)
#[export] Instance logged_device {D} `{Device D} : Device (D * list answer) := {
  inb p d := let (r, d') := inb p d.1 in (r, (d', d.2));
  inw p d := let (r, d') := inw p d.1 in (r, (d', d.2));
  outb p v d := (outb p v d.1, d.2);
  outw p v d := (outw p v d.1, d.2);
}.
Definition logged_look {D O} `{AtaDisk D O} (d : D * list answer) : view (O * list answer) :=
  View (regs (look d.1)) (busy (look d.1)) (pending (look d.1)) (content (look d.1)) (other (look d.1), d.2).

#[export] Instance logged_disk {D O} `{AtaDisk D O} : AtaDisk (D * list answer) (O * list answer).
Proof.
  refine {| look := logged_look; lag := lag (D := D) (O := O); disk_size := disk_size (D := D) (O := O) |}; unfold logged_look.
  - intros [d l]. apply (busy_lag d).
  - intros [d l]. pose proof (inb_status d) as Hs. cbn. destruct (inb IDE_STATUS d) as [r d']. cbn in *.
    destruct (busy (look d)) eqn:E; destruct Hs as [H1 H2]; (split; [done|]); by rewrite H2, ?E.
  - intros p v [d l] Hp Hb. cbn in *. by rewrite (outb_reg p v d Hp Hb).
  - intros [d l] Hb Hm Hr. cbn in *. destruct (outb_read d Hb Hm Hr) as (n & E). exists n. by rewrite E.
  - intros [d l] w ws Hb Hp. cbn in *. destruct (inw_next d w ws Hb Hp) as [H1 (n & H2 & H3)]. destruct (inw IDE_DATA d) as [r d']. cbn in *.
    split; [done|]. exists n. split; [by rewrite H2|done].
  - intros [d l] u i. cbn. apply sector_length.
Defined.

Section Drive.
Context {D O : Type} `{AtaDisk D O}.
Variable spin : nat.
Hypothesis Hspin : (lag (D := D) (O := O) < spin)%nat.
Abbreviation drive := (ide (D * list answer) unit).
Lemma spin_logged : (lag (D := D * list answer) (O := O * list answer) < spin)%nat.
Proof using Hspin. exact Hspin. Qed.

Definition log_answer (c : unit) (a : answer) (s : drive) : option drive :=
  Some (set_device ((device s).1, (device s).2 ++ [a]) s).

(** A request for one sector and the interrupts that serve it: the answer. *)
Definition async_answer (s : drive) (blk : Z) : option bytes :=
  s ← Ide.read spin log_answer blk 1 tt s;
  s ← irq_handler spin log_answer 1 true s;
  match last (device s).2 with Some (Buffer (Some ws)) => Some (bytes_of_words ws) | _ => None end.
Definition sync_answer (s : drive) (blk cnt : Z) : option bytes :=
  match read_sync spin blk cnt s with Some (Some ws, _) => Some (bytes_of_words ws) | _ => None end.

Definition ide_device (s : drive) : block_device :=
  {| dev_size := num_blocks s; dev_block_size := SECTOR_SIZE; dev_read := async_answer s; dev_read_sync := sync_answer s |}.

(** Between requests, with a capacity the drive has. *)
Record idle (s : drive) : Prop := {
  id_drive : drive_ok (drive_id s);
  id_queue : work_queue s = [];
  id_size : num_blocks s <= 2 ^ 28;
  id_capacity : num_blocks s <= disk_size (D := D) (O := O) (drive_id s);
}.
Abbreviation contents_of s := (content (look (device s)) (drive_id s)).

Lemma sync_answer_ok s blk cnt : idle s -> 0 <= blk -> 1 <= cnt <= 256 -> blk + cnt <= num_blocks s ->
  sync_answer s blk cnt = Some (disk_bytes (contents_of s) blk (Z.to_nat cnt)).
Proof using Hspin.
  intros [Hd Hq Hn Hcap] Hb Hc Hr. unfold sync_answer.
  destruct (read_sync_ok (O := O * list answer) spin spin_logged s blk cnt Hd ltac:(lia) ltac:(lia) Hc) as (s' & -> & _); [cbn; lia|done].
Qed.

Definition log_record (c : unit) (ws : list Z) (o : O * list answer) : O * list answer := (o.1, o.2 ++ [Buffer (Some ws)]).

Lemma async_answer_ok s blk : idle s -> 0 <= blk -> blk + 1 < num_blocks s ->
  async_answer s blk = Some (disk_bytes (contents_of s) blk 1).
Proof using Hspin.
  intros [Hd Hq Hn Hcap] Hb Hlt. unfold async_answer, Ide.read. rewrite uwrap_small by lia.
  assert ((blk + 1 >=? num_blocks s) || (1 =? 0) = false) as -> by lia.
  set (it := Build_workq_item _ _ _ _ _ _ _). unfold enqueue. rewrite Hq. cbn [app length set_queue work_queue Nat.eqb].
  assert (queued it) as Hit.
  { split; [done|]. split; [done|]. cbn [it wq_sector wq_total wq_position wq_buffer wq_drive_id disk_size logged_disk].
    change (u32 1) with 1. repeat split; try lia. }
  set (s1 := set_queue [it] s).
  destruct (begin_ok spin spin_logged [it] (content (look (device s))) (other (look (device s))) s1) as (s2 & E2 & Hs2); [by constructor|done..|].
  change (work_begin_next spin _) with (work_begin_next spin s1). rewrite E2. cbn [mbind option_bind].
  destruct (serve_ok spin spin_logged log_answer log_record) with (n := 1%nat) (it := it) (p := 0%nat) (queue := @nil (workq_item unit))
    (c := content (look (device s))) (o := other (look (device s))) (s := s2) (fuel := 0%nat) as (s3 & E3 & Hw3 & Hc3 & Ho3); [|by constructor|done|lia|done|].
  - intros c ws s4. by eexists.
  - change (irq_handler spin log_answer (1 + 0) true s2) with (irq_handler spin log_answer 1 true s2) in E3. rewrite E3. cbn [irq_handler]. rewrite Hw3. cbn [mbind option_bind].
    assert ((device s3).2 = (other (look (device s3))).2) as -> by done. rewrite Ho3. unfold log_record. cbn [snd].
    by rewrite last_snoc.
Qed.

Lemma async_refused s blk : idle s -> 0 <= blk < 2 ^ 64 - 1 -> num_blocks s <= blk + 1 -> async_answer s blk = None.
Proof using Type.
  intros [_ Hq _ _] Hb Hn. clear Hspin. unfold async_answer, Ide.read. rewrite uwrap_small by lia.
  assert ((blk + 1 >=? num_blocks s) = true) as -> by lia. cbn [orb log_answer mbind option_bind irq_handler set_device work_queue].
  rewrite Hq. cbn [mbind option_bind device snd set_device]. by rewrite last_snoc.
Qed.

(** ** The boot *)

(** C21. The boot over an IDE drive. On a drive that keeps the ATA interface and is between
    requests, with a FAT12 or FAT16 volume of 512-byte sectors in its first partition - its
    geometry, table and root directory as the FAT specification lays them out, with the
    media byte of a fixed disk - and in its root directory a file bios.lua, under its short
    name or a long one: mounting the partition with asynchronous requests and interrupts
    and loading bios.lua with synchronous ones gives exactly the bytes of the file on the
    disk. Supposed of the directory: the entry of bios.lua is in the first cluster's worth
    of the root directory, whole, and no entry before it has a name, as the driver reads
    names, that is a prefix of bios.lua; of the file: it does not use the first cluster of
    the volume. FAT32 is not covered: the driver does not read its table. As everywhere,
    the memory of a finished request is intact when the handler tests it. *)
Theorem boot_loads_bios (s : drive) as_mbr dirs fuel v e chain :
  idle s -> volume_ok v (num_blocks s) -> on_disk v (contents_of s) as_mbr ->
  bios_file v (dirs (disk_bytes (contents_of s) (root_start v) (Z.to_nat (v_spc v)))) e chain -> (0 < fuel)%nat ->
  boot (ide_device s) as_mbr dirs fuel = lret (file_bytes (contents_of s) v e chain).
Proof using Hspin.
  intros Hid Hv Hd Hf Hfuel. pose proof (id_size _ Hid) as Hn.
  apply (boot_volume (contents_of s) (num_blocks s)); try done.
  - intros i. apply sector_length.
  - intros blk Hb Hl. by apply async_answer_ok.
  - intros blk cnt Hb Hcnt Hr. by apply sync_answer_ok.
Qed.

(** C40. A partition that begins at the last sector of the drive stops the boot with an access
    through a null pointer: the drive refuses the asynchronous read of its last sector,
    and [FAT_::init] uses the buffer of its callback before the test for null, so
    [on_init] is never called with the error. *)
Theorem null_base_sector (s : drive) as_mbr dirs fuel p data :
  idle s -> 1 < num_blocks s ->
  disk_reads (contents_of s) (num_blocks s) 0 1 = Some data -> br_part (as_mbr data) !! 0%nat = Some p ->
  p_sectors p <> 0 -> p_lba_begin p + 1 = num_blocks s ->
  boot (ide_device s) as_mbr dirs fuel = None.
Proof using Hspin.
  intros Hid Hn E0 Hp Hs Hl. pose proof (id_size _ Hid) as H28. unfold boot, init_fs, internal_init.
  assert (disk_bytes (contents_of s) 0 1 = data) as E1.
  { unfold disk_reads in E0. assert ((0 >=? num_blocks s) = false) as E by lia. rewrite E in E0. change (Z.to_nat 1) with 1%nat in E0. congruence. }
  change (VBR1 =? MBR)%nat with false. cbv iota. cbn [ide_device dev_read]. rewrite async_answer_ok by (done || lia).
  rewrite E1.
  change (VBR1 - 1)%nat with 0%nat. rewrite (lbind_lift _ _ _ Hp). assert ((p_sectors p =? 0) = false) as -> by lia.
  unfold FAT_init. cbn [ide_device dev_read]. by rewrite async_refused by (done || lia).
Qed.
End Drive.

(** ** The automatic choice of a partition *)
Lemma find_partition_first m n i : (i + n <= length (br_part m))%nat ->
  exists r, find_partition m i n = Some r /\
    match r with
    | Some k => (i <= k < i + n)%nat /\ (exists p, br_part m !! k = Some p /\ usable p = true) /\
                forall j p, (i <= j < k)%nat -> br_part m !! j = Some p -> usable p = false
    | None => forall j p, (i <= j < i + n)%nat -> br_part m !! j = Some p -> usable p = false
    end.
Proof.
  revert i. induction n as [|n IH]; intros i Hl; cbn [find_partition].
  - exists None. split; [done|]. intros j p Hj. lia.
  - destruct (lookup_lt_is_Some_2 (br_part m) i) as [p Hp]; [lia|]. rewrite Hp. cbn [mbind option_bind].
    destruct (usable p) eqn:Eu.
    + exists (Some i). split; [done|]. split; [lia|]. split; [by exists p|]. intros j q Hj. lia.
    + destruct (IH (S i)) as (r & -> & Hr); [lia|]. exists r. split; [done|].
      assert (forall j q, j = i -> br_part m !! j = Some q -> usable q = false) as Hi by (intros j q -> Hq; congruence).
      destruct r as [k|].
      * destruct Hr as (Hk & Hu & Hall). split; [lia|]. split; [done|]. intros j q Hj Hq.
        destruct (decide (j = i)); [by eapply Hi|]. apply (Hall j q); [lia|done].
      * intros j q Hj Hq. destruct (decide (j = i)); [by eapply Hi|]. apply (Hr j q); [lia|done].
Qed.

(** On a disk without a FAT file system the error is not reported: [fs()] throws
    before the callback is called. *)
Lemma no_partition_throws device as_mbr data :
  dev_read device 0 = Some data -> fat_on_mbr (as_mbr data) = false -> (PARTITIONS <= length (br_part (as_mbr data)))%nat ->
  (forall p, p ∈ br_part (as_mbr data) -> usable p = false) ->
  init_fs_auto device as_mbr None = lerror "Filesystem not ready - make sure to init_fs before accessing".
Proof.
  intros E Hm Hl Hu. unfold init_fs_auto. rewrite E, Hm.
  destruct (find_partition_first (as_mbr data) PARTITIONS 0 ltac:(lia)) as (r & Er & Hr). rewrite (lbind_lift _ _ _ Er).
  destruct r as [k|]; [|done]. destruct Hr as (_ & (p & Hp & Hup) & _). rewrite (Hu p) in Hup; [done|].
  by eapply list_elem_of_lookup_2.
Qed.

(** ** Witnesses

    A disk of 64 sectors with a FAT12 partition at sector 4: the boot sector, the table at
    5, the root directory at 6 with a label, a deleted entry and the long name bios.lua of a
    file of 600 bytes in the clusters 3 and 4 (the sectors 8 and 9). The functions read the
    on-disk structures at their offsets. *)
Definition field (data : bytes) (at_ n : nat) : Z := le_decode (slice at_ n data).

Definition parse_part (data : bytes) (i : nat) : partition_entry :=
  let o := (446 + 16 * i)%nat in
  {| p_flags := field data o 1; p_type := field data (o + 4) 1; p_lba_begin := field data (o + 8) 4; p_sectors := field data (o + 12) 4;
     get_LBA := field data (o + 8) 4; get_sectors := field data (o + 12) 4 |}.
Definition parse_mbr (data : bytes) : boot_record := {|
  br_boot := {|
    mbr_bpb := {|
      bytes_per_sector := field data 11 2; bpb_sectors_per_cluster := field data 13 1; reserved_sectors := field data 14 2;
      fa_tables := field data 16 1; root_entries := field data 17 2; small_sectors := field data 19 2;
      bpb_sectors_per_fat := field data 22 2; hidden_sectors := field data 28 4; large_sectors := field data 32 4 |};
    mbr_magic := field data 510 2;
    boot_word := fun i => field data (Z.to_nat i) 4 |};
  br_signature := field data 38 1;
  br_part := parse_part data <$> [0; 1; 2; 3]%nat |}.
Definition parse_dir (data : bytes) : cl_dir := {|
  shortname := take 11 data; attrib := field data 11 1; is_longname := Z.land (field data 11 1) 15 =? 15;
  is_last := negb (Z.land (field data 0 1) 64 =? 0); long_index := Z.land (field data 0 1) 63;
  longname := (fun i => field data i 2) <$> [1; 3; 5; 7; 9; 14; 16; 18; 20; 22; 24; 28; 30]%nat;
  d_type := if Z.land (field data 11 1) 16 =? 0 then FILE else DIR;
  dir_cluster := fun _ => field data 26 2 + 65536 * field data 20 2; d_size := field data 28 4; get_modified := 0 |}.
Definition parse_dirs (data : bytes) : list cl_dir := (fun i => parse_dir (slice (i * 32) 32 data)) <$> seq 0 (length data / 32).

Definition sector_with (parts : list (nat * bytes)) : bytes :=
  fold_left (fun s p => take p.1 s ++ p.2 ++ drop (p.1 + length p.2) s) parts (replicate 512 0).
Definition utf16 (l : bytes) : bytes := concat ((fun c => [c; 0]) <$> l).
Definition sector_bytes (i : Z) : bytes :=
  if i =? 0 then sector_with [(450%nat, [1]); (454%nat, [4]); (458%nat, [40])]
  else if i =? 4 then sector_with [(11%nat, [0; 2; 1; 1; 0; 1; 16; 0; 40; 0]); (22%nat, [1; 0]); (28%nat, [4]); (510%nat, [0x55; 0xAA])]
  else if i =? 5 then sector_with [(0%nat, [0xF8; 0xFF; 0xFF; 0; 0x40; 0; 0xFF; 0x0F; 0])]
  else if i =? 6 then sector_with [
    (0%nat, bytes_of_string "CRAFTOS    "); (11%nat, [8]);
    (32%nat, 0xE5 :: bytes_of_string "IOS    LUA");
    (64%nat, 0x41 :: utf16 (bytes_of_string "bios.")); (75%nat, [15]); (78%nat, utf16 (bytes_of_string "lua") ++ [0; 0; 255; 255; 255; 255]);
    (92%nat, [255; 255; 255; 255]);
    (96%nat, bytes_of_string "BIOS    LUA"); (122%nat, [3]); (124%nat, [88; 2])]
  else if i =? 8 then replicate 512 65
  else if i =? 9 then replicate 512 66
  else replicate 512 0.

Fixpoint words_of (l : bytes) : list Z := match l with a :: b :: l => a + 256 * b :: words_of l | _ => [] end.
Definition boot_words (u i : Z) : list Z := if u =? 0 then words_of (sector_bytes i) else [].

Definition boot_drive : ide (IdeProps.drive * list answer) unit :=
  {| drive_id := 0; num_blocks := 64; work_queue := [];
     device := ({| d_regs := ∅; d_busy := 2; d_pending := []; d_content := boot_words; d_log := [] |}, []) |}.
Definition boot_content (i : Z) : list Z := resize SECTOR_ARRAY 0 (boot_words 0 i).

Definition boot_volume_12 : volume := {|
  v_start := 4; v_total := 40; v_reserved := 1; v_fats := 1; v_fat_size := 1; v_root_entries := 16; v_spc := 1;
  v_table := [0xFF8; 0xFFF; 0; 4; 0xFFF] ++ replicate 34 0 |}.
Lemma boot_volume_ok : volume_ok boot_volume_12 64.
Proof.
  split; try (vm_compute; (done || split; done)).
  change (2 ^ entry_bits (v_type boot_volume_12)) with 4096. repeat constructor; lia.
Qed.
Lemma boot_on_disk : on_disk boot_volume_12 boot_content parse_mbr.
Proof.
  split.
  - eexists. split; [vm_compute; reflexivity|]. by split.
  - vm_compute. reflexivity.
  - split; try (vm_compute; reflexivity). left. vm_compute. reflexivity.
  - eexists (replicate 453 0). vm_compute. reflexivity.
Qed.

Definition boot_root : list cl_dir := parse_dirs (disk_bytes boot_content 6 1).
Definition boot_entry (i : nat) : cl_dir := parse_dir (slice (i * 32) 32 (disk_bytes boot_content 6 1)).
Lemma parse_dir_ok data : (11 <= length data)%nat -> entry_ok (parse_dir data).
Proof.
  intros Hl. split; [cbn; by apply length_take_le|]. cbn [parse_dir long_index]. change 63 with (Z.ones 6).
  rewrite Z.land_ones by lia. pose proof (Z.mod_pos_bound (field data 0 1) (2 ^ 6)). lia.
Qed.
Lemma boot_root_fields : Forall entry_ok boot_root.
Proof.
  assert (length (disk_bytes boot_content 6 1) = 512%nat) as Hl by (rewrite disk_bytes_length; [done|intros i; apply length_resize]).
  unfold boot_root, parse_dirs. apply Forall_fmap, Forall_forall. intros i Hi%elem_of_seq. rewrite Hl in Hi. change (512 / 32)%nat with 16%nat in Hi.
  apply parse_dir_ok. unfold slice. rewrite length_take, length_drop, Hl. lia.
Qed.
Lemma boot_root_split : boot_root = concat (entries_of <$> [Short (boot_entry 0); Deleted (boot_entry 1)]) ++
  entries_of (Long [boot_entry 2] (boot_entry 3)) ++ drop 4 boot_root.
Proof. reflexivity. Qed.
Lemma bios_in_root : bios_file boot_volume_12 boot_root (boot_entry 3) [3; 4].
Proof.
  split; try (vm_compute; reflexivity).
  - apply boot_root_fields.
  - eexists _, _, _. split; [exact boot_root_split|]. split; [|split; [|split]].
    + repeat constructor. exists 67. vm_compute. by repeat split.
    + apply Forall_cons. split; [|by apply Forall_singleton]. cbn [passed].
      assert (short_dirname (boot_entry 0) = [99; 114; 97; 102; 116; 111; 115; 46]) as -> by (vm_compute; reflexivity). split.
      * rewrite !not_elem_of_cons. repeat split; (done || apply not_elem_of_nil).
      * intros [k Hk]. by vm_compute in Hk.
    + exists (boot_entry 2). split; [done|]. split; [exists 65; vm_compute; by repeat split|]. vm_compute. by repeat split.
    + split; [done|]. exists bios_name. split; [|vm_compute; reflexivity]. split; [by repeat constructor|]. split; [by repeat constructor|].
      split; [vm_compute; lia|]. exists (0 :: replicate 4 0xFFFF). split; [vm_compute; reflexivity|]. split; [vm_compute; lia|]. right. by exists 4%nat.
  - vm_compute. by repeat split.
  - repeat constructor; vm_compute; reflexivity.
  - intros [|[|k]] c c'; [intros [= <-] [= <-]; reflexivity|done|done].
Qed.

Lemma boot_loads_bios_witness :
  boot (ide_device 3 boot_drive) parse_mbr parse_dirs 1 = lret (replicate 512 65 ++ replicate 88 66).
Proof.
  rewrite (boot_loads_bios (H0 := drive_disk) 3 (le_n 3) boot_drive parse_mbr parse_dirs 1 boot_volume_12 (boot_entry 3) [3; 4]).
  - vm_compute. reflexivity.
  - split; [by left|done|done|done].
  - exact boot_volume_ok.
  - exact boot_on_disk.
  - exact bios_in_root.
  - lia.
Defined.

(** The partition moved to the last of 64 sectors. *)
Definition last_part (data : bytes) : boot_record :=
  let m := parse_mbr data in
  {| br_boot := br_boot m; br_signature := br_signature m;
     br_part := [{| p_flags := 0; p_type := 1; p_lba_begin := 63; p_sectors := 1; get_LBA := 63; get_sectors := 1 |}] |}.
Lemma null_base_sector_witness : boot (ide_device 3 boot_drive) last_part parse_dirs 5 = None.
Proof.
  eapply (null_base_sector (H0 := drive_disk) 3 (le_n 3) boot_drive last_part parse_dirs 5).
  - split; [by left|done|done|done].
  - done.
  - reflexivity.
  - reflexivity.
  - done.
  - done.
Defined.
