(* ===== verification/Vfs.v ===== *)
(** * The virtual file system (src/includeos-patch/vfs.hpp)

    The tree of mount points. A pointer to a node is the list of the positions of
    children that lead to it (children are only appended); a path is the list of its
    names, as IncludeOS's [Path] gives them. Templates are functions of what the code
    asks of the type [T]: its identity, whether it is const, whether it derives from
    [FD_compatible]. An exception is a value [exn], without its message, and what
    happened before it stays; [None] is a broken contract ([Expects]). *)
From stdpp Require Import base list option gmap strings.
From S2P Require Import Prelude.

Inductive type_id := T_null | T_Dirent | T_FD_compatible | T_other (n : nat).
#[export] Instance type_id_eq_dec : EqDecision type_id.
Proof. solve_decision. Defined.

Record cxx_type := { typeid : type_id; is_const : bool; derives_fd : bool }.

Inductive exn := Err_bad_cast | Err_not_leaf | Err_not_found | Err_mountpoint_invalid | Err_not_mounted.

(** [obj_] is an address, null for a directory. *)
Inductive VFS_entry := Entry {
  type_ : type_id; obj_is_const : bool; obj_ : option nat; name_ : string; desc_ : string;
  children_ : list VFS_entry; is_fd_compatible : bool }.

Abbreviation Path := (list string).
Abbreviation Obs_ptr := (list nat).

Definition set_children (cs : list VFS_entry) (e : VFS_entry) : VFS_entry :=
  Entry (type_ e) (obj_is_const e) (obj_ e) (name_ e) (desc_ e) cs (is_fd_compatible e).

(** The two constructors: an object, a directory. *)
Definition entry_of (T : cxx_type) (obj : nat) (name desc : string) : VFS_entry :=
  Entry (typeid T) (is_const T) (Some obj) name desc [] (derives_fd T).
Definition directory (name desc : string) : VFS_entry := Entry T_null true None name desc [] false.

(** [get_child]: the position of the first child of that name. *)
Fixpoint find_name (name : string) (cs : list VFS_entry) : option nat :=
  match cs with
  | [] => None
  | c :: cs => if decide (name_ c = name) then Some O else S <$> find_name name cs
  end.
Definition get_child (e : VFS_entry) (name : string) : option nat := find_name name (children_ e).

Definition insert_parent (token : string) (e : VFS_entry) : VFS_entry :=
  set_children (children_ e ++ [directory token "Directory"]) e.
Definition insert_obj (token : string) (T : cxx_type) (obj : nat) (desc : string) (e : VFS_entry) : VFS_entry :=
  set_children (children_ e ++ [entry_of T obj token desc]) e.

(** [f] on the node behind a pointer. *)
Fixpoint update_at (p : Obs_ptr) (f : VFS_entry -> VFS_entry) (e : VFS_entry) : VFS_entry :=
  match p with
  | [] => f e
  | i :: p => set_children (alter (update_at p f) i (children_ e)) e
  end.
Fixpoint deref (p : Obs_ptr) (e : VFS_entry) : option VFS_entry :=
  match p with [] => Some e | i :: p => c ← children_ e !! i; deref p c end.

(** The loop of [walk] from [current_node]: the node found (null is [None]), the rest
    of the path and the tree. *)
Fixpoint walk_loop (create partial : bool) (path : Path) (current_node : VFS_entry)
    : option Obs_ptr * Path * VFS_entry :=
  match path with
  | [] => (Some [], [], current_node)
  | token :: path' =>
      let descend (i : nat) (node : VFS_entry) :=
        match children_ node !! i with
        | Some next_node =>
            let '(r, rest, c) := walk_loop create partial path' next_node in
            (cons i <$> r, rest, set_children (<[i := c]> (children_ node)) node)
        | None => (None, path, node)
        end in
      match get_child current_node token with
      | Some i => descend i current_node
      | None =>
          if partial && bool_decide (type_ current_node = T_Dirent) then (Some [], path, current_node)
          else if negb create then (None, path, current_node)
          else descend (length (children_ current_node)) (insert_parent token current_node)
      end
  end.
Definition walk (create partial : bool) (path : Path) (e : VFS_entry) : option (option Obs_ptr * Path * VFS_entry) :=
  match path with [] => None | _ => Some (walk_loop create partial path e) end.

(** [mount] on the subtree of [e]. *)
Definition mount (create : bool) (path : Path) (T : cxx_type) (obj : nat) (desc : string) (e : VFS_entry)
    : option ((exn + unit) * VFS_entry) :=
  token ← last path;
  let path := removelast path in
  '(parent, e) ← match path with
    | [] => Some (Some [], e)
    | _ => '(r, _, e) ← walk create false path e; Some (r, e)
    end;
  match parent with
  | None => Some (inl Err_mountpoint_invalid, e)
  | Some parent =>
      node ← deref parent e;
      match get_child node token with
      | Some _ => Some (inl Err_mountpoint_invalid, e)
      | None => Some (inr tt, update_at parent (insert_obj token T obj desc) e)
      end
  end.

(** [obj<T>()]. *)
Definition obj (T : cxx_type) (e : VFS_entry) : exn + nat :=
  match obj_ e with
  | None => inl Err_not_leaf
  | Some o =>
      if negb (bool_decide (typeid T = type_ e)) &&
         negb (bool_decide (T_FD_compatible = typeid T) && is_fd_compatible e) then inl Err_bad_cast
      else if obj_is_const e && negb (is_const T) then inl Err_bad_cast
      else inr o
  end.

(** ** The global tree, disks and directory entries *)
Section VFS.
(** A directory entry of IncludeOS, with the answer of its [stat]; a file system's
    [stat] gives an error or an entry. The path of a key is its string. *)
Context {Dirent Stat : Type} (dirent_stat : Dirent -> Path -> Stat) (invalid : Dirent).
Context (to_string : Path -> string).

Record Disk_ := { disk_id : nat; fs_ready : bool; fs_stat : Path -> option Dirent }.

(** The objects [obj_] points to that this file makes: the saved entries, by number. *)
Record VFS := {
  root_ : VFS_entry;
  mounted_disks_ : gmap Z Disk_;
  mounted_dirents_ : gmap (Z * string) nat;
  dirent_at : gmap nat Dirent;
}.
(** The address of the static [invalid_dirent]. *)
Definition INVALID_DIRENT : nat := 0.

Definition T_DirentRef : cxx_type := {| typeid := T_Dirent; is_const := false; derives_fd := false |}.

Definition with_root (e : VFS_entry) (s : VFS) : VFS :=
  {| root_ := e; mounted_disks_ := mounted_disks_ s; mounted_dirents_ := mounted_dirents_ s; dirent_at := dirent_at s |}.

Definition vfs_mount (create : bool) (path : Path) (T : cxx_type) (o : nat) (desc : string) (s : VFS)
    : option ((exn + unit) * VFS) :=
  '(r, e) ← mount create path T o desc (root_ s); Some (r, with_root e s).

Definition get_entry (path : Path) (s : VFS) : option (exn + VFS_entry) :=
  '(r, _, _) ← walk false false path (root_ s);
  match r with
  | None => Some (inl Err_not_found)
  | Some p => e ← deref p (root_ s); Some (inr e)
  end.
Definition get (T : cxx_type) (path : Path) (s : VFS) : option (exn + nat) :=
  r ← get_entry path s;
  Some (match r with inl err => inl err | inr e => obj T e end).

(** [stat] and [stat_sync]: the entry mounted on the way, asked for the rest. *)
Definition stat (path : Path) (s : VFS) : option (exn + Stat) :=
  '(r, rest, _) ← walk false true path (root_ s);
  match r with
  | None => Some (inl Err_not_found)
  | Some p =>
      e ← deref p (root_ s);
      match obj T_DirentRef e with
      | inl err => Some (inl err)
      | inr o => d ← dirent_at s !! o; Some (inr (dirent_stat d rest))
      end
  end.

(** [insert_disk]: [emplace] keeps a disk that is there; the disk that counts. *)
Definition insert_disk (blk : Z) (d : Disk_) (s : VFS) : Disk_ * VFS :=
  match mounted_disks_ s !! blk with
  | Some d' => (d', s)
  | None => (d, {| root_ := root_ s; mounted_disks_ := <[blk := d]> (mounted_disks_ s);
                   mounted_dirents_ := mounted_dirents_ s; dirent_at := dirent_at s |})
  end.

(** [insert_dirent], up to the call of [fn] with the address of an entry; the address
    of a new entry is the allocator's. *)
Definition insert_dirent (id : Z) (path : Path) (addr : nat) (s : VFS) : (exn + nat) * VFS :=
  match mounted_disks_ s !! id with
  | None => (inl Err_not_found, s)
  | Some disk =>
      if negb (fs_ready disk) then (inl Err_not_mounted, s)
      else
        match fs_stat disk path with
        | None => (inl Err_not_found, s)
        | Some dir =>
            let key := (id, to_string path) in
            match mounted_dirents_ s !! key with
            | Some _ => (inr INVALID_DIRENT, s)
            | None => (inr addr, {| root_ := root_ s; mounted_disks_ := mounted_disks_ s;
                                    mounted_dirents_ := <[key := addr]> (mounted_dirents_ s);
                                    dirent_at := <[addr := dir]> (dirent_at s) |})
            end
        end
  end.

(** [mount(local, disk, remote, desc, callback)]: the error is an exception or what
    the callback gets (always none). *)
Definition mount_dirent (loc : Path) (id : Z) (remote : Path) (desc : string) (addr : nat) (s : VFS)
    : option ((exn + unit) * VFS) :=
  match insert_dirent id remote addr s with
  | (inl err, s) => Some (inl err, s)
  | (inr o, s) => vfs_mount true loc T_DirentRef o desc s
  end.

(** [mount] of a block device: its disk, whose place in the map is [disk_addr blk]. *)
Definition mount_device (disk_addr : Z -> nat) (T_Disk_ptr : cxx_type) (path : Path) (blk : Z) (d : Disk_) (desc : string) (s : VFS)
    : option ((exn + unit) * VFS) :=
  let (_, s) := insert_disk blk d s in vfs_mount true path T_Disk_ptr (disk_addr blk) desc s.

Definition empty_vfs : VFS :=
  {| root_ := directory "/" "Root directory"; mounted_disks_ := ∅; mounted_dirents_ := ∅; dirent_at := {[ INVALID_DIRENT := invalid ]} |}.
End VFS.

(** ** Mounting is insertion into a map (src/includeos-patch/vfs.hpp)

    Seen through [at_], the tree is a map from paths to what is mounted there. A mount
    adds the path and the directories on the way and changes nothing else
    ([mount_inserts]); what was mounted is found again ([mounted_is_found]); [stat]
    asks the entry mounted nearest to the path ([stat_asks_mount_point]). *)
(** What a node is, without its children. *)
Definition info (e : VFS_entry) := (type_ e, obj_is_const e, obj_ e, name_ e, desc_ e, is_fd_compatible e).
Definition child (e : VFS_entry) (t : string) : option VFS_entry := i ← get_child e t; children_ e !! i.
Fixpoint node_at (p : Path) (e : VFS_entry) : option VFS_entry :=
  match p with [] => Some e | t :: p => c ← child e t; node_at p c end.
Definition at_ (p : Path) (e : VFS_entry) := info <$> node_at p e.

(** ** Children *)
Lemma find_name_lookup t cs i : find_name t cs = Some i -> exists c, cs !! i = Some c /\ name_ c = t.
Proof.
  revert i. induction cs as [|c cs IH]; intros i; cbn; [done|]. destruct (decide (name_ c = t)) as [<-|]; [intros [= <-]; by exists c|].
  destruct (find_name t cs) as [j|]; cbn; [|done]. intros [= <-]. by apply IH.
Qed.
Lemma find_name_app t cs ds : find_name t (cs ++ ds) =
  match find_name t cs with Some i => Some i | None => (fun j => (length cs + j)%nat) <$> find_name t ds end.
Proof.
  induction cs as [|c cs IH]; cbn; [by destruct (find_name t ds)|]. destruct (decide _); [done|]. rewrite IH.
  destruct (find_name t cs); [done|]. by destruct (find_name t ds).
Qed.
(** Only the names count. *)
Lemma find_name_names t cs ds : name_ <$> cs = name_ <$> ds -> find_name t cs = find_name t ds.
Proof.
  revert ds. induction cs as [|c cs IH]; intros [|d ds] H; [done..|]. injection H as Hn H. cbn. rewrite Hn. by rewrite (IH ds).
Qed.
Lemma find_name_insert t cs i c c' : cs !! i = Some c -> name_ c' = name_ c -> find_name t (<[i:=c']> cs) = find_name t cs.
Proof.
  intros Hc Hn. apply find_name_names. rewrite list_fmap_insert, Hn. apply list_insert_id. by rewrite list_lookup_fmap, Hc.
Qed.

Lemma child_append e d t : child (set_children (children_ e ++ [d]) e) t =
  match child e t with Some c => Some c | None => if decide (name_ d = t) then Some d else None end.
Proof.
  unfold child, get_child. cbn [children_ set_children]. rewrite find_name_app. destruct (find_name t (children_ e)) as [i|] eqn:E; cbn.
  - destruct (find_name_lookup _ _ _ E) as (c & Ec & _). rewrite Ec, lookup_app_l by (by eapply lookup_lt_Some). by rewrite Ec.
  - destruct (decide (name_ d = t)); cbn; [|done]. rewrite Nat.add_0_r. by rewrite list_lookup_middle.
Qed.
Lemma child_insert e i c c' t : get_child e t = Some i -> children_ e !! i = Some c -> name_ c' = name_ c ->
  child (set_children (<[i:=c']> (children_ e)) e) t = Some c'.
Proof.
  unfold child, get_child. intros Ht Hc Hn. cbn [children_ set_children]. rewrite (find_name_insert _ _ _ c), Ht by done. cbn.
  apply list_lookup_insert_eq. by eapply lookup_lt_Some.
Qed.
Lemma child_insert_ne e i c c' t t' : get_child e t = Some i -> children_ e !! i = Some c -> name_ c' = name_ c -> t' <> t ->
  child (set_children (<[i:=c']> (children_ e)) e) t' = child e t'.
Proof.
  unfold child, get_child. intros Ht Hc Hn Hne. cbn [children_ set_children]. rewrite (find_name_insert _ _ _ c) by done.
  destruct (find_name t' (children_ e)) as [j|] eqn:Ej; [|done]. cbn. apply list_lookup_insert_ne. intros <-.
  apply find_name_lookup in Ht as (c1 & E1 & <-), Ej as (c2 & E2 & <-). congruence.
Qed.
Lemma get_child_is e t : (exists c i, get_child e t = Some i /\ children_ e !! i = Some c /\ child e t = Some c /\ name_ c = t) \/
  (get_child e t = None /\ child e t = None).
Proof.
  unfold child. destruct (get_child e t) as [i|] eqn:E; [left|by right]. destruct (find_name_lookup _ _ _ E) as (c & Hc & Hn).
  exists c, i. done.
Qed.

(** ** Putting something at the end of a path *)
Fixpoint graft (p : Path) (f : VFS_entry -> VFS_entry) (e : VFS_entry) : VFS_entry :=
  match p with
  | [] => f e
  | t :: p =>
      match get_child e t with
      | Some i => match children_ e !! i with Some c => set_children (<[i := graft p f c]> (children_ e)) e | None => e end
      | None => set_children (children_ e ++ [graft p f (directory t "Directory")]) e
      end
  end.

Definition keeps_info (f : VFS_entry -> VFS_entry) : Prop := forall c, info (f c) = info c.
Lemma info_name c d : info c = info d -> name_ c = name_ d.
Proof. unfold info. congruence. Qed.
Lemma graft_info p f : keeps_info f -> keeps_info (graft p f).
Proof. intros Hf. induction p as [|t p IH]; intros c; cbn; [apply Hf|]. destruct (get_child c t) as [i|]; [|done]. by destruct (_ !! i). Qed.

(** Walking with creation, then working on the node, is [graft]. *)
Lemma walk_create p e : exists pos e', walk_loop true false p e = (Some pos, [], e') /\ info e' = info e /\
  (forall f, update_at pos f e' = graft p f e) /\ deref pos e' = node_at p e'.
Proof.
  revert e. induction p as [|t p IH]; intros e; cbn [walk_loop graft]; [by exists [], e|].
  destruct (get_child_is e t) as [(c & i & Ei & Ec & _ & _)|[Ei _]]; rewrite Ei; cbn [andb negb].
  - rewrite Ec. destruct (IH c) as (pos & c' & -> & Hi & Hu & Hd). apply info_name in Hi.
    exists (i :: pos), (set_children (<[i:=c']> (children_ e)) e). pose proof (lookup_lt_Some _ _ _ Ec) as Hlt.
    split; [done|]. split; [done|]. split.
    + intros f. cbn [update_at children_ set_children]. rewrite <- Hu. unfold set_children. cbn. f_equal.
      apply list_eq. intros j. destruct (decide (j = i)) as [->|Hne].
      * by rewrite list_lookup_alter_eq, !list_lookup_insert_eq.
      * by rewrite list_lookup_alter_ne, !list_lookup_insert_ne.
    + cbn [deref node_at children_ set_children]. rewrite (child_insert _ _ _ _ _ Ei Ec Hi), list_lookup_insert_eq by done. done.
  - cbn [children_ set_children insert_parent]. rewrite list_lookup_middle by done.
    destruct (IH (directory t "Directory")) as (pos & c' & -> & Hi & Hu & Hd). apply info_name in Hi. cbn in Hi.
    rewrite insert_app_r_alt, Nat.sub_diag by done. cbn [list_insert].
    exists (length (children_ e) :: pos), (set_children (children_ e ++ [c']) e). split; [done|]. split; [done|]. split.
    + intros f. cbn [update_at children_ set_children]. rewrite <- Hu. unfold set_children. cbn. f_equal.
      apply list_eq. intros j. destruct (decide (j = length (children_ e))) as [->|Hne].
      * by rewrite list_lookup_alter_eq, !list_lookup_middle.
      * rewrite list_lookup_alter_ne by done. destruct (decide (j < length (children_ e))%nat).
        -- by rewrite !lookup_app_l.
        -- by rewrite !lookup_ge_None_2 by (rewrite length_app; cbn; lia).
    + cbn [deref node_at children_ set_children]. rewrite child_append, list_lookup_middle by done.
      unfold child. rewrite Ei. cbn. rewrite decide_True by done. done.
Qed.

Lemma update_at_id p e : update_at p (fun x => x) e = e.
Proof.
  revert e. induction p as [|k p IH]; intros e; [done|]. cbn [update_at].
  assert (alter (update_at p (fun x => x)) k (children_ e) = children_ e) as ->; [|by destruct e].
  apply list_eq. intros j. destruct (decide (j = k)) as [->|]; [|by rewrite list_lookup_alter_ne].
  rewrite list_lookup_alter_eq. destruct (children_ e !! k); cbn; [by rewrite IH|done].
Qed.

(** The node at the end: what was there, or a new directory. *)
Lemma node_at_graft p f e : keeps_info f ->
  node_at p (graft p f e) = Some (f (default (directory (default "" (last p)) "Directory") (node_at p e))).
Proof.
  intros Hf. revert e. induction p as [|t p IH]; intros e; [done|]. cbn [graft node_at].
  destruct (get_child_is e t) as [(c & i & Ei & Ec & Hc & _)|[Ei Hc]]; rewrite Ei, Hc; cbn [mbind option_bind].
  - rewrite Ec, (child_insert _ _ _ _ _ Ei Ec) by by apply info_name, graft_info. cbn [mbind option_bind]. rewrite IH. by destruct p.
  - rewrite child_append, Hc. rewrite (info_name _ _ (graft_info p f Hf _)). cbn [name_ directory]. rewrite decide_True by done.
    cbn [mbind option_bind]. rewrite IH. by destruct p.
Qed.

(** Walking without creation changes nothing and is [node_at]. *)
Lemma walk_find p e : exists pos rest, walk_loop false false p e = (pos, rest, e) /\
  match pos with Some pos => deref pos e = node_at p e /\ is_Some (node_at p e) /\ forall f, update_at pos f e = graft p f e
  | None => node_at p e = None end.
Proof.
  revert e. induction p as [|t p IH]; intros e; cbn [walk_loop graft node_at]; [by eexists (Some []), []|].
  destruct (get_child_is e t) as [(c & i & Ei & Ec & Hc & _)|[Ei Hc]]; rewrite Ei, Hc; cbn [andb negb]; [|by eexists None, _].
  rewrite Ec. destruct (IH c) as (pos & rest & -> & Hp). assert (set_children (<[i:=c]> (children_ e)) e = e) as ->.
  { rewrite list_insert_id by done. by destruct e. }
  destruct pos as [pos|]; [|by eexists None, _]. exists (Some (i :: pos)), rest. split; [done|]. destruct Hp as (Hd & Hs & Hu).
  cbn [deref mbind option_bind update_at]. rewrite Ec. split; [done|]. split; [done|]. intros f. f_equal. rewrite <- Hu.
  apply list_eq. intros j. destruct (decide (j = i)) as [->|Hne].
  - rewrite list_lookup_alter_eq, Ec. symmetry. apply list_lookup_insert_eq. by eapply lookup_lt_Some.
  - by rewrite list_lookup_alter_ne, list_lookup_insert_ne.
Qed.

(** ** The tree as a map *)
Section Mount.
Variables (T : cxx_type) (o : nat) (desc : string).

Definition leaf_info (token : string) := info (entry_of T o token desc).
Definition dir_info (q : Path) := info (directory (default "" (last q)) "Directory").

Lemma info_graft p token : keeps_info (graft p (insert_obj token T o desc)).
Proof. by apply graft_info. Qed.

(** What is at [q] after a mount at [p ++ \[token\]], where nothing was. *)
Definition mounted (p : Path) (token : string) (q : Path) (old : option (type_id * bool * option nat * string * string * bool)) :=
  match old with
  | Some i => Some i
  | None =>
      if decide (q = p ++ [token]) then Some (leaf_info token)
      else if decide (q `prefix_of` p) then Some (dir_info q) else None
  end.

Lemma mounted_cons t p token q old : q <> [] \/ old <> None -> mounted (t :: p) token (t :: q) old = mounted p token q old.
Proof.
  intros H. unfold mounted. destruct old; [done|]. destruct H as [H|H]; [|done]. cbn [app].
  destruct (decide (q = p ++ [token])) as [->|Hne]; [by rewrite decide_True|]. rewrite decide_False by congruence.
  destruct (decide (q `prefix_of` p)) as [Hp|Hp].
  - rewrite decide_True by by apply prefix_cons. unfold dir_info. by destruct q.
  - rewrite decide_False; [done|]. by intros ?%prefix_cons_inv_2.
Qed.
Lemma mounted_other t t' p token q old : t' <> t -> mounted (t :: p) token (t' :: q) old = old.
Proof.
  intros Hne. unfold mounted. destruct old; [done|]. rewrite !decide_False; [done|by intros ?%prefix_cons_inv_1|]. cbn. congruence.
Qed.

Lemma graft_inserts p token q e : at_ (p ++ [token]) e = None ->
  at_ q (graft p (insert_obj token T o desc) e) = mounted p token q (at_ q e).
Proof.
  revert q e. induction p as [|t p IH]; intros q e Hnone.
  - destruct q as [|t' q]; [done|]. unfold at_. cbn [graft node_at]. unfold insert_obj at 1. rewrite child_append. cbn [name_ entry_of].
    unfold at_ in Hnone. cbn [app node_at] in Hnone. destruct (child e t') as [c|] eqn:Ec; cbn [mbind option_bind].
    + destruct (node_at q c) as [x|] eqn:Ex; cbn [fmap option_fmap option_map mounted]; [done|].
      rewrite !decide_False; [done|by intros ?%prefix_nil_inv|]. intros [= -> ->]. by rewrite Ec in Hnone.
    + cbn [fmap option_fmap option_map mounted]. rewrite (decide_False (P := _ `prefix_of` _)) by by intros ?%prefix_nil_inv.
      destruct (decide (token = t')) as [->|Hne]; cbn [mbind option_bind].
      * destruct q as [|t2 q]; [by rewrite decide_True|]. by rewrite decide_False.
      * rewrite decide_False; [done|]. cbn. congruence.
  - destruct q as [|t' q]; [unfold at_; cbn [node_at fmap option_fmap option_map]; by rewrite (info_graft (t :: p))|].
    cbn [graft app] in *.
    destruct (get_child_is e t) as [(c & i & Ei & Ec & Hc & _)|[Ei Hc]]; rewrite Ei; unfold at_ in *; cbn [node_at] in *.
    + rewrite Ec. rewrite Hc in Hnone. pose proof (info_name _ _ (info_graft p token c)) as Hn.
      destruct (decide (t' = t)) as [->|Hne].
      * rewrite (child_insert _ _ _ _ _ Ei Ec Hn), Hc. cbn [mbind option_bind]. rewrite (IH q c Hnone).
        rewrite mounted_cons; [done|]. destruct q; [right; done|by left].
      * rewrite (child_insert_ne _ _ _ _ _ _ Ei Ec Hn Hne). by rewrite mounted_other.
    + rewrite child_append. rewrite (info_name _ _ (info_graft p token _)). cbn [name_ directory].
      destruct (decide (t' = t)) as [->|Hne].
      * rewrite Hc, decide_True by done. cbn [mbind option_bind fmap option_fmap option_map].
        assert (forall r, r <> [] -> node_at r (directory t "Directory") = None) as Hempty by (by intros [|? ?]).
        destruct q as [|t2 q].
        -- cbn [node_at fmap option_fmap option_map]. rewrite info_graft. unfold mounted. rewrite decide_False by (by destruct p).
           by rewrite decide_True by (apply prefix_cons, prefix_nil).
        -- rewrite IH by (rewrite Hempty; [done|by destruct p]). rewrite Hempty by done. by rewrite mounted_cons by by left.
      * rewrite decide_False by done. rewrite mounted_other by done. by destruct (child e t').
Qed.
End Mount.

(** ** [mount] *)
Lemma node_at_app p q e : node_at (p ++ q) e = x ← node_at p e; node_at q x.
Proof. revert e. induction p as [|t p IH]; intros e; cbn; [done|]. destruct (child e t); cbn; [apply IH|done]. Qed.

(** Creation does nothing on a path that is there. *)
Lemma walk_create_found p e : is_Some (node_at p e) -> walk_loop true false p e = walk_loop false false p e.
Proof.
  revert e. induction p as [|t p IH]; intros e; [done|]. cbn [walk_loop node_at].
  destruct (get_child_is e t) as [(c & i & -> & Ec & Hc & _)|[_ Hc]]; rewrite Hc; cbn [mbind option_bind]; [|by intros [? ?]].
  intros Hp. by rewrite Ec, IH.
Qed.

Lemma mount_split create p token T o desc e : mount create (p ++ [token]) T o desc e =
  let '(parent, _, e) := walk_loop create false p e in
  match parent with
  | None => Some (inl Err_mountpoint_invalid, e)
  | Some parent =>
      node ← deref parent e;
      match get_child node token with
      | Some _ => Some (inl Err_mountpoint_invalid, e)
      | None => Some (inr tt, update_at parent (insert_obj token T o desc) e)
      end
  end.
Proof.
  unfold mount. rewrite last_snoc, removelast_last. cbn [mbind option_bind]. destruct p as [|t p]; [done|].
  unfold walk. cbn [mbind option_bind]. by destruct (walk_loop _ _ _ _) as [[r rest] e'].
Qed.

Lemma get_child_some e t : is_Some (get_child e t) <-> is_Some (child e t).
Proof. destruct (get_child_is e t) as [(c & i & -> & _ & -> & _)|[-> ->]]; [split; intros _; by eexists|done]. Qed.

(** What [mount] does when the node before the last component is there. *)
Lemma mount_found create p token T o desc e x : node_at p e = Some x ->
  mount create (p ++ [token]) T o desc e =
    match child x token with
    | Some _ => Some (inl Err_mountpoint_invalid, e)
    | None => Some (inr tt, graft p (insert_obj token T o desc) e)
    end.
Proof.
  intros Hx. rewrite mount_split. assert (walk_loop create false p e = walk_loop false false p e) as ->.
  { destruct create; [|done]. by apply walk_create_found. }
  destruct (walk_find p e) as ([pos|] & rest & -> & Hp); [|congruence]. destruct Hp as (-> & _ & Hu). rewrite Hx. cbn [mbind option_bind].
  destruct (get_child_is x token) as [(c & i & -> & _ & -> & _)|[-> ->]]; [done|]. by rewrite Hu.
Qed.

Lemma mount_new create p token T o desc e :
  at_ (p ++ [token]) e = None -> create = true \/ is_Some (at_ p e) ->
  exists e', mount create (p ++ [token]) T o desc e = Some (inr tt, e') /\
    forall q, at_ q e' = mounted T o desc p token q (at_ q e).
Proof.
  unfold at_. rewrite node_at_app. intros Hnone Hc. destruct (node_at p e) as [x|] eqn:Hx.
  + cbn in Hnone. exists (graft p (insert_obj token T o desc) e). split.
    * rewrite (mount_found _ _ _ _ _ _ _ _ Hx). by destruct (child x token).
    * intros q. apply graft_inserts. unfold at_. by rewrite node_at_app, Hx.
  + destruct Hc as [->|[? ?]]; [|done]. rewrite mount_split.
    destruct (walk_create p e) as (pos & e1 & -> & _ & Hu & ->).
    assert (e1 = graft p (fun x => x) e) as -> by (by rewrite <- Hu, update_at_id).
    rewrite node_at_graft, Hx by done. cbn [default mbind option_bind]. rewrite Hu. eexists. split; [done|].
    intros q. apply graft_inserts. unfold at_. by rewrite node_at_app, Hx.
Qed.

(** C24. [mount] is insertion into the map of paths. Where something is mounted, an
    exception is thrown and the tree stays as it was; without creation so it does when a
    directory on the way is missing; otherwise the path is bound to the object, the
    missing directories on the way are made, and every other path is as before. *)
Theorem mount_inserts create p token T o desc e :
  (is_Some (at_ (p ++ [token]) e) -> mount create (p ++ [token]) T o desc e = Some (inl Err_mountpoint_invalid, e)) /\
  (at_ p e = None -> create = false -> mount create (p ++ [token]) T o desc e = Some (inl Err_mountpoint_invalid, e)) /\
  (at_ (p ++ [token]) e = None -> create = true \/ is_Some (at_ p e) ->
    exists e', mount create (p ++ [token]) T o desc e = Some (inr tt, e') /\
      forall q, at_ q e' = mounted T o desc p token q (at_ q e)).
Proof.
  split; [|split; [|apply mount_new]]; unfold at_; rewrite ?node_at_app.
  - intros [i Hi]. destruct (node_at p e) as [x|] eqn:Hx; [|done]. cbn in Hi. rewrite (mount_found _ _ _ _ _ _ _ _ Hx).
    by destruct (child x token).
  - intros Hp ->. rewrite mount_split. destruct (walk_find p e) as ([pos|] & rest & -> & H); [|done].
    destruct H as (_ & [x Hx] & _). by rewrite Hx in Hp.
Qed.

(** ** Finding what was mounted *)
Section Find.
Context {Dirent Stat : Type} (dirent_stat : Dirent -> Path -> Stat) (to_string : Path -> string).
Implicit Types (s : VFS (Dirent := Dirent)).

Lemma get_entry_at p s : p <> [] -> get_entry p s = Some (match node_at p (root_ s) with Some e => inr e | None => inl Err_not_found end).
Proof.
  intros Hp. unfold get_entry, walk. destruct p as [|t p]; [done|]. cbn [mbind option_bind].
  destruct (walk_find (t :: p) (root_ s)) as ([pos|] & rest & -> & H); cbn [mbind option_bind]; [|by rewrite H].
  destruct H as (-> & [x ->] & _). done.
Qed.

(** [obj] of what a node is. *)
Definition info_obj (T : cxx_type) (i : type_id * bool * option nat * string * string * bool) : exn + nat :=
  let '(ty, c, ob, nm, d, fd) := i in obj T (Entry ty c ob nm d [] fd).
Lemma get_at T p s : p <> [] -> get T p s = Some (match at_ p (root_ s) with Some i => info_obj T i | None => inl Err_not_found end).
Proof. intros Hp. unfold get, at_. rewrite get_entry_at by done. cbn [mbind option_bind]. by destruct (node_at p (root_ s)). Qed.

(** [T] may be used for an object mounted as [T']. *)
Definition fits (T T' : cxx_type) : bool :=
  (bool_decide (typeid T = typeid T') || bool_decide (T_FD_compatible = typeid T) && derives_fd T') && (negb (is_const T') || is_const T).

(** An object that was mounted is found at its path under a type that fits, a wrong
    type and a constant object asked for as a variable are refused; what was mounted
    elsewhere is still found, and the file system's tables are as they were. *)
Theorem mounted_is_found p token T o desc s :
  at_ (p ++ [token]) (root_ s) = None ->
  exists s', vfs_mount true (p ++ [token]) T o desc s = Some (inr tt, s') /\
    (forall T', get T' (p ++ [token]) s' = Some (if fits T' T then inr o else inl Err_bad_cast)) /\
    (forall T' q r, q <> [] -> get T' q s = Some r -> r <> inl Err_not_found -> get T' q s' = Some r) /\
    mounted_disks_ s' = mounted_disks_ s /\ mounted_dirents_ s' = mounted_dirents_ s /\ dirent_at s' = dirent_at s.
Proof.
  intros Hnone. destruct (mount_new true p token T o desc (root_ s) Hnone (or_introl eq_refl)) as (e' & E & Hat).
  exists (with_root e' s). unfold vfs_mount. rewrite E. split; [done|]. split; [|split; [|done]].
  - intros T'. rewrite get_at by (by destruct p). cbn [root_ with_root]. rewrite Hat. unfold mounted. rewrite Hnone, decide_True by done.
    cbn. unfold fits. destruct (bool_decide (typeid T' = typeid T)), (bool_decide (T_FD_compatible = typeid T')), (derives_fd T), (is_const T), (is_const T'); done.
  - intros T' q r Hq. rewrite !get_at by done. cbn [root_ with_root]. rewrite Hat. unfold mounted.
    destruct (at_ q (root_ s)) as [i|]; [done|]. by intros [= <-].
Qed.

(** ** Directory entries *)
Lemma walk_partial p rest e x : node_at p e = Some x -> type_ x = T_Dirent -> (forall t r, rest = t :: r -> child x t = None) ->
  exists pos, walk_loop false true (p ++ rest) e = (Some pos, rest, e) /\ deref pos e = Some x.
Proof.
  revert e. induction p as [|t p IH]; intros e; cbn [node_at app walk_loop].
  - intros [= ->] Ht Hr. exists []. split; [|done]. destruct rest as [|t r]; [done|]. specialize (Hr t r eq_refl). cbn [walk_loop].
    destruct (get_child_is x t) as [(c & i & _ & _ & Hc & _)|[-> _]]; [congruence|]. by rewrite bool_decide_eq_true_2.
  - destruct (get_child_is e t) as [(c & i & Ei & Ec & Hc & _)|[_ Hc]]; rewrite Hc; cbn [mbind option_bind]; [|done]. intros Hx Ht Hr.
    rewrite Ei, Ec. destruct (IH c Hx Ht Hr) as (pos & -> & Hd). exists (i :: pos). cbn [fmap option_fmap option_map deref].
    rewrite Ec. split; [|done]. rewrite list_insert_id by done. by destruct e.
Qed.

(** What [stat] of a path below a mounted entry asks. *)
Lemma stat_below T o desc p token rest e' s d :
  (forall q, at_ q e' = mounted T o desc p token q (at_ q (root_ s))) -> at_ (p ++ [token]) (root_ s) = None ->
  T = T_DirentRef -> dirent_at s !! o = Some d ->
  stat dirent_stat ((p ++ [token]) ++ rest) (with_root e' s) = Some (inr (dirent_stat d rest)).
Proof.
  intros Hat Hnone -> Hd. pose proof (Hat (p ++ [token])) as Hp. unfold mounted in Hp. rewrite Hnone, decide_True in Hp by done.
  unfold at_ in Hp. destruct (node_at (p ++ [token]) e') as [x|] eqn:Hx; cbn in Hp; [|done].
  assert (type_ x = T_Dirent /\ obj_ x = Some o /\ obj_is_const x = false) as (Ht & Ho & Hc) by (unfold leaf_info, info in Hp; cbn in Hp; injection Hp; done).
  assert (forall t r, rest = t :: r -> child x t = None) as Hr.
  { intros t r ->. pose proof (Hat ((p ++ [token]) ++ [t])) as Hq. unfold mounted, at_ in Hq.
    assert (node_at ((p ++ [token]) ++ [t]) (root_ s) = None) as Hn.
    { rewrite node_at_app. unfold at_ in Hnone. by destruct (node_at (p ++ [token]) (root_ s)). }
    rewrite Hn in Hq. cbn [fmap option_fmap option_map] in Hq. rewrite !decide_False in Hq.
    - rewrite node_at_app, Hx in Hq. cbn in Hq. by destruct (child x t).
    - intros Hpre%prefix_length. rewrite !length_app in Hpre. cbn in Hpre. lia.
    - intros E%(f_equal length). rewrite !length_app in E. cbn in E. lia. }
  unfold stat, walk. destruct (walk_partial _ rest _ _ Hx Ht Hr) as (pos & E & Hpos).
  destruct ((p ++ [token]) ++ rest) as [|t q] eqn:Epath; [by destruct p|]. cbn [mbind option_bind root_ with_root]. rewrite E. cbn [mbind option_bind].
  rewrite Hpos. cbn [mbind option_bind]. unfold obj. rewrite Ho, Ht, Hc. rewrite bool_decide_eq_true_2 by done. cbn [negb andb dirent_at with_root].
  by rewrite Hd.
Qed.

(** The first mount of an entry saves it and binds it to the local path. *)
Lemma mounted_once p token id remote desc addr disk dir s :
  mounted_disks_ s !! id = Some disk -> fs_ready disk = true -> fs_stat disk remote = Some dir ->
  mounted_dirents_ s !! (id, to_string remote) = None -> at_ (p ++ [token]) (root_ s) = None ->
  exists s', mount_dirent to_string (p ++ [token]) id remote desc addr s = Some (inr tt, s') /\
    forall rest, stat dirent_stat ((p ++ [token]) ++ rest) s' = Some (inr (dirent_stat dir rest)).
Proof.
  intros Hd Hr Hs Hm Hnone. unfold mount_dirent, insert_dirent. rewrite Hd, Hr, Hs, Hm. cbn [negb].
  destruct (mount_new true p token T_DirentRef addr desc (root_ s) Hnone (or_introl eq_refl)) as (e' & E & Hat).
  unfold vfs_mount. cbn [root_]. rewrite E. eexists. split; [done|]. intros rest.
  apply (stat_below T_DirentRef addr desc p token rest); [done..|]. apply lookup_insert_eq.
Qed.

(** An entry that is mounted already is not saved again: the second mount point is
    bound to the static invalid entry. *)
Lemma mounted_twice_invalid invalid p token id remote desc addr disk dir a s :
  mounted_disks_ s !! id = Some disk -> fs_ready disk = true -> fs_stat disk remote = Some dir ->
  mounted_dirents_ s !! (id, to_string remote) = Some a -> at_ (p ++ [token]) (root_ s) = None ->
  dirent_at s !! INVALID_DIRENT = Some invalid ->
  exists s', mount_dirent to_string (p ++ [token]) id remote desc addr s = Some (inr tt, s') /\
    forall rest, stat dirent_stat ((p ++ [token]) ++ rest) s' = Some (inr (dirent_stat invalid rest)).
Proof.
  intros Hd Hr Hs Hm Hnone Hi. unfold mount_dirent, insert_dirent. rewrite Hd, Hr, Hs, Hm. cbn [negb].
  destruct (mount_new true p token T_DirentRef INVALID_DIRENT desc (root_ s) Hnone (or_introl eq_refl)) as (e' & E & Hat).
  unfold vfs_mount. rewrite E. eexists. split; [done|]. intros rest.
  apply (stat_below T_DirentRef INVALID_DIRENT desc p token rest); done.
Qed.

(** C34. Mounting an entry of a disk at a free path, and asking for paths below it, in every
    case: without such a disk, without a file system on it, or without such an entry the mount fails
    with its error and changes nothing; an entry mounted for the first time is saved, and
    from then on [stat] of every path that goes on from the mount point asks this entry for the
    rest of the path; an entry that is mounted already, by this disk and remote path, is
    not saved again, and [stat] asks the invalid entry instead (the code binds it where it
    means the saved one). *)
Theorem stat_asks_mount_point invalid p token id remote desc addr s :
  at_ (p ++ [token]) (root_ s) = None -> dirent_at s !! INVALID_DIRENT = Some invalid ->
  let m := mount_dirent to_string (p ++ [token]) id remote desc addr s in
  match mounted_disks_ s !! id with
  | None => m = Some (inl Err_not_found, s)
  | Some disk =>
      if negb (fs_ready disk) then m = Some (inl Err_not_mounted, s)
      else match fs_stat disk remote with
           | None => m = Some (inl Err_not_found, s)
           | Some dir =>
               let asked := match mounted_dirents_ s !! (id, to_string remote) with None => dir | Some _ => invalid end in
               exists s', m = Some (inr tt, s') /\ forall rest, stat dirent_stat ((p ++ [token]) ++ rest) s' = Some (inr (dirent_stat asked rest))
           end
  end.
Proof.
  intros Hnone Hi m. destruct (mounted_disks_ s !! id) as [disk|] eqn:Hd; [|unfold m, mount_dirent, insert_dirent; by rewrite Hd].
  destruct (fs_ready disk) eqn:Hr; cbn [negb]; [|unfold m, mount_dirent, insert_dirent; by rewrite Hd, Hr].
  destruct (fs_stat disk remote) as [dir|] eqn:Hs; [|unfold m, mount_dirent, insert_dirent; by rewrite Hd, Hr, Hs].
  destruct (mounted_dirents_ s !! (id, to_string remote)) as [a|] eqn:Hm; cbn zeta; [by eapply mounted_twice_invalid|by eapply mounted_once].
Qed.
End Find.

(** ** Witnesses *)
Definition demo_disk : Disk_ (Dirent := nat) := {| disk_id := 1; fs_ready := true; fs_stat := fun p => Some (length p) |}.
Definition demo_vfs : VFS (Dirent := nat) := (insert_disk 1%Z demo_disk (empty_vfs 0)).2.

Lemma mounted_is_found_witness : exists s', vfs_mount true ["dev"; "disk"] {| typeid := T_other 1; is_const := false; derives_fd := false |} 5 "d" demo_vfs
    = Some (inr tt, s') /\ get {| typeid := T_other 1; is_const := false; derives_fd := false |} ["dev"; "disk"] s' = Some (inr 5).
Proof.
  destruct (mounted_is_found ["dev"] "disk" {| typeid := T_other 1; is_const := false; derives_fd := false |} 5 "d" demo_vfs eq_refl) as (s' & E & Hg & _).
  exists s'. split; [exact E|]. apply Hg.
Defined.

Lemma stat_asks_mount_point_witness : exists s',
  mount_dirent (fun _ => "root") ["root"] 1 ["a"; "b"] "d" 7 demo_vfs = Some (inr tt, s') /\
  stat pair ["root"; "rom"; "x"] s' = Some (inr (2, ["rom"; "x"])).
Proof.
  destruct (stat_asks_mount_point pair (fun _ => "root") 0%nat [] "root" 1 ["a"; "b"] "d" 7 demo_vfs eq_refl eq_refl)
    as (s' & E & Hs).
  exists s'. split; [exact E|]. exact (Hs ["rom"; "x"]).
Defined.
Lemma mount_inserts_witness : exists e', mount true ["a"; "b"] T_DirentRef 3 "d" (directory "/" "Root directory") = Some (inr tt, e') /\
  at_ ["a"] e' = Some (info (directory "a" "Directory")).
Proof.
  destruct (proj2 (proj2 (mount_inserts true ["a"] "b" T_DirentRef 3 "d" (directory "/" "Root directory"))) eq_refl (or_introl eq_refl)) as (e' & E & Hat).
  exists e'. split; [exact E|]. rewrite Hat. vm_compute. reflexivity.
Defined.
