(* ===== verification/LPatternSpec.v ===== *)
(** * What a pattern means, and that the matcher finds it

    [pmatch caps s p e caps'] says without an order of search that the pattern from
    [p] matches the subject from [s] to [e], turning the captures [caps] into
    [caps']. The theorems: the matcher of LPattern never leaves its strings, and
    its backtracking is sound and complete for this relation. *)
From stdpp Require Import base list option.
From Stdlib Require Import ZArith Lia ZifyBool.
From S2P Require Import Prelude LPattern.
Local Open Scope nat_scope.

(** What starts at a place of a pattern. *)
Inductive head := HPosition | HOpen | HClose | HBalance | HFrontier | HBackref (d : Z) | HEnd | HDollar | HItem.

Section Spec.
Variables src pat : bytes.
Abbreviation plen := (length pat).
Abbreviation slen := (length src).

Definition head_of (p : nat) : option head :=
  c ← pch pat p;
  if (c =? 40)%Z then c1 ← pch pat (p + 1); Some (if (c1 =? 41)%Z then HPosition else HOpen)
  else if (c =? 41)%Z then Some HClose
  else if (c =? L_ESC)%Z then
    c1 ← pch pat (p + 1);
    Some (if (c1 =? 98)%Z then HBalance else if (c1 =? 102)%Z then HFrontier
          else if isdigit c1 then HBackref c1 else HItem)
  else if (c =? 0)%Z then Some HEnd
  else if (c =? 36)%Z then c1 ← pch pat (p + 1); Some (if (c1 =? 0)%Z then HDollar else HItem)
  else Some HItem.

(** The character at [s] is one of those the item from [p] to [ep] stands for. *)
Definition item_at (s p ep : nat) : Prop := single_at src pat s p ep = Some (Return true).

Abbreviation captures := (list (nat * Z)).

(** The innermost capture that is still open. *)
Definition innermost (caps : captures) (l : nat) (i : nat) : Prop :=
  caps !! l = Some (i, CAP_UNFINISHED) /\ forall j c, l < j -> caps !! j = Some c -> snd c <> CAP_UNFINISHED.

(** The set from [p] to [ep] begins to match at [s] and did not just before. *)
Definition frontier_at (s p ep : nat) : Prop :=
  exists prev c, (if s =? 0 then prev = 0%Z else sch src (s - 1) = Some prev) /\ sch src s = Some c /\
    matchbracketclass pat prev p (ep - 1) = Some false /\ matchbracketclass pat c p (ep - 1) = Some true.

Inductive pmatch : captures -> nat -> nat -> nat -> captures -> Prop :=
| pm_end caps s p : head_of p = Some HEnd -> pmatch caps s p s caps
| pm_dollar caps p : head_of p = Some HDollar -> pmatch caps slen p slen caps
| pm_position caps s p e caps' : head_of p = Some HPosition -> length caps < LUA_MAXCAPTURES ->
    pmatch (caps ++ [(s, CAP_POSITION)]) s (p + 2) e caps' -> pmatch caps s p e caps'
| pm_open caps s p e caps' : head_of p = Some HOpen -> length caps < LUA_MAXCAPTURES ->
    pmatch (caps ++ [(s, CAP_UNFINISHED)]) s (p + 1) e caps' -> pmatch caps s p e caps'
| pm_close caps s p e caps' l i : head_of p = Some HClose -> innermost caps l i ->
    pmatch (<[l := (i, (Z.of_nat s - Z.of_nat i)%Z)]> caps) s (p + 1) e caps' -> pmatch caps s p e caps'
| pm_balance caps s p e caps' s' : head_of p = Some HBalance -> matchbalance src pat s (p + 2) = Some (Return (Some s')) ->
    pmatch caps s' (p + 4) e caps' -> pmatch caps s p e caps'
| pm_frontier caps s p e caps' ep : head_of p = Some HFrontier -> pch pat (p + 2) = Some CH_LBRACKET ->
    classend pat (p + 2) = Some (Return ep) -> frontier_at s (p + 2) ep ->
    pmatch caps s ep e caps' -> pmatch caps s p e caps'
| pm_backref caps s p e caps' d i len : head_of p = Some (HBackref d) -> (49 <= d)%Z ->
    caps !! Z.to_nat (d - 49) = Some (i, Z.of_nat len) -> s + len <= slen -> slice i len src = slice s len src ->
    pmatch caps (s + len) (p + 2) e caps' -> pmatch caps s p e caps'
| pm_skip caps s p e caps' ep : head_of p = Some HItem -> classend pat p = Some (Return ep) -> pch pat ep = Some 63%Z ->
    pmatch caps s (ep + 1) e caps' -> pmatch caps s p e caps'
| pm_take caps s p e caps' ep : head_of p = Some HItem -> classend pat p = Some (Return ep) -> pch pat ep = Some 63%Z ->
    item_at s p ep -> pmatch caps (S s) (ep + 1) e caps' -> pmatch caps s p e caps'
| pm_repeat caps s p e caps' ep n c : head_of p = Some HItem -> classend pat p = Some (Return ep) ->
    pch pat ep = Some c -> c = 42%Z \/ (c = 43%Z /\ 0 < n) \/ c = 45%Z ->
    (forall i, i < n -> item_at (s + i) p ep) -> pmatch caps (s + n) (ep + 1) e caps' -> pmatch caps s p e caps'
| pm_one caps s p e caps' ep c : head_of p = Some HItem -> classend pat p = Some (Return ep) ->
    pch pat ep = Some c -> c ∉ [63; 42; 43; 45]%Z -> item_at s p ep ->
    pmatch caps (S s) ep e caps' -> pmatch caps s p e caps'.

(** The captures that count. *)
Definition caps_of (ms : MatchState) : captures := take (level ms) (capture ms).

Lemma ms_same_caps ms ms' : ms_same ms ms' -> caps_of ms' = caps_of ms.
Proof. intros (E & _ & H). unfold caps_of. by rewrite E. Qed.

(** A right answer: a match the relation has, or none that it has. *)
Definition right (caps : captures) (s p : nat) (r : option nat * MatchState) : Prop :=
  match fst r with
  | Some e => pmatch caps s p e (caps_of (snd r))
  | None => forall e caps', ~ pmatch caps s p e caps'
  end.

Lemma lsafe_both {A} (m : LuaM A) (P Q : A -> Prop) : lsafe m P -> lsafe m Q -> lsafe m (fun a => P a /\ Q a).
Proof. destruct m as [[a|msg]|]; simpl; auto. Qed.

(** [single_at] has an answer, and it is [item_at]. *)
Lemma single_at_value s p ep x : pch pat p = Some x -> x <> 0%Z -> p < ep -> ep <= plen ->
  (x = L_ESC -> p + 2 <= ep) -> (x = CH_LBRACKET -> p + 2 <= ep) ->
  exists ok, single_at src pat s p ep = Some (Return ok) /\ (ok = true -> s < slen) /\ (ok = true <-> item_at s p ep).
Proof.
  intros. assert (exists ok, single_at src pat s p ep = Some (Return ok) /\ (ok = true -> s < slen)) as (ok & Hok & Hs).
  { unfold single_at, src_end. destruct (Nat.ltb_spec s slen); [|by exists false].
    destruct (sch_total src s) as [c Hc]; [lia|]. rewrite (lbind_lift _ c _ Hc).
    destruct (singlematch_total pat c p ep x) as [ok Hok]; [done..|]. rewrite Hok. by exists ok. }
  exists ok. split; [done|]. split; [done|]. unfold item_at. rewrite Hok. split; congruence.
Qed.

Section Rec.
Variable m : MatchState -> nat -> nat -> matchM.
Variable p0 : nat.
(** Recursive calls are safe and right. *)
Hypothesis Hm : forall ms s p, ms_ok src s ms -> s <= slen -> p0 < p <= plen ->
  lsafe (m ms s p) (fun r => match_good src s ms r /\ right (caps_of ms) s p r).

(** The answers of a search over several continuations: one of them, or none. *)
Definition among (ms : MatchState) (alts : nat -> nat -> Prop) (r : option nat * MatchState) : Prop :=
  match fst r with
  | Some e => exists s p, alts s p /\ pmatch (caps_of ms) s p e (caps_of (snd r))
  | None => ms_same ms (snd r) /\ forall s p e caps', alts s p -> ~ pmatch (caps_of ms) s p e caps'
  end.

Lemma Hm_among ms s p : ms_ok src s ms -> s <= slen -> p0 < p <= plen ->
  lsafe (m ms s p) (among ms (fun s' p' => s' = s /\ p' = p)).
Proof.
  intros. eapply lsafe_mono; [by apply Hm|]. intros [[e|] ms'] [Hg Hr]; unfold among, right, match_good in *; cbn [fst snd] in *.
  - by exists s, p.
  - split; [done|]. intros ? ? e c [-> ->]. apply Hr.
Qed.

(** Trying one more continuation after the others failed. *)
Lemma among_next ms ms' (alts1 alts2 alts : nat -> nat -> Prop) (k : matchM) :
  ms_same ms ms' -> (forall s p e c, alts1 s p -> ~ pmatch (caps_of ms) s p e c) ->
  (forall s p, alts s p <-> alts1 s p \/ alts2 s p) -> lsafe k (among ms' alts2) -> lsafe k (among ms alts).
Proof.
  intros Hs Hno Halt Hk. eapply lsafe_mono; [exact Hk|]. intros [[e|] ms''] H; unfold among in *; cbn [fst snd] in *.
  - destruct H as (s & p & Ha & Hp). rewrite (ms_same_caps _ _ Hs) in Hp. exists s, p. split; [apply Halt; auto|done].
  - destruct H as [Hs' Hn]. split; [by eapply ms_same_trans|]. intros s p e c [H1|H2]%Halt; [by apply Hno|].
    rewrite <- (ms_same_caps _ _ Hs). by apply Hn.
Qed.

Lemma among_ext ms (alts alts' : nat -> nat -> Prop) r : (forall s p, alts s p <-> alts' s p) -> among ms alts r -> among ms alts' r.
Proof.
  intros He. unfold among. destruct (fst r); [intros (s & p & ? & ?); exists s, p; by rewrite <- He|].
  intros [? Hn]. split; [done|]. intros s p e c Ha. apply Hn. by apply He.
Qed.

Lemma expand_loop_among n s ep ms : ms_ok src s ms -> s + n <= S slen -> p0 < ep + 1 <= plen ->
  lsafe (expand_loop m n s ep ms) (among ms (fun s' p' => exists i, i < n /\ s' = s + i /\ p' = ep + 1)).
Proof.
  revert ms. induction n as [|i IH]; intros ms Hok Hs Hep; cbn [expand_loop].
  - apply lsafe_ret. split; [by apply (ms_same_refl src ms s)|]. intros ? ? ? ? (i & ? & _). lia.
  - eapply lsafe_bind; [apply Hm_among; [by apply (ms_ok_mono src s); [lia|]|lia|lia]|].
    intros [[e|] ms'] Hg; cbn [fst snd].
    + apply lsafe_ret. destruct Hg as (s' & p' & [-> ->] & Hp). exists (s + i), (ep + 1). split; [|done]. exists i. split; [lia|done].
    + destruct Hg as [Hsame Hno]. eapply among_next; [exact Hsame|exact Hno| |apply IH; [by apply (ms_same_ok src s ms)|lia|lia]].
      intros s' p'. simpl. split.
      * intros (j & Hj & -> & ->). destruct (decide (j = i)) as [->|]; [by left|]. right. exists j. split; [lia|done].
      * intros [[-> ->]|(j & Hj & -> & ->)]; [exists i|exists j]; (split; [lia|done]).
Qed.

Section Item.
Variables p ep : nat.
Variable x : Z.
Hypothesis Hx : pch pat p = Some x.
Hypothesis Hx0 : x <> 0%Z.
Hypothesis Hep : p < ep.
Hypothesis Hepl : ep <= plen.
Hypothesis Hesc : x = L_ESC -> p + 2 <= ep.
Hypothesis Hbr : x = CH_LBRACKET -> p + 2 <= ep.

Definition repeats (s n : nat) : Prop := forall i, i < n -> item_at (s + i) p ep.

Lemma expand_count_value fuel s i : s + i <= slen -> slen < fuel + (s + i) -> repeats s i ->
  exists n, expand_count src pat fuel s p ep i = Some (Return n) /\ s + n <= slen /\ repeats s n /\ ~ item_at (s + n) p ep.
Proof.
  revert i. induction fuel as [|fuel IH]; intros i Hi Hf Hr; [lia|]. cbn [expand_count].
  destruct (single_at_value (s + i) p ep x) as (ok & Hok & Hlt & Hitem); [done..|]. rewrite Hok. cbn [lbind].
  destruct ok.
  - specialize (Hlt eq_refl). destruct (IH (S i)) as (n & ? & ? & ? & ?); [lia|lia| |by exists n].
    intros j Hj. destruct (decide (j = i)) as [->|]; [by apply Hitem|apply Hr; lia].
  - exists i. split; [done|]. split; [done|]. split; [done|]. intros H%Hitem. done.
Qed.

Lemma repeats_bound s n k : repeats s n -> ~ item_at (s + k) p ep -> n <= k.
Proof. intros Hr Hk. destruct (decide (n <= k)); [done|]. destruct Hk. apply Hr. lia. Qed.

Lemma max_expand_among ms s : ms_ok src s ms -> s <= slen -> p0 < ep + 1 <= plen ->
  lsafe (max_expand src pat m ms s p ep) (among ms (fun s' p' => exists n, repeats s n /\ s' = s + n /\ p' = ep + 1)).
Proof.
  intros Hok Hs He. unfold max_expand.
  destruct (expand_count_value (S (src_end src)) s 0) as (n & Hn & Hsn & Hrep & Hstop); [lia|unfold src_end; lia|intros i ?; lia|].
  rewrite Hn. cbn [lbind]. eapply lsafe_mono; [by apply expand_loop_among; [|lia|]|].
  intros r. apply among_ext. intros s' p'. split; intros (i & Hi & -> & ->); exists i; (split; [|done]).
  - intros j Hj. apply Hrep. lia.
  - pose proof (repeats_bound s i n Hi Hstop). lia.
Qed.

Lemma min_expand_among fuel ms s : ms_ok src s ms -> s <= slen -> slen < fuel + s -> p0 < ep + 1 <= plen ->
  lsafe (min_expand src pat m fuel ms s p ep) (among ms (fun s' p' => exists n, repeats s n /\ s' = s + n /\ p' = ep + 1)).
Proof.
  revert ms s. induction fuel as [|fuel IH]; intros ms s Hok Hs Hf He; [lia|]. cbn [min_expand].
  eapply lsafe_bind; [by apply Hm_among|]. intros [[e|] ms'] Hg; cbn [fst snd].
  { apply lsafe_ret. destruct Hg as (s' & p' & [-> ->] & Hp). exists s, (ep + 1). split; [|done].
    exists 0. rewrite Nat.add_0_r. split; [intros i ?; lia|done]. }
  destruct Hg as [Hsame Hno]. cbn [snd] in *.
  destruct (single_at_value s p ep x) as (ok & Hok' & Hlt & Hitem); [done..|]. rewrite Hok'. cbn [lbind].
  destruct ok.
  - specialize (Hlt eq_refl).
    eapply among_next; [exact Hsame|exact Hno| |apply IH; [|lia|lia|done]; apply (ms_ok_mono src s); [lia|]; by apply (ms_same_ok src s ms)].
    intros s' p'. simpl. split.
    + intros (n & Hn & -> & ->). destruct n as [|n]; [left; by rewrite Nat.add_0_r|]. right. exists n. split; [|by rewrite Nat.add_succ_r].
      intros i Hi. replace (S s + i) with (s + S i) by lia. apply Hn. lia.
    + intros [[-> ->]|(n & Hn & -> & ->)]; [exists 0; rewrite Nat.add_0_r; split; [intros i ?; lia|done]|].
      exists (S n). split; [|by rewrite Nat.add_succ_r]. intros i Hi. destruct i as [|i]; [rewrite Nat.add_0_r; by apply Hitem|].
      replace (s + S i) with (S s + i) by lia. apply Hn. lia.
  - apply lsafe_ret. split; [done|]. intros s' p' e c (n & Hn & -> & ->).
    assert (~ item_at (s + 0) p ep) as Hni by (rewrite Nat.add_0_r; intros H%Hitem; done).
    assert (n = 0) as -> by (pose proof (repeats_bound s n 0 Hn Hni); lia). rewrite Nat.add_0_r. by apply Hno.
Qed.
End Item.

(** *** Items *)

(** Where the pattern may go on after the item from [p] to [ep] with the suffix [c]. *)
Definition item_alts (s p ep : nat) (c : Z) (s' p' : nat) : Prop :=
  if (c =? 63)%Z then p' = ep + 1 /\ (s' = s \/ item_at s p ep /\ s' = S s)
  else if (c =? 42)%Z then exists n, repeats p ep s n /\ s' = s + n /\ p' = ep + 1
  else if (c =? 43)%Z then exists n, 0 < n /\ repeats p ep s n /\ s' = s + n /\ p' = ep + 1
  else if (c =? 45)%Z then exists n, repeats p ep s n /\ s' = s + n /\ p' = ep + 1
  else item_at s p ep /\ s' = S s /\ p' = ep.

Lemma item_pmatch caps s p ep c e caps' : head_of p = Some HItem -> classend pat p = Some (Return ep) -> pch pat ep = Some c ->
  pmatch caps s p e caps' <-> exists s' p', item_alts s p ep c s' p' /\ pmatch caps s' p' e caps'.
Proof.
  intros Hh Hc He. unfold item_alts. split.
  - intros Hp. inversion Hp; subst; try congruence; repeat match goal with
    | H2 : classend pat p = Some (Return ?b) |- _ => lazymatch b with ep => fail | _ => assert (b = ep) as -> by congruence end
    end; repeat match goal with
    | H2 : pch pat ep = Some ?b |- _ => lazymatch b with c => fail | _ => assert (c = b) as -> by congruence end
    end.
    + rewrite Z.eqb_refl. exists s, (ep + 1). auto.
    + rewrite Z.eqb_refl. exists (S s), (ep + 1). auto.
    + exists (s + n), (ep + 1). split; [|done].
      match goal with H : _ \/ _ |- _ => destruct H as [->|[[-> ?]| ->]] end; simpl; by exists n.
    + exists (S s), ep. split; [|done].
      match goal with H : _ ∉ _ |- _ => rewrite !not_elem_of_cons in H; destruct H as (?&?&?&?&?) end.
      rewrite !(proj2 (Z.eqb_neq _ _)) by done. done.
  - intros (s' & p' & Ha & Hp).
    destruct (Z.eqb_spec c 63) as [->|]; [destruct Ha as (-> & [->|[? ->]]); [by eapply pm_skip|by eapply pm_take]|].
    destruct (Z.eqb_spec c 42) as [->|]; [destruct Ha as (k & ? & -> & ->); eapply pm_repeat; eauto|].
    destruct (Z.eqb_spec c 43) as [->|]; [destruct Ha as (k & ? & ? & -> & ->); eapply pm_repeat; eauto|].
    destruct (Z.eqb_spec c 45) as [->|]; [destruct Ha as (k & ? & -> & ->); eapply pm_repeat; eauto|].
    destruct Ha as (? & -> & ->). eapply pm_one; eauto. rewrite !not_elem_of_cons. set_solver.
Qed.

(** A search over what the relation allows is right. *)
Lemma among_right ms s p alts r :
  (forall e c, pmatch (caps_of ms) s p e c <-> exists s' p', alts s' p' /\ pmatch (caps_of ms) s' p' e c) ->
  among ms alts r -> right (caps_of ms) s p r.
Proof.
  intros Hp. unfold among, right. destruct (fst r) as [e|]; [intros (s' & p' & ? & ?); apply Hp; eauto|].
  intros [_ Hn] e c (s' & p' & Ha & Hm')%Hp. by eapply Hn.
Qed.

Lemma match_default_right ms s x : ms_ok src s ms -> s <= slen -> p0 < plen -> pch pat p0 = Some x -> x <> 0%Z ->
  head_of p0 = Some HItem -> lsafe (match_default src pat m ms s p0) (right (caps_of ms) s p0).
Proof.
  intros Hok Hs Hp Hx Hx0 Hh. unfold match_default.
  pose proof (classend_safe pat p0 x Hx Hx0) as Hce. destruct (classend pat p0) as [[ep|msg]|] eqn:Ece; [|done|done].
  cbn [lbind]. cbn [lsafe] in Hce. destruct Hce as ([Hep Hepl] & Hesc & Hbr).
  destruct (single_at_value s p0 ep x) as (ok & Hok' & Hlt & Hitem); [done..|]. rewrite Hok'. cbn [lbind].
  destruct (pch_total pat ep) as [c Hc]; [lia|]. rewrite (lbind_lift _ c _ Hc).
  assert (c <> 0%Z -> p0 < ep + 1 <= plen) as Hnext by (intros Hc0; pose proof (pch_nonzero pat ep c Hc Hc0); lia).
  eapply lsafe_mono; [|intros r; apply (among_right ms s p0 (item_alts s p0 ep c)); intros; by apply item_pmatch].
  unfold item_alts. assert (Hstep : ok = true -> ms_ok src (S s) ms /\ S s <= slen).
  { intros ->. specialize (Hlt eq_refl). split; [by apply (ms_ok_mono src s); [lia|]|lia]. }
  destruct (Z.eqb_spec c 63) as [->|]; [|destruct (Z.eqb_spec c 42) as [->|]; [|destruct (Z.eqb_spec c 43) as [->|];
    [|destruct (Z.eqb_spec c 45) as [->|]]]].
  - specialize (Hnext ltac:(done)). destruct ok.
    + destruct (Hstep eq_refl) as [Hok1 Hs1]. eapply lsafe_bind; [by apply Hm_among|].
      intros [[e|] ms'] Hg; cbn [fst snd].
      * apply lsafe_ret. destruct Hg as (s' & p' & [-> ->] & Hpm). exists (S s), (ep + 1). split; [|done]. split; [done|].
        right. split; [by apply Hitem|done].
      * destruct Hg as [Hsame Hno]. eapply among_next; [exact Hsame|exact Hno| |apply Hm_among; [by apply (ms_same_ok src s ms)|done|done]].
        intros s' p'. simpl. rewrite <- Hitem. naive_solver.
    + eapply lsafe_mono; [by apply Hm_among|]. intros r. apply among_ext. intros s' p'. rewrite <- Hitem. naive_solver.
  - specialize (Hnext ltac:(done)). by eapply max_expand_among.
  - specialize (Hnext ltac:(done)). destruct ok.
    + destruct (Hstep eq_refl) as [Hok1 Hs1]. eapply lsafe_mono; [by eapply max_expand_among|].
      intros r. apply among_ext. intros s' p'. split.
      * intros (k & Hn & -> & ->). exists (S k). split; [lia|]. split; [|split; [lia|done]]. intros i Hi.
        destruct i as [|i]; [rewrite Nat.add_0_r; by apply Hitem|]. replace (s + S i) with (S s + i) by lia. apply Hn. lia.
      * intros (k & Hn0 & Hn & -> & ->). destruct k as [|k]; [lia|]. exists k. split; [|split; [lia|done]]. intros i Hi.
        replace (S s + i) with (s + S i) by lia. apply Hn. lia.
    + apply lsafe_ret. split; [by apply (ms_same_refl src ms s)|]. intros s' p' e c' (k & Hn0 & Hn & _).
      specialize (Hn 0 Hn0). rewrite Nat.add_0_r in Hn. apply Hitem in Hn. done.
  - specialize (Hnext ltac:(done)). eapply min_expand_among; eauto. unfold src_end. lia.
  - destruct ok.
    + destruct (Hstep eq_refl) as [Hok1 Hs1]. eapply lsafe_mono; [apply Hm_among; [done|done|lia]|].
      intros r. apply among_ext. intros s' p'. rewrite <- Hitem. naive_solver.
    + apply lsafe_ret. split; [by apply (ms_same_refl src ms s)|]. intros s' p' e c' (Hi & _). apply Hitem in Hi. done.
Qed.

(** *** Captures, frontiers and the rest *)

(** A single continuation, with other captures. *)
Lemma right_via ms ms1 s p s' p' r :
  (forall e c, pmatch (caps_of ms) s p e c <-> pmatch (caps_of ms1) s' p' e c) ->
  right (caps_of ms1) s' p' r -> right (caps_of ms) s p r.
Proof. intros Hp. unfold right. destruct (fst r); [by intros ?%Hp|]. intros Hn e c Hc%Hp. by apply (Hn e c). Qed.

Lemma start_capture_right ms s p p' what hd : ms_ok src s ms -> s <= slen -> p0 < p' <= plen ->
  head_of p = Some hd -> (hd = HPosition /\ what = CAP_POSITION /\ p' = p + 2) \/ (hd = HOpen /\ what = CAP_UNFINISHED /\ p' = p + 1) ->
  lsafe (start_capture m ms s p' what) (right (caps_of ms) s p).
Proof.
  intros Hok Hs Hp' Hh Hcase. pose proof Hok as (Hl & Hlev & Hc). unfold start_capture.
  destruct (Nat.leb_spec LUA_MAXCAPTURES (level ms)); [done|].
  set (ms1 := Ms (S (level ms)) (<[level ms := (s, what)]> (capture ms))).
  assert (caps_of ms1 = caps_of ms ++ [(s, what)]) as E1.
  { unfold caps_of, ms1. cbn [level capture]. rewrite (take_S_r _ _ (s, what)) by (apply list_lookup_insert_eq; lia).
    by rewrite take_insert_ge by lia. }
  assert (ms_ok src s ms1) as Hok1.
  { split; [unfold ms1; cbn [capture]; by rewrite length_insert|]. split; [simpl; lia|]. fold (caps_of ms1). rewrite E1.
    apply Forall_app. split; [done|]. constructor; [|constructor]. split; [done|].
    destruct Hcase as [(_ & -> & _)|(_ & -> & _)]; [right; left|left]; done. }
  assert (length (caps_of ms) < LUA_MAXCAPTURES) as Hlt by (unfold caps_of; rewrite length_take; lia).
  assert (forall e c, pmatch (caps_of ms) s p e c <-> pmatch (caps_of ms1) s p' e c) as Hiff.
  { intros e c. rewrite E1. destruct Hcase as [(-> & -> & ->)|(-> & -> & ->)]; (split; [intros Hpm; inversion Hpm; subst; congruence|]).
    - by apply pm_position.
    - by apply pm_open. }
  eapply lsafe_bind; [by apply Hm|]. intros [[e|] ms'] [_ Hr]; cbn [fst snd]; apply lsafe_ret.
  - by apply (right_via ms ms1 s p s p').
  - intros e c Hpm%Hiff. by apply (Hr e c).
Qed.

Lemma close_loop_innermost ms n : level ms <= length (capture ms) -> n <= level ms ->
  (forall j c, n <= j -> caps_of ms !! j = Some c -> snd c <> CAP_UNFINISHED) ->
  lsafe (close_loop ms n) (fun l => exists i, innermost (caps_of ms) l i).
Proof.
  intros Hlen. induction n as [|n IH]; intros Hn Hj; [done|]. cbn [close_loop].
  destruct (lookup_lt_is_Some_2 (capture ms) n) as [c Hc]; [lia|]. rewrite (lbind_lift _ c _ Hc).
  assert (caps_of ms !! n = Some c) as Hc' by (unfold caps_of; by rewrite lookup_take_lt by lia).
  destruct (Z.eqb_spec (snd c) CAP_UNFINISHED) as [E|E].
  - apply lsafe_ret. exists (fst c). split; [rewrite <- E; by destruct c|]. intros j c' Hlt. apply Hj. lia.
  - apply IH; [lia|]. intros j c' Hle Hcj. destruct (decide (j = n)) as [->|]; [congruence|]. eapply Hj; [|done]. lia.
Qed.

Lemma innermost_unique caps l i l' i' : innermost caps l i -> innermost caps l' i' -> l = l' /\ i = i'.
Proof.
  intros [H1 H2] [H3 H4]. destruct (Nat.lt_trichotomy l l') as [Hlt|[->|Hlt]].
  - by destruct (H2 _ _ Hlt H3).
  - split; [done|congruence].
  - by destruct (H4 _ _ Hlt H1).
Qed.

Lemma end_capture_right ms s p : ms_ok src s ms -> s <= slen -> p0 < p + 1 <= plen -> head_of p = Some HClose ->
  lsafe (end_capture m ms s (p + 1)) (right (caps_of ms) s p).
Proof.
  intros Hok Hs Hp Hh. pose proof Hok as (Hlen & Hlev & Hall). unfold end_capture, capture_to_close.
  eapply lsafe_bind.
  { apply lsafe_both; [by apply (close_loop_safe src s ms (level ms))|].
    apply close_loop_innermost; [lia|done|]. intros j c Hj Hc. apply lookup_lt_Some in Hc. unfold caps_of in Hc.
    rewrite length_take in Hc. lia. }
  intros l ((Hl & c & Hc & Hun & Hcok) & i & Hin). rewrite (lbind_lift _ c _ Hc).
  assert (i = fst c) as ->.
  { destruct Hin as [Hi _]. unfold caps_of in Hi. rewrite lookup_take_lt, Hc in Hi by done. injection Hi as ->. done. }
  set (c' := (fst c, (Z.of_nat s - Z.of_nat (fst c))%Z)). set (ms1 := Ms (level ms) (<[l := c']> (capture ms))).
  assert (caps_of ms1 = <[l := c']> (caps_of ms)) as E1 by (unfold caps_of, ms1; cbn [level capture]; by rewrite take_insert_lt).
  assert (ms_ok src s ms1) as Hok1.
  { unfold ms1. split; cbn [level capture]; [by rewrite length_insert|]. split; [done|]. rewrite take_insert_lt by done.
    apply Forall_insert; [done|]. unfold cap_ok in *. simpl.
    destruct Hcok as [? [[? ?]|[?|?]]]; [|unfold CAP_UNFINISHED, CAP_POSITION in *; lia|unfold CAP_UNFINISHED in *; lia].
    split; [done|]. right. right. lia. }
  assert (forall e k, pmatch (caps_of ms) s p e k <-> pmatch (caps_of ms1) s (p + 1) e k) as Hiff.
  { intros e k. rewrite E1. split; [intros Hpm; inversion Hpm; subst; try congruence|by apply pm_close].
    match goal with H : innermost _ _ _ |- _ => destruct (innermost_unique _ _ _ _ _ Hin H) as [-> E2] end. unfold c'. by rewrite E2. }
  eapply lsafe_bind; [by apply Hm|]. intros [[e|] ms'] [Hg Hr]; cbn [fst snd].
  - apply lsafe_ret. by apply (right_via ms ms1 s p s (p + 1)).
  - destruct Hg as (E2 & E3 & _). cbn [snd] in *.
    destruct (lookup_lt_is_Some_2 (capture ms') l) as [c2 Hc2]; [lia|]. rewrite (lbind_lift _ c2 _ Hc2).
    apply lsafe_ret. intros e k Hpm%Hiff. by apply (Hr e k).
Qed.

Lemma frontier_right ms s p : ms_ok src s ms -> s <= slen -> p0 <= p + 2 -> p + 2 <= plen -> head_of p = Some HFrontier ->
  lsafe (match_frontier src pat m ms s (p + 2)) (right (caps_of ms) s p).
Proof.
  intros Hok Hs Hp Hpl Hh. unfold match_frontier. destruct (pch_total pat (p + 2)) as [c Hc]; [lia|]. rewrite (lbind_lift _ c _ Hc).
  destruct (Z.eqb_spec c CH_LBRACKET) as [->|]; [|done]. cbn [negb].
  pose proof (classend_safe pat (p + 2) _ Hc ltac:(done)) as Hce. destruct (classend pat (p + 2)) as [[ep|msg]|] eqn:Ece; [|done|done].
  cbn [lbind]. destruct Hce as ([Hep Hepl] & _ & Hbr). specialize (Hbr eq_refl).
  assert (exists prev, (if s =? 0 then lret 0%Z else llift (sch src (s - 1))) = Some (Return prev) /\
    (if s =? 0 then prev = 0%Z else sch src (s - 1) = Some prev)) as (prev & Hprev & Hprev').
  { destruct (Nat.eqb_spec s 0); [by exists 0%Z|]. destruct (sch_total src (s - 1)) as [q Hq]; [lia|]. exists q. by rewrite Hq. }
  rewrite Hprev. cbn [lbind].
  destruct (matchbracketclass_total pat prev (p + 2) (ep - 1)) as [b1 Hb1]; [lia..|]. rewrite (lbind_lift _ b1 _ Hb1).
  destruct (sch_total src s) as [q Hq]; [lia|]. rewrite (lbind_lift _ q _ Hq).
  destruct (matchbracketclass_total pat q (p + 2) (ep - 1)) as [b2 Hb2]; [lia..|]. rewrite (lbind_lift _ b2 _ Hb2).
  assert (forall e k, pmatch (caps_of ms) s p e k <-> (b1 = false /\ b2 = true) /\ pmatch (caps_of ms) s ep e k) as Hiff.
  { intros e k. split.
    - intros Hpm; inversion Hpm; subst; try congruence.
      match goal with H : classend pat (p + 2) = Some (Return ?x) |- _ => assert (x = ep) as -> by congruence end.
      match goal with H : frontier_at _ _ _ |- _ => destruct H as (u & v & Hu & Hv & Hf & Ht) end.
      assert (u = prev) as -> by (destruct (s =? 0); congruence). assert (v = q) as -> by congruence. split; [split; congruence|done].
    - intros [[-> ->] Hpm]. eapply pm_frontier; eauto. by exists prev, q. }
  destruct b1; [apply lsafe_ret; intros e k Hpm%Hiff; naive_solver|].
  destruct b2; [|apply lsafe_ret; intros e k Hpm%Hiff; naive_solver].
  eapply lsafe_mono; [apply Hm; [done|done|lia]|]. intros r [_ Hr]. apply (right_via ms ms s p s ep); [|done].
  intros e k. rewrite Hiff. naive_solver.
Qed.

Hypothesis src_short : (Z.of_nat slen < 2 ^ 63)%Z.

Lemma backref_right ms s p d : ms_ok src s ms -> s <= slen -> p0 < p + 2 <= plen -> head_of p = Some (HBackref d) ->
  lsafe (let* r := match_capture src ms s d in if r is Some s then m ms s (p + 2) else lret (None, ms)) (right (caps_of ms) s p).
Proof.
  intros Hok Hs Hp Hh. unfold match_capture, check_capture.
  destruct (((d - 49 <? 0) || (Z.of_nat (level ms) <=? d - 49))%Z) eqn:E; [done|].
  destruct (capture_lookup src s ms (Z.to_nat (d - 49)) Hok) as (c & Hc & Hcok); [lia|]. rewrite (lbind_lift _ c _ Hc).
  destruct (Z.eqb_spec (snd c) CAP_UNFINISHED) as [|Hfin]; [done|]. cbn [lbind lret]. rewrite (lbind_lift _ c _ Hc).
  assert (caps_of ms !! Z.to_nat (d - 49) = Some c) as Hcl by (unfold caps_of; rewrite lookup_take_lt by lia; done).
  set (len := Z.to_nat (u64 (snd c))).
  assert (forall e k, pmatch (caps_of ms) s p e k <->
    ((u64 (snd c) <= Z.of_nat (src_end src - s))%Z /\ slice (fst c) len src = slice s len src) /\ pmatch (caps_of ms) (s + len) (p + 2) e k) as Hiff.
  { intros e k. unfold src_end. split.
    - intros Hpm; inversion Hpm; subst; try congruence. assert (d0 = d) as -> by congruence.
      match goal with H : caps_of ms !! _ = Some (?i, Z.of_nat ?n) |- _ => assert (c = (i, Z.of_nat n)) as -> by congruence; rename n into n' end.
      cbn [fst snd] in *. assert (u64 (Z.of_nat n') = Z.of_nat n') as Eu by (apply uwrap_small; lia).
      unfold len. rewrite Eu, Nat2Z.id. split; [split; [lia|done]|done].
    - intros [[Hle Hsl] Hpm]. destruct Hcok as [Hc1 [[? _]|[Hpos|[Hn1 Hn2]]]]; [congruence| |].
      + exfalso. rewrite Hpos in Hle. change (u64 CAP_POSITION) with (2 ^ 64 - 2)%Z in Hle. lia.
      + assert (u64 (snd c) = snd c) as Eu by (apply uwrap_small; lia). unfold len in *. rewrite Eu in *.
        eapply (pm_backref _ s p e k d (fst c) (Z.to_nat (snd c))); eauto; [lia| |lia].
        rewrite Hcl. destruct c; cbn [fst snd] in *. by rewrite Z2Nat.id by lia. }
  destruct (Z.leb_spec (u64 (snd c)) (Z.of_nat (src_end src - s))) as [Hle|Hgt];
    [|apply lsafe_ret; intros e k Hpm%Hiff; destruct Hpm as [[? ?] ?]; lia].
  case_bool_decide as Hsl; [|apply lsafe_ret; intros e k Hpm%Hiff; destruct Hpm as [[? ?] ?]; done].
  cbn [lbind lret]. fold len. assert (s + len <= slen) as Hlen by (unfold len, src_end in *; pose proof (uwrap_range 64 (snd c)); lia).
  eapply lsafe_mono; [apply Hm; [by apply (ms_ok_mono src s); [lia|]|done|done]|]. intros r [_ Hr].
  apply (right_via ms ms s p (s + len) (p + 2)); [|done]. intros e k. rewrite Hiff. naive_solver.
Qed.

Lemma balance_right ms s p : ms_ok src s ms -> s <= slen -> p0 < p + 2 <= plen -> head_of p = Some HBalance ->
  lsafe (let* r := matchbalance src pat s (p + 2) in if r is Some s then m ms s (p + 4) else lret (None, ms)) (right (caps_of ms) s p).
Proof.
  intros Hok Hs Hp Hh. pose proof (matchbalance_safe src pat s (p + 2)) as Hb. specialize (Hb Hs ltac:(lia)).
  destruct (matchbalance src pat s (p + 2)) as [[[s'|]|msg]|] eqn:Eb; [| |done|done]; cbn [lbind lsafe] in *.
  - destruct Hb as [Hp2 Hse]. specialize (Hse s' eq_refl).
    eapply lsafe_mono; [apply Hm; [by apply (ms_ok_mono src s); [lia|]|lia|lia]|]. intros r [_ Hr].
    apply (right_via ms ms s p s' (p + 4)); [|done]. intros e k. split; [|by apply pm_balance].
    intros Hpm; inversion Hpm; subst; try congruence.
  - intros e k Hpm; inversion Hpm; subst; congruence.
Qed.
End Rec.

Hypothesis src_short : (Z.of_nat slen < 2 ^ 63)%Z.

Lemma match_right fuel ms s p : ms_ok src s ms -> s <= slen -> p <= plen -> plen < fuel + p ->
  lsafe (match_ src pat fuel ms s p) (right (caps_of ms) s p).
Proof.
  revert ms s p. induction fuel as [|fuel IH]; intros ms s p Hok Hs Hp Hf; [lia|]. cbn [match_].
  assert (Hm : forall ms s p', ms_ok src s ms -> s <= slen -> p < p' <= plen ->
    lsafe (match_ src pat fuel ms s p') (fun r => match_good src s ms r /\ right (caps_of ms) s p' r)).
  { intros. apply lsafe_both; [apply match_safe|apply IH]; auto; lia. }
  destruct (pch_total pat p) as [c Hc]; [lia|]. rewrite (lbind_lift _ c _ Hc).
  assert (c <> 0%Z -> p < plen) as Hlt by (by apply pch_nonzero).
  pose proof (fun h => match_default_right (match_ src pat fuel) p Hm ms s c Hok Hs h Hc) as Hdef.
  assert (forall c1, pch pat (p + 1) = Some c1 -> c1 <> 0%Z -> p + 2 <= plen) as Hlt1 by (intros c1 H1 H2; pose proof (pch_nonzero _ _ _ H1 H2); lia).
  assert (head_of p = match pch pat p with Some _ => head_of p | None => None end) as Hh by (by rewrite Hc).
  unfold head_of in Hh. rewrite Hc in Hh. cbn [mbind option_bind] in Hh. fold (head_of p) in Hh.
  destruct (Z.eqb_spec c 40) as [->|]; [specialize (Hlt ltac:(done))|].
  { destruct (pch_total pat (p + 1)) as [c1 Hc1]; [lia|]. rewrite (lbind_lift _ c1 _ Hc1).
    assert (head_of p = Some (if (c1 =? 41)%Z then HPosition else HOpen)) as Hhd.
    { unfold head_of. rewrite Hc. cbn. by rewrite Hc1. }
    destruct (Z.eqb_spec c1 41) as [->|].
    - specialize (Hlt1 _ Hc1 ltac:(done)).
      apply (start_capture_right _ p Hm ms s p (p + 2) _ HPosition); [done|done|lia|done|left; auto].
    - apply (start_capture_right _ p Hm ms s p (p + 1) _ HOpen); [done|done|lia|done|right; auto]. }
  destruct (Z.eqb_spec c 41) as [->|].
  { specialize (Hlt ltac:(done)). eapply end_capture_right; eauto; [lia|]. unfold head_of. by rewrite Hc. }
  destruct (Z.eqb_spec c L_ESC) as [->|].
  { specialize (Hlt ltac:(done)). destruct (pch_total pat (p + 1)) as [c1 Hc1]; [lia|]. rewrite (lbind_lift _ c1 _ Hc1).
    assert (head_of p = Some (if (c1 =? 98)%Z then HBalance else if (c1 =? 102)%Z then HFrontier
          else if isdigit c1 then HBackref c1 else HItem)) as Hhd by (unfold head_of; rewrite Hc; cbn; by rewrite Hc1).
    destruct (Z.eqb_spec c1 98) as [->|]; [specialize (Hlt1 _ Hc1 ltac:(done)); eapply balance_right; eauto; lia|].
    destruct (Z.eqb_spec c1 102) as [->|]; [specialize (Hlt1 _ Hc1 ltac:(done)); eapply frontier_right; eauto; lia|].
    destruct (isdigit c1) eqn:Ed; [|by apply Hdef].
    assert (c1 <> 0%Z) by (unfold isdigit in Ed; lia). specialize (Hlt1 _ Hc1 ltac:(done)). eapply backref_right; eauto. lia. }
  destruct (Z.eqb_spec c 0) as [->|].
  { apply lsafe_ret. apply pm_end. unfold head_of. by rewrite Hc. }
  destruct (Z.eqb_spec c 36) as [->|].
  - specialize (Hlt ltac:(done)). destruct (pch_total pat (p + 1)) as [c1 Hc1]; [lia|]. rewrite (lbind_lift _ c1 _ Hc1).
    assert (head_of p = Some (if (c1 =? 0)%Z then HDollar else HItem)) as Hhd by (unfold head_of; rewrite Hc; cbn; by rewrite Hc1).
    destruct (Z.eqb_spec c1 0); [|by apply Hdef]. apply lsafe_ret. unfold src_end. destruct (Nat.eqb_spec s slen) as [->|].
    + by apply pm_dollar.
    + intros e' k' Hpm. inversion Hpm; subst; congruence.
  - apply Hdef; [by apply Hlt|done|]. unfold head_of. rewrite Hc. cbn [mbind option_bind].
    by rewrite !(proj2 (Z.eqb_neq _ _)) by done.
Qed.
End Spec.

(** C16. Matching always comes to an end, without a read outside the subject or the
    pattern: it raises an error, or it returns an end between the place it started
    from and the end of the subject with well-formed captures, or it fails and
    leaves the captures that were set before as they were. *)
Theorem match_stays_inside (src pat : bytes) (ms : MatchState) (s p : nat) :
  ms_ok src s ms -> s <= length src -> p <= length pat ->
  match do_match src pat ms s p with
  | None => False
  | Some (Error _) => True
  | Some (Return (Some e, ms')) => s <= e <= length src /\ ms_ok src e ms'
  | Some (Return (None, ms')) => ms_same ms ms'
  end.
Proof.
  intros Hok Hs Hp. pose proof (match_safe src pat (S (length pat)) ms s p Hok Hs Hp ltac:(lia)) as H.
  unfold do_match. by destruct (match_ _ _ _ _ _ _) as [[[[e|] ms']|msg]|].
Qed.

(** C15. The backtracking search is sound and complete: an end it returns is one the
    pattern allows, with the captures that go with it, and when it fails the
    pattern matches nowhere from there. *)
Theorem match_sound_complete (src pat : bytes) (ms : MatchState) (s p : nat) :
  (Z.of_nat (length src) < 2 ^ 63)%Z -> ms_ok src s ms -> s <= length src -> p <= length pat ->
  match do_match src pat ms s p with
  | Some (Return (Some e, ms')) => pmatch src pat (caps_of ms) s p e (caps_of ms')
  | Some (Return (None, _)) => forall e caps', ~ pmatch src pat (caps_of ms) s p e caps'
  | _ => True
  end.
Proof.
  intros Hl Hok Hs Hp. pose proof (match_right src pat Hl (S (length pat)) ms s p Hok Hs Hp ltac:(lia)) as H.
  unfold do_match. by destruct (match_ _ _ _ _ _ _) as [[[[e|] ms']|msg]|].
Qed.

(** ** Witnesses *)
Definition setting : bytes := bytes_of_string "key = value".
Definition setting_pattern : bytes := bytes_of_string "(%w+)%s*=%s*(%w+)".
Definition setting_caps : list (nat * Z) := [(0, 3%Z); (6, 5%Z)].

Lemma ms_init_ok src s : ms_ok src s ms_init.
Proof. split; [reflexivity|]. split; [apply Nat.le_0_l|constructor]. Qed.

Lemma match_stays_inside_witness :
  exists ms', do_match setting setting_pattern ms_init 0 0 = Some (Return (Some 11, ms')) /\ 0 <= 11 <= length setting.
Proof.
  pose proof (match_stays_inside setting setting_pattern ms_init 0 0 (ms_init_ok _ _) (Nat.le_0_l _) (Nat.le_0_l _)) as H.
  eexists. split; [vm_compute; reflexivity|]. vm_compute in H. vm_compute. exact (proj1 H).
Defined.

Lemma match_sound_complete_witness :
  pmatch setting setting_pattern [] 0 0 11 setting_caps.
Proof.
  pose proof (match_sound_complete setting setting_pattern ms_init 0 0 ltac:(vm_compute; reflexivity) (ms_init_ok _ _)
    (Nat.le_0_l _) (Nat.le_0_l _)) as H.
  assert (exists ms', do_match setting setting_pattern ms_init 0 0 = Some (Return (Some 11, ms')) /\ caps_of ms' = setting_caps)
    as (ms' & E1 & E2) by (eexists; split; vm_compute; reflexivity).
  rewrite E1 in H. rewrite E2 in H. exact H.
Defined.
