(* ===== verification/LStrlib.v ===== *)
(** * The string library (src/lua/lstrlib.c)

    The functions over bytes and over the matcher of LPattern. [luaL_Buffer] is the
    list of the bytes added so far; integers are [lua_Integer]s (ptrdiff_t). *)
From stdpp Require Import base list option.
From Stdlib Require Import ZArith Lia ZifyBool.
From S2P Require Import Prelude LPattern LPatternSpec.
Local Open Scope Z_scope.

(** ** Plain functions *)
Definition str_len (s : bytes) : Z := Z.of_nat (length s).

Definition posrelat (pos len : Z) : Z :=
  let pos := if pos <? 0 then pos + len + 1 else pos in
  if 0 <=? pos then pos else 0.

(** [j] is absent for the default -1. *)
Definition str_sub (s : bytes) (i : Z) (j : option Z) : bytes :=
  let l := str_len s in
  let start := posrelat i l in
  let end_ := posrelat (default (-1) j) l in
  let start := if start <? 1 then 1 else start in
  let end_ := if l <? end_ then l else end_ in
  if start <=? end_ then slice (Z.to_nat (start - 1)) (Z.to_nat (end_ - start + 1)) s else [].

(** [while (l--) luaL_addchar(&b, s[l])] *)
Fixpoint reverse_loop (l : nat) (s b : bytes) : option bytes :=
  match l with O => Some b | S l => c ← s !! l; reverse_loop l s (b ++ [c]) end.
Definition str_reverse (s : bytes) : option bytes := reverse_loop (length s) s [].

Definition str_lower (s : bytes) : option bytes :=
  loopM (length s) (fun i b => c ← s !! i; Some (b ++ [tolower c])) [].
Definition str_upper (s : bytes) : option bytes :=
  loopM (length s) (fun i b => c ← s !! i; Some (b ++ [toupper c])) [].

(** [while (n-- > 0)] *)
Definition str_rep (s : bytes) (n : Z) : bytes := loop (Z.to_nat n) (fun _ b => b ++ s) [].

Definition str_byte (s : bytes) (i j : option Z) : LuaM (list Z) :=
  let l := str_len s in
  let posi := posrelat (default 1 i) l in
  let pose := posrelat (default posi j) l in
  let posi := if posi <=? 0 then 1 else posi in
  let pose := if l <? pose then l else pose in
  if pose <? posi then lret []
  else
    let n := i32 (pose - posi + 1) in
    if posi + n <=? pose then lerror "string slice too long"
    else llift (loopM (Z.to_nat n) (fun i b => c ← s !! Z.to_nat (posi + Z.of_nat i - 1); Some (b ++ [c])) []).

Definition str_char (cs : list Z) : LuaM bytes :=
  foldl (fun b c => let* b := b in if u8 c =? c then lret (b ++ [u8 c]) else lerror "invalid value") (lret []) cs.

(** ** Plain search *)
Definition memchr (s : bytes) (off n : nat) (c : Z) : option nat :=
  '(i, _) ← list_find (fun x => x = c) (slice off n s); Some (off + i)%nat.

(** [s1] is at [off] in [s], with [l1] places left; [s2] is [c :: rest]. *)
Fixpoint memfind_loop (fuel : nat) (s : bytes) (off l1 : nat) (c : Z) (rest : bytes) : option (option nat) :=
  match fuel with
  | O => None
  | S fuel =>
      if (0 <? l1)%nat then
        match memchr s off l1 c with
        | None => Some None
        | Some init =>
            let init := S init in
            if bool_decide (slice init (length rest) s = rest) then Some (Some (init - 1)%nat)
            else memfind_loop fuel s init (l1 - (init - off)) c rest
        end
      else Some None
  end.

Definition lmemfind (s : bytes) (off : nat) (s2 : bytes) : option (option nat) :=
  let l1 := (length s - off)%nat in
  match s2 with
  | [] => Some (Some off)
  | c :: rest => if (l1 <? length s2)%nat then Some None else memfind_loop (S l1) s off (l1 - length rest) c rest
  end.

(** ** Captures as Lua values *)
Inductive capture_value := CapString (s : bytes) | CapPosition (n : Z).

Section Captures.
Variable src : bytes.

(** [se] is the whole match, or NULL. *)
Definition push_onecapture (ms : MatchState) (i : nat) (se : option (nat * nat)) : LuaM capture_value :=
  if (level ms <=? i)%nat then
    if (i =? 0)%nat then
      match se with Some (s, e) => lret (CapString (slice s (e - s) src)) | None => None end
    else lerror "invalid capture index"
  else
    let* c := llift (capture ms !! i) in
    if snd c =? CAP_UNFINISHED then lerror "unfinished capture"
    else if snd c =? CAP_POSITION then lret (CapPosition (Z.of_nat (fst c) + 1))
    else lret (CapString (slice (fst c) (Z.to_nat (snd c)) src)).

Fixpoint push_loop (ms : MatchState) (se : option (nat * nat)) (i n : nat) : LuaM (list capture_value) :=
  match n with
  | O => lret []
  | S n => let* v := push_onecapture ms i se in let* vs := push_loop ms se (S i) n in lret (v :: vs)
  end.

Definition push_captures (ms : MatchState) (se : option (nat * nat)) : LuaM (list capture_value) :=
  let nlevels := if (level ms =? 0)%nat && bool_decide (is_Some se) then 1%nat else level ms in
  push_loop ms se 0 nlevels.
End Captures.

(** ** find, match and gmatch *)
Definition SPECIALS : bytes := [94; 36; 42; 43; 63; 46; 40; 91; 37; 45].

(** [strpbrk(p, SPECIALS) == NULL]: none before the first NUL. *)
Definition no_specials (p : bytes) : bool := forallb (fun c => negb (bool_decide (c ∈ SPECIALS))) (cstr p).

Inductive find_result := NotFound | FoundPlain (s e : Z) | Found (s e : Z) (caps : list capture_value) | Matched (caps : list capture_value).

(** The do-while over the starting points [s1]; [ms.level = 0] before every try. *)
Fixpoint find_loop (fuel : nat) (src p : bytes) (find anchor : bool) (p0 : nat) (ms : MatchState) (s1 : nat) : LuaM find_result :=
  match fuel with
  | O => None
  | S fuel =>
      let* r := do_match src p (Ms 0 (capture ms)) s1 p0 in
      match fst r with
      | Some e =>
          if find then
            let* caps := push_captures src (snd r) None in
            lret (Found (Z.of_nat s1 + 1) (Z.of_nat e) caps)
          else let* caps := push_captures src (snd r) (Some (s1, e)) in lret (Matched caps)
      | None =>
          if (s1 <? length src)%nat && negb anchor then find_loop fuel src p find anchor p0 (snd r) (S s1)
          else lret NotFound
      end
  end.

(** [p]: does the pattern begin with the anchor. *)
Definition has_anchor (p : bytes) : bool := match p with c :: _ => c =? CH_CARET | [] => false end.

Definition str_find_aux (find : bool) (s p : bytes) (init : option Z) (plain : bool) : LuaM find_result :=
  let l1 := str_len s in
  let init := posrelat (default 1 init) l1 - 1 in
  let init := if init <? 0 then 0 else if l1 <? init then l1 else init in
  if find && (plain || no_specials p) then
    match lmemfind s (Z.to_nat init) p with
    | None => None
    | Some (Some s2) => lret (FoundPlain (Z.of_nat s2 + 1) (Z.of_nat s2 + str_len p))
    | Some None => lret NotFound
    end
  else
    let anchor := has_anchor p in
    find_loop (S (length s)) s p find anchor (if anchor then 1 else 0) ms_init (Z.to_nat init).

Definition str_find := str_find_aux true.
Definition str_match := str_find_aux false.

(** [gmatch_aux]: from the position kept in the closure, the new position and the captures. *)
Fixpoint gmatch_loop (fuel : nat) (s p : bytes) (ms : MatchState) (src : nat) : LuaM (option (Z * list capture_value)) :=
  match fuel with
  | O => None
  | S fuel =>
      if (src <=? length s)%nat then
        let* r := do_match s p (Ms 0 (capture ms)) src 0 in
        match fst r with
        | Some e =>
            let newstart := Z.of_nat e in
            let newstart := if (e =? src)%nat then newstart + 1 else newstart in
            let* caps := push_captures s (snd r) (Some (src, e)) in
            lret (Some (newstart, caps))
        | None => gmatch_loop fuel s p (snd r) (S src)
        end
      else lret None
  end.
Definition gmatch_aux (s p : bytes) (pos : Z) : LuaM (option (Z * list capture_value)) :=
  gmatch_loop (S (S (length s))) s p ms_init (Z.to_nat pos).

(** ** gsub *)

(** The text of a capture value when it is added to a buffer ([lua_tolstring]);
    [itoa] writes a position as [lua_pushinteger] followed by [tostring] does. *)
Section Gsub.
Variable itoa : Z -> bytes.
Definition capture_text (v : capture_value) : bytes := match v with CapString s => s | CapPosition n => itoa n end.

(** The third argument: a string (or number), or a function or table, called with the
    captures; [None] is its false or nil, an error that it is no string. *)
Inductive replacement := ReplString (news : bytes) | ReplFunction (f : list capture_value -> LuaM (option bytes))
  | ReplTable (t : capture_value -> LuaM (option bytes)).

(** [news[i]], with the NUL after it. *)
Definition nch (news : bytes) (i : nat) : option Z := if (i =? length news)%nat then Some 0 else news !! i.

(** [for (i = 0; i < l; i++)] *)
Fixpoint add_s_loop (fuel : nat) (src news : bytes) (ms : MatchState) (s e i : nat) (b : bytes) : LuaM bytes :=
  match fuel with
  | O => None
  | S fuel =>
      if (i <? length news)%nat then
        let* c := llift (nch news i) in
        if negb (c =? L_ESC) then add_s_loop fuel src news ms s e (S i) (b ++ [c])
        else
          let i := S i in
          let* c := llift (nch news i) in
          if negb (isdigit c) then add_s_loop fuel src news ms s e (S i) (b ++ [c])
          else if c =? 48 then add_s_loop fuel src news ms s e (S i) (b ++ slice s (e - s) src)
          else
            let* v := push_onecapture src ms (Z.to_nat (c - 49)) (Some (s, e)) in
            add_s_loop fuel src news ms s e (S i) (b ++ capture_text v)
      else lret b
  end.

Definition add_s (src news : bytes) (ms : MatchState) (s e : nat) (b : bytes) : LuaM bytes :=
  add_s_loop (S (length news)) src news ms s e 0 b.

Definition add_value (src : bytes) (repl : replacement) (ms : MatchState) (s e : nat) (b : bytes) : LuaM bytes :=
  let add (r : option bytes) := lret (b ++ match r with Some t => t | None => slice s (e - s) src end) in
  match repl with
  | ReplString news => add_s src news ms s e b
  | ReplFunction f => let* caps := push_captures src ms (Some (s, e)) in let* r := f caps in add r
  | ReplTable t => let* v := push_onecapture src ms 0 (Some (s, e)) in let* r := t v in add r
  end.

(** [while (n < max_s)]; the loop leaves the place it has come to. *)
Fixpoint gsub_loop (fuel : nat) (src p : bytes) (repl : replacement) (anchor : bool) (max_s : Z) (ms : MatchState)
    (s : nat) (n : Z) (b : bytes) : LuaM (nat * Z * bytes) :=
  match fuel with
  | O => None
  | S fuel =>
      if n <? max_s then
        let* r := do_match src p (Ms 0 (capture ms)) s (if anchor then 1 else 0)%nat in
        let* nb := match fst r with
                   | Some e => let* b := add_value src repl (snd r) s e b in lret (n + 1, b)
                   | None => lret (n, b)
                   end in
        let '(n, b) := nb in
        match (if fst r is Some e then if (s <? e)%nat then Some e else None else None) with
        | Some e => if anchor then lret (e, n, b) else gsub_loop fuel src p repl anchor max_s (snd r) e n b
        | None =>
            if (s <? length src)%nat then
              let* c := llift (src !! s) in
              if anchor then lret (S s, n, b ++ [c]) else gsub_loop fuel src p repl anchor max_s (snd r) (S s) n (b ++ [c])
            else lret (s, n, b)
        end
      else lret (s, n, b)
  end.

(** [max_s] is absent for the default; the result is the new string and the count. *)
Definition str_gsub (src p : bytes) (repl : replacement) (max_s : option Z) : LuaM (bytes * Z) :=
  let max_s := default (i32 (str_len src + 1)) max_s in
  let* r := gsub_loop (S (S (length src))) src p repl (has_anchor p) max_s ms_init 0 0 [] in
  let '(s, n, b) := r in
  lret (b ++ drop s src, n).
End Gsub.

(** ** Quoting *)

(** [addquoted]: one character of a string in the format %q. *)
Definition quote_char (c : Z) : bytes :=
  if (c =? 34) || (c =? 92) || (c =? 10) then [92; c]
  else if c =? 13 then [92; 114]
  else if c =? 0 then [92; 48; 48; 48]
  else [c].
Definition addquoted (b s : bytes) : bytes := foldl (fun b c => b ++ quote_char c) (b ++ [34]) s ++ [34].

(** ** Plain search finds the first occurrence *)
Definition occurs (s2 s : bytes) (i : nat) : Prop := slice i (length s2) s = s2.

Lemma occurs_cons c rest s i : occurs (c :: rest) s i <-> s !! i = Some c /\ occurs rest s (S i).
Proof.
  unfold occurs, slice. cbn [length]. destruct (s !! i) as [x|] eqn:E.
  - rewrite (drop_S s x i) by done. cbn [take]. split; [intros H; injection H; naive_solver|intros [H ->]; congruence].
  - rewrite drop_ge by (by apply lookup_ge_None). split; [done|intros [? _]; done].
Qed.

Lemma occurs_bound (s2 s : bytes) i : (i <= length s)%nat -> occurs s2 s i -> (i + length s2 <= length s)%nat.
Proof. intros Hi H. apply (f_equal length) in H. unfold slice in H. rewrite length_take, length_drop in H. lia. Qed.

Lemma memchr_spec s off n c : (off + n <= length s)%nat ->
  match memchr s off n c with
  | Some k => (off <= k < off + n)%nat /\ s !! k = Some c /\ forall j, (off <= j < k)%nat -> s !! j <> Some c
  | None => forall j, (off <= j < off + n)%nat -> s !! j <> Some c
  end.
Proof.
  intros Hn. unfold memchr. destruct (list_find _ _) as [[i x]|] eqn:E; cbn [mbind option_bind].
  - apply list_find_Some in E as (Hi & -> & Hlt). pose proof (lookup_lt_Some _ _ _ Hi) as Hi'. rewrite length_slice in Hi' by lia.
    rewrite lookup_slice in Hi by done. split; [lia|]. split; [done|]. intros j Hj Hc.
    apply (Hlt (j - off)%nat c); [|lia|done]. rewrite lookup_slice by lia. by replace (off + (j - off))%nat with j by lia.
  - intros j Hj Hc. apply list_find_None in E. rewrite Forall_forall in E. apply (E c); [|done].
    apply list_elem_of_lookup. exists (j - off)%nat. rewrite lookup_slice by lia. by replace (off + (j - off))%nat with j by lia.
Qed.

Definition first_occurrence (s2 s : bytes) (off : nat) (r : option nat) : Prop :=
  match r with
  | Some i => (off <= i)%nat /\ (i + length s2 <= length s)%nat /\ occurs s2 s i /\ forall j, (off <= j < i)%nat -> ~ occurs s2 s j
  | None => forall j, (off <= j <= length s)%nat -> ~ occurs s2 s j
  end.

Lemma memfind_loop_first fuel s off l1 c rest : (l1 < fuel)%nat -> (off + l1 + length rest = length s)%nat ->
  exists r, memfind_loop fuel s off l1 c rest = Some r /\ first_occurrence (c :: rest) s off r.
Proof.
  revert off l1. induction fuel as [|fuel IH]; intros off l1 Hf Hl; [lia|]. cbn [memfind_loop].
  assert (Hout : forall j, (off + l1 <= j <= length s)%nat -> ~ occurs (c :: rest) s j).
  { intros j Hj Ho. apply occurs_bound in Ho; [|lia]. simpl in Ho. lia. }
  destruct (Nat.ltb_spec 0 l1) as [Hpos|]; [|exists None; split; [done|intros j Hj; apply Hout; lia]].
  pose proof (memchr_spec s off l1 c) as Hm. destruct (memchr s off l1 c) as [k|].
  - destruct Hm as (Hk & Hc & Hmin); [lia|].
    assert (Hbefore : forall j, (off <= j < k)%nat -> ~ occurs (c :: rest) s j).
    { intros j Hj [? _]%occurs_cons. by apply (Hmin j). }
    case_bool_decide as Hr.
    + exists (Some k). split; [do 2 f_equal; lia|]. split; [lia|]. split; [simpl; lia|]. split; [by apply occurs_cons|done].
    + destruct (IH (S k) (l1 - (S k - off))%nat) as (r & -> & Hfirst); [lia|lia|]. exists r. split; [done|].
      assert (Hk' : forall j, (off <= j < S k)%nat -> ~ occurs (c :: rest) s j).
      { intros j Hj. destruct (decide (j = k)) as [->|]; [by intros [_ ?]%occurs_cons|apply Hbefore; lia]. }
      unfold first_occurrence in *. destruct r as [i|].
      * destruct Hfirst as (H1 & H2 & H3 & H4). split; [lia|]. split; [done|]. split; [done|].
        intros j Hj. destruct (decide (j < S k)%nat); [apply Hk'; lia|apply H4; lia].
      * intros j Hj. destruct (decide (j < S k)%nat); [apply Hk'; lia|apply Hfirst; lia].
  - exists None. split; [done|]. intros j Hj. destruct (decide (j < off + l1)%nat); [|apply Hout; lia].
    intros [? _]%occurs_cons. apply (Hm ltac:(lia) j); [lia|done].
Qed.

(** The plain search of [string.find] returns the first place at or after the start
    where the text occurs, and nothing exactly when it does not occur there. *)
Theorem lmemfind_first (s : bytes) (off : nat) (s2 : bytes) :
  (off <= length s)%nat -> exists r, lmemfind s off s2 = Some r /\ first_occurrence s2 s off r.
Proof.
  intros Hoff. unfold lmemfind. destruct s2 as [|c rest].
  - exists (Some off). split; [done|]. split; [lia|]. split; [simpl; lia|]. split; [apply take_0|]. intros j ?. lia.
  - destruct (Nat.ltb_spec (length s - off) (length (c :: rest))) as [Hlt|Hge].
    + exists None. split; [done|]. intros j Hj Ho. apply occurs_bound in Ho; [|lia]. lia.
    + simpl in Hge. apply memfind_loop_first; lia.
Qed.

(** ** Searching with a pattern *)
Section Find.
Variables src p : bytes.
Variable p0 : nat.
Hypothesis Hp0 : (p0 <= length p)%nat.
Hypothesis src_short : Z.of_nat (length src) < 2 ^ 63.

Lemma ms_reset_ok s s' ms : ms_ok src s ms -> ms_ok src s' (Ms 0 (capture ms)).
Proof. intros (H & _). split; [done|]. split; [simpl; lia|constructor]. Qed.

(** One try of the matcher, from no captures. *)
Lemma try_match ms s : length (capture ms) = LUA_MAXCAPTURES -> (s <= length src)%nat ->
  lsafe (do_match src p (Ms 0 (capture ms)) s p0) (fun r =>
    length (capture (snd r)) = LUA_MAXCAPTURES /\
    match fst r with
    | Some e => (s <= e <= length src)%nat /\ ms_ok src e (snd r) /\ pmatch src p [] s p0 e (caps_of (snd r))
    | None => forall e caps, ~ pmatch src p [] s p0 e caps
    end).
Proof.
  intros Hms Hs. set (ms0 := Ms 0 (capture ms)).
  assert (ms_ok src s ms0) as Hok by (split; [done|]; split; [simpl; lia|constructor]).
  pose proof (match_safe src p (S (length p)) ms0 s p0 Hok Hs Hp0 ltac:(lia)) as H1.
  pose proof (match_right src p src_short (S (length p)) ms0 s p0 Hok Hs Hp0 ltac:(lia)) as H2.
  unfold do_match. destruct (match_ _ _ _ _ _ _) as [[[[e|] ms']|msg]|]; cbn [lsafe] in *; [| |done|done].
  - destruct H1 as [H1 H3]. cbn [fst snd] in *. split; [apply H3|]. split; [done|]. split; [done|exact H2].
  - destruct H1 as (_ & H3 & _). split; [done|exact H2].
Qed.

(** The capture values of a match are pieces of the subject. *)
Definition capture_inside (v : capture_value) : Prop :=
  match v with
  | CapString t => exists i, (i + length t <= length src)%nat /\ t = slice i (length t) src
  | CapPosition n => 1 <= n <= str_len src + 1
  end.

Lemma push_onecapture_safe ms e i se : ms_ok src e ms ->
  (match se with Some (s', e') => (s' <= e' <= length src)%nat | None => (i < level ms)%nat \/ i <> 0%nat end) ->
  lsafe (push_onecapture src ms i se) capture_inside.
Proof.
  intros Hok Hse. unfold push_onecapture. destruct (Nat.leb_spec (level ms) i).
  - destruct (Nat.eqb_spec i 0) as [->|]; [|done]. destruct se as [[s' e']|]; [|lia]. apply lsafe_ret. exists s'.
    rewrite length_slice by lia. split; [lia|done].
  - destruct (capture_lookup src e ms i Hok) as (c & Hc & Hcap & Hcase); [done|]. rewrite (lbind_lift _ c _ Hc).
    destruct (Z.eqb_spec (snd c) CAP_UNFINISHED); [done|]. destruct (Z.eqb_spec (snd c) CAP_POSITION).
    + apply lsafe_ret. unfold capture_inside, str_len. lia.
    + apply lsafe_ret. destruct Hcase as [[? _]|[?|[Hn Hle]]]; [done|done|]. exists (fst c). rewrite length_slice by lia. split; [lia|done].
Qed.

Lemma push_loop_safe ms e se i n : ms_ok src e ms ->
  (match se with Some (s', e') => (s' <= e' <= length src)%nat | None => (i + n <= level ms)%nat end) ->
  lsafe (push_loop src ms se i n) (fun vs => length vs = n /\ Forall capture_inside vs).
Proof.
  revert i. induction n as [|n IH]; intros i Hok Hse; cbn [push_loop]; [apply lsafe_ret; split; [done|constructor]|].
  eapply lsafe_bind; [eapply (push_onecapture_safe ms e); [done|destruct se as [[]|]; [done|left; lia]]|].
  intros v Hv. eapply lsafe_bind; [apply (IH (S i)); [done|destruct se as [[]|]; [done|lia]]|].
  intros vs [Hl Hvs]. apply lsafe_ret. split; [simpl; lia|by constructor].
Qed.

Lemma push_captures_safe ms e se : ms_ok src e ms ->
  (match se with Some (s', e') => (s' <= e' <= length src)%nat | None => True end) ->
  lsafe (push_captures src ms se) (Forall capture_inside).
Proof.
  intros Hok Hse. unfold push_captures. eapply lsafe_mono; [eapply (push_loop_safe ms e)|by intros vs [_ ?]]; [done|].
  destruct se as [[s' e']|]; [done|]. rewrite bool_decide_eq_false_2 by (by intros [? ?]). rewrite andb_false_r. lia.
Qed.

(** The answer of a search that began at [s0]: the leftmost start with a match. *)
Definition leftmost (anchor : bool) (s0 : nat) (r : find_result) : Prop :=
  match r with
  | Found s e caps =>
      exists s1 e1 cs, s = Z.of_nat s1 + 1 /\ e = Z.of_nat e1 /\ (s0 <= s1 <= e1)%nat /\ (e1 <= length src)%nat /\
        pmatch src p [] s1 p0 e1 cs /\ (anchor = true -> s1 = s0) /\ Forall capture_inside caps /\
        forall s' e' cs', (s0 <= s' < s1)%nat -> ~ pmatch src p [] s' p0 e' cs'
  | NotFound => forall s' e' cs', (s0 <= s' <= length src)%nat -> (anchor = true -> s' = s0) -> ~ pmatch src p [] s' p0 e' cs'
  | _ => False
  end.

Lemma find_loop_leftmost fuel anchor ms s1 : length (capture ms) = LUA_MAXCAPTURES -> (s1 <= length src)%nat -> (length src < fuel + s1)%nat ->
  lsafe (find_loop fuel src p true anchor p0 ms s1) (leftmost anchor s1).
Proof.
  revert ms s1. induction fuel as [|fuel IH]; intros ms s1 Hms Hs Hf; [lia|]. cbn [find_loop].
  eapply lsafe_bind; [by apply try_match|]. intros [[e|] ms'] [Hms' Hr]; cbn [fst snd] in *.
  - destruct Hr as (He & Hok & Hp). eapply lsafe_bind; [by apply (push_captures_safe ms' e)|]. intros caps Hcaps.
    apply lsafe_ret. exists s1, e, (caps_of ms'). repeat (split; [done || lia|]). intros; lia.
  - destruct (Nat.ltb_spec s1 (length src)); [destruct anchor|]; cbn [andb negb].
    + apply lsafe_ret. intros s' e' cs' Hs' Ha. rewrite (Ha eq_refl). apply Hr.
    + eapply lsafe_mono; [apply (IH ms' (S s1)); [done|lia|lia]|]. intros [|s e|s e caps|caps]; unfold leftmost.
      * intros Hn s' e' cs' Hs' Ha. destruct (decide (s' = s1)) as [->|]; [apply Hr|apply Hn; [lia|done]].
      * done.
      * intros (s2 & e1 & cs & -> & -> & Hb & Hle & Hpm & _ & Hin & Hmin). exists s2, e1, cs.
        repeat (split; [done || lia|]). intros s' e' cs' Hs'. destruct (decide (s' = s1)) as [->|]; [apply Hr|apply Hmin; lia].
      * done.
    + apply lsafe_ret. intros s' e' cs' Hs' Ha. assert (s' = s1) as -> by lia. apply Hr.
Qed.
End Find.

(** [string.find] with a pattern comes to an end and returns the leftmost match
    at or after the start (only at the start for an anchored pattern), with captures
    that are pieces of the subject; nil exactly when there is no match. *)
Theorem str_find_leftmost (src p : bytes) (init : Z) :
  Z.of_nat (length src) < 2 ^ 63 -> 1 <= init <= str_len src + 1 -> no_specials p = false ->
  lsafe (str_find src p (Some init) false)
    (leftmost src p (if has_anchor p then 1 else 0)%nat (has_anchor p) (Z.to_nat (init - 1))).
Proof.
  intros Hs Hi Hp. unfold str_find, str_find_aux. rewrite Hp. cbn [andb orb default id]. unfold id.
  assert (posrelat init (str_len src) = init) as -> by (unfold posrelat; repeat case_match; lia).
  destruct (Z.ltb_spec (init - 1) 0); [lia|]. destruct (Z.ltb_spec (str_len src) (init - 1)); [lia|].
  assert ((if has_anchor p then 1 else 0) <= length p)%nat as Hp0 by (unfold has_anchor; destruct p; simpl; [lia|]; case_match; lia).
  apply find_loop_leftmost; [done|done|done|unfold str_len in *; lia|unfold str_len in *; lia].
Qed.

(** ** Substitution *)
Section GsubSafe.
Variables src p : bytes.
Variable itoa : Z -> bytes.
Variable repl : replacement.
Variable anchor : bool.
Hypothesis Hanchor : ((if anchor then 1 else 0) <= length p)%nat.
Hypothesis src_short : Z.of_nat (length src) < 2 ^ 63.
(** What is known of the buffer when the loop has come to [s]. *)
Variable P : nat -> bytes -> Prop.
Hypothesis P_add : forall ms s e b, ms_ok src e ms -> (s <= e <= length src)%nat -> P s b ->
  lsafe (add_value itoa src repl ms s e b) (P e).
Hypothesis P_char : forall s b c, src !! s = Some c -> P s b -> P (S s) (b ++ [c]).

Lemma gsub_loop_safe fuel max_s ms s n b : length (capture ms) = LUA_MAXCAPTURES -> (s <= length src)%nat ->
  (length src < fuel + s)%nat -> P s b -> 0 <= n <= Z.of_nat s ->
  lsafe (gsub_loop itoa fuel src p repl anchor max_s ms s n b)
    (fun r => let '(s', n', b') := r in (s' <= length src)%nat /\ P s' b' /\ 0 <= n' <= str_len src + 1).
Proof.
  revert ms s n b. induction fuel as [|fuel IH]; intros ms s n b Hms Hs Hf HP Hn; [lia|]. cbn [gsub_loop].
  unfold str_len. destruct (n <? max_s); [|apply lsafe_ret; split; [done|]; split; [done|lia]].
  eapply lsafe_bind; [by apply (try_match src p _ Hanchor src_short)|]. intros [oe ms'] [Hms' Hr]; cbn [fst snd] in *.
  eapply (lsafe_bind (fun nb => P (default s oe) (snd nb) /\ 0 <= fst nb <= Z.of_nat s + 1)).
  { destruct oe as [e|]; [|apply lsafe_ret; split; [done|simpl; lia]]. destruct Hr as (He & Hok & _).
    eapply lsafe_bind; [by apply P_add|]. intros b' Hb'. apply lsafe_ret. split; [done|simpl; lia]. }
  intros [n' b'] [HP' Hn']. cbn [fst snd] in *.
  assert (Hchar : P s b' -> lsafe
    (if (s <? length src)%nat then
       let* c := llift (src !! s) in
       if anchor then lret (S s, n', b' ++ [c]) else gsub_loop itoa fuel src p repl anchor max_s ms' (S s) n' (b' ++ [c])
     else lret (s, n', b'))
    (fun r => let '(s', n', b') := r in (s' <= length src)%nat /\ P s' b' /\ 0 <= n' <= Z.of_nat (length src) + 1)).
  { intros HPs. destruct (Nat.ltb_spec s (length src)); [|apply lsafe_ret; split; [done|]; split; [done|lia]].
    destruct (lookup_lt_is_Some_2 src s) as [c Hc]; [done|]. rewrite (lbind_lift _ c _ Hc).
    pose proof (P_char s b' c Hc HPs). destruct anchor; [apply lsafe_ret; split; [lia|]; split; [done|lia]|].
    apply IH; [done|lia|lia|done|lia]. }
  destruct oe as [e|]; [|by apply Hchar]. destruct Hr as (He & _).
  destruct (Nat.ltb_spec s e).
  - destruct anchor; [apply lsafe_ret; split; [lia|]; split; [done|lia]|]. apply IH; [done|lia|lia|done|lia].
  - assert (e = s) as -> by lia. by apply Hchar.
Qed.
End GsubSafe.

(** Replacing every match by the match itself (the replacement %0) gives the
    subject back, whatever the pattern; the count is at most one more than the
    length, and the loop always comes to its end. *)
Theorem gsub_identity (itoa : Z -> bytes) (src p : bytes) (max_s : option Z) :
  Z.of_nat (length src) < 2 ^ 63 ->
  lsafe (str_gsub itoa src p (ReplString [37; 48]) max_s) (fun r => fst r = src /\ 0 <= snd r <= str_len src + 1).
Proof.
  intros Hs. unfold str_gsub. eapply lsafe_bind.
  - apply (gsub_loop_safe src p itoa (ReplString [37; 48]) (has_anchor p)) with (P := fun s b => b = take s src); [|done| | |done|lia|lia|done|lia].
    + unfold has_anchor. destruct p; simpl; [lia|]. case_match; lia.
    + intros ms s e b Hok He ->. change (lsafe (lret (take s src ++ slice s (e - s) src)) (fun b => b = take e src)).
      apply lsafe_ret. unfold slice. rewrite take_take_drop. f_equal. lia.
    + intros s b c Hc ->. by rewrite <- (take_S_r _ _ c).
  - intros [[s n] b] (Hle & -> & Hn). apply lsafe_ret. cbn [fst snd]. by rewrite take_drop.
Qed.

(** ** Substrings *)
Lemma posrelat_pos pos len : 0 <= pos -> posrelat pos len = pos.
Proof. intros. unfold posrelat. repeat case_match; lia. Qed.

(** Cutting a string anywhere with [string.sub] and joining the pieces gives the
    string back, and negative positions count from the end. *)
Theorem str_sub_cuts (s : bytes) (n : Z) :
  0 <= n <= str_len s ->
  str_sub s 1 (Some n) ++ str_sub s (n + 1) None = s /\
  (0 < n -> str_sub s (- n) None = drop (Z.to_nat (str_len s - n)) s).
Proof.
  intros Hn. unfold str_sub. cbn [default id]. unfold id. unfold str_len in *.
  assert (posrelat (-1) (Z.of_nat (length s)) = Z.of_nat (length s)) as E1 by (unfold posrelat; repeat case_match; lia).
  rewrite E1. rewrite (proj2 (Z.ltb_ge _ _) (Z.le_refl (Z.of_nat (length s)))). split.
  - rewrite !posrelat_pos by lia. change (1 <? 1) with false. rewrite (proj2 (Z.ltb_ge (n + 1) 1)), (proj2 (Z.ltb_ge (Z.of_nat (length s)) n)) by lia.
    transitivity (take (Z.to_nat n) s ++ drop (Z.to_nat n) s); [|apply take_drop]. f_equal.
    + destruct (Z.leb_spec 1 n); [|replace n with 0 by lia; by rewrite take_0]. unfold slice. rewrite drop_0. f_equal. lia.
    + destruct (Z.leb_spec (n + 1) (Z.of_nat (length s))); [|by rewrite drop_ge by lia].
      unfold slice. replace (n + 1 - 1) with n by lia. rewrite take_ge; [done|]. rewrite length_drop. lia.
  - intros Hpos. assert (posrelat (- n) (Z.of_nat (length s)) = Z.of_nat (length s) - n + 1) as -> by (unfold posrelat; repeat case_match; lia).
    rewrite (proj2 (Z.ltb_ge _ 1)) by lia. rewrite (proj2 (Z.leb_le _ _)) by lia. unfold slice.
    replace (Z.of_nat (length s) - n + 1 - 1) with (Z.of_nat (length s) - n) by lia.
    rewrite take_ge; [done|]. rewrite length_drop. lia.
Qed.

Lemma reverse_loop_rev l s b : (l <= length s)%nat -> reverse_loop l s b = Some (b ++ rev (take l s)).
Proof.
  revert b. induction l as [|l IH]; intros b Hl; cbn [reverse_loop]; [by rewrite app_nil_r|].
  destruct (lookup_lt_is_Some_2 s l) as [c Hc]; [lia|]. rewrite Hc. cbn [mbind option_bind]. rewrite IH by lia.
  rewrite (take_S_r _ _ c) by done. rewrite rev_app_distr, <- app_assoc. done.
Qed.

(** ** Witnesses *)
Lemma lmemfind_first_witness :
  first_occurrence (bytes_of_string "na") (bytes_of_string "banana") 3 (Some 4%nat).
Proof.
  destruct (lmemfind_first (bytes_of_string "banana") 3 (bytes_of_string "na")) as (r & Hr & Hf); [vm_compute; lia|].
  vm_compute in Hr. injection Hr as <-. exact Hf.
Defined.

Lemma str_find_leftmost_witness :
  exists r, str_find setting setting_pattern (Some 2) false = Some (Return r) /\
    leftmost setting setting_pattern 0 false 1 r.
Proof.
  pose proof (str_find_leftmost setting setting_pattern 2 ltac:(vm_compute; reflexivity) ltac:(vm_compute; split; discriminate) eq_refl) as H.
  assert (exists r, str_find setting setting_pattern (Some 2) false = Some (Return r)) as (r & Hr) by (eexists; vm_compute; reflexivity).
  exists r. split; [exact Hr|]. rewrite Hr in H. exact H.
Defined.

Lemma gsub_identity_witness :
  str_gsub (fun _ => []) setting (bytes_of_string "%w+") (ReplString [37; 48]) None = Some (Return (setting, 2)).
Proof.
  pose proof (gsub_identity (fun _ => []) setting (bytes_of_string "%w+") None ltac:(vm_compute; reflexivity)) as H.
  assert (exists r, str_gsub (fun _ => []) setting (bytes_of_string "%w+") (ReplString [37; 48]) None = Some (Return r) /\ snd r = 2)
    as ([t n] & Hr & Hn) by (eexists; split; vm_compute; reflexivity).
  rewrite Hr in H. destruct H as [Ht _]. simpl in Ht, Hn. rewrite Hr, Ht, Hn. reflexivity.
Defined.

Lemma str_sub_cuts_witness : str_sub setting 1 (Some 3) ++ str_sub setting 4 None = setting.
Proof. exact (proj1 (str_sub_cuts setting 3 ltac:(vm_compute; split; discriminate))). Defined.
