(* ===== verification/LZio.v ===== *)
(** * Buffered input streams (src/lua/lzio.c, src/lua/lzio.h)

    A [ZIO] is the unread part of the reader's last block and the blocks the reader
    has still to give; an empty block is the reader's answer [size == 0], which ends
    the stream. [zgetc] decrements the count of unread bytes before it tests it: at
    the end of the stream the count wraps, and a further read would be outside the
    buffer ([None]). *)
From stdpp Require Import base list option.
From Stdlib Require Import ZArith Lia.
From S2P Require Import Prelude.
Local Open Scope Z_scope.

Definition EOZ : Z := -1.
Definition char2int (c : Z) : Z := u8 c.

Record ZIO := Zio { zbuf : bytes; zreader : list bytes; zwrapped : bool }.

Definition luaZ_init (reader : list bytes) : ZIO := Zio [] reader false.

Definition luaZ_fill (z : ZIO) : Z * ZIO :=
  match zreader z with
  | [] => (EOZ, z)
  | [] :: reader => (EOZ, Zio (zbuf z) reader (zwrapped z))
  | (c :: buff) :: reader => (char2int c, Zio buff reader false)
  end.

Definition zgetc (z : ZIO) : option (Z * ZIO) :=
  if zwrapped z then None
  else match zbuf z with
       | c :: buff => Some (char2int c, Zio buff (zreader z) false)
       | [] => Some (luaZ_fill (Zio [] (zreader z) true))
       end.

Definition luaZ_lookahead (z : ZIO) : option (Z * ZIO) :=
  if zwrapped z then None
  else match zbuf z with
       | c :: _ => Some (char2int c, z)
       | [] =>
           match zreader z with
           | [] => Some (EOZ, z)
           | [] :: reader => Some (EOZ, Zio [] reader false)
           | (c :: buff) :: reader => Some (char2int c, Zio (c :: buff) reader false)
           end
       end.

(** [luaZ_read z b n]: the number of missing bytes and the bytes stored in [b]. Every
    round of the loop reads at least one byte, so [n] rounds are enough. *)
Fixpoint read_loop (fuel : nat) (z : ZIO) (n : nat) : option (nat * bytes * ZIO) :=
  if bool_decide (n = 0%nat) then Some (0%nat, [], z)
  else match fuel with
       | O => None
       | S fuel =>
           '(c, z) ← luaZ_lookahead z;
           if c =? EOZ then Some (n, [], z)
           else
             let m := if (n <=? length (zbuf z))%nat then n else length (zbuf z) in
             '(r, b, z') ← read_loop fuel (Zio (drop m (zbuf z)) (zreader z) (zwrapped z)) (n - m);
             Some (r, take m (zbuf z) ++ b, z')
       end.

Definition luaZ_read (z : ZIO) (n : nat) : option (nat * bytes * ZIO) := read_loop n z n.

(** ** The contents of a stream *)
Fixpoint blocks_stream (reader : list bytes) : bytes :=
  match reader with [] => [] | [] :: _ => [] | b :: reader => b ++ blocks_stream reader end.
Definition stream (z : ZIO) : bytes := zbuf z ++ blocks_stream (zreader z).

Lemma char2int_not_EOZ c : (char2int c =? EOZ) = false.
Proof. apply Z.eqb_neq. unfold char2int, EOZ. pose proof (uwrap_range 8 c). lia. Qed.

Lemma lookahead_spec z : zwrapped z = false ->
  match stream z with
  | [] => exists z', luaZ_lookahead z = Some (EOZ, z')
  | c :: s => exists buff reader, luaZ_lookahead z = Some (char2int c, Zio (c :: buff) reader false) /\
                s = buff ++ blocks_stream reader
  end.
Proof.
  destruct z as [b r w]. cbn [zwrapped]. intros ->. unfold stream, luaZ_lookahead. cbn [zwrapped zbuf zreader].
  destruct b as [|c b]; simpl; [|by exists b, r].
  destruct r as [|[|c b] r]; simpl; [by eexists|by eexists|by exists b, r].
Qed.

Lemma read_loop_spec fuel z n : (n <= fuel)%nat -> zwrapped z = false ->
  exists z', read_loop fuel z n = Some ((n - length (stream z))%nat, take n (stream z), z') /\
    ((n <= length (stream z))%nat -> stream z' = drop n (stream z) /\ zwrapped z' = false).
Proof.
  revert z n. induction fuel as [|fuel IH]; intros z n Hn Hw; cbn [read_loop].
  - assert (n = 0%nat) as -> by lia. rewrite bool_decide_eq_true_2 by done. exists z. rewrite take_0. done.
  - case_bool_decide as Hn0; [subst; exists z; by rewrite take_0|].
    pose proof (lookahead_spec z Hw) as Hl. destruct (stream z) as [|c s] eqn:Es.
    + destruct Hl as [z' ->]. cbn [mbind option_bind]. rewrite Z.eqb_refl. exists z'. cbn [length].
      rewrite Nat.sub_0_r, take_nil. split; [done|lia].
    + destruct Hl as (buff & reader & -> & ->). cbn [mbind option_bind]. rewrite char2int_not_EOZ. cbn [zbuf zreader zwrapped].
      set (m := if (n <=? length (c :: buff))%nat then n else length (c :: buff)).
      assert (m = n `min` length (c :: buff))%nat as Hm by (unfold m; destruct (Nat.leb_spec n (length (c :: buff))); lia).
      assert (0 < m <= n /\ m <= length (c :: buff))%nat as Hmb by (cbn [length] in *; lia).
      destruct (IH (Zio (drop m (c :: buff)) reader false) (n - m)%nat) as (z' & -> & Hz); [lia|done|].
      cbn [mbind option_bind]. exists z'. unfold stream in *. cbn [zbuf zreader] in *.
      assert (c :: buff ++ blocks_stream reader = (c :: buff) ++ blocks_stream reader) as -> by done.
      set (l := c :: buff) in *. set (rest := blocks_stream reader) in *.
      rewrite !length_app, length_drop in *. split.
      * f_equal. f_equal. f_equal; [lia|].
        destruct (decide (n <= length l)%nat).
        { assert (m = n) as -> by lia. by rewrite Nat.sub_diag, take_0, app_nil_r, take_app_le by lia. }
        assert (m = length l) as -> by lia. rewrite drop_all, firstn_all. cbn [app].
        by rewrite take_app_ge by lia.
      * intros Hle. destruct Hz as [-> Hz]; [lia|]. split; [|done].
        destruct (decide (n <= length l)%nat).
        { assert (m = n) as -> by lia. by rewrite Nat.sub_diag, drop_0, drop_app_le by lia. }
        assert (m = length l) as -> by lia. rewrite drop_all. cbn [app]. by rewrite drop_app_ge by lia.
Qed.

(** However the reader cuts the stream into blocks, [luaZ_read] returns its next
    [n] bytes and moves past them, or returns what is left and how much is missing. *)
Theorem luaZ_read_stream (z : ZIO) (n : nat) :
  zwrapped z = false ->
  exists z', luaZ_read z n = Some ((n - length (stream z))%nat, take n (stream z), z') /\
    ((n <= length (stream z))%nat -> stream z' = drop n (stream z) /\ zwrapped z' = false).
Proof. intros Hw. by apply read_loop_spec. Qed.

Lemma luaZ_read_stream_witness :
  exists z', luaZ_read (luaZ_init [[1; 2]; [3; 4; 5]]) 4 = Some (0%nat, [1; 2; 3; 4], z') /\
    ((4 <= 5)%nat -> stream z' = [5] /\ zwrapped z' = false).
Proof. exact (luaZ_read_stream (luaZ_init [[1; 2]; [3; 4; 5]]) 4 eq_refl). Defined.
