(* ===== verification/LLex.v ===== *)
(** * Lexical analyser (src/lua/llex.c, src/lua/llex.h)

    The scanner over the input streams of [LZio]. Characters, tokens and lines are the
    code's [int]s, the token buffer has its size and doubles as in [save]; strings are
    their bytes (interning and the anchoring of strings in the function's constant
    table are the parser's and the collector's affair). [strtod], [strtoul] and
    [localeconv] are the C library's and are parameters. Every loop reads at least one
    character per turn, so the length of the rest of the stream bounds the turns. *)
From stdpp Require Import base list option strings pretty.
From Stdlib Require Import ZArith Lia ZifyBool.
From S2P Require Import Prelude LPattern LObject LZio.
#[local] Open Scope Z_scope.

(** ** Tokens (llex.h) *)
Definition FIRST_RESERVED : Z := 257.

Definition luaX_tokens : list bytes := bytes_of_string <$> [
  "and"; "break"; "do"; "else"; "elseif";
  "end"; "false"; "for"; "function"; "if";
  "in"; "local"; "nil"; "not"; "or"; "repeat";
  "return"; "then"; "true"; "until"; "while";
  ".."; "..."; "=="; ">="; "<="; "~=";
  "<number>"; "<name>"; "<string>"; "<eof>"]%string.

Definition NUM_RESERVED : nat := 21.
Definition TK_CONCAT : Z := 278.
Definition TK_DOTS : Z := 279.
Definition TK_EQ : Z := 280.
Definition TK_GE : Z := 281.
Definition TK_LE : Z := 282.
Definition TK_NE : Z := 283.
Definition TK_NUMBER : Z := 284.
Definition TK_NAME : Z := 285.
Definition TK_STRING : Z := 286.
Definition TK_EOS : Z := 287.

(** The union [SemInfo] with the member that was written last. *)
Inductive SemInfo := NoInfo | Sr (r : Z) | Sts (ts : bytes).

Record Token := Tok { token : Z; seminfo : SemInfo }.

(** [n] is the length of [buffer]. *)
Record Mbuffer := Mb { buffer : bytes; buffsize : Z }.

Record LexState := Lex {
  current : Z;
  linenumber : Z;
  lastline : Z;
  t : Token;
  lookahead : Token;
  z : ZIO;
  buff : Mbuffer;
  source : bytes;
  decpoint : Z;
}.

Definition set_buff (b : Mbuffer) (ls : LexState) : LexState :=
  Lex (current ls) (linenumber ls) (lastline ls) (t ls) (lookahead ls) (z ls) b (source ls) (decpoint ls).
Definition set_line (n : Z) (ls : LexState) : LexState :=
  Lex (current ls) n (lastline ls) (t ls) (lookahead ls) (z ls) (buff ls) (source ls) (decpoint ls).
Definition set_decpoint (c : Z) (ls : LexState) : LexState :=
  Lex (current ls) (linenumber ls) (lastline ls) (t ls) (lookahead ls) (z ls) (buff ls) (source ls) c.
Definition set_input (c : Z) (z' : ZIO) (ls : LexState) : LexState :=
  Lex c (linenumber ls) (lastline ls) (t ls) (lookahead ls) z' (buff ls) (source ls) (decpoint ls).
Definition set_tokens (last : Z) (tk la : Token) (ls : LexState) : LexState :=
  Lex (current ls) (linenumber ls) last tk la (z ls) (buff ls) (source ls) (decpoint ls).

Definition MAX_SIZET : Z := 2 ^ 64 - 3.
Definition MAX_INT : Z := INT_MAX - 2.
Definition LUA_MINBUFFER : Z := 32.
Definition MAXSRC : Z := 80.
Definition UCHAR_MAX : Z := 255.

Definition luaZ_resetbuffer (ls : LexState) : LexState :=
  set_buff (Mb [] (buffsize (buff ls))) ls.

(** ** Error messages *)
(** [luaX_token2str]; the default is the read past the table. *)
Definition luaX_token2str (tk : Z) : option bytes :=
  if tk <? FIRST_RESERVED then
    Some (if iscntrl tk then bytes_of_string ("char(" +:+ pretty tk +:+ ")") else [tk])
  else luaX_tokens !! Z.to_nat (tk - FIRST_RESERVED).

(** [txtToken], as [%s] prints it. *)
Definition txtToken (ls : LexState) (tk : Z) : option bytes :=
  if (tk =? TK_NAME) || (tk =? TK_STRING) || (tk =? TK_NUMBER) then Some (cstr (buffer (buff ls)))
  else cstr <$> luaX_token2str tk.

Definition luaX_lexerror {A} (ls : LexState) (msg : string) (tk : Z) : LuaM A :=
  let msg := (string_of_bytes (cstr (luaO_chunkid (source ls) MAXSRC)) +:+ ":" +:+
              pretty (linenumber ls) +:+ ": " +:+ msg)%string in
  if tk =? 0 then lerror msg
  else let* s := llift (txtToken ls tk) in
       lerror (msg +:+ " near '" +:+ string_of_bytes s +:+ "'")%string.

Definition luaX_syntaxerror {A} (ls : LexState) (msg : string) : LuaM A :=
  luaX_lexerror ls msg (token (t ls)).

(** ** Characters *)

(** [save]: the buffer doubles when it is full. *)
Definition save (ls : LexState) (c : Z) : LuaM LexState :=
  let b := buff ls in
  if buffsize b <? Z.of_nat (length (buffer b)) + 1 then
    if MAX_SIZET / 2 <=? buffsize b then luaX_lexerror ls "lexical element too long" 0
    else lret (set_buff (Mb (buffer b ++ [u8 c]) (buffsize b * 2)) ls)
  else lret (set_buff (Mb (buffer b ++ [u8 c]) (buffsize b)) ls).

Definition next (ls : LexState) : LuaM LexState :=
  let* (c, z') := llift (zgetc (z ls)) in lret (set_input c z' ls).

Definition currIsNewline (ls : LexState) : bool := (current ls =? 10) || (current ls =? 13).

Definition save_and_next (ls : LexState) : LuaM LexState :=
  let* ls := save ls (current ls) in next ls.

Definition inclinenumber (ls : LexState) : LuaM LexState :=
  let old := current ls in
  let* ls := next ls in
  let* ls := if currIsNewline ls && negb (current ls =? old) then next ls else lret ls in
  let ls := set_line (linenumber ls + 1) ls in
  if MAX_INT <=? linenumber ls then luaX_syntaxerror ls "chunk has too many lines" else lret ls.

(** [strchr(set, ls->current)] also finds the NUL that ends [set]; it compares
    with [(char)current]. *)
Definition check_next (ls : LexState) (set : bytes) : LuaM (bool * LexState) :=
  if bool_decide (u8 (current ls) ∈ set ++ [0]) then
    let* ls := save_and_next ls in lret (true, ls)
  else lret (false, ls).

(** ** Numerals *)
Section Numerals.
(** [strtod] and [strtoul(_, _, 16)] on a C string: the value and the number of
    characters converted; the decimal point of [localeconv()]. *)
Variable strtod : bytes -> Z * nat.
Variable strtoul16 : bytes -> Z * nat.
Variable decimal_point : Z.

Fixpoint skip_spaces (s : bytes) : bytes :=
  match s with c :: s' => if isspace c then skip_spaces s' else s | [] => [] end.

Definition luaO_str2d (s : bytes) : option Z :=
  let '(r, e) := strtod s in
  if bool_decide (e = O) then None
  else
    let '(r, e) := match s !! e with
                   | Some c => if (c =? 120) || (c =? 88)
                               then let '(k, e) := strtoul16 s in (cast_num k, e) else (r, e)
                   | None => (r, e) end in
    if bool_decide (drop e s = []) then Some r
    else if bool_decide (skip_spaces (drop e s) = []) then Some r else None.

Definition buffreplace (ls : LexState) (from to : Z) : LexState :=
  set_buff (Mb ((fun c => if c =? from then to else c) <$> buffer (buff ls)) (buffsize (buff ls))) ls.

Definition trydecpoint (ls : LexState) : LuaM (Z * LexState) :=
  let old := decpoint ls in
  let ls := set_decpoint decimal_point ls in
  let ls := buffreplace ls old (decpoint ls) in
  match luaO_str2d (cstr (buffer (buff ls))) with
  | None => luaX_lexerror (buffreplace ls (decpoint ls) 46) "malformed number" TK_NUMBER
  | Some r => lret (r, ls)
  end.

(** [while (test(ls->current)) save_and_next(ls);] *)
Fixpoint save_while (fuel : nat) (test : Z -> bool) (ls : LexState) : LuaM LexState :=
  if test (current ls) then
    match fuel with
    | O => None
    | S fuel => let* ls := save_and_next ls in save_while fuel test ls
    end
  else lret ls.

(** Enough turns for every loop of the scanner. *)
Definition turns (ls : LexState) : nat := S (S (length (stream (z ls)))).

Definition is_name_char (c : Z) : bool := isalnum c || (c =? 95).

Definition read_numeral (ls : LexState) : LuaM (Z * LexState) :=
  let* ls := save_and_next ls in
  let* ls := save_while (turns ls) (fun c => isdigit c || (c =? 46)) ls in
  let* (e, ls) := check_next ls [69; 101] in
  let* ls := if (e : bool) then let* (_, ls) := check_next ls [43; 45] in lret ls else lret ls in
  let* ls := save_while (turns ls) is_name_char ls in
  let* ls := save ls 0 in
  let ls := buffreplace ls 46 (decpoint ls) in
  match luaO_str2d (cstr (buffer (buff ls))) with
  | None => trydecpoint ls
  | Some r => lret (r, ls)
  end.

(** ** Strings *)
(** The count is an int in the code, a number without a bound here: they differ behind
    2^31 - 1 equal signs in a row, where the int overflows. *)
Fixpoint count_eq (fuel : nat) (ls : LexState) : LuaM (Z * LexState) :=
  if current ls =? 61 then
    match fuel with
    | O => None
    | S fuel => let* ls := save_and_next ls in
                let* (n, ls) := count_eq fuel ls in lret (n + 1, ls)
    end
  else lret (0, ls).

Definition skip_sep (ls : LexState) : LuaM (Z * LexState) :=
  let s := current ls in
  let* ls := save_and_next ls in
  let* (count, ls) := count_eq (turns ls) ls in
  lret (if current ls =? s then count else - count - 1, ls).

(** The loop of [read_long_string]; [sem] tells a string from a comment. With
    LUA_COMPAT_LSTR 1 an opening bracket of level 0 inside is an error. *)
Fixpoint long_loop (fuel : nat) (sem : bool) (sep : Z) (ls : LexState) : LuaM LexState :=
  match fuel with
  | O => None
  | S fuel =>
      let c := current ls in
      if c =? EOZ then
        luaX_lexerror ls (if sem then "unfinished long string" else "unfinished long comment") TK_EOS
      else if c =? 91 then
        let* (n, ls) := skip_sep ls in
        if n =? sep then
          let* ls := save_and_next ls in
          if sep =? 0 then luaX_lexerror ls "nesting of [[...]] is deprecated" 91
          else long_loop fuel sem sep ls
        else long_loop fuel sem sep ls
      else if c =? 93 then
        let* (n, ls) := skip_sep ls in
        if n =? sep then save_and_next ls else long_loop fuel sem sep ls
      else if (c =? 10) || (c =? 13) then
        let* ls := save ls 10 in
        let* ls := inclinenumber ls in
        long_loop fuel sem sep (if sem then ls else luaZ_resetbuffer ls)
      else
        let* ls := if sem then save_and_next ls else next ls in
        long_loop fuel sem sep ls
  end.

(** The string: [luaZ_buffer + (2 + sep)], [luaZ_bufflen - 2 * (2 + sep)]. *)
Definition read_long_string (ls : LexState) (sem : bool) (sep : Z) : LuaM (bytes * LexState) :=
  let* ls := save_and_next ls in
  let* ls := if currIsNewline ls then inclinenumber ls else lret ls in
  let* ls := long_loop (turns ls) sem sep ls in
  let k := Z.to_nat (2 + sep) in
  let b := buffer (buff ls) in
  lret (if sem then slice k (length b - 2 * k) b else [], ls).

(** [do { c = 10*c + digit; next } while (++i < 3 && isdigit)]: [n] more digits. *)
Fixpoint decimal_escape (n : nat) (c : Z) (ls : LexState) : LuaM (Z * LexState) :=
  let c := 10 * c + (current ls - 48) in
  let* ls := next ls in
  match n with
  | S n => if isdigit (current ls) then decimal_escape n c ls else lret (c, ls)
  | O => lret (c, ls)
  end.

Definition simple_escape (c : Z) : option Z :=
  if c =? 97 then Some 7 else if c =? 98 then Some 8 else if c =? 102 then Some 12
  else if c =? 110 then Some 10 else if c =? 114 then Some 13 else if c =? 116 then Some 9
  else if c =? 118 then Some 11 else None.

(** The case of the backslash, with [current] on it. *)
Definition read_escape (ls : LexState) : LuaM LexState :=
  let* ls := next ls in
  let c := current ls in
  match simple_escape c with
  | Some c => let* ls := save ls c in next ls
  | None =>
      if (c =? 10) || (c =? 13) then let* ls := save ls 10 in inclinenumber ls
      else if c =? EOZ then lret ls
      else if negb (isdigit c) then save_and_next ls
      else
        let* (c, ls) := decimal_escape 2 0 ls in
        if UCHAR_MAX <? c then luaX_lexerror ls "escape sequence too large" TK_STRING
        else save ls c
  end.

Fixpoint string_loop (fuel : nat) (del : Z) (ls : LexState) : LuaM LexState :=
  if current ls =? del then lret ls
  else match fuel with
  | O => None
  | S fuel =>
      let c := current ls in
      let* ls :=
        if c =? EOZ then luaX_lexerror ls "unfinished string" TK_EOS
        else if (c =? 10) || (c =? 13) then luaX_lexerror ls "unfinished string" TK_STRING
        else if c =? 92 then read_escape ls
        else save_and_next ls in
      string_loop fuel del ls
  end.

Definition read_string (ls : LexState) (del : Z) : LuaM (bytes * LexState) :=
  let* ls := save_and_next ls in
  let* ls := string_loop (turns ls) del ls in
  let* ls := save_and_next ls in
  let b := buffer (buff ls) in
  lret (slice 1 (length b - 2) b, ls).

(** ** The scanner *)
Fixpoint skip_comment (fuel : nat) (ls : LexState) : LuaM LexState :=
  if negb (currIsNewline ls) && negb (current ls =? EOZ) then
    match fuel with
    | O => None
    | S fuel => let* ls := next ls in skip_comment fuel ls
    end
  else lret ls.

(** [ts->tsv.reserved] after [luaX_init]: the number of a reserved word, or 0. *)
Definition reserved (ts : bytes) : Z :=
  match list_find (fun w => w = ts) (take NUM_RESERVED luaX_tokens) with
  | Some (i, _) => Z.of_nat i + 1
  | None => 0
  end.

(** A character followed by [=] or not. *)
Definition with_equal (ls : LexState) (plain tk : Z) : LuaM (Z * LexState) :=
  let* ls := next ls in
  if negb (current ls =? 61) then lret (plain, ls)
  else let* ls := next ls in lret (tk, ls).

(** A comment, with [current] on its second [-]. *)
Definition read_comment (ls : LexState) : LuaM LexState :=
  let* ls := next ls in
  let* (long, ls) :=
    if current ls =? 91 then
      let* (sep, ls) := skip_sep ls in
      let ls := luaZ_resetbuffer ls in
      if 0 <=? sep then
        let* (_, ls) := read_long_string ls false sep in lret (true, luaZ_resetbuffer ls)
      else lret (false, ls)
    else lret (false, ls) in
  if (long : bool) then lret ls else skip_comment (turns ls) ls.

(** One turn of the loop of [llex]: [None] is [continue]. *)
Definition llex_turn (sem : SemInfo) (ls : LexState) : LuaM (option Token * LexState) :=
  let tok k := Some (Tok k sem) in
  let c := current ls in
  if (c =? 10) || (c =? 13) then
    let* ls := inclinenumber ls in lret (None, ls)
  else if c =? 45 then
    let* ls := next ls in
    if negb (current ls =? 45) then lret (tok 45, ls)
    else let* ls := read_comment ls in lret (None, ls)
  else if c =? 91 then
    let* (sep, ls) := skip_sep ls in
    if 0 <=? sep then
      let* (ts, ls) := read_long_string ls true sep in lret (Some (Tok TK_STRING (Sts ts)), ls)
    else if sep =? -1 then lret (tok 91, ls)
    else luaX_lexerror ls "invalid long string delimiter" TK_STRING
  else if c =? 61 then let* (k, ls) := with_equal ls 61 TK_EQ in lret (tok k, ls)
  else if c =? 60 then let* (k, ls) := with_equal ls 60 TK_LE in lret (tok k, ls)
  else if c =? 62 then let* (k, ls) := with_equal ls 62 TK_GE in lret (tok k, ls)
  else if c =? 126 then let* (k, ls) := with_equal ls 126 TK_NE in lret (tok k, ls)
  else if (c =? 34) || (c =? 39) then
    let* (ts, ls) := read_string ls c in lret (Some (Tok TK_STRING (Sts ts)), ls)
  else if c =? 46 then
    let* ls := save_and_next ls in
    let* (dot, ls) := check_next ls [46] in
    if (dot : bool) then
      let* (dots, ls) := check_next ls [46] in
      lret (tok (if (dots : bool) then TK_DOTS else TK_CONCAT), ls)
    else if negb (isdigit (current ls)) then lret (tok 46, ls)
    else let* (r, ls) := read_numeral ls in lret (Some (Tok TK_NUMBER (Sr r)), ls)
  else if c =? EOZ then lret (tok TK_EOS, ls)
  else if isspace c then let* ls := next ls in lret (None, ls)
  else if isdigit c then
    let* (r, ls) := read_numeral ls in lret (Some (Tok TK_NUMBER (Sr r)), ls)
  else if isalpha c || (c =? 95) then
    let* ls := save_and_next ls in
    let* ls := save_while (turns ls) is_name_char ls in
    let ts := buffer (buff ls) in
    if 0 <? reserved ts then lret (tok (reserved ts - 1 + FIRST_RESERVED), ls)
    else lret (Some (Tok TK_NAME (Sts ts)), ls)
  else let* ls := next ls in lret (tok c, ls).

Fixpoint llex_loop (fuel : nat) (sem : SemInfo) (ls : LexState) : LuaM (Token * LexState) :=
  match fuel with
  | O => None
  | S fuel =>
      let* (r, ls) := llex_turn sem ls in
      match r with
      | Some tk => lret (tk, ls)
      | None => llex_loop fuel sem ls
      end
  end.

Definition llex (sem : SemInfo) (ls : LexState) : LuaM (Token * LexState) :=
  llex_loop (turns ls) sem (luaZ_resetbuffer ls).

Definition luaX_next (ls : LexState) : LuaM LexState :=
  if negb (token (lookahead ls) =? TK_EOS) then
    lret (set_tokens (linenumber ls) (lookahead ls) (Tok TK_EOS (seminfo (lookahead ls))) ls)
  else
    let ls := set_tokens (linenumber ls) (t ls) (lookahead ls) ls in
    let* (tk, ls) := llex (seminfo (t ls)) ls in
    lret (set_tokens (lastline ls) tk (lookahead ls) ls).

Definition luaX_lookahead (ls : LexState) : LuaM LexState :=
  let* (tk, ls) := llex (seminfo (lookahead ls)) ls in
  lret (set_tokens (lastline ls) (t ls) tk ls).

(** [luaX_setinput], with the token structure as it was. *)
Definition luaX_setinput (tk : Token) (sem : SemInfo) (zio : ZIO) (src : bytes) : LuaM LexState :=
  next (Lex 0 1 1 tk (Tok TK_EOS sem) zio (Mb [] LUA_MINBUFFER) src 46).

End Numerals.
