(* ===== verification/LLexProps.v ===== *)
(** * Properties of the lexical analyser

    [text ls] is what is left to read, the current character included. [reach k ls ls']
    collects what every routine of the scanner promises: a consistent state, at least
    [k] characters read, and a line counter that is right. *)
From stdpp Require Import base list option strings.
From Stdlib Require Import ZArith Lia ZifyBool.
From S2P Require Import Prelude LPattern LObject LZio LLex LStrlib.
#[local] Open Scope Z_scope.

Definition text (ls : LexState) : bytes :=
  if current ls =? EOZ then [] else current ls :: stream (z ls).

(** A character read is a byte with the stream behind it, or the end of the stream;
    the buffer fits its size; the last token is a token. *)
Definition input_ok (ls : LexState) : Prop :=
  current ls = EOZ \/
  (is_byte (current ls) /\ zwrapped (z ls) = false /\ Forall is_byte (stream (z ls))).

Definition lex_ok (ls : LexState) : Prop :=
  input_ok ls /\ 1 <= buffsize (buff ls) /\ Z.of_nat (length (buffer (buff ls))) <= buffsize (buff ls) /\
  0 <= token (t ls) <= TK_EOS.

Definition is_newline (c : Z) : bool := (c =? 10) || (c =? 13).

(** The line ends of a text: LF, CR, LFCR and CRLF each end one line. *)
Fixpoint newlines (s : bytes) : Z :=
  match s with
  | [] => 0
  | c :: s =>
      if is_newline c then
        match s with
        | d :: s' => if is_newline d && negb (d =? c) then 1 + newlines s' else 1 + newlines s
        | [] => 1
        end
      else newlines s
  end.

Definition frame (ls ls' : LexState) : Prop :=
  t ls' = t ls /\ lookahead ls' = lookahead ls /\ lastline ls' = lastline ls /\ source ls' = source ls.

Definition reach (k : nat) (ls ls' : LexState) : Prop :=
  lex_ok ls' /\ text ls' `suffix_of` text ls /\ (k + length (text ls') <= length (text ls))%nat /\
  linenumber ls' + newlines (text ls') = linenumber ls + newlines (text ls) /\ frame ls ls'.

Definition reach2 {A} (k : nat) (ls : LexState) (p : A * LexState) : Prop := reach k ls p.2.

Lemma reach_refl ls : lex_ok ls -> reach 0 ls ls.
Proof. intros. split; [done|]. split; [done|]. split; [lia|]. by split. Qed.

Lemma reach_trans a b l1 l2 l3 : reach a l1 l2 -> reach b l2 l3 -> reach (a + b) l1 l3.
Proof.
  intros (? & ? & ? & ? & ? & ? & ? & ?) (? & ? & ? & ? & ? & ? & ? & ?).
  split; [done|]. split; [by etrans|]. split; [lia|]. split; [lia|]. split_and!; congruence.
Qed.

Lemma reach_weaken a b l1 l2 : (b <= a)%nat -> reach a l1 l2 -> reach b l1 l2.
Proof. intros ? (? & ? & ? & ? & ?). split_and!; try done; lia. Qed.

(** A routine after another. *)
Lemma reach_step {A} a b l1 l2 (m : LuaM A) (f : A -> LexState) :
  reach a l1 l2 -> lsafe m (fun x => reach b l2 (f x)) -> lsafe m (fun x => reach (a + b) l1 (f x)).
Proof. intros ? Hm. eapply lsafe_mono; [exact Hm|]. intros x. by apply reach_trans. Qed.

Lemma reach_ok k ls ls' : reach k ls ls' -> lex_ok ls'.
Proof. by intros []. Qed.

(** ** Error messages *)
Lemma token2str_some tk : 0 <= tk <= TK_EOS -> is_Some (luaX_token2str tk).
Proof.
  intros Htk. unfold luaX_token2str. destruct (Z.ltb_spec tk FIRST_RESERVED); [by eexists|].
  apply lookup_lt_is_Some. change (length luaX_tokens) with 31%nat. unfold FIRST_RESERVED, TK_EOS in *. lia.
Qed.

Lemma lexerror_safe {A} ls msg tk (P : A -> Prop) :
  0 <= tk <= TK_EOS -> lsafe (luaX_lexerror ls msg tk) P.
Proof.
  intros Htk. unfold luaX_lexerror. destruct (tk =? 0); [done|].
  destruct (token2str_some tk Htk) as [s Hs].
  unfold txtToken. rewrite Hs. by destruct (_ || _).
Qed.

Lemma syntaxerror_safe {A} ls msg (P : A -> Prop) :
  lex_ok ls -> lsafe (luaX_syntaxerror ls msg) P.
Proof. intros (_ & _ & _ & ?). by apply lexerror_safe. Qed.

(** ** Characters *)
Lemma save_spec ls c : lex_ok ls ->
  lsafe (save ls c) (fun ls' => exists b, ls' = set_buff b ls /\ buffer b = buffer (buff ls) ++ [u8 c] /\
    lex_ok ls' /\ (buffsize b = buffsize (buff ls) \/ buffsize b = 2 * Z.of_nat (length (buffer (buff ls))))).
Proof.
  intros (Hi & Hb & Hn & Ht). unfold save.
  destruct (Z.ltb_spec (buffsize (buff ls)) (Z.of_nat (length (buffer (buff ls))) + 1)).
  - destruct (Z.leb_spec (MAX_SIZET / 2) (buffsize (buff ls))).
    { apply lexerror_safe. unfold TK_EOS. lia. }
    cbn. eexists. split; [done|]. split; [done|]. split; [|cbn; lia].
    split_and!; try done; cbn; rewrite ?length_app; cbn; lia.
  - cbn. eexists. split; [done|]. split; [done|]. split; [|by left].
    split_and!; try done; cbn; rewrite ?length_app; cbn; lia.
Qed.

Lemma reach_set_buff b ls : lex_ok (set_buff b ls) -> reach 0 ls (set_buff b ls).
Proof. intros. split; [done|]. split; [done|]. split; [done|]. by split. Qed.

Lemma save_reach ls c : lex_ok ls ->
  lsafe (save ls c) (fun ls' => reach 0 ls ls' /\ current ls' = current ls /\ text ls' = text ls).
Proof.
  intros Hok. eapply lsafe_mono; [by apply save_spec|]. intros ls' (b & -> & _ & Hok' & _).
  split; [by apply reach_set_buff|done].
Qed.

Lemma stream_next z : zwrapped z = false -> Forall is_byte (stream z) ->
  exists c z', zgetc z = Some (c, z') /\
    match stream z with
    | [] => c = EOZ
    | d :: s => c = d /\ stream z' = s /\ zwrapped z' = false
    end.
Proof.
  destruct z as [b r w]. cbn [zwrapped]. intros -> Hb. unfold zgetc, stream in *. cbn [zwrapped zbuf zreader] in *.
  assert (forall d s, Forall is_byte (d :: s) -> char2int d = d) as Hc.
  { intros d s [Hd _]%Forall_cons. unfold char2int. by apply uwrap_small. }
  destruct b as [|c b]; cbn [app] in *.
  - destruct r as [|[|c b] r]; cbn in *; do 2 eexists; (split; [done|]); eauto.
  - do 2 eexists. split; [done|]. cbn. eauto.
Qed.

Lemma next_spec ls : lex_ok ls -> current ls <> EOZ ->
  exists c z', next ls = lret (set_input c z' ls) /\ lex_ok (set_input c z' ls) /\
    text ls = current ls :: text (set_input c z' ls).
Proof.
  intros (Hi & Hb) Hc. destruct Hi as [?|(Hcb & Hw & Hf)]; [done|]. unfold next.
  destruct (stream_next (z ls) Hw Hf) as (c & z' & -> & Hs). exists c, z'. split; [done|].
  unfold text at 1. rewrite (proj2 (Z.eqb_neq _ _) Hc). unfold text, lex_ok, input_ok. cbn.
  destruct (stream (z ls)) as [|d s].
  - subst c. cbn. split; [|done]. split; [by left|done].
  - destruct Hs as (-> & -> & ->). apply Forall_cons in Hf as [Hd Hs].
    assert ((d =? EOZ) = false) as -> by (unfold EOZ, is_byte in *; lia).
    split; [|done]. split; [|done]. right. done.
Qed.

(** What follows a character that does not end a line. *)
Lemma next_reach ls : lex_ok ls -> current ls <> EOZ -> currIsNewline ls = false ->
  lsafe (next ls) (reach 1 ls).
Proof.
  intros Hok Hc Hn. destruct (next_spec ls Hok Hc) as (c & z' & -> & Hok' & Ht). cbn.
  split; [done|]. rewrite Ht. split; [by eexists [_]|]. split; [cbn; lia|]. split; [|done].
  cbn [newlines]. change (is_newline (current ls)) with (currIsNewline ls). by rewrite Hn.
Qed.

Lemma save_and_next_reach ls : lex_ok ls -> current ls <> EOZ -> currIsNewline ls = false ->
  lsafe (save_and_next ls) (reach 1 ls).
Proof.
  intros Hok Hc Hn. unfold save_and_next. eapply lsafe_bind; [by apply save_reach|].
  cbv beta. intros l1 (H1 & E1 & _). apply (reach_step 0 1 _ _ _ id H1). unfold id.
  apply next_reach; [by eapply reach_ok|congruence|]. unfold currIsNewline in *. by rewrite E1.
Qed.

Lemma newline_not_EOZ ls : currIsNewline ls = true -> current ls <> EOZ.
Proof. unfold currIsNewline, EOZ. lia. Qed.

Lemma inclinenumber_reach ls : lex_ok ls -> currIsNewline ls = true ->
  lsafe (inclinenumber ls) (reach 1 ls).
Proof.
  intros Hok Hn. unfold inclinenumber.
  destruct (next_spec ls Hok (newline_not_EOZ _ Hn)) as (c & z' & -> & Hok1 & Ht1).
  change (lbind (lret ?a) ?k) with (k a). cbv beta.
  set (l1 := set_input c z' ls) in *.
  assert (lsafe (if currIsNewline l1 && negb (current l1 =? current ls) then next l1 else lret l1)
    (fun l2 => lex_ok l2 /\ text l2 `suffix_of` text l1 /\ newlines (text ls) = 1 + newlines (text l2) /\
       linenumber l2 = linenumber ls /\ frame ls l2)) as Hl2.
  { rewrite Ht1. cbn [newlines]. change (is_newline (current ls)) with (currIsNewline ls). rewrite Hn.
    destruct (currIsNewline l1) eqn:En.
    - pose proof (newline_not_EOZ _ En) as Hne.
      assert (text l1 = current l1 :: stream (z l1)) as Et.
      { unfold text. by rewrite (proj2 (Z.eqb_neq _ _) Hne). }
      assert (is_newline (current l1) = true) as En' by exact En.
      destruct (current l1 =? current ls) eqn:Ed; cbn [negb andb].
      + cbn. split_and!; try done. rewrite Et. rewrite En', Ed. done.
      + destruct (next_spec l1 Hok1 Hne) as (c2 & z2 & -> & Hok2 & Ht2). cbn [lsafe lret].
        split; [done|]. rewrite Ht2. split; [by eexists [_]|]. split; [by rewrite En', Ed|done].
    - cbn. split_and!; try done. destruct (text l1) as [|d s] eqn:Et; [done|].
      assert (is_newline d = false) as ->; [|done].
      unfold text in Et. destruct (_ =? EOZ); [done|]. injection Et as <- _. exact En. }
  eapply lsafe_bind; [exact Hl2|]. intros l2 (Hok2 & Hsuf & Hnl & Hln & Hfr). cbv zeta.
  destruct (_ <=? _). { apply syntaxerror_safe. exact Hok2. }
  cbn. assert (text (set_line (linenumber l2 + 1) l2) = text l2) as Et by done.
  split; [exact Hok2|]. rewrite Et. split; [rewrite Ht1; by apply suffix_cons_r|].
  split; [apply suffix_length in Hsuf; rewrite Ht1; cbn [length]; lia|].
  split; [cbn; lia|done].
Qed.

Lemma check_next_reach ls set : lex_ok ls ->
  (forall c, c ∈ set -> 0 <= c < 128 /\ is_newline c = false) ->
  lsafe (check_next ls set) (reach2 0 ls).
Proof.
  intros Hok Hset. unfold check_next. case_bool_decide as Hc; [|by apply reach_refl].
  assert (current ls <> EOZ /\ currIsNewline ls = false) as [H1 H2].
  { destruct Hok as ([Hi|(Hb & _)] & _).
    - rewrite Hi in Hc. change (u8 EOZ) with 255 in Hc. apply elem_of_app in Hc as [Hc|Hc].
      + apply Hset in Hc. lia.
      + apply list_elem_of_singleton in Hc. lia.
    - rewrite uwrap_small in Hc by done. split; [unfold EOZ, is_byte in *; lia|].
      apply elem_of_app in Hc as [Hc|Hc]; [by apply Hset in Hc as [_ Hc]|].
      apply list_elem_of_singleton in Hc. unfold currIsNewline. lia. }
  eapply lsafe_bind; [by apply save_and_next_reach|]. intros l1 Hr. cbn. unfold reach2. cbn.
  by eapply reach_weaken; [|exact Hr]; lia.
Qed.

(** ** Loops *)
Lemma text_turns ls : (length (text ls) < turns ls)%nat.
Proof. unfold text, turns. destruct (_ =? _); cbn; lia. Qed.

Lemma plain_char c ls : current ls = c -> 0 <= c -> is_newline c = false ->
  current ls <> EOZ /\ currIsNewline ls = false.
Proof. intros <- ? Hn. split; [unfold EOZ; lia|exact Hn]. Qed.

(** The value of the current character decides what [next] does. *)
Lemma step_plain ls : lex_ok ls -> 0 <= current ls -> is_newline (current ls) = false ->
  lsafe (next ls) (reach 1 ls) /\ lsafe (save_and_next ls) (reach 1 ls).
Proof.
  intros Hok H0 Hn. destruct (plain_char _ ls eq_refl H0 Hn).
  split; [by apply next_reach|by apply save_and_next_reach].
Qed.

Lemma save_while_reach fuel test ls : (forall c, test c = true -> 0 <= c /\ is_newline c = false) ->
  lex_ok ls -> (length (text ls) < fuel)%nat ->
  lsafe (save_while fuel test ls) (reach 0 ls).
Proof.
  intros Ht. revert ls. induction fuel as [|fuel IH]; intros ls Hok Hf; [lia|]. cbn [save_while].
  destruct (test (current ls)) eqn:Et; [|by apply reach_refl]. destruct (Ht _ Et) as [H0 Hn].
  eapply lsafe_bind; [by apply step_plain|]. intros l1 H1.
  eapply lsafe_mono; [apply IH; [by eapply reach_ok|destruct H1 as (_ & _ & ? & _); lia]|].
  cbv beta. intros l2 H2. by eapply reach_weaken; [|eapply reach_trans; eassumption]; lia.
Qed.

Lemma count_eq_reach fuel ls : lex_ok ls -> (length (text ls) < fuel)%nat ->
  lsafe (count_eq fuel ls) (fun p => reach 0 ls p.2 /\ 0 <= p.1).
Proof.
  revert ls. induction fuel as [|fuel IH]; intros ls Hok Hf; [lia|]. cbn [count_eq].
  destruct (Z.eqb_spec (current ls) 61) as [Et|]; [|by split; [apply reach_refl|]].
  eapply lsafe_bind; [apply step_plain; [done|lia|by rewrite Et]|]. intros l1 H1.
  eapply lsafe_bind; [apply IH; [by eapply reach_ok|destruct H1 as (_ & _ & ? & _); lia]|].
  cbv beta. intros [n l2] [H2 Hn]. cbn in *.
  split; [by eapply reach_weaken; [|eapply reach_trans; eassumption]; lia|lia].
Qed.

Lemma skip_sep_reach ls : lex_ok ls -> current ls = 91 \/ current ls = 93 ->
  lsafe (skip_sep ls) (fun p => reach 1 ls p.2 /\ (0 <= p.1 -> current p.2 = current ls)).
Proof.
  intros Hok Hc. unfold skip_sep.
  eapply lsafe_bind; [apply step_plain; [done|lia|destruct Hc as [-> | ->]; done]|]. intros l1 H1.
  eapply lsafe_bind; [apply count_eq_reach; [by eapply reach_ok|apply text_turns]|].
  cbv beta. intros [n l2] [H2 Hn]. cbn in *. split.
  { by eapply reach_weaken; [|eapply reach_trans; eassumption]; lia. }
  destruct (Z.eqb_spec (current l2) (current ls)); [done|lia].
Qed.

Lemma reset_reach ls : lex_ok ls -> reach 0 ls (luaZ_resetbuffer ls).
Proof. intros (? & ? & ? & ?). apply reach_set_buff. split_and!; try done; cbn; lia. Qed.

Ltac reach_tac :=
  match goal with
  | H1 : reach _ ?a ?b, H2 : reach _ ?b ?c |- reach _ ?a ?c =>
      eapply reach_weaken; [|eapply reach_trans; [exact H1|exact H2]]; lia
  | H1 : reach _ ?a ?b |- reach _ ?a ?b => eapply reach_weaken; [|exact H1]; lia
  end.

Ltac fuel_tac := match goal with H : reach _ ?a ?b |- context [length (text ?b)] =>
  destruct H as (_ & _ & ? & _); lia end.

Lemma long_loop_reach fuel sem sep ls : 0 <= sep -> lex_ok ls -> (length (text ls) < fuel)%nat ->
  lsafe (long_loop fuel sem sep ls) (reach 1 ls).
Proof.
  intros Hsep. revert ls. induction fuel as [|fuel IH]; intros ls Hok Hf; [lia|]. cbn [long_loop]. cbv zeta.
  assert (forall l1, reach 1 ls l1 -> lsafe (long_loop fuel sem sep l1) (reach 1 ls)) as Hgo.
  { intros l1 H1. eapply lsafe_mono; [apply IH; [by eapply reach_ok|fuel_tac]|].
    intros l2 H2. reach_tac. }
  destruct (current ls =? EOZ) eqn:Ee; [apply lexerror_safe; unfold TK_EOS; lia|].
  destruct (current ls =? 91) eqn:E1.
  { eapply lsafe_bind; [apply skip_sep_reach; [done|lia]|]. cbv beta. intros [n l1] [H1 Hc]. cbn in H1, Hc.
    destruct (n =? sep) eqn:En; [|by apply Hgo].
    eapply lsafe_bind; [apply step_plain; [by eapply reach_ok|lia|rewrite Hc by lia; by rewrite (proj1 (Z.eqb_eq _ _) E1)]|].
    intros l2 H2. destruct (sep =? 0); [apply lexerror_safe; unfold TK_EOS; lia|]. apply Hgo. reach_tac. }
  destruct (current ls =? 93) eqn:E2.
  { eapply lsafe_bind; [apply skip_sep_reach; [done|lia]|]. cbv beta. intros [n l1] [H1 Hc]. cbn in H1, Hc.
    destruct (n =? sep) eqn:En; [|by apply Hgo].
    eapply lsafe_mono; [apply step_plain; [by eapply reach_ok|lia|rewrite Hc by lia; by rewrite (proj1 (Z.eqb_eq _ _) E2)]|].
    intros l2 H2. reach_tac. }
  destruct ((current ls =? 10) || (current ls =? 13)) eqn:En.
  { eapply lsafe_bind; [by apply save_reach|]. cbv beta. intros l1 (H1 & Ec & _).
    eapply lsafe_bind; [apply inclinenumber_reach; [by eapply reach_ok|unfold currIsNewline; by rewrite Ec]|].
    intros l2 H2. apply Hgo. destruct sem; [reach_tac|].
    eapply (reach_trans 1 0 _ l2); [reach_tac|apply reset_reach; by eapply reach_ok]. }
  assert (0 <= current ls) as H0.
  { destruct Hok as ([Hi|(Hb & _)] & _); [lia|by unfold is_byte in Hb; lia]. }
  destruct (step_plain ls Hok H0 En) as [Hs1 Hs2].
  eapply lsafe_bind; [destruct sem; eassumption|exact Hgo].
Qed.

Lemma read_long_string_reach ls sem sep : 0 <= sep -> lex_ok ls -> current ls = 91 ->
  lsafe (read_long_string ls sem sep) (reach2 1 ls).
Proof.
  intros Hsep Hok Hc. unfold read_long_string.
  eapply lsafe_bind; [apply step_plain; [done|lia|by rewrite Hc]|]. intros l1 H1.
  eapply lsafe_bind with (P := reach 0 l1).
  { destruct (currIsNewline l1) eqn:E; [|by eapply reach_refl, reach_ok].
    eapply lsafe_mono; [apply inclinenumber_reach; [by eapply reach_ok|done]|]. intros; reach_tac. }
  intros l2 H2. eapply lsafe_bind; [apply long_loop_reach; [done|by eapply reach_ok|apply text_turns]|].
  intros l3 H3. cbn. unfold reach2; cbn. assert (reach 1 ls l2) by reach_tac. reach_tac.
Qed.

Lemma isdigit_plain c : isdigit c = true -> 0 <= c /\ is_newline c = false.
Proof. unfold isdigit, is_newline. lia. Qed.

Lemma name_char_plain c : is_name_char c = true -> 0 <= c /\ is_newline c = false.
Proof. unfold is_name_char, isalnum, isalpha, islower, isupper, isdigit, is_newline. lia. Qed.

Lemma decimal_escape_reach n c ls : lex_ok ls -> isdigit (current ls) = true ->
  lsafe (decimal_escape n c ls) (reach2 1 ls).
Proof.
  revert c ls. induction n as [|n IH]; intros c ls Hok Hd; cbn [decimal_escape]; cbv zeta;
    destruct (isdigit_plain _ Hd);
    (eapply lsafe_bind; [by apply step_plain|]); intros l1 H1; [exact H1|].
  destruct (isdigit (current l1)) eqn:Ed; [|exact H1].
  eapply lsafe_mono; [apply IH; [by eapply reach_ok|done]|]. intros [v l2] H2. unfold reach2 in *. cbn in *. reach_tac.
Qed.

Lemma read_escape_reach ls : lex_ok ls -> current ls = 92 -> lsafe (read_escape ls) (reach 1 ls).
Proof.
  intros Hok Hc. unfold read_escape.
  eapply lsafe_bind; [apply step_plain; [done|lia|by rewrite Hc]|]. intros l1 H1. cbv zeta.
  assert (lex_ok l1) as Hok1 by by eapply reach_ok.
  destruct (simple_escape (current l1)) as [c|] eqn:Es.
  { eapply lsafe_bind; [by apply save_reach|]. cbv beta. intros l2 (H2 & Ec & _).
    eapply lsafe_mono; [apply step_plain; [by eapply reach_ok|..]|intros l3 H3; assert (reach 1 ls l2) by reach_tac; reach_tac];
      rewrite Ec; unfold simple_escape in Es; [|unfold is_newline];
      repeat case_match; simplify_eq; lia. }
  clear Es. destruct ((current l1 =? 10) || (current l1 =? 13)) eqn:En.
  { eapply lsafe_bind; [by apply save_reach|]. cbv beta. intros l2 (H2 & Ec & _).
    eapply lsafe_mono; [apply inclinenumber_reach; [by eapply reach_ok|unfold currIsNewline; by rewrite Ec]|].
    intros l3 H3; assert (reach 1 ls l2) by reach_tac; reach_tac. }
  destruct (current l1 =? EOZ) eqn:Ee; [exact H1|].
  assert (0 <= current l1) as H0.
  { destruct Hok1 as ([Hi|(Hb & _)] & _); [lia|by unfold is_byte in Hb; lia]. }
  destruct (isdigit (current l1)) eqn:Ed; cbn [negb].
  - eapply lsafe_bind; [by apply decimal_escape_reach|]. intros [c l2] H2. unfold reach2 in H2. cbn in H2.
    destruct (_ <? c); [apply lexerror_safe; unfold TK_STRING, TK_EOS; lia|].
    eapply lsafe_mono; [apply save_reach; by eapply reach_ok|]. cbv beta. intros l3 (H3 & _).
    assert (reach 1 ls l2) by reach_tac; reach_tac.
  - eapply lsafe_mono; [by apply step_plain|]. intros l2 H2. reach_tac.
Qed.

Lemma string_loop_reach fuel del ls : lex_ok ls -> (length (text ls) < fuel)%nat ->
  lsafe (string_loop fuel del ls) (fun ls' => reach 0 ls ls' /\ current ls' = del).
Proof.
  revert ls. induction fuel as [|fuel IH]; intros ls Hok Hf; [lia|]. cbn [string_loop].
  destruct (Z.eqb_spec (current ls) del); [by split; [apply reach_refl|]|]. cbv zeta.
  eapply lsafe_bind with (P := reach 1 ls).
  { destruct (current ls =? EOZ) eqn:Ee; [apply lexerror_safe; unfold TK_EOS; lia|].
    destruct ((current ls =? 10) || (current ls =? 13)) eqn:En; [apply lexerror_safe; unfold TK_EOS, TK_STRING; lia|].
    destruct (Z.eqb_spec (current ls) 92); [by apply read_escape_reach|].
    apply step_plain; [done| |done].
    destruct Hok as ([Hi|(Hb & _)] & _); [lia|by unfold is_byte in Hb; lia]. }
  intros l1 H1. eapply lsafe_mono; [apply IH; [by eapply reach_ok|fuel_tac]|].
  cbv beta. intros l2 [H2 Ed]. split; [reach_tac|done].
Qed.

Lemma read_string_reach ls del : lex_ok ls -> current ls = del -> 0 <= del -> is_newline del = false ->
  lsafe (read_string ls del) (reach2 1 ls).
Proof.
  intros Hok Hc H0 Hn. unfold read_string.
  eapply lsafe_bind; [apply step_plain; by rewrite ?Hc|]. intros l1 H1.
  eapply lsafe_bind; [apply string_loop_reach; [by eapply reach_ok|apply text_turns]|]. cbv beta. intros l2 [H2 E2].
  eapply lsafe_bind; [apply step_plain; [by eapply reach_ok|by rewrite E2..]|]. intros l3 H3.
  cbn. unfold reach2. cbn. assert (reach 1 ls l2) by reach_tac. reach_tac.
Qed.

Lemma skip_comment_reach fuel ls : lex_ok ls -> (length (text ls) < fuel)%nat ->
  lsafe (skip_comment fuel ls) (reach 0 ls).
Proof.
  revert ls. induction fuel as [|fuel IH]; intros ls Hok Hf; [lia|]. cbn [skip_comment].
  destruct (negb (currIsNewline ls) && negb (current ls =? EOZ)) eqn:E; [|by apply reach_refl].
  eapply lsafe_bind; [apply next_reach; [done|lia|]|].
  { destruct (currIsNewline ls); done. }
  intros l1 H1. eapply lsafe_mono; [apply IH; [by eapply reach_ok|fuel_tac]|]. intros l2 H2. reach_tac.
Qed.

Lemma with_equal_reach ls plain tk : lex_ok ls -> 0 <= current ls -> is_newline (current ls) = false ->
  lsafe (with_equal ls plain tk) (fun p => (p.1 = plain \/ p.1 = tk) /\ reach 1 ls p.2).
Proof.
  intros Hok H0 Hn. unfold with_equal. eapply lsafe_bind; [by apply step_plain|]. intros l1 H1.
  destruct (Z.eqb_spec (current l1) 61) as [E|]; cbn [negb]; [|by split; [left|]].
  eapply lsafe_bind; [apply step_plain; [by eapply reach_ok|lia|by rewrite E]|]. intros l2 H2.
  split; [by right|cbn; reach_tac].
Qed.

Lemma read_comment_reach ls : lex_ok ls -> current ls = 45 -> lsafe (read_comment ls) (reach 1 ls).
Proof.
  intros Hok Hc. unfold read_comment.
  eapply lsafe_bind; [apply step_plain; [done|lia|by rewrite Hc]|]. intros l1 H1.
  assert (lex_ok l1) as Hok1 by by eapply reach_ok.
  eapply lsafe_bind with (P := reach2 0 l1).
  - destruct (Z.eqb_spec (current l1) 91) as [E|]; [|by apply reach_refl].
    eapply lsafe_bind; [apply skip_sep_reach; [done|by left]|]. cbv beta. intros [sep l2] [H2 Hc2]. cbn in H2, Hc2. cbv zeta.
    assert (reach 0 l1 (luaZ_resetbuffer l2)) as H2'.
    { eapply reach_weaken; [|eapply reach_trans; [exact H2|apply reset_reach; by eapply reach_ok]]. lia. }
    destruct (Z.leb_spec 0 sep); [|exact H2'].
    eapply lsafe_bind; [apply read_long_string_reach; [done|by eapply reach_ok|cbn; rewrite Hc2; done]|].
    intros [ts l3] H3. unfold reach2 in H3. cbn in H3. unfold reach2; cbn.
    assert (reach 0 l3 (luaZ_resetbuffer l3)) by (apply reset_reach; by eapply reach_ok).
    assert (reach 0 l1 l3) by reach_tac. reach_tac.
  - intros [long l2] H2. unfold reach2 in H2. cbn in H2. destruct long; [cbn; reach_tac|].
    eapply lsafe_mono; [apply skip_comment_reach; [by eapply reach_ok|apply text_turns]|].
    intros l3 H3. assert (reach 1 ls l2) by reach_tac. reach_tac.
Qed.

(** ** The scanner *)
Section Scanner.
Variable strtod : bytes -> Z * nat.
Variable strtoul16 : bytes -> Z * nat.
Variable decimal_point : Z.
#[local] Abbreviation read_numeral := (read_numeral strtod strtoul16 decimal_point).
#[local] Abbreviation trydecpoint := (trydecpoint strtod strtoul16 decimal_point).
#[local] Abbreviation llex_turn := (llex_turn strtod strtoul16 decimal_point).
#[local] Abbreviation llex_loop := (llex_loop strtod strtoul16 decimal_point).
#[local] Abbreviation llex := (llex strtod strtoul16 decimal_point).
#[local] Abbreviation luaX_next := (luaX_next strtod strtoul16 decimal_point).

Lemma replace_reach ls from to : lex_ok ls -> reach 0 ls (buffreplace ls from to).
Proof.
  intros (? & ? & ? & ?). apply reach_set_buff. split; [done|]. split; [done|]. split; [|done]. cbn. by rewrite length_fmap.
Qed.

Lemma decpoint_reach ls c : lex_ok ls -> reach 0 ls (set_decpoint c ls).
Proof. intros. split; [done|]. split; [done|]. split; [done|]. by split. Qed.

Lemma trydecpoint_reach ls : lex_ok ls -> lsafe (trydecpoint ls) (reach2 0 ls).
Proof.
  intros Hok. unfold LLex.trydecpoint. cbv zeta.
  assert (reach 0 ls (set_decpoint decimal_point ls)) as H1 by by apply decpoint_reach.
  assert (reach 0 ls (buffreplace (set_decpoint decimal_point ls) (decpoint ls)
    (decpoint (set_decpoint decimal_point ls)))) as H2.
  { eapply (reach_trans 0 0); [exact H1|]. by apply replace_reach. }
  destruct (luaO_str2d _ _ _); [exact H2|]. apply lexerror_safe. unfold TK_NUMBER, TK_EOS. lia.
Qed.

Lemma read_numeral_reach ls : lex_ok ls -> 0 <= current ls -> is_newline (current ls) = false ->
  lsafe (read_numeral ls) (reach2 1 ls).
Proof.
  intros Hok H0 Hn. unfold LLex.read_numeral.
  eapply lsafe_bind; [by apply step_plain|]. intros l1 H1.
  eapply lsafe_bind; [apply save_while_reach; [|by eapply reach_ok|apply text_turns]|].
  { intros c. unfold isdigit, is_newline. lia. }
  intros l2 H2. assert (reach 1 ls l2) as H12 by reach_tac.
  eapply lsafe_bind; [apply check_next_reach; [by eapply reach_ok|]|].
  { intros c. rewrite !elem_of_cons, elem_of_nil. intros [-> |[-> |[]]]; done. }
  intros [e l3] H3. unfold reach2 in H3. cbn in H3. assert (reach 1 ls l3) as H13 by reach_tac.
  eapply lsafe_bind with (P := reach 0 l3).
  { destruct e; [|by eapply reach_refl, reach_ok].
    eapply lsafe_bind; [apply check_next_reach; [by eapply reach_ok|]|].
    { intros c. rewrite !elem_of_cons, elem_of_nil. intros [-> |[-> |[]]]; done. }
    intros [b l4] H4. exact H4. }
  intros l4 H4. assert (reach 1 ls l4) as H14 by reach_tac.
  eapply lsafe_bind; [apply save_while_reach; [apply name_char_plain|by eapply reach_ok|apply text_turns]|].
  intros l5 H5. assert (reach 1 ls l5) as H15 by reach_tac.
  eapply lsafe_bind; [apply save_reach; by eapply reach_ok|]. cbv beta. intros l6 (H6 & _). cbv zeta.
  assert (reach 1 ls l6) as H16 by reach_tac.
  assert (reach 0 l6 (buffreplace l6 46 (decpoint l6))) as H7 by (apply replace_reach; by eapply reach_ok).
  assert (reach 1 ls (buffreplace l6 46 (decpoint l6))) as H17 by reach_tac.
  destruct (luaO_str2d _ _ _); [exact H17|].
  eapply lsafe_mono; [apply trydecpoint_reach; by eapply reach_ok|]. intros [r l8] H8. unfold reach2 in *. cbn in *. reach_tac.
Qed.

Lemma reserved_range ts : 0 <= reserved ts <= 21.
Proof.
  unfold reserved. destruct (list_find _ _) as [[i w]|] eqn:E; [|lia].
  apply list_find_Some in E as (Hi & _ & _). apply lookup_lt_Some in Hi. change (length _) with 21%nat in Hi. lia.
Qed.

(** A turn reads a character, or finds the end of the stream and says so. *)
Definition turn_post (ls : LexState) (p : option Token * LexState) : Prop :=
  match p.1 with
  | None => reach 1 ls p.2
  | Some tk => 0 <= token tk <= TK_EOS /\
      (if token tk =? TK_EOS then text ls = [] /\ p.2 = ls else reach 1 ls p.2)
  end.

Lemma turn_token ls ls' k s : 0 <= k < TK_EOS -> reach 1 ls ls' -> turn_post ls (Some (Tok k s), ls').
Proof. intros Hk Hr. unfold turn_post. cbn. split; [lia|]. by rewrite (proj2 (Z.eqb_neq k TK_EOS) ltac:(lia)). Qed.

Lemma with_equal_turn sem ls plain tk : lex_ok ls -> 0 <= current ls -> is_newline (current ls) = false ->
  0 <= plain < TK_EOS -> 0 <= tk < TK_EOS ->
  lsafe (let* (k, ls) := with_equal ls plain tk in lret (Some (Tok k sem), ls)) (turn_post ls).
Proof.
  intros Hok H0 Hn Hp Ht. eapply lsafe_bind; [by apply with_equal_reach|]. cbv beta. intros [k l1] [Hk H1]. cbn in Hk, H1.
  apply lsafe_ret, turn_token; [destruct Hk; subst; done|exact H1].
Qed.

Lemma llex_turn_spec sem ls : lex_ok ls -> lsafe (llex_turn sem ls) (turn_post ls).
Proof.
  intros Hok. unfold LLex.llex_turn. cbv zeta.
  assert (TK_EOS = 287 /\ TK_STRING = 286 /\ TK_NUMBER = 284 /\ TK_NAME = 285) as (Heos & Hstr & Hnum & Hname) by done.
  destruct ((current ls =? 10) || (current ls =? 13)) eqn:En.
  { eapply lsafe_bind; [by apply inclinenumber_reach|]. intros l1 H1. exact H1. }
  destruct (Z.eqb_spec (current ls) 45) as [Ec|].
  { eapply lsafe_bind; [apply step_plain; [done|lia|done]|]. intros l1 H1.
    destruct (Z.eqb_spec (current l1) 45); cbn [negb]; [|apply lsafe_ret, turn_token; [lia|done]].
    eapply lsafe_bind; [apply read_comment_reach; [by eapply reach_ok|done]|]. intros l2 H2. unfold turn_post; cbn. reach_tac. }
  destruct (Z.eqb_spec (current ls) 91) as [Ec|].
  { eapply lsafe_bind; [apply skip_sep_reach; [done|by left]|]. cbv beta. intros [sep l1] [H1 Hc]. cbn in H1, Hc.
    destruct (Z.leb_spec 0 sep).
    - eapply lsafe_bind; [apply read_long_string_reach; [done|by eapply reach_ok|rewrite Hc; done]|].
      intros [ts l2] H2. unfold reach2 in H2. cbn in H2. apply lsafe_ret, turn_token; [lia|reach_tac].
    - destruct (sep =? -1); [apply lsafe_ret, turn_token; [lia|done]|]. apply lexerror_safe. lia. }
  destruct (Z.eqb_spec (current ls) 61); [apply with_equal_turn; try done; lia|].
  destruct (Z.eqb_spec (current ls) 60); [apply with_equal_turn; try done; lia|].
  destruct (Z.eqb_spec (current ls) 62); [apply with_equal_turn; try done; lia|].
  destruct (Z.eqb_spec (current ls) 126); [apply with_equal_turn; try done; lia|].
  destruct ((current ls =? 34) || (current ls =? 39)) eqn:Eq.
  { eapply lsafe_bind; [apply read_string_reach; [done|done|lia|done]|].
    intros [ts l1] H1. apply lsafe_ret, turn_token; [lia|exact H1]. }
  destruct (Z.eqb_spec (current ls) 46) as [Ec|].
  { eapply lsafe_bind; [apply step_plain; [done|lia|done]|]. intros l1 H1.
    assert (forall l, lex_ok l -> lsafe (check_next l [46]) (reach2 0 l)) as Hck.
    { intros l Hl. apply check_next_reach; [done|]. intros c ->%list_elem_of_singleton. done. }
    eapply lsafe_bind; [apply Hck; by eapply reach_ok|]. intros [dot l2] H2. unfold reach2 in H2. cbn in H2.
    assert (reach 1 ls l2) as H12 by reach_tac. destruct dot.
    - eapply lsafe_bind; [apply Hck; by eapply reach_ok|]. intros [dots l3] H3. unfold reach2 in H3. cbn in H3.
      apply lsafe_ret, turn_token; [destruct dots; vm_compute; by split|reach_tac].
    - destruct (isdigit (current l2)) eqn:Ed; cbn [negb]; [|apply lsafe_ret, turn_token; [lia|done]].
      destruct (isdigit_plain _ Ed).
      eapply lsafe_bind; [apply read_numeral_reach; [by eapply reach_ok|done..]|].
      intros [r l3] H3. unfold reach2 in H3. cbn in H3. apply lsafe_ret, turn_token; [lia|reach_tac]. }
  destruct (current ls =? EOZ) eqn:Ee.
  { cbn. unfold turn_post. cbn. split; [lia|]. unfold text. by rewrite Ee. }
  assert (0 <= current ls < 256) as H0.
  { destruct Hok as ([Hi|(Hb & _)] & _); [lia|by unfold is_byte in Hb; lia]. }
  destruct (step_plain ls Hok (proj1 H0) En) as [Hs1 Hs2].
  destruct (isspace (current ls)).
  { eapply lsafe_bind; [exact Hs1|]. intros l1 H1. exact H1. }
  destruct (isdigit (current ls)).
  { eapply lsafe_bind; [apply read_numeral_reach; [done|lia|done]|].
    intros [r l1] H1. apply lsafe_ret, turn_token; [lia|exact H1]. }
  destruct (isalpha (current ls) || (current ls =? 95)).
  { eapply lsafe_bind; [exact Hs2|]. intros l1 H1.
    eapply lsafe_bind; [apply save_while_reach; [apply name_char_plain|by eapply reach_ok|apply text_turns]|].
    intros l2 H2. cbv zeta. pose proof (reserved_range (buffer (buff l2))).
    destruct (0 <? _); apply lsafe_ret, turn_token; try reach_tac; unfold FIRST_RESERVED; lia. }
  eapply lsafe_bind; [exact Hs1|]. intros l1 H1. apply lsafe_ret, turn_token; [lia|exact H1].
Qed.

Definition llex_post (ls : LexState) (p : Token * LexState) : Prop :=
  0 <= token p.1 <= TK_EOS /\ reach 0 ls p.2 /\
  (if token p.1 =? TK_EOS then text p.2 = [] else (length (text p.2) < length (text ls))%nat).

Lemma llex_loop_spec fuel sem ls : lex_ok ls -> (length (text ls) < fuel)%nat ->
  lsafe (llex_loop fuel sem ls) (llex_post ls).
Proof.
  revert ls. induction fuel as [|fuel IH]; intros ls Hok Hf; [lia|]. cbn [LLex.llex_loop].
  eapply lsafe_bind; [by apply llex_turn_spec|]. intros [[tk|] l1] H1; unfold turn_post in H1; cbn in H1.
  - cbn. unfold llex_post. cbn. destruct H1 as [Htk H1]. split; [done|].
    destruct (token tk =? TK_EOS); [destruct H1 as [? ->]; split; [by apply reach_refl|done]|].
    split; [reach_tac|]. destruct H1 as (_ & _ & ? & _). lia.
  - eapply lsafe_mono; [apply IH; [by eapply reach_ok|fuel_tac]|].
    intros [tk l2] (Htk & H2 & Hend). unfold llex_post. cbn in *. split; [done|]. split; [reach_tac|].
    destruct (token tk =? TK_EOS); [done|]. destruct H1 as (_ & _ & ? & _). lia.
Qed.

Lemma llex_spec sem ls : lex_ok ls -> lsafe (llex sem ls) (llex_post ls).
Proof.
  intros Hok. unfold LLex.llex. pose proof (reset_reach ls Hok) as H.
  eapply lsafe_mono; [apply llex_loop_spec; [by eapply reach_ok|exact (text_turns ls)]|].
  intros [tk l1] (Htk & H1 & Hend). unfold llex_post in *. cbn in *. split; [done|]. split; [reach_tac|done].
Qed.

Lemma lex_ok_tokens last tk la ls : lex_ok ls -> 0 <= token tk <= TK_EOS -> lex_ok (set_tokens last tk la ls).
Proof. intros (? & ? & ? & _) ?. split; [done|]. split; [done|]. by split. Qed.

Lemma luaX_next_spec (ls : LexState) :
  lex_ok ls -> 0 <= token (lookahead ls) <= TK_EOS ->
  lsafe (luaX_next ls) (fun ls' => lex_ok ls' /\ token (lookahead ls') = TK_EOS /\
    text ls' `suffix_of` text ls /\
    linenumber ls' - linenumber ls = newlines (text ls) - newlines (text ls') /\
    lastline ls' = linenumber ls /\
    (token (lookahead ls) = TK_EOS ->
      if token (t ls') =? TK_EOS then text ls' = [] else (length (text ls') < length (text ls))%nat)).
Proof.
  intros Hok Hla. unfold LLex.luaX_next.
  destruct (Z.eqb_spec (token (lookahead ls)) TK_EOS) as [E|E]; cbn [negb].
  - assert (lex_ok (set_tokens (linenumber ls) (t ls) (lookahead ls) ls)) as Hok1 by exact Hok.
    eapply lsafe_bind; [by apply llex_spec|]. intros [tk l1] (Htk & H1 & Hend). cbn in Htk, H1, Hend.
    destruct H1 as (Hok2 & Hs & _ & Hl & (_ & Hf2 & Hf3 & _)).
    cbn in Hf2, Hf3, Hl. split; [by apply lex_ok_tokens|]. cbn.
    split; [by rewrite Hf2|]. split; [exact Hs|]. split; [|split; [done|]].
    + change (text (set_tokens (lastline l1) tk (lookahead l1) l1)) with (text l1).
      change (text (set_tokens (linenumber ls) (t ls) (lookahead ls) ls)) with (text ls) in Hl. lia.
    + intros _. exact Hend.
  - cbn. split; [|split; [done|split; [done|split; [|split; [done|done]]]]].
    + by apply (lex_ok_tokens (linenumber ls) (lookahead ls) (Tok TK_EOS (seminfo (lookahead ls)))).
    + change (text (set_tokens _ _ _ ls)) with (text ls). lia.
Qed.

(** C30. [luaX_next] is total and safe: from any consistent state it never reads beyond
    the end of the stream and its loops end. With a look-ahead token pending it takes this
    token, with its value, as the current one, discharges it and reads nothing. Otherwise it
    raises a syntax error, or reads a token with at least one character of the text, or
    reports the end of the chunk, and this only when nothing is left. The text that is left
    is an end of the text before, the line counter moves by exactly the line ends that
    were read, and the line before is kept as the last one. *)
Theorem luaX_next_total (ls : LexState) :
  lex_ok ls -> 0 <= token (lookahead ls) <= TK_EOS ->
  lsafe (luaX_next ls) (fun ls' => lex_ok ls' /\ token (lookahead ls') = TK_EOS /\
    text ls' `suffix_of` text ls /\
    linenumber ls' - linenumber ls = newlines (text ls) - newlines (text ls') /\
    lastline ls' = linenumber ls /\
    (token (lookahead ls) = TK_EOS ->
      if token (t ls') =? TK_EOS then text ls' = [] else (length (text ls') < length (text ls))%nat)) /\
  (token (lookahead ls) <> TK_EOS ->
    exists ls', luaX_next ls = lret ls' /\ t ls' = lookahead ls /\ token (lookahead ls') = TK_EOS /\ text ls' = text ls /\ linenumber ls' = linenumber ls).
Proof.
  intros Hok Hla. split; [by apply luaX_next_spec|]. intros Hne. unfold LLex.luaX_next. destruct (Z.eqb_spec (token (lookahead ls)) TK_EOS); [done|].
  cbn [negb]. by eexists.
Qed.

(** The whole chunk: [luaX_next] until the end token; [n] bounds the tokens. *)
Fixpoint tokens_of (n : nat) (ls : LexState) : LuaM (list Token * LexState) :=
  match n with
  | O => None
  | S n =>
      let* ls := luaX_next ls in
      if token (t ls) =? TK_EOS then lret ([], ls)
      else let* (tks, ls') := tokens_of n ls in lret (t ls :: tks, ls')
  end.

Lemma tokens_of_spec n ls : lex_ok ls -> token (lookahead ls) = TK_EOS -> (length (text ls) < n)%nat ->
  lsafe (tokens_of n ls) (fun p => (length p.1 <= length (text ls))%nat /\ text p.2 = [] /\
    linenumber p.2 = linenumber ls + newlines (text ls)).
Proof.
  revert ls. induction n as [|n IH]; intros ls Hok Hla Hn; [lia|]. cbn [tokens_of].
  eapply lsafe_bind; [apply luaX_next_spec; [done|rewrite Hla; done]|]. cbv beta.
  intros l1 (Hok1 & Hla1 & _ & Hl & _ & Hend). specialize (Hend Hla).
  destruct (token (t l1) =? TK_EOS).
  - cbn. rewrite Hend in Hl. cbn [newlines] in Hl. split; [lia|]. split; [done|lia].
  - eapply lsafe_bind; [apply IH; [done|done|lia]|]. cbv beta. intros [tks l2] (H1 & H2 & H3). cbn in *.
    split; [lia|]. split; [done|lia].
Qed.

(** A new input. *)
Lemma setinput_spec (reader : list bytes) (src : bytes) (tk : Token) (sem : SemInfo) :
  Forall is_byte (blocks_stream reader) -> 0 <= token tk <= TK_EOS ->
  exists ls, luaX_setinput tk sem (luaZ_init reader) src = lret ls /\ lex_ok ls /\ token (lookahead ls) = TK_EOS /\
    text ls = blocks_stream reader /\ linenumber ls = 1.
Proof.
  intros Hb Htk. unfold luaX_setinput, next. cbn [z].
  destruct (stream_next (luaZ_init reader) eq_refl Hb) as (c & z' & -> & Hs).
  change (lbind (llift (Some (c, z'))) ?k) with (k (c, z')). cbv beta iota.
  set (l0 := set_input _ _ _). exists l0.
  assert (text l0 = blocks_stream reader /\ input_ok l0) as [Ht Hi].
  { unfold text, input_ok, stream in *. cbn in *. destruct (blocks_stream reader) as [|d s].
    - subst c. by split; [|left].
    - destruct Hs as (-> & E & Hw). apply Forall_cons in Hb as [Hd Hs].
      assert ((d =? EOZ) = false) as -> by (unfold EOZ, is_byte in *; lia).
      split; [by f_equal|]. right. by rewrite E. }
  split; [done|]. split; [|by split_and!]. split; [done|]. split; [done|]. split; [done|exact Htk].
Qed.

(** C29. A chunk is read to its end: whatever its bytes and however the reader cuts
    them into blocks, calling [luaX_next] reaches the end token or a syntax error
    after at most one token per byte, and at the end the line counter is one more than
    the line ends of the chunk (LF, CR, LFCR and CRLF each ending one line). *)
Theorem chunk_reaches_end (reader : list bytes) (src : bytes) (tk : Token) (sem : SemInfo) :
  Forall is_byte (blocks_stream reader) -> 0 <= token tk <= TK_EOS ->
  lsafe (let* ls := luaX_setinput tk sem (luaZ_init reader) src in
         tokens_of (S (length (blocks_stream reader))) ls)
    (fun p => (length p.1 <= length (blocks_stream reader))%nat /\ text p.2 = [] /\
      linenumber p.2 = 1 + newlines (blocks_stream reader)).
Proof.
  intros Hb Htk. destruct (setinput_spec reader src tk sem Hb Htk) as (l0 & -> & Hok & Hla & Ht & Hline). cbn [lbind lret].
  rewrite <- Ht. eapply lsafe_mono; [eapply (tokens_of_spec _ l0); [exact Hok|by rewrite Hla|lia]|]. intros p Hp. rewrite Hline in Hp. exact Hp.
Qed.
End Scanner.
