(* ===== verification/LLexRead.v ===== *)
(** * What the lexical analyser reads

    Exact descriptions of the scanner on texts of a known shape: strings quoted by the
    format %q of the string library, names and reserved words, and the characters
    [strchr] accepts without meaning to. *)
From stdpp Require Import base list option strings.
From Stdlib Require Import ZArith Lia ZifyBool.
From S2P Require Import Prelude LPattern LObject LZio LLex LStrlib LLexProps.
#[local] Open Scope Z_scope.

(** The scanner with [b] in its buffer, [s] to read, in line [n]. *)
Definition scans (ls : LexState) (b s : bytes) (n : Z) : Prop :=
  lex_ok ls /\ buffer (buff ls) = b /\ text ls = s /\ linenumber ls = n.

(** The computation gives a value with [P]. *)
Definition gives {A} (m : LuaM A) (P : A -> Prop) : Prop := exists a, m = lret a /\ P a.

Lemma gives_bind {A B} (P : A -> Prop) (Q : B -> Prop) m k :
  gives m P -> (forall a, P a -> gives (k a) Q) -> gives (lbind m k) Q.
Proof. intros (a & -> & Ha) Hk. by apply Hk. Qed.

Lemma gives_ret {A} (a : A) (P : A -> Prop) : P a -> gives (lret a) P.
Proof. intros. by exists a. Qed.

(** Buffers below this length never meet the limit of [save]. *)
Definition BUFFER_BOUND : Z := 2 ^ 62.

Lemma current_scans ls b c s n : scans ls b (c :: s) n -> current ls = c.
Proof. intros (_ & _ & Ht & _). unfold text in Ht. destruct (_ =? _); congruence. Qed.

Lemma current_end ls b n : scans ls b [] n -> current ls = EOZ.
Proof. intros (_ & _ & Ht & _). unfold text in Ht. destruct (Z.eqb_spec (current ls) EOZ); congruence. Qed.

Lemma scans_byte ls b c s n : scans ls b (c :: s) n -> is_byte c.
Proof.
  intros H. pose proof (current_scans _ _ _ _ _ H) as Hc. destruct H as ((Hi & _) & _ & Ht & _).
  unfold text in Ht. destruct (Z.eqb_spec (current ls) EOZ); [done|]. rewrite <- Hc. by destruct Hi as [?|[]].
Qed.

Lemma scans_turns ls b s n : scans ls b s n -> (length s < turns ls)%nat.
Proof. intros (_ & _ & <- & _). apply text_turns. Qed.

Lemma next_gives ls b c s n : scans ls b (c :: s) n -> gives (next ls) (fun ls' => scans ls' b s n).
Proof.
  intros H. pose proof (current_scans _ _ _ _ _ H) as Hc. pose proof (scans_byte _ _ _ _ _ H) as Hb.
  destruct H as (Hok & Hbuf & Ht & Hn).
  destruct (next_spec ls Hok) as (d & z' & E & Hok' & Ht'); [unfold EOZ, is_byte in *; lia|].
  exists (set_input d z' ls). split; [done|]. split; [done|]. split; [done|]. split; [|done].
  rewrite Ht in Ht'. by injection Ht'.
Qed.

Lemma save_gives ls b s n c : scans ls b s n -> Z.of_nat (length b) < BUFFER_BOUND ->
  gives (save ls c) (fun ls' => scans ls' (b ++ [u8 c]) s n).
Proof.
  intros (Hok & <- & Ht & Hn) Hb. pose proof (save_spec ls c Hok) as Hs. unfold save in *.
  assert (MAX_SIZET / 2 = 2 ^ 63 - 2) as Hm by done. unfold BUFFER_BOUND in Hb.
  destruct (Z.ltb_spec (buffsize (buff ls)) (Z.of_nat (length (buffer (buff ls))) + 1));
    [destruct (Z.leb_spec (MAX_SIZET / 2) (buffsize (buff ls))); [lia|]|];
    (eexists; split; [done|]); destruct Hs as (b' & E & Eb & Hok' & _);
    (split; [exact Hok'|split; [reflexivity|by split]]).
Qed.

Lemma save_next_gives ls b c s n : scans ls b (c :: s) n -> Z.of_nat (length b) < BUFFER_BOUND ->
  gives (save_and_next ls) (fun ls' => scans ls' (b ++ [c]) s n).
Proof.
  intros H Hb. pose proof (scans_byte _ _ _ _ _ H) as Hc. unfold save_and_next.
  rewrite (current_scans _ _ _ _ _ H). eapply gives_bind; [by apply save_gives|].
  cbv beta. intros l1 H1. rewrite uwrap_small in H1 by done. by eapply next_gives.
Qed.

(** A line end that is not one half of a pair. *)
Lemma inclinenumber_gives ls b c s n : scans ls b (c :: s) n -> is_newline c = true ->
  (match s with d :: _ => is_newline d = false \/ d = c | [] => True end) -> n + 1 < MAX_INT ->
  gives (inclinenumber ls) (fun ls' => scans ls' b s (n + 1)).
Proof.
  intros H Hc Hd Hn. unfold inclinenumber. cbv zeta. rewrite (current_scans _ _ _ _ _ H).
  eapply gives_bind; [by eapply next_gives|]. cbv beta. intros l1 H1.
  assert (currIsNewline l1 && negb (current l1 =? c) = false) as ->.
  { unfold currIsNewline. destruct s as [|d s].
    - rewrite (current_end _ _ _ H1). done.
    - rewrite (current_scans _ _ _ _ _ H1). change ((d =? 10) || (d =? 13)) with (is_newline d).
      destruct Hd as [-> | ->]; [done|]. by rewrite Z.eqb_refl, andb_false_r. }
  change (lbind (lret l1) ?k) with (k l1). cbv beta zeta.
  destruct H1 as (Hok & Hb & Ht & Hl). cbn [linenumber set_line]. rewrite Hl.
  destruct (Z.leb_spec MAX_INT (n + 1)); [lia|]. apply gives_ret. by split_and!.
Qed.

(** ** Strings in the format %q *)
Definition quoted (s : bytes) : bytes := concat (quote_char <$> s).

Lemma addquoted_quoted s : addquoted [] s = 34 :: quoted s ++ [34].
Proof.
  unfold addquoted. cbn [app]. change (34 :: quoted s ++ [34]) with (([34] ++ quoted s) ++ [34]). f_equal.
  generalize [34] as b. induction s as [|c s IH]; intros b; cbn [foldl]; [by rewrite app_nil_r|].
  rewrite IH. unfold quoted. cbn [fmap list_fmap concat]. by rewrite <- app_assoc.
Qed.

(** A quoted string never goes on with a line end. *)
Lemma quoted_head s rest : exists d l, quoted s ++ 34 :: rest = d :: l /\ is_newline d = false.
Proof.
  destruct s as [|c s]; cbn; [by eexists _, _|]. unfold quote_char.
  destruct ((c =? 34) || (c =? 92) || (c =? 10)) eqn:E1; [by eexists _, _|].
  destruct (c =? 13) eqn:E2; [by eexists _, _|]. destruct (c =? 0); [by eexists _, _|].
  eexists c, _. split; [done|]. unfold is_newline. lia.
Qed.

(** The lines of a string: its line feeds. *)
Definition feeds (s : bytes) : Z := Z.of_nat (length (filter (fun c => c = 10) s)).

Lemma feeds_cons c s : feeds (c :: s) = (if c =? 10 then 1 else 0) + feeds s.
Proof.
  unfold feeds. destruct (Z.eqb_spec c 10).
  - rewrite filter_cons_True by done. cbn [length]. lia.
  - by rewrite filter_cons_False.
Qed.

Lemma feeds_nonneg s : 0 <= feeds s.
Proof. unfold feeds. lia. Qed.

Lemma quote_char_gives ls b c s n : is_byte c ->
  scans ls b (quote_char c ++ s) n -> Z.of_nat (length b) < BUFFER_BOUND ->
  (match s with d :: _ => is_newline d = false | [] => True end) -> n + 1 < MAX_INT ->
  current ls <> 34 /\ current ls <> EOZ /\ is_newline (current ls) = false /\
  gives (if current ls =? 92 then read_escape ls else save_and_next ls)
    (fun ls' => scans ls' (b ++ [c]) s (n + if c =? 10 then 1 else 0)).
Proof.
  intros Hc H Hb Hs Hn. unfold quote_char in H.
  destruct ((c =? 34) || (c =? 92) || (c =? 10)) eqn:E1.
  { cbn [app] in H. pose proof (current_scans _ _ _ _ _ H) as ->. split_and!; try done.
    change (92 =? 92) with true. cbv iota. unfold read_escape.
    eapply gives_bind; [by eapply next_gives|]. cbv beta. intros l1 H1. cbv zeta.
    rewrite (current_scans _ _ _ _ _ H1).
    assert (simple_escape c = None) as -> by (unfold simple_escape; repeat case_match; try done; lia).
    destruct (Z.eqb_spec c 10) as [->|].
    - cbn [orb]. change (10 =? 10) with true. cbn [orb]. eapply gives_bind; [by apply save_gives|]. cbv beta. intros l2 H2.
      eapply inclinenumber_gives; [exact H2|done| |done]. destruct s; [done|by left].
    - assert ((c =? 13) = false) as -> by lia. cbn [orb].
      assert ((c =? EOZ) = false) as -> by (unfold EOZ; lia). assert (isdigit c = false) as -> by (unfold isdigit; lia).
      rewrite Z.add_0_r. by eapply save_next_gives. }
  destruct (Z.eqb_spec c 13) as [->|].
  { cbn [app] in H. pose proof (current_scans _ _ _ _ _ H) as ->. split_and!; try done.
    change (92 =? 92) with true. cbv iota. unfold read_escape.
    eapply gives_bind; [by eapply next_gives|]. cbv beta. intros l1 H1. cbv zeta.
    rewrite (current_scans _ _ _ _ _ H1). change (simple_escape 114) with (Some 13).
    eapply gives_bind; [by apply save_gives|]. cbv beta. intros l2 H2. rewrite Z.add_0_r. by eapply next_gives. }
  destruct (Z.eqb_spec c 0) as [->|].
  { cbn [app] in H. pose proof (current_scans _ _ _ _ _ H) as ->. split_and!; try done.
    change (92 =? 92) with true. cbv iota. unfold read_escape.
    eapply gives_bind; [by eapply next_gives|]. cbv beta. intros l1 H1. cbv zeta.
    rewrite (current_scans _ _ _ _ _ H1). cbn [simple_escape].
    change (simple_escape 48) with (@None Z). change ((48 =? 10) || (48 =? 13)) with false.
    change (48 =? EOZ) with false. change (isdigit 48) with true. cbn [negb].
    eapply gives_bind with (P := fun p => p.1 = 0 /\ scans p.2 b s n).
    - cbn [decimal_escape]. cbv zeta. rewrite (current_scans _ _ _ _ _ H1).
      eapply gives_bind; [by eapply next_gives|]. cbv beta. intros l2 H2.
      rewrite (current_scans _ _ _ _ _ H2). change (isdigit 48) with true. cbv iota.
      eapply gives_bind; [by eapply next_gives|]. cbv beta. intros l3 H3.
      rewrite (current_scans _ _ _ _ _ H3). change (isdigit 48) with true. cbv iota.
      eapply gives_bind; [by eapply next_gives|]. cbv beta. intros l4 H4. apply gives_ret. by split.
    - intros [v l2] [Hv H2]. cbn in Hv, H2. subst v. change (UCHAR_MAX <? 0) with false. cbv iota.
      rewrite Z.add_0_r. by apply save_gives. }
  cbn [app] in H. pose proof (current_scans _ _ _ _ _ H) as ->. split_and!; [lia|unfold EOZ, is_byte in *; lia|unfold is_newline; lia|].
  assert ((c =? 92) = false) as -> by lia. assert ((c =? 10) = false) as -> by lia.
  rewrite Z.add_0_r. by eapply save_next_gives.
Qed.

Lemma string_loop_quoted fuel ls b s rest n : Forall is_byte s ->
  scans ls b (quoted s ++ 34 :: rest) n -> (length s < fuel)%nat ->
  Z.of_nat (length b + length s) < BUFFER_BOUND -> n + feeds s + 1 < MAX_INT ->
  gives (string_loop fuel 34 ls) (fun ls' => scans ls' (b ++ s) (34 :: rest) (n + feeds s)).
Proof.
  revert ls b n fuel. induction s as [|c s IH]; intros ls b n fuel Hs H Hf Hb Hn.
  { cbn in H. destruct fuel; [cbn in Hf; lia|]. cbn [string_loop]. rewrite (current_scans _ _ _ _ _ H).
    apply gives_ret. change (feeds []) with 0. by rewrite app_nil_r, Z.add_0_r. }
  apply Forall_cons in Hs as [Hc Hs]. destruct fuel as [|fuel]; [cbn in Hf; lia|].
  unfold quoted in H. cbn [fmap list_fmap concat] in H. rewrite <- app_assoc in H. fold (quoted s) in H.
  destruct (quoted_head s rest) as (d & l & El & Hd). cbn [length] in *.
  rewrite feeds_cons in *. pose proof (feeds_nonneg s).
  destruct (quote_char_gives ls b c _ n Hc H ltac:(lia)) as (H1 & H2 & H3 & H4);
    [by rewrite El|destruct (c =? 10); lia|].
  cbn [string_loop]. rewrite (proj2 (Z.eqb_neq _ _) H1). cbv zeta.
  rewrite (proj2 (Z.eqb_neq _ _) H2). change ((current ls =? 10) || (current ls =? 13)) with (is_newline (current ls)).
  rewrite H3. cbv iota. eapply gives_bind; [exact H4|]. cbv beta. intros l1 Hl1.
  replace (b ++ c :: s) with ((b ++ [c]) ++ s) by (by rewrite <- app_assoc).
  rewrite Z.add_assoc. apply IH; [done|exact Hl1|lia|rewrite length_app; cbn [length]; lia|lia].
Qed.

Section Scanner.
Variable strtod : bytes -> Z * nat.
Variable strtoul16 : bytes -> Z * nat.
Variable decimal_point : Z.
#[local] Abbreviation llex := (llex strtod strtoul16 decimal_point).
#[local] Abbreviation llex_turn := (llex_turn strtod strtoul16 decimal_point).

(** The buffer is emptied first. *)
Lemma llex_one sem ls s n (Q : Token * LexState -> Prop) :
  scans ls (buffer (buff ls)) s n ->
  (forall ls', scans ls' [] s n -> gives (llex_turn sem ls') (fun p =>
    match p.1 with Some tk => Q (tk, p.2) | None => False end)) ->
  gives (llex sem ls) Q.
Proof.
  intros (Hok & _ & Ht & Hn) H. unfold LLex.llex. change (turns ls) with (S (pred (turns ls))). cbn [LLex.llex_loop].
  eapply gives_bind; [apply H|].
  - destruct (reset_reach ls Hok) as (Hok' & _). by split_and!.
  - intros [[tk|] l1] HQ; cbn in HQ; [|done]. by apply gives_ret.
Qed.

(** C28. What the format %q writes the scanner reads back: for every string of bytes, the
    text [string.format('%q', s)] followed by anything is scanned as one string token
    with exactly the bytes of [s], the rest of the text is left, and the line counter
    has moved by the line feeds of [s]. *)
Theorem quoted_string_reads_back (sem : SemInfo) (ls : LexState) (s rest : bytes) :
  lex_ok ls -> Forall is_byte s -> text ls = addquoted [] s ++ rest ->
  Z.of_nat (length s) + 1 < BUFFER_BOUND -> linenumber ls + feeds s + 1 < MAX_INT ->
  exists ls', llex sem ls = lret (Tok TK_STRING (Sts s), ls') /\
    text ls' = rest /\ linenumber ls' = linenumber ls + feeds s.
Proof.
  intros Hok Hs Ht Hb Hn. rewrite addquoted_quoted in Ht. cbn in Ht. rewrite <- app_assoc in Ht. cbn in Ht.
  assert (gives (llex sem ls) (fun p => p.1 = Tok TK_STRING (Sts s) /\ text p.2 = rest /\
    linenumber p.2 = linenumber ls + feeds s)) as ([tk ls'] & E & Htk & H).
  2:{ cbn in Htk. subst tk. exists ls'. by rewrite E. }
  eapply llex_one; [by split_and!|]. intros l0 H0. unfold LLex.llex_turn. cbv zeta.
  rewrite (current_scans _ _ _ _ _ H0).
  repeat match goal with |- context [if ?b then _ else _] => progress change b with false; cbv iota end.
  change (if (34 =? 34) || (34 =? 39) then ?a else _) with a. unfold read_string.
  eapply gives_bind with (P := fun p => p.1 = s /\ scans p.2 (34 :: s ++ [34]) rest (linenumber ls + feeds s)).
  2:{ intros [ts l] [Hts Hl]. cbn in Hts, Hl. subst ts. apply gives_ret. cbn. split; [done|]. by destruct Hl as (_ & _ & ? & ?). }
  eapply gives_bind; [by eapply save_next_gives|]. cbv beta. intros l1 H1.
  eapply gives_bind; [eapply string_loop_quoted; [done|exact H1| |cbn [length app]; lia|done]|].
  { pose proof (scans_turns _ _ _ _ H1) as Hl. rewrite length_app in Hl. cbn [length] in Hl.
    assert (length s <= length (quoted s))%nat; [|lia].
    clear. induction s as [|c s IH]; [done|]. unfold quoted in *. cbn [fmap list_fmap concat length].
    rewrite length_app. unfold quote_char at 1. repeat case_match; cbn [length]; lia. }
  cbv beta. intros l2 H2. eapply gives_bind; [eapply save_next_gives; [exact H2|cbn [length app]; lia]|].
  cbv beta zeta. intros l3 H3. apply gives_ret. cbn [fst snd app] in *. split; [|done].
  destruct H3 as (_ & -> & _). cbn [length app]. rewrite length_app. cbn [length].
  replace (S (length s + 1) - 2)%nat with (length s) by lia.
  change (slice 1 (length s) (34 :: s ++ [34])) with (take (length s) (s ++ [34])). by rewrite take_app_length.
Qed.

(** ** Names *)
Definition is_name (w : bytes) : Prop :=
  match w with c :: _ => (isalpha c || (c =? 95)) = true | [] => False end /\
  Forall (fun c => is_name_char c = true) w.

Lemma save_while_gives test fuel ls b w rest n : Forall (fun c => test c = true) w ->
  (match rest with d :: _ => test d = false | [] => test EOZ = false end) ->
  scans ls b (w ++ rest) n -> (length w < fuel)%nat -> Z.of_nat (length b + length w) < BUFFER_BOUND ->
  gives (save_while fuel test ls) (fun ls' => scans ls' (b ++ w) rest n).
Proof.
  revert ls b fuel. induction w as [|c w IH]; intros ls b fuel Hw Hr H Hf Hb; (destruct fuel as [|fuel]; [cbn in Hf; lia|]); cbn [save_while].
  - cbn in H. assert (test (current ls) = false) as ->.
    { destruct rest; [by rewrite (current_end _ _ _ H)|by rewrite (current_scans _ _ _ _ _ H)]. }
    apply gives_ret. by rewrite app_nil_r.
  - apply Forall_cons in Hw as [Hc Hw]. cbn [app length] in *. rewrite (current_scans _ _ _ _ _ H), Hc.
    eapply gives_bind; [eapply save_next_gives; [exact H|lia]|]. cbv beta. intros l1 H1.
    replace (b ++ c :: w) with ((b ++ [c]) ++ w) by (by rewrite <- app_assoc).
    apply IH; [done..|lia|rewrite length_app; cbn [length]; lia].
Qed.

(** A maximal run of letters, digits and underscores that does not start with a
    digit is one token: the reserved word it spells, or a name with exactly its
    characters; nothing behind it is read. *)
Theorem name_token (sem : SemInfo) (ls : LexState) (w rest : bytes) :
  lex_ok ls -> is_name w -> text ls = w ++ rest ->
  (match rest with d :: _ => is_name_char d = false | [] => True end) ->
  Z.of_nat (length w) < BUFFER_BOUND ->
  exists ls', text ls' = rest /\ linenumber ls' = linenumber ls /\
    llex sem ls = lret
      (match list_find (fun k => k = w) (take NUM_RESERVED luaX_tokens) with
       | Some (i, _) => Tok (FIRST_RESERVED + Z.of_nat i) sem
       | None => Tok TK_NAME (Sts w)
       end, ls').
Proof.
  intros Hok [Hc Hw] Ht Hr Hb. destruct w as [|c w]; [done|]. cbn [app] in Ht.
  set (tk := match list_find _ _ with Some _ => _ | None => _ end).
  assert (gives (llex sem ls) (fun p => p.1 = tk /\ text p.2 = rest /\ linenumber p.2 = linenumber ls)) as ([k ls'] & E & Hk & H1 & H2).
  2:{ cbn in Hk. subst k. exists ls'. by rewrite E. }
  eapply llex_one; [by split_and!|]. intros l0 H0. unfold LLex.llex_turn. cbv zeta.
  rewrite (current_scans _ _ _ _ _ H0).
  assert (forall k, 0 <= k < 65 \/ 90 < k < 95 \/ 122 < k \/ k < 0 -> (c =? k) = false) as Hne
    by (intros k; unfold isalpha, islower, isupper in Hc; lia).
  rewrite !Hne by (unfold EOZ; lia). cbn [orb].
  assert (isspace c = false) as -> by (unfold isspace, isalpha, islower, isupper in *; lia).
  assert (isdigit c = false) as -> by (unfold isdigit, isalpha, islower, isupper in *; lia).
  rewrite Hc. cbv iota. apply Forall_cons in Hw as [_ Hw]. cbn [length] in Hb.
  eapply gives_bind; [eapply save_next_gives; [exact H0|cbn; unfold BUFFER_BOUND; lia]|]. cbv beta. intros l1 H1.
  eapply gives_bind; [eapply save_while_gives; [exact Hw| |exact H1| |cbn [length app]; lia]|].
  { destruct rest; [done|exact Hr]. }
  { pose proof (scans_turns _ _ _ _ H1) as Hl. rewrite length_app in Hl. lia. }
  cbv beta zeta. intros l2 (_ & -> & Ht2 & Hn2). cbn [app]. unfold reserved, tk.
  destruct (list_find _ _) as [[i v]|] eqn:E.
  - assert ((0 <? Z.of_nat i + 1) = true) as -> by lia. apply gives_ret. cbn [fst snd].
    split; [f_equal; lia|done].
  - by apply gives_ret.
Qed.

(** [check_next] takes the NUL byte for a member of its set, because [strchr] also
    finds the terminator: a dot followed by a NUL byte is scanned as [..], and the
    NUL byte is skipped without an error. *)
Theorem nul_byte_concat (sem : SemInfo) (ls : LexState) (rest : bytes) :
  lex_ok ls -> text ls = 46 :: 0 :: rest ->
  (match rest with d :: _ => d <> 46 /\ d <> 0 | [] => True end) ->
  exists ls', llex sem ls = lret (Tok TK_CONCAT sem, ls') /\ text ls' = rest.
Proof.
  intros Hok Ht Hr.
  assert (gives (llex sem ls) (fun p => p.1 = Tok TK_CONCAT sem /\ text p.2 = rest)) as ([k ls'] & E & Hk & H1).
  2:{ cbn in Hk. subst k. exists ls'. by rewrite E. }
  eapply llex_one; [by split_and!|]. intros l0 H0. unfold LLex.llex_turn. cbv zeta.
  rewrite (current_scans _ _ _ _ _ H0).
  repeat match goal with |- context [if ?b then _ else _] => progress change b with false; cbv iota end.
  change (if 46 =? 46 then ?a else _) with a.
  eapply gives_bind; [eapply save_next_gives; [exact H0|done]|]. cbv beta. intros l1 H1.
  eapply gives_bind with (P := fun p => p.1 = true /\ scans p.2 [46; 0] rest (linenumber ls)).
  { unfold check_next. rewrite (current_scans _ _ _ _ _ H1). rewrite bool_decide_true by (by right; left).
    eapply gives_bind; [eapply save_next_gives; [exact H1|done]|]. intros l2 H2. by apply gives_ret. }
  intros [dot l2] [Hd H2]. cbn in Hd, H2. subst dot.
  eapply gives_bind with (P := fun p => p.1 = false /\ p.2 = l2).
  { unfold check_next. rewrite bool_decide_false; [by apply gives_ret|].
    rewrite !elem_of_app, !list_elem_of_singleton. destruct rest as [|d rest].
    - rewrite (current_end _ _ _ H2). intros [Hx|Hx]; vm_compute in Hx; discriminate Hx.
    - rewrite (current_scans _ _ _ _ _ H2). pose proof (scans_byte _ _ _ _ _ H2).
      rewrite uwrap_small by done. tauto. }
  intros [dots l3] [Hd El]. cbn in Hd, El. subst dots l3. apply gives_ret. cbn. split; [done|by destruct H2 as (_ & _ & ? & _)].
Qed.
End Scanner.

(** ** Witnesses *)

(** [strtod] and [strtoul] on unsigned decimal digits. *)
Fixpoint digits_value (acc : Z) (n : nat) (s : bytes) : Z * nat :=
  match s with
  | c :: s => if isdigit c then digits_value (10 * acc + (c - 48)) (S n) s else (acc, n)
  | [] => (acc, n)
  end.
Definition decimal_strtod (s : bytes) : Z * nat := let '(k, n) := digits_value 0 0 s in (cast_num k, n).

(** A scanner at the start of a text held in one block. *)
Definition lex_start (s : bytes) : LexState :=
  match luaX_setinput (Tok 0 NoInfo) NoInfo (luaZ_init [s]) (bytes_of_string "=stdin") with
  | Some (Return ls) => ls
  | _ => Lex EOZ 1 1 (Tok 0 NoInfo) (Tok TK_EOS NoInfo) (luaZ_init []) (Mb [] 32) [] 46
  end.

Lemma lex_start_ok s : Forall is_byte s -> lex_ok (lex_start s) /\ text (lex_start s) = s.
Proof.
  intros Hs. unfold lex_start, luaX_setinput, next, zgetc. cbn. destruct s as [|c s]; cbn.
  - split; [|done]. split; [by left|done].
  - apply Forall_cons in Hs as [Hc Hs]. unfold char2int. rewrite uwrap_small by done.
    unfold text, stream. cbn. assert ((c =? EOZ) = false) as -> by (unfold EOZ, is_byte in *; lia).
    rewrite app_nil_r. split; [|done]. split; [|done]. right. cbn. unfold stream. cbn. by rewrite app_nil_r.
Qed.

Ltac bytes_tac := repeat constructor; unfold is_byte; lia.

Lemma luaX_next_total_witness :
  match LLex.luaX_next decimal_strtod decimal_strtod 46 (lex_start (bytes_of_string "while x")) with
  | Some (Return ls) => token (t ls) = 277 /\ lex_ok ls
  | _ => False
  end.
Proof.
  assert (Forall is_byte (bytes_of_string "while x")) as Hb by bytes_tac.
  pose proof (luaX_next_total decimal_strtod decimal_strtod 46 (lex_start (bytes_of_string "while x"))
    (proj1 (lex_start_ok _ Hb)) ltac:(vm_compute; split; discriminate)) as H.
  destruct (luaX_next _ _ _ _) as [[ls|]|] eqn:E; [|vm_compute in E; discriminate E..].
  split; [vm_compute in E; injection E as <-; reflexivity|exact (proj1 (proj1 H))].
Defined.

(** Three lines in two blocks, the CRLF cut in the middle. *)
Lemma chunk_reaches_end_witness :
  match (let* ls := luaX_setinput (Tok 0 NoInfo) NoInfo (luaZ_init [[97; 13]; [10; 98; 61; 50; 10]]) [61; 120] in
         tokens_of decimal_strtod decimal_strtod 46 8 ls) with
  | Some (Return (tks, ls)) => token <$> tks = [TK_NAME; TK_NAME; 61; TK_NUMBER] /\ linenumber ls = 3
  | _ => False
  end.
Proof.
  pose proof (chunk_reaches_end decimal_strtod decimal_strtod 46 [[97; 13]; [10; 98; 61; 50; 10]] [61; 120]
    (Tok 0 NoInfo) NoInfo ltac:(bytes_tac) ltac:(vm_compute; split; discriminate)) as H.
  change (S (length (blocks_stream [[97; 13]; [10; 98; 61; 50; 10]]))) with 8%nat in H.
  destruct (lbind _ _) as [[[tks ls]|]|] eqn:E; [|vm_compute in E; discriminate E..].
  split; [vm_compute in E; injection E as <- _; reflexivity|exact (proj2 (proj2 H))].
Defined.

Lemma quoted_string_reads_back_witness : exists ls',
  LLex.llex decimal_strtod decimal_strtod 46 NoInfo (lex_start (addquoted [] [34; 10; 0; 13; 255] ++ [41])) =
    lret (Tok TK_STRING (Sts [34; 10; 0; 13; 255]), ls') /\
  text ls' = [41] /\ linenumber ls' = linenumber (lex_start (addquoted [] [34; 10; 0; 13; 255] ++ [41])) + feeds [34; 10; 0; 13; 255].
Proof.
  assert (Forall is_byte (addquoted [] [34; 10; 0; 13; 255] ++ [41])) as Hb by bytes_tac.
  exact (quoted_string_reads_back decimal_strtod decimal_strtod 46 NoInfo _ [34; 10; 0; 13; 255] [41]
    (proj1 (lex_start_ok _ Hb)) ltac:(bytes_tac) (proj2 (lex_start_ok _ Hb)) ltac:(vm_compute; reflexivity)
    ltac:(vm_compute; reflexivity)).
Defined.

Lemma name_token_witness : exists ls', text ls' = [40] /\
  linenumber ls' = linenumber (lex_start (bytes_of_string "until" ++ [40])) /\
  LLex.llex decimal_strtod decimal_strtod 46 NoInfo (lex_start (bytes_of_string "until" ++ [40])) =
    lret (Tok 276 NoInfo, ls').
Proof.
  assert (Forall is_byte (bytes_of_string "until" ++ [40])) as Hb by bytes_tac.
  exact (name_token decimal_strtod decimal_strtod 46 NoInfo _ (bytes_of_string "until") [40]
    (proj1 (lex_start_ok _ Hb)) ltac:(split; [reflexivity|repeat constructor]) (proj2 (lex_start_ok _ Hb))
    ltac:(reflexivity) ltac:(vm_compute; reflexivity)).
Defined.

Lemma nul_byte_concat_witness : exists ls',
  LLex.llex decimal_strtod decimal_strtod 46 NoInfo (lex_start [46; 0; 97]) = lret (Tok TK_CONCAT NoInfo, ls') /\
  text ls' = [97].
Proof.
  assert (Forall is_byte [46; 0; 97]) as Hb by bytes_tac.
  exact (nul_byte_concat decimal_strtod decimal_strtod 46 NoInfo _ [97] (proj1 (lex_start_ok _ Hb))
    (proj2 (lex_start_ok _ Hb)) ltac:(split; discriminate)).
Defined.
