(* ===== verification/LNum.v ===== *)
(** * Arithmetic on numbers (src/lua/luaconf.h)

    The luai_num macros on IEEE-754 patterns: the operations of the C type double,
    through the Standard Library's specification of floating-point arithmetic
    ([SpecFloat], 53 bits). A NaN is the pattern the hardware makes. [floor] is the C
    library's; [pow] is a parameter of what uses it. *)
From stdpp Require Import base list option.
From Stdlib Require Import ZArith Lia Floats.SpecFloat.
From S2P Require Import Prelude LObject.
#[local] Open Scope Z_scope.

Definition prec : Z := 53.
Definition emax : Z := 1024.
Definition default_nan : Z := 0xFFF8000000000000.

(** A pattern as a number, and back. *)
Definition sf_of_num (n : Z) : spec_float :=
  let s := num_sign <=? n in
  let e := (n / 2 ^ 52) mod 2048 in
  let m := n mod 2 ^ 52 in
  if e =? 2047 then (if m =? 0 then S754_infinity s else S754_nan)
  else if e =? 0 then match m with Zpos p => S754_finite s p (-1074) | _ => S754_zero s end
  else match m + 2 ^ 52 with Zpos p => S754_finite s p (e - 1075) | _ => S754_nan end.

Definition num_of_sf (f : spec_float) : Z :=
  let sign (s : bool) := if s then num_sign else 0 in
  match f with
  | S754_zero s => sign s
  | S754_infinity s => sign s + num_inf
  | S754_nan => default_nan
  | S754_finite s m e =>
      if Zpos m <? 2 ^ 52 then sign s + Zpos m else sign s + (e + 1075) * 2 ^ 52 + (Zpos m - 2 ^ 52)
  end.

Definition num_op (f : spec_float -> spec_float -> spec_float) (a b : Z) : Z := num_of_sf (f (sf_of_num a) (sf_of_num b)).
Definition luai_numadd : Z -> Z -> Z := num_op (SFadd prec emax).
Definition luai_numsub : Z -> Z -> Z := num_op (SFsub prec emax).
Definition luai_nummul : Z -> Z -> Z := num_op (SFmul prec emax).
Definition luai_numdiv : Z -> Z -> Z := num_op (SFdiv prec emax).

(** [floor] of the C library; the result of a finite number below 2^53 is exact. *)
Definition sf_floor (f : spec_float) : spec_float :=
  match f with
  | S754_finite s m e =>
      if 0 <=? e then f
      else
        let v := (if s then - Zpos m else Zpos m) / 2 ^ (- e) in
        match v with Z0 => S754_zero s | _ => binary_normalize prec emax v 0 s end
  | _ => f
  end.
Definition num_floor (a : Z) : Z := num_of_sf (sf_floor (sf_of_num a)).
Definition luai_nummod (a b : Z) : Z := luai_numsub a (luai_nummul (num_floor (luai_numdiv a b)) b).
(** The sign bit is flipped, that of a NaN too. *)
Definition luai_numunm (a : Z) : Z := if num_sign <=? a then a - num_sign else a + num_sign.

Definition luai_numlt (a b : Z) : bool := SFltb (sf_of_num a) (sf_of_num b).
Definition luai_numle (a b : Z) : bool := SFleb (sf_of_num a) (sf_of_num b).

Example add_ex : luai_numadd (cast_num 40) (cast_num 2) = cast_num 42.
Proof. vm_compute. reflexivity. Qed.
Example mod_ex : luai_nummod (cast_num (-7)) (cast_num 3) = cast_num 2 /\ luai_numdiv (cast_num 1) 0 = num_inf /\
  luai_numsub (cast_num 1) (cast_num 1) = 0 /\ luai_numisnan (luai_numdiv 0 0) = true /\ luai_numlt (cast_num (-1)) 0 = true.
Proof. vm_compute. done. Qed.
