(* ===== verification/LOpcodes.v ===== *)
(** * Instructions (src/lua/lopcodes.h, src/lua/lopcodes.c)

    A 32-bit instruction is a [Z]; its fields are read and written with the masks
    of the header. [luaP_opmodes] is the table of lopcodes.c, built from the same
    five columns. *)
From stdpp Require Import base list option.
From Stdlib Require Import ZArith Lia.
From S2P Require Import Prelude.
Local Open Scope Z_scope.

(** ** Fields *)
Definition SIZE_C : Z := 9.
Definition SIZE_B : Z := 9.
Definition SIZE_Bx : Z := SIZE_C + SIZE_B.
Definition SIZE_A : Z := 8.
Definition SIZE_OP : Z := 6.
Definition POS_OP : Z := 0.
Definition POS_A : Z := POS_OP + SIZE_OP.
Definition POS_C : Z := POS_A + SIZE_A.
Definition POS_B : Z := POS_C + SIZE_C.
Definition POS_Bx : Z := POS_C.

Definition MAXARG_Bx : Z := Z.shiftl 1 SIZE_Bx - 1.
Definition MAXARG_sBx : Z := Z.shiftr MAXARG_Bx 1.
Definition MAXARG_A : Z := Z.shiftl 1 SIZE_A - 1.
Definition MAXARG_B : Z := Z.shiftl 1 SIZE_B - 1.
Definition MAXARG_C : Z := Z.shiftl 1 SIZE_C - 1.

Definition MASK1 (n p : Z) : Z := u32 (Z.shiftl (u32 (Z.lnot (u32 (Z.shiftl (u32 (Z.lnot 0)) n)))) p).
Definition MASK0 (n p : Z) : Z := u32 (Z.lnot (MASK1 n p)).

(** The two shapes of the GETARG and SETARG macros. *)
Definition GETFIELD (size pos i : Z) : Z := Z.land (Z.shiftr i pos) (MASK1 size 0).
Definition SETFIELD (size pos i u : Z) : Z :=
  Z.lor (Z.land i (MASK0 size pos)) (Z.land (u32 (Z.shiftl (u32 u) pos)) (MASK1 size pos)).

Definition GET_OPCODE (i : Z) : Z := GETFIELD SIZE_OP POS_OP i.
Definition SET_OPCODE (i o : Z) : Z := SETFIELD SIZE_OP POS_OP i o.
Definition GETARG_A (i : Z) : Z := GETFIELD SIZE_A POS_A i.
Definition SETARG_A (i u : Z) : Z := SETFIELD SIZE_A POS_A i u.
Definition GETARG_B (i : Z) : Z := GETFIELD SIZE_B POS_B i.
Definition SETARG_B (i b : Z) : Z := SETFIELD SIZE_B POS_B i b.
Definition GETARG_C (i : Z) : Z := GETFIELD SIZE_C POS_C i.
Definition SETARG_C (i b : Z) : Z := SETFIELD SIZE_C POS_C i b.
Definition GETARG_Bx (i : Z) : Z := GETFIELD SIZE_Bx POS_Bx i.
Definition SETARG_Bx (i b : Z) : Z := SETFIELD SIZE_Bx POS_Bx i b.
Definition GETARG_sBx (i : Z) : Z := GETARG_Bx i - MAXARG_sBx.
Definition SETARG_sBx (i b : Z) : Z := SETARG_Bx i (u32 (b + MAXARG_sBx)).

Definition CREATE_ABC (o a b c : Z) : Z :=
  Z.lor (Z.lor (Z.lor (u32 (Z.shiftl (u32 o) POS_OP)) (u32 (Z.shiftl (u32 a) POS_A)))
    (u32 (Z.shiftl (u32 b) POS_B))) (u32 (Z.shiftl (u32 c) POS_C)).
Definition CREATE_ABx (o a bc : Z) : Z :=
  Z.lor (Z.lor (u32 (Z.shiftl (u32 o) POS_OP)) (u32 (Z.shiftl (u32 a) POS_A))) (u32 (Z.shiftl (u32 bc) POS_Bx)).

(** Register or constant operands. *)
Definition BITRK : Z := Z.shiftl 1 (SIZE_B - 1).
Definition ISK (x : Z) : bool := negb (Z.land x BITRK =? 0).
Definition INDEXK (r : Z) : Z := Z.land r (Z.lnot BITRK).
Definition MAXINDEXRK : Z := BITRK - 1.
Definition RKASK (x : Z) : Z := Z.lor x BITRK.
Definition NO_REG : Z := MAXARG_A.

(** ** Operations *)
Inductive OpCode :=
  OP_MOVE | OP_LOADK | OP_LOADBOOL | OP_LOADNIL | OP_GETUPVAL | OP_GETGLOBAL | OP_GETTABLE
| OP_SETGLOBAL | OP_SETUPVAL | OP_SETTABLE | OP_NEWTABLE | OP_SELF | OP_ADD | OP_SUB | OP_MUL
| OP_DIV | OP_MOD | OP_POW | OP_UNM | OP_NOT | OP_LEN | OP_CONCAT | OP_JMP | OP_EQ | OP_LT
| OP_LE | OP_TEST | OP_TESTSET | OP_CALL | OP_TAILCALL | OP_RETURN | OP_FORLOOP | OP_FORPREP
| OP_TFORLOOP | OP_SETLIST | OP_CLOSE | OP_CLOSURE | OP_VARARG.

#[export] Instance OpCode_eq_dec : EqDecision OpCode.
Proof. solve_decision. Defined.

Definition opcodes : list OpCode :=
  [OP_MOVE; OP_LOADK; OP_LOADBOOL; OP_LOADNIL; OP_GETUPVAL; OP_GETGLOBAL; OP_GETTABLE;
   OP_SETGLOBAL; OP_SETUPVAL; OP_SETTABLE; OP_NEWTABLE; OP_SELF; OP_ADD; OP_SUB; OP_MUL;
   OP_DIV; OP_MOD; OP_POW; OP_UNM; OP_NOT; OP_LEN; OP_CONCAT; OP_JMP; OP_EQ; OP_LT;
   OP_LE; OP_TEST; OP_TESTSET; OP_CALL; OP_TAILCALL; OP_RETURN; OP_FORLOOP; OP_FORPREP;
   OP_TFORLOOP; OP_SETLIST; OP_CLOSE; OP_CLOSURE; OP_VARARG].

Definition NUM_OPCODES : Z := 38.

(** The operation with a number; numbers from [NUM_OPCODES] on name none. *)
Definition to_opcode (o : Z) : option OpCode := opcodes !! Z.to_nat o.
Definition of_opcode (o : OpCode) : Z :=
  match o with
  | OP_MOVE => 0 | OP_LOADK => 1 | OP_LOADBOOL => 2 | OP_LOADNIL => 3 | OP_GETUPVAL => 4 | OP_GETGLOBAL => 5
  | OP_GETTABLE => 6 | OP_SETGLOBAL => 7 | OP_SETUPVAL => 8 | OP_SETTABLE => 9 | OP_NEWTABLE => 10 | OP_SELF => 11
  | OP_ADD => 12 | OP_SUB => 13 | OP_MUL => 14 | OP_DIV => 15 | OP_MOD => 16 | OP_POW => 17 | OP_UNM => 18
  | OP_NOT => 19 | OP_LEN => 20 | OP_CONCAT => 21 | OP_JMP => 22 | OP_EQ => 23 | OP_LT => 24 | OP_LE => 25
  | OP_TEST => 26 | OP_TESTSET => 27 | OP_CALL => 28 | OP_TAILCALL => 29 | OP_RETURN => 30 | OP_FORLOOP => 31
  | OP_FORPREP => 32 | OP_TFORLOOP => 33 | OP_SETLIST => 34 | OP_CLOSE => 35 | OP_CLOSURE => 36 | OP_VARARG => 37
  end.

Inductive OpMode := iABC | iABx | iAsBx.
Inductive OpArgMask := OpArgN | OpArgU | OpArgR | OpArgK.

#[export] Instance OpMode_eq_dec : EqDecision OpMode.
Proof. solve_decision. Defined.
#[export] Instance OpArgMask_eq_dec : EqDecision OpArgMask.
Proof. solve_decision. Defined.

Definition of_argmask (m : OpArgMask) : Z := match m with OpArgN => 0 | OpArgU => 1 | OpArgR => 2 | OpArgK => 3 end.
Definition of_mode (m : OpMode) : Z := match m with iABC => 0 | iABx => 1 | iAsBx => 2 end.

Definition opmode (t a : Z) (b c : OpArgMask) (m : OpMode) : Z :=
  Z.lor (Z.lor (Z.lor (Z.lor (Z.shiftl t 7) (Z.shiftl a 6)) (Z.shiftl (of_argmask b) 4))
    (Z.shiftl (of_argmask c) 2)) (of_mode m).

Definition luaP_opmodes : list Z :=
  [opmode 0 1 OpArgR OpArgN iABC;  opmode 0 1 OpArgK OpArgN iABx;  opmode 0 1 OpArgU OpArgU iABC;
   opmode 0 1 OpArgR OpArgN iABC;  opmode 0 1 OpArgU OpArgN iABC;  opmode 0 1 OpArgK OpArgN iABx;
   opmode 0 1 OpArgR OpArgK iABC;  opmode 0 0 OpArgK OpArgN iABx;  opmode 0 0 OpArgU OpArgN iABC;
   opmode 0 0 OpArgK OpArgK iABC;  opmode 0 1 OpArgU OpArgU iABC;  opmode 0 1 OpArgR OpArgK iABC;
   opmode 0 1 OpArgK OpArgK iABC;  opmode 0 1 OpArgK OpArgK iABC;  opmode 0 1 OpArgK OpArgK iABC;
   opmode 0 1 OpArgK OpArgK iABC;  opmode 0 1 OpArgK OpArgK iABC;  opmode 0 1 OpArgK OpArgK iABC;
   opmode 0 1 OpArgR OpArgN iABC;  opmode 0 1 OpArgR OpArgN iABC;  opmode 0 1 OpArgR OpArgN iABC;
   opmode 0 1 OpArgR OpArgR iABC;  opmode 0 0 OpArgR OpArgN iAsBx; opmode 1 0 OpArgK OpArgK iABC;
   opmode 1 0 OpArgK OpArgK iABC;  opmode 1 0 OpArgK OpArgK iABC;  opmode 1 1 OpArgR OpArgU iABC;
   opmode 1 1 OpArgR OpArgU iABC;  opmode 0 1 OpArgU OpArgU iABC;  opmode 0 1 OpArgU OpArgU iABC;
   opmode 0 0 OpArgU OpArgN iABC;  opmode 0 1 OpArgR OpArgN iAsBx; opmode 0 1 OpArgR OpArgN iAsBx;
   opmode 1 0 OpArgN OpArgU iABC;  opmode 0 0 OpArgU OpArgU iABC;  opmode 0 0 OpArgN OpArgN iABC;
   opmode 0 1 OpArgU OpArgN iABx;  opmode 0 1 OpArgU OpArgN iABC].

Definition modes (o : OpCode) : Z := default 0 (luaP_opmodes !! Z.to_nat (of_opcode o)).

Definition to_argmask (n : Z) : OpArgMask :=
  if n =? 0 then OpArgN else if n =? 1 then OpArgU else if n =? 2 then OpArgR else OpArgK.

Definition getOpMode (o : OpCode) : OpMode :=
  let m := Z.land (modes o) 3 in if m =? 0 then iABC else if m =? 1 then iABx else iAsBx.
Definition getBMode (o : OpCode) : OpArgMask := to_argmask (Z.land (Z.shiftr (modes o) 4) 3).
Definition getCMode (o : OpCode) : OpArgMask := to_argmask (Z.land (Z.shiftr (modes o) 2) 3).
Definition testAMode (o : OpCode) : bool := negb (Z.land (modes o) (Z.shiftl 1 6) =? 0).
Definition testTMode (o : OpCode) : bool := negb (Z.land (modes o) (Z.shiftl 1 7) =? 0).
Definition LFIELDS_PER_FLUSH : Z := 50.

(** ** Lemmas *)
Lemma to_of_opcode o : to_opcode (of_opcode o) = Some o.
Proof. by destruct o. Qed.

Lemma of_to_opcode n o : 0 <= n -> to_opcode n = Some o -> of_opcode o = n.
Proof.
  intros Hn Ho. unfold to_opcode in Ho. assert (Z.to_nat n < 38)%nat as Hlt by (by apply lookup_lt_Some in Ho).
  rewrite <- (Z2Nat.id n) by done. generalize dependent (Z.to_nat n). clear n Hn. intros n Ho Hlt.
  do 38 (destruct n as [|n]; [by injection Ho as <-|]). lia.
Qed.

Lemma mask1_testbit n p i : 0 <= n <= 32 -> 0 <= p -> n + p <= 32 ->
  Z.testbit (MASK1 n p) i = (p <=? i) && (i <? p + n).
Proof.
  intros Hn Hp Hnp. destruct (Z.neg_nonneg_cases i) as [Hi|Hi].
  { rewrite Z.testbit_neg_r by done. destruct (Z.leb_spec p i); [lia|done]. }
  unfold MASK1. rewrite uwrap_testbit by lia. rewrite Z.shiftl_spec by done.
  destruct (Z.neg_nonneg_cases (i - p)) as [Hip|Hip].
  { rewrite Z.testbit_neg_r by done. destruct (Z.leb_spec p i); [lia|done]. }
  rewrite uwrap_testbit, Z.lnot_spec by lia. rewrite uwrap_testbit, Z.shiftl_spec by lia.
  rewrite (proj2 (Z.leb_le p i)) by lia.
  destruct (Z.neg_nonneg_cases (i - p - n)) as [Hin|Hin].
  - rewrite (Z.testbit_neg_r _ (i - p - n)) by done. rewrite (proj2 (Z.ltb_lt (i - p) 32)), (proj2 (Z.ltb_lt i 32)), (proj2 (Z.ltb_lt i (p + n))) by lia. done.
  - rewrite uwrap_testbit, Z.lnot_spec, Z.bits_0 by lia. rewrite (proj2 (Z.ltb_ge i (p + n))) by lia.
    destruct (Z.ltb_spec (i - p) 32), (Z.ltb_spec (i - p - n) 32), (Z.ltb_spec i 32); simpl; lia || done.
Qed.

Lemma getfield_testbit size pos x i : 0 <= size <= 32 -> 0 <= pos -> 0 <= i ->
  Z.testbit (GETFIELD size pos x) i = Z.testbit x (i + pos) && (i <? size).
Proof.
  intros. unfold GETFIELD. rewrite Z.land_spec, Z.shiftr_spec, mask1_testbit by lia.
  by rewrite (proj2 (Z.leb_le 0 i)), Z.add_0_l by lia.
Qed.

Lemma getfield_range size pos x : 0 <= size <= 32 -> 0 <= GETFIELD size pos x < 2 ^ size.
Proof.
  intros. assert (GETFIELD size pos x = Z.shiftr x pos mod 2 ^ size) as ->.
  { unfold GETFIELD. rewrite <- Z.land_ones by lia. f_equal. apply Z.bits_inj'. intros i Hi.
    rewrite mask1_testbit by lia. rewrite Z.testbit_ones_nonneg by lia.
    by rewrite (proj2 (Z.leb_le 0 i)) by lia. }
  apply Z.mod_pos_bound. apply Z.pow_pos_nonneg; lia.
Qed.

Lemma setfield_testbit size pos x u i : 0 <= size -> 0 <= pos -> size + pos <= 32 -> 0 <= i < 32 ->
  Z.testbit (SETFIELD size pos x u) i =
    if (pos <=? i) && (i <? pos + size) then Z.testbit u (i - pos) else Z.testbit x i.
Proof.
  intros. unfold SETFIELD, MASK0.
  rewrite Z.lor_spec, !Z.land_spec, !uwrap_testbit, Z.lnot_spec, mask1_testbit by lia.
  rewrite (proj2 (Z.ltb_lt i 32)) by lia. rewrite Z.shiftl_spec by lia.
  destruct (Z.leb_spec pos i); simpl.
  - rewrite uwrap_testbit by lia. rewrite (proj2 (Z.ltb_lt (i - pos) 32)) by lia.
    destruct (Z.ltb_spec i (pos + size)); simpl; rewrite ?andb_true_r, ?andb_false_r, ?orb_false_r; done.
  - rewrite !andb_true_r, andb_false_r. apply orb_false_r.
Qed.

(** Writing one field and reading another that does not overlap it, or the same. *)
Lemma get_set_field size pos size' pos' x u :
  0 <= size -> 0 <= pos -> size + pos <= 32 -> 0 <= size' -> 0 <= pos' -> size' + pos' <= 32 ->
  pos + size <= pos' \/ pos' + size' <= pos ->
  GETFIELD size pos (SETFIELD size pos x u) = u mod 2 ^ size /\
  GETFIELD size' pos' (SETFIELD size pos x u) = GETFIELD size' pos' x.
Proof.
  intros. split; apply Z.bits_inj'; intros i Hi.
  - rewrite getfield_testbit by lia. destruct (Z.ltb_spec i size).
    + rewrite setfield_testbit by lia. rewrite (proj2 (Z.leb_le pos (i + pos))), (proj2 (Z.ltb_lt (i + pos) (pos + size))) by lia.
      simpl. rewrite andb_true_r, Z.mod_pow2_bits_low by lia. f_equal. lia.
    + by rewrite andb_false_r, Z.mod_pow2_bits_high by lia.
  - rewrite !getfield_testbit by lia. destruct (Z.ltb_spec i size'); [|by rewrite !andb_false_r].
    rewrite setfield_testbit by lia. rewrite !andb_true_r.
    destruct (Z.leb_spec pos (i + pos')), (Z.ltb_spec (i + pos') (pos + size)); simpl; lia || done.
Qed.

Lemma create_field_testbit u pos i : 0 <= pos -> 0 <= i < 32 ->
  Z.testbit (u32 (Z.shiftl (u32 u) pos)) i = (pos <=? i) && Z.testbit u (i - pos).
Proof.
  intros. rewrite uwrap_testbit, Z.shiftl_spec, (proj2 (Z.ltb_lt i 32)), andb_true_r by lia.
  destruct (Z.leb_spec pos i); simpl; [|by rewrite Z.testbit_neg_r by lia].
  rewrite uwrap_testbit, (proj2 (Z.ltb_lt (i - pos) 32)) by lia. by rewrite andb_true_r.
Qed.

Lemma getfield_lor size pos x y : GETFIELD size pos (Z.lor x y) = Z.lor (GETFIELD size pos x) (GETFIELD size pos y).
Proof. unfold GETFIELD. by rewrite Z.shiftr_lor, Z.land_lor_distr_l. Qed.

Lemma getfield_same size pos u : 0 <= size -> 0 <= pos -> size + pos <= 32 -> 0 <= u < 2 ^ size ->
  GETFIELD size pos (u32 (Z.shiftl (u32 u) pos)) = u.
Proof.
  intros ? ? ? Hu. apply Z.bits_inj'. intros i Hi. rewrite getfield_testbit by lia.
  destruct (Z.ltb_spec i size).
  - rewrite andb_true_r, create_field_testbit by lia. rewrite (proj2 (Z.leb_le pos (i + pos))) by lia. simpl. f_equal. lia.
  - rewrite andb_false_r. symmetry. apply (testbit_high size); lia.
Qed.

Lemma getfield_other size pos u size' pos' : 0 <= size -> 0 <= pos -> size + pos <= 32 -> 0 <= pos' ->
  0 <= u < 2 ^ size' -> pos + size <= pos' \/ pos' + size' <= pos ->
  GETFIELD size pos (u32 (Z.shiftl (u32 u) pos')) = 0.
Proof.
  intros ? ? ? ? Hu Hd. apply Z.bits_inj'. intros i Hi. rewrite getfield_testbit, Z.bits_0 by lia.
  destruct (Z.ltb_spec i size); [|apply andb_false_r]. rewrite andb_true_r, create_field_testbit by lia.
  destruct (Z.leb_spec pos' (i + pos)); simpl; [|done]. apply (testbit_high size'); lia.
Qed.

(** Arithmetic on the constants of the field layout. *)
Ltac fields := unfold POS_Bx, POS_B, POS_C, POS_A, POS_OP, SIZE_Bx, SIZE_B, SIZE_C, SIZE_A, SIZE_OP in *; lia.

(** Reads one field of an instruction built by a create macro. *)
Ltac create_field :=
  unfold GET_OPCODE, GETARG_A, GETARG_B, GETARG_C, GETARG_Bx, CREATE_ABC, CREATE_ABx; rewrite !getfield_lor;
  repeat match goal with
  | |- context [GETFIELD ?s ?p (u32 (Z.shiftl (u32 ?u) ?p))] => rewrite (getfield_same s p u) by (assumption || fields)
  | Hu : 0 <= ?u < 2 ^ ?s' |- context [GETFIELD ?s ?p (u32 (Z.shiftl (u32 ?u) ?p'))] =>
      rewrite (getfield_other s p u s' p') by (assumption || fields)
  end; rewrite ?Z.lor_0_r, ?Z.lor_0_l; reflexivity.

(** The fields of an instruction are independent: what [CREATE_ABC] and
    [CREATE_ABx] put in, the GETARG macros take out, and each SETARG macro changes
    its own field and no other. *)
Theorem instruction_fields (o a b c bx : Z) :
  0 <= o < 2 ^ SIZE_OP -> 0 <= a < 2 ^ SIZE_A -> 0 <= b < 2 ^ SIZE_B -> 0 <= c < 2 ^ SIZE_C -> 0 <= bx < 2 ^ SIZE_Bx ->
  let i := CREATE_ABC o a b c in
  let ix := CREATE_ABx o a bx in
  (GET_OPCODE i = o /\ GETARG_A i = a /\ GETARG_B i = b /\ GETARG_C i = c) /\
  (GET_OPCODE ix = o /\ GETARG_A ix = a /\ GETARG_Bx ix = bx) /\
  (forall j sbx, - MAXARG_sBx <= sbx <= MAXARG_sBx + 1 ->
    GETARG_sBx (SETARG_sBx j sbx) = sbx /\ GETARG_A (SETARG_sBx j sbx) = GETARG_A j /\
    GET_OPCODE (SETARG_sBx j sbx) = GET_OPCODE j) /\
  (forall j, GETARG_C (SETARG_C j c) = c /\ GETARG_B (SETARG_C j c) = GETARG_B j /\
    GETARG_B (SETARG_B j b) = b /\ GETARG_C (SETARG_B j b) = GETARG_C j /\
    GETARG_A (SETARG_A j a) = a /\ GETARG_Bx (SETARG_A j a) = GETARG_Bx j /\
    GET_OPCODE (SET_OPCODE j o) = o /\ GETARG_A (SET_OPCODE j o) = GETARG_A j).
Proof.
  intros Ho Ha Hb Hc Hx. cbv zeta. split; [|split; [|split]].
  - repeat split; create_field.
  - repeat split; create_field.
  - intros j sbx Hs. unfold SETARG_sBx, SETARG_Bx, GETARG_sBx, GETARG_Bx, GETARG_A, GET_OPCODE.
    change MAXARG_sBx with 131071 in *.
    destruct (get_set_field SIZE_Bx POS_Bx SIZE_A POS_A j (u32 (sbx + 131071))) as [E1 E2]; [fields..|].
    destruct (get_set_field SIZE_Bx POS_Bx SIZE_OP POS_OP j (u32 (sbx + 131071))) as [_ E3]; [fields..|].
    rewrite E1, E2, E3. change (2 ^ SIZE_Bx) with (2 ^ 18). unfold uwrap. rewrite mod_mod_pow2 by lia.
    rewrite Z.mod_small by lia. split; [lia|done].
  - intros j. unfold SETARG_C, SETARG_B, SETARG_A, SET_OPCODE, GETARG_C, GETARG_B, GETARG_A, GETARG_Bx, GET_OPCODE.
    destruct (get_set_field SIZE_C POS_C SIZE_B POS_B j c) as [E1 E2]; [fields..|].
    destruct (get_set_field SIZE_B POS_B SIZE_C POS_C j b) as [E3 E4]; [fields..|].
    destruct (get_set_field SIZE_A POS_A SIZE_Bx POS_Bx j a) as [E5 E6]; [fields..|].
    destruct (get_set_field SIZE_OP POS_OP SIZE_A POS_A j o) as [E7 E8]; [fields..|].
    rewrite E1, E2, E3, E4, E5, E6, E7, E8. by rewrite !Z.mod_small by done.
Qed.

Lemma instruction_fields_witness :
  GETARG_B (CREATE_ABC 12 1 2 259) = 2 /\ GETARG_C (CREATE_ABC 12 1 2 259) = 259.
Proof.
  destruct (instruction_fields 12 1 2 259 7) as [(_ & _ & HB & HC) _]; [fields..|]. exact (conj HB HC).
Defined.

(** ** The fields of instructions as rewrite rules *)
Create HintDb instr.

Lemma opcode_range op : 0 <= of_opcode op < 2 ^ SIZE_OP.
Proof. by destruct op. Qed.

Section Fields.
Variables (op : OpCode) (a b c : Z).
Hypotheses (Ha : 0 <= a <= MAXARG_A) (Hb : 0 <= b <= MAXARG_B) (Hc : 0 <= c <= MAXARG_C).

Lemma create_abc_fields :
  GET_OPCODE (CREATE_ABC (of_opcode op) a b c) = of_opcode op /\ GETARG_A (CREATE_ABC (of_opcode op) a b c) = a /\
  GETARG_B (CREATE_ABC (of_opcode op) a b c) = b /\ GETARG_C (CREATE_ABC (of_opcode op) a b c) = c.
Proof using All.
  change MAXARG_A with 255 in *. change MAXARG_B with 511 in *. change MAXARG_C with 511 in *.
  pose proof (opcode_range op). assert (0 <= a < 2 ^ SIZE_A) by fields. assert (0 <= b < 2 ^ SIZE_B) by fields. assert (0 <= c < 2 ^ SIZE_C) by fields.
  repeat split; create_field.
Qed.
End Fields.

Lemma create_abx_fields op a bx : 0 <= a <= MAXARG_A -> 0 <= bx <= MAXARG_Bx ->
  GET_OPCODE (CREATE_ABx (of_opcode op) a bx) = of_opcode op /\ GETARG_A (CREATE_ABx (of_opcode op) a bx) = a /\
  GETARG_Bx (CREATE_ABx (of_opcode op) a bx) = bx.
Proof.
  intros Ha Hb. change MAXARG_A with 255 in *. change MAXARG_Bx with 262143 in *.
  pose proof (opcode_range op). assert (0 <= a < 2 ^ SIZE_A) by fields. assert (0 <= bx < 2 ^ SIZE_Bx) by fields.
  repeat split; create_field.
Qed.

(** Setting A leaves the operation and the other arguments. *)
Lemma set_a_fields i a : 0 <= a <= MAXARG_A ->
  GETARG_A (SETARG_A i a) = a /\ GET_OPCODE (SETARG_A i a) = GET_OPCODE i /\ GETARG_B (SETARG_A i a) = GETARG_B i /\
  GETARG_C (SETARG_A i a) = GETARG_C i /\ GETARG_Bx (SETARG_A i a) = GETARG_Bx i.
Proof.
  intros Ha. change MAXARG_A with 255 in *. unfold GETARG_A, SETARG_A, GET_OPCODE, GETARG_B, GETARG_C, GETARG_Bx.
  destruct (get_set_field SIZE_A POS_A SIZE_OP POS_OP i a) as [E1 E2]; [fields..|].
  destruct (get_set_field SIZE_A POS_A SIZE_B POS_B i a) as [_ E3]; [fields..|].
  destruct (get_set_field SIZE_A POS_A SIZE_C POS_C i a) as [_ E4]; [fields..|].
  destruct (get_set_field SIZE_A POS_A SIZE_Bx POS_Bx i a) as [_ E5]; [fields..|].
  rewrite E1, E2, E3, E4, E5. rewrite Z.mod_small by (change (2 ^ SIZE_A) with 256; lia). done.
Qed.

Lemma set_b_fields i b : 0 <= b <= MAXARG_B ->
  GETARG_B (SETARG_B i b) = b /\ GET_OPCODE (SETARG_B i b) = GET_OPCODE i /\ GETARG_A (SETARG_B i b) = GETARG_A i.
Proof.
  intros Hb. change MAXARG_B with 511 in *. unfold GETARG_A, SETARG_B, GET_OPCODE, GETARG_B.
  destruct (get_set_field SIZE_B POS_B SIZE_OP POS_OP i b) as [E1 E2]; [fields..|].
  destruct (get_set_field SIZE_B POS_B SIZE_A POS_A i b) as [_ E3]; [fields..|].
  rewrite E1, E2, E3. rewrite Z.mod_small by (change (2 ^ SIZE_B) with 512; lia). done.
Qed.

Lemma set_sbx_fields i sbx : - MAXARG_sBx <= sbx <= MAXARG_sBx ->
  GETARG_sBx (SETARG_sBx i sbx) = sbx /\ GET_OPCODE (SETARG_sBx i sbx) = GET_OPCODE i /\ GETARG_A (SETARG_sBx i sbx) = GETARG_A i.
Proof.
  intros Hs. destruct (instruction_fields 0 0 0 0 0) as (_ & _ & E & _); [fields..|]. destruct (E i sbx) as (? & ? & ?); [lia|done].
Qed.
#[export] Hint Resolve opcode_range : instr.
