(* ===== verification/LProto.v ===== *)
(** * Function prototypes (src/lua/lobject.h)

    A [Proto] with its constants, code, nested prototypes and debug information. A
    string pointer that may be NULL is an [option]; two pointers to interned
    strings are equal when the strings are. *)
From stdpp Require Import base list option.
From Stdlib Require Import ZArith Lia.
From S2P Require Import Prelude.
Local Open Scope Z_scope.

(** The constants a prototype may hold: [k] is an array of [TValue]s, of these types only. *)
Inductive kvalue := KNil | KBoolean (b : bool) | KNumber (n : Z) | KString (s : option bytes).

Definition kisstring (o : kvalue) : bool := match o with KString _ => true | _ => false end.

Record LocVar := { varname : option bytes; startpc : Z; endpc : Z }.

Inductive Proto := MkProto {
  source : option bytes;
  linedefined : Z;
  lastlinedefined : Z;
  nups : Z;
  numparams : Z;
  is_vararg : Z;
  maxstacksize : Z;
  code : list Z;
  k : list kvalue;
  p : list Proto;
  lineinfo : list Z;
  locvars : list LocVar;
  upvalues : list (option bytes);
}.

Definition sizecode (f : Proto) : Z := Z.of_nat (length (code f)).
Definition sizek (f : Proto) : Z := Z.of_nat (length (k f)).
Definition sizep (f : Proto) : Z := Z.of_nat (length (p f)).
Definition sizelineinfo (f : Proto) : Z := Z.of_nat (length (lineinfo f)).
Definition sizeupvalues (f : Proto) : Z := Z.of_nat (length (upvalues f)).
Definition sizelocvars (f : Proto) : Z := Z.of_nat (length (locvars f)).

Definition VARARG_HASARG : Z := 1.
Definition VARARG_ISVARARG : Z := 2.
Definition VARARG_NEEDSARG : Z := 4.
Definition MAXSTACK : Z := 250.
Definition LUAI_MAXCCALLS : Z := 200.
Definition LUA_MULTRET : Z := -1.

(** The nesting depth of a prototype. *)
Fixpoint proto_depth (f : Proto) : nat := S (list_max (map proto_depth (p f))).

(** Induction over a prototype and the ones nested in it. *)
Definition proto_rect' (P : Proto -> Prop) (H : forall f, Forall P (p f) -> P f) : forall f, P f :=
  fix go f := H f ((fix gos l := match l return Forall P l with
                                 | [] => List.Forall_nil _
                                 | g :: l => List.Forall_cons _ g l (go g) (gos l)
                                 end) (p f)).

Lemma proto_depth_in f g : In g (p f) -> (proto_depth g < proto_depth f)%nat.
Proof.
  intros Hg. destruct f. simpl in *. apply Nat.lt_succ_r.
  pose proof (list_max_le (map proto_depth p0) (list_max (map proto_depth p0))) as [Hm _].
  specialize (Hm (Nat.le_refl _)). rewrite List.Forall_forall in Hm. apply Hm. by apply in_map.
Qed.
