(* ===== verification/LDebug.v ===== *)
(** * The code checker (src/lua/ldebug.c)

    [symbexec] walks over the code of a prototype, checking every instruction, and
    remembers the last one that set a register. A failed check is [Some None]; a
    read outside the arrays of the prototype, which the checks must exclude, is
    [None]. [vm_next] gives the places where luaV_execute continues after an
    instruction; the theorems say that checked code stays inside its own code. *)
From stdpp Require Import base list option.
From Stdlib Require Import ZArith Lia ZifyBool.
From S2P Require Import Prelude LOpcodes LProto.
Local Open Scope Z_scope.

(** [check(x)]: leave [symbexec] with 0 unless [x]. *)
Definition check {A} (x : bool) (k : option (option A)) : option (option A) :=
  if x then k else Some None.

Definition checkreg (pt : Proto) (reg : Z) : bool := reg <? maxstacksize pt.

Definition precheck (pt : Proto) : option bool :=
  if negb (maxstacksize pt <=? MAXSTACK) then Some false
  else if negb (numparams pt + Z.land (is_vararg pt) VARARG_HASARG <=? maxstacksize pt) then Some false
  else if negb ((Z.land (is_vararg pt) VARARG_NEEDSARG =? 0) || negb (Z.land (is_vararg pt) VARARG_HASARG =? 0)) then Some false
  else if negb (sizeupvalues pt <=? nups pt) then Some false
  else if negb ((sizelineinfo pt =? sizecode pt) || (sizelineinfo pt =? 0)) then Some false
  else if negb (0 <? sizecode pt) then Some false
  else i ← code pt !! Z.to_nat (sizecode pt - 1); Some (bool_decide (to_opcode (GET_OPCODE i) = Some OP_RETURN)).

Definition luaG_checkopenop (i : Z) : bool :=
  match to_opcode (GET_OPCODE i) with
  | Some (OP_CALL | OP_TAILCALL | OP_RETURN | OP_SETLIST) => GETARG_B i =? 0
  | _ => false
  end.

Definition checkArgMode (pt : Proto) (r : Z) (mode : OpArgMask) : bool :=
  match mode with
  | OpArgN => r =? 0
  | OpArgU => true
  | OpArgR => checkreg pt r
  | OpArgK => if ISK r then INDEXK r <? sizek pt else r <? maxstacksize pt
  end.

Definition opcode_is (i : Z) (op : OpCode) : bool := bool_decide (to_opcode (GET_OPCODE i) = Some op).

(** An OP_SETLIST whose count is in the next word. *)
Definition long_setlist (i : Z) : bool := opcode_is i OP_SETLIST && (GETARG_C i =? 0).

(** [for (j = 0; j < dest; j++)] over the words before [dest]: the value of [j]. *)
Fixpoint setlist_run (pt : Proto) (dest : nat) : option nat :=
  match dest with
  | O => Some 0%nat
  | S d =>
      i ← code pt !! d;
      if long_setlist i then j ← setlist_run pt d; Some (S j) else Some 0%nat
  end.

(** The first switch: reads and checks the arguments of the instruction at [pc]. *)
Definition check_args (pt : Proto) (pc i : Z) (op : OpCode) : option (option (Z * Z)) :=
  match getOpMode op with
  | iABC =>
      let b := GETARG_B i in
      let c := GETARG_C i in
      check (checkArgMode pt b (getBMode op)) (check (checkArgMode pt c (getCMode op)) (Some (Some (b, c))))
  | iABx =>
      let b := GETARG_Bx i in
      check (negb (bool_decide (getBMode op = OpArgK)) || (b <? sizek pt)) (Some (Some (b, 0)))
  | iAsBx =>
      let b := GETARG_sBx i in
      if bool_decide (getBMode op = OpArgR) then
        let dest := pc + 1 + b in
        check ((0 <=? dest) && (dest <? sizecode pt))
          (if 0 <? dest then
             j ← setlist_run pt (Z.to_nat dest);
             check (Z.land (Z.of_nat j) 1 =? 0) (Some (Some (b, 0)))
           else Some (Some (b, 0)))
      else Some (Some (b, 0))
  end.

(** The pseudo-instructions of a closure, [j = 1 .. nup]. *)
Fixpoint check_pseudo (pt : Proto) (pc : Z) (nup : nat) : option bool :=
  match nup with
  | O => Some true
  | S n =>
      ok ← check_pseudo pt pc n;
      if ok : bool then
        i ← code pt !! Z.to_nat (pc + Z.of_nat nup);
        Some (opcode_is i OP_GETUPVAL || opcode_is i OP_MOVE)
      else Some false
  end.

(** The second switch: the new [pc] (before the loop's increment) and [last]. *)
Definition check_op (pt : Proto) (lastpc reg pc last : Z) (op : OpCode) (a b c : Z) : option (option (Z * Z)) :=
  let next := Some (Some (pc, last)) in
  match op with
  | OP_LOADBOOL =>
      if c =? 1 then
        check (pc + 2 <? sizecode pt)
          (i ← code pt !! Z.to_nat (pc + 1);
           check (negb (opcode_is i OP_SETLIST) || negb (GETARG_C i =? 0)) next)
      else next
  | OP_LOADNIL => if (a <=? reg) && (reg <=? b) then Some (Some (pc, pc)) else next
  | OP_GETUPVAL | OP_SETUPVAL => check (b <? nups pt) next
  | OP_GETGLOBAL | OP_SETGLOBAL => o ← k pt !! Z.to_nat b; check (kisstring o) next
  | OP_SELF => check (checkreg pt (a + 1)) (if reg =? a + 1 then Some (Some (pc, pc)) else next)
  | OP_CONCAT => check (b <? c) next
  | OP_TFORLOOP =>
      check (1 <=? c) (check (checkreg pt (a + 2 + c)) (if a + 2 <=? reg then Some (Some (pc, pc)) else next))
  | OP_FORLOOP | OP_FORPREP | OP_JMP =>
      check (bool_decide (op = OP_JMP) || checkreg pt (a + 3))
        (let dest := pc + 1 + b in
         if negb (reg =? NO_REG) && (pc <? dest) && (dest <=? lastpc) then Some (Some (pc + b, last)) else next)
  | OP_CALL | OP_TAILCALL =>
      check ((b =? 0) || checkreg pt (a + b - 1))
        (let c := c - 1 in
         let last := if a <=? reg then pc else last in
         if c =? LUA_MULTRET then
           i ← code pt !! Z.to_nat (pc + 1); check (luaG_checkopenop i) (Some (Some (pc, last)))
         else check ((c =? 0) || checkreg pt (a + c - 1)) (Some (Some (pc, last))))
  | OP_RETURN => let b := b - 1 in check (negb (0 <? b) || checkreg pt (a + b - 1)) next
  | OP_SETLIST =>
      check (negb (0 <? b) || checkreg pt (a + b))
        (if c =? 0 then check (pc + 1 <? sizecode pt - 1) (Some (Some (pc + 1, last))) else next)
  | OP_CLOSURE =>
      check (b <? sizep pt)
        (g ← p pt !! Z.to_nat b;
         let nup := nups g in
         check (pc + nup <? sizecode pt)
           (ok ← check_pseudo pt pc (Z.to_nat nup);
            check ok (if negb (reg =? NO_REG) then Some (Some (pc + nup, last)) else next)))
  | OP_VARARG =>
      check (negb (Z.land (is_vararg pt) VARARG_ISVARARG =? 0) && (Z.land (is_vararg pt) VARARG_NEEDSARG =? 0))
        (let b := b - 1 in
         if b =? LUA_MULTRET then
           i ← code pt !! Z.to_nat (pc + 1);
           check (luaG_checkopenop i) (check (checkreg pt (a + b - 1)) next)
         else check (checkreg pt (a + b - 1)) next)
  | _ => next
  end.

(** One round of the loop. *)
Definition sym_step (pt : Proto) (lastpc reg pc last : Z) : option (option (Z * Z)) :=
  i ← code pt !! Z.to_nat pc;
  match to_opcode (GET_OPCODE i) with
  | None => Some None
  | Some op =>
      let a := GETARG_A i in
      check (checkreg pt a)
        (r ← check_args pt pc i op;
         match r with
         | None => Some None
         | Some (b, c) =>
             let last := if testAMode op && (a =? reg) then pc else last in
             if testTMode op then
               check (pc + 2 <? sizecode pt)
                 (j ← code pt !! Z.to_nat (pc + 1);
                  check (opcode_is j OP_JMP) (check_op pt lastpc reg pc last op a b c))
             else check_op pt lastpc reg pc last op a b c
         end)
  end.

Fixpoint sym_loop (fuel : nat) (pt : Proto) (lastpc reg pc last : Z) : option (option Z) :=
  if pc <? lastpc then
    match fuel with
    | O => None
    | S fuel =>
        r ← sym_step pt lastpc reg pc last;
        match r with
        | None => Some None
        | Some (pc, last) => sym_loop fuel pt lastpc reg (pc + 1) last
        end
    end
  else Some (Some last).

(** Every round moves [pc] forward: [lastpc] rounds are enough. *)
Definition symbexec (pt : Proto) (lastpc reg : Z) : option Z :=
  let last := sizecode pt - 1 in
  ok ← precheck pt;
  if ok : bool then
    r ← sym_loop (Z.to_nat lastpc) pt lastpc reg 0 last;
    match r with None => Some 0 | Some last => code pt !! Z.to_nat last end
  else Some 0.

Definition luaG_checkcode (pt : Proto) : option bool :=
  r ← symbexec pt (sizecode pt) NO_REG; Some (negb (r =? 0)).

(** ** Where luaV_execute continues

    The offsets of the next instruction after the one at [pc], whose word is [i]
    (lvm.c, the changes of [pc] in the cases of the main loop). *)
Definition next_jump (pc i : Z) : list Z := [pc + 1 + GETARG_sBx i].

Definition next_loadbool (pc i : Z) : list Z := [if negb (GETARG_C i =? 0) then pc + 2 else pc + 1].

(** Comparisons and tests jump with the offset of the word after them, or skip it. *)
Definition next_test (pt : Proto) (pc : Z) : option (list Z) :=
  j ← code pt !! Z.to_nat (pc + 1); Some [pc + 1 + GETARG_sBx j + 1; pc + 2].

Definition next_forloop (pc i : Z) : list Z := [pc + 1 + GETARG_sBx i; pc + 1].

Definition next_setlist (pc i : Z) : list Z := [if GETARG_C i =? 0 then pc + 2 else pc + 1].

Definition next_closure (pt : Proto) (pc i : Z) : option (list Z) :=
  g ← p pt !! Z.to_nat (GETARG_Bx i); Some [pc + 1 + nups g].

Definition vm_next (pt : Proto) (pc : Z) : option (list Z) :=
  i ← code pt !! Z.to_nat pc;
  op ← to_opcode (GET_OPCODE i);
  match op with
  | OP_LOADBOOL => Some (next_loadbool pc i)
  | OP_JMP | OP_FORPREP => Some (next_jump pc i)
  | OP_EQ | OP_LT | OP_LE | OP_TEST | OP_TESTSET | OP_TFORLOOP => next_test pt pc
  | OP_FORLOOP => Some (next_forloop pc i)
  | OP_SETLIST => Some (next_setlist pc i)
  | OP_CLOSURE => next_closure pt pc i
  | OP_RETURN => Some []
  | _ => Some [pc + 1]
  end.

(** ** Lemmas on the checks *)
Lemma check_Some {A} x (m : option (option A)) r : check x m = Some (Some r) -> x = true /\ m = Some (Some r).
Proof. by destruct x. Qed.

Lemma check_total {A} x (m : option (option A)) : (x = true -> is_Some m) -> is_Some (check x m).
Proof. destruct x; simpl; eauto. Qed.

Lemma GETARG_sBx_eq i : GETARG_sBx i = GETARG_Bx i - 131071.
Proof. done. Qed.

Lemma getarg_nonneg s pos i : 0 <= s <= 32 -> 0 <= GETFIELD s pos i.
Proof. intros. by apply getfield_range. Qed.

(** Takes one successful check or lookup off a hypothesis. *)
Ltac inv_check H :=
  repeat match type of H with
  | check _ _ = Some (Some _) => let Hc := fresh "Hc" in apply check_Some in H as [Hc H]
  | (_ ≫= _) = Some _ => let x := fresh "x" in let Hx := fresh "Hx" in apply bind_Some in H as (x & Hx & H)
  | (if ?b then _ else _) = Some (Some _) => let E := fresh "E" in destruct b eqn:E
  | match ?m with Some _ => _ | None => Some None end = Some (Some _) => let E := fresh "E" in destruct m eqn:E; [|done]
  end.

Section Checked.
Variable pt : Proto.
Hypothesis nups_nonneg : Forall (fun g => 0 <= nups g) (p pt).

Abbreviation word pc := (code pt !! Z.to_nat pc).

(** *** The words that are instructions and not counts *)
Inductive start_from (o : Z) : Z -> Prop :=
| start_0 : start_from o o
| start_next pc i : start_from o pc -> word pc = Some i -> long_setlist i = false -> start_from o (pc + 1)
| start_long pc i : start_from o pc -> word pc = Some i -> long_setlist i = true -> start_from o (pc + 2).

Abbreviation start := (start_from 0).

Lemma start_nonneg pc : start pc -> 0 <= pc.
Proof. induction 1; lia. Qed.

(** Every word is an instruction or the count of the instruction before it. *)
Lemma start_or_count (n : nat) : (n <= length (code pt))%nat ->
  start (Z.of_nat n) \/ exists m i, n = S m /\ start (Z.of_nat m) /\ code pt !! m = Some i /\ long_setlist i = true.
Proof.
  induction n as [|n IH]; intros Hn; [left; constructor|].
  destruct (lookup_lt_is_Some_2 (code pt) n) as [i Hi]; [lia|].
  destruct IH as [Hs|(m & j & -> & Hs & Hj & Hl)]; [lia| |].
  - destruct (long_setlist i) eqn:El; [right; by exists n, i|left].
    replace (Z.of_nat (S n)) with (Z.of_nat n + 1) by lia. apply (start_next _ _ i); [done| |done]. by rewrite Nat2Z.id.
  - left. replace (Z.of_nat (S (S m))) with (Z.of_nat m + 2) by lia. apply (start_long _ _ j); [done| |done]. by rewrite Nat2Z.id.
Qed.

(** An even number of words that look like long SETLISTs: the next one is an instruction. *)
Lemma setlist_run_start n : forall d j, (j <= n)%nat -> (d <= length (code pt))%nat ->
  setlist_run pt d = Some j -> Nat.even j = true -> start (Z.of_nat d).
Proof.
  induction n as [|n IH]; intros d j Hjn Hd Hr He.
  all: destruct d as [|d]; [constructor|]; cbn [setlist_run] in Hr; apply bind_Some in Hr as (i & Hi & Hr).
  all: destruct (long_setlist i) eqn:El.
  2, 4: injection Hr as <-; destruct (start_or_count (S d)) as [|(m & i' & Em & _ & Hm & Hl)]; [done|done|]; congruence.
  all: apply bind_Some in Hr as (j' & Hr & Hj); injection Hj as <-.
  1: lia.
  destruct j' as [|j']; [done|]. destruct d as [|d]; [done|].
  cbn [setlist_run] in Hr. apply bind_Some in Hr as (i2 & Hi2 & Hr). destruct (long_setlist i2) eqn:El2; [|done].
  apply bind_Some in Hr as (j2 & Hr & Hj2). injection Hj2 as ->.
  replace (Z.of_nat (S (S d))) with (Z.of_nat d + 2) by lia. apply (start_long _ _ i2); [|by rewrite Nat2Z.id|done].
  apply (IH d j'); [lia|lia|done|by rewrite <- He].
Qed.

Lemma setlist_run_total d : (d <= length (code pt))%nat -> is_Some (setlist_run pt d).
Proof.
  induction d as [|d IH]; intros Hd; cbn [setlist_run]; [done|].
  destruct (lookup_lt_is_Some_2 (code pt) d) as [i ->]; [lia|]. cbn [mbind option_bind].
  destruct (long_setlist i); [|done]. destruct IH as [j ->]; [lia|]. done.
Qed.

(** *** What a successful round has checked *)
Lemma precheck_return : precheck pt = Some true ->
  0 < sizecode pt /\ exists i, word (sizecode pt - 1) = Some i /\ to_opcode (GET_OPCODE i) = Some OP_RETURN.
Proof.
  unfold precheck. intros H.
  repeat match type of H with (if negb ?b then _ else _) = _ => destruct b eqn:?; cbn [negb] in H; [|discriminate] end.
  apply bind_Some in H as (x & Hx & H). split; [lia|].
  exists x. split; [done|]. injection H as H. by apply bool_decide_eq_true in H.
Qed.

Lemma sym_step_inv lastpc reg pc last r : sym_step pt lastpc reg pc last = Some (Some r) ->
  exists i op b c last', word pc = Some i /\ to_opcode (GET_OPCODE i) = Some op /\
    checkreg pt (GETARG_A i) = true /\ check_args pt pc i op = Some (Some (b, c)) /\
    (testTMode op = true -> pc + 2 < sizecode pt /\ exists j, word (pc + 1) = Some j /\ opcode_is j OP_JMP = true) /\
    check_op pt lastpc reg pc last' op (GETARG_A i) b c = Some (Some r).
Proof.
  unfold sym_step. intros H. apply bind_Some in H as (i & Hi & H).
  destruct (to_opcode _) as [op|] eqn:Hop; [|done]. apply check_Some in H as [Ha H].
  apply bind_Some in H as ([[b c]|] & Hargs & H); [|done].
  set (last' := if _ && _ then pc else last) in H. exists i, op, b, c, last'. do 4 (split; [done|]).
  destruct (testTMode op); [|done]. apply check_Some in H as [Hlt H]. apply bind_Some in H as (j & Hj & H).
  apply check_Some in H as [Hjmp H]. split; [|done]. intros _. split; [lia|]. by exists j.
Qed.

(** Without a register to trace only a long SETLIST moves [pc]. *)
Lemma check_op_next lastpc pc last op a b c pc' last' :
  check_op pt lastpc NO_REG pc last op a b c = Some (Some (pc', last')) ->
  pc' = if bool_decide (op = OP_SETLIST) && (c =? 0) then pc + 1 else pc.
Proof.
  unfold check_op. rewrite Z.eqb_refl. cbn [negb andb].
  destruct op; intros H; inv_check H; simplify_eq; simpl; rewrite ?E; try done.
Qed.

Lemma start_from_le o pc : start_from o pc -> o <= pc.
Proof. induction 1; lia. Qed.

Lemma start_from_front o pc i : word o = Some i -> start_from o pc ->
  pc = o \/ start_from (if long_setlist i then o + 2 else o + 1) pc.
Proof.
  intros Hi. induction 1 as [|pc j Hs IH Hj Hl|pc j Hs IH Hj Hl]; [by left| |]; right.
  - destruct IH as [->|IH]; [|by eapply start_next]. rewrite Hj in Hi. injection Hi as ->. rewrite Hl. constructor.
  - destruct IH as [->|IH]; [|by eapply start_long]. rewrite Hj in Hi. injection Hi as ->. rewrite Hl. constructor.
Qed.

Lemma check_args_SETLIST pc i b c : check_args pt pc i OP_SETLIST = Some (Some (b, c)) -> c = GETARG_C i.
Proof. unfold check_args. change (getOpMode OP_SETLIST) with iABC. cbv beta iota zeta. intros H. inv_check H. congruence. Qed.

Lemma long_setlist_op i op : to_opcode (GET_OPCODE i) = Some op ->
  long_setlist i = bool_decide (op = OP_SETLIST) && (GETARG_C i =? 0).
Proof. intros E. unfold long_setlist, opcode_is. rewrite E. f_equal. apply bool_decide_ext. naive_solver. Qed.

(** A round without a register to trace goes from an instruction to the next. *)
Lemma sym_step_next lastpc pc last pc' last' i :
  sym_step pt lastpc NO_REG pc last = Some (Some (pc', last')) -> word pc = Some i ->
  pc' + 1 = if long_setlist i then pc + 2 else pc + 1.
Proof.
  intros H Hi. destruct (sym_step_inv _ _ _ _ _ H) as (i' & op & b & c & l & Hi' & Hop & _ & Ha & _ & Ho).
  assert (i' = i) as -> by congruence. apply check_op_next in Ho. rewrite (long_setlist_op _ op) by done.
  destruct (decide (op = OP_SETLIST)) as [->|Hne].
  - apply check_args_SETLIST in Ha. subst c. rewrite Ho. rewrite bool_decide_eq_true_2 by done. destruct (GETARG_C i =? 0); simpl; lia.
  - rewrite Ho. rewrite bool_decide_eq_false_2 by done. simpl. lia.
Qed.

(** The loop has run a round at every instruction before [lastpc]. *)
Lemma sym_loop_rounds fuel lastpc pc last r : sym_loop fuel pt lastpc NO_REG pc last = Some (Some r) ->
  forall pc', start_from pc pc' -> pc' < lastpc -> exists l r', sym_step pt lastpc NO_REG pc' l = Some (Some r').
Proof.
  revert pc last. induction fuel as [|fuel IH]; intros pc last H pc' Hs Hlt;
    pose proof (start_from_le _ _ Hs); cbn [sym_loop] in H; destruct (Z.ltb_spec pc lastpc); try lia; [done|].
  apply bind_Some in H as ([[pc1 last1]|] & Hstep & H); [|done].
  destruct (sym_step_inv _ _ _ _ _ Hstep) as (i & _ & _ & _ & _ & Hi & _).
  destruct (start_from_front _ _ i Hi Hs) as [->|Hs']; [by exists last, (pc1, last1)|].
  rewrite <- (sym_step_next _ _ _ _ _ _ Hstep Hi) in Hs'. by apply (IH _ _ H).
Qed.

(** *** Where an instruction leads *)
Hypothesis pre : precheck pt = Some true.
Hypothesis rounds : forall pc, start pc -> pc < sizecode pt ->
  exists l r, sym_step pt (sizecode pt) NO_REG pc l = Some (Some r).

Lemma word_lt pc i : 0 <= pc -> word pc = Some i -> pc < sizecode pt.
Proof. intros ? H%lookup_lt_Some. unfold sizecode. lia. Qed.

(** An instruction that is neither a RETURN nor a long SETLIST has a next one. *)
Lemma fall_through pc i : start pc -> word pc = Some i -> to_opcode (GET_OPCODE i) <> Some OP_RETURN ->
  long_setlist i = false -> start (pc + 1) /\ pc + 1 < sizecode pt.
Proof.
  intros Hs Hi Hr Hl. split; [by eapply start_next|]. pose proof (start_nonneg _ Hs).
  pose proof (word_lt _ _ ltac:(done) Hi). destruct (precheck_return pre) as (_ & j & Hj & Hop).
  assert (pc <> sizecode pt - 1) by (intros ->; congruence). lia.
Qed.

(** A jump that was checked leads to an instruction. *)
Lemma jump_target pc i op b c : check_args pt pc i op = Some (Some (b, c)) -> getOpMode op = iAsBx -> getBMode op = OpArgR ->
  start (pc + 1 + GETARG_sBx i) /\ pc + 1 + GETARG_sBx i < sizecode pt.
Proof.
  unfold check_args. intros H Hm Hb. rewrite Hm, Hb in H. cbv zeta in H. rewrite bool_decide_eq_true_2 in H by done.
  inv_check H.
  - split; [|lia]. set (d := pc + 1 + GETARG_sBx i) in *. rewrite <- (Z2Nat.id d) by lia.
    apply (setlist_run_start x _ x); [done|unfold sizecode in *; lia|done|].
    change 1 with (Z.ones 1) in Hc0. rewrite Z.land_ones in Hc0 by lia. change (2 ^ 1) with 2 in Hc0.
    apply Nat.even_spec. exists (Z.to_nat (Z.of_nat x / 2)). pose proof (Z.div_mod (Z.of_nat x) 2). lia.
  - split; [|lia]. assert (pc + 1 + GETARG_sBx i = 0) as -> by lia. constructor.
Qed.

Lemma check_pseudo_ops pc n m : check_pseudo pt pc n = Some true -> (1 <= m <= n)%nat ->
  exists i op, word (pc + Z.of_nat m) = Some i /\ to_opcode (GET_OPCODE i) = Some op /\ (op = OP_GETUPVAL \/ op = OP_MOVE).
Proof.
  induction n as [|n IH]; intros H Hm; [lia|]. cbn [check_pseudo] in H. apply bind_Some in H as ([|] & H & Hn); [|done].
  destruct (decide (m = S n)) as [->|]; [|apply IH; [done|lia]].
  apply bind_Some in Hn as (i & Hi & Hn). injection Hn as Hn. exists i.
  apply orb_prop in Hn as [Hn|Hn]; apply bool_decide_eq_true in Hn; eexists; (split; [done|]); (split; [done|]); [by left|by right].
Qed.

(** The pseudo-instructions of a closure are instructions of their own. *)
Lemma closure_target pc i n : start pc -> word pc = Some i -> to_opcode (GET_OPCODE i) = Some OP_CLOSURE ->
  check_pseudo pt pc n = Some true -> forall m, (m <= n)%nat -> start (pc + 1 + Z.of_nat m) /\ pc + 1 + Z.of_nat m < sizecode pt.
Proof.
  intros Hs Hi Hop Hp. induction m as [|m IH]; intros Hm.
  - rewrite Z.add_0_r. apply (fall_through pc i); [done|done|congruence|]. by rewrite (long_setlist_op _ OP_CLOSURE).
  - destruct (check_pseudo_ops pc n (S m) Hp) as (j & op & Hj & Hopj & Hor); [lia|].
    replace (pc + Z.of_nat (S m)) with (pc + 1 + Z.of_nat m) in Hj by lia.
    replace (pc + 1 + Z.of_nat (S m)) with (pc + 1 + Z.of_nat m + 1) by lia.
    apply (fall_through _ j); [apply IH; lia|done|destruct Hor; congruence|].
    rewrite (long_setlist_op _ op) by done. destruct Hor as [-> | ->]; done.
Qed.

Definition inside (pc : Z) : Prop := start pc /\ pc < sizecode pt.

Lemma inside_singleton pc : inside pc -> exists l, Some [pc] = Some l /\ Forall inside l.
Proof. intros. exists [pc]. split; [done|by constructor]. Qed.

(** The skip of a test lands after the jump that follows it; so does that jump. *)
Lemma test_targets pc i op : start pc -> word pc = Some i -> to_opcode (GET_OPCODE i) = Some op -> testTMode op = true ->
  pc < sizecode pt -> exists l, next_test pt pc = Some l /\ Forall inside l.
Proof.
  intros Hs Hi Hop Ht Hlt. destruct (rounds pc Hs Hlt) as (last & r & H).
  destruct (sym_step_inv _ _ _ _ _ H) as (i' & op' & b & c & l & Hi' & Hop' & _ & _ & Htest & _).
  assert (op' = op) as -> by congruence. destruct (Htest Ht) as (Hlt2 & j & Hj & Hjmp).
  apply bool_decide_eq_true in Hjmp.
  assert (start (pc + 1)) as Hs1.
  { eapply start_next; [done|done|]. rewrite (long_setlist_op _ op) by done. destruct op; done. }
  destruct (rounds (pc + 1) Hs1 ltac:(lia)) as (last' & r' & H').
  destruct (sym_step_inv _ _ _ _ _ H') as (j' & opj & b' & c' & l' & Hj' & Hopj & _ & Hargs & _).
  assert (j' = j) as -> by congruence. assert (opj = OP_JMP) as -> by congruence.
  unfold next_test. rewrite Hj. cbn [mbind option_bind]. eexists; split; [done|]. repeat constructor.
  - replace (pc + 1 + GETARG_sBx j + 1) with (pc + 1 + 1 + GETARG_sBx j) by lia. by eapply jump_target.
  - replace (pc + 1 + GETARG_sBx j + 1) with (pc + 1 + 1 + GETARG_sBx j) by lia. by eapply (jump_target (pc + 1)).
  - replace (pc + 2) with (pc + 1 + 1) by lia. eapply start_next; [done|done|]. by rewrite (long_setlist_op _ OP_JMP).
  - lia.
Qed.

Lemma vm_next_inside pc : inside pc ->
  (forall i, word pc = Some i -> to_opcode (GET_OPCODE i) = Some OP_LOADBOOL -> GETARG_C i <= 1) ->
  exists l, vm_next pt pc = Some l /\ Forall inside l.
Proof.
  intros [Hs Hlt] Hbool. destruct (rounds pc Hs Hlt) as (last & [pc' last'] & H).
  destruct (sym_step_inv _ _ _ _ _ H) as (i & op & b & c & l & Hi & Hop & Ha & Hargs & _ & Ho).
  unfold vm_next. rewrite Hi. cbn [mbind option_bind]. rewrite Hop. cbn [mbind option_bind].
  pose proof (fall_through pc i Hs Hi) as Hfall. rewrite Hop, (long_setlist_op _ op) in Hfall by done.
  destruct op; try (apply inside_singleton, Hfall; done); try (by eapply test_targets; eauto).
  - (* LOADBOOL *)
    apply inside_singleton. specialize (Hbool i Hi Hop). pose proof (getarg_nonneg SIZE_C POS_C i) as Hc.
    unfold check_op in Ho. unfold check_args in Hargs. change (getOpMode OP_LOADBOOL) with iABC in Hargs.
    cbv beta iota zeta in Hargs. inv_check Hargs. simplify_eq. destruct (Z.eqb_spec (GETARG_C i) 0) as [E0|E0]; cbn [negb].
    + by apply Hfall.
    + assert (GETARG_C i = 1) as E1 by (unfold GETARG_C in *; fields). rewrite E1, Z.eqb_refl in Ho. inv_check Ho.
      destruct Hfall as [Hs1 _]; [done|done|]. split; [|lia].
      replace (pc + 2) with (pc + 1 + 1) by lia. eapply start_next; [done|done|].
      unfold long_setlist. destruct (opcode_is x OP_SETLIST); [|done]. simpl in *. by destruct (GETARG_C x =? 0).
  - (* JMP *) apply inside_singleton. by eapply jump_target.
  - (* RETURN *) eexists; split; [done|constructor].
  - (* FORLOOP *)
    eexists; split; [done|]. repeat constructor; [by eapply jump_target|by eapply (jump_target pc)|by apply Hfall|by apply Hfall].
  - (* FORPREP *) apply inside_singleton. by eapply jump_target.
  - (* SETLIST *)
    apply inside_singleton. pose proof (check_args_SETLIST _ _ _ _ Hargs) as ->.
    destruct (Z.eqb_spec (GETARG_C i) 0) as [E0|E0].
    + unfold check_op in Ho. rewrite E0, Z.eqb_refl in Ho. inv_check Ho. split; [|lia].
      eapply start_long; [done|done|]. rewrite (long_setlist_op _ OP_SETLIST) by done. by rewrite E0.
    + apply Hfall; [done|]. rewrite bool_decide_eq_true_2 by done. simpl. lia.
  - (* CLOSURE *)
    unfold check_op in Ho. unfold check_args in Hargs. change (getOpMode OP_CLOSURE) with iABx in Hargs.
    cbv beta iota zeta in Hargs. inv_check Hargs. simplify_eq. inv_check Ho; [by rewrite Z.eqb_refl in E|].
    unfold next_closure. rewrite Hx. cbn [mbind option_bind]. apply inside_singleton.
    pose proof (proj1 (Forall_forall _ _) nups_nonneg x) as Hn. specialize (Hn ltac:(by eapply list_elem_of_lookup_2)).
    subst. pose proof (closure_target pc i _ Hs Hi Hop Hx0 (Z.to_nat (nups x)) (Nat.le_refl _)) as Ht.
    by rewrite Z2Nat.id in Ht by done.
Qed.
End Checked.

(** ** Reachable code *)
Inductive reachable (pt : Proto) : Z -> Prop :=
| reach_start : reachable pt 0
| reach_step pc l pc' : reachable pt pc -> vm_next pt pc = Some l -> pc' ∈ l -> reachable pt pc'.

Definition nups_ok (pt : Proto) : Prop := Forall (fun g => 0 <= nups g) (p pt).

Lemma checkcode_rounds pt : luaG_checkcode pt = Some true ->
  precheck pt = Some true /\
  forall pc, start_from pt 0 pc -> pc < sizecode pt -> exists l r, sym_step pt (sizecode pt) NO_REG pc l = Some (Some r).
Proof.
  unfold luaG_checkcode, symbexec. intros H. apply bind_Some in H as (r & H & Hr).
  apply bind_Some in H as (ok & Hok & H). destruct ok; [|simplify_eq/=; by vm_compute in Hr]. split; [done|].
  apply bind_Some in H as ([last|] & H & Hl); [|simplify_eq/=; by vm_compute in Hr]. intros pc Hs Hlt. by eapply sym_loop_rounds.
Qed.

(** C31. Code that the checker accepts stays inside itself: wherever luaV_execute can get
    from the first instruction, there is an instruction (never past the end, never
    the count word of a SETLIST), provided no LOADBOOL has a C above 1. *)
Theorem verified_code_contained (pt : Proto) :
  nups_ok pt -> luaG_checkcode pt = Some true ->
  (forall pc i, code pt !! pc = Some i -> to_opcode (GET_OPCODE i) = Some OP_LOADBOOL -> GETARG_C i <= 1) ->
  forall pc, reachable pt pc -> 0 <= pc < sizecode pt /\ start_from pt 0 pc /\ is_Some (vm_next pt pc).
Proof.
  intros Hn Hc Hb. destruct (checkcode_rounds pt Hc) as [Hpre Hrounds].
  assert (forall pc, inside pt pc -> exists l, vm_next pt pc = Some l /\ Forall (inside pt) l) as Hnext.
  { intros pc Hpc. apply vm_next_inside; [done..|]. intros i Hi. by eapply Hb. }
  assert (forall pc, reachable pt pc -> inside pt pc) as Hin.
  { induction 1 as [|pc l pc' _ IH Hl Hin]; [split; [constructor|apply (precheck_return pt Hpre)]|].
    destruct (Hnext pc IH) as (l' & Hl' & Hall). assert (l' = l) as -> by congruence.
    by apply (proj1 (Forall_forall _ _) Hall). }
  intros pc Hr. specialize (Hin pc Hr). destruct (Hnext pc Hin) as (l & Hl & _). destruct Hin as [Hs Hlt].
  pose proof (start_nonneg pt pc Hs). split; [lia|]. split; [done|]. by exists l.
Qed.

(** A function of two words: a LOADBOOL with the given C, and a RETURN. *)
Definition loadbool_proto (c : Z) : Proto :=
  MkProto None 0 0 0 0 0 2 [CREATE_ABC 2 0 0 c; CREATE_ABC 30 0 1 0] [] [] [] [] [].

(** The checker looks at the jump of a LOADBOOL only when C is 1, but luaV_execute
    skips an instruction for every C that is not 0: with C above 1 accepted code runs
    off its end. *)
Theorem loadbool_escapes (c : Z) :
  2 <= c <= MAXARG_C ->
  let pt := loadbool_proto c in
  luaG_checkcode pt = Some true /\ exists pc, reachable pt pc /\ pc = sizecode pt.
Proof.
  intros Hc. change MAXARG_C with 511 in Hc. cbv zeta.
  assert (Forall (fun c => luaG_checkcode (loadbool_proto c) = Some true /\ vm_next (loadbool_proto c) 0 = Some [2]) (seqZ 2 510)) as Hall.
  { apply (bool_decide_eq_true_1 _). vm_compute. reflexivity. }
  apply Forall_forall with (x := c) in Hall; [|apply elem_of_seqZ; lia]. destruct Hall as [H1 H2].
  split; [done|]. exists 2. split; [|done]. by eapply reach_step; [constructor|exact H2|left].
Qed.

(** ** The checker itself *)
Section Total.
Variable pt : Proto.
Hypothesis nups_nonneg : nups_ok pt.

Lemma precheck_total : is_Some (precheck pt).
Proof.
  unfold precheck. repeat (case_match; [done|]).
  destruct (lookup_lt_is_Some_2 (code pt) (Z.to_nat (sizecode pt - 1))) as [i ->]; [unfold sizecode in *; lia|]. done.
Qed.

Lemma word_total pc : 0 <= pc < sizecode pt -> is_Some (code pt !! Z.to_nat pc).
Proof. intros. apply lookup_lt_is_Some_2. unfold sizecode in *. lia. Qed.

Lemma check_args_total pc i op : is_Some (check_args pt pc i op).
Proof.
  unfold check_args. destruct (getOpMode op); [repeat (apply check_total; intros)..|]; try done.
  case_bool_decide; [|done]. apply check_total. intros H1. destruct (Z.ltb_spec 0 (pc + 1 + GETARG_sBx i)); [|done].
  destruct (setlist_run_total pt (Z.to_nat (pc + 1 + GETARG_sBx i))) as [j ->]; [unfold sizecode in *; lia|].
  cbn [mbind option_bind]. by apply check_total.
Qed.

Lemma check_pseudo_total pc n : 0 <= pc -> pc + Z.of_nat n < sizecode pt -> is_Some (check_pseudo pt pc n).
Proof.
  intros Hpc. induction n as [|n IH]; intros Hn; cbn [check_pseudo]; [done|].
  destruct IH as [[|] ->]; [lia| |done]. cbn [mbind option_bind].
  destruct (word_total (pc + Z.of_nat (S n))) as [i ->]; [lia|]. done.
Qed.

(** The arguments of constants and prototypes are not negative. *)
Lemma check_args_Bx pc i op b c : getOpMode op = iABx -> check_args pt pc i op = Some (Some (b, c)) ->
  0 <= b /\ (getBMode op = OpArgK -> b < sizek pt).
Proof.
  intros Hm H. unfold check_args in H. rewrite Hm in H. cbv zeta in H. inv_check H. simplify_eq.
  split; [apply getarg_nonneg; done|]. intros Hk. rewrite Hk in Hc. rewrite bool_decide_eq_true_2 in Hc by done. simpl in Hc. lia.
Qed.

Lemma check_op_total lastpc reg pc last op a b c i :
  0 <= pc -> pc + 1 < sizecode pt \/ op = OP_RETURN -> check_args pt pc i op = Some (Some (b, c)) ->
  is_Some (check_op pt lastpc reg pc last op a b c).
Proof.
  intros Hpc Hn Hargs. unfold check_op. destruct op; cbv zeta;
    repeat first [apply check_total; intros | case_match]; try done.
  all: try (destruct (word_total (pc + 1)) as [j ->]; [destruct Hn; [lia|done]|]; cbn [mbind option_bind];
            repeat (apply check_total; intros); done).
  all: try (match type of Hargs with check_args _ _ _ ?op = _ => destruct (check_args_Bx pc i op b c eq_refl Hargs) as [Hb Hk] end;
            destruct (lookup_lt_is_Some_2 (k pt) (Z.to_nat b)) as [o ->]; [specialize (Hk eq_refl); unfold sizek in *; lia|];
            cbn [mbind option_bind]; by apply check_total).
  all: destruct (check_args_Bx pc i OP_CLOSURE b c eq_refl Hargs) as [Hb _].
  all: destruct (lookup_lt_is_Some_2 (p pt) (Z.to_nat b)) as [g Hg]; [unfold sizep in *; lia|]; rewrite Hg; cbn [mbind option_bind].
  all: apply check_total; intros Hlt.
  all: assert (0 <= nups g) by (apply (proj1 (Forall_forall _ _) nups_nonneg g); by eapply list_elem_of_lookup_2).
  all: destruct (check_pseudo_total pc (Z.to_nat (nups g))) as [ok ->]; [done|lia|]; cbn [mbind option_bind].
  all: by apply check_total.
Qed.

Lemma sym_step_total lastpc reg pc last : precheck pt = Some true ->
  0 <= pc < sizecode pt -> is_Some (sym_step pt lastpc reg pc last).
Proof.
  intros Hpre Hpc. unfold sym_step. destruct (word_total pc Hpc) as [i Hi]. rewrite Hi. cbn [mbind option_bind].
  destruct (to_opcode (GET_OPCODE i)) as [op|] eqn:Hop; [|done]. apply check_total. intros _.
  destruct (check_args_total pc i op) as [r Hr]. rewrite Hr. cbn [mbind option_bind]. destruct r as [[b c]|]; [|done].
  assert (pc + 1 < sizecode pt \/ op = OP_RETURN) as Hn.
  { destruct (decide (pc = sizecode pt - 1)) as [->|]; [right|lia].
    destruct (precheck_return pt Hpre) as (_ & j & Hj & Hopj). congruence. }
  cbv zeta. destruct (testTMode op); [|eapply check_op_total; [lia|done|exact Hr]].
  apply check_total. intros Hlt. destruct (word_total (pc + 1)) as [j ->]; [lia|]. cbn [mbind option_bind].
  apply check_total. intros _. eapply check_op_total; [lia|done|exact Hr].
Qed.

Lemma check_op_forward lastpc reg pc last op a b c pc' last' :
  0 <= pc -> check_op pt lastpc reg pc last op a b c = Some (Some (pc', last')) -> pc <= pc'.
Proof.
  intros Hpc H. unfold check_op in H. destruct op; cbv zeta in H; inv_check H; simplify_eq; try lia.
  assert (0 <= nups x) by (apply (proj1 (Forall_forall _ _) nups_nonneg x); by eapply list_elem_of_lookup_2). lia.
Qed.

Lemma check_op_last lastpc reg pc last op a b c pc' last' :
  check_op pt lastpc reg pc last op a b c = Some (Some (pc', last')) -> last' = last \/ last' = pc.
Proof.
  intros H. unfold check_op in H. destruct op; cbv zeta in H; inv_check H; simplify_eq; auto; case_match; auto.
Qed.

Lemma sym_step_range lastpc reg pc last pc' last' : 0 <= pc < sizecode pt -> 0 <= last < sizecode pt ->
  sym_step pt lastpc reg pc last = Some (Some (pc', last')) -> pc <= pc' /\ 0 <= last' < sizecode pt.
Proof.
  intros Hpc Hl H. unfold sym_step in H. apply bind_Some in H as (i & Hi & H).
  destruct (to_opcode _) as [op|]; [|done]. apply check_Some in H as [_ H].
  apply bind_Some in H as ([[b c]|] & _ & H); [|done]. cbv zeta in H.
  set (l := if _ && _ then pc else last) in H. assert (0 <= l < sizecode pt) by (unfold l; destruct (_ && _); lia).
  assert (check_op pt lastpc reg pc l op (GETARG_A i) b c = Some (Some (pc', last'))) as Ho.
  { destruct (testTMode op); [|done]. by inv_check H. }
  split; [by eapply check_op_forward; [lia|]|]. destruct (check_op_last _ _ _ _ _ _ _ _ _ _ Ho) as [-> | ->]; lia.
Qed.

Lemma sym_loop_total lastpc reg : precheck pt = Some true -> lastpc <= sizecode pt ->
  forall fuel pc last, 0 <= pc -> lastpc - pc <= Z.of_nat fuel -> 0 <= last < sizecode pt ->
  exists r, sym_loop fuel pt lastpc reg pc last = Some r /\ forall l, r = Some l -> 0 <= l < sizecode pt.
Proof.
  intros Hpre Hle. induction fuel as [|fuel IH]; intros pc last Hpc Hf Hl; cbn [sym_loop];
    destruct (Z.ltb_spec pc lastpc); [lia|eexists; split; [done|congruence]| |eexists; split; [done|congruence]].
  destruct (sym_step_total lastpc reg pc last Hpre) as [r Hr]; [lia|]. rewrite Hr. cbn [mbind option_bind].
  destruct r as [[pc' last']|]; [|by exists None]. apply sym_step_range in Hr as [Hp' Hl']; [|lia|done].
  apply IH; [lia|lia|done].
Qed.
End Total.

(** The checker itself is safe: on every prototype it comes to an answer without
    reading outside the arrays of the prototype. *)
Theorem luaG_checkcode_total (pt : Proto) :
  nups_ok pt -> exists ok, luaG_checkcode pt = Some ok /\
    (ok = true -> precheck pt = Some true).
Proof.
  intros Hn. destruct (precheck_total pt) as [pre Hpre].
  assert (is_Some (symbexec pt (sizecode pt) NO_REG)) as [r Hr].
  { unfold symbexec. rewrite Hpre. cbn [mbind option_bind]. destruct pre; [|done].
    destruct (precheck_return pt Hpre) as [Hpos _].
    destruct (sym_loop_total pt Hn (sizecode pt) NO_REG Hpre (Z.le_refl _) (Z.to_nat (sizecode pt)) 0 (sizecode pt - 1)) as (l & Hl & Hlr);
      [lia..|]. rewrite Hl. cbn [mbind option_bind]. destruct l as [l|]; [|done]. by apply word_total, Hlr. }
  exists (negb (r =? 0)). unfold luaG_checkcode. rewrite Hr. split; [done|]. intros H. 
  unfold symbexec in Hr. rewrite Hpre in Hr. cbn [mbind option_bind] in Hr. destruct pre; [done|].
  injection Hr as <-. done.
Qed.

(** ** Witnesses *)

(** [LOADBOOL 0 1 0; TEST 0 0; JMP 1; LOADNIL 0 0; RETURN 0 2; RETURN 0 1]. *)
Definition test_proto : Proto :=
  MkProto None 0 0 0 0 0 2
    [CREATE_ABC 2 0 1 0; CREATE_ABC 26 0 0 0; CREATE_ABx 22 0 (1 + MAXARG_sBx); CREATE_ABC 3 0 0 0;
     CREATE_ABC 30 0 2 0; CREATE_ABC 30 0 1 0] [] [] [] [] [].

Lemma verified_code_contained_witness :
  reachable test_proto 4 /\ 0 <= 4 < sizecode test_proto.
Proof.
  assert (reachable test_proto 4) as H.
  { assert (reachable test_proto 1) as H1 by (eapply reach_step; [constructor|vm_compute; reflexivity|left]).
    eapply reach_step; [exact H1|vm_compute; reflexivity|left]. }
  split; [exact H|]. refine (proj1 (verified_code_contained test_proto _ _ _ 4 H)).
  - constructor.
  - vm_compute. reflexivity.
  - intros pc i Hi Hop. do 6 (destruct pc as [|pc]; [injection Hi as <-; vm_compute; discriminate|]). discriminate.
Defined.

Lemma loadbool_escapes_witness :
  luaG_checkcode (loadbool_proto 2) = Some true /\ exists pc, reachable (loadbool_proto 2) pc /\ pc = sizecode (loadbool_proto 2).
Proof. exact (loadbool_escapes 2 ltac:(vm_compute; split; discriminate)). Defined.

Lemma luaG_checkcode_total_witness :
  exists ok, luaG_checkcode test_proto = Some ok /\ (ok = true -> precheck test_proto = Some true).
Proof. exact (luaG_checkcode_total test_proto (List.Forall_nil _)). Defined.
