(* ===== verification/LUndump.v ===== *)
(** * Precompiled chunks (src/lua/ldump.c, src/lua/lundump.c)

    [luaU_dump] hands a prototype to a writer block by block; [luaU_undump] reads one
    back from a [ZIO], block structure and all, and checks its code. The sizes in
    the header are those of a 64-bit build: [int] 4, [size_t] 8, [Instruction] 4,
    [lua_Number] 8, little-endian. Numbers are their IEEE patterns. *)
From stdpp Require Import base list option.
From Stdlib Require Import ZArith Lia.
From S2P Require Import Prelude LOpcodes LProto LDebug LZio.
Local Open Scope Z_scope.

Definition LUA_TNIL : Z := 0.
Definition LUA_TBOOLEAN : Z := 1.
Definition LUA_TNUMBER : Z := 3.
Definition LUA_TSTRING : Z := 4.
Definition LUAC_VERSION : Z := 0x51.
Definition LUAC_FORMAT : Z := 0.
Definition LUAC_HEADERSIZE : nat := 12.

(** The signature is ESC and the letters Lua. *)
Definition luaU_header : bytes :=
  [27; 76; 117; 97] ++ [LUAC_VERSION; LUAC_FORMAT; 1; 4; 8; 4; 8; 0].

(** ** Dumping *)
Section Dump.
Context {W : Type}.
(** The writer: its state, and the status it returns. *)
Variable writer : bytes -> W -> Z * W.
Variable strip : bool.

Record DumpState := { status : Z; data : W }.

Definition DumpBlock (b : bytes) (D : DumpState) : DumpState :=
  if status D =? 0 then let '(st, w) := writer b (data D) in {| status := st; data := w |} else D.

Definition DumpChar (y : Z) : DumpState -> DumpState := DumpBlock [u8 y].
Definition DumpInt (x : Z) : DumpState -> DumpState := DumpBlock (le_encode 4 (u32 x)).
Definition DumpNumber (x : Z) : DumpState -> DumpState := DumpBlock (le_encode 8 x).
Definition DumpSize (x : Z) : DumpState -> DumpState := DumpBlock (le_encode 8 x).

Definition DumpVector (size : nat) (b : list Z) (D : DumpState) : DumpState :=
  DumpBlock (concat ((fun x => le_encode size (uwrap (8 * Z.of_nat size) x)) <$> b)) (DumpInt (Z.of_nat (length b)) D).

Definition DumpString (s : option bytes) (D : DumpState) : DumpState :=
  match s with
  | None => DumpSize 0 D
  | Some s => DumpBlock (s ++ [0]) (DumpSize (Z.of_nat (length s) + 1) D)
  end.

Definition DumpConstant (D : DumpState) (o : kvalue) : DumpState :=
  match o with
  | KNil => DumpChar LUA_TNIL D
  | KBoolean b => DumpChar (if b then 1 else 0) (DumpChar LUA_TBOOLEAN D)
  | KNumber n => DumpNumber n (DumpChar LUA_TNUMBER D)
  | KString s => DumpString s (DumpChar LUA_TSTRING D)
  end.

(** The constants; [DumpFunction] dumps the nested prototypes after them. *)
Definition DumpConstants (f : Proto) (D : DumpState) : DumpState :=
  foldl DumpConstant (DumpInt (sizek f) D) (k f).

Definition DumpLocVar (D : DumpState) (v : LocVar) : DumpState :=
  DumpInt (endpc v) (DumpInt (startpc v) (DumpString (varname v) D)).

Definition DumpDebug (f : Proto) (D : DumpState) : DumpState :=
  let D := DumpVector 4 (if strip then [] else lineinfo f) D in
  let lv := if strip then [] else locvars f in
  let D := foldl DumpLocVar (DumpInt (Z.of_nat (length lv)) D) lv in
  let uv := if strip then [] else upvalues f in
  foldl (fun D s => DumpString s D) (DumpInt (Z.of_nat (length uv)) D) uv.

Fixpoint DumpFunction (f : Proto) (src : option bytes) (D : DumpState) : DumpState :=
  let D := DumpString (if bool_decide (source f = src) || strip then None else source f) D in
  let D := DumpInt (lastlinedefined f) (DumpInt (linedefined f) D) in
  let D := DumpChar (is_vararg f) (DumpChar (numparams f) (DumpChar (nups f) D)) in
  let D := DumpVector 4 (code f) (DumpChar (maxstacksize f) D) in
  let D := DumpInt (sizep f) (DumpConstants f D) in
  DumpDebug f (foldl (fun D g => DumpFunction g (source f) D) D (p f)).

Definition luaU_dump (f : Proto) (w : W) : DumpState :=
  DumpFunction f None (DumpBlock luaU_header {| status := 0; data := w |}).
End Dump.
Arguments DumpState : clear implicits.

(** ** Loading *)

(** A loader reads from the stream; it fails with the reason of [error(S, why)]. *)
Definition Load (A : Type) : Type := ZIO -> LuaM (A * ZIO).

#[export] Instance load_ret : MRet Load := fun A a z => lret (a, z).
#[export] Instance load_bind : MBind Load := fun A B f m z => lbind (m z) (fun r => f (fst r) (snd r)).

Definition load_error {A} (why : string) : Load A := fun _ => lerror why.

Definition LoadBlock (size : nat) : Load bytes := fun z =>
  match luaZ_read z size with
  | None => None
  | Some (r, b, z) => if negb (bool_decide (r = 0%nat)) then lerror "unexpected end" else lret (b, z)
  end.

Definition LoadChar : Load Z := b ← LoadBlock 1; mret (i8 (le_decode b)).
Definition LoadByte : Load Z := c ← LoadChar; mret (u8 c).
Definition LoadInt : Load Z :=
  b ← LoadBlock 4; let x := i32 (le_decode b) in if x <? 0 then load_error "bad integer" else mret x.
Definition LoadNumber : Load Z := b ← LoadBlock 8; mret (le_decode b).

Definition LoadString : Load (option bytes) :=
  b ← LoadBlock 8;
  let size := le_decode b in
  if size =? 0 then mret None
  else s ← LoadBlock (Z.to_nat size); mret (Some (take (length s - 1) s)).

(** [LoadVector(S,b,n,size)]: the elements of a block of [n * size] bytes. *)
Fixpoint words (size n : nat) (b : bytes) : list Z :=
  match n with O => [] | S n => le_decode (take size b) :: words size n (drop size b) end.
Definition LoadVector (n : Z) (size : nat) : Load (list Z) :=
  b ← LoadBlock (Z.to_nat n * size); mret (words size (Z.to_nat n) b).

Definition LoadCode : Load (list Z) := n ← LoadInt; LoadVector n 4.

(** [for (i = 0; i < n; i++) x[i] = l(S);] *)
Fixpoint load_list {A} (l : Load A) (n : nat) : Load (list A) :=
  match n with O => mret [] | S n => x ← l; xs ← load_list l n; mret (x :: xs) end.

Definition LoadConstant : Load kvalue :=
  t ← LoadChar;
  if t =? LUA_TNIL then mret KNil
  else if t =? LUA_TBOOLEAN then c ← LoadChar; mret (KBoolean (negb (c =? 0)))
  else if t =? LUA_TNUMBER then n ← LoadNumber; mret (KNumber n)
  else if t =? LUA_TSTRING then s ← LoadString; mret (KString s)
  else load_error "bad constant".

(** The constants and, with [lf] for [LoadFunction], the nested prototypes. *)
Definition LoadConstants (lf : Load Proto) : Load (list kvalue * list Proto) :=
  n ← LoadInt; ks ← load_list LoadConstant (Z.to_nat n);
  n ← LoadInt; ps ← load_list lf (Z.to_nat n);
  mret (ks, ps).

Definition LoadLocVar : Load LocVar :=
  v ← LoadString; s ← LoadInt; e ← LoadInt; mret {| varname := v; startpc := s; endpc := e |}.

Definition LoadDebug : Load (list Z * list LocVar * list (option bytes)) :=
  n ← LoadInt; li ← LoadVector n 4;
  n ← LoadInt; lv ← load_list LoadLocVar (Z.to_nat n);
  n ← LoadInt; uv ← load_list LoadString (Z.to_nat n);
  mret (i32 <$> li, lv, uv).

(** [luaG_checkcode], whose reads are all inside the prototype (LDebug). *)
Definition checkcode (f : Proto) : Load unit := fun z =>
  match luaG_checkcode f with
  | None => None
  | Some ok => if negb ok then lerror "bad code" else lret (tt, z)
  end.

(** [calls] is how far [nCcalls] is from [LUAI_MAXCCALLS]. *)
Fixpoint LoadFunction (calls : nat) (src : option bytes) : Load Proto :=
  match calls with
  | O => load_error "code too deep"
  | S calls =>
      s ← LoadString;
      let s := match s with None => src | Some _ => s end in
      ld ← LoadInt; lld ← LoadInt; nu ← LoadByte; np ← LoadByte; va ← LoadByte; ms ← LoadByte;
      c ← LoadCode;
      kp ← LoadConstants (LoadFunction calls s);
      d ← LoadDebug;
      let f := MkProto s ld lld nu np va ms c (fst kp) (snd kp) (fst (fst d)) (snd (fst d)) (snd d) in
      _ ← checkcode f;
      mret f
  end.

Definition LoadHeader : Load unit :=
  s ← LoadBlock LUAC_HEADERSIZE;
  if bool_decide (luaU_header = s) then mret tt else load_error "bad header".

(** The name shown in the error messages. *)
Definition chunk_name (name : bytes) : bytes :=
  match name with
  | [] => []
  | c :: rest => if (c =? 64) || (c =? 61) then rest
                 else if c =? 27 then bytes_of_string "binary string" else name
  end.

(** [nCcalls] is the depth of C calls at the call of [luaU_undump]; an error carries
    its whole message. *)
Definition luaU_undump (nCcalls : nat) (name : bytes) (z : ZIO) : option (Proto + bytes) :=
  match (_ ← LoadHeader; LoadFunction (200 - nCcalls) (Some (bytes_of_string "=?"))) z with
  | None => None
  | Some (Return (f, _)) => Some (inl f)
  | Some (Error why) =>
      Some (inr (chunk_name name ++ bytes_of_string ": " ++ bytes_of_string why ++ bytes_of_string " in precompiled chunk"))
  end.

(** ** What is written *)

(** The bytes of each part, and the writer as a fold over the blocks. *)
Definition string_bytes (s : option bytes) : bytes :=
  match s with None => le_encode 8 0 | Some s => le_encode 8 (Z.of_nat (length s) + 1) ++ s ++ [0] end.
Definition int_bytes (x : Z) : bytes := le_encode 4 (u32 x).
Definition words_bytes (b : list Z) : bytes := concat ((fun x => le_encode 4 (u32 x)) <$> b).
Definition vector_bytes (b : list Z) : bytes := int_bytes (Z.of_nat (length b)) ++ words_bytes b.
Definition constant_bytes (o : kvalue) : bytes :=
  match o with
  | KNil => [0]
  | KBoolean b => [1; if b then 1 else 0]
  | KNumber n => 3 :: le_encode 8 n
  | KString s => 4 :: string_bytes s
  end.
Definition list_bytes {A} (f : A -> bytes) (l : list A) : bytes := int_bytes (Z.of_nat (length l)) ++ concat (f <$> l).
Definition locvar_bytes (v : LocVar) : bytes := string_bytes (varname v) ++ int_bytes (startpc v) ++ int_bytes (endpc v).
Definition debug_bytes (strip : bool) (f : Proto) : bytes :=
  vector_bytes (if strip then [] else lineinfo f) ++
  list_bytes locvar_bytes (if strip then [] else locvars f) ++
  list_bytes string_bytes (if strip then [] else upvalues f).

Fixpoint proto_bytes (strip : bool) (src : option bytes) (f : Proto) : bytes :=
  string_bytes (if bool_decide (source f = src) || strip then None else source f) ++
  int_bytes (linedefined f) ++ int_bytes (lastlinedefined f) ++
  [u8 (nups f); u8 (numparams f); u8 (is_vararg f); u8 (maxstacksize f)] ++
  vector_bytes (code f) ++ list_bytes constant_bytes (k f) ++
  (int_bytes (sizep f) ++ concat (map (proto_bytes strip (source f)) (p f))) ++
  debug_bytes strip f.

(** A dump step is a sequence of blocks, handed to the writer in order. *)
Section Blocks.
Context {W : Type} (writer : bytes -> W -> Z * W).

Definition writes (f : DumpState W -> DumpState W) (bs : bytes) : Prop :=
  exists l, concat l = bs /\ forall D, f D = foldl (fun D b => DumpBlock writer b D) D l.

Lemma writes_block b : writes (DumpBlock writer b) b.
Proof. exists [b]. split; [apply app_nil_r|done]. Qed.

Lemma writes_id : writes id [].
Proof. by exists []. Qed.

Lemma writes_comp f g b1 b2 : writes f b1 -> writes g b2 -> writes (fun D => g (f D)) (b1 ++ b2).
Proof.
  intros (l1 & <- & H1) (l2 & <- & H2). exists (l1 ++ l2). split; [apply concat_app|].
  intros D. by rewrite H2, H1, foldl_app.
Qed.

Lemma writes_eq f b b' : writes f b -> b = b' -> writes f b'.
Proof. by intros ? <-. Qed.

Lemma writes_foldl {A} (g : DumpState W -> A -> DumpState W) h (l : list A) :
  Forall (fun x => writes (fun D => g D x) (h x)) l -> writes (fun D => foldl g D l) (concat (map h l)).
Proof.
  induction 1 as [|x l Hx Hl IH]; [apply writes_id|]. simpl.
  exact (writes_comp (fun D => g D x) (fun D => foldl g D l) _ _ Hx IH).
Qed.

Lemma writes_string s : writes (DumpString writer s) (string_bytes s).
Proof. destruct s as [s|]; [exact (writes_comp _ _ _ _ (writes_block _) (writes_block (s ++ [0])))|apply writes_block]. Qed.

Lemma writes_vector b : writes (DumpVector writer 4 b) (vector_bytes b).
Proof. exact (writes_comp _ _ _ _ (writes_block _) (writes_block _)). Qed.

Lemma writes_constant o : writes (fun D => DumpConstant writer D o) (constant_bytes o).
Proof.
  destruct o as [|b|n|s]; unfold DumpConstant, constant_bytes.
  - apply writes_block.
  - eapply writes_eq; [exact (writes_comp _ _ _ _ (writes_block [u8 1]) (writes_block _))|by destruct b].
  - exact (writes_comp _ _ _ _ (writes_block [u8 3]) (writes_block _)).
  - exact (writes_comp _ _ _ _ (writes_block [u8 4]) (writes_string s)).
Qed.

Lemma writes_list {A} (g : DumpState W -> A -> DumpState W) h (l : list A) :
  (forall x, writes (fun D => g D x) (h x)) ->
  writes (fun D => foldl g (DumpInt writer (Z.of_nat (length l)) D) l) (list_bytes h l).
Proof.
  intros Hg. refine (writes_comp _ (fun D => foldl g D l) _ _ (writes_block _) _).
  apply writes_foldl. apply Forall_forall. auto.
Qed.

Lemma writes_locvar v : writes (fun D => DumpLocVar writer D v) (locvar_bytes v).
Proof.
  refine (writes_comp _ (fun D => DumpInt writer (endpc v) (DumpInt writer (startpc v) D)) _ _ (writes_string _) _).
  exact (writes_comp _ _ _ _ (writes_block _) (writes_block _)).
Qed.

Lemma writes_debug strip f : writes (DumpDebug writer strip f) (debug_bytes strip f).
Proof.
  unfold DumpDebug, debug_bytes. refine (writes_comp _ (fun D => foldl _ (DumpInt writer _ (foldl _ (DumpInt writer _ D) _)) _) _ _ (writes_vector _) _).
  refine (writes_comp (fun D => foldl _ (DumpInt writer _ D) _) (fun D => foldl _ (DumpInt writer _ D) _) _ _ (writes_list _ _ _ writes_locvar) _).
  exact (writes_list (fun D s => DumpString writer s D) _ _ writes_string).
Qed.

Lemma writes_function strip f src : writes (DumpFunction writer strip f src) (proto_bytes strip src f).
Proof.
  revert src. induction f as [f IH] using proto_rect'. intros src.
  pose proof (writes_string (if bool_decide (source f = src) || strip then None else source f)) as H1.
  pose proof (writes_comp _ _ _ _ (writes_comp _ _ _ _ H1 (writes_block (int_bytes (linedefined f))))
    (writes_block (int_bytes (lastlinedefined f)))) as H2.
  pose proof (writes_comp _ _ _ _ (writes_comp _ _ _ _ (writes_comp _ _ _ _ (writes_comp _ _ _ _ H2
    (writes_block [u8 (nups f)])) (writes_block [u8 (numparams f)])) (writes_block [u8 (is_vararg f)]))
    (writes_block [u8 (maxstacksize f)])) as H3.
  pose proof (writes_comp _ _ _ _ (writes_comp _ _ _ _ H3 (writes_vector (code f)))
    (writes_list (DumpConstant writer) constant_bytes (k f) writes_constant)) as H4.
  pose proof (writes_comp _ _ _ _ (writes_comp _ _ _ _ H4 (writes_block (int_bytes (sizep f))))
    (writes_foldl (fun D g => DumpFunction writer strip g (source f) D) (proto_bytes strip (source f)) (p f)
       (List.Forall_impl _ (fun g Hg => Hg (source f)) IH))) as H5.
  pose proof (writes_comp _ _ _ _ H5 (writes_debug strip f)) as H6.
  destruct f as [f1 f2 f3 f4 f5 f6 f7 f8 f9 f10 f11 f12 f13]. eapply writes_eq; [exact H6|].
  cbn [proto_bytes source linedefined lastlinedefined nups numparams is_vararg maxstacksize code k p sizep].
  rewrite <- !app_assoc. reflexivity.
Qed.
End Blocks.

(** ** What is read back *)

(** [l] makes [a] of the bytes [bs], and reports every proper prefix of them as cut off. *)
Definition reads {A} (l : Load A) (bs : bytes) (a : A) : Prop :=
  (forall z rest, zwrapped z = false -> stream z = bs ++ rest ->
     exists z', l z = Some (Return (a, z')) /\ zwrapped z' = false /\ stream z' = rest) /\
  (forall z more, zwrapped z = false -> more <> [] -> bs = stream z ++ more ->
     l z = lerror "unexpected end").

Lemma reads_ret {A} (a : A) : reads (mret a) [] a.
Proof.
  split; [intros z rest Hw Hs; by exists z|]. intros z more _ Hne Hs. symmetry in Hs. by apply app_eq_nil in Hs as [_ ?].
Qed.

Lemma reads_bind {A B} (l : Load A) (g : A -> Load B) b1 b2 bs a b :
  bs = b1 ++ b2 -> reads l b1 a -> reads (g a) b2 b -> reads (l ≫= g) bs b.
Proof.
  intros -> [Hl Hl'] [Hg Hg']. unfold mbind, load_bind. split.
  - intros z rest Hw Hs. rewrite <- app_assoc in Hs. destruct (Hl z _ Hw Hs) as (z1 & H1 & Hw1 & Hs1).
    destruct (Hg z1 _ Hw1 Hs1) as (z2 & H2 & Hw2 & Hs2). exists z2. split; [|done]. by rewrite H1.
  - intros z more Hw Hne Hs. apply app_eq_inv in Hs as [(m & Hb1 & Hm)|(m & Hz & Hb2)].
    + destruct m as [|c m].
      * rewrite app_nil_r in Hb1. simpl in Hm. subst more.
        destruct (Hl z [] Hw) as (z1 & H1 & Hw1 & Hs1); [by rewrite app_nil_r|]. rewrite H1. cbn [lbind fst snd].
        apply (Hg' z1 b2 Hw1 Hne). by rewrite Hs1.
      * by rewrite (Hl' z (c :: m) Hw).
    + destruct (Hl z m Hw Hz) as (z1 & H1 & Hw1 & Hs1). rewrite H1. cbn [lbind fst snd].
      apply (Hg' z1 more Hw1 Hne). by rewrite Hs1.
Qed.

Lemma reads_eq {A} (l : Load A) bs a a' : reads l bs a -> a = a' -> reads l bs a'.
Proof. by intros ? <-. Qed.

Lemma reads_block n bs : length bs = n -> reads (LoadBlock n) bs bs.
Proof.
  intros <-. unfold LoadBlock, luaZ_read. split.
  - intros z rest Hw Hs. destruct (read_loop_spec _ z (length bs) (Nat.le_refl _) Hw) as (z' & Hz & Hrest).
    rewrite Hz. rewrite Hs in *. rewrite length_app in *.
    replace (length bs - (length bs + length rest))%nat with 0%nat by lia. rewrite bool_decide_eq_true_2 by done.
    exists z'. rewrite take_app_length. split; [done|]. destruct Hrest as [E ?]; [lia|]. split; [done|]. by rewrite E, drop_app_length.
  - intros z more Hw Hne ->. destruct (read_loop_spec _ z (length (stream z ++ more)) (Nat.le_refl _) Hw) as (z' & Hz & _).
    rewrite Hz, length_app. rewrite bool_decide_eq_false_2; [done|]. destruct more; simpl; [done|lia].
Qed.

(** A loader that reads one block and looks at it. *)
Lemma reads_block_then {A} n (g : bytes -> Load A) bs a : length bs = n -> reads (g bs) [] a -> reads (LoadBlock n ≫= g) bs a.
Proof. intros Hn Hg. eapply reads_bind; [symmetry; apply app_nil_r|by apply reads_block|done]. Qed.

Lemma reads_int x : 0 <= x <= INT_MAX -> reads LoadInt (int_bytes x) x.
Proof.
  intros Hx. unfold INT_MAX in Hx. apply reads_block_then; [apply length_le_encode|]. cbv zeta.
  assert (u32 x = x) as Ex by (apply uwrap_small; lia). unfold int_bytes.
  rewrite Ex, le_decode_encode, swrap_small by (cbn; lia). rewrite (proj2 (Z.ltb_ge _ _)) by lia. apply reads_ret.
Qed.

Lemma reads_char c : 0 <= c < 128 -> reads LoadChar [c] c.
Proof. intros Hc. apply reads_block_then; [done|]. cbn [le_decode]. rewrite swrap_small by lia. replace (c + 256 * 0) with c by lia. apply reads_ret. Qed.

Lemma reads_byte c : 0 <= c < 256 -> reads LoadByte [u8 c] c.
Proof.
  intros Hc. rewrite uwrap_small by lia. eapply reads_bind; [symmetry; apply app_nil_r| |].
  - apply reads_block_then; [done|]. apply reads_ret.
  - cbn [le_decode]. eapply reads_eq; [apply reads_ret|]. replace (c + 256 * 0) with c by lia. unfold uwrap, swrap.
    change (2 ^ (8 - 1)) with 128. change (2 ^ 8) with 256. 
    rewrite Zminus_mod_idemp_l. replace (c + 128 - 128) with c by lia. apply Z.mod_small. lia.
Qed.

Definition string_wf (s : option bytes) : Prop := match s with None => True | Some s => Z.of_nat (length s) + 1 < 2 ^ 64 end.

Lemma reads_string s : string_wf s -> reads LoadString (string_bytes s) s.
Proof.
  intros Hs. destruct s as [s|]; cbn [string_bytes string_wf] in *.
  - eapply reads_bind; [reflexivity|apply reads_block, length_le_encode|]. cbv zeta.
    rewrite le_decode_encode by (cbn; lia). rewrite (proj2 (Z.eqb_neq _ _)) by lia.
    apply reads_block_then; [rewrite length_app; simpl; lia|].
    rewrite length_app. simpl. rewrite Nat.add_sub, take_app_length. apply reads_ret.
  - apply reads_block_then; [apply length_le_encode|]. cbv zeta. rewrite le_decode_encode by (cbn; lia). apply reads_ret.
Qed.

Lemma words_bytes_inv b : words 4 (length b) (words_bytes b) = u32 <$> b.
Proof.
  induction b as [|x b IH]; [done|]. unfold words_bytes. cbn [fmap list_fmap concat length words].
  rewrite take_app_length', drop_app_length' by (by rewrite length_le_encode). fold (words_bytes b). rewrite IH.
  f_equal. apply le_decode_encode. apply (uwrap_range 32). lia.
Qed.

Lemma length_words_bytes b : length (words_bytes b) = (length b * 4)%nat.
Proof. unfold words_bytes. induction b as [|x b IH]; [done|]. cbn [fmap list_fmap concat]. rewrite length_app, length_le_encode, IH. simpl. lia. Qed.

Definition short {A} (l : list A) : Prop := Z.of_nat (length l) <= INT_MAX.

Lemma reads_vector b : reads (LoadVector (Z.of_nat (length b)) 4) (words_bytes b) (u32 <$> b).
Proof.
  apply reads_block_then; [rewrite length_words_bytes; lia|]. rewrite Nat2Z.id, words_bytes_inv. apply reads_ret.
Qed.

Lemma reads_code b : short b -> Forall (fun x => 0 <= x < 2 ^ 32) b -> reads LoadCode (vector_bytes b) b.
Proof.
  intros Hs Hb. unfold short in Hs. eapply reads_bind; [reflexivity|apply reads_int; lia|].
  eapply reads_eq; [apply reads_vector|]. rewrite <- (list_fmap_id b) at 2.
  apply list_fmap_ext. intros i x Hx. apply uwrap_small. exact (Forall_lookup_1 _ _ _ _ Hb Hx).
Qed.

Lemma reads_load_list {A B} (l : Load B) (h : A -> bytes) (g : A -> B) (xs : list A) :
  Forall (fun x => reads l (h x) (g x)) xs -> reads (load_list l (length xs)) (concat (map h xs)) (g <$> xs).
Proof.
  induction 1 as [|x xs Hx Hxs IH]; [apply reads_ret|]. cbn [length load_list map concat].
  eapply reads_bind; [reflexivity|exact Hx|]. eapply reads_bind; [symmetry; apply app_nil_r|exact IH|]. apply reads_ret.
Qed.

(** A counted list. *)
Lemma reads_counted {A B C} (l : Load B) (h : A -> bytes) (g : A -> B) (xs : list A) (kont : list B -> Load C) bs rest c :
  short xs -> Forall (fun x => reads l (h x) (g x)) xs ->
  bs = int_bytes (Z.of_nat (length xs)) ++ concat (map h xs) ++ rest -> reads (kont (g <$> xs)) rest c ->
  reads (n ← LoadInt; ys ← load_list l (Z.to_nat n); kont ys) bs c.
Proof.
  intros Hs Hxs -> Hk. unfold short in Hs. eapply reads_bind; [reflexivity|apply reads_int; lia|].
  rewrite Nat2Z.id. eapply reads_bind; [reflexivity|by apply reads_load_list|done].
Qed.

Definition kvalue_wf (o : kvalue) : Prop :=
  match o with KNumber n => 0 <= n < 2 ^ 64 | KString s => string_wf s | _ => True end.

Lemma reads_constant o : kvalue_wf o -> reads LoadConstant (constant_bytes o) o.
Proof.
  intros Ho. destruct o as [|b|n|s]; cbn [constant_bytes kvalue_wf] in *.
  - eapply (reads_bind _ _ [0] []); [done|by apply reads_char|]. apply reads_ret.
  - eapply (reads_bind _ _ [1]); [done|by apply reads_char|]. change (reads (c ← LoadChar; mret (KBoolean (negb (c =? 0)))) [if b then 1 else 0] (KBoolean b)).
    eapply reads_bind; [symmetry; apply app_nil_r|apply reads_char; by destruct b|]. destruct b; apply reads_ret.
  - eapply (reads_bind _ _ [3]); [done|by apply reads_char|]. change (reads (n ← LoadNumber; mret (KNumber n)) (le_encode 8 n) (KNumber n)).
    eapply reads_bind; [symmetry; apply app_nil_r| |apply reads_ret].
    apply reads_block_then; [apply length_le_encode|]. rewrite le_decode_encode by (cbn; lia). apply reads_ret.
  - eapply (reads_bind _ _ [4]); [done|by apply reads_char|]. change (reads (s ← LoadString; mret (KString s)) (string_bytes s) (KString s)).
    eapply reads_bind; [symmetry; apply app_nil_r|by apply reads_string|apply reads_ret].
Qed.

Definition locvar_wf (v : LocVar) : Prop := string_wf (varname v) /\ 0 <= startpc v <= INT_MAX /\ 0 <= endpc v <= INT_MAX.

Lemma reads_locvar v : locvar_wf v -> reads LoadLocVar (locvar_bytes v) v.
Proof.
  intros (H1 & H2 & H3). eapply reads_bind; [reflexivity|by apply reads_string|].
  eapply reads_bind; [reflexivity|by apply reads_int|]. eapply reads_bind; [symmetry; apply app_nil_r|by apply reads_int|].
  destruct v. apply reads_ret.
Qed.

(** ** Prototypes that can be dumped *)
Definition word_ok (x : Z) : Prop := 0 <= x < 2 ^ 32.
Definition int_ok (x : Z) : Prop := - 2 ^ 31 <= x < 2 ^ 31.
Definition fields_wf (f : Proto) : Prop :=
  string_wf (source f) /\ 0 <= linedefined f <= INT_MAX /\ 0 <= lastlinedefined f <= INT_MAX /\
  0 <= nups f < 256 /\ 0 <= numparams f < 256 /\ 0 <= is_vararg f < 256 /\ 0 <= maxstacksize f < 256 /\
  (short (code f) /\ Forall word_ok (code f)) /\ (short (k f) /\ Forall kvalue_wf (k f)) /\ short (p f) /\
  (short (lineinfo f) /\ Forall int_ok (lineinfo f)) /\ (short (locvars f) /\ Forall locvar_wf (locvars f)) /\
  (short (upvalues f) /\ Forall string_wf (upvalues f)).

(** A property of a prototype and of all the prototypes inside it. *)
Inductive everywhere (P : Proto -> Prop) : Proto -> Prop :=
| everywhere_intro f : P f -> Forall (everywhere P) (p f) -> everywhere P f.

(** What the loader makes of the dump of [f]: [dsrc] is the source of the enclosing
    function when dumping, [src] when loading. *)
Fixpoint restored (strip : bool) (dsrc src : option bytes) (f : Proto) : Proto :=
  let s := match (if bool_decide (source f = dsrc) || strip then None else source f) with None => src | Some s => Some s end in
  MkProto s (linedefined f) (lastlinedefined f) (nups f) (numparams f) (is_vararg f) (maxstacksize f)
    (code f) (k f) (map (restored strip (source f) s) (p f))
    (if strip then [] else lineinfo f) (if strip then [] else locvars f) (if strip then [] else upvalues f).

Lemma reads_debug strip f : fields_wf f ->
  reads LoadDebug (debug_bytes strip f)
    (if strip then [] else lineinfo f, if strip then [] else locvars f, if strip then [] else upvalues f).
Proof.
  intros (_ & _ & _ & _ & _ & _ & _ & _ & _ & _ & [Hl1 Hl2] & [Hv1 Hv2] & [Hu1 Hu2]). unfold LoadDebug, debug_bytes.
  set (li := if strip then [] else lineinfo f). set (lv := if strip then [] else locvars f). set (uv := if strip then [] else upvalues f).
  assert (short li /\ Forall int_ok li) as [Hs1 Hs2] by (unfold li; destruct strip; [split; [done|constructor]|done]).
  assert (short lv /\ Forall locvar_wf lv) as [Hs3 Hs4] by (unfold lv; destruct strip; [split; [done|constructor]|done]).
  assert (short uv /\ Forall string_wf uv) as [Hs5 Hs6] by (unfold uv; destruct strip; [split; [done|constructor]|done]).
  unfold vector_bytes. rewrite <- app_assoc. eapply reads_bind; [reflexivity|apply reads_int; unfold short in *; lia|].
  eapply reads_bind; [reflexivity|apply reads_vector|].
  eapply (reads_counted LoadLocVar locvar_bytes id); [done| |unfold list_bytes; rewrite <- app_assoc; reflexivity|].
  { eapply Forall_impl; [exact Hs4|]. intros v Hv. by apply reads_locvar. }
  eapply (reads_counted LoadString string_bytes id); [done| |unfold list_bytes; by rewrite app_nil_r|].
  { eapply Forall_impl; [exact Hs6|]. intros v Hv. by apply reads_string. }
  rewrite !list_fmap_id. eapply reads_eq; [apply reads_ret|]. do 2 f_equal. rewrite <- list_fmap_compose.
  rewrite <- (list_fmap_id li) at 2. apply list_fmap_ext. intros i x Hx. cbn.
  rewrite swrap_uwrap by lia. apply swrap_small; [lia|]. exact (Forall_lookup_1 _ _ _ _ Hs2 Hx).
Qed.

(** *** The checker does not look at names and lines *)
Section CheckExt.
Variables f g : Proto.
Hypothesis Hcode : code g = code f.
Hypothesis Hk : k g = k f.
Hypothesis Hp : nups <$> p g = nups <$> p f.
Hypothesis Hfields : nups g = nups f /\ numparams g = numparams f /\ is_vararg g = is_vararg f /\ maxstacksize g = maxstacksize f.

Lemma ext_sizep : sizep g = sizep f.
Proof. unfold sizep. by rewrite <- (length_fmap nups), Hp, length_fmap. Qed.

Lemma ext_setlist_run d : setlist_run g d = setlist_run f d.
Proof. induction d as [|d IH]; [done|]. cbn [setlist_run]. by rewrite Hcode, IH. Qed.

Lemma ext_check_args pc i op : check_args g pc i op = check_args f pc i op.
Proof.
  unfold check_args, checkArgMode, checkreg, sizek, sizecode. destruct Hfields as (_ & _ & _ & ->).
  rewrite Hcode, Hk. cbv zeta. by rewrite ext_setlist_run.
Qed.

Lemma ext_check_pseudo pc n : check_pseudo g pc n = check_pseudo f pc n.
Proof. induction n as [|n IH]; [done|]. cbn [check_pseudo]. by rewrite IH, Hcode. Qed.

Lemma ext_check_op lastpc reg pc last op a b c : check_op g lastpc reg pc last op a b c = check_op f lastpc reg pc last op a b c.
Proof.
  unfold check_op, checkreg, sizecode. destruct Hfields as (-> & _ & -> & ->). rewrite Hcode, Hk, ext_sizep.
  destruct op; try done. f_equal.
  assert (nups <$> (p g !! Z.to_nat b) = nups <$> (p f !! Z.to_nat b)) as E by (by rewrite <- !list_lookup_fmap, Hp).
  destruct (p g !! Z.to_nat b) as [x|], (p f !! Z.to_nat b) as [y|]; try done. cbn [mbind option_bind].
  injection E as E. rewrite E. by rewrite ext_check_pseudo.
Qed.

Lemma ext_sym_step lastpc reg pc last : sym_step g lastpc reg pc last = sym_step f lastpc reg pc last.
Proof.
  unfold sym_step. rewrite Hcode. destruct (code f !! Z.to_nat pc) as [i|]; [|done]. cbn [mbind option_bind].
  destruct (to_opcode _) as [op|]; [|done]. rewrite ext_check_args. unfold checkreg, sizecode. destruct Hfields as (_ & _ & _ & ->).
  rewrite Hcode. destruct (check_args f pc i op) as [[[b c]|]|]; [|done|done]. cbn [mbind option_bind]. cbv zeta.
  by rewrite ext_check_op.
Qed.

Lemma ext_sym_loop fuel lastpc reg pc last : sym_loop fuel g lastpc reg pc last = sym_loop fuel f lastpc reg pc last.
Proof.
  revert pc last. induction fuel as [|fuel IH]; intros pc last; [done|]. cbn [sym_loop]. rewrite ext_sym_step.
  destruct (pc <? lastpc); [|done]. destruct (sym_step f lastpc reg pc last) as [[[pc' last']|]|]; cbn [mbind option_bind]; auto.
Qed.

Lemma ext_checkcode : precheck f = Some true -> precheck g = Some true ->
  luaG_checkcode g = luaG_checkcode f.
Proof.
  intros H1 H2. unfold luaG_checkcode, symbexec. rewrite H1, H2. cbn [mbind option_bind]. unfold sizecode. rewrite Hcode.
  by rewrite ext_sym_loop.
Qed.

Lemma ext_precheck : sizeupvalues g <= sizeupvalues f -> sizelineinfo g = sizelineinfo f \/ sizelineinfo g = 0 ->
  precheck f = Some true -> precheck g = Some true.
Proof.
  intros Hu Hl. unfold precheck, sizecode. destruct Hfields as (-> & -> & -> & ->). rewrite Hcode.
  intros H. repeat match type of H with (if negb ?b then _ else _) = _ => destruct b eqn:?; cbn [negb] in H |- *; [|discriminate] end.
  destruct (Z.leb_spec (sizeupvalues g) (nups f)); [|lia]. cbn [negb].
  destruct (Z.eqb_spec (sizelineinfo g) (Z.of_nat (length (code f)))), (Z.eqb_spec (sizelineinfo g) 0); simpl; try done. lia.
Qed.
End CheckExt.

Lemma restored_checkcode strip dsrc src f :
  luaG_checkcode f = Some true -> luaG_checkcode (restored strip dsrc src f) = Some true.
Proof.
  intros Hf. pose proof (proj1 (checkcode_rounds f Hf)) as Hpre. rewrite <- Hf.
  assert (nups <$> p (restored strip dsrc src f) = nups <$> p f) as Hp.
  { assert (exists s, p (restored strip dsrc src f) = restored strip (source f) s <$> p f) as [s ->] by (destruct f; by eexists).
    rewrite <- list_fmap_compose. apply list_fmap_ext. intros i [] _. done. }
  apply (ext_checkcode f _); [by destruct f|by destruct f|exact Hp|by destruct f|done|].
  apply (ext_precheck f _); [by destruct f|by destruct f| | |done].
  - unfold sizeupvalues. destruct f, strip; simpl; lia.
  - unfold sizelineinfo. destruct f, strip; simpl; auto.
Qed.

Definition checked (f : Proto) : Prop := luaG_checkcode f = Some true.

Lemma reads_checkcode f : checked f -> reads (checkcode f) [] tt.
Proof.
  intros Hf. split; [intros z rest Hw Hs; exists z; unfold checkcode; by rewrite Hf|].
  intros z more _ Hne Hs. symmetry in Hs. by apply app_eq_nil in Hs as [_ ?].
Qed.

Lemma reads_function strip f : everywhere (fun g => fields_wf g /\ checked g) f ->
  forall calls dsrc src, (proto_depth f <= calls)%nat ->
  reads (LoadFunction calls src) (proto_bytes strip dsrc f) (restored strip dsrc src f).
Proof.
  induction f as [f IH] using proto_rect'. intros Hev calls dsrc src Hd.
  inversion Hev as [? [Hwf Hck] Hall]; subst. destruct calls as [|calls]; [destruct f; simpl in Hd; lia|].
  pose proof (restored_checkcode strip dsrc src f Hck) as Hck'.
  assert (Hps : forall s, Forall (fun g => reads (LoadFunction calls s) (proto_bytes strip (source f) g) (restored strip (source f) s g)) (p f)).
  { intros s. apply List.Forall_forall. intros g Hg. rewrite List.Forall_forall in IH, Hall.
    apply IH; [done|by apply Hall|]. pose proof (proto_depth_in f g Hg). lia. }
  pose proof (reads_debug strip f Hwf) as Hdebug.
  destruct Hwf as (W1 & W2 & W3 & W4 & W5 & W6 & W7 & [W8 W9] & [W10 W11] & W12 & _).
  destruct f as [f1 f2 f3 f4 f5 f6 f7 f8 f9 f10 f11 f12 f13].
  cbn [source linedefined lastlinedefined nups numparams is_vararg maxstacksize code k p] in *.
  cbn [LoadFunction proto_bytes source linedefined lastlinedefined nups numparams is_vararg maxstacksize code k p].
  set (s := if bool_decide (f1 = dsrc) || strip then None else f1).
  eapply reads_bind; [reflexivity|apply reads_string; unfold s; by destruct (_ || _)|].
  eapply reads_bind; [reflexivity|by apply reads_int|]. eapply reads_bind; [reflexivity|by apply reads_int|].
  eapply (reads_bind _ _ [u8 f4]); [reflexivity|by apply reads_byte|].
  eapply (reads_bind _ _ [u8 f5]); [reflexivity|by apply reads_byte|].
  eapply (reads_bind _ _ [u8 f6]); [reflexivity|by apply reads_byte|].
  eapply (reads_bind _ _ [u8 f7]); [reflexivity|by apply reads_byte|].
  eapply reads_bind; [reflexivity|by apply reads_code|].
  set (src' := match s with None => src | Some _ => s end).
  eapply (reads_bind _ _ (list_bytes constant_bytes f9 ++ int_bytes (sizep (MkProto f1 f2 f3 f4 f5 f6 f7 f8 f9 f10 f11 f12 f13)) ++ concat (map (proto_bytes strip f1) f10)));
    [by rewrite <- !app_assoc| |].
  { unfold LoadConstants. eapply (reads_counted LoadConstant constant_bytes id); [done| |unfold list_bytes; by rewrite <- app_assoc|].
    { eapply Forall_impl; [exact W11|]. intros o Ho. by apply reads_constant. }
    eapply (reads_counted (LoadFunction calls src') (proto_bytes strip f1) (restored strip f1 src')); [done|apply Hps|by rewrite app_nil_r|].
    rewrite list_fmap_id. apply reads_ret. }
  cbn [fst snd]. eapply reads_bind; [symmetry; apply app_nil_r|exact Hdebug|]. cbn [fst snd lineinfo locvars upvalues].
  assert (restored strip dsrc src (MkProto f1 f2 f3 f4 f5 f6 f7 f8 f9 f10 f11 f12 f13) =
    MkProto src' f2 f3 f4 f5 f6 f7 f8 f9 (restored strip f1 src' <$> f10)
      (if strip then [] else f11) (if strip then [] else f12) (if strip then [] else f13)) as E.
  { cbn [restored source]. fold s. unfold src'. by destruct s. }
  rewrite <- E. eapply (reads_bind _ _ [] []); [done|by apply reads_checkcode|]. apply reads_ret.
Qed.

Lemma reads_header : reads LoadHeader luaU_header tt.
Proof. apply reads_block_then; [done|]. rewrite bool_decide_eq_true_2 by done. apply reads_ret. Qed.

(** Without stripping nothing is lost, when every prototype has a source. *)
Lemma restored_id f dsrc src : everywhere (fun g => source g <> None) f -> dsrc = src \/ dsrc = None ->
  restored false dsrc src f = f.
Proof.
  revert dsrc src. induction f as [f IH] using proto_rect'. intros dsrc src Hev Hd.
  inversion Hev as [? Hs Hall]; subst. destruct f as [f1 f2 f3 f4 f5 f6 f7 f8 f9 f10 f11 f12 f13]. cbn [source p] in *.
  cbn [restored source]. rewrite orb_false_r.
  assert (match (if bool_decide (f1 = dsrc) then None else f1) with None => src | Some s => Some s end = f1) as E.
  { case_bool_decide as E1; [|by destruct f1]. destruct Hd as [->| ->]; congruence. }
  rewrite E. f_equal. rewrite <- (List.map_id f10) at 2. apply map_ext_in. intros g Hg.
  rewrite List.Forall_forall in IH, Hall. apply IH; auto.
Qed.

(** The writer that keeps what it is given. *)
Definition append_writer (b : bytes) (w : bytes) : Z * bytes := (0, w ++ b).

Lemma append_writer_all l w : foldl (fun D b => DumpBlock append_writer b D) {| status := 0; data := w |} l =
  {| status := 0; data := w ++ concat l |}.
Proof.
  revert w. induction l as [|b l IH]; intros w; simpl; [by rewrite app_nil_r|].
  unfold DumpBlock at 2. cbn [status data]. change (0 =? 0) with true. cbn. by rewrite IH, app_assoc.
Qed.

Lemma dump_bytes strip f : data (luaU_dump append_writer strip f []) = luaU_header ++ proto_bytes strip None f.
Proof.
  unfold luaU_dump. destruct (writes_comp append_writer _ _ _ _ (writes_block _ luaU_header) (writes_function append_writer strip f None))
    as (l & Hl & HD). rewrite HD, append_writer_all. simpl. done.
Qed.

Lemma reads_chunk strip f nCcalls : everywhere (fun g => fields_wf g /\ checked g) f -> (proto_depth f <= 200 - nCcalls)%nat ->
  reads (_ ← LoadHeader; LoadFunction (200 - nCcalls) (Some (bytes_of_string "=?")))
    (data (luaU_dump append_writer strip f [])) (restored strip None (Some (bytes_of_string "=?")) f).
Proof.
  intros Hf Hd. rewrite dump_bytes. eapply reads_bind; [reflexivity|apply reads_header|]. by apply reads_function.
Qed.

(** C22. Loading the dump of a prototype gives the prototype back, however the reader
    cuts the dump into blocks: exactly the same one when it is dumped whole, the one
    without names and line numbers when it is stripped. *)
Theorem undump_dump (strip : bool) (f : Proto) (nCcalls : nat) (name : bytes) (blocks : list bytes) :
  everywhere (fun g => fields_wf g /\ checked g) f -> (proto_depth f <= 200 - nCcalls)%nat ->
  stream (luaZ_init blocks) = data (luaU_dump append_writer strip f []) ->
  luaU_undump nCcalls name (luaZ_init blocks) = Some (inl (restored strip None (Some (bytes_of_string "=?")) f)) /\
  (strip = false -> everywhere (fun g => source g <> None) f ->
   restored strip None (Some (bytes_of_string "=?")) f = f).
Proof.
  intros Hf Hd Hs. split; [|intros -> Hsrc; apply restored_id; auto].
  destruct (reads_chunk strip f nCcalls Hf Hd) as [Hr _].
  destruct (Hr (luaZ_init blocks) [] eq_refl) as (z' & Hz & _); [by rewrite app_nil_r|].
  unfold luaU_undump. by rewrite Hz.
Qed.

(** A dump that was cut off anywhere, the header included, is refused with the
    message that the end was unexpected; no part of it is returned. *)
Theorem undump_truncated (strip : bool) (f : Proto) (nCcalls : nat) (name : bytes) (z : ZIO) (more : bytes) :
  everywhere (fun g => fields_wf g /\ checked g) f -> (proto_depth f <= 200 - nCcalls)%nat ->
  zwrapped z = false -> more <> [] -> data (luaU_dump append_writer strip f []) = stream z ++ more ->
  luaU_undump nCcalls name z = Some (inr (chunk_name name ++ bytes_of_string ": unexpected end in precompiled chunk")).
Proof.
  intros Hf Hd Hw Hne Hs. destruct (reads_chunk strip f nCcalls Hf Hd) as [_ Ht].
  unfold luaU_undump. by rewrite (Ht z more Hw Hne Hs).
Qed.

(** The calls of a writer on blocks, each allowed only after a zero status. *)
Definition writer_run {W} (writer : bytes -> W -> Z * W) (w : W) (l : list bytes) : option (Z * W) :=
  foldl (fun r b => '(st, w) ← r; if st =? 0 then Some (writer b w) else None) (Some (0, w)) l.

(** When the writer fails, the dump stops there: the writer is not called again,
    and its status is returned. *)
Theorem dump_writer_error {W} (writer : bytes -> W -> Z * W) (strip : bool) (f : Proto) (w : W) :
  exists blocks, concat blocks = luaU_header ++ proto_bytes strip None f /\
    let D := luaU_dump writer strip f w in
    if status D =? 0 then writer_run writer w blocks = Some (0, data D)
    else exists l1 b l2, blocks = l1 ++ b :: l2 /\ writer_run writer w (l1 ++ [b]) = Some (status D, data D).
Proof.
  unfold luaU_dump. destruct (writes_comp writer _ _ _ _ (writes_block _ luaU_header) (writes_function writer strip f None))
    as (l & Hl & HD). exists l. split; [done|]. cbv zeta. rewrite HD. clear Hl HD.
  induction l as [|b l IH] using rev_ind; [done|].
  rewrite foldl_snoc. set (D := foldl _ _ l) in *. unfold DumpBlock. destruct (Z.eqb_spec (status D) 0) as [E|E].
  - assert (writer_run writer w (l ++ [b]) = Some (writer b (data D))) as Hrun.
    { unfold writer_run in *. rewrite foldl_snoc. rewrite IH. done. }
    destruct (writer b (data D)) as [st w'] eqn:Ew. cbn [status data]. destruct (Z.eqb_spec st 0) as [->|Hst]; [done|].
    by exists l, b, [].
  - destruct (Z.eqb_spec (status D) 0); [done|]. destruct IH as (l1 & b' & l2 & -> & Hrun).
    exists l1, b', (l2 ++ [b]). by rewrite <- app_assoc.
Qed.

(** ** Witnesses *)
Definition child_proto : Proto :=
  MkProto (Some (bytes_of_string "@t.lua")) 1 2 0 0 0 2 (code test_proto) [] [] [1; 1; 1; 1; 2; 2] [] [].

Definition chunk_proto : Proto :=
  MkProto (Some (bytes_of_string "@t.lua")) 0 0 0 0 2 3 (code test_proto)
    [KNumber 0x3FF0000000000000; KString (Some (bytes_of_string "print")); KNil; KBoolean true] [child_proto]
    [1; 1; 2; 2; 3; 3] [{| varname := Some (bytes_of_string "x"); startpc := 1; endpc := 5 |}] [].

Ltac wf_fields :=
  unfold fields_wf, short, word_ok, int_ok, locvar_wf, kvalue_wf, string_wf;
  cbn [source linedefined lastlinedefined nups numparams is_vararg maxstacksize code k p lineinfo locvars upvalues
       chunk_proto child_proto varname startpc endpc];
  repeat split; repeat constructor; try (vm_compute; done).

Lemma chunk_proto_wf : everywhere (fun g => fields_wf g /\ checked g) chunk_proto.
Proof.
  constructor.
  - split; [wf_fields|vm_compute; done].
  - repeat constructor; (split; [wf_fields|vm_compute; done]) || wf_fields || (vm_compute; done).
Qed.

(** The dump of the chunk in two blocks, and without its last byte. *)
Definition chunk_blocks : list bytes :=
  let d := data (luaU_dump append_writer false chunk_proto []) in [take 100 d; drop 100 d].
Definition chunk_cut : bytes := let d := data (luaU_dump append_writer false chunk_proto []) in take (length d - 1) d.

Lemma undump_dump_witness :
  luaU_undump 3 (bytes_of_string "@t.luac") (luaZ_init chunk_blocks) = Some (inl chunk_proto).
Proof.
  destruct (undump_dump false chunk_proto 3 (bytes_of_string "@t.luac") chunk_blocks chunk_proto_wf) as [H1 _].
  - vm_compute. lia.
  - vm_compute. reflexivity.
  - rewrite H1. reflexivity.
Defined.

Lemma undump_truncated_witness :
  luaU_undump 3 (bytes_of_string "@t.luac") (luaZ_init [chunk_cut]) =
    Some (inr (bytes_of_string "t.luac: unexpected end in precompiled chunk")).
Proof.
  refine (undump_truncated false chunk_proto 3 (bytes_of_string "@t.luac") (luaZ_init [chunk_cut]) [0] chunk_proto_wf _ _ _ _).
  - vm_compute. lia.
  - reflexivity.
  - discriminate.
  - vm_compute. reflexivity.
Defined.
