(* ===== verification/LVm.v ===== *)
(** * The interpreter (src/lua/lvm.c, src/lua/ltm.c)

    One turn of [luaV_execute] over the frame of a Lua function: its registers, its pc
    and a state [W] with everything behind the values. What the interpreter takes from
    the rest of the program (strings, tables, upvalues, [luaD_call]) is the class
    [LuaState]; a call may change the registers, which closures share as open
    upvalues. The operations that change the frame itself (calls, returns, closures,
    variable arguments) [Leave] the turn to ldo.c. Hooks and the collector's steps are
    left out. *)
From stdpp Require Import base list strings option.
From Stdlib Require Import ZArith Lia.
From S2P Require Import Prelude LObject LNum LOpcodes.
#[local] Open Scope Z_scope.

Inductive TMS :=
  TM_INDEX | TM_NEWINDEX | TM_GC | TM_MODE | TM_EQ | TM_ADD | TM_SUB | TM_MUL | TM_DIV | TM_MOD | TM_POW | TM_UNM | TM_LEN
| TM_LT | TM_LE | TM_CONCAT | TM_CALL.

Definition MAXTAGLOOP : nat := 100.
Definition MAX_SIZET : Z := 2 ^ 64 - 3.

Notation registers := (list tvalue).

Class LuaState (W : Type) := {
  getstr : W -> Z -> bytes;
  luaS_newlstr : W -> bytes -> Z * W;
  tmname : TMS -> tvalue;
  (* tables, by their addresses *)
  luaH_get : W -> Z -> tvalue -> tvalue;
  luaH_set : W -> Z -> tvalue -> LuaM (tvalue * W);   (* the value of the slot, which is made *)
  set_slot : W -> Z -> tvalue -> tvalue -> W;
  luaH_getn : W -> Z -> Z;
  luaH_new : W -> Z -> Z -> Z * W;
  luaH_presize : W -> Z -> Z -> W;                    (* [luaH_resizearray], if the array is smaller *)
  (* metatables: of a table or userdata at an address, of the other types *)
  metatable : W -> Z -> option Z;
  type_metatable : W -> tvalue -> option Z;
  (* the upvalues of the running closure *)
  upval : W -> Z -> option tvalue;
  set_upval : W -> Z -> tvalue -> option W;
  (* ldo.c, ldebug.c: [luaD_call] with the number of results wanted *)
  luaD_call : W -> registers -> tvalue -> list tvalue -> nat -> LuaM (list tvalue * registers * W);
  luaG_typeerror : W -> tvalue -> string -> string;
  (* the C library and lobject.c *)
  luaO_str2d : bytes -> option Z;
  lua_number2str : Z -> bytes;
  strcoll : bytes -> bytes -> Z;
  luai_numpow : Z -> Z -> Z;
}.

Definition ttype (o : tvalue) : Z :=
  match o with
  | TNil => 0 | TBoolean _ => 1 | TLightUserData _ => 2 | TNumber _ => 3 | TGC GString _ => 4 | TGC GTable _ => 5
  | TGC GFunction _ => 6 | TGC GUserdata _ => 7 | TGC GThread _ => 8 | TDead _ => 11
  end.
Definition luaT_typenames (o : tvalue) : string :=
  match o with
  | TNil => "nil" | TBoolean _ => "boolean" | TLightUserData _ => "userdata" | TNumber _ => "number" | TGC GString _ => "string"
  | TGC GTable _ => "table" | TGC GFunction _ => "function" | TGC GUserdata _ => "userdata" | TGC GThread _ => "thread"
  | TDead _ => "deadkey"
  end%string.
Definition ttisstring (o : tvalue) : bool := ttype o =? 4.
Definition ttisfunction (o : tvalue) : bool := ttype o =? 6.
Definition ttisnumber (o : tvalue) : bool := ttype o =? 3.

Section Vm.
Context {W : Type} `{LuaState W}.

(** ** Metamethods (ltm.c) *)
Definition luaT_gettm (w : W) (events : Z) (event : TMS) : option tvalue :=
  let tm := luaH_get w events (tmname event) in if ttisnil tm then None else Some tm.
Definition fasttm (w : W) (et : option Z) (e : TMS) : option tvalue := mt ← et; luaT_gettm w mt e.
Definition luaT_gettmbyobj (w : W) (o : tvalue) (event : TMS) : tvalue :=
  let mt := match o with TGC GTable p | TGC GUserdata p => metatable w p | _ => type_metatable w o end in
  match mt with Some mt => luaH_get w mt (tmname event) | None => TNil end.

(** ** Conversions *)
Definition luaV_tonumber (w : W) (obj : tvalue) : option Z :=
  match obj with TNumber n => Some n | TGC GString p => luaO_str2d (getstr w p) | _ => None end.

(** [tostring]: the object as a string, [None] if it is neither string nor number. *)
Definition tostring (w : W) (o : tvalue) : option (tvalue * W) :=
  match o with
  | TGC GString _ => Some (o, w)
  | TNumber n => let (p, w) := luaS_newlstr w (lua_number2str n) in Some (TGC GString p, w)
  | _ => None
  end.

(** ** Calling metamethods *)
Definition callTMres (w : W) (r : registers) (f p1 p2 : tvalue) : LuaM (tvalue * registers * W) :=
  let* (res, r, w) := luaD_call w r f [p1; p2] 1 in
  match res with [v] => lret (v, r, w) | _ => None end.
Definition callTM (w : W) (r : registers) (f p1 p2 p3 : tvalue) : LuaM (registers * W) :=
  let* (_, r, w) := luaD_call w r f [p1; p2; p3] 0 in lret (r, w).

Fixpoint gettable_loop (turns : nat) (w : W) (r : registers) (t key : tvalue) : LuaM (tvalue * registers * W) :=
  match turns with
  | O => lerror "loop in gettable"
  | S turns =>
      let try tm := if ttisfunction tm then callTMres w r tm t key else gettable_loop turns w r tm key in
      match t with
      | TGC GTable h =>
          let res := luaH_get w h key in
          if negb (ttisnil res) then lret (res, r, w)
          else match fasttm w (metatable w h) TM_INDEX with None => lret (res, r, w) | Some tm => try tm end
      | _ =>
          let tm := luaT_gettmbyobj w t TM_INDEX in
          if ttisnil tm then lerror (luaG_typeerror w t "index") else try tm
      end
  end.
Definition luaV_gettable := gettable_loop MAXTAGLOOP.

Fixpoint settable_loop (turns : nat) (w : W) (r : registers) (t key val : tvalue) : LuaM (registers * W) :=
  match turns with
  | O => lerror "loop in settable"
  | S turns =>
      let try w tm := if ttisfunction tm then callTM w r tm t key val else settable_loop turns w r tm key val in
      match t with
      | TGC GTable h =>
          let* (oldval, w) := luaH_set w h key in
          if negb (ttisnil oldval) then lret (r, set_slot w h key val)
          else match fasttm w (metatable w h) TM_NEWINDEX with
               | None => lret (r, set_slot w h key val)
               | Some tm => try w tm
               end
      | _ =>
          let tm := luaT_gettmbyobj w t TM_NEWINDEX in
          if ttisnil tm then lerror (luaG_typeerror w t "index") else try w tm
      end
  end.
Definition luaV_settable := settable_loop MAXTAGLOOP.

(** [None] as the result: no metamethod. *)
Definition call_binTM (w : W) (r : registers) (p1 p2 : tvalue) (event : TMS) : LuaM (option tvalue * registers * W) :=
  let tm := luaT_gettmbyobj w p1 event in
  let tm := if ttisnil tm then luaT_gettmbyobj w p2 event else tm in
  if ttisnil tm then lret (None, r, w)
  else let* (v, r, w) := callTMres w r tm p1 p2 in lret (Some v, r, w).

Definition get_compTM (w : W) (mt1 mt2 : option Z) (event : TMS) : option tvalue :=
  tm1 ← fasttm w mt1 event;
  if bool_decide (mt1 = mt2) then Some tm1
  else tm2 ← fasttm w mt2 event; if luaO_rawequalObj tm1 tm2 then Some tm1 else None.

Definition call_orderTM (w : W) (r : registers) (p1 p2 : tvalue) (event : TMS) : LuaM (option bool * registers * W) :=
  let tm1 := luaT_gettmbyobj w p1 event in
  if ttisnil tm1 then lret (None, r, w)
  else if negb (luaO_rawequalObj tm1 (luaT_gettmbyobj w p2 event)) then lret (None, r, w)
  else let* (v, r, w) := callTMres w r tm1 p1 p2 in lret (Some (negb (l_isfalse v)), r, w).

(** ** Comparisons *)
Fixpoint strcmp_loop (turns : nat) (l r : bytes) : option Z :=
  match turns with
  | O => None
  | S turns =>
      let temp := strcoll (cstr l) (cstr r) in
      if negb (temp =? 0) then Some temp
      else
        let len := length (cstr l) in
        if (len =? length r)%nat then Some (if (len =? length l)%nat then 0 else 1)
        else if (len =? length l)%nat then Some (-1)
        else if (length r <? len)%nat then None   (* behind the end of [r] *)
        else strcmp_loop turns (drop (S len) l) (drop (S len) r)
  end.
Definition l_strcmp (l r : bytes) : option Z := strcmp_loop (S (length l)) l r.

Definition luaG_ordererror {A} (p1 p2 : tvalue) : LuaM A :=
  let t1 := luaT_typenames p1 in
  let t2 := luaT_typenames p2 in
  if bool_decide (String.get 2 t1 = String.get 2 t2) then lerror ("attempt to compare two " +:+ t1 +:+ " values")
  else lerror ("attempt to compare " +:+ t1 +:+ " with " +:+ t2).

Definition luaV_lessthan (w : W) (s : registers) (l r : tvalue) : LuaM (bool * registers * W) :=
  if negb (ttype l =? ttype r) then luaG_ordererror l r
  else match l, r with
  | TNumber a, TNumber b => lret (luai_numlt a b, s, w)
  | TGC GString a, TGC GString b => let* c := llift (l_strcmp (getstr w a) (getstr w b)) in lret (c <? 0, s, w)
  | _, _ =>
      let* (res, s, w) := call_orderTM w s l r TM_LT in
      match res with Some b => lret (b, s, w) | None => luaG_ordererror l r end
  end.

Definition lessequal (w : W) (s : registers) (l r : tvalue) : LuaM (bool * registers * W) :=
  if negb (ttype l =? ttype r) then luaG_ordererror l r
  else match l, r with
  | TNumber a, TNumber b => lret (luai_numle a b, s, w)
  | TGC GString a, TGC GString b => let* c := llift (l_strcmp (getstr w a) (getstr w b)) in lret (c <=? 0, s, w)
  | _, _ =>
      let* (res, s, w) := call_orderTM w s l r TM_LE in
      match res with
      | Some b => lret (b, s, w)
      | None =>
          let* (res, s, w) := call_orderTM w s r l TM_LT in
          match res with Some b => lret (negb b, s, w) | None => luaG_ordererror l r end
      end
  end.

(** Of values of the same type. *)
Definition luaV_equalval (w : W) (s : registers) (t1 t2 : tvalue) : LuaM (bool * registers * W) :=
  let try tm :=
    match tm with
    | None => lret (false, s, w)
    | Some tm => let* (v, s, w) := callTMres w s tm t1 t2 in lret (negb (l_isfalse v), s, w)
    end in
  match t1, t2 with
  | TNil, _ => lret (true, s, w)
  | TNumber a, TNumber b => lret (luai_numeq a b, s, w)
  | TBoolean a, TBoolean b => lret (Bool.eqb a b, s, w)
  | TLightUserData a, TLightUserData b => lret (a =? b, s, w)
  | TGC GUserdata a, TGC GUserdata b | TGC GTable a, TGC GTable b =>
      if a =? b then lret (true, s, w) else try (get_compTM w (metatable w a) (metatable w b) TM_EQ)
  | TGC _ a, TGC _ b | TDead a, TDead b => lret (a =? b, s, w)
  | _, _ => None
  end.
Definition equalobj (w : W) (s : registers) (o1 o2 : tvalue) : LuaM (bool * registers * W) :=
  if ttype o1 =? ttype o2 then luaV_equalval w s o1 o2 else lret (false, s, w).

(** ** Arithmetic *)
Inductive arith := AADD | ASUB | AMUL | ADIV | AMOD | APOW | AUNM.
Definition arith_event (op : arith) : TMS :=
  match op with
  | AADD => TM_ADD | ASUB => TM_SUB | AMUL => TM_MUL | ADIV => TM_DIV | AMOD => TM_MOD | APOW => TM_POW | AUNM => TM_UNM
  end.
Definition arith_num (op : arith) (nb nc : Z) : Z :=
  match op with
  | AADD => luai_numadd nb nc | ASUB => luai_numsub nb nc | AMUL => luai_nummul nb nc | ADIV => luai_numdiv nb nc
  | AMOD => luai_nummod nb nc | APOW => luai_numpow nb nc | AUNM => luai_numunm nb
  end.

Definition luaG_aritherror {A} (w : W) (p1 p2 : tvalue) : LuaM A :=
  let p2 := if luaV_tonumber w p1 then p2 else p1 in lerror (luaG_typeerror w p2 "perform arithmetic on").

Definition Arith (w : W) (s : registers) (rb rc : tvalue) (op : arith) : LuaM (tvalue * registers * W) :=
  match luaV_tonumber w rb, luaV_tonumber w rc with
  | Some nb, Some nc => lret (TNumber (arith_num op nb nc), s, w)
  | _, _ =>
      let* (v, s, w) := call_binTM w s rb rc (arith_event op) in
      match v with Some v => lret (v, s, w) | None => luaG_aritherror w rb rc end
  end.
Definition arith_op (w : W) (s : registers) (rb rc : tvalue) (op : arith) : LuaM (tvalue * registers * W) :=
  match rb, rc with
  | TNumber nb, TNumber nc => lret (TNumber (arith_num op nb nc), s, w)
  | _, _ => Arith w s rb rc op
  end.

Definition luaV_len (w : W) (s : registers) (rb : tvalue) : LuaM (tvalue * registers * W) :=
  match rb with
  | TGC GTable p => lret (TNumber (cast_num (luaH_getn w p)), s, w)
  | TGC GString p => lret (TNumber (cast_num (Z.of_nat (length (getstr w p)))), s, w)
  | _ =>
      let* (v, s, w) := call_binTM w s rb TNil TM_LEN in
      match v with Some v => lret (v, s, w) | None => lerror (luaG_typeerror w rb "get length of") end
  end.

(** ** Registers *)
Definition rget (s : registers) (i : Z) : option tvalue := if i <? 0 then None else s !! Z.to_nat i.
Definition rset (s : registers) (i : Z) (v : tvalue) : option registers :=
  if (0 <=? i) && (i <? Z.of_nat (length s)) then Some (<[Z.to_nat i := v]> s) else None.

(** ** Concatenation *)

(** [tostring(L, base + i)]: the register is converted in place. *)
Definition tostring_reg (w : W) (s : registers) (i : Z) : option (bool * registers * W) :=
  o ← rget s i;
  match tostring w o with
  | Some (o, w) => s ← rset s i o; Some (true, s, w)
  | None => Some (false, s, w)
  end.
Definition string_reg (w : W) (s : registers) (i : Z) : option bytes :=
  o ← rget s i; match o with TGC GString p => Some (getstr w p) | _ => None end.

Definition luaG_concaterror {A} (w : W) (p1 p2 : tvalue) : LuaM A :=
  let p1 := if ttisstring p1 || ttisnumber p1 then p2 else p1 in lerror (luaG_typeerror w p1 "concatenate").

(** Strings below register [i], at most [rest], in front of [buffer]; the number of
    strings collected. *)
Fixpoint collect (rest : nat) (w : W) (s : registers) (i n : Z) (buffer : bytes) : LuaM (Z * bytes * registers * W) :=
  match rest with
  | O => lret (n, buffer, s, w)
  | S rest =>
      let* (ok, s, w) := llift (tostring_reg w s i) in
      if (ok : bool) then
        let* l := llift (string_reg w s i) in
        if MAX_SIZET - Z.of_nat (length buffer) <=? Z.of_nat (length l) then lerror "string length overflow"
        else collect rest w s (i - 1) (n + 1) (l ++ buffer)
      else lret (n, buffer, s, w)
  end.

Definition concat_turn (w : W) (s : registers) (total last : Z) : LuaM (Z * registers * W) :=
  let* o1 := llift (rget s (last - 1)) in
  let* o2 := llift (rget s last) in
  let* (ok, s, w) := if ttisstring o1 || ttisnumber o1 then llift (tostring_reg w s last) else lret (false, s, w) in
  if negb ok then
    let* (v, s, w) := call_binTM w s o1 o2 TM_CONCAT in
    match v with
    | Some v => let* s := llift (rset s (last - 1) v) in lret (2, s, w)
    | None => luaG_concaterror w o1 o2
    end
  else
    let* l2 := llift (string_reg w s last) in
    if (length l2 =? 0)%nat then let* (_, s, w) := llift (tostring_reg w s (last - 1)) in lret (2, s, w)
    else
      let* (n, buffer, s, w) := collect (Z.to_nat (total - 1)) w s (last - 1) 1 l2 in
      let (p, w) := luaS_newlstr w buffer in
      let* s := llift (rset s (last + 1 - n) (TGC GString p)) in lret (n, s, w).

Fixpoint concat_loop (turns : nat) (w : W) (s : registers) (total last : Z) : LuaM (registers * W) :=
  match turns with
  | O => None
  | S turns =>
      let* (n, s, w) := concat_turn w s total last in
      let total := total - (n - 1) in
      if 1 <? total then concat_loop turns w s total (last - (n - 1)) else lret (s, w)
  end.
Definition luaV_concat (w : W) (s : registers) (total last : Z) : LuaM (registers * W) :=
  concat_loop (Z.to_nat total + 1) w s total last.

(** ** One instruction *)
Record lclosure := { cl_code : list Z; cl_k : list tvalue; cl_env : Z }.
Record frame := { regs : registers; pc : Z; world : W }.

(** What a turn of the loop does: it goes on, or the operation is one of ldo.c's. *)
Inductive turn := Continue (f : frame) | Leave (op : OpCode).

Definition instr_at (cl : lclosure) (i : Z) : option Z := if i <? 0 then None else cl_code cl !! Z.to_nat i.
Definition kget (cl : lclosure) (i : Z) : option tvalue := if i <? 0 then None else cl_k cl !! Z.to_nat i.
Definition rkget (cl : lclosure) (s : registers) (x : Z) : option tvalue := if ISK x then kget cl (INDEXK x) else rget s x.

(** [do setnilvalue(rb--) while (rb >= ra)]. *)
Fixpoint loadnil (n : nat) (s : registers) (rb : Z) : option registers :=
  s ← rset s rb TNil; match n with O => Some s | S n => loadnil n s (rb - 1) end.

(** Results written from register [i] on. *)
Fixpoint rsets (s : registers) (i : Z) (vs : list tvalue) : option registers :=
  match vs with [] => Some s | v :: vs => s ← rset s i v; rsets s (i + 1) vs end.

(** The number in register [i] of a numerical for, converted in place. *)
Definition for_number (what : string) (w : W) (s : registers) (i : Z) : LuaM (Z * registers) :=
  let* o := llift (rget s i) in
  match luaV_tonumber w o with
  | Some n => let* s := llift (rset s i (TNumber n)) in lret (n, s)
  | None => lerror ("'for' " +:+ what +:+ " must be a number")
  end.

(** Registers [ra + n] down to [ra + 1] into the elements [last] and below of a table. *)
Fixpoint setlist_loop (n : nat) (w : W) (s : registers) (ra h last : Z) : LuaM W :=
  match n with
  | O => lret w
  | S m =>
      let* val := llift (rget s (ra + Z.of_nat n)) in
      let* (_, w) := luaH_set w h (TNumber (cast_num last)) in
      setlist_loop m (set_slot w h (TNumber (cast_num last)) val) s ra h (last - 1)
  end.

Section Step.
Variable cl : lclosure.

(** The register [ra] gets the result of [m], and control goes on at [pc]. *)
Definition to_ra (i pc : Z) (m : LuaM (tvalue * registers * W)) : LuaM turn :=
  let* (v, s, w) := m in
  let* s := llift (rset s (GETARG_A i) v) in lret (Continue {| regs := s; pc := pc; world := w |}).

(** The jump that follows a test, taken if [cond]. *)
Definition jump_if (cond : bool) (s : registers) (w : W) (pc : Z) : LuaM turn :=
  if cond then let* j := llift (instr_at cl pc) in lret (Continue {| regs := s; pc := pc + GETARG_sBx j + 1; world := w |})
  else lret (Continue {| regs := s; pc := pc + 1; world := w |}).

(** [res == GETARG_A(i)] *)
Definition compare (i pc : Z) (m : LuaM (bool * registers * W)) : LuaM turn :=
  let* (res, s, w) := m in jump_if (Z.b2z res =? GETARG_A i) s w pc.

Definition step_forloop (i : Z) (s : registers) (w : W) (pc : Z) : LuaM turn :=
  let ra := GETARG_A i in
  let* o0 := llift (rget s ra) in
  let* o1 := llift (rget s (ra + 1)) in
  let* o2 := llift (rget s (ra + 2)) in
  match o0, o1, o2 with
  | TNumber n0, TNumber limit, TNumber step =>
      let idx := luai_numadd n0 step in
      if if luai_numlt 0 step then luai_numle idx limit else luai_numle limit idx then
        let* s := llift (rset s ra (TNumber idx)) in
        let* s := llift (rset s (ra + 3) (TNumber idx)) in
        lret (Continue {| regs := s; pc := pc + GETARG_sBx i; world := w |})
      else lret (Continue {| regs := s; pc := pc; world := w |})
  | _, _, _ => None
  end.

Definition step_forprep (i : Z) (s : registers) (w : W) (pc : Z) : LuaM turn :=
  let ra := GETARG_A i in
  let* (n0, s) := for_number "initial value" w s ra in
  let* (_, s) := for_number "limit" w s (ra + 1) in
  let* (step, s) := for_number "step" w s (ra + 2) in
  let* s := llift (rset s ra (TNumber (luai_numsub n0 step))) in
  lret (Continue {| regs := s; pc := pc + GETARG_sBx i; world := w |}).

Definition step_tforloop (i : Z) (s : registers) (w : W) (pc : Z) : LuaM turn :=
  let ra := GETARG_A i in
  let cb := ra + 3 in
  let* o2 := llift (rget s (ra + 2)) in
  let* o1 := llift (rget s (ra + 1)) in
  let* o0 := llift (rget s ra) in
  let* s := llift (rsets s cb [o0; o1; o2]) in
  let* (res, s, w) := luaD_call w s o0 [o1; o2] (Z.to_nat (GETARG_C i)) in
  let* s := llift (rsets s cb res) in
  let* first := llift (rget s cb) in
  if negb (ttisnil first) then let* s := llift (rset s (cb - 1) first) in jump_if true s w pc
  else jump_if false s w pc.

Definition step_setlist (i : Z) (s : registers) (w : W) (pc : Z) : LuaM turn :=
  let ra := GETARG_A i in
  let n := GETARG_B i in
  if n =? 0 then lret (Leave OP_SETLIST)   (* up to the top of the stack *)
  else
    let* (c, pc) := if GETARG_C i =? 0 then let* c := llift (instr_at cl pc) in lret (i32 c, pc + 1) else lret (GETARG_C i, pc) in
    let* o := llift (rget s ra) in
    match o with
    | TGC GTable h =>
        let last := (c - 1) * LFIELDS_PER_FLUSH + n in
        let* w := setlist_loop (Z.to_nat n) (luaH_presize w h last) s ra h last in
        lret (Continue {| regs := s; pc := pc; world := w |})
    | _ => lret (Continue {| regs := s; pc := pc; world := w |})
    end.

(** The operations on values. [pc] is behind the instruction. *)
Definition step_op (op : OpCode) (i : Z) (s : registers) (w : W) (pc : Z) : LuaM turn :=
  let continue s w := lret (Continue {| regs := s; pc := pc; world := w |}) in
  let rb := llift (rget s (GETARG_B i)) in
  let rkb := llift (rkget cl s (GETARG_B i)) in
  let rkc := llift (rkget cl s (GETARG_C i)) in
  let kbx := llift (kget cl (GETARG_Bx i)) in
  let ra := llift (rget s (GETARG_A i)) in
  let g := TGC GTable (cl_env cl) in
  match op with
  | OP_MOVE => to_ra i pc (let* v := rb in lret (v, s, w))
  | OP_LOADK => to_ra i pc (let* v := kbx in lret (v, s, w))
  | OP_LOADBOOL => to_ra i (if GETARG_C i =? 0 then pc else pc + 1) (lret (TBoolean (negb (GETARG_B i =? 0)), s, w))
  | OP_LOADNIL => let* s := llift (loadnil (Z.to_nat (GETARG_B i - GETARG_A i)) s (GETARG_B i)) in continue s w
  | OP_GETUPVAL => to_ra i pc (let* v := llift (upval w (GETARG_B i)) in lret (v, s, w))
  | OP_GETGLOBAL => to_ra i pc (let* key := kbx in luaV_gettable w s g key)
  | OP_GETTABLE => to_ra i pc (let* t := rb in let* key := rkc in luaV_gettable w s t key)
  | OP_SETGLOBAL => let* key := kbx in let* v := ra in let* (s, w) := luaV_settable w s g key v in continue s w
  | OP_SETUPVAL => let* v := ra in let* w := llift (set_upval w (GETARG_B i) v) in continue s w
  | OP_SETTABLE => let* t := ra in let* key := rkb in let* v := rkc in let* (s, w) := luaV_settable w s t key v in continue s w
  | OP_NEWTABLE =>
      to_ra i pc (let (p, w) := luaH_new w (luaO_fb2int (GETARG_B i)) (luaO_fb2int (GETARG_C i)) in lret (TGC GTable p, s, w))
  | OP_SELF =>
      let* o := rb in
      let* s := llift (rset s (GETARG_A i + 1) o) in
      to_ra i pc (let* key := llift (rkget cl s (GETARG_C i)) in luaV_gettable w s o key)
  | OP_ADD => to_ra i pc (let* b := rkb in let* c := rkc in arith_op w s b c AADD)
  | OP_SUB => to_ra i pc (let* b := rkb in let* c := rkc in arith_op w s b c ASUB)
  | OP_MUL => to_ra i pc (let* b := rkb in let* c := rkc in arith_op w s b c AMUL)
  | OP_DIV => to_ra i pc (let* b := rkb in let* c := rkc in arith_op w s b c ADIV)
  | OP_MOD => to_ra i pc (let* b := rkb in let* c := rkc in arith_op w s b c AMOD)
  | OP_POW => to_ra i pc (let* b := rkb in let* c := rkc in arith_op w s b c APOW)
  | OP_UNM => to_ra i pc (let* b := rb in arith_op w s b b AUNM)
  | OP_NOT => to_ra i pc (let* b := rb in lret (TBoolean (l_isfalse b), s, w))
  | OP_LEN => to_ra i pc (let* b := rb in luaV_len w s b)
  | OP_CONCAT =>
      let b := GETARG_B i in
      let c := GETARG_C i in
      to_ra i pc (let* (s, w) := luaV_concat w s (c - b + 1) c in let* v := llift (rget s b) in lret (v, s, w))
  | OP_JMP => lret (Continue {| regs := s; pc := pc + GETARG_sBx i; world := w |})
  | OP_EQ => compare i pc (let* b := rkb in let* c := rkc in equalobj w s b c)
  | OP_LT => compare i pc (let* b := rkb in let* c := rkc in luaV_lessthan w s b c)
  | OP_LE => compare i pc (let* b := rkb in let* c := rkc in lessequal w s b c)
  | OP_TEST => let* v := ra in jump_if (negb (Z.b2z (l_isfalse v) =? GETARG_C i)) s w pc
  | OP_TESTSET =>
      let* v := rb in
      if Z.b2z (l_isfalse v) =? GETARG_C i then jump_if false s w pc
      else let* s := llift (rset s (GETARG_A i) v) in jump_if true s w pc
  | OP_FORLOOP => step_forloop i s w pc
  | OP_FORPREP => step_forprep i s w pc
  | OP_TFORLOOP => step_tforloop i s w pc
  | OP_SETLIST => step_setlist i s w pc
  | OP_CALL | OP_TAILCALL | OP_RETURN | OP_CLOSE | OP_CLOSURE | OP_VARARG => lret (Leave op)
  end.

(** A turn of the main loop. A number that is no operation matches no case. *)
Definition vm_step (f : frame) : LuaM turn :=
  let* i := llift (instr_at cl (pc f)) in
  match to_opcode (GET_OPCODE i) with
  | Some op => step_op op i (regs f) (world f) (pc f + 1)
  | None => lret (Continue {| regs := regs f; pc := pc f + 1; world := world f |})
  end.
End Step.
End Vm.
Arguments frame : clear implicits.
Arguments turn : clear implicits.
