(* ===== verification/LVmProps.v ===== *)
(** * Execution of instructions

    The turns of the interpreter as a transition relation, under the assumption that
    calls do not write the registers of the frame ([CallsKeepFrame]: no closure that
    runs in between assigns one of its local variables). Every operation on values then
    has a meaning without the frame, and an instruction puts it into one register. *)
From stdpp Require Import base list option relations.
From Stdlib Require Import ZArith Lia ZifyBool.
From S2P Require Import Prelude LObject LNum LOpcodes LVm.
#[local] Open Scope Z_scope.

Class CallsKeepFrame (W : Type) `{LuaState W} := {
  call : W -> tvalue -> list tvalue -> nat -> LuaM (list tvalue * W);
  luaD_call_frame w s f args n : luaD_call w s f args n = (let* (vs, w) := call w f args n in lret (vs, s, w));
}.

(** ** Registers *)
Lemma rget_rset s i v s' j : rset s i v = Some s' -> rget s' j = if j =? i then Some v else rget s j.
Proof.
  unfold rset, rget. destruct ((0 <=? i) && (i <? Z.of_nat (length s))) eqn:E; [|done]. intros [= <-].
  destruct (Z.ltb_spec j 0), (Z.eqb_spec j i); subst; try lia; [done|apply list_lookup_insert_eq; lia|apply list_lookup_insert_ne; lia].
Qed.
Lemma rset_length s i v s' : rset s i v = Some s' -> length s' = length s.
Proof. unfold rset. destruct (_ && _); [|done]. intros [= <-]. apply length_insert. Qed.
Lemma rset_some s i v : 0 <= i < Z.of_nat (length s) -> is_Some (rset s i v).
Proof. intros Hi. unfold rset. assert ((0 <=? i) && (i <? Z.of_nat (length s)) = true) as -> by lia. by eexists. Qed.
Lemma rget_bounds s i v : rget s i = Some v -> 0 <= i < Z.of_nat (length s).
Proof. unfold rget. destruct (Z.ltb_spec i 0); [done|]. intros Hi%lookup_lt_Some. lia. Qed.
Lemma rget_some s i : 0 <= i < Z.of_nat (length s) -> is_Some (rget s i).
Proof. intros Hi. unfold rget. assert ((i <? 0) = false) as -> by lia. apply lookup_lt_is_Some_2. lia. Qed.

Lemma loadnil_spec n s rb : 0 <= rb - Z.of_nat n -> rb < Z.of_nat (length s) ->
  exists s', loadnil n s rb = Some s' /\ length s' = length s /\
    forall j, rget s' j = if (rb - Z.of_nat n <=? j) && (j <=? rb) then Some TNil else rget s j.
Proof.
  revert s rb. induction n as [|n IH]; intros s rb Hlo Hhi; cbn [loadnil]; destruct (rset_some s rb TNil) as [s1 E1]; try lia; rewrite E1; cbn [mbind option_bind].
  - exists s1. split; [done|]. split; [by eapply rset_length|]. intros j. rewrite (rget_rset _ _ _ _ j E1).
    destruct (Z.eqb_spec j rb), ((rb - Z.of_nat 0 <=? j) && (j <=? rb)) eqn:E; done || lia.
  - pose proof (rset_length _ _ _ _ E1) as Hl. destruct (IH s1 (rb - 1)) as (s' & -> & Hl' & Hg); [lia..|]. exists s'. split; [done|].
    split; [congruence|]. intros j. rewrite Hg, (rget_rset _ _ _ _ j E1).
    destruct ((rb - 1 - Z.of_nat n <=? j) && (j <=? rb - 1)) eqn:Ea, ((rb - Z.of_nat (S n) <=? j) && (j <=? rb)) eqn:Eb, (Z.eqb_spec j rb); done || lia.
Qed.

Section Frames.
Context {W : Type} `{CallsKeepFrame W}.

Definition on {A} (s : registers) (m : LuaM (A * W)) : LuaM (A * registers * W) := let* (a, w) := m in lret (a, s, w).
Definition strip {A} (m : LuaM (A * registers * W)) : LuaM (A * W) := let* (a, _, w) := m in lret (a, w).
Definition frameless {A} (f : registers -> LuaM (A * registers * W)) : Prop := forall s, f s = on s (strip (f [])).

Lemma frameless_ret {A} (a : A) w : frameless (fun s => lret (a, s, w)).
Proof. done. Qed.
Lemma frameless_error {A} msg : frameless (A := A) (fun _ => lerror msg).
Proof. done. Qed.
Lemma frameless_none {A} : frameless (A := A) (fun _ => None).
Proof. done. Qed.
Lemma frameless_bind {A B} (f : registers -> LuaM (A * registers * W)) (g : A -> registers -> W -> LuaM (B * registers * W)) :
  frameless f -> (forall a w, frameless (fun s => g a s w)) -> frameless (fun s => let* (a, s, w) := f s in g a s w).
Proof.
  intros Hf Hg s. rewrite (Hf s), (Hf []). destruct (f []) as [[[[a s0] w]|]|]; cbn; [|done..]. apply (Hg a w s).
Qed.
Lemma frameless_lift {A B} (o : option A) (g : A -> registers -> LuaM (B * registers * W)) :
  (forall a, frameless (g a)) -> frameless (fun s => let* a := llift o in g a s).
Proof. intros Hg s. destruct o as [a|]; cbn; [apply Hg|done]. Qed.

Lemma frameless_callTMres w f p1 p2 : frameless (fun s => callTMres w s f p1 p2).
Proof.
  intros s. unfold callTMres. rewrite !luaD_call_frame. destruct (call w f [p1; p2] 1) as [[[vs w']|]|]; cbn; [|done..].
  destruct vs as [|v [|]]; done.
Qed.

(** Case analysis down to the basic forms. *)
Ltac frameless :=
  repeat first
    [ apply frameless_ret | apply frameless_error | apply frameless_none | apply frameless_callTMres
    | match goal with
      | |- frameless (fun s => lbind (llift ?o) _) => apply (frameless_lift o); intros ?
      | |- frameless (fun s => lbind _ _) => apply frameless_bind; [|intros ? ?]
      | |- context [match ?x with _ => _ end] => destruct x
      end ].

Lemma frameless_gettable n w t key : frameless (fun s => gettable_loop n w s t key).
Proof. revert t. induction n as [|n IH]; intros t; cbn [gettable_loop]; cbv zeta; frameless; apply IH. Qed.
Lemma frameless_binTM w p1 p2 e : frameless (fun s => call_binTM w s p1 p2 e).
Proof. unfold call_binTM. cbv zeta. frameless. Qed.
Lemma frameless_orderTM w p1 p2 e : frameless (fun s => call_orderTM w s p1 p2 e).
Proof. unfold call_orderTM. cbv zeta. frameless. Qed.
Lemma frameless_arith w b c op : frameless (fun s => arith_op w s b c op).
Proof. unfold arith_op, Arith, luaG_aritherror. frameless; apply frameless_binTM. Qed.
Lemma frameless_len w b : frameless (fun s => luaV_len w s b).
Proof. unfold luaV_len. frameless; apply frameless_binTM. Qed.
Lemma frameless_equal w a b : frameless (fun s => equalobj w s a b).
Proof. unfold equalobj, luaV_equalval. cbv zeta. frameless. Qed.
Lemma frameless_lessthan w a b : frameless (fun s => luaV_lessthan w s a b).
Proof. unfold luaV_lessthan, luaG_ordererror. cbv zeta. frameless; apply frameless_orderTM. Qed.
Lemma frameless_lessequal w a b : frameless (fun s => lessequal w s a b).
Proof. unfold lessequal, luaG_ordererror. cbv zeta. frameless; apply frameless_orderTM. Qed.

(** The operations on values. *)
Definition index_val (w : W) (t key : tvalue) : LuaM (tvalue * W) := strip (luaV_gettable w [] t key).
Definition arith_val (w : W) (op : arith) (a b : tvalue) : LuaM (tvalue * W) := strip (arith_op w [] a b op).
Definition len_val (w : W) (a : tvalue) : LuaM (tvalue * W) := strip (luaV_len w [] a).
Definition equal_val (w : W) (a b : tvalue) : LuaM (bool * W) := strip (equalobj w [] a b).
Definition less_val (w : W) (a b : tvalue) : LuaM (bool * W) := strip (luaV_lessthan w [] a b).
Definition le_val (w : W) (a b : tvalue) : LuaM (bool * W) := strip (lessequal w [] a b).

(** ** Instructions that compute a value *)
Variable cl : lclosure.

Definition instr_val (i : Z) (s : registers) (w : W) : LuaM (tvalue * W) :=
  let rb := llift (rget s (GETARG_B i)) in
  let rkb := llift (rkget cl s (GETARG_B i)) in
  let rkc := llift (rkget cl s (GETARG_C i)) in
  let arith op := let* b := rkb in let* c := rkc in arith_val w op b c in
  match to_opcode (GET_OPCODE i) with
  | Some OP_GETUPVAL => let* v := llift (upval w (GETARG_B i)) in lret (v, w)
  | Some OP_GETGLOBAL => let* key := llift (kget cl (GETARG_Bx i)) in index_val w (TGC GTable (cl_env cl)) key
  | Some OP_GETTABLE => let* t := rb in let* key := rkc in index_val w t key
  | Some OP_ADD => arith AADD | Some OP_SUB => arith ASUB | Some OP_MUL => arith AMUL | Some OP_DIV => arith ADIV
  | Some OP_MOD => arith AMOD | Some OP_POW => arith APOW
  | Some OP_UNM => let* b := rb in arith_val w AUNM b b
  | Some OP_NOT => let* b := rb in lret (TBoolean (l_isfalse b), w)
  | Some OP_LEN => let* b := rb in len_val w b
  | _ => None
  end.
Definition value_op (op : OpCode) : bool :=
  match op with
  | OP_GETUPVAL | OP_GETGLOBAL | OP_GETTABLE | OP_ADD | OP_SUB | OP_MUL | OP_DIV | OP_MOD | OP_POW | OP_UNM | OP_NOT | OP_LEN => true
  | _ => false
  end.

(** Comparisons: the result the A argument is compared with. *)
Definition instr_cmp (i : Z) (s : registers) (w : W) : LuaM (bool * W) :=
  let* b := llift (rkget cl s (GETARG_B i)) in
  let* c := llift (rkget cl s (GETARG_C i)) in
  match to_opcode (GET_OPCODE i) with
  | Some OP_EQ => equal_val w b c | Some OP_LT => less_val w b c | Some OP_LE => le_val w b c
  | _ => None
  end.
Definition cmp_op (op : OpCode) : bool := match op with OP_EQ | OP_LT | OP_LE => true | _ => false end.

Definition at_ (s : registers) (p : Z) (w : W) : frame W := {| regs := s; pc := p; world := w |}.

Lemma step_at s p w i op : instr_at cl p = Some i -> GET_OPCODE i = of_opcode op -> vm_step cl (at_ s p w) = step_op cl op i s w (p + 1).
Proof. intros Hi Ho. unfold vm_step. cbn [pc at_]. rewrite Hi. cbn [llift fmap option_fmap option_map lbind]. by rewrite Ho, to_of_opcode. Qed.

(** The register A gets the value. *)
Definition put (i : Z) (s : registers) (p : Z) (m : LuaM (tvalue * W)) : LuaM (turn W) :=
  let* (v, w) := m in let* s := llift (rset s (GETARG_A i) v) in lret (Continue (at_ s p w)).

Lemma to_ra_on i p s (m : LuaM (tvalue * W)) : to_ra i p (on s m) = put i s p m.
Proof. by destruct m as [[[v w]|]|]. Qed.
Lemma lbind_on {A B} (o : option B) s (k : B -> LuaM (A * W)) : (let* b := llift o in on s (k b)) = on s (let* b := llift o in k b).
Proof. by destruct o. Qed.

Lemma step_value s p w i op : instr_at cl p = Some i -> GET_OPCODE i = of_opcode op -> value_op op = true ->
  vm_step cl (at_ s p w) = put i s (p + 1) (instr_val i s w).
Proof.
  intros Hi Ho Hv. rewrite (step_at _ _ _ _ _ Hi Ho). unfold instr_val. rewrite Ho, to_of_opcode. rewrite <- to_ra_on.
  assert (forall m : LuaM (tvalue * registers * W), forall m', m = m' -> to_ra i (p + 1) m = to_ra i (p + 1) m') as E by congruence.
  destruct op; try discriminate Hv; cbn [step_op]; apply E; rewrite <- ?lbind_on;
  repeat match goal with |- lbind (llift ?o) _ = lbind (llift ?o) _ => destruct o; cbn [llift fmap option_fmap option_map lbind]; [|done] end;
  rewrite <- ?lbind_on;
  repeat match goal with |- lbind (llift ?o) _ = lbind (llift ?o) _ => destruct o; cbn [llift fmap option_fmap option_map lbind]; [|done] end;
  first [done|apply frameless_gettable|apply frameless_arith|apply frameless_len].
Qed.

Lemma step_compare s p w i op : instr_at cl p = Some i -> GET_OPCODE i = of_opcode op -> cmp_op op = true ->
  vm_step cl (at_ s p w) = (let* (b, w) := instr_cmp i s w in jump_if cl (Z.b2z b =? GETARG_A i) s w (p + 1)).
Proof.
  intros Hi Ho Hv. rewrite (step_at _ _ _ _ _ Hi Ho). unfold instr_cmp. rewrite Ho, to_of_opcode.
  assert (forall f m, frameless f -> strip (f []) = m ->
    compare cl i (p + 1) (f s) = (let* (b, w) := m in jump_if cl (Z.b2z b =? GETARG_A i) s w (p + 1))) as E.
  { intros f m Hf <-. rewrite (Hf s). by destruct (strip (f [])) as [[[b w']|]|]. }
  destruct op; try discriminate Hv; cbn [step_op];
  (destruct (rkget cl s (GETARG_B i)); cbn [llift fmap option_fmap option_map lbind]; [|done];
   destruct (rkget cl s (GETARG_C i)); cbn [llift fmap option_fmap option_map lbind]; [|done]).
  - by apply (E (fun s => equalobj w s _ _)), eq_refl; apply frameless_equal.
  - by apply (E (fun s => luaV_lessthan w s _ _)), eq_refl; apply frameless_lessthan.
  - by apply (E (fun s => lessequal w s _ _)), eq_refl; apply frameless_lessequal.
Qed.

(** ** The other instructions of expressions *)
Definition goes (s : registers) (p : Z) (w : W) : LuaM (turn W) := lret (Continue (at_ s p w)).

Section Steps.
Variables (s : registers) (p : Z) (w : W) (i : Z).
Hypothesis Hi : instr_at cl p = Some i.

Lemma step_move : GET_OPCODE i = of_opcode OP_MOVE ->
  vm_step cl (at_ s p w) = put i s (p + 1) (let* v := llift (rget s (GETARG_B i)) in lret (v, w)).
Proof using Hi. intros Ho. rewrite (step_at _ _ _ _ _ Hi Ho). cbn [step_op]. by destruct (rget s (GETARG_B i)). Qed.
Lemma step_loadk : GET_OPCODE i = of_opcode OP_LOADK ->
  vm_step cl (at_ s p w) = put i s (p + 1) (let* v := llift (kget cl (GETARG_Bx i)) in lret (v, w)).
Proof using Hi. intros Ho. rewrite (step_at _ _ _ _ _ Hi Ho). cbn [step_op]. by destruct (kget cl (GETARG_Bx i)). Qed.
Lemma step_loadbool : GET_OPCODE i = of_opcode OP_LOADBOOL ->
  vm_step cl (at_ s p w) = put i s (if GETARG_C i =? 0 then p + 1 else p + 1 + 1) (lret (TBoolean (negb (GETARG_B i =? 0)), w)).
Proof using Hi. intros Ho. by rewrite (step_at _ _ _ _ _ Hi Ho). Qed.
Lemma step_loadnil : GET_OPCODE i = of_opcode OP_LOADNIL -> GETARG_A i <= GETARG_B i < Z.of_nat (length s) ->
  exists s', vm_step cl (at_ s p w) = goes s' (p + 1) w /\ length s' = length s /\
    forall j, rget s' j = if (GETARG_A i <=? j) && (j <=? GETARG_B i) then Some TNil else rget s j.
Proof using Hi.
  intros Ho Hb. rewrite (step_at _ _ _ _ _ Hi Ho). cbn [step_op]. pose proof (getfield_range SIZE_A POS_A i ltac:(fields)) as [? _].
  change (GETFIELD SIZE_A POS_A i) with (GETARG_A i) in *.
  destruct (loadnil_spec (Z.to_nat (GETARG_B i - GETARG_A i)) s (GETARG_B i)) as (s' & -> & Hl & Hg); [lia..|].
  exists s'. split; [done|]. split; [done|]. intros j. rewrite Hg. by replace (GETARG_B i - Z.of_nat (Z.to_nat (GETARG_B i - GETARG_A i))) with (GETARG_A i) by lia.
Qed.
Lemma step_jmp : GET_OPCODE i = of_opcode OP_JMP -> vm_step cl (at_ s p w) = goes s (p + 1 + GETARG_sBx i) w.
Proof using Hi. intros Ho. by rewrite (step_at _ _ _ _ _ Hi Ho). Qed.
Lemma step_test v : GET_OPCODE i = of_opcode OP_TEST -> rget s (GETARG_A i) = Some v ->
  vm_step cl (at_ s p w) = jump_if cl (negb (Z.b2z (l_isfalse v) =? GETARG_C i)) s w (p + 1).
Proof using Hi. intros Ho Hv. rewrite (step_at _ _ _ _ _ Hi Ho). cbn [step_op]. by rewrite Hv. Qed.
Lemma step_testset v : GET_OPCODE i = of_opcode OP_TESTSET -> rget s (GETARG_B i) = Some v ->
  vm_step cl (at_ s p w) =
    if Z.b2z (l_isfalse v) =? GETARG_C i then jump_if cl false s w (p + 1)
    else let* s := llift (rset s (GETARG_A i) v) in jump_if cl true s w (p + 1).
Proof using Hi. intros Ho Hv. rewrite (step_at _ _ _ _ _ Hi Ho). cbn [step_op]. by rewrite Hv. Qed.
Lemma jump_taken : jump_if cl true s w p = goes s (p + GETARG_sBx i + 1) w.
Proof using Hi. unfold jump_if. by rewrite Hi. Qed.
Lemma jump_skipped : jump_if cl false s w p = goes s (p + 1) w.
Proof using. done. Qed.
End Steps.

(** ** Runs *)
Definition steps_to (f f' : frame W) : Prop := vm_step cl f = lret (Continue f').
Definition reaches : frame W -> frame W -> Prop := rtc steps_to.
Definition fails (f : frame W) (msg : string) : Prop := exists f', reaches f f' /\ vm_step cl f' = lerror msg.

Lemma reaches_refl f : reaches f f.
Proof. apply rtc_refl. Qed.
Lemma reaches_trans f g f' : reaches f g -> reaches g f' -> reaches f f'.
Proof. intros Hf Hg. unfold reaches in *. by etrans. Qed.
Lemma reaches_step f g s p w : reaches f g -> vm_step cl g = goes s p w -> reaches f (at_ s p w).
Proof. intros Hf Hg. by eapply rtc_r. Qed.
Lemma reaches_fails f g msg : reaches f g -> fails g msg -> fails f msg.
Proof. intros Hf (f' & Hg & E). exists f'. split; [by eapply reaches_trans|done]. Qed.
Lemma step_fails f g msg : reaches f g -> vm_step cl g = lerror msg -> fails f msg.
Proof. intros Hf Hg. by exists g. Qed.
End Frames.

(** The message of a comparison tells types apart by their third letters. *)
Lemma string_thread_message {A} a b : luaG_ordererror (A := A) (TGC GString a) (TGC GThread b) = lerror "attempt to compare two string values".
Proof. reflexivity. Qed.

(** ** The size of a frame *)
(** [lpost m P]: the values [m] returns have [P]. *)
Definition lpost {A} (m : LuaM A) (P : A -> Prop) : Prop := match m with Some (Return a) => P a | _ => True end.
Lemma lpost_bind {A B} (m : LuaM A) (k : A -> LuaM B) (Q : A -> Prop) P : lpost m Q -> (forall a, Q a -> lpost (k a) P) -> lpost (lbind m k) P.
Proof. destruct m as [[a|msg]|]; cbn; auto. Qed.
Lemma lpost_any {A B} (m : LuaM A) (k : A -> LuaM B) P : (forall a, lpost (k a) P) -> lpost (lbind m k) P.
Proof. destruct m as [[a|msg]|]; cbn; auto. Qed.
Lemma lpost_rset {B} n s i v (k : registers -> LuaM B) P : length s = n -> (forall s', length s' = n -> lpost (k s') P) -> lpost (lbind (llift (rset s i v)) k) P.
Proof. intros <- Hk. destruct (rset s i v) as [s'|] eqn:E; cbn; [|done]. apply Hk. by eapply rset_length. Qed.

Section Size.
Context {W : Type} `{CallsKeepFrame W}.
Implicit Types (w : W) (s : registers).

(** [n] registers in a result, and in a turn that goes on. *)
Definition sized {A} (n : nat) (r : A * registers * W) : Prop := length r.1.2 = n.
Definition sized2 (n : nat) (r : registers * W) : Prop := length r.1 = n.
Definition sized_turn (n : nat) (t : turn W) : Prop := match t with Continue f => length (regs f) = n | Leave _ => True end.

Create HintDb sizes.
Ltac size_step := match goal with
  | |- lpost (lbind (llift (rset _ _ _)) _) _ => eapply lpost_rset; [done|intros ? ?]
  | |- lpost (lbind ?m _) _ => eapply lpost_bind; [solve [eauto with sizes]|let H := fresh in intros [[? ?] ?] H; unfold sized in H; cbn in H]
  | |- lpost (lbind ?m _) _ => eapply lpost_bind; [solve [eauto with sizes]|let H := fresh in intros [? ?] H; unfold sized2 in H; cbn in H]
  | |- lpost (lbind ?m _) _ => eapply lpost_bind; [solve [eauto with sizes]|let H := fresh in intros ? H; cbn in H]
  | |- lpost (lbind _ _) _ => apply lpost_any; intros ?
  | |- lpost (lret _) _ => unfold sized, sized2, sized_turn; cbn; first [congruence | exact I]
  | |- lpost (lerror _) _ => exact I
  | |- lpost None _ => exact I
  | |- lpost (if ?b then _ else _) _ => destruct b
  | |- lpost (match ?x with _ => _ end) _ => destruct x
  | |- lpost _ _ => solve [eauto with sizes]
  end.
Ltac sizes := repeat (cbv beta zeta; size_step).

Lemma luaD_call_size n w s f args k : length s = n -> lpost (luaD_call w s f args k) (sized n).
Proof using All. intros Hs. rewrite luaD_call_frame. sizes. Qed.
#[local] Hint Resolve luaD_call_size : sizes.
Lemma callTMres_size n w s f x y : length s = n -> lpost (callTMres w s f x y) (sized n).
Proof using All. intros Hs. unfold callTMres. sizes. Qed.
Lemma callTM_size n w s f x y z : length s = n -> lpost (callTM w s f x y z) (sized2 n).
Proof using All. intros Hs. unfold callTM. sizes. Qed.
#[local] Hint Resolve callTMres_size callTM_size : sizes.
Lemma gettable_size n turns w s t key : length s = n -> lpost (gettable_loop turns w s t key) (sized n).
Proof using All. revert w s t. induction turns as [|turns IH]; intros w s t Hs; cbn [gettable_loop]; sizes. Qed.
Lemma settable_size n turns w s t key v : length s = n -> lpost (settable_loop turns w s t key v) (sized2 n).
Proof using All. revert w s t. induction turns as [|turns IH]; intros w s t Hs; cbn [settable_loop]; sizes. Qed.
Lemma call_binTM_size n w s x y e : length s = n -> lpost (call_binTM w s x y e) (sized n).
Proof using All. intros Hs. unfold call_binTM. sizes. Qed.
Lemma call_orderTM_size n w s x y e : length s = n -> lpost (call_orderTM w s x y e) (sized n).
Proof using All. intros Hs. unfold call_orderTM. sizes. Qed.
#[local] Hint Resolve gettable_size settable_size call_binTM_size call_orderTM_size : sizes.
Lemma lessthan_size n w s x y : length s = n -> lpost (luaV_lessthan w s x y) (sized n).
Proof using All. intros Hs. unfold luaV_lessthan, luaG_ordererror. sizes. Qed.
Lemma lessequal_size n w s x y : length s = n -> lpost (lessequal w s x y) (sized n).
Proof using All. intros Hs. unfold lessequal, luaG_ordererror. sizes. Qed.
Lemma equalval_size n w s x y : length s = n -> lpost (luaV_equalval w s x y) (sized n).
Proof using All. intros Hs. unfold luaV_equalval. sizes. Qed.
#[local] Hint Resolve equalval_size : sizes.
Lemma equalobj_size n w s x y : length s = n -> lpost (equalobj w s x y) (sized n).
Proof using All. intros Hs. unfold equalobj. sizes. Qed.
Lemma arith_size n w s x y op : length s = n -> lpost (arith_op w s x y op) (sized n).
Proof using All. intros Hs. unfold arith_op, Arith, luaG_aritherror. sizes. Qed.
Lemma len_size n w s x : length s = n -> lpost (luaV_len w s x) (sized n).
Proof using All. intros Hs. unfold luaV_len. sizes. Qed.
Lemma tostring_size n w s i : length s = n -> lpost (llift (tostring_reg w s i)) (sized n).
Proof using All.
  intros Hs. unfold tostring_reg. destruct (rget s i) as [o|]; cbn; [|done]. destruct (tostring w o) as [[o' w']|]; cbn; [|done].
  destruct (rset s i o') as [s'|] eqn:E; [|done]. cbn. unfold sized. cbn. rewrite <- Hs. by eapply rset_length.
Qed.
#[local] Hint Resolve lessthan_size lessequal_size equalobj_size arith_size len_size tostring_size : sizes.
Lemma collect_size n rest w s i k b : length s = n -> lpost (collect rest w s i k b) (sized (A := Z * bytes) n).
Proof using All.
  revert w s i k b. induction rest as [|rest IH]; intros w s i k b Hs; cbn [collect]; [done|]. sizes.
Qed.
#[local] Hint Resolve collect_size : sizes.
Lemma concat_turn_size n w s total last : length s = n -> lpost (concat_turn w s total last) (sized n).
Proof using All.
  intros Hs. unfold concat_turn, luaG_concaterror. do 2 size_step. eapply lpost_bind with (Q := sized n).
  { sizes. }
  intros [[ok s'] w'] Hs'. unfold sized in Hs'. cbn in Hs'. sizes.
Qed.
#[local] Hint Resolve concat_turn_size : sizes.
Lemma concat_size n turns w s total last : length s = n -> lpost (concat_loop turns w s total last) (sized2 n).
Proof using All. revert w s total last. induction turns as [|turns IH]; intros w s total last Hs; cbn [concat_loop]; sizes. Qed.
#[local] Hint Resolve concat_size : sizes.

Variable cl : lclosure.
Lemma to_ra_size n i pc m : lpost m (sized n) -> lpost (to_ra i pc m) (sized_turn n).
Proof using All. intros Hm. unfold to_ra. eapply lpost_bind; [exact Hm|]. intros [[v s] w] Hs. unfold sized in Hs. cbn in Hs. sizes. Qed.
Lemma jump_size n b s w pc : length s = n -> lpost (jump_if cl b s w pc) (sized_turn n).
Proof using All. intros Hs. unfold jump_if. sizes. Qed.
#[local] Hint Resolve jump_size : sizes.
Lemma compare_size n i pc m : lpost m (sized n) -> lpost (compare cl i pc m) (sized_turn n).
Proof using All. intros Hm. unfold compare. eapply lpost_bind; [exact Hm|]. intros [[v s] w] Hs. unfold sized in Hs. cbn in Hs. sizes. Qed.
Lemma loadnil_size n k s b : length s = n -> lpost (llift (loadnil k s b)) (fun s' => length s' = n).
Proof using All.
  revert s b. induction k as [|k IH]; intros s b Hs; cbn [loadnil]; (destruct (rset s b TNil) as [s'|] eqn:E; cbn; [apply rset_length in E|done]);
    [lia|]. apply IH. lia.
Qed.
Lemma rsets_size n vs s i : length s = n -> lpost (llift (rsets s i vs)) (fun s' => length s' = n).
Proof using All.
  revert s i. induction vs as [|v vs IH]; intros s i Hs; cbn [rsets]; [done|]. destruct (rset s i v) as [s'|] eqn:E; cbn; [|done].
  apply rset_length in E. apply IH. lia.
Qed.
Lemma for_number_size n what w s i : length s = n -> lpost (for_number what w s i) (fun r => length r.2 = n).
Proof using All. intros Hs. unfold for_number. sizes. Qed.
#[local] Hint Resolve loadnil_size rsets_size for_number_size : sizes.

Lemma step_op_size n op i s w pc : length s = n -> lpost (step_op cl op i s w pc) (sized_turn n).
Proof using All.
  intros Hs. destruct op; cbn [step_op]; unfold step_forloop, step_forprep, step_tforloop, step_setlist;
    try apply to_ra_size; try apply compare_size; try solve [sizes].
  size_step. size_step. apply to_ra_size. sizes.
Qed.
Lemma vm_step_size f f' : vm_step cl f = lret (Continue f') -> length (regs f') = length (regs f).
Proof using All.
  intros E. enough (lpost (vm_step cl f) (sized_turn (length (regs f)))) as Hs by (by rewrite E in Hs).
  unfold vm_step. apply lpost_any. intros i. destruct (to_opcode _); [by apply step_op_size|done].
Qed.
End Size.
