(* ===== verification/LDo.v ===== *)
(** * Calls, coroutines and errors (src/lua/ldo.c)

    The state of a thread is its stack, with positions as offsets from the start, so
    that moving the stack ([correctstack]) changes nothing but its size; and its call
    infos: [ci] is the current one, [callers] are those below it, the latest first. A
    longjmp keeps what the code has done to the state so far, so an outcome is paired
    with the state. The functions that are called, the interpreter loop, the heap and
    the message of a position are an interface, [Host]. Steps of the collector are left
    out. An access outside of the stack is [None]. *)
From stdpp Require Import base list option.
From Stdlib Require Import ZArith Lia ZifyBool.
From S2P Require Import Prelude LObject LProto LVm.
#[local] Open Scope Z_scope.

Definition EXTRA_STACK : Z := 5.
Definition LUA_MINSTACK : Z := 20.
Definition BASIC_STACK_SIZE : Z := 2 * LUA_MINSTACK.
Definition BASIC_CI_SIZE : Z := 8.
Definition LUAI_MAXCALLS : Z := 20000.
Definition LUAI_MAXCCALLS : Z := 200.
Definition LUA_MULTRET : Z := -1.
Definition LUA_YIELD : Z := 1.
Definition LUA_ERRRUN : Z := 2.
Definition LUA_ERRSYNTAX : Z := 3.
Definition LUA_ERRMEM : Z := 4.
Definition LUA_ERRERR : Z := 5.
Definition LUA_HOOKCALL : Z := 0.
Definition LUA_HOOKRET : Z := 1.
Definition LUA_HOOKTAILRET : Z := 4.
Definition LUA_MASKCALL : Z := Z.shiftl 1 LUA_HOOKCALL.
Definition LUA_MASKRET : Z := Z.shiftl 1 LUA_HOOKRET.

Record CallInfo := Ci {
  ci_base : Z; ci_func : Z; ci_top : Z;
  ci_savedpc : Z;
  nresults : Z;
  tailcalls : Z;   (* of Lua functions only *)
}.
Record lua_State := Thread {
  stack : list tvalue;
  top : Z;
  base : Z;
  ci : CallInfo;
  callers : list CallInfo;
  savedpc : Z;
  size_ci : Z;
  nCcalls : Z;
  baseCcalls : Z;
  status : Z;
  allowhook : bool;
  hook : bool;
  hookmask : Z;
  errfunc : Z;
}.

Definition with_stack (s0 : list tvalue) (L : lua_State) : lua_State :=
  Thread s0 (top L) (base L) (ci L) (callers L) (savedpc L) (size_ci L) (nCcalls L) (baseCcalls L) (status L) (allowhook L) (hook L) (hookmask L) (errfunc L).
Definition with_top (t0 : Z) (L : lua_State) : lua_State :=
  Thread (stack L) t0 (base L) (ci L) (callers L) (savedpc L) (size_ci L) (nCcalls L) (baseCcalls L) (status L) (allowhook L) (hook L) (hookmask L) (errfunc L).
Definition with_base (b0 : Z) (L : lua_State) : lua_State :=
  Thread (stack L) (top L) b0 (ci L) (callers L) (savedpc L) (size_ci L) (nCcalls L) (baseCcalls L) (status L) (allowhook L) (hook L) (hookmask L) (errfunc L).
Definition with_calls (c0 : CallInfo) (c1 : list CallInfo) (L : lua_State) : lua_State :=
  Thread (stack L) (top L) (base L) c0 c1 (savedpc L) (size_ci L) (nCcalls L) (baseCcalls L) (status L) (allowhook L) (hook L) (hookmask L) (errfunc L).
Definition with_savedpc (s0 : Z) (L : lua_State) : lua_State :=
  Thread (stack L) (top L) (base L) (ci L) (callers L) s0 (size_ci L) (nCcalls L) (baseCcalls L) (status L) (allowhook L) (hook L) (hookmask L) (errfunc L).
Definition with_size_ci (s0 : Z) (L : lua_State) : lua_State :=
  Thread (stack L) (top L) (base L) (ci L) (callers L) (savedpc L) s0 (nCcalls L) (baseCcalls L) (status L) (allowhook L) (hook L) (hookmask L) (errfunc L).
Definition with_nCcalls (n0 : Z) (L : lua_State) : lua_State :=
  Thread (stack L) (top L) (base L) (ci L) (callers L) (savedpc L) (size_ci L) n0 (baseCcalls L) (status L) (allowhook L) (hook L) (hookmask L) (errfunc L).
Definition with_baseCcalls (b0 : Z) (L : lua_State) : lua_State :=
  Thread (stack L) (top L) (base L) (ci L) (callers L) (savedpc L) (size_ci L) (nCcalls L) b0 (status L) (allowhook L) (hook L) (hookmask L) (errfunc L).
Definition with_status (s0 : Z) (L : lua_State) : lua_State :=
  Thread (stack L) (top L) (base L) (ci L) (callers L) (savedpc L) (size_ci L) (nCcalls L) (baseCcalls L) s0 (allowhook L) (hook L) (hookmask L) (errfunc L).
Definition with_allowhook (a0 : bool) (L : lua_State) : lua_State :=
  Thread (stack L) (top L) (base L) (ci L) (callers L) (savedpc L) (size_ci L) (nCcalls L) (baseCcalls L) (status L) a0 (hook L) (hookmask L) (errfunc L).
Definition with_errfunc (e0 : Z) (L : lua_State) : lua_State :=
  Thread (stack L) (top L) (base L) (ci L) (callers L) (savedpc L) (size_ci L) (nCcalls L) (baseCcalls L) (status L) (allowhook L) (hook L) (hookmask L) e0.
Definition stacksize (L : lua_State) : Z := Z.of_nat (length (stack L)).
Definition stack_last (L : lua_State) : Z := stacksize L - EXTRA_STACK - 1.
Definition set_ci_top (t : Z) (c : CallInfo) : CallInfo := Ci (ci_base c) (ci_func c) t (ci_savedpc c) (nresults c) (tailcalls c).
Definition set_ci_base (b : Z) (c : CallInfo) : CallInfo := Ci b (ci_func c) (ci_top c) (ci_savedpc c) (nresults c) (tailcalls c).
Definition set_ci_pc (p : Z) (c : CallInfo) : CallInfo := Ci (ci_base c) (ci_func c) (ci_top c) p (nresults c) (tailcalls c).
Definition set_tailcalls (n : Z) (c : CallInfo) : CallInfo := Ci (ci_base c) (ci_func c) (ci_top c) (ci_savedpc c) (nresults c) n.

(** What a call leaves: a result, or an error code for the recover point. *)
Inductive outcome (A : Type) := Ok (a : A) | Threw (errcode : Z).
Arguments Ok {A}. Arguments Threw {A}.

(** ** The monad *)
Section Monad.
Context {W : Type}.
Definition M (A : Type) : Type := lua_State -> W -> option (outcome A * lua_State * W).
Definition mret {A} (a : A) : M A := fun L w => Some (Ok a, L, w).
Definition mbind {A B} (m : M A) (f : A -> M B) : M B := fun L w =>
  r ← m L w; match r with (Ok a, L, w) => f a L w | (Threw e, L, w) => Some (Threw e, L, w) end.
Definition luaD_throw {A} (errcode : Z) : M A := fun L w => Some (Threw errcode, L, w).
Definition undefined {A} : M A := fun _ _ => None.
Definition state : M lua_State := fun L w => Some (Ok L, L, w).
Definition the_world : M W := fun L w => Some (Ok w, L, w).
Definition upd (u : lua_State -> lua_State) : M unit := fun L w => Some (Ok tt, u L, w).
Definition upd_world (u : W -> option W) : M unit := fun L w => w ← u w; Some (Ok tt, L, w).
End Monad.
Arguments M : clear implicits.

Notation "'let^' p ':=' m 'in' k" := (mbind m (fun p => k))
  (at level 200, p pattern, m at level 100, k at level 200) : craftos_scope.
Notation "'do^' m 'in' k" := (mbind m (fun _ => k)) (at level 200, m at level 100, k at level 200) : craftos_scope.

(** What calls need of the rest. [closure_of] is a C function ([Some None]) or the
    prototype of a Lua function; [c_function] runs the C function at an address, and
    says how many results it has put on the stack, or -1 for a yield. *)
Class Host (W : Type) `{LuaState W} := {
  closure_of : W -> Z -> option (option Proto);
  c_function : Z -> M W Z;
  luaV_execute : Z -> M W unit;
  hook_function : Z -> Z -> M W unit;
  luaF_close : Z -> lua_State -> W -> option W;
  position_info : lua_State -> W -> string;      (* [addinfo]: the file and line of a Lua function *)
  junk : tvalue;                                 (* what realloc leaves in new slots *)
}.

Section Ldo.
Context {W : Type} `{Host W}.
Notation M := (M W).

(** ** The stack *)
Definition at_slot (i : Z) (s : list tvalue) : option tvalue := if i <? 0 then None else s !! Z.to_nat i.
Definition write_slot (i : Z) (v : tvalue) (s : list tvalue) : option (list tvalue) :=
  if (0 <=? i) && (i <? Z.of_nat (length s)) then Some (<[Z.to_nat i := v]> s) else None.
Definition slot (i : Z) : M tvalue := fun L w => v ← at_slot i (stack L); Some (Ok v, L, w).
Definition setobj (i : Z) (v : tvalue) : M unit := fun L w => s ← write_slot i v (stack L); Some (Ok tt, with_stack s L, w).
(** [setobj(L->top++, v)] *)
Definition push (v : tvalue) : M unit := let^ L := state in do^ setobj (top L) v in upd (with_top (top L + 1)).

Definition luaD_reallocstack (newsize : Z) : M unit :=
  upd (fun L => with_stack (resize (Z.to_nat (newsize + 1 + EXTRA_STACK)) junk (stack L)) L).
Definition luaD_reallocCI (newsize : Z) : M unit := upd (with_size_ci newsize).
Definition luaD_growstack (n : Z) : M unit :=
  let^ L := state in
  if n <=? stacksize L then luaD_reallocstack (2 * stacksize L) else luaD_reallocstack (stacksize L + n).
Definition luaD_checkstack (n : Z) : M unit :=
  let^ L := state in if stack_last L - top L <=? n then luaD_growstack n else mret tt.
Definition incr_top : M unit := do^ luaD_checkstack 1 in upd (fun L => with_top (top L + 1) L).

(** A string on the top. *)
Definition push_string (s : string) : M unit :=
  let^ L := state in
  let^ w := the_world in
  let (p, w') := luaS_newlstr w (bytes_of_string s) in
  do^ upd_world (fun _ => Some w') in
  do^ setobj (top L) (TGC GString p) in
  incr_top.

Definition upd_ci (u : CallInfo -> CallInfo) : M unit := upd (fun L => with_calls (u (ci L)) (callers L) L).

(** ** Hooks *)
Definition luaD_callhook (event line : Z) : M unit :=
  let^ L := state in
  if hook L && allowhook L then
    do^ luaD_checkstack LUA_MINSTACK in
    do^ upd_ci (set_ci_top (top L + LUA_MINSTACK)) in
    do^ upd (with_allowhook false) in
    do^ hook_function event line in
    do^ upd (with_allowhook true) in
    do^ upd_ci (set_ci_top (ci_top (ci L))) in
    upd (with_top (top L))
  else mret tt.

(** ** Errors *)
Definition luaD_seterrorobj (errcode oldtop : Z) : M unit :=
  let^ L := state in
  do^ (if errcode =? LUA_ERRMEM then
         let^ w := the_world in
         let (p, w') := luaS_newlstr w (bytes_of_string "not enough memory") in
         do^ upd_world (fun _ => Some w') in setobj oldtop (TGC GString p)
       else if errcode =? LUA_ERRERR then
         let^ w := the_world in
         let (p, w') := luaS_newlstr w (bytes_of_string "error in error handling") in
         do^ upd_world (fun _ => Some w') in setobj oldtop (TGC GString p)
       else if (errcode =? LUA_ERRSYNTAX) || (errcode =? LUA_ERRRUN) then
         let^ v := slot (top L - 1) in setobj oldtop v
       else mret tt) in
  upd (with_top (oldtop + 1)).

Definition restore_stack_limit : M unit :=
  let^ L := state in
  if LUAI_MAXCALLS <? size_ci L then
    if Z.of_nat (length (callers L)) + 1 <? LUAI_MAXCALLS then luaD_reallocCI LUAI_MAXCALLS else mret tt
  else mret tt.

(** The error code, 0 without an error. *)
Definition luaD_rawrunprotected (f : M unit) : M Z := fun L w =>
  r ← f L w; match r with (Ok _, L, w) => Some (Ok 0, L, w) | (Threw e, L, w) => Some (Ok e, L, w) end.

Definition is_function (v : tvalue) : bool := ttisfunction v.
Definition f_isLua (w : W) (v : tvalue) : option bool :=
  match v with TGC GFunction p => c ← closure_of w p; Some (match c with Some _ => true | None => false end) | _ => None end.

Section Call.
(** [luaD_call], for the error handlers. *)
Variable call : Z -> Z -> M unit.

Definition luaG_errormsg {A} : M A :=
  let^ L := state in
  if negb (errfunc L =? 0) then
    let^ handler := slot (errfunc L) in
    if negb (ttisfunction handler) then luaD_throw LUA_ERRERR
    else
      let^ msg := slot (top L - 1) in
      do^ setobj (top L) msg in
      do^ setobj (top L - 1) handler in
      do^ incr_top in
      let^ L := state in
      do^ call (top L - 2) 1 in
      luaD_throw LUA_ERRRUN
  else luaD_throw LUA_ERRRUN.

Definition luaG_runerror {A} (msg : string) : M A :=
  do^ push_string msg in
  let^ L := state in
  let^ w := the_world in
  let^ func := slot (ci_func (ci L)) in
  do^ (if ttisfunction func then
         let^ lua := fun L w => b ← f_isLua w func; Some (Ok b, L, w) in
         if (lua : bool) then push_string (position_info L w +:+ msg) else mret tt
       else mret tt) in
  luaG_errormsg.

Definition growCI : M unit :=
  let^ L := state in
  if LUAI_MAXCALLS <? size_ci L then luaD_throw LUA_ERRERR
  else
    do^ luaD_reallocCI (2 * size_ci L) in
    if LUAI_MAXCALLS <? 2 * size_ci L then luaG_runerror "stack overflow" else mret tt.
(** [inc_ci], which enters [c]. *)
Definition inc_ci (c : CallInfo) : M unit :=
  let^ L := state in
  do^ (if Z.of_nat (length (callers L)) =? size_ci L - 1 then growCI else mret tt) in
  upd (fun L => with_calls c (ci L :: callers L) L).

(** ** Calls *)
Fixpoint push_nils (n : nat) : M unit := match n with O => mret tt | S n => do^ push TNil in push_nils n end.

(** The extra arguments as a table: [nvar] values below the top. *)
Fixpoint fill_arg (n : nat) (i nvar htab : Z) : M unit :=
  match n with
  | O => mret tt
  | S n =>
      let^ L := state in
      let^ v := slot (top L - nvar + i) in
      do^ upd_world (fun w => match luaH_set w htab (TNumber (cast_num (i + 1))) with
                              | Some (Return (_, w)) => Some (set_slot w htab (TNumber (cast_num (i + 1))) v) | _ => None end) in
      fill_arg n (i + 1) nvar htab
  end.
Definition arg_table (nvar : Z) (p : Proto) : M tvalue :=
  do^ luaD_checkstack (maxstacksize p) in
  let^ w := the_world in
  let (htab, w') := luaH_new w nvar 1 in
  do^ upd_world (fun _ => Some w') in
  do^ fill_arg (Z.to_nat nvar) 0 nvar htab in
  let^ w := the_world in
  let (n, w') := luaS_newlstr w (bytes_of_string "n") in
  do^ upd_world (fun _ => match luaH_set w' htab (TGC GString n) with
                          | Some (Return (_, w)) => Some (set_slot w htab (TGC GString n) (TNumber (cast_num nvar))) | _ => None end) in
  mret (TGC GTable htab).

(** The [n] fixed parameters from [fixed] on move to the top. *)
Fixpoint move_fixed (n : nat) (fixed : Z) : M unit :=
  match n with
  | O => mret tt
  | S n => let^ v := slot fixed in do^ push v in do^ setobj fixed TNil in move_fixed n (fixed + 1)
  end.

Definition adjust_varargs (p : Proto) (actual : Z) : M Z :=
  let nfixargs := numparams p in
  do^ push_nils (Z.to_nat (nfixargs - actual)) in
  let actual := Z.max actual nfixargs in
  let^ htab := if negb (Z.land (is_vararg p) VARARG_NEEDSARG =? 0) then let^ t := arg_table (actual - nfixargs) p in mret (Some t) else mret None in
  let^ L := state in
  do^ move_fixed (Z.to_nat nfixargs) (top L - actual) in
  do^ match htab with Some t => push t | None => mret tt end in
  mret (top L).

(** [for (p = L->top; p > func; p--) setobjs2s(L, p, p-1)], for [n] values. *)
Fixpoint open_hole (n : nat) (p : Z) : M unit :=
  match n with
  | O => mret tt
  | S n => let^ v := slot (p - 1) in do^ setobj p v in open_hole n (p - 1)
  end.
Definition tryfuncTM (func : Z) : M unit :=
  let^ v := slot func in
  let^ w := the_world in
  let tm := luaT_gettmbyobj w v TM_CALL in
  if negb (ttisfunction tm) then luaG_runerror (luaG_typeerror w v "call")
  else
    let^ L := state in
    do^ open_hole (Z.to_nat (top L - func)) (top L) in
    do^ incr_top in
    setobj func tm.

Inductive PCR := PCRLUA | PCRC | PCRYIELD.

(** [setnilvalue] from [i] on. *)
Fixpoint nil_slots (n : nat) (i : Z) : M unit := match n with O => mret tt | S n => do^ setobj i TNil in nil_slots n (i + 1) end.

(** The results move to [res]; [k] values are left of them. *)
Fixpoint move_results (k : nat) (i res firstResult : Z) : M (Z * Z) :=
  match k with
  | O => mret (i, res)
  | S k =>
      if i =? 0 then mret (i, res)
      else let^ v := slot firstResult in do^ setobj res v in move_results k (i - 1) (res + 1) (firstResult + 1)
  end.

(** The hooks of the tail calls; [n] is what is left of [tailcalls]. *)
Fixpoint tail_hooks (n : nat) : M unit :=
  let^ L := state in
  if negb (Z.land (hookmask L) LUA_MASKRET =? 0) then
    let c := ci L in
    do^ upd_ci (set_tailcalls (tailcalls c - 1)) in
    match n with O => mret tt | S n => do^ luaD_callhook LUA_HOOKTAILRET (-1) in tail_hooks n end
  else mret tt.
Definition callrethooks : M unit :=
  do^ luaD_callhook LUA_HOOKRET (-1) in
  let^ L := state in
  let^ func := slot (ci_func (ci L)) in
  let^ lua := fun L w => b ← f_isLua w func; Some (Ok b, L, w) in
  if (lua : bool) then tail_hooks (Z.to_nat (tailcalls (ci L))) else mret tt.

Definition luaD_poscall (firstResult : Z) : M Z :=
  let^ L := state in
  do^ (if negb (Z.land (hookmask L) LUA_MASKRET =? 0) then callrethooks else mret tt) in
  let^ L := state in
  match callers L with
  | [] => undefined
  | caller :: rest =>
      let wanted := nresults (ci L) in
      do^ upd (with_calls caller rest) in
      do^ upd (with_base (ci_base caller)) in
      do^ upd (with_savedpc (ci_savedpc caller)) in
      let^ (i, res) := move_results (Z.to_nat (top L - firstResult)) wanted (ci_func (ci L)) firstResult in
      do^ nil_slots (Z.to_nat i) res in
      do^ upd (with_top (res + Z.max i 0)) in
      mret (wanted - LUA_MULTRET)
  end.

(** The frame of a Lua function whose arguments are behind [func]. *)
Definition enter_lua (p : Proto) (func nres : Z) : M unit :=
  do^ luaD_checkstack (maxstacksize p) in
  let^ L := state in
  let^ base :=
    if is_vararg p =? 0 then
      do^ (if func + 1 + numparams p <? top L then upd (with_top (func + 1 + numparams p)) else mret tt) in mret (func + 1)
    else adjust_varargs p (top L - func - 1) in
  do^ inc_ci (Ci base func (base + maxstacksize p) 0 nres 0) in
  do^ upd (with_base base) in
  do^ upd (with_savedpc 0) in
  let^ L := state in
  do^ nil_slots (Z.to_nat (ci_top (ci L) - top L)) (top L) in
  do^ upd (with_top (ci_top (ci L))) in
  let^ L := state in
  if negb (Z.land (hookmask L) LUA_MASKCALL =? 0) then
    do^ upd (fun L => with_savedpc (savedpc L + 1) L) in
    do^ luaD_callhook LUA_HOOKCALL (-1) in
    upd (fun L => with_savedpc (savedpc L - 1) L)
  else mret tt.

Definition call_c (func nres : Z) : M PCR :=
  do^ luaD_checkstack LUA_MINSTACK in
  let^ L := state in
  do^ inc_ci (Ci (func + 1) func (top L + LUA_MINSTACK) 0 nres 0) in
  do^ upd (with_base (func + 1)) in
  let^ L := state in
  do^ (if negb (Z.land (hookmask L) LUA_MASKCALL =? 0) then luaD_callhook LUA_HOOKCALL (-1) else mret tt) in
  let^ L := state in
  let^ f := slot (ci_func (ci L)) in
  match f with
  | TGC GFunction a =>
      let^ n := c_function a in
      if n <? 0 then mret PCRYIELD
      else let^ L := state in let^ _ := luaD_poscall (top L - n) in mret PCRC
  | _ => undefined
  end.

Definition luaD_precall (func nres : Z) : M PCR :=
  let^ f := slot func in
  do^ (if ttisfunction f then mret tt else tryfuncTM func) in
  let^ f := slot func in
  do^ upd (fun L => with_calls (set_ci_pc (savedpc L) (ci L)) (callers L) L) in
  match f with
  | TGC GFunction a =>
      let^ c := fun L w => c ← closure_of w a; Some (Ok c, L, w) in
      match c with
      | Some p => do^ enter_lua p func nres in mret PCRLUA
      | None => call_c func nres
      end
  | _ => undefined
  end.

Definition luaD_call_level (func nres : Z) : M unit :=
  do^ upd (fun L => with_nCcalls (nCcalls L + 1) L) in
  let^ L := state in
  do^ (if LUAI_MAXCCALLS <=? nCcalls L then
         if nCcalls L =? LUAI_MAXCCALLS then luaG_runerror "C stack overflow"
         else if LUAI_MAXCCALLS + Z.shiftr LUAI_MAXCCALLS 3 <=? nCcalls L then luaD_throw LUA_ERRERR else mret tt
       else mret tt) in
  let^ r := luaD_precall func nres in
  do^ match r with PCRLUA => luaV_execute 1 | _ => mret tt end in
  upd (fun L => with_nCcalls (nCcalls L - 1) L).
End Call.

(** [luaD_call], with [n] levels of error handlers that run inside of each other: each
    counts as a C call, and the count is limited. *)
Fixpoint call_levels (n : nat) (func nres : Z) : M unit :=
  match n with O => undefined | S n => luaD_call_level (call_levels n) func nres end.
Definition LEVELS : nat := S (Z.to_nat (LUAI_MAXCCALLS + Z.shiftr LUAI_MAXCCALLS 3)).
Definition luaD_call : Z -> Z -> M unit := call_levels LEVELS.

(** ** Coroutines *)
Definition resume (firstArg : Z) : M unit :=
  let^ L := state in
  let^ go :=
    if status L =? 0 then
      let^ r := luaD_precall luaD_call (firstArg - 1) LUA_MULTRET in
      mret (match r with PCRLUA => true | _ => false end)
    else
      do^ upd (with_status 0) in
      let^ func := slot (ci_func (ci L)) in
      let^ lua := fun L w => b ← f_isLua w func; Some (Ok b, L, w) in
      do^ (if negb lua then
             let^ b := luaD_poscall firstArg in
             if negb (b =? 0) then upd (fun L => with_top (ci_top (ci L)) L) else mret tt
           else upd (fun L => with_base (ci_base (ci L)) L)) in
      mret true in
  if (go : bool) then let^ L := state in luaV_execute (Z.of_nat (length (callers L))) else mret tt.

Definition resume_error (msg : string) : M Z :=
  do^ upd (fun L => with_top (ci_base (ci L)) L) in
  do^ push_string msg in
  mret LUA_ERRRUN.

Definition lua_resume (nargs : Z) : M Z :=
  let^ L := state in
  if negb (status L =? LUA_YIELD) && (negb (status L =? 0) || negb (bool_decide (callers L = []))) then
    resume_error "cannot resume non-suspended coroutine"
  else if LUAI_MAXCCALLS <=? nCcalls L then resume_error "C stack overflow"
  else
    do^ upd (fun L => with_baseCcalls (nCcalls L + 1) (with_nCcalls (nCcalls L + 1) L)) in
    let^ code := luaD_rawrunprotected (resume (top L - nargs)) in
    let^ L := state in
    let^ result :=
      if negb (code =? 0) then
        do^ upd (with_status code) in
        do^ luaD_seterrorobj code (top L) in
        do^ upd (fun L => with_calls (set_ci_top (top L) (ci L)) (callers L) L) in
        mret code
      else mret (status L) in
    do^ upd (fun L => with_nCcalls (nCcalls L - 1) L) in
    mret result.

Definition lua_yield (nresults : Z) : M Z :=
  let^ L := state in
  if baseCcalls L <? nCcalls L then luaG_runerror luaD_call "attempt to yield across metamethod/C-call boundary"
  else
    do^ upd (with_base (top L - nresults)) in
    do^ upd (with_status LUA_YIELD) in
    mret (-1).

(** ** Protected calls *)
(** The call infos from the one at the depth [n] down. *)
Definition restoreci (n : nat) (L : lua_State) : option lua_State :=
  if (length (callers L) <? n)%nat then None
  else match drop (length (callers L) - n) (ci L :: callers L) with c :: rest => Some (with_calls c rest L) | [] => None end.

Definition luaD_pcall (func : M unit) (old_top ef : Z) : M Z :=
  let^ L0 := state in
  do^ upd (with_errfunc ef) in
  let^ code := luaD_rawrunprotected func in
  do^ (if negb (code =? 0) then
         let^ L := state in
         do^ upd_world (luaF_close old_top L) in
         do^ luaD_seterrorobj code old_top in
         do^ upd (with_nCcalls (nCcalls L0)) in
         do^ (fun L w => L' ← restoreci (length (callers L0)) L; Some (Ok tt, L', w)) in
         do^ upd (fun L => with_base (ci_base (ci L)) L) in
         do^ upd (fun L => with_savedpc (ci_savedpc (ci L)) L) in
         do^ upd (with_allowhook (allowhook L0)) in
         restore_stack_limit
       else mret tt) in
  do^ upd (with_errfunc (errfunc L0)) in
  mret code.

(** ** The operations of the interpreter loop that change frames (lvm.c) *)
(** [OP_RETURN] of [b - 1] values from [ra] on: the result of [luaD_poscall]. *)
Definition op_return (ra b pc : Z) : M Z :=
  let^ L := state in
  do^ (if negb (b =? 0) then upd (with_top (ra + b - 1)) else mret tt) in
  let^ L := state in
  do^ upd_world (luaF_close (base L) L) in
  do^ upd (with_savedpc pc) in
  luaD_poscall ra.

(** [n] values from [src] to [dst]; beyond [have] of them, nil. *)
Fixpoint copy_varargs (n : nat) (have src dst : Z) : M unit :=
  match n with
  | O => mret tt
  | S n =>
      do^ (if 0 <? have then let^ v := slot src in setobj dst v else setobj dst TNil) in
      copy_varargs n (have - 1) (src + 1) (dst + 1)
  end.
Definition op_vararg (ra b pc : Z) (p : Proto) : M unit :=
  let^ L := state in
  let n := ci_base (ci L) - ci_func (ci L) - numparams p - 1 in
  let^ b :=
    if b - 1 =? LUA_MULTRET then do^ upd (with_savedpc pc) in do^ luaD_checkstack n in do^ upd (with_top (ra + n)) in mret n
    else mret (b - 1) in
  copy_varargs (Z.to_nat b) n (ci_base (ci L) - n) ra.

(** [OP_CALL] up to the new frame or the results of a C function. *)
Definition op_call (ra b nres pc : Z) : M PCR :=
  do^ (if negb (b =? 0) then upd (with_top (ra + b)) else mret tt) in
  do^ upd (with_savedpc pc) in
  let^ r := luaD_precall luaD_call ra nres in
  do^ match r with
      | PCRC => if 0 <=? nres then upd (fun L => with_top (ci_top (ci L)) L) else mret tt
      | _ => mret tt
      end in
  mret r.

(** [setobjs2s(L, func+aux, pfunc+aux)] for [n] slots. *)
Fixpoint move_frame (n : nat) (func pfunc : Z) : M unit :=
  match n with
  | O => mret tt
  | S n => let^ v := slot pfunc in do^ setobj func v in move_frame n (func + 1) (pfunc + 1)
  end.
(** [OP_TAILCALL]: the new frame takes the place of the current one. *)
Definition op_tailcall (ra b pc : Z) : M PCR :=
  do^ (if negb (b =? 0) then upd (with_top (ra + b)) else mret tt) in
  do^ upd (with_savedpc pc) in
  let^ r := luaD_precall luaD_call ra LUA_MULTRET in
  match r with
  | PCRLUA =>
      let^ L := state in
      match callers L with
      | [] => undefined
      | old :: rest =>
          let new := ci L in
          do^ upd_world (luaF_close (ci_base old) L) in
          let b := ci_func old + (ci_base new - ci_func new) in
          do^ upd (with_base b) in
          let n := top L - ci_func new in
          do^ move_frame (Z.to_nat n) (ci_func old) (ci_func new) in
          let t := ci_func old + Z.max n 0 in
          do^ upd (with_top t) in
          do^ upd (with_calls (Ci b (ci_func old) t (savedpc L) (nresults old) (tailcalls old + 1)) rest) in
          mret PCRLUA
      end
  | r => mret r
  end.

(** ** A new thread (lstate.c) *)
(** A thread without a stack and without call infos: [ci] is a null pointer that nothing reads. *)
Definition preinit_state : lua_State :=
  {| stack := []; top := 0; base := 0; ci := Ci 0 0 0 0 0 0; callers := []; savedpc := 0; size_ci := 0;
     nCcalls := 0; baseCcalls := 0; status := 0; allowhook := true; hook := false; hookmask := 0; errfunc := 0 |}.
(** The stack with the entry of the first call info. *)
Definition stack_init (L1 : lua_State) : lua_State :=
  let s := replicate (Z.to_nat (BASIC_STACK_SIZE + EXTRA_STACK)) junk in
  with_base 1 (with_top 1 (with_calls (Ci 1 0 (1 + LUA_MINSTACK) 0 0 0) [] (with_size_ci BASIC_CI_SIZE (with_stack (<[0%nat := TNil]> s) L1)))).
Definition with_hook (h : bool) (mask : Z) (L : lua_State) : lua_State :=
  Thread (stack L) (top L) (base L) (ci L) (callers L) (savedpc L) (size_ci L) (nCcalls L) (baseCcalls L) (status L) (allowhook L) h mask (errfunc L).
(** A thread with the hook of the thread that makes it. *)
Definition luaE_newthread (from_hook : bool) (from_mask : Z) : lua_State := with_hook from_hook from_mask (stack_init preinit_state).
End Ldo.

(** ** The loops over the stack

    What the copying loops of ldo.c leave on the stack, for all their lengths. *)
Section Loops.
Context {W : Type} `{Host W}.
Implicit Types (L : lua_State) (w : W) (s : list tvalue).

Lemma at_slot_nat i s : at_slot (Z.of_nat i) s = s !! i.
Proof. unfold at_slot. destruct (Z.ltb_spec (Z.of_nat i) 0); [lia|]. by rewrite Nat2Z.id. Qed.
Lemma slot_nat i L w v : stack L !! i = Some v -> slot (Z.of_nat i) L w = Some (Ok v, L, w).
Proof. intros E. unfold slot. by rewrite at_slot_nat, E. Qed.
Lemma setobj_nat i v L w : (i < length (stack L))%nat -> setobj (Z.of_nat i) v L w = Some (Ok tt, with_stack (<[i := v]> (stack L)) L, w).
Proof.
  intros Hi. unfold setobj, write_slot. assert ((0 <=? Z.of_nat i) && (Z.of_nat i <? Z.of_nat (length (stack L))) = true) as -> by lia. cbn. by rewrite Nat2Z.id.
Qed.
Lemma mbind_eq {A B} (m : M W A) (f : A -> M W B) L w a L' w' : m L w = Some (Ok a, L', w') -> mbind m f L w = f a L' w'.
Proof. intros E. unfold mbind. by rewrite E. Qed.
Lemma with_stack_id L : with_stack (stack L) L = L.
Proof. by destruct L. Qed.

Lemma nil_slots_eq n i L w : (i + n <= length (stack L))%nat ->
  nil_slots n (Z.of_nat i) L w = Some (Ok tt, with_stack (list_inserts i (replicate n TNil) (stack L)) L, w).
Proof.
  revert i L. induction n as [|n IH]; intros i L Hi; cbn [nil_slots replicate list_inserts]; [by rewrite with_stack_id|].
  rewrite (mbind_eq _ _ _ _ _ _ _ (setobj_nat i TNil L w ltac:(lia))). replace (Z.of_nat i + 1) with (Z.of_nat (S i)) by lia.
  rewrite IH by (cbn; rewrite length_insert; lia). cbn. by rewrite list_insert_inserts_lt by lia.
Qed.

(** The results move down, as many as are wanted; all with a negative number. *)
Definition wanted_of (i : Z) (n : nat) : nat := if i <? 0 then n else Nat.min n (Z.to_nat i).
Lemma move_results_eq n i res first L w : (res <= first)%nat -> (first + n <= length (stack L))%nat -> let m := wanted_of i n in
  move_results n i (Z.of_nat res) (Z.of_nat first) L w =
    Some (Ok (i - Z.of_nat m, Z.of_nat (res + m)), with_stack (list_inserts res (take m (drop first (stack L))) (stack L)) L, w).
Proof.
  revert i res first L. induction n as [|n IH]; intros i res first L Hr Hn m; subst m; cbn [move_results].
  - assert (wanted_of i 0 = 0%nat) as -> by (unfold wanted_of; destruct (i <? 0); lia). rewrite firstn_O; cbn [list_inserts]; rewrite with_stack_id, Nat.add_0_r, Z.sub_0_r. done.
  - destruct (Z.eqb_spec i 0) as [->|Hi].
    + assert (wanted_of 0 (S n) = 0%nat) as -> by done. rewrite firstn_O; cbn [list_inserts]; rewrite with_stack_id, Nat.add_0_r. done.
    + destruct (lookup_lt_is_Some_2 (stack L) first ltac:(lia)) as [v Hv]. rewrite (mbind_eq _ _ _ _ _ _ _ (slot_nat first L w v Hv)).
      rewrite (mbind_eq _ _ _ _ _ _ _ (setobj_nat res v L w ltac:(lia))). replace (Z.of_nat res + 1) with (Z.of_nat (S res)) by lia.
      replace (Z.of_nat first + 1) with (Z.of_nat (S first)) by lia. rewrite IH by (cbn; rewrite ?length_insert; lia). cbn [stack with_stack].
      assert (wanted_of i (S n) = S (wanted_of (i - 1) n)) as -> by (unfold wanted_of; destruct (Z.ltb_spec i 0), (Z.ltb_spec (i - 1) 0); lia).
      rewrite drop_insert_lt by lia. rewrite (drop_S (stack L) v first Hv). cbn [take list_inserts].
      rewrite list_insert_inserts_lt by lia. do 2 f_equal. f_equal. f_equal. f_equal; lia.
Qed.

(** Nils on the top, and values moved to the top. *)
Lemma push_nat v L w t : top L = Z.of_nat t -> (t < length (stack L))%nat ->
  push v L w = Some (Ok tt, with_top (Z.of_nat (S t)) (with_stack (<[t := v]> (stack L)) L), w).
Proof.
  intros Et Ht. unfold push. rewrite (mbind_eq state _ L w L L w eq_refl). rewrite Et. rewrite (mbind_eq _ _ _ _ _ _ _ (setobj_nat t v L w Ht)).
  unfold upd. replace (Z.of_nat t + 1) with (Z.of_nat (S t)) by lia. done.
Qed.
Lemma push_nils_eq n L w t : top L = Z.of_nat t -> (t + n <= length (stack L))%nat ->
  push_nils n L w = Some (Ok tt, with_top (Z.of_nat (t + n)) (with_stack (list_inserts t (replicate n TNil) (stack L)) L), w).
Proof.
  revert L t. induction n as [|n IH]; intros L t Et Ht; cbn [push_nils replicate list_inserts]; [rewrite Nat.add_0_r, <- Et; by destruct L|].
  rewrite (mbind_eq _ _ _ _ _ _ _ (push_nat TNil L w t Et ltac:(lia))). rewrite (IH _ (S t)) by (cbn; rewrite ?length_insert; lia).
  cbn [stack with_stack with_top]. rewrite list_insert_inserts_lt by lia. by replace (S t + n)%nat with (t + S n)%nat by lia.
Qed.
Lemma move_fixed_eq n fixed L w t : top L = Z.of_nat t -> (t + n <= length (stack L))%nat -> (fixed + n <= t)%nat ->
  move_fixed n (Z.of_nat fixed) L w = Some (Ok tt, with_top (Z.of_nat (t + n))
    (with_stack (list_inserts fixed (replicate n TNil) (list_inserts t (take n (drop fixed (stack L))) (stack L))) L), w).
Proof.
  revert L t fixed. induction n as [|n IH]; intros L t fixed Et Ht Hf; cbn [move_fixed replicate list_inserts take]; [rewrite Nat.add_0_r, <- Et; by destruct L|].
  destruct (lookup_lt_is_Some_2 (stack L) fixed ltac:(lia)) as [v Hv]. rewrite (mbind_eq _ _ _ _ _ _ _ (slot_nat fixed L w v Hv)).
  rewrite (mbind_eq _ _ _ _ _ _ _ (push_nat v L w t Et ltac:(lia))).
  rewrite (mbind_eq _ _ _ _ _ _ _ (setobj_nat fixed TNil (with_top (Z.of_nat (S t)) (with_stack (<[t:=v]> (stack L)) L)) w ltac:(cbn; rewrite length_insert; lia))).
  replace (Z.of_nat fixed + 1) with (Z.of_nat (S fixed)) by lia. rewrite (IH _ (S t)) by (cbn; rewrite ?length_insert; lia). cbn [stack with_stack with_top].
  rewrite (drop_S (stack L) v fixed Hv). cbn [take list_inserts]. rewrite drop_insert_lt, drop_insert_ge, take_insert_ge by lia.
  rewrite <- !(list_insert_inserts_lt _ fixed) by lia. rewrite <- (list_insert_inserts_lt _ t) by lia. by replace (S t + n)%nat with (t + S n)%nat by lia.
Qed.

(** The variable arguments of [op_vararg]. *)
Lemma take_padded n (l : list tvalue) x : take n (l ++ replicate (S n) x) = take n (l ++ replicate n x).
Proof. replace (S n) with (n + 1)%nat by lia. rewrite replicate_add, app_assoc. rewrite take_app_le; [done|]. rewrite length_app, length_replicate. lia. Qed.
Lemma copy_nils_eq n have src dst L w : have <= 0 -> copy_varargs n have src dst L w = nil_slots n dst L w.
Proof.
  revert have src dst L. induction n as [|n IH]; intros have src dst L Hh; [done|]. cbn [copy_varargs nil_slots]. assert ((0 <? have) = false) as -> by lia.
  unfold mbind. destruct (setobj _ _ _ _) as [[[[[]|e] L'] w']|] eqn:E; cbn; [|done..]. unfold setobj in E. destruct (write_slot _ _ _); [|done]. cbn in E. injection E as <- <-. apply IH. lia.
Qed.
Lemma copy_varargs_eq n have src dst L w : 0 <= have -> (src + Z.to_nat have <= dst)%nat -> (dst + n <= length (stack L))%nat ->
  copy_varargs n have (Z.of_nat src) (Z.of_nat dst) L w = Some (Ok tt, with_stack
    (list_inserts dst (take n (take (Z.to_nat have) (drop src (stack L)) ++ replicate n TNil)) (stack L)) L, w).
Proof.
  revert have src dst L. induction n as [|n IH]; intros have src dst L Hh Hs Hd; cbn [copy_varargs]; [rewrite firstn_O; cbn [list_inserts]; by rewrite with_stack_id|].
  destruct (Z.ltb_spec 0 have) as [Hh0|Hh0].
  - replace (Z.of_nat src + 1) with (Z.of_nat (S src)) by lia. replace (Z.of_nat dst + 1) with (Z.of_nat (S dst)) by lia.
    destruct (lookup_lt_is_Some_2 (stack L) src ltac:(lia)) as [v Hv].
    erewrite mbind_eq; [|rewrite (mbind_eq _ _ _ _ _ _ _ (slot_nat src L w v Hv)); apply setobj_nat; lia].
    rewrite IH by (cbn; rewrite ?length_insert; lia). cbn [stack with_stack]. rewrite (drop_S (stack L) v src Hv).
    replace (Z.to_nat have) with (S (Z.to_nat (have - 1))) by lia. cbn [take app list_inserts].
    rewrite drop_insert_ge, take_insert_ge by lia. rewrite list_insert_inserts_lt, take_padded by lia. done.
  - assert (have = 0) as -> by lia. transitivity (copy_varargs (S n) 0 (Z.of_nat src) (Z.of_nat dst) L w); [reflexivity|]. rewrite copy_nils_eq by lia.
    rewrite nil_slots_eq by lia. rewrite take_0. cbn [app]. rewrite take_ge; [done|]. rewrite length_replicate. lia.
Qed.

(** ** The end of a call *)
(** [vs] as [i] values: cut off, or filled with nil; all of them for LUA_MULTRET. *)
Definition adjusted (i : Z) (vs : list tvalue) : list tvalue := if i <? 0 then vs else take (Z.to_nat i) (vs ++ replicate (Z.to_nat i) TNil).
Lemma length_adjusted i vs : 0 <= i -> length (adjusted i vs) = Z.to_nat i.
Proof. intros Hi. unfold adjusted. destruct (Z.ltb_spec i 0); [lia|]. rewrite length_take, length_app, length_replicate. lia. Qed.
Lemma adjusted_split i n (vs : list tvalue) : (n <= length vs)%nat ->
  take (wanted_of i n) vs ++ replicate (Z.to_nat (i - Z.of_nat (wanted_of i n))) TNil = adjusted i (take n vs).
Proof.
  intros Hn. unfold adjusted, wanted_of. destruct (Z.ltb_spec i 0).
  - replace (Z.to_nat (i - Z.of_nat n)) with 0%nat by lia. cbn [replicate]. by rewrite app_nil_r.
  - rewrite take_app, length_take, take_take, take_replicate. replace (Z.to_nat i `min` n)%nat with (n `min` Z.to_nat i)%nat by lia. do 2 f_equal. lia.
Qed.

(** The frame [c] over [rest] again. *)
Definition left_to (c : CallInfo) (rest : list CallInfo) (L : lua_State) : lua_State := with_savedpc (ci_savedpc c) (with_base (ci_base c) (with_calls c rest L)).
Lemma poscall_eq f first t L w c rest : hookmask L = 0 -> callers L = c :: rest -> ci_func (ci L) = Z.of_nat f -> top L = Z.of_nat t ->
  (f <= first <= t)%nat -> (t <= length (stack L))%nat -> Z.of_nat f + nresults (ci L) <= Z.of_nat (length (stack L)) -> -1 <= nresults (ci L) ->
  let vals := adjusted (nresults (ci L)) (drop first (take t (stack L))) in
  luaD_poscall (Z.of_nat first) L w = Some (Ok (nresults (ci L) + 1),
    with_top (Z.of_nat (f + length vals)) (with_stack (list_inserts f vals (stack L)) (left_to c rest L)), w).
Proof.
  intros Hh Hc Hf Ht Hr Hl Hn Hi vals. unfold luaD_poscall. rewrite (mbind_eq state _ L w L L w eq_refl). rewrite Hh. cbn [Z.land Z.eqb negb].
  rewrite (mbind_eq (mret tt) _ L w tt L w eq_refl). rewrite (mbind_eq state _ L w L L w eq_refl). rewrite Hc. set (i := nresults (ci L)) in *.
  rewrite (mbind_eq _ _ L w tt (with_calls c rest L) w eq_refl). rewrite (mbind_eq _ _ (with_calls c rest L) w tt (with_base (ci_base c) (with_calls c rest L)) w eq_refl).
  rewrite (mbind_eq _ _ (with_base (ci_base c) (with_calls c rest L)) w tt (left_to c rest L) w eq_refl).
  rewrite Hf, Ht. replace (Z.to_nat (Z.of_nat t - Z.of_nat first)) with (t - first)%nat by lia.
  pose proof (move_results_eq (t - first) i f first (left_to c rest L) w ltac:(lia) ltac:(cbn; lia)) as Hm. cbn zeta in Hm. rewrite (mbind_eq _ _ _ _ _ _ _ Hm).
  set (m := wanted_of i (t - first)) in *. cbn [stack left_to with_savedpc with_base with_calls] in *.
  assert (Hmb : (m <= t - first)%nat /\ (0 <= i -> Z.of_nat m <= i)) by (unfold m, wanted_of; destruct (Z.ltb_spec i 0); lia).
  erewrite mbind_eq; [|apply nil_slots_eq; cbn; rewrite length_inserts; lia]. cbn [stack with_stack].
  assert (list_inserts (f + m) (replicate (Z.to_nat (i - Z.of_nat m)) TNil) (list_inserts f (take m (drop first (stack L))) (stack L)) = list_inserts f vals (stack L)) as ->.
  { replace (f + m)%nat with (length (take m (drop first (stack L))) + f)%nat by (rewrite length_take, length_drop; lia).
    rewrite <- list_inserts_app_l. f_equal. unfold vals.
    assert (drop first (take t (stack L)) = take (t - first) (drop first (stack L))) as -> by (rewrite take_drop_commute; do 2 f_equal; lia).
    apply adjusted_split. rewrite length_drop. lia. }
  unfold upd, mret, mbind. cbn. change LUA_MULTRET with (-1). replace (i - -1) with (i + 1) by lia. do 4 f_equal. f_equal.
  unfold vals, adjusted, m, wanted_of. destruct (Z.ltb_spec i 0).
  - rewrite length_drop, length_take. lia.
  - rewrite length_take, length_app, length_replicate. lia.
Qed.
End Loops.
