(* ===== verification/LDoProps.v ===== *)
(** * Calls keep the stack discipline

    From functions and a loop that keep the discipline, and whatever errors they throw,
    [luaD_call] makes a call that keeps it: nothing is read or written outside of the
    stack, the frames below are as they were, and errors leave frames that
    [luaD_pcall] can unwind. *)
From stdpp Require Import base list option.
From Stdlib Require Import ZArith Lia ZifyBool.
From S2P Require Import Prelude LObject LProto LVm LDo.
#[local] Open Scope Z_scope.

(** [m] is defined, ends normally in [Q] or throws in [E]. *)
Definition runs {W A} (m : M W A) (L : lua_State) (w : W) (Q : A -> lua_State -> W -> Prop) (E : Z -> lua_State -> W -> Prop) : Prop :=
  match m L w with
  | Some (Ok a, L', w') => Q a L' w'
  | Some (Threw e, L', w') => E e L' w'
  | None => False
  end.

Section Rules.
Context {W : Type}.
Implicit Types (L : lua_State) (w : W).

Lemma runs_bind {A B} (m : M W A) (f : A -> M W B) L w (R : A -> lua_State -> W -> Prop) Q E :
  runs m L w R E -> (forall a L' w', R a L' w' -> runs (f a) L' w' Q E) -> runs (mbind m f) L w Q E.
Proof. unfold runs, mbind. intros Hm Hf. destruct (m L w) as [[[[a|e] L'] w']|]; cbn in *; [by apply Hf|done|done]. Qed.
Lemma runs_mono {A} (m : M W A) L w (Q Q' : A -> lua_State -> W -> Prop) (E E' : Z -> lua_State -> W -> Prop) :
  runs m L w Q E -> (forall a L' w', Q a L' w' -> Q' a L' w') -> (forall e L' w', E e L' w' -> E' e L' w') -> runs m L w Q' E'.
Proof. unfold runs. destruct (m L w) as [[[[a|e] L'] w']|]; auto. Qed.
Lemma runs_inv {A} (m : M W A) L w Q E : runs m L w Q E -> exists o L' w', m L w = Some (o, L', w') /\ match o with Ok a => Q a L' w' | Threw e => E e L' w' end.
Proof. unfold runs. destruct (m L w) as [[[[a|e] L'] w']|]; [by eexists _, _, _..|done]. Qed.
Lemma runs_ret {A} (a : A) L w (Q : A -> lua_State -> W -> Prop) E : Q a L w -> runs (mret a) L w Q E.
Proof. done. Qed.
Lemma runs_throw {A} e L w (Q : A -> lua_State -> W -> Prop) (E : Z -> lua_State -> W -> Prop) : E e L w -> runs (luaD_throw e) L w Q E.
Proof. done. Qed.
Lemma runs_state L w (Q : lua_State -> lua_State -> W -> Prop) E : Q L L w -> runs state L w Q E.
Proof. done. Qed.
Lemma runs_upd u L w (Q : unit -> lua_State -> W -> Prop) E : Q tt (u L) w -> runs (upd u) L w Q E.
Proof. done. Qed.
(** The steps that only look or change a field. *)
Lemma step_state {B} (f : lua_State -> M W B) L w Q E : runs (f L) L w Q E -> runs (mbind state f) L w Q E.
Proof. done. Qed.
Lemma step_world {B} (f : W -> M W B) L w Q E : runs (f w) L w Q E -> runs (mbind the_world f) L w Q E.
Proof. done. Qed.
Lemma step_upd {B} u (f : unit -> M W B) L w Q E : runs (f tt) (u L) w Q E -> runs (mbind (upd u) f) L w Q E.
Proof. done. Qed.
Lemma step_ret {A B} (a : A) (f : A -> M W B) L w Q E : runs (f a) L w Q E -> runs (mbind (mret a) f) L w Q E.
Proof. done. Qed.
Lemma step_put {B} w1 (f : unit -> M W B) L w Q E : runs (f tt) L w1 Q E -> runs (mbind (upd_world (fun _ => Some w1)) f) L w Q E.
Proof. done. Qed.
Lemma step_eq {A B} (m : M W A) (f : A -> M W B) L w a L' w' Q E : m L w = Some (Ok a, L', w') -> runs (f a) L' w' Q E -> runs (mbind m f) L w Q E.
Proof. unfold runs, mbind. by intros ->. Qed.
Lemma step_assoc {A B C} (m : M W A) (f : A -> M W B) (g : B -> M W C) L w Q E :
  runs (mbind m (fun a => mbind (f a) g)) L w Q E -> runs (mbind (mbind m f) g) L w Q E.
Proof. unfold runs, mbind. by destruct (m L w) as [[[[a|e] L'] w']|]. Qed.
End Rules.

(** ** Well-formed threads *)
Fixpoint frames_ok (last : Z) (l : list CallInfo) : Prop :=
  match l with
  | [] => True
  | c :: rest =>
      0 <= ci_func c < ci_base c /\ ci_base c <= ci_top c <= last /\
      match rest with d :: _ => ci_base d <= ci_func c | [] => True end /\ frames_ok last rest
  end.
Record good (L : lua_State) : Prop := {
  g_frames : frames_ok (stack_last L) (ci L :: callers L);
  g_cis : Z.of_nat (length (callers L)) < size_ci L <= 2 * LUAI_MAXCALLS;
  g_base : base L = ci_base (ci L);
  g_top : base L <= top L <= stack_last L;
  g_calls : 0 <= baseCcalls L <= nCcalls L /\ nCcalls L < LUAI_MAXCCALLS + Z.shiftr LUAI_MAXCCALLS 3;
  g_errfunc : 0 <= errfunc L <= stack_last L;
  g_hook : hook L = false /\ hookmask L = 0;
}.

(** The same frame, whose top may have been raised and whose pc saved. *)
Definition same_frame (c c' : CallInfo) : Prop :=
  ci_func c' = ci_func c /\ ci_base c' = ci_base c /\ nresults c' = nresults c /\ ci_top c <= ci_top c'.
(** What calls leave as it is. *)
Definition same_thread (L L' : lua_State) : Prop :=
  baseCcalls L' = baseCcalls L /\ errfunc L' = errfunc L /\ hook L' = hook L /\ hookmask L' = hookmask L /\ stacksize L <= stacksize L'.
(** The frame [c] over [rest] runs again. *)
Record back_in (c : CallInfo) (rest : list CallInfo) (L L' : lua_State) : Prop := {
  b_callers : callers L' = rest;
  b_frame : same_frame c (ci L');
  b_good : good L';
  b_same : same_thread L L';
  b_calls : nCcalls L' = nCcalls L;
}.
(** An error left frames above [c]; its message is on the top. *)
Record unwound (c : CallInfo) (rest : list CallInfo) (L L' : lua_State) : Prop := {
  u_frames : exists extra c', ci L' :: callers L' = extra ++ c' :: rest /\ same_frame c c';
  u_ok : frames_ok (stack_last L') (ci L' :: callers L');
  u_cis : Z.of_nat (length (callers L')) < size_ci L' <= 2 * LUAI_MAXCALLS;
  u_top : 1 <= top L' <= stack_last L' + 1;
  u_same : same_thread L L';
}.
(** The results of a call of [nres] of them at [func]. *)
Definition results (func nres : Z) (L : lua_State) : Prop := (0 <= nres -> top L = func + nres) /\ (nres = LUA_MULTRET -> func <= top L).
Definition failed {W} (c : CallInfo) (rest : list CallInfo) (L : lua_State) (e : Z) (L' : lua_State) (w : W) : Prop := e <> 0 /\ unwound c rest L L'.

(** The sizes that the parser gives a function: two slots at least, and room for the
    parameters. Vararg functions have at most one fixed parameter: with more of them a
    call can overflow the stack, see [vararg_overflow]. *)
Definition proto_ok (p : Proto) : Prop :=
  0 <= numparams p <= maxstacksize p /\ 2 <= maxstacksize p <= 250 /\ (is_vararg p <> 0 -> numparams p <= 1).

Class HostLaws (W : Type) `{Host W} := {
  closure_total w a : is_Some (closure_of w a);
  closure_proto w a p : closure_of w a = Some (Some p) -> proto_ok p;
  set_number w h i : exists v w', luaH_set w h (TNumber (cast_num i)) = lret (v, w');
  set_string w h a : exists v w', luaH_set w h (TGC GString a) = lret (v, w');
  close_total level L w : is_Some (luaF_close level L w);
  c_function_ok a L w : good L -> runs (c_function a) L w
    (fun n L' _ => if n <? 0 then nCcalls L <= baseCcalls L else back_in (ci L) (callers L) L L' /\ n <= top L' - base L')
    (failed (ci L) (callers L) L);
  execute_ok L w c rest : good L -> baseCcalls L < nCcalls L -> callers L = c :: rest -> -1 <= nresults (ci L) ->
    ci_func (ci L) + nresults (ci L) <= stack_last L -> runs (luaV_execute 1) L w
    (fun _ L' _ => back_in c rest L L' /\ results (ci_func (ci L)) (nresults (ci L)) L')
    (failed c rest L);
}.

Lemma frames_mono last last' l : last <= last' -> frames_ok last l -> frames_ok last' l.
Proof. intros Hl. induction l as [|c l IH]; [done|]. cbn. intros (? & ? & ? & ?). repeat split; try lia; [done|by apply IH]. Qed.
Lemma same_thread_refl L : same_thread L L.
Proof. unfold same_thread. repeat split; lia. Qed.
Lemma same_thread_trans a b c : same_thread a b -> same_thread b c -> same_thread a c.
Proof. unfold same_thread. intros (? & ? & ? & ? & ?) (? & ? & ? & ? & ?). repeat split; try congruence. lia. Qed.
Lemma same_frame_refl c : same_frame c c.
Proof. unfold same_frame. repeat split; lia. Qed.
Lemma same_frame_trans a b c : same_frame a b -> same_frame b c -> same_frame a c.
Proof. unfold same_frame. intros (? & ? & ? & ?) (? & ? & ? & ?). repeat split; try congruence. lia. Qed.

(** ** The stack *)
Section Stack.
Context {W : Type} `{HostLaws W}.
Implicit Types (L : lua_State) (w : W).

Lemma at_slot_some i s : 0 <= i < Z.of_nat (length s) -> is_Some (at_slot i s).
Proof. intros Hi. unfold at_slot. destruct (Z.ltb_spec i 0); [lia|]. apply lookup_lt_is_Some. lia. Qed.
Lemma write_slot_some i v s : 0 <= i < Z.of_nat (length s) -> write_slot i v s = Some (<[Z.to_nat i := v]> s).
Proof. intros Hi. unfold write_slot. by assert ((0 <=? i) && (i <? Z.of_nat (length s)) = true) as -> by lia. Qed.
Lemma runs_slot {B} i (f : tvalue -> M W B) L w Q E : 0 <= i < stacksize L -> (forall v, at_slot i (stack L) = Some v -> runs (f v) L w Q E) ->
  runs (mbind (slot i) f) L w Q E.
Proof. intros Hi Hf. destruct (at_slot_some i (stack L) Hi) as [v Hv]. specialize (Hf v Hv). unfold runs, mbind, slot in *. rewrite Hv. exact Hf. Qed.
Lemma runs_setobj {B} i v (f : unit -> M W B) L w Q E : 0 <= i < stacksize L -> runs (f tt) (with_stack (<[Z.to_nat i := v]> (stack L)) L) w Q E ->
  runs (mbind (setobj i v) f) L w Q E.
Proof. intros Hi Hf. unfold runs, mbind, setobj in *. by rewrite write_slot_some by exact Hi. Qed.

(** The stack and its top only. *)
Definition stacked (L : lua_State) (t : Z) (L' : lua_State) : Prop := exists s, L' = with_top t (with_stack s L) /\ (length (stack L) <= length s)%nat.
Lemma stacked_refl L : stacked L (top L) L.
Proof. exists (stack L). by destruct L. Qed.
Lemma stacked_stack s L : (length (stack L) <= length s)%nat -> stacked L (top L) (with_stack s L).
Proof. intros Hs. exists s. split; [by destruct L|done]. Qed.
Lemma stacked_trans L L1 L2 t1 t2 : stacked L t1 L1 -> stacked L1 t2 L2 -> stacked L t2 L2.
Proof. intros (s1 & -> & H1') (s2 & -> & H2'). exists s2. split; [done|]. cbn in *. lia. Qed.
Lemma stacked_size L t L' : stacked L t L' -> stacksize L <= stacksize L'.
Proof. intros (s & -> & Hs). unfold stacksize. cbn. lia. Qed.
Lemma stacked_top L t L' : stacked L t L' -> top L' = t.
Proof. by intros (s & -> & _). Qed.
Lemma stacked_same L t L' : stacked L t L' -> same_thread L L'.
Proof. intros Hs. pose proof (stacked_size _ _ _ Hs). destruct Hs as (s & -> & _). by repeat split. Qed.
Lemma stacked_good L t L' : stacked L t L' -> good L -> base L <= t <= stack_last L' -> good L'.
Proof.
  intros Hs [Hf Hc Hb Ht Hn He Hh] Hr. pose proof (stacked_size _ _ _ Hs) as Hz. destruct Hs as (s & -> & _). split; try done.
  - eapply frames_mono; [|exact Hf]. unfold stack_last, EXTRA_STACK in *. lia.
  - unfold stack_last, EXTRA_STACK in *. cbn [errfunc with_top with_stack]. lia.
Qed.
Lemma stacked_back L t L' : stacked L t L' -> good L -> base L <= t <= stack_last L' -> back_in (ci L) (callers L) L L'.
Proof.
  intros Hs Hg Hr. pose proof (stacked_same _ _ _ Hs). pose proof (stacked_good _ _ _ Hs Hg Hr). destruct Hs as (s & -> & _). by split; try apply same_frame_refl.
Qed.

Definition extended (ext : list tvalue) (L : lua_State) : lua_State := with_stack (stack L ++ ext) L.
Lemma extended_stacked ext L : stacked L (top L) (extended ext L).
Proof. apply stacked_stack. rewrite length_app. lia. Qed.
Lemma extended_nil L : extended [] L = L.
Proof. unfold extended. rewrite app_nil_r. by destruct L. Qed.
Lemma at_slot_app i s ext v : at_slot i s = Some v -> at_slot i (s ++ ext) = Some v.
Proof. unfold at_slot. destruct (i <? 0); [done|]. apply lookup_app_l_Some. Qed.

Lemma grow_spec {B} n (f : unit -> M W B) L w Q E : 0 <= n -> 0 <= top L <= stack_last L ->
  (forall ext, n < stack_last (extended ext L) - top L -> runs (f tt) (extended ext L) w Q E) -> runs (mbind (luaD_checkstack n) f) L w Q E.
Proof.
  intros Hn Ht Hf. unfold luaD_checkstack. apply step_assoc, step_state. destruct (Z.leb_spec (stack_last L - top L) n).
  - assert (forall m, stacksize L <= m -> n < m - top L -> runs (luaD_reallocstack m) L w
      (fun _ L' w' => exists ext, L' = extended ext L /\ n < stack_last L' - top L /\ w' = w) E) as Hr.
    { intros m Hm Hn'. unfold luaD_reallocstack. apply runs_upd. unfold EXTRA_STACK, stacksize in *. rewrite resize_ge by lia. eexists. split; [reflexivity|].
      split; [|done]. unfold stack_last, stacksize, EXTRA_STACK. cbn. rewrite length_app, length_replicate. lia. }
    eapply (runs_bind _ _ _ _ (fun _ L' w' => exists ext, L' = extended ext L /\ n < stack_last L' - top L /\ w' = w)); [|intros [] L' w' (ext & -> & Hl & ->); by apply Hf].
    unfold luaD_growstack. apply step_state. unfold stack_last, EXTRA_STACK in *. destruct (Z.leb_spec n (stacksize L)); apply Hr; lia.
  - apply step_ret. rewrite <- (extended_nil L). apply Hf. rewrite extended_nil. lia.
Qed.

Lemma push_spec {B} v (f : unit -> M W B) L w Q E : 0 <= top L < stacksize L ->
  (forall L', stacked L (top L + 1) L' -> stacksize L' = stacksize L -> runs (f tt) L' w Q E) -> runs (mbind (push v) f) L w Q E.
Proof.
  intros Ht Hf. unfold push. apply step_assoc, step_state, step_assoc, runs_setobj; [exact Ht|]. apply step_upd, Hf.
  - eexists. split; [reflexivity|]. by rewrite length_insert.
  - unfold stacksize. cbn. by rewrite length_insert.
Qed.
Lemma incr_top_spec {B} (f : unit -> M W B) L w Q E : 0 <= top L <= stack_last L ->
  (forall L', stacked L (top L + 1) L' -> top L + 1 <= stack_last L' -> runs (f tt) L' w Q E) -> runs (mbind incr_top f) L w Q E.
Proof.
  intros Ht Hf. unfold incr_top. apply step_assoc, grow_spec; [lia|done|]. intros ext Hr. pose proof (extended_stacked ext L) as Hs. apply step_upd, Hf.
  - destruct Hs as (s & -> & Hs). by exists s.
  - unfold stack_last in *. cbn. change (stacksize (with_top _ (extended ext L))) with (stacksize (extended ext L)). lia.
Qed.
Lemma push_string_spec {B} s (f : unit -> M W B) L w Q E : 0 <= top L <= stack_last L ->
  (forall L' w', stacked L (top L + 1) L' -> top L + 1 <= stack_last L' -> runs (f tt) L' w' Q E) -> runs (mbind (push_string s) f) L w Q E.
Proof.
  intros Ht Hf. unfold push_string. apply step_assoc, step_state, step_assoc, step_world. destruct (luaS_newlstr w _) as [p w']. apply step_assoc, step_put, step_assoc, runs_setobj.
  { unfold stack_last, EXTRA_STACK in *. lia. }
  assert (forall v, stacked L (top L) (with_stack (<[Z.to_nat (top L):=v]> (stack L)) L)) as Hw.
  { intros v. apply stacked_stack. by rewrite length_insert. }
  apply incr_top_spec.
  - unfold stack_last, stacksize in *. cbn. by rewrite length_insert.
  - intros L' Hs Hr. apply Hf; [|exact Hr]. eapply stacked_trans; [apply Hw|exact Hs].
Qed.

(** ** Errors *)
Lemma good_unwound c rest L L' : back_in c rest L L' -> unwound c rest L L'.
Proof.
  intros [Hc Hf [Hfr Hcis Hb Ht _ _ _] Hs _]. split; try done.
  - exists [], (ci L'). by rewrite <- Hc.
  - cbn in Hfr. lia.
Qed.
Lemma unwound_from c rest L L1 L2 : same_thread L L1 -> unwound c rest L1 L2 -> unwound c rest L L2.
Proof. intros Hs [? ? ? ? Hs2]. split; try done. by eapply same_thread_trans. Qed.
Lemma back_from c rest L L1 L2 : same_thread L L1 -> nCcalls L1 = nCcalls L -> back_in c rest L1 L2 -> back_in c rest L L2.
Proof. intros Hs Hn [? ? ? Hs2 ?]. split; try done; [by eapply same_thread_trans|congruence]. Qed.

(** Calls from [k] nested ones on. *)
Definition calls_from (k : Z) (call : Z -> Z -> M W unit) : Prop := forall func nres L w, good L -> base L <= func < top L -> -1 <= nres ->
  func + nres <= stack_last L -> k <= nCcalls L ->
  runs (call func nres) L w (fun _ L' _ => back_in (ci L) (callers L) L L' /\ results func nres L') (failed (ci L) (callers L) L).

Section Calls.
Variable k : Z.
Variable call : Z -> Z -> M W unit.
Hypothesis Hcall : calls_from k call.

Lemma errormsg_ok {A} L L1 w (Q : A -> lua_State -> W -> Prop) : good L -> k <= nCcalls L -> stacked L (top L1) L1 -> base L < top L1 <= stack_last L1 ->
  runs (luaG_errormsg call) L1 w Q (failed (ci L) (callers L) L).
Proof.
  intros Hg Hk Hs Ht. assert (good L1) as Hg1 by (eapply stacked_good; [exact Hs|done|lia]). pose proof (stacked_back _ _ _ Hs Hg ltac:(lia)) as Hb.
  assert (ci L1 = ci L /\ callers L1 = callers L /\ base L1 = base L /\ nCcalls L1 = nCcalls L) as (Eci & Ecs & Eb & En) by (destruct Hs as (s & -> & _); done).
  pose proof (g_base _ Hg) as Hbase. pose proof (g_frames _ Hg) as (Hf & _).
  assert (forall e, e <> 0 -> failed (ci L) (callers L) L e L1 w) as Hthrow by (intros e He; split; [done|by apply good_unwound]).
  pose proof (g_errfunc _ Hg1) as He. unfold luaG_errormsg. apply step_state. destruct (negb _); [|by apply runs_throw, Hthrow].
  apply runs_slot; [unfold stack_last, EXTRA_STACK in *; lia|]. intros handler _. destruct (negb _); [by apply runs_throw, Hthrow|].
  assert (0 <= top L1 - 1 < stacksize L1 /\ 0 <= top L1 < stacksize L1) as [Hi Hi'] by (unfold stack_last, EXTRA_STACK in *; lia).
  apply runs_slot; [done|]. intros msg _. apply runs_setobj; [done|]. apply runs_setobj; [unfold stacksize in *; cbn; rewrite length_insert; lia|].
  set (L2 := with_stack _ _). assert (stacked L1 (top L1) L2) as Hs2.
  { apply (stacked_stack (<[_:=_]> (<[_:=_]> (stack L1))) L1). by rewrite !length_insert. }
  assert (stacksize L2 = stacksize L1) as Ez by (unfold stacksize; cbn; by rewrite !length_insert).
  apply incr_top_spec; [unfold stack_last in *; cbn; change (top L2) with (top L1); lia|]. intros L3 Hs3 Hr3. change (top L2) with (top L1) in *.
  pose proof (stacked_trans _ _ _ _ _ Hs (stacked_trans _ _ _ _ _ Hs2 Hs3)) as Hs13. pose proof (stacked_top _ _ _ Hs3) as Et.
  assert (good L3) as Hg3 by (eapply stacked_good; [exact Hs13|done|lia]). pose proof (stacked_same _ _ _ Hs13) as Hsame.
  assert (ci L3 = ci L /\ callers L3 = callers L /\ base L3 = base L /\ nCcalls L3 = nCcalls L) as (Eci3 & Ecs3 & Eb3 & En3) by (destruct Hs13 as (s & -> & _); done).
  apply step_state. eapply runs_bind.
  - eapply runs_mono; [apply (Hcall (top L3 - 2) 1 L3 w Hg3); lia|cbn; intros a L' w' Hq; exact Hq|].
    intros e L' w' [He' Hu]. rewrite Eci3, Ecs3 in Hu. split; [done|]. by eapply unwound_from.
  - intros [] L' w' [Hb' _]. apply runs_throw. split; [done|]. rewrite Eci3, Ecs3 in Hb'. eapply unwound_from; [exact Hsame|by apply good_unwound].
Qed.

Lemma runerror_ok {A} msg L w (Q : A -> lua_State -> W -> Prop) : good L -> k <= nCcalls L -> runs (luaG_runerror call msg) L w Q (failed (ci L) (callers L) L).
Proof.
  intros Hg Hk. pose proof (g_base _ Hg) as Hbase. pose proof (g_frames _ Hg) as (Hf & Hct & _). pose proof (g_top _ Hg) as Ht.
  unfold luaG_runerror. apply push_string_spec; [lia|]. intros L1 w1 Hs1 Hr1. pose proof (stacked_top _ _ _ Hs1) as Et1. pose proof (stacked_size _ _ _ Hs1) as Ez1.
  assert (ci L1 = ci L) as Eci by (destruct Hs1 as (s & -> & _); done).
  apply step_state, step_world, runs_slot; [rewrite Eci; unfold stack_last, EXTRA_STACK in *; lia|]. intros func _.
  destruct (ttisfunction func) eqn:Ef; [|apply step_ret; eapply errormsg_ok; [done|done|by rewrite Et1|lia]].
  assert (exists b, f_isLua w1 func = Some b) as [b Eb].
  { unfold ttisfunction, ttype in Ef. destruct func as [| | | |[] p|]; try done. cbn. destruct (closure_total w1 p) as [c ->]. cbn. destruct c; by eexists. }
  apply step_assoc. unfold runs, mbind at 1. rewrite Eb. cbn [mbind option_bind]. change (runs (mbind (if b then push_string (position_info L1 w1 +:+ msg) else mret ()) (fun _ => luaG_errormsg call)) L1 w1 Q (failed (ci L) (callers L) L)).
  destruct b; [|apply step_ret; eapply errormsg_ok; [done|done|by rewrite Et1|lia]].
  apply push_string_spec; [lia|]. intros L2 w2 Hs2 Hr2. pose proof (stacked_top _ _ _ Hs2) as Et2.
  eapply errormsg_ok; [done|done|rewrite Et2; eapply stacked_trans; [exact Hs1|exact Hs2]|lia].
Qed.

(** ** Frames *)
Lemma inc_ci_ok {B} c (f : unit -> M W B) L w Q (E : Z -> lua_State -> W -> Prop) : good L -> k <= nCcalls L ->
  (forall sz, Z.of_nat (length (callers L)) + 1 < sz <= 2 * LUAI_MAXCALLS -> runs (f tt) (with_calls c (ci L :: callers L) (with_size_ci sz L)) w Q E) ->
  (forall e L' w', failed (ci L) (callers L) L e L' w' -> E e L' w') -> runs (mbind (inc_ci call c) f) L w Q E.
Proof.
  intros Hg Hk Hf HE. pose proof (g_cis _ Hg) as Hc. unfold inc_ci. apply step_assoc, step_state. destruct (Z.eqb_spec (Z.of_nat (length (callers L))) (size_ci L - 1)) as [Heq|Hne].
  - unfold growCI. apply step_assoc, step_assoc, step_state. destruct (Z.ltb_spec LUAI_MAXCALLS (size_ci L)) as [Hbig|Hsmall].
    + apply HE. split; [done|]. apply good_unwound. eapply stacked_back; [apply stacked_refl|done|]. apply Hg.
    + apply step_assoc, step_upd. destruct (Z.ltb_spec LUAI_MAXCALLS (2 * size_ci L)).
      * eapply runs_bind; [eapply runs_mono; [apply (runerror_ok "stack overflow" (with_size_ci (2 * size_ci L) L) w (fun _ _ _ => False))|done|]|done].
        { destruct Hg. split; try done. cbn in *. unfold LUAI_MAXCALLS in *. lia. }
        { done. }
        intros e L' w' [He Hu]. apply HE. split; [done|]. eapply unwound_from; [|exact Hu]. exact (same_thread_refl L).
      * apply step_ret, step_upd. apply (Hf (2 * size_ci L)). unfold LUAI_MAXCALLS in *. lia.
  - apply step_ret, step_upd. specialize (Hf (size_ci L) ltac:(lia)). by replace (with_size_ci (size_ci L) L) with L in Hf by (by destruct L).
Qed.

(** Entering [c] with the base [b], and leaving it. *)
Definition entered (c : CallInfo) (sz : Z) (L : lua_State) : lua_State := with_base (ci_base c) (with_calls c (ci L :: callers L) (with_size_ci sz L)).
Lemma entered_good c sz L : good L -> Z.of_nat (length (callers L)) + 1 < sz <= 2 * LUAI_MAXCALLS -> base L <= ci_func c < ci_base c ->
  ci_base c <= ci_top c <= stack_last L -> ci_base c <= top L -> good (entered c sz L).
Proof.
  intros [Hf Hc Hb Ht Hn He Hh] Hsz Hfn Hct Htop. assert (stack_last (entered c sz L) = stack_last L) as E by done.
  split; rewrite ?E; try done; cbn [entered with_base with_calls with_size_ci callers ci base top size_ci length frames_ok] in *; [|lia..].
  repeat split; try lia; apply Hf.
Qed.

(** Errors and ends of the frame above [L]'s. *)
Lemma unwound_callee c c' sz L L' : unwound c' (ci L :: callers L) (entered c sz L) L' -> unwound (ci L) (callers L) L L'.
Proof.
  intros [(extra & d & E & _) ? ? ? Hs]. split; try done. exists (extra ++ [d]), (ci L). split; [|apply same_frame_refl]. rewrite E. by rewrite <- app_assoc.
Qed.


(** The end of the frame above [c]. *)
Lemma poscall_ok L w c rest first : good L -> callers L = c :: rest -> -1 <= nresults (ci L) -> ci_func (ci L) + nresults (ci L) <= stack_last L ->
  ci_func (ci L) <= first <= top L ->
  runs (luaD_poscall first) L w (fun b L' _ => b = nresults (ci L) + 1 /\ back_in c rest L L' /\ results (ci_func (ci L)) (nresults (ci L)) L') (fun _ _ _ => False).
Proof.
  intros Hg Ec Hn Hl Hr. pose proof Hg as [Hf Hcis Hb Ht Hcalls He [Hh1 Hh2]]. rewrite Ec in Hf. cbn in Hf. destruct Hf as (Hfn & Hct & Hcf & Hrest).
  pose proof (poscall_eq (Z.to_nat (ci_func (ci L))) (Z.to_nat first) (Z.to_nat (top L)) L w c rest Hh2 Ec) as E. unfold stack_last, stacksize, EXTRA_STACK in *.
  rewrite !Z2Nat.id in E by lia. specialize (E eq_refl eq_refl ltac:(lia) ltac:(lia) ltac:(lia) Hn). cbn zeta in E. unfold runs. rewrite E. split; [done|].
  set (vals := adjusted _ _) in *. assert (Hlen : (0 <= nresults (ci L) -> Z.of_nat (length vals) = nresults (ci L)) /\ (nresults (ci L) = -1 -> Z.of_nat (length vals) = top L - first)).
  { split; intros Hi; [unfold vals; rewrite length_adjusted by lia; lia|]. unfold vals, adjusted. rewrite Hi. change (-1 <? 0) with true. cbv iota. rewrite length_drop, length_take. lia. }
  assert (top L - first = Z.of_nat (length vals) \/ nresults (ci L) = Z.of_nat (length vals)) as Hcase by lia.
  split.
  - split; [done|apply same_frame_refl| | |done].
    + split; try done; unfold stack_last, stacksize, EXTRA_STACK; cbn; rewrite ?length_inserts; try lia; [exact Hrest|rewrite Ec in Hcis; cbn in Hcis; lia].
    + repeat split; try done. unfold stacksize. cbn. rewrite length_inserts. lia.
  - split; cbn; unfold LUA_MULTRET; lia.
Qed.

Lemma call_c_ok func nres a L w : good L -> k <= nCcalls L -> at_slot func (stack L) = Some (TGC GFunction a) -> base L <= func < top L -> -1 <= nres -> func + nres <= stack_last L ->
  runs (call_c call func nres) L w (fun r L' _ => match r with PCRLUA => False | PCRC => back_in (ci L) (callers L) L L' /\ results func nres L' | PCRYIELD => nCcalls L <= baseCcalls L end)
    (failed (ci L) (callers L) L).
Proof.
  intros Hg Hk Hfn Hr Hn Hl. pose proof (g_base _ Hg) as Hb. pose proof (g_top _ Hg) as Ht. pose proof (g_frames _ Hg) as (Hfr & _). unfold call_c.
  apply grow_spec; [done|lia|]. intros ext Hroom. pose proof (extended_stacked ext L) as Hs. set (L1 := extended ext L) in *. pose proof (stacked_same _ _ _ Hs) as Hsame1.
  assert (good L1) as Hg1 by (eapply stacked_good; [exact Hs|done|change LUA_MINSTACK with 20 in Hroom; lia]).
  apply step_state, inc_ci_ok; [done|exact Hk| |intros e L' w' [? Hu]; split; [done|]; eapply unwound_from; [exact Hsame1|exact Hu]].
  intros sz Hsz. apply step_upd, step_state. set (c := Ci (func + 1) func (top L1 + LUA_MINSTACK) 0 nres 0). change (with_base (func + 1) _) with (entered c sz L1). set (L3 := entered c sz L1).
  assert (good L3) as Hg3 by (apply entered_good; [done|exact Hsz|cbn; change (base L1) with (base L)|change (top L1) with (top L); change LUA_MINSTACK with 20 in *; cbn; change (top L1) with (top L)|cbn; change (top L1) with (top L)]; lia).
  assert (hookmask L3 = 0) as -> by apply Hg3. apply step_ret, step_state.
  assert (slot (ci_func (ci L3)) L3 w = Some (Ok (TGC GFunction a), L3, w)) as Ef.
  { unfold slot. cbn. by rewrite (at_slot_app _ _ _ _ Hfn). }
  assert (forall (f : tvalue -> M W PCR) Q E, runs (f (TGC GFunction a)) L3 w Q E -> runs (mbind (slot (ci_func (ci L3))) f) L3 w Q E) as Hslot.
  { intros f Q E Hq. unfold runs in *. by rewrite (mbind_eq _ _ _ _ _ _ _ Ef). }
  apply Hslot. assert (forall e L' w', failed (ci L3) (callers L3) L3 e L' w' -> failed (ci L) (callers L) L e L' w') as HE.
  { intros e L' w' [He Hu]. split; [done|]. eapply unwound_from; [exact Hsame1|]. exact (unwound_callee _ _ _ _ _ Hu). }
  eapply runs_bind; [eapply runs_mono; [apply (c_function_ok a L3 w Hg3)|cbn; intros n L4 w4 Hq; exact Hq|exact HE]|].
  intros n L4 w4 Hq. cbn in Hq. destruct (Z.ltb_spec n 0) as [|Hn0]; [apply runs_ret; exact Hq|]. destruct Hq as [[Hc4 (Hf4 & Hb4 & Hn4 & _) Hg4 Hs4 Hcalls4] Hn4'].
  apply step_state. assert (stack_last L3 <= stack_last L4) as Hz by (unfold stack_last, EXTRA_STACK; destruct Hs4 as (_ & _ & _ & _ & ?); lia).
  cbn [L3 entered ci with_base with_calls callers] in *. cbn in Hf4, Hb4, Hn4. change (stack_last L3) with (stack_last L1) in Hz.
  assert (stack_last L <= stack_last L1) as Hz1 by (unfold stack_last, EXTRA_STACK; destruct Hsame1 as (_ & _ & _ & _ & ?); lia).
  pose proof (g_base _ Hg4) as Hb4'. eapply runs_bind; [eapply runs_mono; [apply (poscall_ok L4 w4 (ci L1) (callers L1) (top L4 - n) Hg4 Hc4); lia|cbn; intros b L5 w5 Hq; exact Hq|done]|].
  intros b L5 w5 (_ & Hback & Hres). apply runs_ret. rewrite Hf4, Hn4 in Hres. split; [|exact Hres].
  eapply (back_from _ _ L L1); [exact Hsame1|done|]. eapply (back_from _ _ L1 L3); [exact (same_thread_refl L1)|done|]. by eapply back_from.
Qed.

(** *** Lua functions *)
Lemma push_nils_ok {B} n (f : unit -> M W B) L w Q E : 0 <= top L -> top L + Z.of_nat n <= stacksize L ->
  (forall L', stacked L (top L + Z.of_nat n) L' -> stacksize L' = stacksize L -> runs (f tt) L' w Q E) -> runs (mbind (push_nils n) f) L w Q E.
Proof.
  intros Ht Hn Hf. unfold stacksize in Hn. pose proof (push_nils_eq n L w (Z.to_nat (top L)) ltac:(lia) ltac:(lia)) as Eq. unfold runs. rewrite (mbind_eq _ _ _ _ _ _ _ Eq). apply Hf.
  - eexists. split; [f_equal; lia|]. by rewrite length_inserts.
  - unfold stacksize. cbn. by rewrite length_inserts.
Qed.
Lemma fill_arg_ok n i nvar htab L w E : 0 <= top L - nvar + i -> i + Z.of_nat n <= nvar -> top L <= stacksize L ->
  runs (fill_arg n i nvar htab) L w (fun _ L' _ => L' = L) E.
Proof.
  revert i w. induction n as [|n IH]; intros i w Hi Hn Ht; cbn [fill_arg]; [done|]. apply step_state, runs_slot; [lia|]. intros v _.
  destruct (set_number w htab (i + 1)) as (v0 & w' & Eset). unfold runs, mbind, upd_world. rewrite Eset. cbn. apply IH; lia.
Qed.
Lemma arg_table_ok nvar p L w E : 0 <= nvar <= top L -> 0 <= top L <= stack_last L -> 0 <= maxstacksize p ->
  runs (arg_table nvar p) L w (fun _ L' _ => stacked L (top L) L' /\ maxstacksize p < stack_last L' - top L) E.
Proof.
  intros Hn Ht Hp. unfold arg_table. apply grow_spec; [done|done|]. intros ext Hr. apply step_world. destruct (luaH_new w nvar 1) as [htab w1]. apply step_put.
  eapply runs_bind; [apply (fill_arg_ok _ 0 nvar htab (extended ext L)); change (top (extended ext L)) with (top L)|].
  - lia.
  - lia.
  - unfold stack_last, EXTRA_STACK in *. lia.
  - intros [] L' w2 ->. apply step_world. destruct (luaS_newlstr w2 _) as [a w3]. destruct (set_string w3 htab a) as (v & w4 & Eset).
    unfold runs, mbind, upd_world. rewrite Eset. cbn. split; [apply extended_stacked|exact Hr].
Qed.

Lemma adjust_varargs_ok p func L w E : proto_ok p -> is_vararg p <> 0 -> 0 <= func < top L -> top L <= stack_last L -> maxstacksize p < stack_last L - top L ->
  runs (adjust_varargs p (top L - func - 1)) L w
    (fun b L' _ => stacked L (top L') L' /\ func < b <= top L' /\ top L' <= b + maxstacksize p /\ b + maxstacksize p <= stack_last L') E.
Proof.
  intros (Hp1 & Hp2 & Hp3) Hv Hf Ht Hr. specialize (Hp3 Hv). unfold adjust_varargs. set (actual := top L - func - 1).
  set (d := Z.of_nat (Z.to_nat (numparams p - actual))). assert (Ed : d = Z.max actual (numparams p) - actual /\ 0 <= d <= 1) by lia.
  apply push_nils_ok; [lia|unfold stack_last, EXTRA_STACK in *; lia|]. fold d. intros L1 Hs1 Ez1. pose proof (stacked_top _ _ _ Hs1) as Et1.
  eapply (runs_bind _ _ _ _ (fun _ L2 _ => stacked L1 (top L1) L2 /\ top L1 + maxstacksize p <= stack_last L2)).
  { destruct (negb _).
    - eapply runs_bind; [apply (arg_table_ok _ p L1); unfold stack_last, EXTRA_STACK in *; lia|]. intros v L2 w2 [Hs2 Hr2]. apply runs_ret. split; [exact Hs2|lia].
    - apply runs_ret. split; [apply stacked_refl|]. unfold stack_last, EXTRA_STACK in *. lia. }
  intros htab L2 w2 [Hs2 Hr2]. pose proof (stacked_top _ _ _ Hs2) as Et2. apply step_state. unfold stack_last, stacksize, EXTRA_STACK in *.
  pose proof (move_fixed_eq (Z.to_nat (numparams p)) (Z.to_nat (func + 1)) L2 w2 (Z.to_nat (top L2)) ltac:(lia) ltac:(lia) ltac:(lia)) as Em.
  replace (Z.of_nat (Z.to_nat (func + 1))) with (top L2 - Z.max actual (numparams p)) in Em by lia. unfold runs. rewrite (mbind_eq _ _ _ _ _ _ _ Em). set (L3 := with_top _ _) in *.
  assert (stacked L2 (top L2 + numparams p) L3 /\ stacksize L3 = stacksize L2) as [Hs3 Ez3].
  { split; [eexists; split; [unfold L3; f_equal; lia|]|unfold stacksize; cbn]; by rewrite !length_inserts. }
  pose proof (stacked_top _ _ _ Hs3) as Et3. pose proof (stacked_trans _ _ _ _ _ Hs1 (stacked_trans _ _ _ _ _ Hs2 Hs3)) as Hs. unfold stacksize in Ez3. change (runs (do^ match htab with Some t => push t | None => mret tt end in mret (top L2)) L3 w2 (fun b L' _ => stacked L (top L') L' /\ func < b <= top L' /\ top L' <= b + maxstacksize p /\ b + maxstacksize p <= Z.of_nat (length (stack L')) - 5 - 1) E).
  destruct htab as [t|].
  - apply push_spec; [unfold stacksize; lia|]. intros L4 Hs4 Ez4. apply runs_ret. pose proof (stacked_top _ _ _ Hs4) as Et4. unfold stacksize in Ez4.
    split; [rewrite Et4; by eapply stacked_trans|]. lia.
  - apply step_ret, runs_ret. split; [by rewrite Et3|]. lia.
Qed.

Lemma good_savedpc n L : good L -> good (with_savedpc n L).
Proof. intros []. by split. Qed.
Lemma nil_slots_ok {B} n i (f : unit -> M W B) L w Q E : 0 <= i -> i + Z.of_nat n <= stacksize L ->
  (forall L', stacked L (top L) L' -> stacksize L' = stacksize L -> runs (f tt) L' w Q E) -> runs (mbind (nil_slots n i) f) L w Q E.
Proof.
  intros Hi Hn Hf. unfold stacksize in Hn. pose proof (nil_slots_eq n (Z.to_nat i) L w ltac:(lia)) as Eq. rewrite Z2Nat.id in Eq by lia. unfold runs.
  rewrite (mbind_eq _ _ _ _ _ _ _ Eq). apply Hf; [apply stacked_stack; by rewrite length_inserts|unfold stacksize; cbn; by rewrite length_inserts].
Qed.

(** The new frame of a Lua function. *)
Record in_frame (func nres : Z) (L L' : lua_State) : Prop := {
  f_callers : callers L' = ci L :: callers L;
  f_func : ci_func (ci L') = func;
  f_nresults : nresults (ci L') = nres;
  f_good : good L';
  f_same : same_thread L L';
  f_calls : nCcalls L' = nCcalls L;
}.

(** From the base of the frame on, which [L2] has made room for. *)
Lemma new_frame_ok p func nres b L w : good L -> k <= nCcalls L -> base L <= func < b -> b <= top L <= b + maxstacksize p -> b + maxstacksize p <= stack_last L ->
  runs (do^ inc_ci call (Ci b func (b + maxstacksize p) 0 nres 0) in
        do^ upd (with_base b) in
        do^ upd (with_savedpc 0) in
        let^ L := state in
        do^ nil_slots (Z.to_nat (ci_top (ci L) - top L)) (top L) in
        do^ upd (with_top (ci_top (ci L))) in
        let^ L := state in
        if negb (Z.land (hookmask L) LUA_MASKCALL =? 0) then
          do^ upd (fun L => with_savedpc (savedpc L + 1) L) in
          do^ luaD_callhook LUA_HOOKCALL (-1) in
          upd (fun L => with_savedpc (savedpc L - 1) L)
        else mret tt) L w (fun _ L' _ => in_frame func nres L L') (failed (ci L) (callers L) L).
Proof.
  intros Hg Hk Hf Ht Hl. pose proof (g_base _ Hg) as Hb. pose proof (g_frames _ Hg) as (Hfr & _). apply inc_ci_ok; [done|done| |done]. intros sz Hsz. set (c := Ci b func _ 0 nres 0).
  apply step_upd. change (with_base b _) with (entered c sz L). assert (good (entered c sz L)) as Hg1 by (apply entered_good; [done|done|cbn; lia..]).
  apply step_upd, step_state. apply (good_savedpc 0) in Hg1. set (L1 := with_savedpc 0 _) in *. cbn [L1 ci top with_savedpc entered with_base with_calls with_size_ci c ci_top].
  assert (stack_last L1 = stack_last L) as El by done. assert (base L1 = b /\ top L1 = top L) as [Eb Et] by done.
  apply nil_slots_ok; [lia|unfold stack_last, stacksize, EXTRA_STACK in *; cbn; lia|]. intros L2 Hs2 Ez2. apply step_upd, step_state.
  assert (stacked L1 (b + maxstacksize p) (with_top (b + maxstacksize p) L2)) as Hs3 by (destruct Hs2 as (s & -> & Hs2); by exists s).
  assert (stack_last (with_top (b + maxstacksize p) L2) = stack_last L) as El3 by (rewrite <- El; unfold stack_last; cbn; change (stacksize (with_top (b + maxstacksize p) L2)) with (stacksize L2); lia).
  assert (good (with_top (b + maxstacksize p) L2)) as Hg3 by (eapply stacked_good; [exact Hs3|done|lia]).
  assert (hookmask (with_top (b + maxstacksize p) L2) = 0) as -> by apply Hg3. apply runs_ret. pose proof (stacked_same _ _ _ Hs3) as Hsame.
  destruct Hs2 as (s & -> & Hs2). split; done.
Qed.

Lemma enter_lua_ok p func nres L w : good L -> k <= nCcalls L -> proto_ok p -> base L <= func < top L ->
  runs (enter_lua call p func nres) L w (fun _ L' _ => in_frame func nres L L') (failed (ci L) (callers L) L).
Proof.
  intros Hg Hk Hp Hf. pose proof (g_base _ Hg) as Hb. pose proof (g_frames _ Hg) as (Hfr & _). pose proof (g_top _ Hg) as Ht. unfold enter_lua.
  apply grow_spec; [destruct Hp; lia|lia|]. intros ext Hr. pose proof (extended_stacked ext L) as Hs1. set (L1 := extended ext L) in *.
  assert (top L1 = top L /\ base L1 = base L) as [Et1 Eb1] by done. apply step_state. pose proof Hp as (Hp1 & Hp2 & _).
  eapply (runs_bind _ _ _ _ (fun b L2 _ => stacked L1 (top L2) L2 /\ func < b <= top L2 /\ top L2 <= b + maxstacksize p /\ b + maxstacksize p <= stack_last L2)).
  - destruct (Z.eqb_spec (is_vararg p) 0) as [Hv|Hv]; [|apply adjust_varargs_ok; [done|done|lia..]]. destruct (Z.ltb_spec (func + 1 + numparams p) (top L1)).
    + apply step_upd, runs_ret. split; [exists (stack L1); by destruct L1|]. change (stack_last (with_top _ L1)) with (stack_last L1). cbn. lia.
    + apply step_ret, runs_ret. split; [apply stacked_refl|]. lia.
  - intros b L2 w2 (Hs2 & Hb2 & Ht2 & Hl2). pose proof (stacked_trans _ _ _ _ _ Hs1 Hs2) as Hs. pose proof (stacked_same _ _ _ Hs) as Hsame.
    assert (good L2) as Hg2 by (eapply stacked_good; [exact Hs|done|lia]).
    assert (ci L2 = ci L /\ callers L2 = callers L /\ base L2 = base L /\ nCcalls L2 = nCcalls L) as (E1 & E2 & E3 & E4) by (destruct Hs as (s & -> & _); done).
    eapply runs_mono; [apply new_frame_ok; [done|lia..]| |].
    + intros [] L' w' [H1' H2' H3' H4' H5' H6']. rewrite E1, E2 in H1'. split; try done; [by eapply same_thread_trans|congruence].
    + intros e L' w' [He Hu]. rewrite E1, E2 in Hu. split; [done|]. by eapply unwound_from.
Qed.

(** *** Any call *)
Lemma open_hole_ok {B} n i (f : unit -> M W B) L w Q E : Z.of_nat n <= i < stacksize L ->
  (forall L', stacked L (top L) L' -> stacksize L' = stacksize L -> runs (f tt) L' w Q E) -> runs (mbind (open_hole n i) f) L w Q E.
Proof.
  revert i L. induction n as [|n IH]; intros i L Hi Hf; cbn [open_hole]; [apply step_ret, Hf; [apply stacked_refl|done]|].
  apply step_assoc, runs_slot; [lia|]. intros v _. apply step_assoc, runs_setobj; [lia|]. set (L1 := with_stack _ L).
  assert (stacked L (top L) L1 /\ stacksize L1 = stacksize L) as [Hs Ez] by (split; [apply stacked_stack|unfold stacksize; cbn]; by rewrite length_insert).
  apply IH; [lia|]. intros L' Hs' Ez'. apply Hf; [by eapply stacked_trans|lia].
Qed.
Lemma function_value v : ttisfunction v = true -> exists a, v = TGC GFunction a.
Proof. unfold ttisfunction, ttype. destruct v as [| | | |[] p|]; try done. by eexists. Qed.

Lemma tryfuncTM_ok func L w : good L -> k <= nCcalls L -> base L <= func < top L ->
  runs (tryfuncTM call func) L w (fun _ L' _ => stacked L (top L + 1) L' /\ top L + 1 <= stack_last L' /\ exists a, at_slot func (stack L') = Some (TGC GFunction a)) (failed (ci L) (callers L) L).
Proof.
  intros Hg Hk Hf. pose proof (g_base _ Hg) as Hb. pose proof (g_frames _ Hg) as (Hfr & _). pose proof (g_top _ Hg) as Ht. unfold tryfuncTM.
  apply runs_slot; [unfold stack_last, EXTRA_STACK in *; lia|]. intros v _. apply step_world. set (tm := luaT_gettmbyobj w v TM_CALL).
  destruct (ttisfunction tm) eqn:Etm; cbn [negb]; [|by apply runerror_ok]. apply step_state.
  apply open_hole_ok; [unfold stack_last, EXTRA_STACK in *; lia|]. intros L1 Hs1 Ez1. pose proof (stacked_top _ _ _ Hs1) as Et1.
  apply incr_top_spec; [unfold stack_last in *; lia|]. intros L2 Hs2 Hr2. rewrite Et1 in *. pose proof (stacked_size _ _ _ Hs2).
  assert (0 <= func < stacksize L2) as Hfn by (unfold stack_last, EXTRA_STACK in *; lia). unfold runs, setobj. rewrite write_slot_some by exact Hfn. cbn.
  assert (stacked L2 (top L2) (with_stack (<[Z.to_nat func:=tm]> (stack L2)) L2)) as Hs3 by (apply stacked_stack; by rewrite length_insert).
  pose proof (stacked_trans _ _ _ _ _ Hs1 (stacked_trans _ _ _ _ _ Hs2 Hs3)) as Hs. rewrite (stacked_top _ _ _ Hs2) in Hs. split; [exact Hs|].
  split; [unfold stack_last, stacksize in *; cbn; rewrite length_insert; lia|]. destruct (function_value _ Etm) as [a ->]. exists a. unfold at_slot.
  destruct (Z.ltb_spec func 0); [lia|]. apply list_lookup_insert_eq. unfold stacksize in Hfn. lia.
Qed.

(** What [luaD_precall] has done. *)
Definition called (func nres : Z) (L : lua_State) (r : PCR) (L' : lua_State) : Prop :=
  match r with
  | PCRLUA => exists c L1, same_frame (ci L) c /\ ci L1 = c /\ callers L1 = callers L /\ same_thread L L1 /\ nCcalls L1 = nCcalls L /\ in_frame func nres L1 L'
  | PCRC => back_in (ci L) (callers L) L L' /\ results func nres L'
  | PCRYIELD => nCcalls L <= baseCcalls L
  end.

Lemma precall_ok func nres L w : good L -> k <= nCcalls L -> base L <= func < top L -> -1 <= nres -> func + nres <= stack_last L ->
  runs (luaD_precall call func nres) L w (fun r L' _ => called func nres L r L') (failed (ci L) (callers L) L).
Proof.
  intros Hg Hk Hf Hn Hl. pose proof (g_base _ Hg) as Hb. pose proof (g_frames _ Hg) as (Hfr & _). pose proof (g_top _ Hg) as Ht. unfold luaD_precall.
  apply runs_slot; [unfold stack_last, EXTRA_STACK in *; lia|]. intros v Hv.
  eapply (runs_bind _ _ _ _ (fun _ L1 _ => exists t, stacked L t L1 /\ top L <= t <= stack_last L1 /\ exists a, at_slot func (stack L1) = Some (TGC GFunction a))).
  { destruct (ttisfunction v) eqn:Ev.
    - apply runs_ret. exists (top L). split; [apply stacked_refl|]. split; [lia|]. destruct (function_value _ Ev) as [a ->]. by exists a.
    - eapply runs_mono; [by apply tryfuncTM_ok| |done]. intros [] L' w' (Hs & Hr & Ha). exists (top L + 1). split; [done|]. split; [lia|done]. }
  intros [] L1 w1 (t & Hs & Hr & a & Ha). pose proof (stacked_top _ _ _ Hs) as Et. pose proof (stacked_same _ _ _ Hs) as Hsame. pose proof (stacked_size _ _ _ Hs).
  assert (good L1) as Hg1 by (eapply stacked_good; [exact Hs|done|lia]).
  assert (ci L1 = ci L /\ callers L1 = callers L /\ base L1 = base L /\ nCcalls L1 = nCcalls L /\ baseCcalls L1 = baseCcalls L) as (E1 & E2 & E3 & E4 & E5) by (destruct Hs as (s & -> & _); done).
  apply runs_slot; [unfold stack_last, EXTRA_STACK in *; lia|]. intros v' Hv'. assert (v' = TGC GFunction a) as -> by congruence. apply step_upd.
  set (c := set_ci_pc (savedpc L1) (ci L1)). set (L2 := with_calls c (callers L1) L1). assert (same_frame (ci L) c) as Hc by (rewrite <- E1; exact (same_frame_refl (ci L1))).
  assert (good L2) as Hg2 by (destruct Hg1; by split). assert (same_thread L L2) as Hsame2 by exact Hsame.
  assert (forall e L' (w' : W), failed (ci L2) (callers L2) L2 e L' w' -> failed (ci L) (callers L) L e L' w') as HE.
  { intros e L' w' [He Hu]. split; [done|]. eapply unwound_from; [exact Hsame2|]. cbn in Hu. rewrite E2 in Hu. destruct Hu as [(extra & c' & Ec & Hc') ? ? ? ?]. split; try done.
    exists extra, c'. split; [done|]. by eapply same_frame_trans. }
  destruct (closure_total w1 a) as [o Ho]. unfold runs, mbind at 1. rewrite Ho. cbn [mbind option_bind].
  assert (stack_last L <= stack_last L2) as Hz by (change (stack_last L2) with (stack_last L1); unfold stack_last; lia).
  destruct o as [p|].
  - change (runs (do^ enter_lua call p func nres in mret PCRLUA) L2 w1 (fun r L' _ => called func nres L r L') (failed (ci L) (callers L) L)).
    eapply runs_bind; [eapply runs_mono; [apply (enter_lua_ok p func nres L2 w1 Hg2); [cbn; lia|by eapply closure_proto|cbn; lia]|cbn; intros x L' w' Hq; exact Hq|exact HE]|].
    intros [] L' w' Hq. apply runs_ret. exists c, L2. split; [exact Hc|]. split; [done|]. split; [exact E2|]. split; [exact Hsame2|]. split; [exact E4|exact Hq].
  - change (runs (call_c call func nres) L2 w1 (fun r L' _ => called func nres L r L') (failed (ci L) (callers L) L)).
    eapply runs_mono; [apply (call_c_ok func nres a L2 w1 Hg2); [cbn; lia|exact Ha|cbn; lia|done|lia]| |exact HE].
    intros [] L' w' Hq; [done| |cbn in *; lia]. destruct Hq as [[Hb1 Hb2 Hb3 Hb4 Hb5] Hres]. split; [|exact Hres]. cbn in Hb1, Hb2, Hb5.
    split; [congruence|by eapply same_frame_trans|done|by eapply same_thread_trans|congruence].
Qed.

Lemma call_level_ok : calls_from (k - 1) (luaD_call_level call).
Proof.
  intros func nres L w Hg Hf Hn Hl Hk. pose proof (g_calls _ Hg) as Hcs. unfold luaD_call_level. apply step_upd, step_state. set (L1 := with_nCcalls (nCcalls L + 1) L).
  assert (same_thread L L1) as Hsame by exact (same_thread_refl L). cbn [L1 nCcalls with_nCcalls].
  assert (nCcalls L + 1 < LUAI_MAXCCALLS + Z.shiftr LUAI_MAXCCALLS 3 -> good L1) as Hg1 by (intros Hlt; destruct Hg; split; try done; cbn in *; lia).
  assert (forall e L' (w' : W), failed (ci L1) (callers L1) L1 e L' w' -> failed (ci L) (callers L) L e L' w') as HE by (intros e L' w' [He Hu]; split; [done|]; by eapply unwound_from).
  change (Z.shiftr LUAI_MAXCCALLS 3) with 25 in *. change LUAI_MAXCCALLS with 200 in *.
  eapply (runs_bind _ _ _ _ (fun _ L' w' => L' = L1 /\ w' = w /\ good L1)).
  { destruct (Z.leb_spec 200 (nCcalls L + 1)); [|apply runs_ret; split_and!; [done|done|apply Hg1; lia]].
    destruct (Z.eqb_spec (nCcalls L + 1) 200); [eapply runs_mono; [apply (runerror_ok _ L1 w (fun _ _ _ => False)); [apply Hg1; lia|cbn; lia]|done|exact HE]|].
    destruct (Z.leb_spec (200 + 25) (nCcalls L + 1)); [|apply runs_ret; split_and!; [done|done|apply Hg1; lia]].
    apply runs_throw. split; [done|]. destruct (good_unwound (ci L) (callers L) L L) as [? ? ? ? ?]; [|by split].
    eapply stacked_back; [apply stacked_refl|done|apply Hg]. }
  intros [] L' w' (-> & -> & Hg1'). eapply runs_bind; [eapply runs_mono; [apply (precall_ok func nres L1 w Hg1'); [cbn; lia|done..]|cbn; intros r L2 w2 Hq; exact Hq|exact HE]|].
  intros r L2 w2 Hq. eapply (runs_bind _ _ _ _ (fun _ L3 _ => back_in (ci L) (callers L) L1 L3 /\ results func nres L3)).
  - destruct r; [|apply runs_ret, Hq|cbn in Hq; lia]. destruct Hq as (c & L0 & Hc & Ec & Ecs & Hsame0 & En & [Hi1 Hi2 Hi3 Hi4 Hi5 Hi6]).
    assert (same_thread L1 L2) as Hsame2 by (by eapply same_thread_trans). assert (stack_last L <= stack_last L2) as Hz by (unfold stack_last; destruct Hsame2 as (_ & _ & _ & _ & Hz); change (stacksize L1) with (stacksize L) in Hz; lia).
    eapply runs_mono; [apply (execute_ok L2 w2 (ci L0) (callers L0) Hi4); [destruct Hsame2 as (Eb2 & _); change (baseCcalls L1) with (baseCcalls L) in Eb2; change (nCcalls L1) with (nCcalls L + 1) in En; lia|exact Hi1|by rewrite Hi3|rewrite Hi2, Hi3; lia]| |].
    + intros [] L3 w3 [[Hb1 Hb2 Hb3 Hb4 Hb5] Hres]. rewrite Hi2, Hi3 in Hres. split; [|exact Hres]. split; [by rewrite Hb1, Ecs|rewrite Ec in Hb2; by eapply same_frame_trans|done|by eapply same_thread_trans|by rewrite Hb5, Hi6, En].
    + intros e L3 w3 [He Hu]. split; [done|]. eapply (unwound_from _ _ L L2); [exact Hsame2|]. rewrite Ecs, Ec in Hu. destruct Hu as [(extra & c' & E' & Hc') ? ? ? ?]. split; try done.
      exists extra, c'. split; [done|]. by eapply same_frame_trans.
  - intros [] L3 w3 [[Hb1 Hb2 Hb3 Hb4 Hb5] Hres]. apply runs_upd. split; [|exact Hres]. cbn in Hb5. split; try done; [|cbn; lia].
    destruct Hb3. destruct Hb4 as (Ebase & ? & ? & ? & ?). split; try done. cbn in *. lia.
Qed.
End Calls.

Lemma call_levels_ok n : calls_from (LUAI_MAXCCALLS + 25 - Z.of_nat n) (call_levels n).
Proof.
  induction n as [|n IH].
  - intros func nres L w Hg _ _ _ Hk. pose proof (g_calls _ Hg) as Hc. change (Z.shiftr LUAI_MAXCCALLS 3) with 25 in Hc. lia.
  - pose proof (call_level_ok _ _ IH) as Hl. intros func nres L w Hg Hf Hn Hs Hk. apply Hl; [done|done|done|done|lia].
Qed.
Lemma luaD_call_from : calls_from 0 luaD_call.
Proof. intros func nres L w Hg Hf Hn Hs Hk. apply (call_levels_ok LEVELS); try done. assert (Z.of_nat LEVELS = 226) as -> by (vm_compute; done). change LUAI_MAXCCALLS with 200. lia. Qed.

(** C3. Calls keep the stack discipline. On a well formed thread without hooks, and under
    the laws of [HostLaws] (C functions and the interpreter loop end and keep the discipline
    themselves; the Lua functions of the heap have the sizes that the parser gives them and,
    when they are vararg functions, at most one fixed parameter, since with more of them the
    stack can overflow, see [vararg_overflow]): [luaD_call] ends, reads and writes only
    inside of the stack and keeps it well formed, for every kind of value that is called
    (functions, values with a __call metamethod, others), every number of arguments and
    results and every size of the stack and of the call infos. Normally the frame of the
    caller runs again, with the wanted number of results from the place of the function
    on; an error leaves frames that can be unwound to the caller's and a value on the
    top, also when an overflow of a stack is handled by error functions that overflow
    again. Which values these are is not said here. *)
Theorem luaD_call_disciplined func nres L w : good L -> base L <= func < top L -> -1 <= nres -> func + nres <= stack_last L ->
  runs (luaD_call func nres) L w
    (fun _ L' _ => back_in (ci L) (callers L) L L' /\ results func nres L')
    (fun e L' _ => e <> 0 /\ unwound (ci L) (callers L) L L').
Proof. intros Hg Hf Hn Hs. apply luaD_call_from; try done. pose proof (g_calls _ Hg). lia. Qed.

(** ** Protected calls *)
Lemma frames_ok_app last extra l : frames_ok last (extra ++ l) -> frames_ok last l.
Proof. induction extra as [|c extra IH]; [done|]. cbn. intros (_ & _ & _ & Hl). by apply IH. Qed.

(** [f] is in the frame of [L], as [luaD_call] is. *)
Definition protected_ok (f : M W unit) (L : lua_State) : Prop := forall w, runs f L w (fun _ L' _ => back_in (ci L) (callers L) L L') (failed (ci L) (callers L) L).

(** The error object of a code, where [L1] is what the error has left, and the heap with it. *)
Definition message (code old_top : Z) (L1 : lua_State) (w : W) : option (tvalue * W) :=
  if code =? LUA_ERRMEM then let (p, w) := luaS_newlstr w (bytes_of_string "not enough memory") in Some (TGC GString p, w)
  else if code =? LUA_ERRERR then let (p, w) := luaS_newlstr w (bytes_of_string "error in error handling") in Some (TGC GString p, w)
  else if (code =? LUA_ERRSYNTAX) || (code =? LUA_ERRRUN) then v ← at_slot (top L1 - 1) (stack L1); Some (v, w)
  else v ← at_slot old_top (stack L1); Some (v, w).
Definition with_message (old_top : Z) (v : tvalue) (L1 : lua_State) : lua_State := with_top (old_top + 1) (with_stack (<[Z.to_nat old_top := v]> (stack L1)) L1).

Lemma with_message_id i v L : at_slot i (stack L) = Some v -> with_message i v L = with_top (i + 1) L.
Proof. intros Hv. unfold at_slot in Hv. destruct (i <? 0); [done|]. unfold with_message. rewrite list_insert_id by done. by destruct L. Qed.
Lemma seterrorobj_ok {B} code oldtop (f : unit -> M W B) L w Q E : 0 <= oldtop < stacksize L -> 1 <= top L <= stacksize L ->
  (forall v w', message code oldtop L w = Some (v, w') -> runs (f tt) (with_message oldtop v L) w' Q E) -> runs (mbind (luaD_seterrorobj code oldtop) f) L w Q E.
Proof.
  intros Ho Ht Hf. unfold luaD_seterrorobj. apply step_assoc, step_state, step_assoc. unfold message in Hf.
  assert (Hset : forall v w', runs (f tt) (with_message oldtop v L) w' Q E -> runs (do^ setobj oldtop v in mbind (upd (with_top (oldtop + 1))) f) L w' Q E).
  { intros v w' Hr. apply runs_setobj; [done|]. by apply step_upd. }
  destruct (code =? LUA_ERRMEM); [apply step_assoc, step_world; destruct (luaS_newlstr w _); by apply step_assoc, step_put, Hset, Hf|].
  destruct (code =? LUA_ERRERR); [apply step_assoc, step_world; destruct (luaS_newlstr w _); by apply step_assoc, step_put, Hset, Hf|].
  destruct (_ || _); [apply step_assoc, runs_slot; [lia|]; intros v Ev; apply Hset, Hf; by rewrite Ev|].
  apply step_ret, step_upd. destruct (at_slot_some oldtop (stack L) Ho) as [v Ev]. rewrite <- (with_message_id _ _ _ Ev). apply Hf. by rewrite Ev.
Qed.

(** A protected call that fails leaves the frame as it was, with the message [v] on top
    of what the error has left. *)
Record recovered (old_top : Z) (v : tvalue) (L1 L L' : lua_State) : Prop := {
  r_callers : callers L' = callers L;
  r_frame : same_frame (ci L) (ci L');
  r_good : good L';
  r_top : top L' = old_top + 1;
  r_stack : stack L' = <[Z.to_nat old_top := v]> (stack L1);
  r_nCcalls : nCcalls L' = nCcalls L;
  r_errfunc : errfunc L' = errfunc L;
  r_allowhook : allowhook L' = allowhook L;
  r_savedpc : savedpc L' = ci_savedpc (ci L');
}.

(** [restoreci] finds the frame again. *)
Lemma restoreci_unwound c rest L L' : unwound c rest L L' -> exists c', same_frame c c' /\
  restoreci (length rest) L' = Some (with_calls c' rest L') /\ frames_ok (stack_last L') (c' :: rest) /\ Z.of_nat (length rest) < size_ci L'.
Proof.
  intros [(extra & c' & E & Hc) Hfr Hcis _ _]. exists c'. split; [done|]. unfold restoreci. assert (length (callers L') = (length extra + length rest)%nat) as El.
  { assert (length (ci L' :: callers L') = length (extra ++ c' :: rest)) as El by (by rewrite E). rewrite length_app in El. cbn in El. lia. }
  destruct (Nat.ltb_spec (length (callers L')) (length rest)); [lia|]. rewrite E. replace (length (callers L') - length rest)%nat with (length extra) by lia.
  rewrite drop_app_length. split; [done|]. split; [|lia]. rewrite E in Hfr. by eapply frames_ok_app.
Qed.

Lemma restore_limit_ok {B} (f : unit -> M W B) L w Q E : good L -> (forall sz, Z.of_nat (length (callers L)) < sz <= 2 * LUAI_MAXCALLS -> runs (f tt) (with_size_ci sz L) w Q E) ->
  runs (mbind restore_stack_limit f) L w Q E.
Proof.
  intros Hg Hf. pose proof (g_cis _ Hg) as Hc. unfold restore_stack_limit. apply step_assoc, step_state.
  assert (runs (f tt) L w Q E) as Hsame by (specialize (Hf (size_ci L) Hc); by replace (with_size_ci (size_ci L) L) with L in Hf by (by destruct L)).
  destruct (Z.ltb_spec LUAI_MAXCALLS (size_ci L)); [|by apply step_ret]. destruct (Z.ltb_spec (Z.of_nat (length (callers L)) + 1) LUAI_MAXCALLS); [|by apply step_ret].
  apply step_upd, Hf. unfold LUAI_MAXCALLS in *. lia.
Qed.

(** What a protected call of [f] makes of what [f] does. *)
Definition protected (f : M W unit) (old_top ef : Z) (L : lua_State) (w : W) (code : Z) (L' : lua_State) (w' : W) : Prop :=
  match f (with_errfunc ef L) w with
  | Some (Ok _, L1, w1) => code = 0 /\ L' = with_errfunc (errfunc L) L1 /\ w' = w1 /\ back_in (ci L) (callers L) L L'
  | Some (Threw e, L1, w1) => code = e /\ code <> 0 /\ exists w2 v, luaF_close old_top L1 w1 = Some w2 /\ message e old_top L1 w2 = Some (v, w') /\ recovered old_top v L1 L L'
  | None => False
  end.
Lemma protected_threw f old_top ef L w e L1 w1 code L' w' : f (with_errfunc ef L) w = Some (Threw e, L1, w1) -> protected f old_top ef L w code L' w' ->
  code = e /\ code <> 0 /\ exists w2 v, luaF_close old_top L1 w1 = Some w2 /\ message e old_top L1 w2 = Some (v, w') /\ recovered old_top v L1 L L'.
Proof. unfold protected. by intros ->. Qed.
Lemma pcall_ok f old_top ef L w : good L -> protected_ok f (with_errfunc ef L) -> 0 <= ef <= stack_last L -> base L <= old_top < stack_last L ->
  runs (luaD_pcall f old_top ef) L w (protected f old_top ef L w) (fun _ _ _ => False).
Proof.
  intros Hg Hf Hef Ho. set (L1 := with_errfunc ef L) in *. pose proof (g_base _ Hg) as Hb. pose proof (g_frames _ Hg) as (Hfr & _).
  unfold luaD_pcall, protected. apply step_state, step_upd. fold L1. specialize (Hf w). unfold runs in Hf. destruct (f L1 w) as [[[[u|code] L2] w2]|] eqn:Ef; [| |done].
  all: eapply step_eq; [unfold luaD_rawrunprotected; rewrite Ef; reflexivity|].
  - destruct Hf as [Hb1 Hb2 Hb3 Hb4 Hb5]. apply step_ret, step_upd, runs_ret. do 3 (split; [done|]). destruct Hb4 as (S1 & S2 & S3 & S4 & S5). change (stacksize L1) with (stacksize L) in S5. split; try done.
    destruct Hb3. split; try done. pose proof (g_errfunc _ Hg) as He. unfold stack_last in *. cbn. change (stacksize (with_errfunc _ L2)) with (stacksize L2). lia.
  - destruct Hf as [Hcode Hu]. change (ci L1) with (ci L) in Hu. change (callers L1) with (callers L) in Hu. assert ((code =? 0) = false) as -> by lia. cbn [negb]. apply step_assoc, step_state, step_assoc.
    pose proof (u_same _ _ _ _ Hu) as (S1 & S2 & S3 & S4 & S5). change (stacksize L1) with (stacksize L) in S5. cbn in S1, S2, S3, S4.
    destruct (close_total old_top L2 w2) as [w3 Ew]. eapply step_eq; [unfold upd_world; rewrite Ew; reflexivity|].
    pose proof (u_top _ _ _ _ Hu) as Hut. unfold stack_last, EXTRA_STACK in *.
    apply step_assoc, seterrorobj_ok; [lia|lia|]. intros v w4 Hv. apply step_assoc, step_upd, step_assoc.
    set (s := <[Z.to_nat old_top := v]> (stack L2)). assert (length s = length (stack L2)) as Hls by apply length_insert.
    assert (stacked L2 (old_top + 1) (with_message old_top v L2)) as Hs by (exists s; split; [done|lia]).
    assert (stacksize (with_message old_top v L2) = stacksize L2) as Ez by (unfold stacksize; cbn; by rewrite length_insert). set (L4 := with_nCcalls _ _).
    assert (unwound (ci L) (callers L) L1 L4) as Hu4.
    { pose proof (stacked_same _ _ _ Hs) as Hss. destruct Hu as [Hu1 Hu2 Hu3 Hu4 Hu5]. assert (stack_last L4 = stack_last L2) as El by (unfold stack_last; change (stacksize L4) with (stacksize (with_message old_top v L2)); lia).
      split; [exact Hu1|rewrite El; exact Hu2|exact Hu3|rewrite El; unfold stack_last, EXTRA_STACK; cbn; lia|by eapply same_thread_trans]. }
    destruct (restoreci_unwound _ _ _ _ Hu4) as (c & Hc & Er & Hfr5 & Hsz5). eapply step_eq; [rewrite Er; reflexivity|]. do 3 apply step_assoc, step_upd.
    set (L5 := with_allowhook _ _). destruct Hc as (Hc1 & Hc2 & Hc3 & Hc4). pose proof (u_cis _ _ _ _ Hu) as Hcis2. pose proof (g_hook _ Hg) as [Hh1 Hh2]. pose proof (g_calls _ Hg) as Hcs.
    assert (stack_last L5 = stack_last L2) as El5 by (unfold stack_last; change (stacksize L5) with (stacksize (with_message old_top v L2)); lia).
    assert (errfunc L5 = ef /\ top L5 = old_top + 1 /\ base L5 = ci_base c /\ size_ci L5 = size_ci L2) as (Ee & Et & Eb & Es) by done.
    assert (good L5) as Hg5.
    { split; rewrite ?El5; [rewrite <- El5; exact Hfr5|rewrite Es; cbn; change (size_ci L4) with (size_ci L2) in Hsz5; lia|done| | |rewrite Ee; unfold stack_last, EXTRA_STACK in *; lia|cbn; by rewrite S3, S4].
      - rewrite Et, Eb. unfold stack_last, EXTRA_STACK in *. lia.
      - cbn. rewrite S1. exact Hcs. }
    apply restore_limit_ok; [exact Hg5|]. intros sz Hsz. apply step_upd, runs_ret. split; [done|]. split; [done|]. exists w3, v. split; [done|]. split; [done|]. split; try done.
    destruct Hg5 as [Hg51 Hg52 Hg53 Hg54 Hg55 Hg56 Hg57]. split; try done. change (0 <= errfunc L <= stack_last L5). pose proof (g_errfunc _ Hg). unfold stack_last, EXTRA_STACK in *. lia.
Qed.

(** C4. Protected calls. On a well formed thread without hooks, for a function that keeps
    the stack discipline ([protected_ok], which [luaD_call] does), [luaD_pcall] ends and
    never throws. If the function returns, the state is the one it has left, with the old
    error function, and the code is 0. If it throws, the code is the one thrown; the
    upvalues from the old top on have been closed; the stack is the one the error has left,
    with the message in the slot of the old top, which is the last value: the value that
    was on the top for a runtime or syntax error, a fixed string for an error of memory or
    of the error handler; the frame, its base, its saved instruction, the counts of calls
    and the error function are as before, and the thread is well formed again. *)
Theorem pcall_recovers f old_top ef L w : good L -> protected_ok f (with_errfunc ef L) -> 0 <= ef <= stack_last L -> base L <= old_top < stack_last L ->
  runs (luaD_pcall f old_top ef) L w (protected f old_top ef L w) (fun _ _ _ => False).
Proof. apply pcall_ok. Qed.
End Stack.
