(* ===== verification/LDoResume.v ===== *)
(** * Coroutines

    What a resume gives to the function that has yielded, the states of a coroutine,
    and a host for which the laws of [LDoProps] hold. *)
From stdpp Require Import base list option.
From Stdlib Require Import ZArith Lia ZifyBool.
From S2P Require Import Prelude LObject LProto LVm LVmProps LDo LDoProps.
#[local] Open Scope Z_scope.

Section Resume.
Context {W : Type} `{Host W}.
Implicit Types (L : lua_State) (w : W).

Lemma mbind_ok {A B} (m : M W A) (f : A -> M W B) L w b L' w' : mbind m f L w = Some (Ok b, L', w') ->
  exists a L1 w1, m L w = Some (Ok a, L1, w1) /\ f a L1 w1 = Some (Ok b, L', w').
Proof. unfold mbind. destruct (m L w) as [[[[a|e] L1] w1]|]; cbn; intros E; [by exists a, L1, w1|done|done]. Qed.

(** A thread that waits in a C function which has yielded: [f] is the function's slot,
    [c] the frame of its caller. *)
Record suspended (L : lua_State) (w : W) (f : nat) (c : CallInfo) (rest : list CallInfo) : Prop := {
  s_status : status L = LUA_YIELD;
  s_func : ci_func (ci L) = Z.of_nat f;
  s_c : exists a, stack L !! f = Some (TGC GFunction a) /\ closure_of w a = Some None;
  s_callers : callers L = c :: rest;
  s_results : -1 <= nresults (ci L) /\ Z.of_nat f + nresults (ci L) <= stacksize L;
  s_top : Z.of_nat f <= top L <= stacksize L;
  s_calls : nCcalls L < LUAI_MAXCCALLS;
  s_hook : hookmask L = 0;
}.

(** The state in which the caller goes on: the [nargs] values on the top have become
    the results of the call that yielded. *)
Definition resumed (nargs f : nat) (c : CallInfo) (rest : list CallInfo) (L : lua_State) : lua_State :=
  let args := drop (Z.to_nat (top L) - nargs) (take (Z.to_nat (top L)) (stack L)) in
  let vals := adjusted (nresults (ci L)) args in
  let L1 := with_baseCcalls (nCcalls L + 1) (with_nCcalls (nCcalls L + 1) (with_status 0 L)) in
  with_top (if nresults (ci L) <? 0 then Z.of_nat (f + length vals) else ci_top c) (with_stack (list_inserts f vals (stack L)) (left_to c rest L1)).

Lemma resume_yielded L w nargs f c rest : suspended L w f c rest -> Z.of_nat f <= top L - Z.of_nat nargs ->
  resume (top L - Z.of_nat nargs) (with_baseCcalls (nCcalls L + 1) (with_nCcalls (nCcalls L + 1) L)) w =
    luaV_execute (Z.of_nat (length rest)) (resumed nargs f c rest L) w.
Proof.
  intros [Hst Hf (a & Ha & Hcl) Hc [Hn1 Hn2] Ht Hcs Hh] Hr. unfold stacksize in *. unfold resume. set (L0 := with_baseCcalls _ _).
  rewrite (mbind_eq state _ L0 w L0 L0 w eq_refl). assert (status L0 = 1) as -> by (exact Hst). change (1 =? 0) with false. cbv iota.
  set (L1 := with_status 0 L0).
  assert (luaD_poscall (top L - Z.of_nat nargs) L1 w = Some (Ok (nresults (ci L) + 1), with_top (Z.of_nat (f + length (adjusted (nresults (ci L)) (drop (Z.to_nat (top L) - nargs) (take (Z.to_nat (top L)) (stack L))))))
    (with_stack (list_inserts f (adjusted (nresults (ci L)) (drop (Z.to_nat (top L) - nargs) (take (Z.to_nat (top L)) (stack L)))) (stack L)) (left_to c rest L1)), w)) as Ep.
  { replace (top L - Z.of_nat nargs) with (Z.of_nat (Z.to_nat (top L) - nargs)) by lia.
    apply (poscall_eq f (Z.to_nat (top L) - nargs) (Z.to_nat (top L)) L1 w c rest Hh Hc Hf); cbn; lia. }
  assert (slot (ci_func (ci L0)) L1 w = Some (Ok (TGC GFunction a), L1, w)) as Es by (change (ci L0) with (ci L); rewrite Hf; by apply slot_nat).
  unfold resumed. set (vals := adjusted _ _) in *. fold L1 in Ep |- *.
  set (R := with_top (if nresults (ci L) <? 0 then _ else _) _).
  rewrite (mbind_eq _ _ L0 w true R w); [reflexivity|].
  rewrite (mbind_eq (upd (with_status 0)) _ L0 w tt L1 w eq_refl). rewrite (mbind_eq _ _ _ _ _ _ _ Es).
  erewrite (mbind_eq (fun L w => b ← f_isLua w (TGC GFunction a); Some (Ok b, L, w))); [|cbn; rewrite Hcl; reflexivity]. cbn [negb].
  rewrite (mbind_eq _ _ L1 w tt R w); [reflexivity|]. rewrite (mbind_eq _ _ _ _ _ _ _ Ep). unfold R. destruct (Z.ltb_spec (nresults (ci L)) 0).
  - assert ((nresults (ci L) + 1 =? 0) = true) as -> by lia. reflexivity.
  - assert ((nresults (ci L) + 1 =? 0) = false) as -> by lia. reflexivity.
Qed.

(** C9. Resuming a coroutine that has yielded turns the [nargs] values on its top into
    the results of the call that yielded, cut off or filled with nil as its caller
    wants, and the caller goes on behind it. *)
Theorem resume_delivers_args L w nargs f c rest L2 w2 : suspended L w f c rest -> Z.of_nat f <= top L - Z.of_nat nargs ->
  luaV_execute (Z.of_nat (length rest)) (resumed nargs f c rest L) w = Some (Ok tt, L2, w2) ->
  lua_resume (Z.of_nat nargs) L w = Some (Ok (status L2), with_nCcalls (nCcalls L2 - 1) L2, w2).
Proof.
  intros Hs Hr He. pose proof (resume_yielded L w nargs f c rest Hs Hr) as E. rewrite He in E. destruct Hs as [Hst _ _ _ _ _ Hcs _].
  unfold lua_resume. rewrite (mbind_eq state _ L w L L w eq_refl). rewrite Hst. change (negb (LUA_YIELD =? LUA_YIELD)) with false. cbn [andb].
  destruct (Z.leb_spec LUAI_MAXCCALLS (nCcalls L)); [lia|]. erewrite mbind_eq; [|reflexivity]. erewrite mbind_eq; [|unfold luaD_rawrunprotected; rewrite E; reflexivity].
  reflexivity.
Qed.

Lemma lua_resume_refused n L w : status L <> LUA_YIELD -> status L <> 0 -> lua_resume n L w = resume_error "cannot resume non-suspended coroutine" L w.
Proof.
  intros H1 H2. unfold lua_resume. rewrite (mbind_eq state _ L w L L w eq_refl). unfold LUA_YIELD in *.
  assert (negb (status L =? 1) && (negb (status L =? 0) || negb (bool_decide (callers L = []))) = true) as -> by lia. done.
Qed.

Lemma setobj_status i v L w L' w' : setobj i v L w = Some (Ok tt, L', w') -> status L' = status L.
Proof. unfold setobj. destruct (write_slot i v (stack L)); cbn; intros E; [|done]. by injection E as <- _. Qed.
Lemma seterrorobj_status e oldtop L w L' w' : luaD_seterrorobj e oldtop L w = Some (Ok tt, L', w') -> status L' = status L.
Proof.
  unfold luaD_seterrorobj. rewrite (mbind_eq state _ L w L L w eq_refl). intros E. apply mbind_ok in E as ([] & L1 & w1 & E1 & E2).
  assert (status L1 = status L) as <-; [|unfold upd in E2; by injection E2 as <- _]. clear E2.
  destruct (e =? LUA_ERRMEM); [|destruct (e =? LUA_ERRERR); [|destruct (_ || _)]].
  - rewrite (mbind_eq the_world _ L w w L w eq_refl) in E1. destruct (luaS_newlstr w _). apply mbind_ok in E1 as ([] & L2 & w2 & E2 & E1). injection E2 as <- <-. by eapply setobj_status.
  - rewrite (mbind_eq the_world _ L w w L w eq_refl) in E1. destruct (luaS_newlstr w _). apply mbind_ok in E1 as ([] & L2 & w2 & E2 & E1). injection E2 as <- <-. by eapply setobj_status.
  - apply mbind_ok in E1 as (v & L2 & w2 & E2 & E1). apply setobj_status in E1 as ->. unfold slot in E2. destruct (at_slot _ _); cbn in E2; [|done]. by injection E2 as _ <- _.
  - by injection E1 as <- _.
Qed.

(** The refusal of a resume: the message at the base of the frame, and the rest as it was. *)
Definition refusal : string := "cannot resume non-suspended coroutine".
Lemma resume_error_eq msg L w : 0 <= ci_base (ci L) <= stack_last L -> let (p, w') := luaS_newlstr w (bytes_of_string msg) in
  exists L', resume_error msg L w = Some (Ok LUA_ERRRUN, L', w') /\ stacked L (ci_base (ci L) + 1) L' /\ at_slot (ci_base (ci L)) (stack L') = Some (TGC GString p).
Proof.
  intros Hb. destruct (luaS_newlstr w (bytes_of_string msg)) as [p w'] eqn:Es. unfold resume_error. set (b := ci_base (ci L)) in *.
  rewrite (mbind_eq _ _ L w tt (with_top b L) w eq_refl). set (L1 := with_top b L).
  pose proof (Z2Nat.id b ltac:(lia)) as Eb. assert (Z.to_nat b < length (stack L))%nat as Hlt by (unfold stack_last, stacksize, EXTRA_STACK in *; lia).
  set (s := <[Z.to_nat b := TGC GString p]> (stack L)). assert (s !! Z.to_nat b = Some (TGC GString p)) as Ev by (by apply list_lookup_insert_eq).
  assert (exists ext, push_string msg L1 w = Some (Ok tt, with_top (b + 1) (with_stack (s ++ ext) L1), w')) as [ext Ep].
  { unfold push_string. rewrite (mbind_eq state _ L1 w L1 L1 w eq_refl). rewrite (mbind_eq the_world _ L1 w w L1 w eq_refl). rewrite Es.
    rewrite (mbind_eq _ _ L1 w tt L1 w' eq_refl). rewrite (mbind_eq _ _ L1 w' tt (with_stack s L1) w').
    2:{ change (top L1) with b. rewrite <- Eb. by apply setobj_nat. }
    unfold incr_top. set (L2 := with_stack s L1). assert (exists ext, luaD_checkstack 1 L2 w' = Some (Ok tt, with_stack (s ++ ext) L2, w')) as [ext E].
    { unfold luaD_checkstack. rewrite (mbind_eq state _ L2 w' L2 L2 w' eq_refl). destruct (_ <=? 1); [|exists []; by rewrite app_nil_r].
      assert (forall n, stacksize L2 <= n -> exists ext, luaD_reallocstack n L2 w' = Some (Ok tt, with_stack (s ++ ext) L2, w')) as Hre.
      { intros n Hn. eexists. unfold luaD_reallocstack, upd. rewrite resize_ge by (unfold stacksize, EXTRA_STACK in *; lia). reflexivity. }
      unfold luaD_growstack. rewrite (mbind_eq state _ L2 w' L2 L2 w' eq_refl). destruct (_ <=? _); apply Hre; unfold stacksize; lia. }
    exists ext. by rewrite (mbind_eq _ _ _ _ _ _ _ E). }
  rewrite (mbind_eq _ _ _ _ _ _ _ Ep). eexists. split; [reflexivity|]. split.
  - exists (s ++ ext). split; [done|]. rewrite length_app. unfold s. rewrite length_insert. lia.
  - cbn [stack with_top with_stack]. apply at_slot_app. unfold at_slot. destruct (Z.ltb_spec b 0); [lia|done].
Qed.

(** C10. A coroutine that ends with an error stays dead. Its status is the error code; and
    from then on, whatever is pushed on its stack or taken off in between, every resume
    with any number of arguments is refused: it ends without running anything, with the code of
    a runtime error and the message "cannot resume non-suspended coroutine" as the only
    value of the frame, and leaves the status and all of the thread but its stack as they
    were, so that the next resume is refused again, and so on. (The frame that has failed
    has its base inside of the stack.) *)
Theorem coroutine_dies nargs L w code L' w' : status L = LUA_YIELD \/ status L = 0 /\ callers L = [] -> nCcalls L < LUAI_MAXCCALLS ->
  lua_resume nargs L w = Some (Ok code, L', w') -> code <> 0 -> code <> LUA_YIELD -> 0 <= ci_base (ci L') <= stack_last L' ->
  status L' = code /\ forall t L2, stacked L' t L2 -> forall n w2, let (p, w3) := luaS_newlstr w2 (bytes_of_string refusal) in
    exists L3, lua_resume n L2 w2 = Some (Ok LUA_ERRRUN, L3, w3) /\ stacked L' (ci_base (ci L3) + 1) L3 /\ status L3 = code /\
      at_slot (ci_base (ci L3)) (stack L3) = Some (TGC GString p).
Proof.
  intros Hst Hcs Hres Hc0 Hc1 Hbase. enough (status L' = code) as Hs.
  { split; [done|]. intros t L2 Hst2 n w2. assert (status L2 = code /\ ci L2 = ci L' /\ stack_last L' <= stack_last L2) as (Hs2 & Hci & Hl2).
    { pose proof (stacked_size _ _ _ Hst2). destruct Hst2 as (s & -> & _). split; [exact Hs|]. split; [done|]. unfold stack_last in *. lia. }
    rewrite lua_resume_refused by congruence. fold refusal. pose proof (resume_error_eq refusal L2 w2 ltac:(rewrite Hci; lia)) as He.
    destruct (luaS_newlstr w2 _) as [p w3]. destruct He as (L3 & -> & Hst3 & Hv). exists L3. split; [done|].
    assert (ci L3 = ci L2 /\ status L3 = status L2) as [Hci3 Hs3] by (destruct Hst3 as (s & -> & _); done). rewrite Hci3.
    split; [by eapply stacked_trans|]. split; [congruence|exact Hv]. }
  unfold lua_resume in Hres. rewrite (mbind_eq state _ L w L L w eq_refl) in Hres. unfold LUA_YIELD in *.
  assert (negb (status L =? 1) && (negb (status L =? 0) || negb (bool_decide (callers L = []))) = false) as E.
  { destruct Hst as [->|[-> ->]]; [done|]. by rewrite bool_decide_eq_true_2. }
  rewrite E in Hres. clear E. destruct (Z.leb_spec LUAI_MAXCCALLS (nCcalls L)); [lia|].
  apply mbind_ok in Hres as ([] & L1 & w1 & _ & Hres). apply mbind_ok in Hres as (e & L2 & w2 & _ & Hres). rewrite (mbind_eq state _ L2 w2 L2 L2 w2 eq_refl) in Hres.
  apply mbind_ok in Hres as (r & L3 & w3 & Hres & Hend). unfold mbind, upd, mret in Hend. cbn in Hend. injection Hend as -> <- <-. cbn [status with_nCcalls].
  destruct (negb (e =? 0)) eqn:Ee.
  - rewrite (mbind_eq (upd (with_status e)) _ L2 w2 tt (with_status e L2) w2 eq_refl) in Hres. apply mbind_ok in Hres as ([] & L4 & w4 & Hset & Hres).
    unfold mbind, upd, mret in Hres. cbn in Hres. injection Hres as <- <- <-. cbn. apply (seterrorobj_status e (top L2) (with_status e L2) w2 L4 w4 Hset).
  - unfold mret in Hres. by injection Hres as <- <- <-.
Qed.
End Resume.

(** ** A host *)
Module OneFunction.
(** A world without state: no table has anything in it, and calls of metamethods are not needed. *)
#[export] Instance world : LuaState unit := {
  getstr _ _ := [];
  luaS_newlstr w _ := (7, w);
  tmname _ := TNil;
  luaH_get _ _ _ := TNil;
  luaH_set w _ _ := lret (TNil, w);
  set_slot w _ _ _ := w;
  luaH_getn _ _ := 0;
  luaH_new w _ _ := (1, w);
  luaH_presize w _ _ := w;
  metatable _ _ := None;
  type_metatable _ _ := None;
  upval _ _ := None;
  set_upval _ _ _ := None;
  luaD_call w s _ _ _ := lret ([], s, w);
  luaG_typeerror _ _ op := op;
  luaO_str2d _ := None;
  lua_number2str _ := [];
  strcoll _ _ := 0;
  luai_numpow x _ := x;
}.
(** The function at 1 is a Lua function of the prototype, the others are C functions;
    all return nothing. *)
Definition no_loop (p : Proto) : Host unit := {|
  closure_of _ a := Some (if a =? 1 then Some p else None);
  c_function _ := mret 0;
  luaV_execute _ := undefined;
  hook_function _ _ := mret tt;
  luaF_close _ _ w := Some w;
  position_info _ _ := "";
  junk := TNil;
|}.
Definition host (p : Proto) : Host unit := {|
  closure_of _ a := Some (if a =? 1 then Some p else None);
  c_function _ := mret 0;
  luaV_execute _ := let^ L := state in let^ _ := luaD_poscall (H0 := no_loop p) (top L) in mret tt;
  hook_function _ _ := mret tt;
  luaF_close _ _ w := Some w;
  position_info _ _ := "";
  junk := TNil;
|}.

Lemma host_laws p : proto_ok p -> @HostLaws unit world (host p).
Proof.
  intros Hp. pose (h := host p). split; try done.
  - intros w a q E. cbn in E. destruct (a =? 1); [|done]. by injection E as <-.
  - intros w h' i. exists TNil, w. reflexivity.
  - intros w h' a. exists TNil, w. reflexivity.
  - intros a L w Hg. cbn. split; [|pose proof (g_top _ Hg); lia]. eapply stacked_back; [apply stacked_refl|done|apply Hg].
  - intros L w c rest Hg Hcs Hc Hn Hl. pose proof (g_frames _ Hg) as (Hf & _). pose proof (g_base _ Hg). pose proof (g_top _ Hg).
    cbn [luaV_execute host]. apply step_state.
    eapply runs_bind; [eapply runs_mono; [eapply (poscall_ok (H0 := no_loop p) L w c rest (top L) Hg Hc Hn Hl); lia|cbn; intros b L' w' Hq; exact Hq|done]|].
    intros b L' w' (_ & Hb & Hr). apply runs_ret. by split.
Qed.

Definition proto (nparams vararg size : Z) : Proto := MkProto None 0 0 0 nparams vararg size [] [] [] [] [] [].
(** The function on the stack of a new thread, with [args]. *)
Definition thread (func : tvalue) (args : list tvalue) : lua_State :=
  let L := luaE_newthread (H0 := host (proto 0 0 1)) false 0 in
  with_top (Z.of_nat (2 + length args)) (with_stack (list_inserts 1 (func :: args) (stack L)) L).
End OneFunction.
Import OneFunction.

(** A vararg function with many fixed parameters and few arguments moves more values
    than [luaD_precall] has made room for. *)
Lemma vararg_overflow : luaD_call (H0 := host (proto 30 2 31)) 1 0 (thread (TGC GFunction 1) []) tt = None.
Proof. by vm_compute. Qed.

Lemma thread_good args : (length args <= 20)%nat -> good (thread (TGC GFunction 1) args).
Proof.
  intros Ha. assert (stack_last (thread (TGC GFunction 1) args) = 39) as E.
  { unfold stack_last, stacksize, thread. cbn [stack with_top with_stack]. by rewrite length_inserts. }
  split; rewrite ?E; cbn; try lia; vm_compute; repeat split; discriminate.
Qed.

(** ** The theorems at work *)
#[local] Existing Instance host.
Lemma small_ok : proto_ok (proto 2 0 2).
Proof. split_and!; cbn; try lia; done. Qed.

(** One argument for two parameters, and one result of none. *)
Lemma luaD_call_disciplined_witness : match luaD_call (H0 := host (proto 2 0 2)) 1 1 (thread (TGC GFunction 1) [TBoolean true]) tt with
  | Some (Ok _, L', _) => top L' = 2 /\ stack L' !! 1%nat = Some TNil /\ good L'
  | _ => False
  end.
Proof.
  pose proof (thread_good [TBoolean true] ltac:(cbn; lia)) as Hg.
  pose proof (@luaD_call_disciplined unit world (host (proto 2 0 2)) (host_laws _ small_ok) 1 1 (thread (TGC GFunction 1) [TBoolean true]) tt Hg
    ltac:(vm_compute; split; [discriminate|reflexivity]) ltac:(lia) ltac:(vm_compute; discriminate)) as Hr.
  apply runs_inv in Hr as (o & L' & w' & Eq & Hq).
  assert (match luaD_call (H0 := host (proto 2 0 2)) 1 1 (thread (TGC GFunction 1) [TBoolean true]) tt with
    | Some (Ok _, L', _) => bool_decide (top L' = 2 /\ stack L' !! 1%nat = Some TNil) | _ => false end = true) as Hc by (vm_compute; reflexivity).
  rewrite Eq in *. destruct o as [u|e]; [|discriminate Hc]. apply bool_decide_eq_true in Hc as [Hc1 Hc2]. destruct Hq as [Hb _].
  split; [exact Hc1|]. split; [exact Hc2|exact (b_good _ _ _ _ Hb)].
Defined.

(** A number is called: the message, string 7, is left on the stack. *)
Lemma pcall_recovers_witness : exists L1 L', luaD_pcall (H0 := host (proto 2 0 2)) (luaD_call (H0 := host (proto 2 0 2)) 1 0) 1 0 (thread (TNumber 0) []) tt = Some (Ok LUA_ERRRUN, L', tt) /\
  recovered 1 (TGC GString 7) L1 (thread (TNumber 0) []) L'.
Proof.
  assert (good (thread (TNumber 0) [])) as Hg by (split; vm_compute; repeat split; try discriminate; auto).
  pose proof (host_laws _ small_ok) as Hl.
  assert (@protected_ok unit (luaD_call (H0 := host (proto 2 0 2)) 1 0) (with_errfunc 0 (thread (TNumber 0) []))) as Hp.
  { intros w. eapply runs_mono; [apply (luaD_call_from (H0 := host (proto 2 0 2))); [exact Hg|vm_compute; split; [discriminate|reflexivity]|lia|vm_compute; discriminate|vm_compute; discriminate]|cbn; tauto|done]. }
  pose proof (@pcall_recovers unit world (host (proto 2 0 2)) Hl _ 1 0 (thread (TNumber 0) []) tt Hg Hp ltac:(vm_compute; split; discriminate) ltac:(vm_compute; split; [discriminate|reflexivity])) as Hr.
  assert (exists L1, luaD_call (H0 := host (proto 2 0 2)) 1 0 (with_errfunc 0 (thread (TNumber 0) [])) tt = Some (Threw LUA_ERRRUN, L1, tt) /\
    at_slot (top L1 - 1) (stack L1) = Some (TGC GString 7)) as (L1 & E1 & Hv) by (eexists; split; [vm_compute; reflexivity|reflexivity]).
  apply runs_inv in Hr as (o & L' & [] & Eq & Hq). destruct o as [code|e]; [|destruct Hq].
  pose proof (protected_threw (H0 := host (proto 2 0 2)) _ _ _ _ _ _ _ _ _ _ _ E1 Hq) as (Ecode & _ & w2 & v & _ & Hm & Hrec). subst code. unfold message in Hm. change (LUA_ERRRUN =? LUA_ERRMEM) with false in Hm. change (LUA_ERRRUN =? LUA_ERRERR) with false in Hm.
  assert (v = TGC GString 7) as -> by (apply (f_equal (fmap fst)) in Hm; cbn in Hm; rewrite Hv in Hm; cbn in Hm; by injection Hm).
  exists L1, L'. split; [exact Eq|exact Hrec].
Defined.

(** A coroutine whose function is a number ends with an error, and is not resumed again, nor after that. *)
Lemma coroutine_dies_witness : exists L' L3 L4, lua_resume (H0 := host (proto 2 0 2)) 0 (thread (TNumber 0) []) tt = Some (Ok LUA_ERRRUN, L', tt) /\
  lua_resume (H0 := host (proto 2 0 2)) 0 L' tt = Some (Ok LUA_ERRRUN, L3, tt) /\ lua_resume (H0 := host (proto 2 0 2)) 0 L3 tt = Some (Ok LUA_ERRRUN, L4, tt) /\ status L4 = LUA_ERRRUN.
Proof.
  pose proof (@coroutine_dies unit world (host (proto 2 0 2)) 0 (thread (TNumber 0) []) tt) as Hd.
  assert (match lua_resume (H0 := host (proto 2 0 2)) 0 (thread (TNumber 0) []) tt with Some (Ok code, L', _) => bool_decide (code = 2 /\ 0 <= ci_base (ci L') <= stack_last L') | _ => false end = true) as Hc by (vm_compute; reflexivity).
  destruct (lua_resume 0 (thread (TNumber 0) []) tt) as [[[[code|e] L'] []]|]; [|discriminate Hc..]. apply bool_decide_eq_true in Hc as [-> Hb].
  destruct (Hd 2 L' tt (or_intror (conj eq_refl eq_refl)) ltac:(vm_compute; reflexivity) eq_refl ltac:(discriminate) ltac:(discriminate) Hb) as [_ Hlater].
  destruct (Hlater (top L') L' (stacked_refl L') 0 tt) as (L3 & E3 & Hst3 & _). destruct (Hlater _ L3 Hst3 0 tt) as (L4 & E4 & _ & Hs4 & _).
  exists L', L3, L4. split; [reflexivity|]. split; [exact E3|]. split; [exact E4|exact Hs4].
Defined.

(** A Lua function at 1 waits for two results of the C function at 2, and gets three. *)
Definition waiting_thread : lua_State :=
  let L := thread (TGC GFunction 1) [TGC GFunction 2; TNumber 5; TNumber 6; TNumber 8] in
  with_status LUA_YIELD (with_calls (Ci 3 2 20 0 2 0) [Ci 2 1 10 4 1 0; ci L] L).
Lemma resume_delivers_args_witness : exists L2, lua_resume (H0 := host (proto 2 0 2)) 3 waiting_thread tt = Some (Ok 0, L2, tt) /\
  stack L2 !! 2%nat = Some (TNumber 5) /\ stack L2 !! 3%nat = Some (TNumber 6).
Proof.
  assert (exists L2, @luaV_execute unit world (host (proto 2 0 2)) 1 (resumed 3 2 (Ci 2 1 10 4 1 0) [ci (thread TNil [])] waiting_thread) tt = Some (Ok tt, L2, tt) /\
    bool_decide (status L2 = 0 /\ stack L2 !! 2%nat = Some (TNumber 5) /\ stack L2 !! 3%nat = Some (TNumber 6)) = true) as (L2 & He & Hb).
  { eexists. split; vm_compute; reflexivity. }
  apply bool_decide_eq_true in Hb as (Hs & Hb2 & Hb3). exists (with_nCcalls (nCcalls L2 - 1) L2). split; [|exact (conj Hb2 Hb3)].
  assert (@suspended unit world (host (proto 2 0 2)) waiting_thread tt 2 (Ci 2 1 10 4 1 0) [ci (thread TNil [])]) as Hw.
  { split; try (vm_compute; repeat split; discriminate); try reflexivity. exists 2. split; reflexivity. }
  assert (Z.of_nat 2 <= top waiting_thread - Z.of_nat 3) as Ht by (vm_compute; discriminate).
  pose proof (@resume_delivers_args unit world (host (proto 2 0 2)) waiting_thread tt 3 2 (Ci 2 1 10 4 1 0) [ci (thread TNil [])] L2 tt Hw Ht He) as Hr.
  rewrite Hs in Hr. exact Hr.
Defined.
