(* ===== verification/LApi.v ===== *)
(** * The C interface (src/lua/lapi.c)

    The functions C code uses on the stack of a thread: positions as indices, pushes,
    conversions, tables, calls. What is behind the pseudo-indices, closures, metatables
    and userdata are the heap's, an interface of its own ([ApiHeap]); operations of [LVm]
    run on the slots of the running function. The assertions of [api_check] are not
    compiled in, so what they would catch is [None] as far as it is undefined. *)
From stdpp Require Import base list option.
From Stdlib Require Import ZArith Lia Floats.SpecFloat.
From S2P Require Import Prelude LObject LNum LProto LVm LDo.
#[local] Open Scope Z_scope.

Definition LUA_REGISTRYINDEX : Z := -10000.
Definition LUA_ENVIRONINDEX : Z := -10001.
Definition LUA_GLOBALSINDEX : Z := -10002.
Definition LUA_TNONE : Z := -1.
Definition LUAI_MAXCSTACK : Z := 8000.

(** [lua_Integer] is [ptrdiff_t], of 64 bits: [(lua_Integer)(d)] truncates, and gives the
    smallest integer out of range; the double of an integer is rounded. *)
Definition lua_number2integer (n : Z) : Z :=
  let e := (n / 2 ^ 52) mod 2048 in
  let m := n mod 2 ^ 52 + 2 ^ 52 in
  if e <? 1023 then 0
  else if 1086 <=? e then - 2 ^ 63
  else let v := if e <=? 1075 then m / 2 ^ (1075 - e) else m * 2 ^ (e - 1075) in
       if num_sign <=? n then - v else v.
Definition integer_num (n : Z) : Z := num_of_sf (binary_normalize prec emax n 0 false).

(** The heap, as far as lapi.c looks into it. Closures, userdata and threads are their
    addresses; [error_world] is the heap behind an operation of [LVm] that raised an error. *)
Class ApiHeap (W : Type) `{Host W} := {
  l_registry : W -> tvalue;
  l_gt : W -> tvalue;
  set_gt : tvalue -> W -> W;
  set_registry : tvalue -> W -> W;
  closure_env : W -> Z -> option Z;
  set_closure_env : Z -> Z -> W -> option W;
  c_upvalues : W -> Z -> option (list tvalue);               (* of a C function *)
  set_c_upvalue : Z -> Z -> tvalue -> W -> option W;
  lua_upvalue : W -> Z -> Z -> option (bytes * tvalue);      (* of a Lua function: its name, and [*upvals[n-1]->v] *)
  set_lua_upvalue : Z -> Z -> tvalue -> W -> option W;
  c_pointer : W -> Z -> option Z;                            (* [clvalue(o)->c.f] of a C function *)
  luaF_newCclosure : Z -> list tvalue -> Z -> W -> Z * W;
  set_metatable : Z -> option Z -> W -> W;                   (* of a table or userdata *)
  set_type_metatable : tvalue -> option Z -> W -> W;
  luaH_next : W -> Z -> tvalue -> LuaM (option (tvalue * tvalue));
  udata_len : W -> Z -> Z;
  udata_env : W -> Z -> Z;
  set_udata_env : Z -> Z -> W -> W;
  luaS_newudata : Z -> Z -> W -> Z * W;                      (* of a size and an environment *)
  thread_gt : W -> Z -> tvalue;
  set_thread_gt : Z -> tvalue -> W -> W;
  luaE_new : W -> Z * W;                                     (* the address of a new thread *)
  error_world : string -> W -> W;
}.

Section Lapi.
Context {W : Type} `{ApiHeap W}.
Notation M := (M W).

(** ** Access *)
(** Where an index leads. *)
Inductive place := Slot (i : Z) | Registry | Environ | Globals | Upvalue (f n : Z) | NilObject.

(** [curr_func(L)] *)
Definition curr_func : M Z :=
  let^ L := state in let^ f := slot (ci_func (ci L)) in match f with TGC GFunction a => mret a | _ => undefined end.
Definition lift {A} (o : option A) : M A := fun L w => a ← o; Some (Ok a, L, w).

Definition index2adr (idx : Z) : M place :=
  let^ L := state in
  if 0 <? idx then
    let o := base L + (idx - 1) in
    if top L <=? o then mret NilObject else mret (Slot o)
  else if LUA_REGISTRYINDEX <? idx then mret (Slot (top L + idx))
  else if idx =? LUA_REGISTRYINDEX then mret Registry
  else if idx =? LUA_ENVIRONINDEX then mret Environ
  else if idx =? LUA_GLOBALSINDEX then mret Globals
  else
    let^ f := curr_func in
    let^ w := the_world in
    let^ up := lift (c_upvalues w f) in
    let idx := LUA_GLOBALSINDEX - idx in
    if idx <=? Z.of_nat (length up) then mret (Upvalue f idx) else mret NilObject.

(** The value at a place. *)
Definition deref (p : place) : M tvalue :=
  let^ w := the_world in
  match p with
  | Slot i => slot i
  | Registry => mret (l_registry w)
  | Globals => mret (l_gt w)
  | Environ => let^ f := curr_func in let^ e := lift (closure_env w f) in mret (TGC GTable e)
  | Upvalue f n => lift (up ← c_upvalues w f; up !! Z.to_nat (n - 1))
  | NilObject => mret TNil
  end.
Definition value_at (idx : Z) : M tvalue := let^ p := index2adr idx in deref p.
Definition is_none (p : place) : bool := match p with NilObject => true | _ => false end.

(** The value [L->top - n]. *)
Definition top_value (n : Z) : M tvalue := let^ L := state in slot (top L - n).
Definition pop (n : Z) : M unit := upd (fun L => with_top (top L - n) L).

Definition getcurrenv : M Z :=
  let^ L := state in
  let^ w := the_world in
  if bool_decide (callers L = []) then match l_gt w with TGC GTable h => mret h | _ => undefined end
  else let^ f := curr_func in lift (closure_env w f).

Definition luaA_pushobject (o : tvalue) : M unit := push o.

Definition lua_checkstack (size : Z) : M bool :=
  let^ L := state in
  if (LUAI_MAXCSTACK <? size) || (LUAI_MAXCSTACK <? top L - base L + size) then mret false
  else if 0 <? size then
    do^ luaD_checkstack size in
    let^ L := state in
    do^ (if ci_top (ci L) <? top L + size then upd_ci (set_ci_top (top L + size)) else mret tt) in
    mret true
  else mret true.

(** Between two threads: the values go from the one to the other. *)
Fixpoint xmove_loop (n : nat) (i : Z) (from to : lua_State) : option lua_State :=
  match n with
  | O => Some to
  | S n => v ← at_slot (top from + i) (stack from); s ← write_slot (top to) v (stack to);
           xmove_loop n (i + 1) from (with_top (top to + 1) (with_stack s to))
  end.
Definition lua_xmove (from to : lua_State) (n : Z) : option (lua_State * lua_State) :=
  let from := with_top (top from - n) from in
  to ← xmove_loop (Z.to_nat n) 0 from to; Some (from, to).
Definition lua_setlevel (from to : lua_State) : lua_State := with_nCcalls (nCcalls from) to.

Definition lua_newthread : M lua_State :=
  let^ L := state in
  let^ a := fun L w => let (a, w) := luaE_new w in Some (Ok a, L, w) in
  do^ push (TGC GThread a) in
  mret (luaE_newthread (hook L) (hookmask L)).

(** ** Basic stack manipulation *)
Definition lua_gettop : M Z := let^ L := state in mret (top L - base L).

Definition lua_settop (idx : Z) : M unit :=
  let^ L := state in
  if 0 <=? idx then
    do^ push_nils (Z.to_nat (base L + idx - top L)) in
    upd (fun L => with_top (base L + idx) L)
  else upd (with_top (top L + (idx + 1))).

Definition slot_of (p : place) : M Z := match p with Slot i => mret i | _ => undefined end.

(** [while (++p < L->top) setobjs2s(L, p-1, p)] *)
Fixpoint shift_down (n : nat) (p : Z) : M unit :=
  match n with O => mret tt | S n => let^ v := slot (p + 1) in do^ setobj p v in shift_down n (p + 1) end.
Definition lua_remove (idx : Z) : M unit :=
  let^ p := index2adr idx in
  let^ p := slot_of p in
  let^ L := state in
  do^ shift_down (Z.to_nat (top L - (p + 1))) p in
  pop 1.

(** [open_hole] is the loop of [tryfuncTM] too. *)
Definition lua_insert (idx : Z) : M unit :=
  let^ p := index2adr idx in
  let^ p := slot_of p in
  let^ L := state in
  do^ open_hole (Z.to_nat (top L - p)) (top L) in
  let^ v := slot (top L) in
  setobj p v.

Definition lua_replace (idx : Z) : M unit :=
  let^ L := state in
  do^ (if (idx =? LUA_ENVIRONINDEX) && bool_decide (callers L = []) then luaG_runerror luaD_call "no calling environment" else mret tt) in
  let^ o := index2adr idx in
  let^ v := top_value 1 in
  do^ match o with
      | Environ =>
          let^ f := curr_func in
          match v with TGC GTable h => upd_world (set_closure_env f h) | _ => undefined end
      | Slot i => setobj i v
      | Registry => upd_world (fun w => Some (set_registry v w))
      | Globals => upd_world (fun w => Some (set_gt v w))
      | Upvalue f n => upd_world (set_c_upvalue f n v)
      | NilObject => undefined
      end in
  pop 1.

Definition lua_pushvalue (idx : Z) : M unit := let^ v := value_at idx in push v.

(** ** Access functions *)
Definition lua_type (idx : Z) : M Z := let^ p := index2adr idx in if is_none p then mret LUA_TNONE else let^ o := deref p in mret (ttype o).
Definition lua_typename (t : Z) : option string :=
  if t =? LUA_TNONE then Some "no value"%string
  else ["nil"; "boolean"; "userdata"; "number"; "string"; "table"; "function"; "userdata"; "thread"]%string !! Z.to_nat t.
Definition iscfunction (w : W) (o : tvalue) : bool :=
  match o with TGC GFunction a => match closure_of w a with Some None => true | _ => false end | _ => false end.
Definition lua_iscfunction (idx : Z) : M bool := let^ o := value_at idx in let^ w := the_world in mret (iscfunction w o).
Definition tonumber (w : W) (o : tvalue) : option Z := luaV_tonumber w o.
Definition lua_isnumber (idx : Z) : M bool := let^ o := value_at idx in let^ w := the_world in mret (bool_decide (is_Some (tonumber w o))).
Definition lua_isstring (idx : Z) : M bool := let^ t := lua_type idx in mret ((t =? 4) || (t =? 3)).
Definition lua_isuserdata (idx : Z) : M bool :=
  let^ o := value_at idx in mret (match o with TGC GUserdata _ | TLightUserData _ => true | _ => false end).
Definition lua_rawequal (index1 index2 : Z) : M bool :=
  let^ o1 := index2adr index1 in
  let^ o2 := index2adr index2 in
  if is_none o1 || is_none o2 then mret false
  else let^ v1 := deref o1 in let^ v2 := deref o2 in mret (luaO_rawequalObj v1 v2).

(** An operation of [LVm] on the slots of the running function, which it may write. *)
Definition frame_values (L : lua_State) : list tvalue := take (Z.to_nat (top L - base L)) (drop (Z.to_nat (base L)) (stack L)).
Definition vm {A} (m : W -> registers -> LuaM (A * registers * W)) : M A := fun L w =>
  match m w (frame_values L) with
  | Some (Return (a, s, w)) => Some (Ok a, with_stack (list_inserts (Z.to_nat (base L)) s (stack L)) L, w)
  | Some (Error msg) => luaG_runerror luaD_call msg L (error_world msg w)
  | None => None
  end.
Definition vm_ (m : W -> registers -> LuaM (registers * W)) : M unit := vm (fun w s => let* (s, w) := m w s in lret (tt, s, w)).

Definition lua_compare (f : W -> registers -> tvalue -> tvalue -> LuaM (bool * registers * W)) (index1 index2 : Z) : M bool :=
  let^ o1 := index2adr index1 in
  let^ o2 := index2adr index2 in
  if is_none o1 || is_none o2 then mret false
  else let^ v1 := deref o1 in let^ v2 := deref o2 in vm (fun w s => f w s v1 v2).
Definition lua_equal : Z -> Z -> M bool := lua_compare equalobj.
Definition lua_lessthan : Z -> Z -> M bool := lua_compare luaV_lessthan.

Definition lua_tonumber (idx : Z) : M Z := let^ o := value_at idx in let^ w := the_world in mret (default 0 (tonumber w o)).
Definition lua_tointeger (idx : Z) : M Z := let^ o := value_at idx in let^ w := the_world in mret (from_option lua_number2integer 0 (tonumber w o)).
Definition lua_toboolean (idx : Z) : M bool := let^ o := value_at idx in mret (negb (l_isfalse o)).

(** [luaV_tostring]: a number becomes a string where it is. *)
Definition write_place (p : place) (v : tvalue) : M unit :=
  match p with
  | Slot i => setobj i v
  | Registry => upd_world (fun w => Some (set_registry v w))
  | Globals => upd_world (fun w => Some (set_gt v w))
  | Upvalue f n => upd_world (set_c_upvalue f n v)
  | Environ | NilObject => undefined
  end.
Definition luaV_tostring (p : place) : M bool :=
  let^ o := deref p in
  let^ w := the_world in
  match o with
  | TNumber n => let (a, w) := luaS_newlstr w (lua_number2str n) in do^ (fun L _ => Some (Ok tt, L, w)) in do^ write_place p (TGC GString a) in mret true
  | _ => mret false
  end.
(** The characters, [None] for a null pointer. *)
Definition lua_tolstring (idx : Z) : M (option bytes) :=
  let^ p := index2adr idx in
  let^ o := deref p in
  let^ ok := if ttisstring o then mret true else luaV_tostring p in
  if (ok : bool) then
    let^ o := value_at idx in
    let^ w := the_world in
    match o with TGC GString a => mret (Some (getstr w a)) | _ => undefined end
  else mret None.

Definition lua_objlen (idx : Z) : M Z :=
  let^ p := index2adr idx in
  let^ o := deref p in
  let^ w := the_world in
  match o with
  | TGC GString a => mret (Z.of_nat (length (getstr w a)))
  | TGC GUserdata u => mret (udata_len w u)
  | TGC GTable h => mret (luaH_getn w h)
  | TNumber _ =>
      let^ ok := luaV_tostring p in
      if (ok : bool) then
        let^ o := deref p in
        let^ w := the_world in
        match o with TGC GString a => mret (Z.of_nat (length (getstr w a))) | _ => undefined end
      else mret 0
  | _ => mret 0
  end.

Definition lua_tocfunction (idx : Z) : M (option Z) :=
  let^ o := value_at idx in
  let^ w := the_world in
  match o with TGC GFunction a => if iscfunction w o then mret (c_pointer w a) else mret None | _ => mret None end.
Definition lua_touserdata (idx : Z) : M (option Z) :=
  let^ o := value_at idx in mret (match o with TGC GUserdata u => Some u | TLightUserData p => Some p | _ => None end).
Definition lua_tothread (idx : Z) : M (option Z) := let^ o := value_at idx in mret (match o with TGC GThread t => Some t | _ => None end).
Definition lua_topointer (idx : Z) : M (option Z) :=
  let^ o := value_at idx in
  match o with
  | TGC GTable a | TGC GFunction a | TGC GThread a => mret (Some a)
  | TGC GUserdata _ | TLightUserData _ => lua_touserdata idx
  | _ => mret None
  end.

(** ** Push functions *)
Definition lua_pushnil : M unit := push TNil.
Definition lua_pushnumber (n : Z) : M unit := push (TNumber n).
Definition lua_pushinteger (n : Z) : M unit := push (TNumber (integer_num n)).
Definition new_string (s : bytes) : M tvalue := fun L w => let (a, w) := luaS_newlstr w s in Some (Ok (TGC GString a), L, w).
Definition lua_pushlstring (s : bytes) : M unit := let^ o := new_string s in push o.
Definition lua_pushstring (s : option bytes) : M unit := match s with None => lua_pushnil | Some s => lua_pushlstring (cstr s) end.

(** The upvalues of a new C function, the last first. *)
Fixpoint take_upvalues (n : nat) (acc : list tvalue) : M (list tvalue) :=
  match n with O => mret acc | S n => let^ L := state in let^ v := slot (top L + Z.of_nat n) in take_upvalues n (v :: acc) end.
Definition lua_pushcclosure (fn n : Z) : M unit :=
  let^ env := getcurrenv in
  do^ pop n in
  let^ ups := take_upvalues (Z.to_nat n) [] in
  let^ a := fun L w => let (a, w) := luaF_newCclosure fn ups env w in Some (Ok a, L, w) in
  push (TGC GFunction a).
Definition lua_pushboolean (b : Z) : M unit := push (TBoolean (negb (b =? 0))).
Definition lua_pushlightuserdata (p : Z) : M unit := push (TLightUserData p).
(** Of the thread at the address [self]. *)
Definition lua_pushthread (self mainthread : Z) : M bool := do^ push (TGC GThread self) in mret (mainthread =? self).

(** ** Get functions *)
Definition table_at (p : place) : M Z := let^ o := deref p in match o with TGC GTable h => mret h | _ => undefined end.
(** [luaV_gettable(L, t, key, val)] *)
Definition v_gettable (t key : tvalue) (val : Z) : M unit := let^ v := vm (fun w s => luaV_gettable w s t key) in setobj val v.

Definition lua_gettable (idx : Z) : M unit :=
  let^ p := index2adr idx in
  let^ t := deref p in
  let^ key := top_value 1 in
  let^ L := state in
  v_gettable t key (top L - 1).
Definition lua_getfield (idx : Z) (k : bytes) : M unit :=
  let^ p := index2adr idx in
  let^ t := deref p in
  let^ key := new_string (cstr k) in
  let^ L := state in
  do^ v_gettable t key (top L) in
  upd (fun L => with_top (top L + 1) L).
Definition lua_rawget (idx : Z) : M unit :=
  let^ p := index2adr idx in
  let^ h := table_at p in
  let^ key := top_value 1 in
  let^ w := the_world in
  let^ L := state in
  setobj (top L - 1) (luaH_get w h key).
Definition lua_rawgeti (idx n : Z) : M unit :=
  let^ p := index2adr idx in
  let^ h := table_at p in
  let^ w := the_world in
  push (luaH_get w h (TNumber (cast_num n))).
Definition lua_createtable (narray nrec : Z) : M unit :=
  let^ h := fun L w => let (h, w) := luaH_new w narray nrec in Some (Ok h, L, w) in push (TGC GTable h).

Definition metatable_of (w : W) (o : tvalue) : option Z :=
  match o with TGC GTable p | TGC GUserdata p => metatable w p | _ => type_metatable w o end.
Definition lua_getmetatable (objindex : Z) : M bool :=
  let^ o := value_at objindex in
  let^ w := the_world in
  match metatable_of w o with None => mret false | Some mt => do^ push (TGC GTable mt) in mret true end.
Definition lua_getfenv (idx : Z) : M unit :=
  let^ o := value_at idx in
  let^ w := the_world in
  match o with
  | TGC GFunction a => let^ e := lift (closure_env w a) in push (TGC GTable e)
  | TGC GUserdata u => push (TGC GTable (udata_env w u))
  | TGC GThread t => push (thread_gt w t)
  | _ => push TNil
  end.

(** ** Set functions *)
Definition lua_settable (idx : Z) : M unit :=
  let^ p := index2adr idx in
  let^ t := deref p in
  let^ key := top_value 2 in
  let^ v := top_value 1 in
  do^ vm_ (fun w s => luaV_settable w s t key v) in
  pop 2.
Definition lua_setfield (idx : Z) (k : bytes) : M unit :=
  let^ p := index2adr idx in
  let^ t := deref p in
  let^ key := new_string (cstr k) in
  let^ v := top_value 1 in
  do^ vm_ (fun w s => luaV_settable w s t key v) in
  pop 1.
(** [setobj2t(L, luaH_set(L, h, key), v)] *)
Definition raw_store (h : Z) (key v : tvalue) : M unit :=
  vm_ (fun w s => let* (_, w) := luaH_set w h key in lret (s, set_slot w h key v)).
Definition lua_rawset (idx : Z) : M unit :=
  let^ p := index2adr idx in
  let^ h := table_at p in
  let^ key := top_value 2 in
  let^ v := top_value 1 in
  do^ raw_store h key v in
  pop 2.
Definition lua_rawseti (idx n : Z) : M unit :=
  let^ p := index2adr idx in
  let^ h := table_at p in
  let^ v := top_value 1 in
  do^ raw_store h (TNumber (cast_num n)) v in
  pop 1.
Definition lua_setmetatable (objindex : Z) : M bool :=
  let^ obj := value_at objindex in
  let^ m := top_value 1 in
  let^ mt := match m with TNil => mret None | TGC GTable h => mret (Some h) | _ => undefined end in
  do^ upd_world (fun w => Some (match obj with TGC GTable p | TGC GUserdata p => set_metatable p mt w | _ => set_type_metatable obj mt w end)) in
  do^ pop 1 in
  mret true.
Definition lua_setfenv (idx : Z) : M bool :=
  let^ o := value_at idx in
  let^ v := top_value 1 in
  let^ res :=
    match o, v with
    | TGC GFunction a, TGC GTable h => do^ upd_world (set_closure_env a h) in mret true
    | TGC GUserdata u, TGC GTable h => do^ upd_world (fun w => Some (set_udata_env u h w)) in mret true
    | TGC GThread t, TGC GTable h => do^ upd_world (fun w => Some (set_thread_gt t v w)) in mret true
    | TGC GFunction _, _ | TGC GUserdata _, _ | TGC GThread _, _ => undefined
    | _, _ => mret false
    end in
  do^ pop 1 in
  mret res.

(** ** Calls *)
Definition adjustresults (nres : Z) : M unit :=
  let^ L := state in
  if (nres =? LUA_MULTRET) && (ci_top (ci L) <=? top L) then upd_ci (set_ci_top (top L)) else mret tt.
Definition lua_call (nargs nresults : Z) : M unit :=
  let^ L := state in
  do^ luaD_call (top L - (nargs + 1)) nresults in
  adjustresults nresults.
Definition lua_pcall (nargs nresults errfunc : Z) : M Z :=
  let^ func :=
    if errfunc =? 0 then mret 0 else let^ p := index2adr errfunc in slot_of p in
  let^ L := state in
  let f := top L - (nargs + 1) in
  let^ status := luaD_pcall (luaD_call f nresults) f func in
  do^ adjustresults nresults in
  mret status.
Definition f_Ccall (func ud : Z) : M unit :=
  let^ env := getcurrenv in
  let^ a := fun L w => let (a, w) := luaF_newCclosure func [] env w in Some (Ok a, L, w) in
  do^ push (TGC GFunction a) in
  do^ push (TLightUserData ud) in
  let^ L := state in
  luaD_call (top L - 2) 0.
Definition lua_cpcall (func ud : Z) : M Z := let^ L := state in luaD_pcall (f_Ccall func ud) (top L) 0.
Definition lua_status : M Z := let^ L := state in mret (status L).

(** ** Miscellaneous functions *)
Definition lua_error {A} : M A := luaG_errormsg luaD_call.
Definition lua_next (idx : Z) : M bool :=
  let^ p := index2adr idx in
  let^ h := table_at p in
  let^ key := top_value 1 in
  let^ r := vm (fun w s => let* r := luaH_next w h key in lret (r, s, w)) in
  let^ L := state in
  match r with
  | Some (k, v) => do^ setobj (top L - 1) k in do^ setobj (top L) v in do^ upd (with_top (top L + 1)) in mret true
  | None => do^ pop 1 in mret false
  end.
Definition lua_concat (n : Z) : M unit :=
  let^ L := state in
  if 2 <=? n then
    do^ vm_ (fun w s => luaV_concat w s n (top L - base L - 1)) in
    pop (n - 1)
  else if n =? 0 then let^ o := new_string [] in push o
  else mret tt.
Definition lua_newuserdata (size : Z) : M Z :=
  let^ env := getcurrenv in
  let^ u := fun L w => let (u, w) := luaS_newudata size env w in Some (Ok u, L, w) in
  do^ push (TGC GUserdata u) in
  mret u.

(** The name of an upvalue and its value. *)
Definition aux_upvalue (fi : tvalue) (n : Z) : M (option (bytes * tvalue)) :=
  let^ w := the_world in
  match fi with
  | TGC GFunction a =>
      if iscfunction w fi then
        let^ up := lift (c_upvalues w a) in
        if (1 <=? n) && (n <=? Z.of_nat (length up)) then let^ v := lift (up !! Z.to_nat (n - 1)) in mret (Some ([], v)) else mret None
      else
        let^ c := lift (closure_of w a) in
        let^ p := lift c in
        if (1 <=? n) && (n <=? sizeupvalues p) then let^ r := lift (lua_upvalue w a n) in mret (Some r) else mret None
  | _ => mret None
  end.
Definition lua_getupvalue (funcindex n : Z) : M (option bytes) :=
  let^ fi := value_at funcindex in
  let^ r := aux_upvalue fi n in
  match r with Some (name, v) => do^ push v in mret (Some name) | None => mret None end.
Definition lua_setupvalue (funcindex n : Z) : M (option bytes) :=
  let^ fi := value_at funcindex in
  let^ r := aux_upvalue fi n in
  match r, fi with
  | Some (name, _), TGC GFunction a =>
      do^ pop 1 in
      let^ v := top_value 0 in
      let^ w := the_world in
      do^ upd_world (if iscfunction w fi then set_c_upvalue a n v else set_lua_upvalue a n v) in
      mret (Some name)
  | _, _ => mret None
  end.
End Lapi.
