(* ===== verification/LApiProps.v ===== *)
(** * The stack of a C function as a list

    Between [base] and [top] a C function has a list of values. The functions that move
    values around refine operations on this list, and touch nothing else. *)
From stdpp Require Import base list option.
From Stdlib Require Import ZArith Lia ZifyBool.
From S2P Require Import Prelude LObject LProto LVm LDo LApi.
#[local] Open Scope Z_scope.

Section Stack.
Context {W : Type} `{ApiHeap W}.
Implicit Types (L : lua_State) (w : W) (vs : list tvalue).

(** The stack is [below], the values of the function, and free slots. *)
Record shaped (below vs above : list tvalue) (L : lua_State) : Prop := {
  sh_stack : stack L = below ++ vs ++ above;
  sh_base : base L = Z.of_nat (length below);
  sh_top : top L = Z.of_nat (length below + length vs);
}.
(** The thread with other values. *)
Definition reshaped (below vs above : list tvalue) (L : lua_State) : lua_State :=
  with_top (Z.of_nat (length below + length vs)) (with_stack (below ++ vs ++ above) L).

Lemma shaped_reshaped below vs above vs' above' L : shaped below vs above L -> shaped below vs' above' (reshaped below vs' above' L).
Proof. intros [_ Hb _]. by split. Qed.
Lemma reshaped_twice below vs1 above1 vs2 above2 L : reshaped below vs2 above2 (reshaped below vs1 above1 L) = reshaped below vs2 above2 L.
Proof. done. Qed.
Lemma reshaped_id below vs above L : shaped below vs above L -> L = reshaped below vs above L.
Proof. intros [Hs Hb Ht]. unfold reshaped, with_top, with_stack. cbn. rewrite <- Hs, <- Ht. by destruct L. Qed.

(** ** Slots in the middle of a list *)
Lemma insert_middle (a : list tvalue) x y b : <[length a := y]> (a ++ x :: b) = a ++ y :: b.
Proof. replace (length a) with (length a + 0)%nat by lia. by rewrite insert_app_r. Qed.
Lemma slot_middle a x b L w i : stack L = a ++ x :: b -> i = Z.of_nat (length a) -> slot i L w = Some (Ok x, L, w).
Proof. intros Hs ->. apply slot_nat. rewrite Hs. by apply list_lookup_middle. Qed.
Lemma setobj_middle a x b v L w i : stack L = a ++ x :: b -> i = Z.of_nat (length a) -> setobj i v L w = Some (Ok tt, with_stack (a ++ v :: b) L, w).
Proof. intros Hs ->. rewrite setobj_nat by (rewrite Hs, length_app; cbn; lia). by rewrite Hs, insert_middle. Qed.

Lemma push_shaped below vs x above v L w : shaped below vs (x :: above) L -> push v L w = Some (Ok tt, reshaped below (vs ++ [v]) above L, w).
Proof.
  intros [Hs Hb Ht]. unfold push. rewrite (mbind_eq state _ L w L L w eq_refl).
  rewrite (mbind_eq _ _ L w tt _ w (setobj_middle (below ++ vs) x above v L w (top L) ltac:(by rewrite Hs, <- app_assoc) ltac:(rewrite length_app; lia))).
  unfold upd, reshaped, with_top, with_stack. cbn. rewrite Ht, length_app. cbn. do 3 f_equal. f_equal; [by rewrite <- !app_assoc|lia].
Qed.

(** The loops that open and close a gap. *)
Lemma open_hole_eq mid : forall pre y post L w, stack L = pre ++ mid ++ y :: post ->
  open_hole (length mid) (Z.of_nat (length pre + length mid)) L w = Some (Ok tt, with_stack (pre ++ default y (head mid) :: mid ++ post) L, w).
Proof.
  induction mid as [|x mid IH] using rev_ind; intros pre y post L w Hs.
  - cbn. unfold mret. cbn in Hs. rewrite <- Hs. by rewrite with_stack_id.
  - rewrite length_app. cbn [length]. rewrite Nat.add_1_r. cbn [open_hole].
    rewrite (mbind_eq _ _ L w x L w) by (apply (slot_middle (pre ++ mid) x (y :: post)); [by rewrite Hs, <- !app_assoc|rewrite length_app; lia]).
    rewrite (mbind_eq _ _ L w tt _ w (setobj_middle (pre ++ mid ++ [x]) y post x L w (Z.of_nat (length pre + S (length mid))) ltac:(by rewrite Hs, <- !app_assoc) ltac:(rewrite !length_app; cbn; lia))).
    replace (Z.of_nat (length pre + S (length mid)) - 1) with (Z.of_nat (length pre + length mid)) by lia.
    rewrite (IH pre x (x :: post)) by (cbn; by rewrite <- !app_assoc). cbn [with_stack stack]. unfold with_stack. cbn. do 4 f_equal.
    destruct mid; cbn; by rewrite <- ?app_assoc.
Qed.
Lemma shift_down_eq mid : forall pre y post L w, stack L = pre ++ y :: mid ++ post ->
  shift_down (length mid) (Z.of_nat (length pre)) L w = Some (Ok tt, with_stack (pre ++ mid ++ default y (last mid) :: post) L, w).
Proof.
  induction mid as [|x mid IH]; intros pre y post L w Hs; cbn [length shift_down].
  - cbn. unfold mret. cbn in Hs. rewrite <- Hs. by rewrite with_stack_id.
  - rewrite (mbind_eq _ _ L w x L w) by (apply (slot_middle (pre ++ [y]) x (mid ++ post)); [by rewrite Hs, <- !app_assoc|rewrite length_app; cbn; lia]).
    rewrite (mbind_eq _ _ L w tt _ w (setobj_middle pre y (x :: mid ++ post) x L w (Z.of_nat (length pre)) Hs eq_refl)).
    replace (Z.of_nat (length pre) + 1) with (Z.of_nat (length (pre ++ [x]))) by (rewrite length_app; cbn; lia).
    rewrite (IH (pre ++ [x]) x post) by (cbn; by rewrite <- app_assoc). unfold with_stack. cbn. do 4 f_equal. rewrite <- app_assoc. cbn.
    destruct mid as [|z mid]; [done|]. rewrite (last_cons x (z :: mid)), (last_cons z mid). by destruct (last mid).
Qed.

(** ** Indices *)
(** The position of an index that is not a pseudo-index. *)
Definition pos (idx : Z) (vs : list tvalue) : option nat :=
  let n := Z.of_nat (length vs) in
  if 0 <? idx then if idx <=? n then Some (Z.to_nat (idx - 1)) else None
  else if (LUA_REGISTRYINDEX <? idx) && (idx <? 0) && (0 <=? n + idx) then Some (Z.to_nat (n + idx)) else None.
Lemma pos_bound idx vs p : pos idx vs = Some p -> (p < length vs)%nat.
Proof. unfold pos. repeat case_match; try done; intros [= <-]; lia. Qed.
Lemma index2adr_pos below vs above L w idx p : shaped below vs above L -> pos idx vs = Some p ->
  index2adr idx L w = Some (Ok (Slot (Z.of_nat (length below + p))), L, w).
Proof.
  intros [Hs Hb Ht] Hp. unfold index2adr. rewrite (mbind_eq state _ L w L L w eq_refl). unfold pos in Hp. destruct (0 <? idx) eqn:E0.
  - destruct (idx <=? _) eqn:E1; [|done]. injection Hp as <-. assert ((top L <=? base L + (idx - 1)) = false) as -> by lia.
    unfold mret. do 5 f_equal. lia.
  - destruct (LUA_REGISTRYINDEX <? idx); [|done]. cbn [andb] in Hp. destruct ((idx <? 0) && _) eqn:E1; [|done]. injection Hp as <-.
    unfold mret. do 5 f_equal. lia.
Qed.
Lemma bind_slot {B} below vs above L w idx p (f : Z -> M W B) : shaped below vs above L -> pos idx vs = Some p ->
  (let^ o := index2adr idx in let^ i := slot_of o in f i) L w = f (Z.of_nat (length below + p)) L w.
Proof. intros Hsh Hp. by rewrite (mbind_eq _ _ _ _ _ _ _ (index2adr_pos _ _ _ _ w _ _ Hsh Hp)). Qed.
(** The list around a position. *)
Lemma split_at vs p : (p < length vs)%nat -> exists a x b, vs = a ++ x :: b /\ length a = p.
Proof.
  intros Hp. destruct (lookup_lt_is_Some_2 vs p Hp) as [x Hx]. exists (take p vs), x, (drop (S p) vs).
  split; [by rewrite take_drop_middle|rewrite length_take; lia].
Qed.
Lemma value_at_pos below vs above L w idx p v : shaped below vs above L -> pos idx vs = Some p -> vs !! p = Some v -> value_at idx L w = Some (Ok v, L, w).
Proof.
  intros Hsh Hp Hv. unfold value_at. rewrite (mbind_eq _ _ _ _ _ _ _ (index2adr_pos _ _ _ _ w _ _ Hsh Hp)). unfold deref.
  rewrite (mbind_eq the_world _ L w w L w eq_refl). apply slot_nat. rewrite (sh_stack _ _ _ _ Hsh).
  rewrite lookup_app_r by lia. replace (length below + p - length below)%nat with p by lia. by rewrite lookup_app_l by (by eapply lookup_lt_Some).
Qed.

(** ** The operations *)
Inductive stack_op := OPush (v : tvalue) | OPushvalue (idx : Z) | OInsert (idx : Z) | ORemove (idx : Z) | OReplace (idx : Z) | OSettop (idx : Z).
Definition run_op (o : stack_op) : M W unit :=
  match o with
  | OPush v => luaA_pushobject v
  | OPushvalue idx => lua_pushvalue idx
  | OInsert idx => lua_insert idx
  | ORemove idx => lua_remove idx
  | OReplace idx => lua_replace idx
  | OSettop idx => lua_settop idx
  end.
(** What they are on lists of at most [room] values; [None] where the index is not valid. *)
Definition spec_op (room : nat) (o : stack_op) (vs : list tvalue) : option (list tvalue) :=
  let free := bool_decide (length vs < room)%nat in
  match o with
  | OPush v => if free then Some (vs ++ [v]) else None
  | OPushvalue idx => if free then p ← pos idx vs; v ← vs !! p; Some (vs ++ [v]) else None
  | OInsert idx => if free then p ← pos idx vs; v ← last vs; Some (take p vs ++ v :: drop p (take (pred (length vs)) vs)) else None
  | ORemove idx => p ← pos idx vs; Some (delete p vs)
  | OReplace idx => p ← pos idx vs; v ← last vs; Some (take (pred (length vs)) (<[p := v]> vs))
  | OSettop idx =>
      if 0 <=? idx then
        if bool_decide (Z.to_nat idx <= room)%nat then Some (take (Z.to_nat idx) (vs ++ replicate (Z.to_nat idx) TNil)) else None
      else if 0 <=? Z.of_nat (length vs) + idx + 1 then Some (take (Z.to_nat (Z.of_nat (length vs) + idx + 1)) vs) else None
  end.
Fixpoint run_ops (os : list stack_op) : M W unit := match os with [] => mret tt | o :: os => do^ run_op o in run_ops os end.
Fixpoint spec_ops (room : nat) (os : list stack_op) (vs : list tvalue) : option (list tvalue) :=
  match os with [] => Some vs | o :: os => vs ← spec_op room o vs; spec_ops room os vs end.

(** An operation that leaves [vs'] as the values of the function. *)
Definition moves_to (below vs above : list tvalue) (L : lua_State) (w : W) (m : M W unit) (vs' : list tvalue) : Prop := exists above',
  m L w = Some (Ok tt, reshaped below vs' above' L, w) /\ (length vs' + length above' = length vs + length above)%nat.

Lemma push_moves below vs above L w v : shaped below vs above L -> (0 < length above)%nat -> moves_to below vs above L w (push v) (vs ++ [v]).
Proof.
  intros Hsh Ha. destruct above as [|x above]; [cbn in Ha; lia|]. exists above. split; [by eapply push_shaped|]. rewrite length_app. cbn. lia.
Qed.
Lemma last_split vs v : last vs = Some v -> exists a, vs = a ++ [v] /\ take (pred (length vs)) vs = a.
Proof.
  intros Hl. apply last_Some in Hl as [a ->]. exists a. split; [done|]. rewrite length_app. cbn. rewrite Nat.add_1_r. cbn. by rewrite take_app_length.
Qed.
Lemma insert_moves below vs above L w idx p v : shaped below vs above L -> (0 < length above)%nat -> pos idx vs = Some p -> last vs = Some v ->
  moves_to below vs above L w (lua_insert idx) (take p vs ++ v :: drop p (take (pred (length vs)) vs)).
Proof.
  intros Hsh Ha Hp Hv. pose proof (pos_bound _ _ _ Hp) as Hb. destruct (last_split _ _ Hv) as (c & Ec & ->). destruct above as [|z above]; [cbn in Ha; lia|].
  assert (p <= length c)%nat as Hpc by (rewrite Ec, length_app in Hb; cbn in Hb; lia).
  assert (take p vs = take p c) as -> by (rewrite Ec; by apply take_app_le).
  set (a := take p c). set (b := drop p c). assert (vs = a ++ b ++ [v]) as Evs by (rewrite Ec; unfold a, b; by rewrite app_assoc, take_drop).
  assert (length a = p) as La by (unfold a; rewrite length_take; lia).
  exists (v :: above). split; [|rewrite Evs, !length_app; cbn; lia].
  unfold lua_insert. rewrite (bind_slot _ _ _ _ w _ _ _ Hsh Hp).
  rewrite (mbind_eq state _ L w L L w eq_refl). destruct Hsh as [Hs Hbs Ht].
  assert (stack L = (below ++ a) ++ (b ++ [v]) ++ z :: above) as Hs' by (rewrite Hs, Evs; by rewrite <- !app_assoc).
  assert (top L = Z.of_nat (length (below ++ a) + length (b ++ [v]))) as Ht' by (rewrite Ht, Evs, !length_app; lia).
  rewrite Ht'. replace (Z.to_nat _) with (length (b ++ [v])) by (rewrite !length_app; lia).
  rewrite (mbind_eq _ _ _ _ _ _ _ (open_hole_eq (b ++ [v]) (below ++ a) z above L w Hs')). set (L1 := with_stack _ L).
  rewrite (mbind_eq _ _ L1 w v L1 w).
  - rewrite (setobj_middle (below ++ a) (default z (head (b ++ [v]))) ((b ++ [v]) ++ above) v L1 w) by (try done; rewrite length_app; lia).
    unfold reshaped. cbn. unfold with_top, with_stack. cbn. rewrite Ht'. rewrite !length_app. cbn. do 3 f_equal. f_equal; [by rewrite <- !app_assoc; cbn; rewrite <- ?app_assoc|lia].
  - cbn [L1]. apply (slot_middle ((below ++ a) ++ default z (head (b ++ [v])) :: b) v above).
    + cbn. by rewrite <- !app_assoc.
    + rewrite !length_app. cbn. lia.
Qed.
Lemma remove_moves below vs above L w idx p : shaped below vs above L -> pos idx vs = Some p -> moves_to below vs above L w (lua_remove idx) (delete p vs).
Proof.
  intros Hsh Hp. destruct (split_at vs p (pos_bound _ _ _ Hp)) as (a & x & b & Evs & La).
  assert (delete p vs = a ++ b) as -> by (rewrite Evs, <- La; by rewrite delete_middle).
  exists (default x (last b) :: above). split; [|rewrite Evs, !length_app; cbn; lia].
  unfold lua_remove. rewrite (bind_slot _ _ _ _ w _ _ _ Hsh Hp).
  rewrite (mbind_eq state _ L w L L w eq_refl). destruct Hsh as [Hs Hbs Ht].
  assert (stack L = (below ++ a) ++ x :: b ++ above) as Hs' by (rewrite Hs, Evs; by rewrite <- !app_assoc).
  replace (Z.to_nat _) with (length b) by (rewrite Ht, Evs, length_app; cbn; lia).
  replace (Z.of_nat (length below + p)) with (Z.of_nat (length (below ++ a))) by (rewrite length_app; lia).
  rewrite (mbind_eq _ _ _ _ _ _ _ (shift_down_eq b (below ++ a) x above L w Hs')).
  unfold pop, upd, reshaped, with_top, with_stack. cbn. rewrite Ht, Evs, !length_app. cbn. do 3 f_equal. f_equal; [by rewrite <- !app_assoc|lia].
Qed.
Lemma replace_moves below vs above L w idx p v : shaped below vs above L -> pos idx vs = Some p -> last vs = Some v ->
  moves_to below vs above L w (lua_replace idx) (take (pred (length vs)) (<[p := v]> vs)).
Proof.
  intros Hsh Hp Hv. pose proof (pos_bound _ _ _ Hp) as Hb. assert (idx <> LUA_ENVIRONINDEX) as Hne.
  { intros ->. done. }
  unfold lua_replace, moves_to. rewrite (mbind_eq state _ L w L L w eq_refl). destruct (Z.eqb_spec idx LUA_ENVIRONINDEX); [done|]. cbn [andb].
  rewrite (mbind_eq (mret tt) _ L w tt L w eq_refl). rewrite (mbind_eq _ _ _ _ _ _ _ (index2adr_pos _ _ _ _ w _ _ Hsh Hp)).
  destruct (last_split _ _ Hv) as (c & Ec & _). destruct Hsh as [Hs Hbs Ht].
  assert (top_value 1 L w = Some (Ok v, L, w)) as Et.
  { unfold top_value. rewrite (mbind_eq state _ L w L L w eq_refl). apply (slot_middle (below ++ c) v above); [rewrite Hs, Ec; by rewrite <- !app_assoc|].
    rewrite Ht, Ec, !length_app. cbn. lia. }
  rewrite (mbind_eq _ _ _ _ _ _ _ Et). assert (length (<[p := v]> vs) = length vs) as Hlen by apply length_insert.
  assert (exists u, <[p := v]> vs = take (pred (length vs)) (<[p := v]> vs) ++ [u]) as [u Eu].
  { destruct (<[p := v]> vs) as [|y ys] eqn:E using rev_ind; [cbn in Hlen; lia|]. exists y. rewrite <- Hlen, length_app. cbn. rewrite Nat.add_1_r. cbn. by rewrite take_app_length. }
  set (vs' := take _ _) in *. exists (u :: above). split.
  - erewrite (mbind_eq (setobj _ _)); [|apply setobj_nat; rewrite Hs, !length_app; lia]. unfold pop, upd, reshaped, with_top, with_stack. cbn. rewrite Ht.
    assert (length vs = S (length vs')) as El by (rewrite <- Hlen, Eu, length_app; cbn; lia). do 3 f_equal. f_equal; [|lia].
    rewrite Hs, insert_app_r, insert_app_l by done. rewrite Eu at 1. by rewrite <- !app_assoc.
  - rewrite <- Hlen, Eu, length_app. cbn. lia.
Qed.
Lemma settop_moves below vs above L w idx vs' : shaped below vs above L -> spec_op (length vs + length above) (OSettop idx) vs = Some vs' ->
  moves_to below vs above L w (lua_settop idx) vs'.
Proof.
  intros [Hs Hbs Ht] Hspec. cbn [spec_op] in Hspec. unfold lua_settop, moves_to. rewrite (mbind_eq state _ L w L L w eq_refl).
  destruct (Z.leb_spec 0 idx) as [Hi|Hi].
  - destruct (bool_decide _) eqn:Hr; [|done]. apply bool_decide_eq_true in Hr. injection Hspec as <-.
    rewrite Ht, Hbs. set (n := Z.to_nat (Z.of_nat (length below) + idx - Z.of_nat (length below + length vs))).
    erewrite mbind_eq; [|apply (push_nils_eq n L w (length below + length vs)); [exact Ht|rewrite Hs, !length_app; lia]].
    set (vs' := take (Z.to_nat idx) (vs ++ replicate (Z.to_nat idx) TNil)). assert (length vs' = Z.to_nat idx) as Lv by (unfold vs'; rewrite length_take, length_app, length_replicate; lia).
    exists (drop (Z.to_nat idx) (vs ++ replicate n TNil ++ drop n above)). split; [|rewrite Lv, length_drop, !length_app, length_replicate, length_drop; lia].
    unfold upd, reshaped, with_top, with_stack. cbn. do 3 f_equal. f_equal; [|rewrite ?Hbs; lia].
    rewrite Hs, (app_assoc below vs above). replace (length below + length vs)%nat with (length (below ++ vs) + 0)%nat by (rewrite length_app; lia).
    rewrite list_inserts_app_r. rewrite <- app_assoc. f_equal.
    assert (list_inserts 0 (replicate n TNil) above = replicate n TNil ++ drop n above) as ->.
    { rewrite <- (take_drop n above) at 1. rewrite <- (app_nil_l (take n above ++ _)) at 1. apply list_eq. intros j. cbn [app].
      destruct (decide (j < n)%nat) as [Hj|Hj].
      - rewrite list_lookup_inserts by (rewrite ?length_replicate, ?length_app, ?length_take, ?length_drop; lia). rewrite Nat.sub_0_r. by rewrite lookup_app_l by (rewrite length_replicate; lia).
      - rewrite list_lookup_inserts_ge by (rewrite length_replicate; lia). rewrite take_drop, lookup_app_r by (rewrite length_replicate; lia).
        rewrite length_replicate, lookup_drop. f_equal. lia. }
    assert (take (Z.to_nat idx) (vs ++ replicate n TNil ++ drop n above) = vs') as <-; [|by rewrite take_drop].
    unfold vs'. destruct (decide (Z.to_nat idx <= length vs)%nat) as [Hl|Hl]; [by rewrite !take_app_le by lia|].
    rewrite (take_app_ge vs (replicate n TNil ++ drop n above)), (take_app_ge vs (replicate (Z.to_nat idx) TNil)) by lia. f_equal. rewrite take_app_le by (rewrite length_replicate; lia). rewrite !take_replicate. f_equal. lia.
  - destruct (Z.leb_spec 0 (Z.of_nat (length vs) + idx + 1)) as [Hj|Hj]; [|done]. injection Hspec as <-.
    set (n := Z.to_nat (Z.of_nat (length vs) + idx + 1)). exists (drop n vs ++ above). split; [|rewrite length_app, length_take, length_drop; lia].
    unfold upd, reshaped, with_top, with_stack. cbn. do 3 f_equal. f_equal; [|rewrite length_take; lia]. rewrite Hs. by rewrite (app_assoc (take n vs)), take_drop.
Qed.

Lemma run_op_moves o below vs above L w vs' : shaped below vs above L -> spec_op (length vs + length above) o vs = Some vs' ->
  moves_to below vs above L w (run_op o) vs'.
Proof.
  intros Hsh Hspec. destruct o; [..|by apply settop_moves]; cbn [spec_op] in Hspec; try (destruct (bool_decide _) eqn:Hf; [apply bool_decide_eq_true in Hf|done]).
  - injection Hspec as <-. apply push_moves; [done|lia].
  - destruct (pos idx vs) as [p|] eqn:Hp; [|done]. cbn in Hspec. destruct (vs !! p) as [v|] eqn:Hv; [|done]. injection Hspec as <-.
    destruct (push_moves _ _ _ _ w v Hsh ltac:(lia)) as (above' & E & Hl). exists above'. split; [|done]. cbn [run_op]. unfold lua_pushvalue.
    by rewrite (mbind_eq _ _ _ _ _ _ _ (value_at_pos _ _ _ _ w _ _ _ Hsh Hp Hv)).
  - destruct (pos idx vs) as [p|] eqn:Hp; [|done]. cbn in Hspec. destruct (last vs) as [v|] eqn:Hv; [|done]. injection Hspec as <-. by apply insert_moves; [|lia| |].
  - destruct (pos idx vs) as [p|] eqn:Hp; [|done]. injection Hspec as <-. by apply remove_moves.
  - destruct (pos idx vs) as [p|] eqn:Hp; [|done]. cbn in Hspec. destruct (last vs) as [v|] eqn:Hv; [|done]. injection Hspec as <-. by eapply replace_moves.
Qed.

(** C12. The functions of lapi.c that move values on the stack refine operations on lists.
    Whatever sequence of pushes, [lua_pushvalue], [lua_insert], [lua_remove],
    [lua_replace] and [lua_settop] a C function makes, with indices that are valid in the
    list they are applied to, positive or negative, and room for the values: the sequence
    ends without an error, the values between [base] and [top] are those of the list, and
    nothing else of the thread has changed, neither the slots of the callers nor the
    length of the stack. Then [lua_gettop] is the length of the list, and every valid
    index leads to its element. *)
Theorem stack_ops_refine os below vs above L w vs' : shaped below vs above L -> spec_ops (length vs + length above) os vs = Some vs' ->
  exists above', let L' := reshaped below vs' above' L in
    run_ops os L w = Some (Ok tt, L', w) /\ (length vs' + length above' = length vs + length above)%nat /\
    lua_gettop L' w = Some (Ok (Z.of_nat (length vs')), L', w) /\
    forall idx p v, pos idx vs' = Some p -> vs' !! p = Some v -> value_at idx L' w = Some (Ok v, L', w).
Proof.
  revert vs above L. induction os as [|o os IH]; intros vs above L Hsh Hspec; cbn [spec_ops run_ops] in *.
  - injection Hspec as <-. exists above. cbn zeta. rewrite <- (reshaped_id _ _ _ _ Hsh). split; [done|]. split; [done|]. split.
    + unfold lua_gettop. rewrite (mbind_eq state _ L w L L w eq_refl). destruct Hsh as [_ Hb Ht]. unfold mret. do 4 f_equal. lia.
    + intros idx p v Hp Hv. by eapply value_at_pos.
  - destruct (spec_op _ o vs) as [vs1|] eqn:Ho; [|done]. cbn in Hspec. destruct (run_op_moves o _ _ _ L w vs1 Hsh Ho) as (above1 & E & Hl).
    rewrite (mbind_eq _ _ _ _ _ _ _ E). destruct (IH vs1 above1 (reshaped below vs1 above1 L)) as (above' & E' & Hl' & Hg & Hv);
      [by eapply shaped_reshaped|by rewrite Hl|]. exists above'. cbn zeta in *. rewrite reshaped_twice in *. split; [done|]. split; [lia|done].
Qed.
End Stack.

(** ** A heap of strings *)
Module StringHeap.
(** The strings there are, by their number; no tables and no functions. *)
Definition W : Type := list bytes.
#[export] Instance world : LuaState W := {
  getstr w a := default [] (w !! Z.to_nat a);
  luaS_newlstr w s := (Z.of_nat (length w), w ++ [s]);
  tmname _ := TNil;
  luaH_get _ _ _ := TNil;
  luaH_set w _ _ := lret (TNil, w);
  set_slot w _ _ _ := w;
  luaH_getn _ _ := 0;
  luaH_new w _ _ := (1, w);
  luaH_presize w _ _ := w;
  metatable _ _ := None;
  type_metatable _ _ := None;
  upval _ _ := None;
  set_upval _ _ _ := None;
  LVm.luaD_call w s _ _ _ := lret ([], s, w);
  luaG_typeerror _ _ op := op;
  luaO_str2d _ := None;
  lua_number2str _ := bytes_of_string "a number";
  strcoll _ _ := 0;
  luai_numpow x _ := x;
}.
#[export] Instance host : Host W := {|
  closure_of _ _ := Some None;
  c_function _ := mret 0;
  luaV_execute _ := undefined;
  hook_function _ _ := mret tt;
  luaF_close _ _ w := Some w;
  position_info _ _ := ""%string;
  junk := TNil;
|}.
#[export] Instance heap : ApiHeap W := {|
  l_registry _ := TNil;
  l_gt _ := TNil;
  set_gt _ w := w;
  set_registry _ w := w;
  closure_env _ _ := Some 1;
  set_closure_env _ _ w := Some w;
  c_upvalues _ _ := Some [];
  set_c_upvalue _ _ _ _ := None;
  lua_upvalue _ _ _ := None;
  set_lua_upvalue _ _ _ _ := None;
  c_pointer _ a := Some a;
  luaF_newCclosure _ _ _ w := (1, w);
  set_metatable _ _ w := w;
  set_type_metatable _ _ w := w;
  luaH_next _ _ _ := lret None;
  udata_len _ _ := 0;
  udata_env _ _ := 1;
  set_udata_env _ _ w := w;
  luaS_newudata _ _ w := (1, w);
  thread_gt _ _ := TNil;
  set_thread_gt _ _ w := w;
  luaE_new w := (1, w);
  error_world _ w := w;
|}.
(** A new thread in a function with the values [vs]. *)
Definition thread (vs : list tvalue) : lua_State := reshaped [TNil; TGC GFunction 1] vs (replicate (43 - length vs) TNil) (with_base 2 (luaE_newthread false 0)).
Lemma thread_shaped vs : shaped [TNil; TGC GFunction 1] vs (replicate (43 - length vs) TNil) (thread vs).
Proof. by split. Qed.
End StringHeap.
Import StringHeap.

(** The number goes to the front, [false] in the place of [true]; the number is copied and leaves the front. *)
Definition some_ops : list stack_op := [OPush (TNumber 5); OInsert 1; OReplace (-2); OPushvalue 1; ORemove 1; OSettop 3].
Lemma stack_ops_refine_witness : exists above', let L' := reshaped [TNil; TGC GFunction 1] [TBoolean false; TNumber 5; TNil] above' (thread [TBoolean true; TBoolean false]) in
  run_ops some_ops (thread [TBoolean true; TBoolean false]) [] = Some (Ok tt, L', []).
Proof.
  destruct (stack_ops_refine some_ops [TNil; TGC GFunction 1] [TBoolean true; TBoolean false] (replicate 41 TNil) (thread [TBoolean true; TBoolean false]) []
    [TBoolean false; TNumber 5; TNil] (thread_shaped _)) as (above' & E & _).
  - vm_compute. reflexivity.
  - exists above'. exact E.
Defined.
