(* ===== verification/LAuxlib.v ===== *)
(** * The auxiliary library (src/lua/lauxlib.c)

    Functions over the C interface: argument checks, metatables, the registration of
    libraries, string buffers that keep their pieces on the stack, and references. What
    the functions ask of the debug interface is [DebugInfo]; the size of a buffer is a
    parameter (BUFSIZ of the C library). [luaL_loadfile] is input and output and left out,
    like the compatibility functions for the sizes of tables. *)
From stdpp Require Import base list option strings pretty.
From Stdlib Require Import ZArith Lia ZifyBool.
From S2P Require Import Prelude LObject LProto LVm LDo LApi LApiProps.
#[local] Open Scope Z_scope.

Definition LIMIT : Z := LUA_MINSTACK / 2.
Definition FREELIST_REF : Z := 0.
Definition LUA_REFNIL : Z := -1.

(** [lua_getinfo] of the function at level 0: [namewhat] and [name]; the source and line
    of the function at a level. *)
Class DebugInfo (W : Type) := {
  called_as : lua_State -> W -> option (string * option string);
  position_at : Z -> lua_State -> W -> option (string * Z);
}.

Section Auxlib.
Context {W : Type} `{ApiHeap W} `{!DebugInfo W}.
Notation M := (M W).

Definition lua_pop (n : Z) : M unit := lua_settop (- n - 1).
Definition abs_index (i : Z) : M Z := if (0 <? i) || (i <=? LUA_REGISTRYINDEX) then mret i else let^ t := lua_gettop in mret (t + i + 1).
Definition pushfstring (s : string) : M unit := push_string s.
Definition lua_istype (idx t : Z) : M bool := let^ u := lua_type idx in mret (u =? t).
Definition lua_isnil (idx : Z) : M bool := lua_istype idx 0.
Definition lua_istable (idx : Z) : M bool := lua_istype idx 5.
Definition lua_isnoneornil (idx : Z) : M bool := let^ t := lua_type idx in mret (t <=? 0).
Definition quoted (s : string) : string := "'" +:+ s +:+ "'".

(** ** Error reports *)
Definition luaL_where (level : Z) : M unit :=
  let^ L := state in
  let^ w := the_world in
  match position_at level L w with
  | Some (short_src, currentline) =>
      if 0 <? currentline then pushfstring (short_src +:+ ":" +:+ pretty currentline +:+ ": ") else lua_pushlstring []
  | None => lua_pushlstring []
  end.
Definition luaL_error {A} (msg : string) : M A :=
  do^ luaL_where 1 in
  do^ pushfstring msg in
  do^ lua_concat 2 in
  lua_error.
Definition luaL_argerror {A} (narg : Z) (extramsg : string) : M A :=
  let^ L := state in
  let^ w := the_world in
  match called_as L w with
  | None => luaL_error ("bad argument #" +:+ pretty narg +:+ " (" +:+ extramsg +:+ ")")
  | Some (namewhat, name) =>
      let is_method := bool_decide (namewhat = "method"%string) in
      let narg := if is_method then narg - 1 else narg in
      if is_method && (narg =? 0) then luaL_error ("calling " +:+ quoted (default "(null)"%string name) +:+ " on bad self (" +:+ extramsg +:+ ")")
      else luaL_error ("bad argument #" +:+ pretty narg +:+ " to " +:+ quoted (default "?"%string name) +:+ " (" +:+ extramsg +:+ ")")
  end.
Definition luaL_typerror {A} (narg : Z) (tname : string) : M A :=
  let^ t := lua_type narg in
  let^ got := lift (lua_typename t) in
  let msg := (tname +:+ " expected, got " +:+ got)%string in
  do^ pushfstring msg in
  luaL_argerror narg msg.
Definition tag_error {A} (narg tag : Z) : M A := let^ tname := lift (lua_typename tag) in luaL_typerror narg tname.

(** ** Argument checks *)
Definition luaL_checkstack (space : Z) (mes : string) : M unit :=
  let^ ok := lua_checkstack space in if (ok : bool) then mret tt else luaL_error ("stack overflow (" +:+ mes +:+ ")").
Definition luaL_checktype (narg t : Z) : M unit := let^ u := lua_type narg in if u =? t then mret tt else tag_error narg t.
Definition luaL_checkany (narg : Z) : M unit := let^ u := lua_type narg in if u =? LUA_TNONE then luaL_argerror narg "value expected" else mret tt.
Definition luaL_checklstring (narg : Z) : M bytes :=
  let^ s := lua_tolstring narg in match s with Some s => mret s | None => tag_error narg 4 end.
Definition luaL_optlstring (narg : Z) (def : option bytes) : M (option bytes) :=
  let^ none := lua_isnoneornil narg in
  if (none : bool) then mret def else let^ s := luaL_checklstring narg in mret (Some s).
Definition luaL_checknumber (narg : Z) : M Z :=
  let^ d := lua_tonumber narg in
  let^ ok := if luai_numeq d 0 then lua_isnumber narg else mret true in
  if (ok : bool) then mret d else tag_error narg 3.
Definition luaL_optnumber (narg def : Z) : M Z := let^ none := lua_isnoneornil narg in if (none : bool) then mret def else luaL_checknumber narg.
Definition luaL_checkinteger (narg : Z) : M Z :=
  let^ d := lua_tointeger narg in
  let^ ok := if d =? 0 then lua_isnumber narg else mret true in
  if (ok : bool) then mret d else tag_error narg 3.
Definition luaL_optinteger (narg def : Z) : M Z := let^ none := lua_isnoneornil narg in if (none : bool) then mret def else luaL_checkinteger narg.
Fixpoint find_option (lst : list string) (name : bytes) (i : Z) : option Z :=
  match lst with [] => None | s :: lst => if bool_decide (bytes_of_string s = cstr name) then Some i else find_option lst name (i + 1) end.

Definition luaL_checkoption (narg : Z) (def : option bytes) (lst : list string) : M Z :=
  let^ name := match def with
               | Some _ => let^ s := luaL_optlstring narg def in lift s
               | None => luaL_checklstring narg
               end in
  match find_option lst name 0 with
  | Some i => mret i
  | None =>
      let msg := ("invalid option " +:+ quoted (string_of_bytes (cstr name)))%string in
      do^ pushfstring msg in
      luaL_argerror narg msg
  end.

(** ** Metatables *)
Definition luaL_newmetatable (tname : bytes) : M bool :=
  do^ lua_getfield LUA_REGISTRYINDEX tname in
  let^ absent := lua_isnil (-1) in
  if negb absent then mret false
  else
    do^ lua_pop 1 in
    do^ lua_createtable 0 0 in
    do^ lua_pushvalue (-1) in
    do^ lua_setfield LUA_REGISTRYINDEX tname in
    mret true.
Definition luaL_checkudata (ud : Z) (tname : bytes) (shown : string) : M Z :=
  let^ p := lua_touserdata ud in
  match p with
  | None => luaL_typerror ud shown
  | Some p =>
      let^ has := lua_getmetatable ud in
      if (has : bool) then
        do^ lua_getfield LUA_REGISTRYINDEX tname in
        let^ same := lua_rawequal (-1) (-2) in
        if (same : bool) then do^ lua_pop 2 in mret p else luaL_typerror ud shown
      else luaL_typerror ud shown
  end.
Definition luaL_getmetafield (obj : Z) (event : bytes) : M bool :=
  let^ has := lua_getmetatable obj in
  if negb has then mret false
  else
    do^ lua_pushstring (Some event) in
    do^ lua_rawget (-2) in
    let^ absent := lua_isnil (-1) in
    if (absent : bool) then do^ lua_pop 2 in mret false
    else do^ lua_remove (-2) in mret true.
Definition luaL_callmeta (obj : Z) (event : bytes) : M bool :=
  let^ obj := abs_index obj in
  let^ has := luaL_getmetafield obj event in
  if negb has then mret false
  else do^ lua_pushvalue obj in do^ lua_call 1 1 in mret true.

(** ** Libraries *)
(** The name up to the dot, and what is behind it if there is one. *)
Fixpoint split_dot (s : bytes) : bytes * option bytes :=
  match s with
  | [] => ([], None)
  | b :: s => if b =? 46 then ([], Some s) else let (e, rest) := split_dot s in (b :: e, rest)
  end.
Fixpoint findtable_loop (turns : nat) (fname : bytes) (szhint : Z) : M (option bytes) :=
  match turns with
  | O => undefined
  | S turns =>
      let (e, rest) := split_dot fname in
      do^ lua_pushlstring e in
      do^ lua_rawget (-2) in
      let^ absent := lua_isnil (-1) in
      let^ bad :=
        if (absent : bool) then
          do^ lua_pop 1 in
          do^ lua_createtable 0 (match rest with Some _ => 1 | None => szhint end) in
          do^ lua_pushlstring e in
          do^ lua_pushvalue (-2) in
          do^ lua_settable (-4) in
          mret false
        else
          let^ t := lua_istable (-1) in
          if (t : bool) then mret false else do^ lua_pop 2 in mret true in
      if (bad : bool) then mret (Some fname)
      else
        do^ lua_remove (-2) in
        match rest with Some rest => findtable_loop turns rest szhint | None => mret None end
  end.
(** [None]: the table is on the top; otherwise the part of the name that is no table. *)
Definition luaL_findtable (idx : Z) (fname : bytes) (szhint : Z) : M (option bytes) :=
  do^ lua_pushvalue idx in
  findtable_loop (S (length (cstr fname))) (cstr fname) szhint.

Fixpoint copy_upvalues (n : nat) (nup : Z) : M unit :=
  match n with O => mret tt | S n => do^ lua_pushvalue (- nup) in copy_upvalues n nup end.
Fixpoint register_loop (l : list (bytes * Z)) (nup : Z) : M unit :=
  match l with
  | [] => mret tt
  | (name, func) :: l =>
      do^ copy_upvalues (Z.to_nat nup) nup in
      do^ lua_pushcclosure func nup in
      do^ lua_setfield (- (nup + 2)) name in
      register_loop l nup
  end.
Definition luaI_openlib (libname : option (bytes * string)) (l : list (bytes * Z)) (nup : Z) : M unit :=
  do^ match libname with
      | None => mret tt
      | Some (libname, shown) =>
          let size := Z.of_nat (length l) in
          let^ _ := luaL_findtable LUA_REGISTRYINDEX (bytes_of_string "_LOADED") 1 in
          do^ lua_getfield (-1) libname in
          let^ t := lua_istable (-1) in
          do^ (if (t : bool) then mret tt
               else
                 do^ lua_pop 1 in
                 let^ conflict := luaL_findtable LUA_GLOBALSINDEX libname size in
                 do^ match conflict with Some _ => luaL_error ("name conflict for module " +:+ quoted shown) | None => mret tt end in
                 do^ lua_pushvalue (-1) in
                 lua_setfield (-3) libname) in
          do^ lua_remove (-2) in
          lua_insert (- (nup + 1))
      end in
  do^ register_loop l nup in
  lua_pop nup.
Definition luaL_register (libname : option (bytes * string)) (l : list (bytes * Z)) : M unit := luaI_openlib libname l 0.

(** ** Buffers *)
Record luaL_Buffer := { buffer : bytes; lvl : Z }.
Variable LUAL_BUFFERSIZE : Z.
Definition bufffree (B : luaL_Buffer) : Z := LUAL_BUFFERSIZE - Z.of_nat (length (buffer B)).

Definition luaL_buffinit : luaL_Buffer := {| buffer := []; lvl := 0 |}.
(** The characters go to the stack; whether there were any. *)
Definition emptybuffer (B : luaL_Buffer) : M (bool * luaL_Buffer) :=
  if bool_decide (buffer B = []) then mret (false, B)
  else do^ lua_pushlstring (buffer B) in mret (true, {| buffer := []; lvl := lvl B + 1 |}).
(** The number of strings to put together: all on the top that are shorter than what
    is above them, and more if there are too many. *)
Fixpoint toget_loop (turns : nat) (lvl toget toplen : Z) : M Z :=
  match turns with
  | O => undefined
  | S turns =>
      let^ l := lua_objlen (- (toget + 1)) in
      if (LIMIT <=? lvl - toget + 1) || (l <? toplen) then
        if toget + 1 <? lvl then toget_loop turns lvl (toget + 1) (toplen + l) else mret (toget + 1)
      else mret toget
  end.
Definition adjuststack (B : luaL_Buffer) : M luaL_Buffer :=
  if 1 <? lvl B then
    let^ toplen := lua_objlen (-1) in
    let^ toget := toget_loop (Z.to_nat (lvl B)) (lvl B) 1 toplen in
    do^ lua_concat toget in
    mret {| buffer := buffer B; lvl := lvl B - toget + 1 |}
  else mret B.
Definition luaL_prepbuffer (B : luaL_Buffer) : M luaL_Buffer :=
  let^ (some, B) := emptybuffer B in if (some : bool) then adjuststack B else mret B.
(** The character is written into the buffer; there must be room by then. *)
Definition luaL_addchar (B : luaL_Buffer) (c : Z) : M luaL_Buffer :=
  let^ B := if Z.of_nat (length (buffer B)) <? LUAL_BUFFERSIZE then mret B else luaL_prepbuffer B in
  if Z.of_nat (length (buffer B)) <? LUAL_BUFFERSIZE then mret {| buffer := buffer B ++ [c]; lvl := lvl B |} else undefined.
Fixpoint luaL_addlstring (B : luaL_Buffer) (s : bytes) : M luaL_Buffer :=
  match s with [] => mret B | c :: s => let^ B := luaL_addchar B c in luaL_addlstring B s end.
Definition luaL_addstring (B : luaL_Buffer) (s : bytes) : M luaL_Buffer := luaL_addlstring B (cstr s).
Definition luaL_pushresult (B : luaL_Buffer) : M luaL_Buffer :=
  let^ (_, B) := emptybuffer B in
  do^ lua_concat (lvl B) in
  mret {| buffer := buffer B; lvl := 1 |}.
(** The value on the top is added; it is a string or a number. *)
Definition luaL_addvalue (B : luaL_Buffer) : M luaL_Buffer :=
  let^ s := lua_tolstring (-1) in
  match s with
  | None => undefined
  | Some s =>
      if Z.of_nat (length s) <=? bufffree B then do^ lua_pop 1 in mret {| buffer := buffer B ++ s; lvl := lvl B |}
      else
        let^ (some, B) := emptybuffer B in
        do^ (if (some : bool) then lua_insert (-2) else mret tt) in
        adjuststack {| buffer := buffer B; lvl := lvl B + 1 |}
  end.

(** [strstr]: what is in front of the first [p] in [s], and behind it. *)
Fixpoint strstr (s p : bytes) : option (bytes * bytes) :=
  if bool_decide (take (length p) s = p) then Some ([], drop (length p) s)
  else match s with [] => None | c :: s => '(a, b) ← strstr s p; Some (c :: a, b) end.
Fixpoint gsub_loop (turns : nat) (B : luaL_Buffer) (s p r : bytes) : M luaL_Buffer :=
  match turns with
  | O => undefined
  | S turns =>
      match strstr s p with
      | Some (prefix, rest) =>
          let^ B := luaL_addlstring B prefix in
          let^ B := luaL_addstring B r in
          gsub_loop turns B rest p r
      | None => luaL_addstring B s
      end
  end.
Definition luaL_gsub (s p r : bytes) : M (option bytes) :=
  let^ B := gsub_loop (S (length (cstr s))) luaL_buffinit (cstr s) (cstr p) r in
  let^ _ := luaL_pushresult B in
  lua_tolstring (-1).

(** ** References *)
Definition luaL_ref (t : Z) : M Z :=
  let^ t := abs_index t in
  let^ absent := lua_isnil (-1) in
  if (absent : bool) then do^ lua_pop 1 in mret LUA_REFNIL
  else
    do^ lua_rawgeti t FREELIST_REF in
    let^ ref := lua_tointeger (-1) in
    do^ lua_pop 1 in
    let^ ref :=
      if negb (ref =? 0) then do^ lua_rawgeti t ref in do^ lua_rawseti t FREELIST_REF in mret ref
      else let^ n := lua_objlen t in mret (n + 1) in
    do^ lua_rawseti t ref in
    mret ref.
Definition luaL_unref (t ref : Z) : M unit :=
  if 0 <=? ref then
    let^ t := abs_index t in
    do^ lua_rawgeti t FREELIST_REF in
    do^ lua_rawseti t ref in
    do^ lua_pushinteger ref in
    lua_rawseti t FREELIST_REF
  else mret tt.
End Auxlib.

(** ** String buffers (the buffers of src/lua/lauxlib.c)

    A buffer keeps its pieces as strings on the stack and puts some of them together
    before there are too many. Behind any sequence of additions [luaL_pushresult] leaves
    one string, of all that was added, and twelve free slots are enough. *)
(** What the string table promises: a new string has its bytes, and the others stay. *)
Class StringLaws (W : Type) `{LuaState W} := {
  is_str : W -> Z -> Prop;
  newlstr_ok w s : is_str (luaS_newlstr w s).2 (luaS_newlstr w s).1 /\ getstr (luaS_newlstr w s).2 (luaS_newlstr w s).1 = s;
  newlstr_keeps w s q : is_str w q -> is_str (luaS_newlstr w s).2 q /\ getstr (luaS_newlstr w s).2 q = getstr w q;
}.

Section Concat.
Context {W : Type} `{StringLaws W}.
Implicit Types (w : W) (vs : list tvalue) (ss : list bytes).

Definition string_is (w : W) (v : tvalue) (s : bytes) : Prop := exists a, v = TGC GString a /\ is_str w a /\ getstr w a = s.
Definition strings_are (w : W) (vs : list tvalue) (ss : list bytes) : Prop := Forall2 (string_is w) vs ss.
(** Strings stay what they are. *)
Definition keeps (w w' : W) : Prop := forall q, is_str w q -> is_str w' q /\ getstr w' q = getstr w q.

Lemma strings_refl w : keeps w w.
Proof. by intros q. Qed.
Lemma strings_trans w1 w2 w3 : keeps w1 w2 -> keeps w2 w3 -> keeps w1 w3.
Proof. intros H1 H2 q Hq. destruct (H1 q Hq) as [Ha Ea]. destruct (H2 q Ha) as [Hb Eb]. split; [done|congruence]. Qed.
Lemma keeps_new w s : keeps w (luaS_newlstr w s).2.
Proof. intros q Hq. by apply newlstr_keeps. Qed.
Lemma string_keeps w w' v s : keeps w w' -> string_is w v s -> string_is w' v s.
Proof. intros Hk (a & -> & Ha & <-). exists a. split; [done|]. by apply Hk. Qed.
Lemma strings_keep w w' vs ss : keeps w w' -> strings_are w vs ss -> strings_are w' vs ss.
Proof. intros Hk Hs. eapply Forall2_impl; [exact Hs|]. intros v s. by apply string_keeps. Qed.
Lemma new_string_is w s : string_is (luaS_newlstr w s).2 (TGC GString (luaS_newlstr w s).1) s.
Proof. eexists. split; [done|]. apply newlstr_ok. Qed.

(** ** Concatenation of strings *)
Lemma rget_middle (a b : list tvalue) x i : i = Z.of_nat (length a) -> rget (a ++ x :: b) i = Some x.
Proof. intros ->. unfold rget. destruct (Z.ltb_spec (Z.of_nat (length a)) 0); [lia|]. rewrite Nat2Z.id. by apply list_lookup_middle. Qed.
Lemma rset_middle (a b : list tvalue) x y i : i = Z.of_nat (length a) -> rset (a ++ x :: b) i y = Some (a ++ y :: b).
Proof.
  intros ->. unfold rset. assert ((0 <=? Z.of_nat (length a)) && (Z.of_nat (length a) <? Z.of_nat (length (a ++ x :: b))) = true) as -> by (rewrite length_app; cbn; lia).
  by rewrite Nat2Z.id, insert_middle.
Qed.
Lemma tostring_string w (a b : list tvalue) x s i : string_is w x s -> i = Z.of_nat (length a) -> tostring_reg w (a ++ x :: b) i = Some (true, a ++ x :: b, w).
Proof. intros (p & -> & _) Hi. unfold tostring_reg. rewrite (rget_middle _ _ _ _ Hi). cbn. by rewrite (rset_middle _ _ _ _ _ Hi). Qed.
Lemma string_reg_is w (a b : list tvalue) x s i : string_is w x s -> i = Z.of_nat (length a) -> string_reg w (a ++ x :: b) i = Some s.
Proof. intros (p & -> & _ & <-) Hi. unfold string_reg. by rewrite (rget_middle _ _ _ _ Hi). Qed.

Definition joined ss : Z := Z.of_nat (length (mjoin ss)).
Lemma collect_strings w pre : forall vs ss post n buf, strings_are w vs ss -> joined ss + Z.of_nat (length buf) < MAX_SIZET ->
  collect (length vs) w (pre ++ vs ++ post) (Z.of_nat (length pre + length vs) - 1) n buf = lret (n + Z.of_nat (length vs), mjoin ss ++ buf, pre ++ vs ++ post, w).
Proof.
  intros vs. induction vs as [|v vs IH] using rev_ind; intros ss post n buf Hs Hj.
  - apply Forall2_nil_inv_l in Hs as ->. cbn. by rewrite Z.add_0_r.
  - apply Forall2_app_inv_l in Hs as (ss' & [|s [|]] & Hs & Hv & ->); try by (apply Forall2_length in Hv). apply Forall2_cons in Hv as [Hv _].
    unfold joined in *. rewrite join_app in *. cbn in Hj. rewrite app_nil_r in *. rewrite length_app in Hj.
    rewrite length_app. cbn [length]. rewrite Nat.add_1_r. cbn [collect]. rewrite <- (app_assoc vs [v] post). cbn [app].
    assert (Z.of_nat (length pre + S (length vs)) - 1 = Z.of_nat (length (pre ++ vs))) as Ei by (rewrite length_app; lia). rewrite Ei.
    rewrite !(app_assoc pre vs). rewrite (tostring_string w (pre ++ vs) post v s _ Hv eq_refl). cbn [llift fmap option_fmap option_map lbind].
    rewrite (string_reg_is w (pre ++ vs) post v s _ Hv eq_refl). cbn [llift fmap option_fmap option_map lbind].
    assert ((MAX_SIZET - Z.of_nat (length buf) <=? Z.of_nat (length s)) = false) as -> by lia.
    rewrite <- (app_assoc pre vs). rewrite length_app in *.
    replace (Z.of_nat (length pre + length vs) - 1) with (Z.of_nat (length pre + length vs) - 1) by done.
    rewrite (IH ss' (v :: post) (n + 1) (s ++ buf) Hs) by (unfold joined; rewrite length_app; lia).
    unfold lret. cbn. rewrite app_nil_r, <- !app_assoc. do 5 f_equal. lia.
Qed.

(** The strings at the end of the registers become one. *)
Definition joined_to (w : W) (pre : list tvalue) (n : nat) (s' : registers) (w' : W) (bs : bytes) : Prop := exists v rest,
  s' = pre ++ v :: rest /\ length (v :: rest) = n /\ string_is w' v bs /\ keeps w w'.

Lemma concat_strings w pre : forall vs turns ss post, (1 <= length vs)%nat -> (length vs <= S turns)%nat -> strings_are w vs ss -> joined ss < MAX_SIZET ->
  exists s' w', (if 1 <? Z.of_nat (length vs) then concat_loop turns w (pre ++ vs ++ post) (Z.of_nat (length vs)) (Z.of_nat (length pre + length vs) - 1) else lret (pre ++ vs ++ post, w)) = lret (s', w') /\
    joined_to w pre (length vs + length post) s' w' (mjoin ss).
Proof.
  intros vs. induction vs as [|v2 vs0 IH0] using rev_ind; intros turns ss post Hn Ht Hs Hj; [cbn in Hn; lia|].
  apply Forall2_app_inv_l in Hs as (ss0 & [|s2 [|]] & Hs0 & Hv2 & ->); try by (apply Forall2_length in Hv2). apply Forall2_cons in Hv2 as [Hv2 _].
  unfold joined in *. rewrite join_app in *. cbn [mjoin list_join] in *. rewrite app_nil_r in *. rewrite length_app in *. cbn [length] in *. rewrite Nat.add_1_r in *.
  destruct vs0 as [|v1 vs1 _] using rev_ind.
  - apply Forall2_nil_inv_l in Hs0 as ->. cbn. exists (pre ++ v2 :: post), w. split; [done|]. exists v2, post. split; [done|]. split; [done|]. split; [done|apply strings_refl].
  - apply Forall2_app_inv_l in Hs0 as (ss1 & [|s1 [|]] & Hs1 & Hv1 & ->); try by (apply Forall2_length in Hv1).
    assert (strings_are w (vs1 ++ [v1]) (ss1 ++ [s1])) as Hs01 by (by apply Forall2_app). apply Forall2_cons in Hv1 as [Hv1 _].
    rewrite length_app in *. cbn [length] in *. destruct turns as [|turns]; [lia|].
    assert ((1 <? Z.of_nat (S (length vs1 + 1))) = true) as -> by lia. cbn [concat_loop].
    assert (pre ++ ((vs1 ++ [v1]) ++ [v2]) ++ post = (pre ++ vs1) ++ v1 :: v2 :: post) as E1 by (by rewrite <- !app_assoc).
    assert (pre ++ ((vs1 ++ [v1]) ++ [v2]) ++ post = (pre ++ vs1 ++ [v1]) ++ v2 :: post) as E2 by (by rewrite <- !app_assoc).
    set (s := pre ++ ((vs1 ++ [v1]) ++ [v2]) ++ post) in *. set (last := Z.of_nat (length pre + S (length vs1 + 1)) - 1).
    assert (last - 1 = Z.of_nat (length (pre ++ vs1))) as L1 by (unfold last; rewrite length_app; lia).
    assert (last = Z.of_nat (length (pre ++ vs1 ++ [v1]))) as L2 by (unfold last; rewrite !length_app; cbn; lia).
    assert (rget s (last - 1) = Some v1) as R1 by (rewrite E1; by apply rget_middle). assert (rget s last = Some v2) as R2 by (rewrite E2; by apply rget_middle).
    assert (tostring_reg w s last = Some (true, s, w)) as T2 by (rewrite E2; by eapply tostring_string).
    assert (string_reg w s last = Some s2) as S2 by (rewrite E2; by eapply string_reg_is).
    assert (ttisstring v1 = true) as I1 by (destruct Hv1 as (? & -> & _); done).
    unfold concat_turn. rewrite R1, R2. cbn [llift fmap option_fmap option_map lbind]. rewrite I1. cbn [orb]. rewrite T2. cbn [llift fmap option_fmap option_map lbind negb].
    rewrite S2. cbn [llift fmap option_fmap option_map lbind]. destruct (length s2 =? 0)%nat eqn:E0.
    + assert (s2 = []) as -> by (destruct s2; [done|discriminate]). rewrite app_nil_r in *.
      assert (tostring_reg w s (last - 1) = Some (true, s, w)) as -> by (rewrite E1; by eapply tostring_string). cbn [llift fmap option_fmap option_map lbind lret].
      destruct (IH0 turns (ss1 ++ [s1]) (v2 :: post)) as (s' & w' & E & Hq); [rewrite ?length_app; cbn; lia|rewrite ?length_app; cbn; lia|done|cbn in Hj; lia|].
      exists s', w'.
      replace (Z.of_nat (S (length vs1 + 1)) - (2 - 1)) with (Z.of_nat (length vs1 + 1)) by lia. replace (last - (2 - 1)) with (Z.of_nat (length pre + (length vs1 + 1)) - 1) by (unfold last; lia).
      rewrite <- app_assoc in E. cbn [app] in E. split; [rewrite <- E; unfold s; by rewrite <- !app_assoc|].
      by replace (S (length vs1 + 1) + length post)%nat with (length vs1 + 1 + S (length post))%nat by lia.
    + rewrite join_app in *. cbn [mjoin list_join] in *. rewrite app_nil_r in *.
      pose proof (collect_strings w pre (vs1 ++ [v1]) (ss1 ++ [s1]) (v2 :: post) 1 s2 Hs01) as Hc. unfold joined in Hc. rewrite join_app in Hc. cbn [mjoin list_join] in Hc.
      rewrite app_nil_r in Hc. specialize (Hc ltac:(rewrite !length_app in *; lia)). rewrite length_app in Hc. cbn [length] in Hc.
      replace (Z.to_nat (Z.of_nat (S (length vs1 + 1)) - 1)) with (length vs1 + 1)%nat by lia.
      replace (last - 1) with (Z.of_nat (length pre + (length vs1 + 1)) - 1) by (unfold last; lia).
      assert (pre ++ (vs1 ++ [v1]) ++ v2 :: post = s) as E3 by (unfold s; by rewrite <- !app_assoc). rewrite E3 in Hc. rewrite Hc. cbn [lbind lret].
      set (bs := (mjoin ss1 ++ s1) ++ s2). destruct (luaS_newlstr w bs) as [p w'] eqn:En.
      assert (exists x rest, s = pre ++ x :: rest /\ length rest = (length vs1 + 1 + length post)%nat) as (x & rest & Es & Hrest).
      { destruct vs1 as [|x vs1]; [exists v1, (v2 :: post)|exists x, (vs1 ++ v1 :: v2 :: post)]; (split; [unfold s; cbn; by rewrite <- ?app_assoc|cbn; rewrite ?length_app; cbn; lia]). }
      rewrite Es, (rset_middle pre rest x (TGC GString p)) by (unfold last; lia). cbn [llift fmap option_fmap option_map lbind]. cbn [lret lbind].
      assert ((1 <? Z.of_nat (S (length vs1 + 1)) - (1 + Z.of_nat (length vs1 + 1) - 1)) = false) as -> by lia.
      exists (pre ++ TGC GString p :: rest), w'. split; [done|]. exists (TGC GString p), rest. split; [done|]. split; [cbn; lia|].
      pose proof (new_string_is w bs) as Hn1. pose proof (keeps_new w bs) as Hn2. rewrite En in Hn1, Hn2. by split.
Qed.
End Concat.

(** ** Pieces on the stack *)
Section Buffers.
Context {W : Type} `{ApiHeap W} `{!StringLaws W}.
Variable LUAL_BUFFERSIZE : Z.
Hypothesis some_size : 0 < LUAL_BUFFERSIZE.
Implicit Types (L : lua_State) (w : W) (vs : list tvalue) (B : luaL_Buffer).

Lemma inserts_middle (a m b s : list tvalue) : length s = length m -> list_inserts (length a) s (a ++ m ++ b) = a ++ s ++ b.
Proof.
  intros Hl. replace (length a) with (length a + 0)%nat by lia. rewrite list_inserts_app_r. f_equal. apply list_eq. intros j.
  destruct (decide (j < length s)%nat).
  - rewrite list_lookup_inserts by (rewrite ?length_app; lia). rewrite Nat.sub_0_r. by rewrite lookup_app_l.
  - rewrite list_lookup_inserts_ge by lia. rewrite !lookup_app_r by lia. by rewrite Hl.
Qed.
Lemma frame_values_shaped below vs above L : shaped below vs above L -> frame_values L = vs.
Proof.
  intros [Hs Hb Ht]. unfold frame_values. rewrite Hs, Hb, Ht, Nat2Z.id, drop_app_length.
  replace (Z.to_nat _) with (length vs) by lia. by rewrite take_app_length.
Qed.

Lemma lua_concat_strings below vs0 vs above L w ss : shaped below (vs0 ++ vs) above L -> strings_are w vs ss -> joined ss < MAX_SIZET -> (0 < length vs + length above)%nat ->
  exists v above' w', lua_concat (Z.of_nat (length vs)) L w = Some (Ok tt, reshaped below (vs0 ++ [v]) above' L, w') /\
    (S (length above') = length vs + length above)%nat /\ string_is w' v (mjoin ss) /\ keeps w w'.
Proof.
  intros Hsh Hs Hj Hr. unfold lua_concat. rewrite (mbind_eq state _ L w L L w eq_refl). destruct vs as [|v1 vs].
  - apply Forall2_nil_inv_l in Hs as ->. cbn [length]. rewrite app_nil_r in Hsh. destruct above as [|x above]; [cbn in Hr; lia|]. change (2 <=? Z.of_nat 0) with false. change (Z.of_nat 0 =? 0) with true. cbv iota.
    pose proof (new_string_is w []) as Hn. pose proof (keeps_new w []) as Hk. destruct (luaS_newlstr w []) as [p w'] eqn:E. cbn in Hn, Hk.
    exists (TGC GString p), above, w'. split; [|done]. rewrite (mbind_eq (new_string []) _ L w (TGC GString p) L w') by (unfold new_string; by rewrite E). by eapply push_shaped.
  - destruct vs as [|v2 vs].
    + destruct ss as [|s1 [|]]; try by (apply Forall2_length in Hs). apply Forall2_cons in Hs as [Hv _]. cbn. exists v1, above, w. split; [|split; [done|split; [by rewrite app_nil_r|apply strings_refl]]].
      by rewrite <- (reshaped_id _ _ _ _ Hsh).
    + set (l := v1 :: v2 :: vs) in *. assert ((2 <=? Z.of_nat (length l)) = true) as -> by (cbn; lia).
      destruct (concat_strings w vs0 l (Z.to_nat (Z.of_nat (length l)) + 1) ss [] ltac:(cbn; lia) ltac:(lia) Hs Hj) as (s' & w' & E & v & rest & -> & Hl & Hv & Hk).
      assert ((1 <? Z.of_nat (length l)) = true) as E1 by (cbn; lia). rewrite E1, app_nil_r in E. cbn [length] in Hl. rewrite Nat.add_0_r in Hl.
      exists v, (rest ++ above), w'. split; [|split; [rewrite length_app; lia|done]].
      assert (top L - base L - 1 = Z.of_nat (length vs0 + length l) - 1) as Ei by (destruct Hsh as [_ Hb Ht]; rewrite Hb, Ht, length_app; lia).
      erewrite (mbind_eq (vm_ _) _ L w tt); [|unfold vm_, vm; rewrite (frame_values_shaped _ _ _ _ Hsh); unfold luaV_concat; rewrite Ei, E; reflexivity].
      unfold pop, upd, reshaped, with_top, with_stack. cbn [stack top base ci callers savedpc size_ci nCcalls baseCcalls status allowhook hook hookmask errfunc].
      destruct Hsh as [Hst Hb Ht]. do 3 f_equal. f_equal.
      * rewrite Hst, Hb, Nat2Z.id. rewrite inserts_middle by (rewrite !length_app; cbn [length]; lia). by rewrite <- !app_assoc.
      * rewrite Ht, !length_app. cbn [length]. lia.
Qed.

(** ** The state of a buffer *)
Section Run.
Variables (L0 : lua_State) (below vs0 : list tvalue) (room : nat) (w0 : W).
Hypothesis base0 : base L0 = Z.of_nat (length below).

(** At most [n] pieces of the buffer are on the stack, on top of [vs0]; with the
    characters of the buffer they are [content]. *)
Definition buffered (n : Z) (content : bytes) (B : luaL_Buffer) (L : lua_State) (w : W) : Prop := exists vs above ss,
  L = reshaped below (vs0 ++ vs) above L0 /\ (length vs + length above = room)%nat /\ strings_are w vs ss /\ keeps w0 w /\
  (lvl B = Z.of_nat (length vs) /\ lvl B <= n) /\ mjoin ss ++ buffer B = content.

Lemma buffered_shaped vs above : shaped below (vs0 ++ vs) above (reshaped below (vs0 ++ vs) above L0).
Proof. by split. Qed.
Lemma buffered_mono n n' content B L w : buffered n content B L w -> n <= n' -> buffered n' content B L w.
Proof. intros (vs & above & ss & ? & ? & ? & ? & ? & ?) Hn. exists vs, above, ss. repeat (split; [done|]). split; [lia|done]. Qed.

Lemma emptybuffer_ok n content B L w : buffered n content B L w -> n < Z.of_nat room ->
  exists b B' L' w', emptybuffer B L w = Some (Ok (b, B'), L', w') /\ buffered (if b : bool then n + 1 else n) content B' L' w' /\ buffer B' = [] /\ (b = true -> 0 < lvl B').
Proof.
  intros (vs & above & ss & -> & Hr & Hs & Hk & Hl & Hc) Hn. unfold emptybuffer. destruct (decide (buffer B = [])) as [Eb|Eb].
  - rewrite bool_decide_eq_true_2 by done. exists false, B. eexists _, w. split; [reflexivity|]. split; [|done]. by exists vs, above, ss.
  - rewrite bool_decide_eq_false_2 by done. destruct above as [|x above]; [cbn in Hr; lia|].
    pose proof (new_string_is w (buffer B)) as Hs1. pose proof (keeps_new w (buffer B)) as Hs2. destruct (luaS_newlstr w (buffer B)) as [p w'] eqn:E. cbn in Hs1, Hs2.
    exists true, {| buffer := []; lvl := lvl B + 1 |}, (reshaped below (vs0 ++ vs ++ [TGC GString p]) above L0), w'. split.
    + unfold lua_pushlstring. erewrite mbind_eq; [reflexivity|]. rewrite (mbind_eq (new_string (buffer B)) _ _ w (TGC GString p) (reshaped below (vs0 ++ vs) (x :: above) L0) w') by (unfold new_string; by rewrite E).
      rewrite (push_shaped _ _ _ _ _ _ _ (buffered_shaped vs (x :: above))), reshaped_twice. by rewrite app_assoc.
    + split; [|split; [done|cbn; lia]]. exists (vs ++ [TGC GString p]), above, (ss ++ [buffer B]). split; [done|]. split; [rewrite length_app; cbn in *; lia|].
      split; [apply Forall2_app; [by eapply strings_keep|by constructor]|]. split; [by eapply strings_trans|]. split; [rewrite length_app; cbn; lia|].
      cbn. rewrite join_app. cbn. by rewrite !app_nil_r.
Qed.

Lemma pos_top vs i : (i < length vs)%nat -> Z.of_nat (length vs) < 10000 -> pos (Z.of_nat i - Z.of_nat (length vs)) (vs0 ++ vs) = Some (length vs0 + i)%nat.
Proof.
  intros Hi Hn. unfold pos. rewrite length_app. assert ((0 <? Z.of_nat i - Z.of_nat (length vs)) = false) as -> by lia.
  assert (((LUA_REGISTRYINDEX <? Z.of_nat i - Z.of_nat (length vs)) && (Z.of_nat i - Z.of_nat (length vs) <? 0) &&
    (0 <=? Z.of_nat (length vs0 + length vs) + (Z.of_nat i - Z.of_nat (length vs)))) = true) as -> by (change LUA_REGISTRYINDEX with (-10000); lia). f_equal. lia.
Qed.
Lemma lua_objlen_piece vs above ss w i v s : Z.of_nat (length vs) < 10000 -> strings_are w vs ss -> vs !! i = Some v -> ss !! i = Some s ->
  lua_objlen (Z.of_nat i - Z.of_nat (length vs)) (reshaped below (vs0 ++ vs) above L0) w = Some (Ok (Z.of_nat (length s)), reshaped below (vs0 ++ vs) above L0, w).
Proof.
  intros Hn Hs Hv Hss. set (L := reshaped below (vs0 ++ vs) above L0). pose proof (buffered_shaped vs above) as Hsh. fold L in Hsh.
  pose proof (pos_top vs i (lookup_lt_Some _ _ _ Hv) Hn) as Hp. unfold lua_objlen. rewrite (mbind_eq _ _ _ _ _ _ _ (index2adr_pos _ _ _ _ w _ _ Hsh Hp)).
  destruct (Forall2_lookup_lr _ _ _ _ _ _ Hs Hv Hss) as (a & -> & _ & <-).
  assert (deref (Slot (Z.of_nat (length below + (length vs0 + i)))) L w = Some (Ok (TGC GString a), L, w)) as Ed.
  { unfold deref. rewrite (mbind_eq the_world _ L w w L w eq_refl). apply slot_nat. unfold L. cbn. rewrite lookup_app_r by lia.
    replace (length below + (length vs0 + i) - length below)%nat with (length vs0 + i)%nat by lia. rewrite lookup_app_l by (rewrite length_app; apply lookup_lt_Some in Hv; lia).
    rewrite lookup_app_r by lia. by replace (length vs0 + i - length vs0)%nat with i by lia. }
  rewrite (mbind_eq _ _ _ _ _ _ _ Ed). rewrite (mbind_eq the_world _ L w w L w eq_refl). reflexivity.
Qed.

Lemma toget_loop_ok vs above ss w n : strings_are w vs ss -> n = length vs -> Z.of_nat n < 10000 -> forall turns toget toplen, 1 <= toget < Z.of_nat n -> Z.of_nat n <= Z.of_nat turns + toget ->
  let L := reshaped below (vs0 ++ vs) above L0 in
  exists k, toget_loop turns (Z.of_nat n) toget toplen L w = Some (Ok k, L, w) /\ toget <= k <= Z.of_nat n /\ (Z.of_nat n - k + 1 < LIMIT \/ k = Z.of_nat n).
Proof.
  intros Hs -> Hb turns. induction turns as [|turns IH]; intros toget toplen Ht Hn L; [lia|]. cbn [toget_loop].
  destruct (lookup_lt_is_Some_2 vs (length vs - Z.to_nat (toget + 1)) ltac:(lia)) as [v Hv].
  destruct (Forall2_lookup_l _ _ _ _ _ Hs Hv) as (s & Hss & _). pose proof (lua_objlen_piece vs above ss w _ v s Hb Hs Hv Hss) as El.
  replace (Z.of_nat (length vs - Z.to_nat (toget + 1)) - Z.of_nat (length vs)) with (- (toget + 1)) in El by lia.
  rewrite (mbind_eq _ _ _ _ _ _ _ El). destruct ((LIMIT <=? Z.of_nat (length vs) - toget + 1) || (Z.of_nat (length s) <? toplen)) eqn:E1.
  - destruct (toget + 1 <? Z.of_nat (length vs)) eqn:E2.
    + destruct (IH (toget + 1) (toplen + Z.of_nat (length s))) as (k & E & Hk & Hl); [lia|lia|]. exists k. split; [exact E|]. split; [lia|done].
    + exists (toget + 1). split; [done|]. split; [lia|]. right. lia.
  - exists toget. split; [done|]. split; [lia|]. left. lia.
Qed.

Lemma adjuststack_ok n content B L w : buffered n content B L w -> n < 10000 -> (length content < Z.to_nat MAX_SIZET)%nat -> 0 < lvl B ->
  exists B' L' w', adjuststack B L w = Some (Ok B', L', w') /\ buffered (LIMIT - 1) content B' L' w' /\ buffer B' = buffer B.
Proof.
  intros (vs & above & ss & -> & Hr & Hs & Hk & [Hl Hln] & Hc) Hn Hmax Hpos. assert (Z.of_nat (length vs) < 10000) as Hb by lia. unfold adjuststack. destruct (1 <? lvl B) eqn:E1.
  2:{ exists B. eexists _, w. split; [reflexivity|]. split; [|done]. exists vs, above, ss. repeat (split; [done|]). split; [change LIMIT with 10; lia|done]. }
  set (L := reshaped below (vs0 ++ vs) above L0).
  destruct (lookup_lt_is_Some_2 vs (length vs - 1) ltac:(lia)) as [v Hv]. destruct (Forall2_lookup_l _ _ _ _ _ Hs Hv) as (s & Hss & _).
  pose proof (lua_objlen_piece vs above ss w _ v s Hb Hs Hv Hss) as El. replace (Z.of_nat (length vs - 1) - Z.of_nat (length vs)) with (-1) in El by lia.
  rewrite (mbind_eq _ _ _ _ _ _ _ El). rewrite Hl.
  destruct (toget_loop_ok vs above ss w (length vs) Hs eq_refl Hb (Z.to_nat (Z.of_nat (length vs))) 1 (Z.of_nat (length s)) ltac:(lia) ltac:(lia)) as (k & Ek & Hk1 & Hk2).
  rewrite (mbind_eq _ _ _ _ _ _ _ Ek). set (m := (length vs - Z.to_nat k)%nat).
  rewrite <- (take_drop m vs), <- (take_drop m ss) in Hs. apply Forall2_app_inv in Hs as [Hs1 Hs2].
  2:{ rewrite !length_take. apply Forall2_length in Hs. rewrite !take_drop in Hs. by rewrite Hs. }
  assert (length (drop m vs) = Z.to_nat k) as Ld by (rewrite length_drop; lia).
  assert (mjoin ss = mjoin (take m ss) ++ mjoin (drop m ss)) as Ej by (by rewrite <- join_app, take_drop).
  destruct (lua_concat_strings below (vs0 ++ take m vs) (drop m vs) above L w (drop m ss)) as (v' & above' & w' & E & Hl' & Hv' & Hk').
  - unfold L. rewrite <- app_assoc, take_drop. apply buffered_shaped.
  - done.
  - unfold joined. rewrite <- Hc, Ej, !length_app in Hmax. lia.
  - lia.
  - rewrite Ld, Z2Nat.id in E by lia. rewrite (mbind_eq _ _ _ _ _ _ _ E). exists {| buffer := buffer B; lvl := Z.of_nat (length vs) - k + 1 |}. eexists _, w'. split; [reflexivity|]. split; [|done].
    exists (take m vs ++ [v']), above', (take m ss ++ [mjoin (drop m ss)]). unfold L. rewrite reshaped_twice. split; [by rewrite <- app_assoc|].
    assert (length (take m vs ++ [v']) = S m) as Lm by (rewrite length_app, length_take; cbn; lia).
    split; [rewrite Lm; lia|]. split; [apply Forall2_app; [by eapply strings_keep|by constructor]|]. split; [by eapply strings_trans|].
    split; [cbn [lvl]; rewrite Lm; change LIMIT with 10 in *; lia|]. cbn [buffer]. rewrite join_app. cbn [mjoin list_join]. rewrite app_nil_r, <- Ej. exact Hc.
Qed.

(** ** Additions *)
Lemma prepbuffer_ok content B L w : buffered (LIMIT - 1) content B L w -> (LIMIT <= Z.of_nat room) -> (length content < Z.to_nat MAX_SIZET)%nat ->
  exists B' L' w', luaL_prepbuffer B L w = Some (Ok B', L', w') /\ buffered (LIMIT - 1) content B' L' w' /\ buffer B' = [].
Proof.
  intros Hb Hr Hc. unfold luaL_prepbuffer. destruct (emptybuffer_ok _ _ _ _ _ Hb ltac:(lia)) as (b & B1 & L1 & w1 & E & Hb1 & E1 & Hp). rewrite (mbind_eq _ _ _ _ _ _ _ E). cbv beta iota.
  destruct b; [|by exists B1, L1, w1]. destruct (adjuststack_ok _ _ _ _ _ Hb1 ltac:(change LIMIT with 10; lia) Hc (Hp eq_refl)) as (B2 & L2 & w2 & E2 & Hb2 & Hbuf).
  exists B2, L2, w2. split; [done|]. split; [done|congruence].
Qed.
Lemma addchar_ok content B L w c : buffered (LIMIT - 1) content B L w -> (LIMIT <= Z.of_nat room) -> (length content < Z.to_nat MAX_SIZET)%nat ->
  exists B' L' w', luaL_addchar LUAL_BUFFERSIZE B c L w = Some (Ok B', L', w') /\ buffered (LIMIT - 1) (content ++ [c]) B' L' w'.
Proof.
  intros Hb Hr Hc. unfold luaL_addchar.
  assert (exists B1 L1 w1, (if Z.of_nat (length (buffer B)) <? LUAL_BUFFERSIZE then mret B else luaL_prepbuffer B) L w = Some (Ok B1, L1, w1) /\ buffered (LIMIT - 1) content B1 L1 w1 /\
    (Z.of_nat (length (buffer B1)) <? LUAL_BUFFERSIZE) = true) as (B1 & L1 & w1 & E & Hb1 & Hfree).
  { destruct (_ <? _) eqn:Ef; [by exists B, L, w|]. destruct (prepbuffer_ok _ _ _ _ Hb Hr Hc) as (B1 & L1 & w1 & E & Hb1 & Eb). exists B1, L1, w1. rewrite Eb. cbn. split; [done|]. split; [done|lia]. }
  rewrite (mbind_eq _ _ _ _ _ _ _ E), Hfree. eexists _, L1, w1. split; [reflexivity|].
  destruct Hb1 as (vs & above & ss & ? & ? & ? & ? & ? & <-). exists vs, above, ss. repeat (split; [done|]). cbn. by rewrite app_assoc.
Qed.
Lemma addlstring_ok s : forall content B L w, buffered (LIMIT - 1) content B L w -> (LIMIT <= Z.of_nat room) -> (length (content ++ s) < Z.to_nat MAX_SIZET)%nat ->
  exists B' L' w', luaL_addlstring LUAL_BUFFERSIZE B s L w = Some (Ok B', L', w') /\ buffered (LIMIT - 1) (content ++ s) B' L' w'.
Proof.
  induction s as [|c s IH]; intros content B L w Hb Hr Hc; cbn [luaL_addlstring].
  - exists B, L, w. split; [done|]. by rewrite app_nil_r.
  - destruct (addchar_ok _ _ _ _ c Hb Hr ltac:(rewrite length_app in Hc; lia)) as (B1 & L1 & w1 & E & Hb1). rewrite (mbind_eq _ _ _ _ _ _ _ E).
    destruct (IH _ _ _ _ Hb1 Hr ltac:(by rewrite <- app_assoc)) as (B2 & L2 & w2 & E2 & Hb2). exists B2, L2, w2. split; [done|]. by rewrite <- app_assoc in Hb2.
Qed.
Lemma pushresult_ok content B L w : buffered (LIMIT - 1) content B L w -> (LIMIT <= Z.of_nat room) -> (length content < Z.to_nat MAX_SIZET)%nat ->
  exists B' v above' w', luaL_pushresult B L w = Some (Ok B', reshaped below (vs0 ++ [v]) above' L0, w') /\ S (length above') = room /\ string_is w' v content /\ keeps w0 w'.
Proof.
  intros Hb Hr Hc. unfold luaL_pushresult. destruct (emptybuffer_ok _ _ _ _ _ Hb ltac:(lia)) as (b & B1 & L1 & w1 & E & Hb1 & E1 & _). rewrite (mbind_eq _ _ _ _ _ _ _ E). cbv beta iota.
  destruct Hb1 as (vs & above & ss & -> & Hroom & Hs & Hk & [Hl _] & Hcon). rewrite E1, app_nil_r in Hcon. rewrite Hl.
  destruct (lua_concat_strings below vs0 vs above _ w1 ss (buffered_shaped vs above) Hs) as (v & above' & w' & Ec & Hl' & Hv & Hk'); [unfold joined; rewrite Hcon; lia|change LIMIT with 10 in Hr; lia|].
  rewrite (mbind_eq _ _ _ _ _ _ _ Ec). rewrite reshaped_twice. eexists _, v, above', w'. split; [reflexivity|]. split; [lia|]. split; [by rewrite Hcon in Hv|by eapply strings_trans].
Qed.

(** What a string or a number is as text. *)
Definition text (v : tvalue) (s : bytes) : Prop := string_is w0 v s \/ exists n, v = TNumber n /\ s = lua_number2str n.

Lemma tolstring_text vs above w v s : Z.of_nat (length vs) < 9999 -> keeps w0 w -> text v s -> exists v' w',
  lua_tolstring (-1) (reshaped below (vs0 ++ vs ++ [v]) above L0) w = Some (Ok (Some s), reshaped below (vs0 ++ vs ++ [v']) above L0, w') /\
  string_is w' v' s /\ keeps w w'.
Proof.
  intros Hb Hk Hv. set (L := reshaped below (vs0 ++ vs ++ [v]) above L0). set (i := (length vs0 + length vs)%nat).
  assert (forall x w, index2adr (-1) (reshaped below (vs0 ++ vs ++ [x]) above L0) w = Some (Ok (Slot (Z.of_nat (length below + i))), reshaped below (vs0 ++ vs ++ [x]) above L0, w)) as Ea.
  { intros x u. pose proof (pos_top (vs ++ [x]) (length vs) ltac:(rewrite length_app; cbn; lia) ltac:(rewrite length_app; cbn; lia)) as Hp.
    rewrite length_app in Hp. cbn [length] in Hp. replace (Z.of_nat (length vs) - Z.of_nat (length vs + 1)) with (-1) in Hp by lia.
    exact (index2adr_pos _ _ _ _ u _ _ (buffered_shaped (vs ++ [x]) above) Hp). }
  assert (forall x w, deref (Slot (Z.of_nat (length below + i))) (reshaped below (vs0 ++ vs ++ [x]) above L0) w = Some (Ok x, reshaped below (vs0 ++ vs ++ [x]) above L0, w)) as Ed.
  { intros x u. unfold deref. rewrite (mbind_eq the_world _ _ u u _ u eq_refl). apply (slot_middle (below ++ vs0 ++ vs) x above); [cbn; by rewrite <- !app_assoc|rewrite !length_app; unfold i; lia]. }
  unfold lua_tolstring. rewrite (mbind_eq _ _ _ _ _ _ _ (Ea v w)). rewrite (mbind_eq _ _ _ _ _ _ _ (Ed v w)). destruct Hv as [Hv|(n & -> & ->)].
  - assert (string_is w v s) as (a & -> & Ha & <-) by (by eapply string_keeps). exists (TGC GString a), w. split; [|split; [by exists a|apply strings_refl]].
    change (ttisstring (TGC GString a)) with true. cbv iota. rewrite (mbind_eq (mret true) _ L w true L w eq_refl). cbv iota.
    unfold value_at. rewrite (mbind_eq (mbind _ _) _ L w (TGC GString a) L w) by (by rewrite (mbind_eq _ _ _ _ _ _ _ (Ea (TGC GString a) w)), Ed). by rewrite (mbind_eq the_world _ L w w L w eq_refl).
  - pose proof (new_string_is w (lua_number2str n)) as Hs1. pose proof (keeps_new w (lua_number2str n)) as Hs2. destruct (luaS_newlstr w (lua_number2str n)) as [p w'] eqn:E. cbn in Hs1, Hs2.
    exists (TGC GString p), w'. split; [|done]. change (ttisstring (TNumber n)) with false. cbv iota. set (L' := reshaped below (vs0 ++ vs ++ [TGC GString p]) above L0).
    assert (luaV_tostring (Slot (Z.of_nat (length below + i))) L w = Some (Ok true, L', w')) as Et.
    { unfold luaV_tostring. rewrite (mbind_eq _ _ _ _ _ _ _ (Ed (TNumber n) w)). rewrite (mbind_eq the_world _ _ w w _ w eq_refl). rewrite E.
      rewrite (mbind_eq (fun L _ => Some (Ok tt, L, w')) _ _ w tt _ w' eq_refl). cbn [write_place].
      rewrite (mbind_eq (setobj (Z.of_nat (length below + i)) (TGC GString p)) _ _ w' tt L' w'); [done|].
      rewrite (setobj_middle (below ++ vs0 ++ vs) (TNumber n) above (TGC GString p)); [|cbn; by rewrite <- !app_assoc|rewrite !length_app; unfold i; lia].
      unfold L', reshaped, with_top, with_stack. cbn. do 3 f_equal. f_equal; [by rewrite <- !app_assoc|rewrite !length_app; cbn; lia]. }
    rewrite (mbind_eq _ _ _ _ _ _ _ Et). cbv iota.
    unfold value_at. rewrite (mbind_eq (mbind _ _) _ L' w' (TGC GString p) L' w') by (by rewrite (mbind_eq _ _ _ _ _ _ _ (Ea (TGC GString p) w')), Ed).
    rewrite (mbind_eq the_world _ L' w' w' L' w' eq_refl). destruct Hs1 as (a & [= <-] & _ & ->). done.
Qed.

(** A value is pushed and added. *)
Definition add_value (v : tvalue) (B : luaL_Buffer) : M W luaL_Buffer := do^ push v in luaL_addvalue LUAL_BUFFERSIZE B.
Lemma addvalue_ok content B L w v s : buffered (LIMIT - 1) content B L w -> LIMIT + 2 <= Z.of_nat room -> text v s -> (length (content ++ s) < Z.to_nat MAX_SIZET)%nat ->
  exists B' L' w', add_value v B L w = Some (Ok B', L', w') /\ buffered (LIMIT - 1) (content ++ s) B' L' w'.
Proof.
  intros (vs & above & ss & -> & Hr & Hs & Hk & [Hl Hln] & Hc) Hroom Hv Hmax. change LIMIT with 10 in Hln, Hroom.
  destruct above as [|x [|y above]]; [cbn in Hr; lia..|]. unfold add_value.
  rewrite (mbind_eq _ _ _ _ _ _ _ (push_shaped _ _ _ _ v _ w (buffered_shaped vs (x :: y :: above)))). rewrite reshaped_twice, <- app_assoc.
  unfold luaL_addvalue. destruct (tolstring_text vs (y :: above) w v s ltac:(lia) Hk Hv) as (v' & w' & E & Hv' & Hk'). rewrite (mbind_eq _ _ _ _ _ _ _ E). cbv beta iota.
  assert (strings_are w' vs ss) as Hs' by (by eapply strings_keep). assert (keeps w0 w') as Hk0 by (by eapply strings_trans).
  destruct (_ <=? _) eqn:Ef.
  - destruct (settop_moves below (vs0 ++ vs ++ [v']) (y :: above) (reshaped below (vs0 ++ vs ++ [v']) (y :: above) L0) w' (-2) (vs0 ++ vs)) as (above' & Ep & Hlen).
    + apply (buffered_shaped (vs ++ [v'])).
    + cbn [spec_op]. change (0 <=? -2) with false. cbv iota. assert ((0 <=? Z.of_nat (length (vs0 ++ vs ++ [v'])) + -2 + 1) = true) as -> by (rewrite !length_app; cbn; lia).
      f_equal. rewrite (app_assoc vs0 vs [v']), length_app. cbn [length]. replace (Z.to_nat _) with (length (vs0 ++ vs)) by lia. by rewrite take_app_length.
    + unfold lua_pop. change (- (1) - 1) with (-2). rewrite (mbind_eq _ _ _ _ _ _ _ Ep). rewrite reshaped_twice. eexists _, _, w'. split; [reflexivity|].
      exists vs, above', ss. split; [done|]. split; [rewrite !length_app in Hlen; cbn in Hlen, Hr; lia|]. split; [done|]. split; [done|]. split; [cbn; change LIMIT with 10; lia|]. cbn. by rewrite app_assoc, Hc.
  - assert (exists above1 L1 w1 B1 vs1 ss1, (let^ (some, B) := emptybuffer B in do^ (if (some : bool) then lua_insert (-2) else mret tt) in adjuststack {| buffer := buffer B; lvl := lvl B + 1 |})
        (reshaped below (vs0 ++ vs ++ [v']) (y :: above) L0) w' = adjuststack B1 L1 w1 /\ buffer B1 = [] /\
      L1 = reshaped below (vs0 ++ vs1) above1 L0 /\ (length vs1 + length above1 = room)%nat /\ strings_are w1 vs1 ss1 /\ keeps w0 w1 /\ lvl B1 = Z.of_nat (length vs1) /\ 0 < lvl B1 <= 11 /\ mjoin ss1 = content ++ s)
      as (above1 & L1 & w1 & B1 & vs1 & ss1 & Ea & Eb1 & EL1 & Hr1 & Hs1 & Hk1 & Hl1 & Hl1' & Hc1).
    { unfold emptybuffer. destruct (decide (buffer B = [])) as [Eb|Eb].
      - rewrite bool_decide_eq_true_2 by done. exists (y :: above), (reshaped below (vs0 ++ vs ++ [v']) (y :: above) L0), w', {| buffer := buffer B; lvl := lvl B + 1 |}, (vs ++ [v']), (ss ++ [s]).
        split; [done|]. split; [done|]. split; [done|]. split; [rewrite length_app; cbn in *; lia|]. split; [apply Forall2_app; [done|by constructor]|]. split; [done|].
        split; [rewrite length_app; cbn; lia|]. split; [cbn; lia|]. rewrite Eb, app_nil_r in Hc. rewrite join_app. cbn. by rewrite app_nil_r, Hc.
      - rewrite bool_decide_eq_false_2 by done.
        pose proof (new_string_is w' (buffer B)) as Hn1. pose proof (keeps_new w' (buffer B)) as Hn2. destruct (luaS_newlstr w' (buffer B)) as [p w1] eqn:En. cbn in Hn1, Hn2.
        destruct above as [|z above]; [cbn in Hr; lia|]. set (b := TGC GString p) in *.
        assert (lua_pushlstring (buffer B) (reshaped below (vs0 ++ vs ++ [v']) (y :: z :: above) L0) w' = Some (Ok tt, reshaped below (vs0 ++ vs ++ [v'; b]) (z :: above) L0, w1)) as Epush.
        { unfold lua_pushlstring. rewrite (mbind_eq (new_string (buffer B)) _ _ w' b (reshaped below (vs0 ++ vs ++ [v']) (y :: z :: above) L0) w1) by (unfold new_string; by rewrite En).
          rewrite (push_shaped _ _ _ _ _ _ _ (buffered_shaped (vs ++ [v']) (y :: z :: above))), reshaped_twice. by rewrite <- !app_assoc. }
        destruct (insert_moves below (vs0 ++ vs ++ [v'; b]) (z :: above) (reshaped below (vs0 ++ vs ++ [v'; b]) (z :: above) L0) w1 (-2) (length vs0 + length vs) b) as (above' & Ei & Hlen).
        + apply (buffered_shaped (vs ++ [v'; b])).
        + cbn. lia.
        + pose proof (pos_top (vs ++ [v'; b]) (length vs)) as Hp. rewrite length_app in Hp. cbn [length] in Hp. replace (Z.of_nat (length vs) - Z.of_nat (length vs + 2)) with (-2) in Hp by lia. apply Hp; lia.
        + by rewrite !last_app.
        + rewrite reshaped_twice in Ei. set (vs1 := vs ++ [b; v']).
          assert (take (length vs0 + length vs) (vs0 ++ vs ++ [v'; b]) ++ b :: drop (length vs0 + length vs) (take (pred (length (vs0 ++ vs ++ [v'; b]))) (vs0 ++ vs ++ [v'; b])) = vs0 ++ vs1) as El.
          { rewrite !length_app. cbn [length]. replace (pred (length vs0 + (length vs + 2))) with (length (vs0 ++ vs ++ [v'])) by (rewrite !length_app; cbn; lia).
            replace (length vs0 + length vs)%nat with (length (vs0 ++ vs)) by (rewrite length_app; lia).
            replace (vs0 ++ vs ++ [v'; b]) with ((vs0 ++ vs ++ [v']) ++ [b]) by (by rewrite <- !app_assoc). rewrite take_app_length. rewrite take_app_le by (rewrite !length_app; lia).
            rewrite (app_assoc vs0 vs [v']), take_app_length, drop_app_length. unfold vs1. by rewrite <- !app_assoc. }
          rewrite El in Ei, Hlen. exists above', (reshaped below (vs0 ++ vs1) above' L0), w1, {| buffer := []; lvl := lvl B + 1 + 1 |}, vs1, (ss ++ [buffer B; s]).
          split.
          { erewrite mbind_eq; [|rewrite (mbind_eq _ _ _ _ _ _ _ Epush); reflexivity]. cbv beta iota.
            rewrite (mbind_eq _ _ _ _ _ _ _ Ei). done. }
          split; [done|]. split; [done|]. split; [unfold vs1 in *; rewrite !length_app in *; cbn in *; lia|].
          split; [apply Forall2_app; [by eapply strings_keep|constructor; [done|constructor; [by eapply string_keeps|done]]]|]. split; [by eapply strings_trans|].
          split; [unfold vs1; rewrite length_app; cbn; lia|]. split; [cbn; lia|]. rewrite join_app. cbn. by rewrite app_nil_r, app_assoc, Hc. }
    rewrite Ea. destruct (adjuststack_ok 11 (content ++ s) B1 L1 w1) as (B2 & L2 & w2 & E2 & Hb2 & _); [|lia|done|lia|by exists B2, L2, w2].
    exists vs1, above1, ss1. repeat (split; [done|]). split; [lia|]. by rewrite Eb1, app_nil_r.
Qed.
End Run.

(** ** A whole buffer *)
Inductive addition := AChars (s : bytes) | AValue (v : tvalue).
Definition add (a : addition) (B : luaL_Buffer) : M W luaL_Buffer :=
  match a with AChars s => luaL_addlstring LUAL_BUFFERSIZE B s | AValue v => add_value v B end.
Fixpoint fill (l : list addition) (B : luaL_Buffer) : M W luaL_Buffer := match l with [] => mret B | a :: l => let^ B := add a B in fill l B end.
(** The characters an addition stands for. *)
Definition added (w : W) (a : addition) (s : bytes) : Prop := match a with AChars t => s = t | AValue v => text w v s end.

Lemma additions_ok L0 below vs0 room w0 : base L0 = Z.of_nat (length below) -> LIMIT + 2 <= Z.of_nat room -> forall l ss content B L w, Forall2 (added w0) l ss ->
  buffered L0 below vs0 room w0 (LIMIT - 1) content B L w -> (length (content ++ mjoin ss) < Z.to_nat MAX_SIZET)%nat ->
  exists B' L' w', fill l B L w = Some (Ok B', L', w') /\ buffered L0 below vs0 room w0 (LIMIT - 1) (content ++ mjoin ss) B' L' w'.
Proof.
  intros Hb0 Hroom l. induction l as [|a l IH]; intros ss content B L w Hs Hb Hc.
  - apply Forall2_nil_inv_l in Hs as ->. exists B, L, w. split; [done|]. cbn. by rewrite app_nil_r.
  - apply Forall2_cons_inv_l in Hs as (s & ss' & Ha & Hs & ->). cbn [fill]. cbn in Hc. rewrite app_assoc in Hc.
    assert (exists B1 L1 w1, add a B L w = Some (Ok B1, L1, w1) /\ buffered L0 below vs0 room w0 (LIMIT - 1) (content ++ s) B1 L1 w1) as (B1 & L1 & w1 & E & Hb1).
    { rewrite length_app in Hc. destruct a as [t|v]; [cbn in Ha; subst t; apply addlstring_ok; [done..|lia|lia]|apply addvalue_ok; [done..|lia]]. }
    rewrite (mbind_eq _ _ _ _ _ _ _ E). destruct (IH ss' (content ++ s) B1 L1 w1 Hs Hb1 Hc) as (B' & L' & w' & E' & Hb'). exists B', L', w'. split; [done|]. cbn. by rewrite app_assoc.
Qed.

(** C11. A string buffer collects what is put into it. For every sequence of additions to a
    new buffer, of characters or of values that are pushed on top of it (strings and
    numbers), with a buffer of any size (but 0) and twelve free slots on the stack: no addition
    fails, writes behind the characters of the buffer or leaves the free slots, however
    long the text; [luaL_pushresult] ends, and in
    the place of all the pieces there is one string, the concatenation of all that was
    added, in order. The values of the function below and everything else of the thread
    are as before, and all strings that were there are unchanged. The pieces may have been
    put together in any of the ways of [adjuststack] and [luaV_concat]. *)
Theorem buffer_collects l ss below vs above L w : shaped below vs above L -> LIMIT + 2 <= Z.of_nat (length above) -> Forall2 (added w) l ss -> joined ss < MAX_SIZET ->
  exists B v above' w', (let^ B := fill l luaL_buffinit in luaL_pushresult B) L w = Some (Ok B, reshaped below (vs ++ [v]) above' L, w') /\
    S (length above') = length above /\ string_is w' v (mjoin ss) /\ keeps w w'.
Proof.
  intros Hsh Hroom Hs Hj. unfold joined in Hj. pose proof (sh_base _ _ _ _ Hsh) as Hb.
  assert (buffered L below vs (length above) w (LIMIT - 1) [] luaL_buffinit L w) as H0'.
  { exists [], above, []. rewrite app_nil_r. split; [by apply reshaped_id|]. split; [done|]. split; [constructor|]. split; [apply strings_refl|]. split; [by split|done]. }
  destruct (additions_ok L below vs (length above) w Hb Hroom l ss [] luaL_buffinit L w Hs H0') as (B1 & L1 & w1 & E & Hb1); [cbn; lia|]. rewrite (mbind_eq _ _ _ _ _ _ _ E).
  apply pushresult_ok; [done|done|lia|cbn; lia].
Qed.
End Buffers.

(** ** A buffer of three characters *)
Module SmallBuffer.
Import StringHeap.
#[export] Instance laws : StringLaws W.
Proof.
  refine {| is_str (w : W) (a : Z) := (Z.to_nat a < length w)%nat |}.
  - intros w s. cbn. rewrite Nat2Z.id. split; [rewrite length_app; cbn; lia|]. pose proof (list_lookup_middle w [] s (length w) eq_refl) as E. exact (f_equal (default []) E).
  - intros w s q Hq. cbn. split; [rewrite length_app; lia|]. exact (f_equal (default []) (lookup_app_l w [s] (Z.to_nat q) Hq)).
Defined.
(** The strings of the heap; the first one is on the stack. *)
Definition strings : W := [bytes_of_string "value"].
Definition additions : list addition := [AChars (bytes_of_string "some text, "); AValue (TGC GString 0); AChars (bytes_of_string ": "); AValue (TNumber 0)].
End SmallBuffer.
Import StringHeap SmallBuffer.

Lemma buffer_collects_witness : exists B v above' w',
  (let^ B := fill 3 additions luaL_buffinit in luaL_pushresult B) (thread [TNil]) strings = Some (Ok B, reshaped [TNil; TGC GFunction 1] ([TNil] ++ [v]) above' (thread [TNil]), w') /\
  string_is w' v (bytes_of_string "some text, value: a number").
Proof.
  destruct (buffer_collects 3 ltac:(lia) additions [bytes_of_string "some text, "; bytes_of_string "value"; bytes_of_string ": "; bytes_of_string "a number"]
    [TNil; TGC GFunction 1] [TNil] (replicate 42 TNil) (thread [TNil]) strings (thread_shaped _)) as (B & v & above' & w' & E & _ & Hv & _).
  - vm_compute. discriminate.
  - unfold additions. constructor; [reflexivity|]. constructor; [left; exists 0; split; [reflexivity|]; split; [cbn; lia|reflexivity]|].
    constructor; [reflexivity|]. constructor; [right; exists 0; split; reflexivity|constructor].
  - vm_compute. reflexivity.
  - exists B, v, above', w'. split; [exact E|exact Hv].
Defined.
