(* ===== verification/LBase.v ===== *)
(** * The basic library (src/lua/lbaselib.c)

    The functions of the global table and of the coroutine library, as C functions over
    the C interface: each leaves its results on the stack and returns their number. A
    coroutine is the address of a thread in the heap; resuming it runs [lua_resume] on
    that thread. The debug interface, the C library, the console, lua_gc and the threads
    are [BaseHost]. Loading (load, loadstring, loadfile, dofile) is left out. At the end:
    an error does not get out of pcall. *)
From stdpp Require Import base list option strings pretty.
From Stdlib Require Import ZArith Lia ZifyBool.
From S2P Require Import Prelude LObject LNum LProto LVm LDo LDoProps LApi LApiProps LAuxlib.
#[local] Open Scope Z_scope.

Class BaseHost (W : Type) `{ApiHeap W} := {
  thread : W -> Z -> option lua_State;           (* of a thread that does not run *)
  set_thread : Z -> lua_State -> W -> W;
  self : W -> Z;                                 (* the running thread *)
  set_self : Z -> W -> W;
  mainthread : W -> Z;
  function_at : Z -> lua_State -> W -> option tvalue;  (* [lua_getstack] with [lua_getinfo]; nil for a tail call *)
  strtoul : bytes -> Z -> Z * nat;               (* the value and how many characters it takes *)
  show_pointer : option Z -> string;
  fputs : bytes -> W -> W;
  lua_gc : Z -> Z -> W -> Z * W;
  c_address : string -> Z;                       (* of the functions of this file *)
}.

Section Baselib.
Context {W : Type} `{BaseHost W} `{!DebugInfo W}.
Notation M := (M W).

Definition luaL_argcheck (cond : bool) (narg : Z) (msg : string) : M unit := if cond then mret tt else luaL_argerror narg msg.
Definition luaL_checkint (narg : Z) : M Z := let^ n := luaL_checkinteger narg in mret (i32 n).
Definition luaL_optint (narg def : Z) : M Z := let^ n := luaL_optinteger narg def in mret (i32 n).
Definition luaL_getn (i : Z) : M Z := let^ n := lua_objlen i in mret (i32 n).
Definition lua_getglobal (s : string) : M unit := lua_getfield LUA_GLOBALSINDEX (bytes_of_string s).
Definition lua_setglobal (s : string) : M unit := lua_setfield LUA_GLOBALSINDEX (bytes_of_string s).
Definition upvalueindex (i : Z) : Z := LUA_GLOBALSINDEX - i.
Definition pushliteral (s : string) : M unit := lua_pushlstring (bytes_of_string s).
Definition luaL_typename (i : Z) : M string := let^ t := lua_type i in lift (lua_typename t).

(** ** Output and conversions *)
Fixpoint print_loop (n : nat) (i : Z) : M unit :=
  match n with
  | O => mret tt
  | S n =>
      do^ lua_pushvalue (-1) in
      do^ lua_pushvalue i in
      do^ lua_call 1 1 in
      let^ s := lua_tolstring (-1) in
      match s with
      | None => luaL_error "'tostring' must return a string to 'print'"
      | Some s =>
          do^ (if 1 <? i then upd_world (fun w => Some (fputs [9] w)) else mret tt) in
          do^ upd_world (fun w => Some (fputs (cstr s) w)) in
          do^ lua_pop 1 in
          print_loop n (i + 1)
      end
  end.
Definition luaB_print : M Z :=
  let^ n := lua_gettop in
  do^ lua_getglobal "tostring" in
  do^ print_loop (Z.to_nat n) 1 in
  do^ upd_world (fun w => Some (fputs [10] w)) in
  mret 0.

Definition isspace (c : Z) : bool := (c =? 32) || ((9 <=? c) && (c <=? 13)).
Fixpoint skip_spaces (s : bytes) : bytes := match s with c :: s' => if isspace c then skip_spaces s' else s | [] => [] end.
Definition luaB_tonumber : M Z :=
  let^ base := luaL_optint 2 10 in
  let^ n :=
    if base =? 10 then
      do^ luaL_checkany 1 in
      let^ ok := lua_isnumber 1 in
      if (ok : bool) then let^ n := lua_tonumber 1 in mret (Some n) else mret None
    else
      let^ s1 := luaL_checklstring 1 in
      do^ luaL_argcheck ((2 <=? base) && (base <=? 36)) 2 "base out of range" in
      let (n, used) := strtoul (cstr s1) base in
      if negb (used =? 0)%nat && bool_decide (skip_spaces (drop used (cstr s1)) = []) then mret (Some (integer_num n)) else mret None in
  match n with
  | Some n => do^ lua_pushnumber n in mret 1
  | None => do^ lua_pushnil in mret 1
  end.

Definition luaB_error : M Z :=
  let^ level := luaL_optint 2 1 in
  do^ lua_settop 1 in
  let^ str := lua_isstring 1 in
  do^ (if (str : bool) && (0 <? level) then do^ luaL_where level in do^ lua_pushvalue 1 in lua_concat 2 else mret tt) in
  lua_error.

(** ** Metatables and environments *)
Definition luaB_getmetatable : M Z :=
  do^ luaL_checkany 1 in
  let^ has := lua_getmetatable 1 in
  if negb has then do^ lua_pushnil in mret 1
  else let^ _ := luaL_getmetafield 1 (bytes_of_string "__metatable") in mret 1.
Definition luaB_setmetatable : M Z :=
  let^ t := lua_type 2 in
  do^ luaL_checktype 1 5 in
  do^ luaL_argcheck ((t =? 0) || (t =? 5)) 2 "nil or table expected" in
  let^ protected := luaL_getmetafield 1 (bytes_of_string "__metatable") in
  do^ (if (protected : bool) then luaL_error "cannot change a protected metatable" else mret tt) in
  do^ lua_settop 2 in
  let^ _ := lua_setmetatable 1 in
  mret 1.
Definition getfunc (opt : bool) : M unit :=
  let^ f := lua_istype 1 6 in
  if (f : bool) then lua_pushvalue 1
  else
    let^ level := if opt then luaL_optint 1 1 else luaL_checkint 1 in
    do^ luaL_argcheck (0 <=? level) 1 "level must be non-negative" in
    let^ L := state in
    let^ w := the_world in
    match function_at level L w with
    | None => luaL_argerror 1 "invalid level"
    | Some o =>
        do^ push o in
        let^ absent := lua_isnil (-1) in
        if (absent : bool) then luaL_error ("no function environment for tail call at level " +:+ pretty level) else mret tt
    end.
Definition luaB_getfenv : M Z :=
  do^ getfunc true in
  let^ c := lua_iscfunction (-1) in
  do^ (if (c : bool) then lua_pushvalue LUA_GLOBALSINDEX else lua_getfenv (-1)) in
  mret 1.
Definition lua_pushthis : M bool := let^ w := the_world in lua_pushthread (self w) (mainthread w).
Definition luaB_setfenv : M Z :=
  do^ luaL_checktype 2 5 in
  do^ getfunc false in
  do^ lua_pushvalue 2 in
  let^ num := lua_isnumber 1 in
  let^ zero := if (num : bool) then let^ n := lua_tonumber 1 in mret (luai_numeq n 0) else mret false in
  if (zero : bool) then
    let^ _ := lua_pushthis in
    do^ lua_insert (-2) in
    let^ _ := lua_setfenv (-2) in
    mret 0
  else
    let^ c := lua_iscfunction (-2) in
    let^ refused := if (c : bool) then mret true else let^ ok := lua_setfenv (-2) in mret (negb ok) in
    do^ (if (refused : bool) then luaL_error "'setfenv' cannot change environment of given object" else mret tt) in
    mret 1.

(** ** Tables *)
Definition luaB_rawequal : M Z :=
  do^ luaL_checkany 1 in
  do^ luaL_checkany 2 in
  let^ b := lua_rawequal 1 2 in
  do^ lua_pushboolean (Z.b2z b) in
  mret 1.
Definition luaB_rawget : M Z :=
  do^ luaL_checktype 1 5 in
  do^ luaL_checkany 2 in
  do^ lua_settop 2 in
  do^ lua_rawget 1 in
  mret 1.
Definition luaB_rawset : M Z :=
  do^ luaL_checktype 1 5 in
  do^ luaL_checkany 2 in
  do^ luaL_checkany 3 in
  do^ lua_settop 3 in
  do^ lua_rawset 1 in
  mret 1.
Definition luaB_type : M Z :=
  do^ luaL_checkany 1 in
  let^ t := luaL_typename 1 in
  do^ lua_pushstring (Some (bytes_of_string t)) in
  mret 1.
Definition luaB_next : M Z :=
  do^ luaL_checktype 1 5 in
  do^ lua_settop 2 in
  let^ more := lua_next 1 in
  if (more : bool) then mret 2 else do^ lua_pushnil in mret 1.
Definition luaB_pairs : M Z :=
  do^ luaL_checktype 1 5 in
  do^ lua_pushvalue (upvalueindex 1) in
  do^ lua_pushvalue 1 in
  do^ lua_pushnil in
  mret 3.
Definition ipairsaux : M Z :=
  let^ i := luaL_checkint 2 in
  do^ luaL_checktype 1 5 in
  let^ i := lift (if i <? INT_MAX then Some (i + 1) else None) in
  do^ lua_pushinteger i in
  do^ lua_rawgeti 1 i in
  let^ absent := lua_isnil (-1) in
  mret (if (absent : bool) then 0 else 2).
Definition luaB_ipairs : M Z :=
  do^ luaL_checktype 1 5 in
  do^ lua_pushvalue (upvalueindex 1) in
  do^ lua_pushvalue 1 in
  do^ lua_pushinteger 0 in
  mret 3.

(** ** The collector *)
Definition gc_options : list string := ["stop"; "restart"; "collect"; "count"; "step"; "setpause"; "setstepmul"].
Definition LUA_GCCOUNT : Z := 3.
Definition LUA_GCCOUNTB : Z := 4.
Definition LUA_GCSTEP : Z := 5.
(** [optsnum], from [LUA_GCSTOP] on. *)
Definition optsnum : list Z := [0; 1; 2; LUA_GCCOUNT; LUA_GCSTEP; 6; 7].
Definition gc (what data : Z) : M Z := fun L w => let (r, w) := lua_gc what data w in Some (Ok r, L, w).
Definition luaB_gcinfo : M Z := let^ n := gc LUA_GCCOUNT 0 in do^ lua_pushinteger n in mret 1.
Definition luaB_collectgarbage : M Z :=
  let^ o := luaL_checkoption 1 (Some (bytes_of_string "collect")) gc_options in
  let^ ex := luaL_optint 2 0 in
  let^ what := lift (optsnum !! Z.to_nat o) in
  let^ res := gc what ex in
  if what =? LUA_GCCOUNT then
    let^ b := gc LUA_GCCOUNTB 0 in
    do^ lua_pushnumber (luai_numadd (integer_num res) (luai_numdiv (integer_num b) (cast_num 1024))) in
    mret 1
  else if what =? LUA_GCSTEP then do^ lua_pushboolean res in mret 1
  else do^ lua_pushnumber (integer_num res) in mret 1.

(** ** Arguments and results *)
Definition luaB_assert : M Z :=
  do^ luaL_checkany 1 in
  let^ ok := lua_toboolean 1 in
  if negb ok then
    let^ msg := luaL_optlstring 2 (Some (bytes_of_string "assertion failed!")) in
    luaL_error (string_of_bytes (cstr (default [] msg)))
  else lua_gettop.

(** [lua_rawgeti(L, 1, i)] for the elements [i] up to [e]. *)
Fixpoint push_elements (n : nat) (i : Z) : M unit :=
  match n with O => mret tt | S n => do^ lua_rawgeti 1 i in push_elements n (i + 1) end.
Definition luaB_unpack : M Z :=
  do^ luaL_checktype 1 5 in
  let^ i := luaL_optint 2 1 in
  let^ none := lua_isnoneornil 3 in
  let^ e := if (none : bool) then luaL_getn 1 else luaL_checkint 3 in
  if e <? i then mret 0
  else
    let n := i32 (e - i + 1) in
    let^ ok := if n <=? 0 then mret false else lua_checkstack n in
    if negb ok then luaL_error "too many results to unpack"
    else do^ push_elements (Z.to_nat n) i in mret n.

Definition luaB_select : M Z :=
  let^ n := lua_gettop in
  let^ t := lua_type 1 in
  let^ s := if t =? 4 then lua_tolstring 1 else mret None in
  if bool_decide (head (default [] s) = Some 35) then do^ lua_pushinteger (n - 1) in mret 1
  else
    let^ i := luaL_checkint 1 in
    let i := if i <? 0 then n + i else if n <? i then n else i in
    do^ luaL_argcheck (1 <=? i) 1 "index out of range" in
    mret (n - i).

Definition luaB_pcall : M Z :=
  do^ luaL_checkany 1 in
  let^ n := lua_gettop in
  let^ status := lua_pcall (n - 1) LUA_MULTRET 0 in
  do^ lua_pushboolean (Z.b2z (status =? 0)) in
  do^ lua_insert 1 in
  lua_gettop.
Definition luaB_xpcall : M Z :=
  do^ luaL_checkany 2 in
  do^ lua_settop 2 in
  do^ lua_insert 1 in
  let^ status := lua_pcall 0 LUA_MULTRET 1 in
  do^ lua_pushboolean (Z.b2z (status =? 0)) in
  do^ lua_replace 1 in
  lua_gettop.

Definition luaB_tostring : M Z :=
  do^ luaL_checkany 1 in
  let^ meta := luaL_callmeta 1 (bytes_of_string "__tostring") in
  if (meta : bool) then mret 1
  else
    let^ o := value_at 1 in
    do^ match o with
        | TNumber _ => let^ s := lua_tolstring 1 in lua_pushstring s
        | TGC GString _ => lua_pushvalue 1
        | TBoolean b => lua_pushstring (Some (bytes_of_string (if b then "true" else "false")))
        | TNil => pushliteral "nil"
        | _ => let^ t := luaL_typename 1 in let^ p := lua_topointer 1 in pushfstring (t +:+ ": " +:+ show_pointer p)
        end in
    mret 1.

Definition luaB_newproxy : M Z :=
  do^ lua_settop 1 in
  let^ _ := lua_newuserdata 0 in
  let^ wanted := lua_toboolean 1 in
  if negb wanted then mret 1
  else
    let^ fresh := lua_istype 1 1 in
    do^ (if (fresh : bool) then
           do^ lua_createtable 0 0 in
           do^ lua_pushvalue (-1) in
           do^ lua_pushboolean 1 in
           lua_rawset (upvalueindex 1)
         else
           let^ has := lua_getmetatable 1 in
           let^ validproxy :=
             if (has : bool) then
               do^ lua_rawget (upvalueindex 1) in
               let^ v := lua_toboolean (-1) in
               do^ lua_pop 1 in
               mret v
             else mret false in
           do^ luaL_argcheck validproxy 1 "boolean or proxy expected" in
           let^ _ := lua_getmetatable 1 in
           mret tt) in
    let^ _ := lua_setmetatable 2 in
    mret 1.

(** ** Coroutines *)
Inductive co_status := CO_RUN | CO_SUS | CO_NOR | CO_DEAD.
Definition statnames (s : co_status) : string :=
  match s with CO_RUN => "running" | CO_SUS => "suspended" | CO_NOR => "normal" | CO_DEAD => "dead" end.
Definition thread_at (co : Z) : M lua_State := let^ w := the_world in lift (thread w co).
Definition costatus (co : Z) : M co_status :=
  let^ w := the_world in
  if self w =? co then mret CO_RUN
  else
    let^ c := thread_at co in
    if status c =? LUA_YIELD then mret CO_SUS
    else if status c =? 0 then
      if negb (bool_decide (callers c = [])) then mret CO_NOR
      else if top c - base c =? 0 then mret CO_DEAD else mret CO_SUS
    else mret CO_DEAD.
(** [m] on the thread [co], while the running thread waits; it must not throw. *)
Definition on_thread {A} (co : Z) (m : M A) : M A := fun L w =>
  c ← thread w co;
  match m c (set_self co (set_thread (self w) L w)) with
  | Some (Ok a, c, w') => L ← thread w' (self w); Some (Ok a, L, set_thread co c (set_self (self w) w'))
  | _ => None
  end.
Definition xmove_to (co n : Z) : M unit := fun L w =>
  c ← thread w co; '(L, c) ← lua_xmove L c n; Some (Ok tt, L, set_thread co c w).
Definition xmove_from (co n : Z) : M unit := fun L w =>
  c ← thread w co; '(c, L) ← lua_xmove c L n; Some (Ok tt, L, set_thread co c w).

Definition checked_thread (o : option Z) : M Z := match o with Some co => mret co | None => luaL_argerror 1 "coroutine expected" end.
Definition luaB_costatus : M Z :=
  let^ o := lua_tothread 1 in
  let^ co := checked_thread o in
  let^ s := costatus co in
  do^ lua_pushstring (Some (bytes_of_string (statnames s))) in
  mret 1.

(** The number of results, or -1 for an error with its message on the top. *)
Definition auxresume (co narg : Z) : M Z :=
  let^ status := costatus co in
  let^ w := the_world in
  let^ room := if self w =? co then lua_checkstack narg else on_thread co (lua_checkstack narg) in
  do^ (if negb room then luaL_error "too many arguments to resume" else mret tt) in
  match status with
  | CO_SUS =>
      do^ xmove_to co narg in
      do^ (fun L w => c ← thread w co; Some (Ok tt, L, set_thread co (lua_setlevel L c) w)) in
      let^ status := on_thread co (lua_resume narg) in
      if (status =? 0) || (status =? LUA_YIELD) then
        let^ c := thread_at co in
        let nres := top c - base c in
        let^ room := lua_checkstack (nres + 1) in
        do^ (if negb room then luaL_error "too many results to resume" else mret tt) in
        do^ xmove_from co nres in
        mret nres
      else do^ xmove_from co 1 in mret (-1)
  | s => do^ pushfstring ("cannot resume " +:+ statnames s +:+ " coroutine") in mret (-1)
  end.
Definition luaB_coresume : M Z :=
  let^ o := lua_tothread 1 in
  let^ co := checked_thread o in
  let^ n := lua_gettop in
  let^ r := auxresume co (n - 1) in
  if r <? 0 then do^ lua_pushboolean 0 in do^ lua_insert (-2) in mret 2
  else do^ lua_pushboolean 1 in do^ lua_insert (- (r + 1)) in mret (r + 1).
Definition luaB_auxwrap : M Z :=
  let^ o := lua_tothread (upvalueindex 1) in
  let^ co := lift o in
  let^ n := lua_gettop in
  let^ r := auxresume co n in
  if r <? 0 then
    let^ str := lua_isstring (-1) in
    do^ (if (str : bool) then do^ luaL_where 1 in do^ lua_insert (-2) in lua_concat 2 else mret tt) in
    lua_error
  else mret r.
Definition luaB_cocreate : M Z :=
  let^ NL := lua_newthread in
  let^ o := top_value 1 in
  let^ co := match o with TGC GThread a => mret a | _ => undefined end in
  do^ upd_world (fun w => Some (set_thread co NL w)) in
  let^ f := lua_istype 1 6 in
  let^ c := lua_iscfunction 1 in
  do^ luaL_argcheck (f && negb c) 1 "Lua function expected" in
  do^ lua_pushvalue 1 in
  do^ xmove_to co 1 in
  mret 1.
Definition luaB_cowrap : M Z :=
  let^ _ := luaB_cocreate in
  do^ lua_pushcclosure (c_address "luaB_auxwrap") 1 in
  mret 1.
Definition luaB_yield : M Z := let^ n := lua_gettop in lua_yield n.
Definition luaB_corunning : M Z :=
  let^ main := lua_pushthis in
  do^ (if (main : bool) then lua_pushnil else mret tt) in
  mret 1.

(** ** Opening the library *)
Definition registered (names : list (string * string)) : list (bytes * Z) := map (fun '(name, f) => (bytes_of_string name, c_address f)) names.
Definition base_funcs : list (bytes * Z) := registered
  [("assert", "luaB_assert"); ("collectgarbage", "luaB_collectgarbage"); ("dofile", "luaB_dofile"); ("error", "luaB_error");
   ("gcinfo", "luaB_gcinfo"); ("getfenv", "luaB_getfenv"); ("getmetatable", "luaB_getmetatable"); ("loadfile", "luaB_loadfile");
   ("load", "luaB_load"); ("loadstring", "luaB_loadstring"); ("next", "luaB_next"); ("pcall", "luaB_pcall"); ("print", "luaB_print");
   ("rawequal", "luaB_rawequal"); ("rawget", "luaB_rawget"); ("rawset", "luaB_rawset"); ("select", "luaB_select"); ("setfenv", "luaB_setfenv");
   ("setmetatable", "luaB_setmetatable"); ("tonumber", "luaB_tonumber"); ("tostring", "luaB_tostring"); ("type", "luaB_type");
   ("unpack", "luaB_unpack"); ("xpcall", "luaB_xpcall")]%string.
Definition co_funcs : list (bytes * Z) := registered
  [("create", "luaB_cocreate"); ("resume", "luaB_coresume"); ("running", "luaB_corunning"); ("status", "luaB_costatus");
   ("wrap", "luaB_cowrap"); ("yield", "luaB_yield")]%string.
Definition auxopen (name f u : string) : M unit :=
  do^ lua_pushcclosure (c_address u) 0 in
  do^ lua_pushcclosure (c_address f) 1 in
  lua_setfield (-2) (bytes_of_string name).
Definition base_open : M unit :=
  do^ lua_pushvalue LUA_GLOBALSINDEX in
  do^ lua_setglobal "_G" in
  do^ luaL_register (Some (bytes_of_string "_G", "_G"%string)) base_funcs in
  do^ pushliteral "Lua 5.1" in
  do^ lua_setglobal "_VERSION" in
  do^ auxopen "ipairs" "luaB_ipairs" "ipairsaux" in
  do^ auxopen "pairs" "luaB_pairs" "luaB_next" in
  do^ lua_createtable 0 1 in
  do^ lua_pushvalue (-1) in
  let^ _ := lua_setmetatable (-2) in
  do^ pushliteral "kv" in
  do^ lua_setfield (-2) (bytes_of_string "__mode") in
  do^ lua_pushcclosure (c_address "luaB_newproxy") 1 in
  lua_setglobal "newproxy".
Definition luaopen_base : M Z :=
  do^ base_open in
  do^ luaL_register (Some (bytes_of_string "coroutine", "coroutine"%string)) co_funcs in
  mret 2.
End Baselib.

(** ** Errors do not get out of pcall *)
Section Pcall.
Context {W : Type} `{BaseHost W} `{!HostLaws W} `{!DebugInfo W}.
Implicit Types (L : lua_State) (w : W).

(** The slots of a thread that is well formed. *)
Lemma good_shaped L : good L -> shaped (take (Z.to_nat (base L)) (stack L)) (frame_values L) (drop (Z.to_nat (top L)) (stack L)) L /\
  EXTRA_STACK < Z.of_nat (length (drop (Z.to_nat (top L)) (stack L))) /\ Z.of_nat (length (frame_values L)) = top L - base L.
Proof.
  intros Hg. pose proof (g_top _ Hg) as Ht. pose proof (g_base _ Hg) as Hb. pose proof (g_frames _ Hg) as (Hf & _). unfold stack_last, stacksize, EXTRA_STACK in *.
  assert (length (frame_values L) = (Z.to_nat (top L) - Z.to_nat (base L))%nat) as El by (unfold frame_values; rewrite length_take, length_drop; lia).
  split; [|rewrite length_drop, El; lia]. split.
  - unfold frame_values. replace (Z.to_nat (top L - base L)) with (Z.to_nat (top L) - Z.to_nat (base L))%nat by lia.
    rewrite <- (take_drop (Z.to_nat (base L)) (stack L)) at 1. f_equal. rewrite <- (take_drop (Z.to_nat (top L) - Z.to_nat (base L)) (drop (Z.to_nat (base L)) (stack L))) at 1.
    f_equal. rewrite drop_drop. f_equal. lia.
  - rewrite length_take. lia.
  - rewrite length_take, El. lia.
Qed.
(** What pcall leaves on the stack of [L], where [call] is the unprotected call: a
    boolean and values, in the frame it was called in. *)
Definition pcall_values (L : lua_State) (call : option (outcome unit * lua_State * W)) (vs : list tvalue) (w' : W) : Prop :=
  match call with
  | Some (Ok _, L1, w1) => vs = TBoolean true :: frame_values L1 /\ w' = w1
  | Some (Threw e, L1, w1) => exists w2 v, luaF_close (base L) L1 w1 = Some w2 /\ message e (base L) L1 w2 = Some (v, w') /\ vs = [TBoolean false; v]
  | None => False
  end.
Record contained (L : lua_State) (call : option (outcome unit * lua_State * W)) (n : Z) (L' : lua_State) (w' : W) : Prop := {
  c_values : exists below vs above, shaped below vs above L' /\ n = Z.of_nat (length vs) /\ pcall_values L call vs w';
  c_base : base L' = base L;
  c_callers : callers L' = callers L;
  c_frame : same_frame (ci L) (ci L');
  c_nCcalls : nCcalls L' = nCcalls L;
  c_errfunc : errfunc L' = errfunc L;
}.

Lemma checkany_ok {B} (f : unit -> M W B) L w Q E : good L -> base L < top L -> runs (f tt) L w Q E -> runs (mbind (luaL_checkany 1) f) L w Q E.
Proof.
  intros Hg Ht Hf. destruct (good_shaped L Hg) as (Hsh & _ & Hl). destruct (frame_values L) as [|v vs] eqn:Ev; [cbn in Hl; lia|].
  assert (pos 1 (v :: vs) = Some 0%nat) as Hp by (unfold pos; cbn [length]; destruct (Z.leb_spec 1 (Z.of_nat (S (length vs)))); [done|lia]).
  eapply step_eq; [|exact Hf]. unfold luaL_checkany, lua_type. pose proof (index2adr_pos _ _ _ _ w _ _ Hsh Hp) as Ei.
  assert (deref (Slot (Z.of_nat (length (take (Z.to_nat (base L)) (stack L)) + 0))) L w = Some (Ok v, L, w)) as Ed.
  { pose proof (value_at_pos _ _ _ _ w _ _ v Hsh Hp eq_refl) as E1. unfold value_at in E1. by rewrite (mbind_eq _ _ _ _ _ _ _ Ei) in E1. }
  erewrite (mbind_eq _ _ L w (ttype v) L w).
  - by destruct v as [| | | |[]|].
  - rewrite (mbind_eq _ _ _ _ _ _ _ Ei). cbn [is_none]. by rewrite (mbind_eq _ _ _ _ _ _ _ Ed).
Qed.

(** A boolean in front of the values. *)
Lemma prepend_boolean b L w : good L -> runs (do^ lua_pushboolean (Z.b2z b) in do^ lua_insert 1 in lua_gettop) L w
  (fun n L' w' => exists below above, L' = reshaped below (TBoolean b :: frame_values L) above L /\ shaped below (TBoolean b :: frame_values L) above L' /\
    n = 1 + Z.of_nat (length (frame_values L)) /\ w' = w) (fun _ _ _ => False).
Proof.
  intros Hg. destruct (good_shaped L Hg) as (Hsh & Hr & Hl). set (below := take _ _) in *. set (vs := frame_values L) in *. set (above := drop _ _) in *. unfold EXTRA_STACK in Hr.
  assert (TBoolean (negb (Z.b2z b =? 0)) = TBoolean b) as Eb by (by destruct b).
  destruct (push_moves below vs above L w (TBoolean b) Hsh ltac:(lia)) as (above1 & E1 & L1). rewrite length_app in L1. cbn in L1.
  set (L2 := reshaped below (vs ++ [TBoolean b]) above1 L) in *.
  assert (shaped below (vs ++ [TBoolean b]) above1 L2) as Hsh2 by (by eapply shaped_reshaped).
  assert (pos 1 (vs ++ [TBoolean b]) = Some 0%nat) as Hp by (unfold pos; rewrite length_app; cbn; destruct (Z.leb_spec 1 (Z.of_nat (length vs + 1))); [done|lia]).
  destruct (insert_moves below _ above1 L2 w 1 0 (TBoolean b) Hsh2 ltac:(lia) Hp ltac:(by rewrite last_snoc)) as (above2 & E2 & _).
  rewrite length_app in E2. cbn [length take drop app] in E2. rewrite Nat.add_1_r in E2. cbn [pred] in E2. rewrite take_app_length, firstn_O, drop_0 in E2. cbn [app] in E2.
  unfold L2 in E2. rewrite reshaped_twice in E2. assert (shaped below (TBoolean b :: vs) above2 (reshaped below (TBoolean b :: vs) above2 L)) as Hsh3 by (by eapply shaped_reshaped).
  eapply step_eq; [unfold lua_pushboolean; rewrite Eb; exact E1|]. eapply step_eq; [exact E2|]. apply step_state, runs_ret. exists below, above2. split; [done|]. split; [done|].
  pose proof (sh_top _ _ _ _ Hsh3) as Et. pose proof (sh_base _ _ _ _ Hsh3) as Eb3. cbn in Et, Eb3 |- *. split; [lia|done].
Qed.

(** The limit of the frame follows the results. *)
Lemma adjustresults_ok {B} nres (f : unit -> M W B) L w Q E : good L ->
  (forall c, same_frame (ci L) c -> good (with_calls c (callers L) L) -> runs (f tt) (with_calls c (callers L) L) w Q E) -> runs (mbind (adjustresults nres) f) L w Q E.
Proof.
  intros Hg Hf. unfold adjustresults. apply step_assoc, step_state. destruct ((nres =? LUA_MULTRET) && (ci_top (ci L) <=? top L)) eqn:Ht.
  - unfold upd_ci. apply step_upd, Hf.
    + repeat split. cbn. lia.
    + destruct Hg as [(Hf1 & Hf2 & Hf3 & Hf4) ? Hb ? ? ? ?]. split; try done. cbn [ci callers with_calls frames_ok set_ci_top ci_func ci_base ci_top].
      change (stack_last (with_calls (set_ci_top (top L) (ci L)) (callers L) L)) with (stack_last L). repeat split; try done; lia.
  - apply step_ret. replace L with (with_calls (ci L) (callers L) L) at 1 by (by destruct L). apply Hf; [apply same_frame_refl|]. by destruct L.
Qed.

Lemma one_value L v : top L = base L + 1 -> 0 <= base L -> stack L !! Z.to_nat (base L) = Some v -> frame_values L = [v].
Proof.
  intros Ht Hb Hv. unfold frame_values. replace (Z.to_nat (top L - base L)) with 1%nat by lia. rewrite (drop_S _ v) by done. done.
Qed.

(** C5. pcall lets no error out. On a well formed thread without hooks, under the laws of
    [HostLaws] for what is called (see [luaD_call_disciplined]), for any value with any
    arguments: [luaB_pcall] ends and never throws. If the call returns, the results are
    [true] and the values that the call leaves, in their order; if it throws, the results
    are [false] and the one message, and the upvalues of the frames that are gone have
    been closed. The number returned is that of the results, and the frame that pcall was
    called in is back, with its base, its callers, the count of calls and the error function. *)
Theorem luaB_pcall_contains L w : good L -> base L < top L ->
  runs luaB_pcall L w (contained L (luaD_call (base L) LUA_MULTRET (with_errfunc 0 L) w)) (fun _ _ _ => False).
Proof.
  intros Hg Ht. unfold luaB_pcall. apply checkany_ok; [done..|]. apply step_assoc, step_state, step_ret. unfold lua_pcall. apply step_assoc, step_ret, step_assoc, step_state.
  change (LUA_MULTRET) with (-1). replace (top L - (top L - base L - 1 + 1)) with (base L) by lia. pose proof (g_top _ Hg) as Hr. set (call := luaD_call (base L) (-1)).
  assert (protected_ok call (with_errfunc 0 L)) as Hp.
  { intros w1. pose proof (luaD_call_from (base L) (-1) (with_errfunc 0 L) w1) as Hc. cbn in Hc. eapply runs_mono; [apply Hc|by intros a L' w' [Hb _]|done].
    - destruct Hg. split; try done. cbn in *. unfold stack_last, stacksize in *. cbn. lia.
    - lia.
    - lia.
    - unfold stack_last, stacksize in *. cbn. pose proof (g_base _ Hg). lia.
    - pose proof (g_calls _ Hg). lia. }
  pose proof (g_frames _ Hg) as (Hf & _). pose proof (g_base _ Hg) as Hb0.
  apply step_assoc. eapply runs_bind; [apply (pcall_ok call (base L) 0 L w Hg Hp); lia|]. intros code L1 w1 Hq. unfold protected in Hq.
  assert (good L1 /\ callers L1 = callers L /\ same_frame (ci L) (ci L1) /\ nCcalls L1 = nCcalls L /\ errfunc L1 = errfunc L /\
    pcall_values L (call (with_errfunc 0 L) w) (TBoolean (code =? 0) :: frame_values L1) w1) as (Hg1 & Ec1 & Ef1 & En1 & Ee1 & Hv1).
  { unfold pcall_values. destruct (call (with_errfunc 0 L) w) as [[[[u|e] L0] w0]|]; [| |done].
    - destruct Hq as (-> & -> & -> & [? ? ? (? & ? & ?) ?]). by split_and!.
    - destruct Hq as (-> & Hcode & w2 & v & Hcl & Hm & [? Hsf ? ? Hst ? ? ? ?]). split_and!; try done. exists w2, v. split; [done|]. split; [done|].
      assert ((e =? 0) = false) as -> by lia. f_equal. assert (base L1 = base L) as Eb by (rewrite (g_base L1), Hb0 by done; apply Hsf).
      apply one_value; rewrite ?Eb; [done|lia|]. rewrite Hst. apply list_lookup_insert_eq.
      pose proof (g_top L1 ltac:(done)) as Ht1. rewrite Eb in Ht1. unfold stack_last, stacksize, EXTRA_STACK in Ht1. rewrite Hst, length_insert in Ht1. lia. }
  clear Hq. apply step_assoc, adjustresults_ok; [done|]. intros c Hc Hg2. set (L2 := with_calls c (callers L1) L1) in *. apply step_ret.
  eapply runs_mono; [by apply prepend_boolean| |done]. intros n L' w' (below & above & -> & Hsh & -> & ->).
  assert (same_frame (ci L) c) as Hcf by (by eapply same_frame_trans). assert (base L1 = base L) as Eb1 by (rewrite (g_base _ Hg1), Hb0; apply Ef1). split; try done.
  exists below, (TBoolean (code =? 0) :: frame_values L2), above. split; [done|]. split; [cbn [length]; lia|exact Hv1].
Qed.
End Pcall.

(** ** A function that fails *)
Module Failing.
Import StringHeap.
(** The strings of [StringHeap]; every C function fails with the message 5. *)
#[export] Instance host : Host StringHeap.W := {|
  closure_of _ _ := Some None;
  c_function _ := do^ push (TNumber 5) in luaD_throw LUA_ERRRUN;
  luaV_execute _ := luaD_throw LUA_ERRRUN;
  hook_function _ _ := mret tt;
  luaF_close _ _ w := Some w;
  position_info _ _ := ""%string;
  junk := TNil;
|}.
#[export] Instance heap : ApiHeap (H0 := host) StringHeap.W := {|
  l_registry _ := TNil;
  l_gt _ := TNil;
  set_gt _ w := w;
  set_registry _ w := w;
  closure_env _ _ := Some 1;
  set_closure_env _ _ w := Some w;
  c_upvalues _ _ := Some [];
  set_c_upvalue _ _ _ _ := None;
  lua_upvalue _ _ _ := None;
  set_lua_upvalue _ _ _ _ := None;
  c_pointer _ a := Some a;
  luaF_newCclosure _ _ _ w := (1, w);
  set_metatable _ _ w := w;
  set_type_metatable _ _ w := w;
  luaH_next _ _ _ := lret None;
  udata_len _ _ := 0;
  udata_env _ _ := 1;
  set_udata_env _ _ w := w;
  luaS_newudata _ _ w := (1, w);
  thread_gt _ _ := TNil;
  set_thread_gt _ _ w := w;
  luaE_new w := (1, w);
  error_world _ w := w;
|}.
#[export] Instance debug : DebugInfo StringHeap.W := {| called_as _ _ := None; position_at _ _ _ := None |}.
#[export] Instance laws : HostLaws StringHeap.W.
Proof.
  split; try done; try (intros; by eexists).
  - intros w h i. by exists TNil, w.
  - intros w h a. by exists TNil, w.
  - intros a L w Hg. pose proof (g_top _ Hg) as Ht. pose proof (g_base _ Hg). pose proof (g_frames _ Hg) as (Hf & _). unfold stack_last, EXTRA_STACK in *.
    cbn [c_function host]. apply push_spec; [lia|]. intros L' Hs Ez. apply runs_throw. split; [done|].
    pose proof (stacked_top _ _ _ Hs). pose proof (stacked_same _ _ _ Hs). assert (stack_last L' = stack_last L) as El by (unfold stack_last; lia).
    destruct (good_unwound (ci L) (callers L) L L) as [? ? ? ? ?]; [apply (stacked_back L (top L) L (stacked_refl L) Hg (g_top _ Hg))|].
    split; rewrite ?El; try done; [by destruct Hs as (s & -> & _)..|unfold stack_last, EXTRA_STACK; lia].
  - intros L w c rest Hg _ Hc _ _. cbn [luaV_execute host]. apply runs_throw. split; [done|].
    destruct (good_unwound (ci L) (callers L) L L) as [_ ? ? ? ?]; [apply (stacked_back L (top L) L (stacked_refl L) Hg (g_top _ Hg))|].
    split; try done. exists [ci L], c. rewrite Hc. split; [done|apply same_frame_refl].
Qed.
(** A thread in the frame of pcall with the values [vs]. *)
Definition in_pcall (vs : list tvalue) : lua_State := with_calls (Ci 2 1 22 0 0 0) [Ci 1 0 21 0 0 0] (StringHeap.thread vs).
(** The function with one argument; [debug] is not asked. *)
Definition L0 : lua_State := in_pcall [TGC GFunction 2; TBoolean true].
End Failing.
Import Failing.

(** The call throws, so there are [false] and its message, 2 results. *)
Lemma luaB_pcall_contains_witness : exists L' w', luaB_pcall (H0 := Failing.host) (H1 := Failing.heap) Failing.L0 [] = Some (Ok 2, L', w') /\
  contained (H0 := Failing.host) Failing.L0 (luaD_call (H0 := Failing.host) 2 LUA_MULTRET (with_errfunc 0 Failing.L0) []) 2 L' w' /\ frame_values L' = [TBoolean false; TNumber 5].
Proof.
  assert (good Failing.L0) as Hg by (split; vm_compute; repeat split; discriminate).
  assert (base Failing.L0 < top Failing.L0) as Ht by reflexivity.
  destruct (runs_inv _ _ _ _ _ (luaB_pcall_contains (H0 := Failing.host) (H1 := Failing.heap) Failing.L0 [] Hg Ht)) as (o & L' & w' & E & Hc).
  destruct o as [n|e]; [|destruct Hc].
  assert (exists L2 w2, luaB_pcall (H0 := Failing.host) (H1 := Failing.heap) Failing.L0 [] = Some (Ok 2, L2, w2) /\ frame_values L2 = [TBoolean false; TNumber 5]) as (L2 & w2 & E2 & Hv)
    by (eexists _, _; split; vm_compute; reflexivity).
  assert (Some (@Ok Z n, L', w') = Some (Ok 2, L2, w2)) as Heq by (transitivity (luaB_pcall (H0 := Failing.host) (H1 := Failing.heap) Failing.L0 []); [symmetry; exact E|exact E2]).
  injection Heq as -> -> ->. exists L2, w2. split; [exact E2|]. split; [exact Hc|exact Hv].
Defined.
