(* ===== verification/LCode.v ===== *)
(** * The code generator (src/lua/lcode.c, src/lua/lcode.h, src/lua/lparser.h)

    [FuncState] has the fields the generator uses, those of the prototype among them.
    The arrays [code] and [lineinfo] are the lists of the words below [pc] (the words
    behind it are never read), [k] the list of the [nk] constants. The table [h] is an
    association list from constants to their indices. An expression is passed along and
    returned with the state; a syntax error is an [Error], an access outside an array
    is [None]. [pow] is the C library's. *)
From stdpp Require Import base list option.
From Stdlib Require Import ZArith Lia.
From S2P Require Import Prelude LObject LNum LOpcodes LProto.
#[local] Open Scope Z_scope.

Definition NO_JUMP : Z := -1.
Definition MAX_INT : Z := INT_MAX - 2.

Inductive expkind :=
  VVOID | VNIL | VTRUE | VFALSE | VK | VKNUM | VLOCAL | VUPVAL | VGLOBAL | VINDEXED | VJMP | VRELOCABLE
| VNONRELOC | VCALL | VVARARG.
#[export] Instance expkind_eq_dec : EqDecision expkind.
Proof. solve_decision. Defined.

Record expdesc := { e_k : expkind; info : Z; aux : Z; nval : Z; e_t : Z; e_f : Z }.

Inductive BinOpr :=
  OPR_ADD | OPR_SUB | OPR_MUL | OPR_DIV | OPR_MOD | OPR_POW | OPR_CONCAT | OPR_NE | OPR_EQ | OPR_LT | OPR_LE | OPR_GT
| OPR_GE | OPR_AND | OPR_OR | OPR_NOBINOPR.
Inductive UnOpr := OPR_MINUS | OPR_NOT | OPR_LEN | OPR_NOUNOPR.

Record FuncState := {
  code : list Z;
  lineinfo : list Z;
  k : list tvalue;
  h : list (tvalue * tvalue);
  h_addr : Z;                (* the table [h] as a value *)
  lasttarget : Z;
  jpc : Z;
  freereg : Z;
  nactvar : Z;
  maxstacksize : Z;
  lastline : Z;              (* of the lexer *)
}.
Definition pc (fs : FuncState) : Z := Z.of_nat (length (code fs)).
Definition nk (fs : FuncState) : Z := Z.of_nat (length (k fs)).

Definition with_code (c l : list Z) (fs : FuncState) : FuncState :=
  {| code := c; lineinfo := l; k := k fs; h := h fs; h_addr := h_addr fs; lasttarget := lasttarget fs; jpc := jpc fs;
     freereg := freereg fs; nactvar := nactvar fs; maxstacksize := maxstacksize fs; lastline := lastline fs |}.
Definition with_k (ks : list tvalue) (t : list (tvalue * tvalue)) (fs : FuncState) : FuncState :=
  {| code := code fs; lineinfo := lineinfo fs; k := ks; h := t; h_addr := h_addr fs; lasttarget := lasttarget fs; jpc := jpc fs;
     freereg := freereg fs; nactvar := nactvar fs; maxstacksize := maxstacksize fs; lastline := lastline fs |}.
Definition with_jumps (last j : Z) (fs : FuncState) : FuncState :=
  {| code := code fs; lineinfo := lineinfo fs; k := k fs; h := h fs; h_addr := h_addr fs; lasttarget := last; jpc := j;
     freereg := freereg fs; nactvar := nactvar fs; maxstacksize := maxstacksize fs; lastline := lastline fs |}.
Definition with_regs (free max : Z) (fs : FuncState) : FuncState :=
  {| code := code fs; lineinfo := lineinfo fs; k := k fs; h := h fs; h_addr := h_addr fs; lasttarget := lasttarget fs; jpc := jpc fs;
     freereg := free; nactvar := nactvar fs; maxstacksize := max; lastline := lastline fs |}.
Definition with_freereg (free : Z) (fs : FuncState) : FuncState := with_regs free (maxstacksize fs) fs.

Definition exp_is (kd : expkind) (i : Z) (e : expdesc) : expdesc :=
  {| e_k := kd; info := i; aux := aux e; nval := nval e; e_t := e_t e; e_f := e_f e |}.
Definition exp_kind (kd : expkind) (e : expdesc) : expdesc := exp_is kd (info e) e.
Definition exp_lists (t f : Z) (e : expdesc) : expdesc :=
  {| e_k := e_k e; info := info e; aux := aux e; nval := nval e; e_t := t; e_f := f |}.
Definition exp_aux (a : Z) (e : expdesc) : expdesc :=
  {| e_k := e_k e; info := info e; aux := a; nval := nval e; e_t := e_t e; e_f := e_f e |}.
Definition exp_nval (n : Z) (e : expdesc) : expdesc :=
  {| e_k := e_k e; info := info e; aux := aux e; nval := n; e_t := e_t e; e_f := e_f e |}.

Definition hasjumps (e : expdesc) : bool := negb (e_t e =? e_f e).
Definition isnumeral (e : expdesc) : bool := bool_decide (e_k e = VKNUM) && (e_t e =? NO_JUMP) && (e_f e =? NO_JUMP).

(** ** The code array *)
Definition code_at (fs : FuncState) (i : Z) : option Z := if i <? 0 then None else code fs !! Z.to_nat i.
Definition set_code (i v : Z) (fs : FuncState) : FuncState := with_code (<[Z.to_nat i := v]> (code fs)) (lineinfo fs) fs.
Definition getcode (fs : FuncState) (e : expdesc) : option Z := code_at fs (info e).

Definition luaK_getlabel (fs : FuncState) : Z * FuncState := (pc fs, with_jumps (pc fs) (jpc fs) fs).

Definition getjump (fs : FuncState) (p : Z) : option Z :=
  i ← code_at fs p;
  let offset := GETARG_sBx i in
  Some (if offset =? NO_JUMP then NO_JUMP else p + 1 + offset).

Definition fixjump (p dest : Z) (fs : FuncState) : LuaM FuncState :=
  let* jmp := llift (code_at fs p) in
  let offset := dest - (p + 1) in
  if MAXARG_sBx <? Z.abs offset then lerror "control structure too long"
  else lret (set_code p (SETARG_sBx jmp offset) fs).

(** [testTMode] of an instruction: the table of modes has no entry for a number that is
    no operation. *)
Definition testT (i : Z) : option bool := op ← to_opcode (GET_OPCODE i); Some (testTMode op).
(** The position [getjumpcontrol] points to. *)
Definition getjumpcontrol (fs : FuncState) (p : Z) : option Z :=
  if 1 <=? p then i ← code_at fs (p - 1); t ← testT i; Some (if (t : bool) then p - 1 else p)
  else Some p.

Definition is_op (op : OpCode) (i : Z) : bool := GET_OPCODE i =? of_opcode op.

(** The jumps of a list, [fuel] at most. *)
Fixpoint need_value (fuel : nat) (fs : FuncState) (list : Z) : option bool :=
  if list =? NO_JUMP then Some false
  else match fuel with
  | O => None
  | S fuel =>
      c ← getjumpcontrol fs list; i ← code_at fs c;
      if negb (is_op OP_TESTSET i) then Some true
      else next ← getjump fs list; need_value fuel fs next
  end.

Definition patchtestreg (node reg : Z) (fs : FuncState) : option (bool * FuncState) :=
  c ← getjumpcontrol fs node; i ← code_at fs c;
  if negb (is_op OP_TESTSET i) then Some (false, fs)
  else if negb (reg =? NO_REG) && negb (reg =? GETARG_B i) then Some (true, set_code c (SETARG_A i reg) fs)
  else Some (true, set_code c (CREATE_ABC (of_opcode OP_TEST) (GETARG_B i) 0 (GETARG_C i)) fs).

(** A list of jumps has at most as many jumps as there are instructions. *)
Definition turns (fs : FuncState) : nat := S (length (code fs)).

Fixpoint removevalues_loop (fuel : nat) (list : Z) (fs : FuncState) : option FuncState :=
  if list =? NO_JUMP then Some fs
  else match fuel with
  | O => None
  | S fuel => '(_, fs) ← patchtestreg list NO_REG fs; next ← getjump fs list; removevalues_loop fuel next fs
  end.
Definition removevalues (list : Z) (fs : FuncState) : option FuncState := removevalues_loop (turns fs) list fs.

Fixpoint patchlist_loop (fuel : nat) (list vtarget reg dtarget : Z) (fs : FuncState) : LuaM FuncState :=
  if list =? NO_JUMP then lret fs
  else match fuel with
  | O => None
  | S fuel =>
      let* next := llift (getjump fs list) in
      let* (v, fs) := llift (patchtestreg list reg fs) in
      let* fs := fixjump list (if (v : bool) then vtarget else dtarget) fs in
      patchlist_loop fuel next vtarget reg dtarget fs
  end.
Definition patchlistaux (list vtarget reg dtarget : Z) (fs : FuncState) : LuaM FuncState :=
  patchlist_loop (turns fs) list vtarget reg dtarget fs.

Definition dischargejpc (fs : FuncState) : LuaM FuncState :=
  let* fs := patchlistaux (jpc fs) (pc fs) NO_REG (pc fs) fs in
  lret (with_jumps (lasttarget fs) NO_JUMP fs).

(** The end of the list that starts at [list]. *)
Fixpoint list_end (fuel : nat) (fs : FuncState) (list : Z) : option Z :=
  next ← getjump fs list;
  if next =? NO_JUMP then Some list
  else match fuel with O => None | S fuel => list_end fuel fs next end.

(** [luaK_concat(fs, &l1, l2)]: the new [l1]. *)
Definition luaK_concat (l1 l2 : Z) (fs : FuncState) : LuaM (Z * FuncState) :=
  if l2 =? NO_JUMP then lret (l1, fs)
  else if l1 =? NO_JUMP then lret (l2, fs)
  else
    let* last := llift (list_end (turns fs) fs l1) in
    let* fs := fixjump last l2 fs in
    lret (l1, fs).

Definition luaK_patchtohere (list : Z) (fs : FuncState) : LuaM FuncState :=
  let (_, fs) := luaK_getlabel fs in
  let* (j, fs) := luaK_concat (jpc fs) list fs in
  lret (with_jumps (lasttarget fs) j fs).

Definition luaK_patchlist (list target : Z) (fs : FuncState) : LuaM FuncState :=
  if target =? pc fs then luaK_patchtohere list fs
  else patchlistaux list target NO_REG target fs.

(** ** Emitting instructions *)
Definition luaK_code (i line : Z) (fs : FuncState) : LuaM (Z * FuncState) :=
  let* fs := dischargejpc fs in
  if MAX_INT <=? pc fs then lerror "code size overflow"
  else lret (pc fs, with_code (code fs ++ [i]) (lineinfo fs ++ [line]) fs).

Definition luaK_codeABC (o : OpCode) (a b c : Z) (fs : FuncState) : LuaM (Z * FuncState) :=
  luaK_code (CREATE_ABC (of_opcode o) a b c) (lastline fs) fs.
Definition luaK_codeABx (o : OpCode) (a bc : Z) (fs : FuncState) : LuaM (Z * FuncState) :=
  luaK_code (CREATE_ABx (of_opcode o) a (u32 bc)) (lastline fs) fs.
Definition luaK_codeAsBx (o : OpCode) (a sbx : Z) (fs : FuncState) : LuaM (Z * FuncState) :=
  luaK_codeABx o a (sbx + MAXARG_sBx) fs.

Definition luaK_fixline (line : Z) (fs : FuncState) : option FuncState :=
  _ ← code_at fs (pc fs - 1);
  Some (with_code (code fs) (<[Z.to_nat (pc fs - 1) := line]> (lineinfo fs)) fs).

Definition luaK_jump (fs : FuncState) : LuaM (Z * FuncState) :=
  let saved := jpc fs in
  let fs := with_jumps (lasttarget fs) NO_JUMP fs in
  let* (j, fs) := luaK_codeAsBx OP_JMP 0 NO_JUMP fs in
  luaK_concat j saved fs.

Definition luaK_ret (first nret : Z) (fs : FuncState) : LuaM FuncState :=
  let* (_, fs) := luaK_codeABC OP_RETURN first (nret + 1) 0 fs in lret fs.

Definition condjump (op : OpCode) (a b c : Z) (fs : FuncState) : LuaM (Z * FuncState) :=
  let* (_, fs) := luaK_codeABC op a b c fs in luaK_jump fs.

(** [None] as the result of the optimization is "else no optimization". *)
Definition loadnil_joined (from n : Z) (fs : FuncState) : option (option FuncState) :=
  if lasttarget fs <? pc fs then
    if pc fs =? 0 then Some (if nactvar fs <=? from then Some fs else None)
    else
      previous ← code_at fs (pc fs - 1);
      if is_op OP_LOADNIL previous then
        let pfrom := GETARG_A previous in
        let pto := GETARG_B previous in
        Some (if (pfrom <=? from) && (from <=? pto + 1) then
                Some (if pto <? from + n - 1 then set_code (pc fs - 1) (SETARG_B previous (from + n - 1)) fs else fs)
              else None)
      else Some None
  else Some None.
Definition luaK_nil (from n : Z) (fs : FuncState) : LuaM FuncState :=
  let* joined := llift (loadnil_joined from n fs) in
  match joined with
  | Some fs => lret fs
  | None => let* (_, fs) := luaK_codeABC OP_LOADNIL from (from + n - 1) 0 fs in lret fs
  end.

Definition luaK_setlist (base nelems tostore : Z) (fs : FuncState) : LuaM FuncState :=
  let c := Z.quot (nelems - 1) LFIELDS_PER_FLUSH + 1 in
  let b := if tostore =? LUA_MULTRET then 0 else tostore in
  let* fs :=
    if c <=? MAXARG_C then let* (_, fs) := luaK_codeABC OP_SETLIST base b c fs in lret fs
    else
      let* (_, fs) := luaK_codeABC OP_SETLIST base b 0 fs in
      let* (_, fs) := luaK_code (u32 c) (lastline fs) fs in lret fs in
  lret (with_freereg (base + 1) fs).

(** ** Registers *)
Definition luaK_checkstack (n : Z) (fs : FuncState) : LuaM FuncState :=
  let newstack := freereg fs + n in
  if maxstacksize fs <? newstack then
    if MAXSTACK <=? newstack then lerror "function or expression too complex"
    else lret (with_regs (freereg fs) (u8 newstack) fs)
  else lret fs.
Definition luaK_reserveregs (n : Z) (fs : FuncState) : LuaM FuncState :=
  let* fs := luaK_checkstack n fs in lret (with_freereg (freereg fs + n) fs).

Definition free_reg (reg : Z) (fs : FuncState) : FuncState :=
  if negb (ISK reg) && (nactvar fs <=? reg) then with_freereg (freereg fs - 1) fs else fs.
Definition freeexp (e : expdesc) (fs : FuncState) : FuncState :=
  if bool_decide (e_k e = VNONRELOC) then free_reg (info e) fs else fs.

(** ** Constants *)

(** [luaH_set(L, fs->h, k)]: the slot of an equal key, or a new one with nil. *)
Fixpoint h_slot (key : tvalue) (t : list (tvalue * tvalue)) : tvalue :=
  match t with
  | [] => TNil
  | (a, v) :: t => if luaO_rawequalObj a key then v else h_slot key t
  end.
Fixpoint h_store (key v : tvalue) (t : list (tvalue * tvalue)) : list (tvalue * tvalue) :=
  match t with
  | [] => [(key, v)]
  | (a, w) :: t => if luaO_rawequalObj a key then (a, v) :: t else (a, w) :: h_store key v t
  end.
Definition h_error (key : tvalue) : option string :=
  match key with
  | TNil => Some "table index is nil"%string
  | TNumber n => if luai_numisnan n then Some "table index is NaN"%string else None
  | _ => None
  end.

Definition addk (key v : tvalue) (fs : FuncState) : LuaM (Z * FuncState) :=
  match h_error key with
  | Some msg => lerror msg
  | None =>
      match h_slot key (h fs) with
      | TNumber n => lret (lua_number2int n, fs)
      | _ =>
          if MAXARG_Bx <=? nk fs then lerror "constant table overflow"
          else lret (nk fs, with_k (k fs ++ [v]) (h_store key (TNumber (cast_num (nk fs))) (h fs)) fs)
      end
  end.
Definition luaK_stringK (s : Z) (fs : FuncState) : LuaM (Z * FuncState) := addk (TGC GString s) (TGC GString s) fs.
Definition luaK_numberK (r : Z) (fs : FuncState) : LuaM (Z * FuncState) := addk (TNumber r) (TNumber r) fs.
Definition boolK (b : bool) (fs : FuncState) : LuaM (Z * FuncState) := addk (TBoolean b) (TBoolean b) fs.
(** The table itself stands for nil as a key. *)
Definition nilK (fs : FuncState) : LuaM (Z * FuncState) := addk (TGC GTable (h_addr fs)) TNil fs.

(** ** Expressions *)

(** [SETARG(getcode(fs, e), u)]. *)
Definition set_arg (f : Z -> Z -> Z) (u : Z) (e : expdesc) (fs : FuncState) : option FuncState :=
  i ← getcode fs e; Some (set_code (info e) (f i u) fs).

Definition luaK_setreturns (e : expdesc) (nresults : Z) (fs : FuncState) : LuaM FuncState :=
  match e_k e with
  | VCALL => llift (set_arg SETARG_C (nresults + 1) e fs)
  | VVARARG =>
      let* fs := llift (set_arg SETARG_B (nresults + 1) e fs) in
      let* fs := llift (set_arg SETARG_A (freereg fs) e fs) in
      luaK_reserveregs 1 fs
  | _ => lret fs
  end.

Definition luaK_setoneret (e : expdesc) (fs : FuncState) : option (expdesc * FuncState) :=
  match e_k e with
  | VCALL => i ← getcode fs e; Some (exp_is VNONRELOC (GETARG_A i) e, fs)
  | VVARARG => fs ← set_arg SETARG_B 2 e fs; Some (exp_kind VRELOCABLE e, fs)
  | _ => Some (e, fs)
  end.

Definition luaK_dischargevars (e : expdesc) (fs : FuncState) : LuaM (expdesc * FuncState) :=
  match e_k e with
  | VLOCAL => lret (exp_kind VNONRELOC e, fs)
  | VUPVAL => let* (p, fs) := luaK_codeABC OP_GETUPVAL 0 (info e) 0 fs in lret (exp_is VRELOCABLE p e, fs)
  | VGLOBAL => let* (p, fs) := luaK_codeABx OP_GETGLOBAL 0 (info e) fs in lret (exp_is VRELOCABLE p e, fs)
  | VINDEXED =>
      let fs := free_reg (aux e) fs in
      let fs := free_reg (info e) fs in
      let* (p, fs) := luaK_codeABC OP_GETTABLE 0 (info e) (aux e) fs in lret (exp_is VRELOCABLE p e, fs)
  | VVARARG | VCALL => llift (luaK_setoneret e fs)
  | _ => lret (e, fs)
  end.

Definition code_label (a b jump : Z) (fs : FuncState) : LuaM (Z * FuncState) :=
  let (_, fs) := luaK_getlabel fs in luaK_codeABC OP_LOADBOOL a b jump fs.

Definition discharge2reg (e : expdesc) (reg : Z) (fs : FuncState) : LuaM (expdesc * FuncState) :=
  let* (e, fs) := luaK_dischargevars e fs in
  let placed (fs : FuncState) := lret (exp_is VNONRELOC reg e, fs) in
  match e_k e with
  | VNIL => let* fs := luaK_nil reg 1 fs in placed fs
  | VFALSE => let* (_, fs) := luaK_codeABC OP_LOADBOOL reg 0 0 fs in placed fs
  | VTRUE => let* (_, fs) := luaK_codeABC OP_LOADBOOL reg 1 0 fs in placed fs
  | VK => let* (_, fs) := luaK_codeABx OP_LOADK reg (info e) fs in placed fs
  | VKNUM =>
      let* (i, fs) := luaK_numberK (nval e) fs in
      let* (_, fs) := luaK_codeABx OP_LOADK reg i fs in placed fs
  | VRELOCABLE => let* fs := llift (set_arg SETARG_A reg e fs) in placed fs
  | VNONRELOC =>
      if reg =? info e then placed fs
      else let* (_, fs) := luaK_codeABC OP_MOVE reg (info e) 0 fs in placed fs
  | _ => lret (e, fs)
  end.

Definition discharge2anyreg (e : expdesc) (fs : FuncState) : LuaM (expdesc * FuncState) :=
  if bool_decide (e_k e = VNONRELOC) then lret (e, fs)
  else let* fs := luaK_reserveregs 1 fs in discharge2reg e (freereg fs - 1) fs.

(** The part of [exp2reg] that gives the jumps of [e] their values. *)
Definition jumps2reg (e : expdesc) (reg : Z) (fs : FuncState) : LuaM FuncState :=
  let* nt := llift (need_value (turns fs) fs (e_t e)) in
  let* nf := llift (if (nt : bool) then Some true else need_value (turns fs) fs (e_f e)) in
  let* (p_f, p_t, fs) :=
    if (nf : bool) then
      let* (fj, fs) := if bool_decide (e_k e = VJMP) then lret (NO_JUMP, fs) else luaK_jump fs in
      let* (p_f, fs) := code_label reg 0 1 fs in
      let* (p_t, fs) := code_label reg 1 0 fs in
      let* fs := luaK_patchtohere fj fs in
      lret (p_f, p_t, fs)
    else lret (NO_JUMP, NO_JUMP, fs) in
  let (final, fs) := luaK_getlabel fs in
  let* fs := patchlistaux (e_f e) final reg p_f fs in
  patchlistaux (e_t e) final reg p_t fs.

Definition exp2reg (e : expdesc) (reg : Z) (fs : FuncState) : LuaM (expdesc * FuncState) :=
  let* (e, fs) := discharge2reg e reg fs in
  let* (t, fs) := if bool_decide (e_k e = VJMP) then luaK_concat (e_t e) (info e) fs else lret (e_t e, fs) in
  let e := exp_lists t (e_f e) e in
  let* fs := if hasjumps e then jumps2reg e reg fs else lret fs in
  lret (exp_is VNONRELOC reg (exp_lists NO_JUMP NO_JUMP e), fs).

Definition luaK_exp2nextreg (e : expdesc) (fs : FuncState) : LuaM (expdesc * FuncState) :=
  let* (e, fs) := luaK_dischargevars e fs in
  let fs := freeexp e fs in
  let* fs := luaK_reserveregs 1 fs in
  exp2reg e (freereg fs - 1) fs.

(** The result is [e->u.s.info]. *)
Definition luaK_exp2anyreg (e : expdesc) (fs : FuncState) : LuaM (expdesc * FuncState) :=
  let* (e, fs) := luaK_dischargevars e fs in
  if bool_decide (e_k e = VNONRELOC) then
    if negb (hasjumps e) then lret (e, fs)
    else if nactvar fs <=? info e then exp2reg e (info e) fs
    else luaK_exp2nextreg e fs
  else luaK_exp2nextreg e fs.

Definition luaK_exp2val (e : expdesc) (fs : FuncState) : LuaM (expdesc * FuncState) :=
  if hasjumps e then luaK_exp2anyreg e fs else luaK_dischargevars e fs.

Definition luaK_exp2RK (e : expdesc) (fs : FuncState) : LuaM (Z * expdesc * FuncState) :=
  let* (e, fs) := luaK_exp2val e fs in
  let in_register := let* (e, fs) := luaK_exp2anyreg e fs in lret (info e, e, fs) in
  let constant (m : LuaM (Z * FuncState)) :=
    if nk fs <=? MAXINDEXRK then let* (i, fs) := m in lret (RKASK i, exp_is VK i e, fs) else in_register in
  match e_k e with
  | VNIL => constant (nilK fs)
  | VKNUM => constant (luaK_numberK (nval e) fs)
  | VTRUE => constant (boolK true fs)
  | VFALSE => constant (boolK false fs)
  | VK => if info e <=? MAXINDEXRK then lret (RKASK (info e), e, fs) else in_register
  | _ => in_register
  end.

Definition luaK_storevar (var ex : expdesc) (fs : FuncState) : LuaM (expdesc * FuncState) :=
  match e_k var with
  | VLOCAL => exp2reg ex (info var) (freeexp ex fs)
  | VUPVAL =>
      let* (ex, fs) := luaK_exp2anyreg ex fs in
      let* (_, fs) := luaK_codeABC OP_SETUPVAL (info ex) (info var) 0 fs in
      lret (ex, freeexp ex fs)
  | VGLOBAL =>
      let* (ex, fs) := luaK_exp2anyreg ex fs in
      let* (_, fs) := luaK_codeABx OP_SETGLOBAL (info ex) (info var) fs in
      lret (ex, freeexp ex fs)
  | VINDEXED =>
      let* (e, ex, fs) := luaK_exp2RK ex fs in
      let* (_, fs) := luaK_codeABC OP_SETTABLE (info var) (aux var) e fs in
      lret (ex, freeexp ex fs)
  | _ => lret (ex, freeexp ex fs)
  end.

Definition luaK_self (e key : expdesc) (fs : FuncState) : LuaM (expdesc * expdesc * FuncState) :=
  let* (e, fs) := luaK_exp2anyreg e fs in
  let fs := freeexp e fs in
  let func := freereg fs in
  let* fs := luaK_reserveregs 2 fs in
  let* (c, key, fs) := luaK_exp2RK key fs in
  let* (_, fs) := luaK_codeABC OP_SELF func (info e) c fs in
  lret (exp_is VNONRELOC func e, key, freeexp key fs).

(** ** Conditions *)
Definition invertjump (e : expdesc) (fs : FuncState) : option FuncState :=
  c ← getjumpcontrol fs (info e); i ← code_at fs c;
  Some (set_code c (SETARG_A i (if GETARG_A i =? 0 then 1 else 0)) fs).

(** [fs->pc--]. *)
Definition drop_last (fs : FuncState) : FuncState := with_code (removelast (code fs)) (removelast (lineinfo fs)) fs.

Definition jumponcond (e : expdesc) (cond : Z) (fs : FuncState) : LuaM (Z * expdesc * FuncState) :=
  let through :=
    let* (e, fs) := discharge2anyreg e fs in
    let fs := freeexp e fs in
    let* (p, fs) := condjump OP_TESTSET NO_REG (info e) cond fs in
    lret (p, e, fs) in
  if bool_decide (e_k e = VRELOCABLE) then
    let* ie := llift (getcode fs e) in
    if is_op OP_NOT ie then
      let* (p, fs) := condjump OP_TEST (GETARG_B ie) 0 (if cond =? 0 then 1 else 0) (drop_last fs) in lret (p, e, fs)
    else through
  else through.

Definition luaK_goiftrue (e : expdesc) (fs : FuncState) : LuaM (expdesc * FuncState) :=
  let* (e, fs) := luaK_dischargevars e fs in
  let* (p, e, fs) :=
    match e_k e with
    | VK | VKNUM | VTRUE => lret (NO_JUMP, e, fs)
    | VJMP => let* fs := llift (invertjump e fs) in lret (info e, e, fs)
    | _ => jumponcond e 0 fs
    end in
  let* (f, fs) := luaK_concat (e_f e) p fs in
  let* fs := luaK_patchtohere (e_t e) fs in
  lret (exp_lists NO_JUMP f e, fs).

Definition luaK_goiffalse (e : expdesc) (fs : FuncState) : LuaM (expdesc * FuncState) :=
  let* (e, fs) := luaK_dischargevars e fs in
  let* (p, e, fs) :=
    match e_k e with
    | VNIL | VFALSE => lret (NO_JUMP, e, fs)
    | VJMP => lret (info e, e, fs)
    | _ => jumponcond e 1 fs
    end in
  let* (t, fs) := luaK_concat (e_t e) p fs in
  let* fs := luaK_patchtohere (e_f e) fs in
  lret (exp_lists t NO_JUMP e, fs).

Definition codenot (e : expdesc) (fs : FuncState) : LuaM (expdesc * FuncState) :=
  let* (e, fs) := luaK_dischargevars e fs in
  let* (e, fs) :=
    match e_k e with
    | VNIL | VFALSE => lret (exp_kind VTRUE e, fs)
    | VK | VKNUM | VTRUE => lret (exp_kind VFALSE e, fs)
    | VJMP => let* fs := llift (invertjump e fs) in lret (e, fs)
    | VRELOCABLE | VNONRELOC =>
        let* (e, fs) := discharge2anyreg e fs in
        let fs := freeexp e fs in
        let* (p, fs) := luaK_codeABC OP_NOT 0 (info e) 0 fs in
        lret (exp_is VRELOCABLE p e, fs)
    | _ => lret (e, fs)
    end in
  let e := exp_lists (e_f e) (e_t e) e in
  let* fs := llift (removevalues (e_f e) fs) in
  let* fs := llift (removevalues (e_t e) fs) in
  lret (e, fs).

Definition luaK_indexed (t key : expdesc) (fs : FuncState) : LuaM (expdesc * FuncState) :=
  let* (a, _, fs) := luaK_exp2RK key fs in
  lret (exp_kind VINDEXED (exp_aux a t), fs).

(** ** Operators *)
Section Operators.
Variable luai_numpow : Z -> Z -> Z.

(** [None]: not folded. *)
Definition constfolding (op : OpCode) (e1 e2 : expdesc) : option Z :=
  if negb (isnumeral e1) || negb (isnumeral e2) then None
  else
    let v1 := nval e1 in
    let v2 := nval e2 in
    r ← match op with
        | OP_ADD => Some (luai_numadd v1 v2)
        | OP_SUB => Some (luai_numsub v1 v2)
        | OP_MUL => Some (luai_nummul v1 v2)
        | OP_DIV => if luai_numeq v2 0 then None else Some (luai_numdiv v1 v2)
        | OP_MOD => if luai_numeq v2 0 then None else Some (luai_nummod v1 v2)
        | OP_POW => Some (luai_numpow v1 v2)
        | OP_UNM => Some (luai_numunm v1)
        | OP_LEN => None
        | _ => Some 0
        end;
    if luai_numisnan r then None else Some r.

Definition codearith (op : OpCode) (e1 e2 : expdesc) (fs : FuncState) : LuaM (expdesc * FuncState) :=
  match constfolding op e1 e2 with
  | Some r => lret (exp_nval r e1, fs)
  | None =>
      let* (o2, e2, fs) :=
        match op with OP_UNM | OP_LEN => lret (0, e2, fs) | _ => luaK_exp2RK e2 fs end in
      let* (o1, e1, fs) := luaK_exp2RK e1 fs in
      let fs := if o2 <? o1 then freeexp e2 (freeexp e1 fs) else freeexp e1 (freeexp e2 fs) in
      let* (p, fs) := luaK_codeABC op 0 o1 o2 fs in
      lret (exp_is VRELOCABLE p e1, fs)
  end.

Definition codecomp (op : OpCode) (cond : Z) (e1 e2 : expdesc) (fs : FuncState) : LuaM (expdesc * FuncState) :=
  let* (o1, e1, fs) := luaK_exp2RK e1 fs in
  let* (o2, e2, fs) := luaK_exp2RK e2 fs in
  let fs := freeexp e1 (freeexp e2 fs) in
  let* (p, fs) :=
    if (cond =? 0) && negb (bool_decide (op = OP_EQ)) then condjump op 1 o2 o1 fs else condjump op cond o1 o2 fs in
  lret (exp_is VJMP p e1, fs).

Definition zero_exp : expdesc := {| e_k := VKNUM; info := 0; aux := 0; nval := 0; e_t := NO_JUMP; e_f := NO_JUMP |}.

Definition luaK_prefix (op : UnOpr) (e : expdesc) (fs : FuncState) : LuaM (expdesc * FuncState) :=
  match op with
  | OPR_MINUS =>
      let* (e, fs) := if isnumeral e then lret (e, fs) else luaK_exp2anyreg e fs in
      codearith OP_UNM e zero_exp fs
  | OPR_NOT => codenot e fs
  | OPR_LEN => let* (e, fs) := luaK_exp2anyreg e fs in codearith OP_LEN e zero_exp fs
  | OPR_NOUNOPR => lret (e, fs)
  end.

Definition luaK_infix (op : BinOpr) (v : expdesc) (fs : FuncState) : LuaM (expdesc * FuncState) :=
  match op with
  | OPR_AND => luaK_goiftrue v fs
  | OPR_OR => luaK_goiffalse v fs
  | OPR_CONCAT => luaK_exp2nextreg v fs
  | OPR_ADD | OPR_SUB | OPR_MUL | OPR_DIV | OPR_MOD | OPR_POW =>
      if isnumeral v then lret (v, fs) else let* (_, v, fs) := luaK_exp2RK v fs in lret (v, fs)
  | _ => let* (_, v, fs) := luaK_exp2RK v fs in lret (v, fs)
  end.

Definition luaK_posfix (op : BinOpr) (e1 e2 : expdesc) (fs : FuncState) : LuaM (expdesc * FuncState) :=
  match op with
  | OPR_AND =>
      let* (e2, fs) := luaK_dischargevars e2 fs in
      let* (f, fs) := luaK_concat (e_f e2) (e_f e1) fs in
      lret (exp_lists (e_t e2) f e2, fs)
  | OPR_OR =>
      let* (e2, fs) := luaK_dischargevars e2 fs in
      let* (t, fs) := luaK_concat (e_t e2) (e_t e1) fs in
      lret (exp_lists t (e_f e2) e2, fs)
  | OPR_CONCAT =>
      let* (e2, fs) := luaK_exp2val e2 fs in
      let* joins := llift (if bool_decide (e_k e2 = VRELOCABLE) then is_op OP_CONCAT <$> getcode fs e2 else Some false) in
      if (joins : bool) then
        let fs := freeexp e1 fs in
        let* fs := llift (set_arg SETARG_B (info e1) e2 fs) in
        lret (exp_is VRELOCABLE (info e2) e1, fs)
      else
        let* (e2, fs) := luaK_exp2nextreg e2 fs in
        codearith OP_CONCAT e1 e2 fs
  | OPR_ADD => codearith OP_ADD e1 e2 fs
  | OPR_SUB => codearith OP_SUB e1 e2 fs
  | OPR_MUL => codearith OP_MUL e1 e2 fs
  | OPR_DIV => codearith OP_DIV e1 e2 fs
  | OPR_MOD => codearith OP_MOD e1 e2 fs
  | OPR_POW => codearith OP_POW e1 e2 fs
  | OPR_EQ => codecomp OP_EQ 1 e1 e2 fs
  | OPR_NE => codecomp OP_EQ 0 e1 e2 fs
  | OPR_LT => codecomp OP_LT 1 e1 e2 fs
  | OPR_LE => codecomp OP_LE 1 e1 e2 fs
  | OPR_GT => codecomp OP_LT 0 e1 e2 fs
  | OPR_GE => codecomp OP_LE 0 e1 e2 fs
  | OPR_NOBINOPR => lret (e1, fs)
  end.
End Operators.
