(* ===== verification/LCodeJumps.v ===== *)
(** * Lists of jumps (src/lua/lcode.c)

    A list of pending jumps is threaded through the words of its jumps: [chain] relates
    its head to the list of positions. The operations on lists are specified word by
    word: patching gives every jump its target, and the value tests in front of them
    their register; concatenation links two chains. *)
From stdpp Require Import base list option.
From Stdlib Require Import ZArith Lia ZifyBool.
From S2P Require Import Prelude LObject LNum LOpcodes LCode.
#[local] Open Scope Z_scope.

(** ** Words *)
Lemma getarg_a_range i : 0 <= GETARG_A i <= MAXARG_A.
Proof. pose proof (getfield_range SIZE_A POS_A i ltac:(fields)) as [? ?]. change MAXARG_A with (2 ^ SIZE_A - 1). unfold GETARG_A. lia. Qed.
Lemma getarg_b_range i : 0 <= GETARG_B i <= MAXARG_B.
Proof. pose proof (getfield_range SIZE_B POS_B i ltac:(fields)) as [? ?]. change MAXARG_B with (2 ^ SIZE_B - 1). unfold GETARG_B. lia. Qed.
Lemma getarg_c_range i : 0 <= GETARG_C i <= MAXARG_C.
Proof. pose proof (getfield_range SIZE_C POS_C i ltac:(fields)) as [? ?]. change MAXARG_C with (2 ^ SIZE_C - 1). unfold GETARG_C. lia. Qed.

Lemma is_op_iff op i : is_op op i = true <-> GET_OPCODE i = of_opcode op.
Proof. unfold is_op. apply Z.eqb_eq. Qed.
Lemma of_opcode_inj o1 o2 : of_opcode o1 = of_opcode o2 -> o1 = o2.
Proof. intros E. apply (f_equal to_opcode) in E. rewrite !to_of_opcode in E. by injection E. Qed.
Lemma is_op_other o1 o2 i : is_op o1 i = true -> o1 <> o2 -> is_op o2 i = false.
Proof.
  intros H1 Hne. apply not_true_is_false. rewrite is_op_iff in *. intros H2. apply Hne, of_opcode_inj. by rewrite <- H1, H2.
Qed.
Lemma is_op_test op i : is_op op i = true -> testT i = Some (testTMode op).
Proof. intros E%is_op_iff. unfold testT. by rewrite E, to_of_opcode. Qed.
Lemma is_op_same op i j : GET_OPCODE i = GET_OPCODE j -> is_op op i = is_op op j.
Proof. unfold is_op. by intros ->. Qed.

(** ** Positions in the code *)
Lemma code_at_bounds fs i w : code_at fs i = Some w -> 0 <= i < pc fs.
Proof. unfold code_at, pc. destruct (Z.ltb_spec i 0); [done|]. intros Hi%lookup_lt_Some. lia. Qed.
Lemma code_at_some fs i : 0 <= i < pc fs -> is_Some (code_at fs i).
Proof. unfold code_at, pc. intros Hi. assert ((i <? 0) = false) as -> by lia. apply lookup_lt_is_Some_2. lia. Qed.
Lemma pc_nonneg fs : 0 <= pc fs.
Proof. unfold pc. lia. Qed.

Lemma pc_set_code i v fs : pc (set_code i v fs) = pc fs.
Proof. unfold pc, set_code. cbn. by rewrite length_insert. Qed.
Lemma code_at_set_code i v fs j : 0 <= i < pc fs -> code_at (set_code i v fs) j = if j =? i then Some v else code_at fs j.
Proof.
  intros Hi. unfold code_at, pc in *. cbn. destruct (Z.ltb_spec j 0), (Z.eqb_spec j i); subst; try lia; [done|..].
  - apply list_lookup_insert_eq. lia.
  - apply list_lookup_insert_ne. lia.
Qed.

(** Everything but the words is the same. *)
Definition same_shape (fs fs' : FuncState) : Prop :=
  exists c, fs' = with_code c (lineinfo fs) fs /\ length c = length (code fs).

Lemma same_shape_refl fs : same_shape fs fs.
Proof. exists (code fs). by destruct fs. Qed.
Lemma same_shape_trans a b c : same_shape a b -> same_shape b c -> same_shape a c.
Proof. intros (x & -> & Hx) (y & -> & Hy). exists y. cbn in *. split; [done|congruence]. Qed.
Lemma same_shape_set i v fs : same_shape fs (set_code i v fs).
Proof. eexists. split; [done|]. apply length_insert. Qed.
Lemma same_shape_pc fs fs' : same_shape fs fs' -> pc fs' = pc fs.
Proof. intros (c & -> & Hc). unfold pc. cbn. by rewrite Hc. Qed.

(** ** Chains *)
Fixpoint chain (fs : FuncState) (l : Z) (js : list Z) : Prop :=
  match js with
  | [] => l = NO_JUMP
  | j :: js => l = j /\ l <> NO_JUMP /\ exists next, getjump fs j = Some next /\ chain fs next js
  end.

(** A pending jump; the word in front of it is an instruction. *)
Record jump_ok (fs : FuncState) (j : Z) : Prop := {
  jump_word : exists w, code_at fs j = Some w /\ is_op OP_JMP w = true;
  jump_front : 1 <= j -> exists c t, code_at fs (j - 1) = Some c /\ testT c = Some t;
}.
Definition jumps_ok (fs : FuncState) (js : list Z) : Prop := NoDup js /\ Forall (jump_ok fs) js.

(** The value test in front of a jump. *)
Definition setter (fs : FuncState) (j : Z) : option Z := c ← code_at fs (j - 1); if is_op OP_TESTSET c then Some c else None.

Lemma setter_some fs j c : setter fs j = Some c <-> code_at fs (j - 1) = Some c /\ is_op OP_TESTSET c = true.
Proof. unfold setter. destruct (code_at fs (j - 1)) as [x|]; cbn; [destruct (is_op OP_TESTSET x) eqn:E|];
  (split; [by intros [= <-]|intros [[= <-] Ht]; congruence || done]).
Qed.

Lemma chain_nonneg fs l js : chain fs l js -> Forall (fun j => 0 <= j) js.
Proof.
  revert l. induction js as [|j js IH]; intros l; [done|]. intros (-> & _ & next & Hn & Hc). constructor; [|by eapply IH].
  unfold getjump in Hn. destruct (code_at fs j) as [w|] eqn:Hw; [|done]. by apply code_at_bounds in Hw as [? ?].
Qed.

Lemma getjump_ext fs fs' j : code_at fs' j = code_at fs j -> getjump fs' j = getjump fs j.
Proof. unfold getjump. by intros ->. Qed.
Lemma jchain_ext fs fs' l js : (forall j, j ∈ js -> code_at fs' j = code_at fs j) -> chain fs l js -> chain fs' l js.
Proof.
  revert l. induction js as [|j js IH]; intros l E; [done|]. intros (-> & Hj & next & Hn & Hc). split; [done|]. split; [done|].
  exists next. split; [rewrite <- Hn; apply getjump_ext, E; left|]. apply IH; [|done]. intros i Hi. apply E. by right.
Qed.
Lemma jump_ok_ext fs fs' j : code_at fs' j = code_at fs j -> code_at fs' (j - 1) = code_at fs (j - 1) -> jump_ok fs j -> jump_ok fs' j.
Proof. intros E1 E2 [H1 H2]. by split; rewrite ?E1, ?E2. Qed.

Lemma jump_ok_bounds fs j : jump_ok fs j -> 0 <= j < pc fs.
Proof. intros [(w & Hw & _) _]. by eapply code_at_bounds. Qed.

(** The word in front of a jump is no pending jump itself if it is a test. *)
Lemma test_no_jump fs j c : code_at fs j = Some c -> is_op OP_JMP c = false -> jump_ok fs j -> False.
Proof. intros Hc Hn [(w & Hw & Hj) _]. by rewrite Hc in Hw; injection Hw as <-; rewrite Hj in Hn. Qed.

Lemma control_setter fs j c : jump_ok fs j -> setter fs j = Some c -> getjumpcontrol fs j = Some (j - 1).
Proof.
  intros Hj [Hc Ht]%setter_some. pose proof (code_at_bounds _ _ _ Hc). unfold getjumpcontrol. assert ((1 <=? j) = true) as -> by lia.
  rewrite Hc. cbn. by rewrite (is_op_test _ _ Ht).
Qed.
Lemma control_other fs j : jump_ok fs j -> setter fs j = None ->
  exists c w, getjumpcontrol fs j = Some c /\ code_at fs c = Some w /\ is_op OP_TESTSET w = false.
Proof.
  intros [(w & Hw & Hj) Hf] Hs. unfold getjumpcontrol. destruct (Z.leb_spec 1 j) as [Hle|Hle].
  - destruct (Hf Hle) as (c & t & Hc & Ht). unfold setter in Hs. rewrite Hc in Hs |- *. cbn in Hs |- *. rewrite Ht.
    destruct (is_op OP_TESTSET c) eqn:E; [done|]. destruct t; eexists _, _; (split; [done|]); [done|].
    split; [done|]. by apply (is_op_other OP_JMP).
  - eexists _, _. split; [done|]. split; [done|]. by apply (is_op_other OP_JMP).
Qed.

(** ** Patching one jump *)
Definition test_of (c : Z) : Z := CREATE_ABC (of_opcode OP_TEST) (GETARG_B c) 0 (GETARG_C c).
Definition settest (reg c : Z) : Z := if negb (reg =? NO_REG) && negb (reg =? GETARG_B c) then SETARG_A c reg else test_of c.

Lemma patchtestreg_spec fs j reg : jump_ok fs j ->
  patchtestreg j reg fs = match setter fs j with Some c => Some (true, set_code (j - 1) (settest reg c) fs) | None => Some (false, fs) end.
Proof.
  intros Hj. unfold patchtestreg. destruct (setter fs j) as [c|] eqn:Hs.
  - rewrite (control_setter _ _ _ Hj Hs). apply setter_some in Hs as [Hc Ht]. cbn [mbind option_bind]. rewrite Hc. cbn [mbind option_bind]. rewrite Ht.
    cbn [negb]. unfold settest. by destruct (negb _ && negb _).
  - destruct (control_other _ _ Hj Hs) as (c & w & -> & Hw & Ht). cbn [mbind option_bind]. rewrite Hw. cbn [mbind option_bind]. by rewrite Ht.
Qed.

Lemma fixjump_spec fs j dest w : code_at fs j = Some w ->
  lsafe (fixjump j dest fs) (fun fs' => fs' = set_code j (SETARG_sBx w (dest - (j + 1))) fs /\ Z.abs (dest - (j + 1)) <= MAXARG_sBx).
Proof. intros Hw. unfold fixjump. rewrite Hw. cbn. destruct (Z.ltb_spec MAXARG_sBx (Z.abs (dest - (j + 1)))); cbn; [done|]. split; [done|lia]. Qed.

(** ** Patching a list *)
Definition target (fs : FuncState) (vtarget dtarget j : Z) : Z := if setter fs j then vtarget else dtarget.
Definition patch_word (fs : FuncState) (L : list Z) (reg vtarget dtarget i w : Z) : Z :=
  if bool_decide (i ∈ L) then SETARG_sBx w (target fs vtarget dtarget i - (i + 1))
  else if is_op OP_TESTSET w && bool_decide (i + 1 ∈ L) then settest reg w else w.

Record patched (L : list Z) (reg vtarget dtarget : Z) (fs fs' : FuncState) : Prop := {
  patched_shape : same_shape fs fs';
  patched_words i w : code_at fs i = Some w -> code_at fs' i = Some (patch_word fs L reg vtarget dtarget i w);
  patched_near j : j ∈ L -> Z.abs (target fs vtarget dtarget j - (j + 1)) <= MAXARG_sBx;
}.

Lemma jump_not_test fs j w : jump_ok fs j -> code_at fs j = Some w -> is_op OP_TESTSET w = false.
Proof. intros [(x & Hx & Hj) _] Hw. rewrite Hw in Hx. injection Hx as <-. by apply (is_op_other OP_JMP). Qed.

Lemma patch_one_spec fs j reg vt dt : jump_ok fs j ->
  lsafe (let* (v, fs) := llift (patchtestreg j reg fs) in fixjump j (if (v : bool) then vt else dt) fs) (patched [j] reg vt dt fs).
Proof.
  intros Hj. rewrite (patchtestreg_spec _ _ _ Hj). destruct (jump_word _ _ Hj) as (wj & Hwj & Hjmp). unfold target.
  pose proof (code_at_bounds _ _ _ Hwj) as Hb.
  destruct (setter fs j) as [c|] eqn:Hs.
  - apply setter_some in Hs as Hc. destruct Hc as [Hc Ht]. pose proof (code_at_bounds _ _ _ Hc).
    cbn [llift fmap option_fmap option_map lbind].
    eapply lsafe_mono; [apply (fixjump_spec _ _ _ wj); rewrite code_at_set_code by done; by assert ((j =? j - 1) = false) as -> by lia|].
    intros fs' [-> Hn]. split; [eapply same_shape_trans; apply same_shape_set|..].
    + intros i w Hw. rewrite !code_at_set_code by (rewrite ?pc_set_code; lia). unfold patch_word, target.
      destruct (Z.eqb_spec i j) as [->|Hne].
      { rewrite bool_decide_eq_true_2 by set_solver. rewrite Hs. congruence. }
      rewrite bool_decide_eq_false_2 by set_solver. destruct (Z.eqb_spec i (j - 1)) as [->|Hne'].
      * rewrite Hc in Hw. injection Hw as <-. rewrite Ht, bool_decide_eq_true_2; [done|]. replace (j - 1 + 1) with j by lia. set_solver.
      * rewrite (bool_decide_eq_false_2 (i + 1 ∈ [j])); [by rewrite andb_false_r|]. intros E%list_elem_of_singleton. lia.
    + intros i ->%list_elem_of_singleton. unfold target. by rewrite Hs.
  - cbn [llift fmap option_fmap option_map lbind]. eapply lsafe_mono; [by apply (fixjump_spec _ _ _ wj)|].
    intros fs' [-> Hn]. split; [apply same_shape_set|..].
    + intros i w Hw. rewrite code_at_set_code by lia. unfold patch_word, target. destruct (Z.eqb_spec i j) as [->|Hne].
      { rewrite bool_decide_eq_true_2 by set_solver. rewrite Hs. congruence. }
      rewrite bool_decide_eq_false_2 by set_solver. destruct (is_op OP_TESTSET w) eqn:Ht; [|done]. cbn [andb].
      rewrite bool_decide_eq_false_2; [done|]. intros E%list_elem_of_singleton.
      assert (setter fs j = Some w) as Es; [|by rewrite Hs in Es]. apply setter_some. by replace (j - 1) with i by lia.
    + intros i ->%list_elem_of_singleton. unfold target. by rewrite Hs.
Qed.

Lemma set_a_opcode i a : GET_OPCODE (SETARG_A i a) = GET_OPCODE i.
Proof. by destruct (get_set_field SIZE_A POS_A SIZE_OP POS_OP i a) as [_ E]; [fields..|]. Qed.
Lemma set_sbx_opcode i a : GET_OPCODE (SETARG_sBx i a) = GET_OPCODE i.
Proof. by destruct (get_set_field SIZE_Bx POS_Bx SIZE_OP POS_OP i (u32 (a + MAXARG_sBx))) as [_ E]; [fields..|]. Qed.

Lemma test_of_opcode c : is_op OP_TEST (test_of c) = true.
Proof.
  apply is_op_iff. pose proof (getarg_b_range c). pose proof (getarg_c_range c). change MAXARG_B with 511 in *. change MAXARG_C with 511 in *.
  pose proof (opcode_range OP_TEST). assert (0 <= GETARG_B c < 2 ^ 9) by lia. assert (0 <= GETARG_C c < 2 ^ 9) by lia. assert (0 <= 0 < 2 ^ 9) by lia.
  unfold test_of, GET_OPCODE, CREATE_ABC. rewrite !getfield_lor.
  rewrite (getfield_same SIZE_OP POS_OP) by (done || fields).
  rewrite !(getfield_other SIZE_OP POS_OP _ 9) by (done || fields). by rewrite !Z.lor_0_r.
Qed.
Lemma test_of_fields c : GETARG_B c <= MAXARG_A -> GETARG_A (test_of c) = GETARG_B c /\ GETARG_C (test_of c) = GETARG_C c.
Proof.
  intros Hb. pose proof (getarg_b_range c). pose proof (getarg_c_range c).
  destruct (create_abc_fields OP_TEST (GETARG_B c) 0 (GETARG_C c)) as (_ & ? & _ & ?); [lia|done|done|done].
Qed.

Lemma settest_testT reg c : is_op OP_TESTSET c = true -> testT (settest reg c) = Some true.
Proof.
  intros Hc. unfold settest. destruct (negb _ && negb _); [|exact (is_op_test OP_TEST _ (test_of_opcode c))].
  apply (is_op_test OP_TESTSET). by rewrite (is_op_same _ _ c) by apply set_a_opcode.
Qed.

Section Patched.
Variables (L : list Z) (reg vt dt : Z) (fs fs' : FuncState).
Hypothesis Hp : patched L reg vt dt fs fs'.

Lemma patched_pc : pc fs' = pc fs.
Proof using Hp. eapply same_shape_pc, Hp. Qed.

Lemma patched_test i w : (forall j, j ∈ L -> jump_ok fs j) -> code_at fs i = Some w ->
  is_op OP_JMP (patch_word fs L reg vt dt i w) = is_op OP_JMP w /\ testT (patch_word fs L reg vt dt i w) = testT w.
Proof using.
  intros HL Hw. unfold patch_word. case_bool_decide as Hi.
  - unfold testT. by rewrite set_sbx_opcode, (is_op_same _ _ w) by apply set_sbx_opcode.
  - destruct (is_op OP_TESTSET w) eqn:Ht; [|done]. cbn [andb]. case_bool_decide; [|done].
    rewrite (settest_testT _ _ Ht), (is_op_test _ _ Ht), (is_op_other OP_TESTSET OP_JMP w) by done. split; [|done].
    unfold settest. destruct (negb _ && negb _); [|by apply (is_op_other OP_TEST); [apply test_of_opcode|]].
    apply (is_op_other OP_TESTSET); [|done]. by rewrite (is_op_same _ _ w) by apply set_a_opcode.
Qed.

Lemma patched_jump_ok j : (forall j, j ∈ L -> jump_ok fs j) -> jump_ok fs j -> jump_ok fs' j.
Proof using Hp.
  intros HL [(w & Hw & Hj) Hf]. split.
  - exists (patch_word fs L reg vt dt j w). rewrite (patched_words _ _ _ _ _ _ Hp _ _ Hw). split; [done|].
    destruct (patched_test _ _ HL Hw) as [-> _]. done.
  - intros Hle. destruct (Hf Hle) as (c & t & Hc & Ht). exists (patch_word fs L reg vt dt (j - 1) c), t.
    rewrite (patched_words _ _ _ _ _ _ Hp _ _ Hc). split; [done|]. destruct (patched_test _ _ HL Hc) as [_ ->]. done.
Qed.

(** Words that are neither jumps of the list nor in front of one. *)
Lemma patched_other i : i ∉ L -> i + 1 ∉ L -> code_at fs' i = code_at fs i.
Proof using Hp.
  intros H1 H2. destruct (code_at fs i) as [w|] eqn:Hw.
  - rewrite (patched_words _ _ _ _ _ _ Hp _ _ Hw). unfold patch_word. by rewrite !bool_decide_eq_false_2, andb_false_r by done.
  - destruct (code_at fs' i) as [w|] eqn:Hw'; [|done]. apply code_at_bounds in Hw'. rewrite patched_pc in Hw'.
    apply code_at_some in Hw' as [? ?]. congruence.
Qed.

(** A jump outside the list, and the word in front of it. *)
Lemma patched_jump j : jump_ok fs j -> j ∉ L -> (forall i, i ∈ L -> jump_ok fs i) ->
  code_at fs' j = code_at fs j /\ code_at fs' (j - 1) = code_at fs (j - 1) \/
  code_at fs' j = code_at fs j /\ setter fs j = None /\ setter fs' j = None.
Proof using Hp.
  intros Hj Hn HL. destruct (jump_word _ _ Hj) as (w & Hw & Hjmp).
  assert (code_at fs' j = code_at fs j) as Ej.
  { rewrite (patched_words _ _ _ _ _ _ Hp _ _ Hw), Hw. unfold patch_word. rewrite bool_decide_eq_false_2 by done.
    by rewrite (jump_not_test _ _ _ Hj Hw). }
  destruct (decide (j - 1 ∈ L)) as [Hin|Hin].
  - right. split; [done|]. destruct (jump_word _ _ (HL _ Hin)) as (x & Hx & Hxj). unfold setter.
    rewrite Hx, (patched_words _ _ _ _ _ _ Hp _ _ Hx). cbn. unfold patch_word. rewrite bool_decide_eq_true_2 by done.
    rewrite (is_op_same OP_TESTSET (SETARG_sBx x _) x) by apply set_sbx_opcode. by rewrite (is_op_other OP_JMP OP_TESTSET x).
  - left. split; [done|]. apply patched_other; [done|]. by replace (j - 1 + 1) with j by lia.
Qed.
Lemma patched_setter j : jump_ok fs j -> j ∉ L -> (forall i, i ∈ L -> jump_ok fs i) -> setter fs' j = setter fs j.
Proof using Hp.
  intros Hj Hn HL. destruct (patched_jump j Hj Hn HL) as [[_ E]|(_ & E1 & E2)]; [|by rewrite E1, E2]. unfold setter. by rewrite E.
Qed.
Lemma patched_chain l js : (forall j, j ∈ js -> jump_ok fs j /\ j ∉ L) -> (forall i, i ∈ L -> jump_ok fs i) -> chain fs l js -> chain fs' l js.
Proof using Hp. intros Hj HL. apply jchain_ext. intros j Hin. destruct (Hj j Hin). by destruct (patched_jump j) as [[E _]|[E _]]. Qed.
End Patched.

Lemma patched_nil reg vt dt fs : patched [] reg vt dt fs fs.
Proof.
  split; [apply same_shape_refl| |set_solver]. intros i w Hw. unfold patch_word.
  by rewrite !bool_decide_eq_false_2, andb_false_r by set_solver.
Qed.

Lemma patched_cons j L reg vt dt fs fs1 fs' : (forall i, i ∈ j :: L -> jump_ok fs i) -> j ∉ L ->
  patched [j] reg vt dt fs fs1 -> patched L reg vt dt fs1 fs' -> patched (j :: L) reg vt dt fs fs'.
Proof.
  intros Hok Hn H1 H2. assert (forall i, i ∈ [j] -> jump_ok fs i) as Hj1 by set_solver.
  assert (forall i, i ∈ L -> setter fs1 i = setter fs i) as Hset.
  { intros i Hi. apply (patched_setter _ _ _ _ _ _ H1); [set_solver|set_solver|done]. }
  split; [eapply same_shape_trans; [apply H1|apply H2]|..].
  - intros i w Hw. rewrite (patched_words _ _ _ _ _ _ H2 _ _ (patched_words _ _ _ _ _ _ H1 _ _ Hw)). f_equal.
    unfold patch_word at 1. case_bool_decide as Hi.
    + unfold target at 1. rewrite (Hset _ Hi). unfold patch_word. rewrite (bool_decide_eq_false_2 (i ∈ [j])), (bool_decide_eq_true_2 (i ∈ j :: L)) by set_solver.
      by rewrite (jump_not_test _ _ _ (Hok i ltac:(set_solver)) Hw).
    + unfold patch_word. destruct (decide (i = j)) as [->|Hne].
      { rewrite !(bool_decide_eq_true_2 (j ∈ _)) by set_solver.
        rewrite (is_op_same OP_TESTSET (SETARG_sBx w _) w) by apply set_sbx_opcode.
        by rewrite (jump_not_test _ _ _ (Hok j ltac:(set_solver)) Hw). }
      rewrite !(bool_decide_eq_false_2 (i ∈ _)) by set_solver. destruct (is_op OP_TESTSET w) eqn:Ht; cbn [andb]; [|by rewrite Ht].
      destruct (decide (i + 1 = j)) as [<-|Hne'].
      * rewrite (bool_decide_eq_true_2 (i + 1 ∈ [i + 1])), (bool_decide_eq_true_2 (i + 1 ∈ _ :: L)), (bool_decide_eq_false_2 (i + 1 ∈ L)) by set_solver.
        by rewrite andb_false_r.
      * rewrite (bool_decide_eq_false_2 (i + 1 ∈ [j])) by set_solver. rewrite Ht. cbn [andb].
        by rewrite (bool_decide_ext (i + 1 ∈ L) (i + 1 ∈ j :: L)) by set_solver.
  - intros i [->|Hi]%elem_of_cons; [apply (patched_near _ _ _ _ _ _ H1); set_solver|].
    pose proof (patched_near _ _ _ _ _ _ H2 _ Hi) as Hnear. unfold target in *. by rewrite Hset in Hnear.
Qed.

Lemma patchlist_loop_spec fuel L l reg vt dt fs : chain fs l L -> NoDup L -> (forall i, i ∈ L -> jump_ok fs i) -> (length L <= fuel)%nat ->
  lsafe (patchlist_loop fuel l vt reg dt fs) (patched L reg vt dt fs).
Proof.
  revert L l fs. induction fuel as [|fuel IH]; intros L l fs Hc Hnd Hok Hlen.
  - destruct L; [|cbn in Hlen; lia]. cbn in Hc. subst l. apply patched_nil.
  - destruct L as [|j L]; cbn in Hc.
    { subst l. cbn. apply patched_nil. }
    destruct Hc as (-> & Hj & next & Hn & Hc). apply NoDup_cons in Hnd as [Hnj Hnd].
    cbn [patchlist_loop]. assert ((j =? NO_JUMP) = false) as -> by lia. rewrite Hn. cbn [llift fmap option_fmap option_map lbind].
    pose proof (patch_one_spec fs j reg vt dt (Hok j ltac:(set_solver))) as H1.
    destruct (patchtestreg j reg fs) as [[v fs1]|]; [|done]. cbn [llift fmap option_fmap option_map lbind] in H1 |- *.
    eapply lsafe_bind; [exact H1|]. intros fs2 H2. assert (forall i, i ∈ [j] -> jump_ok fs i) as Hj1 by set_solver.
    eapply lsafe_mono; [apply (IH L)|].
    + eapply (patched_chain _ _ _ _ _ _ H2); [set_solver|done..].
    + done.
    + intros i Hi. apply (patched_jump_ok _ _ _ _ _ _ H2); [done|]. apply Hok. set_solver.
    + cbn in Hlen. lia.
    + intros fs' H'. by eapply patched_cons.
Qed.

Lemma chain_turns fs L : NoDup L -> (forall i, i ∈ L -> 0 <= i < pc fs) -> (length L <= length (code fs))%nat.
Proof.
  intros Hnd HL. assert (length L = length (Z.to_nat <$> L)) as -> by (by rewrite length_fmap).
  rewrite <- (length_seq (length (code fs)) 0). apply submseteq_length, NoDup_submseteq.
  - apply NoDup_fmap_2_strong; [|done]. intros x y Hx%HL Hy%HL. lia.
  - intros n (i & -> & Hi%HL)%list_elem_of_fmap. apply elem_of_seq. unfold pc in Hi. lia.
Qed.

(** [patchlistaux] gives every jump of the list its target and changes nothing else. *)
Lemma patchlistaux_spec L l reg vt dt fs : chain fs l L -> NoDup L -> (forall i, i ∈ L -> jump_ok fs i) ->
  lsafe (patchlistaux l vt reg dt fs) (patched L reg vt dt fs).
Proof.
  intros Hc Hnd Hok. apply patchlist_loop_spec; [done..|]. unfold turns.
  assert (length L <= length (code fs))%nat; [|lia]. apply chain_turns; [done|]. intros i Hi. by apply jump_ok_bounds, Hok.
Qed.

(** ** Concatenation *)
Lemma getjump_set fs j w dest : code_at fs j = Some w -> Z.abs (dest - (j + 1)) <= MAXARG_sBx -> dest <> j ->
  getjump (set_code j (SETARG_sBx w (dest - (j + 1))) fs) j = Some dest.
Proof.
  intros Hw Hn Hne. unfold getjump. rewrite code_at_set_code by (by eapply code_at_bounds). rewrite Z.eqb_refl. cbn.
  destruct (set_sbx_fields w (dest - (j + 1))) as (-> & _); [lia|]. unfold NO_JUMP. f_equal. destruct (Z.eqb_spec (dest - (j + 1)) (-1)); lia.
Qed.

Lemma list_end_spec fs js j l fuel : chain fs l (js ++ [j]) -> (length js <= fuel)%nat -> list_end fuel fs l = Some j.
Proof.
  revert l fuel. induction js as [|i js IH]; intros l fuel Hc Hf.
  - destruct Hc as (-> & _ & next & Hn & Hc). cbn in Hc. subst next. destruct fuel; cbn [list_end]; rewrite Hn; done.
  - destruct Hc as (-> & _ & next & Hn & Hc). cbn in Hf. destruct fuel as [|fuel]; [lia|]. cbn [list_end]. rewrite Hn. cbn [mbind option_bind].
    assert (next <> NO_JUMP) as Hne.
    { destruct js; cbn in Hc; [destruct Hc as (-> & ? & _)|destruct Hc as (-> & ? & _)]; done. }
    destruct (Z.eqb_spec next NO_JUMP); [done|]. apply IH; [done|lia].
Qed.

Record linked (L : list Z) (fs fs' : FuncState) : Prop := {
  linked_shape : same_shape fs fs';
  linked_other i : i ∉ L -> code_at fs' i = code_at fs i;
  linked_jump i : i ∈ L -> exists w, code_at fs' i = Some w /\ is_op OP_JMP w = true;
}.

Lemma linked_refl L fs : (forall i, i ∈ L -> jump_ok fs i) -> linked L fs fs.
Proof. intros HL. split; [apply same_shape_refl|done|]. intros i Hi. apply (jump_word _ _ (HL i Hi)). Qed.

Lemma linked_jump_ok L fs fs' j : linked L fs fs' -> (forall i, i ∈ L -> jump_ok fs i) -> jump_ok fs j -> jump_ok fs' j.
Proof.
  intros H HL Hj. split.
  - destruct (decide (j ∈ L)); [by apply H|]. rewrite (linked_other _ _ _ H) by done. apply Hj.
  - intros Hle. destruct (decide (j - 1 ∈ L)) as [Hin|Hin].
    + destruct (linked_jump _ _ _ H _ Hin) as (w & Hw & Hjmp). exists w, (testTMode OP_JMP). split; [done|]. by apply is_op_test.
    + rewrite (linked_other _ _ _ H) by done. by apply Hj.
Qed.
Lemma linked_setter L fs fs' j : linked L fs fs' -> (forall i, i ∈ L -> jump_ok fs i) -> setter fs' j = setter fs j.
Proof.
  intros H HL. unfold setter. destruct (decide (j - 1 ∈ L)) as [Hin|Hin]; [|by rewrite (linked_other _ _ _ H)].
  destruct (linked_jump _ _ _ H _ Hin) as (w & -> & Hw). destruct (jump_word _ _ (HL _ Hin)) as (w' & -> & Hw'). cbn.
  by rewrite (is_op_other OP_JMP OP_TESTSET w), (is_op_other OP_JMP OP_TESTSET w').
Qed.

Lemma chain_app_linked fs fs' l1 l2 js j L2 : chain fs l1 (js ++ [j]) -> chain fs' l2 L2 ->
  (forall i, i ∈ js -> code_at fs' i = code_at fs i) -> getjump fs' j = Some l2 -> chain fs' l1 ((js ++ [j]) ++ L2).
Proof.
  revert l1. induction js as [|i js IH]; intros l1 H1 H2 E Hj.
  - destruct H1 as (-> & Hne & _). split; [done|]. split; [done|]. by exists l2.
  - destruct H1 as (-> & Hne & n & Hn & Hc). split; [done|]. split; [done|]. exists n. split.
    + rewrite <- Hn. apply getjump_ext, E, list_elem_of_here.
    + apply IH; [done..| |done]. intros k Hk. by apply E, list_elem_of_further.
Qed.

(** [luaK_concat] links two lists; only words of the first change. *)
Lemma luaK_concat_spec l1 l2 L1 L2 fs : chain fs l1 L1 -> chain fs l2 L2 -> NoDup (L1 ++ L2) -> (forall i, i ∈ L1 ++ L2 -> jump_ok fs i) ->
  lsafe (luaK_concat l1 l2 fs) (fun '(l, fs') => chain fs' l (L1 ++ L2) /\ linked L1 fs fs').
Proof.
  intros H1 H2 [Hn1 [Hdis Hn2]]%NoDup_app Hok. unfold luaK_concat.
  assert (forall i, i ∈ L1 -> jump_ok fs i) as Hok1 by (intros i Hi; apply Hok; set_solver).
  destruct (Z.eqb_spec l2 NO_JUMP) as [->|Hl2].
  { destruct L2; [|cbn in H2; naive_solver]. rewrite app_nil_r. split; [done|by apply linked_refl]. }
  destruct (Z.eqb_spec l1 NO_JUMP) as [->|Hl1].
  { destruct L1; [|cbn in H1; naive_solver]. split; [done|by apply linked_refl]. }
  destruct (exists_last (l := L1)) as (js & j & ->). { intros ->. by cbn in H1. }
  assert (length (js ++ [j]) <= length (code fs))%nat as Hlen.
  { apply chain_turns; [done|]. intros i Hi. by apply jump_ok_bounds, Hok1. }
  rewrite length_app in Hlen. cbn in Hlen.
  rewrite (list_end_spec _ js j) by (done || unfold turns; lia). cbn [llift fmap option_fmap option_map lbind].
  assert (jump_ok fs j) as Hj by (apply Hok1; set_solver). destruct (jump_word _ _ Hj) as (w & Hw & Hjmp).
  assert (j ∉ js) as Hjs. { apply NoDup_app in Hn1 as (_ & Hd & _). intros Hi. apply (Hd j Hi). set_solver. }
  assert (l2 ∈ L2 /\ l2 <> j) as [Hl2' Hl2j].
  { destruct L2 as [|x L2]; [by cbn in H2|]. destruct H2 as (-> & _). split; [set_solver|]. intros ->. apply (Hdis j); set_solver. }
  eapply lsafe_bind; [by apply (fixjump_spec _ _ _ w)|]. intros fs' [-> Hnear]. cbn. split.
  - apply (chain_app_linked fs _ l1 l2); [done|..].
    + apply (jchain_ext fs); [|done]. intros i Hi. rewrite code_at_set_code by (by eapply code_at_bounds).
      destruct (Z.eqb_spec i j) as [->|]; [|done]. destruct (Hdis j); set_solver.
    + intros i Hi. rewrite code_at_set_code by (by eapply code_at_bounds). by destruct (Z.eqb_spec i j) as [->|].
    + by apply getjump_set.
  - split; [apply same_shape_set|..]; intros i Hi; rewrite code_at_set_code by (by eapply code_at_bounds).
    + destruct (Z.eqb_spec i j) as [->|]; [set_solver|done].
    + destruct (Z.eqb_spec i j) as [->|]; [|apply (jump_word _ _ (Hok1 i Hi))]. eexists. split; [done|].
      by rewrite (is_op_same _ _ w) by apply set_sbx_opcode.
Qed.

(** ** Values of the jumps *)
Lemma need_value_spec L l fs : chain fs l L -> NoDup L -> (forall i, i ∈ L -> jump_ok fs i) ->
  need_value (turns fs) fs l = Some (bool_decide (Exists (fun j => setter fs j = None) L)).
Proof.
  intros Hc Hnd Hok. assert (length L <= turns fs)%nat as Hlen.
  { unfold turns. assert (length L <= length (code fs))%nat; [|lia]. apply chain_turns; [done|]. intros i Hi. by apply jump_ok_bounds, Hok. }
  clear Hnd. generalize dependent (turns fs). intros fuel Hlen. revert L l Hc Hok Hlen. induction fuel as [|fuel IH]; intros L l Hc Hok Hlen.
  - destruct L; [|cbn in Hlen; lia]. cbn in Hc. subst l. done.
  - destruct L as [|j L]; cbn in Hc.
    { subst l. done. }
    destruct Hc as (-> & Hne & next & Hn & Hc). cbn [need_value]. assert ((j =? NO_JUMP) = false) as -> by lia.
    assert (jump_ok fs j) as Hj by (apply Hok; set_solver). destruct (setter fs j) as [c|] eqn:Hs.
    + rewrite (control_setter _ _ _ Hj Hs). apply setter_some in Hs as Hs'. destruct Hs' as [Hc' Ht]. cbn [mbind option_bind].
      rewrite Hc'. cbn [mbind option_bind]. rewrite Ht. cbn [negb]. rewrite Hn. cbn [mbind option_bind]. cbn in Hlen.
      rewrite (IH L) by (done || (intros; apply Hok; set_solver) || lia). f_equal. apply bool_decide_ext.
      rewrite Exists_cons, Hs. naive_solver.
    + destruct (control_other _ _ Hj Hs) as (c & w & -> & Hw & Ht). cbn [mbind option_bind]. rewrite Hw. cbn [mbind option_bind]. rewrite Ht.
      cbn [negb]. rewrite bool_decide_eq_true_2; [done|]. by left.
Qed.

(** [removevalues] turns the value tests of a list into plain tests. *)
Record stripped (L : list Z) (fs fs' : FuncState) : Prop := {
  stripped_shape : same_shape fs fs';
  stripped_words i w : code_at fs i = Some w ->
    code_at fs' i = Some (if is_op OP_TESTSET w && bool_decide (i + 1 ∈ L) then test_of w else w);
}.
Section Stripped.
Variables (L : list Z) (fs fs' : FuncState).
Hypothesis Hs : stripped L fs fs'.

Lemma stripped_jump i w : code_at fs i = Some w -> is_op OP_TESTSET w = false -> code_at fs' i = Some w.
Proof using Hs. intros Hw Ht. by rewrite (stripped_words _ _ _ Hs _ _ Hw), Ht. Qed.
Lemma stripped_pc : pc fs' = pc fs.
Proof using Hs. eapply same_shape_pc, Hs. Qed.
Lemma stripped_jump_ok j : jump_ok fs j -> jump_ok fs' j.
Proof using Hs.
  intros [(w & Hw & Hj) Hf]. split.
  - exists w. split; [|done]. apply stripped_jump; [done|]. by apply (is_op_other OP_JMP).
  - intros Hle. destruct (Hf Hle) as (c & t & Hc & Ht). eexists _, t. split; [by apply (stripped_words _ _ _ Hs)|].
    destruct (is_op OP_TESTSET c) eqn:E; [|done]. cbn [andb]. case_bool_decide; [|done]. rewrite (is_op_test _ _ E) in Ht. injection Ht as <-.
    by rewrite (is_op_test OP_TEST) by apply test_of_opcode.
Qed.
Lemma stripped_chain l js : (forall j, j ∈ js -> jump_ok fs j) -> chain fs l js -> chain fs' l js.
Proof using Hs.
  intros Hok. apply jchain_ext. intros j Hj. destruct (jump_word _ _ (Hok j Hj)) as (w & Hw & Hjmp). rewrite Hw. apply stripped_jump; [done|].
  by apply (is_op_other OP_JMP).
Qed.
Lemma stripped_setter j : setter fs' j = if bool_decide (j ∈ L) then None else setter fs j.
Proof using Hs.
  unfold setter. destruct (code_at fs (j - 1)) as [c|] eqn:Hc.
  - rewrite (stripped_words _ _ _ Hs _ _ Hc). replace (j - 1 + 1) with j by lia. cbn. destruct (is_op OP_TESTSET c) eqn:E; cbn [andb].
    + case_bool_decide; [|by rewrite E]. by rewrite (is_op_other OP_TEST OP_TESTSET _ (test_of_opcode c)).
    + rewrite E. by case_bool_decide.
  - destruct (code_at fs' (j - 1)) as [c|] eqn:Hc'; [|by case_bool_decide]. apply code_at_bounds in Hc'. rewrite stripped_pc in Hc'.
    apply code_at_some in Hc' as [? ?]. congruence.
Qed.
End Stripped.

Lemma removevalues_loop_spec fuel L l fs : chain fs l L -> NoDup L -> (forall i, i ∈ L -> jump_ok fs i) -> (length L <= fuel)%nat ->
  exists fs', removevalues_loop fuel l fs = Some fs' /\ stripped L fs fs'.
Proof.
  revert L l fs. induction fuel as [|fuel IH]; intros L l fs Hc Hnd Hok Hlen; (destruct L as [|j L]; cbn in Hc;
    [subst l; exists fs; (split; [done|]); (split; [apply same_shape_refl|]); intros i w Hw; by rewrite bool_decide_eq_false_2, andb_false_r by set_solver|]);
    cbn in Hlen; [lia|].
  destruct Hc as (-> & Hne & next & Hn & Hc). cbn [removevalues_loop]. assert ((j =? NO_JUMP) = false) as -> by lia.
  assert (jump_ok fs j) as Hj by (apply Hok; set_solver). apply NoDup_cons in Hnd as [Hnj Hnd].
  destruct (jump_word _ _ Hj) as (wj & Hwj & Hjmp).
  assert (exists v fs1, patchtestreg j NO_REG fs = Some (v, fs1) /\ stripped [j] fs fs1) as (v & fs1 & -> & H1).
  { rewrite (patchtestreg_spec _ _ _ Hj). destruct (setter fs j) as [c|] eqn:Hs; eexists _, _; (split; [done|]).
    - apply setter_some in Hs as [Hcc Ht]. split; [apply same_shape_set|]. intros i w Hw. rewrite code_at_set_code by (by eapply code_at_bounds).
      destruct (Z.eqb_spec i (j - 1)) as [->|Hij].
      + rewrite Hcc in Hw. injection Hw as <-. rewrite Ht, bool_decide_eq_true_2; [done|]. replace (j - 1 + 1) with j by lia. set_solver.
      + rewrite bool_decide_eq_false_2; [by rewrite andb_false_r|]. intros E%list_elem_of_singleton. lia.
    - split; [apply same_shape_refl|]. intros i w Hw. destruct (is_op OP_TESTSET w) eqn:Ht; [|done]. rewrite bool_decide_eq_false_2; [done|].
      intros E%list_elem_of_singleton. assert (setter fs j = Some w) as Es; [|by rewrite Hs in Es]. apply setter_some. by replace (j - 1) with i by lia. }
  cbn [mbind option_bind].
  rewrite (getjump_ext fs) by (rewrite Hwj; apply (stripped_jump _ _ _ H1); [done|]; by apply (is_op_other OP_JMP)). rewrite Hn. cbn [mbind option_bind].
  destruct (IH L next fs1) as (fs' & -> & H2).
  - apply (stripped_chain _ _ _ H1); [|done]. set_solver.
  - done.
  - intros i Hi. apply (stripped_jump_ok _ _ _ H1), Hok. set_solver.
  - lia.
  - exists fs'. split; [done|]. split; [eapply same_shape_trans; [apply H1|apply H2]|]. intros i w Hw.
    rewrite (stripped_words _ _ _ H2 _ _ (stripped_words _ _ _ H1 _ _ Hw)). f_equal. destruct (is_op OP_TESTSET w) eqn:Ht; cbn [andb]; [|by rewrite Ht].
    destruct (decide (i + 1 = j)) as [E|E].
    + rewrite (bool_decide_eq_true_2 (i + 1 ∈ [j])), (bool_decide_eq_true_2 (i + 1 ∈ j :: L)) by set_solver.
      by rewrite (is_op_other OP_TEST OP_TESTSET _ (test_of_opcode w)).
    + rewrite (bool_decide_eq_false_2 (i + 1 ∈ [j])) by set_solver. rewrite Ht. cbn [andb].
      by rewrite (bool_decide_ext (i + 1 ∈ L) (i + 1 ∈ j :: L)) by set_solver.
Qed.
Lemma removevalues_spec L l fs : chain fs l L -> NoDup L -> (forall i, i ∈ L -> jump_ok fs i) ->
  exists fs', removevalues l fs = Some fs' /\ stripped L fs fs'.
Proof.
  intros Hc Hnd Hok. apply removevalues_loop_spec; [done..|]. unfold turns.
  assert (length L <= length (code fs))%nat; [|lia]. apply chain_turns; [done|]. intros i Hi. by apply jump_ok_bounds, Hok.
Qed.
