(* ===== verification/LCodePool.v ===== *)
(** * The constants of a function

    What the code generator puts into the array of constants: nil, booleans, numbers,
    and the strings it is given. *)
From stdpp Require Import base list option.
From Stdlib Require Import ZArith Lia.
From S2P Require Import Prelude LObject LNum LOpcodes LProto LCode.
#[local] Open Scope Z_scope.

(** [wsafe m P]: if [m] returns a value, the value has [P]. *)
Definition wsafe {A} (m : LuaM A) (P : A -> Prop) : Prop := match m with Some (Return a) => P a | _ => True end.
Lemma wsafe_bind {A B} (P : A -> Prop) (Q : B -> Prop) (m : LuaM A) (f : A -> LuaM B) :
  wsafe m P -> (forall a, P a -> wsafe (f a) Q) -> wsafe (lbind m f) Q.
Proof. destruct m as [[a|msg]|]; simpl; auto. Qed.
Lemma wsafe_lift {A} (P : A -> Prop) (o : option A) : (forall a, o = Some a -> P a) -> wsafe (llift o) P.
Proof. destruct o; simpl; auto. Qed.

Section Pool.
(** The strings that are known. *)
Variable known_string : Z -> Prop.
Definition constant_ok (v : tvalue) : Prop :=
  match v with TNil | TBoolean _ | TNumber _ => True | TGC GString a => known_string a | _ => False end.
Definition pooled (fs : FuncState) : Prop := Forall constant_ok (k fs).
Definition pools {A} (m : LuaM (A * FuncState)) : Prop := wsafe m (fun r => pooled r.2).
Definition pools_ (m : LuaM FuncState) : Prop := wsafe m pooled.

Lemma pools_bind {A B} (m : LuaM (A * FuncState)) (f : A * FuncState -> LuaM (B * FuncState)) :
  pools m -> (forall a fs, pooled fs -> pools (f (a, fs))) -> pools (lbind m f).
Proof. intros Hm Hf. eapply wsafe_bind; [exact Hm|]. intros [a fs]. apply Hf. Qed.
Lemma pools_bind_ {B} (m : LuaM FuncState) (f : FuncState -> LuaM (B * FuncState)) :
  pools_ m -> (forall fs, pooled fs -> pools (f fs)) -> pools (lbind m f).
Proof. intros Hm Hf. eapply wsafe_bind; [exact Hm|]. exact Hf. Qed.
Lemma pools_then {A} (m : LuaM (A * FuncState)) (f : A * FuncState -> LuaM FuncState) :
  pools m -> (forall a fs, pooled fs -> pools_ (f (a, fs))) -> pools_ (lbind m f).
Proof. intros Hm Hf. eapply wsafe_bind; [exact Hm|]. intros [a fs]. apply Hf. Qed.
Lemma pools_then_ (m : LuaM FuncState) (f : FuncState -> LuaM FuncState) :
  pools_ m -> (forall fs, pooled fs -> pools_ (f fs)) -> pools_ (lbind m f).
Proof. intros Hm Hf. eapply wsafe_bind; [exact Hm|]. exact Hf. Qed.
(** A value that is only looked up. *)
Lemma pools_read {A B} (o : option A) (f : A -> LuaM (B * FuncState)) : (forall a, pools (f a)) -> pools (lbind (llift o) f).
Proof. intros Hf. destruct o; [apply Hf|done]. Qed.
Lemma pools_read_ {A} (o : option A) (f : A -> LuaM FuncState) : (forall a, pools_ (f a)) -> pools_ (lbind (llift o) f).
Proof. intros Hf. destruct o; [apply Hf|done]. Qed.
Lemma pools_ret {A} (a : A) fs : pooled fs -> pools (lret (a, fs)).
Proof. done. Qed.
Lemma pools_ret_ fs : pooled fs -> pools_ (lret fs).
Proof. done. Qed.
End Pool.

(** ** Options that change the code only *)
Definition same_k (fs : FuncState) (o : option FuncState) : Prop := forall fs', o = Some fs' -> k fs' = k fs.
Lemma same_k_lift Q fs o : same_k fs o -> pooled Q fs -> pools_ Q (llift o).
Proof. intros Hs Hp. apply wsafe_lift. intros fs' E. unfold pooled. by rewrite (Hs _ E). Qed.
Lemma set_arg_k f u e fs : same_k fs (set_arg f u e fs).
Proof. unfold set_arg. intros fs'. destruct (getcode fs e); cbn; [|done]. by intros [= <-]. Qed.
Lemma invertjump_k e fs : same_k fs (invertjump e fs).
Proof. unfold invertjump. intros fs'. destruct (getjumpcontrol fs (info e)) as [c|]; cbn; [|done]. destruct (code_at fs c); cbn; [|done]. by intros [= <-]. Qed.
Lemma patchtestreg_k node reg fs b fs' : patchtestreg node reg fs = Some (b, fs') -> k fs' = k fs.
Proof.
  unfold patchtestreg. destruct (getjumpcontrol fs node) as [c|]; cbn; [|done]. destruct (code_at fs c); cbn; [|done].
  repeat case_match; by intros [= <- <-].
Qed.
Lemma removevalues_k list fs : same_k fs (removevalues list fs).
Proof.
  unfold removevalues. generalize (turns fs). intros n. revert list fs. induction n as [|n IH]; intros list fs fs'; cbn [removevalues_loop]; destruct (list =? NO_JUMP); try done; try by intros [= <-].
  destruct (patchtestreg list NO_REG fs) as [[b fs1]|] eqn:E; cbn; [|done]. destruct (getjump fs1 list); cbn; [|done].
  intros E2%IH. by rewrite E2, (patchtestreg_k _ _ _ _ _ E).
Qed.

(** ** The code generator *)
Section Ops.
Variable Q : Z -> Prop.
#[local] Notation pooled := (pooled Q).
#[local] Notation pools := (pools Q).
#[local] Notation pools_ := (pools_ Q).

Lemma pool_fixjump p dest fs : pooled fs -> pools_ (fixjump p dest fs).
Proof. intros Hp. unfold fixjump. apply pools_read_. intros i. by destruct (MAXARG_sBx <? _). Qed.
Lemma pool_patchlist_loop n list v r d fs : pooled fs -> pools_ (patchlist_loop n list v r d fs).
Proof.
  revert list fs. induction n as [|n IH]; intros list fs Hp; cbn [patchlist_loop]; (destruct (list =? NO_JUMP); [done|]); [done|].
  apply pools_read_. intros next. destruct (patchtestreg list r fs) as [[b fs1]|] eqn:E; [|done]. cbn [llift fmap option_fmap option_map lbind].
  assert (pooled fs1) as Hp1 by (unfold LCodePool.pooled; by rewrite (patchtestreg_k _ _ _ _ _ E)).
  eapply pools_then_; [by apply pool_fixjump|]. intros fs2. apply IH.
Qed.
Lemma pool_dischargejpc fs : pooled fs -> pools_ (dischargejpc fs).
Proof. intros Hp. unfold dischargejpc. eapply pools_then_; [by apply pool_patchlist_loop|]. intros fs1 H1. exact H1. Qed.
Lemma pool_concat l1 l2 fs : pooled fs -> pools (luaK_concat l1 l2 fs).
Proof.
  intros Hp. unfold luaK_concat. destruct (l2 =? NO_JUMP); [done|]. destruct (l1 =? NO_JUMP); [done|].
  apply pools_read. intros last. eapply pools_bind_; [by apply pool_fixjump|]. intros fs1 H1. exact H1.
Qed.
Lemma pool_patchtohere l fs : pooled fs -> pools_ (luaK_patchtohere l fs).
Proof. intros Hp. unfold luaK_patchtohere. cbn [luaK_getlabel]. eapply pools_then; [by apply pool_concat|]. intros j fs1 H1. exact H1. Qed.
Lemma pool_patchlist l target fs : pooled fs -> pools_ (luaK_patchlist l target fs).
Proof. intros Hp. unfold luaK_patchlist. destruct (target =? pc fs); [by apply pool_patchtohere|by apply pool_patchlist_loop]. Qed.
Lemma pool_code i line fs : pooled fs -> pools (luaK_code i line fs).
Proof. intros Hp. unfold luaK_code. eapply pools_bind_; [by apply pool_dischargejpc|]. intros fs1 H1. by destruct (MAX_INT <=? pc fs1). Qed.
Lemma pool_codeABC o a b c fs : pooled fs -> pools (luaK_codeABC o a b c fs).
Proof. apply pool_code. Qed.
Lemma pool_codeABx o a b fs : pooled fs -> pools (luaK_codeABx o a b fs).
Proof. apply pool_code. Qed.
Lemma pool_codeAsBx o a b fs : pooled fs -> pools (luaK_codeAsBx o a b fs).
Proof. apply pool_code. Qed.
Lemma pool_if (b : bool) fs fs' : pooled fs -> pooled fs' -> pooled (if b then fs else fs').
Proof. by destruct b. Qed.
Lemma pool_freereg r fs : pooled fs -> pooled (free_reg r fs).
Proof. intros Hp. unfold free_reg. by destruct (_ && _). Qed.
Lemma pool_freeexp e fs : pooled fs -> pooled (freeexp e fs).
Proof. intros Hp. unfold freeexp. destruct (bool_decide _); [by apply pool_freereg|done]. Qed.
Lemma pool_checkstack n fs : pooled fs -> pools_ (luaK_checkstack n fs).
Proof. intros Hp. unfold luaK_checkstack. destruct (_ <? _); [by destruct (_ <=? _)|done]. Qed.
Lemma pool_reserveregs n fs : pooled fs -> pools_ (luaK_reserveregs n fs).
Proof. intros Hp. unfold luaK_reserveregs. eapply pools_then_; [by apply pool_checkstack|]. intros fs1 H1. exact H1. Qed.
Lemma pool_addk key v fs : constant_ok Q v -> pooled fs -> pools (addk key v fs).
Proof.
  intros Hv Hp. unfold addk. destruct (h_error key); [done|]. assert (pools (if MAXARG_Bx <=? nk fs then lerror "constant table overflow"
    else lret (nk fs, with_k (k fs ++ [v]) (h_store key (TNumber (cast_num (nk fs))) (h fs)) fs))) as H; [|by destruct (h_slot key (h fs))].
  destruct (_ <=? _); [done|]. apply Forall_app. by rewrite Forall_singleton.
Qed.
Lemma pool_stringK s fs : Q s -> pooled fs -> pools (luaK_stringK s fs).
Proof. intros Hs. by apply pool_addk. Qed.
Lemma pool_jump fs : pooled fs -> pools (luaK_jump fs).
Proof. intros Hp. unfold luaK_jump. eapply pools_bind; [by apply pool_codeAsBx|]. intros j fs1. apply pool_concat. Qed.
Lemma pool_nil from n fs : pooled fs -> pools_ (luaK_nil from n fs).
Proof.
  intros Hp. unfold luaK_nil. destruct (loadnil_joined from n fs) as [[fs1|]|] eqn:E; cbn [llift fmap option_fmap option_map lbind]; [|by eapply pools_then; [by apply pool_codeABC|]|done].
  apply pools_ret_. unfold loadnil_joined in E. destruct (_ <? _); [|done]. destruct (_ =? _); [by destruct (_ <=? _); simplify_eq|].
  destruct (code_at fs _); cbn in E; [|done]. destruct (is_op _ _); [|done]. destruct (_ && _); [|done]. destruct (_ <? _); by simplify_eq.
Qed.
End Ops.
#[export] Hint Resolve pool_if pool_fixjump pool_concat pool_patchtohere pool_patchlist pool_patchlist_loop pool_code pool_codeABC pool_codeABx pool_codeAsBx pool_freereg pool_freeexp
  pool_checkstack pool_reserveregs pool_addk pool_stringK pool_jump pool_nil : pool.

#[export] Hint Resolve set_arg_k invertjump_k removevalues_k : pool.
(** One step along a routine of the generator. *)
Ltac pool_step :=
  match goal with
  | |- pools _ (lret _) => apply pools_ret
  | |- pools_ _ (lret _) => apply pools_ret_
  | |- pools _ (lerror _) => exact I
  | |- pools_ _ (lerror _) => exact I
  | |- pools_ _ (llift _) => eapply same_k_lift; [solve [eauto with pool]|solve [eauto with pool]]
  | |- pools _ (lbind (@llift FuncState _) _) => eapply pools_bind_; [pool_step|intros]
  | |- pools_ _ (lbind (@llift FuncState _) _) => eapply pools_then_; [pool_step|intros]
  | |- pools _ (lbind (@llift _ _) _) => apply pools_read; intros
  | |- pools_ _ (lbind (@llift _ _) _) => apply pools_read_; intros
  | |- pools _ (@lbind (_ * FuncState) _ _ _) => eapply pools_bind; [|intros]
  | |- pools_ _ (@lbind (_ * FuncState) _ _ _) => eapply pools_then; [|intros]
  | |- pools _ (@lbind FuncState _ _ _) => eapply pools_bind_; [|intros]
  | |- pools_ _ (@lbind FuncState _ _ _) => eapply pools_then_; [|intros]
  | |- pools _ (if ?b then _ else _) => destruct b
  | |- pools_ _ (if ?b then _ else _) => destruct b
  | |- pools _ (match ?x with _ => _ end) => destruct x
  | |- pools_ _ (match ?x with _ => _ end) => destruct x
  | |- pools _ (let _ := _ in _) => cbv zeta
  end.
Ltac pool := repeat (first [solve [eauto 6 with pool] | assumption | pool_step]).

Section Rest.
Variable Q : Z -> Prop.
#[local] Notation pooled := (pooled Q).
#[local] Notation pools := (pools Q).
#[local] Notation pools_ := (pools_ Q).

Lemma pool_numberK r fs : pooled fs -> pools (luaK_numberK r fs).
Proof. intros Hp. by apply pool_addk. Qed.
Lemma pool_boolK b fs : pooled fs -> pools (boolK b fs).
Proof. intros Hp. by apply pool_addk. Qed.
Lemma pool_nilK fs : pooled fs -> pools (nilK fs).
Proof. intros Hp. by apply pool_addk. Qed.
#[local] Hint Resolve pool_numberK pool_boolK pool_nilK : pool.

Lemma pool_ret first nret fs : pooled fs -> pools_ (luaK_ret first nret fs).
Proof. intros Hp. unfold luaK_ret. pool. Qed.
Lemma pool_condjump op a b c fs : pooled fs -> pools (condjump op a b c fs).
Proof. intros Hp. unfold condjump. pool. Qed.
Lemma pool_setlist base n s fs : pooled fs -> pools_ (luaK_setlist base n s fs).
Proof. intros Hp. unfold luaK_setlist. cbv zeta. pool. Qed.
Lemma pool_setreturns e n fs : pooled fs -> pools_ (luaK_setreturns e n fs).
Proof. intros Hp. unfold luaK_setreturns. pool. Qed.
Lemma pool_setoneret e fs : pooled fs -> pools (llift (luaK_setoneret e fs)).
Proof.
  intros Hp. unfold luaK_setoneret. destruct (e_k e); try done.
  - destruct (getcode fs e); done.
  - destruct (set_arg SETARG_B 2 e fs) as [fs1|] eqn:E; [|done]. cbn. unfold LCodePool.pooled. by rewrite (set_arg_k _ _ _ _ _ E).
Qed.
#[local] Hint Resolve pool_ret pool_condjump pool_setreturns pool_setoneret : pool.
Lemma pool_dischargevars e fs : pooled fs -> pools (luaK_dischargevars e fs).
Proof. intros Hp. unfold luaK_dischargevars. pool. Qed.
Lemma pool_code_label a b j fs : pooled fs -> pools (code_label a b j fs).
Proof. intros Hp. unfold code_label. cbn [luaK_getlabel]. by apply pool_codeABC. Qed.
#[local] Hint Resolve pool_dischargevars pool_code_label : pool.
Lemma pool_discharge2reg e r fs : pooled fs -> pools (discharge2reg e r fs).
Proof. intros Hp. unfold discharge2reg. pool. Qed.
#[local] Hint Resolve pool_discharge2reg : pool.
Lemma pool_discharge2anyreg e fs : pooled fs -> pools (discharge2anyreg e fs).
Proof. intros Hp. unfold discharge2anyreg. pool. Qed.
#[local] Hint Resolve pool_discharge2anyreg : pool.
Lemma pool_jumps2reg e r fs : pooled fs -> pools_ (jumps2reg e r fs).
Proof.
  intros Hp. unfold jumps2reg. apply pools_read_. intros nt. apply pools_read_. intros nf.
  eapply (pools_then _ (A := Z * Z)); [pool|]. intros [pf pt] fs1 Hp1. cbn [luaK_getlabel]. unfold patchlistaux. pool.
Qed.
#[local] Hint Resolve pool_jumps2reg : pool.
Lemma pool_exp2reg e r fs : pooled fs -> pools (exp2reg e r fs).
Proof. intros Hp. unfold exp2reg. pool. Qed.
#[local] Hint Resolve pool_exp2reg : pool.
Lemma pool_exp2nextreg e fs : pooled fs -> pools (luaK_exp2nextreg e fs).
Proof. intros Hp. unfold luaK_exp2nextreg. pool. Qed.
#[local] Hint Resolve pool_exp2nextreg : pool.
Lemma pool_exp2anyreg e fs : pooled fs -> pools (luaK_exp2anyreg e fs).
Proof. intros Hp. unfold luaK_exp2anyreg. pool. Qed.
#[local] Hint Resolve pool_exp2anyreg : pool.
Lemma pool_exp2val e fs : pooled fs -> pools (luaK_exp2val e fs).
Proof. intros Hp. unfold luaK_exp2val. pool. Qed.
#[local] Hint Resolve pool_exp2val : pool.
Lemma pool_exp2RK e fs : pooled fs -> pools (luaK_exp2RK e fs).
Proof. intros Hp. unfold luaK_exp2RK. pool. Qed.
#[local] Hint Resolve pool_exp2RK : pool.
Lemma pool_storevar v e fs : pooled fs -> pools (luaK_storevar v e fs).
Proof. intros Hp. unfold luaK_storevar. pool. Qed.
Lemma pool_self e key fs : pooled fs -> pools (luaK_self e key fs).
Proof. intros Hp. unfold luaK_self. pool. Qed.
Lemma pool_jumponcond e c fs : pooled fs -> pools (jumponcond e c fs).
Proof. intros Hp. unfold jumponcond. pool. Qed.
#[local] Hint Resolve pool_jumponcond : pool.
Lemma pool_goiftrue e fs : pooled fs -> pools (luaK_goiftrue e fs).
Proof. intros Hp. unfold luaK_goiftrue. pool. Qed.
Lemma pool_goiffalse e fs : pooled fs -> pools (luaK_goiffalse e fs).
Proof. intros Hp. unfold luaK_goiffalse. pool. Qed.
Lemma pool_codenot e fs : pooled fs -> pools (codenot e fs).
Proof. intros Hp. unfold codenot. pool. Qed.
Lemma pool_indexed t key fs : pooled fs -> pools (luaK_indexed t key fs).
Proof. intros Hp. unfold luaK_indexed. pool. Qed.
#[local] Hint Resolve pool_goiftrue pool_goiffalse pool_codenot : pool.

Variable pow : Z -> Z -> Z.
Lemma pool_codearith op e1 e2 fs : pooled fs -> pools (codearith pow op e1 e2 fs).
Proof. intros Hp. unfold codearith. pool. apply pool_codeABC, pool_if; eauto with pool. Qed.
Lemma pool_codecomp op c e1 e2 fs : pooled fs -> pools (codecomp op c e1 e2 fs).
Proof. intros Hp. unfold codecomp. pool. Qed.
#[local] Hint Resolve pool_codearith pool_codecomp : pool.
Lemma pool_prefix op e fs : pooled fs -> pools (luaK_prefix pow op e fs).
Proof. intros Hp. unfold luaK_prefix. pool. Qed.
Lemma pool_infix op e fs : pooled fs -> pools (luaK_infix op e fs).
Proof. intros Hp. unfold luaK_infix. pool. Qed.
Lemma pool_posfix op e1 e2 fs : pooled fs -> pools (luaK_posfix pow op e1 e2 fs).
Proof. intros Hp. unfold luaK_posfix. pool. Qed.
End Rest.
#[export] Hint Resolve pool_numberK pool_boolK pool_nilK pool_ret pool_condjump pool_setlist pool_setreturns pool_setoneret pool_dischargevars pool_exp2reg pool_exp2nextreg pool_exp2anyreg
  pool_exp2val pool_exp2RK pool_storevar pool_self pool_goiftrue pool_goiffalse pool_indexed pool_prefix pool_infix pool_posfix : pool.
