(* ===== verification/LParser.v ===== *)
(** * The parser's state (src/lua/lparser.c, src/lua/lparser.h)

    The parser is a state monad over [Parser]: the lexical state, the function that is
    compiled with its enclosing ones (the list [prev] for the chain of pointers), and
    the depth of nested calls. [Func] has the fields of [FuncState] and of its [Proto]
    that the code generator does not use; those it uses are in [gen]. A string has the
    number that encodes its bytes in place of its address, as lstring.c has one address
    for equal strings; that the lexer keeps its strings alive in the constant table
    (entries the generator does not take for constants) is left out. *)
From stdpp Require Import base list option strings pretty countable.
From Stdlib Require Import ZArith Lia.
From S2P Require Import Prelude LObject LNum LOpcodes LProto LZio LLex LCode.
#[local] Open Scope Z_scope.

Record BlockCnt := Bl {
  breaklist : Z;        (* list of jumps out of this loop *)
  bl_nactvar : Z;       (* active locals outside the breakable structure *)
  bl_upval : bool;         (* some variable in the block is an upvalue *)
  isbreakable : bool;   (* the block is a loop *)
}.
Record upvaldesc := Up { up_k : expkind; up_info : Z }.

(** [f_x] is [f->x]; the lists are the used parts of the arrays, [actvar] is the whole array. *)
Record Func := MkFunc {
  gen : FuncState;
  bl : list BlockCnt;
  actvar : list Z;
  upvaldescs : list upvaldesc;
  f_p : list Proto;
  f_locvars : list LocVar;
  f_upvalues : list (option bytes);
  f_linedefined : Z;
  f_lastlinedefined : Z;
  f_numparams : Z;
  f_is_vararg : Z;
}.
Record Parser := MkParser { ls : LexState; fs : Func; prev : list Func; nCcalls : Z }.

Definition set_gen (g : FuncState) (f : Func) : Func :=
  MkFunc g (bl f) (actvar f) (upvaldescs f) (f_p f) (f_locvars f) (f_upvalues f) (f_linedefined f) (f_lastlinedefined f) (f_numparams f) (f_is_vararg f).
Definition set_bl (b : list BlockCnt) (f : Func) : Func :=
  MkFunc (gen f) b (actvar f) (upvaldescs f) (f_p f) (f_locvars f) (f_upvalues f) (f_linedefined f) (f_lastlinedefined f) (f_numparams f) (f_is_vararg f).
Definition set_vars (a : list Z) (l : list LocVar) (f : Func) : Func :=
  MkFunc (gen f) (bl f) a (upvaldescs f) (f_p f) l (f_upvalues f) (f_linedefined f) (f_lastlinedefined f) (f_numparams f) (f_is_vararg f).
Definition set_upvalues (u : list upvaldesc) (names : list (option bytes)) (f : Func) : Func :=
  MkFunc (gen f) (bl f) (actvar f) u (f_p f) (f_locvars f) names (f_linedefined f) (f_lastlinedefined f) (f_numparams f) (f_is_vararg f).
Definition set_p (ps : list Proto) (f : Func) : Func :=
  MkFunc (gen f) (bl f) (actvar f) (upvaldescs f) ps (f_locvars f) (f_upvalues f) (f_linedefined f) (f_lastlinedefined f) (f_numparams f) (f_is_vararg f).
Definition set_lines (first last : Z) (f : Func) : Func :=
  MkFunc (gen f) (bl f) (actvar f) (upvaldescs f) (f_p f) (f_locvars f) (f_upvalues f) first last (f_numparams f) (f_is_vararg f).
Definition set_params (n vararg : Z) (f : Func) : Func :=
  MkFunc (gen f) (bl f) (actvar f) (upvaldescs f) (f_p f) (f_locvars f) (f_upvalues f) (f_linedefined f) (f_lastlinedefined f) n vararg.

Definition with_lastline (line : Z) (g : FuncState) : FuncState :=
  {| code := code g; lineinfo := lineinfo g; k := k g; h := h g; h_addr := h_addr g; lasttarget := lasttarget g; jpc := jpc g;
     freereg := freereg g; nactvar := nactvar g; maxstacksize := maxstacksize g; lastline := line |}.
Definition with_nactvar (n : Z) (g : FuncState) : FuncState :=
  {| code := code g; lineinfo := lineinfo g; k := k g; h := h g; h_addr := h_addr g; lasttarget := lasttarget g; jpc := jpc g;
     freereg := freereg g; nactvar := n; maxstacksize := maxstacksize g; lastline := lastline g |}.

Definition LUAI_MAXVARS : Z := 200.
Definition LUAI_MAXUPVALUES : Z := 60.
Definition SHRT_MAX : Z := 32767.

(** ** Strings *)
Definition str_addr (s : bytes) : Z := Z.pos (encode s).
Definition str_of (a : Z) : option bytes :=
  match a with Z.pos p => s ← decode p; if str_addr s =? a then Some s else None | _ => None end.

Definition kvalue_of (v : tvalue) : option kvalue :=
  match v with
  | TNil => Some KNil
  | TBoolean b => Some (KBoolean b)
  | TNumber n => Some (KNumber n)
  | TGC GString a => s ← str_of a; Some (KString (Some s))
  | _ => None
  end.

(** ** The monad *)
Definition P (A : Type) : Type := Parser -> LuaM (A * Parser).
Definition pret {A} (a : A) : P A := fun st => lret (a, st).
Definition pbind {A B} (m : P A) (f : A -> P B) : P B := fun st => let* (a, st) := m st in f a st.
Definition plift {A} (m : LuaM A) : P A := fun st => let* a := m in lret (a, st).
(** A part of the state; a change of the state or of the function. *)
Definition the {A} (f : Parser -> A) : P A := fun st => lret (f st, st).
Definition upd (f : Parser -> Parser) : P unit := fun st => lret (tt, f st).
Definition set_fs (f : Func) (st : Parser) : Parser := MkParser (ls st) f (prev st) (nCcalls st).
Definition set_ls (l : LexState) (st : Parser) : Parser := MkParser l (fs st) (prev st) (nCcalls st).
Definition upd_fs (u : Func -> Func) : P unit := upd (fun st => set_fs (u (fs st)) st).
Definition with_fs {A} (u : Func -> LuaM (A * Func)) : P A := fun st => let* (a, f) := u (fs st) in lret (a, set_fs f st).

(** A call of the code generator, which reads the line of the last token. *)
Definition K {A} (f : FuncState -> LuaM (A * FuncState)) : P A := fun st =>
  let* (a, g) := f (with_lastline (LLex.lastline (ls st)) (gen (fs st))) in lret (a, set_fs (set_gen g (fs st)) st).
Definition K_ (f : FuncState -> LuaM FuncState) : P unit := K (fun g => let* g := f g in lret (tt, g)).
Definition upd_gen (u : FuncState -> FuncState) : P unit := K_ (fun g => lret (u g)).

Notation "'let!' p ':=' m 'in' k" := (pbind m (fun p => k))
  (at level 200, p pattern, m at level 100, k at level 200) : craftos_scope.
Notation "'do!' m 'in' k" := (pbind m (fun _ => k)) (at level 200, m at level 100, k at level 200) : craftos_scope.

(** What is the C library's: the parameters of [LLex] and [LCode]. *)
Class CLibrary := {
  strtod : bytes -> Z * nat;
  strtoul16 : bytes -> Z * nat;
  decimal_point : Z;
  numpow : Z -> Z -> Z;
}.

Section Parser.
Context `{CLibrary}.

(** ** Tokens *)
Definition tok : P Z := the (fun st => token (t (ls st))).
Definition linenum : P Z := the (fun st => linenumber (ls st)).
Definition next : P unit := fun st => let* l := luaX_next strtod strtoul16 decimal_point (ls st) in lret (tt, set_ls l st).
Definition look : P Z := fun st =>
  let* l := luaX_lookahead strtod strtoul16 decimal_point (ls st) in lret (token (lookahead l), set_ls l st).
Definition lexerror {A} (msg : string) (tk : Z) : P A := fun st => luaX_lexerror (ls st) msg tk.
Definition syntaxerror {A} (msg : string) : P A := fun st => luaX_syntaxerror (ls st) msg.
Definition token2str (tk : Z) : P string := let! s := plift (llift (luaX_token2str tk)) in pret (string_of_bytes (cstr s)).

Definition error_expected {A} (tk : Z) : P A := let! s := token2str tk in syntaxerror ("'" +:+ s +:+ "' expected")%string.

Definition limit_message (f : Func) (limit : Z) (what : string) : string :=
  (if (f_linedefined f =? 0)%Z then "main function has more than " +:+ pretty limit +:+ " " +:+ what
   else "function at line " +:+ pretty (f_linedefined f) +:+ " has more than " +:+ pretty limit +:+ " " +:+ what)%string.
Definition errorlimit {A} (l : LexState) (f : Func) (limit : Z) (what : string) : LuaM A :=
  luaX_lexerror l (limit_message f limit what) 0.
Definition checklimit (v limit : Z) (what : string) : P unit := fun st =>
  if limit <? v then errorlimit (ls st) (fs st) limit what else lret (tt, st).

Definition testnext (c : Z) : P bool := let! tk := tok in if tk =? c then do! next in pret true else pret false.
Definition check (c : Z) : P unit := let! tk := tok in if tk =? c then pret tt else error_expected c.
Definition checknext (c : Z) : P unit := do! check c in next.
Definition check_condition (c : bool) (msg : string) : P unit := if c then pret tt else syntaxerror msg.

Definition check_match (what who whr : Z) : P unit :=
  let! found := testnext what in
  if (found : bool) then pret tt
  else
    let! line := linenum in
    if whr =? line then error_expected what
    else
      let! a := token2str what in
      let! b := token2str who in
      syntaxerror ("'" +:+ a +:+ "' expected (to close '" +:+ b +:+ "' at line " +:+ pretty whr +:+ ")")%string.

(** [ls->t.seminfo.ts] *)
Definition token_ts : P bytes := let! s := the (fun st => seminfo (t (ls st))) in match s with Sts ts => pret ts | _ => plift None end.
Definition token_r : P Z := let! s := the (fun st => seminfo (t (ls st))) in match s with Sr r => pret r | _ => plift None end.

Definition str_checkname : P bytes :=
  do! check TK_NAME in
  let! ts := token_ts in
  do! next in
  pret ts.

Definition init_exp (kd : expkind) (i : Z) : expdesc := {| e_k := kd; info := i; aux := 0; nval := 0; e_t := NO_JUMP; e_f := NO_JUMP |}.

Definition codestring (s : bytes) : P expdesc := let! i := K (luaK_stringK (str_addr s)) in pret (init_exp VK i).
Definition checkname : P expdesc := let! s := str_checkname in codestring s.

(** ** Variables *)
Definition registerlocalvar (name : bytes) : P Z := with_fs (fun f =>
  let n := Z.of_nat (length (f_locvars f)) in
  if SHRT_MAX <=? n then lerror "too many local variables"
  else lret (n, set_vars (actvar f) (f_locvars f ++ [{| varname := Some name; startpc := 0; endpc := 0 |}]) f)).

Definition new_localvar (name : bytes) (n : Z) : P unit :=
  let! na := the (fun st => nactvar (gen (fs st))) in
  do! checklimit (na + n + 1) LUAI_MAXVARS "local variables" in
  let! i := registerlocalvar name in
  upd_fs (fun f => set_vars (<[Z.to_nat (na + n) := u16 i]> (actvar f)) (f_locvars f) f).
Definition new_localvarliteral (v : string) (n : Z) : P unit := new_localvar (bytes_of_string v) n.

(** The place of the [i]-th active variable in [f->locvars]. *)
Definition locvar_index (f : Func) (i : Z) : option nat := if i <? 0 then None else Z.to_nat <$> actvar f !! Z.to_nat i.
Definition getlocvar (f : Func) (i : Z) : option LocVar := j ← locvar_index f i; f_locvars f !! j.
Definition set_startpc (i : Z) (f : Func) : option Func :=
  j ← locvar_index f i; v ← f_locvars f !! j;
  Some (set_vars (actvar f) (<[j := {| varname := varname v; startpc := pc (gen f); endpc := endpc v |}]> (f_locvars f)) f).
Definition set_endpc (i : Z) (f : Func) : option Func :=
  j ← locvar_index f i; v ← f_locvars f !! j;
  Some (set_vars (actvar f) (<[j := {| varname := varname v; startpc := startpc v; endpc := pc (gen f) |}]> (f_locvars f)) f).

Fixpoint set_startpcs (nvars : nat) (f : Func) : option Func :=
  match nvars with
  | O => Some f
  | S n => f ← set_startpc (nactvar (gen f) - Z.of_nat nvars) f; set_startpcs n f
  end.
Definition adjustlocalvars (nvars : Z) : P unit := with_fs (fun f =>
  let f := set_gen (with_nactvar (u8 (nactvar (gen f) + nvars)) (gen f)) f in
  let* f := llift (set_startpcs (Z.to_nat nvars) f) in lret (tt, f)).

(** [n] is [nactvar - tolevel]. *)
Fixpoint removevars_loop (n : nat) (f : Func) : option Func :=
  match n with
  | O => Some f
  | S n => let f := set_gen (with_nactvar (nactvar (gen f) - 1) (gen f)) f in f ← set_endpc (nactvar (gen f)) f; removevars_loop n f
  end.
Definition removevars (tolevel : Z) : P unit := with_fs (fun f =>
  let* f := llift (removevars_loop (Z.to_nat (nactvar (gen f) - tolevel)) f) in lret (tt, f)).

Fixpoint find_upvalue (kd : expkind) (i : Z) (n : Z) (us : list upvaldesc) : option Z :=
  match us with
  | [] => None
  | u :: us => if bool_decide (up_k u = kd) && (up_info u =? i) then Some n else find_upvalue kd i (n + 1) us
  end.
Definition indexupvalue (l : LexState) (f : Func) (name : bytes) (v : expdesc) : LuaM (Z * Func) :=
  let nups := Z.of_nat (length (upvaldescs f)) in
  match find_upvalue (e_k v) (info v) 0 (upvaldescs f) with
  | Some i => lret (i, f)
  | None =>
      if LUAI_MAXUPVALUES <? nups + 1 then errorlimit l f LUAI_MAXUPVALUES "upvalues"
      else lret (nups, set_upvalues (upvaldescs f ++ [Up (e_k v) (u8 (info v))]) (f_upvalues f ++ [Some name]) f)
  end.

(** The search from the variable [n - 1] down. *)
Fixpoint searchvar_loop (n : nat) (name : bytes) (f : Func) : option Z :=
  match n with
  | O => Some (-1)
  | S n =>
      v ← getlocvar f (Z.of_nat n);
      if bool_decide (varname v = Some name) then Some (Z.of_nat n) else searchvar_loop n name f
  end.
Definition searchvar (f : Func) (name : bytes) : option Z := searchvar_loop (Z.to_nat (nactvar (gen f))) name f.

Fixpoint markupval_in (level : Z) (bs : list BlockCnt) : list BlockCnt :=
  match bs with
  | [] => []
  | b :: bs => if level <? bl_nactvar b then b :: markupval_in level bs else Bl (breaklist b) (bl_nactvar b) true (isbreakable b) :: bs
  end.
Definition markupval (level : Z) (f : Func) : Func := set_bl (markupval_in level (bl f)) f.

(** Along the chain of functions, from the innermost one. *)
Fixpoint singlevaraux (l : LexState) (chain : list Func) (n : bytes) (base : bool) : LuaM (expdesc * list Func) :=
  match chain with
  | [] => lret (init_exp VGLOBAL NO_REG, [])
  | f :: chain =>
      let* v := llift (searchvar f n) in
      if 0 <=? v then lret (init_exp VLOCAL v, (if base then f else markupval v f) :: chain)
      else
        let* (var, chain) := singlevaraux l chain n false in
        if bool_decide (e_k var = VGLOBAL) then lret (var, f :: chain)
        else let* (i, f) := indexupvalue l f n var in lret (exp_is VUPVAL i var, f :: chain)
  end.

Definition resolve_name (name : bytes) : P expdesc := fun st =>
  let* (var, chain) := singlevaraux (ls st) (fs st :: prev st) name true in
  match chain with
  | [] => None
  | f :: chain => lret (var, MkParser (ls st) f chain (nCcalls st))
  end.
Definition singlevar : P expdesc :=
  let! name := str_checkname in
  let! var := resolve_name name in
  if bool_decide (e_k var = VGLOBAL) then let! i := K (luaK_stringK (str_addr name)) in pret (exp_is VGLOBAL i var)
  else pret var.

Definition hasmultret (kd : expkind) : bool := bool_decide (kd = VCALL) || bool_decide (kd = VVARARG).

Definition adjust_assign (nvars nexps : Z) (e : expdesc) : P unit :=
  let extra := nvars - nexps in
  if hasmultret (e_k e) then
    let extra := Z.max (extra + 1) 0 in
    do! K_ (luaK_setreturns e extra) in
    if 1 <? extra then K_ (luaK_reserveregs (extra - 1)) else pret tt
  else
    let! _ := if bool_decide (e_k e = VVOID) then pret e else K (luaK_exp2nextreg e) in
    if 0 <? extra then
      let! reg := the (fun st => freereg (gen (fs st))) in
      do! K_ (luaK_reserveregs extra) in
      K_ (luaK_nil reg extra)
    else pret tt.

(** ** Levels and blocks *)
Definition set_nCcalls (n : Z) (st : Parser) : Parser := MkParser (ls st) (fs st) (prev st) n.
Definition enterlevel : P unit := fun st =>
  let st := set_nCcalls (nCcalls st + 1) st in
  if LUAI_MAXCCALLS <? nCcalls st then luaX_lexerror (ls st) "chunk has too many syntax levels" 0 else lret (tt, st).
Definition leavelevel : P unit := upd (fun st => set_nCcalls (nCcalls st - 1) st).

Definition enterblock (isbreak : bool) : P unit := upd_fs (fun f => set_bl (Bl NO_JUMP (nactvar (gen f)) false isbreak :: bl f) f).
Definition leaveblock : P unit :=
  let! bls := the (fun st => bl (fs st)) in
  match bls with
  | [] => plift None
  | b :: bls =>
      do! upd_fs (set_bl bls) in
      do! removevars (bl_nactvar b) in
      do! (if bl_upval b then let! _ := K (luaK_codeABC OP_CLOSE (bl_nactvar b) 0 0) in pret tt else pret tt) in
      do! upd_gen (fun g => with_freereg (nactvar g) g) in
      K_ (luaK_patchtohere (breaklist b))
  end.

(** ** Functions *)
(** The new function, [depth] functions being open; the table of constants is a new one. *)
Definition new_func (depth : nat) : Func :=
  let g := {| code := []; lineinfo := []; k := []; h := []; h_addr := Z.of_nat depth + 1; lasttarget := -1; jpc := NO_JUMP; freereg := 0;
    nactvar := 0; maxstacksize := 2; lastline := 0 |} in
  MkFunc g [] (replicate (Z.to_nat LUAI_MAXVARS) 0) [] [] [] [] 0 0 0 0.
Definition open_func : P unit := upd (fun st => MkParser (ls st) (new_func (S (length (prev st)))) (fs st :: prev st) (nCcalls st)).

(** [func->f] *)
Definition proto_of (l : LexState) (f : Func) : option Proto :=
  ks ← mapM kvalue_of (k (gen f));
  Some (MkProto (Some (source l)) (f_linedefined f) (f_lastlinedefined f) (Z.of_nat (length (upvaldescs f))) (f_numparams f) (f_is_vararg f)
    (maxstacksize (gen f)) (code (gen f)) ks (f_p f) (lineinfo (gen f)) (f_locvars f) (f_upvalues f)).

(** The closed function, [ls->fs] being the enclosing one. *)
Definition close_func : P Func :=
  do! removevars 0 in
  do! K_ (luaK_ret 0 0) in
  fun st => match prev st with
            | [] => lret (fs st, st)   (* NULL; the parser ends *)
            | f :: fs' => lret (fs st, MkParser (ls st) f fs' (nCcalls st))
            end.

Fixpoint closure_upvalues (us : list upvaldesc) : P unit :=
  match us with
  | [] => pret tt
  | u :: us =>
      let o := if bool_decide (up_k u = VLOCAL) then OP_MOVE else OP_GETUPVAL in
      let! _ := K (luaK_codeABC o 0 (up_info u) 0) in
      closure_upvalues us
  end.
Definition pushclosure (func : Func) : P expdesc :=
  let! np := the (fun st => Z.of_nat (length (f_p (fs st)))) in
  if MAXARG_Bx <=? np then plift (lerror "constant table overflow")
  else
    let! pt := (fun st => let* pt := llift (proto_of (ls st) func) in lret (pt, st)) in
    do! upd_fs (fun f => set_p (f_p f ++ [pt]) f) in
    let! p := K (luaK_codeABx OP_CLOSURE 0 np) in
    do! closure_upvalues (upvaldescs func) in
    pret (init_exp VRELOCABLE p).
End Parser.
