(* ===== verification/LGrammar.v ===== *)
(** * The grammar rules (src/lua/lparser.c)

    One definition per rule. The recursion of the rules goes through [subexpr] and
    [chunk], which count the levels they enter and fail beyond LUAI_MAXCCALLS: the
    rules are written over these two, and [rules] ties them for a number of levels. A
    loop reads at least one token per turn, so the length of the rest of the input
    bounds its turns. *)
From stdpp Require Import base list option strings pretty.
From Stdlib Require Import ZArith Lia.
From S2P Require Import Prelude LObject LNum LOpcodes LProto LZio LLex LCode LParser.
#[local] Open Scope Z_scope.

Definition TK_AND : Z := 257.
Definition TK_BREAK : Z := 258.
Definition TK_DO : Z := 259.
Definition TK_ELSE : Z := 260.
Definition TK_ELSEIF : Z := 261.
Definition TK_END : Z := 262.
Definition TK_FALSE : Z := 263.
Definition TK_FOR : Z := 264.
Definition TK_FUNCTION : Z := 265.
Definition TK_IF : Z := 266.
Definition TK_IN : Z := 267.
Definition TK_LOCAL : Z := 268.
Definition TK_NIL : Z := 269.
Definition TK_NOT : Z := 270.
Definition TK_OR : Z := 271.
Definition TK_REPEAT : Z := 272.
Definition TK_RETURN : Z := 273.
Definition TK_THEN : Z := 274.
Definition TK_TRUE : Z := 275.
Definition TK_UNTIL : Z := 276.
Definition TK_WHILE : Z := 277.
(** The tokens of one character. *)
Definition ch (s : string) : Z := default 0 (head (bytes_of_string s)).

Definition getunopr (op : Z) : UnOpr :=
  if op =? TK_NOT then OPR_NOT else if op =? ch "-" then OPR_MINUS else if op =? ch "#" then OPR_LEN else OPR_NOUNOPR.

Definition binops : list (Z * BinOpr) := [
  (ch "+", OPR_ADD); (ch "-", OPR_SUB); (ch "*", OPR_MUL); (ch "/", OPR_DIV); (ch "%", OPR_MOD); (ch "^", OPR_POW);
  (TK_CONCAT, OPR_CONCAT); (TK_NE, OPR_NE); (TK_EQ, OPR_EQ); (ch "<", OPR_LT); (TK_LE, OPR_LE); (ch ">", OPR_GT);
  (TK_GE, OPR_GE); (TK_AND, OPR_AND); (TK_OR, OPR_OR)].
Definition getbinopr (op : Z) : BinOpr :=
  match list_find (fun x => x.1 = op) binops with Some (_, (_, o)) => o | None => OPR_NOBINOPR end.

(** [(left, right)]; the table ends before [OPR_NOBINOPR]. *)
Definition priority (op : BinOpr) : option (Z * Z) :=
  match op with
  | OPR_ADD | OPR_SUB => Some (6, 6)
  | OPR_MUL | OPR_DIV | OPR_MOD => Some (7, 7)
  | OPR_POW => Some (10, 9)
  | OPR_CONCAT => Some (5, 4)
  | OPR_NE | OPR_EQ | OPR_LT | OPR_LE | OPR_GT | OPR_GE => Some (3, 3)
  | OPR_AND => Some (2, 2)
  | OPR_OR => Some (1, 1)
  | OPR_NOBINOPR => None
  end.
Definition UNARY_PRIORITY : Z := 8.

Definition block_follow (tk : Z) : bool := bool_decide (tk ∈ [TK_ELSE; TK_ELSEIF; TK_END; TK_UNTIL; TK_EOS]).

(** Is [VLOCAL <= k && k <= VINDEXED]? *)
Definition is_variable (kd : expkind) : bool := match kd with VLOCAL | VUPVAL | VGLOBAL | VINDEXED => true | _ => false end.

Record ConsControl := Cons { cc_v : expdesc; cc_nh : Z; cc_na : Z; cc_tostore : Z }.

(** The last variable of an assignment is in conflict with the earlier ones, [lh]. *)
Definition safe_copy (v extra : Z) (e : expdesc) : expdesc * bool :=
  if bool_decide (e_k e = VINDEXED) then
    let c1 := info e =? v in
    let c2 := aux e =? v in
    ({| e_k := e_k e; info := if c1 then extra else info e; aux := if c2 then extra else aux e; nval := nval e; e_t := e_t e; e_f := e_f e |}, c1 || c2)
  else (e, false).
(** The first breakable block, its place, and whether a variable of a block before it is an upvalue. *)
Fixpoint find_breakable (i : nat) (up : bool) (bs : list BlockCnt) : option (nat * BlockCnt * bool) :=
  match bs with
  | [] => None
  | b :: bs => if isbreakable b then Some (i, b, up) else find_breakable (S i) (up || bl_upval b) bs
  end.

Section Rules.
Context `{CLibrary}.

(** [turns], for a loop that starts here. *)
Definition loop_turns : P nat := the (fun st => LLex.turns (ls st)).
Definition gen_nactvar : P Z := the (fun st => nactvar (gen (fs st))).
Definition gen_freereg : P Z := the (fun st => freereg (gen (fs st))).
Definition free_to_nactvar : P unit := upd_gen (fun g => with_freereg (nactvar g) g).

Section Levels.
Variable rec_subexpr : Z -> P (BinOpr * expdesc).
Variable rec_chunk : P unit.

Definition expr : P expdesc := let! r := rec_subexpr 0 in pret r.2.

Definition field (v : expdesc) : P expdesc :=
  let! v := K (luaK_exp2anyreg v) in
  do! next in
  let! key := checkname in
  K (luaK_indexed v key).

Definition yindex : P expdesc :=
  do! next in
  let! v := expr in
  let! v := K (luaK_exp2val v) in
  do! checknext (ch "]") in
  pret v.

(** ** Constructors; [t] is the register of the table *)
Definition exp2RK (e : expdesc) : P Z := let! r := K (fun g => let* (x, e, g) := luaK_exp2RK e g in lret ((x, e), g)) in pret r.1.

Definition recfield (t_info : Z) (cc : ConsControl) : P ConsControl :=
  let! reg := gen_freereg in
  let! tk := tok in
  let! key := if tk =? TK_NAME then do! checklimit (cc_nh cc) MAX_INT "items in a constructor" in checkname else yindex in
  let cc := Cons (cc_v cc) (cc_nh cc + 1) (cc_na cc) (cc_tostore cc) in
  do! checknext (ch "=") in
  let! rkkey := exp2RK key in
  let! val := expr in
  let! rkval := exp2RK val in
  let! _ := K (luaK_codeABC OP_SETTABLE t_info rkkey rkval) in
  do! upd_gen (with_freereg reg) in
  pret cc.

Definition closelistfield (t_info : Z) (cc : ConsControl) : P ConsControl :=
  if bool_decide (e_k (cc_v cc) = VVOID) then pret cc
  else
    let! v := K (luaK_exp2nextreg (cc_v cc)) in
    let v := exp_kind VVOID v in
    if cc_tostore cc =? LFIELDS_PER_FLUSH then
      do! K_ (luaK_setlist t_info (cc_na cc) (cc_tostore cc)) in
      pret (Cons v (cc_nh cc) (cc_na cc) 0)
    else pret (Cons v (cc_nh cc) (cc_na cc) (cc_tostore cc)).

Definition lastlistfield (t_info : Z) (cc : ConsControl) : P ConsControl :=
  if cc_tostore cc =? 0 then pret cc
  else if hasmultret (e_k (cc_v cc)) then
    do! K_ (luaK_setreturns (cc_v cc) LUA_MULTRET) in
    do! K_ (luaK_setlist t_info (cc_na cc) LUA_MULTRET) in
    pret (Cons (cc_v cc) (cc_nh cc) (cc_na cc - 1) (cc_tostore cc))
  else
    let! v := if bool_decide (e_k (cc_v cc) = VVOID) then pret (cc_v cc) else K (luaK_exp2nextreg (cc_v cc)) in
    do! K_ (luaK_setlist t_info (cc_na cc) (cc_tostore cc)) in
    pret (Cons v (cc_nh cc) (cc_na cc) (cc_tostore cc)).

Definition listfield (cc : ConsControl) : P ConsControl :=
  let! v := expr in
  do! checklimit (cc_na cc) MAX_INT "items in a constructor" in
  pret (Cons v (cc_nh cc) (cc_na cc + 1) (cc_tostore cc + 1)).

Definition constructor_item (t_info : Z) (cc : ConsControl) : P ConsControl :=
  let! tk := tok in
  if tk =? TK_NAME then let! la := look in if la =? ch "=" then recfield t_info cc else listfield cc
  else if tk =? ch "[" then recfield t_info cc
  else listfield cc.

Fixpoint constructor_loop (n : nat) (t_info : Z) (cc : ConsControl) : P ConsControl :=
  match n with
  | O => plift None
  | S n =>
      let! tk := tok in
      if tk =? ch "}" then pret cc
      else
        let! cc := closelistfield t_info cc in
        let! cc := constructor_item t_info cc in
        let! comma := testnext (ch ",") in
        let! more := if (comma : bool) then pret true else testnext (ch ";") in
        if (more : bool) then constructor_loop n t_info cc else pret cc
  end.

Definition constructor : P expdesc :=
  let! line := linenum in
  let! pc0 := K (luaK_codeABC OP_NEWTABLE 0 0 0) in
  let! t := K (luaK_exp2nextreg (init_exp VRELOCABLE pc0)) in
  do! checknext (ch "{") in
  let! n := loop_turns in
  let! cc := constructor_loop n (info t) (Cons (init_exp VVOID 0) 0 0 0) in
  do! check_match (ch "}") (ch "{") line in
  let! cc := lastlistfield (info t) cc in
  do! K_ (fun g =>
    let* na := llift (luaO_int2fb (cc_na cc)) in
    let* g := llift (set_arg SETARG_B na (init_exp VRELOCABLE pc0) g) in
    let* nh := llift (luaO_int2fb (cc_nh cc)) in
    llift (set_arg SETARG_C nh (init_exp VRELOCABLE pc0) g)) in
  pret t.

(** ** Functions and calls *)
Definition set_is_vararg (n : Z) : P unit := upd_fs (fun f => set_params (f_numparams f) n f).
Fixpoint parlist_loop (n : nat) (nparams : Z) : P Z :=
  match n with
  | O => plift None
  | S n =>
      let! tk := tok in
      let! nparams :=
        if tk =? TK_NAME then
          let! name := str_checkname in
          do! new_localvar name nparams in
          pret (nparams + 1)
        else if tk =? TK_DOTS then
          do! next in
          do! new_localvarliteral "arg" nparams in
          do! set_is_vararg (Z.lor (Z.lor VARARG_HASARG VARARG_NEEDSARG) VARARG_ISVARARG) in
          pret (nparams + 1)
        else syntaxerror "<name> or '...' expected" in
      let! vararg := the (fun st => f_is_vararg (fs st)) in
      if negb (vararg =? 0) then pret nparams
      else
        let! more := testnext (ch ",") in
        if (more : bool) then parlist_loop n nparams else pret nparams
  end.

Definition parlist : P unit :=
  do! set_is_vararg 0 in
  let! tk := tok in
  let! n := loop_turns in
  let! nparams := if negb (tk =? ch ")") then parlist_loop n 0 else pret 0 in
  do! adjustlocalvars nparams in
  do! upd_fs (fun f => set_params (u8 (nactvar (gen f) - Z.land (f_is_vararg f) VARARG_HASARG)) (f_is_vararg f) f) in
  let! na := gen_nactvar in
  K_ (luaK_reserveregs na).

Definition body (needself : bool) (line : Z) : P expdesc :=
  do! open_func in
  do! upd_fs (fun f => set_lines line (f_lastlinedefined f) f) in
  do! checknext (ch "(") in
  do! (if needself then do! new_localvarliteral "self" 0 in adjustlocalvars 1 else pret tt) in
  do! parlist in
  do! checknext (ch ")") in
  do! rec_chunk in
  let! last := linenum in
  do! upd_fs (fun f => set_lines (f_linedefined f) last f) in
  do! check_match TK_END TK_FUNCTION line in
  let! func := close_func in
  pushclosure func.

Fixpoint explist_loop (n : nat) (k : Z) (v : expdesc) : P (Z * expdesc) :=
  match n with
  | O => plift None
  | S n =>
      let! more := testnext (ch ",") in
      if (more : bool) then
        let! _ := K (luaK_exp2nextreg v) in
        let! v := expr in
        explist_loop n (k + 1) v
      else pret (k, v)
  end.
Definition explist1 : P (Z * expdesc) :=
  let! v := expr in
  let! n := loop_turns in
  explist_loop n 1 v.

Definition funcargs_list (line : Z) : P expdesc :=
  let! last := the (fun st => LLex.lastline (ls st)) in
  do! check_condition (line =? last) "ambiguous syntax (function call x new statement)" in
  do! next in
  let! tk := tok in
  let! args :=
    if tk =? ch ")" then pret (init_exp VVOID 0)
    else let! r := explist1 in do! K_ (luaK_setreturns r.2 LUA_MULTRET) in pret r.2 in
  do! check_match (ch ")") (ch "(") line in
  pret args.

Definition funcargs (f : expdesc) : P expdesc :=
  let! line := linenum in
  let! tk := tok in
  let! args :=
    if tk =? ch "(" then funcargs_list line
    else if tk =? ch "{" then constructor
    else if tk =? TK_STRING then let! ts := token_ts in let! args := codestring ts in do! next in pret args
    else syntaxerror "function arguments expected" in
  let base := info f in
  let! nparams :=
    if hasmultret (e_k args) then pret LUA_MULTRET
    else
      let! _ := if bool_decide (e_k args = VVOID) then pret args else K (luaK_exp2nextreg args) in
      let! free := gen_freereg in
      pret (free - (base + 1)) in
  let! p := K (luaK_codeABC OP_CALL base (nparams + 1) 2) in
  do! K_ (fun g => llift (luaK_fixline line g)) in
  do! upd_gen (with_freereg (base + 1)) in
  pret (init_exp VCALL p).

(** ** Expressions *)
Definition prefixexp : P expdesc :=
  let! tk := tok in
  if tk =? ch "(" then
    let! line := linenum in
    do! next in
    let! v := expr in
    do! check_match (ch ")") (ch "(") line in
    K (luaK_dischargevars v)
  else if tk =? TK_NAME then singlevar
  else syntaxerror "unexpected symbol".

(** One suffix, if there is one. *)
Definition suffix (v : expdesc) : P (option expdesc) :=
  let! tk := tok in
  if tk =? ch "." then let! v := field v in pret (Some v)
  else if tk =? ch "[" then
    let! v := K (luaK_exp2anyreg v) in
    let! key := yindex in
    let! v := K (luaK_indexed v key) in
    pret (Some v)
  else if tk =? ch ":" then
    do! next in
    let! key := checkname in
    let! r := K (fun g => let* (e, key, g) := luaK_self v key g in lret ((e, key), g)) in
    let! v := funcargs r.1 in
    pret (Some v)
  else if (tk =? ch "(") || (tk =? TK_STRING) || (tk =? ch "{") then
    let! v := K (luaK_exp2nextreg v) in
    let! v := funcargs v in
    pret (Some v)
  else pret None.

Fixpoint suffixes (n : nat) (v : expdesc) : P expdesc :=
  match n with
  | O => plift None
  | S n => let! r := suffix v in match r with Some v => suffixes n v | None => pret v end
  end.
Definition primaryexp : P expdesc :=
  let! n := loop_turns in
  let! v := prefixexp in
  suffixes n v.

Definition simpleexp : P expdesc :=
  let! tk := tok in
  if tk =? TK_NUMBER then let! r := token_r in do! next in pret (exp_nval r (init_exp VKNUM 0))
  else if tk =? TK_STRING then let! ts := token_ts in let! v := codestring ts in do! next in pret v
  else if tk =? TK_NIL then do! next in pret (init_exp VNIL 0)
  else if tk =? TK_TRUE then do! next in pret (init_exp VTRUE 0)
  else if tk =? TK_FALSE then do! next in pret (init_exp VFALSE 0)
  else if tk =? TK_DOTS then
    let! vararg := the (fun st => f_is_vararg (fs st)) in
    do! check_condition (negb (vararg =? 0)) "cannot use '...' outside a vararg function" in
    do! set_is_vararg (Z.land vararg (Z.lnot VARARG_NEEDSARG)) in
    let! p := K (luaK_codeABC OP_VARARG 0 1 0) in
    do! next in
    pret (init_exp VVARARG p)
  else if tk =? ch "{" then constructor
  else if tk =? TK_FUNCTION then do! next in let! line := linenum in body false line
  else primaryexp.

(** [op] is the operator that follows. *)
Fixpoint operators (n : nat) (limit : Z) (op : BinOpr) (v : expdesc) : P (BinOpr * expdesc) :=
  match priority op with
  | None => pret (op, v)
  | Some (lprio, rprio) =>
      if limit <? lprio then
        match n with
        | O => plift None
        | S n =>
            do! next in
            let! v := K (luaK_infix op v) in
            let! r := rec_subexpr rprio in
            let! v := K (luaK_posfix numpow op v r.2) in
            operators n limit r.1 v
        end
      else pret (op, v)
  end.

(** The operand [subexpr] starts with, and the operators that follow it. *)
Definition operand : P expdesc :=
  let! tk := tok in
  match getunopr tk with
  | OPR_NOUNOPR => simpleexp
  | uop => do! next in let! r := rec_subexpr UNARY_PRIORITY in K (luaK_prefix numpow uop r.2)
  end.
Definition operators_from (n : nat) (limit : Z) (v : expdesc) : P (BinOpr * expdesc) :=
  let! tk := tok in operators n limit (getbinopr tk) v.

Definition subexpr_level (limit : Z) : P (BinOpr * expdesc) :=
  do! enterlevel in
  let! n := loop_turns in
  let! v := operand in
  let! r := operators_from n limit v in
  do! leavelevel in
  pret r.

(** ** Statements *)
Definition block : P unit :=
  do! enterblock false in
  do! rec_chunk in
  leaveblock.

Definition check_conflict (lh : list expdesc) (v : expdesc) : P (list expdesc) :=
  let! extra := gen_freereg in
  let r := safe_copy (info v) extra <$> lh in
  do! (if existsb snd r then
         let! free := gen_freereg in
         let! _ := K (luaK_codeABC OP_MOVE free (info v) 0) in
         K_ (luaK_reserveregs 1)
       else pret tt) in
  pret r.*1.

Definition default_assignment (v : expdesc) : P unit :=
  let! free := gen_freereg in
  let! _ := K (luaK_storevar v (init_exp VNONRELOC (free - 1))) in
  pret tt.

(** The variables before [v], the last one first; they are returned as they have become. *)
Fixpoint assignment (n : nat) (v : expdesc) (lh : list expdesc) (nvars : Z) : P (list expdesc) :=
  match n with
  | O => plift None
  | S n =>
      do! check_condition (is_variable (e_k v)) "syntax error" in
      let! more := testnext (ch ",") in
      if (more : bool) then
        let! nv := primaryexp in
        let! lh := if bool_decide (e_k nv = VLOCAL) then check_conflict (v :: lh) nv else pret (v :: lh) in
        let! calls := the nCcalls in
        do! checklimit nvars (LUAI_MAXCCALLS - calls) "variables in assignment" in
        let! lh := assignment n nv lh (nvars + 1) in
        match lh with
        | [] => plift None
        | v :: lh => do! default_assignment v in pret lh
        end
      else
        do! checknext (ch "=") in
        let! (nexps, e) := explist1 in
        if negb (nexps =? nvars) then
          do! adjust_assign nvars nexps e in
          do! (if nvars <? nexps then upd_gen (fun g => with_freereg (freereg g - (nexps - nvars)) g) else pret tt) in
          do! default_assignment v in
          pret lh
        else
          let! e := K (fun g => llift (luaK_setoneret e g)) in
          let! _ := K (luaK_storevar v e) in
          pret lh
  end.

Definition cond : P Z :=
  let! v := expr in
  let v := if bool_decide (e_k v = VNIL) then exp_kind VFALSE v else v in
  let! v := K (luaK_goiftrue v) in
  pret (e_f v).

Definition set_breaklist (i : nat) (l : Z) : P unit :=
  upd_fs (fun f => set_bl (alter (fun b => Bl l (bl_nactvar b) (bl_upval b) (isbreakable b)) i (bl f)) f).
Definition breakstat : P unit :=
  let! bls := the (fun st => bl (fs st)) in
  match find_breakable 0 false bls with
  | None => syntaxerror "no loop to break"
  | Some (i, b, up) =>
      do! (if (up : bool) then let! _ := K (luaK_codeABC OP_CLOSE (bl_nactvar b) 0 0) in pret tt else pret tt) in
      let! j := K luaK_jump in
      let! l := K (luaK_concat (breaklist b) j) in
      set_breaklist i l
  end.

Definition getlabel : P Z := K (fun g => lret (luaK_getlabel g)).
(** [luaK_patchlist(fs, luaK_jump(fs), target)] *)
Definition jump_back (target : Z) : P unit := let! j := K luaK_jump in K_ (luaK_patchlist j target).

Definition whilestat (line : Z) : P unit :=
  do! next in
  let! whileinit := getlabel in
  let! condexit := cond in
  do! enterblock true in
  do! checknext TK_DO in
  do! block in
  do! jump_back whileinit in
  do! check_match TK_END TK_WHILE line in
  do! leaveblock in
  K_ (luaK_patchtohere condexit).

Definition repeatstat (line : Z) : P unit :=
  let! repeat_init := getlabel in
  do! enterblock true in
  do! enterblock false in
  do! next in
  do! rec_chunk in
  do! check_match TK_UNTIL TK_REPEAT line in
  let! condexit := cond in
  let! bls := the (fun st => bl (fs st)) in
  do! match bls with
      | [] => plift None
      | bl2 :: _ =>
          if negb (bl_upval bl2) then
            do! leaveblock in
            K_ (luaK_patchlist condexit repeat_init)
          else
            do! breakstat in
            do! K_ (luaK_patchtohere condexit) in
            do! leaveblock in
            jump_back repeat_init
      end in
  leaveblock.

Definition exp1 : P expkind :=
  let! e := expr in
  let! _ := K (luaK_exp2nextreg e) in
  pret (e_k e).

Definition forbody (base line nvars : Z) (isnum : bool) : P unit :=
  do! adjustlocalvars 3 in
  do! checknext TK_DO in
  let! prep := if isnum then K (luaK_codeAsBx OP_FORPREP base NO_JUMP) else K luaK_jump in
  do! enterblock false in
  do! adjustlocalvars nvars in
  do! K_ (luaK_reserveregs nvars) in
  do! block in
  do! leaveblock in
  do! K_ (luaK_patchtohere prep) in
  let! endfor := if isnum then K (luaK_codeAsBx OP_FORLOOP base NO_JUMP) else K (luaK_codeABC OP_TFORLOOP base 0 nvars) in
  do! K_ (fun g => llift (luaK_fixline line g)) in
  let! l := if isnum then pret endfor else K luaK_jump in
  K_ (luaK_patchlist l (prep + 1)).

(** The number 1. *)
Definition number_one : Z := cast_num 1.
Definition fornum (varname : bytes) (line : Z) : P unit :=
  let! base := gen_freereg in
  do! new_localvarliteral "(for index)" 0 in
  do! new_localvarliteral "(for limit)" 1 in
  do! new_localvarliteral "(for step)" 2 in
  do! new_localvar varname 3 in
  do! checknext (ch "=") in
  let! _ := exp1 in
  do! checknext (ch ",") in
  let! _ := exp1 in
  let! step := testnext (ch ",") in
  do! (if (step : bool) then let! _ := exp1 in pret tt
       else
         let! free := gen_freereg in
         let! i := K (luaK_numberK number_one) in
         let! _ := K (luaK_codeABx OP_LOADK free i) in
         K_ (luaK_reserveregs 1)) in
  forbody base line 1 true.

Fixpoint forlist_names (n : nat) (nvars : Z) : P Z :=
  match n with
  | O => plift None
  | S n =>
      let! more := testnext (ch ",") in
      if (more : bool) then
        let! name := str_checkname in
        do! new_localvar name nvars in
        forlist_names n (nvars + 1)
      else pret nvars
  end.
Definition forlist (indexname : bytes) : P unit :=
  let! base := gen_freereg in
  do! new_localvarliteral "(for generator)" 0 in
  do! new_localvarliteral "(for state)" 1 in
  do! new_localvarliteral "(for control)" 2 in
  do! new_localvar indexname 3 in
  let! n := loop_turns in
  let! nvars := forlist_names n 4 in
  do! checknext TK_IN in
  let! line := linenum in
  let! (nexps, e) := explist1 in
  do! adjust_assign 3 nexps e in
  do! K_ (luaK_checkstack 3) in
  forbody base line (nvars - 3) false.

Definition forstat (line : Z) : P unit :=
  do! enterblock true in
  do! next in
  let! varname := str_checkname in
  let! tk := tok in
  do! (if tk =? ch "=" then fornum varname line
       else if (tk =? ch ",") || (tk =? TK_IN) then forlist varname
       else syntaxerror "'=' or 'in' expected") in
  do! check_match TK_END TK_FOR line in
  leaveblock.

Definition test_then_block : P Z :=
  do! next in
  let! condexit := cond in
  do! checknext TK_THEN in
  do! block in
  pret condexit.

(** A jump to the end of the statement. *)
Definition escape (escapelist : Z) : P Z := let! j := K luaK_jump in K (luaK_concat escapelist j).
Fixpoint elseifs (n : nat) (flist escapelist : Z) : P (Z * Z) :=
  match n with
  | O => plift None
  | S n =>
      let! tk := tok in
      if tk =? TK_ELSEIF then
        let! escapelist := escape escapelist in
        do! K_ (luaK_patchtohere flist) in
        let! flist := test_then_block in
        elseifs n flist escapelist
      else pret (flist, escapelist)
  end.
Definition ifstat (line : Z) : P unit :=
  let! flist := test_then_block in
  let! n := loop_turns in
  let! (flist, escapelist) := elseifs n flist NO_JUMP in
  let! tk := tok in
  let! escapelist :=
    if tk =? TK_ELSE then
      let! escapelist := escape escapelist in
      do! K_ (luaK_patchtohere flist) in
      do! next in
      do! block in
      pret escapelist
    else K (luaK_concat escapelist flist) in
  do! K_ (luaK_patchtohere escapelist) in
  check_match TK_END TK_IF line.

Definition localfunc : P unit :=
  let! name := str_checkname in
  do! new_localvar name 0 in
  let! free := gen_freereg in
  do! K_ (luaK_reserveregs 1) in
  do! adjustlocalvars 1 in
  let! line := linenum in
  let! b := body false line in
  let! _ := K (luaK_storevar (init_exp VLOCAL free) b) in
  with_fs (fun f => let* f := llift (set_startpc (nactvar (gen f) - 1) f) in lret (tt, f)).

Fixpoint localnames (n : nat) (nvars : Z) : P Z :=
  match n with
  | O => plift None
  | S n =>
      let! name := str_checkname in
      do! new_localvar name nvars in
      let! more := testnext (ch ",") in
      if (more : bool) then localnames n (nvars + 1) else pret (nvars + 1)
  end.
Definition localstat : P unit :=
  let! n := loop_turns in
  let! nvars := localnames n 0 in
  let! init := testnext (ch "=") in
  let! (nexps, e) := if (init : bool) then explist1 else pret (0, init_exp VVOID 0) in
  do! adjust_assign nvars nexps e in
  adjustlocalvars nvars.

Fixpoint funcname_fields (n : nat) (v : expdesc) : P expdesc :=
  match n with
  | O => plift None
  | S n => let! tk := tok in if tk =? ch "." then let! v := field v in funcname_fields n v else pret v
  end.
Definition funcname : P (bool * expdesc) :=
  let! n := loop_turns in
  let! v := singlevar in
  let! v := funcname_fields n v in
  let! tk := tok in
  if tk =? ch ":" then let! v := field v in pret (true, v) else pret (false, v).

Definition funcstat (line : Z) : P unit :=
  do! next in
  let! (needself, v) := funcname in
  let! b := body needself line in
  let! _ := K (luaK_storevar v b) in
  K_ (fun g => llift (luaK_fixline line g)).

Definition exprstat : P unit :=
  let! v := primaryexp in
  if bool_decide (e_k v = VCALL) then K_ (fun g => llift (set_arg SETARG_C 1 v g))
  else let! _ := assignment (S (Z.to_nat LUAI_MAXCCALLS)) v [] 1 in pret tt.

Definition retstat : P unit :=
  do! next in
  let! tk := tok in
  let! (first, nret) :=
    if block_follow tk || (tk =? ch ";") then pret (0, 0)
    else
      let! (nret, e) := explist1 in
      let! na := gen_nactvar in
      if hasmultret (e_k e) then
        do! K_ (luaK_setreturns e LUA_MULTRET) in
        do! (if bool_decide (e_k e = VCALL) && (nret =? 1) then K_ (fun g => llift (set_arg SET_OPCODE (of_opcode OP_TAILCALL) e g)) else pret tt) in
        pret (na, LUA_MULTRET)
      else if nret =? 1 then let! e := K (luaK_exp2anyreg e) in pret (info e, 1)
      else let! _ := K (luaK_exp2nextreg e) in pret (na, nret) in
  K_ (luaK_ret first nret).

(** Is it the last statement? *)
Definition statement : P bool :=
  let! line := linenum in
  let! tk := tok in
  let more (m : P unit) := do! m in pret false in
  if tk =? TK_IF then more (ifstat line)
  else if tk =? TK_WHILE then more (whilestat line)
  else if tk =? TK_DO then more (do! next in do! block in check_match TK_END TK_DO line)
  else if tk =? TK_FOR then more (forstat line)
  else if tk =? TK_REPEAT then more (repeatstat line)
  else if tk =? TK_FUNCTION then more (funcstat line)
  else if tk =? TK_LOCAL then
    more (do! next in let! f := testnext TK_FUNCTION in if (f : bool) then localfunc else localstat)
  else if tk =? TK_RETURN then do! retstat in pret true
  else if tk =? TK_BREAK then do! next in do! breakstat in pret true
  else more exprstat.

Fixpoint statements (n : nat) (islast : bool) : P unit :=
  let! tk := tok in
  if islast || block_follow tk then pret tt
  else match n with
  | O => plift None
  | S n =>
      let! islast := statement in
      let! _ := testnext (ch ";") in
      do! free_to_nactvar in
      statements n islast
  end.
Definition chunk_level : P unit :=
  do! enterlevel in
  let! n := loop_turns in
  do! statements n false in
  leavelevel.
End Levels.

(** [subexpr] and [chunk], with [n] levels of nesting. *)
Fixpoint rules (n : nat) : (Z -> P (BinOpr * expdesc)) * P unit :=
  match n with
  | O => (fun _ => plift None, plift None)
  | S n => let r := rules n in (subexpr_level r.1 r.2, chunk_level r.1 r.2)
  end.
(** The level that fails is one of them. *)
Definition LEVELS : nat := S (Z.to_nat LUAI_MAXCCALLS).
Definition subexpr : Z -> P (BinOpr * expdesc) := (rules LEVELS).1.
Definition chunk : P unit := (rules LEVELS).2.

(** The token structure and the depth of calls of the caller. *)
Definition luaY_parser (tk : Token) (sem : SemInfo) (zio : ZIO) (name : bytes) (calls : Z) : LuaM Proto :=
  let* l := luaX_setinput tk sem zio name in
  let st := MkParser l (new_func 0) [] calls in
  let* (func, st) := (do! set_is_vararg VARARG_ISVARARG in
    do! next in
    do! chunk in
    do! check TK_EOS in
    close_func) st in
  llift (proto_of (ls st) func).
End Rules.
