(* ===== verification/LExpr.v ===== *)
(** * Expressions and what they mean

    The trees of the expressions of the language, except calls, concatenation,
    constructors, functions and variable arguments. [eval] is what the manual says the
    expression means, over the operations on values of lvm.c. *)
From stdpp Require Import base list option.
From Stdlib Require Import ZArith Lia.
From S2P Require Import Prelude LObject LNum LOpcodes LVm LVmProps LCode.
#[local] Open Scope Z_scope.

(** Names are resolved: a local variable is its register, a global the address of its
    name. *)
Inductive expr :=
  | ENil | ETrue | EFalse
  | ENumber (r : Z)
  | EString (ts : Z)
  | ELocal (reg : Z)
  | EUpvalue (idx : Z)
  | EGlobal (name : Z)
  | EField (t : expr) (name : Z)      (* t.name *)
  | EIndex (t key : expr)             (* t[key] *)
  | EParen (e : expr)
  | EUnop (op : UnOpr) (e : expr)
  | EBinop (op : BinOpr) (e1 e2 : expr).

(** ** The meaning of an expression *)
Section Eval.
Context {W : Type} `{CallsKeepFrame W}.
Variable env : Z.   (* the table of globals *)

Definition arith_of (op : BinOpr) : option arith :=
  match op with
  | OPR_ADD => Some AADD | OPR_SUB => Some ASUB | OPR_MUL => Some AMUL | OPR_DIV => Some ADIV | OPR_MOD => Some AMOD
  | OPR_POW => Some APOW | _ => None
  end.

Definition truth (m : LuaM (bool * W)) : LuaM (tvalue * W) := let* (b, w) := m in lret (TBoolean b, w).

Definition binop_val (op : BinOpr) (w : W) (a b : tvalue) : LuaM (tvalue * W) :=
  match op with
  | OPR_EQ => truth (equal_val w a b)
  | OPR_NE => let* (r, w) := equal_val w a b in lret (TBoolean (negb r), w)
  | OPR_LT => truth (less_val w a b)
  | OPR_LE => truth (le_val w a b)
  | OPR_GT => truth (less_val w b a)
  | OPR_GE => truth (le_val w b a)
  | _ => match arith_of op with Some op => arith_val w op a b | None => None end
  end.
Definition unop_val (op : UnOpr) (w : W) (a : tvalue) : LuaM (tvalue * W) :=
  match op with
  | OPR_MINUS => arith_val w AUNM a a
  | OPR_NOT => lret (TBoolean (l_isfalse a), w)
  | OPR_LEN => len_val w a
  | OPR_NOUNOPR => None
  end.

Fixpoint eval (ex : expr) (s : registers) (w : W) : LuaM (tvalue * W) :=
  match ex with
  | ENil => lret (TNil, w)
  | ETrue => lret (TBoolean true, w)
  | EFalse => lret (TBoolean false, w)
  | ENumber r => lret (TNumber r, w)
  | EString ts => lret (TGC GString ts, w)
  | ELocal r => let* v := llift (rget s r) in lret (v, w)
  | EUpvalue i => let* v := llift (upval w i) in lret (v, w)
  | EGlobal name => index_val w (TGC GTable env) (TGC GString name)
  | EField t name => let* (v, w) := eval t s w in index_val w v (TGC GString name)
  | EIndex t key => let* (v, w) := eval t s w in let* (kv, w) := eval key s w in index_val w v kv
  | EParen e => eval e s w
  | EUnop op e => let* (v, w) := eval e s w in unop_val op w v
  | EBinop OPR_AND e1 e2 => let* (v, w) := eval e1 s w in if l_isfalse v then lret (v, w) else eval e2 s w
  | EBinop OPR_OR e1 e2 => let* (v, w) := eval e1 s w in if l_isfalse v then eval e2 s w else lret (v, w)
  | EBinop op e1 e2 => let* (v1, w) := eval e1 s w in let* (v2, w) := eval e2 s w in binop_val op w v1 v2
  end.
End Eval.
