(* ===== verification/LFinal.v ===== *)
(** * Code in the making and final code

    While an expression is compiled, some words of the code are not final: pending jumps
    and the tests in front of them, a LOADNIL that may still be extended. [agree] says
    that a final code is one the words of a state can become; every step of the
    generator only narrows this set. Theorems about states are theorems about all the
    final codes they agree with. *)
From stdpp Require Import base list option.
From Stdlib Require Import ZArith Lia ZifyBool.
From S2P Require Import Prelude LObject LNum LOpcodes LProto LVm LVmProps LCode LCodeJumps.
#[local] Open Scope Z_scope.

(** The word at a position: a pending jump ([P]), a jump to the end of the code ([J]),
    the value test in front of one, a LOADNIL at the end, or final. *)
Inductive role := Pending | Here | Setter | SetterHere | LastNil | Plain.

Definition last_nil (fs : FuncState) (i w : Z) : bool := is_op OP_LOADNIL w && (i + 1 =? pc fs) && (lasttarget fs <? pc fs).
Definition role_of (fs : FuncState) (P J : list Z) (i w : Z) : role :=
  if bool_decide (i ∈ P) then Pending
  else if bool_decide (i ∈ J) then Here
  else if is_op OP_TESTSET w then
    if bool_decide (i + 1 ∈ P) then Setter else if bool_decide (i + 1 ∈ J) then SetterHere else Plain
  else if last_nil fs i w then LastNil
  else Plain.

(** [w'] is a word that [w] at [i] may become; [M] registers, [n] the end of the code. *)
Definition fits (M n : Z) (r : role) (i w w' : Z) : Prop :=
  match r with
  | Pending => is_op OP_JMP w' = true
  | Here => is_op OP_JMP w' = true /\ i + 1 + GETARG_sBx w' = n
  | Setter => w' = test_of w \/ exists a, 0 <= a < M /\ w' = SETARG_A w a
  | SetterHere => w' = test_of w
  | LastNil => is_op OP_LOADNIL w' = true /\ GETARG_A w' = GETARG_A w /\ GETARG_B w <= GETARG_B w' < M
  | Plain => w' = w
  end.

(** The constants: an entry of [h] leads to its value in [k]. *)
Definition constant_of (fs : FuncState) (key : tvalue) : tvalue :=
  match key with TGC GTable p => if p =? h_addr fs then TNil else key | _ => key end.
Definition minus_zero (v : tvalue) : bool := match v with TNumber n => (n mod num_sign =? 0) && negb (n =? 0) | _ => false end.
Record pool_ok (fs : FuncState) : Prop := {
  pool_entries : Forall (fun '(key, v) => minus_zero key = false /\
    exists i, v = TNumber (cast_num i) /\ 0 <= i < nk fs /\ k fs !! Z.to_nat i = Some (constant_of fs key)) (h fs);
  pool_size : nk fs <= MAXARG_Bx;
}.

(** Between two instructions, with pending jumps [P] and the jumps [J] to here. *)
Record wf (fs : FuncState) (P J : list Z) : Prop := {
  wf_jumps : jumps_ok fs (P ++ J);
  wf_jpc : chain fs (jpc fs) J;
  wf_nactvar : 0 <= nactvar fs <= freereg fs;
  wf_freereg : freereg fs <= maxstacksize fs;
  wf_stack : maxstacksize fs < MAXSTACK;
  wf_target : lasttarget fs <= pc fs;
  wf_label : J = [] \/ lasttarget fs = pc fs;
  wf_nil i w : code_at fs i = Some w -> is_op OP_LOADNIL w = true -> GETARG_A w <= GETARG_B w < maxstacksize fs;
  wf_pool : pool_ok fs;
}.

Section Final.
Variable cl : lclosure.
Variable M : Z.   (* registers of the frame *)

(** The first [n] words. *)
Record agree (fs : FuncState) (n : Z) (P J : list Z) : Prop := {
  agree_words i w : 0 <= i < n -> code_at fs i = Some w ->
    exists w', instr_at cl i = Some w' /\ fits M (pc fs) (role_of fs P J i w) i w w';
  agree_k : k fs `prefix_of` cl_k cl;
  agree_stack : maxstacksize fs <= M;
  agree_frame : M <= MAXARG_A;
}.

(** Registers that are nil: those a LOADNIL at the end, as it will be, has cleared, and
    all that are no variables where a function begins. *)
Definition clean (fs : FuncState) (s : registers) : Prop :=
  lasttarget fs < pc fs ->
  (pc fs = 0 -> forall j, nactvar fs <= j < M -> rget s j = Some TNil) /\
  (forall w w', code_at fs (pc fs - 1) = Some w -> is_op OP_LOADNIL w = true -> instr_at cl (pc fs - 1) = Some w' ->
     forall j, GETARG_A w <= j <= GETARG_B w' -> rget s j = Some TNil).

Lemma clean_label fs s : lasttarget fs = pc fs -> clean fs s.
Proof. unfold clean. lia. Qed.

(** To show [agree] for an earlier state. *)
Lemma agree_back fs fs' n n' P J P' J' : agree fs' n' P' J' -> n <= n' -> k fs `prefix_of` k fs' -> maxstacksize fs <= maxstacksize fs' ->
  (forall i w, 0 <= i < n -> code_at fs i = Some w -> exists w1, code_at fs' i = Some w1 /\
     forall w', fits M (pc fs') (role_of fs' P' J' i w1) i w1 w' -> fits M (pc fs) (role_of fs P J i w) i w w') ->
  agree fs n P J.
Proof.
  intros [Hw Hk HM HA] Hn Hk' HM' E. split; [|by etrans|lia|done]. intros i w Hi Hc. destruct (E i w Hi Hc) as (w1 & H1 & Hf).
  destruct (Hw i w1) as (w' & Hw' & Hfit); [lia|done|]. exists w'. split; [done|]. by apply Hf.
Qed.
End Final.

(** ** Emitting code *)

(** The fields the code array does not touch. *)
Record same_rest (fs fs' : FuncState) : Prop := {
  same_k : k fs' = k fs;
  same_h : h fs' = h fs;
  same_h_addr : h_addr fs' = h_addr fs;
  same_freereg : freereg fs' = freereg fs;
  same_nactvar : nactvar fs' = nactvar fs;
  same_stack : maxstacksize fs' = maxstacksize fs;
}.
Lemma same_rest_refl fs : same_rest fs fs.
Proof. done. Qed.
Lemma same_rest_trans a b c : same_rest a b -> same_rest b c -> same_rest a c.
Proof. intros [] []. split; congruence. Qed.
Lemma same_shape_rest fs fs' : same_shape fs fs' -> same_rest fs fs'.
Proof. by intros (c & -> & _). Qed.
Lemma pool_ok_eq fs fs' : k fs' = k fs -> h fs' = h fs -> h_addr fs' = h_addr fs -> pool_ok fs -> pool_ok fs'.
Proof. intros Hk Hh Ha [He Hs]. split; unfold nk, constant_of in *; rewrite Hk in *; [|done]. by rewrite Hh, Ha. Qed.
Lemma pool_ok_same fs fs' : same_rest fs fs' -> pool_ok fs -> pool_ok fs'.
Proof. intros [Hk Hh Ha _ _ _]. by apply pool_ok_eq. Qed.
Lemma pool_ok_regs free max fs P J : wf fs P J -> pool_ok (with_regs free max fs).
Proof. intros Hwf. by apply (pool_ok_eq fs), Hwf. Qed.

(** [ws] behind the code, with the jumps [J] patched to the end of the old code. *)
Record extended (J : list Z) (ws : list Z) (fs fs' : FuncState) : Prop := {
  ext_pc : pc fs' = pc fs + Z.of_nat (length ws);
  ext_old : exists fs1, patched J NO_REG (pc fs) (pc fs) fs fs1 /\ forall i, i < pc fs -> code_at fs' i = code_at fs1 i;
  ext_new m w : ws !! m = Some w -> code_at fs' (pc fs + Z.of_nat m) = Some w;
  ext_jpc : jpc fs' = NO_JUMP;
  ext_target : lasttarget fs' = lasttarget fs;
  ext_rest : same_rest fs fs';
}.

Lemma code_at_snoc fs w l i : code_at (with_code (code fs ++ [w]) l fs) i = if i =? pc fs then Some w else code_at fs i.
Proof.
  unfold code_at, pc. cbn. destruct (Z.ltb_spec i 0), (Z.eqb_spec i (Z.of_nat (length (code fs)))); try lia; [done|..].
  - rewrite lookup_app_r by lia. by replace (Z.to_nat i - length (code fs))%nat with 0%nat by lia.
  - destruct (decide (Z.to_nat i < length (code fs))%nat); [by rewrite lookup_app_l|].
    rewrite !lookup_ge_None_2; [done|lia|rewrite length_app; cbn; lia].
Qed.
Lemma pc_snoc fs w l : pc (with_code (code fs ++ [w]) l fs) = pc fs + 1.
Proof. unfold pc. cbn. rewrite length_app. cbn. lia. Qed.

Lemma dischargejpc_spec fs P J : wf fs P J ->
  lsafe (dischargejpc fs) (fun fs' => exists fs1, patched J NO_REG (pc fs) (pc fs) fs fs1 /\ fs' = with_jumps (lasttarget fs1) NO_JUMP fs1).
Proof.
  intros Hwf. destruct (wf_jumps _ _ _ Hwf) as [Hnd Hok]. rewrite Forall_forall in Hok. apply NoDup_app in Hnd as (_ & _ & Hnd).
  unfold dischargejpc. eapply lsafe_bind; [apply (patchlistaux_spec J); [apply Hwf|done|set_solver]|]. intros fs1 H1. by exists fs1.
Qed.

Lemma luaK_code_spec i line fs P J : wf fs P J -> lsafe (luaK_code i line fs) (fun '(p, fs') => p = pc fs /\ extended J [i] fs fs').
Proof.
  intros Hwf. unfold luaK_code. eapply lsafe_bind; [by eapply dischargejpc_spec|]. intros fs2 (fs1 & H1 & ->).
  pose proof (same_shape_pc _ _ (patched_shape _ _ _ _ _ _ H1)) as Hpc. destruct (patched_shape _ _ _ _ _ _ H1) as (c & E & Hl).
  assert (pc (with_jumps (lasttarget fs1) NO_JUMP fs1) = pc fs1) as -> by done. destruct (Z.leb_spec MAX_INT (pc fs1)); [done|]. cbn [lsafe lret].
  split; [done|]. split.
  - rewrite pc_snoc. cbn. change (pc (with_jumps _ _ fs1)) with (pc fs1). lia.
  - exists fs1. split; [done|]. intros q Hq. rewrite code_at_snoc. change (pc (with_jumps _ _ fs1)) with (pc fs1).
    by assert ((q =? pc fs1) = false) as -> by lia.
  - intros m w Hm. destruct m as [|m]; [|by destruct m]. injection Hm as <-. rewrite code_at_snoc. change (pc (with_jumps _ _ fs1)) with (pc fs1).
    by assert ((pc fs + Z.of_nat 0 =? pc fs1) = true) as -> by lia.
  - done.
  - by rewrite E.
  - by rewrite E.
Qed.

Lemma wf_pending_ok fs P J j : wf fs P J -> j ∈ P -> jump_ok fs j /\ j ∉ J.
Proof.
  intros Hwf Hj. destruct (wf_jumps _ _ _ Hwf) as [Hnd Hok]. rewrite Forall_forall in Hok. split; [apply Hok; set_solver|].
  apply NoDup_app in Hnd as (_ & Hd & _). by apply Hd.
Qed.
Lemma wf_here_ok fs P J j : wf fs P J -> j ∈ J -> jump_ok fs j.
Proof. intros Hwf Hj. destruct (wf_jumps _ _ _ Hwf) as [_ Hok]. rewrite Forall_forall in Hok. apply Hok. set_solver. Qed.

Section Extended.
Variables (J ws P : list Z) (fs fs' : FuncState).
Hypothesis He : extended J ws fs fs'.
Hypothesis Hwf : wf fs P J.

Lemma ext_word i w : code_at fs i = Some w -> code_at fs' i = Some (patch_word fs J NO_REG (pc fs) (pc fs) i w).
Proof using He.
  intros Hw. destruct (ext_old _ _ _ _ He) as (fs1 & H1 & E). rewrite E by (by eapply code_at_bounds). by apply H1.
Qed.
Lemma ext_pending j : j ∈ P -> code_at fs' j = code_at fs j /\ setter fs' j = setter fs j /\ jump_ok fs' j.
Proof using He Hwf.
  intros Hj. destruct (wf_pending_ok _ _ _ j Hwf Hj) as [Hok Hn]. destruct (ext_old _ _ _ _ He) as (fs1 & H1 & E).
  pose proof (jump_ok_bounds _ _ Hok) as Hb.
  assert (code_at fs' (j - 1) = code_at fs1 (j - 1)) as E1 by (apply E; lia). assert (code_at fs' j = code_at fs1 j) as E0 by (apply E; lia).
  split; [|split].
  - rewrite E0. by destruct (patched_jump _ _ _ _ _ _ H1 j Hok Hn (fun i => wf_here_ok _ _ _ i Hwf)) as [[-> _]|[-> _]].
  - rewrite <- (patched_setter _ _ _ _ _ _ H1 j Hok Hn (fun i => wf_here_ok _ _ _ i Hwf)). unfold setter. by rewrite E1.
  - apply (jump_ok_ext fs1); [done..|]. apply (patched_jump_ok _ _ _ _ _ _ H1); [intros i; by eapply wf_here_ok|done].
Qed.

(** The old words in a final code of the new state. *)
Lemma ext_agree cl M n P' J' :
  agree cl M fs' n P' J' -> pc fs <= n ->
  (forall j, j < pc fs -> j ∈ P' <-> j ∈ P) -> (forall j, j ∈ J' -> pc fs <= j) ->
  (pc fs ∈ P' ++ J' -> forall w, code_at fs (pc fs - 1) = Some w -> is_op OP_TESTSET w = false) ->
  (0 < length ws)%nat -> agree cl M fs (pc fs) P J.
Proof using He Hwf.
  intros Ha Hn HP' HJ' Hfirst Hlen. destruct (ext_rest _ _ _ _ He) as [Hk _ _ _ _ Hs]. pose proof (ext_pc _ _ _ _ He) as Hpc.
  eapply agree_back; [done|lia|by rewrite Hk|lia|]. intros i w Hi Hw. eexists. split; [by apply ext_word|]. intros w'.
  assert (i ∉ J') as HiJ' by (intros Hin%HJ'; lia). assert (i + 1 < pc fs -> i + 1 ∉ J') as HiJ'' by (intros ? Hin%HJ'; lia).
  unfold role_of at 2. case_bool_decide as HiP.
  { unfold role_of. rewrite bool_decide_eq_true_2 by (apply HP'; [lia|done]). done. }
  assert (i ∉ P') as HiP' by (rewrite HP' by lia; done).
  assert (forall v, is_op OP_TESTSET v = false -> is_op OP_LOADNIL v = false \/ i + 1 <> pc fs' ->
    fits M (pc fs') (role_of fs' P' J' i v) i v w' -> w' = v) as Hplain.
  { intros v Hv Hl. unfold role_of. rewrite !bool_decide_eq_false_2 by done. rewrite Hv. unfold last_nil.
    destruct (is_op OP_LOADNIL v); [|done]. destruct Hl as [|Hl]; [done|]. by assert ((i + 1 =? pc fs') = false) as -> by lia. }
  case_bool_decide as HiJ.
  { pose proof (wf_here_ok _ _ _ i Hwf HiJ) as Hj. unfold patch_word. rewrite bool_decide_eq_true_2 by done. intros Hf.
    assert (is_op OP_JMP w = true) as Hjmp. { destruct (jump_word _ _ Hj) as (x & Hx & ?). congruence. }
    apply Hplain in Hf as ->; [| |right; lia].
    - destruct (ext_old _ _ _ _ He) as (fs1 & H1 & _). pose proof (patched_near _ _ _ _ _ _ H1 i HiJ) as Hnear.
      assert (target fs (pc fs) (pc fs) i = pc fs) as Et by (unfold target; by destruct (setter fs i)). rewrite Et in *.
      split; [by rewrite (is_op_same _ _ w) by apply set_sbx_opcode|]. destruct (set_sbx_fields w (pc fs - (i + 1))) as (-> & _); lia.
    - rewrite (is_op_same _ _ w) by apply set_sbx_opcode. by apply (is_op_other OP_JMP). }
  unfold patch_word. rewrite (bool_decide_eq_false_2 (i ∈ J)) by done. destruct (is_op OP_TESTSET w) eqn:Ht; cbn [andb].
  - destruct (decide (i + 1 = pc fs)) as [Elast|Hnlast].
    { (* a test at the end *)
      assert (i + 1 ∉ J) as HnJ. { intros Hin%(wf_here_ok _ _ _ _ Hwf)%jump_ok_bounds. lia. }
      assert (i + 1 ∉ P) as HnP. { intros Hin%(wf_pending_ok _ _ _ _ Hwf). destruct Hin as [Hin%jump_ok_bounds _]. lia. }
      rewrite !(bool_decide_eq_false_2 (i + 1 ∈ _)) by done. unfold role_of. rewrite !(bool_decide_eq_false_2 (i ∈ _)), Ht by done.
      assert (i + 1 ∉ P' ++ J') as Hnew. { rewrite Elast. intros Hin. specialize (Hfirst Hin w). replace (pc fs - 1) with i in Hfirst by lia. rewrite Ht in Hfirst. by discriminate Hfirst. }
      by rewrite !bool_decide_eq_false_2 by set_solver. }
    rewrite (bool_decide_ext (i + 1 ∈ P) (i + 1 ∈ P')) by (symmetry; apply HP'; lia).
    case_bool_decide as HnJ; cbn [andb].
    + assert (i + 1 ∉ P') as HnP. { rewrite HP' by lia. intros Hin%(wf_pending_ok _ _ _ _ Hwf). by destruct Hin. }
      rewrite (bool_decide_eq_false_2 (i + 1 ∈ P')) by done. intros Hf. assert (settest NO_REG w = test_of w) as Es by done. rewrite Es in Hf.
      apply Hplain in Hf; [done| |left]; [by apply (is_op_other OP_TEST); [apply test_of_opcode|]|by apply (is_op_other OP_TEST); [apply test_of_opcode|]].
    + unfold role_of. rewrite !(bool_decide_eq_false_2 (i ∈ _)), Ht by done. case_bool_decide; [done|].
      rewrite (bool_decide_eq_false_2 (i + 1 ∈ J')); [done|]. apply HiJ''. lia.
  - intros Hf. apply Hplain in Hf as ->; [|done|]. 2: { destruct (decide (i + 1 = pc fs')); [lia|by right]. }
    destruct (last_nil fs i w) eqn:Hl; [|done]. unfold last_nil in Hl. apply andb_true_iff in Hl as [[Hnil Hi1]%andb_true_iff _].
    split; [done|]. split; [done|]. assert (i = pc fs - 1) as -> by lia. pose proof (wf_nil _ _ _ Hwf _ _ Hw Hnil). destruct Ha as [_ _ HM _]. lia.
Qed.
End Extended.

Lemma same_code_at fs fs' : code fs' = code fs -> pc fs' = pc fs /\ forall i, code_at fs' i = code_at fs i.
Proof. intros E. unfold pc, code_at. by rewrite E. Qed.

(** Patching leaves LOADNIL as it is, and makes none. *)
Lemma patch_word_nil fs L reg vt dt i w : (forall j, j ∈ L -> jump_ok fs j) -> code_at fs i = Some w ->
  is_op OP_LOADNIL (patch_word fs L reg vt dt i w) = true -> patch_word fs L reg vt dt i w = w.
Proof.
  intros HL Hw. unfold patch_word. case_bool_decide as Hi.
  - rewrite (is_op_same _ _ w) by apply set_sbx_opcode. destruct (jump_word _ _ (HL _ Hi)) as (y & Hy & Hjmp). rewrite Hw in Hy. injection Hy as <-.
    by rewrite (is_op_other OP_JMP OP_LOADNIL w).
  - destruct (is_op OP_TESTSET w && bool_decide (i + 1 ∈ L)) eqn:E; [|done]. apply andb_true_iff in E as [E _]. intros Hn.
    pose proof (settest_testT reg w E) as Ht. by rewrite (is_op_test _ _ Hn) in Ht.
Qed.

Lemma ext_wf J ws P fs fs' : extended J ws fs fs' -> wf fs P J -> ws <> [] ->
  (forall w, w ∈ ws -> is_op OP_LOADNIL w = true -> GETARG_A w <= GETARG_B w < maxstacksize fs) -> wf fs' P [].
Proof.
  intros He Hwf Hne Hnil. destruct (ext_rest _ _ _ _ He) as [Hk Hh Ha Hf Hn Hs]. pose proof (ext_pc _ _ _ _ He) as Hpc.
  assert (0 < length ws)%nat as Hlen by (destruct ws; [done|cbn; lia]).
  split; rewrite ?Hf, ?Hn, ?Hs; try apply Hwf.
  - rewrite app_nil_r. split; [|].
    + by destruct (wf_jumps _ _ _ Hwf) as [[? _]%NoDup_app _].
    + apply Forall_forall. intros j Hj. by destruct (ext_pending _ _ _ _ _ He Hwf j Hj) as (_ & _ & ?).
  - apply He.
  - rewrite (ext_target _ _ _ _ He). pose proof (wf_target _ _ _ Hwf). lia.
  - by left.
  - intros i w Hw Hw'. destruct (Z.lt_ge_cases i (pc fs)) as [Hi|Hi].
    + pose proof (code_at_bounds _ _ _ Hw). destruct (code_at_some fs i) as [x Hx]; [lia|]. rewrite (ext_word _ _ _ _ He _ _ Hx) in Hw. injection Hw as <-.
      rewrite (patch_word_nil fs J NO_REG _ _ i x) in Hw' |- * by (done || (intros j Hj; by eapply wf_here_ok)). by apply (wf_nil _ _ _ Hwf i).
    + destruct (lookup_lt_is_Some_2 ws (Z.to_nat (i - pc fs))) as [x Hx]; [pose proof (code_at_bounds _ _ _ Hw); lia|].
      pose proof (ext_new _ _ _ _ He _ _ Hx) as E. replace (pc fs + Z.of_nat (Z.to_nat (i - pc fs))) with i in E by lia. rewrite Hw in E. injection E as ->.
      apply Hnil; [by eapply list_elem_of_lookup_2|done].
  - eapply pool_ok_same; [apply He|apply Hwf].
Qed.

Lemma extended_trans J ws1 ws2 fs fs1 fs2 : extended J ws1 fs fs1 -> extended [] ws2 fs1 fs2 -> extended J (ws1 ++ ws2) fs fs2.
Proof.
  intros H1 H2. pose proof (ext_pc _ _ _ _ H1) as P1. pose proof (ext_pc _ _ _ _ H2) as P2.
  assert (forall i, i < pc fs1 -> code_at fs2 i = code_at fs1 i) as E.
  { intros i Hi. destruct (ext_old _ _ _ _ H2) as (x & Hx & E). rewrite E by done. apply (patched_other _ _ _ _ _ _ Hx); set_solver. }
  split.
  - rewrite length_app. lia.
  - destruct (ext_old _ _ _ _ H1) as (x & Hx & E'). exists x. split; [done|]. intros i Hi. rewrite E by lia. by apply E'.
  - intros m w Hm. apply lookup_app_Some in Hm as [Hm|[Hle Hm]].
    + rewrite E; [by apply (ext_new _ _ _ _ H1)|]. apply lookup_lt_Some in Hm. lia.
    + apply (ext_new _ _ _ _ H2) in Hm. by replace (pc fs + Z.of_nat m) with (pc fs1 + Z.of_nat (m - length ws1)) by lia.
  - apply H2.
  - rewrite (ext_target _ _ _ _ H2). apply H1.
  - eapply same_rest_trans; [apply H1|apply H2].
Qed.

(** The pending jump that [luaK_jump] makes. *)
Definition jmp_word : Z := CREATE_ABx (of_opcode OP_JMP) 0 (u32 (NO_JUMP + MAXARG_sBx)).
Lemma jmp_word_op : is_op OP_JMP jmp_word = true.
Proof. by vm_compute. Qed.
Lemma jmp_word_open fs j : code_at fs j = Some jmp_word -> getjump fs j = Some NO_JUMP.
Proof. intros E. unfold getjump. rewrite E. done. Qed.

Lemma u32_small x : 0 <= x <= MAXARG_Bx -> u32 x = x.
Proof. intros Hx. change MAXARG_Bx with 262143 in Hx. unfold uwrap. apply Z.mod_small. lia. Qed.

Lemma luaK_codeABC_spec o a b c fs P J : wf fs P J ->
  lsafe (luaK_codeABC o a b c fs) (fun '(p, fs') => p = pc fs /\ extended J [CREATE_ABC (of_opcode o) a b c] fs fs').
Proof. by apply luaK_code_spec. Qed.
Lemma luaK_codeABx_spec o a bx fs P J : wf fs P J -> 0 <= bx <= MAXARG_Bx ->
  lsafe (luaK_codeABx o a bx fs) (fun '(p, fs') => p = pc fs /\ extended J [CREATE_ABx (of_opcode o) a bx] fs fs').
Proof. intros Hwf Hb. unfold luaK_codeABx. rewrite u32_small by done. by eapply luaK_code_spec. Qed.

Lemma luaK_jump_spec fs P : wf fs P [] -> lsafe (luaK_jump fs) (fun '(p, fs') => p = pc fs /\ extended [] [jmp_word] fs fs').
Proof.
  intros Hwf. assert (jpc fs = NO_JUMP) as Hj by apply Hwf. unfold luaK_jump. rewrite Hj.
  assert (with_jumps (lasttarget fs) NO_JUMP fs = fs) as -> by (rewrite <- Hj; by destruct fs).
  eapply lsafe_bind; [unfold luaK_codeAsBx, luaK_codeABx; by eapply luaK_code_spec|].
  intros [p fs1] [-> H1]. done.
Qed.

Lemma condjump_spec o a b c fs P J : wf fs P J -> 0 < pc fs + 1 -> o <> OP_LOADNIL ->
  0 <= a <= MAXARG_A -> 0 <= b <= MAXARG_B -> 0 <= c <= MAXARG_C ->
  lsafe (condjump o a b c fs) (fun '(p, fs') => p = pc fs + 1 /\ extended J [CREATE_ABC (of_opcode o) a b c; jmp_word] fs fs').
Proof.
  intros Hwf _ Ho Ha Hb Hc. unfold condjump. eapply lsafe_bind; [by eapply luaK_codeABC_spec|]. intros [p fs1] [-> H1].
  eapply lsafe_mono; [apply (luaK_jump_spec _ P)|].
  - eapply ext_wf; [done..|]. intros w ->%list_elem_of_singleton. rewrite is_op_iff. destruct (create_abc_fields o a b c) as (-> & _); [done..|].
    intros E%of_opcode_inj. done.
  - intros [q fs2] [-> H2]. split; [by rewrite (ext_pc _ _ _ _ H1)|]. by apply (extended_trans J [_] [_] _ fs1).
Qed.

(** ** Registers and constants *)

(** The flow of control is the same; constants and registers may be more. *)
Record same_flow (fs fs' : FuncState) : Prop := {
  flow_code : code fs' = code fs;
  flow_jpc : jpc fs' = jpc fs;
  flow_target : lasttarget fs' = lasttarget fs;
  flow_nactvar : nactvar fs' = nactvar fs;
  flow_h_addr : h_addr fs' = h_addr fs;
  flow_k : k fs `prefix_of` k fs';
  flow_stack : maxstacksize fs <= maxstacksize fs';
}.

Lemma same_flow_trans a b c : same_flow a b -> same_flow b c -> same_flow a c.
Proof. intros [C1 J1 T1 N1 A1 K1 S1] [C2 J2 T2 N2 A2 K2 S2]. split; try congruence; [by etrans|lia]. Qed.

Lemma jump_ok_code fs fs' j : code fs' = code fs -> jump_ok fs j -> jump_ok fs' j.
Proof. intros E. destruct (same_code_at _ _ E) as [_ Ec]. by apply jump_ok_ext. Qed.

Lemma flow_wf fs fs' P J : same_flow fs fs' -> wf fs P J -> pool_ok fs' -> nactvar fs <= freereg fs' <= maxstacksize fs' ->
  maxstacksize fs' < MAXSTACK -> wf fs' P J.
Proof.
  intros [Ec Ej Et En _ _ Hs] Hwf Hpool Hf Hm. destruct (same_code_at _ _ Ec) as [Hpc Hcode]. pose proof (wf_nactvar _ _ _ Hwf).
  split; rewrite ?Ej, ?Et, ?En, ?Hpc; try done; try lia.
  - destruct (wf_jumps _ _ _ Hwf) as [Hnd Hok]. split; [done|]. eapply Forall_impl; [done|]. intros j. by apply jump_ok_code.
  - apply (jchain_ext fs); [by intros|apply Hwf].
  - apply Hwf.
  - apply Hwf.
  - intros i w. rewrite Hcode. intros Hw Hn. pose proof (wf_nil _ _ _ Hwf i w Hw Hn). lia.
Qed.

Lemma flow_agree cl M fs fs' n P J : same_flow fs fs' -> agree cl M fs' n P J -> agree cl M fs n P J.
Proof.
  intros [Ec Ej Et En _ Hk Hs] Ha. destruct (same_code_at _ _ Ec) as [Hpc Hcode]. eapply agree_back; [done|done|done|lia|].
  intros i w Hi Hw. exists w. rewrite Hcode. split; [done|]. intros w'. unfold role_of, last_nil. by rewrite Hpc, Et.
Qed.
Lemma flow_clean cl M fs fs' s : same_flow fs fs' -> clean cl M fs s -> clean cl M fs' s.
Proof.
  intros [Ec _ Et En _ _ _]. destruct (same_code_at _ _ Ec) as [Hpc Hcode]. unfold clean. rewrite Hpc, Et, En. by setoid_rewrite Hcode.
Qed.

Lemma flow_regs free max fs : maxstacksize fs <= max -> same_flow fs (with_regs free max fs).
Proof. done. Qed.

Lemma luaK_reserveregs_spec n fs P J : wf fs P J -> 0 <= n ->
  lsafe (luaK_reserveregs n fs) (fun fs' => freereg fs' = freereg fs + n /\ same_flow fs fs' /\ wf fs' P J).
Proof.
  intros Hwf Hn. unfold luaK_reserveregs, luaK_checkstack. pose proof (wf_nactvar _ _ _ Hwf). pose proof (wf_freereg _ _ _ Hwf).
  pose proof (wf_stack _ _ _ Hwf) as Hm. change MAXSTACK with 250 in *.
  destruct (Z.ltb_spec (maxstacksize fs) (freereg fs + n)).
  - destruct (Z.leb_spec 250 (freereg fs + n)); [done|]. cbn.
    assert (u8 (freereg fs + n) = freereg fs + n) as -> by (unfold uwrap; apply Z.mod_small; lia).
    split; [done|]. assert (same_flow fs (with_freereg (freereg fs + n) (with_regs (freereg fs) (freereg fs + n) fs))) as Hfl by (split; cbn; done || lia).
    split; [done|]. eapply flow_wf; [done|done|exact (pool_ok_regs _ _ _ _ _ Hwf)|cbn; lia|cbn; change MAXSTACK with 250; lia].
  - cbn. split; [done|]. assert (same_flow fs (with_freereg (freereg fs + n) fs)) as Hfl by (split; cbn; done || lia).
    split; [done|]. eapply flow_wf; [done|done|exact (pool_ok_regs _ _ _ _ _ Hwf)|cbn; lia|apply Hwf].
Qed.

Lemma with_freereg_wf free fs P J : wf fs P J -> nactvar fs <= free <= freereg fs -> same_flow fs (with_freereg free fs) /\ wf (with_freereg free fs) P J.
Proof.
  intros Hwf Hf. assert (same_flow fs (with_freereg free fs)) as Hfl by (split; cbn; done || lia). split; [done|].
  pose proof (wf_freereg _ _ _ Hwf). eapply flow_wf; [done|done|exact (pool_ok_regs _ _ _ _ _ Hwf)|cbn; lia|apply Hwf].
Qed.

(** Constants are the same value or not equal, zeros of the two signs aside. *)
Lemma rawequal_same a b : luaO_rawequalObj a b = true -> minus_zero a = false -> minus_zero b = false -> a = b.
Proof.
  destruct a, b; cbn; try done.
  - intros E%eqb_prop. by subst.
  - intros ->%Z.eqb_eq. done.
  - unfold luai_numeq. intros E Ha Hb. f_equal. destruct (n =? n0) eqn:En; [lia|].
    rewrite orb_false_l in E. apply andb_true_iff in E as [_ [E1 E2]%andb_true_iff]. rewrite E1 in Ha. rewrite E2 in Hb. cbn in *. lia.
  - intros [->%bool_decide_eq_true ->%Z.eqb_eq]%andb_true_iff. done.
  - intros ->%Z.eqb_eq. done.
Qed.

Lemma h_slot_found key t n : h_slot key t = TNumber n -> exists a, luaO_rawequalObj a key = true /\ (a, TNumber n) ∈ t.
Proof.
  induction t as [|[a v] t IH]; cbn; [done|]. destruct (luaO_rawequalObj a key) eqn:E.
  - intros ->. exists a. split; [done|]. apply list_elem_of_here.
  - intros H. destruct (IH H) as (b & ? & ?). exists b. split; [done|]. by apply list_elem_of_further.
Qed.
Lemma h_store_forall (Q : tvalue * tvalue -> Prop) key v t : Forall Q t -> (forall a, a = key \/ luaO_rawequalObj a key = true /\ a ∈ t.*1 -> Q (a, v)) ->
  Forall Q (h_store key v t).
Proof.
  intros HQ Hnew. induction HQ as [|[a w] t Ha HQ IH]; cbn; [constructor; [apply Hnew; by left|constructor]|].
  destruct (luaO_rawequalObj a key) eqn:E; (constructor; [|]); [|done|done|].
  - apply Hnew. right. split; [done|]. apply list_elem_of_here.
  - apply IH. intros b [->|[Hb Hin]]; apply Hnew; [by left|]. right. split; [done|]. by apply list_elem_of_further.
Qed.

Lemma addk_spec key v fs P J : wf fs P J -> h_error key = None -> minus_zero key = false -> constant_of fs key = v ->
  lsafe (addk key v fs) (fun '(i, fs') => 0 <= i < nk fs' /\ k fs' !! Z.to_nat i = Some v /\ same_flow fs fs' /\ wf fs' P J /\
    freereg fs' = freereg fs /\ i <= nk fs).
Proof.
  intros Hwf Herr Hz Hv. unfold addk. rewrite Herr. destruct (wf_pool _ _ _ Hwf) as [Hent Hsize].
  assert (forall a, luaO_rawequalObj a key = true -> a ∈ (h fs).*1 -> a = key) as Hkey.
  { intros a E ([b x] & -> & Hin)%list_elem_of_fmap. rewrite Forall_forall in Hent. apply (Hent _) in Hin as [Hz' _]. by apply rawequal_same. }
  change MAXARG_Bx with 262143 in *.
  assert (match h_slot key (h fs) with TNumber n => True | _ => True end) as _ by by destruct (h_slot key (h fs)).
  destruct (h_slot key (h fs)) eqn:Eslot.
  4: { apply h_slot_found in Eslot as (a & E & Hin). assert (a = key) as -> by (apply Hkey; [done|]; by apply (list_elem_of_fmap_2 fst) in Hin).
       rewrite Forall_forall in Hent. apply Hent in Hin as (_ & i & [= ->] & Hi & Hk). cbn [lsafe lret].
       rewrite number2int_cast by (unfold INT_MIN, INT_MAX; lia). rewrite Hk, Hv. split; [done|]. split; [done|]. split; [done|]. split; [done|]. split; [done|lia]. }
  all: destruct (Z.leb_spec 262143 (nk fs)); [done|]; cbn [lsafe lret];
    set (fs' := with_k (k fs ++ [v]) (h_store key (TNumber (cast_num (nk fs))) (h fs)) fs);
    assert (nk fs' = nk fs + 1) as Hnk by (unfold nk, fs'; cbn; rewrite length_app; cbn; lia);
    assert (0 <= nk fs) as Hnk0 by (unfold nk; lia);
    assert (k fs' !! Z.to_nat (nk fs) = Some v) as Hlk
      by (unfold fs', nk; cbn; rewrite lookup_app_r by lia; by replace (Z.to_nat (Z.of_nat (length (k fs))) - length (k fs))%nat with 0%nat by lia);
    assert (same_flow fs fs') as Hfl by (split; cbn; first [done|by eexists|lia]);
    (split; [lia|]; split; [done|]; split; [done|]; split; [|split; [done|lia]]);
    (eapply flow_wf; [done|done| |pose proof (wf_nactvar _ _ _ Hwf); pose proof (wf_freereg _ _ _ Hwf); unfold fs'; cbn; lia|apply Hwf]);
    (split; [|change MAXARG_Bx with 262143; lia]);
    (apply h_store_forall; [|]);
    [ eapply Forall_impl; [exact Hent|]; intros [a x] (Ha & i & -> & Hi & Hk); (split; [done|]); exists i; (split; [done|]); (split; [lia|]);
      unfold fs'; cbn; (rewrite lookup_app_l; [done|]); by apply lookup_lt_Some in Hk
    | intros a Ha; assert (a = key) as -> by (destruct Ha as [->|[E Hin]]; [done|by apply Hkey]); (split; [done|]);
      exists (nk fs); (split; [done|]); (split; [lia|]); by rewrite Hlk; rewrite <- Hv ].
Qed.

(** ** Labels and lists *)

(** Words change at the positions [X] only, which hold jumps before and after. *)
Record rewired (X : list Z) (fs fs' : FuncState) : Prop := {
  rewired_other i : i ∉ X -> code_at fs' i = code_at fs i;
  rewired_jump i : i ∈ X -> exists w, code_at fs' i = Some w /\ is_op OP_JMP w = true;
  rewired_rest : same_rest fs fs';
  rewired_pc : pc fs' = pc fs;
}.
Lemma rewired_jump_ok X fs fs' j : rewired X fs fs' -> jump_ok fs j -> jump_ok fs' j.
Proof.
  intros H Hj. split.
  - destruct (decide (j ∈ X)); [by apply H|]. rewrite (rewired_other _ _ _ H) by done. apply Hj.
  - intros Hle. destruct (decide (j - 1 ∈ X)) as [Hin|Hin].
    + destruct (rewired_jump _ _ _ H _ Hin) as (w & Hw & Hjmp). exists w, (testTMode OP_JMP). split; [done|]. by apply is_op_test.
    + rewrite (rewired_other _ _ _ H) by done. by apply Hj.
Qed.
Lemma rewired_setter X fs fs' j : rewired X fs fs' -> (forall i, i ∈ X -> jump_ok fs i) -> setter fs' j = setter fs j.
Proof.
  intros H HX. unfold setter. destruct (decide (j - 1 ∈ X)) as [Hin|Hin]; [|by rewrite (rewired_other _ _ _ H)].
  destruct (rewired_jump _ _ _ H _ Hin) as (w & -> & Hw). destruct (jump_word _ _ (HX _ Hin)) as (w' & -> & Hw'). cbn.
  by rewrite (is_op_other OP_JMP OP_TESTSET w), (is_op_other OP_JMP OP_TESTSET w').
Qed.
Lemma rewired_word X fs fs' i w : rewired X fs fs' -> code_at fs i = Some w -> exists w1, code_at fs' i = Some w1 /\ (i ∉ X -> w1 = w).
Proof.
  intros Hl Hw. destruct (decide (i ∈ X)) as [Hi|Hi].
  - destruct (rewired_jump _ _ _ Hl i Hi) as (w1 & ? & _). by exists w1.
  - exists w. by rewrite (rewired_other _ _ _ Hl).
Qed.

(** Jumps may be linked, and pending ones may be sent here. *)
Lemma rewired_agree cl M X fs fs' n P J P' J' :
  agree cl M fs' n P' J' -> rewired X fs fs' -> wf fs P J -> X ⊆ P ++ J -> lasttarget fs' = lasttarget fs \/ lasttarget fs' = pc fs ->
  (forall j, j ∈ P -> j ∈ P' \/ j ∈ J') -> (forall j, j ∈ J -> j ∈ J' /\ j ∉ P') -> (forall j, j ∉ P -> j ∉ J -> j ∉ P' /\ j ∉ J') ->
  agree cl M fs n P J.
Proof.
  intros Ha Hl Hwf HX Ht HP HJ Hn. pose proof (agree_stack _ _ _ _ _ _ Ha) as HM.
  pose proof (rewired_pc _ _ _ Hl) as Hpc. destruct (rewired_rest _ _ _ Hl) as [Hk _ _ _ _ Hs].
  eapply agree_back; [done|done|by rewrite Hk|lia|]. intros i w Hi Hw. destruct (rewired_word _ _ _ _ _ Hl Hw) as (w1 & Hw1 & E).
  exists w1. split; [done|]. intros w'. unfold role_of at 2. destruct (decide (i ∈ P)) as [HiP|HiP].
  { rewrite bool_decide_eq_true_2 by done. unfold role_of. destruct (HP i HiP) as [Hin|Hin]; [by rewrite bool_decide_eq_true_2|]. case_bool_decide; [done|].
    rewrite bool_decide_eq_true_2 by done. by intros [? _]. }
  rewrite (bool_decide_eq_false_2 (i ∈ P)) by done. destruct (decide (i ∈ J)) as [HiJ|HiJ].
  { rewrite bool_decide_eq_true_2 by done. destruct (HJ i HiJ). unfold role_of. rewrite bool_decide_eq_false_2, bool_decide_eq_true_2 by done. by rewrite Hpc. }
  rewrite (bool_decide_eq_false_2 (i ∈ J)) by done.
  destruct (Hn i HiP HiJ) as [HiP' HiJ']. assert (w1 = w) as -> by (apply E; intros Hin%HX; set_solver).
  unfold role_of. rewrite (bool_decide_eq_false_2 (i ∈ P')), (bool_decide_eq_false_2 (i ∈ J')) by done.
  destruct (is_op OP_TESTSET w) eqn:Et.
  - destruct (decide (i + 1 ∈ P)) as [H1|H1]; [rewrite (bool_decide_eq_true_2 (i + 1 ∈ P)) by done|rewrite (bool_decide_eq_false_2 (i + 1 ∈ P)) by done].
    + destruct (HP _ H1) as [Hin|Hin]; [by rewrite bool_decide_eq_true_2|]. case_bool_decide; [done|].
      rewrite bool_decide_eq_true_2 by done. by left.
    + destruct (decide (i + 1 ∈ J)) as [H2|H2]; [rewrite (bool_decide_eq_true_2 (i + 1 ∈ J)) by done|rewrite (bool_decide_eq_false_2 (i + 1 ∈ J)) by done].
      * destruct (HJ _ H2). by rewrite bool_decide_eq_false_2, bool_decide_eq_true_2.
      * destruct (Hn _ H1 H2). by rewrite !bool_decide_eq_false_2.
  - unfold last_nil. rewrite Hpc. destruct Ht as [->| ->]; [done|]. rewrite Z.ltb_irrefl, andb_false_r. intros Hf. cbn [fits] in Hf. subst w'.
    destruct (is_op OP_LOADNIL w) eqn:Hnil; cbn [andb]; [|done]. destruct (Z.eqb_spec (i + 1) (pc fs)); cbn [andb]; [|done].
    destruct (Z.ltb_spec (lasttarget fs) (pc fs)); [|done]. split; [done|]. split; [done|].
    assert (i = pc fs - 1) as -> by lia. pose proof (wf_nil _ _ _ Hwf _ _ Hw Hnil). lia.
Qed.

Lemma rewired_wf X fs fs' P J P' J' : rewired X fs fs' -> wf fs P J -> X ⊆ P ++ J ->
  lasttarget fs' <= pc fs -> J' = [] \/ lasttarget fs' = pc fs -> chain fs' (jpc fs') J' -> P' ++ J' ≡ₚ P ++ J -> wf fs' P' J'.
Proof.
  intros Hl Hwf HX Ht Hlab Hc Hperm. destruct (wf_jumps _ _ _ Hwf) as [Hnd Hok]. rewrite Forall_forall in Hok.
  destruct (rewired_rest _ _ _ Hl) as [Hk Hh Ha Hf Hn Hs]. pose proof (rewired_pc _ _ _ Hl) as Hpc.
  split; rewrite ?Hf, ?Hn, ?Hs, ?Hpc; try done; try apply Hwf.
  - split; [by rewrite Hperm|]. apply Forall_forall. intros j Hj. rewrite Hperm in Hj. apply (rewired_jump_ok X fs); [done|by apply Hok].
  - intros i w Hw Hnil. apply (wf_nil _ _ _ Hwf i w); [|done]. destruct (decide (i ∈ X)) as [Hin|Hin].
    + destruct (rewired_jump _ _ _ Hl _ Hin) as (x & Hx & Hj). rewrite Hw in Hx. injection Hx as ->.
      by rewrite (is_op_other OP_JMP OP_LOADNIL x) in Hnil.
    + by rewrite <- (rewired_other _ _ _ Hl).
  - eapply pool_ok_eq; [done..|apply Hwf].
Qed.

Lemma linked_rewired X fs fs' : linked X fs fs' -> rewired X fs fs'.
Proof. intros [Hs Ho Hj]. split; [done|done|by apply same_shape_rest|by apply same_shape_pc]. Qed.
Lemma rewired_trans X fs fs1 fs2 : rewired X fs fs1 -> rewired X fs1 fs2 -> rewired X fs fs2.
Proof.
  intros [O1 J1 R1 P1] [O2 J2 R2 P2]. split; [|done|by eapply same_rest_trans|congruence]. intros i Hi. by rewrite O2, O1.
Qed.
Lemma with_jumps_rewired X fs l j : (forall i, i ∈ X -> jump_ok fs i) -> rewired X fs (with_jumps l j fs).
Proof. intros HX. split; [done| |done|done]. intros i Hi. apply (jump_word _ _ (HX i Hi)). Qed.

Lemma luaK_patchtohere_spec l L fs P J : wf fs (L ++ P) J -> chain fs l L ->
  lsafe (luaK_patchtohere l fs) (fun fs' => wf fs' P (J ++ L) /\ rewired J fs fs' /\ lasttarget fs' = pc fs /\
    forall cl M, agree cl M fs' (pc fs) P (J ++ L) -> agree cl M fs (pc fs) (L ++ P) J).
Proof.
  intros Hwf Hc. unfold luaK_patchtohere, luaK_getlabel. set (fs0 := with_jumps (pc fs) (jpc fs) fs).
  destruct (wf_jumps _ _ _ Hwf) as [Hnd Hok]. rewrite Forall_forall in Hok.
  assert (NoDup (J ++ L)) as HndJL.
  { apply NoDup_app in Hnd as ([? _]%NoDup_app & Hd & ?). apply NoDup_app. split; [done|]. split; [|done]. intros x Hx Hx'. apply (Hd x); set_solver. }
  assert (forall i, jump_ok fs i -> jump_ok fs0 i) as Hok0 by (intros i; by apply jump_ok_code).
  assert (forall i, i ∈ J -> jump_ok fs i) as HokJ by (intros i Hi; apply Hok; set_solver).
  eapply lsafe_bind; [apply (luaK_concat_spec (jpc fs0) l J L)|].
  - apply (jchain_ext fs); [done|apply Hwf].
  - by apply (jchain_ext fs).
  - done.
  - intros i Hi. apply Hok0, Hok. set_solver.
  - intros [j fs1] [Hch Hl]. cbn [lsafe lret]. apply linked_rewired in Hl as Hrw. destruct (linked_shape _ _ _ Hl) as (c & E & Hlc).
    assert (rewired J fs (with_jumps (lasttarget fs1) j fs1)) as Hr.
    { eapply rewired_trans; [by apply (with_jumps_rewired J fs (pc fs) (jpc fs))|]. eapply rewired_trans; [exact Hrw|].
      apply with_jumps_rewired. intros i Hi. by apply (rewired_jump_ok J fs0), Hok0, HokJ. }
    assert (lasttarget (with_jumps (lasttarget fs1) j fs1) = pc fs) as Ht by (by rewrite E).
    assert (P ++ J ++ L ≡ₚ (L ++ P) ++ J) as Hperm by solve_Permutation.
    split; [|split; [done|split; [done|]]].
    + eapply (rewired_wf J fs); [done|done|set_solver|by rewrite Ht|by right| |done]. by apply (jchain_ext fs1).
    + intros cl M Ha. eapply (rewired_agree cl M J); [done|done|done|set_solver|by right|set_solver|..].
      * intros i Hi. split; [set_solver|]. apply NoDup_app in Hnd as (_ & Hd & _). intros Hi'. apply (Hd i); set_solver.
      * set_solver.
Qed.

Lemma luaK_getlabel_spec fs P J : wf fs P J ->
  luaK_getlabel fs = (pc fs, with_jumps (pc fs) (jpc fs) fs) /\ wf (with_jumps (pc fs) (jpc fs) fs) P J /\
  forall cl M n, agree cl M (with_jumps (pc fs) (jpc fs) fs) n P J -> agree cl M fs n P J.
Proof.
  intros Hwf. assert (rewired [] fs (with_jumps (pc fs) (jpc fs) fs)) as Hr by (apply with_jumps_rewired; set_solver).
  split; [done|]. split; [eapply (rewired_wf []); [done|done|set_solver|done|by right|apply (jchain_ext fs); [done|apply Hwf]|done]|].
  intros cl M n Ha. eapply (rewired_agree cl M []); [done|done|done|set_solver|by right|by left| |done].
  intros j Hj. split; [done|]. intros Hj'. destruct (wf_pending_ok _ _ _ j Hwf Hj'). done.
Qed.

(** Patching a pending list to final targets. *)
Section Patching.
Variables (L : list Z) (reg vt dt : Z) (fs fs' : FuncState) (P J : list Z).
Hypothesis Hp : patched L reg vt dt fs fs'.
Hypothesis Hwf : wf fs (L ++ P) J.

Lemma patched_rest : same_rest fs fs' /\ lasttarget fs' = lasttarget fs /\ jpc fs' = jpc fs.
Proof using Hp. destruct (patched_shape _ _ _ _ _ _ Hp) as (c & -> & _). done. Qed.

Lemma patched_wf : wf fs' P J.
Proof using Hp Hwf.
  destruct patched_rest as ([Hk Hh Ha Hf Hn Hs] & Ht & Hj). pose proof (patched_pc _ _ _ _ _ _ Hp) as Hpc.
  destruct (wf_jumps _ _ _ Hwf) as [Hnd Hok]. rewrite Forall_forall in Hok.
  assert (forall i, i ∈ L -> jump_ok fs i) as HL by (intros i Hi; apply Hok; set_solver).
  split; rewrite ?Ht, ?Hj, ?Hf, ?Hn, ?Hs, ?Hpc; try apply Hwf.
  - split; [by rewrite <- app_assoc in Hnd; apply NoDup_app in Hnd as (_ & _ & ?)|]. apply Forall_forall. intros j Hj'.
    apply (patched_jump_ok _ _ _ _ _ _ Hp); [done|]. apply Hok. set_solver.
  - eapply (patched_chain _ _ _ _ _ _ Hp); [|done|apply Hwf]. intros j Hin. split; [apply Hok; set_solver|].
    intros Hin'. apply NoDup_app in Hnd as (_ & Hd & _). apply (Hd j); set_solver.
  - intros i w Hw Hnil. destruct (code_at fs i) as [x|] eqn:Hx.
    + rewrite (patched_words _ _ _ _ _ _ Hp _ _ Hx) in Hw. injection Hw as <-. rewrite (patch_word_nil fs L) in Hnil |- * by done. by apply (wf_nil _ _ _ Hwf i).
    + apply code_at_bounds in Hw. rewrite Hpc in Hw. apply code_at_some in Hw as [? ?]. congruence.
  - eapply pool_ok_eq; [done..|apply Hwf].
Qed.

Lemma patched_agree cl M n : agree cl M fs' n P J -> 0 <= reg < M -> agree cl M fs n (L ++ P) J.
Proof using Hp Hwf.
  intros Ha Hreg. destruct patched_rest as ([Hk _ _ _ _ Hs] & Ht & _). pose proof (patched_pc _ _ _ _ _ _ Hp) as Hpc.
  destruct (wf_jumps _ _ _ Hwf) as [Hnd Hok]. rewrite Forall_forall in Hok.
  assert (forall i, i ∈ L -> jump_ok fs i) as HL by (intros i Hi; apply Hok; set_solver).
  assert (forall i, i ∈ L -> i ∉ P /\ i ∉ J) as Hdis.
  { rewrite <- app_assoc in Hnd. apply NoDup_app in Hnd as (_ & Hd & _). intros i Hi. apply Hd in Hi. set_solver. }
  eapply agree_back; [done|done|by rewrite Hk|lia|]. intros i w Hi Hw. eexists. split; [by apply (patched_words _ _ _ _ _ _ Hp)|].
  intros w'. unfold patch_word. unfold role_of at 2. destruct (decide (i ∈ L)) as [HiL|HiL].
  - destruct (Hdis i HiL). rewrite (bool_decide_eq_true_2 (i ∈ L)), (bool_decide_eq_true_2 (i ∈ L ++ P)) by set_solver.
    destruct (jump_word _ _ (HL i HiL)) as (x & Hx & Hjmp). rewrite Hw in Hx. injection Hx as <-.
    assert (is_op OP_JMP (SETARG_sBx w (target fs vt dt i - (i + 1))) = true) as Hj by (by rewrite (is_op_same _ _ w) by apply set_sbx_opcode).
    unfold role_of, last_nil. rewrite !(bool_decide_eq_false_2 (i ∈ _)) by done.
    rewrite (is_op_other OP_JMP OP_TESTSET _ Hj), (is_op_other OP_JMP OP_LOADNIL _ Hj) by done. by intros ->.
  - rewrite (bool_decide_eq_false_2 (i ∈ L)) by done. rewrite (bool_decide_ext (i ∈ L ++ P) (i ∈ P)) by set_solver.
    destruct (is_op OP_TESTSET w) eqn:Et; cbn [andb].
    + destruct (decide (i ∈ P ++ J)) as [Hin|Hin].
      { exfalso. assert (jump_ok fs i) as Hj by (apply Hok; set_solver). by rewrite (jump_not_test _ _ _ Hj Hw) in Et. }
      rewrite (bool_decide_eq_false_2 (i ∈ P)), (bool_decide_eq_false_2 (i ∈ J)) by set_solver.
      destruct (decide (i + 1 ∈ L)) as [HL1|HL1].
      * rewrite (bool_decide_eq_true_2 (i + 1 ∈ L)), (bool_decide_eq_true_2 (i + 1 ∈ L ++ P)) by set_solver.
        destruct (Hdis _ HL1). assert (role_of fs' P J i (settest reg w) = Plain) as ->.
        { unfold role_of, last_nil. rewrite !(bool_decide_eq_false_2 (i ∈ _)), !(bool_decide_eq_false_2 (i + 1 ∈ _)) by set_solver.
          unfold settest. destruct (negb _ && negb _).
          - rewrite (is_op_same OP_TESTSET _ w), Et by apply set_a_opcode. done.
          - by rewrite (is_op_other OP_TEST OP_TESTSET _ (test_of_opcode w)), (is_op_other OP_TEST OP_LOADNIL _ (test_of_opcode w)). }
        intros ->. unfold settest. destruct (negb _ && negb _); [right; by exists reg|by left].
      * rewrite (bool_decide_eq_false_2 (i + 1 ∈ L)) by done. rewrite (bool_decide_ext (i + 1 ∈ L ++ P) (i + 1 ∈ P)) by set_solver.
        unfold role_of. by rewrite (bool_decide_eq_false_2 (i ∈ P)), (bool_decide_eq_false_2 (i ∈ J)), Et, Hpc by set_solver.
    + unfold role_of, last_nil. by rewrite Et, Hpc, Ht.
Qed.
End Patching.

Lemma stripped_wf L fs fs' P J : stripped L fs fs' -> wf fs P J -> wf fs' P J.
Proof.
  intros Hs Hwf. destruct (stripped_shape _ _ _ Hs) as (c & E & Hc). pose proof (stripped_pc _ _ _ Hs) as Hpc.
  destruct (wf_jumps _ _ _ Hwf) as [Hnd Hok]. rewrite Forall_forall in Hok.
  split; rewrite ?Hpc; try (rewrite E; apply Hwf).
  - split; [done|]. apply Forall_forall. intros j Hj. by apply (stripped_jump_ok _ _ _ Hs), Hok.
  - assert (jpc fs' = jpc fs) as -> by (by rewrite E). apply (stripped_chain _ _ _ Hs); [|apply Hwf]. intros j Hj. apply Hok. set_solver.
  - intros i w Hw Hnil. destruct (code_at fs i) as [x|] eqn:Hx.
    + rewrite (stripped_words _ _ _ Hs _ _ Hx) in Hw. injection Hw as <-. assert (maxstacksize fs' = maxstacksize fs) as -> by (by rewrite E).
      destruct (is_op OP_TESTSET x && _); [by rewrite (is_op_other OP_TEST OP_LOADNIL _ (test_of_opcode x)) in Hnil|by apply (wf_nil _ _ _ Hwf i)].
    + apply code_at_bounds in Hw. rewrite Hpc in Hw. apply code_at_some in Hw as [? ?]. congruence.
  - rewrite E. by apply (pool_ok_eq fs), Hwf.
Qed.
Lemma stripped_agree L fs fs' P J cl M n : stripped L fs fs' -> wf fs P J -> L ⊆ P -> agree cl M fs' n P J -> agree cl M fs n P J.
Proof.
  intros Hs Hwf HL Ha. destruct (stripped_shape _ _ _ Hs) as (c & E & Hc). pose proof (stripped_pc _ _ _ Hs) as Hpc.
  destruct (wf_jumps _ _ _ Hwf) as [Hnd Hok]. rewrite Forall_forall in Hok.
  eapply agree_back; [done|done|by rewrite E|by rewrite E|]. intros i w Hi Hw. eexists. split; [by apply (stripped_words _ _ _ Hs)|]. intros w'.
  destruct (is_op OP_TESTSET w) eqn:Et; cbn [andb].
  - destruct (decide (i ∈ P ++ J)) as [Hin|Hin].
    { exfalso. assert (jump_ok fs i) as Hj by (apply Hok; set_solver). by rewrite (jump_not_test _ _ _ Hj Hw) in Et. }
    rewrite Hpc. unfold role_of. rewrite !(bool_decide_eq_false_2 (i ∈ _)), Et by set_solver. case_bool_decide as HiL; [|by rewrite Et].
    rewrite (bool_decide_eq_true_2 (i + 1 ∈ P)) by (by apply HL). unfold last_nil.
    rewrite (is_op_other OP_TEST OP_TESTSET _ (test_of_opcode w)), (is_op_other OP_TEST OP_LOADNIL _ (test_of_opcode w)) by done. intros ->. by left.
  - unfold role_of, last_nil. rewrite Et, Hpc. by rewrite E.
Qed.

(** ** Lists in the surroundings *)
Definition keeps (P : list Z) (fs fs' : FuncState) : Prop := forall j, j ∈ P -> code_at fs' j = code_at fs j /\ setter fs' j = setter fs j.

Lemma keeps_refl P fs : keeps P fs fs.
Proof. done. Qed.
Lemma keeps_trans P a b c : keeps P a b -> keeps P b c -> keeps P a c.
Proof. intros H1 H2 j Hj. destruct (H1 j Hj), (H2 j Hj). split; congruence. Qed.
Lemma keeps_mono P Q a b : P ⊆ Q -> keeps Q a b -> keeps P a b.
Proof. intros HP HQ j Hj. by apply HQ, HP. Qed.
Lemma keeps_chain P fs fs' l js : keeps P fs fs' -> js ⊆ P -> chain fs l js -> chain fs' l js.
Proof. intros Hk Hjs. apply jchain_ext. intros j Hj. by destruct (Hk j (Hjs j Hj)). Qed.
Lemma keeps_code P fs fs' : code fs' = code fs -> keeps P fs fs'.
Proof. intros E j _. destruct (same_code_at _ _ E) as [_ Ec]. unfold setter. by rewrite !Ec. Qed.
Lemma ext_keeps J ws P fs fs' : extended J ws fs fs' -> wf fs P J -> keeps P fs fs'.
Proof. intros He Hwf j Hj. by destruct (ext_pending _ _ _ _ _ He Hwf j Hj) as (? & ? & _). Qed.
Lemma rewired_keeps X P fs fs' : rewired X fs fs' -> (forall i, i ∈ X -> jump_ok fs i /\ i ∉ P) -> keeps P fs fs'.
Proof.
  intros Hr HX j Hj. split; [|apply (rewired_setter X); [done|]; intros i Hi; by apply HX]. apply (rewired_other _ _ _ Hr).
  intros Hin. by destruct (HX j Hin).
Qed.
Lemma patched_keeps L reg vt dt P fs fs' J : patched L reg vt dt fs fs' -> wf fs (L ++ P) J -> keeps P fs fs'.
Proof.
  intros Hp Hwf j Hj. destruct (wf_jumps _ _ _ Hwf) as [Hnd Hok]. rewrite Forall_forall in Hok.
  assert (forall i, i ∈ L -> jump_ok fs i) as HL by (intros i Hi; apply Hok; set_solver). assert (jump_ok fs j) as Hjo by (apply Hok; set_solver).
  assert (j ∉ L) as Hn. { intros Hin. apply NoDup_app in Hnd as ((_ & Hd & _)%NoDup_app & _ & _). by apply (Hd j). }
  split; [by destruct (patched_jump _ _ _ _ _ _ Hp j Hjo Hn HL) as [[? _]|[? _]]|by apply (patched_setter _ _ _ _ _ _ Hp)].
Qed.
Lemma stripped_keeps L P fs fs' : stripped L fs fs' -> (forall j, j ∈ P -> jump_ok fs j /\ j ∉ L) -> keeps P fs fs'.
Proof.
  intros Hs HP j Hj. destruct (HP j Hj) as [Hok Hn]. destruct (jump_word _ _ Hok) as (w & Hw & Hjmp). split.
  - rewrite Hw. apply (stripped_jump _ _ _ Hs); [done|]. by apply (is_op_other OP_JMP).
  - by rewrite (stripped_setter _ _ _ Hs), bool_decide_eq_false_2.
Qed.

(** ** Changing the last instructions *)
Lemma set_code_rest q w fs : same_rest fs (set_code q w fs) /\ lasttarget (set_code q w fs) = lasttarget fs /\ jpc (set_code q w fs) = jpc fs.
Proof. done. Qed.

Lemma set_code_wf q w i fs P J : wf fs P J -> code_at fs q = Some i -> (forall j, j ∈ P ++ J -> j <> q /\ j - 1 <> q) ->
  (is_op OP_LOADNIL w = true -> GETARG_A w <= GETARG_B w < maxstacksize fs) -> wf (set_code q w fs) P J.
Proof.
  intros Hwf Hi Hq Hnil. pose proof (code_at_bounds _ _ _ Hi) as Hb. destruct (wf_jumps _ _ _ Hwf) as [Hnd Hok]. rewrite Forall_forall in Hok.
  assert (forall j, j <> q -> code_at (set_code q w fs) j = code_at fs j) as E.
  { intros j Hj. rewrite code_at_set_code by done. by assert ((j =? q) = false) as -> by lia. }
  split; rewrite ?pc_set_code; try apply Hwf.
  - split; [done|]. apply Forall_forall. intros j Hj. destruct (Hq j Hj). apply (jump_ok_ext fs); [by apply E..|by apply Hok].
  - apply (jchain_ext fs); [|apply Hwf]. intros j Hj. apply E. destruct (Hq j); [set_solver|done].
  - intros x v. rewrite code_at_set_code by done. destruct (Z.eqb_spec x q); [|apply Hwf]. intros [= <-]. apply Hnil.
  - by apply (pool_ok_eq fs), Hwf.
Qed.

Lemma set_code_keeps q w i fs P : code_at fs q = Some i -> (forall j, j ∈ P -> j <> q /\ j - 1 <> q) -> keeps P fs (set_code q w fs).
Proof.
  intros Hi%code_at_bounds Hq j Hj. destruct (Hq j Hj). unfold setter. rewrite !code_at_set_code by done.
  by assert ((j =? q) = false) as -> by lia; assert ((j - 1 =? q) = false) as -> by lia.
Qed.

Lemma set_code_agree q w i fs P J cl M n n' : agree cl M (set_code q w fs) n' P J -> code_at fs q = Some i -> n <= q -> n <= n' ->
  agree cl M fs n P J.
Proof.
  intros Ha Hi Hn Hn'. pose proof (code_at_bounds _ _ _ Hi). eapply agree_back; [done|done|done|done|]. intros p v Hp Hv. exists v.
  rewrite code_at_set_code by done. assert ((p =? q) = false) as -> by lia. split; [done|]. intros w'. unfold role_of, last_nil.
  by rewrite pc_set_code.
Qed.

(** ** The order of lists does not matter *)
Lemma wf_perm fs P P' J : P ≡ₚ P' -> wf fs P J -> wf fs P' J.
Proof.
  intros HP Hwf. destruct (wf_jumps _ _ _ Hwf) as [Hnd Hok]. split; try apply Hwf. split; [by rewrite <- HP|by rewrite <- HP].
Qed.
Lemma agree_perm cl M fs n P P' J : P ≡ₚ P' -> agree cl M fs n P J -> agree cl M fs n P' J.
Proof.
  intros HP Ha. eapply agree_back; [done|done|done|done|]. intros i w Hi Hw. exists w. split; [done|]. intros w'. unfold role_of.
  by rewrite (bool_decide_ext (i ∈ P') (i ∈ P)), (bool_decide_ext (i + 1 ∈ P') (i + 1 ∈ P)) by (by rewrite HP).
Qed.

Lemma agree_plain cl M fs n P J q i : agree cl M fs n P J -> 0 <= q < n -> code_at fs q = Some i -> q ∉ P ++ J -> 
  (is_op OP_TESTSET i = true -> q + 1 ∉ P ++ J) -> is_op OP_LOADNIL i = false -> instr_at cl q = Some i.
Proof.
  intros Ha Hq Hi Hn Ht Hl. destruct (agree_words _ _ _ _ _ _ Ha q i Hq Hi) as (w' & Hw' & Hf). rewrite not_elem_of_app in Hn. destruct Hn as [Hn1 Hn2].
  assert (role_of fs P J q i = Plain) as Hr; [|rewrite Hr in Hf; cbn in Hf; by subst].
  unfold role_of, last_nil. rewrite !(bool_decide_eq_false_2 (q ∈ _)), Hl by done. destruct (is_op OP_TESTSET i); [|done].
  specialize (Ht eq_refl). rewrite not_elem_of_app in Ht. destruct Ht. by rewrite !bool_decide_eq_false_2.
Qed.

(** A jump to the end of the code. *)
Lemma agree_here cl M fs n P J q : agree cl M fs n P J -> wf fs P J -> q ∈ J -> q < n ->
  exists w, instr_at cl q = Some w /\ is_op OP_JMP w = true /\ q + 1 + GETARG_sBx w = pc fs.
Proof.
  intros Ha Hwf Hq Hn. destruct (jump_word _ _ (wf_here_ok _ _ _ _ Hwf Hq)) as (i & Hi & Hj).
  destruct (agree_words _ _ _ _ _ _ Ha q i ltac:(pose proof (code_at_bounds _ _ _ Hi); lia) Hi) as (w' & Hw' & Hf). exists w'. split; [done|].
  unfold role_of in Hf. rewrite bool_decide_eq_false_2 in Hf by (intros Hp; by destruct (wf_pending_ok _ _ _ _ Hwf Hp)).
  by rewrite bool_decide_eq_true_2 in Hf.
Qed.

(** A new pending jump. *)
Lemma wf_add fs P J j : wf fs P J -> jump_ok fs j -> j ∉ P ++ J -> wf fs (j :: P) J.
Proof.
  intros Hwf Hj Hn. destruct (wf_jumps _ _ _ Hwf) as [Hnd Hok]. split; try apply Hwf. split; [by constructor|by constructor].
Qed.

(** Code that is only emitted: what a final code of the new state is for the old one. *)
Record emits (P J ws : list Z) (fs fs' : FuncState) : Prop := {
  emits_pc : pc fs' = pc fs + Z.of_nat (length ws);
  emits_word m w : ws !! m = Some w -> code_at fs' (pc fs + Z.of_nat m) = Some w;
  emits_old i w : code_at fs i = Some w -> code_at fs' i = Some (patch_word fs J NO_REG (pc fs) (pc fs) i w);
  emits_wf : wf fs' P [];
  emits_keeps : keeps P fs fs';
  emits_rest : same_rest fs fs';
  emits_agree cl M n : pc fs <= n -> agree cl M fs' n P [] -> agree cl M fs (pc fs) P J;
}.

Lemma code_label_emits a b skip fs P J : wf fs P J -> 0 <= a <= MAXARG_A -> 0 <= b <= MAXARG_B -> 0 <= skip <= MAXARG_C ->
  lsafe (code_label a b skip fs) (fun '(p, fs') => p = pc fs /\ emits P J [CREATE_ABC (of_opcode OP_LOADBOOL) a b skip] fs fs').
Proof.
  intros Hwf Ha Hb Hs. unfold code_label. destruct (luaK_getlabel_spec _ _ _ Hwf) as (-> & Hwf0 & Hag). set (fs0 := with_jumps (pc fs) (jpc fs) fs) in *.
  eapply lsafe_mono; [by eapply luaK_codeABC_spec|]. intros [p fs'] [-> He]. split; [done|].
  destruct (create_abc_fields OP_LOADBOOL a b skip) as (Eo & _); [done..|].
  assert (keeps P fs fs0) as Hk0 by (by apply keeps_code).
  split.
  - apply (ext_pc _ _ _ _ He).
  - apply (ext_new _ _ _ _ He).
  - intros i w Hw. by apply (ext_word _ _ _ _ He).
  - eapply ext_wf; [done..|]. intros w ->%list_elem_of_singleton. rewrite is_op_iff, Eo. by intros E%of_opcode_inj.
  - eapply keeps_trans; [exact Hk0|]. by eapply ext_keeps.
  - eapply same_rest_trans; [|apply He]. done.
  - intros cl M n Hn Hagr. apply Hag. change (pc fs) with (pc fs0). eapply (ext_agree J [_] P); [done|done|exact Hagr|done|by intros|by intros ? ?%not_elem_of_nil| |cbn; lia].
    intros Hin. rewrite app_nil_r in Hin. destruct (wf_pending_ok _ _ _ _ Hwf0 Hin) as [Hok%jump_ok_bounds _]. lia.
Qed.

Lemma luaK_jump_emits fs P : wf fs P [] -> (1 <= pc fs -> exists w, code_at fs (pc fs - 1) = Some w /\ testT w = Some false) ->
  lsafe (luaK_jump fs) (fun '(j, fs') => j = pc fs /\ pc fs' = pc fs + 1 /\ code_at fs' j = Some jmp_word /\ wf fs' (j :: P) [] /\ keeps P fs fs' /\
    same_rest fs fs' /\ forall cl M n, pc fs <= n -> agree cl M fs' n (j :: P) [] -> agree cl M fs (pc fs) P []).
Proof.
  intros Hwf Hlast. eapply lsafe_mono; [by eapply luaK_jump_spec|]. intros [j fs'] [-> He]. pose proof (ext_pc _ _ _ _ He) as Hpc. cbn in Hpc.
  pose proof (ext_new _ _ _ _ He 0%nat _ eq_refl) as Hw. replace (pc fs + Z.of_nat 0) with (pc fs) in Hw by lia.
  assert (pc fs ∉ P) as Hn. { intros Hin. destruct (wf_pending_ok _ _ _ _ Hwf Hin) as [Hok%jump_ok_bounds _]. lia. }
  split; [done|]. split; [done|]. split; [done|]. split; [|split; [by eapply ext_keeps|split; [apply He|]]].
  - apply wf_add; [|split|by rewrite app_nil_r].
    + eapply ext_wf; [done..|]. intros w ->%list_elem_of_singleton. by rewrite (is_op_other OP_JMP OP_LOADNIL _ jmp_word_op).
    + exists jmp_word. split; [done|apply jmp_word_op].
    + intros Hle. destruct (Hlast Hle) as (w & Hw0 & Ht). exists w, false. split; [|done]. rewrite (ext_word _ _ _ _ He _ _ Hw0).
      unfold patch_word. by rewrite !bool_decide_eq_false_2, andb_false_r by apply not_elem_of_nil.
  - intros cl M n Hle Ha. eapply (ext_agree [] [_] P); [done|done|exact Ha|done| | | |cbn; lia].
    + intros i Hi. rewrite elem_of_cons. split; [intros [->|?]; [lia|done]|by right].
    + by intros i Hi%not_elem_of_nil.
    + intros _ w Hw0. destruct Hlast as (w1 & Hw1 & Ht); [by apply code_at_bounds in Hw0; lia|]. rewrite Hw0 in Hw1. injection Hw1 as <-.
      apply not_true_is_false. intros E%is_op_test. by rewrite E in Ht.
Qed.

Lemma agree_drop cl M fs n n' P J j : agree cl M fs n' (j :: P) J -> n <= n' -> n <= j - 1 -> j ∉ P -> agree cl M fs n P J.
Proof.
  intros Ha Hn Hj Hnj. eapply agree_back; [done|done|done|done|]. intros i w Hi Hw. exists w. split; [done|]. intros w'. unfold role_of.
  by rewrite (bool_decide_ext (i ∈ j :: P) (i ∈ P)), (bool_decide_ext (i + 1 ∈ j :: P) (i + 1 ∈ P)) by (rewrite elem_of_cons; split; [intros [E|?]; [lia|done]|by right]).
Qed.
Lemma agree_pending cl M fs n P J q : agree cl M fs n P J -> q ∈ P -> 0 <= q < n -> (exists w, code_at fs q = Some w) ->
  exists w, instr_at cl q = Some w /\ is_op OP_JMP w = true.
Proof.
  intros Ha Hq Hn [i Hi]. destruct (agree_words _ _ _ _ _ _ Ha q i Hn Hi) as (w' & Hw' & Hf). exists w'. split; [done|].
  unfold role_of in Hf. by rewrite bool_decide_eq_true_2 in Hf.
Qed.
