(* ===== verification/LCompile.v ===== *)
(** * What code in the making computes

    [coded] relates the state before an expression to a state behind (part of) its code:
    in every final code, execution from the first place either fails as the expression
    does, or leaves by a pending jump of the lists [T] and [F] with the value, true or
    false, or gets to the second place, where the value is given by [main]. *)
From stdpp Require Import base list option relations.
From Stdlib Require Import ZArith Lia ZifyBool.
From S2P Require Import Prelude LObject LNum LOpcodes LProto LVm LVmProps LCode LCodeJumps LExpr LFinal.
#[local] Open Scope Z_scope.

Definition same_below (lim : Z) (s s' : registers) : Prop := length s' = length s /\ forall i, i < lim -> rget s' i = rget s i.

Lemma same_below_refl lim s : same_below lim s s.
Proof. done. Qed.
Lemma same_below_trans lim a b c : same_below lim a b -> same_below lim b c -> same_below lim a c.
Proof. intros [L1 E1] [L2 E2]. split; [congruence|]. intros i Hi. by rewrite E2, E1. Qed.
Lemma same_below_mono n m s s' : n <= m -> same_below m s s' -> same_below n s s'.
Proof. intros Hn [Hl E]. split; [done|]. intros i Hi. apply E. lia. Qed.
Lemma same_below_set lim s i v s' : rset s i v = Some s' -> lim <= i -> same_below lim s s'.
Proof.
  intros E Hi. split; [by eapply rset_length|]. intros j Hj. rewrite (rget_rset _ _ _ _ j E). by assert ((j =? i) = false) as -> by lia.
Qed.

(** Where a jump of the final code leads. *)
Definition dest (cl : lclosure) (j : Z) : Z := match instr_at cl j with Some w => j + 1 + GETARG_sBx w | None => 0 end.

(** Growth of a state. *)
Record grows (fs fs' : FuncState) : Prop := {
  grows_nactvar : nactvar fs' = nactvar fs;
  grows_h_addr : h_addr fs' = h_addr fs;
  grows_stack : maxstacksize fs <= maxstacksize fs';
  grows_k : k fs `prefix_of` k fs';
  grows_pc : pc fs <= pc fs';
}.
Lemma grows_refl fs : grows fs fs.
Proof. done. Qed.
Lemma grows_trans a b c : grows a b -> grows b c -> grows a c.
Proof. intros [] []. split; try lia; try congruence. by etrans. Qed.
Lemma grows_flow fs fs' : same_flow fs fs' -> grows fs fs'.
Proof. intros []. split; try done. by rewrite (proj1 (same_code_at _ _ flow_code)). Qed.
Lemma grows_rest fs fs' : same_rest fs fs' -> pc fs <= pc fs' -> grows fs fs'.
Proof. intros [Hk _ Ha _ Hn Hs] Hp. split; [done|done|lia|by rewrite Hk|done]. Qed.
Lemma grows_nk fs fs' : grows fs fs' -> nk fs <= nk fs'.
Proof. intros [_ _ _ Hk%prefix_length _]. unfold nk. lia. Qed.

Section Compile.
Context {W : Type} `{CallsKeepFrame W}.

Abbreviation meaning := (lclosure -> registers -> W -> LuaM (tvalue * W)).

(** The jump [j] has been taken with the value [v], of truth [b]: a value test puts the
    value into its register. *)
Definition landed (fs : FuncState) (cl : lclosure) (j : Z) (b : bool) (v : tvalue) (s s' : registers) : Prop :=
  match setter fs j with
  | Some c => rget s (GETARG_B c) = Some v /\
      exists c', instr_at cl (j - 1) = Some c' /\ if is_op OP_TESTSET c' then rset s (GETARG_A c') v = Some s' else s' = s
  | None => v = TBoolean b /\ s' = s
  end.

Definition exits (fs : FuncState) (cl : lclosure) (L : list Z) (b : bool) (lim : Z) (s : registers) (f : frame W) (m : LuaM (tvalue * W)) : Prop :=
  exists j v w' s1 s', j ∈ L /\ m = lret (v, w') /\ l_isfalse v = negb b /\ same_below lim s s1 /\ landed fs cl j b v s1 s' /\
    reaches cl f (at_ s' (dest cl j) w').

Definition failing (cl : lclosure) (f : frame W) (m : LuaM (tvalue * W)) : Prop := m = None \/ exists msg, m = lerror msg /\ fails cl f msg.

(** From [f] to the position [n] behind the code of [fs]. *)
Definition arrives (fs : FuncState) (cl : lclosure) (M n lim : Z) (s : registers) (f : frame W) (main : registers -> W -> LuaM (tvalue * W))
    (m : LuaM (tvalue * W)) : Prop :=
  exists s' w', reaches cl f (at_ s' n w') /\ same_below lim s s' /\ clean cl M fs s' /\ main s' w' = m.

Record coded (fs0 : FuncState) (P J0 : list Z) (fs : FuncState) (n : Z) (T F J : list Z) (main m : meaning) : Prop := {
  coded_wf : wf fs (T ++ F ++ P) J;
  coded_keeps : keeps P fs0 fs;
  coded_grows : grows fs0 fs;
  coded_sem cl M : agree cl M fs n (T ++ F ++ P) J ->
    agree cl M fs0 (pc fs0) P J0 /\
    forall s w, Z.of_nat (length s) = M -> clean cl M fs0 s ->
      let f := at_ s (pc fs0) w in
      failing cl f (m cl s w) \/ exits fs cl T true (freereg fs0) s f (m cl s w) \/ exits fs cl F false (freereg fs0) s f (m cl s w) \/
      arrives fs cl M n (freereg fs0) s f (main cl) (m cl s w);
}.

Lemma coded_refl fs P J m : wf fs P J -> coded fs P J fs (pc fs) [] [] J m m.
Proof.
  intros Hwf. split; [done|done|done|]. intros cl M Ha. split; [done|]. intros s w Hl Hc. do 3 right. exists s, w.
  split; [apply reaches_refl|]. done.
Qed.

Lemma landed_keeps fs fs' cl j b v s s' : setter fs' j = setter fs j -> landed fs cl j b v s s' -> landed fs' cl j b v s s'.
Proof. unfold landed. by intros ->. Qed.
Lemma exits_keeps fs fs' cl L b lim s f m : keeps L fs fs' -> exits fs cl L b lim s f m -> exits fs' cl L b lim s f m.
Proof.
  intros Hk (j & v & w' & s1 & s' & Hj & ? & ? & ? & Hl & ?). exists j, v, w', s1, s'. do 4 (split; [done|]). split; [|done].
  eapply landed_keeps; [|done]. by apply Hk.
Qed.
Lemma exits_mono fs cl L L' b lim s f m : L ⊆ L' -> exits fs cl L b lim s f m -> exits fs cl L' b lim s f m.
Proof. intros HL (j & v & w' & s1 & s' & Hj & ?). exists j, v, w', s1, s'. split; [by apply HL|done]. Qed.

(** Code that may leave by new jumps. *)
Lemma coded_branch fs0 P J0 fs n T F J main m fs' n' T' F' J' main' :
  coded fs0 P J0 fs n T F J main m ->
  wf fs' (T' ++ F' ++ P) J' -> keeps P fs fs' -> grows fs fs' -> T ⊆ T' -> F ⊆ F' -> (forall j, j ∈ T ++ F -> setter fs' j = setter fs j) ->
  (forall cl M, agree cl M fs' n' (T' ++ F' ++ P) J' -> agree cl M fs n (T ++ F ++ P) J /\
     forall s w, Z.of_nat (length s) = M -> clean cl M fs s ->
       failing cl (at_ s n w) (main cl s w) \/ exits fs' cl T' true (freereg fs0) s (at_ s n w) (main cl s w) \/
       exits fs' cl F' false (freereg fs0) s (at_ s n w) (main cl s w) \/
       arrives fs' cl M n' (freereg fs0) s (at_ s n w) (main' cl) (main cl s w)) ->
  coded fs0 P J0 fs' n' T' F' J' main' m.
Proof.
  intros [Hwf Hk Hg Hs] Hwf' Hk' Hg' HT HF Hset Hstep. split; [done|by eapply keeps_trans|by eapply grows_trans|].
  intros cl M Ha'. destruct (Hstep cl M Ha') as [Ha Hp]. destruct (Hs cl M Ha) as [Ha0 Hr]. split; [done|].
  intros s w Hl Hc f.
  assert (forall L L' b, L ⊆ L' -> (forall j, j ∈ L -> setter fs' j = setter fs j) -> exits fs cl L b (freereg fs0) s f (m cl s w) ->
    exits fs' cl L' b (freereg fs0) s f (m cl s w)) as Hold.
  { intros L L' b HL Hsl (j & v & x & s1 & s' & Hj & ? & ? & ? & Hld & ?). exists j, v, x, s1, s'. split; [by apply HL|]. do 3 (split; [done|]). split; [|done].
    eapply landed_keeps; [|done]. by apply Hsl. }
  destruct (Hr s w Hl Hc) as [Hfail|[Ht|[Hf|(s1 & w1 & R1 & B1 & C1 & E1)]]].
  - by left.
  - right; left. eapply Hold; [done| |done]. intros j Hj. apply Hset, elem_of_app. by left.
  - do 2 right; left. eapply Hold; [done| |done]. intros j Hj. apply Hset, elem_of_app. by right.
  - rewrite <- E1.
    assert (forall L b, exits fs' cl L b (freereg fs0) s1 (at_ s1 n w1) (main cl s1 w1) -> exits fs' cl L b (freereg fs0) s f (main cl s1 w1)) as Hex.
    { intros L b (j & v & w' & s2 & s' & Hj & E & Hv & Hb & Hld & Hre). exists j, v, w', s2, s'. do 3 (split; [done|]).
      split; [by eapply same_below_trans|]. split; [done|by eapply reaches_trans]. }
    destruct (Hp s1 w1) as [[E|(msg & E & Hfs)]|[Hx|[Hx|(s2 & w2 & R2 & B2 & C2 & E2)]]].
    + destruct B1 as [-> _]. done.
    + done.
    + left. by left.
    + left. right. exists msg. split; [done|]. by eapply reaches_fails.
    + right; left. by apply Hex.
    + do 2 right; left. by apply Hex.
    + do 3 right. exists s2, w2. split; [by eapply reaches_trans|]. split; [by eapply same_below_trans|]. done.
Qed.

(** More code behind: from the value [main] to the value [main']. *)
Lemma coded_step fs0 P J0 fs n T F J main m fs' n' J' main' :
  coded fs0 P J0 fs n T F J main m ->
  wf fs' (T ++ F ++ P) J' -> keeps (T ++ F ++ P) fs fs' -> grows fs fs' ->
  (forall cl M, agree cl M fs' n' (T ++ F ++ P) J' -> agree cl M fs n (T ++ F ++ P) J /\
     forall s w, Z.of_nat (length s) = M -> clean cl M fs s ->
       failing cl (at_ s n w) (main cl s w) \/ arrives fs' cl M n' (freereg fs0) s (at_ s n w) (main' cl) (main cl s w)) ->
  coded fs0 P J0 fs' n' T F J' main' m.
Proof.
  intros Hc Hwf' Hk' Hg' Hstep. eapply coded_branch; [exact Hc|exact Hwf'|..]; try done.
  - eapply keeps_mono; [|exact Hk']. intros x Hx. rewrite !elem_of_app. tauto.
  - intros j Hj. apply Hk'. rewrite app_assoc. apply elem_of_app. by left.
  - intros cl M Ha. destruct (Hstep cl M Ha) as [Ha' Hp]. split; [done|]. intros s w Hl Hcl. destruct (Hp s w Hl Hcl); [by left|by do 3 right].
Qed.

(** The meaning may be written in another way. *)
Lemma coded_ext fs0 P J0 fs n T F J main m main' m' : coded fs0 P J0 fs n T F J main m ->
  (forall cl s w, main' cl s w = main cl s w) -> (forall cl s w, m' cl s w = m cl s w) -> coded fs0 P J0 fs n T F J main' m'.
Proof.
  intros [Hwf Hk Hg Hs] E1 E2. split; [done..|]. intros cl M Ha. destruct (Hs cl M Ha) as [Ha0 Hr]. split; [done|].
  intros s w Hl Hc f. rewrite E2. destruct (Hr s w Hl Hc) as [Hf|[Ht|[Hf|(s1 & w1 & R1 & B1 & C1 & E)]]]; [by left|by right; left|by do 2 right; left|].
  do 3 right. exists s1, w1. by rewrite E1.
Qed.

(** Two pieces of code, the first without jumps. *)
Lemma coded_trans fs0 P J0 fs1 J1 main1 m1 fs2 n2 T F J2 main2 m2 m :
  coded fs0 P J0 fs1 (pc fs1) [] [] J1 main1 m1 -> coded fs1 P J1 fs2 n2 T F J2 main2 m2 -> freereg fs0 <= freereg fs1 ->
  (forall cl s w, m1 cl s w = None -> m cl s w = None) -> (forall cl s w msg, m1 cl s w = lerror msg -> m cl s w = lerror msg) ->
  (forall cl s w s1 w1, same_below (freereg fs0) s s1 -> m1 cl s w <> None -> main1 cl s1 w1 = m1 cl s w -> m2 cl s1 w1 = m cl s w) ->
  coded fs0 P J0 fs2 n2 T F J2 main2 m.
Proof.
  intros [Hwf1 Hk1 Hg1 Hs1] [Hwf2 Hk2 Hg2 Hs2] Hfree Hnone Herr Hm. split; [done|by eapply keeps_trans|by eapply grows_trans|].
  intros cl M Ha2. destruct (Hs2 cl M Ha2) as [Ha1 Hr2]. destruct (Hs1 cl M Ha1) as [Ha0 Hr1]. split; [done|].
  intros s w Hl Hc f. destruct (Hr1 s w Hl Hc) as [[E|(msg & E & Hf)]|[(j & ? & ? & ? & ? & Hj & _)|[(j & ? & ? & ? & ? & Hj & _)|(s1 & w1 & R1 & B1 & C1 & E1)]]];
    [left; left; auto|left; right; exists msg; auto|set_solver|set_solver|].
  assert (Z.of_nat (length s1) = M) as Hl1 by (destruct B1 as [-> _]; done).
  destruct (m1 cl s w) as [o|] eqn:E0; [|left; left; auto]. rewrite <- E0 in E1. assert (m1 cl s w <> None) as Hne by (by rewrite E0).
  rewrite <- (Hm cl s w s1 w1 B1 Hne E1).
  assert (forall L b, exits fs2 cl L b (freereg fs1) s1 (at_ s1 (pc fs1) w1) (m2 cl s1 w1) -> exits fs2 cl L b (freereg fs0) s f (m2 cl s1 w1)) as Hex.
  { intros L b (j & v & w' & s2 & s' & Hj & E & Hv & Hb & Hld & Hre). exists j, v, w', s2, s'. do 3 (split; [done|]).
    split; [|split; [done|by eapply reaches_trans]]. eapply same_below_trans; [done|]. by eapply same_below_mono. }
  destruct (Hr2 s1 w1 Hl1 C1) as [[E|(msg & E & Hf)]|[Ht|[Hf|(s2 & w2 & R2 & B2 & C2 & E2)]]].
  - left. by left.
  - left. right. exists msg. split; [done|]. by eapply reaches_fails.
  - right; left. by apply Hex.
  - do 2 right; left. by apply Hex.
  - do 3 right. exists s2, w2. split; [by eapply reaches_trans|]. split; [|done]. eapply same_below_trans; [done|]. by eapply same_below_mono.
Qed.

(** The value goes on into another computation. *)
Lemma coded_bind fs0 P J0 fs n J main m (K : lclosure -> registers -> tvalue -> W -> LuaM (tvalue * W)) :
  coded fs0 P J0 fs n [] [] J main m -> (forall cl s s' v w, same_below (freereg fs0) s s' -> K cl s' v w = K cl s v w) ->
  coded fs0 P J0 fs n [] [] J (fun cl s w => let* (v, w) := main cl s w in K cl s v w) (fun cl s w => let* (v, w) := m cl s w in K cl s v w).
Proof.
  intros [Hwf Hk Hg Hs] HK. split; [done..|]. intros cl M Ha. destruct (Hs cl M Ha) as [Ha0 Hr]. split; [done|].
  intros s w Hl Hc f. destruct (Hr s w Hl Hc) as [[E|(msg & E & Hf)]|[(j & ? & ? & ? & ? & Hj & _)|[(j & ? & ? & ? & ? & Hj & _)|(s' & w' & Hre & Hb & Hcl & E)]]].
  - left; left. by rewrite E.
  - left; right. exists msg. by rewrite E.
  - by apply not_elem_of_nil in Hj.
  - by apply not_elem_of_nil in Hj.
  - do 3 right. exists s', w'. split; [done|]. split; [done|]. split; [done|]. rewrite E. destruct (m cl s w) as [[[v x]|]|]; cbn [lbind]; [|done..]. by apply HK.
Qed.

(** Two values one after the other. *)
Lemma coded_pair fs0 P J0 fs1 J1 main1 m1 g fs2 n J2 main2 m2 (op : lclosure -> tvalue -> tvalue -> W -> LuaM (tvalue * W)) :
  coded fs0 P J0 fs1 (pc fs1) [] [] J1 main1 m1 -> coded fs1 P J1 fs2 n [] [] J2 main2 m2 ->
  (forall cl s w, main1 cl s w = (let* v := llift (g cl s) in lret (v, w))) -> (forall cl s s', same_below (freereg fs1) s s' -> g cl s' = g cl s) ->
  (forall cl s s' w, same_below (freereg fs0) s s' -> m2 cl s' w = m2 cl s w) -> freereg fs0 <= freereg fs1 ->
  coded fs0 P J0 fs2 n [] [] J2 (fun cl s w => let* (v2, w) := main2 cl s w in let* v1 := llift (g cl s) in op cl v1 v2 w)
    (fun cl s w => let* (v1, w) := m1 cl s w in let* (v2, w) := m2 cl s w in op cl v1 v2 w).
Proof.
  intros Hc1 Hc2 Hmain Hg Hm2 Hfree. eapply coded_trans; [exact Hc1| |done|..].
  - eapply (coded_bind _ _ _ _ _ _ _ _ (fun cl s v2 w => let* v1 := llift (g cl s) in op cl v1 v2 w)); [exact Hc2|]. intros cl s s' v w Hb. by rewrite (Hg cl s s').
  - intros cl s w E. by rewrite E.
  - intros cl s w msg E. by rewrite E.
  - intros cl s w s1 w1 Hb Hne E. cbv beta. rewrite <- E in Hne |- *. rewrite Hmain in Hne |- *. destruct (g cl s1) as [v1|]; [|done].
    cbn [llift fmap option_fmap option_map lbind lret]. rewrite (Hm2 _ _ _ _ Hb). done.
Qed.

(** Two pieces of code with jumps: the second computes what remains of the first. *)
Lemma coded_seq fs0 P J0 fs1 T1 F1 J1 mid m fs2 n T F J main : coded fs0 P J0 fs1 (pc fs1) T1 F1 J1 mid m ->
  coded fs1 (T1 ++ F1 ++ P) J1 fs2 n T F J main mid -> freereg fs0 <= freereg fs1 ->
  coded fs0 P J0 fs2 n (T ++ T1) (F ++ F1) J main m.
Proof.
  intros Hc1 [Hwf2 Hk2 Hg2 Hs2] Hfree. assert (T ++ F ++ T1 ++ F1 ++ P ≡ₚ (T ++ T1) ++ (F ++ F1) ++ P) as Hperm by solve_Permutation.
  eapply coded_branch; [exact Hc1|by eapply wf_perm|..].
  - eapply keeps_mono; [|exact Hk2]. intros x Hx. rewrite !elem_of_app. tauto.
  - done.
  - intros x Hx. apply elem_of_app. by right.
  - intros x Hx. apply elem_of_app. by right.
  - intros j Hj. apply Hk2. rewrite app_assoc. apply elem_of_app. by left.
  - intros cl M Ha. eapply agree_perm in Ha; [|symmetry; exact Hperm]. destruct (Hs2 cl M Ha) as [Ha1 Hr]. split; [done|]. intros s w Hl Hc.
    assert (forall L L' b, exits fs2 cl L b (freereg fs1) s (at_ s (pc fs1) w) (mid cl s w) ->
      exits fs2 cl (L ++ L') b (freereg fs0) s (at_ s (pc fs1) w) (mid cl s w)) as Hex.
    { intros L L' b (j & v & w' & s1 & s' & Hj & ? & ? & Hb & ?). exists j, v, w', s1, s'. split; [apply elem_of_app; by left|]. split; [done|]. split; [done|].
      split; [by eapply same_below_mono|done]. }
    destruct (Hr s w Hl Hc) as [?|[?|[?|(s' & w' & ? & Hb & ?)]]]; [by left|right; left; by apply Hex|do 2 right; left; by apply Hex|].
    do 3 right. exists s', w'. split; [done|]. split; [by eapply same_below_mono|done].
Qed.
End Compile.
