(* ===== verification/LCompileExp.v ===== *)
(** * Expression descriptors

    What a descriptor means ([main_of]), when it belongs to code that computes an
    expression ([compiled]), and the operations that put its value somewhere: into an
    instruction, a register, an operand. *)
From stdpp Require Import base list option relations.
From Stdlib Require Import ZArith Lia ZifyBool.
From S2P Require Import Prelude LObject LNum LOpcodes LProto LVm LVmProps LCode LCodeJumps LExpr LFinal LCompile.
#[local] Open Scope Z_scope.

Definition number_ok (n : Z) : Prop := luai_numisnan n = false /\ minus_zero (TNumber n) = false.

(** Words of the code that are not final while the descriptor stands for them. *)
Definition width (e : expdesc) : Z := match e_k e with VJMP => 2 | VRELOCABLE => 1 | _ => 0 end.
(** Temporary registers it holds. *)
Definition temp_reg (fs : FuncState) (r : Z) : Z := if negb (ISK r) && (nactvar fs <=? r) then 1 else 0.
Definition temps (fs : FuncState) (e : expdesc) : Z :=
  match e_k e with VNONRELOC => temp_reg fs (info e) | VINDEXED => temp_reg fs (info e) + temp_reg fs (aux e) | _ => 0 end.

Definition discharged (e : expdesc) : Prop :=
  match e_k e with VNIL | VTRUE | VFALSE | VK | VKNUM | VJMP | VRELOCABLE | VNONRELOC => True | _ => False end.

Section Exp.
Context {W : Type} `{CallsKeepFrame W}.
Abbreviation meaning := (lclosure -> registers -> W -> LuaM (tvalue * W)).

Definition main_of (fs : FuncState) (e : expdesc) : meaning := fun cl s w =>
  match e_k e with
  | VNIL => lret (TNil, w)
  | VTRUE => lret (TBoolean true, w)
  | VFALSE => lret (TBoolean false, w)
  | VK => let* v := llift (kget cl (info e)) in lret (v, w)
  | VKNUM => lret (TNumber (nval e), w)
  | VLOCAL | VNONRELOC => let* v := llift (rget s (info e)) in lret (v, w)
  | VUPVAL => let* v := llift (upval w (info e)) in lret (v, w)
  | VGLOBAL => let* key := llift (kget cl (info e)) in index_val w (TGC GTable (cl_env cl)) key
  | VINDEXED => let* t := llift (rget s (info e)) in let* key := llift (rkget cl s (aux e)) in index_val w t key
  | VRELOCABLE => let* i := llift (code_at fs (info e)) in instr_val cl i s w
  | VJMP =>
      let* i := llift (code_at fs (info e - 1)) in
      let* (b, w) := instr_cmp cl i s w in lret (TBoolean (Z.b2z b =? GETARG_A i), w)
  | VVOID | VCALL | VVARARG => None
  end.

(** The descriptor fits the code that ends at [fs]. *)
Definition exp_ok (fs0 fs : FuncState) (P T F J : list Z) (e : expdesc) : Prop :=
  match e_k e with
  | VNIL | VTRUE | VFALSE => True
  | VKNUM => number_ok (nval e)
  | VK => 0 <= info e < nk fs
  | VLOCAL => 0 <= info e < nactvar fs
  | VNONRELOC => 0 <= info e < nactvar fs \/ info e = freereg fs0 /\ T = [] /\ F = []
  | VUPVAL => 0 <= info e <= MAXARG_B
  | VGLOBAL => 0 <= info e < nk fs
  | VINDEXED => 0 <= info e < MAXSTACK /\ 0 <= aux e <= MAXARG_C
  | VRELOCABLE => J = [] /\ info e = pc fs - 1 /\ lasttarget fs < pc fs /\
      exists i op, code_at fs (info e) = Some i /\ GET_OPCODE i = of_opcode op /\ value_op op = true /\ (op = OP_NOT -> GETARG_B i <= MAXARG_A)
  | VJMP =>
      J = [] /\ info e = pc fs - 1 /\ jump_ok fs (info e) /\ getjump fs (info e) = Some NO_JUMP /\ info e ∉ T ++ F ++ P /\
      exists i op, code_at fs (info e - 1) = Some i /\ GET_OPCODE i = of_opcode op /\ cmp_op op = true /\ (GETARG_A i = 0 \/ GETARG_A i = 1)
  | VVOID | VCALL | VVARARG => False
  end.

Record compiled (fs0 : FuncState) (P J0 : list Z) (fs : FuncState) (e : expdesc) (T F J : list Z) (m : meaning) : Prop := {
  cp_coded : coded fs0 P J0 fs (pc fs - width e) T F J (main_of fs e) m;
  cp_t : chain fs (e_t e) T;
  cp_f : chain fs (e_f e) F;
  cp_ok : exp_ok fs0 fs P T F J e;
  cp_free : freereg fs = freereg fs0 + temps fs e;
}.

Lemma clean_word cl M fs s w : code_at fs (pc fs - 1) = Some w -> is_op OP_LOADNIL w = false -> clean cl M fs s.
Proof.
  intros Hw Hn _. pose proof (code_at_bounds _ _ _ Hw). split; [lia|]. intros w1 w' Hw1 Hnil. congruence.
Qed.

Lemma wf_pending_lt fs P J j : wf fs P J -> j ∈ P ++ J -> 0 <= j < pc fs.
Proof. intros Hwf Hj. destruct (wf_jumps _ _ _ Hwf) as [_ Hok]. rewrite Forall_forall in Hok. by apply jump_ok_bounds, Hok. Qed.

Lemma ext_last J i fs fs' : extended J [i] fs fs' -> pc fs' = pc fs + 1 /\ code_at fs' (pc fs) = Some i.
Proof. intros He. split; [apply (ext_pc _ _ _ _ He)|]. pose proof (ext_new _ _ _ _ He 0%nat i eq_refl) as E. by replace (pc fs + Z.of_nat 0) with (pc fs) in E by lia. Qed.

Lemma ext_agree_old J ws P fs fs' cl M n : extended J ws fs fs' -> wf fs P J -> agree cl M fs' n P [] -> pc fs <= n -> ws <> [] -> agree cl M fs (pc fs) P J.
Proof.
  intros He Hwf Ha Hn Hne. eapply (ext_agree J ws P); [done|done|exact Ha|done|done|set_solver| |by destruct ws; [|cbn; lia]].
  intros Hin. exfalso. rewrite app_nil_r in Hin. assert (pc fs ∈ P ++ J) as Hin' by set_solver. pose proof (wf_pending_lt _ _ _ _ Hwf Hin'). lia.
Qed.

(** An instruction behind the code that is not final yet. *)
Lemma coded_pending fs0 P J0 fs T F J main m i fs' : coded fs0 P J0 fs (pc fs) T F J main m -> extended J [i] fs fs' -> is_op OP_LOADNIL i = false ->
  coded fs0 P J0 fs' (pc fs) T F [] main m.
Proof.
  intros Hc He Hi. assert (wf fs (T ++ F ++ P) J) as Hwf by apply Hc. destruct (ext_last _ _ _ _ He) as [Hpc Hlast].
  eapply coded_step; [done|..].
  - eapply ext_wf; [done..|]. intros w ->%list_elem_of_singleton. by rewrite Hi.
  - by eapply ext_keeps.
  - apply grows_rest; [apply He|lia].
  - intros cl M Ha. split; [by eapply ext_agree_old|]. intros s w Hl Hcl. right. exists s, w. split; [apply reaches_refl|].
    split; [done|]. split; [|done]. eapply clean_word; [|done]. by replace (pc fs' - 1) with (pc fs) by lia.
Qed.

(** Registers and constants may change. *)
Lemma coded_flow fs0 P J0 fs n T F J main m fs' : coded fs0 P J0 fs n T F J main m -> same_flow fs fs' -> wf fs' (T ++ F ++ P) J ->
  coded fs0 P J0 fs' n T F J main m.
Proof.
  intros Hc Hfl Hwf'. eapply coded_step; [done|done|by apply keeps_code, Hfl|by apply grows_flow|].
  intros cl M Ha. split; [by eapply flow_agree|]. intros s w Hl Hcl. right. exists s, w. split; [apply reaches_refl|].
  split; [done|]. split; [by eapply flow_clean|done].
Qed.
Lemma flow_chain fs fs' l js : same_flow fs fs' -> chain fs l js -> chain fs' l js.
Proof. intros Hfl. apply jchain_ext. intros j _. destruct (same_code_at _ _ (flow_code _ _ Hfl)) as [_ E]. apply E. Qed.

Lemma ext_chain J i fs fs' P l js : extended J [i] fs fs' -> wf fs P J -> js ⊆ P -> chain fs l js -> chain fs' l js.
Proof. intros He Hwf. apply keeps_chain. by eapply ext_keeps. Qed.

(** An instruction that computes the value. *)
Lemma compiled_value fs0 P J0 fs T F J main m i op fs' e : coded fs0 P J0 fs (pc fs) T F J main m ->
  extended J [i] fs fs' -> GET_OPCODE i = of_opcode op -> value_op op = true -> (op = OP_NOT -> GETARG_B i <= MAXARG_A) ->
  (forall cl s w, instr_val cl i s w = main cl s w) -> chain fs (e_t e) T -> chain fs (e_f e) F -> freereg fs = freereg fs0 ->
  compiled fs0 P J0 fs' (exp_is VRELOCABLE (pc fs) e) T F [] m.
Proof.
  intros Hc He Hop Hv Hnot Hmain Ht Hf Hfree. assert (wf fs (T ++ F ++ P) J) as Hwf by apply Hc. destruct (ext_last _ _ _ _ He) as [Hpc Hlast].
  split; cbn.
  - replace (pc fs' - 1) with (pc fs) by lia. eapply coded_ext; [eapply coded_pending; [done..|]| |done].
    + apply not_true_is_false. rewrite is_op_iff, Hop. intros E%of_opcode_inj. by subst.
    + intros cl s w. unfold main_of. cbn. rewrite Hlast. cbn. apply Hmain.
  - eapply (ext_chain _ _ _ _ (T ++ F ++ P)); [done|done|set_solver|done].
  - eapply (ext_chain _ _ _ _ (T ++ F ++ P)); [done|done|set_solver|done].
  - split; [done|]. split; [lia|]. split; [|by eauto 10]. rewrite (ext_target _ _ _ _ He). pose proof (wf_target _ _ _ Hwf). lia.
  - destruct (ext_rest _ _ _ _ He). rewrite same_freereg. unfold temps. cbn. lia.
Qed.

Lemma register_no_k r : 0 <= r < BITRK -> ISK r = false.
Proof.
  intros Hr. change BITRK with 256 in *. unfold ISK. change BITRK with (2 ^ 8).
  assert (Z.land r (2 ^ 8) = 0) as ->; [|done]. apply Z.bits_inj'. intros n Hn. rewrite Z.land_spec, Z.bits_0.
  destruct (Z.eqb_spec n 8) as [->|Hne]; [|by rewrite (Z.pow2_bits_false 8 n) by lia; rewrite andb_false_r].
  rewrite (Z.bits_above_log2 r 8); [done|lia|]. destruct (Z.eq_dec r 0) as [->|]; [done|]. apply Z.log2_lt_pow2; lia.
Qed.

Lemma free_reg_spec r fs P J : wf fs P J -> nactvar fs <= freereg fs - temp_reg fs r ->
  exists fs', free_reg r fs = fs' /\ same_flow fs fs' /\ wf fs' P J /\ freereg fs' = freereg fs - temp_reg fs r.
Proof.
  intros Hwf Hn. eexists. split; [done|]. unfold free_reg, temp_reg in *. destruct (negb (ISK r) && (nactvar fs <=? r)).
  - destruct (with_freereg_wf (freereg fs - 1) fs P J Hwf) as [? ?]; [lia|]. done.
  - split; [done|]. split; [done|lia].
Qed.

Lemma temp_reg_flow fs fs' r : same_flow fs fs' -> temp_reg fs' r = temp_reg fs r.
Proof. intros []. unfold temp_reg. by rewrite flow_nactvar. Qed.
Lemma temp_reg_nonneg fs r : 0 <= temp_reg fs r.
Proof. unfold temp_reg. by destruct (_ && _). Qed.

Definition same_lists (e e' : expdesc) : Prop := e_t e' = e_t e /\ e_f e' = e_f e.

Lemma dischargevars_compiled fs0 P J0 fs e T F J m : compiled fs0 P J0 fs e T F J m -> nactvar fs0 <= freereg fs0 ->
  lsafe (luaK_dischargevars e fs) (fun '(e', fs') => (exists J', compiled fs0 P J0 fs' e' T F J' m) /\ discharged e' /\ same_lists e e' /\
    (discharged e -> e' = e /\ fs' = fs)).
Proof.
  intros [Hc Ht Hf Hok Hfree] Hn0. assert (wf fs (T ++ F ++ P) J) as Hwf by apply Hc. assert (grows fs0 fs) as Hg by apply Hc.
  assert (discharged e -> lsafe (lret (e, fs)) (fun '(e', fs') => (exists J', compiled fs0 P J0 fs' e' T F J' m) /\ discharged e' /\ same_lists e e' /\
    (discharged e -> e' = e /\ fs' = fs))) as Hsame.
  { intros Hd. split; [by exists J|done]. }
  unfold luaK_dischargevars, discharged, exp_ok, width, temps, main_of in *. destruct (e_k e) eqn:Ek; try done; try by apply Hsame.
  - (* VLOCAL *) split; [|done]. exists J. split; [|done|done|by left|].
    + eapply coded_ext; [|done|done]. done.
    + unfold temps, exp_kind. cbn. rewrite Hfree. unfold temp_reg. by assert ((nactvar fs <=? info e) = false) as -> by lia; rewrite andb_false_r.
  - (* VUPVAL *) eapply lsafe_bind; [by eapply luaK_codeABC_spec|]. intros [p fs'] [-> He]. cbn.
    destruct (create_abc_fields OP_GETUPVAL 0 (info e) 0) as (Eo & _ & Eb & _); [done|lia|done|]. split; [|done]. exists [].
    eapply compiled_value; [rewrite Z.sub_0_r in Hc; exact Hc|done|exact Eo|done|done| |done|done|lia].
    intros cl s w. unfold instr_val. by rewrite Eo, Eb.
  - (* VGLOBAL *)
    assert (nk fs <= MAXARG_Bx) as Hsz by apply (wf_pool _ _ _ Hwf). eapply lsafe_bind; [eapply luaK_codeABx_spec; [done|lia]|]. intros [p fs'] [-> He]. cbn.
    destruct (create_abx_fields OP_GETGLOBAL 0 (info e)) as (Eo & _ & Eb); [done|lia|]. split; [|done]. exists [].
    eapply compiled_value; [rewrite Z.sub_0_r in Hc; exact Hc|done|exact Eo|done|done| |done|done|lia].
    intros cl s w. unfold instr_val. rewrite Eo, Eb. done.
  - (* VINDEXED *) destruct Hok as [Hi Ha].
    destruct (free_reg_spec (aux e) fs _ _ Hwf) as (fs1 & E1 & Hfl1 & Hwf1 & Hf1).
    { pose proof (grows_nactvar _ _ Hg). pose proof (temp_reg_nonneg fs (info e)). lia. }
    rewrite E1.
    destruct (free_reg_spec (info e) fs1 _ _ Hwf1) as (fs2 & E2 & Hfl2 & Hwf2 & Hf2).
    { pose proof (grows_nactvar _ _ Hg). pose proof (flow_nactvar _ _ Hfl1). rewrite (temp_reg_flow _ _ _ Hfl1). lia. }
    rewrite E2. rewrite (temp_reg_flow _ _ _ Hfl1) in Hf2.
    eapply lsafe_bind; [by eapply luaK_codeABC_spec|]. intros [p fs'] [-> He]. cbn. change MAXSTACK with 250 in *.
    destruct (create_abc_fields OP_GETTABLE 0 (info e) (aux e)) as (Eo & _ & Eb & Ec); [done|change MAXARG_B with 511; lia|done|]. split; [|done]. exists [].
    rewrite Z.sub_0_r in Hc.
    eapply compiled_value; [eapply coded_flow; [eapply coded_flow; [|exact Hfl1|done]|exact Hfl2|done]|exact He|exact Eo|done|done| | | |].
    + assert (pc fs2 = pc fs) as ->; [|exact Hc]. rewrite (proj1 (same_code_at _ _ (flow_code _ _ Hfl2))). apply same_code_at, Hfl1.
    + intros cl s w. unfold instr_val. by rewrite Eo, Eb, Ec.
    + by do 2 (eapply flow_chain; [done|]).
    + by do 2 (eapply flow_chain; [done|]).
    + lia.
Qed.

(** ** Into a register *)
Definition reg_main (r : Z) : meaning := fun _ s w => let* v := llift (rget s r) in lret (v, w).

Lemma put_progress cl i s p w (m : LuaM (tvalue * W)) lim fs' : 
  vm_step cl (at_ s p w) = put i s (p + 1) m -> lim <= GETARG_A i < Z.of_nat (length s) -> 0 <= lim ->
  (forall s', clean cl (Z.of_nat (length s)) fs' s') ->
  failing cl (at_ s p w) m \/ arrives fs' cl (Z.of_nat (length s)) (p + 1) lim s (at_ s p w) (reg_main (GETARG_A i) cl) m.
Proof.
  intros Hstep Ha Hlim Hcl. unfold put in Hstep. destruct m as [[[v w']|msg]|].
  - right. cbn [lbind] in Hstep. destruct (rset_some s (GETARG_A i) v) as [s' E]; [lia|]. rewrite E in Hstep. cbn in Hstep.
    exists s', w'. split; [eapply reaches_step; [apply reaches_refl|exact Hstep]|]. split; [eapply same_below_set; [done|lia]|]. split; [done|].
    unfold reg_main. rewrite (rget_rset _ _ _ _ _ E), Z.eqb_refl. done.
  - left. right. exists msg. split; [done|]. eapply step_fails; [apply reaches_refl|exact Hstep].
  - left. by left.
Qed.

Lemma agree_last_word cl M fs i q P : agree cl M fs (pc fs) P [] -> code_at fs q = Some i -> q ∉ P -> q + 1 ∉ P -> is_op OP_LOADNIL i = false ->
  instr_at cl q = Some i.
Proof.
  intros Ha Hi Hq Hq' Hn. destruct (agree_words _ _ _ _ _ _ Ha q i) as (w' & Hw' & Hf); [by eapply code_at_bounds|done|].
  assert (role_of fs P [] q i = Plain) as Hr.
  { unfold role_of, last_nil. rewrite !bool_decide_eq_false_2, Hn by set_solver. by destruct (is_op OP_TESTSET i). }
  rewrite Hr in Hf. cbn in Hf. by subst.
Qed.

Lemma ext_new_word cl M J i fs fs' P : extended J [i] fs fs' -> wf fs P J -> agree cl M fs' (pc fs') P [] -> is_op OP_LOADNIL i = false ->
  instr_at cl (pc fs) = Some i.
Proof.
  intros He Hwf Ha Hn. destruct (ext_last _ _ _ _ He) as [Hpc Hl]. eapply agree_last_word; [done|done|..|done].
  - intros Hin. assert (pc fs ∈ P ++ J) as Hin' by set_solver. pose proof (wf_pending_lt _ _ _ _ Hwf Hin'). lia.
  - intros Hin. assert (pc fs + 1 ∈ P ++ J) as Hin' by set_solver. pose proof (wf_pending_lt _ _ _ _ Hwf Hin'). lia.
Qed.

(** An instruction that puts the value into the register [r]. *)
Lemma coded_into fs0 P J0 fs T F J main m i fs' r : coded fs0 P J0 fs (pc fs) T F J main m -> extended J [i] fs fs' -> is_op OP_LOADNIL i = false ->
  GETARG_A i = r -> freereg fs0 <= r < maxstacksize fs -> 0 <= freereg fs0 ->
  (forall cl M s w, agree cl M fs' (pc fs') (T ++ F ++ P) [] -> instr_at cl (pc fs) = Some i ->
     vm_step cl (at_ s (pc fs) w) = put i s (pc fs + 1) (main cl s w)) ->
  coded fs0 P J0 fs' (pc fs') T F [] (reg_main r) m.
Proof.
  intros Hc He Hi <- Hr Hfr0 Hstep. assert (wf fs (T ++ F ++ P) J) as Hwf by apply Hc. destruct (ext_last _ _ _ _ He) as [Hpc Hlast].
  eapply coded_step; [done|..].
  - eapply ext_wf; [done..|]. intros w ->%list_elem_of_singleton. by rewrite Hi.
  - by eapply ext_keeps.
  - apply grows_rest; [apply He|lia].
  - intros cl M Ha. split; [eapply ext_agree_old; [done|done|done|lia|done]|]. intros s w <- Hcl. rewrite Hpc.
    assert (maxstacksize fs <= Z.of_nat (length s)). { pose proof (agree_stack _ _ _ _ _ _ Ha). destruct (ext_rest _ _ _ _ He). lia. }
    apply put_progress; [|lia|done|].
    + eapply Hstep; [done|]. by eapply ext_new_word.
    + intros s'. eapply clean_word; [|done]. by replace (pc fs' - 1) with (pc fs) by lia.
Qed.

(** The pending instruction at the end gets its register. *)
Lemma coded_relocate fs0 P J0 fs T F main m i op r : coded fs0 P J0 fs (pc fs - 1) T F [] main m ->
  code_at fs (pc fs - 1) = Some i -> GET_OPCODE i = of_opcode op -> value_op op = true -> (forall cl s w, instr_val cl i s w = main cl s w) ->
  freereg fs0 <= r < maxstacksize fs -> 0 <= freereg fs0 ->
  coded fs0 P J0 (set_code (pc fs - 1) (SETARG_A i r) fs) (pc fs) T F [] (reg_main r) m.
Proof.
  intros Hc Hi Hop Hv Hmain Hr Hfr0. assert (wf fs (T ++ F ++ P) []) as Hwf by apply Hc. pose proof (wf_stack _ _ _ Hwf) as Hms. change MAXSTACK with 250 in Hms.
  destruct (set_a_fields i r) as (Ea & Eo & Eb & Ec & Ebx); [change MAXARG_A with 255; lia|].
  assert (forall o, value_op o = false -> is_op o i = false) as Hno.
  { intros o Ho. apply not_true_is_false. rewrite is_op_iff, Hop. intros E%of_opcode_inj. by subst; rewrite Hv in Ho. }
  assert (forall j, j ∈ T ++ F ++ P -> j <> pc fs - 1 /\ j - 1 <> pc fs - 1) as Hq.
  { intros j Hj. destruct (wf_pending_ok _ _ _ _ Hwf Hj) as [Hok _]. split; [|apply jump_ok_bounds in Hok; lia].
    intros ->. eapply test_no_jump; [done|by apply Hno|done]. }
  assert (is_op OP_LOADNIL (SETARG_A i r) = false) as Hnil by (rewrite (is_op_same _ _ i) by done; by apply Hno).
  assert (wf (set_code (pc fs - 1) (SETARG_A i r) fs) (T ++ F ++ P) []) as Hwf'.
  { eapply set_code_wf; [done|done| |by rewrite Hnil]. intros j. rewrite app_nil_r. apply Hq. }
  assert (code_at (set_code (pc fs - 1) (SETARG_A i r) fs) (pc fs - 1) = Some (SETARG_A i r)) as Hlast.
  { rewrite code_at_set_code by (by eapply code_at_bounds). by rewrite Z.eqb_refl. }
  eapply coded_step; [done|done|by eapply set_code_keeps|apply grows_rest; [done|by rewrite pc_set_code]|].
  intros cl M Ha. split; [eapply set_code_agree; [done|done|lia|lia]|]. intros s w <- Hcl.
  pose proof (agree_stack _ _ _ _ _ _ Ha) as HM. cbn in HM.
  assert (instr_at cl (pc fs - 1) = Some (SETARG_A i r)) as Hinstr.
  { eapply agree_last_word; [by rewrite pc_set_code|done|..|done]; intros Hin; apply Hq in Hin; lia. }
  pose proof (put_progress cl (SETARG_A i r) s (pc fs - 1) w (main cl s w) (freereg fs0) (set_code (pc fs - 1) (SETARG_A i r) fs)) as Hput.
  replace (pc fs - 1 + 1) with (pc fs) in Hput by lia. rewrite Ea in Hput. apply Hput; [|lia|done|].
  - rewrite (step_value cl _ _ _ _ op Hinstr) by (rewrite ?Eo; done). replace (pc fs - 1 + 1) with (pc fs) by lia. f_equal. rewrite <- Hmain.
    unfold instr_val. by rewrite Eo, Eb, Ec, Ebx.
  - intros s'. eapply clean_word; [|done]. by rewrite pc_set_code.
Qed.

(** No pending jump to here, and the last word is no test. *)
Definition settled (fs : FuncState) (J : list Z) : Prop := J = [] /\ exists w, code_at fs (pc fs - 1) = Some w /\ testT w = Some false.

Definition placed (fs0 : FuncState) (P J0 : list Z) (fs fs' : FuncState) (T F : list Z) (r : Z) (m : meaning) : Prop :=
  exists J', coded fs0 P J0 fs' (pc fs') T F J' (reg_main r) m /\ keeps (T ++ F ++ P) fs fs' /\ freereg fs' = freereg fs /\
    maxstacksize fs <= maxstacksize fs' /\ (T ++ F = [] \/ settled fs' J').

Lemma placed_into fs0 P J0 fs T F J main m i fs1 fs' r : coded fs0 P J0 fs (pc fs) T F J main m -> extended J [i] fs fs' ->
  is_op OP_LOADNIL i = false -> testT i = Some false -> GETARG_A i = r -> freereg fs0 <= r < maxstacksize fs -> 0 <= freereg fs0 ->
  (forall cl M s w, agree cl M fs' (pc fs') (T ++ F ++ P) [] -> instr_at cl (pc fs) = Some i ->
     vm_step cl (at_ s (pc fs) w) = put i s (pc fs + 1) (main cl s w)) ->
  code fs = code fs1 -> freereg fs = freereg fs1 -> maxstacksize fs1 <= maxstacksize fs -> placed fs0 P J0 fs1 fs' T F r m.
Proof.
  intros Hc He Hi Ht Ha Hr Hfr0 Hstep Hcode Hfree Hmax. assert (wf fs (T ++ F ++ P) J) as Hwf by apply Hc. destruct (ext_last _ _ _ _ He) as [Hpc Hlast].
  exists []. split; [by eapply coded_into|]. split; [eapply keeps_trans; [by apply keeps_code|by eapply ext_keeps]|].
  split; [destruct (ext_rest _ _ _ _ He); congruence|]. split; [destruct (ext_rest _ _ _ _ He); lia|].
  right. split; [done|]. exists i. split; [|done]. by replace (pc fs' - 1) with (pc fs) by lia.
Qed.

(** LOADNIL emitted. *)
Lemma coded_loadnil fs0 P J0 fs T F J main m r fs' : coded fs0 P J0 fs (pc fs) T F J main m -> (forall cl s w, main cl s w = lret (TNil, w)) ->
  freereg fs0 <= r < maxstacksize fs -> 0 <= freereg fs0 -> extended J [CREATE_ABC (of_opcode OP_LOADNIL) r r 0] fs fs' ->
  coded fs0 P J0 fs' (pc fs') T F [] (reg_main r) m.
Proof.
  intros Hc Hmain Hr Hfr0 He. assert (wf fs (T ++ F ++ P) J) as Hwf by apply Hc. destruct (ext_last _ _ _ _ He) as [Hpc Hlast].
  pose proof (wf_stack _ _ _ Hwf) as Hms. change MAXSTACK with 250 in Hms.
  destruct (create_abc_fields OP_LOADNIL r r 0) as (Eo & Ea & Eb & _); [change MAXARG_A with 255; lia|change MAXARG_B with 511; lia|done|].
  assert (is_op OP_LOADNIL (CREATE_ABC (of_opcode OP_LOADNIL) r r 0) = true) as Hnil by (by apply is_op_iff).
  eapply coded_step; [done|..].
  - eapply ext_wf; [done..|]. intros w ->%list_elem_of_singleton _. rewrite Ea, Eb. lia.
  - by eapply ext_keeps.
  - apply grows_rest; [apply He|lia].
  - intros cl M Ha. split; [eapply ext_agree_old; [done|done|done|lia|done]|]. intros s w <- Hcl. right.
    destruct (agree_words _ _ _ _ _ _ Ha (pc fs) _ ltac:(pose proof (pc_nonneg fs); lia) Hlast) as (w' & Hw' & Hfit).
    assert (is_op OP_LOADNIL w' = true /\ GETARG_A w' = r /\ r <= GETARG_B w' < Z.of_nat (length s)) as (Hop & Ea' & Hb').
    { assert (maxstacksize fs <= Z.of_nat (length s)) by (pose proof (agree_stack _ _ _ _ _ _ Ha); destruct (ext_rest _ _ _ _ He); lia).
      unfold role_of in Hfit. rewrite bool_decide_eq_false_2 in Hfit.
      2: { intros Hin. assert (pc fs ∈ (T ++ F ++ P) ++ J) as Hin' by (apply elem_of_app; by left). pose proof (wf_pending_lt _ _ _ _ Hwf Hin'). lia. }
      rewrite bool_decide_eq_false_2 in Hfit by apply not_elem_of_nil. rewrite (is_op_other OP_LOADNIL OP_TESTSET) in Hfit by done.
      destruct (last_nil fs' (pc fs) (CREATE_ABC (of_opcode OP_LOADNIL) r r 0)); cbn [fits] in Hfit; [rewrite Ea, Eb in Hfit; naive_solver lia|].
      subst w'. rewrite Ea, Eb. split; [done|]. split; [done|]. lia. }
    destruct (step_loadnil cl s (pc fs) w w' Hw') as (s' & Hstep & Hl' & Hg); [by apply is_op_iff|lia|].
    exists s', w. split; [eapply reaches_step; [apply reaches_refl|rewrite Hstep; by rewrite Hpc]|]. rewrite Ea' in Hg. split; [|split].
    + split; [done|]. intros j Hj. rewrite Hg. by assert ((r <=? j) && (j <=? GETARG_B w') = false) as -> by lia.
    + intros _. pose proof (pc_nonneg fs). split; [lia|]. intros v v' Hv _ Hv' j Hj. replace (pc fs' - 1) with (pc fs) in * by lia.
      rewrite Hlast in Hv. apply (inj Some) in Hv as <-. rewrite Hw' in Hv'. apply (inj Some) in Hv' as <-. rewrite Ea in Hj. rewrite Hg.
      by assert ((r <=? j) && (j <=? GETARG_B w') = true) as -> by lia.
    + unfold reg_main. rewrite Hg. assert ((r <=? r) && (r <=? GETARG_B w') = true) as -> by lia. by rewrite Hmain.
Qed.

(** The previous LOADNIL covers the register, or will. *)
Lemma coded_joined fs0 P J0 fs T F main m r i b : coded fs0 P J0 fs (pc fs) T F [] main m -> (forall cl s w, main cl s w = lret (TNil, w)) ->
  freereg fs0 <= r < maxstacksize fs -> 0 <= freereg fs0 -> lasttarget fs < pc fs -> code_at fs (pc fs - 1) = Some i -> is_op OP_LOADNIL i = true ->
  GETARG_A i <= r -> b = Z.max (GETARG_B i) r ->
  coded fs0 P J0 (set_code (pc fs - 1) (SETARG_B i b) fs) (pc fs) T F [] (reg_main r) m.
Proof.
  intros Hc Hmain Hr Hfr0 Ht Hi Hnil HA ->. assert (wf fs (T ++ F ++ P) []) as Hwf by apply Hc. pose proof (wf_nil _ _ _ Hwf _ _ Hi Hnil) as Hnr.
  pose proof (wf_stack _ _ _ Hwf) as Hms. change MAXSTACK with 250 in Hms. pose proof (getarg_b_range i).
  set (b := Z.max (GETARG_B i) r) in *. destruct (set_b_fields i b) as (Eb & Eo & Ea); [change MAXARG_B with 511; lia|].
  assert (is_op OP_LOADNIL (SETARG_B i b) = true) as Hnil' by (by rewrite (is_op_same _ _ i)).
  assert (forall j, j ∈ T ++ F ++ P -> j <> pc fs - 1 /\ j - 1 <> pc fs - 1) as Hq.
  { intros j Hj. destruct (wf_pending_ok _ _ _ _ Hwf Hj) as [Hok _]. split; [|apply jump_ok_bounds in Hok; lia].
    intros ->. eapply test_no_jump; [done|by apply (is_op_other OP_LOADNIL)|done]. }
  set (fs' := set_code (pc fs - 1) (SETARG_B i b) fs).
  assert (code_at fs' (pc fs - 1) = Some (SETARG_B i b)) as Hlast.
  { unfold fs'. rewrite code_at_set_code by (by eapply code_at_bounds). by rewrite Z.eqb_refl. }
  eapply coded_step; [done|..].
  - eapply set_code_wf; [done|done|intros j; rewrite app_nil_r; apply Hq|]. intros _. rewrite Ea, Eb. lia.
  - by eapply set_code_keeps.
  - apply grows_rest; [done|unfold fs'; by rewrite pc_set_code].
  - intros cl M Ha. pose proof (code_at_bounds _ _ _ Hi) as Hbi.
    destruct (agree_words _ _ _ _ _ _ Ha (pc fs - 1) _ ltac:(lia) Hlast) as (w' & Hw' & Hfit).
    assert (is_op OP_LOADNIL w' = true /\ GETARG_A w' = GETARG_A i /\ b <= GETARG_B w' < M) as (Hop & Ea' & Hb').
    { unfold role_of, last_nil in Hfit. rewrite bool_decide_eq_false_2 in Hfit by (intros Hin%Hq; lia).
      rewrite bool_decide_eq_false_2 in Hfit by apply not_elem_of_nil. rewrite (is_op_other OP_LOADNIL OP_TESTSET), Hnil' in Hfit by done.
      unfold fs' in Hfit. rewrite pc_set_code in Hfit. change (lasttarget (set_code _ _ fs)) with (lasttarget fs) in Hfit.
      assert ((pc fs - 1 + 1 =? pc fs) && (lasttarget fs <? pc fs) = true) as E by lia. rewrite <- andb_assoc in Hfit. cbn [andb] in Hfit. rewrite E in Hfit.
      cbn [fits] in Hfit. rewrite Ea, Eb in Hfit. tauto. }
    split.
    + eapply agree_back; [done|lia|done|done|]. intros p v Hp Hv. destruct (Z.eq_dec p (pc fs - 1)) as [->|Hne].
      * exists (SETARG_B i b). split; [done|]. rewrite Hi in Hv. injection Hv as <-. intros x. unfold role_of.
        rewrite !(bool_decide_eq_false_2 (pc fs - 1 ∈ T ++ F ++ P)) by (intros Hin%Hq; lia). rewrite !(bool_decide_eq_false_2 (pc fs - 1 ∈ [])) by apply not_elem_of_nil.
        rewrite (is_op_other OP_LOADNIL OP_TESTSET i), (is_op_other OP_LOADNIL OP_TESTSET (SETARG_B i b)) by done. unfold last_nil. rewrite Hnil, Hnil'.
        unfold fs'. rewrite pc_set_code. change (lasttarget (set_code _ _ fs)) with (lasttarget fs).
        assert ((pc fs - 1 + 1 =? pc fs) && (lasttarget fs <? pc fs) = true) as E by lia. rewrite <- andb_assoc. cbn [andb]. rewrite E.
        cbn [fits]. rewrite Ea, Eb. intros (? & ? & ?). split; [done|]. split; [done|]. lia.
      * exists v. unfold fs'. rewrite code_at_set_code by done. assert ((p =? pc fs - 1) = false) as -> by lia. split; [done|].
        intros x. unfold role_of, last_nil. by rewrite pc_set_code.
    + intros s w Hl Hcl. right. exists s, w. split; [apply reaches_refl|]. split; [done|].
      destruct (Hcl Ht) as [_ Hn]. specialize (Hn i w' Hi Hnil Hw'). split.
      * intros _. unfold fs'. rewrite pc_set_code. split; [lia|]. intros v v' Hv _ Hv' j Hj. fold fs' in Hv. rewrite Hlast in Hv. apply (inj Some) in Hv as <-.
        rewrite Hw' in Hv'. apply (inj Some) in Hv' as <-. rewrite Ea in Hj. by apply Hn.
      * rewrite Hmain. unfold reg_main. by rewrite Hn by lia.
Qed.

Lemma luaK_nil_placed fs0 P J0 fs T F J main m r : coded fs0 P J0 fs (pc fs) T F J main m -> (forall cl s w, main cl s w = lret (TNil, w)) ->
  nactvar fs0 <= freereg fs0 <= r -> r < maxstacksize fs -> 0 <= freereg fs0 ->
  lsafe (luaK_nil r 1 fs) (fun fs' => placed fs0 P J0 fs fs' T F r m).
Proof.
  intros Hc Hmain Hr Hr' Hfr0. assert (wf fs (T ++ F ++ P) J) as Hwf by apply Hc. assert (grows fs0 fs) as Hg by apply Hc.
  pose proof (wf_stack _ _ _ Hwf) as Hms. change MAXSTACK with 250 in Hms.
  assert (forall i op, GET_OPCODE i = of_opcode op -> testTMode op = false -> testT i = Some false) as Hts.
  { intros i op E Hne. rewrite <- Hne. by apply is_op_test, is_op_iff. }
  assert (lsafe (let* (_, fs) := luaK_codeABC OP_LOADNIL r (r + 1 - 1) 0 fs in lret fs) (fun fs' => placed fs0 P J0 fs fs' T F r m)) as Hemit.
  { replace (r + 1 - 1) with r by lia. eapply lsafe_bind; [by eapply luaK_codeABC_spec|]. intros [p fs'] [-> He]. cbn [lsafe lret].
    destruct (ext_last _ _ _ _ He) as [Hpc Hlast].
    destruct (create_abc_fields OP_LOADNIL r r 0) as (Eo & _); [change MAXARG_A with 255; lia|change MAXARG_B with 511; lia|done|].
    exists []. split; [eapply coded_loadnil; [done|done|lia|done|done]|]. split; [by eapply ext_keeps|]. split; [by destruct (ext_rest _ _ _ _ He)|].
    split; [by destruct (ext_rest _ _ _ _ He) as [_ _ _ _ _ ->]|]. right. split; [done|]. eexists. split; [replace (pc fs' - 1) with (pc fs) by lia; exact Hlast|]. by eapply Hts. }
  unfold luaK_nil, loadnil_joined. destruct (Z.ltb_spec (lasttarget fs) (pc fs)) as [Hlt|Hge]; [|exact Hemit].
  assert (J = []) as ->. { destruct (wf_label _ _ _ Hwf); [done|lia]. }
  destruct (Z.eqb_spec (pc fs) 0) as [Hz|Hnz].
  - cbn [llift fmap option_fmap option_map lbind]. assert ((nactvar fs <=? r) = true) as -> by (pose proof (grows_nactvar _ _ Hg); lia). cbn [lsafe lret].
    exists []. split; [|split; [done|split; [done|split; [done|]]]].
    + eapply coded_step; [done|done|done|done|]. intros cl M Ha. split; [done|]. intros s w Hl Hcl. right. exists s, w.
      split; [apply reaches_refl|]. split; [done|]. split; [done|]. rewrite Hmain. unfold reg_main. destruct (Hcl Hlt) as [Hn _].
      pose proof (agree_stack _ _ _ _ _ _ Ha). rewrite Hn; [done|done|]. pose proof (grows_nactvar _ _ Hg). lia.
    + left. destruct (T ++ F) as [|j X] eqn:E; [done|]. assert (j ∈ (T ++ F ++ P) ++ []) as Hin.
      { rewrite app_nil_r, app_assoc, E. apply elem_of_app. left. apply list_elem_of_here. }
      pose proof (wf_pending_lt _ _ _ _ Hwf Hin). lia.
  - destruct (code_at_some fs (pc fs - 1)) as [i Hi]; [pose proof (pc_nonneg fs); lia|]. rewrite Hi. cbn [mbind option_bind].
    destruct (is_op OP_LOADNIL i) eqn:Hnil; [|exact Hemit].
    destruct ((GETARG_A i <=? r) && (r <=? GETARG_B i + 1)) eqn:Hjoin; cbn [llift fmap option_fmap option_map lbind]; [|exact Hemit].
    apply andb_true_iff in Hjoin as [HA HB]. cbn [lsafe lret].
    assert (forall fs', code_at fs' (pc fs' - 1) = Some i \/ code_at fs' (pc fs' - 1) = Some (SETARG_B i r) -> settled fs' []) as Hset.
    { apply is_op_iff in Hnil. destruct (set_b_fields i r) as (_ & Eo & _); [change MAXARG_B with 511; lia|].
      intros fs' [E|E]; (split; [done|]); eexists; (split; [exact E|]); (eapply (Hts _ OP_LOADNIL); [congruence|done]). }
    pose proof (code_at_bounds _ _ _ Hi) as Hb.
    destruct (Z.ltb_spec (GETARG_B i) (r + 1 - 1)) as [Hext|Hin].
    + replace (r + 1 - 1) with r in * by lia. exists []. rewrite pc_set_code. split; [eapply coded_joined; try done; lia|].
      split; [|split; [done|split; [done|right]]].
      * eapply set_code_keeps; [done|]. intros j Hj. destruct (wf_pending_ok _ _ _ _ Hwf Hj) as [Hok _]. split; [|apply jump_ok_bounds in Hok; lia].
        intros ->. eapply test_no_jump; [done|by apply (is_op_other OP_LOADNIL)|done].
      * apply Hset. right. rewrite pc_set_code, code_at_set_code by done. by rewrite Z.eqb_refl.
    + exists []. split; [|split; [done|split; [done|split; [done|right; apply Hset; by left]]]].
      eapply coded_step; [done|done|done|done|]. intros cl M Ha. split; [done|]. intros s w Hl Hcl. right. exists s, w.
      split; [apply reaches_refl|]. split; [done|]. split; [done|]. rewrite Hmain. unfold reg_main. destruct (Hcl Hlt) as [_ Hn].
      destruct (agree_words _ _ _ _ _ _ Ha (pc fs - 1) i ltac:(lia) Hi) as (w' & Hw' & Hfit). specialize (Hn i w' Hi Hnil Hw'). rewrite Hn; [done|].
      assert (GETARG_B i <= GETARG_B w'); [|lia]. unfold role_of, last_nil in Hfit. rewrite bool_decide_eq_false_2 in Hfit.
      2: { intros Hin'. destruct (wf_pending_ok _ _ _ _ Hwf Hin') as [Hok _]. eapply test_no_jump; [done|by apply (is_op_other OP_LOADNIL)|done]. }
      rewrite bool_decide_eq_false_2 in Hfit by apply not_elem_of_nil. rewrite (is_op_other OP_LOADNIL OP_TESTSET), Hnil in Hfit by done.
      destruct (true && _ && _); cbn [fits] in Hfit; [lia|by subst].
Qed.

(** [discharge2reg]: the value of a descriptor that is no jump goes to register [r]. *)
Lemma discharge2reg_placed fs0 P J0 fs e T F J m r : coded fs0 P J0 fs (pc fs - width e) T F J (main_of fs e) m ->
  exp_ok fs0 fs P T F J e -> discharged e -> e_k e <> VJMP -> nactvar fs0 <= freereg fs0 <= r -> r < maxstacksize fs -> 0 <= freereg fs0 ->
  lsafe (discharge2reg e r fs) (fun '(e', fs') => e' = exp_is VNONRELOC r e /\ placed fs0 P J0 fs fs' T F r m).
Proof.
  intros Hc Hok Hd Hnj Hr Hr' Hfr0. assert (wf fs (T ++ F ++ P) J) as Hwf by apply Hc. pose proof (wf_stack _ _ _ Hwf) as Hms. change MAXSTACK with 250 in Hms.
  unfold discharge2reg. assert (luaK_dischargevars e fs = lret (e, fs)) as ->.
  { unfold luaK_dischargevars, discharged in *. by destruct (e_k e). }
  cbn [lbind lret]. unfold discharged, exp_ok, width, main_of in *. destruct (e_k e) eqn:Ek; try done; rewrite ?Z.sub_0_r in Hc.
  - (* nil *) eapply lsafe_bind; [by eapply luaK_nil_placed|]. by intros fs' Hp.
  - (* true *) eapply lsafe_bind; [by eapply luaK_codeABC_spec|]. intros [p fs'] [-> He]. split; [done|].
    destruct (create_abc_fields OP_LOADBOOL r 1 0) as (Eo & Ea & Eb & Ec); [change MAXARG_A with 255; lia|done|done|].
    eapply (placed_into _ _ _ fs); try done; [rewrite <- not_true_iff_false, is_op_iff, Eo; done|unfold testT; by rewrite Eo|lia|].
    intros cl M s w _ Hi. rewrite (step_loadbool cl _ _ _ _ Hi Eo). by rewrite Eb, Ec.
  - (* false *) eapply lsafe_bind; [by eapply luaK_codeABC_spec|]. intros [p fs'] [-> He]. split; [done|].
    destruct (create_abc_fields OP_LOADBOOL r 0 0) as (Eo & Ea & Eb & Ec); [change MAXARG_A with 255; lia|done|done|].
    eapply (placed_into _ _ _ fs); try done; [rewrite <- not_true_iff_false, is_op_iff, Eo; done|unfold testT; by rewrite Eo|lia|].
    intros cl M s w _ Hi. rewrite (step_loadbool cl _ _ _ _ Hi Eo). by rewrite Eb, Ec.
  - (* constant *) assert (nk fs <= MAXARG_Bx) as Hsz by apply (wf_pool _ _ _ Hwf).
    eapply lsafe_bind; [eapply luaK_codeABx_spec; [done|lia]|]. intros [p fs'] [-> He]. split; [done|].
    destruct (create_abx_fields OP_LOADK r (info e)) as (Eo & Ea & Eb); [change MAXARG_A with 255; lia|lia|].
    eapply (placed_into _ _ _ fs); try done; [rewrite <- not_true_iff_false, is_op_iff, Eo; done|unfold testT; by rewrite Eo|lia|].
    intros cl M s w _ Hi. rewrite (step_loadk cl _ _ _ _ Hi Eo). by rewrite Eb.
  - (* number *) destruct Hok as [Hnan Hmz]. eapply lsafe_bind; [eapply addk_spec; [done|cbn; by rewrite Hnan|done|done]|].
    intros [i fs1] (Hi & Hk & Hfl & Hwf1 & Hf1 & _). assert (nk fs1 <= MAXARG_Bx) as Hsz by apply (wf_pool _ _ _ Hwf1).
    eapply lsafe_bind; [eapply luaK_codeABx_spec; [done|lia]|]. intros [p fs'] [-> He]. split; [done|].
    destruct (create_abx_fields OP_LOADK r i) as (Eo & Ea & Eb); [change MAXARG_A with 255; lia|lia|].
    destruct (same_code_at _ _ (flow_code _ _ Hfl)) as [Hpc1 _]. pose proof (flow_stack _ _ Hfl).
    eapply (placed_into _ _ _ fs1); [rewrite Hpc1; by eapply coded_flow|done|..]; try done; [rewrite <- not_true_iff_false, is_op_iff, Eo; done|unfold testT; by rewrite Eo|lia| |apply Hfl].
    intros cl M s w Ha Hw. rewrite (step_loadk cl _ _ _ _ Hw Eo), Eb. f_equal. pose proof (agree_k _ _ _ _ _ _ Ha) as Hpre.
    destruct (ext_rest _ _ _ _ He) as [Hk' _ _ _ _ _]. rewrite Hk' in Hpre. unfold kget. assert ((i <? 0) = false) as -> by lia.
    by rewrite (prefix_lookup_Some _ _ _ _ Hk Hpre).
  - (* relocatable *) destruct Hok as (-> & Ei & _ & i & op & Hi & Hop & Hv & _). rewrite Ei in Hi. rewrite Ei, Hi in Hc. cbn [llift fmap option_fmap option_map lbind] in Hc |- *.
    unfold set_arg, getcode. cbn. rewrite Ei, Hi. cbn. split; [done|]. exists []. rewrite pc_set_code.
    assert (forall o, value_op o = false -> is_op o i = false) as Hno.
    { intros o Ho. apply not_true_is_false. rewrite is_op_iff, Hop. intros E%of_opcode_inj. by subst; rewrite Hv in Ho. }
    split; [eapply coded_relocate; try done; lia|]. split; [|split; [done|split; [done|right; split; [done|]]]].
    + eapply set_code_keeps; [done|]. intros j Hj. destruct (wf_pending_ok _ _ _ _ Hwf Hj) as [Hok _]. split; [|apply jump_ok_bounds in Hok; lia].
      intros ->. eapply test_no_jump; [done|by apply Hno|done].
    + eexists. rewrite pc_set_code, code_at_set_code by (by eapply code_at_bounds). rewrite Z.eqb_refl. split; [done|].
      unfold testT. rewrite set_a_opcode, Hop, to_of_opcode. cbn. f_equal. by destruct op.
  - (* in a register *) destruct (Z.eqb_spec r (info e)) as [->|Hne].
    + split; [done|]. exists J. split; [done|]. split; [done|]. split; [done|]. split; [done|]. left. destruct Hok as [Hok|(_ & -> & ->)]; [|done].
      assert (grows fs0 fs) as Hg by apply Hc. pose proof (grows_nactvar _ _ Hg). lia.
    + eapply lsafe_bind; [by eapply luaK_codeABC_spec|]. intros [p fs'] [-> He]. split; [done|].
      assert (0 <= info e <= 255) as Hie. { assert (grows fs0 fs) as Hg by apply Hc. pose proof (grows_nactvar _ _ Hg). pose proof (wf_nactvar _ _ _ Hwf). pose proof (wf_freereg _ _ _ Hwf). lia. }
      destruct (create_abc_fields OP_MOVE r (info e) 0) as (Eo & Ea & Eb & _); [change MAXARG_A with 255; lia|change MAXARG_B with 511; lia|done|].
      eapply (placed_into _ _ _ fs); try done; [rewrite <- not_true_iff_false, is_op_iff, Eo; done|unfold testT; by rewrite Eo|lia|].
      intros cl M s w _ Hi. rewrite (step_move cl _ _ _ _ Hi Eo). by rewrite Eb.
Qed.
End Exp.
