(* ===== verification/LCompileReg.v ===== *)
(** * Values of expressions with jumps

    [exp2reg] resolves the pending jumps of an expression: value tests write the register
    and jump behind the code, the other jumps go to instructions that load a truth
    value. *)
From stdpp Require Import base list option relations.
From Stdlib Require Import ZArith Lia ZifyBool.
From S2P Require Import Prelude LObject LNum LOpcodes LProto LVm LVmProps LCode LCodeJumps LExpr LFinal LCompile LCompileExp.
#[local] Open Scope Z_scope.

Section Reg.
Context {W : Type} `{CallsKeepFrame W}.
Abbreviation meaning := (lclosure -> registers -> W -> LuaM (tvalue * W)).

Definition loadbool (r b skip : Z) : Z := CREATE_ABC (of_opcode OP_LOADBOOL) r b skip.

Lemma settest_cases r c : r <> NO_REG -> r = GETARG_B c /\ settest r c = test_of c \/ r <> GETARG_B c /\ settest r c = SETARG_A c r.
Proof.
  intros Hr. unfold settest. destruct (Z.eqb_spec r NO_REG); [done|]. destruct (Z.eqb_spec r (GETARG_B c)); cbn [negb andb]; [by left|by right].
Qed.

(** A jump of a patched list in a final code. *)
Lemma patched_landing L r vt dt fs fs1 fs2 P J cl M j b v s s' : patched L r vt dt fs fs1 -> wf fs (L ++ P) J -> j ∈ L -> 0 <= r < NO_REG ->
  agree cl M fs2 (pc fs2) P J -> pc fs2 = pc fs -> code_at fs2 j = code_at fs1 j -> code_at fs2 (j - 1) = code_at fs1 (j - 1) ->
  landed fs cl j b v s s' ->
  dest cl j = target fs vt dt j /\
  match setter fs j with
  | Some _ => rget s' r = Some v /\ (s' = s \/ rset s r v = Some s')
  | None => v = TBoolean b /\ s' = s
  end.
Proof.
  intros Hp Hwf Hj Hr Ha Hpc E0 E1 Hl. destruct (wf_jumps _ _ _ Hwf) as [Hnd Hok]. rewrite Forall_forall in Hok.
  assert (jump_ok fs j) as Hjo by (apply Hok; apply elem_of_app; left; apply elem_of_app; by left).
  assert (j ∉ P ++ J) as HjP. { rewrite <- app_assoc in Hnd. apply NoDup_app in Hnd as (_ & Hd & _). by apply Hd. }
  destruct (jump_word _ _ Hjo) as (w & Hw & Hjmp). pose proof (jump_ok_bounds _ _ Hjo) as Hb.
  assert (instr_at cl j = Some (SETARG_sBx w (target fs vt dt j - (j + 1)))) as Hi.
  { eapply agree_plain; [done|lia| |done|..].
    - rewrite E0, (patched_words _ _ _ _ _ _ Hp _ _ Hw). unfold patch_word. by rewrite bool_decide_eq_true_2.
    - rewrite (is_op_same _ _ w) by apply set_sbx_opcode. by rewrite (is_op_other OP_JMP OP_TESTSET w).
    - rewrite (is_op_same _ _ w) by apply set_sbx_opcode. by apply (is_op_other OP_JMP). }
  split.
  - unfold dest. rewrite Hi. pose proof (patched_near _ _ _ _ _ _ Hp _ Hj) as Hn. destruct (set_sbx_fields w (target fs vt dt j - (j + 1))) as (-> & _); lia.
  - unfold landed in Hl. destruct (setter fs j) as [c|] eqn:Hs; [|done]. apply setter_some in Hs as [Hc Ht]. destruct Hl as (Hv & c' & Hc' & Hld).
    pose proof (code_at_bounds _ _ _ Hc) as Hbc.
    assert (j - 1 ∉ L ++ P ++ J) as HcP.
    { intros Hin. rewrite app_assoc in Hin. apply Hok in Hin. eapply test_no_jump; [exact Hc|by apply (is_op_other OP_TESTSET)|done]. }
    assert (instr_at cl (j - 1) = Some (settest r c)) as Hi1.
    { eapply agree_plain; [done|lia| |..].
      - rewrite E1, (patched_words _ _ _ _ _ _ Hp _ _ Hc). unfold patch_word. rewrite bool_decide_eq_false_2 by (intros ?; apply HcP, elem_of_app; by left).
        rewrite Ht. cbn [andb]. replace (j - 1 + 1) with j by lia. by rewrite bool_decide_eq_true_2.
      - intros Hin. apply HcP, elem_of_app. by right.
      - by replace (j - 1 + 1) with j by lia.
      - unfold settest. destruct (negb _ && negb _); [|by apply (is_op_other OP_TEST); [apply test_of_opcode|]].
        rewrite (is_op_same OP_LOADNIL (SETARG_A c r) c) by apply set_a_opcode. by apply (is_op_other OP_TESTSET). }
    rewrite Hi1 in Hc'. injection Hc' as <-. destruct (settest_cases r c) as [[Er Es]|[Er Es]]; [lia|..]; rewrite Es in Hld.
    + assert (is_op OP_TESTSET (test_of c) = false) as Ef by exact (is_op_other OP_TEST OP_TESTSET _ (test_of_opcode c) ltac:(discriminate)).
      rewrite Ef in Hld. subst s' r. split; [done|by left].
    + assert (is_op OP_TESTSET (SETARG_A c r) = true) as Ef by (rewrite <- Ht; apply is_op_same, set_a_opcode).
      destruct (set_a_fields c r) as (Ea & _); [change NO_REG with 255 in Hr; change MAXARG_A with 255; lia|].
      rewrite Ef, Ea in Hld. split; [|by right]. by rewrite (rget_rset _ _ _ _ _ Hld), Z.eqb_refl.
Qed.

Lemma loadbool_step r b skip cl s p w : 0 <= r <= MAXARG_A -> (b = 0 \/ b = 1) -> (skip = 0 \/ skip = 1) -> instr_at cl p = Some (loadbool r b skip) ->
  vm_step cl (at_ s p w) = put (loadbool r b skip) s (p + 1 + skip) (lret (TBoolean (negb (b =? 0)), w)) /\ GETARG_A (loadbool r b skip) = r.
Proof.
  intros Hr Hb Hs Hi. destruct (create_abc_fields OP_LOADBOOL r b skip) as (Eo & Ea & Eb & Ec); [done|change MAXARG_B with 511; lia|change MAXARG_C with 511; lia|].
  split; [|done]. rewrite (step_loadbool cl _ _ _ _ Hi) by exact Eo. fold (loadbool r b skip) in Eb, Ec. rewrite Eb, Ec.
  destruct Hs as [->| ->]; [by rewrite Z.add_0_r|done].
Qed.

(** Where the truth values are loaded, if a jump needs it. *)
Definition bools_at (fs : FuncState) (r p_f p_t : Z) : Prop :=
  p_f + 2 = pc fs /\ p_t + 1 = pc fs /\ code_at fs p_f = Some (loadbool r 0 1) /\ code_at fs p_t = Some (loadbool r 1 0).

(** The pending jumps of the value get their targets. *)
Lemma resolve fs0 P J0 fs T F J m r tl fl p_f p_t : coded fs0 P J0 fs (pc fs) T F J (reg_main r) m ->
  chain fs tl T -> chain fs fl F -> freereg fs0 <= r < maxstacksize fs -> 0 <= freereg fs0 -> lasttarget fs = pc fs ->
  Forall (fun j => setter fs j <> None) (T ++ F) \/ bools_at fs r p_f p_t ->
  lsafe (let* fs1 := patchlistaux fl (pc fs) r p_f fs in patchlistaux tl (pc fs) r p_t fs1)
    (fun fs' => coded fs0 P J0 fs' (pc fs') [] [] J (reg_main r) m /\ freereg fs' = freereg fs /\ lasttarget fs' = pc fs').
Proof.
  intros Hc Ht Hf Hr Hfr0 Hlt Hbools. assert (wf fs (T ++ F ++ P) J) as Hwf by apply Hc.
  pose proof (wf_stack _ _ _ Hwf) as Hms. change MAXSTACK with 250 in Hms. assert (0 <= r < NO_REG) as HrN by (change NO_REG with 255; lia).
  assert (T ++ F ++ P ≡ₚ F ++ T ++ P) as Hperm by solve_Permutation. pose proof (wf_perm _ _ _ _ Hperm Hwf) as Hwf'.
  destruct (wf_jumps _ _ _ Hwf) as [Hnd Hok]. rewrite Forall_forall in Hok.
  assert (NoDup (T ++ F)) as HndTF by (by rewrite !app_assoc in Hnd; do 2 apply NoDup_app in Hnd as (Hnd & _ & _)).
  apply NoDup_app in HndTF as (HndT & HTF & HndF).
  assert (forall i, i ∈ T -> jump_ok fs i) as HokT by (intros i Hi; apply Hok; rewrite !elem_of_app; tauto).
  assert (forall i, i ∈ F -> jump_ok fs i) as HokF by (intros i Hi; apply Hok; rewrite !elem_of_app; tauto).
  eapply lsafe_bind; [by apply (patchlistaux_spec F)|]. intros fs1 H1. pose proof (patched_wf _ _ _ _ _ _ _ _ H1 Hwf') as Hwf1.
  pose proof (patched_pc _ _ _ _ _ _ H1) as Hpc1. destruct (patched_rest _ _ _ _ _ _ H1) as (R1 & Lt1 & _).
  assert (forall i, i ∈ T -> jump_ok fs1 i) as HokT1 by (intros i Hi; by apply (patched_jump_ok _ _ _ _ _ _ H1), HokT).
  eapply lsafe_mono; [apply (patchlistaux_spec T); [|done|done]|].
  { apply (patched_chain _ _ _ _ _ _ H1); [|done|done]. intros j Hj. split; [by apply HokT|by apply HTF]. }
  intros fs' H2. pose proof (patched_wf _ _ _ _ _ _ _ _ H2 Hwf1) as Hwf2. pose proof (patched_pc _ _ _ _ _ _ H2) as Hpc2.
  destruct (patched_rest _ _ _ _ _ _ H2) as (R2 & Lt2 & _).
  split; [|split; [destruct R1, R2; congruence|congruence]].
  destruct Hc as [_ Hkeep Hgrow Hsem]. split.
  - done.
  - eapply keeps_trans; [done|]. eapply keeps_trans.
    + eapply keeps_mono; [|eapply (patched_keeps F _ _ _ (T ++ P)); [exact H1|exact Hwf']]. intros x Hx. apply elem_of_app. by right.
    + eapply (patched_keeps T _ _ _ P); [exact H2|exact Hwf1].
  - eapply grows_trans; [done|]. eapply grows_trans; apply grows_rest; [exact R1|lia|exact R2|lia].
  - intros cl M Ha. assert (r < M) as HrM. { pose proof (agree_stack _ _ _ _ _ _ Ha). destruct R1, R2. lia. }
    assert (agree cl M fs1 (pc fs1) (T ++ P) J) as Ha1.
    { rewrite <- Hpc2. eapply patched_agree; [done..|lia]. }
    assert (agree cl M fs (pc fs) (T ++ F ++ P) J) as Ha0.
    { eapply agree_perm; [symmetry; exact Hperm|]. rewrite <- Hpc1. eapply patched_agree; [done..|lia]. }
    destruct (Hsem cl M Ha0) as [Hagree Hrun]. split; [done|]. intros s w Hl Hcl f.
    assert (forall s', clean cl M fs' s') as Hclean by (intros s'; apply clean_label; congruence).
    (* a jump arrives at the end with the value *)
    assert (forall j (b : bool) v w' s1 s', j ∈ T ++ F -> l_isfalse v = negb b -> same_below (freereg fs0) s s1 -> reaches cl f (at_ s' (dest cl j) w') ->
      m cl s w = lret (v, w') -> dest cl j = target fs (pc fs) (if b then p_t else p_f) j ->
      match setter fs j with Some _ => rget s' r = Some v /\ (s' = s1 \/ rset s1 r v = Some s') | None => v = TBoolean b /\ s' = s1 end ->
      arrives fs' cl M (pc fs') (freereg fs0) s f (reg_main r cl) (m cl s w)) as Harr.
    { intros j b v w' s1 s' Hj Hv Hb Hre Em Hd Hland. unfold target in Hd. rewrite Em. destruct (setter fs j) as [c|] eqn:Hs.
      - destruct Hland as [Hg Hss]. exists s', w'. split; [rewrite Hpc2, Hpc1, <- Hd; exact Hre|]. split; [|split; [done|unfold reg_main; by rewrite Hg]].
        destruct Hss as [->|Hset]; [done|]. eapply same_below_trans; [done|]. eapply same_below_set; [done|lia].
      - destruct Hland as [-> ->]. destruct Hbools as [Hall|(Ef & Et & Cf & Ct)].
        { rewrite Forall_forall in Hall. by apply Hall in Hj. }
        assert (forall q b' sk, code_at fs q = Some (loadbool r b' sk) -> (b' = 0 \/ b' = 1) -> (sk = 0 \/ sk = 1) -> instr_at cl q = Some (loadbool r b' sk)) as Hword.
        { intros q b' sk Hq Hb' Hsk.
          destruct (create_abc_fields OP_LOADBOOL r b' sk) as (Eo & _); [change MAXARG_A with 255; lia|change MAXARG_B with 511; lia|change MAXARG_C with 511; lia|].
          apply is_op_iff in Eo. fold (loadbool r b' sk) in Eo. eapply agree_plain; [exact Ha0|by eapply code_at_bounds|exact Hq|..].
          - intros Hin. apply Hok in Hin. eapply test_no_jump; [exact Hq|exact (is_op_other OP_LOADBOOL OP_JMP _ Eo ltac:(discriminate))|done].
          - by rewrite (is_op_other OP_LOADBOOL OP_TESTSET _ Eo ltac:(discriminate)).
          - exact (is_op_other OP_LOADBOOL OP_LOADNIL _ Eo ltac:(discriminate)). }
        assert (exists s2, vm_step cl (at_ s1 (dest cl j) w') = goes s2 (pc fs') w' /\ rset s1 r (TBoolean b) = Some s2) as (s2 & Hstep & Hset).
        { assert (Z.of_nat (length s1) = M) as Hl1 by (destruct Hb as [-> _]; done). destruct (rset_some s1 r (TBoolean b)) as [s2 E2]; [lia|].
          exists s2. split; [|done]. rewrite Hd. destruct b.
          - destruct (loadbool_step r 1 0 cl s1 p_t w') as [E Ea]; [change MAXARG_A with 255; lia|by right|by left|apply Hword; [done|by right|by left]|].
            rewrite E. unfold put. cbn [lbind lret]. rewrite Ea. change (negb (1 =? 0)) with true. rewrite E2. cbn [llift fmap option_fmap option_map lbind]. by replace (p_t + 1 + 0) with (pc fs') by lia.
          - destruct (loadbool_step r 0 1 cl s1 p_f w') as [E Ea]; [change MAXARG_A with 255; lia|by left|by right|apply Hword; [done|by left|by right]|].
            rewrite E. unfold put. cbn [lbind lret]. rewrite Ea. change (negb (0 =? 0)) with false. rewrite E2. cbn [llift fmap option_fmap option_map lbind]. by replace (p_f + 1 + 1) with (pc fs') by lia. }
        exists s2, w'. split; [by eapply reaches_step|]. split; [eapply same_below_trans; [done|]; eapply same_below_set; [done|lia]|].
        split; [done|]. unfold reg_main. by rewrite (rget_rset _ _ _ _ _ Hset), Z.eqb_refl. }
    destruct (Hrun s w Hl Hcl) as [Hfail|[(j & v & w' & s1 & s' & Hj & Em & Hv & Hb & Hld & Hre)|[(j & v & w' & s1 & s' & Hj & Em & Hv & Hb & Hld & Hre)|(s' & w' & Hre & Hb & _ & Hm)]]].
    + by left.
    + do 3 right. assert (setter fs1 j = setter fs j) as Hset1 by (apply (patched_setter _ _ _ _ _ _ H1); [by apply HokT|by apply HTF|done]).
      destruct (patched_landing T r (pc fs) p_t fs1 fs' fs' P J cl M j true v s1 s') as [Hd Hland]; try done; [by eapply landed_keeps|].
      eapply (Harr j true); try done; [apply elem_of_app; by left| |by rewrite Hset1 in Hland]. unfold target in *. by rewrite Hset1 in Hd.
    + do 3 right. destruct (patched_landing F r (pc fs) p_f fs fs1 fs1 (T ++ P) J cl M j false v s1 s') as [Hd Hland]; try done.
      eapply (Harr j false); try done. apply elem_of_app; by right.
    + do 3 right. exists s', w'. rewrite Hpc2, Hpc1. done.
Qed.

(** The two loads of truth values. *)
Record two_bools (Q : list Z) (r : Z) (fs fs' : FuncState) : Prop := {
  two_bools_at : bools_at fs' r (pc fs) (pc fs + 1);
  two_wf : wf fs' Q [];
  two_keeps : keeps Q fs fs';
  two_rest : same_rest fs fs';
  two_old i : i < pc fs -> code_at fs' i = code_at fs i;
  two_agree cl M n : pc fs' <= n -> agree cl M fs' n Q [] -> agree cl M fs (pc fs) Q [];
}.

Lemma emits_same P ws fs fs' i : emits P [] ws fs fs' -> i < pc fs -> code_at fs' i = code_at fs i.
Proof.
  intros He Hi. destruct (code_at fs i) as [w|] eqn:Hw.
  - rewrite (emits_old _ _ _ _ _ He _ _ Hw). unfold patch_word. by rewrite !bool_decide_eq_false_2, andb_false_r by apply not_elem_of_nil.
  - destruct (code_at fs' i) as [w|] eqn:Hw'; [|done]. apply code_at_bounds in Hw'. destruct (code_at_some fs i) as [? ?]; [lia|]. congruence.
Qed.

Lemma two_bools_spec Q r fs : wf fs Q [] -> 0 <= r <= MAXARG_A ->
  lsafe (let* (p_f, fs1) := code_label r 0 1 fs in let* (p_t, fs2) := code_label r 1 0 fs1 in lret (p_f, p_t, fs2))
    (fun '(p_f, p_t, fs') => p_f = pc fs /\ p_t = pc fs + 1 /\ two_bools Q r fs fs').
Proof.
  intros Hwf Hr. eapply lsafe_bind; [by eapply (code_label_emits r 0 1)|]. intros [p_f fs1] [-> E1].
  eapply lsafe_bind; [eapply (code_label_emits r 1 0); [apply E1|done..]|]. intros [p_t fs2] [-> E2]. cbn [lsafe lret].
  pose proof (emits_pc _ _ _ _ _ E1) as P1. pose proof (emits_pc _ _ _ _ _ E2) as P2. cbn in P1, P2. split; [done|]. split; [done|].
  pose proof (emits_word _ _ _ _ _ E1 0%nat _ eq_refl) as W1. pose proof (emits_word _ _ _ _ _ E2 0%nat _ eq_refl) as W2.
  cbn in W1, W2. rewrite Z.add_0_r in W1, W2. split.
  - split; [lia|]. split; [lia|]. split; [|by replace (pc fs + 1) with (pc fs1) by lia]. by rewrite (emits_same _ _ _ _ _ E2) by lia.
  - apply E2.
  - eapply keeps_trans; [apply E1|apply E2].
  - eapply same_rest_trans; [apply E1|apply E2].
  - intros i Hi. rewrite (emits_same _ _ _ _ _ E2), (emits_same _ _ _ _ _ E1) by lia. done.
  - intros cl M n Hn Ha. apply (emits_agree _ _ _ _ _ E1 cl M (pc fs1)); [lia|]. apply (emits_agree _ _ _ _ _ E2 cl M n); [lia|done].
Qed.

Lemma code_at_none fs fs' i : pc fs' = pc fs -> code_at fs i = None -> code_at fs' i = None.
Proof.
  intros E Hi. destruct (code_at fs' i) as [w|] eqn:Hw; [|done]. apply code_at_bounds in Hw. rewrite E in Hw.
  apply code_at_some in Hw as [? ?]. congruence.
Qed.

(** Behind a value in its register: the loads are jumped over. *)
Lemma bools_behind_value fs0 P J0 fs T F m r : coded fs0 P J0 fs (pc fs) T F [] (reg_main r) m -> settled fs [] -> 0 <= r <= MAXARG_A ->
  lsafe (let* (fj, fs) := luaK_jump fs in
         let* (p_f, p_t, fs) := (let* (p_f, fs1) := code_label r 0 1 fs in let* (p_t, fs2) := code_label r 1 0 fs1 in lret (p_f, p_t, fs2)) in
         let* fs := luaK_patchtohere fj fs in lret (p_f, p_t, fs))
    (fun '(p_f, p_t, fs') => exists J', coded fs0 P J0 fs' (pc fs') T F J' (reg_main r) m /\ bools_at fs' r p_f p_t /\
       keeps (T ++ F ++ P) fs fs' /\ lasttarget fs' = pc fs' /\ freereg fs' = freereg fs /\ maxstacksize fs' = maxstacksize fs).
Proof.
  intros Hc [_ (wl & Hwl & Htl)] Hr. assert (wf fs (T ++ F ++ P) []) as Hwf by apply Hc. set (Q := T ++ F ++ P) in *.
  eapply lsafe_bind; [eapply (luaK_jump_emits fs Q); [done|by eauto]|]. intros [fj fs1] (-> & P1 & W1 & Hwf1 & K1 & R1 & A1).
  eapply lsafe_bind; [by eapply two_bools_spec|]. intros [[p_f p_t] fs2] (-> & -> & [B2 Hwf2 K2 R2 O2 A2]).
  eapply lsafe_bind; [apply (luaK_patchtohere_spec (pc fs) [pc fs] fs2 Q []); [exact Hwf2|]|].
  { split; [done|]. split; [pose proof (pc_nonneg fs); unfold NO_JUMP; lia|]. exists NO_JUMP. split; [|done]. apply jmp_word_open. by rewrite O2 by lia. }
  intros fs3 (Hwf3 & Rw3 & Lt3 & A3). cbn [lsafe lret app] in *. pose proof (rewired_pc _ _ _ Rw3) as P3.
  assert (forall i, code_at fs3 i = code_at fs2 i) as O3 by (intros i; apply (rewired_other _ _ _ Rw3), not_elem_of_nil).
  destruct B2 as (Bf & Bt & Cf & Ct). exists [pc fs].
  assert (keeps Q fs fs3) as HkQ.
  { eapply keeps_trans; [exact K1|]. eapply keeps_trans; [eapply keeps_mono; [|exact K2]; intros x Hx; by apply list_elem_of_further|].
    apply (rewired_keeps [] _ _ _ Rw3). by intros i Hi%not_elem_of_nil. }
  destruct (rewired_rest _ _ _ Rw3) as [Rk3 Rh3 Ra3 Rf3 Rn3 Rs3].
  split; [|split; [|split; [done|split; [congruence|destruct R1, R2; split; congruence]]]].
  2: { split; [lia|]. split; [lia|]. rewrite !O3. done. }
  eapply coded_step; [exact Hc|exact Hwf3|exact HkQ|..].
  - apply grows_rest; [|lia]. eapply same_rest_trans; [exact R1|]. eapply same_rest_trans; [exact R2|apply Rw3].
  - intros cl M Ha. split.
    + eapply A1; [|eapply A2; [|apply A3; rewrite P3 in Ha; exact Ha]]; lia.
    + intros s w Hl Hcl. right. exists s, w. split; [|split; [done|split; [apply clean_label; congruence|done]]].
      destruct (agree_here _ _ _ _ _ _ (pc fs) Ha Hwf3) as (wj & Hwj & Hjmp & Hd); [apply list_elem_of_here|lia|].
      eapply reaches_step; [apply reaches_refl|]. rewrite (step_jmp cl _ _ _ _ Hwj) by (by apply is_op_iff). by rewrite Hd.
Qed.

(** Behind a test that falls through if the value is false. *)
Lemma bools_behind_test fs0 P J0 fs T F m r : coded fs0 P J0 fs (pc fs) T F [] (fun _ _ w => lret (TBoolean false, w)) m ->
  freereg fs0 <= r < maxstacksize fs -> 0 <= freereg fs0 ->
  lsafe (let* (p_f, p_t, fs) := (let* (p_f, fs1) := code_label r 0 1 fs in let* (p_t, fs2) := code_label r 1 0 fs1 in lret (p_f, p_t, fs2)) in
         let* fs := luaK_patchtohere NO_JUMP fs in lret (p_f, p_t, fs))
    (fun '(p_f, p_t, fs') => exists J', coded fs0 P J0 fs' (pc fs') T F J' (reg_main r) m /\ bools_at fs' r p_f p_t /\
       keeps (T ++ F ++ P) fs fs' /\ lasttarget fs' = pc fs' /\ freereg fs' = freereg fs /\ maxstacksize fs' = maxstacksize fs).
Proof.
  intros Hc Hr Hfr0. assert (wf fs (T ++ F ++ P) []) as Hwf by apply Hc. set (Q := T ++ F ++ P) in *.
  pose proof (wf_stack _ _ _ Hwf) as Hms. change MAXSTACK with 250 in Hms.
  eapply lsafe_bind; [eapply two_bools_spec; [done|change MAXARG_A with 255; lia]|]. intros [[p_f p_t] fs2] (-> & -> & [B2 Hwf2 K2 R2 O2 A2]).
  eapply lsafe_bind; [by apply (luaK_patchtohere_spec NO_JUMP [] fs2 Q [])|].
  intros fs3 (Hwf3 & Rw3 & Lt3 & A3). cbn [lsafe lret app] in *. pose proof (rewired_pc _ _ _ Rw3) as P3.
  assert (forall i, code_at fs3 i = code_at fs2 i) as O3 by (intros i; apply (rewired_other _ _ _ Rw3), not_elem_of_nil).
  destruct B2 as (Bf & Bt & Cf & Ct). exists [].
  assert (keeps Q fs fs3) as HkQ.
  { eapply keeps_trans; [exact K2|]. apply (rewired_keeps [] _ _ _ Rw3). by intros i Hi%not_elem_of_nil. }
  destruct (rewired_rest _ _ _ Rw3) as [Rk3 Rh3 Ra3 Rf3 Rn3 Rs3].
  split; [|split; [|split; [done|split; [congruence|destruct R2; split; congruence]]]].
  2: { split; [lia|]. split; [lia|]. rewrite !O3. done. }
  eapply coded_step; [exact Hc|exact Hwf3|exact HkQ|..].
  - apply grows_rest; [|lia]. eapply same_rest_trans; [exact R2|apply Rw3].
  - intros cl M Ha. assert (agree cl M fs2 (pc fs2) Q []) as Ha2 by (apply A3; by rewrite P3 in Ha). split; [by eapply A2|].
    intros s w <- Hcl. assert (maxstacksize fs <= Z.of_nat (length s)). { pose proof (agree_stack _ _ _ _ _ _ Ha2). destruct R2. lia. }
    destruct (create_abc_fields OP_LOADBOOL r 0 1) as (Eo & _); [change MAXARG_A with 255; lia|done|done|]. apply is_op_iff in Eo.
    assert (instr_at cl (pc fs) = Some (loadbool r 0 1)) as Hi.
    { eapply agree_plain; [exact Ha2|pose proof (pc_nonneg fs); lia|exact Cf|..].
      - rewrite app_nil_r. intros Hin. destruct (wf_pending_ok _ _ _ _ Hwf Hin) as [Hok%jump_ok_bounds _]. lia.
      - unfold loadbool. by rewrite (is_op_other OP_LOADBOOL OP_TESTSET _ Eo ltac:(discriminate)).
      - exact (is_op_other OP_LOADBOOL OP_LOADNIL _ Eo ltac:(discriminate)). }
    destruct (loadbool_step r 0 1 cl s (pc fs) w) as [Hstep Ea]; [change MAXARG_A with 255; lia|by left|by right|done|].
    destruct (rset_some s r (TBoolean false)) as [s' Es]; [lia|]. right. exists s', w. split.
    + eapply reaches_step; [apply reaches_refl|]. rewrite Hstep. unfold put. cbn [lbind lret]. rewrite Ea. change (negb (0 =? 0)) with false.
      rewrite Es. cbn [llift fmap option_fmap option_map lbind]. by replace (pc fs + 1 + 1) with (pc fs3) by lia.
    + split; [eapply same_below_set; [done|lia]|]. split; [apply clean_label; congruence|]. unfold reg_main. by rewrite (rget_rset _ _ _ _ _ Es), Z.eqb_refl.
Qed.

(** ** A test with its jump *)
Definition add_true (b : bool) (T : list Z) (j : Z) : list Z := if b then T ++ [j] else T.

Lemma add_perm b T F P j : add_true b T j ++ add_true (negb b) F j ++ P ≡ₚ j :: (T ++ F ++ P).
Proof. destruct b; cbn; solve_Permutation. Qed.

(** The jump of a comparison joins the list of the truth value it is taken for. *)
Lemma test_jump b fs0 P J0 fs T F main m i op j l : coded fs0 P J0 fs (pc fs - 2) T F [] main m ->
  code_at fs (pc fs - 2) = Some i -> GET_OPCODE i = of_opcode op -> cmp_op op = true ->
  j = pc fs - 1 -> jump_ok fs j -> getjump fs j = Some NO_JUMP -> j ∉ T ++ F ++ P ->
  (forall cl s w, main cl s w = (let* (r, w) := instr_cmp cl i s w in lret (TBoolean (xorb (Z.b2z r =? GETARG_A i) (negb b)), w))) ->
  chain fs l (if b then T else F) ->
  lsafe (luaK_concat l j fs) (fun '(l', fs') =>
    coded fs0 P J0 fs' (pc fs') (add_true b T j) (add_true (negb b) F j) [] (fun _ _ w => lret (TBoolean (negb b), w)) m /\
    chain fs' l' (if b then T ++ [j] else F ++ [j]) /\ keeps (if b then F else T) fs fs' /\ same_rest fs fs' /\ lasttarget fs' = lasttarget fs /\
    setter fs' j = None).
Proof.
  intros Hc Hi Hop Hcmp Hj Hjo Hopen Hjn Hmain Hl. assert (wf fs (T ++ F ++ P) []) as Hwf by apply Hc.
  set (L := if b then T else F) in *. assert (forall x, x ∈ L -> x ∈ T ++ F ++ P) as HL.
  { intros x Hx. unfold L in Hx. rewrite !elem_of_app. destruct b; tauto. }
  destruct (wf_jumps _ _ _ Hwf) as [Hnd Hok]. rewrite Forall_forall in Hok. rewrite app_nil_r in Hnd, Hok.
  assert (NoDup L) as HndL.
  { apply NoDup_app in Hnd as (? & _ & [? _]%NoDup_app). unfold L. by destruct b. }
  eapply lsafe_mono; [apply (luaK_concat_spec l j L [j]); [done| | |]|].
  { split; [done|]. split; [|by exists NO_JUMP]. apply jump_ok_bounds in Hjo. unfold NO_JUMP. lia. }
  { apply NoDup_app. split; [done|]. split; [|apply NoDup_singleton]. intros x Hx ->%list_elem_of_singleton. by apply Hjn, HL. }
  { intros x [Hx| ->%list_elem_of_singleton]%elem_of_app; [by apply Hok, HL|done]. }
  intros [l' fs'] [Hch Hlk]. apply linked_rewired in Hlk as Hrw. pose proof (rewired_pc _ _ _ Hrw) as Hpc.
  pose proof (rewired_rest _ _ _ Hrw) as Hrest. destruct (linked_shape _ _ _ Hlk) as (c & Ec & _).
  assert (lasttarget fs' = lasttarget fs) as Hlt by (by rewrite Ec). assert (jpc fs' = NO_JUMP) as Hjpc by (rewrite Ec; apply Hwf).
  assert (forall x, x ∈ L -> jump_ok fs x) as HokL by (intros x Hx; by apply Hok, HL).
  assert (wf fs' (T ++ F ++ P) []) as Hwf1.
  { eapply (rewired_wf L fs); [done|done|intros x Hx; rewrite app_nil_r; by apply HL|rewrite Hlt; apply Hwf|by left|done|done]. }
  assert (wf fs' (j :: T ++ F ++ P) []) as Hwf2.
  { apply wf_add; [done| |by rewrite app_nil_r]. by apply (rewired_jump_ok L fs). }
  assert (wf fs' (add_true b T j ++ add_true (negb b) F j ++ P) []) as Hwf' by (eapply wf_perm; [symmetry; apply add_perm|done]).
  assert (forall x, x ∉ L -> code_at fs' x = code_at fs x) as Ho by apply Hrw.
  assert (forall x, setter fs' x = setter fs x) as Hset by (intros x; by apply (rewired_setter L)).
  assert (is_op OP_TESTSET i = false /\ is_op OP_LOADNIL i = false /\ is_op OP_JMP i = false) as (Hits & Hinil & Hijmp).
  { apply is_op_iff in Hop. split; [|split]; apply (is_op_other op); try done; by intros ->. }
  assert (pc fs - 2 ∉ T ++ F ++ P) as Hin.
  { intros Hx. apply Hok in Hx. eapply test_no_jump; [exact Hi|done|done]. }
  assert (code_at fs' (pc fs - 2) = Some i) as Hi' by (rewrite Ho; [done|]; intros Hx; by apply Hin, HL).
  assert (setter fs j = None) as Hsj.
  { unfold setter. replace (j - 1) with (pc fs - 2) by lia. rewrite Hi. cbn. by rewrite Hits. }
  split; [|split; [by unfold L in Hch; destruct b|split; [|split; [done|split; [done|by rewrite Hset]]]]].
  2: { intros x Hx. split; [|by apply Hset]. apply Ho. intros HxL. apply NoDup_app in Hnd as (_ & Hd & _). unfold L in HxL.
       destruct b; [apply (Hd x HxL)|apply (Hd x Hx)]; apply elem_of_app; by left. }
  eapply coded_branch; [exact Hc|exact Hwf'|..].
  - apply (rewired_keeps L); [done|]. intros x Hx. split; [by apply HokL|]. intros HxP. unfold L in Hx.
    apply NoDup_app in Hnd as (_ & Hd & (_ & Hd' & _)%NoDup_app). destruct b; [apply (Hd x Hx), elem_of_app; by right|by apply (Hd' x Hx)].
  - apply grows_rest; [done|lia].
  - unfold add_true. destruct b; intros x Hx; [apply elem_of_app; by left|done].
  - unfold add_true. destruct b; intros x Hx; [done|apply elem_of_app; by left].
  - intros x _. apply Hset.
  - intros cl M Ha. apply (agree_perm _ _ _ _ _ _ _ (add_perm b T F P j)) in Ha. rewrite Hpc in Ha. pose proof (code_at_bounds _ _ _ Hi) as Hib. split.
    + eapply (rewired_agree cl M L fs fs' _ _ _ (T ++ F ++ P) []); [eapply (agree_drop _ _ _ _ _ _ _ j); [exact Ha|lia|lia|done]|done|done|..].
      * intros x Hx. rewrite app_nil_r. by apply HL.
      * by left.
      * by left.
      * by intros x Hx%not_elem_of_nil.
      * done.
    + intros s w Hl' Hcl. rewrite Hmain.
      assert (instr_at cl (pc fs - 2) = Some i) as Hci.
      { eapply agree_plain; [exact Ha|lia|exact Hi'| |by rewrite Hits|done]. rewrite app_nil_r, elem_of_cons. intros [?|?]; [lia|done]. }
      pose proof (step_compare cl s (pc fs - 2) w i op Hci Hop Hcmp) as Hstep.
      destruct (instr_cmp cl i s w) as [[[r w']|msg]|] eqn:Ecmp; cbn [lbind] in Hstep |- *.
      * destruct (Z.b2z r =? GETARG_A i) eqn:Etaken.
        -- destruct (agree_pending _ _ _ _ _ _ j Ha) as (wj & Hwj & Hwjmp); [apply list_elem_of_here|apply jump_ok_bounds in Hjo; lia| |].
           { destruct (jump_word _ _ (rewired_jump_ok L fs fs' j Hrw Hjo)) as (x & ? & _). by exists x. }
           replace (pc fs - 2 + 1) with j in Hstep by lia. rewrite (jump_taken cl s j w' wj Hwj) in Hstep.
           assert (exits fs' cl [j] b (freereg fs0) s (at_ s (pc fs - 2) w) (lret (TBoolean (xorb true (negb b)), w'))) as Hex.
           { exists j, (TBoolean b), w', s, s. split; [apply list_elem_of_here|]. split; [by destruct b|]. split; [by destruct b|]. split; [done|].
             split; [unfold landed; by rewrite Hset, Hsj|]. eapply reaches_step; [apply reaches_refl|]. rewrite Hstep. unfold dest. rewrite Hwj.
             by replace (j + GETARG_sBx wj + 1) with (j + 1 + GETARG_sBx wj) by lia. }
           unfold add_true. destruct b; [right; left|do 2 right; left]; (eapply exits_mono; [|exact Hex]); intros x Hx; apply elem_of_app; by right.
        -- do 3 right. exists s, w'. rewrite Hpc. replace (pc fs - 2 + 1) with j in Hstep by lia. split; [|split; [done|split]].
           ++ eapply reaches_step; [apply reaches_refl|]. rewrite Hstep. rewrite jump_skipped. by replace (j + 1) with (pc fs) by lia.
           ++ destruct (jump_word _ _ (rewired_jump_ok L fs fs' j Hrw Hjo)) as (x & Hx & Hxj).
              eapply clean_word; [rewrite Hpc; replace (pc fs - 1) with j by lia; exact Hx|]. exact (is_op_other OP_JMP OP_LOADNIL _ Hxj ltac:(discriminate)).
           ++ by destruct b.
      * left. right. exists msg. split; [done|]. eapply step_fails; [apply reaches_refl|exact Hstep].
      * left. by left.
Qed.
End Reg.
