(* ===== verification/LCompileVal.v ===== *)
(** * Values of compiled expressions

    The operations that bring the value of an expression, with its pending jumps, into
    a given register, the next one, any one, or an operand of an instruction. *)
From stdpp Require Import base list option relations.
From Stdlib Require Import ZArith Lia ZifyBool.
From S2P Require Import Prelude LObject LNum LOpcodes LProto LVm LVmProps LCode LCodeJumps LExpr LFinal LCompile LCompileExp LCompileReg.
#[local] Open Scope Z_scope.

Section Val.
Context {W : Type} `{CallsKeepFrame W}.
Abbreviation meaning := (lclosure -> registers -> W -> LuaM (tvalue * W)).

Lemma coded_getlabel fs0 P J0 fs T F J main m : coded fs0 P J0 fs (pc fs) T F J main m ->
  coded fs0 P J0 (with_jumps (pc fs) (jpc fs) fs) (pc fs) T F J main m.
Proof.
  intros Hc. assert (wf fs (T ++ F ++ P) J) as Hwf by apply Hc. destruct (luaK_getlabel_spec _ _ _ Hwf) as (_ & Hwf' & Hag).
  eapply coded_step; [done|done|by apply keeps_code|by apply grows_rest|]. intros cl M Ha. split; [by apply Hag|].
  intros s w Hl Hcl. right. exists s, w. split; [apply reaches_refl|]. split; [done|]. split; [by apply clean_label|done].
Qed.

Lemma coded_lists fs0 P J0 fs n T F J main m : coded fs0 P J0 fs n T F J main m ->
  NoDup (T ++ F) /\ (forall j, j ∈ T ++ F -> jump_ok fs j).
Proof.
  intros Hc. assert (wf fs (T ++ F ++ P) J) as Hwf by apply Hc. destruct (wf_jumps _ _ _ Hwf) as [Hnd Hok]. rewrite Forall_forall in Hok. split.
  - rewrite !app_assoc in Hnd. by do 2 apply NoDup_app in Hnd as (Hnd & _ & _).
  - intros j Hj. apply Hok. rewrite !app_assoc. apply elem_of_app. left. apply elem_of_app. by left.
Qed.

Lemma hasjumps_chains fs e T F : chain fs (e_t e) T -> chain fs (e_f e) F -> NoDup (T ++ F) -> hasjumps e = negb (bool_decide (T ++ F = [])).
Proof.
  intros Ht Hf Hnd. unfold hasjumps. destruct T as [|t T], F as [|f F]; cbn in Ht, Hf.
  - by rewrite Ht, Hf.
  - destruct Hf as (-> & Hf & _). rewrite Ht, bool_decide_eq_false_2 by done. by assert ((NO_JUMP =? f) = false) as -> by lia.
  - destruct Ht as (-> & Ht & _). rewrite Hf, bool_decide_eq_false_2 by done. by assert ((t =? NO_JUMP) = false) as -> by lia.
  - destruct Ht as (-> & _), Hf as (-> & _). rewrite bool_decide_eq_false_2 by done. apply NoDup_cons in Hnd as [Hn _].
    assert (t <> f). { intros ->. apply Hn, elem_of_app. right. apply list_elem_of_here. } by assert ((t =? f) = false) as -> by lia.
Qed.

(** Does a jump of the two lists need a truth value loaded? *)
Lemma need_values fs e T F : chain fs (e_t e) T -> chain fs (e_f e) F -> NoDup (T ++ F) -> (forall j, j ∈ T ++ F -> jump_ok fs j) ->
  exists nt, need_value (turns fs) fs (e_t e) = Some nt /\
    (if nt : bool then Some true else need_value (turns fs) fs (e_f e)) = Some (bool_decide (Exists (fun j => setter fs j = None) (T ++ F))).
Proof.
  intros Ht Hf Hnd Hok. apply NoDup_app in Hnd as (HndT & _ & HndF). eexists. split.
  - apply need_value_spec; [done|done|]. intros i Hi. apply Hok, elem_of_app. by left.
  - destruct (decide (Exists (fun j => setter fs j = None) T)) as [HT|HT].
    + rewrite (bool_decide_eq_true_2 _ HT). rewrite bool_decide_eq_true_2; [done|]. apply Exists_app. by left.
    + rewrite (bool_decide_eq_false_2 _ HT), (need_value_spec F) by (done || (intros i Hi; apply Hok, elem_of_app; by right)). f_equal.
      apply bool_decide_ext. rewrite Exists_app. tauto.
Qed.

(** The jumps of a value end in the register [r]: behind the value in its register, or
    behind a test that fell through. *)
Lemma jumps2reg_spec fs0 P J0 fs T F m r e main : coded fs0 P J0 fs (pc fs) T F [] main m ->
  chain fs (e_t e) T -> chain fs (e_f e) F -> freereg fs0 <= r < maxstacksize fs -> 0 <= freereg fs0 ->
  (if bool_decide (e_k e = VJMP) then (exists j, j ∈ T /\ setter fs j = None) /\ main = (fun _ _ w => lret (TBoolean false, w))
   else settled fs [] /\ main = reg_main r) ->
  lsafe (jumps2reg e r fs) (fun fs' => exists J', coded fs0 P J0 fs' (pc fs') [] [] J' (reg_main r) m /\ freereg fs' = freereg fs).
Proof.
  intros Hc Ht Hf Hr Hfr0 Hmain. destruct (coded_lists _ _ _ _ _ _ _ _ _ _ Hc) as [Hnd Hok].
  assert (wf fs (T ++ F ++ P) []) as Hwf by apply Hc. pose proof (wf_stack _ _ _ Hwf) as Hms. change MAXSTACK with 250 in Hms.
  assert (0 <= r <= MAXARG_A) as HrA by (change MAXARG_A with 255; lia).
  destruct (need_values _ _ _ _ Ht Hf Hnd Hok) as (nt & E1 & E2). unfold jumps2reg. rewrite E1. cbn [llift fmap option_fmap option_map lbind]. rewrite E2.
  cbn [llift fmap option_fmap option_map lbind].
  (* the rest, when the truth values are there or not needed *)
  assert (forall fs1 J p_f p_t, coded fs0 P J0 fs1 (pc fs1) T F J (reg_main r) m -> keeps (T ++ F ++ P) fs fs1 -> maxstacksize fs <= maxstacksize fs1 ->
    freereg fs1 = freereg fs -> Forall (fun j => setter fs1 j <> None) (T ++ F) \/ bools_at fs1 r p_f p_t ->
    lsafe (let (final, fs) := luaK_getlabel fs1 in let* fs := patchlistaux (e_f e) final r p_f fs in patchlistaux (e_t e) final r p_t fs)
      (fun fs' => exists J', coded fs0 P J0 fs' (pc fs') [] [] J' (reg_main r) m /\ freereg fs' = freereg fs)) as Hrest.
  { intros fs1 J p_f p_t Hc1 Hk1 Hs1 Hf1 Hb. unfold luaK_getlabel. pose proof (coded_getlabel _ _ _ _ _ _ _ _ _ Hc1) as Hc2.
    set (fs2 := with_jumps (pc fs1) (jpc fs1) fs1) in *. change (pc fs1) with (pc fs2).
    assert (forall l X, X ⊆ T ++ F ++ P -> chain fs l X -> chain fs2 l X) as Hch.
    { intros l X HX Hl. apply (jchain_ext fs1); [done|]. by eapply keeps_chain. }
    eapply lsafe_mono; [eapply (resolve fs0 P J0 fs2 T F J); [exact Hc2|..]|].
    - apply Hch; [|done]. intros x Hx. apply elem_of_app. by left.
    - apply Hch; [|done]. intros x Hx. apply elem_of_app. right. apply elem_of_app. by left.
    - cbn. lia.
    - done.
    - done.
    - destruct Hb as [Hb|Hb]; [by left|right]. exact Hb.
    - intros fs' (Hc' & Hf' & _). exists J. split; [done|]. rewrite Hf'. done. }
  destruct (decide (Exists (fun j => setter fs j = None) (T ++ F))) as [Hex|Hex].
  - rewrite (bool_decide_eq_true_2 _ Hex).
    set (bools := fun fj fs => let* (p_f, fs) := code_label r 0 1 fs in let* (p_t, fs) := code_label r 1 0 fs in
      let* fs := luaK_patchtohere fj fs in lret (p_f, p_t, fs)).
    assert (forall fj x, bools fj x = (let* (p_f, p_t, x) := (let* (p_f, x1) := code_label r 0 1 x in let* (p_t, x2) := code_label r 1 0 x1 in lret (p_f, p_t, x2)) in
      let* x := luaK_patchtohere fj x in lret (p_f, p_t, x))) as Eb.
    { intros fj x. unfold bools. destruct (code_label r 0 1 x) as [[[a1 x1]|]|]; cbn [lbind lret]; [|done..]. destruct (code_label r 1 0 x1) as [[[a2 x2]|]|]; done. }
    assert (lsafe (let* (fj, fs) := if bool_decide (e_k e = VJMP) then lret (NO_JUMP, fs) else luaK_jump fs in bools fj fs)
      (fun '(p_f, p_t, fs') => exists J', coded fs0 P J0 fs' (pc fs') T F J' (reg_main r) m /\ bools_at fs' r p_f p_t /\
       keeps (T ++ F ++ P) fs fs' /\ lasttarget fs' = pc fs' /\ freereg fs' = freereg fs /\ maxstacksize fs' = maxstacksize fs)) as Hb.
    { destruct (bool_decide (e_k e = VJMP)) eqn:Ek.
      - destruct Hmain as [_ ->]. cbn [lbind lret]. rewrite Eb. eapply (bools_behind_test fs0 P J0 fs T F m r); done.
      - destruct Hmain as [Hs ->].
        assert ((let* (fj, x) := luaK_jump fs in bools fj x) = (let* (fj, x) := luaK_jump fs in
          let* (p_f, p_t, x) := (let* (p_f, x1) := code_label r 0 1 x in let* (p_t, x2) := code_label r 1 0 x1 in lret (p_f, p_t, x2)) in
          let* x := luaK_patchtohere fj x in lret (p_f, p_t, x))) as -> by (destruct (luaK_jump fs) as [[[a0 x0]|]|]; cbn; [apply Eb|done..]).
        eapply (bools_behind_value fs0 P J0 fs T F m r); done. }
    eapply lsafe_bind; [exact Hb|]. intros [[p_f p_t] fs1] (J & Hc1 & Hb1 & Hk1 & Hl1 & Hf1 & Hs1).
    eapply Hrest; [exact Hc1|done|lia|done|by right].
  - rewrite (bool_decide_eq_false_2 _ Hex). cbn [lbind lret].
    destruct (bool_decide (e_k e = VJMP)).
    { destruct Hmain as [(j & Hj & Hs) _]. exfalso. apply Hex, Exists_exists. exists j. split; [|done]. apply elem_of_app. by left. }
    destruct Hmain as [Hs ->]. eapply Hrest; [exact Hc|done|done|done|]. left. apply Forall_forall. intros j Hj Hn. apply Hex, Exists_exists. by exists j.
Qed.

(** Two descriptors of the same state. *)
Lemma main_of_flow fs fs' e : same_flow fs fs' -> main_of fs' e = main_of fs e.
Proof. intros Hfl. destruct (same_code_at _ _ (flow_code _ _ Hfl)) as [_ E]. unfold main_of. destruct (e_k e); try done; by rewrite !E. Qed.
Lemma exp_ok_flow fs0 fs fs' P T F J e : same_flow fs fs' -> exp_ok fs0 fs P T F J e -> exp_ok fs0 fs' P T F J e.
Proof.
  intros Hfl. destruct (same_code_at _ _ (flow_code _ _ Hfl)) as [Hpc E]. pose proof (flow_k _ _ Hfl) as Hk%prefix_length.
  unfold exp_ok, nk. rewrite Hpc, (flow_nactvar _ _ Hfl), (flow_target _ _ Hfl). destruct (e_k e); try done; [lia..| |by rewrite E].
  intros (? & ? & Hj & Hg & ? & ?). rewrite (getjump_ext fs fs') by apply E. rewrite E. split; [done|]. split; [done|].
  split; [by eapply jump_ok_code; [apply Hfl|]|done].
Qed.
Lemma coded_flow_pc fs0 P J0 fs d T F J main m fs' : coded fs0 P J0 fs (pc fs - d) T F J main m -> same_flow fs fs' -> wf fs' (T ++ F ++ P) J ->
  coded fs0 P J0 fs' (pc fs' - d) T F J main m.
Proof. intros Hc Hfl Hwf. destruct (same_code_at _ _ (flow_code _ _ Hfl)) as [-> _]. by eapply coded_flow. Qed.

(** [e] is in the register [r] for good. *)
Definition is_reg (r : Z) (e : expdesc) : Prop := e_k e = VNONRELOC /\ info e = r /\ e_t e = NO_JUMP /\ e_f e = NO_JUMP.

Lemma exp2reg_spec fs0 P J0 fs e T F J m r : coded fs0 P J0 fs (pc fs - width e) T F J (main_of fs e) m ->
  chain fs (e_t e) T -> chain fs (e_f e) F -> exp_ok fs0 fs P T F J e -> discharged e ->
  nactvar fs0 <= freereg fs0 <= r -> r < maxstacksize fs -> 0 <= freereg fs0 ->
  lsafe (exp2reg e r fs) (fun '(e', fs') => is_reg r e' /\ exists J', coded fs0 P J0 fs' (pc fs') [] [] J' (reg_main r) m /\ freereg fs' = freereg fs).
Proof.
  intros Hc Ht Hf Hok Hd Hr Hr' Hfr0. destruct (coded_lists _ _ _ _ _ _ _ _ _ _ Hc) as [Hnd Hokj]. unfold exp2reg.
  destruct (decide (e_k e = VJMP)) as [Ek|Ek].
  - assert (discharge2reg e r fs = lret (e, fs)) as ->.
    { unfold discharge2reg, luaK_dischargevars. rewrite Ek. cbn [lbind lret]. by rewrite Ek. }
    cbn [lbind lret]. rewrite (bool_decide_eq_true_2 _ Ek). unfold exp_ok, width, main_of in *. rewrite Ek in Hok, Hc.
    destruct Hok as (-> & Ei & Hjo & Hopen & Hjn & i & op & Hi & Hop & Hcmp & HA). replace (info e - 1) with (pc fs - 2) in * by lia.
    eapply lsafe_bind; [eapply (test_jump true fs0 P J0 fs T F _ m i op (info e) (e_t e)); try done|].
    { intros cl s w. rewrite Hi. cbn [llift fmap option_fmap option_map lbind]. destruct (instr_cmp cl i s w) as [[[b w']|]|]; cbn [lbind]; [|done..].
      by rewrite xorb_false_r. }
    intros [t fs1] (Hc1 & Ht1 & Hk1 & Hr1 & _ & Hs1). cbn [add_true negb] in Hc1. cbv iota in Ht1, Hk1.
    assert (chain fs1 (e_f e) F) as Hf1 by (eapply keeps_chain; [exact Hk1|done|done]).
    destruct (coded_lists _ _ _ _ _ _ _ _ _ _ Hc1) as [Hnd1 _].
    rewrite (hasjumps_chains fs1 (exp_lists t (e_f e) e) (T ++ [info e]) F Ht1 Hf1 Hnd1). rewrite bool_decide_eq_false_2 by (by destruct T). cbn [negb].
    assert (maxstacksize fs1 = maxstacksize fs /\ freereg fs1 = freereg fs) as [Em Ef] by (by destruct Hr1).
    eapply lsafe_bind; [eapply (jumps2reg_spec fs0 P J0 fs1 (T ++ [info e]) F m r); [exact Hc1|done|done|lia|done|]|].
    + cbn. rewrite (bool_decide_eq_true_2 _ Ek). split; [|done]. exists (info e). split; [|done]. apply elem_of_app. right. apply list_elem_of_here.
    + intros fs' (J' & Hc' & Hf'). cbn [lsafe lret]. split; [done|]. exists J'. split; [done|congruence].
  - eapply lsafe_bind; [by eapply discharge2reg_placed|]. intros [e1 fs1] [-> (J1 & Hc1 & Hk1 & Hf1 & Hms1 & Hs1)].
    cbn [e_k exp_is]. change (bool_decide (VNONRELOC = VJMP)) with false. cbn [lbind lret e_t e_f exp_is exp_lists].
    assert (chain fs1 (e_t e) T /\ chain fs1 (e_f e) F) as [Ht1 Hf2].
    { split; (eapply keeps_chain; [exact Hk1| |done]); intros x Hx; rewrite !elem_of_app; tauto. }
    set (e1 := exp_lists (e_t e) (e_f e) (exp_is VNONRELOC r e)).
    rewrite (hasjumps_chains fs1 e1 T F Ht1 Hf2 Hnd). destruct (bool_decide (T ++ F = [])) eqn:Enil; cbn [negb].
    + apply bool_decide_eq_true, app_eq_nil in Enil as [-> ->]. cbn [lbind lret lsafe]. split; [done|]. by exists J1.
    + apply bool_decide_eq_false in Enil. destruct Hs1 as [?|[-> Hset]]; [done|].
      eapply lsafe_bind; [eapply (jumps2reg_spec fs0 P J0 fs1 T F m r e1); [exact Hc1|done|done|lia|done|]|].
      * cbn. change (bool_decide (VNONRELOC = VJMP)) with false. split; [|done]. by split.
      * intros fs' (J' & Hc' & Hf'). cbn [lsafe lret]. split; [done|]. exists J'. split; [done|congruence].
Qed.

(** The descriptor rests: its value is a constant or in a register for good. *)
Definition resting (fs : FuncState) (e : expdesc) : Prop :=
  e_t e = NO_JUMP /\ e_f e = NO_JUMP /\
  match e_k e with VKNUM => number_ok (nval e) | VK => 0 <= info e < nk fs | VNONRELOC => 0 <= info e < freereg fs | _ => False end.
Definition val_of (e : expdesc) : lclosure -> registers -> option tvalue := fun cl s =>
  match e_k e with VK => kget cl (info e) | VKNUM => Some (TNumber (nval e)) | VNONRELOC => rget s (info e) | _ => None end.

Lemma freeexp_spec fs0 P J0 fs e T F J m Q K : compiled fs0 P J0 fs e T F J m -> discharged e -> wf fs Q K -> nactvar fs0 <= freereg fs0 ->
  same_flow fs (freeexp e fs) /\ wf (freeexp e fs) Q K /\ freereg (freeexp e fs) = freereg fs0.
Proof.
  intros [Hc _ _ _ Hfree] Hd Hwf Hn. assert (grows fs0 fs) as Hg by apply Hc. pose proof (grows_nactvar _ _ Hg). unfold freeexp, temps, discharged in *.
  destruct (decide (e_k e = VNONRELOC)) as [Ek|Ek].
  - rewrite bool_decide_eq_true_2, Ek in * by done. destruct (free_reg_spec (info e) fs Q K Hwf) as (fs' & -> & Hfl & Hwf' & Hf'); [lia|].
    split; [done|]. split; [done|lia].
  - rewrite bool_decide_eq_false_2 by done. split; [done|]. split; [done|]. destruct (e_k e); done || lia.
Qed.

Lemma compiled_nactvar fs0 P J0 fs e T F J m : compiled fs0 P J0 fs e T F J m -> 0 <= nactvar fs0.
Proof. intros [Hc _ _ _ _]. assert (wf fs (T ++ F ++ P) J) as Hwf by apply Hc. pose proof (wf_nactvar _ _ _ Hwf). assert (grows fs0 fs) as Hg by apply Hc. pose proof (grows_nactvar _ _ Hg). lia. Qed.

(** Reserving a register for the value and filling it. *)
Lemma nextreg_spec fs0 P J0 fs e T F J m : compiled fs0 P J0 fs e T F J m -> discharged e -> nactvar fs0 <= freereg fs0 ->
  lsafe (let* fs1 := luaK_reserveregs 1 (freeexp e fs) in exp2reg e (freereg fs1 - 1) fs1)
    (fun '(e', fs') => is_reg (freereg fs0) e' /\ exists J', compiled fs0 P J0 fs' e' [] [] J' m).
Proof.
  intros Hcp Hd Hn. pose proof (compiled_nactvar _ _ _ _ _ _ _ _ _ Hcp) as Hn0. assert (wf fs (T ++ F ++ P) J) as Hwf by apply Hcp.
  destruct (freeexp_spec _ _ _ _ _ _ _ _ _ _ _ Hcp Hd Hwf Hn) as (Hfl1 & Hwf1 & Hf1). destruct Hcp as [Hc Ht Hf Hok Hfree].
  eapply lsafe_bind; [by eapply luaK_reserveregs_spec|]. intros fs2 (Hf2 & Hfl2 & Hwf2).
  pose proof (wf_freereg _ _ _ Hwf2) as Hmax. replace (freereg fs2 - 1) with (freereg fs0) by lia.
  eapply lsafe_mono; [eapply (exp2reg_spec fs0 P J0 fs2 e T F J m)|]; try lia.
  - rewrite (main_of_flow _ _ _ Hfl2), (main_of_flow _ _ _ Hfl1). eapply coded_flow_pc; [eapply coded_flow_pc; [done..|]|done..].
    done.
  - eapply flow_chain; [done|]. by eapply flow_chain.
  - eapply flow_chain; [done|]. by eapply flow_chain.
  - eapply exp_ok_flow; [done|]. by eapply exp_ok_flow.
  - done.
  - intros [e' fs'] (He & J' & Hc' & Hf'). split; [done|]. exists J'. destruct He as (Ek & Ei & Et & Ef). split.
    + unfold width, main_of. rewrite Ek, Z.sub_0_r. rewrite Ei. exact Hc'.
    + done.
    + done.
    + unfold exp_ok. rewrite Ek. by right.
    + unfold temps. rewrite Ek, Hf', Hf2, Hf1, Ei. f_equal. unfold temp_reg. assert (grows fs0 fs') as Hg by apply Hc'. rewrite (grows_nactvar _ _ Hg).
      rewrite register_no_k by (change BITRK with 256; pose proof (wf_stack _ _ _ Hwf2) as Hs; change MAXSTACK with 250 in Hs; lia).
      by assert ((nactvar fs0 <=? freereg fs0) = true) as -> by lia.
Qed.

Lemma luaK_exp2nextreg_spec fs0 P J0 fs e T F J m : compiled fs0 P J0 fs e T F J m -> nactvar fs0 <= freereg fs0 ->
  lsafe (luaK_exp2nextreg e fs) (fun '(e', fs') => is_reg (freereg fs0) e' /\ exists J', compiled fs0 P J0 fs' e' [] [] J' m).
Proof.
  intros Hcp Hn. unfold luaK_exp2nextreg. eapply lsafe_bind; [by eapply dischargevars_compiled|]. intros [e1 fs1] ((J1 & Hcp1) & Hd & _ & _).
  by eapply nextreg_spec.
Qed.

(** In a register for good: of a local variable or the next one. *)
Definition in_reg (fs0 : FuncState) (e : expdesc) : Prop :=
  is_reg (info e) e /\ (0 <= info e < nactvar fs0 \/ info e = freereg fs0).

Lemma luaK_exp2anyreg_spec fs0 P J0 fs e T F J m : compiled fs0 P J0 fs e T F J m -> nactvar fs0 <= freereg fs0 ->
  lsafe (luaK_exp2anyreg e fs) (fun '(e', fs') => in_reg fs0 e' /\ exists J', compiled fs0 P J0 fs' e' [] [] J' m).
Proof.
  intros Hcp Hn. unfold luaK_exp2anyreg. eapply lsafe_bind; [by eapply dischargevars_compiled|]. intros [e1 fs1] ((J1 & Hcp1) & Hd & _ & _).
  assert (lsafe (luaK_exp2nextreg e1 fs1) (fun '(e', fs') => in_reg fs0 e' /\ exists J', compiled fs0 P J0 fs' e' [] [] J' m)) as Hnext.
  { eapply lsafe_mono; [by eapply luaK_exp2nextreg_spec|]. intros [e' fs'] (He & ?). split; [|done]. destruct He as (? & Ei & ?). split; [done|by right]. }
  destruct (decide (e_k e1 = VNONRELOC)) as [Ek|Ek]; [rewrite bool_decide_eq_true_2 by done|by rewrite bool_decide_eq_false_2].
  pose proof Hcp1 as [Hc Ht Hf Hok _]. destruct (coded_lists _ _ _ _ _ _ _ _ _ _ Hc) as [Hnd _].
  assert (grows fs0 fs1) as Hg by apply Hc. pose proof (grows_nactvar _ _ Hg). unfold exp_ok in Hok. rewrite Ek in Hok.
  rewrite (hasjumps_chains _ _ _ _ Ht Hf Hnd). destruct (decide (T ++ F = [])) as [E|E].
  - rewrite (bool_decide_eq_true_2 _ E). apply app_eq_nil in E as [-> ->]. cbn [negb lsafe lret]. split; [|by exists J1].
    split; [by split|]. destruct Hok as [?|(? & _)]; [left; lia|by right].
  - rewrite (bool_decide_eq_false_2 _ E). cbn [negb]. destruct Hok as [?|(_ & -> & ->)]; [|done]. by assert ((nactvar fs1 <=? info e1) = false) as -> by lia.
Qed.

Lemma luaK_exp2val_spec fs0 P J0 fs e T F J m : compiled fs0 P J0 fs e T F J m -> nactvar fs0 <= freereg fs0 ->
  lsafe (luaK_exp2val e fs) (fun '(e', fs') => discharged e' /\ exists J', compiled fs0 P J0 fs' e' [] [] J' m).
Proof.
  intros Hcp Hn. pose proof Hcp as [Hc Ht Hf _ _]. destruct (coded_lists _ _ _ _ _ _ _ _ _ _ Hc) as [Hnd _]. unfold luaK_exp2val.
  rewrite (hasjumps_chains _ _ _ _ Ht Hf Hnd). destruct (decide (T ++ F = [])) as [E|E].
  - rewrite (bool_decide_eq_true_2 _ E). apply app_eq_nil in E as [-> ->]. cbn [negb]. eapply lsafe_mono; [by eapply dischargevars_compiled|].
    intros [e' fs'] (? & ? & _). done.
  - rewrite (bool_decide_eq_false_2 _ E). cbn [negb]. eapply lsafe_mono; [by eapply luaK_exp2anyreg_spec|]. intros [e' fs'] [[(Ek & _) _] ?].
    split; [unfold discharged; by rewrite Ek|done].
Qed.
(** ** Operands *)

Definition operand (fs : FuncState) (x : Z) (e : expdesc) : Prop :=
  resting fs e /\ (e_k e = VNONRELOC /\ x = info e \/ e_k e = VK /\ info e <= MAXINDEXRK /\ x = RKASK (info e)).

Lemma rkask_fields i : 0 <= i <= MAXINDEXRK -> ISK (RKASK i) = true /\ INDEXK (RKASK i) = i /\ 0 <= RKASK i <= MAXARG_C.
Proof.
  change MAXINDEXRK with 255. change MAXARG_C with 511. intros Hi. unfold ISK, INDEXK, RKASK. change BITRK with (2 ^ 8).
  assert (Z.testbit i 8 = false) as Hb. { destruct (Z.eq_dec i 0) as [->|]; [done|]. apply Z.bits_above_log2; [lia|]. apply Z.log2_lt_pow2; lia. }
  assert (Z.lor i (2 ^ 8) = i + 2 ^ 8) as E.
  { rewrite <- Z.add_lor_land. assert (Z.land i (2 ^ 8) = 0) as ->; [|lia]. apply Z.bits_inj'. intros n Hn. rewrite Z.land_spec, Z.bits_0.
    destruct (Z.eq_dec n 8) as [->|]; [by rewrite Hb|by rewrite (Z.pow2_bits_false 8 n), andb_false_r by lia]. }
  split; [|split; [|rewrite E; lia]].
  - apply negb_true_iff, Z.eqb_neq. intros H8. apply (f_equal (fun z => Z.testbit z 8)) in H8. by rewrite Z.land_spec, Z.lor_spec, !Z.pow2_bits_true, orb_true_r, Z.bits_0 in H8.
  - apply Z.bits_inj'. intros n Hn. rewrite Z.land_spec, Z.lnot_spec, Z.lor_spec by done.
    destruct (Z.eq_dec n 8) as [->|]; [by rewrite Z.pow2_bits_true, Hb, andb_false_r|]. by rewrite (Z.pow2_bits_false 8 n), orb_false_r, andb_true_r by lia.
Qed.

Lemma operand_range fs P J x e : wf fs P J -> operand fs x e -> 0 <= x <= MAXARG_C.
Proof.
  intros Hwf [(_ & _ & Hr) [[Ek ->]|(Ek & Hm & ->)]]; rewrite Ek in Hr.
  - pose proof (wf_freereg _ _ _ Hwf). pose proof (wf_stack _ _ _ Hwf) as Hs. change MAXSTACK with 250 in Hs. change MAXARG_C with 511. lia.
  - destruct (rkask_fields (info e)) as (_ & _ & ?); lia.
Qed.
Lemma operand_get fs P J x e cl s : wf fs P J -> operand fs x e -> rkget cl s x = val_of e cl s.
Proof.
  intros Hwf [(_ & _ & Hr) [[Ek ->]|(Ek & Hm & ->)]]; rewrite Ek in Hr; unfold rkget, val_of; rewrite Ek.
  - pose proof (wf_freereg _ _ _ Hwf). pose proof (wf_stack _ _ _ Hwf) as Hs. change MAXSTACK with 250 in Hs.
    by rewrite register_no_k by (change BITRK with 256; lia).
  - destruct (rkask_fields (info e)) as (-> & -> & _); [lia|done].
Qed.
Lemma main_of_resting fs e cl s w : resting fs e -> main_of fs e cl s w = (let* v := llift (val_of e cl s) in lret (v, w)).
Proof. intros (_ & _ & Hr). unfold main_of, val_of. by destruct (e_k e). Qed.

(** A constant in the place of the value. *)
Lemma constant_compiled fs0 P J0 fs e J m key v : compiled fs0 P J0 fs e [] [] J m -> (forall cl s w, main_of fs e cl s w = lret (v, w)) -> width e = 0 ->
  temps fs e = 0 -> h_error key = None -> minus_zero key = false -> constant_of fs key = v -> nk fs <= MAXINDEXRK ->
  lsafe (let* (i, fs) := addk key v fs in lret (RKASK i, exp_is VK i e, fs))
    (fun '(x, e', fs') => operand fs' x e' /\ exists J', compiled fs0 P J0 fs' e' [] [] J' m).
Proof.
  intros [Hc Ht Hf _ Hfree] Hmain Hw Htmp Herr Hz Hkey Hmax. assert (wf fs ([] ++ [] ++ P) J) as Hwf by apply Hc.
  eapply lsafe_bind; [by eapply addk_spec|]. intros [i fs1] (Hi & Hk & Hfl & Hwf1 & Hf1 & Hle). cbn [lsafe lret]. split.
  - split; [split; [exact Ht|split; [exact Hf|exact Hi]]|]. right. split; [done|]. cbn. split; [lia|done].
  - exists J. split.
    + unfold width, main_of. cbn. rewrite Z.sub_0_r. destruct (same_code_at _ _ (flow_code _ _ Hfl)) as [Hpc _]. rewrite Hpc. rewrite Hw, Z.sub_0_r in Hc.
      eapply coded_step; [exact Hc|done|by apply keeps_code, Hfl|by apply grows_flow|]. intros cl M Ha. split; [by eapply flow_agree|].
      intros s w Hl Hcl. right. exists s, w. split; [apply reaches_refl|]. split; [done|]. split; [by eapply flow_clean|]. rewrite Hmain.
      pose proof (agree_k _ _ _ _ _ _ Ha) as Hpre. unfold kget. assert ((i <? 0) = false) as -> by lia. by rewrite (prefix_lookup_Some _ _ _ _ Hk Hpre).
    + by eapply flow_chain.
    + by eapply flow_chain.
    + done.
    + unfold temps. cbn. lia.
Qed.

Lemma in_reg_operand fs0 P J0 fs e J m : compiled fs0 P J0 fs e [] [] J m -> in_reg fs0 e -> nactvar fs0 <= freereg fs0 -> operand fs (info e) e.
Proof.
  intros Hcp ((Ek & _ & Et & Ef) & Hr) Hn. pose proof (compiled_nactvar _ _ _ _ _ _ _ _ _ Hcp). pose proof Hcp as [Hc _ _ _ Hfr].
  assert (wf fs ([] ++ [] ++ P) J) as Hwf by apply Hc. pose proof (wf_nactvar _ _ _ Hwf). assert (grows fs0 fs) as Hg by apply Hc.
  pose proof (grows_nactvar _ _ Hg). split; [|by left]. split; [done|]. split; [done|]. rewrite Ek. destruct Hr as [?|Hr]; [lia|].
  unfold temps in Hfr. rewrite Ek in Hfr. unfold temp_reg in Hfr. rewrite Hr in *. rewrite register_no_k in Hfr.
  - assert ((nactvar fs <=? freereg fs0) = true) as E by lia. rewrite E in Hfr. cbn in Hfr. lia.
  - pose proof (wf_freereg _ _ _ Hwf). pose proof (wf_stack _ _ _ Hwf) as Hs. change MAXSTACK with 250 in Hs. change BITRK with 256.
    pose proof (temp_reg_nonneg fs (freereg fs0)) as Ht. unfold temp_reg in Ht. lia.
Qed.

Lemma luaK_exp2RK_spec fs0 P J0 fs e T F J m : compiled fs0 P J0 fs e T F J m -> nactvar fs0 <= freereg fs0 ->
  lsafe (luaK_exp2RK e fs) (fun '(x, e', fs') => operand fs' x e' /\ exists J', compiled fs0 P J0 fs' e' [] [] J' m).
Proof.
  intros Hcp Hn. unfold luaK_exp2RK. eapply lsafe_bind; [by eapply luaK_exp2val_spec|]. intros [e1 fs1] (Hd & J1 & Hcp1). cbv zeta.
  assert (lsafe (let* (e, fs) := luaK_exp2anyreg e1 fs1 in lret (info e, e, fs))
    (fun '(x, e', fs') => operand fs' x e' /\ exists J', compiled fs0 P J0 fs' e' [] [] J' m)) as Hreg.
  { eapply lsafe_bind; [by eapply luaK_exp2anyreg_spec|]. intros [e2 fs2] (Hin & J2 & Hcp2). cbn [lsafe lret]. split; [|by exists J2].
    by eapply in_reg_operand. }
  pose proof Hcp1 as [Hc1 Ht1 Hf1 Hok1 _]. unfold exp_ok in Hok1. assert (main_of fs1 e1 = main_of fs1 e1) as Hmain by done. unfold main_of at 2 in Hmain.
  assert (wf fs1 ([] ++ [] ++ P) J1) as Hwf1 by apply Hc1.
  destruct (e_k e1) eqn:Ek; try exact Hreg.
  - (* nil *) destruct (Z.leb_spec (nk fs1) MAXINDEXRK); [|exact Hreg]. eapply constant_compiled; try done; try (intros; by rewrite Hmain); unfold width, temps; try by rewrite Ek.
    cbn. by rewrite Z.eqb_refl.
  - (* true *) destruct (Z.leb_spec (nk fs1) MAXINDEXRK); [|exact Hreg]. eapply constant_compiled; try done; try (intros; by rewrite Hmain); unfold width, temps; by rewrite Ek.
  - (* false *) destruct (Z.leb_spec (nk fs1) MAXINDEXRK); [|exact Hreg]. eapply constant_compiled; try done; try (intros; by rewrite Hmain); unfold width, temps; by rewrite Ek.
  - (* constant *) destruct (Z.leb_spec (info e1) MAXINDEXRK); [|exact Hreg]. cbn [lsafe lret]. split; [|by exists J1].
    split; [|right; done]. split; [exact Ht1|]. split; [exact Hf1|]. by rewrite Ek.
  - (* number *) destruct (Z.leb_spec (nk fs1) MAXINDEXRK); [|exact Hreg]. destruct Hok1 as [Hnan Hmz].
    eapply constant_compiled; try done; try (intros; by rewrite Hmain); unfold width, temps; try by rewrite Ek. cbn. by rewrite Hnan.
Qed.
End Val.
