(* ===== verification/LCompileOps.v ===== *)
(** * Operators

    Arithmetic with constant folding, comparisons and indexing, over operands that rest
    while the code of the next one is made. *)
From stdpp Require Import base list option relations.
From Stdlib Require Import ZArith Lia ZifyBool.
From S2P Require Import Prelude LObject LNum LOpcodes LProto LVm LVmProps LCode LCodeJumps LExpr LFinal LCompile LCompileExp LCompileReg LCompileVal.
#[local] Open Scope Z_scope.

Section Ops.
Context {W : Type} `{CallsKeepFrame W}.
Abbreviation meaning := (lclosure -> registers -> W -> LuaM (tvalue * W)).

(** A meaning that reads only the registers below [n]. *)
Definition stable (n : Z) (m : meaning) : Prop := forall cl s s' w, same_below n s s' -> m cl s' w = m cl s w.

Lemma stable_mono n n' m : n <= n' -> stable n m -> stable n' m.
Proof. intros Hn Hm cl s s' w Hb. apply Hm. by eapply same_below_mono. Qed.

(** ** Descriptors that rest *)
Lemma temps_same fs fs' e : nactvar fs' = nactvar fs -> temps fs' e = temps fs e.
Proof. intros E. unfold temps, temp_reg. by rewrite E. Qed.
Lemma temps_nonneg fs e : 0 <= temps fs e.
Proof. unfold temps. pose proof (temp_reg_nonneg fs (info e)). pose proof (temp_reg_nonneg fs (aux e)). destruct (e_k e); lia. Qed.
Lemma val_of_below fs e cl s s' : resting fs e -> same_below (freereg fs) s s' -> val_of e cl s' = val_of e cl s.
Proof. intros (_ & _ & Hr) [_ Hb]. unfold val_of. destruct (e_k e); try done. apply Hb. lia. Qed.
Lemma resting_grows fs fs' e : resting fs e -> k fs `prefix_of` k fs' -> freereg fs <= freereg fs' -> resting fs' e.
Proof. intros (? & ? & Hr) Hk%prefix_length Hf. split; [done|]. split; [done|]. unfold nk in *. destruct (e_k e); try done; lia. Qed.
Lemma operand_grows fs fs' x e : operand fs x e -> k fs `prefix_of` k fs' -> freereg fs <= freereg fs' -> operand fs' x e.
Proof. intros [Hr Hx] Hk Hf. split; [by eapply resting_grows|done]. Qed.

Lemma freeexp_temps fs e P J : resting fs e -> wf fs P J -> nactvar fs <= freereg fs - temps fs e ->
  same_flow fs (freeexp e fs) /\ wf (freeexp e fs) P J /\ freereg (freeexp e fs) = freereg fs - temps fs e.
Proof.
  intros (_ & _ & Hr) Hwf Hn. unfold freeexp, temps in *. destruct (decide (e_k e = VNONRELOC)) as [Ek|Ek].
  - rewrite (bool_decide_eq_true_2 _ Ek). rewrite Ek in *. destruct (free_reg_spec (info e) fs P J Hwf) as (fs' & -> & Hfl & Hwf' & Hf'); [lia|]. done.
  - rewrite (bool_decide_eq_false_2 _ Ek). split; [done|]. split; [done|]. destruct (e_k e); done || lia.
Qed.

(** An operand stays as it is. *)
Lemma exp2RK_operand fs x e : operand fs x e -> luaK_exp2RK e fs = lret (x, e, fs).
Proof.
  intros [(Et & Ef & Hr) Hx]. unfold luaK_exp2RK, luaK_exp2val, hasjumps. rewrite Et, Ef, Z.eqb_refl. cbn [negb].
  unfold luaK_dischargevars. destruct Hx as [[Ek ->]|(Ek & Hi & ->)]; rewrite Ek; cbn [lbind lret]; rewrite Ek.
  - unfold luaK_exp2anyreg, luaK_dischargevars, hasjumps. rewrite Ek. cbn [lbind lret]. rewrite bool_decide_eq_true_2, Et, Ef, Z.eqb_refl by done. done.
  - by assert ((info e <=? MAXINDEXRK) = true) as -> by lia.
Qed.

(** The first operand of a binary operation, and the second behind it. *)
Record operands (fs0 : FuncState) (P J0 : list Z) (fs : FuncState) (e1 e2 : expdesc) (J : list Z) (m1 m2 : meaning) : Prop := {
  ops_fst : resting fs e1;
  ops_snd : resting fs e2;
  ops_free : freereg fs = freereg fs0 + temps fs e1 + temps fs e2;
  ops_coded (op : lclosure -> tvalue -> tvalue -> W -> LuaM (tvalue * W)) : coded fs0 P J0 fs (pc fs) [] [] J
    (fun cl s w => let* v1 := llift (val_of e1 cl s) in let* v2 := llift (val_of e2 cl s) in op cl v1 v2 w)
    (fun cl s w => let* (v1, w) := m1 cl s w in let* (v2, w) := m2 cl s w in op cl v1 v2 w);
}.

Lemma lift_comm {A B C} (o1 : option A) (o2 : option B) (f : A -> B -> LuaM C) :
  (let* a := llift o1 in let* b := llift o2 in f a b) = (let* b := llift o2 in let* a := llift o1 in f a b).
Proof. by destruct o1, o2. Qed.

Lemma width_resting fs e : resting fs e -> width e = 0.
Proof. intros (_ & _ & Hr). unfold width. by destruct (e_k e). Qed.

Lemma operands_intro fs0 P J0 fs1 e1 J1 m1 fs2 e2 J2 m2 : compiled fs0 P J0 fs1 e1 [] [] J1 m1 -> resting fs1 e1 ->
  compiled fs1 P J1 fs2 e2 [] [] J2 m2 -> resting fs2 e2 -> stable (freereg fs0) m2 -> nactvar fs0 <= freereg fs0 -> operands fs0 P J0 fs2 e1 e2 J2 m1 m2.
Proof.
  intros [Hc1 _ _ _ Hf1] Hr1 [Hc2 _ _ _ Hf2] Hr2 Hst Hn. assert (grows fs1 fs2) as Hg by apply Hc2.
  pose proof (temps_nonneg fs2 e2). pose proof (temps_nonneg fs1 e1). pose proof (temps_same _ _ e1 (grows_nactvar _ _ Hg)). split.
  - eapply resting_grows; [done|apply Hg|lia].
  - done.
  - lia.
  - intros op. rewrite (width_resting _ _ Hr1), Z.sub_0_r in Hc1. rewrite (width_resting _ _ Hr2), Z.sub_0_r in Hc2.
    eapply coded_ext; [eapply (coded_pair fs0 P J0 fs1 J1 _ m1 (val_of e1) fs2 _ J2 _ m2 op); [exact Hc1|exact Hc2|..]| |done].
    + intros cl s w. by apply main_of_resting.
    + intros cl s s' Hb. by eapply val_of_below.
    + done.
    + lia.
    + intros cl s w. cbv beta. rewrite (main_of_resting fs2 e2) by done. rewrite lift_comm. by destruct (val_of e2 cl s).
Qed.

(** A folded first operand gets its constant or register behind the second. *)
Lemma operands_fst fs0 P J0 fs e1 e2 x2 J m1 m2 : operands fs0 P J0 fs e1 e2 J m1 m2 -> operand fs x2 e2 -> e_k e1 = VKNUM \/ (exists x1, operand fs x1 e1) ->
  0 <= nactvar fs <= freereg fs0 ->
  lsafe (luaK_exp2RK e1 fs) (fun '(x1, e1', fs') => operand fs' x1 e1' /\ operand fs' x2 e2 /\ exists J', operands fs0 P J0 fs' e1' e2 J' m1 m2).
Proof.
  intros Ho Hx2 Hk Hn. destruct (decide (e_k e1 = VKNUM)) as [Ek|Ek].
  2: { destruct Hk as [?|[x1 Hx1]]; [done|]. rewrite (exp2RK_operand _ _ _ Hx1). cbn [lsafe lret]. split; [done|]. split; [done|by exists J]. }
  destruct Ho as [Hr1 Hr2 Hf Hc]. clear Hk. assert (wf fs ([] ++ [] ++ P) J) as Hwf by exact (coded_wf _ _ _ _ _ _ _ _ _ _ (Hc (fun _ _ _ _ => None))).
  pose proof (temps_nonneg fs e1). pose proof (temps_nonneg fs e2). destruct Hr1 as (Et & Ef & Hok). rewrite Ek in Hok.
  assert (temps fs e1 = 0) as Ht1 by (unfold temps; by rewrite Ek).
  assert (compiled fs P J fs e1 [] [] J (fun _ _ w => lret (TNumber (nval e1), w))) as Hcp.
  { split; [|done|done|by unfold exp_ok; rewrite Ek|lia]. unfold width. rewrite Ek, Z.sub_0_r. eapply coded_ext; [by eapply coded_refl| |done].
    intros cl s w. unfold main_of. by rewrite Ek. }
  eapply lsafe_mono; [eapply luaK_exp2RK_spec; [exact Hcp|lia]|]. intros [[x1 e1'] fs'] (Hx1 & J' & [Hc' _ _ _ Hf']).
  assert (grows fs fs') as Hg by apply Hc'. pose proof (temps_nonneg fs' e1'). assert (operand fs' x2 e2) as Hx2' by (eapply operand_grows; [done|apply Hg|lia]).
  split; [done|]. split; [done|]. exists J'. pose proof (temps_same _ _ e2 (grows_nactvar _ _ Hg)). split; [apply Hx1|apply Hx2'|lia|].
  intros op. assert (resting fs' e1') as Hr1 by apply Hx1. rewrite (width_resting _ _ Hr1), Z.sub_0_r in Hc'.
  eapply coded_trans; [exact (Hc op)| |lia|..].
  - eapply coded_ext; [eapply (coded_bind _ _ _ _ _ _ _ _ (fun cl s v1 w => let* v2 := llift (val_of e2 cl s) in op cl v1 v2 w)); [exact Hc'|]| |by intros].
    + intros cl s s' v w Hb. by rewrite (val_of_below fs e2 cl s s').
    + intros cl s w. cbv beta. rewrite (main_of_resting fs' e1') by done. by destruct (val_of e1' cl s).
  - done.
  - done.
  - intros cl s w s1 w1 Hb Hne <-. cbn [lbind lret]. unfold val_of at 2. rewrite Ek. done.
Qed.
Lemma operands_wf fs0 P J0 fs e1 e2 J m1 m2 : operands fs0 P J0 fs e1 e2 J m1 m2 -> wf fs P J.
Proof. intros Ho. exact (coded_wf _ _ _ _ _ _ _ _ _ _ (ops_coded _ _ _ _ _ _ _ _ _ Ho (fun _ _ _ _ => None))). Qed.
Lemma resting_same fs fs' e : resting fs e -> k fs `prefix_of` k fs' -> match e_k e with VNONRELOC => info e < freereg fs' | _ => True end -> resting fs' e.
Proof. intros (? & ? & Hr) Hk%prefix_length Hf. split; [done|]. split; [done|]. unfold nk in *. destruct (e_k e); try done; lia. Qed.

(** The registers of the operands are given back, in any order. *)
Lemma operands_freed fs0 P J0 fs e1 e2 J m1 m2 : operands fs0 P J0 fs e1 e2 J m1 m2 -> nactvar fs <= freereg fs0 ->
  forall fs', fs' = freeexp e1 (freeexp e2 fs) \/ fs' = freeexp e2 (freeexp e1 fs) -> same_flow fs fs' /\ wf fs' P J /\ freereg fs' = freereg fs0.
Proof.
  intros Ho Hn. pose proof (operands_wf _ _ _ _ _ _ _ _ _ Ho) as Hwf. destruct Ho as [Hr1 Hr2 Hf _].
  assert (forall a b, resting fs a -> resting fs b -> freereg fs = freereg fs0 + temps fs a + temps fs b ->
    same_flow fs (freeexp a (freeexp b fs)) /\ wf (freeexp a (freeexp b fs)) P J /\ freereg (freeexp a (freeexp b fs)) = freereg fs0) as Hab.
  { intros a b Ha Hb Hfab. pose proof (temps_nonneg fs a). destruct (freeexp_temps fs b P J Hb Hwf) as (Hfl1 & Hwf1 & Hf1); [lia|].
    pose proof (temps_same _ _ a (flow_nactvar _ _ Hfl1)) as Et. pose proof (flow_nactvar _ _ Hfl1).
    unfold freeexp at 1 3 5. assert (temps fs a = temps fs a) as Ea by done. unfold temps at 1 in Ea. destruct (decide (e_k a = VNONRELOC)) as [Ek|Ek].
    - rewrite (bool_decide_eq_true_2 _ Ek). rewrite Ek in Ea. destruct (free_reg_spec (info a) (freeexp b fs) P J Hwf1) as (fs' & -> & Hfl2 & Hwf2 & Hf2).
      { unfold temp_reg in *. rewrite H2. lia. }
      split; [by eapply same_flow_trans|]. split; [done|]. unfold temp_reg in *. rewrite H2 in Hf2. lia.
    - rewrite (bool_decide_eq_false_2 _ Ek). split; [done|]. split; [done|]. destruct Ha as (_ & _ & Ha). destruct (e_k a); done || lia. }
  intros fs' [->| ->]; apply Hab; try done; lia.
Qed.

(** ** Arithmetic *)
Definition arith_code (a : arith) : OpCode :=
  match a with AADD => OP_ADD | ASUB => OP_SUB | AMUL => OP_MUL | ADIV => OP_DIV | AMOD => OP_MOD | APOW => OP_POW | AUNM => OP_UNM end.
Definition binary (a : arith) : bool := match a with AUNM => false | _ => true end.

Lemma instr_arith cl i s w a : binary a = true -> GET_OPCODE i = of_opcode (arith_code a) ->
  instr_val cl i s w = (let* b := llift (rkget cl s (GETARG_B i)) in let* c := llift (rkget cl s (GETARG_C i)) in arith_val w a b c).
Proof. intros Hb Ho. unfold instr_val. rewrite Ho, to_of_opcode. by destruct a. Qed.

Lemma emit_arith fs0 P J0 fs e1 e2 x1 x2 J m1 m2 a fs' : operands fs0 P J0 fs e1 e2 J m1 m2 -> operand fs x1 e1 -> operand fs x2 e2 ->
  nactvar fs <= freereg fs0 -> binary a = true -> fs' = freeexp e1 (freeexp e2 fs) \/ fs' = freeexp e2 (freeexp e1 fs) ->
  lsafe (let* (p, fs) := luaK_codeABC (arith_code a) 0 x1 x2 fs' in lret (exp_is VRELOCABLE p e1, fs))
    (fun '(e', fs') => e_k e' = VRELOCABLE /\ exists J', compiled fs0 P J0 fs' e' [] [] J'
       (fun cl s w => let* (v1, w) := m1 cl s w in let* (v2, w) := m2 cl s w in arith_val w a v1 v2)).
Proof.
  intros Ho Hx1 Hx2 Hn Ha Hfs'. pose proof (operands_wf _ _ _ _ _ _ _ _ _ Ho) as Hwf. destruct (operands_freed _ _ _ _ _ _ _ _ _ Ho Hn _ Hfs') as (Hfl & Hwf' & Hf').
  pose proof (operand_range _ _ _ _ _ Hwf Hx1) as R1. pose proof (operand_range _ _ _ _ _ Hwf Hx2) as R2.
  eapply lsafe_bind; [by eapply luaK_codeABC_spec|]. intros [p fs2] [-> He]. cbn [lsafe lret]. split; [done|]. exists [].
  destruct (create_abc_fields (arith_code a) 0 x1 x2) as (Eo & _ & Eb & Ec); [done|done|done|].
  destruct (same_code_at _ _ (flow_code _ _ Hfl)) as [Hpc _]. assert (resting fs e1) as (Et & Ef & _) by apply Ho.
  eapply (compiled_value fs0 P J0 fs' [] [] J).
  - rewrite Hpc. eapply coded_flow; [exact (ops_coded _ _ _ _ _ _ _ _ _ Ho (fun _ v1 v2 w => arith_val w a v1 v2))|done|done].
  - exact He.
  - exact Eo.
  - by destruct a.
  - by destruct a.
  - intros cl s w. rewrite (instr_arith _ _ _ _ a Ha Eo), Eb, Ec. by rewrite (operand_get _ _ _ _ _ cl s Hwf Hx1), (operand_get _ _ _ _ _ cl s Hwf Hx2).
  - exact Et.
  - exact Ef.
  - exact Hf'.
Qed.

Lemma chain_nil fs js : chain fs NO_JUMP js -> js = [].
Proof. destruct js; [done|]. by intros (_ & ? & _). Qed.
Lemma isnumeral_lists fs e T F : isnumeral e = true -> chain fs (e_t e) T -> chain fs (e_f e) F -> e_k e = VKNUM /\ e_t e = NO_JUMP /\ e_f e = NO_JUMP /\ T = [] /\ F = [].
Proof.
  unfold isnumeral. intros [[Hk Ht]%andb_true_iff Hf]%andb_true_iff Hct Hcf. apply bool_decide_eq_true in Hk. apply Z.eqb_eq in Ht, Hf. rewrite Ht in Hct. rewrite Hf in Hcf.
  apply chain_nil in Hct, Hcf. done.
Qed.

(** Folded operations compute what the instruction would. *)
Lemma constfolding_value a e1 e2 r : constfolding luai_numpow (arith_code a) e1 e2 = Some r ->
  isnumeral e1 = true /\ isnumeral e2 = true /\ luai_numisnan r = false /\ r = arith_num a (nval e1) (nval e2).
Proof.
  unfold constfolding. destruct (isnumeral e1), (isnumeral e2); cbn [negb orb]; try done.
  destruct (match arith_code a with OP_ADD => _ | _ => _ end) as [x|] eqn:E; cbn [mbind option_bind]; [|done].
  destruct (luai_numisnan x) eqn:En; [done|]. intros [= <-]. split; [done|]. split; [done|]. split; [done|].
  destruct a; cbn in E |- *; try (destruct (luai_numeq _ _)); by simplify_eq.
Qed.
Lemma arith_val_num w a x y : arith_val w a (TNumber x) (TNumber y) = lret (TNumber (arith_num a x y), w).
Proof. done. Qed.
Definition no_minus_zero (op : OpCode) (e1 e2 : expdesc) : Prop :=
  forall r, constfolding luai_numpow op e1 e2 = Some r -> minus_zero (TNumber r) = false.

(** The value that [codearith] folds to, or the operation. *)
Lemma codearith_spec fs0 P J0 fs1 e1 J1 m1 fs2 e2 T F J2 m2 a : compiled fs0 P J0 fs1 e1 [] [] J1 m1 -> resting fs1 e1 ->
  (e_k e1 = VKNUM \/ exists x1, operand fs1 x1 e1) -> compiled fs1 P J1 fs2 e2 T F J2 m2 -> stable (freereg fs0) m2 -> nactvar fs0 <= freereg fs0 ->
  binary a = true -> no_minus_zero (arith_code a) e1 e2 ->
  lsafe (codearith luai_numpow (arith_code a) e1 e2 fs2) (fun '(e', fs') =>
    (e_k e' = VKNUM /\ constfolding luai_numpow (arith_code a) e1 e2 = Some (nval e') \/ e_k e' = VRELOCABLE) /\
    exists J', compiled fs0 P J0 fs' e' [] [] J' (fun cl s w => let* (v1, w) := m1 cl s w in let* (v2, w) := m2 cl s w in arith_val w a v1 v2)).
Proof.
  intros H1 Hr1 Hk1 H2 Hst Hn Ha Hmz. unfold codearith. pose proof (compiled_nactvar _ _ _ _ _ _ _ _ _ H1) as Hn0.
  pose proof H1 as [Hc1 _ _ _ Hf1]. assert (grows fs0 fs1) as Hg1 by apply Hc1. pose proof (grows_nactvar _ _ Hg1) as En1. pose proof (temps_nonneg fs1 e1) as Htn1.
  destruct (constfolding luai_numpow (arith_code a) e1 e2) as [r|] eqn:Efold.
  - (* folded *) apply constfolding_value in Efold as Hv. destruct Hv as (Hnum1 & Hnum2 & Hnan & Hr). cbn [lsafe lret].
    pose proof H2 as [Hc2 Ht2 Hf2 Hok2 Hfr2]. destruct (isnumeral_lists _ _ _ _ Hnum2 Ht2 Hf2) as (Ek2 & Et2 & Ef2 & -> & ->).
    assert (e_k e1 = VKNUM) as Ek1. { unfold isnumeral in Hnum1. apply andb_true_iff in Hnum1 as [[?%bool_decide_eq_true _]%andb_true_iff _]. done. }
    split; [left; split; done|]. exists J2. assert (resting fs2 e2) as Hr2 by (split; [done|split; [done|]]; unfold exp_ok in Hok2; by rewrite Ek2 in *).
    pose proof (operands_intro _ _ _ _ _ _ _ _ _ _ _ H1 Hr1 H2 Hr2 Hst Hn) as [Hr1' _ Hfr Hc]. destruct Hr1' as (Et1 & Ef1 & _). split.
    + unfold width. cbn. rewrite Ek1, Z.sub_0_r. eapply coded_ext; [exact (Hc (fun _ v1 v2 w => arith_val w a v1 v2))| |done].
      intros cl s w. unfold main_of, val_of. cbn. rewrite Ek1, Ek2. cbn [llift fmap option_fmap option_map lbind]. by rewrite arith_val_num, Hr.
    + exact Et1.
    + exact Ef1.
    + unfold exp_ok. cbn. rewrite Ek1. split; [done|]. by apply Hmz.
    + rewrite Hfr. unfold temps. cbn. rewrite Ek1, Ek2. lia.
  - assert (forall A (g : Z * expdesc * FuncState -> LuaM A), lbind (match arith_code a with OP_UNM | OP_LEN => lret (0, e2, fs2) | _ => luaK_exp2RK e2 fs2 end) g =
      lbind (luaK_exp2RK e2 fs2) g) as Eop by (intros; by destruct a).
    rewrite Eop. clear Eop. eapply lsafe_bind; [eapply luaK_exp2RK_spec; [exact H2|lia]|]. intros [[x2 e2'] fs3] (Hx2 & J3 & H3).
    pose proof (operands_intro _ _ _ _ _ _ _ _ _ _ _ H1 Hr1 H3 (proj1 Hx2) Hst Hn) as Ho.
    pose proof H3 as [Hc3 _ _ _ Hfr3]. assert (grows fs1 fs3) as Hg3 by apply Hc3. pose proof (grows_nactvar _ _ Hg3) as En3. pose proof (temps_nonneg fs3 e2') as Htn3.
    assert (e_k e1 = VKNUM \/ exists x1, operand fs3 x1 e1) as Hk3.
    { destruct Hk1 as [?|[x1 Hx1]]; [by left|right]. exists x1. eapply operand_grows; [done|apply Hg3|lia]. }
    eapply lsafe_bind; [eapply operands_fst; [exact Ho|exact Hx2|exact Hk3|lia]|]. intros [[x1 e1'] fs4] (Hx1 & Hx2' & J4 & Ho4).
    assert (nactvar fs4 <= freereg fs0) as En4. { pose proof (ops_coded _ _ _ _ _ _ _ _ _ Ho4 (fun _ _ _ _ => None)) as Hc4. assert (grows fs0 fs4) as Hg4 by apply Hc4. pose proof (grows_nactvar _ _ Hg4). lia. }
    cbv zeta. eapply lsafe_mono; [eapply (emit_arith fs0 P J0 fs4 e1' e2' x1 x2 J4 m1 m2 a); [exact Ho4|done|done|done|done|]|].
    + destruct (x2 <? x1); [by right|by left].
    + intros [e' fs'] [Ek Hc']. split; [by right|done].
Qed.
(** ** Operations on one value *)
Lemma numunm_nan n : luai_numisnan (luai_numunm n) = luai_numisnan n.
Proof.
  unfold luai_numisnan, luai_numunm. f_equal. destruct (num_sign <=? n).
  - replace (n - num_sign) with (n + (-1) * num_sign) by lia. by rewrite Z_mod_plus_full.
  - replace (n + num_sign) with (n + 1 * num_sign) by lia. by rewrite Z_mod_plus_full.
Qed.

(** An instruction with one register. *)
Lemma emit_unary fs0 P J0 fs e J m op x (K : tvalue -> W -> LuaM (tvalue * W)) : compiled fs0 P J0 fs e [] [] J m -> operand fs x e -> e_k e = VNONRELOC ->
  nactvar fs0 <= freereg fs0 -> value_op op = true ->
  (forall cl i s w, GET_OPCODE i = of_opcode op -> instr_val cl i s w = (let* v := llift (rget s (GETARG_B i)) in K v w)) ->
  lsafe (let* (p, fs) := luaK_codeABC op 0 x 0 (freeexp e fs) in lret (exp_is VRELOCABLE p e, fs))
    (fun '(e', fs') => e_k e' = VRELOCABLE /\ exists J', compiled fs0 P J0 fs' e' [] [] J' (fun cl s w => let* (v, w) := m cl s w in K v w)).
Proof.
  intros Hcp Hx Ek Hn Hop HK. pose proof Hcp as [Hc Ht Hf _ Hfree]. assert (wf fs ([] ++ [] ++ P) J) as Hwf by apply Hc.
  assert (discharged e) as Hd by (unfold discharged; by rewrite Ek). destruct (freeexp_spec _ _ _ _ _ _ _ _ _ _ _ Hcp Hd Hwf Hn) as (Hfl & Hwf' & Hf').
  pose proof (operand_range _ _ _ _ _ Hwf Hx) as Rx. assert (resting fs e) as Hr by apply Hx. assert (x = info e) as -> by (destruct Hx as [_ [[_ ?]|(? & _)]]; congruence).
  eapply lsafe_bind; [by eapply luaK_codeABC_spec|]. intros [p fs2] [-> He]. cbn [lsafe lret]. split; [done|]. exists [].
  destruct (create_abc_fields op 0 (info e) 0) as (Eo & _ & Eb & _); [done|done|done|]. destruct (same_code_at _ _ (flow_code _ _ Hfl)) as [Hpc _].
  unfold width in Hc. rewrite Ek, Z.sub_0_r in Hc. eapply (compiled_value fs0 P J0 (freeexp e fs) [] [] J).
  - rewrite Hpc. eapply coded_flow; [|exact Hfl|exact Hwf']. eapply (coded_bind _ _ _ _ _ _ _ _ (fun _ _ v w => K v w)); [exact Hc|done].
  - exact He.
  - exact Eo.
  - done.
  - intros _. rewrite Eb. destruct Hr as (_ & _ & Hr). rewrite Ek in Hr. pose proof (wf_freereg _ _ _ Hwf). pose proof (wf_stack _ _ _ Hwf) as Hs.
    change MAXSTACK with 250 in Hs. change MAXARG_A with 255. lia.
  - intros cl s w. rewrite (HK _ _ _ _ Eo), Eb, (main_of_resting fs e) by done. unfold val_of. rewrite Ek. by destruct (rget s (info e)).
  - by eapply flow_chain.
  - by eapply flow_chain.
  - exact Hf'.
Qed.

Lemma luaK_prefix_minus fs0 P J0 fs e T F J m : compiled fs0 P J0 fs e T F J m -> nactvar fs0 <= freereg fs0 -> no_minus_zero OP_UNM e zero_exp ->
  lsafe (luaK_prefix luai_numpow OPR_MINUS e fs) (fun '(e', fs') =>
    (e_k e' = VKNUM /\ isnumeral e = true /\ constfolding luai_numpow OP_UNM e zero_exp = Some (nval e') \/ e_k e' = VRELOCABLE) /\
    exists J', compiled fs0 P J0 fs' e' [] [] J' (fun cl s w => let* (v, w) := m cl s w in arith_val w AUNM v v)).
Proof.
  intros Hcp Hn Hmz. cbn [luaK_prefix]. destruct (isnumeral e) eqn:Enum.
  - cbn [lbind lret]. pose proof Hcp as [Hc Ht Hf Hok Hfree]. destruct (isnumeral_lists _ _ _ _ Enum Ht Hf) as (Ek & Et & Ef & -> & ->).
    unfold exp_ok in Hok. rewrite Ek in Hok. destruct Hok as [Hnan Hz]. unfold codearith.
    assert (constfolding luai_numpow OP_UNM e zero_exp = Some (luai_numunm (nval e))) as Efold.
    { unfold constfolding. rewrite Enum. cbn [negb orb isnumeral zero_exp e_k e_t e_f]. cbn. by rewrite numunm_nan, Hnan. }
    rewrite Efold. cbn [lsafe lret]. split; [left; split; [done|]; by split|]. exists J. unfold width in Hc. rewrite Ek, Z.sub_0_r in Hc. split.
    + unfold width. cbn. rewrite Ek, Z.sub_0_r. eapply coded_ext; [eapply (coded_bind _ _ _ _ _ _ _ _ (fun _ _ v w => arith_val w AUNM v v)); [exact Hc|done]| |done].
      intros cl s w. unfold main_of. cbn. by rewrite Ek.
    + done.
    + done.
    + unfold exp_ok. cbn. rewrite Ek. split; [cbn; by rewrite numunm_nan|]. by apply Hmz.
    + rewrite Hfree. unfold temps. cbn. by rewrite Ek.
  - eapply lsafe_bind; [by eapply luaK_exp2anyreg_spec|]. intros [e1 fs1] (Hin & J1 & Hcp1). pose proof (in_reg_operand _ _ _ _ _ _ _ Hcp1 Hin Hn) as Hx.
    assert (e_k e1 = VNONRELOC) as Ek by apply Hin. unfold codearith.
    assert (constfolding luai_numpow OP_UNM e1 zero_exp = None) as -> by (unfold constfolding, isnumeral; by rewrite Ek).
    cbn [lbind lret]. rewrite (exp2RK_operand _ _ _ Hx). cbn [lbind lret]. cbv zeta. change (freeexp zero_exp (freeexp e1 fs1)) with (freeexp e1 fs1). change (freeexp zero_exp fs1) with fs1.
    assert ((if 0 <? info e1 then freeexp e1 fs1 else freeexp e1 fs1) = freeexp e1 fs1) as -> by (by destruct (0 <? info e1)).
    eapply lsafe_mono; [eapply (emit_unary fs0 P J0 fs1 e1 J1 m OP_UNM (info e1) (fun v w => arith_val w AUNM v v)); try done|].
    + intros cl i s w Eo. unfold instr_val. by rewrite Eo, to_of_opcode.
    + intros [e' fs'] [Ek' Hc']. split; [by right|done].
Qed.

Lemma luaK_prefix_len fs0 P J0 fs e T F J m : compiled fs0 P J0 fs e T F J m -> nactvar fs0 <= freereg fs0 ->
  lsafe (luaK_prefix luai_numpow OPR_LEN e fs) (fun '(e', fs') => e_k e' = VRELOCABLE /\
    exists J', compiled fs0 P J0 fs' e' [] [] J' (fun cl s w => let* (v, w) := m cl s w in len_val w v)).
Proof.
  intros Hcp Hn. cbn [luaK_prefix]. eapply lsafe_bind; [by eapply luaK_exp2anyreg_spec|]. intros [e1 fs1] (Hin & J1 & Hcp1).
  pose proof (in_reg_operand _ _ _ _ _ _ _ Hcp1 Hin Hn) as Hx. assert (e_k e1 = VNONRELOC) as Ek by apply Hin. unfold codearith.
  assert (constfolding luai_numpow OP_LEN e1 zero_exp = None) as -> by (unfold constfolding, isnumeral; by rewrite Ek).
  cbn [lbind lret]. rewrite (exp2RK_operand _ _ _ Hx). cbn [lbind lret]. cbv zeta. change (freeexp zero_exp (freeexp e1 fs1)) with (freeexp e1 fs1). change (freeexp zero_exp fs1) with fs1.
  assert ((if 0 <? info e1 then freeexp e1 fs1 else freeexp e1 fs1) = freeexp e1 fs1) as -> by (by destruct (0 <? info e1)).
  eapply lsafe_mono; [eapply (emit_unary fs0 P J0 fs1 e1 J1 m OP_LEN (info e1) (fun v w => len_val w v)); try done|done].
  intros cl i s w Eo. unfold instr_val. by rewrite Eo, to_of_opcode.
Qed.

(** ** Indexing *)
Lemma luaK_indexed_spec fs0 P J0 fs1 t J1 m1 fs2 key T F J2 m2 : compiled fs0 P J0 fs1 t [] [] J1 m1 -> in_reg fs0 t ->
  compiled fs1 P J1 fs2 key T F J2 m2 -> stable (freereg fs0) m2 -> nactvar fs0 <= freereg fs0 ->
  lsafe (luaK_indexed t key fs2) (fun '(e', fs') => e_k e' = VINDEXED /\
    exists J', compiled fs0 P J0 fs' e' [] [] J' (fun cl s w => let* (v, w) := m1 cl s w in let* (kv, w) := m2 cl s w in index_val w v kv)).
Proof.
  intros H1 Hin H2 Hst Hn. pose proof (in_reg_operand _ _ _ _ _ _ _ H1 Hin Hn) as Hx1. pose proof (compiled_nactvar _ _ _ _ _ _ _ _ _ H1) as Hn0.
  pose proof H1 as [Hc1 Ht1 Hf1 _ Hfr1]. assert (grows fs0 fs1) as Hg1 by apply Hc1. pose proof (grows_nactvar _ _ Hg1) as En1. pose proof (temps_nonneg fs1 t) as Htn1.
  unfold luaK_indexed. eapply lsafe_bind; [eapply luaK_exp2RK_spec; [exact H2|lia]|]. intros [[x2 e2] fs3] (Hx2 & J3 & H3). cbn [lsafe lret].
  split; [done|]. exists J3. pose proof (operands_intro _ _ _ _ _ _ _ _ _ _ _ H1 (proj1 Hx1) H3 (proj1 Hx2) Hst Hn) as Ho. pose proof (operands_wf _ _ _ _ _ _ _ _ _ Ho) as Hwf.
  assert (e_k t = VNONRELOC) as Ek by apply Hin. destruct Ho as [Hr1 Hr2 Hfr Hc]. pose proof Hr1 as (Et & Ef & Hr). rewrite Ek in Hr.
  pose proof (wf_freereg _ _ _ Hwf). pose proof (wf_stack _ _ _ Hwf). split.
  - unfold width. cbn. rewrite Z.sub_0_r. eapply coded_ext; [exact (Hc (fun _ v kv w => index_val w v kv))| |done]. intros cl s w. unfold main_of. cbn.
    rewrite (operand_get _ _ _ _ _ cl s Hwf Hx2). unfold val_of at 2. by rewrite Ek.
  - exact Et.
  - exact Ef.
  - unfold exp_ok. cbn. split; [lia|]. by eapply operand_range.
  - rewrite Hfr. unfold temps at 1 3. cbn. rewrite Ek, <- Z.add_assoc. f_equal. f_equal. unfold temps. destruct Hx2 as [_ [[-> ->]|(Ek2 & Hm & ->)]]; [done|].
    rewrite Ek2. unfold temp_reg. destruct Hr2 as (_ & _ & Hr2). rewrite Ek2 in Hr2. destruct (rkask_fields (info e2)) as (-> & _); [lia|done].
Qed.
End Ops.
