(* ===== verification/LCompileCond.v ===== *)
(** * Conditions

    Comparisons, tests with their jumps, [not], and the two sides of [and] and [or]:
    [coded] with the value known on the path that falls through. *)
From stdpp Require Import base list option relations.
From Stdlib Require Import ZArith Lia ZifyBool.
From S2P Require Import Prelude LObject LNum LOpcodes LProto LVm LVmProps LCode LCodeJumps LExpr LFinal LCompile LCompileExp LCompileReg LCompileVal LCompileOps.
#[local] Open Scope Z_scope.

Section Cond.
Context {W : Type} `{CallsKeepFrame W}.
Abbreviation meaning := (lclosure -> registers -> W -> LuaM (tvalue * W)).

(** ** A test and its jump behind the code *)
Lemma ext_test J i P fs fs' op : extended J [i; jmp_word] fs fs' -> wf fs P J -> GET_OPCODE i = of_opcode op -> op <> OP_LOADNIL ->
  pc fs' = pc fs + 2 /\ code_at fs' (pc fs) = Some i /\ code_at fs' (pc fs + 1) = Some jmp_word /\ wf fs' P [] /\
  jump_ok fs' (pc fs + 1) /\ getjump fs' (pc fs + 1) = Some NO_JUMP /\ pc fs + 1 ∉ P.
Proof.
  intros He Hwf Ho Hnn. pose proof (ext_pc _ _ _ _ He) as Hpc. cbn in Hpc. pose proof (ext_new _ _ _ _ He 0%nat i eq_refl) as E0. pose proof (ext_new _ _ _ _ He 1%nat jmp_word eq_refl) as E1.
  replace (pc fs + Z.of_nat 0) with (pc fs) in E0 by lia. change (Z.of_nat 1) with 1 in E1. split; [lia|]. split; [done|]. split; [done|].
  split; [|split; [|split; [by apply jmp_word_open|]]].
  - eapply ext_wf; [done|done|done|]. intros w Hin Hn. exfalso. apply elem_of_cons in Hin as [->| ->%list_elem_of_singleton].
    { apply is_op_iff in Hn. rewrite Ho in Hn. by apply of_opcode_inj in Hn. }
    by rewrite (is_op_other OP_JMP OP_LOADNIL _ jmp_word_op ltac:(discriminate)) in Hn.
  - split; [exists jmp_word; split; [done|apply jmp_word_op]|]. intros _. exists i, (testTMode op). replace (pc fs + 1 - 1) with (pc fs) by lia.
    split; [done|]. by apply is_op_test, is_op_iff.
  - intros Hin. assert (pc fs + 1 ∈ P ++ J) as Hin' by (apply elem_of_app; by left). pose proof (wf_pending_lt _ _ _ _ Hwf Hin'). lia.
Qed.

Lemma coded_pending_test fs0 P J0 fs T F J main m i op fs' : coded fs0 P J0 fs (pc fs) T F J main m -> extended J [i; jmp_word] fs fs' ->
  GET_OPCODE i = of_opcode op -> op <> OP_LOADNIL -> coded fs0 P J0 fs' (pc fs' - 2) T F [] main m.
Proof.
  intros Hc He Ho Hnn. assert (wf fs (T ++ F ++ P) J) as Hwf by apply Hc. destruct (ext_test _ _ _ _ _ _ He Hwf Ho Hnn) as (Hpc & _ & Hj & Hwf' & _).
  replace (pc fs' - 2) with (pc fs) by lia. eapply coded_step; [exact Hc|exact Hwf'|by eapply ext_keeps|apply grows_rest; [apply He|lia]|].
  intros cl M Ha. split; [by eapply ext_agree_old|]. intros s w Hl Hcl. right. exists s, w. split; [apply reaches_refl|]. split; [done|]. split; [|done].
  eapply clean_word; [by replace (pc fs' - 1) with (pc fs + 1) by lia|]. exact (is_op_other OP_JMP OP_LOADNIL _ jmp_word_op ltac:(discriminate)).
Qed.

(** ** Comparisons *)
Definition cmp_val (op : OpCode) (w : W) (a b : tvalue) : LuaM (bool * W) :=
  match op with OP_EQ => equal_val w a b | OP_LT => less_val w a b | _ => le_val w a b end.
Definition cond_val (op : OpCode) (cond : bool) (w : W) (a b : tvalue) : LuaM (tvalue * W) :=
  if cond then truth (cmp_val op w a b)
  else if bool_decide (op = OP_EQ) then (let* (r, w) := equal_val w a b in lret (TBoolean (negb r), w)) else truth (cmp_val op w b a).

Lemma instr_cmp_val cl i s w op : cmp_op op = true -> GET_OPCODE i = of_opcode op ->
  instr_cmp cl i s w = (let* b := llift (rkget cl s (GETARG_B i)) in let* c := llift (rkget cl s (GETARG_C i)) in cmp_val op w b c).
Proof. intros Hb Ho. unfold instr_cmp. rewrite Ho, to_of_opcode. by destruct op. Qed.

Lemma codecomp_spec fs0 P J0 fs1 e1 x1 J1 m1 fs2 e2 T F J2 m2 op cond : compiled fs0 P J0 fs1 e1 [] [] J1 m1 -> operand fs1 x1 e1 ->
  compiled fs1 P J1 fs2 e2 T F J2 m2 -> stable (freereg fs0) m2 -> nactvar fs0 <= freereg fs0 -> cmp_op op = true ->
  lsafe (codecomp op (Z.b2z cond) e1 e2 fs2) (fun '(e', fs') => e_k e' = VJMP /\
    exists J', compiled fs0 P J0 fs' e' [] [] J' (fun cl s w => let* (v1, w) := m1 cl s w in let* (v2, w) := m2 cl s w in cond_val op cond w v1 v2)).
Proof.
  intros H1 Hx1 H2 Hst Hn Hop. pose proof (compiled_nactvar _ _ _ _ _ _ _ _ _ H1) as Hn0.
  pose proof H1 as [Hc1 Ht1 Hf1 _ Hfr1]. assert (grows fs0 fs1) as Hg1 by apply Hc1. pose proof (grows_nactvar _ _ Hg1) as En1. pose proof (temps_nonneg fs1 e1) as Htn1.
  pose proof H2 as [Hc2 _ _ _ Hfr2]. assert (grows fs1 fs2) as Hg2 by apply Hc2. pose proof (temps_nonneg fs2 e2) as Htn2.
  assert (operand fs2 x1 e1) as Hx1' by (eapply operand_grows; [done|apply Hg2|lia]).
  unfold codecomp. rewrite (exp2RK_operand _ _ _ Hx1'). cbn [lbind lret]. eapply lsafe_bind; [eapply luaK_exp2RK_spec; [exact H2|lia]|]. intros [[x2 e2'] fs3] (Hx2 & J3 & H3).
  pose proof (operands_intro _ _ _ _ _ _ _ _ _ _ _ H1 (proj1 Hx1) H3 (proj1 Hx2) Hst Hn) as Ho. pose proof (operands_wf _ _ _ _ _ _ _ _ _ Ho) as Hwf.
  pose proof H3 as [Hc3 _ _ _ Hfr3]. assert (grows fs1 fs3) as Hg3 by apply Hc3. pose proof (grows_nactvar _ _ Hg3) as En3. pose proof (temps_nonneg fs3 e2') as Htn3.
  assert (operand fs3 x1 e1) as Hx1'' by (eapply operand_grows; [exact Hx1|apply Hg3|lia]).
  destruct (operands_freed _ _ _ _ _ _ _ _ _ Ho ltac:(lia) _ (or_introl eq_refl)) as (Hfl & Hwf' & Hf').
  pose proof (operand_range _ _ _ _ _ Hwf Hx1'') as R1. pose proof (operand_range _ _ _ _ _ Hwf Hx2) as R2. cbv zeta. set (fs4 := freeexp e1 (freeexp e2' fs3)) in *.
  set (swap := negb cond && negb (bool_decide (op = OP_EQ))).
  set (a := if swap then 1 else Z.b2z cond). set (xb := if swap then x2 else x1). set (xc := if swap then x1 else x2).
  assert ((if (Z.b2z cond =? 0) && negb (bool_decide (op = OP_EQ)) then condjump op 1 x2 x1 fs4 else condjump op (Z.b2z cond) x1 x2 fs4) = condjump op a xb xc fs4) as ->.
  { unfold a, xb, xc, swap. destruct cond; [done|]. change (Z.b2z false =? 0) with true. cbn [negb andb]. by destruct (bool_decide _). }
  assert (a = 0 \/ a = 1) as Ha by (unfold a; destruct swap, cond; cbn; lia).
  eapply lsafe_bind; [eapply (condjump_spec op a xb xc fs4 P J3); [exact Hwf'|pose proof (pc_nonneg fs4); lia|by intros ->|change MAXARG_A with 255; lia|unfold xb; destruct swap; done|unfold xc; destruct swap; done]|].
  intros [p fs5] [-> He]. cbn [lsafe lret]. split; [done|]. exists [].
  destruct (create_abc_fields op a xb xc) as (Eo & Ea & Eb & Ec); [change MAXARG_A with 255; lia|unfold xb; by destruct swap|unfold xc; by destruct swap|].
  destruct (ext_test _ _ _ _ _ _ He Hwf' Eo ltac:(by intros ->)) as (Hpc & Hi & _ & _ & Hjo & Hopen & Hjn).
  destruct (same_code_at _ _ (flow_code _ _ Hfl)) as [Hpc4 _]. assert (resting fs3 e1) as (Et & Ef & _) by apply Ho. split.
  - change (width (exp_is VJMP (pc fs4 + 1) e1)) with 2.
    eapply coded_ext; [eapply coded_pending_test; [rewrite Hpc4; eapply coded_flow; [exact (ops_coded _ _ _ _ _ _ _ _ _ Ho (fun _ v1 v2 w => cond_val op cond w v1 v2))|exact Hfl|exact Hwf']|exact He|exact Eo|by intros ->]| |done].
    intros cl s w. unfold main_of. cbn. replace (pc fs4 + 1 - 1) with (pc fs4) by lia. rewrite Hi. cbn [llift fmap option_fmap option_map lbind].
    rewrite (instr_cmp_val _ _ _ _ op Hop Eo), Ea, Eb, Ec. unfold xb, xc, a, cond_val, truth.
    assert (rkget cl s x1 = val_of e1 cl s) as E1 by (eapply operand_get; [exact Hwf|done]). assert (rkget cl s x2 = val_of e2' cl s) as E2 by (eapply operand_get; [exact Hwf|done]).
    assert (forall x, TBoolean (Z.b2z x =? 1) = TBoolean x) as B1 by by intros []. assert (forall x, TBoolean (Z.b2z x =? 0) = TBoolean (negb x)) as B0 by by intros [].
    unfold swap. destruct cond; [|destruct (decide (op = OP_EQ)) as [->|Hne]; [rewrite bool_decide_eq_true_2 by done|rewrite bool_decide_eq_false_2 by done]]; cbn [negb andb Z.b2z];
      rewrite E1, E2; [| |rewrite lift_comm]; destruct (val_of e1 cl s) as [v1|]; cbn [llift fmap option_fmap option_map lbind]; try done;
      destruct (val_of e2' cl s) as [v2|]; cbn [llift fmap option_fmap option_map lbind]; try done; cbn [cmp_val];
      match goal with |- lbind ?x _ = _ => destruct x as [[[? ?]|]|] end; cbn [lbind]; try done; by rewrite ?B1, ?B0.
  - exact Et.
  - exact Ef.
  - unfold exp_ok. cbn. split; [done|]. split; [lia|]. split; [done|]. split; [done|]. split; [done|]. replace (pc fs4 + 1 - 1) with (pc fs4) by lia. rewrite Hi.
    exists (CREATE_ABC (of_opcode op) a xb xc), op. rewrite Ea. done.
  - destruct (ext_rest _ _ _ _ He). unfold temps. cbn. lia.
Qed.
(** ** Tests of a value *)

(** The value [g], whose truth is [b]. *)
Definition known (b : bool) (g : lclosure -> registers -> option tvalue) : meaning := fun cl s w =>
  let* v := llift (g cl s) in if Bool.eqb (l_isfalse v) b then None else lret (v, w).

(** The state [fd] is that of the value, or the one without its last instruction. *)
Lemma branch_emitted_at b fs0 P J0 fs T F J g m fd Jd i op fs' j : coded fs0 P J0 fs (pc fd) T F J (fun cl s w => let* v := llift (g cl s) in lret (v, w)) m ->
  wf fd (T ++ F ++ P) Jd -> keeps (T ++ F ++ P) fs fs' -> grows fs fs' ->
  (forall cl M, agree cl M fs' (pc fd) (T ++ F ++ P) [] -> agree cl M fs (pc fd) (T ++ F ++ P) J) ->
  extended Jd [i; jmp_word] fd fs' -> GET_OPCODE i = of_opcode op -> op <> OP_LOADNIL -> j = pc fd + 1 ->
  (forall cl M s w v, agree cl M fs' (pc fs') (j :: T ++ F ++ P) [] -> Z.of_nat (length s) = M -> g cl s = Some v ->
     if Bool.eqb (l_isfalse v) b then vm_step cl (at_ s (pc fd) w) = goes s (pc fs') w
     else exists s', landed fs' cl j b v s s' /\ vm_step cl (at_ s (pc fd) w) = goes s' (dest cl j) w) ->
  coded fs0 P J0 fs' (pc fs') (add_true b T j) (add_true (negb b) F j) [] (known (negb b) g) m.
Proof.
  intros Hc Hwf Hk Hgr Hag He Ho Hnn -> Hsem. destruct (ext_test _ _ _ _ _ _ He Hwf Ho Hnn) as (Hpc & Hi & Hj & Hwf1 & Hjo & Hopen & Hjn).
  eapply coded_branch; [exact Hc|..].
  - eapply wf_perm; [symmetry; apply add_perm|]. apply wf_add; [done|done|]. by rewrite app_nil_r.
  - eapply keeps_mono; [|exact Hk]. intros x Hx. rewrite !elem_of_app. tauto.
  - exact Hgr.
  - unfold add_true. destruct b; intros x Hx; [apply elem_of_app; by left|done].
  - unfold add_true. destruct b; intros x Hx; [done|apply elem_of_app; by left].
  - intros x Hx. apply Hk. rewrite app_assoc. apply elem_of_app. by left.
  - intros cl M Ha. apply (agree_perm _ _ _ _ _ _ _ (add_perm b T F P (pc fd + 1))) in Ha. split.
    + apply Hag. eapply agree_drop; [exact Ha|lia|lia|done].
    + intros s w Hl Hcl. destruct (g cl s) as [v|] eqn:Eg; [|left; by left]. specialize (Hsem cl M s w v Ha Hl Eg). cbn [llift fmap option_fmap option_map lbind].
      destruct (Bool.eqb (l_isfalse v) b) eqn:Eb.
      * do 3 right. exists s, w. split; [eapply reaches_step; [apply reaches_refl|exact Hsem]|]. split; [done|]. split.
        -- eapply clean_word; [by replace (pc fs' - 1) with (pc fd + 1) by lia|]. exact (is_op_other OP_JMP OP_LOADNIL _ jmp_word_op ltac:(discriminate)).
        -- unfold known. rewrite Eg. cbn [llift fmap option_fmap option_map lbind lret]. apply eqb_prop in Eb. rewrite Eb. by destruct b.
      * destruct Hsem as (s' & Hld & Hstep). apply eqb_false_iff in Eb.
        assert (exits fs' cl [pc fd + 1] b (freereg fs0) s (at_ s (pc fd) w) (lret (v, w))) as Hex.
        { exists (pc fd + 1), v, w, s, s'. split; [apply list_elem_of_here|]. split; [done|]. split; [by destruct (l_isfalse v), b|]. split; [done|]. split; [done|].
          eapply reaches_step; [apply reaches_refl|exact Hstep]. }
        unfold add_true. destruct b; [right; left|do 2 right; left]; (eapply exits_mono; [|exact Hex]); intros x Hx; apply elem_of_app; by right.
Qed.

Lemma branch_emitted b fs0 P J0 fs T F J g m i op fs' j : coded fs0 P J0 fs (pc fs) T F J (fun cl s w => let* v := llift (g cl s) in lret (v, w)) m ->
  extended J [i; jmp_word] fs fs' -> GET_OPCODE i = of_opcode op -> op <> OP_LOADNIL -> j = pc fs + 1 ->
  (forall cl M s w v, agree cl M fs' (pc fs') (j :: T ++ F ++ P) [] -> Z.of_nat (length s) = M -> g cl s = Some v ->
     if Bool.eqb (l_isfalse v) b then vm_step cl (at_ s (pc fs) w) = goes s (pc fs') w
     else exists s', landed fs' cl j b v s s' /\ vm_step cl (at_ s (pc fs) w) = goes s' (dest cl j) w) ->
  coded fs0 P J0 fs' (pc fs') (add_true b T j) (add_true (negb b) F j) [] (known (negb b) g) m.
Proof.
  intros Hc He. assert (wf fs (T ++ F ++ P) J) as Hwf by apply Hc. apply (branch_emitted_at b fs0 P J0 fs T F J g m fs J); try done.
  - by eapply ext_keeps.
  - apply grows_rest; [apply He|rewrite (ext_pc _ _ _ _ He); lia].
  - intros cl M Ha. eapply ext_agree_old; [exact He|exact Hwf|exact Ha|lia|done].
Qed.

Lemma jump_if_pending cl s (w : W) p M fs P q b : agree cl M fs (pc fs) P [] -> q ∈ P -> wf fs P [] -> q = p ->
  jump_if cl b s w p = goes s (if b then dest cl q else p + 1) w.
Proof.
  intros Ha Hq Hwf ->. destruct (wf_pending_ok _ _ _ _ Hwf Hq) as [Hjo _]. destruct (jump_word _ _ Hjo) as (x & Hx & _). pose proof (code_at_bounds _ _ _ Hx).
  destruct (agree_pending _ _ _ _ _ _ p Ha Hq) as (wj & Hwj & _); [lia|by exists x|]. destruct b; [|done]. rewrite (jump_taken cl s p w wj Hwj).
  unfold dest. rewrite Hwj. by replace (p + GETARG_sBx wj + 1) with (p + 1 + GETARG_sBx wj) by lia.
Qed.

(** TESTSET over the register of the value. *)
Lemma testset_emitted b fs0 P J0 fs T F J m r fs' : coded fs0 P J0 fs (pc fs) T F J (reg_main r) m -> 0 <= r <= MAXARG_A ->
  extended J [CREATE_ABC (of_opcode OP_TESTSET) NO_REG r (Z.b2z (negb (negb b))); jmp_word] fs fs' ->
  coded fs0 P J0 fs' (pc fs') (add_true b T (pc fs + 1)) (add_true (negb b) F (pc fs + 1)) [] (known (negb b) (fun _ s => rget s r)) m.
Proof.
  rewrite negb_involutive. intros Hc Hr He. assert (wf fs (T ++ F ++ P) J) as Hwf by apply Hc. change MAXARG_A with 255 in Hr.
  destruct (create_abc_fields OP_TESTSET NO_REG r (Z.b2z b)) as (Eo & Ea & Eb & Ec); [done|change MAXARG_B with 511; lia|by destruct b|].
  set (i := CREATE_ABC (of_opcode OP_TESTSET) NO_REG r (Z.b2z b)) in *.
  destruct (ext_test _ _ _ _ _ _ He Hwf Eo ltac:(discriminate)) as (Hpc & Hi & Hj & Hwf1 & Hjo & Hopen & Hjn).
  apply (branch_emitted b fs0 P J0 fs T F J (fun _ s => rget s r) m i OP_TESTSET); try done.
  intros cl M s w v Ha Hl Hv. assert (wf fs' (pc fs + 1 :: T ++ F ++ P) []) as Hwf2 by (apply wf_add; [done|done|by rewrite app_nil_r]).
  assert (is_op OP_TESTSET i = true) as Hts by (by apply is_op_iff).
  destruct (agree_words _ _ _ _ _ _ Ha (pc fs) i ltac:(pose proof (pc_nonneg fs); lia) Hi) as (w' & Hw' & Hfit).
  assert (w' = test_of i \/ exists a, 0 <= a < M /\ w' = SETARG_A i a) as Hw.
  { unfold role_of in Hfit. rewrite bool_decide_eq_false_2 in Hfit.
    2: { intros [E|Hin]%elem_of_cons; [lia|]. assert (pc fs ∈ (T ++ F ++ P) ++ J) as Hin' by (apply elem_of_app; by left). pose proof (wf_pending_lt _ _ _ _ Hwf Hin'). lia. }
    rewrite bool_decide_eq_false_2, Hts, bool_decide_eq_true_2 in Hfit by (apply not_elem_of_nil || apply list_elem_of_here). exact Hfit. }
  assert (setter fs' (pc fs + 1) = Some i) as Hset. { apply setter_some. by replace (pc fs + 1 - 1) with (pc fs) by lia. }
  assert (forall bb s0, jump_if cl bb s0 w (pc fs + 1) = goes s0 (if bb then dest cl (pc fs + 1) else pc fs') w) as Hjif.
  { intros bb s0. rewrite (jump_if_pending cl s0 w (pc fs + 1) M fs' _ (pc fs + 1) bb Ha) by (done || apply list_elem_of_here). by replace (pc fs + 1 + 1) with (pc fs') by lia. }
  destruct Hw as [->|(a & Ha' & ->)].
  - destruct (test_of_fields i) as (Ta & Tc); [rewrite Eb; change MAXARG_A with 255; lia|].
    assert (GET_OPCODE (test_of i) = of_opcode OP_TEST) as To by (apply is_op_iff, test_of_opcode).
    rewrite (step_test cl s (pc fs) w _ Hw' v To) by (by rewrite Ta, Eb). rewrite Tc, Ec, Hjif.
    destruct (Bool.eqb (l_isfalse v) b) eqn:E; [apply eqb_prop in E; rewrite E; by rewrite Z.eqb_refl|]. exists s. split.
    + unfold landed. rewrite Hset, Eb. split; [done|]. exists (test_of i). replace (pc fs + 1 - 1) with (pc fs) by lia. split; [done|].
      by rewrite (is_op_other OP_TEST OP_TESTSET _ (test_of_opcode i) ltac:(discriminate)).
    + by destruct (l_isfalse v), b.
  - pose proof (agree_frame _ _ _ _ _ _ Ha) as HM. change MAXARG_A with 255 in HM.
    destruct (set_a_fields i a) as (Aa & Ao & Ab & Ac & _); [change MAXARG_A with 255; lia|].
    rewrite (step_testset cl s (pc fs) w _ Hw' v) by (rewrite ?Ao, ?Ab, ?Eb; done). rewrite Ac, Ec, Aa. destruct (rset_some s a v) as [s' Es]; [lia|].
    destruct (Bool.eqb (l_isfalse v) b) eqn:E.
    + apply eqb_prop in E. rewrite E, Z.eqb_refl. apply Hjif.
    + exists s'. split.
      * unfold landed. rewrite Hset, Eb. split; [done|]. exists (SETARG_A i a). replace (pc fs + 1 - 1) with (pc fs) by lia. split; [done|].
        assert (is_op OP_TESTSET (SETARG_A i a) = true) as -> by (apply is_op_iff; congruence). by rewrite Aa.
      * assert ((Z.b2z (l_isfalse v) =? Z.b2z b) = false) as -> by (by destruct (l_isfalse v), b). rewrite Es. cbn [llift fmap option_fmap option_map lbind]. apply Hjif.
Qed.

(** The value in any register, which is given back; the lists stay. *)
Lemma anyreg_freed fs0 P J0 fs e T F J m : compiled fs0 P J0 fs e T F J m -> discharged e -> e_k e <> VJMP -> nactvar fs0 <= freereg fs0 ->
  lsafe (let* (e, fs) := discharge2anyreg e fs in lret (e, freeexp e fs)) (fun '(e', fs') => same_lists e e' /\ 0 <= info e' <= MAXARG_A /\
    freereg fs' = freereg fs0 /\ chain fs' (e_t e) T /\ chain fs' (e_f e) F /\
    exists J', coded fs0 P J0 fs' (pc fs') T F J' (reg_main (info e')) m).
Proof.
  intros Hcp Hd Hnj Hn. pose proof (compiled_nactvar _ _ _ _ _ _ _ _ _ Hcp) as Hn0. pose proof Hcp as [Hc Ht Hf Hok Hfree].
  assert (wf fs (T ++ F ++ P) J) as Hwf by apply Hc. assert (grows fs0 fs) as Hg by apply Hc. pose proof (grows_nactvar _ _ Hg) as En.
  pose proof (wf_freereg _ _ _ Hwf). pose proof (wf_stack _ _ _ Hwf) as Hms. pose proof (wf_nactvar _ _ _ Hwf). pose proof (temps_nonneg fs e). change MAXSTACK with 250 in Hms.
  unfold discharge2anyreg. destruct (decide (e_k e = VNONRELOC)) as [Ek|Ek].
  - rewrite (bool_decide_eq_true_2 _ Ek). cbn [lbind lret lsafe]. destruct (freeexp_spec _ _ _ _ _ _ _ _ _ _ _ Hcp Hd Hwf Hn) as (Hfl & Hwf' & Hf').
    split; [done|]. split; [unfold exp_ok in Hok; rewrite Ek in Hok; change MAXARG_A with 255; lia|]. split; [done|].
    split; [by eapply flow_chain|]. split; [by eapply flow_chain|]. exists J. unfold width in Hc. rewrite Ek in Hc.
    replace (pc (freeexp e fs)) with (pc (freeexp e fs) - 0) by lia. eapply coded_flow_pc; [|exact Hfl|exact Hwf']. eapply coded_ext; [exact Hc| |done].
    intros cl s w. unfold main_of. by rewrite Ek.
  - rewrite (bool_decide_eq_false_2 _ Ek). assert (temps fs e = 0) as Et by (unfold temps, discharged in *; by destruct (e_k e)).
    eapply (lsafe_bind (fun '(e', fs') => e' = exp_is VNONRELOC (freereg fs0) e /\ exists fs1, same_flow fs fs1 /\ freereg fs1 = freereg fs0 + 1 /\ maxstacksize fs1 < MAXSTACK /\ placed fs0 P J0 fs1 fs' T F (freereg fs0) m)).
    + eapply lsafe_bind; [by eapply luaK_reserveregs_spec|]. intros fs1 (Hf1 & Hfl1 & Hwf1). pose proof (wf_freereg _ _ _ Hwf1). pose proof (wf_stack _ _ _ Hwf1).
      replace (freereg fs1 - 1) with (freereg fs0) by lia.
      eapply lsafe_mono; [eapply (discharge2reg_placed fs0 P J0 fs1 e T F J m (freereg fs0)); try done; try lia|].
      * rewrite (main_of_flow _ _ _ Hfl1). by eapply coded_flow_pc.
      * by eapply exp_ok_flow.
      * intros [e' fs'] [-> Hp]. split; [done|]. exists fs1. split; [done|]. split; [lia|done].
    + intros [e' fs'] [-> (fs1 & Hfl1 & Hf1 & Hs1 & J' & Hc' & Hk' & Hf' & _ & _)]. cbn [lsafe lret]. split; [done|]. cbn [info exp_is]. change MAXARG_A with 255. split; [lia|].
      assert (wf fs' (T ++ F ++ P) J') as Hwf' by apply Hc'. assert (grows fs0 fs') as Hg' by apply Hc'. pose proof (grows_nactvar _ _ Hg') as En'.
      unfold freeexp. cbn [e_k exp_is info]. change (bool_decide (VNONRELOC = VNONRELOC)) with true. cbv iota.
      assert (temp_reg fs' (freereg fs0) = 1) as Etr.
      { unfold temp_reg. rewrite register_no_k by (change BITRK with 256; lia). by assert ((nactvar fs' <=? freereg fs0) = true) as -> by lia. }
      destruct (free_reg_spec (freereg fs0) fs' _ _ Hwf') as (fs2 & -> & Hfl2 & Hwf2 & Hf2); [lia|].
      split; [lia|]. split; [|split].
      * eapply flow_chain; [exact Hfl2|]. eapply keeps_chain; [exact Hk'| |by eapply flow_chain]. intros x Hx. apply elem_of_app. by left.
      * eapply flow_chain; [exact Hfl2|]. eapply keeps_chain; [exact Hk'| |by eapply flow_chain]. intros x Hx. apply elem_of_app. right. apply elem_of_app. by left.
      * exists J'. replace (pc fs2) with (pc fs2 - 0) by lia. eapply coded_flow_pc; [|exact Hfl2|exact Hwf2]. by rewrite Z.sub_0_r.
Qed.
End Cond.
