(* ===== verification/LCompileBool.v ===== *)
(** * [and], [or] and [not]

    The jumps of a condition join the lists of the expression; the jumps for the other
    truth value end where the evaluation goes on. *)
From stdpp Require Import base list option relations.
From Stdlib Require Import ZArith Lia ZifyBool.
From S2P Require Import Prelude LObject LNum LOpcodes LProto LVm LVmProps LCode LCodeJumps LExpr LFinal LCompile LCompileExp LCompileReg LCompileVal LCompileOps LCompileCond.
#[local] Open Scope Z_scope.

(** ** Without the last instruction *)
Lemma drop_last_code fs i : code_at (drop_last fs) i = if i =? pc fs - 1 then None else code_at fs i.
Proof.
  unfold code_at, pc. cbn [drop_last with_code code]. destruct (Z.ltb_spec i 0) as [Hi|Hi]; [by destruct (_ =? _)|]. rewrite removelast_firstn_len.
  destruct (Z.eqb_spec i (Z.of_nat (length (code fs)) - 1)) as [->|Hne]; [apply lookup_ge_None_2; rewrite length_take; lia|].
  destruct (Z.lt_ge_cases i (Z.of_nat (length (code fs)) - 1)); [apply lookup_take_lt; lia|]. rewrite !lookup_ge_None_2; [done|lia|rewrite length_take; lia].
Qed.
Lemma drop_last_pc fs : 0 < pc fs -> pc (drop_last fs) = pc fs - 1.
Proof. unfold pc. cbn [drop_last with_code code]. rewrite removelast_firstn_len, length_take. lia. Qed.

Lemma drop_last_wf fs P i : wf fs P [] -> code_at fs (pc fs - 1) = Some i -> is_op OP_JMP i = false -> lasttarget fs < pc fs -> wf (drop_last fs) P [].
Proof.
  intros Hwf Hi Hj Ht. pose proof (code_at_bounds _ _ _ Hi) as Hb. destruct (wf_jumps _ _ _ Hwf) as [Hnd Hok]. rewrite Forall_forall in Hok.
  split; try apply Hwf.
  - split; [done|]. apply Forall_forall. intros j Hin. assert (j <> pc fs - 1) as Hne.
    { intros ->. eapply test_no_jump; [exact Hi|done|by apply Hok]. }
    pose proof (jump_ok_bounds _ _ (Hok _ Hin)). apply (jump_ok_ext fs); [..|by apply Hok]; rewrite drop_last_code.
    + by assert ((j =? pc fs - 1) = false) as -> by lia.
    + by assert ((j - 1 =? pc fs - 1) = false) as -> by lia.
  - rewrite drop_last_pc by lia. cbn. lia.
  - by left.
  - intros p w. rewrite drop_last_code. destruct (p =? pc fs - 1); [done|]. apply (wf_nil _ _ _ Hwf).
  - by apply (pool_ok_eq fs), Hwf.
Qed.

Section Bool.
Context {W : Type} `{CallsKeepFrame W}.
Abbreviation meaning := (lclosure -> registers -> W -> LuaM (tvalue * W)).

(** TEST in the place of NOT. *)
Lemma not_emitted b fs0 P J0 fs T F m i fs' : coded fs0 P J0 fs (pc fs - 1) T F [] (fun cl s w => instr_val cl i s w) m ->
  code_at fs (pc fs - 1) = Some i -> GET_OPCODE i = of_opcode OP_NOT -> lasttarget fs < pc fs -> 0 <= GETARG_B i <= MAXARG_A ->
  extended [] [CREATE_ABC (of_opcode OP_TEST) (GETARG_B i) 0 (Z.b2z (negb b)); jmp_word] (drop_last fs) fs' ->
  coded fs0 P J0 fs' (pc fs') (add_true b T (pc fs)) (add_true (negb b) F (pc fs)) []
    (known (negb b) (fun _ s => (fun v => TBoolean (l_isfalse v)) <$> rget s (GETARG_B i))) m /\
  wf (drop_last fs) (T ++ F ++ P) [].
Proof.
  intros Hc Hi Ho Ht Hb He. pose proof (code_at_bounds _ _ _ Hi) as Hbi. assert (wf fs (T ++ F ++ P) []) as Hwf by apply Hc.
  assert (is_op OP_NOT i = true) as Hnot by (by apply is_op_iff). pose proof (drop_last_wf _ _ _ Hwf Hi (is_op_other OP_NOT OP_JMP _ Hnot ltac:(discriminate)) Ht) as Hwfd.
  pose proof (drop_last_pc fs ltac:(lia)) as Hpd. split; [|done].
  set (t := CREATE_ABC (of_opcode OP_TEST) (GETARG_B i) 0 (Z.b2z (negb b))) in *.
  destruct (create_abc_fields OP_TEST (GETARG_B i) 0 (Z.b2z (negb b))) as (Eo & Ea & _ & Ec); [done|done|by destruct b|]. fold t in Eo, Ea, Ec.
  destruct (ext_test _ _ _ _ _ _ He Hwfd Eo ltac:(discriminate)) as (Hpc & Hi' & _ & Hwf1 & Hjo & _ & Hjn).
  assert (forall j, j ∈ T ++ F ++ P -> j < pc fs - 1) as Hpend.
  { intros j Hj. assert (j ∈ (T ++ F ++ P) ++ []) as Hin by (by rewrite app_nil_r). pose proof (wf_pending_lt _ _ _ _ Hwfd Hin). lia. }
  assert (forall j, j < pc fs - 1 -> code_at (drop_last fs) j = code_at fs j) as Hold.
  { intros j Hj. rewrite drop_last_code. by assert ((j =? pc fs - 1) = false) as -> by lia. }
  assert (forall j w, j < pc fs - 1 -> code_at fs j = Some w -> code_at fs' j = Some w) as Hold'.
  { intros j w Hj Hw. rewrite <- Hold in Hw by done. rewrite (ext_word _ _ _ _ He _ _ Hw). unfold patch_word. by rewrite !bool_decide_eq_false_2, andb_false_r by apply not_elem_of_nil. }
  replace (pc fs) with (pc (drop_last fs) + 1) by lia. rewrite <- Hpd in Hc.
  apply (branch_emitted_at b fs0 P J0 fs T F [] (fun _ s => (fun v => TBoolean (l_isfalse v)) <$> rget s (GETARG_B i)) m (drop_last fs) [] t OP_TEST); try done.
  - eapply coded_ext; [exact Hc| |done]. intros cl s w. unfold instr_val. rewrite Ho, to_of_opcode. by destruct (rget s (GETARG_B i)).
  - eapply keeps_trans; [|by eapply ext_keeps]. intros j Hj. pose proof (Hpend j Hj). unfold setter. rewrite !Hold by lia. done.
  - apply grows_rest; [|lia]. eapply same_rest_trans; [|apply He]. done.
  - intros cl M Ha. eapply agree_back; [exact Ha|lia|destruct (ext_rest _ _ _ _ He) as [-> _ _ _ _ _]; done|destruct (ext_rest _ _ _ _ He) as [_ _ _ _ _ ->]; done|].
    intros p w Hp Hw. exists w. split; [apply Hold'; [lia|done]|]. intros w'. unfold role_of, last_nil.
    assert ((p + 1 =? pc fs') = false) as -> by lia. assert ((p + 1 =? pc fs) = false) as -> by lia.
    rewrite !(bool_decide_eq_false_2 (p ∈ [])), !(bool_decide_eq_false_2 (p + 1 ∈ [])), !andb_false_r by apply not_elem_of_nil.
    destruct (bool_decide _); [done|]. destruct (is_op OP_TESTSET w); [|done]. by destruct (bool_decide _).
  - intros cl M s w v Ha Hl Hv. assert (wf fs' (pc (drop_last fs) + 1 :: T ++ F ++ P) []) as Hwf2 by (apply wf_add; [done|done|by rewrite app_nil_r]).
    destruct (rget s (GETARG_B i)) as [x|] eqn:Ex; [|done]. injection Hv as <-.
    assert (is_op OP_TEST t = true) as Htt by (by apply is_op_iff).
    assert (instr_at cl (pc (drop_last fs)) = Some t) as Hit.
    { eapply agree_plain; [exact Ha|lia|exact Hi'|..].
      - rewrite app_nil_r, elem_of_cons. intros [?|?%Hpend]; lia.
      - by rewrite (is_op_other OP_TEST OP_TESTSET _ Htt ltac:(discriminate)).
      - exact (is_op_other OP_TEST OP_LOADNIL _ Htt ltac:(discriminate)). }
    rewrite (step_test cl s _ w _ Hit x Eo) by (by rewrite Ea). rewrite Ec.
    rewrite (jump_if_pending cl s w (pc (drop_last fs) + 1) M fs' _ (pc (drop_last fs) + 1) _ Ha) by (done || apply list_elem_of_here).
    assert (setter fs' (pc (drop_last fs) + 1) = None) as Hs.
    { unfold setter. replace (pc (drop_last fs) + 1 - 1) with (pc (drop_last fs)) by lia. rewrite Hi'. cbn. by rewrite (is_op_other OP_TEST OP_TESTSET _ Htt ltac:(discriminate)). }
    destruct (Bool.eqb (l_isfalse (TBoolean (l_isfalse x))) b) eqn:Eb.
    + replace (pc fs') with (pc (drop_last fs) + 1 + 1) by lia. destruct (l_isfalse x), b; done.
    + exists s. split; [unfold landed; rewrite Hs; by destruct (l_isfalse x), b|]. destruct (l_isfalse x), b; done.
Qed.
Lemma jump_chain fs j : getjump fs j = Some NO_JUMP -> j <> NO_JUMP -> chain fs j [j].
Proof. intros Hj Hn. split; [done|]. split; [done|]. by exists NO_JUMP. Qed.

Lemma chains_kept fs fs' P T F t f : keeps (T ++ F ++ P) fs fs' -> chain fs t T -> chain fs f F -> chain fs' t T /\ chain fs' f F.
Proof. intros Hk Ht Hf. split; (eapply keeps_chain; [exact Hk| |done]); intros x Hx; rewrite !elem_of_app; tauto. Qed.

Lemma jumponcond_spec b fs0 P J0 fs e T F J m : compiled fs0 P J0 fs e T F J m -> discharged e -> e_k e <> VJMP -> nactvar fs0 <= freereg fs0 ->
  lsafe (jumponcond e (Z.b2z b) fs) (fun '(p, e', fs') => same_lists e e' /\ freereg fs' = freereg fs0 /\ chain fs' (e_t e) T /\ chain fs' (e_f e) F /\
    chain fs' p [p] /\ jump_ok fs' p /\ p ∉ T ++ F ++ P /\
    exists g, coded fs0 P J0 fs' (pc fs') (add_true b T p) (add_true (negb b) F p) [] (known (negb b) g) m).
Proof.
  intros Hcp Hd Hnj Hn. pose proof Hcp as [Hc Ht Hf Hok Hfree]. assert (wf fs (T ++ F ++ P) J) as Hwf by apply Hc. pose proof (pc_nonneg fs) as Hp0. unfold jumponcond.
  set (through := let* (e, fs) := discharge2anyreg e fs in let fs := freeexp e fs in let* (p, fs) := condjump OP_TESTSET NO_REG (info e) (Z.b2z b) fs in lret (p, e, fs)).
  assert (lsafe through (fun '(p, e', fs') => same_lists e e' /\ freereg fs' = freereg fs0 /\ chain fs' (e_t e) T /\ chain fs' (e_f e) F /\
    chain fs' p [p] /\ jump_ok fs' p /\ p ∉ T ++ F ++ P /\
    exists g, coded fs0 P J0 fs' (pc fs') (add_true b T p) (add_true (negb b) F p) [] (known (negb b) g) m)) as Hthrough.
  { assert (through = (let* (e, fs) := (let* (e, fs) := discharge2anyreg e fs in lret (e, freeexp e fs)) in let* (p, fs) := condjump OP_TESTSET NO_REG (info e) (Z.b2z b) fs in lret (p, e, fs))) as ->.
    { unfold through. by destruct (discharge2anyreg e fs) as [[[? ?]|]|]. }
    eapply lsafe_bind; [by eapply anyreg_freed|]. intros [e1 fs1] (Hsl & Hr & Hf1 & Ht1 & Hfl1 & J1 & Hc1). assert (wf fs1 (T ++ F ++ P) J1) as Hwf1 by apply Hc1.
    eapply lsafe_bind; [eapply (condjump_spec OP_TESTSET NO_REG (info e1) (Z.b2z b)); [exact Hwf1|pose proof (pc_nonneg fs1); lia|done|done|change MAXARG_A with 255 in Hr; change MAXARG_B with 511; lia|by destruct b]|].
    intros [p fs2] [-> He]. cbn [lsafe lret].
    destruct (create_abc_fields OP_TESTSET NO_REG (info e1) (Z.b2z b)) as (Eo & _); [done|change MAXARG_A with 255 in Hr; change MAXARG_B with 511; lia|by destruct b|].
    destruct (ext_test _ _ _ _ _ _ He Hwf1 Eo ltac:(discriminate)) as (Hpc & _ & _ & _ & Hjo & Hopen & Hjn).
    destruct (chains_kept fs1 fs2 P T F _ _ ltac:(by eapply ext_keeps) Ht1 Hfl1) as [Ht2 Hf2].
    split; [done|]. split; [destruct (ext_rest _ _ _ _ He); congruence|]. split; [done|]. split; [done|].
    split; [apply jump_chain; [done|unfold NO_JUMP; pose proof (pc_nonneg fs1); lia]|]. split; [done|]. split; [done|].
    eexists. eapply testset_emitted; [exact Hc1|exact Hr|]. by rewrite negb_involutive. }
  destruct (decide (e_k e = VRELOCABLE)) as [Ek|Ek]; [rewrite (bool_decide_eq_true_2 _ Ek)|by rewrite (bool_decide_eq_false_2 _ Ek)].
  unfold exp_ok, width, main_of, temps in *. rewrite Ek in *. destruct Hok as (-> & Ei & Htg & i & op & Hi & Hop & Hv & Hnot).
  unfold getcode. rewrite Hi. cbn [llift fmap option_fmap option_map lbind]. destruct (is_op OP_NOT i) eqn:Hno; [|exact Hthrough].
  apply is_op_iff in Hno. assert (op = OP_NOT) as -> by (apply of_opcode_inj; congruence). specialize (Hnot eq_refl). pose proof (getarg_b_range i) as Hbr.
  assert ((if Z.b2z b =? 0 then 1 else 0) = Z.b2z (negb b)) as -> by by destruct b. rewrite Ei in Hi.
  assert (is_op OP_JMP i = false) as Hnj' by (apply (is_op_other OP_NOT); [by apply is_op_iff|done]).
  pose proof (drop_last_wf _ _ _ Hwf Hi Hnj' Htg) as Hwfd. pose proof (code_at_bounds _ _ _ Hi) as Hbi. pose proof (drop_last_pc fs ltac:(lia)) as Hpd.
  eapply lsafe_bind; [eapply (condjump_spec OP_TEST (GETARG_B i) 0 (Z.b2z (negb b))); [exact Hwfd|lia|done|lia|done|by destruct b]|].
  intros [p fs2] [-> He]. cbn [lsafe lret]. replace (pc (drop_last fs) + 1) with (pc fs) by lia.
  destruct (create_abc_fields OP_TEST (GETARG_B i) 0 (Z.b2z (negb b))) as (Eo & _); [lia|done|by destruct b|].
  destruct (ext_test _ _ _ _ _ _ He Hwfd Eo ltac:(discriminate)) as (Hpc & _ & _ & _ & Hjo & Hopen & Hjn). replace (pc (drop_last fs) + 1) with (pc fs) in * by lia.
  assert (keeps (T ++ F ++ P) fs fs2) as Hk.
  { eapply keeps_trans; [|by eapply ext_keeps]. intros j Hj. assert (j ∈ (T ++ F ++ P) ++ []) as Hin by (by rewrite app_nil_r). pose proof (wf_pending_lt _ _ _ _ Hwfd Hin).
    unfold setter. rewrite !drop_last_code. assert ((j =? pc fs - 1) = false) as -> by lia. by assert ((j - 1 =? pc fs - 1) = false) as -> by lia. }
  destruct (chains_kept fs fs2 P T F _ _ Hk Ht Hf) as [Ht2 Hf2].
  split; [done|]. split; [destruct (ext_rest _ _ _ _ He) as [_ _ _ Hfr _ _]; cbn in Hfr; lia|]. split; [done|]. split; [done|].
  split; [apply jump_chain; [done|unfold NO_JUMP; lia]|]. split; [done|]. split; [done|]. eexists.
  eapply (not_emitted b fs0 P J0 fs T F m i); [|exact Hi|exact Hop|exact Htg|lia|exact He]. eapply coded_ext; [exact Hc| |done]. intros cl s w.
  by rewrite Ei, Hi.
Qed.
(** ** Linking lists *)
Lemma linked_clean cl M L fs fs' s : linked L fs fs' -> clean cl M fs s -> clean cl M fs' s.
Proof.
  intros Hlk Hcl. pose proof (linked_rewired _ _ _ Hlk) as Hrw. pose proof (rewired_pc _ _ _ Hrw) as Hpc. destruct (linked_shape _ _ _ Hlk) as (c & Ec & _).
  unfold clean in *. rewrite Hpc. assert (lasttarget fs' = lasttarget fs /\ nactvar fs' = nactvar fs) as [-> ->] by (by rewrite Ec). intros Ht.
  destruct (Hcl Ht) as [H1 H2]. split; [done|]. intros w w' Hw Hn Hw'. destruct (decide (pc fs - 1 ∈ L)) as [Hin|Hin].
  - destruct (linked_jump _ _ _ Hlk _ Hin) as (x & Hx & Hj). rewrite Hw in Hx. injection Hx as ->. by rewrite (is_op_other OP_JMP OP_LOADNIL x Hj ltac:(discriminate)) in Hn.
  - rewrite (linked_other _ _ _ Hlk _ Hin) in Hw. by eapply H2.
Qed.

Lemma relink_coded fs0 P J0 fs n T F J main m L fs' : coded fs0 P J0 fs n T F J main m -> linked L fs fs' -> L ⊆ T ++ F ->
  coded fs0 P J0 fs' n T F J main m.
Proof.
  intros Hc Hlk HL. assert (wf fs (T ++ F ++ P) J) as Hwf by apply Hc. pose proof (linked_rewired _ _ _ Hlk) as Hrw. destruct (linked_shape _ _ _ Hlk) as (c & Ec & _).
  assert (lasttarget fs' = lasttarget fs) as Hlt by (by rewrite Ec). assert (jpc fs' = jpc fs) as Hjpc by (by rewrite Ec). pose proof (rewired_pc _ _ _ Hrw) as Hpc.
  assert (L ⊆ (T ++ F ++ P) ++ J) as HL'. { intros x Hx%HL. apply elem_of_app. left. rewrite app_assoc. apply elem_of_app. by left. }
  destruct (coded_lists _ _ _ _ _ _ _ _ _ _ Hc) as [_ Hok]. assert (forall x, x ∈ L -> jump_ok fs x) as HokL by (intros x Hx; by apply Hok, HL).
  destruct (wf_jumps _ _ _ Hwf) as [Hnd _]. assert (forall x, x ∈ L -> x ∉ P /\ x ∉ J) as Hdis.
  { rewrite app_assoc, <- app_assoc in Hnd. apply NoDup_app in Hnd as (_ & Hd & _). intros x Hx%HL. apply Hd in Hx. by rewrite not_elem_of_app in Hx. }
  assert (forall x, setter fs' x = setter fs x) as Hset by (intros x; by apply (rewired_setter L)).
  eapply coded_branch; [exact Hc|..].
  - eapply (rewired_wf L fs); [done|exact Hwf|done|rewrite Hlt; apply Hwf|rewrite Hlt; apply Hwf| |done]. rewrite Hjpc. apply (jchain_ext fs); [|apply Hwf].
    intros j Hj. apply (rewired_other _ _ _ Hrw). intros Hx. by apply Hdis in Hx as [_ ?].
  - apply (rewired_keeps L); [done|]. intros x Hx. split; [by apply HokL|by apply Hdis].
  - apply grows_rest; [apply Hrw|lia].
  - done.
  - done.
  - intros x _. apply Hset.
  - intros cl M Ha. split.
    + eapply (rewired_agree cl M L fs fs'); [exact Ha|done|exact Hwf|done|by left|by left| |done]. intros j Hj. split; [done|]. intros Hj'.
      by destruct (wf_pending_ok _ _ _ _ Hwf Hj').
    + intros s w Hl Hcl. do 3 right. exists s, w. split; [apply reaches_refl|]. split; [done|]. split; [by eapply linked_clean|done].
Qed.

(** A jump joins the list of its truth value. *)
Lemma join_jump b fs0 P J0 fs T F p main m l1 l2 : coded fs0 P J0 fs (pc fs) (add_true b T p) (add_true (negb b) F p) [] main m ->
  chain fs l1 (if b then T else F) -> chain fs l2 (if b then F else T) -> chain fs p [p] -> jump_ok fs p ->
  lsafe (luaK_concat l1 p fs) (fun '(l, fs') => coded fs0 P J0 fs' (pc fs') (add_true b T p) (add_true (negb b) F p) [] main m /\
    chain fs' l (if b then add_true b T p else add_true (negb b) F p) /\ chain fs' l2 (if b then F else T) /\ freereg fs' = freereg fs).
Proof.
  intros Hc H1 H2 Hp Hjo. destruct (coded_lists _ _ _ _ _ _ _ _ _ _ Hc) as [Hnd Hok]. set (L := if b then T else F) in *.
  assert (NoDup (L ++ [p]) /\ forall x, x ∈ L -> x ∉ (if b then F else T)) as [HndL Hdis].
  { unfold L, add_true in *. destruct b; cbn [negb] in Hnd.
    - apply NoDup_app in Hnd as (Hnd & Hd & _). split; [done|]. intros x Hx. apply Hd, elem_of_app. by left.
    - apply NoDup_app in Hnd as (_ & Hd & Hnd). split; [done|]. intros x Hx Hx'. apply (Hd x Hx'), elem_of_app. by left. }
  assert (L ⊆ add_true b T p ++ add_true (negb b) F p) as HL.
  { intros x Hx. unfold L, add_true in *. destruct b; cbn [negb]; rewrite !elem_of_app; tauto. }
  eapply lsafe_mono; [apply (luaK_concat_spec l1 p L [p]); [done|done|done|]|].
  { intros x [Hx| ->%list_elem_of_singleton]%elem_of_app; [by apply Hok, HL|done]. }
  intros [l fs'] [Hch Hlk]. assert (pc fs' = pc fs) as Hpc by (by apply (rewired_pc L), linked_rewired). split; [|split; [|split]].
  - rewrite Hpc. by eapply relink_coded.
  - unfold L, add_true in *. by destruct b.
  - apply (jchain_ext fs); [|done]. intros j Hj. apply (linked_other _ _ _ Hlk). intros Hx. by apply Hdis in Hx.
  - destruct (rewired_rest _ _ _ (linked_rewired _ _ _ Hlk)). congruence.
Qed.

(** What the expression may be so that its value as a constant is known to be true. *)
Definition presentable (fs : FuncState) (e : expdesc) : Prop :=
  match e_k e with
  | VNONRELOC => info e < nactvar fs
  | VK => exists v, k fs !! Z.to_nat (info e) = Some v /\ l_isfalse v = false
  | _ => True
  end.

(** A constant of the truth [negb b] needs no jump. *)
Lemma go_const b fs0 P J0 fs e T F J m g : compiled fs0 P J0 fs e T F J m -> width e = 0 ->
  (forall cl M s w, agree cl M fs (pc fs) (T ++ F ++ P) J -> known (negb b) g cl s w = main_of fs e cl s w) ->
  coded fs0 P J0 fs (pc fs) T F J (known (negb b) g) m.
Proof.
  intros [Hc _ _ _ _] Hw Hg. rewrite Hw, Z.sub_0_r in Hc. eapply coded_step; [exact Hc|apply Hc|done|done|]. intros cl M Ha. split; [done|].
  intros s w Hl Hcl. right. exists s, w. split; [apply reaches_refl|]. split; [done|]. split; [done|]. by eapply Hg.
Qed.

(** ** The test inverted *)
Lemma invertjump_spec fs0 P J0 fs e T F J m : compiled fs0 P J0 fs e T F J m -> e_k e = VJMP ->
  exists fs' i op, invertjump e fs = Some fs' /\ J = [] /\ info e = pc fs - 1 /\ pc fs' = pc fs /\ code_at fs' (pc fs - 2) = Some i /\ GET_OPCODE i = of_opcode op /\
    cmp_op op = true /\ jump_ok fs' (info e) /\ getjump fs' (info e) = Some NO_JUMP /\ info e ∉ T ++ F ++ P /\ keeps (T ++ F ++ P) fs fs' /\ same_rest fs fs' /\
    (GETARG_A i = 0 \/ GETARG_A i = 1) /\ coded fs0 P J0 fs' (pc fs' - 2) T F [] (fun cl s w => let* (r, w) := instr_cmp cl i s w in lret (TBoolean (negb (Z.b2z r =? GETARG_A i)), w)) m.
Proof.
  intros [Hc _ _ Hok _] Ek. unfold exp_ok, width, main_of in *. rewrite Ek in *. destruct Hok as (-> & Ei & Hjo & Hopen & Hjn & i & op & Hi & Hop & Hcmp & HA).
  assert (wf fs (T ++ F ++ P) []) as Hwf by apply Hc. pose proof (code_at_bounds _ _ _ Hi) as Hb. replace (info e - 1) with (pc fs - 2) in * by lia.
  set (a := if GETARG_A i =? 0 then 1 else 0). assert (0 <= a <= MAXARG_A) as Har by (unfold a; destruct (_ =? _); change MAXARG_A with 255; lia).
  destruct (set_a_fields i a Har) as (Ea & Eo & Eb & Ec & _). set (i' := SETARG_A i a) in *. set (fs' := set_code (pc fs - 2) i' fs).
  assert (invertjump e fs = Some fs') as Hinv.
  { unfold invertjump, getjumpcontrol. assert ((1 <=? info e) = true) as -> by lia. replace (info e - 1) with (pc fs - 2) by lia. rewrite Hi. cbn [mbind option_bind].
    rewrite (is_op_test op) by (by apply is_op_iff). cbn [mbind option_bind]. assert (testTMode op = true) as -> by (by destruct op). rewrite Hi. done. }
  assert (forall o, cmp_op o = false -> is_op o i = false) as Hno.
  { intros o Ho. apply not_true_is_false. rewrite is_op_iff, Hop. intros E%of_opcode_inj. by subst; rewrite Hcmp in Ho. }
  assert (forall j, j ∈ T ++ F ++ P -> j <> pc fs - 2 /\ j - 1 <> pc fs - 2) as Hq.
  { intros j Hj. destruct (wf_pending_ok _ _ _ _ Hwf Hj) as [Hok _]. split.
    - intros ->. eapply test_no_jump; [exact Hi|by apply Hno|done].
    - intros E. assert (j = info e) as -> by lia. done. }
  assert (forall x, code_at fs' x = if x =? pc fs - 2 then Some i' else code_at fs x) as Hcode by (intros x; by apply code_at_set_code).
  exists fs', i', op. split; [done|]. split; [done|]. split; [done|]. split; [by apply pc_set_code|]. split; [by rewrite Hcode, Z.eqb_refl|].
  split; [congruence|]. split; [done|]. split; [|split; [|split; [done|split; [|split; [done|split; [rewrite Ea; unfold a; destruct (GETARG_A i =? 0); lia|]]]]]].
  - destruct Hjo as [(x & Hx & Hxj) Hfront]. split; [exists x; split; [|done]; rewrite Hcode; by assert ((info e =? pc fs - 2) = false) as -> by lia|].
    intros _. exists i', (testTMode op). replace (info e - 1) with (pc fs - 2) by lia. rewrite Hcode, Z.eqb_refl. split; [done|]. apply is_op_test, is_op_iff. congruence.
  - rewrite <- Hopen. apply getjump_ext. rewrite Hcode. by assert ((info e =? pc fs - 2) = false) as -> by lia.
  - by eapply set_code_keeps.
  - assert (pc fs' = pc fs) as -> by apply pc_set_code. eapply coded_step; [exact Hc|..].
    + eapply set_code_wf; [done|exact Hi|intros j; rewrite app_nil_r; apply Hq|]. intros Hn. exfalso. rewrite (is_op_same OP_LOADNIL i' i) in Hn by done. by rewrite Hno in Hn.
    + by eapply set_code_keeps.
    + apply grows_rest; [done|unfold fs'; by rewrite pc_set_code].
    + intros cl M Ha. split; [eapply set_code_agree; [exact Ha|exact Hi|lia|lia]|]. intros s w Hl Hcl. right. exists s, w. split; [apply reaches_refl|]. split; [done|]. split.
      * destruct (jump_word _ _ Hjo) as (x & Hx & Hxj). eapply clean_word; [unfold fs' at 2; rewrite pc_set_code, Hcode; assert ((pc fs - 1 =? pc fs - 2) = false) as -> by lia; rewrite <- Ei; exact Hx|].
        exact (is_op_other OP_JMP OP_LOADNIL _ Hxj ltac:(discriminate)).
      * rewrite Hi. cbn [llift fmap option_fmap option_map lbind]. unfold instr_cmp. rewrite Eo, Eb, Ec, Ea.
        destruct (rkget cl s (GETARG_B i)); cbn [llift fmap option_fmap option_map lbind]; [|done]. destruct (rkget cl s (GETARG_C i)); cbn [llift fmap option_fmap option_map lbind]; [|done].
        match goal with |- lbind ?x _ = _ => destruct x as [[[r x']|]|] end; cbn [lbind]; [|done..]. do 4 f_equal. unfold a. destruct r, HA as [->| ->]; done.
Qed.
(** ** The two sides *)

(** [m2] if the truth of [m1] is [negb b], as in [and] ([b] false) and [or]. *)
Definition branch (b : bool) (m1 m2 : meaning) : meaning := fun cl s w =>
  let* (v, w) := m1 cl s w in if Bool.eqb (l_isfalse v) b then m2 cl s w else lret (v, w).

(** The jumps for the truth value [negb b] end here, where the value is not needed any more. *)
Lemma falls_through b fs0 P J0 fs T F J g m l lo : coded fs0 P J0 fs (pc fs) T F J (known (negb b) g) m ->
  chain fs l (if b then F else T) -> chain fs lo (if b then T else F) ->
  lsafe (luaK_patchtohere l fs) (fun fs' => freereg fs' = freereg fs /\ chain fs' lo (if b then T else F) /\
    exists J', forall m2, stable (freereg fs0) m2 ->
      coded fs0 P J0 fs' (pc fs') (if b then T else []) (if b then [] else F) J' m2 (branch b m m2)).
Proof.
  intros Hc Hl Hlo. assert (wf fs (T ++ F ++ P) J) as Hwf by apply Hc. set (L := if b then F else T) in *. set (R := if b then T else F) in *.
  assert (T ++ F ++ P ≡ₚ L ++ R ++ P) as Hperm by (unfold L, R; destruct b; solve_Permutation).
  pose proof (wf_perm _ _ _ _ Hperm Hwf) as Hwf1. eapply lsafe_mono; [eapply (luaK_patchtohere_spec l L fs (R ++ P) J); [exact Hwf1|exact Hl]|].
  intros fs' (Hwf' & Hrw & Hlt & Hag). pose proof (rewired_pc _ _ _ Hrw) as Hpc. destruct (rewired_rest _ _ _ Hrw) as [Hk' _ _ Hfr _ _].
  destruct (wf_jumps _ _ _ Hwf1) as [Hnd Hok]. rewrite Forall_forall in Hok.
  assert (forall x, x ∈ J -> jump_ok fs x) as HokJ by (intros x Hx; apply Hok, elem_of_app; by right).
  assert (forall x, x ∈ J -> x ∉ R ++ P) as HdJ.
  { intros x Hx Hx'. apply NoDup_app in Hnd as (_ & Hd & _). apply (Hd x); [apply elem_of_app; by right|done]. }
  assert (forall x, setter fs' x = setter fs x) as Hset by (intros x; by apply (rewired_setter J)).
  split; [done|]. split.
  { apply (jchain_ext fs); [|exact Hlo]. intros j Hj. apply (rewired_other _ _ _ Hrw). intros Hx. apply (HdJ j Hx), elem_of_app. by left. }
  exists (J ++ L). intros m2 Hst. destruct Hc as [_ Hkeep Hgrow Hsem].
  assert ((if b then T else []) ++ (if b then [] else F) ++ P = R ++ P) as EP by (unfold R; by destruct b). split; rewrite ?EP.
  - exact Hwf'.
  - eapply keeps_trans; [exact Hkeep|]. apply (rewired_keeps J); [done|]. intros x Hx. split; [by apply HokJ|]. intros HxP. apply (HdJ x Hx), elem_of_app. by right.
  - eapply grows_trans; [exact Hgrow|]. apply grows_rest; [apply Hrw|lia].
  - intros cl M Ha. rewrite Hpc in Ha. pose proof (Hag cl M Ha) as Ha1. eapply agree_perm in Ha1; [|symmetry; exact Hperm].
    destruct (Hsem cl M Ha1) as [Ha0 Hrun]. split; [done|]. intros s w Hls Hcl f.
    assert (forall B, B = negb b -> exits fs cl L B (freereg fs0) s f (m cl s w) -> arrives fs' cl M (pc fs') (freereg fs0) s f (m2 cl) (branch b m m2 cl s w)) as Hhere.
    { intros B -> (j & v & w' & s1 & s' & Hj & Em & Hv & Hb & Hld & Hre). rewrite negb_involutive in Hv.
      assert (s' = s1) as ->.
      { unfold landed in Hld. destruct (setter fs j) as [c|] eqn:Hs; [|by apply Hld]. destruct Hld as (_ & c' & Hc' & Hx).
        rewrite <- (Hset j) in Hs. apply setter_some in Hs as [Hcj Ht]. destruct (agree_words _ _ _ _ _ _ Ha (j - 1) c) as (c2 & Hc2 & Hfit); [pose proof (code_at_bounds _ _ _ Hcj); lia|done|].
        assert (j ∈ (L ++ R ++ P) ++ J) as HjI by (apply elem_of_app; left; apply elem_of_app; by left).
        assert (forall X, j - 1 ∈ X -> X ⊆ (L ++ R ++ P) ++ J -> False) as Hno.
        { intros X HX Hsub. eapply (test_no_jump fs' (j - 1) c); [exact Hcj|exact (is_op_other OP_TESTSET OP_JMP _ Ht ltac:(discriminate))|].
          apply (rewired_jump_ok J fs); [done|]. by apply Hok, Hsub. }
        unfold role_of in Hfit. rewrite (bool_decide_eq_false_2 (j - 1 ∈ R ++ P)) in Hfit.
        2: { intros HX. apply (Hno _ HX). intros x Hx'. apply elem_of_app. left. apply elem_of_app. by right. }
        rewrite (bool_decide_eq_false_2 (j - 1 ∈ J ++ L)), Ht in Hfit.
        2: { intros HX. apply (Hno _ HX). intros x [Hx'|Hx']%elem_of_app; apply elem_of_app; [by right|left; apply elem_of_app; by left]. }
        replace (j - 1 + 1) with j in Hfit by lia. rewrite bool_decide_eq_false_2, bool_decide_eq_true_2 in Hfit; [|apply elem_of_app; by right|].
        2: { intros Hx'. apply NoDup_app in Hnd as ((_ & Hd & _)%NoDup_app & _ & _). by apply (Hd j). }
        cbn [fits] in Hfit. subst c2. rewrite Hc' in Hc2. injection Hc2 as ->. by rewrite (is_op_other OP_TEST OP_TESTSET _ (test_of_opcode c) ltac:(discriminate)) in Hx. }
      destruct (agree_here _ _ _ _ _ _ j Ha Hwf') as (wj & Hwj & _ & Hd).
      { apply elem_of_app. by right. } { assert (jump_ok fs j) as Hjo by (apply Hok, elem_of_app; left; apply elem_of_app; by left). apply jump_ok_bounds in Hjo. lia. }
      exists s1, w'. split; [|split; [done|split; [apply clean_label; congruence|]]].
      - replace (pc fs') with (dest cl j); [exact Hre|]. unfold dest. rewrite Hwj. lia.
      - unfold branch. rewrite Em. cbn [lbind lret]. rewrite Hv. assert (Bool.eqb b b = true) as -> by by destruct b. by apply Hst. }
    assert (forall X B, B = b -> exits fs cl X B (freereg fs0) s f (m cl s w) -> exits fs' cl X B (freereg fs0) s f (branch b m m2 cl s w)) as Hout.
    { intros X B -> (j & v & w' & s1 & s' & Hj & Em & Hv & Hb & Hld & Hre). exists j, v, w', s1, s'. split; [done|]. split.
      - unfold branch. rewrite Em. cbn [lbind lret]. rewrite Hv. by assert (Bool.eqb (negb b) b = false) as -> by by destruct b.
      - split; [done|]. split; [done|]. split; [|done]. eapply landed_keeps; [apply Hset|exact Hld]. }
    destruct (Hrun s w Hls Hcl) as [[E|(msg & E & Hf)]|[Ht|[Hf|(s' & w' & Hre & Hb & _ & E)]]].
    + left. left. unfold branch. by rewrite E.
    + left. right. exists msg. unfold branch. by rewrite E.
    + destruct b; [right; left; by apply Hout|do 3 right; by eapply Hhere].
    + destruct b; [do 3 right; by eapply Hhere|do 2 right; left; by apply Hout].
    + unfold known in E. destruct (g cl s') as [v|]; cbn [llift fmap option_fmap option_map lbind] in E.
      2: { left. left. unfold branch. by rewrite <- E. }
      destruct (Bool.eqb (l_isfalse v) (negb b)) eqn:Ev; [left; left; unfold branch; by rewrite <- E|].
      do 3 right. exists s', w'. split; [by rewrite Hpc|]. split; [done|]. split; [apply clean_label; congruence|]. unfold branch. rewrite <- E. cbn [lbind lret].
      assert (Bool.eqb (l_isfalse v) b = true) as -> by (by destruct (l_isfalse v), b). by apply Hst.
Qed.
Lemma dischargevars_presentable fs0 P J0 fs e T F J m : compiled fs0 P J0 fs e T F J m -> presentable fs e ->
  forall e' fs', luaK_dischargevars e fs = lret (e', fs') -> presentable fs' e'.
Proof.
  intros [Hc _ _ Hok _] Hp e' fs' E. unfold luaK_dischargevars, exp_ok in *.
  assert (forall (x : LuaM (Z * FuncState)) e0, (let* (p, fs) := x in lret (exp_is VRELOCABLE p e0, fs)) = lret (e', fs') -> presentable fs' e') as Hreloc.
  { intros x e0 Ex. destruct x as [[[p fs1]|]|]; cbn [lbind] in Ex; [|done..]. by injection Ex as <- <-. }
  destruct (e_k e) eqn:Ek; try done; try (by injection E as <- <-); try (by eapply Hreloc).
  injection E as <- <-. unfold presentable. cbn. lia.
Qed.

Definition going (b : bool) (fs0 : FuncState) (P J0 : list Z) (m : meaning) (e' : expdesc) (fs' : FuncState) : Prop :=
  freereg fs' = freereg fs0 /\ (if b then e_f e' else e_t e') = NO_JUMP /\
  exists L J', chain fs' (if b then e_t e' else e_f e') L /\ forall m2, stable (freereg fs0) m2 ->
    coded fs0 P J0 fs' (pc fs') (if b then L else []) (if b then [] else L) J' m2 (branch b m m2).

Lemma luaK_goiftrue_spec fs0 P J0 fs e T F J m : compiled fs0 P J0 fs e T F J m -> presentable fs e -> nactvar fs0 <= freereg fs0 ->
  lsafe (luaK_goiftrue e fs) (fun '(e', fs') => going false fs0 P J0 m e' fs').
Proof.
  intros Hcp Hp Hn. unfold luaK_goiftrue. eapply lsafe_bind; [eapply (lsafe_and _ (fun '(e', fs') => presentable fs' e')); [by eapply dischargevars_compiled|intros []; by eapply dischargevars_presentable]|].
  intros [e1 fs1] (((J1 & Hcp1) & Hd & Hsl & _) & Hp1). clear Hcp Hp. pose proof Hcp1 as [Hc1 Ht1 Hf1 Hok1 Hfr1].
  (* the end, from a list of the jumps *)
  assert (forall e2 f fs2 T2 F2 J2 g, coded fs0 P J0 fs2 (pc fs2) T2 F2 J2 (known true g) m -> chain fs2 (e_t e2) T2 -> chain fs2 f F2 -> freereg fs2 = freereg fs0 ->
    lsafe (let* fs := luaK_patchtohere (e_t e2) fs2 in lret (exp_lists NO_JUMP f e2, fs)) (fun '(e', fs') => going false fs0 P J0 m e' fs')) as Hend.
  { intros e2 f fs2 T2 F2 J2 g Hc2 Ht2 Hf2 Hfr2. eapply lsafe_bind; [by eapply (falls_through false)|]. intros fs3 (Hfr3 & Hf3 & J3 & Hc3). cbn [lsafe lret].
    split; [congruence|]. split; [done|]. exists F2, J3. done. }
  assert (lsafe (jumponcond e1 0 fs1) (fun '(p, e', fs') => same_lists e1 e' /\ freereg fs' = freereg fs0 /\ chain fs' (e_t e1) T /\ chain fs' (e_f e1) F /\
    chain fs' p [p] /\ jump_ok fs' p /\ p ∉ T ++ F ++ P /\ exists g, coded fs0 P J0 fs' (pc fs') (add_true false T p) (add_true true F p) [] (known true g) m) ->
    lsafe (let* (p, e, fs) := jumponcond e1 0 fs1 in let* (f, fs) := luaK_concat (e_f e) p fs in let* fs := luaK_patchtohere (e_t e) fs in lret (exp_lists NO_JUMP f e, fs))
      (fun '(e', fs') => going false fs0 P J0 m e' fs')) as Hjump.
  { intros Hs. eapply lsafe_bind; [exact Hs|]. intros [[p e2] fs2] ([Et Ef] & Hfr2 & Ht2 & Hf2 & Hp2 & Hjo & _ & g & Hc2). rewrite Ef.
    eapply lsafe_bind; [eapply (join_jump false fs0 P J0 fs2 T F p); [exact Hc2|exact Hf2|exact Ht2|done|done]|].
    intros [f fs3] (Hc3 & Hl3 & Ho3 & Hfr3). eapply Hend; [exact Hc3|rewrite Et; exact Ho3|exact Hl3|congruence]. }
  destruct (decide (e_k e1 = VJMP)) as [Ek|Ek].
  - rewrite Ek. destruct (invertjump_spec _ _ _ _ _ _ _ _ _ Hcp1 Ek) as (fs2 & i & op & -> & -> & Ei & Hpc & Hi & Hop & Hcmp & Hjo & Hopen & Hjn & Hk & Hr & _ & Hc2).
    cbn [llift fmap option_fmap option_map lbind lret]. rewrite <- Hpc in Hi, Ei. destruct (chains_kept _ _ _ _ _ _ _ Hk Ht1 Hf1) as [Ht2 Hf2].
    eapply lsafe_bind; [eapply (test_jump false fs0 P J0 fs2 T F _ m i op (info e1) (e_f e1)); try done|].
    intros [f fs3] (Hc3 & Hl3 & Hk3 & Hr3 & _). cbn [add_true negb] in Hc3, Hl3. eapply (Hend e1 f fs3 T (F ++ [info e1]) [] (fun _ _ => Some (TBoolean true))); [|by eapply keeps_chain|exact Hl3|].
    + eapply coded_ext; [exact Hc3|done|done].
    + destruct Hr, Hr3. unfold temps in Hfr1. rewrite Ek in Hfr1. lia.
  - destruct (match e_k e1 with VK | VKNUM | VTRUE => true | _ => false end) eqn:Hconst.
    + assert (exists g, coded fs0 P J0 fs1 (pc fs1) T F J1 (known true g) m) as [g Hg].
      { exists (fun cl s => match e_k e1 with VK => kget cl (info e1) | VKNUM => Some (TNumber (nval e1)) | _ => Some (TBoolean true) end).
        eapply (go_const false); [exact Hcp1|unfold width; by destruct (e_k e1)|]. intros cl M s w Ha. unfold known, main_of. unfold presentable, exp_ok in *.
        destruct (e_k e1); try done. destruct Hp1 as (v & Hv & Hfv). pose proof (agree_k _ _ _ _ _ _ Ha) as Hpre.
        assert (kget cl (info e1) = Some v) as ->. { unfold kget. assert ((info e1 <? 0) = false) as -> by lia. exact (prefix_lookup_Some _ _ _ _ Hv Hpre). }
        cbn [llift fmap option_fmap option_map lbind]. by rewrite Hfv. }
      assert (freereg fs1 = freereg fs0) as Hfr by (unfold temps in Hfr1; destruct (e_k e1); done || lia).
      assert (luaK_concat (e_f e1) NO_JUMP fs1 = lret (e_f e1, fs1)) as Ecc by done.
      destruct (e_k e1); try done; cbn [lbind lret]; rewrite Ecc; cbn [lbind lret]; by eapply Hend.
    + assert (lsafe (jumponcond e1 0 fs1) (fun '(p, e', fs') => same_lists e1 e' /\ freereg fs' = freereg fs0 /\ chain fs' (e_t e1) T /\ chain fs' (e_f e1) F /\
        chain fs' p [p] /\ jump_ok fs' p /\ p ∉ T ++ F ++ P /\ exists g, coded fs0 P J0 fs' (pc fs') (add_true false T p) (add_true true F p) [] (known true g) m)) as Hs
        by (eapply (jumponcond_spec false); done).
      specialize (Hjump Hs). destruct (e_k e1); try done; exact Hjump.
Qed.

Lemma luaK_goiffalse_spec fs0 P J0 fs e T F J m : compiled fs0 P J0 fs e T F J m -> nactvar fs0 <= freereg fs0 ->
  lsafe (luaK_goiffalse e fs) (fun '(e', fs') => going true fs0 P J0 m e' fs').
Proof.
  intros Hcp Hn. unfold luaK_goiffalse. eapply lsafe_bind; [by eapply dischargevars_compiled|].
  intros [e1 fs1] ((J1 & Hcp1) & Hd & Hsl & _). clear Hcp. pose proof Hcp1 as [Hc1 Ht1 Hf1 Hok1 Hfr1].
  assert (forall e2 t fs2 T2 F2 J2 g, coded fs0 P J0 fs2 (pc fs2) T2 F2 J2 (known false g) m -> chain fs2 t T2 -> chain fs2 (e_f e2) F2 -> freereg fs2 = freereg fs0 ->
    lsafe (let* fs := luaK_patchtohere (e_f e2) fs2 in lret (exp_lists t NO_JUMP e2, fs)) (fun '(e', fs') => going true fs0 P J0 m e' fs')) as Hend.
  { intros e2 t fs2 T2 F2 J2 g Hc2 Ht2 Hf2 Hfr2. eapply lsafe_bind; [by eapply (falls_through true)|]. intros fs3 (Hfr3 & Ht3 & J3 & Hc3). cbn [lsafe lret].
    split; [congruence|]. split; [done|]. exists T2, J3. done. }
  assert (lsafe (jumponcond e1 1 fs1) (fun '(p, e', fs') => same_lists e1 e' /\ freereg fs' = freereg fs0 /\ chain fs' (e_t e1) T /\ chain fs' (e_f e1) F /\
    chain fs' p [p] /\ jump_ok fs' p /\ p ∉ T ++ F ++ P /\ exists g, coded fs0 P J0 fs' (pc fs') (add_true true T p) (add_true false F p) [] (known false g) m) ->
    lsafe (let* (p, e, fs) := jumponcond e1 1 fs1 in let* (t, fs) := luaK_concat (e_t e) p fs in let* fs := luaK_patchtohere (e_f e) fs in lret (exp_lists t NO_JUMP e, fs))
      (fun '(e', fs') => going true fs0 P J0 m e' fs')) as Hjump.
  { intros Hs. eapply lsafe_bind; [exact Hs|]. intros [[p e2] fs2] ([Et Ef] & Hfr2 & Ht2 & Hf2 & Hp2 & Hjo & _ & g & Hc2). rewrite Et.
    eapply lsafe_bind; [eapply (join_jump true fs0 P J0 fs2 T F p); [exact Hc2|exact Ht2|exact Hf2|done|done]|].
    intros [t fs3] (Hc3 & Hl3 & Ho3 & Hfr3). eapply Hend; [exact Hc3|exact Hl3|rewrite Ef; exact Ho3|congruence]. }
  destruct (decide (e_k e1 = VJMP)) as [Ek|Ek].
  - rewrite Ek. cbn [lbind lret]. unfold exp_ok, width, main_of, temps in *. rewrite Ek in *. destruct Hok1 as (-> & Ei & Hjo & Hopen & Hjn & i & op & Hi & Hop & Hcmp & HA).
    replace (info e1 - 1) with (pc fs1 - 2) in * by lia.
    eapply lsafe_bind; [eapply (test_jump true fs0 P J0 fs1 T F _ m i op (info e1) (e_t e1)); try done|].
    { intros cl s w. rewrite Hi. cbn [llift fmap option_fmap option_map lbind]. destruct (instr_cmp cl i s w) as [[[r w']|]|]; cbn [lbind]; [|done..]. by rewrite xorb_false_r. }
    intros [t fs3] (Hc3 & Hl3 & Hk3 & Hr3 & _). cbn [add_true negb] in Hc3, Hl3. eapply (Hend e1 t fs3 (T ++ [info e1]) F [] (fun _ _ => Some (TBoolean false))); [|exact Hl3|by eapply keeps_chain|].
    + eapply coded_ext; [exact Hc3|done|done].
    + destruct Hr3. lia.
  - destruct (match e_k e1 with VNIL | VFALSE => true | _ => false end) eqn:Hconst.
    + assert (exists g, coded fs0 P J0 fs1 (pc fs1) T F J1 (known false g) m) as [g Hg].
      { exists (fun _ _ => match e_k e1 with VNIL => Some TNil | _ => Some (TBoolean false) end).
        eapply (go_const true); [exact Hcp1|unfold width; by destruct (e_k e1)|]. intros cl M s w Ha. unfold known, main_of. by destruct (e_k e1). }
      assert (freereg fs1 = freereg fs0) as Hfr by (unfold temps in Hfr1; destruct (e_k e1); done || lia).
      assert (luaK_concat (e_t e1) NO_JUMP fs1 = lret (e_t e1, fs1)) as Ecc by done.
      destruct (e_k e1); try done; cbn [lbind lret]; rewrite Ecc; cbn [lbind lret]; by eapply Hend.
    + assert (lsafe (jumponcond e1 1 fs1) (fun '(p, e', fs') => same_lists e1 e' /\ freereg fs' = freereg fs0 /\ chain fs' (e_t e1) T /\ chain fs' (e_f e1) F /\
        chain fs' p [p] /\ jump_ok fs' p /\ p ∉ T ++ F ++ P /\ exists g, coded fs0 P J0 fs' (pc fs') (add_true true T p) (add_true false F p) [] (known false g) m)) as Hs
        by (eapply (jumponcond_spec true); done).
      specialize (Hjump Hs). destruct (e_k e1); try done; exact Hjump.
Qed.
End Bool.
