(* ===== verification/LCompileLogic.v ===== *)
(** * The logical operators

    [codenot], and the second operands of [and] and [or]. *)
From stdpp Require Import base list option relations.
From Stdlib Require Import ZArith Lia ZifyBool.
From S2P Require Import Prelude LObject LNum LOpcodes LProto LVm LVmProps LCode LCodeJumps LExpr LFinal LCompile LCompileExp LCompileReg LCompileVal LCompileOps LCompileCond LCompileBool.
#[local] Open Scope Z_scope.

Section Logic.
Context {W : Type} `{CallsKeepFrame W}.
Abbreviation meaning := (lclosure -> registers -> W -> LuaM (tvalue * W)).

(** ** Negation *)
Definition negate (m : meaning) : meaning := fun cl s w => let* (v, w) := m cl s w in lret (TBoolean (l_isfalse v), w).

Lemma stripped_app L1 L2 fs fs1 fs2 : stripped L1 fs fs1 -> stripped L2 fs1 fs2 -> stripped (L1 ++ L2) fs fs2.
Proof.
  intros [S1 W1] [S2 W2]. split; [by eapply same_shape_trans|]. intros i w Hw. rewrite (W2 _ _ (W1 _ _ Hw)). f_equal.
  destruct (is_op OP_TESTSET w) eqn:Et; cbn [andb]; [|by rewrite Et].
  destruct (decide (i + 1 ∈ L1)) as [H1|H1].
  - rewrite (bool_decide_eq_true_2 _ H1), (is_op_other OP_TEST OP_TESTSET _ (test_of_opcode w) ltac:(discriminate)). cbn [andb].
    by rewrite bool_decide_eq_true_2 by (apply elem_of_app; by left).
  - rewrite (bool_decide_eq_false_2 _ H1), Et. cbn [andb]. by rewrite (bool_decide_ext (i + 1 ∈ L2) (i + 1 ∈ L1 ++ L2)) by (rewrite elem_of_app; tauto).
Qed.

Lemma stripped_clean cl M L fs fs' s : stripped L fs fs' -> clean cl M fs s -> clean cl M fs' s.
Proof.
  intros Hs Hcl. pose proof (stripped_pc _ _ _ Hs) as Hpc. destruct (stripped_shape _ _ _ Hs) as (c & Ec & _).
  unfold clean in *. rewrite Hpc. assert (lasttarget fs' = lasttarget fs /\ nactvar fs' = nactvar fs) as [-> ->] by (by rewrite Ec). intros Ht.
  destruct (Hcl Ht) as [H1 H2]. split; [done|]. intros w w' Hw Hn Hw'. destruct (code_at fs (pc fs - 1)) as [x|] eqn:Hx.
  - rewrite (stripped_words _ _ _ Hs _ _ Hx) in Hw. injection Hw as <-. destruct (is_op OP_TESTSET x && bool_decide (pc fs - 1 + 1 ∈ L)).
    + by rewrite (is_op_other OP_TEST OP_LOADNIL _ (test_of_opcode x) ltac:(discriminate)) in Hn.
    + by eapply H2.
  - apply code_at_bounds in Hw. rewrite Hpc in Hw. apply code_at_some in Hw as [? ?]. congruence.
Qed.

(** The lists change places, and their jumps carry truth values only. *)
Lemma coded_not fs0 P J0 fs n T F J main m fs' : coded fs0 P J0 fs n T F J main m -> stripped (T ++ F) fs fs' -> n <= pc fs -> (forall j, j ∈ T ++ F -> j <= n) ->
  coded fs0 P J0 fs' n F T J (negate main) (negate m).
Proof.
  intros Hc Hs Hn Hjn. destruct (coded_lists _ _ _ _ _ _ _ _ _ _ Hc) as [Hnd0 Hok0]. assert (wf fs (T ++ F ++ P) J) as Hwf by apply Hc. destruct Hc as [_ Hkeep Hgrow Hsem].
  destruct (wf_jumps _ _ _ Hwf) as [Hnd Hok]. rewrite Forall_forall in Hok. pose proof (stripped_wf _ _ _ _ _ Hs Hwf) as Hwf'. destruct (stripped_shape _ _ _ Hs) as (c & Ec & _).
  assert (T ++ F ++ P ≡ₚ F ++ T ++ P) as Hperm by solve_Permutation. pose proof (stripped_pc _ _ _ Hs) as Hpc.
  assert (same_rest fs fs') as Hrest by (apply same_shape_rest, Hs). split.
  - by eapply wf_perm.
  - eapply keeps_trans; [exact Hkeep|]. eapply stripped_keeps; [exact Hs|]. intros j Hj. split; [apply Hok; rewrite !elem_of_app; tauto|].
    rewrite app_assoc, <- app_assoc in Hnd. apply NoDup_app in Hnd as (_ & Hd & _). intros Hx. apply (Hd j Hx), elem_of_app. by left.
  - eapply grows_trans; [exact Hgrow|]. apply grows_rest; [done|lia].
  - intros cl M Ha. eapply agree_perm in Ha; [|symmetry; exact Hperm].
    assert (agree cl M fs n (T ++ F ++ P) J) as Ha1. { eapply stripped_agree; [exact Hs|exact Hwf| |exact Ha]. intros x Hx. rewrite app_assoc. apply elem_of_app. by left. }
    destruct (Hsem cl M Ha1) as [Ha0 Hrun]. split; [done|]. intros s w Hl Hcl f.
    assert (forall L b, L ⊆ T ++ F -> exits fs cl L b (freereg fs0) s f (m cl s w) -> exits fs' cl L (negb b) (freereg fs0) s f (negate m cl s w)) as Hex.
    { intros L b HL (j & v & w' & s1 & s' & Hj & Em & Hv & Hb & Hld & Hre). exists j, (TBoolean (negb b)), w', s1, s'. split; [done|].
      split; [unfold negate; rewrite Em; cbn [lbind lret]; by rewrite Hv|]. split; [by destruct b|]. split; [done|]. split; [|done].
      unfold landed in *. rewrite (stripped_setter _ _ _ Hs j), bool_decide_eq_true_2 by (by apply HL). split; [done|].
      destruct (setter fs j) as [c0|] eqn:Hset; [|by apply Hld]. destruct Hld as (_ & c' & Hc' & Hx). apply setter_some in Hset as [Hc0 Ht].
      pose proof (code_at_bounds _ _ _ Hc0) as Hb0. assert (jump_ok fs j) as Hjo by (by apply Hok0, HL). pose proof (jump_ok_bounds _ _ Hjo) as Hbj.
      assert (code_at fs' (j - 1) = Some (test_of c0)) as Hw'.
      { rewrite (stripped_words _ _ _ Hs _ _ Hc0), Ht. replace (j - 1 + 1) with j by lia. by rewrite bool_decide_eq_true_2 by (by apply HL). }
      assert (j <= n) as Hjn' by (by apply Hjn, HL).
      assert (instr_at cl (j - 1) = Some (test_of c0)) as Hi.
      { eapply agree_plain; [exact Ha|lia|exact Hw'|..].
        - intros Hin. apply Hok in Hin. eapply test_no_jump; [exact Hc0|exact (is_op_other OP_TESTSET OP_JMP _ Ht ltac:(discriminate))|done].
        - by rewrite (is_op_other OP_TEST OP_TESTSET _ (test_of_opcode c0) ltac:(discriminate)).
        - exact (is_op_other OP_TEST OP_LOADNIL _ (test_of_opcode c0) ltac:(discriminate)). }
      rewrite Hi in Hc'. injection Hc' as <-. by rewrite (is_op_other OP_TEST OP_TESTSET _ (test_of_opcode c0) ltac:(discriminate)) in Hx. }
    destruct (Hrun s w Hl Hcl) as [[E|(msg & E & Hf)]|[Ht|[Hf|(s' & w' & Hre & Hb & Hcl' & E)]]].
    + left. left. unfold negate. by rewrite E.
    + left. right. exists msg. unfold negate. by rewrite E.
    + do 2 right; left. apply (Hex T true); [|exact Ht]. intros x Hx. apply elem_of_app. by left.
    + right; left. apply (Hex F false); [|exact Hf]. intros x Hx. apply elem_of_app. by right.
    + do 3 right. exists s', w'. split; [done|]. split; [done|]. split; [by eapply stripped_clean|]. unfold negate. by rewrite E.
Qed.

(** [removevalues] of both lists. *)
Lemma removevalues_both fs T F t f : chain fs t T -> chain fs f F -> NoDup (T ++ F) -> (forall j, j ∈ T ++ F -> jump_ok fs j) ->
  exists fs1 fs', removevalues t fs = Some fs1 /\ removevalues f fs1 = Some fs' /\ stripped (T ++ F) fs fs' /\ chain fs' t T /\ chain fs' f F.
Proof.
  intros Ht Hf Hnd Hok. apply NoDup_app in Hnd as (HndT & _ & HndF).
  assert (forall j, j ∈ T -> jump_ok fs j) as HokT by (intros j Hj; apply Hok, elem_of_app; by left).
  assert (forall j, j ∈ F -> jump_ok fs j) as HokF by (intros j Hj; apply Hok, elem_of_app; by right).
  destruct (removevalues_spec T t fs Ht HndT HokT) as (fs1 & E1 & S1).
  destruct (removevalues_spec F f fs1) as (fs2 & E2 & S2); [by apply (stripped_chain _ _ _ S1)|done|intros j Hj; by apply (stripped_jump_ok _ _ _ S1), HokF|].
  exists fs1, fs2. pose proof (stripped_app _ _ _ _ _ S1 S2) as S. split; [done|]. split; [done|]. split; [done|].
  split; by apply (stripped_chain _ _ _ S).
Qed.

(** What [codenot] has before it exchanges the lists. *)
Lemma codenot_end fs0 P J0 fs T F J main m e1 e2 : coded fs0 P J0 fs (pc fs - width e2) T F J main m -> chain fs (e_t e1) T -> chain fs (e_f e1) F ->
  same_lists e1 e2 -> freereg fs = freereg fs0 -> (forall cl s w, main_of fs e2 cl s w = negate main cl s w) -> exp_ok fs0 fs P T F J e2 ->
  match e_k e2 with VTRUE | VFALSE | VJMP | VRELOCABLE => True | _ => False end ->
  lsafe (let e := exp_lists (e_f e2) (e_t e2) e2 in
    let* fs := llift (removevalues (e_f e) fs) in let* fs := llift (removevalues (e_t e) fs) in lret (e, fs))
    (fun '(e', fs') => presentable fs' e' /\ isnumeral e' = false /\ exists J', compiled fs0 P J0 fs' e' F T J' (negate m)).
Proof.
  intros Hc Ht Hf [Et Ef] Hfr Hmain Hok Hk. cbn [e_t e_f exp_lists]. rewrite Et, Ef. destruct (coded_lists _ _ _ _ _ _ _ _ _ _ Hc) as [Hnd Hokj].
  destruct (removevalues_both fs T F _ _ Ht Hf Hnd Hokj) as (fs1 & fs2 & -> & E2 & Hs & Ht2 & Hf2). cbn [llift fmap option_fmap option_map lbind]. rewrite E2.
  cbn [llift fmap option_fmap option_map lbind lsafe lret]. assert (wf fs (T ++ F ++ P) J) as Hwf by apply Hc.
  set (e' := exp_lists (e_f e1) (e_t e1) e2). pose proof (stripped_pc _ _ _ Hs) as Hpc. destruct (stripped_shape _ _ _ Hs) as (c & Ec & _).
  assert (forall j, j ∈ T ++ F -> j <= pc fs - width e2) as Hjn.
  { intros j Hj. pose proof (Hokj j Hj) as Hjo. pose proof (jump_ok_bounds _ _ Hjo) as Hb. unfold width, exp_ok in *. destruct (e_k e2); try done; try lia.
    destruct Hok as (_ & Ei & _ & _ & Hjn & i & op & Hi & Hop & Hcmp & _). replace (info e2 - 1) with (pc fs - 2) in Hi by lia.
    destruct (Z.eq_dec j (pc fs - 1)) as [->|]; [|lia]. exfalso. rewrite Ei in Hjn. apply Hjn. rewrite app_assoc. apply elem_of_app. by left. }
  pose proof (coded_not _ _ _ _ _ _ _ _ _ _ _ Hc Hs ltac:(unfold width; destruct (e_k e2); lia) Hjn) as Hc'.
  split; [unfold presentable; cbn; by destruct (e_k e2)|]. split; [unfold isnumeral; cbn; by destruct (e_k e2)|]. exists J. split.
  - change (width e') with (width e2). rewrite Hpc. eapply coded_ext; [exact Hc'| |done]. intros cl s w. rewrite <- Hmain. unfold main_of. cbn [e_k e' exp_lists info].
    unfold exp_ok in Hok. destruct (e_k e2); try done.
    + destruct Hok as (_ & Ei & _ & _ & _ & i & op & Hi & Hop & Hcmp & _). assert (is_op OP_TESTSET i = false) as Hn.
      { apply (is_op_other op); [by apply is_op_iff|by intros ->]. } by rewrite (stripped_jump _ _ _ Hs _ _ Hi Hn), Hi.
    + destruct Hok as (_ & Ei & _ & i & op & Hi & Hop & Hv & _). assert (is_op OP_TESTSET i = false) as Hn.
      { apply (is_op_other op); [by apply is_op_iff|by intros ->]. } by rewrite (stripped_jump _ _ _ Hs _ _ Hi Hn), Hi.
  - exact Hf2.
  - exact Ht2.
  - unfold exp_ok in *. cbn [e_k e' exp_lists info]. rewrite Hpc. destruct (e_k e2); try done.
    + destruct Hok as (-> & Ei & Hjo & Hopen & Hjn' & i & op & Hi & Hop & Hcmp & HA). assert (is_op OP_TESTSET i = false) as Hn.
      { apply (is_op_other op); [by apply is_op_iff|by intros ->]. } split; [done|]. split; [done|]. split; [by apply (stripped_jump_ok _ _ _ Hs)|]. split.
      * rewrite <- Hopen. apply getjump_ext. destruct (jump_word _ _ Hjo) as (x & Hx & Hxj). rewrite Hx. eapply stripped_jump; [exact Hs|exact Hx|].
        exact (is_op_other OP_JMP OP_TESTSET _ Hxj ltac:(discriminate)).
      * split; [rewrite !elem_of_app in Hjn' |- *; tauto|]. exists i, op. split; [by eapply stripped_jump|done].
    + destruct Hok as (-> & Ei & Htg & i & op & Hi & Hop & Hv & Hnot). assert (is_op OP_TESTSET i = false) as Hn.
      { apply (is_op_other op); [by apply is_op_iff|by intros ->]. } split; [done|]. split; [done|]. split; [by rewrite Ec|]. exists i, op. split; [by eapply stripped_jump|done].
  - assert (freereg fs2 = freereg fs) as -> by (by rewrite Ec). rewrite Hfr. unfold temps. cbn. destruct (e_k e2); done || lia.
Qed.

Lemma codenot_spec fs0 P J0 fs e T F J m : compiled fs0 P J0 fs e T F J m -> presentable fs e -> nactvar fs0 <= freereg fs0 ->
  lsafe (codenot e fs) (fun '(e', fs') => presentable fs' e' /\ isnumeral e' = false /\ exists J', compiled fs0 P J0 fs' e' F T J' (negate m)).
Proof.
  intros Hcp Hp Hn. unfold codenot.
  eapply lsafe_bind; [eapply (lsafe_and _ (fun '(e', fs') => presentable fs' e')); [by eapply dischargevars_compiled|intros []; by eapply dischargevars_presentable]|].
  intros [e1 fs1] (((J1 & Hcp1) & Hd & Hsl & _) & Hp1). clear Hcp Hp. pose proof Hcp1 as [Hc1 Ht1 Hf1 Hok1 Hfr1].
  set (fin := fun e fs => let e := exp_lists (e_f e) (e_t e) e in let* fs := llift (removevalues (e_f e) fs) in let* fs := llift (removevalues (e_t e) fs) in lret (e, fs)).
  assert (lsafe (let* (e, fs) := (let* (e, fs) := discharge2anyreg e1 fs1 in let fs := freeexp e fs in let* (p, fs) := luaK_codeABC OP_NOT 0 (info e) 0 fs in lret (exp_is VRELOCABLE p e, fs)) in fin e fs)
    (fun '(e', fs') => presentable fs' e' /\ isnumeral e' = false /\ exists J', compiled fs0 P J0 fs' e' F T J' (negate m)) \/ e_k e1 = VJMP) as Hval.
  { destruct (decide (e_k e1 = VJMP)) as [?|Hnj]; [by right|left].
    assert ((let* (e, fs) := discharge2anyreg e1 fs1 in let fs := freeexp e fs in let* (p, fs) := luaK_codeABC OP_NOT 0 (info e) 0 fs in lret (exp_is VRELOCABLE p e, fs)) =
      (let* (e, fs) := (let* (e, fs) := discharge2anyreg e1 fs1 in lret (e, freeexp e fs)) in let* (p, fs) := luaK_codeABC OP_NOT 0 (info e) 0 fs in lret (exp_is VRELOCABLE p e, fs))) as ->
      by (by destruct (discharge2anyreg e1 fs1) as [[[? ?]|]|]).
    eapply (lsafe_bind (fun '(e', fs') => exists main J', coded fs0 P J0 fs' (pc fs' - width e') T F J' main m /\ chain fs' (e_t e1) T /\ chain fs' (e_f e1) F /\ same_lists e1 e' /\
      freereg fs' = freereg fs0 /\ (forall cl s w, main_of fs' e' cl s w = negate main cl s w) /\ exp_ok fs0 fs' P T F J' e' /\ e_k e' = VRELOCABLE)).
    - eapply lsafe_bind; [by eapply anyreg_freed|]. intros [e2 fs2] (Hsl2 & Hr & Hfr2 & Ht2 & Hf2 & J2 & Hc2). assert (wf fs2 (T ++ F ++ P) J2) as Hwf2 by apply Hc2.
      eapply lsafe_bind; [by eapply luaK_codeABC_spec|]. intros [p fs3] [-> He]. cbn [lsafe lret]. exists (reg_main (info e2)), [].
      destruct (create_abc_fields OP_NOT 0 (info e2) 0) as (Eo & _ & Eb & _); [done|change MAXARG_A with 255 in Hr; change MAXARG_B with 511; lia|done|].
      set (i := CREATE_ABC (of_opcode OP_NOT) 0 (info e2) 0) in *. destruct (ext_last _ _ _ _ He) as [Hpc Hlast]. destruct (chains_kept fs2 fs3 P T F _ _ ltac:(by eapply ext_keeps) Ht2 Hf2) as [Ht3 Hf3].
      split; [|split; [done|split; [done|split; [done|split; [destruct (ext_rest _ _ _ _ He); congruence|split; [|split; [|done]]]]]]].
      + change (width (exp_is VRELOCABLE (pc fs2) e2)) with 1. replace (pc fs3 - 1) with (pc fs2) by lia. eapply coded_pending; [exact Hc2|exact He|].
        apply (is_op_other OP_NOT); [by apply is_op_iff|done].
      + intros cl s w. unfold main_of, negate, reg_main. cbn. rewrite Hlast. cbn. unfold instr_val. rewrite Eo, to_of_opcode, Eb. by destruct (rget s (info e2)).
      + unfold exp_ok. cbn. split; [done|]. split; [lia|]. split; [rewrite (ext_target _ _ _ _ He); pose proof (wf_target _ _ _ Hwf2); lia|].
        eexists _, OP_NOT. split; [exact Hlast|]. split; [exact Eo|]. split; [done|]. intros _. rewrite Eb. apply Hr.
    - intros [e2 fs2] (main & J2 & Hc2 & Ht2 & Hf2 & Hsl2 & Hfr2 & Hm2 & Hok2 & Ek2). eapply codenot_end; try done. by rewrite Ek2. }
  destruct (decide (e_k e1 = VJMP)) as [Ek|Ek].
  - rewrite Ek. destruct (invertjump_spec _ _ _ _ _ _ _ _ _ Hcp1 Ek) as (fs2 & i & op & -> & -> & Ei & Hpc & Hi & Hop & Hcmp & Hjo & Hopen & Hjn & Hk & Hr & HA & Hc2).
    cbn [llift fmap option_fmap option_map lbind lret]. destruct (chains_kept _ _ _ _ _ _ _ Hk Ht1 Hf1) as [Ht2 Hf2].
    eapply (codenot_end fs0 P J0 fs2 T F [] _ m e1 e1); [unfold width; rewrite Ek; exact Hc2|done|done|done|..].
    + unfold temps in Hfr1. rewrite Ek in Hfr1. destruct Hr. lia.
    + intros cl s w. unfold main_of, negate. rewrite Ek. replace (info e1 - 1) with (pc fs1 - 2) by lia. rewrite Hi. cbn [llift fmap option_fmap option_map lbind].
      destruct (instr_cmp cl i s w) as [[[r w']|]|]; cbn [lbind lret]; [|done..]. by destruct (Z.b2z r =? GETARG_A i).
    + unfold exp_ok. rewrite Ek. split; [done|]. split; [lia|]. split; [done|]. split; [done|]. split; [done|]. exists i, op. replace (info e1 - 1) with (pc fs1 - 2) by lia.
      done.
    + by rewrite Ek.
  - destruct Hval as [Hval|?]; [|done].
    assert (forall v, width e1 = 0 -> temps fs1 e1 = 0 -> (forall cl M s w, agree cl M fs1 (pc fs1) (T ++ F ++ P) J1 -> main_of fs1 e1 cl s w = lret (v, w)) ->
      lsafe (fin (exp_kind (if l_isfalse v then VTRUE else VFALSE) e1) fs1)
        (fun '(e', fs') => presentable fs' e' /\ isnumeral e' = false /\ exists J', compiled fs0 P J0 fs' e' F T J' (negate m))) as Hconst.
    { intros v Hw Htm Hv. eapply (codenot_end fs0 P J0 fs1 T F J1 (fun _ _ w => lret (v, w)) m e1); [|done|done|done|lia|..].
      - assert (width (exp_kind (if l_isfalse v then VTRUE else VFALSE) e1) = 0) as -> by (unfold width; cbn; by destruct (l_isfalse v)).
        rewrite Z.sub_0_r. rewrite Hw, Z.sub_0_r in Hc1. eapply coded_step; [exact Hc1|apply Hc1|done|done|]. intros cl M Ha. split; [done|].
        intros s w Hl Hcl. right. exists s, w. split; [apply reaches_refl|]. split; [done|]. split; [done|]. symmetry. by eapply Hv.
      - intros cl s w. unfold main_of, negate. cbn. by destruct (l_isfalse v).
      - unfold exp_ok. cbn. by destruct (l_isfalse v).
      - cbn. by destruct (l_isfalse v). }
    unfold presentable, exp_ok, discharged in *. destruct (e_k e1) eqn:Ek1; try done; try exact Hval.
    + apply (Hconst TNil); [unfold width; by rewrite Ek1|unfold temps; by rewrite Ek1|]. intros. unfold main_of. by rewrite Ek1.
    + apply (Hconst (TBoolean true)); [unfold width; by rewrite Ek1|unfold temps; by rewrite Ek1|]. intros. unfold main_of. by rewrite Ek1.
    + apply (Hconst (TBoolean false)); [unfold width; by rewrite Ek1|unfold temps; by rewrite Ek1|]. intros. unfold main_of. by rewrite Ek1.
    + destruct Hp1 as (v & Hv & Hfv). assert (VFALSE = if l_isfalse v then VTRUE else VFALSE) as Ev by (by rewrite Hfv). cbn [lbind lret]. rewrite Ev.
      apply (Hconst v); [unfold width; by rewrite Ek1|unfold temps; by rewrite Ek1|]. intros cl M s w Ha. unfold main_of. rewrite Ek1.
      pose proof (agree_k _ _ _ _ _ _ Ha) as Hpre. unfold kget. assert ((info e1 <? 0) = false) as -> by lia. by rewrite (prefix_lookup_Some _ _ _ _ Hv Hpre).
    + apply (Hconst (TNumber (nval e1))); [unfold width; by rewrite Ek1|unfold temps; by rewrite Ek1|]. intros. unfold main_of. by rewrite Ek1.
Qed.

(** ** The second operand of [and] and [or] *)

(** Linking jumps of the lists does not touch the descriptor. *)
Lemma linked_main fs fs' L e : linked L fs fs' -> (forall x, x ∈ L -> jump_ok fs x) -> discharged e ->
  (e_k e = VJMP -> exists i, code_at fs (info e - 1) = Some i /\ is_op OP_JMP i = false) ->
  (e_k e = VRELOCABLE -> exists i, code_at fs (info e) = Some i /\ is_op OP_JMP i = false) -> main_of fs' e = main_of fs e.
Proof.
  intros Hlk HL Hd Hj Hr. assert (forall x i, code_at fs x = Some i -> is_op OP_JMP i = false -> code_at fs' x = code_at fs x) as Hsame.
  { intros x i Hx Hn. apply (linked_other _ _ _ Hlk). intros Hin. eapply test_no_jump; [exact Hx|done|by apply HL]. }
  unfold main_of, discharged in *. destruct (e_k e); try done.
  - destruct Hj as (i & Hi & Hn); [done|]. by rewrite (Hsame _ _ Hi Hn).
  - destruct Hr as (i & Hi & Hn); [done|]. by rewrite (Hsame _ _ Hi Hn).
Qed.

Lemma second_side (b : bool) fs0 P J0 m1 fs1 l1 (L1 : list Z) J1 fs2 e2 T F J2 m2 :
  (forall m2, stable (freereg fs0) m2 -> coded fs0 P J0 fs1 (pc fs1) (if b then L1 else []) (if b then [] else L1) J1 m2 (branch b m1 m2)) ->
  chain fs1 l1 L1 -> freereg fs1 = freereg fs0 -> compiled fs1 (L1 ++ P) J1 fs2 e2 T F J2 m2 -> stable (freereg fs0) m2 -> discharged e2 -> presentable fs2 e2 ->
  lsafe (luaK_concat (if b then e_t e2 else e_f e2) l1 fs2) (fun '(l, fs') =>
    presentable fs' e2 /\ compiled fs0 P J0 fs' (if b then exp_lists l (e_f e2) e2 else exp_lists (e_t e2) l e2)
      (if b then T ++ L1 else T) (if b then F else F ++ L1) J2 (branch b m1 m2)).
Proof.
  intros Hc1 Hl1 Hfr1 [Hc2 Ht2 Hf2 Hok2 Hfr2] Hst Hd Hp. specialize (Hc1 m2 Hst).
  assert (coded fs0 P J0 fs2 (pc fs2 - width e2) (T ++ if b then L1 else []) (F ++ if b then [] else L1) J2 (main_of fs2 e2) (branch b m1 m2)) as Hc.
  { eapply coded_seq; [exact Hc1| |lia]. by destruct b. }
  destruct (coded_lists _ _ _ _ _ _ _ _ _ _ Hc) as [Hnd Hok]. set (L := if b then T else F).
  assert (keeps (L1 ++ P) fs1 fs2) as Hk2 by apply Hc2.
  assert (chain fs2 l1 L1) as Hl2. { eapply keeps_chain; [exact Hk2| |exact Hl1]. intros x Hx. apply elem_of_app. by left. }
  assert (L ++ L1 ⊆ (T ++ if b then L1 else []) ++ (F ++ if b then [] else L1)) as HL.
  { intros x. unfold L. destruct b; rewrite !elem_of_app; tauto. }
  assert (NoDup (L ++ L1)) as HndL. { unfold L. destruct b; [by apply NoDup_app in Hnd as (? & _)|by apply NoDup_app in Hnd as (_ & _ & ?)]. }
  eapply lsafe_mono; [apply (luaK_concat_spec (if b then e_t e2 else e_f e2) l1 L L1)|]; [by unfold L; destruct b|done|done|intros x Hx; by apply Hok, HL|].
  intros [l fs'] [Hch Hlk]. pose proof (linked_rewired _ _ _ Hlk) as Hrw. pose proof (rewired_pc _ _ _ Hrw) as Hpc. destruct (rewired_rest _ _ _ Hrw) as [Hk Hh Ha Hf Hn Hs].
  destruct (linked_shape _ _ _ Hlk) as (c & Ec & _). assert (lasttarget fs' = lasttarget fs2) as Hlt by (by rewrite Ec).
  assert (forall x, x ∈ L -> jump_ok fs2 x) as HokL by (intros x Hx; apply Hok, HL, elem_of_app; by left).
  assert (forall x i, code_at fs2 x = Some i -> is_op OP_JMP i = false -> code_at fs' x = Some i) as Hsame.
  { intros x i Hx Hnj. rewrite <- Hx. apply (linked_other _ _ _ Hlk). intros Hin. eapply test_no_jump; [exact Hx|done|by apply HokL]. }
  set (e' := if b then exp_lists l (e_f e2) e2 else exp_lists (e_t e2) l e2).
  assert (e_k e' = e_k e2 /\ info e' = info e2 /\ aux e' = aux e2 /\ nval e' = nval e2) as (Ek & Ei & Eax & Env) by (unfold e'; by destruct b).
  split; [unfold presentable in *; rewrite Hn, Hk; exact Hp|].
  assert (keeps (if b then F else T) fs2 fs') as Hko.
  { intros x Hx. assert (x ∉ L) as Hnx.
    { intros HxL. unfold L in HxL. destruct b; apply NoDup_app in Hnd as (_ & Hd' & _).
      - apply (Hd' x); apply elem_of_app; by left.
      - apply (Hd' x); apply elem_of_app; by left. }
    split; [by apply (linked_other _ _ _ Hlk)|by apply (linked_setter L)]. }
  split.
  - assert (main_of fs' e' = main_of fs2 e2) as Em.
    { assert (main_of fs' e' = main_of fs' e2) as -> by (unfold main_of; by rewrite Ek, Ei, Eax, Env). eapply linked_main; [exact Hlk|exact HokL|exact Hd|..]; intros E; unfold exp_ok in Hok2; rewrite E in Hok2.
      - destruct Hok2 as (_ & _ & _ & _ & _ & i & op & Hi & Hop & Hcmp & _). exists i. split; [done|]. apply (is_op_other op); [by apply is_op_iff|by intros ->].
      - destruct Hok2 as (_ & _ & _ & i & op & Hi & Hop & Hv & _). exists i. split; [done|]. apply (is_op_other op); [by apply is_op_iff|by intros ->]. }
    rewrite Em, Hpc. assert (width e' = width e2) as -> by (unfold width; by rewrite Ek).
    eapply relink_coded; [|exact Hlk|]; [|intros x Hx; unfold L in Hx; destruct b; rewrite !elem_of_app; tauto].
    destruct b; rewrite ?app_nil_r in Hc; exact Hc.
  - unfold e'. destruct b; [exact Hch|]. by eapply keeps_chain.
  - unfold e'. destruct b; [|exact Hch]. by eapply keeps_chain.
  - unfold exp_ok in *. rewrite Ek, Ei, Eax, Env, Hpc, Hn, Hlt. unfold presentable, nk, discharged in *. rewrite ?Hk. destruct (e_k e2); try done.
    + destruct Hok2 as (-> & E1 & Hjo & Hopen & Hjn & i & op & Hi & Hop & Hcmp & HA). assert (is_op OP_JMP i = false) as Hnj by (apply (is_op_other op); [by apply is_op_iff|by intros ->]).
      assert (info e2 ∉ (T ++ F) ++ L1 ++ P) as Hjn' by (by rewrite <- app_assoc).
      split; [done|]. split; [done|]. split; [by apply (rewired_jump_ok L fs2)|]. split; [|split; [|by exists i, op; split; [apply Hsame|]]].
      * rewrite <- Hopen. apply getjump_ext, (linked_other _ _ _ Hlk). intros Hin. apply Hjn', elem_of_app. left. apply elem_of_app. unfold L in Hin. destruct b; tauto.
      * destruct b; rewrite !elem_of_app in Hjn' |- *; tauto.
    + destruct Hok2 as (-> & E1 & Htg & i & op & Hi & Hop & Hv & Hnot). assert (is_op OP_JMP i = false) as Hnj by (apply (is_op_other op); [by apply is_op_iff|by intros ->]).
      split; [done|]. split; [done|]. split; [done|]. exists i, op. split; [by apply Hsame|done].
    + left. destruct Hok2 as [?|(? & _)]; [done|]. assert (grows fs1 fs2) as Hg by apply Hc2. pose proof (grows_nactvar _ _ Hg) as En2.
      assert (wf fs1 ((if b then L1 else []) ++ (if b then [] else L1) ++ P) J1) as Hwf1 by apply Hc1. pose proof (wf_nactvar _ _ _ Hwf1). lia.
  - rewrite Hf. assert (temps fs' e' = temps fs2 e2) as ->; [|lia]. unfold temps, temp_reg. by rewrite Ek, Ei, Eax, Hn.
Qed.

Lemma dischargevars_numeral e fs e' fs' : luaK_dischargevars e fs = lret (e', fs') -> e_k e' = VKNUM -> e' = e /\ fs' = fs.
Proof.
  intros E Hk. unfold luaK_dischargevars in E.
  assert (forall (x : LuaM (Z * FuncState)) e0, (let* (p, fs) := x in lret (exp_is VRELOCABLE p e0, fs)) = lret (e', fs') -> e' = e /\ fs' = fs) as Hreloc.
  { intros x e0 Ex. destruct x as [[[p fs1]|]|]; cbn [lbind] in Ex; [|done..]. by injection Ex as <- <-. }
  destruct (e_k e) eqn:Ek; try (by injection E as <- <-); try (by eapply Hreloc); unfold luaK_setoneret in E; rewrite Ek in E.
  - destruct (getcode fs e); cbn in E; [|done]. by injection E as <- <-.
  - destruct (set_arg SETARG_B 2 e fs); cbn in E; [|done]. by injection E as <- <-.
Qed.

Lemma posfix_side (b : bool) fs0 P J0 m1 e1 fs1 (L1 : list Z) J1 fs2 e2 T F J2 m2 : freereg fs1 = freereg fs0 -> chain fs1 (if b then e_t e1 else e_f e1) L1 ->
  (forall m2, stable (freereg fs0) m2 -> coded fs0 P J0 fs1 (pc fs1) (if b then L1 else []) (if b then [] else L1) J1 m2 (branch b m1 m2)) ->
  nactvar fs1 <= freereg fs1 -> compiled fs1 (L1 ++ P) J1 fs2 e2 T F J2 m2 -> stable (freereg fs0) m2 -> presentable fs2 e2 ->
  lsafe (luaK_posfix luai_numpow (if b then OPR_OR else OPR_AND) e1 e2 fs2) (fun '(e', fs') => presentable fs' e' /\
    (isnumeral e' = true -> isnumeral e2 = true /\ nval e' = nval e2) /\ exists T' F' J', compiled fs0 P J0 fs' e' T' F' J' (branch b m1 m2)).
Proof.
  intros Hfr Hl1 Hc1 Hn H2 Hst Hp2.
  assert (lsafe (luaK_dischargevars e2 fs2) (fun '(e3, fs3) => (((exists J', compiled fs1 (L1 ++ P) J1 fs3 e3 T F J' m2) /\ discharged e3 /\ same_lists e2 e3 /\ (discharged e2 -> e3 = e2 /\ fs3 = fs2)) /\
    presentable fs3 e3 /\ (e_k e3 = VKNUM -> e3 = e2 /\ fs3 = fs2)))) as Hd.
  { eapply lsafe_mono; [eapply (lsafe_and _ (fun '(e', fs') => presentable fs' e' /\ (e_k e' = VKNUM -> e' = e2 /\ fs' = fs2))); [by eapply dischargevars_compiled|]|by intros []].
    intros [] E. split; [by eapply dischargevars_presentable|by apply dischargevars_numeral]. }
  assert (forall e3 fs3, ((exists J', compiled fs1 (L1 ++ P) J1 fs3 e3 T F J' m2) /\ discharged e3 /\ same_lists e2 e3 /\ (discharged e2 -> e3 = e2 /\ fs3 = fs2)) /\ presentable fs3 e3 /\ (e_k e3 = VKNUM -> e3 = e2 /\ fs3 = fs2) ->
    lsafe (let* (l, fs) := luaK_concat (if b then e_t e3 else e_f e3) (if b then e_t e1 else e_f e1) fs3 in lret (if b then exp_lists l (e_f e3) e3 else exp_lists (e_t e3) l e3, fs))
      (fun '(e', fs') => presentable fs' e' /\ (isnumeral e' = true -> isnumeral e2 = true /\ nval e' = nval e2) /\ exists T' F' J', compiled fs0 P J0 fs' e' T' F' J' (branch b m1 m2))) as Hrest.
  { intros e3 fs3 (((J3 & H3) & Hd3 & Hsl3 & _) & Hp3 & Hsame). pose proof H3 as [_ Ht3 Hf3 _ _].
    eapply lsafe_bind; [eapply (second_side b fs0 P J0 m1 fs1 _ L1 J1 fs3 e3); done|]. intros [l fs4] [Hp4 Hcp4]. cbn [lsafe lret].
    split; [unfold presentable in *; by destruct b|]. split; [|by eauto].
    intros Hnum. assert (e_k e3 = VKNUM) as Ek. { unfold isnumeral in Hnum. destruct b; cbn in Hnum; apply andb_true_iff in Hnum as [[?%bool_decide_eq_true _]%andb_true_iff _]; done. }
    destruct (Hsame Ek) as [-> ->]. pose proof Hcp4 as [_ Ht4 Hf4 _ _]. destruct (isnumeral_lists _ _ _ _ Hnum Ht4 Hf4) as (_ & Et & Ef & HT & HF).
    assert (T = [] /\ F = []) as [-> ->] by (destruct b; [apply app_eq_nil in HT as [-> _]|apply app_eq_nil in HF as [-> _]]; done). cbn in Ht3, Hf3.
    split; [unfold isnumeral; by rewrite Ek, Ht3, Hf3|by destruct b]. }
  destruct b; cbn [luaK_posfix]; (eapply lsafe_bind; [exact Hd|]); intros [e3 fs3] H3; exact (Hrest e3 fs3 H3).
Qed.
End Logic.
