(* ===== verification/LCompileExpr.v ===== *)
(** * Compiled expressions compute their values

    The calls the parser makes for an operand, an index or an operator turn descriptors
    of code that computes what [eval] says into such descriptors. Constants are excluded that the pool confuses (a minus zero, which folding may
    make) or refuses (NaN); so is concatenation. *)
From stdpp Require Import base list option relations.
From Stdlib Require Import ZArith Lia ZifyBool.
From S2P Require Import Prelude LObject LNum LOpcodes LProto LVm LVmProps LCode LCodeJumps LParser LExpr LFinal LCompile LCompileExp LCompileReg LCompileVal LCompileOps LCompileCond LCompileBool LCompileLogic.
#[local] Open Scope Z_scope.

Section Expr.
Context {W : Type} `{CallsKeepFrame W}.
Abbreviation meaning := (lclosure -> registers -> W -> LuaM (tvalue * W)).

Definition number_okb (n : Z) : bool := negb (luai_numisnan n) && negb (minus_zero (TNumber n)).

(** The number an expression folds to, if it does. *)
Fixpoint fold (ex : expr) : option Z :=
  match ex with
  | ENumber r => Some r
  | EParen e => fold e
  | EUnop OPR_MINUS e => luai_numunm <$> fold e
  | EBinop OPR_AND _ e | EBinop OPR_OR _ e => fold e
  | EBinop op e1 e2 => a ← arith_of op; x ← fold e1; y ← fold e2; Some (arith_num a x y)
  | _ => None
  end.
Definition fold_ok (o : option Z) : bool := match o with Some r => negb (minus_zero (TNumber r)) | None => true end.

Fixpoint expr_ok (n : Z) (ex : expr) : bool :=
  match ex with
  | ENil | ETrue | EFalse | EString _ | EGlobal _ => true
  | ENumber r => number_okb r
  | ELocal r => (0 <=? r) && (r <? n)
  | EUpvalue i => (0 <=? i) && (i <=? MAXARG_B)
  | EField t _ => expr_ok n t
  | EIndex t key => expr_ok n t && expr_ok n key
  | EParen e => expr_ok n e
  | EUnop op e => expr_ok n e && match op with OPR_NOUNOPR => false | OPR_MINUS => fold_ok (fold ex) | _ => true end
  | EBinop op e1 e2 => expr_ok n e1 && expr_ok n e2 &&
      match op with OPR_CONCAT | OPR_NOBINOPR => false | _ => match arith_of op with Some _ => fold_ok (fold ex) | None => true end end
  end.

(** The value depends on the registers of the local variables only. *)
Lemma eval_below env n ex : expr_ok n ex = true -> forall s s' (w : W), same_below n s s' -> eval env ex s' w = eval env ex s w.
Proof.
  induction ex; cbn [expr_ok eval]; intros Hok s s' w Hb; try done.
  - by rewrite (proj2 Hb) by lia.
  - by rewrite (IHex Hok s s' w Hb).
  - apply andb_true_iff in Hok as [H1 H2]. rewrite (IHex1 H1 s s' w Hb). destruct (eval env ex1 s w) as [[[v w1]|]|]; cbn [lbind]; [|done..]. by rewrite (IHex2 H2 s s' w1 Hb).
  - by apply IHex.
  - apply andb_true_iff in Hok as [H1 _]. by rewrite (IHex H1 s s' w Hb).
  - apply andb_true_iff in Hok as [[H1 H2]%andb_true_iff _].
    destruct op; cbn [eval]; rewrite (IHex1 H1 s s' w Hb); (destruct (eval env ex1 s w) as [[[v w1]|]|]; cbn [lbind]; [|done..]); by rewrite (IHex2 H2 s s' w1 Hb).
Qed.

Definition value_of (ex : expr) : meaning := fun cl s w => eval (cl_env cl) ex s w.
Lemma value_stable n n' ex : expr_ok n ex = true -> n <= n' -> stable n' (value_of ex).
Proof. intros Hok Hn cl s s' w Hb. apply (eval_below _ n); [done|]. by eapply same_below_mono. Qed.

(** What the induction gives for an expression. *)
Definition goal (fs : FuncState) (P J : list Z) (ex : expr) (e : expdesc) (fs' : FuncState) : Prop :=
  presentable fs' e /\ (isnumeral e = true -> fold ex = Some (nval e)) /\ exists T F J', compiled fs P J fs' e T F J' (value_of ex).
Lemma number_okb_iff n : number_okb n = true <-> number_ok n.
Proof. unfold number_okb, number_ok. rewrite andb_true_iff, !negb_true_iff. done. Qed.

(** ** The simple expressions *)
Lemma leaf_goal fs P J ex e : wf fs P J -> e_t e = NO_JUMP -> e_f e = NO_JUMP -> width e = 0 -> temps fs e = 0 -> (forall cl s w, main_of fs e cl s w = value_of ex cl s w) ->
  exp_ok fs fs P [] [] J e -> presentable fs e -> (isnumeral e = true -> fold ex = Some (nval e)) -> goal fs P J ex e fs.
Proof.
  intros Hwf Ht Hf Hw Htmp Hm Hok Hp Hn. split; [done|]. split; [done|]. exists [], [], J. split; [|exact Ht|exact Hf|exact Hok|lia].
  rewrite Hw, Z.sub_0_r. eapply coded_ext; [exact (coded_refl fs P J (value_of ex) Hwf)|exact Hm|done].
Qed.

(** A string constant, as the key of whatever comes next. *)
Lemma stringK_coded fs P J ts (K : lclosure -> tvalue -> registers -> W -> LuaM (tvalue * W)) : wf fs P J ->
  lsafe (luaK_stringK ts fs) (fun '(i, fs') => 0 <= i < nk fs' /\ k fs' !! Z.to_nat i = Some (TGC GString ts) /\ freereg fs' = freereg fs /\
    coded fs P J fs' (pc fs') [] [] J (fun cl s w => let* v := llift (kget cl i) in K cl v s w) (fun cl s w => K cl (TGC GString ts) s w)).
Proof.
  intros Hwf. unfold luaK_stringK. eapply lsafe_mono; [by eapply addk_spec|]. intros [i fs'] (Hi & Hk & Hfl & Hwf' & Hf & _).
  split; [done|]. split; [done|]. split; [done|]. destruct (same_code_at _ _ (flow_code _ _ Hfl)) as [Hpc _]. rewrite Hpc.
  eapply coded_step; [by eapply (coded_refl fs P J (fun cl s w => K cl (TGC GString ts) s w))|exact Hwf'|by apply keeps_code, Hfl|by apply grows_flow|].
  intros cl M Ha. split; [by eapply flow_agree|]. intros s w Hl Hcl. right. exists s, w. split; [apply reaches_refl|]. split; [done|]. split; [by eapply flow_clean|].
  pose proof (agree_k _ _ _ _ _ _ Ha) as Hpre. unfold kget. assert ((i <? 0) = false) as -> by lia. by rewrite (prefix_lookup_Some _ _ _ _ Hk Hpre).
Qed.

Lemma codestring_compiled fs P J ts : wf fs P J ->
  lsafe (let* (i, fs) := luaK_stringK ts fs in lret (init_exp VK i, fs)) (fun '(e, fs') => e_k e = VK /\ presentable fs' e /\ compiled fs P J fs' e [] [] J (fun _ _ w => lret (TGC GString ts, w))).
Proof.
  intros Hwf. eapply lsafe_bind; [eapply (stringK_coded fs P J ts (fun _ v _ w => lret (v, w))); done|].
  intros [i fs'] (Hi & Hk & Hf & Hc). cbn [lsafe lret]. split; [done|]. split; [unfold presentable; cbn; by exists (TGC GString ts)|].
  split; [|done|done|done|unfold temps; cbn; lia]. unfold width, main_of. cbn. rewrite Z.sub_0_r. exact Hc.
Qed.

Lemma global_goal fs P J name : wf fs P J ->
  lsafe (let* (i, fs) := luaK_stringK name fs in lret (exp_is VGLOBAL i (init_exp VGLOBAL NO_REG), fs)) (fun '(e, fs') => goal fs P J (EGlobal name) e fs').
Proof.
  intros Hwf. eapply lsafe_bind; [eapply (stringK_coded fs P J name (fun cl v _ w => index_val w (TGC GTable (cl_env cl)) v)); done|].
  intros [i fs'] (Hi & Hk & Hf & Hc). cbn [lsafe lret]. split; [done|]. split; [done|]. exists [], [], J. split; [|done|done|done|unfold temps; cbn; lia].
  unfold width, main_of. cbn. rewrite Z.sub_0_r. exact Hc.
Qed.

(** ** The first operand of an operator *)
Lemma compiled_wf fs0 P J0 fs e T F J m : compiled fs0 P J0 fs e T F J m -> wf fs (T ++ F ++ P) J /\ nactvar fs = nactvar fs0 /\ freereg fs0 <= freereg fs.
Proof.
  intros [Hc _ _ _ Hf]. assert (grows fs0 fs) as Hg by apply Hc. pose proof (temps_nonneg fs e). split; [apply Hc|]. split; [apply Hg|lia].
Qed.

Lemma compiled_ext fs0 P J0 fs e T F J m m' : compiled fs0 P J0 fs e T F J m -> (forall cl s w, m' cl s w = m cl s w) -> compiled fs0 P J0 fs e T F J m'.
Proof. intros [Hc ? ? ? ?] E. split; [|done..]. by eapply coded_ext; [exact Hc| |]. Qed.

Lemma eval_field cl t name s (w : W) : value_of (EField t name) cl s w = (let* (v, w) := value_of t cl s w in let* (kv, w) := lret (TGC GString name, w) in index_val w v kv).
Proof. unfold value_of. cbn [eval]. destruct (eval (cl_env cl) t s w) as [[[? ?]|]|]; cbn [lbind lret]; reflexivity. Qed.

(** A table in a register, and its key. *)
Lemma key_goal fs P J t v fs1 J1 key fs2 T F J2 ex m : wf fs P J -> compiled fs P J fs1 v [] [] J1 (value_of t) -> in_reg fs v ->
  compiled fs1 P J1 fs2 key T F J2 m -> stable (freereg fs) m ->
  (forall cl s w, value_of ex cl s w = (let* (v, w) := value_of t cl s w in let* (kv, w) := m cl s w in index_val w v kv)) ->
  lsafe (luaK_indexed v key fs2) (fun '(e, fs') => goal fs P J ex e fs').
Proof.
  intros Hwf H1 Hin H2 Hst Heq. pose proof (wf_nactvar _ _ _ Hwf) as Hna.
  eapply lsafe_mono; [eapply (luaK_indexed_spec fs P J fs1 v J1); [exact H1|exact Hin|exact H2|exact Hst|lia]|]. intros [e fs4] (Ek4 & J4 & H4).
  split; [unfold presentable; by rewrite Ek4|]. split; [unfold isnumeral; by rewrite Ek4|]. exists [], [], J4.
  eapply compiled_ext; [exact H4|exact Heq].
Qed.
Lemma field_goal fs P J t name v fs1 J1 key fs2 : wf fs P J -> compiled fs P J fs1 v [] [] J1 (value_of t) -> in_reg fs v ->
  compiled fs1 P J1 fs2 key [] [] J1 (fun _ _ w => lret (TGC GString name, w)) ->
  lsafe (luaK_indexed v key fs2) (fun '(e, fs') => goal fs P J (EField t name) e fs').
Proof. intros Hwf H1 Hin H2. eapply key_goal; [done|exact H1|done|exact H2|done|intros cl s w; apply eval_field]. Qed.
Lemma index_goal fs P J t ex v fs1 J1 key fs2 T F J2 : wf fs P J -> compiled fs P J fs1 v [] [] J1 (value_of t) -> in_reg fs v ->
  compiled fs1 P J1 fs2 key T F J2 (value_of ex) -> expr_ok (nactvar fs) ex = true ->
  lsafe (luaK_indexed v key fs2) (fun '(e, fs') => goal fs P J (EIndex t ex) e fs').
Proof.
  intros Hwf H1 Hin H2 Hok. pose proof (wf_nactvar _ _ _ Hwf) as Hna.
  eapply key_goal; [done|exact H1|done|exact H2|by eapply (value_stable (nactvar fs)); [|lia]|]. intros cl s w. reflexivity.
Qed.

(** ** Operators *)
Lemma paren_goal fs P J ex v fs1 : wf fs P J -> goal fs P J ex v fs1 -> lsafe (luaK_dischargevars v fs1) (fun '(e, fs') => goal fs P J (EParen ex) e fs').
Proof.
  intros Hwf (Hp & Hn & T & F & J1 & H1). pose proof (wf_nactvar _ _ _ Hwf) as Hna.
  eapply lsafe_mono; [eapply (lsafe_and _ (fun '(e', fs') => presentable fs' e' /\ (e_k e' = VKNUM -> e' = v /\ fs' = fs1))); [eapply dischargevars_compiled; [exact H1|lia]|]|].
  - intros [e2 fs2] E. split; [by eapply dischargevars_presentable|]. by eapply dischargevars_numeral.
  - intros [e2 fs2] (((J2 & H2) & _) & Hp2 & Hn2). split; [done|]. split; [|by exists T, F, J2].
    intros Hnum. destruct Hn2 as [-> ->]; [|by apply Hn]. unfold isnumeral in Hnum. by apply andb_true_iff in Hnum as [[?%bool_decide_eq_true _]%andb_true_iff _].
Qed.

Lemma isnumeral_kind e : isnumeral e = true -> e_k e = VKNUM.
Proof. unfold isnumeral. by intros [[?%bool_decide_eq_true _]%andb_true_iff _]%andb_true_iff. Qed.
Lemma not_numeral e : e_k e <> VKNUM -> isnumeral e = false.
Proof. intros Hk. destruct (isnumeral e) eqn:E; [|done]. by apply isnumeral_kind in E. Qed.

Lemma unop_goal op fs P J ex v fs1 : wf fs P J -> goal fs P J ex v fs1 -> expr_ok (nactvar fs) (EUnop op ex) = true ->
  lsafe (luaK_prefix luai_numpow op v fs1) (fun '(e, fs') => goal fs P J (EUnop op ex) e fs').
Proof.
  intros Hwf (Hp & Hn & T & F & J1 & H1) Hok. pose proof (wf_nactvar _ _ _ Hwf) as Hna. cbn [expr_ok] in Hok. apply andb_true_iff in Hok as [Hok Hop].
  destruct op; [| | |done].
  - assert (forall r, constfolding luai_numpow OP_UNM v zero_exp = Some r -> fold (EUnop OPR_MINUS ex) = Some r) as Hfold.
    { intros r Hr. destruct (constfolding_value AUNM v zero_exp r Hr) as (Hnum & _ & _ & ->). cbn [fold]. by rewrite (Hn Hnum). }
    eapply lsafe_mono; [eapply luaK_prefix_minus; [exact H1|lia|]|].
    + intros r Hr. unfold fold_ok in Hop. rewrite (Hfold r Hr) in Hop. by apply negb_true_iff.
    + intros [e2 fs2] (Hk & J2 & H2). split; [unfold presentable; destruct Hk as [(-> & _)| ->]; done|]. split; [|by exists [], [], J2].
      intros Hnum. apply isnumeral_kind in Hnum. destruct Hk as [(_ & _ & Hr)|Hk]; [by apply Hfold|congruence].
  - eapply lsafe_mono; [eapply codenot_spec; [exact H1|done|lia]|]. intros [e2 fs2] (Hp2 & Hnum & J2 & H2). split; [done|]. split; [by rewrite Hnum|]. by exists F, T, J2.
  - eapply lsafe_mono; [eapply luaK_prefix_len; [exact H1|lia]|]. intros [e2 fs2] (Hk & J2 & H2). split; [unfold presentable; by rewrite Hk|].
    split; [by rewrite not_numeral by congruence|]. by exists [], [], J2.
Qed.

(** The operand an arithmetic operator waits with. *)
Lemma infix_arith fs0 P J0 fs e T F J m : compiled fs0 P J0 fs e T F J m -> nactvar fs0 <= freereg fs0 ->
  lsafe (if isnumeral e then lret (e, fs) else let* (_, v, fs) := luaK_exp2RK e fs in lret (v, fs)) (fun '(e', fs') => (isnumeral e' = true -> isnumeral e = true /\ e' = e) /\
    resting fs' e' /\ (e_k e' = VKNUM \/ exists x, operand fs' x e') /\ exists J', compiled fs0 P J0 fs' e' [] [] J' m).
Proof.
  intros Hcp Hn. destruct (isnumeral e) eqn:Enum.
  - cbn [lsafe lret]. split; [auto|]. pose proof Hcp as [_ Ht Hf Hok _]. destruct (isnumeral_lists _ _ _ _ Enum Ht Hf) as (Ek & Et & Ef & -> & ->).
    unfold exp_ok in Hok. split; [unfold resting; rewrite Ek in *; done|]. split; [by left|]. by exists J.
  - eapply lsafe_bind; [by eapply luaK_exp2RK_spec|]. intros [[x e1] fs1] (Hx & J1 & H1). cbn [lsafe lret]. split; [|split; [apply Hx|]; split; [right; by exists x|by exists J1]].
    intros Hnum%isnumeral_kind. destruct Hx as [_ [[? _]|[? _]]]; congruence.
Qed.

Lemma arith_ops op a : arith_of op = Some a -> binary a = true /\
  (forall e fs, luaK_infix op e fs = if isnumeral e then lret (e, fs) else let* (_, v, fs) := luaK_exp2RK e fs in lret (v, fs)) /\
  (forall e1 e2 fs, luaK_posfix luai_numpow op e1 e2 fs = codearith luai_numpow (arith_code a) e1 e2 fs) /\
  (forall e1 e2, fold (EBinop op e1 e2) = (x ← fold e1; y ← fold e2; Some (arith_num a x y))) /\
  (forall env e1 e2 s (w : W), eval env (EBinop op e1 e2) s w = (let* (v1, w) := eval env e1 s w in let* (v2, w) := eval env e2 s w in arith_val w a v1 v2)).
Proof. destruct op; intros [= <-]; (split; [done|]); (split; [done|]); (split; [done|]); (split; [done|]); intros; reflexivity. Qed.

(** *** Comparisons *)
Definition comp_of (op : BinOpr) : option (OpCode * bool) :=
  match op with
  | OPR_EQ => Some (OP_EQ, true) | OPR_NE => Some (OP_EQ, false) | OPR_LT => Some (OP_LT, true) | OPR_LE => Some (OP_LE, true)
  | OPR_GT => Some (OP_LT, false) | OPR_GE => Some (OP_LE, false) | _ => None
  end.
Lemma comp_ops op o c : comp_of op = Some (o, c) -> cmp_op o = true /\
  (forall e fs, luaK_infix op e fs = let* (_, v, fs) := luaK_exp2RK e fs in lret (v, fs)) /\
  (forall e1 e2 fs, luaK_posfix luai_numpow op e1 e2 fs = codecomp o (Z.b2z c) e1 e2 fs) /\
  (forall (w : W) v1 v2, binop_val op w v1 v2 = cond_val o c w v1 v2).
Proof. destruct op; intros [= <- <-]; (split; [done|]); (split; [done|]); (split; [done|]); intros; reflexivity. Qed.

(** ** Between the operands: the first one, read and prepared by [luaK_infix] *)
Inductive binclass := Arith (a : arith) | Comp (o : OpCode) (c : bool) | Logic (b : bool).
Definition class_of (op : BinOpr) : option binclass :=
  match op with
  | OPR_AND => Some (Logic false)
  | OPR_OR => Some (Logic true)
  | _ => match arith_of op, comp_of op with Some a, _ => Some (Arith a) | None, Some (o, c) => Some (Comp o c) | None, None => None end
  end.

Definition waiting (op : BinOpr) (fs : FuncState) (P J : list Z) (ex : expr) (v : expdesc) (fs' : FuncState) (P' J' : list Z) : Prop :=
  wf fs' P' J' /\ nactvar fs' = nactvar fs /\
  match class_of op with
  | Some (Logic b) =>
      freereg fs' = freereg fs /\ exists L, P' = L ++ P /\ chain fs' (if b then e_t v else e_f v) L /\
      forall m2, stable (freereg fs) m2 -> coded fs P J fs' (pc fs') (if b then L else []) (if b then [] else L) J' m2 (branch b (value_of ex) m2)
  | Some (Arith a) =>
      P' = P /\ compiled fs P J fs' v [] [] J' (value_of ex) /\ resting fs' v /\ (e_k v = VKNUM \/ exists x, operand fs' x v) /\ (isnumeral v = true -> fold ex = Some (nval v))
  | Some (Comp o c) => P' = P /\ compiled fs P J fs' v [] [] J' (value_of ex) /\ exists x, operand fs' x v
  | None => False
  end.

Lemma infix_goal op fs P J ex v fs1 : is_Some (class_of op) -> wf fs P J -> goal fs P J ex v fs1 ->
  lsafe (luaK_infix op v fs1) (fun '(v', fs') => exists P' J', waiting op fs P J ex v' fs' P' J').
Proof.
  intros [c Hc] Hwf (Hp & Hn & T & F & J1 & H1). pose proof (wf_nactvar _ _ _ Hwf) as Hna. unfold waiting. rewrite Hc. destruct c as [a|o c|b].
  - assert (arith_of op = Some a) as Ha. { destruct op; try discriminate Hc; cbn in *; congruence. }
    destruct (arith_ops op a Ha) as (_ & Hin & _). rewrite Hin. eapply lsafe_mono; [eapply infix_arith; [exact H1|lia]|].
    intros [e1 fs2] (Hnum & Hr & Hk & J2 & H2). destruct (compiled_wf _ _ _ _ _ _ _ _ _ H2) as (Hwf2 & Hn2 & _). exists P, J2. do 5 (split; [done|]).
    split; [done|]. intros E. destruct (Hnum E) as [Ev ->]. by apply Hn.
  - assert (comp_of op = Some (o, c)) as Ho. { destruct op; try discriminate Hc; cbn in *; congruence. }
    destruct (comp_ops op o c Ho) as (_ & Hin & _). rewrite Hin. eapply lsafe_bind; [eapply luaK_exp2RK_spec; [exact H1|lia]|].
    intros [[x e1] fs2] (Hx & J2 & H2). cbn [lsafe lret]. destruct (compiled_wf _ _ _ _ _ _ _ _ _ H2) as (Hwf2 & Hn2 & _). exists P, J2.
    do 4 (split; [done|]). by exists x.
  - assert (op = if b then OPR_OR else OPR_AND) as ->. { destruct op; try discriminate Hc; cbn in Hc; by injection Hc as <-. }
    assert (lsafe (luaK_infix (if b then OPR_OR else OPR_AND) v fs1) (fun '(e', fs') => going b fs P J (value_of ex) e' fs')) as Hgo.
    { destruct b; cbn [luaK_infix]; [eapply luaK_goiffalse_spec; [exact H1|lia]|eapply luaK_goiftrue_spec; [exact H1|done|lia]]. }
    eapply lsafe_mono; [exact Hgo|]. intros [e1 fs2] (Hf2 & _ & L & J2 & Hl & Hc2). exists (L ++ P), J2.
    assert (stable (freereg fs) (fun _ _ w => lret (TNil, w) : LuaM (tvalue * W))) as Hst by done. pose proof (Hc2 _ Hst) as Hcd.
    split; [by pose proof (coded_wf _ _ _ _ _ _ _ _ _ _ Hcd) as Hw; destruct b|]. split; [apply Hcd|]. split; [done|]. by exists L.
Qed.

Lemma posfix_goal op fs P J ex1 v fs1 P1 J1 ex2 v2 fs2 : wf fs P J -> waiting op fs P J ex1 v fs1 P1 J1 -> goal fs1 P1 J1 ex2 v2 fs2 ->
  expr_ok (nactvar fs) (EBinop op ex1 ex2) = true ->
  lsafe (luaK_posfix luai_numpow op v v2 fs2) (fun '(e, fs') => goal fs P J (EBinop op ex1 ex2) e fs').
Proof.
  intros Hwf (Hwf1 & Hn1 & Hw) (Hp2 & Hnum2 & T & F & J2 & H2) Hok. pose proof (wf_nactvar _ _ _ Hwf) as Hna.
  cbn [expr_ok] in Hok. apply andb_true_iff in Hok as [[Hok1 Hok2]%andb_true_iff Hop].
  assert (stable (freereg fs) (value_of ex2)) as Hst by (by eapply (value_stable (nactvar fs)); [|lia]).
  destruct (class_of op) as [[a|o c|b]|] eqn:Hc; [..|done].
  - assert (arith_of op = Some a) as Ha. { destruct op; try discriminate Hc; cbn in *; congruence. }
    assert (fold_ok (fold (EBinop op ex1 ex2)) = true) as Hfk by (destruct op; try discriminate Hc; exact Hop).
    destruct (arith_ops op a Ha) as (Hbin & _ & Hpost & Hfold & Heval). destruct Hw as (-> & H1 & Hr & Hk & Hnum1). rewrite Hpost.
    assert (forall r, constfolding luai_numpow (arith_code a) v v2 = Some r -> fold (EBinop op ex1 ex2) = Some r) as Hf.
    { intros r Hr'. destruct (constfolding_value a v v2 r Hr') as (E1 & E2 & _ & ->). by rewrite Hfold, (Hnum1 E1), (Hnum2 E2). }
    eapply lsafe_mono; [eapply codearith_spec; [exact H1|done|done|exact H2|done|lia|done|]|].
    + intros r Hr'. unfold fold_ok in Hfk. rewrite (Hf r Hr') in Hfk. by apply negb_true_iff.
    + intros [e3 fs3] (Hk3 & J3 & H3). split; [unfold presentable; destruct Hk3 as [(-> & _)| ->]; done|]. split.
      * intros Hnum%isnumeral_kind. destruct Hk3 as [(_ & Hr')|Hk3]; [by apply Hf|congruence].
      * exists [], [], J3. eapply compiled_ext; [exact H3|]. intros cl s w. apply Heval.
  - assert (comp_of op = Some (o, c)) as Ho. { destruct op; try discriminate Hc; cbn in *; congruence. }
    destruct (comp_ops op o c Ho) as (Hcmp & _ & Hpost & Heval). destruct Hw as (-> & H1 & x & Hx). rewrite Hpost.
    eapply lsafe_mono; [eapply codecomp_spec; [exact H1|exact Hx|exact H2|done|lia|done]|].
    intros [e3 fs3] (Hk & J3 & H3). split; [unfold presentable; by rewrite Hk|]. split; [by rewrite not_numeral by congruence|].
    exists [], [], J3. eapply compiled_ext; [exact H3|]. intros cl s w. unfold value_of.
    destruct op; try discriminate Ho; cbn [eval]; (destruct (eval (cl_env cl) ex1 s w) as [[[v1 w1]|]|]; cbn [lbind]; [|done..]);
      (destruct (eval (cl_env cl) ex2 s w1) as [[[u2 w2]|]|]; cbn [lbind]; [|done..]); apply Heval.
  - assert (op = if b then OPR_OR else OPR_AND) as ->. { destruct op; try discriminate Hc; cbn in Hc; by injection Hc as <-. }
    destruct Hw as (Hf1 & L & -> & Hl & Hcd). pose proof (wf_nactvar _ _ _ Hwf1).
    eapply lsafe_mono; [eapply (posfix_side b fs P J (value_of ex1) v fs1 L J1 fs2 v2); [done|exact Hl|exact Hcd|lia|exact H2|done|done]|].
    intros [e3 fs3] (Hp3 & Hnum3 & T3 & F3 & J3 & H3). split; [done|]. split.
    + intros Hnum. destruct (Hnum3 Hnum) as [Hn ->]. destruct b; by apply Hnum2.
    + exists T3, F3, J3. eapply compiled_ext; [exact H3|]. intros cl s w. unfold value_of, branch.
      destruct b; cbn [eval]; (destruct (eval (cl_env cl) ex1 s w) as [[[v1 w1]|]|]; cbn [lbind]; [|done..]); by destruct (l_isfalse v1).
Qed.
End Expr.
