(* ===== verification/LSyntax.v ===== *)
(** * The tokens of an expression

    The syntax trees of expressions with their names, the tokens of a tree, the trees
    that the priorities of the operators give for their tokens, and the streams of
    tokens that the lexical analyser delivers. *)
From stdpp Require Import base list option strings.
From Stdlib Require Import ZArith Lia ZifyBool.
From S2P Require Import Prelude LObject LNum LZio LLex LLexProps LCode LParser LGrammar LExpr.
#[local] Open Scope Z_scope.

Inductive sexpr :=
  | SNil | STrue | SFalse
  | SNumber (r : Z)
  | SString (s : bytes)
  | SName (x : bytes)
  | SField (t : sexpr) (x : bytes)
  | SIndex (t key : sexpr)
  | SParen (e : sexpr)
  | SUnop (op : UnOpr) (e : sexpr)
  | SBinop (op : BinOpr) (a b : sexpr).

(** A token, with its value if it has one. *)
Inductive stok := Punct (c : Z) | TNum (r : Z) | TStr (s : bytes) | TNam (s : bytes).
Definition tok_kind (x : stok) : Z := match x with Punct c => c | TNum _ => TK_NUMBER | TStr _ => TK_STRING | TNam _ => TK_NAME end.
Definition is_tok (k : Token) (x : stok) : Prop :=
  token k = tok_kind x /\ match x with Punct _ => True | TNum r => seminfo k = Sr r | TStr s | TNam s => seminfo k = Sts s end.

Definition unop_tok (op : UnOpr) : Z := match op with OPR_MINUS => ch "-" | OPR_NOT => TK_NOT | OPR_LEN => ch "#" | OPR_NOUNOPR => 0 end.
Definition binop_tok (op : BinOpr) : Z :=
  match op with
  | OPR_ADD => ch "+" | OPR_SUB => ch "-" | OPR_MUL => ch "*" | OPR_DIV => ch "/" | OPR_MOD => ch "%" | OPR_POW => ch "^"
  | OPR_CONCAT => TK_CONCAT | OPR_NE => TK_NE | OPR_EQ => TK_EQ | OPR_LT => ch "<" | OPR_LE => TK_LE | OPR_GT => ch ">"
  | OPR_GE => TK_GE | OPR_AND => TK_AND | OPR_OR => TK_OR | OPR_NOBINOPR => 0
  end.

Fixpoint toks (e : sexpr) : list stok :=
  match e with
  | SNil => [Punct TK_NIL] | STrue => [Punct TK_TRUE] | SFalse => [Punct TK_FALSE]
  | SNumber r => [TNum r]
  | SString s => [TStr s]
  | SName x => [TNam x]
  | SField t x => toks t ++ [Punct (ch "."); TNam x]
  | SIndex t key => toks t ++ Punct (ch "[") :: toks key ++ [Punct (ch "]")]
  | SParen e => Punct (ch "(") :: toks e ++ [Punct (ch ")")]
  | SUnop op e => Punct (unop_tok op) :: toks e
  | SBinop op a b => toks a ++ Punct (binop_tok op) :: toks b
  end.

(** ** The trees the priorities give *)
Definition is_primary (e : sexpr) : bool := match e with SName _ | SField _ _ | SIndex _ _ | SParen _ => true | _ => false end.
(** The least limit of the expressions that end where [e] ends. *)
Fixpoint edge (e : sexpr) : Z :=
  match e with
  | SUnop _ e => Z.min UNARY_PRIORITY (edge e)
  | SBinop op _ b => Z.min (match priority op with Some (_, r) => r | None => 0 end) (edge b)
  | _ => 100
  end.
(** [subexpr] with this limit reads the tokens of [e] as [e]. *)
Fixpoint prec_ok (limit : Z) (e : sexpr) : bool :=
  match e with
  | SField t _ => is_primary t && prec_ok 0 t
  | SIndex t key => is_primary t && prec_ok 0 t && prec_ok 0 key
  | SParen e => prec_ok 0 e
  | SUnop op e => match op with OPR_NOUNOPR => false | _ => prec_ok UNARY_PRIORITY e end
  | SBinop op a b =>
      match priority op with
      | Some (l, r) => (limit <? l) && prec_ok limit a && (l <=? edge a) && prec_ok r b
      | None => false
      end
  | _ => true
  end.

Definition suffix_starts : list Z := [ch "."; ch "["; ch ":"; ch "("; TK_STRING; ch "{"].
(** The token ends an expression read with this limit. *)
Definition stops (limit : Z) (x : stok) : Prop :=
  match priority (getbinopr (tok_kind x)) with Some (l, _) => l <= limit | None => True end /\ tok_kind x ∉ suffix_starts.

Lemma stops_mono l l' x : l <= l' -> stops l x -> stops l' x.
Proof. intros Hl [H1 H2]. split; [|done]. destruct (priority _) as [[? ?]|]; [lia|done]. Qed.

Lemma getbinopr_tok op : op <> OPR_NOBINOPR -> getbinopr (binop_tok op) = op.
Proof. by destruct op. Qed.
Lemma getunopr_tok op : op <> OPR_NOUNOPR -> getunopr (unop_tok op) = op.
Proof. by destruct op. Qed.
Lemma binop_stops op l r : priority op = Some (l, r) -> stops l (Punct (binop_tok op)).
Proof.
  intros Hp. assert (op <> OPR_NOBINOPR) as Hn by (by intros ->). split; cbn [tok_kind].
  - rewrite getbinopr_tok by done. rewrite Hp. lia.
  - by destruct op; apply (bool_decide_unpack _); vm_compute.
Qed.
Lemma punct_stops c : getbinopr c = OPR_NOBINOPR -> c ∉ suffix_starts -> forall l, stops l (Punct c).
Proof. intros Hb Hs l. split; [|done]. cbn [tok_kind]. by rewrite Hb. Qed.

(** What names stand for: the register of a local variable, or -1. *)
Fixpoint resolved (env : bytes -> Z) (e : sexpr) : expr :=
  match e with
  | SNil => ENil | STrue => ETrue | SFalse => EFalse
  | SNumber r => ENumber r
  | SString s => EString (str_addr s)
  | SName x => if 0 <=? env x then ELocal (env x) else EGlobal (str_addr x)
  | SField t x => EField (resolved env t) (str_addr x)
  | SIndex t key => EIndex (resolved env t) (resolved env key)
  | SParen e => EParen (resolved env e)
  | SUnop op e => EUnop op (resolved env e)
  | SBinop op a b => EBinop op (resolved env a) (resolved env b)
  end.

Fixpoint names (e : sexpr) : list bytes :=
  match e with
  | SName x => [x]
  | SField t _ => names t
  | SIndex t key => names t ++ names key
  | SParen e | SUnop _ e => names e
  | SBinop _ a b => names a ++ names b
  | _ => []
  end.

Lemma toks_length e : (1 <= length (toks e))%nat.
Proof. induction e; cbn; rewrite ?length_app; cbn; lia. Qed.

(** ** Streams of tokens *)
Section Reads.
Context `{CLibrary}.

(** The tokens from the current one on. *)
Fixpoint reads (l : LexState) (ts : list stok) : Prop :=
  match ts with
  | [] => True
  | x :: ts =>
      is_tok (t l) x /\
      match ts with
      | [] => True
      | _ => exists l', luaX_next strtod strtoul16 decimal_point l = lret l' /\ reads l' ts
      end
  end.
(** The end of the chunk is at the end of the list. *)
Fixpoint ends_once (ts : list stok) : bool :=
  match ts with
  | [] => true
  | x :: ts => match ts with [] => true | _ => negb (tok_kind x =? TK_EOS) && ends_once ts end
  end.

Record ready (st : Parser) (ts : list stok) : Prop := {
  ready_lex : lex_ok (ls st);
  ready_look : token (lookahead (ls st)) = TK_EOS;
  ready_reads : reads (ls st) ts;
  ready_ends : ends_once ts = true;
}.

Lemma ready_tok st x ts : ready st (x :: ts) -> is_tok (t (ls st)) x.
Proof. intros [_ _ [Ht _] _]. done. Qed.

Lemma ready_next st x y ts : ready st (x :: y :: ts) -> exists st', next st = lret (tt, st') /\ ready st' (y :: ts) /\
  fs st' = fs st /\ prev st' = prev st /\ nCcalls st' = nCcalls st.
Proof.
  intros [Hok Hla [Ht (l' & Hn & Hr)] He]. cbn [ends_once] in He. apply andb_true_iff in He as [He1 He2].
  pose proof (luaX_next_spec strtod strtoul16 decimal_point (ls st) Hok ltac:(rewrite Hla; done)) as Hs. rewrite Hn in Hs. cbn [lsafe lret] in Hs.
  exists (set_ls l' st). unfold next. rewrite Hn. cbn [lbind lret]. split; [done|]. split; [|done]. split; [apply Hs|apply Hs|exact Hr|exact He2].
Qed.

(** Every token but the last takes a character. *)
Lemma ready_turns st ts : ready st ts -> (length ts <= S (LLex.turns (ls st)))%nat.
Proof.
  enough (forall l, lex_ok l -> token (lookahead l) = TK_EOS -> reads l ts -> ends_once ts = true -> (length ts <= S (S (length (text l))))%nat) as Hlen.
  { intros [Hok Hla Hr He]. specialize (Hlen _ Hok Hla Hr He). pose proof (text_turns (ls st)). lia. }
  induction ts as [|x ts IH]; intros l Hok Hla Hr He; [cbn; lia|]. destruct ts as [|y ts]; [cbn; lia|].
  destruct Hr as [_ (l' & Hn & Hr)]. cbn [ends_once] in He. apply andb_true_iff in He as [_ He].
  pose proof (luaX_next_spec strtod strtoul16 decimal_point l Hok ltac:(rewrite Hla; done)) as Hs. rewrite Hn in Hs. cbn [lsafe lret] in Hs.
  destruct Hs as (Hok' & Hla' & _ & _ & _ & Hshrink). specialize (Hshrink Hla).
  destruct (Z.eqb_spec (token (t l')) TK_EOS) as [Et|Et].
  - destruct ts as [|z ts]; [cbn; lia|]. cbn [ends_once] in He. apply andb_true_iff in He as [He _].
    destruct Hr as [[Hk _] _]. rewrite Hk in Et. by rewrite Et in He.
  - specialize (IH l' Hok' Hla' Hr He). cbn [length] in *. lia.
Qed.
End Reads.
