(* ===== verification/LParseExpr.v ===== *)
(** * Parsed expressions compute their values

    [subexpr] on the tokens of an expression gives a descriptor of code that computes
    what [eval] says of its tree: the priorities of the operators select the tree, the
    names are resolved, and every call of the code generator is the one for the tree. *)
From stdpp Require Import base list option relations.
From Stdlib Require Import ZArith Lia ZifyBool.
From S2P Require Import Prelude LObject LNum LOpcodes LProto LZio LLex LLexProps LVm LVmProps LCode LCodeJumps LCodePool LParser LGrammar LExpr LSyntax LFinal LCompile LCompileExp LCompileReg LCompileVal LCompileOps LCompileCond LCompileBool LCompileLogic LCompileExpr.
#[local] Open Scope Z_scope.

(** A known token against the tokens of a rule. *)
Ltac compare_tokens := repeat match goal with |- context [Z.eqb ?a ?b] => let c := eval vm_compute in (Z.eqb a b) in change (Z.eqb a b) with c end.

(** ** Safe runs of the parser *)
Definition psafe {A} (m : P A) (st : Parser) (Q : A -> Parser -> Prop) : Prop := lsafe (m st) (fun '(a, st') => Q a st').

Lemma psafe_bind {A B} (Q : A -> Parser -> Prop) (R : B -> Parser -> Prop) (m : P A) (f : A -> P B) st :
  psafe m st Q -> (forall a st', Q a st' -> psafe (f a) st' R) -> psafe (pbind m f) st R.
Proof. intros Hm Hf. unfold psafe, pbind in *. eapply lsafe_bind; [exact Hm|]. intros [a st'] Ha. by apply Hf. Qed.
Lemma psafe_ret {A} (a : A) st (Q : A -> Parser -> Prop) : Q a st -> psafe (pret a) st Q.
Proof. done. Qed.
Lemma psafe_mono {A} (Q R : A -> Parser -> Prop) (m : P A) st : psafe m st Q -> (forall a st', Q a st' -> R a st') -> psafe m st R.
Proof. intros Hm HR. unfold psafe in *. eapply lsafe_mono; [exact Hm|]. intros [a st']. apply HR. Qed.
Lemma psafe_eq {A B} (m : P A) (f : A -> P B) st a st' (R : B -> Parser -> Prop) : m st = lret (a, st') -> psafe (f a) st' R -> psafe (pbind m f) st R.
Proof. intros E Hf. unfold psafe, pbind. by rewrite E. Qed.
Lemma pbind_assoc {A B C} (m : P A) (f : A -> P B) (g : B -> P C) st : pbind (pbind m f) g st = pbind m (fun a => pbind (f a) g) st.
Proof. unfold pbind. destruct (m st) as [[[a s]|]|]; done. Qed.

(** Every constant can be written into the prototype, and a call keeps it so. *)
Definition is_string (a : Z) : Prop := is_Some (str_of a).
Lemma str_of_addr s : str_of (str_addr s) = Some s.
Proof. unfold str_of, str_addr at 1. rewrite decode_encode. cbn. by rewrite Z.eqb_refl. Qed.
Lemma is_string_addr s : is_string (str_addr s).
Proof. unfold is_string. by rewrite str_of_addr. Qed.
#[export] Hint Resolve is_string_addr : pool.
Class PoolSafe {A} (f : FuncState -> LuaM (A * FuncState)) : Prop := pool_safe : forall g, pooled is_string g -> pools is_string (f g).
#[export] Hint Mode PoolSafe - ! : typeclass_instances.
#[export] Hint Extern 0 (PoolSafe _) => (intros ? ?; pool) : typeclass_instances.

(** The parts of the state that a call of the generator leaves. *)
Definition same_func (f f' : Func) : Prop := f' = set_gen (gen f') f.
Record frame (st st' : Parser) : Prop := {
  frame_fs : same_func (fs st) (fs st');
  frame_prev : prev st' = prev st;
  frame_calls : nCcalls st' = nCcalls st;
  frame_pool : pooled is_string (gen (fs st)) -> pooled is_string (gen (fs st'));
}.
Lemma frame_refl st : frame st st.
Proof. split; [by destruct st as [? [] ? ?]|done|done|done]. Qed.
Lemma frame_trans a b c : frame a b -> frame b c -> frame a c.
Proof. intros [F1 P1 N1 K1] [F2 P2 N2 K2]. split; [|congruence|congruence|by auto]. unfold same_func in *. rewrite F2, F1. done. Qed.

Lemma psafe_K {A} (f : FuncState -> LuaM (A * FuncState)) `{!PoolSafe f} st (Q : A -> FuncState -> Prop) (R : A -> Parser -> Prop) :
  lsafe (f (with_lastline (LLex.lastline (ls st)) (gen (fs st)))) (fun '(a, g) => Q a g) ->
  (forall a st', Q a (gen (fs st')) -> frame st st' -> ls st' = ls st -> R a st') -> psafe (K f) st R.
Proof.
  intros Hf HR. unfold psafe, K. pose proof (pool_safe (f := f) (with_lastline (LLex.lastline (ls st)) (gen (fs st)))) as Hpool.
  destruct (f _) as [[[a g]|]|]; cbn [lbind lret lsafe] in *; [|done..]. by apply HR.
Qed.

(** ** The line of the last token does not matter *)
Section Line.
Context {W : Type} `{CallsKeepFrame W}.

Lemma line_flow l g : same_flow g (with_lastline l g).
Proof. by split. Qed.
Lemma line_wf l g P J : wf g P J -> wf (with_lastline l g) P J.
Proof.
  intros Hwf. apply (flow_wf g); [apply line_flow|done| |..].
  - by apply (pool_ok_eq g), Hwf.
  - pose proof (wf_nactvar _ _ _ Hwf). pose proof (wf_freereg _ _ _ Hwf). cbn. lia.
  - apply Hwf.
Qed.
Lemma line_compiled l fs0 P J0 fs e T F J m : compiled fs0 P J0 fs e T F J m -> compiled fs0 P J0 (with_lastline l fs) e T F J m.
Proof.
  intros [Hc Ht Hf Hok Hfree]. pose proof (line_flow l fs) as Hfl. destruct (same_code_at _ _ (flow_code _ _ Hfl)) as [Hpc Hcode].
  split; [| | | |].
  - replace (pc (with_lastline l fs) - width e) with (pc fs - width e) by (by rewrite Hpc).
    eapply coded_step; [exact Hc|apply line_wf, Hc|by apply keeps_code, Hfl|by apply grows_flow|].
    intros cl M Ha. split; [by eapply flow_agree|]. intros s w Hl Hcl. right. exists s, w. split; [apply reaches_refl|]. split; [done|].
    split; [by eapply flow_clean|]. by rewrite (main_of_flow _ _ _ Hfl).
  - by apply (jchain_ext fs); [intros; rewrite Hcode|].
  - by apply (jchain_ext fs); [intros; rewrite Hcode|].
  - by eapply exp_ok_flow.
  - exact Hfree.
Qed.
Lemma line_start l fs0 P J0 fs e T F J m : compiled (with_lastline l fs0) P J0 fs e T F J m -> compiled fs0 P J0 fs e T F J m.
Proof.
  intros [[Hwf Hk Hg Hs] Ht Hf Hok Hfree]. split; [split; [done|exact Hk|by destruct Hg; split| ]|done|done|exact Hok|exact Hfree].
  intros cl M Ha. destruct (Hs cl M Ha) as [Ha0 Hrun]. split; [by apply (flow_agree _ _ _ _ _ _ _ (line_flow l fs0))|].
  intros s w Hl Hc. apply (Hrun s w Hl). by apply (flow_clean _ _ _ _ _ (line_flow l fs0)).
Qed.
Lemma line_goal l fs0 P J ex e fs : goal fs0 P J ex e fs -> goal fs0 P J ex e (with_lastline l fs).
Proof. intros (Hp & Hn & T & F & J' & Hc). split; [exact Hp|]. split; [done|]. exists T, F, J'. by apply line_compiled. Qed.
Lemma line_goal_start l fs0 P J ex e fs : goal (with_lastline l fs0) P J ex e fs -> goal fs0 P J ex e fs.
Proof. intros (Hp & Hn & T & F & J' & Hc). split; [exact Hp|]. split; [done|]. exists T, F, J'. by eapply line_start. Qed.
End Line.

(** ** Names *)
(** [x] is the local variable [env x], or no variable of this or an enclosing function. *)
Definition in_scope (st : Parser) (env : bytes -> Z) (x : bytes) : Prop :=
  searchvar (fs st) x = Some (env x) /\ (env x < 0 -> Forall (fun f => searchvar f x = Some (-1)) (prev st)).

Lemma searchvar_gen f g x : nactvar g = nactvar (gen f) -> searchvar (set_gen g f) x = searchvar f x.
Proof.
  intros E. unfold searchvar. cbn [gen set_gen]. rewrite E. induction (Z.to_nat (nactvar (gen f))) as [|n IH]; [done|]. cbn [searchvar_loop].
  unfold getlocvar, locvar_index in *. cbn [actvar f_locvars set_gen] in *. destruct (if Z.of_nat n <? 0 then _ else _) as [j|]; [|done]. cbn.
  destruct (f_locvars f !! j) as [v|]; [|done]. cbn. by rewrite IH.
Qed.
Lemma in_scope_frame st st' env x : frame st st' -> nactvar (gen (fs st')) = nactvar (gen (fs st)) -> in_scope st env x -> in_scope st' env x.
Proof.
  intros [Hf Hp _ _] Hn [Hs Ho]. unfold in_scope. rewrite Hp, Hf. split; [|done]. by rewrite searchvar_gen.
Qed.
Lemma singlevaraux_global l chain x base : Forall (fun f => searchvar f x = Some (-1)) chain ->
  singlevaraux l chain x base = lret (init_exp VGLOBAL NO_REG, chain).
Proof.
  intros Hc. revert base. induction Hc as [|f chain Hf Hc IH]; intros base; [done|]. cbn [singlevaraux]. rewrite Hf. cbn. by rewrite IH.
Qed.

Lemma resolve_local st env x : in_scope st env x -> 0 <= env x -> resolve_name x st = lret (init_exp VLOCAL (env x), st).
Proof.
  intros [Hs _] Hx. unfold resolve_name. cbn [singlevaraux]. rewrite Hs. cbn. assert ((0 <=? env x) = true) as -> by lia. cbn. by destruct st.
Qed.
Lemma resolve_global st env x : in_scope st env x -> env x < 0 -> resolve_name x st = lret (init_exp VGLOBAL NO_REG, st).
Proof.
  intros [Hs Ho] Hx. unfold resolve_name. cbn [singlevaraux]. rewrite Hs. cbn. assert ((0 <=? env x) = false) as -> by lia.
  rewrite singlevaraux_global by auto. cbn. by destruct st.
Qed.

Section Parse.
Context {W : Type} `{CallsKeepFrame W}.
Variable strtod : bytes -> Z * nat.
Variable strtoul16 : bytes -> Z * nat.
Variable decimal_point : Z.
#[local] Instance lib : CLibrary :=
  {| LParser.strtod := strtod; LParser.strtoul16 := strtoul16; LParser.decimal_point := decimal_point; numpow := luai_numpow |}.

(** [st'] is behind the expression [ex] that starts at [st], before the tokens [ts]. *)
Record parsed (st : Parser) (P J : list Z) (ex : expr) (ts : list stok) (v : expdesc) (st' : Parser) : Prop := {
  parsed_ready : ready st' ts;
  parsed_frame : frame st st';
  parsed_goal : goal (gen (fs st)) P J ex v (gen (fs st'));
}.
Record starts (st : Parser) (P J : list Z) (env : bytes -> Z) (e : sexpr) (ts : list stok) : Prop := {
  starts_ready : ready st (toks e ++ ts);
  starts_scope : Forall (in_scope st env) (names e);
  starts_wf : wf (gen (fs st)) P J;
  starts_ok : expr_ok (nactvar (gen (fs st))) (resolved env e) = true;
  starts_calls : nCcalls st <= LUAI_MAXCCALLS;
}.

Lemma goal_nactvar fs P J ex v fs' : goal fs P J ex v fs' -> nactvar fs' = nactvar fs.
Proof. intros (_ & _ & T & F & J' & Hc). by destruct (compiled_wf _ _ _ _ _ _ _ _ _ Hc) as (_ & ? & _). Qed.

Lemma parsed_next st P J ex x y ts v st' : parsed st P J ex (x :: y :: ts) v st' -> exists st2, next st' = lret (tt, st2) /\ parsed st P J ex (y :: ts) v st2.
Proof.
  intros [Hr Hf Hg]. destruct (ready_next st' x y ts Hr) as (st2 & Hn & Hr2 & Ef & Ep & Ec). exists st2. split; [done|]. split; [done| |by rewrite Ef].
  destruct Hf as [Hf Hp Hc Hk]. split; [congruence|congruence|congruence|by rewrite Ef].
Qed.

(** The token in front. *)
Lemma tok_is st x ts {A} (f : Z -> P A) (R : A -> Parser -> Prop) : ready st (x :: ts) -> psafe (f (tok_kind x)) st R -> psafe (pbind tok f) st R.
Proof. intros Hr Hf. destruct (ready_tok _ _ _ Hr) as [E _]. unfold psafe, pbind, tok, the. cbn [lbind lret]. by rewrite E. Qed.
Lemma testnext_is st c y ts {A} (f : bool -> P A) (R : A -> Parser -> Prop) : ready st (Punct c :: y :: ts) ->
  (forall st', next st = lret (tt, st') -> psafe (f true) st' R) -> psafe (pbind (testnext c) f) st R.
Proof.
  intros Hr Hf. destruct (ready_tok _ _ _ Hr) as [E _]. destruct (ready_next _ _ _ _ Hr) as (st' & Hn & _). specialize (Hf st' Hn).
  unfold testnext. unfold psafe in *. rewrite pbind_assoc. unfold pbind at 1, tok, the. cbn [lbind lret]. rewrite E. cbn [tok_kind]. rewrite Z.eqb_refl.
  rewrite pbind_assoc. unfold pbind at 1. rewrite Hn. exact Hf.
Qed.
Lemma check_match_is st c who line y ts st' : ready st (Punct c :: y :: ts) -> next st = lret (tt, st') -> check_match c who line st = lret (tt, st').
Proof.
  intros Hr Hn. destruct (ready_tok _ _ _ Hr) as [E _]. unfold check_match, testnext, pbind, tok, the. cbn [lbind lret]. rewrite E. cbn [tok_kind]. rewrite Z.eqb_refl.
  by rewrite Hn.
Qed.
Lemma checknext_is st c y ts st' : ready st (Punct c :: y :: ts) -> next st = lret (tt, st') -> checknext c st = lret (tt, st').
Proof.
  intros Hr Hn. destruct (ready_tok _ _ _ Hr) as [E _]. unfold checknext, check, pbind, tok, the. cbn [lbind lret]. rewrite E. cbn [tok_kind]. rewrite Z.eqb_refl.
  cbn [lbind lret pret]. exact Hn.
Qed.
Lemma str_checkname_is st s y ts st' : ready st (TNam s :: y :: ts) -> next st = lret (tt, st') -> str_checkname st = lret (s, st').
Proof.
  intros Hr Hn. destruct (ready_tok _ _ _ Hr) as [E Es]. cbn [tok_kind] in E. unfold str_checkname, check, token_ts, pbind, tok, the. cbn [lbind lret]. rewrite E, Z.eqb_refl.
  cbn [lbind lret pret]. rewrite Es. cbn [lbind lret pret]. rewrite Hn. done.
Qed.

Lemma parsed_frame_scope st P J ex ts v st' env ns : parsed st P J ex ts v st' -> Forall (in_scope st env) ns -> Forall (in_scope st' env) ns.
Proof.
  intros [_ Hf Hg] Hs. eapply Forall_impl; [exact Hs|]. intros x. apply in_scope_frame; [done|]. by eapply goal_nactvar.
Qed.

(** A call of the generator on the descriptor of [ex]. *)
Lemma parsed_K st P J ex ts v st' {A} (f : FuncState -> LuaM (A * FuncState)) `{!PoolSafe f} (Q : A -> FuncState -> Prop) (R : A -> Parser -> Prop) :
  parsed st P J ex ts v st' ->
  (forall g, goal (gen (fs st)) P J ex v g -> lsafe (f g) (fun '(a, g) => Q a g)) ->
  (forall a st2, Q a (gen (fs st2)) -> frame st st2 -> ready st2 ts -> R a st2) -> psafe (K f) st' R.
Proof.
  intros [Hr Hf Hg] Hq HR. eapply psafe_K; [apply _|apply Hq, line_goal, Hg|]. intros a st2 Ha Hf2 El. apply HR; [done|by eapply frame_trans|].
  destruct Hr. split; by rewrite ?El.
Qed.
Lemma ready_same st st' ts : ls st' = ls st -> ready st ts -> ready st' ts.
Proof. intros E []. split; by rewrite ?E. Qed.

(** A call that makes a descriptor. *)
Lemma new_K (f : FuncState -> LuaM (Z * FuncState)) `{!PoolSafe f} (mk : Z -> expdesc) st P J ex ts : ready st ts -> wf (gen (fs st)) P J ->
  (forall g, wf g P J -> lsafe (let* (i, g) := f g in lret (mk i, g)) (fun '(e, g') => goal g P J ex e g')) ->
  psafe (let! i := K f in pret (mk i)) st (fun v st' => parsed st P J ex ts v st').
Proof.
  intros Hr Hwf Hf. specialize (Hf (with_lastline (LLex.lastline (ls st)) (gen (fs st))) (line_wf _ _ _ _ Hwf)). unfold psafe, pbind, K.
  pose proof (pool_safe (f := f) (with_lastline (LLex.lastline (ls st)) (gen (fs st)))) as Hpool. destruct (f _) as [[[i g]|]|]; cbn [lbind lret pret lsafe] in *; [|done..]. split; [by apply (ready_same st)|by split|exact (line_goal_start _ _ _ _ _ _ _ Hf)].
Qed.

(** [rec] reads the expressions that fit its limit, from the depth [lo] on. *)
Definition reads_as (lo : Z) (rec : Z -> P (BinOpr * expdesc)) : Prop := forall e limit st x ts Pn J env,
  lo <= nCcalls st -> prec_ok limit e = true -> stops (Z.min limit (edge e)) x -> starts st Pn J env e (x :: ts) ->
  psafe (rec limit) st (fun r st' => r.1 = getbinopr (tok_kind x) /\ parsed st Pn J (resolved env e) (x :: ts) r.2 st').

Section Level.
Variable lo : Z.
Variable rec : Z -> P (BinOpr * expdesc).
Variable rc : P unit.
Hypothesis Hrec : reads_as lo rec.

Lemma expr_reads e st x ts Pn J env : lo <= nCcalls st -> prec_ok 0 e = true -> (forall l, stops l x) -> starts st Pn J env e (x :: ts) ->
  psafe (LGrammar.expr rec) st (fun v st' => parsed st Pn J (resolved env e) (x :: ts) v st').
Proof using Hrec H0.
  intros Hlo Hfit Hx Hst. unfold LGrammar.expr. eapply psafe_bind; [by eapply Hrec|]. intros [op v] st' [_ Hp]. done.
Qed.

Lemma starts_after st Pn J env a (c : Z) b ts st1 P1 J1 : ready st1 (toks b ++ ts) -> frame st st1 -> nactvar (gen (fs st1)) = nactvar (gen (fs st)) ->
  wf (gen (fs st1)) P1 J1 -> starts st Pn J env a (Punct c :: toks b ++ ts) -> Forall (in_scope st env) (names b) ->
  expr_ok (nactvar (gen (fs st))) (resolved env b) = true -> starts st1 P1 J1 env b ts.
Proof.
  intros Hr Hf Hn Hwf [_ _ _ _ Hc] Hs Hok. split; [done| |done|by rewrite Hn|].
  - eapply Forall_impl; [exact Hs|]. intros y. by apply in_scope_frame.
  - by rewrite (frame_calls _ _ Hf).
Qed.

(** *** A name *)
Lemma singlevar_reads y st x ts Pn J env : starts st Pn J env (SName y) (x :: ts) ->
  psafe singlevar st (fun v st' => parsed st Pn J (resolved env (SName y)) (x :: ts) v st').
Proof.
  intros [Hr Hs Hwf Hok _]. apply Forall_cons in Hs as [Hs _]. destruct (ready_next _ _ _ _ Hr) as (st1 & Hn & Hr1 & Ef & Ep & Ec).
  unfold singlevar. eapply psafe_eq; [exact (str_checkname_is _ _ _ _ _ Hr Hn)|].
  assert (frame st st1) as Hf by (split; [rewrite Ef; apply frame_refl|done|done|by rewrite Ef]).
  assert (in_scope st1 env y) as Hs1 by (apply (in_scope_frame st); [done|by rewrite Ef|done]).
  cbn [resolved expr_ok] in *. destruct (Z.leb_spec 0 (env y)) as [Hy|Hy].
  - eapply psafe_eq; [by eapply resolve_local|]. cbn [e_k init_exp]. apply psafe_ret. split; [done|done|]. rewrite Ef. apply leaf_goal; try done. cbn [expr_ok] in Hok. unfold exp_ok. cbn [e_k init_exp info]. lia.
  - eapply psafe_eq; [by eapply resolve_global|]. rewrite bool_decide_eq_true_2 by done.
    eapply psafe_mono; [eapply (new_K _ (fun i => exp_is VGLOBAL i (init_exp VGLOBAL NO_REG)) st1 Pn J (EGlobal (str_addr y)) (x :: ts)); [done|by rewrite Ef|]|].
    + intros g. apply global_goal.
    + intros v st2 [Hr2 Hf2 Hg2]. rewrite Ef in Hg2. split; [done|by eapply frame_trans|done].
Qed.

(** *** Suffixes *)
Lemma codestring_reads s st ts P J : ready st ts -> wf (gen (fs st)) P J ->
  psafe (codestring s) st (fun key st' => ready st' ts /\ frame st st' /\ presentable (gen (fs st')) key /\ e_k key = VK /\
    compiled (gen (fs st)) P J (gen (fs st')) key [] [] J (fun _ _ w => lret (TGC GString (str_addr s), w))).
Proof.
  intros Hr Hwf. unfold psafe, codestring, pbind, K.
  pose proof (codestring_compiled (with_lastline (LLex.lastline (ls st)) (gen (fs st))) P J (str_addr s) (line_wf _ _ _ _ Hwf)) as Hc.
  pose proof (pool_stringK is_string (str_addr s) (with_lastline (LLex.lastline (ls st)) (gen (fs st))) (is_string_addr s)) as Hpool.
  destruct (luaK_stringK _ _) as [[[i g]|]|]; cbn [lbind lret pret lsafe] in *; [|done..]. destruct Hc as (Hk & Hp & Hc).
  split; [by apply (ready_same st)|]. split; [by split|]. split; [done|]. split; [done|]. exact (line_start _ _ _ _ _ _ _ _ _ _ Hc).
Qed.

(** The operand in a register. *)
Lemma anyreg_reads st P J ex ts v st' : wf (gen (fs st)) P J -> parsed st P J ex ts v st' ->
  psafe (K (luaK_exp2anyreg v)) st' (fun v1 st2 => ready st2 ts /\ frame st st2 /\ in_reg (gen (fs st)) v1 /\
    exists J2, compiled (gen (fs st)) P J (gen (fs st2)) v1 [] [] J2 (value_of ex)).
Proof.
  intros Hwf Hp. pose proof (wf_nactvar _ _ _ Hwf) as Hna.
  eapply (parsed_K _ _ _ _ _ _ _ _ (fun v1 g => in_reg (gen (fs st)) v1 /\ exists J2, compiled (gen (fs st)) P J g v1 [] [] J2 (value_of ex))); [exact Hp|..].
  - intros g (_ & _ & T & F & J1 & H1). eapply luaK_exp2anyreg_spec; [exact H1|lia].
  - intros v1 st2 Hq Hf Hr. split; [done|]. split; [done|]. exact Hq.
Qed.

Lemma frame_next st st' : fs st' = fs st -> prev st' = prev st -> nCcalls st' = nCcalls st -> frame st st'.
Proof. intros Ef Ep Ec. split; [rewrite Ef; apply frame_refl|done|done|by rewrite Ef]. Qed.

Lemma field_reads y st P J t c x ts v st' : wf (gen (fs st)) P J -> parsed st P J t (Punct c :: TNam y :: x :: ts) v st' ->
  psafe (field v) st' (fun v' st2 => parsed st P J (EField t (str_addr y)) (x :: ts) v' st2).
Proof.
  intros Hwf Hp. unfold field. eapply psafe_bind; [by eapply anyreg_reads|]. intros v1 st1 (Hr1 & Hf1 & Hin & J1 & H1).
  destruct (ready_next _ _ _ _ Hr1) as (st2 & Hn & Hr2 & Ef & Ep & Ec). eapply psafe_eq; [exact Hn|].
  destruct (ready_next _ _ _ _ Hr2) as (st3 & Hn3 & Hr3 & Ef3 & Ep3 & Ec3). unfold checkname. unfold psafe. rewrite pbind_assoc.
  eapply (psafe_eq _ _ st2 y st3); [by eapply str_checkname_is|]. destruct (compiled_wf _ _ _ _ _ _ _ _ _ H1) as (Hwf1 & _ & _). cbn [app] in Hwf1.
  eapply psafe_bind; [eapply (codestring_reads y st3 (x :: ts) P J1); [done|by rewrite Ef3, Ef]|]. intros key st4 (Hr4 & Hf4 & _ & _ & Hk). rewrite Ef3, Ef in Hk.
  eapply psafe_K; [apply _|eapply field_goal; [exact Hwf|exact H1|exact Hin|by apply line_compiled]|]. intros v' st5 Hg Hf5 El5.
  split; [by eapply ready_same| |done]. eapply frame_trans; [exact Hf1|]. eapply frame_trans; [by apply (frame_next st1 st2)|].
  eapply frame_trans; [by apply (frame_next st2 st3)|]. by eapply frame_trans.
Qed.

Lemma bracket_stops l : stops l (Punct (ch "]")).
Proof. apply punct_stops; [done|]. by apply (bool_decide_unpack _); vm_compute. Qed.
Lemma paren_stops l : stops l (Punct (ch ")")).
Proof. apply punct_stops; [done|]. by apply (bool_decide_unpack _); vm_compute. Qed.

(** [\[key\]], the table being in a register. *)
Lemma index_reads key st P J env t x ts v st' : lo <= nCcalls st -> starts st P J env (SIndex t key) (x :: ts) -> prec_ok 0 key = true ->
  parsed st P J (resolved env t) (Punct (ch "[") :: toks key ++ Punct (ch "]") :: x :: ts) v st' ->
  psafe (let! v := K (luaK_exp2anyreg v) in let! key := yindex rec in let! v := K (luaK_indexed v key) in pret (Some v)) st'
    (fun r st2 => exists v', r = Some v' /\ parsed st P J (resolved env (SIndex t key)) (x :: ts) v' st2).
Proof using Hrec H0.
  intros Hlo [_ Hs Hwf Hok Hcalls] Hprec Hp. cbn [names resolved expr_ok] in *. apply Forall_app in Hs as [_ Hs]. apply andb_true_iff in Hok as [_ Hok].
  eapply psafe_bind; [by eapply anyreg_reads|]. intros v1 st1 (Hr1 & Hf1 & Hin & J1 & H1). destruct (compiled_wf _ _ _ _ _ _ _ _ _ H1) as (Hwf1 & Hn1 & _). cbn [app] in Hwf1.
  assert (exists y ts', toks key ++ Punct (ch "]") :: x :: ts = y :: ts') as (y & ts' & Ey) by (destruct (toks key); by eauto).
  rewrite Ey in Hr1. destruct (ready_next _ _ _ _ Hr1) as (st2 & Hn & Hr2 & Ef & Ep & Ec). rewrite <- Ey in Hr2. unfold yindex.
  assert (frame st st2) as Hf2 by (eapply frame_trans; [exact Hf1|by apply frame_next]).
  unfold psafe. rewrite pbind_assoc. eapply psafe_eq; [exact Hn|]. unfold psafe. rewrite pbind_assoc.
  eapply psafe_bind; [eapply (expr_reads key st2 (Punct (ch "]")) (x :: ts) P J1 env); [by rewrite (frame_calls _ _ Hf2)|done|apply bracket_stops|split]|].
  { exact Hr2. } { eapply Forall_impl; [exact Hs|]. intros z. apply in_scope_frame; [done|by rewrite Ef]. } { by rewrite Ef. } { by rewrite Ef, Hn1. } { by rewrite (frame_calls _ _ Hf2). }
  intros k1 st3 Hp3. pose proof (wf_nactvar _ _ _ Hwf1) as Hna1.
  unfold psafe. rewrite pbind_assoc. eapply psafe_bind.
  { eapply (parsed_K _ _ _ _ _ _ _ _ (fun k2 g => exists J', compiled (gen (fs st2)) P J1 g k2 [] [] J' (value_of (resolved env key)))); [exact Hp3|..].
    - intros g (_ & _ & T & F & J3 & H3). eapply lsafe_mono; [eapply luaK_exp2val_spec; [exact H3|rewrite Ef; lia]|]. intros [k2 g2] (_ & Hc). exact Hc.
    - intros k2 st4 Hq Hf4 Hr4. exact (conj Hq (conj Hf4 Hr4)). }
  intros k2 st4 ((J4 & H4) & Hf4 & Hr4). destruct (ready_next _ _ _ _ Hr4) as (st5 & Hn5 & Hr5 & Ef5 & Ep5 & Ec5).
  unfold psafe. rewrite pbind_assoc. eapply psafe_eq; [by eapply checknext_is|]. apply (psafe_eq (pret k2) _ st5 k2 st5); [done|].
  rewrite Ef in H4. eapply psafe_bind.
  - eapply (psafe_K _ _ (fun e g => goal (gen (fs st)) P J (resolved env (SIndex t key)) e g)).
    + eapply index_goal; [exact Hwf|exact H1|exact Hin|apply line_compiled; rewrite Ef5; exact H4|exact Hok].
    + intros e st6 Hg Hf6 El. exact (conj Hg (conj Hf6 El)).
  - intros e st6 (Hg & Hf6 & El). apply psafe_ret. exists e. split; [done|]. split; [by eapply ready_same| |done].
    eapply frame_trans; [exact Hf2|]. eapply frame_trans; [exact Hf4|]. eapply frame_trans; [by apply (frame_next st4 st5)|done].
Qed.

(** *** Primary expressions *)
(** The suffixes that are left, from any state behind [e]. *)
Definition then_suffixes (st : Parser) (P J : list Z) (env : bytes -> Z) (e : sexpr) (x : stok) (ts : list stok) (R : expdesc -> Parser -> Prop) : Prop :=
  forall v n st', parsed st P J (resolved env e) (x :: ts) v st' -> (length (x :: ts) <= n)%nat -> psafe (suffixes rec n v) st' R.

Definition primary_reads (e : sexpr) : Prop := forall n st P J env x ts (R : expdesc -> Parser -> Prop),
  lo <= nCcalls st -> prec_ok 0 e = true -> starts st P J env e (x :: ts) -> (length (toks e ++ x :: ts) <= S n)%nat ->
  then_suffixes st P J env e x ts R -> psafe (let! v := prefixexp rec in suffixes rec n v) st R.

Lemma name_primary y : primary_reads (SName y).
Proof.
  intros n st P J env x ts R Hlo Hprec Hst Hlen Hthen. unfold prefixexp. unfold psafe. rewrite pbind_assoc.
  eapply tok_is; [exact (starts_ready _ _ _ _ _ _ Hst)|]. cbn [tok_kind]. change (TK_NAME =? ch "(") with false. change (TK_NAME =? TK_NAME) with true.
  eapply psafe_bind; [by eapply singlevar_reads|]. intros v st' Hp. eapply Hthen; [done|]. cbn [toks app length] in Hlen |- *. lia.
Qed.

Lemma paren_primary e : primary_reads (SParen e).
Proof using Hrec H0.
  intros n st P J env x ts R Hlo Hprec [Hr Hs Hwf Hok Hcalls] Hlen Hthen. cbn [names resolved expr_ok prec_ok] in *. unfold prefixexp. unfold psafe. rewrite pbind_assoc.
  assert (toks (SParen e) ++ x :: ts = Punct (ch "(") :: toks e ++ Punct (ch ")") :: x :: ts) as Et by (cbn; by rewrite <- app_assoc). rewrite Et in *.
  eapply tok_is; [exact Hr|]. cbn [tok_kind]. change (ch "(" =? ch "(") with true.
  assert (exists y ts', toks e ++ Punct (ch ")") :: x :: ts = y :: ts') as (y & ts' & Ey) by (destruct (toks e); by eauto).
  rewrite Ey in Hr. destruct (ready_next _ _ _ _ Hr) as (st1 & Hn & Hr1 & Ef & Ep & Ec). rewrite <- Ey in Hr1.
  unfold psafe. rewrite pbind_assoc. eapply (psafe_eq linenum _ st _ st); [done|]. unfold psafe. rewrite pbind_assoc. eapply psafe_eq; [exact Hn|].
  unfold psafe. rewrite pbind_assoc. eapply psafe_bind.
  { eapply (expr_reads e st1 (Punct (ch ")")) (x :: ts) P J env); [by rewrite Ec|done|apply paren_stops|]. split; [exact Hr1| |by rewrite Ef..|by rewrite Ec].
    eapply Forall_impl; [exact Hs|]. intros z. apply in_scope_frame; [by apply frame_next|by rewrite Ef]. }
  intros v st2 Hp. destruct (parsed_next _ _ _ _ _ _ _ _ _ Hp) as (st3 & Hn3 & Hp3). unfold psafe. rewrite pbind_assoc.
  eapply psafe_eq; [eapply check_match_is; [apply Hp|exact Hn3]|].
  eapply psafe_bind.
  - eapply (parsed_K _ _ _ _ _ _ _ _ (fun v g => goal (gen (fs st1)) P J (EParen (resolved env e)) v g)); [exact Hp3|..].
    + intros g Hg. eapply paren_goal; [by rewrite Ef|done].
    + intros v' st4 Hg Hf Hr4. exact (conj Hg (conj Hf Hr4)).
  - intros v' st4 (Hg & Hf & Hr4). rewrite Ef in Hg. eapply Hthen; [split; [done| |done]|].
    + eapply frame_trans; [by apply frame_next|done].
    + cbn [length] in Hlen. rewrite length_app in Hlen. cbn [length] in *. lia.
Qed.

Lemma field_primary t y : primary_reads t -> primary_reads (SField t y).
Proof.
  intros IH n st P J env x ts R Hlo Hprec [Hr Hs Hwf Hok Hcalls] Hlen Hthen. cbn [names resolved expr_ok prec_ok] in *. apply andb_true_iff in Hprec as [_ Hprec].
  assert (toks (SField t y) ++ x :: ts = toks t ++ Punct (ch ".") :: TNam y :: x :: ts) as Et by (cbn; by rewrite <- app_assoc). rewrite Et in *.
  eapply (IH n st P J env (Punct (ch ".")) (TNam y :: x :: ts)); [done|done|by split|done|]. intros v n' st' Hp Hlen'.
  destruct n' as [|n']; [cbn in Hlen'; lia|]. cbn [suffixes]. unfold suffix. unfold psafe. rewrite pbind_assoc.
  eapply tok_is; [apply Hp|]. cbn [tok_kind]. change (ch "." =? ch ".") with true. unfold psafe. rewrite pbind_assoc.
  eapply psafe_bind; [by eapply field_reads|]. intros v' st2 Hp2. eapply psafe_eq; [done|].
  eapply Hthen; [exact Hp2|]. cbn [length] in *. lia.
Qed.

Lemma index_primary t key : primary_reads t -> primary_reads (SIndex t key).
Proof using Hrec H0.
  intros IH n st P J env x ts R Hlo Hprec Hst Hlen Hthen. cbn [prec_ok] in *. apply andb_true_iff in Hprec as [[_ Hprec]%andb_true_iff Hkey].
  assert (toks (SIndex t key) ++ x :: ts = toks t ++ Punct (ch "[") :: toks key ++ Punct (ch "]") :: x :: ts) as Et.
  { cbn [toks]. rewrite <- app_assoc. cbn [app]. by rewrite <- app_assoc. }
  pose proof Hst as [Hr Hs Hwf Hok Hcalls]. rewrite Et in *. cbn [names resolved expr_ok] in *.
  apply Forall_app in Hs as [Hs _]. apply andb_true_iff in Hok as [Hok _].
  eapply (IH n st P J env (Punct (ch "[")) (toks key ++ Punct (ch "]") :: x :: ts)); [done|done|by split|done|]. intros v n' st' Hp Hlen'.
  destruct n' as [|n']; [cbn in Hlen'; lia|]. cbn [suffixes]. unfold suffix. unfold psafe. rewrite pbind_assoc.
  eapply tok_is; [apply Hp|]. cbn [tok_kind]. change (ch "[" =? ch ".") with false. change (ch "[" =? ch "[") with true.
  eapply psafe_bind; [by eapply (index_reads key st P J env t)|]. intros r st2 (v' & -> & Hp2).
  eapply Hthen; [exact Hp2|]. cbn [length] in Hlen'. rewrite length_app in Hlen'. cbn [length] in *. lia.
Qed.

Lemma primary_all e : is_primary e = true -> prec_ok 0 e = true -> primary_reads e.
Proof using Hrec H0.
  induction e; try done; intros _ Hprec.
  - apply name_primary.
  - cbn [prec_ok] in Hprec. apply andb_true_iff in Hprec as [? ?]. by apply field_primary, IHe.
  - cbn [prec_ok] in Hprec. apply andb_true_iff in Hprec as [[? ?]%andb_true_iff ?]. by apply index_primary, IHe1.
  - apply paren_primary.
Qed.

Lemma primaryexp_reads e st P J env x ts : lo <= nCcalls st -> is_primary e = true -> prec_ok 0 e = true -> tok_kind x ∉ suffix_starts ->
  starts st P J env e (x :: ts) -> psafe (primaryexp rec) st (fun v st' => parsed st P J (resolved env e) (x :: ts) v st').
Proof using Hrec H0.
  intros Hlo Hprim Hprec Hx Hst. unfold primaryexp. eapply psafe_eq; [done|]. eapply (primary_all e Hprim Hprec); [done|done|exact Hst|exact (ready_turns _ _ (starts_ready _ _ _ _ _ _ Hst))|].
  intros v n st' Hp Hlen. destruct n as [|n]; [cbn in Hlen; lia|]. cbn [suffixes]. unfold suffix. unfold psafe. rewrite pbind_assoc.
  eapply tok_is; [apply Hp|]. unfold suffix_starts in Hx.
  repeat (apply not_elem_of_cons in Hx as [?%Z.eqb_neq Hx]). repeat match goal with E : (tok_kind x =? _) = false |- _ => rewrite E; clear E end.
  cbn [orb]. eapply psafe_eq; [done|]. by apply psafe_ret.
Qed.

(** *** Operands *)

Lemma leaf_reads st P J env e y x ts v : starts st P J env e (x :: ts) -> toks e = [y] -> goal (gen (fs st)) P J (resolved env e) v (gen (fs st)) ->
  psafe (do! next in pret v) st (fun v st' => parsed st P J (resolved env e) (x :: ts) v st').
Proof.
  intros [Hr _ Hwf _ _] Et Hg. rewrite Et in Hr. destruct (ready_next _ _ _ _ Hr) as (st1 & Hn & Hr1 & Ef & Ep & Ec).
  eapply psafe_eq; [exact Hn|]. apply psafe_ret. split; [done|by apply frame_next|by rewrite Ef].
Qed.

Lemma string_reads st P J env s x ts : starts st P J env (SString s) (x :: ts) ->
  psafe (let! ts := token_ts in let! v := codestring ts in do! next in pret v) st (fun v st' => parsed st P J (resolved env (SString s)) (x :: ts) v st').
Proof.
  intros [Hr _ Hwf _ _]. cbn [toks app resolved] in *. destruct (ready_tok _ _ _ Hr) as [_ Es].
  apply (psafe_eq _ _ st s st); [unfold token_ts, pbind, the; cbn [lbind lret]; by rewrite Es|].
  eapply psafe_bind; [by eapply codestring_reads|]. intros key st1 (Hr1 & Hf1 & Hp & Hk & Hc).
  destruct (ready_next _ _ _ _ Hr1) as (st2 & Hn & Hr2 & Ef & Ep & Ec). eapply psafe_eq; [exact Hn|]. apply psafe_ret.
  split; [done|eapply frame_trans; [exact Hf1|by apply frame_next]|]. rewrite Ef. split; [done|]. split; [by rewrite not_numeral by congruence|]. by exists [], [], J.
Qed.

Lemma number_reads st P J env r x ts : starts st P J env (SNumber r) (x :: ts) ->
  psafe (let! r := token_r in do! next in pret (exp_nval r (init_exp VKNUM 0))) st (fun v st' => parsed st P J (resolved env (SNumber r)) (x :: ts) v st').
Proof.
  intros Hst. pose proof Hst as [Hr _ Hwf Hok _]. cbn [toks app resolved] in *. destruct (ready_tok _ _ _ Hr) as [_ Es].
  apply (psafe_eq _ _ st r st); [unfold token_r, pbind, the; cbn [lbind lret]; by rewrite Es|].
  eapply (leaf_reads st P J env (SNumber r)); [exact Hst|done|]. apply leaf_goal; try done. cbn [expr_ok] in Hok. by apply number_okb_iff.
Qed.

(** The first token of a primary expression. *)
Lemma primary_first e : is_primary e = true -> prec_ok 0 e = true -> exists y ts, toks e = y :: ts /\ (tok_kind y = TK_NAME \/ tok_kind y = ch "(").
Proof.
  induction e; try done; intros _ Hprec; cbn [prec_ok toks] in *.
  - by exists (TNam x), []; auto.
  - apply andb_true_iff in Hprec as [H1 H2]. destruct (IHe H1 H2) as (y & ts & -> & Hy). by exists y, (ts ++ [Punct (ch "."); TNam x]).
  - apply andb_true_iff in Hprec as [[H1 H2]%andb_true_iff _]. destruct (IHe1 H1 H2) as (y & ts & -> & Hy). by eexists y, _.
  - eexists (Punct (ch "(")), _. split; [done|by right].
Qed.

Definition is_binop (e : sexpr) : bool := match e with SBinop _ _ _ => true | _ => false end.

Lemma unop_reads op e st P J env x ts : lo <= nCcalls st -> prec_ok 0 (SUnop op e) = true -> stops (edge (SUnop op e)) x ->
  starts st P J env (SUnop op e) (x :: ts) ->
  psafe (do! next in let! r := rec UNARY_PRIORITY in K (luaK_prefix numpow op r.2)) st (fun v st' => parsed st P J (resolved env (SUnop op e)) (x :: ts) v st').
Proof using Hrec H0.
  intros Hlo Hprec Hx [Hr Hs Hwf Hok Hcalls]. cbn [toks app names resolved edge] in *.
  assert (exists y ts', toks e ++ x :: ts = y :: ts') as (y & ts' & Ey) by (destruct (toks e); by eauto).
  rewrite Ey in Hr. destruct (ready_next _ _ _ _ Hr) as (st1 & Hn & Hr1 & Ef & Ep & Ec). rewrite <- Ey in Hr1. eapply psafe_eq; [exact Hn|].
  assert (frame st st1) as Hf1 by by apply frame_next.
  eapply psafe_bind.
  { eapply (Hrec e UNARY_PRIORITY st1 x ts P J env); [by rewrite Ec|by destruct op|exact Hx|]. split; [done| |by rewrite Ef| |by rewrite Ec].
    - eapply Forall_impl; [exact Hs|]. intros z. apply in_scope_frame; [done|by rewrite Ef].
    - rewrite Ef. cbn [expr_ok] in Hok. by apply andb_true_iff in Hok as [? _]. }
  intros [o v] st2 [_ Hp]. cbn [snd] in *. eapply (parsed_K _ _ _ _ _ _ _ _ (fun v g => goal (gen (fs st1)) P J (EUnop op (resolved env e)) v g)); [exact Hp|..].
  - intros g Hg. eapply unop_goal; [by rewrite Ef|done|by rewrite Ef].
  - intros v' st3 Hg Hf Hr3. rewrite Ef in Hg. split; [done|by eapply frame_trans|done].
Qed.

Lemma operand_reads e st P J env x ts : lo <= nCcalls st -> is_binop e = false -> prec_ok 0 e = true -> stops (edge e) x ->
  starts st P J env e (x :: ts) -> psafe (LGrammar.operand rec rc) st (fun v st' => parsed st P J (resolved env e) (x :: ts) v st').
Proof using Hrec H0.
  intros Hlo Hnb Hprec Hx Hst. pose proof (starts_ready _ _ _ _ _ _ Hst) as Hr. pose proof (starts_wf _ _ _ _ _ _ Hst) as Hwf.
  destruct (is_primary e) eqn:Hprim.
  - destruct (primary_first e Hprim Hprec) as (y & ts' & Et & Hy). rewrite Et in Hr. unfold LGrammar.operand.
    eapply tok_is; [exact Hr|]. assert (getunopr (tok_kind y) = OPR_NOUNOPR) as -> by (destruct Hy as [-> | ->]; done).
    unfold simpleexp. eapply tok_is; [exact Hr|]. destruct Hy as [-> | ->]; compare_tokens; (eapply primaryexp_reads; [done|done|done|apply Hx|done]).
  - unfold LGrammar.operand. destruct e; try done; cbn [toks app] in Hr; (eapply tok_is; [exact Hr|]; cbn [tok_kind]).
    1-5: match goal with |- context [getunopr ?c] => change (getunopr c) with OPR_NOUNOPR end; unfold simpleexp; eapply tok_is; [exact Hr|]; cbn [tok_kind]; compare_tokens.
    1-3: eapply leaf_reads; [exact Hst|done|by apply leaf_goal].
    + by apply number_reads.
    + by apply string_reads.
    + assert (op <> OPR_NOUNOPR) as Hop by (by intros ->). rewrite getunopr_tok by done. pose proof (unop_reads op e st P J env x ts Hlo Hprec Hx Hst) as Hu. by destruct op.
Qed.

(** *** Operators *)
Definition then_operators (st : Parser) (P J : list Z) (env : bytes -> Z) (e : sexpr) (x : stok) (ts : list stok) (limit : Z)
    (R : BinOpr * expdesc -> Parser -> Prop) : Prop :=
  forall v n st', parsed st P J (resolved env e) (x :: ts) v st' -> (length (x :: ts) <= S n)%nat -> psafe (operators_from rec n limit v) st' R.
(** From the first operand on to any place behind [e]. *)
Definition spine_reads (e : sexpr) : Prop := forall limit n st P J env x ts (R : BinOpr * expdesc -> Parser -> Prop),
  lo <= nCcalls st -> prec_ok limit e = true -> stops (edge e) x -> starts st P J env e (x :: ts) -> (length (toks e ++ x :: ts) <= S n)%nat ->
  then_operators st P J env e x ts limit R -> psafe (let! v := LGrammar.operand rec rc in operators_from rec n limit v) st R.

Lemma prec_ok_limit l l' e : is_binop e = false -> prec_ok l e = prec_ok l' e.
Proof. by destruct e. Qed.
Lemma single_spine e : is_binop e = false -> spine_reads e.
Proof using Hrec H0.
  intros Hnb limit n st P J env x ts R Hlo Hprec Hx Hst Hlen Hthen. rewrite (prec_ok_limit _ 0 e Hnb) in Hprec.
  eapply psafe_bind; [by eapply operand_reads|]. intros v st' Hp. eapply Hthen; [done|]. rewrite length_app in Hlen. lia.
Qed.

Lemma binop_spine op a b : spine_reads a -> spine_reads (SBinop op a b).
Proof using Hrec H0.
  intros IH limit n st P J env x ts R Hlo Hprec Hx Hst Hlen Hthen. cbn [prec_ok edge] in *. destruct (priority op) as [[l r]|] eqn:Hprio; [|done].
  apply andb_true_iff in Hprec as [[[Hll Ha]%andb_true_iff Hl]%andb_true_iff Hb].
  assert (toks (SBinop op a b) ++ x :: ts = toks a ++ Punct (binop_tok op) :: toks b ++ x :: ts) as Et by (cbn; by rewrite <- app_assoc).
  pose proof Hst as [Hr Hs Hwf Hok Hcalls]. rewrite Et in *. cbn [names resolved] in *. apply Forall_app in Hs as [Hsa Hsb].
  assert (op <> OPR_NOBINOPR) as Hop by (by intros ->). pose proof Hok as Hok'. cbn [expr_ok] in Hok'. apply andb_true_iff in Hok' as [[Hoka Hokb]%andb_true_iff Hokop].
  assert (is_Some (class_of op)) as Hclass by (destruct op; try done; eauto).
  eapply (IH limit n st P J env (Punct (binop_tok op)) (toks b ++ x :: ts)); [done|done| |by split|done|].
  { eapply stops_mono; [|by eapply binop_stops]. lia. }
  intros v n' st' Hp Hlen'. unfold operators_from. eapply tok_is; [apply Hp|]. cbn [tok_kind]. rewrite getbinopr_tok by done.
  destruct n' as [|n']; [cbn in Hlen'; rewrite length_app in Hlen'; cbn in Hlen'; pose proof (toks_length b); lia|]. cbn [operators]. rewrite Hprio, Hll.
  assert (exists y ts', toks b ++ x :: ts = y :: ts') as (y & ts' & Ey) by (destruct (toks b); by eauto).
  rewrite Ey in Hp. destruct (parsed_next _ _ _ _ _ _ _ _ _ Hp) as (st1 & Hn & Hp1). rewrite <- Ey in Hp1. eapply psafe_eq; [exact Hn|].
  eapply psafe_bind.
  { eapply (parsed_K _ _ _ _ _ _ _ _ (fun v g => exists P' J', waiting op (gen (fs st)) P J (resolved env a) v g P' J')); [exact Hp1|..].
    - intros g Hg. by eapply infix_goal.
    - intros v1 st2 Hw Hf2 Hr2. exact (conj Hw (conj Hf2 Hr2)). }
  intros v1 st2 ((P1 & J1 & Hw) & Hf2 & Hr2). pose proof Hw as (Hwf2 & Hn2 & _).
  eapply psafe_bind.
  { eapply (Hrec b r st2 x ts P1 J1 env); [by rewrite (frame_calls _ _ Hf2)|done|exact Hx|]. split; [done| |done|by rewrite Hn2|by rewrite (frame_calls _ _ Hf2)].
    eapply Forall_impl; [exact Hsb|]. intros z. by apply in_scope_frame. }
  intros [o v2] st3 [Ho Hp3]. cbn [fst snd] in *. subst o. eapply psafe_bind.
  { eapply (parsed_K _ _ _ _ _ _ _ _ (fun v g => goal (gen (fs st)) P J (EBinop op (resolved env a) (resolved env b)) v g)); [exact Hp3|..].
    - intros g Hg. by eapply posfix_goal.
    - intros v3 st4 Hg Hf4 Hr4. exact (conj Hg (conj Hf4 Hr4)). }
  intros v3 st4 (Hg & Hf4 & Hr4). assert (parsed st P J (EBinop op (resolved env a) (resolved env b)) (x :: ts) v3 st4) as Hp4 by (split; [done|by eapply frame_trans|done]).
  assert ((length (x :: ts) <= S n')%nat) as Hlen2 by (cbn [length] in Hlen' |- *; rewrite length_app in Hlen'; cbn [length] in Hlen'; lia).
  specialize (Hthen v3 n' st4 Hp4 Hlen2). unfold operators_from, psafe, pbind, tok, the in Hthen. cbn [lbind lret] in Hthen.
  destruct (ready_tok _ _ _ Hr4) as [E _]. by rewrite E in Hthen.
Qed.
Lemma spine_all e : spine_reads e.
Proof using Hrec H0. induction e; try by apply single_spine. by apply binop_spine. Qed.
End Level.

(** ** All levels *)
Lemma level_reads lo rec rc : reads_as (lo + 1) rec -> reads_as lo (subexpr_level rec rc).
Proof.
  intros Hrec e limit st x ts P J env Hlo Hprec Hx Hst. pose proof Hst as [Hr Hs Hwf Hok Hcalls].
  unfold subexpr_level, psafe, pbind at 1, enterlevel. cbn [set_nCcalls nCcalls]. destruct (Z.ltb_spec LUAI_MAXCCALLS (nCcalls st + 1)) as [|Hn]; [done|]. cbn [lbind lret].
  set (st0 := set_nCcalls (nCcalls st + 1) st).
  assert (starts st0 P J env e (x :: ts)) as Hst0 by (split; try done; by destruct Hr).
  eapply psafe_eq; [done|]. unfold psafe. rewrite <- pbind_assoc.
  eapply (psafe_bind (fun r st' => r.1 = getbinopr (tok_kind x) /\ parsed st0 P J (resolved env e) (x :: ts) r.2 st')).
  - eapply (spine_all (lo + 1) rec rc Hrec e limit); [cbn; lia|done|eapply stops_mono; [|exact Hx]; lia|exact Hst0|exact (ready_turns _ _ (starts_ready _ _ _ _ _ _ Hst0))|].
    intros v n st' Hp _. unfold operators_from. eapply tok_is; [apply Hp|].
    assert (stops limit x) as [Hl _] by (eapply stops_mono; [|exact Hx]; lia).
    unfold psafe. destruct n; cbn [operators]; (destruct (priority (getbinopr (tok_kind x))) as [[l r]|]; [assert ((limit <? l) = false) as -> by lia|]); done.
  - intros [o v] st' [Ho [Hr' [Hf1 Hf2 Hf3 Hf4] Hg]]. cbn [fst snd] in *. eapply psafe_eq; [done|]. apply psafe_ret. split; [done|]. split; [by destruct Hr'| |done].
    split; [done|done| |done]. cbn. rewrite Hf3. cbn. lia.
Qed.

Lemma rules_read m : reads_as (LUAI_MAXCCALLS + 1 - Z.of_nat m) (rules m).1.
Proof.
  induction m as [|m IH].
  - intros e limit st x ts P J env Hlo _ _ [_ _ _ _ Hc]. lia.
  - cbn [rules fst]. apply level_reads. by replace (LUAI_MAXCCALLS + 1 - Z.of_nat (S m) + 1) with (LUAI_MAXCCALLS + 1 - Z.of_nat m) by lia.
Qed.
Lemma subexpr_reads : reads_as 0 subexpr.
Proof. exact (rules_read LEVELS). Qed.
End Parse.
