(* ===== verification/LCompileRet.v ===== *)
(** * The code of a function that returns an expression

    The code of an expression between the empty function and the final returns: run by
    the interpreter, it returns what the expression means. *)
From stdpp Require Import base list option relations.
From Stdlib Require Import ZArith Lia ZifyBool String.
From S2P Require Import Prelude LObject LNum LOpcodes LProto LVm LVmProps LCode LCodeJumps LExpr LFinal LCompile LCompileExp LCompileReg LCompileVal LCompileOps LCompileCond LCompileBool LCompileLogic LCompileExpr.
#[local] Open Scope Z_scope.

(** The state with [n] parameters and no code yet, before they get their registers. *)
Definition fresh (h_addr line n : Z) : FuncState :=
  {| code := []; lineinfo := []; k := []; h := []; h_addr := h_addr; lasttarget := -1; jpc := NO_JUMP; freereg := 0; nactvar := n;
     maxstacksize := 2; lastline := line |}.

Section Ret.
Context {W : Type} `{CallsKeepFrame W}.

Lemma start_wf n h line : 0 <= n -> lsafe (luaK_reserveregs n (fresh h line n)) (fun fs =>
  wf fs [] [] /\ nactvar fs = n /\ pc fs = 0).
Proof.
  intros Hn. unfold luaK_reserveregs, luaK_checkstack. cbn [fresh maxstacksize freereg nactvar code lineinfo k LCode.h h_addr lasttarget jpc lastline].
  assert (forall m, n <= m < MAXSTACK -> let fs := with_freereg n {| code := []; lineinfo := []; k := []; h := []; h_addr := h; lasttarget := -1; jpc := NO_JUMP; freereg := 0; nactvar := n;
     maxstacksize := m; lastline := line |} in wf fs [] [] /\ nactvar fs = n /\ pc fs = 0) as Hwf.
  { intros m Hm fs. split; [|done]. split; try done; cbn; try lia; try (by left).
    - split; constructor.
    - unfold code_at. intros i w. by destruct (i <? 0). }
  rewrite !Z.add_0_l. destruct (Z.ltb_spec 2 n).
  - destruct (Z.leb_spec MAXSTACK n) as [|Hm]; [done|]. cbn [lbind lret lsafe]. change MAXSTACK with 250 in *. assert (u8 n = n) as -> by (unfold uwrap; apply Z.mod_small; lia). apply (Hwf n). lia.
  - cbn [lbind lret lsafe]. change MAXSTACK with 250 in *. apply (Hwf 2). lia.
Qed.

(** The finished code. *)
Lemma agree_closed cl fs : cl_code cl = code fs -> cl_k cl = k fs -> maxstacksize fs <= MAXARG_A ->
  (forall w, code_at fs (pc fs - 1) = Some w -> is_op OP_LOADNIL w = false) -> agree cl (maxstacksize fs) fs (pc fs) [] [].
Proof.
  intros Ec Ek HM Hlast. split; [|by rewrite Ek|done|done]. intros i w Hi Hw. exists w.
  unfold instr_at. rewrite Ec. split; [exact Hw|].
  assert (role_of fs [] [] i w = Plain) as ->; [|done]. unfold role_of.
  rewrite !(bool_decide_eq_false_2 (_ ∈ [])) by apply not_elem_of_nil. destruct (is_op OP_TESTSET w); [done|].
  unfold last_nil. destruct (Z.eqb_spec (i + 1) (pc fs)) as [E|]; [|by rewrite ?andb_false_r]. by replace i with (pc fs - 1) in Hw by lia; rewrite (Hlast _ Hw).
Qed.

Lemma return_fields r b : 0 <= r <= MAXARG_A -> 0 <= b <= MAXARG_B -> let i := CREATE_ABC (of_opcode OP_RETURN) r b 0 in
  GET_OPCODE i = of_opcode OP_RETURN /\ GETARG_A i = r /\ GETARG_B i = b /\ is_op OP_LOADNIL i = false.
Proof.
  intros Hr Hb i. destruct (create_abc_fields OP_RETURN r b 0 Hr Hb ltac:(done)) as (Ho & Ha & Hb' & _). split; [done|]. split; [done|]. split; [done|].
  unfold is_op. change (GET_OPCODE i) with (GET_OPCODE (CREATE_ABC (of_opcode OP_RETURN) r b 0)). by rewrite Ho.
Qed.

Lemma ret_spec fs J r nret : wf fs [] J -> 0 <= r <= MAXARG_A -> 0 <= nret + 1 <= MAXARG_B ->
  lsafe (luaK_ret r nret fs) (fun fs' => extended J [CREATE_ABC (of_opcode OP_RETURN) r (nret + 1) 0] fs fs' /\ wf fs' [] []).
Proof.
  intros Hwf Hr Hb. unfold luaK_ret. eapply lsafe_bind; [by eapply luaK_codeABC_spec|]. intros [p fs1] [_ He]. cbn [lsafe lret]. split; [done|].
  eapply ext_wf; [exact He|done|done|]. intros w ->%list_elem_of_singleton Hnil. destruct (return_fields r (nret + 1)) as (_ & _ & _ & E); [done..|]. congruence.
Qed.

(** The same code and constants for another state of the registers. *)
Record same_words (fs fs' : FuncState) : Prop := {
  words_code : code fs' = code fs;
  words_k : k fs' = k fs;
  words_target : lasttarget fs' = lasttarget fs;
  words_stack : maxstacksize fs' = maxstacksize fs;
}.
Lemma words_agree cl M fs fs' n P J : same_words fs fs' -> agree cl M fs' n P J -> agree cl M fs n P J.
Proof.
  intros [Ec Ek Et Es] Ha. destruct (same_code_at _ _ Ec) as [Hpc Hcode]. eapply agree_back; [done|done|by rewrite Ek|lia|].
  intros i w Hi Hw. exists w. rewrite Hcode. split; [done|]. intros w'. unfold role_of, last_nil. by rewrite Hpc, Et.
Qed.

(** The end of the function, behind the value in the register [r]: the RETURN of the
    statement and the final one. *)
Lemma epilogue fs J r fs1 fs2 fs3 : wf fs [] J -> 0 <= r <= MAXARG_A ->
  extended J [CREATE_ABC (of_opcode OP_RETURN) r 2 0] fs fs1 -> wf fs1 [] [] -> same_words fs1 fs2 -> wf fs2 [] [] ->
  extended [] [CREATE_ABC (of_opcode OP_RETURN) 0 1 0] fs2 fs3 -> maxstacksize fs3 = maxstacksize fs /\
    forall cl, cl_code cl = code fs3 -> cl_k cl = k fs3 -> agree cl (maxstacksize fs3) fs (pc fs) [] J /\
      instr_at cl (pc fs) = Some (CREATE_ABC (of_opcode OP_RETURN) r 2 0).
Proof.
  intros Hwf Hr H1 Hwf1 Hw12 Hwf2 H3. pose proof (ext_rest _ _ _ _ H1) as R1. pose proof (ext_rest _ _ _ _ H3) as R3.
  pose proof (wf_stack _ _ _ Hwf) as Hst. change MAXSTACK with 250 in Hst. destruct (same_code_at _ _ (words_code _ _ Hw12)) as [P2 C2].
  assert (maxstacksize fs3 = maxstacksize fs) as Hms by (rewrite (same_stack _ _ R3), (words_stack _ _ Hw12); exact (same_stack _ _ R1)). split; [done|]. intros cl Ec Ek.
  destruct (ext_last _ _ _ _ H3) as [P3 W3]. destruct (ext_last _ _ _ _ H1) as [P1 W1].
  assert (agree cl (maxstacksize fs3) fs3 (pc fs3) [] []) as Ha3.
  { apply agree_closed; [done|done|change MAXARG_A with 255; lia|].
    intros w. replace (pc fs3 - 1) with (pc fs2) by lia. rewrite W3. intros [= <-]. by destruct (return_fields 0 1) as (_ & _ & _ & ?). }
  assert (agree cl (maxstacksize fs3) fs1 (pc fs1) [] []) as Ha1.
  { eapply words_agree; [exact Hw12|]. rewrite <- P2. eapply ext_agree_old; [exact H3|done|exact Ha3|lia|done]. }
  split; [eapply ext_agree_old; [exact H1|done|exact Ha1|lia|done]|].
  unfold instr_at. rewrite Ec. assert (code_at fs3 (pc fs) = Some (CREATE_ABC (of_opcode OP_RETURN) r 2 0)) as E; [|exact E].
  rewrite <- C2 in W1. rewrite (ext_word _ _ _ _ H3 _ _ W1). unfold patch_word. by rewrite !(bool_decide_eq_false_2 (_ ∈ [])), ?andb_false_r by apply not_elem_of_nil.
Qed.

(** What the run of a closure from the registers [s] should be, for the outcome of the
    expression: [None] is the exhaustion of the fuel of the callbacks. *)
Definition runs_to (cl : lclosure) (s : registers) (w : W) (m : LuaM (tvalue * W)) : Prop :=
  match m with
  | Some (Return (v, w')) => exists s' p i, reaches cl (at_ s 0 w) (at_ s' p w') /\ instr_at cl p = Some i /\ GET_OPCODE i = of_opcode OP_RETURN /\
      GETARG_B i = 2 /\ rget s' (GETARG_A i) = Some v /\ length s' = length s
  | Some (Error msg) => fails cl (at_ s 0 w) msg
  | None => True
  end.

(** The code of [ex] in front of a RETURN. *)
Lemma return_runs fs0 n ex e fs J cl M s w : wf fs0 [] [] -> nactvar fs0 = n -> pc fs0 = 0 -> compiled fs0 [] [] fs e [] [] J (value_of ex) -> in_reg fs0 e ->
  agree cl M fs (pc fs) [] J -> instr_at cl (pc fs) = Some (CREATE_ABC (of_opcode OP_RETURN) (info e) 2 0) -> 0 <= info e <= MAXARG_A ->
  Z.of_nat (length s) = M -> (forall j, n <= j < M -> rget s j = Some TNil) -> runs_to cl s w (eval (cl_env cl) ex s w).
Proof.
  intros Hwf0 En Epc [Hc _ _ _ _] Hin Ha Hret Hr Hl Hnil. assert (e_k e = VNONRELOC) as Ek by apply Hin.
  assert (width e = 0) as Hw0 by (unfold width; by rewrite Ek). rewrite Hw0, Z.sub_0_r in Hc. destruct (coded_sem _ _ _ _ _ _ _ _ _ _ Hc cl M Ha) as [_ Hsem].
  assert (clean cl M fs0 s) as Hclean.
  { intros _. split; [intros _; by rewrite En|]. intros x x' Hx' _. apply code_at_bounds in Hx'. lia. }
  specialize (Hsem s w Hl Hclean). rewrite Epc in Hsem. change (value_of ex cl s w) with (eval (cl_env cl) ex s w) in Hsem.
  destruct Hsem as [[->|(msg & -> & Hf)]|[Hex|[Hex|Harr]]]; [done|exact Hf|by destruct Hex as (j & ? & ? & ? & ? & Hj & _); apply not_elem_of_nil in Hj..|].
  destruct Harr as (s' & w' & Hreach & [Hlen _] & _ & <-). unfold main_of. rewrite Ek. destruct (rget s' (info e)) as [v|] eqn:Ev; [|done].
  destruct (return_fields (info e) 2) as (Ho & HA & HB & _); [done..|].
  exists s', (pc fs), (CREATE_ABC (of_opcode OP_RETURN) (info e) 2 0). by rewrite HA, HB, Hlen.
Qed.
End Ret.

(** ** Two places where the generator is wrong *)

(** [addk] looks a constant up by its value, so that -0 shares the place of 0. *)
Lemma zero_constants_shared : match (let* (i, fs) := luaK_numberK 0 (fresh 1 1 0) in let* (j, fs) := luaK_numberK (2 ^ 63) fs in lret (i, j, k fs)) with
  | Some (Return (i, j, ks)) => i = j /\ ks = [TNumber 0]
  | _ => False
  end.
Proof. vm_compute. done. Qed.

(** The count behind a SETLIST of block 539 looks like a TESTSET: it is patched with
    the jump that follows, to 26. *)
Lemma setlist_count_overwritten : match (let* fs := luaK_setlist 0 26950 50 (fresh 1 1 0) in let* (j, fs') := luaK_jump fs in let* fs' := luaK_patchlist j 0 fs' in lret (code fs, code fs')) with
  | Some (Return (before, after)) => before !! 1%nat = Some 539 /\ after !! 1%nat = Some 26
  | _ => False
  end.
Proof. vm_compute. done. Qed.
