(* ===== verification/LParseRet.v ===== *)
(** * Compiled functions return their values

    From the tokens of [return e] to a function whose code, run by the interpreter,
    returns the value of [e]: the whole of the parser for a main program, and for a
    function with parameters. *)
From stdpp Require Import base list option relations.
From Stdlib Require Import ZArith Lia ZifyBool.
From S2P Require Import Prelude LObject LNum LOpcodes LProto LZio LLex LLexProps LLexRead LVm LVmProps LCode LCodeJumps LCodePool LParser LGrammar LExpr LSyntax LFinal LCompile LCompileExp LCompileReg LCompileVal LCompileOps LCompileCond LCompileBool LCompileLogic LCompileExpr LParseExpr LCompileRet.
#[local] Open Scope Z_scope.

(** ** Tokens behind and inside of an expression *)
Lemma toks_no_end e : Forall (fun x => tok_kind x <> TK_EOS) (toks e).
Proof. induction e; cbn [toks]; rewrite ?Forall_app, ?Forall_cons; cbn [tok_kind]; split_and?; try done; try (by destruct op); by rewrite Forall_app, Forall_cons. Qed.
Lemma toks_first e : exists y ts, toks e = y :: ts /\ block_follow (tok_kind y) = false /\ tok_kind y <> ch ";".
Proof.
  induction e; cbn [toks]; try (eexists _, _; split; [reflexivity|]; by try destruct op);
    [destruct IHe as (y & ts & -> & Hy)|destruct IHe1 as (y & ts & -> & Hy)|destruct IHe1 as (y & ts & -> & Hy)]; by eexists y, _.
Qed.
Lemma ends_once_app l x ts : Forall (fun x => tok_kind x <> TK_EOS) l -> ends_once (x :: ts) = true -> ends_once (l ++ x :: ts) = true.
Proof.
  intros Hl He. induction Hl as [|y l Hy Hl IH]; [exact He|]. cbn [app ends_once]. destruct (l ++ x :: ts) as [|z r] eqn:E; [by destruct l|].
  rewrite <- E. apply andb_true_iff. split; [by apply negb_true_iff, Z.eqb_neq|by rewrite E].
Qed.

Section Ret.
Context {W : Type} `{CallsKeepFrame W}.
Variable strtod : bytes -> Z * nat.
Variable strtoul16 : bytes -> Z * nat.
Variable decimal_point : Z.
#[local] Hint Extern 0 CLibrary => exact (lib strtod strtoul16 decimal_point) : typeclass_instances.

(** The function has been given the code of [return ex], from the state [g0] on. *)
Definition returned (g0 : FuncState) (ex : expr) (g' : FuncState) : Prop := exists v g J g1,
  compiled g0 [] [] g v [] [] J (value_of ex) /\ in_reg g0 v /\ 0 <= info v <= MAXARG_A /\
  extended J [CREATE_ABC (of_opcode OP_RETURN) (info v) 2 0] g g1 /\ wf g1 [] [] /\ same_words g1 g' /\ wf g' [] [].

(** The tokens that may follow. *)
Definition ends_chunk (x : stok) : Prop := block_follow (tok_kind x) = true /\ tok_kind x <> ch "," /\ tok_kind x <> ch ";" /\ forall l, stops l x.

Lemma tok_not st x ts c {A} (f : bool -> P A) (R : A -> Parser -> Prop) : ready st (x :: ts) -> tok_kind x <> c -> psafe (f false) st R -> psafe (pbind (testnext c) f) st R.
Proof.
  intros Hr Hc Hf. destruct (ready_tok _ _ _ Hr) as [E _]. unfold psafe, testnext, pbind, tok, the in *. cbn [lbind lret]. rewrite E.
  assert ((tok_kind x =? c) = false) as -> by lia. exact Hf.
Qed.

Lemma not_multret fs P J fs' v T F K m : compiled fs P J fs' v T F K m -> hasmultret (e_k v) = false.
Proof. intros [_ _ _ Hok _]. unfold exp_ok in Hok. by destruct (e_k v). Qed.

(** [retstat], in front of a token that ends the chunk. *)
Lemma retstat_reads lo rec e st x ts env : reads_as strtod strtoul16 decimal_point lo rec -> lo <= nCcalls st -> prec_ok 0 e = true -> ends_chunk x ->
  ready st (Punct TK_RETURN :: toks e ++ x :: ts) -> Forall (in_scope st env) (names e) -> wf (gen (fs st)) [] [] ->
  expr_ok (nactvar (gen (fs st))) (resolved env e) = true -> nCcalls st <= LUAI_MAXCCALLS ->
  psafe (retstat rec) st (fun _ st' => ready st' (x :: ts) /\ frame st st' /\ nactvar (gen (fs st')) = nactvar (gen (fs st)) /\ returned (gen (fs st)) (resolved env e) (gen (fs st'))).
Proof.
  intros Hrec Hlo Hprec (Hbf & Hcomma & Hsemi & Hstop) Hr Hs Hwf Hok Hcalls. unfold retstat. destruct (toks_first e) as (y & ts' & Et & Hy1 & Hy2).
  rewrite Et in Hr. destruct (ready_next _ _ _ _ Hr) as (st1 & Hn & Hr1 & Ef & Ep & Ec). eapply psafe_eq; [exact Hn|].
  eapply tok_is; [exact Hr1|]. rewrite Hy1. assert ((tok_kind y =? ch ";") = false) as -> by lia. cbn [orb].
  assert (frame st st1) as Hf1 by by apply frame_next. assert (ready st1 (toks e ++ x :: ts)) as Hr1' by (rewrite Et; exact Hr1).
  pose proof (wf_nactvar _ _ _ Hwf) as Hna. unfold psafe. rewrite pbind_assoc. unfold explist1, psafe. rewrite pbind_assoc.
  eapply psafe_bind; [eapply (expr_reads strtod strtoul16 decimal_point lo rec Hrec e st1 x ts [] [] env); [by rewrite Ec|done|exact Hstop|]|].
  { split; [done| |by rewrite Ef|by rewrite Ef|by rewrite Ec]. eapply Forall_impl; [exact Hs|]. intros z. apply in_scope_frame; [done|by rewrite Ef]. }
  intros v st2 Hp. unfold psafe. rewrite pbind_assoc. eapply psafe_eq; [done|]. destruct (LLex.turns (ls st2)) as [|n] eqn:En; [done|]. cbn [explist_loop].
  unfold psafe. rewrite pbind_assoc. eapply tok_not; [apply Hp|done|]. eapply psafe_eq; [done|]. unfold psafe. rewrite pbind_assoc. eapply psafe_eq; [done|].
  assert (hasmultret (e_k v) = false) as -> by (pose proof Hp as [_ _ (_ & _ & T & F & J1 & H1)]; by eapply not_multret).
  change (1 =? 1) with true. unfold psafe. rewrite pbind_assoc. eapply psafe_bind; [eapply (anyreg_reads strtod strtoul16 decimal_point st1); [by rewrite Ef|exact Hp]|].
  intros v1 st3 (Hr3 & Hf3 & Hin & J & Hc). rewrite Ef in *. eapply psafe_eq; [done|].
  destruct (compiled_wf _ _ _ _ _ _ _ _ _ Hc) as (Hwf3 & Hn3 & _). cbn [app] in Hwf3. pose proof (in_reg_operand _ _ _ _ _ _ _ Hc Hin ltac:(lia)) as Hx.
  pose proof (wf_freereg _ _ _ Hwf3) as Hfr. pose proof (wf_stack _ _ _ Hwf3) as Hst. change MAXSTACK with 250 in Hst.
  assert (e_k v1 = VNONRELOC) as Ek by apply Hin. assert (0 <= info v1 < freereg (gen (fs st3))) as Hreg by (destruct Hx as [(_ & _ & Hx) _]; by rewrite Ek in Hx).
  assert (0 <= info v1 <= MAXARG_A) as HA by (change MAXARG_A with 255; lia).
  unfold K_. eapply (psafe_K _ _ (fun _ g1 => extended J [CREATE_ABC (of_opcode OP_RETURN) (info v1) (1 + 1) 0] (with_lastline (LLex.lastline (ls st3)) (gen (fs st3))) g1 /\ wf g1 [] [])).
  - eapply lsafe_bind; [eapply (ret_spec _ J (info v1) 1); [by apply line_wf|done|done]|]. intros g1 [He Hwf1]. cbn [lsafe lret].
    exact (conj He Hwf1).
  - intros [] st4 [He Hwf4] Hf4 El. split; [by eapply ready_same|]. split; [eapply frame_trans; [exact Hf1|by eapply frame_trans]|].
    split; [rewrite (same_nactvar _ _ (ext_rest _ _ _ _ He)); exact Hn3|].
    eexists v1, _, J, (gen (fs st4)). split; [by apply line_compiled|]. do 2 (split; [done|]). split; [exact He|]. split; [done|]. by split.
Qed.

Lemma returned_words g0 ex g g' : returned g0 ex g -> same_words g g' -> wf g' [] [] -> returned g0 ex g'.
Proof.
  intros (v & ge & J & g1 & Hc & Hin & Hr & He & Hw1 & [E1 E2 E3 E4] & _) [F1 F2 F3 F4] Hwf. exists v, ge, J, g1. do 5 (split; [done|]).
  split; [|done]. split; congruence.
Qed.

(** Registers above the variables are freed behind a statement. *)
Lemma free_words g l : wf g [] [] -> let g' := with_freereg (nactvar g) (with_lastline l g) in same_words g g' /\ wf g' [] [].
Proof.
  intros Hwf g'. split; [done|]. pose proof (wf_nactvar _ _ _ Hwf). apply (with_freereg_wf (nactvar g) (with_lastline l g)); [by apply line_wf|cbn; lia].
Qed.

(** The preconditions of a chunk that is a return statement. *)
Record returning (st : Parser) (env : bytes -> Z) (e : sexpr) (x : stok) (ts : list stok) : Prop := {
  rt_prec : prec_ok 0 e = true;
  rt_ends : ends_chunk x;
  rt_ready : ready st (Punct TK_RETURN :: toks e ++ x :: ts);
  rt_scope : Forall (in_scope st env) (names e);
  rt_wf : wf (gen (fs st)) [] [];
  rt_ok : expr_ok (nactvar (gen (fs st))) (resolved env e) = true;
}.

Lemma chunk_reads m e st x ts env : LUAI_MAXCCALLS + 1 - Z.of_nat m <= nCcalls st <= LUAI_MAXCCALLS -> returning st env e x ts ->
  psafe (rules m).2 st (fun _ st' => ready st' (x :: ts) /\ frame st st' /\ nactvar (gen (fs st')) = nactvar (gen (fs st)) /\ returned (gen (fs st)) (resolved env e) (gen (fs st'))).
Proof.
  intros Hm [Hprec Hends Hr Hs Hwf Hok]. destruct m as [|m]; [lia|]. cbn [rules snd]. unfold chunk_level, psafe, pbind at 1, enterlevel. cbn [set_nCcalls nCcalls].
  destruct (Z.ltb_spec LUAI_MAXCCALLS (nCcalls st + 1)) as [|Hn]; [done|]. cbn [lbind lret]. set (st0 := set_nCcalls (nCcalls st + 1) st).
  eapply psafe_eq; [done|]. eapply (psafe_bind (fun _ st' => ready st' (x :: ts) /\ frame st0 st' /\ nactvar (gen (fs st')) = nactvar (gen (fs st)) /\ returned (gen (fs st)) (resolved env e) (gen (fs st')))).
  - assert (ready st0 (Punct TK_RETURN :: toks e ++ x :: ts)) as Hr0 by (by destruct Hr).
    destruct (LLex.turns (ls st0)) as [|n] eqn:En; [done|]. cbn [statements]. eapply tok_is; [exact Hr0|]. cbn [tok_kind]. change (false || block_follow TK_RETURN) with false.
    unfold statement. unfold psafe. rewrite pbind_assoc. eapply psafe_eq; [done|]. unfold psafe. rewrite pbind_assoc. eapply tok_is; [exact Hr0|]. cbn [tok_kind]. compare_tokens.
    unfold psafe. rewrite pbind_assoc. eapply psafe_bind.
    { eapply (retstat_reads _ (rules m).1 e st0 x ts env); [apply rules_read|cbn; lia|done|done|done|exact Hs|done|done|cbn; lia]. }
    intros [] st1 (Hr1 & Hf1 & Hn1 & Hret). eapply psafe_eq; [done|]. eapply tok_not; [exact Hr1|by destruct Hends as (_ & _ & ? & _)|].
    assert (wf (gen (fs st1)) [] []) as Hwf1 by (destruct Hret as (? & ? & ? & ? & _ & _ & _ & _ & _ & _ & ?); done).
    eapply psafe_bind.
    { unfold free_to_nactvar, upd_gen, K_. eapply (psafe_K _ _ (fun _ g => g = with_freereg (nactvar (gen (fs st1))) (with_lastline (LLex.lastline (ls st1)) (gen (fs st1))))); [done|].
      intros a st2 Hg Hf2 El. exact (conj Hg (conj Hf2 El)). }
    intros a st2 (Hg & Hf2 & El). assert (ready st2 (x :: ts)) as Hr2 by by eapply ready_same.
    assert (psafe (statements (rules m).1 (rules m).2 n true) st2 (fun _ st' => st' = st2)) as Hend.
    { destruct n; cbn [statements]; (eapply tok_is; [exact Hr2|]); by apply psafe_ret. }
    eapply psafe_mono; [exact Hend|]. intros b st' ->. destruct (free_words _ (LLex.lastline (ls st1)) Hwf1) as [Hw Hwf2]. rewrite <- Hg in Hw, Hwf2.
    split; [done|]. split; [by eapply frame_trans|]. split; [rewrite Hg; exact Hn1|]. by eapply returned_words.
  - intros [] st' (Hr' & [Hf1 Hf2 Hf3 Hf4] & Hn' & Hret). unfold psafe, leavelevel, upd. cbn [lsafe lret]. split; [by destruct Hr'|]. split; [|done]. split; [done|done| |done]. cbn. rewrite Hf3. cbn. lia.
Qed.

(** ** Prototypes and their closures *)
Lemma str_of_inj a b s : str_of a = Some s -> str_of b = Some s -> a = b.
Proof.
  unfold str_of. intros Ha Hb. destruct a as [|p|]; try done. destruct b as [|q|]; try done.
  destruct (decode p) as [x|]; [|done]. destruct (decode q) as [y|]; [|done]. cbn in Ha, Hb.
  destruct (Z.eqb_spec (str_addr x) (Z.pos p)); [|done]. destruct (Z.eqb_spec (str_addr y) (Z.pos q)); [|done]. congruence.
Qed.
Lemma kvalue_of_inj v v' x : kvalue_of v = Some x -> kvalue_of v' = Some x -> v = v'.
Proof.
  destruct v as [| |?|?|[] ?|?], v' as [| |?|?|[] ?|?]; cbn; try congruence; repeat match goal with |- context [str_of ?a] => destruct (str_of a) eqn:?; cbn end; try congruence.
  intros. simplify_eq. f_equal. by eapply str_of_inj.
Qed.
Lemma kvalues_inj l l' ks : mapM kvalue_of l = Some ks -> mapM kvalue_of l' = Some ks -> l = l'.
Proof.
  rewrite !mapM_Some. intros H1. revert l'. induction H1 as [|v x l ks Hv H1 IH]; intros l' H2; inversion H2 as [|v' x' l2 ks' Hv' H2']; subst; [done|].
  f_equal; [by eapply kvalue_of_inj|by apply IH].
Qed.
Lemma kvalues_total g : pooled is_string g -> is_Some (mapM kvalue_of (k g)).
Proof.
  intros Hp. unfold pooled in Hp. apply mapM_is_Some. eapply Forall_impl; [exact Hp|]. intros v Hv.
  destruct v as [| |?|?|[] ?|?]; cbn in *; try done; try by eexists. destruct Hv as [s ->]. by eexists.
Qed.

(** The closure has the code and the constants of the prototype. *)
Definition closure_of (pt : Proto) (cl : lclosure) : Prop := cl_code cl = LProto.code pt /\ mapM kvalue_of (cl_k cl) = Some (LProto.k pt).

(** Every frame of a closure of [pt] whose registers behind the [n] parameters are nil
    runs to a RETURN of the value of [ex], or raises its error. *)
Definition computes (n : Z) (pt : Proto) (ex : expr) : Prop := forall cl s (w : W), closure_of pt cl -> Z.of_nat (length s) = LProto.maxstacksize pt ->
  (forall j, n <= j < LProto.maxstacksize pt -> rget s j = Some TNil) -> runs_to cl s w (eval (cl_env cl) ex s w).

(** [luaK_ret(fs, 0, 0)] behind the statement, and the prototype. *)
Lemma closed_computes g0 n ex g g' l f pt : wf g0 [] [] -> nactvar g0 = n -> pc g0 = 0 -> returned g0 ex g -> same_words g g' -> wf g' [] [] ->
  extended [] [CREATE_ABC (of_opcode OP_RETURN) 0 1 0] g' (gen f) -> proto_of l f = Some pt -> computes n pt ex.
Proof.
  intros Hwf0 En Epc (v & ge & J & g1 & Hc & Hin & Hr & He & Hw1 & Hs1 & _) Hs Hwf' He3 Hpt cl s w [Ec Ek] Hl Hnil.
  unfold proto_of in Hpt. destruct (mapM kvalue_of (k (gen f))) as [ks|] eqn:Eks; [|done]. cbn in Hpt. injection Hpt as <-. cbn in *.
  assert (cl_k cl = k (gen f)) as Ek' by (by eapply kvalues_inj).
  destruct (compiled_wf _ _ _ _ _ _ _ _ _ Hc) as (Hwfe & _ & _). cbn [app] in Hwfe.
  assert (same_words g1 g') as Hs' by (destruct Hs1, Hs; split; congruence).
  destruct (epilogue ge J (info v) g1 g' (gen f) Hwfe Hr He Hw1 Hs' Hwf' He3) as [Hms Hcl]. destruct (Hcl cl Ec Ek') as [Ha Hret].
  by eapply (return_runs g0 n ex v ge J cl).
Qed.
(** [close_func] of the outermost function, behind the return statement. *)
Lemma close_returns st g0 ex : prev st = [] -> nactvar (gen (fs st)) = 0 -> wf g0 [] [] -> nactvar g0 = 0 -> pc g0 = 0 -> returned g0 ex (gen (fs st)) ->
  pooled is_string (gen (fs st)) ->
  psafe close_func st (fun f st' => is_Some (proto_of (ls st') f) /\ forall pt, proto_of (ls st') f = Some pt ->
    computes 0 pt ex /\ numparams pt = f_numparams (fs st) /\ is_vararg pt = f_is_vararg (fs st)).
Proof.
  intros Ep En Hwf0 En0 Epc Hret Hpool. assert (wf (gen (fs st)) [] []) as Hwf by (destruct Hret as (? & ? & ? & ? & _ & _ & _ & _ & _ & _ & ?); done).
  unfold close_func. eapply psafe_eq; [|].
  { unfold removevars, with_fs. rewrite En. cbn [Z.sub Z.opp Z.add Z.to_nat removevars_loop llift lbind lret]. reflexivity. }
  eapply psafe_bind.
  - unfold K_. eapply (psafe_K _ _ (fun _ g => extended [] [CREATE_ABC (of_opcode OP_RETURN) 0 1 0] (with_lastline (LLex.lastline (ls st)) (gen (fs st))) g /\ wf g [] [])).
    + cbn. eapply lsafe_bind; [eapply (ret_spec _ [] 0 0); [by apply line_wf|done|done]|]. intros g [He Hw]. exact (conj He Hw).
    + intros a st1 [He Hw] Hf _. exact (conj He (conj Hw Hf)).
  - intros a st1 (He & Hw & [Hfs Hp _ Hk]). cbn in Hp, Hk. rewrite Ep in Hp. unfold psafe. rewrite Hp. cbn [lsafe lret].
    destruct (kvalues_total (gen (fs st1)) (Hk Hpool)) as [ks Eks]. split; [unfold proto_of; rewrite Eks; by eexists|].
    intros pt Hpt. split.
    2:{ unfold proto_of in Hpt. rewrite Eks in Hpt. cbn in Hpt. injection Hpt as <-. cbn. unfold same_func in Hfs. rewrite Hfs. done. }
    eapply (closed_computes g0 0 ex (gen (fs st)) (with_lastline (LLex.lastline (ls st)) (gen (fs st))) _ (fs st1)); [done|done|done|done|by split|by apply line_wf|exact He|exact Hpt].
Qed.

(** The tokens of a chunk that the reader delivers. *)
Definition delivers (reader : list bytes) (tk : Token) (sem : SemInfo) (name : bytes) (ts : list stok) : Prop := exists l l1,
  luaX_setinput tk sem (luaZ_init reader) name = lret l /\ luaX_next strtod strtoul16 decimal_point l = lret l1 /\ reads l1 ts.

(** The state in front of the first statement of a chunk. *)
Lemma main_returning f l1 calls e : ready (MkParser l1 f [] calls) (Punct TK_RETURN :: toks e ++ [Punct TK_EOS]) -> gen f = gen (new_func 0) ->
  prec_ok 0 e = true -> expr_ok 0 (resolved (fun _ => -1) e) = true ->
  returning (MkParser l1 f [] calls) (fun _ => -1) e (Punct TK_EOS) [].
Proof.
  intros Hr Ef Hp Hok. destruct (start_wf 0 1 0 ltac:(lia)) as [Hwf _]. split; [done| |exact Hr| |cbn [fs]; rewrite Ef; exact Hwf|cbn [fs]; by rewrite Ef].
  - split; [done|]. split; [done|]. split; [done|]. intros l. apply punct_stops; [done|]. by apply (bool_decide_unpack _); vm_compute.
  - apply Forall_forall. intros x _. split; [|done]. unfold searchvar. cbn [fs]. by rewrite Ef.
Qed.

(** What [luaY_parser] makes of a return statement. *)
Lemma luaY_parser_main reader tk sem name calls e : Forall is_byte (blocks_stream reader) -> 0 <= token tk <= TK_EOS -> 0 <= calls <= LUAI_MAXCCALLS ->
  delivers reader tk sem name (Punct TK_RETURN :: toks e ++ [Punct TK_EOS]) -> prec_ok 0 e = true -> expr_ok 0 (resolved (fun _ => -1) e) = true ->
  lsafe (luaY_parser tk sem (luaZ_init reader) name calls) (fun pt => computes 0 pt (resolved (fun _ => -1) e) /\ numparams pt = 0 /\ is_vararg pt = VARARG_ISVARARG).
Proof.
  intros Hb Htk Hcalls (l & l1 & El & Hn & Hts) Hprec Hok. destruct (setinput_spec reader name tk sem Hb Htk) as (l0 & El0 & Hlex & Hla & _).
  rewrite El in El0. injection El0 as <-. unfold luaY_parser. rewrite El. cbn [lbind lret].
  pose proof (luaX_next_spec strtod strtoul16 decimal_point l Hlex ltac:(rewrite Hla; done)) as Hs. rewrite Hn in Hs. destruct Hs as (Hlex1 & Hla1 & _).
  set (f := set_params 0 VARARG_ISVARARG (new_func 0)).
  assert (ready (MkParser l1 f [] calls) (Punct TK_RETURN :: toks e ++ [Punct TK_EOS])) as Hr.
  { split; [done|done|done|]. apply (ends_once_app (Punct TK_RETURN :: toks e)); [|done]. constructor; [done|apply toks_no_end]. }
  pose proof (main_returning f l1 calls e Hr eq_refl Hprec Hok) as Hret.
  enough (psafe (do! set_is_vararg VARARG_ISVARARG in do! next in do! chunk in do! check TK_EOS in close_func) (MkParser l (new_func 0) [] calls)
    (fun f st' => is_Some (proto_of (ls st') f) /\ forall pt, proto_of (ls st') f = Some pt ->
      computes 0 pt (resolved (fun _ => -1) e) /\ numparams pt = 0 /\ is_vararg pt = VARARG_ISVARARG)) as Hp.
  { eapply lsafe_bind; [exact Hp|]. intros [f1 st'] [[pt E] Hpt]. rewrite E in *. by apply Hpt. }
  eapply psafe_eq; [reflexivity|]. eapply (psafe_eq _ _ _ tt (MkParser l1 f [] calls)); [unfold next; match goal with |- lbind ?m _ = _ => change m with (luaX_next strtod strtoul16 decimal_point l) end; by rewrite Hn|].
  eapply psafe_bind; [eapply (chunk_reads LEVELS); [|exact Hret]|].
  { cbn [nCcalls]. change LUAI_MAXCCALLS with 200 in *. unfold LEVELS. change LUAI_MAXCCALLS with 200. lia. }
  intros [] st1 (Hr1 & [Hfs1 Hp1 _ Hk1] & Hn1 & Hret1). eapply psafe_bind; [unfold check; eapply tok_is; [exact Hr1|]; cbn [tok_kind]; apply (psafe_ret tt st1 (fun _ st' => st' = st1)); done|].
  intros [] st2 ->. destruct (start_wf 0 1 0 ltac:(lia)) as (Hwf0 & En0 & Epc).
  eapply psafe_mono; [eapply (close_returns _ (gen (new_func 0))); [done|done|exact Hwf0|exact En0|exact Epc|exact Hret1|apply Hk1; constructor]|].
  intros f1 st' [Hs Hc]. split; [exact Hs|]. intros pt Hpt. destruct (Hc pt Hpt) as (H1 & H2 & H3). unfold same_func in Hfs1. rewrite Hfs1 in H2, H3. done.
Qed.

(** C1. A chunk that is one return statement compiles to code that computes its
    expression. The reader is any that delivers the tokens of [return e], where [e] is a
    tree of nil, booleans, numbers, strings, global names, fields, indexing, parentheses,
    unary operators and binary operators other than concatenation that the priorities
    read back as itself, without NaN and without a minus zero: no number in it is one
    and no constant part of it folds to one (the table of constants confuses it with 0,
    see [zero_constants_shared]). Then [luaY_parser] ends, with a prototype or a Lua error (too
    many levels, constants, registers or a control structure too long); and every closure
    of the prototype, started on its frame by the interpreter, reaches a RETURN of the
    value of [e], or raises the error that the value of [e] is. Jump lists, constant
    folding, register allocation, the merged LOADNILs and the patched TESTSETs of lcode.c
    are all on the way. *)
Theorem luaY_parser_return reader tk sem name calls e : Forall is_byte (blocks_stream reader) -> 0 <= token tk <= TK_EOS -> 0 <= calls <= LUAI_MAXCCALLS ->
  delivers reader tk sem name (Punct TK_RETURN :: toks e ++ [Punct TK_EOS]) -> prec_ok 0 e = true -> expr_ok 0 (resolved (fun _ => -1) e) = true ->
  lsafe (luaY_parser tk sem (luaZ_init reader) name calls) (fun pt => computes 0 pt (resolved (fun _ => -1) e)).
Proof.
  intros Hb Htk Hcalls Hts Hprec Hok. eapply lsafe_mono; [by apply luaY_parser_main|]. by intros pt [Hc _].
Qed.
End Ret.

(** ** A chunk that is compiled and run *)
Module OneGlobal.
(** A world without state, where the global [x] is 1 and a call returns nothing. *)
#[export] Instance world : LuaState unit := {
  getstr _ a := default [] (str_of a);
  luaS_newlstr w s := (str_addr s, w);
  tmname _ := TNil;
  luaH_get _ _ key := if bool_decide (key = TGC GString (str_addr (bytes_of_string "x"))) then TNumber (cast_num 1) else TNil;
  luaH_set w _ _ := lret (TNil, w);
  set_slot w _ _ _ := w;
  luaH_getn _ _ := 0;
  luaH_new w _ _ := (1, w);
  luaH_presize w _ _ := w;
  metatable _ _ := None;
  type_metatable _ _ := None;
  upval _ _ := None;
  set_upval _ _ _ := None;
  luaD_call w s _ _ _ := lret ([], s, w);
  luaG_typeerror _ _ op := op;
  luaO_str2d _ := None;
  lua_number2str _ := [];
  strcoll _ _ := 0;
  luai_numpow x _ := x;
}.
#[export] Instance calls_return : CallsKeepFrame unit.
Proof. by refine {| call w _ _ _ := lret ([], w) |}. Defined.

Definition chunk_text : list bytes := [bytes_of_string "return not (x < 2) or"; bytes_of_string " x + 2 * x"].
Definition num (k : Z) : sexpr := SNumber (cast_num k).
Definition x : sexpr := SName (bytes_of_string "x").
Definition chunk_expr : sexpr :=
  SBinop OPR_OR (SUnop OPR_NOT (SParen (SBinop OPR_LT x (num 2)))) (SBinop OPR_ADD x (SBinop OPR_MUL (num 2) x)).
Definition compile : LuaM Proto :=
  @luaY_parser (lib decimal_strtod (fun _ => (0, 0%nat)) 46) (Tok 0 NoInfo) NoInfo (luaZ_init chunk_text) (bytes_of_string "=x") 0.
End OneGlobal.
Import OneGlobal.

(** Twelve words of code, four constants and jumps of them. *)
Lemma luaY_parser_return_witness : exists pt, compile = lret pt /\ length (LProto.code pt) = 12%nat /\
  computes 0 pt (resolved (fun _ => -1) chunk_expr).
Proof.
  pose proof (luaY_parser_return decimal_strtod (fun _ => (0, 0%nat)) 46 chunk_text (Tok 0 NoInfo) NoInfo (bytes_of_string "=x") 0 chunk_expr) as H.
  assert (match compile with Some (Return pt) => bool_decide (length (LProto.code pt) = 12%nat) | _ => false end = true) as Hc by (vm_compute; reflexivity).
  unfold compile in *. destruct (luaY_parser _ _ _ _ _) as [[pt|]|]; [|discriminate Hc..].
  exists pt. split; [reflexivity|]. split; [apply bool_decide_eq_true in Hc; exact Hc|]. apply H.
  - cbn. repeat constructor; unfold is_byte; lia.
  - vm_compute. split; discriminate.
  - vm_compute. split; discriminate.
  - eexists _, _. split; [vm_compute; reflexivity|]. split; [vm_compute; reflexivity|]. cbn [app toks chunk_expr x num].
    repeat (split; [split; [reflexivity|vm_compute; try reflexivity; exact I]|]; try (eexists; split; [vm_compute; reflexivity|])).
    exact I.
  - vm_compute. reflexivity.
  - vm_compute. reflexivity.
Defined.
Lemma chunk_value : eval (W := unit) 0 (resolved (fun _ => -1) chunk_expr) [] tt = lret (TNumber (cast_num 3), tt).
Proof. by vm_compute. Qed.
