(* ===== verification/LExec.v ===== *)
(** * The interpreter over a thread (luaV_execute of src/lua/lvm.c)

    The turns of [LVm] on the registers of the running function, the operations of [LDo]
    that change frames, and upvalues and closures put together: [luaV_execute] runs on a
    thread until the function it was entered with returns. [Machine] is what it needs of
    the heap and of the C functions, which may call back through [luaD_call].
    [L->savedpc] is stored where somebody reads it: at calls, returns and errors. A
    metamethod is a call of [LuaState], so the state an instruction leaves behind when
    it raises an error is told by [failed_at]. At the end, the call of a compiled chunk. *)
From stdpp Require Import base list option relations.
From Stdlib Require Import ZArith Lia ZifyBool.
From S2P Require Import Prelude LObject LNum LOpcodes LProto LZio LLex LLexRead LVm LVmProps LExpr LSyntax LParser LGrammar LCompile LParseExpr LCompileRet LParseRet LDo LDoProps.
#[local] Open Scope Z_scope.

(** The functions of the interpreter and of the host; [m_c_function] and
    [m_hook_function] get the interpreter loop they call back. *)
Class Machine (W : Type) `{LuaState W} := {
  m_closure_of : W -> Z -> option (option Proto);
  closure_data : W -> Z -> option (list tvalue * Z);         (* the constants and the environment *)
  m_c_function : (Z -> M W unit) -> Z -> M W Z;
  m_hook_function : (Z -> M W unit) -> Z -> Z -> M W unit;
  m_luaF_close : Z -> lua_State -> W -> option W;
  m_position_info : lua_State -> W -> string;
  m_junk : tvalue;
  luaF_newLclosure : Proto -> Z -> W -> Z * W;               (* of a prototype and an environment *)
  set_upvals : Z -> Z -> Z -> Z -> W -> option W;            (* [ncl->upvals[j] = cl->upvals[b]] *)
  luaF_findupval : Z -> Z -> Z -> lua_State -> W -> option W;  (* [ncl->upvals[j] = luaF_findupval(L, level)] *)
  upvalue : Z -> Z -> lua_State -> W -> option tvalue;       (* [*cl->upvals[b]->v] *)
  set_upvalue : Z -> Z -> tvalue -> lua_State -> W -> option (lua_State * W);
  failed_at : lclosure -> LVm.frame W -> LVm.frame W;
}.

Section Exec.
Context {W : Type} `{Machine W}.
Notation M := (M W).

(** The host of ldo.c for the interpreter loop [execute]. *)
Definition host (execute : Z -> M unit) : Host W := {|
  closure_of := m_closure_of;
  c_function := m_c_function execute;
  luaV_execute := execute;
  hook_function := m_hook_function execute;
  luaF_close := m_luaF_close;
  position_info := m_position_info;
  junk := m_junk;
|}.

(** ** Registers *)
(** The slots between [base] and [ci->top], and their values written back. *)
Definition frame_regs (L : lua_State) : registers := take (Z.to_nat (ci_top (ci L) - base L)) (drop (Z.to_nat (base L)) (stack L)).
Definition with_regs (s : registers) (L : lua_State) : lua_State := with_stack (list_inserts (Z.to_nat (base L)) s (stack L)) L.

(** ** The operations that need the thread *)
Section Loop.
Variable execute : Z -> M unit.
#[local] Instance host_here : Host W := host execute.

(** [n] values behind [ra] into the elements [last] and below of the table [h]. *)
Fixpoint setlist_slots (n : nat) (ra h last : Z) : M unit :=
  match n with
  | O => mret tt
  | S m =>
      let^ val := slot (ra + Z.of_nat n) in
      do^ (fun L w =>
             match luaH_set w h (TNumber (cast_num last)) with
             | Some (Return (_, w)) => Some (Ok tt, L, set_slot w h (TNumber (cast_num last)) val)
             | Some (Error msg) => luaG_runerror luaD_call msg L w
             | None => None
             end) in
      setlist_slots m ra h (last - 1)
  end.
(** [OP_SETLIST] up to the top of the stack; [c] is the next word if it is 0 in the instruction. *)
Definition op_setlist_open (cl : lclosure) (ra c pc : Z) : M Z :=
  let^ L := state in
  let n := top L - ra - 1 in
  do^ upd (with_top (ci_top (ci L))) in
  let^ (c, pc) := if c =? 0 then fun L w => c ← instr_at cl pc; Some (Ok (i32 c, pc + 1), L, w) else mret (c, pc) in
  let^ o := slot ra in
  match o with
  | TGC GTable h =>
      let last := (c - 1) * LFIELDS_PER_FLUSH + n in
      do^ upd_world (fun w => Some (luaH_presize w h last)) in
      do^ setlist_slots (Z.to_nat n) ra h last in
      mret pc
  | _ => mret pc
  end.

(** The words behind [OP_CLOSURE] say where the upvalues come from. *)
Fixpoint share_upvals (nup : nat) (j : Z) (code_of : lclosure) (cl ncl pc : Z) : M Z :=
  match nup with
  | O => mret pc
  | S nup =>
      let^ i := fun L w => i ← instr_at code_of pc; Some (Ok i, L, w) in
      let^ L := state in
      do^ upd_world (if GET_OPCODE i =? of_opcode OP_GETUPVAL then set_upvals ncl j cl (GETARG_B i)
                     else luaF_findupval ncl j (base L + GETARG_B i) L) in
      share_upvals nup (j + 1) code_of cl ncl (pc + 1)
  end.
Definition op_closure (f : Proto) (cl : lclosure) (a ra bx pc : Z) : M Z :=
  let^ q := fun L w => q ← (if bx <? 0 then None else p f !! Z.to_nat bx); Some (Ok q, L, w) in
  let^ ncl := fun L w => let (ncl, w) := luaF_newLclosure q (cl_env cl) w in Some (Ok ncl, L, w) in
  let^ pc := share_upvals (Z.to_nat (nups q)) 0 cl a ncl pc in
  do^ setobj ra (TGC GFunction ncl) in
  do^ upd (with_savedpc pc) in
  mret pc.

(** ** One turn *)
(** Where the loop goes on: at an instruction, at the entry of a frame with a count of
    Lua calls, or not at all. *)
Inductive next := Goto (pc : Z) | Reentry (nexeccalls : Z) | Done_.

(** The operations [vm_step] leaves to the thread. *)
Definition leave_op (nexeccalls a : Z) (f : Proto) (cl : lclosure) (op : OpCode) (i pc : Z) : M next :=
  let^ L := state in
  let ra := base L + GETARG_A i in
  let after (again : Z) (r : PCR) := match r with PCRLUA => Reentry again | PCRC => Goto pc | PCRYIELD => Done_ end in
  match op with
  | OP_CALL => let^ r := op_call ra (GETARG_B i) (GETARG_C i - 1) pc in mret (after (nexeccalls + 1) r)
  | OP_TAILCALL => let^ r := op_tailcall ra (GETARG_B i) pc in mret (after nexeccalls r)
  | OP_RETURN =>
      let^ b := op_return ra (GETARG_B i) pc in
      if nexeccalls - 1 =? 0 then mret Done_
      else
        do^ (if negb (b =? 0) then upd (fun L => with_top (ci_top (ci L)) L) else mret tt) in
        mret (Reentry (nexeccalls - 1))
  | OP_SETLIST => let^ pc := op_setlist_open cl ra (GETARG_C i) pc in mret (Goto pc)
  | OP_CLOSE => do^ upd_world (luaF_close ra L) in mret (Goto pc)
  | OP_CLOSURE => let^ pc := op_closure f cl a ra (GETARG_Bx i) pc in mret (Goto pc)
  | OP_VARARG => do^ op_vararg ra (GETARG_B i) pc f in mret (Goto pc)
  | _ => undefined
  end.

(** A turn of the loop in the function at [a]: an upvalue is read or written, the registers
    change, the operation is one of the thread, or there is an error. *)
Definition one_turn (nexeccalls a : Z) (f : Proto) (cl : lclosure) (pc : Z) : M next := fun L w =>
  i ← instr_at cl pc;
  match to_opcode (GET_OPCODE i) with
  | Some OP_GETUPVAL =>
      v ← upvalue a (GETARG_B i) L w; s ← rset (frame_regs L) (GETARG_A i) v; Some (Ok (Goto (pc + 1)), with_regs s L, w)
  | Some OP_SETUPVAL =>
      v ← rget (frame_regs L) (GETARG_A i); '(L, w) ← set_upvalue a (GETARG_B i) v L w; Some (Ok (Goto (pc + 1)), L, w)
  | _ =>
      let fr := {| regs := frame_regs L; LVm.pc := pc; world := w |} in
      match vm_step cl fr with
      | Some (Return (Continue fr)) => Some (Ok (Goto (LVm.pc fr)), with_regs (regs fr) L, world fr)
      | Some (Return (Leave op)) => leave_op nexeccalls a f cl op i (pc + 1) L w
      | Some (Error msg) => let fr := failed_at cl fr in luaG_runerror luaD_call msg (with_savedpc (pc + 1) (with_regs (regs fr) L)) (world fr)
      | None => None
      end
  end.

(** The running function. *)
Definition running : M (Z * Proto * lclosure) :=
  let^ L := state in
  let^ o := slot (ci_func (ci L)) in
  fun L w =>
    match o with
    | TGC GFunction a =>
        c ← m_closure_of w a; f ← c; '(k, env) ← closure_data w a;
        Some (Ok (a, f, {| cl_code := code f; cl_k := k; cl_env := env |}), L, w)
    | _ => None
    end.

(** The main loop for [fuel] turns, from the instruction [pc] on. *)
Fixpoint main_loop (fuel : nat) (nexeccalls a : Z) (f : Proto) (cl : lclosure) (pc : Z) : M unit :=
  match fuel with
  | O => undefined
  | S fuel =>
      let^ r := one_turn nexeccalls a f cl pc in
      match r with
      | Goto pc => main_loop fuel nexeccalls a f cl pc
      | Reentry n => let^ (a, f, cl) := running in let^ L := state in main_loop fuel n a f cl (savedpc L)
      | Done_ => mret tt
      end
  end.
Definition enter (fuel : nat) (nexeccalls : Z) : M unit :=
  let^ (a, f, cl) := running in let^ L := state in main_loop fuel nexeccalls a f cl (savedpc L).
End Loop.

(** The interpreter, for [n] turns of each loop and [n] loops inside of each other. *)
Fixpoint luaV_execute (n : nat) : Z -> M unit :=
  match n with O => fun _ => undefined | S m => enter (luaV_execute m) n end.
End Exec.

(** ** A call of a compiled chunk

    The parser, the interpreter and the calls together: [luaD_precall] makes the frame
    in which the compiled code computes, and the RETURN hands the value to the caller. *)
Section Run.
Context {W : Type} `{CallsKeepFrame W} `{!Host W}.
Implicit Types (L : lua_State) (w : W).

Lemma checkstack_eq n L w : 0 <= n -> 0 <= top L <= stack_last L ->
  exists ext, luaD_checkstack n L w = Some (Ok tt, extended ext L, w) /\ n < stack_last (extended ext L) - top L.
Proof.
  intros Hn Ht. pose proof (grow_spec n (fun _ => mret tt) L w (fun _ L' w' => exists ext, L' = extended ext L /\ w' = w /\ n < stack_last L' - top L) (fun _ _ _ => False) Hn Ht) as Hr.
  unfold runs, mbind in Hr. destruct (luaD_checkstack n L w) as [[[[[]|e] L'] w']|]; cbn in Hr.
  - destruct Hr as (ext & -> & -> & Hl); [intros ext Hl; exists ext; by split|]. by exists ext.
  - exfalso. apply Hr. intros ext Hl. exists ext. by split.
  - exfalso. apply Hr. intros ext Hl. exists ext. by split.
Qed.

(** The main function of a chunk, at [func] with its arguments behind it. *)
Record main_at (func a : Z) (pt : Proto) (L : lua_State) : Prop := {
  m_good : good L;
  m_func : base L <= func < top L;
  m_slot : at_slot func (stack L) = Some (TGC GFunction a);
  m_params : numparams pt = 0 /\ is_vararg pt = VARARG_ISVARARG /\ 0 <= maxstacksize pt;
  m_room : Z.of_nat (length (callers L)) + 1 < size_ci L;
}.

(** The frame that is made for it. *)
Definition main_frame (func nres : Z) (pt : Proto) (ext : list tvalue) (L : lua_State) : lua_State :=
  let m := maxstacksize pt in
  with_top (top L + m) (with_stack (list_inserts (Z.to_nat (top L)) (replicate (Z.to_nat m) TNil) (stack L ++ ext))
    (with_savedpc 0 (with_base (top L) (with_calls (Ci (top L) func (top L + m) 0 nres 0) (set_ci_pc (savedpc L) (ci L) :: callers L) L)))).

Lemma precall_main call func nres a pt L w : main_at func a pt L -> closure_of w a = Some (Some pt) -> exists ext,
  luaD_precall call func nres L w = Some (Ok PCRLUA, main_frame func nres pt ext L, w) /\ top L + maxstacksize pt <= Z.of_nat (length (stack L ++ ext)).
Proof.
  intros [Hg Hf Hs (Hp1 & Hp2 & Hp3) Hroom] Hc. pose proof (g_base _ Hg) as Hb. pose proof (g_frames _ Hg) as (Hfr & _). pose proof (g_top _ Hg) as Ht. pose proof (g_hook _ Hg) as [_ Hh].
  set (L1 := with_calls (set_ci_pc (savedpc L) (ci L)) (callers L) L).
  destruct (checkstack_eq (maxstacksize pt) L1 w) as (ext & Ec & Hl); [done|cbn; change (stack_last L1) with (stack_last L); lia|]. exists ext.
  assert (top L + maxstacksize pt <= Z.of_nat (length (stack L ++ ext))) as Hlen by (unfold stack_last, stacksize, EXTRA_STACK in Hl; cbn in Hl; lia). split; [|exact Hlen].
  assert (slot func L w = Some (Ok (TGC GFunction a), L, w)) as Es by (unfold slot; by rewrite Hs).
  unfold luaD_precall. rewrite (mbind_eq _ _ _ _ _ _ _ Es). cbn [ttisfunction ttype]. change (ttisfunction (TGC GFunction a)) with true. cbv iota.
  rewrite (mbind_eq (mret tt) _ L w tt L w eq_refl). rewrite (mbind_eq _ _ _ _ _ _ _ Es).
  rewrite (mbind_eq _ _ L w tt L1 w eq_refl). erewrite (mbind_eq (fun L w => c ← closure_of w a; Some (Ok c, L, w))); [|rewrite Hc; reflexivity]. cbv beta iota.
  assert (enter_lua call pt func nres L1 w = Some (Ok tt, main_frame func nres pt ext L, w)) as E; [|by rewrite (mbind_eq _ _ _ _ _ _ _ E)].
  unfold enter_lua. rewrite (mbind_eq _ _ _ _ _ _ _ Ec). set (L2 := extended ext L1). rewrite (mbind_eq state _ L2 w L2 L2 w eq_refl).
  rewrite (mbind_eq _ _ L2 w (top L) L2 w).
  2:{ rewrite Hp2. change (VARARG_ISVARARG =? 0) with false. cbv iota. unfold adjust_varargs. rewrite Hp1. cbv zeta. replace (Z.to_nat (0 - (top L2 - func - 1))) with 0%nat by (change (top L2) with (top L); lia).
      cbn [push_nils]. rewrite (mbind_eq (mret tt) _ L2 w tt L2 w eq_refl). rewrite Hp2. reflexivity. }
  assert (inc_ci call (Ci (top L) func (top L + maxstacksize pt) 0 nres 0) L2 w = Some (Ok tt, with_calls (Ci (top L) func (top L + maxstacksize pt) 0 nres 0) (ci L1 :: callers L) L2, w)) as Ei.
  { unfold inc_ci. rewrite (mbind_eq state _ L2 w L2 L2 w eq_refl). assert ((Z.of_nat (length (callers L2)) =? size_ci L2 - 1) = false) as -> by (cbn; lia). reflexivity. }
  rewrite (mbind_eq _ _ _ _ _ _ _ Ei). set (L3 := with_savedpc 0 (with_base (top L) (with_calls (Ci (top L) func (top L + maxstacksize pt) 0 nres 0) (ci L1 :: callers L) L2))).
  transitivity ((let^ L := state in do^ nil_slots (Z.to_nat (ci_top (ci L) - top L)) (top L) in do^ upd (with_top (ci_top (ci L))) in
     let^ L := state in if negb (Z.land (hookmask L) LUA_MASKCALL =? 0) then
       do^ upd (fun L => with_savedpc (savedpc L + 1) L) in do^ luaD_callhook LUA_HOOKCALL (-1) in upd (fun L => with_savedpc (savedpc L - 1) L)
     else mret tt) L3 w); [reflexivity|].
  rewrite (mbind_eq state _ L3 w L3 L3 w eq_refl). change (ci_top (ci L3)) with (top L + maxstacksize pt). change (top L3) with (top L).
  replace (Z.to_nat (top L + maxstacksize pt - top L)) with (Z.to_nat (maxstacksize pt)) by lia.
  pose proof (nil_slots_eq (Z.to_nat (maxstacksize pt)) (Z.to_nat (top L)) L3 w ltac:(cbn [L3 L2 L1 stack with_savedpc with_base with_calls extended with_stack]; lia)) as En.
  rewrite Z2Nat.id in En by lia. rewrite (mbind_eq _ _ _ _ _ _ _ En).
  set (L4 := main_frame func nres pt ext L). rewrite (mbind_eq _ _ _ w tt L4 w eq_refl). rewrite (mbind_eq state _ L4 w L4 L4 w eq_refl).
  assert (hookmask L4 = 0) as -> by exact Hh. reflexivity.
Qed.

(** The registers of the frame. *)
Lemma main_regs func nres pt ext L : 0 <= maxstacksize pt -> 0 <= top L -> top L + maxstacksize pt <= Z.of_nat (length (stack L ++ ext)) ->
  frame_regs (main_frame func nres pt ext L) = replicate (Z.to_nat (maxstacksize pt)) TNil.
Proof.
  intros Hm Ht Hl. unfold frame_regs. cbn [main_frame ci base stack with_top with_stack with_savedpc with_base with_calls ci_top].
  replace (Z.to_nat (top L + maxstacksize pt - top L)) with (Z.to_nat (maxstacksize pt)) by lia. apply list_eq. intros i.
  destruct (decide (i < Z.to_nat (maxstacksize pt))%nat) as [Hi|Hi].
  - rewrite lookup_take_lt, lookup_drop, list_lookup_inserts by (rewrite ?length_replicate; lia). f_equal. lia.
  - rewrite lookup_take_ge by lia. symmetry. apply lookup_ge_None. rewrite length_replicate. lia.
Qed.

(** ** Lists written into a list *)
Lemma take_inserts n i (vs s : list tvalue) : (n <= i)%nat -> take n (list_inserts i vs s) = take n s.
Proof.
  intros Hn. apply list_eq. intros j. destruct (decide (j < n)%nat); [|by rewrite !lookup_take_ge by lia].
  rewrite !lookup_take_lt by lia. apply list_lookup_inserts_lt. lia.
Qed.
Lemma slice_inserts i (vs s : list tvalue) : (i + length vs <= length s)%nat -> drop i (take (i + length vs) (list_inserts i vs s)) = vs.
Proof.
  intros Hi. rewrite <- take_drop_commute. apply list_eq. intros j. destruct (decide (j < length vs)%nat).
  - rewrite lookup_take_lt, lookup_drop, list_lookup_inserts by lia. f_equal. lia.
  - rewrite lookup_take_ge by lia. symmetry. apply lookup_ge_None. lia.
Qed.
Lemma slice_one i (s : list tvalue) v : s !! i = Some v -> drop i (take (S i) s) = [v].
Proof. intros E. rewrite (take_S_r _ _ _ E). rewrite drop_app_ge by (rewrite length_take; lia). rewrite length_take, min_l by (apply lookup_lt_Some in E; lia). by rewrite Nat.sub_diag. Qed.

(** The thread behind the RETURN of one value. *)
Definition returned_to (func nres : Z) (v : tvalue) (L L2 : lua_State) : Prop :=
  callers L2 = callers L /\ ci L2 = set_ci_pc (savedpc L) (ci L) /\ base L2 = base L /\ savedpc L2 = savedpc L /\
  nCcalls L2 = nCcalls L /\ status L2 = status L /\ errfunc L2 = errfunc L /\ top L2 = func + Z.of_nat (length (adjusted nres [v])) /\
  take (Z.to_nat func) (stack L2) = take (Z.to_nat func) (stack L) /\
  drop (Z.to_nat func) (take (Z.to_nat (top L2)) (stack L2)) = adjusted nres [v].

Lemma op_return_main func nres a pt ext L w w2 s A v pc : main_at func a pt L -> -1 <= nres -> func + nres <= stack_last L ->
  top L + maxstacksize pt <= Z.of_nat (length (stack L ++ ext)) -> Z.of_nat (length s) = maxstacksize pt -> rget s A = Some v ->
  (forall L', base L' = top L -> callers L' = set_ci_pc (savedpc L) (ci L) :: callers L -> luaF_close (top L) L' w = Some w2) ->
  exists L2, op_return (top L + A) 2 pc (with_regs s (main_frame func nres pt ext L)) w = Some (Ok (nres + 1), L2, w2) /\ returned_to func nres v L L2.
Proof.
  intros [Hg Hf _ (_ & _ & Hm) _] Hn Hl Hlen Hs Hv Hclose. pose proof (g_base _ Hg) as Hb. pose proof (g_frames _ Hg) as (Hfr & _). pose proof (g_top _ Hg) as Ht. pose proof (g_hook _ Hg) as [_ Hh].
  set (Lr := with_regs s (main_frame func nres pt ext L)). pose proof (rget_bounds _ _ _ Hv) as HA.
  assert (length (stack Lr) = length (stack L ++ ext)) as El by (cbn; by rewrite !length_inserts).
  assert (stack Lr !! Z.to_nat (top L + A) = Some v) as Er.
  { cbn [Lr with_regs stack with_stack main_frame with_top base with_base with_savedpc]. rewrite list_lookup_inserts by (rewrite ?length_inserts; lia).
    unfold rget in Hv. destruct (A <? 0) eqn:EA; [lia|]. rewrite <- Hv. f_equal. lia. }
  set (L3 := with_savedpc pc (with_top (top L + A + 2 - 1) Lr)). set (c := set_ci_pc (savedpc L) (ci L)).
  unfold stack_last, stacksize, EXTRA_STACK in *. rewrite length_app in *.
  pose proof (poscall_eq (Z.to_nat func) (Z.to_nat (top L + A)) (S (Z.to_nat (top L + A))) L3 w2 c (callers L) Hh eq_refl) as Ep.
  cbn [L3 Lr with_savedpc with_top with_regs with_stack ci main_frame with_base with_calls ci_func top nresults] in Ep. change (stack L3) with (stack Lr) in Ep. rewrite El in Ep.
  specialize (Ep ltac:(lia) ltac:(lia) ltac:(lia) ltac:(lia) ltac:(lia) Hn). cbn zeta in Ep. rewrite (slice_one _ _ _ Er) in Ep. rewrite Z2Nat.id in Ep by lia.
  set (vals := adjusted nres [v]) in *. assert (Hvl : Z.of_nat (length vals) = (if nres <? 0 then 1 else nres)).
  { unfold vals. destruct (Z.ltb_spec nres 0); [|rewrite length_adjusted; lia]. unfold adjusted. assert ((nres <? 0) = true) as -> by lia. done. }
  eexists. split.
  - unfold op_return. rewrite (mbind_eq state _ Lr w Lr Lr w eq_refl). cbn [Z.eqb negb]. rewrite (mbind_eq _ _ Lr w tt (with_top (top L + A + 2 - 1) Lr) w eq_refl).
    rewrite (mbind_eq state _ _ w _ _ w eq_refl). erewrite (mbind_eq (upd_world _)).
    2:{ unfold upd_world. change (base (with_top (top L + A + 2 - 1) Lr)) with (top L). rewrite Hclose by done. reflexivity. }
    rewrite (mbind_eq _ _ _ w2 tt L3 w2 eq_refl). exact Ep.
  - split; [done|]. split; [done|]. split; [exact (eq_sym Hb)|]. split; [done|]. do 3 (split; [done|]).
    split; [cbn [top with_top]; fold vals; lia|]. cbn [stack with_top with_stack top]. change (stack (left_to c (callers L) L3)) with (stack Lr).
    rewrite Nat2Z.id. split.
    + rewrite take_inserts by lia. cbn [Lr with_regs stack with_stack main_frame with_top base with_base with_savedpc]. rewrite !take_inserts by lia. rewrite take_app_le by lia. done.
    + apply slice_inserts. rewrite El. fold vals. revert Hvl. destruct (Z.ltb_spec nres 0); lia.
Qed.

End Run.

(** ** The interpreter loop in a frame *)
Section Interp.
Context {W : Type} `{CallsKeepFrame W} `{!Machine W}.
Variable e : Z -> M W unit.
#[local] Instance host_e : Host W := host e.
Implicit Types (L : lua_State) (w : W) (s : registers).

(** [s] fills the frame of [L]. *)
Definition fills (s : registers) (L : lua_State) : Prop :=
  0 <= base L /\ Z.of_nat (length s) = ci_top (ci L) - base L /\ ci_top (ci L) <= Z.of_nat (length (stack L)).
Lemma regs_with s L : fills s L -> frame_regs (with_regs s L) = s.
Proof.
  intros (Hb & Hs & Hl). unfold frame_regs, with_regs. cbn [stack with_stack ci base].
  replace (Z.to_nat (ci_top (ci L) - base L)) with (length s) by lia. rewrite take_drop_commute. apply slice_inserts. lia.
Qed.
Lemma with_with s s' L : fills s L -> length s' = length s -> with_regs s' (with_regs s L) = with_regs s' L.
Proof.
  intros (Hb & Hs & Hl) E. unfold with_regs. cbn [stack with_stack base]. unfold with_stack. cbn. f_equal. apply list_eq. intros j.
  destruct (decide (Z.to_nat (base L) <= j < Z.to_nat (base L) + length s')%nat) as [Hj|Hj].
  - rewrite !list_lookup_inserts by (rewrite ?length_inserts; lia). done.
  - destruct (decide (j < Z.to_nat (base L))%nat); [by rewrite !list_lookup_inserts_lt by lia|]. rewrite !list_lookup_inserts_ge by lia. done.
Qed.
Lemma fills_with s s' L : fills s L -> length s' = length s -> fills s' (with_regs s L).
Proof. intros (Hb & Hs & Hl) E. unfold fills. cbn. rewrite length_inserts. lia. Qed.

Definition no_upvalues (cl : lclosure) : Prop := Forall (fun i => to_opcode (GET_OPCODE i) <> Some OP_GETUPVAL /\ to_opcode (GET_OPCODE i) <> Some OP_SETUPVAL) (cl_code cl).

Lemma turn_continues nexec a f cl L (fr fr' : LVm.frame W) : no_upvalues cl -> fills (regs fr) L -> vm_step cl fr = lret (Continue fr') ->
  one_turn e nexec a f cl (LVm.pc fr) (with_regs (regs fr) L) (world fr) = Some (Ok (Goto (LVm.pc fr')), with_regs (regs fr') L, world fr').
Proof.
  intros Hno Hf E. pose proof (vm_step_size cl _ _ E) as Hs. unfold one_turn.
  destruct (instr_at cl (LVm.pc fr)) as [i|] eqn:Ei; [|unfold vm_step in E; by rewrite Ei in E]. cbn [mbind option_bind].
  assert (to_opcode (GET_OPCODE i) <> Some OP_GETUPVAL /\ to_opcode (GET_OPCODE i) <> Some OP_SETUPVAL) as [H1 H2].
  { unfold instr_at in Ei. destruct (_ <? 0); [done|]. by eapply Forall_lookup_1 in Hno. }
  rewrite (regs_with _ _ Hf). destruct fr as [s pc w]. cbn in *. unfold lret in E.
  destruct (to_opcode (GET_OPCODE i)) as [[]|]; try done; rewrite E, (with_with _ _ _ Hf Hs); done.
Qed.
Lemma loop_steps nexec a f cl L k (fr fr' : LVm.frame W) : no_upvalues cl -> fills (regs fr) L -> nsteps (steps_to cl) k fr fr' ->
  length (regs fr') = length (regs fr) /\ forall n,
    main_loop e (k + n) nexec a f cl (LVm.pc fr) (with_regs (regs fr) L) (LVm.world fr) =
    main_loop e n nexec a f cl (LVm.pc fr') (with_regs (regs fr') L) (LVm.world fr').
Proof.
  intros Hno Hf Hr. revert Hf. induction Hr as [fr|k fr g fr' Hstep _ IH]; intros Hf; [done|].
  pose proof (vm_step_size cl _ _ Hstep) as Hs. assert (fills (regs g) L) as Hg by (destruct Hf as (? & ? & ?); unfold fills; lia).
  destruct (IH Hg) as (Hl & Hk). split; [lia|]. intros n. cbn [Nat.add main_loop].
  erewrite mbind_eq; [|by eapply turn_continues]. apply Hk.
Qed.

(** The turn of a RETURN in the function the loop was entered with. *)
Lemma turn_returns a f cl L w s p i b L2 w2 : fills s L -> instr_at cl p = Some i -> GET_OPCODE i = of_opcode OP_RETURN ->
  op_return (base L + GETARG_A i) (GETARG_B i) (p + 1) (with_regs s L) w = Some (Ok b, L2, w2) ->
  one_turn e 1 a f cl p (with_regs s L) w = Some (Ok Done_, L2, w2).
Proof.
  intros Hf Hi Ho Hr. unfold one_turn. rewrite Hi. cbn [base.mbind option_bind]. rewrite Ho. change (to_opcode (of_opcode OP_RETURN)) with (Some OP_RETURN). cbv iota.
  erewrite step_at; [|exact Hi|exact Ho]. cbn [step_op lret]. unfold leave_op. rewrite (mbind_eq state _ _ w _ _ w eq_refl). cbv beta zeta.
  change (base (with_regs s L)) with (base L). rewrite (mbind_eq _ _ _ _ _ _ _ Hr). reflexivity.
Qed.
End Interp.

(** ** A call of a chunk *)
Section Call.
Context {W : Type} `{CallsKeepFrame W} `{!Machine W}.
Implicit Types (L : lua_State) (w : W).

(** The closure at [a], with the constants [k] and the environment [env], is one of [pt]. *)
Record closure_at (a : Z) (pt : Proto) (k : list tvalue) (env : Z) (w : W) : Prop := {
  at_proto : m_closure_of w a = Some (Some pt);
  at_data : closure_data w a = Some (k, env);
  at_constants : mapM kvalue_of k = Some (LProto.k pt);
}.
Definition the_closure (pt : Proto) (k : list tvalue) (env : Z) : lclosure := {| cl_code := LProto.code pt; cl_k := k; cl_env := env |}.

Lemma main_deeper func a pt L : main_at func a pt L -> nCcalls L + 1 < LUAI_MAXCCALLS -> main_at func a pt (with_nCcalls (nCcalls L + 1) L).
Proof.
  intros [[Hf Hc Hb Ht Hn He Hh] H1 H2 H3 H4] Hl. split; try done. split; try done. cbn. change (Z.shiftr LUAI_MAXCCALLS 3) with 25. lia.
Qed.

Lemma running_main func nres a pt ext k env L w : main_at func a pt L -> 0 <= maxstacksize pt -> top L + maxstacksize pt <= Z.of_nat (length (stack L ++ ext)) ->
  closure_at a pt k env w ->
  running (main_frame func nres pt ext L) w = Some (Ok (a, pt, the_closure pt k env), main_frame func nres pt ext L, w).
Proof.
  intros [Hg Hf Hs _ _] Hm Hl [Hp Hd _]. unfold running. set (Lf := main_frame func nres pt ext L). rewrite (mbind_eq state _ Lf w Lf Lf w eq_refl).
  assert (slot (ci_func (ci Lf)) Lf w = Some (Ok (TGC GFunction a), Lf, w)) as Es.
  { unfold slot. cbn [Lf main_frame ci ci_func with_top with_stack with_savedpc with_base with_calls stack].
    pose proof (g_base _ Hg). pose proof (g_frames _ Hg) as (Hfr & _). unfold at_slot in *. destruct (Z.ltb_spec func 0); [lia|].
    rewrite list_lookup_inserts_lt by lia. rewrite lookup_app_l by (by eapply lookup_lt_Some). by rewrite Hs. }
  rewrite (mbind_eq _ _ _ _ _ _ _ Es). rewrite Hp. cbn [base.mbind option_bind]. by rewrite Hd.
Qed.

Lemma main_fills func nres pt ext L s : 0 <= top L -> top L + maxstacksize pt <= Z.of_nat (length (stack L ++ ext)) -> Z.of_nat (length s) = maxstacksize pt ->
  fills s (main_frame func nres pt ext L).
Proof. intros Ht Hl Hs. split; [done|]. cbn. rewrite length_inserts. lia. Qed.
Lemma main_own_regs func nres pt ext L : 0 <= maxstacksize pt -> 0 <= top L -> top L + maxstacksize pt <= Z.of_nat (length (stack L ++ ext)) ->
  with_regs (replicate (Z.to_nat (maxstacksize pt)) TNil) (main_frame func nres pt ext L) = main_frame func nres pt ext L.
Proof.
  intros Hm Ht Hl. unfold with_regs, main_frame. cbn [stack with_top with_stack base with_base with_savedpc with_calls]. unfold with_top, with_stack. cbn. f_equal.
  apply list_eq. intros j. destruct (decide (Z.to_nat (top L) <= j < Z.to_nat (top L) + length (replicate (Z.to_nat (maxstacksize pt)) TNil))%nat) as [Hj|Hj].
  - rewrite !list_lookup_inserts by (rewrite ?length_inserts; rewrite length_replicate in *; lia). done.
  - destruct (decide (j < Z.to_nat (top L))%nat); [by rewrite !list_lookup_inserts_lt by lia|]. rewrite !list_lookup_inserts_ge by lia. done.
Qed.

(** C2. The parser, the code generator, the interpreter loop and the calls of ldo.c agree
    on a whole call. The closure at [func], with any arguments, is one without upvalues of a
    prototype [pt] that computes [ex] ([computes]: what [luaY_parser] makes of [return ex],
    see LParseRet.v); the thread is well formed, without hooks, has a free CallInfo and is
    not near the limit of C calls ([main_at]); [ex] has the value [v] in a frame of nils,
    and [w2] is the heap when the upvalues from the base of the new frame on (the top at the
    call) have then been closed; callers may have some below.
    Then [luaD_call], with enough turns of the interpreter loop, ends without an error in
    the heap [w2], and leaves exactly the adjusted results ([v], then nils, or nothing) at
    [func]: [luaD_precall] has made the frame, moving the stack if it was too small, and
    the RETURN has closed its upvalues and removed it. The caller's frame, its base, its
    saved instruction, the count of C calls and the stack below are as before. *)
Theorem chunk_call_returns func nres a pt ex k env L w v w' w2 : main_at func a pt L -> nCcalls L + 1 < LUAI_MAXCCALLS -> -1 <= nres -> func + nres <= stack_last L ->
  closure_at a pt k env w -> no_upvalues (the_closure pt k env) -> computes 0 pt ex ->
  eval env ex (replicate (Z.to_nat (maxstacksize pt)) TNil) w = lret (v, w') -> (forall L', base L' = top L -> callers L' = set_ci_pc (savedpc L) (ci L) :: callers L -> m_luaF_close (top L) L' w' = Some w2) ->
  exists n0, forall n, (n0 <= n)%nat -> exists L2, luaD_call (H0 := host (luaV_execute n)) func nres L w = Some (Ok tt, L2, w2) /\ returned_to func nres v L L2.
Proof.
  intros Hmain0 Hc Hn Hl Hcl Hno Hcomp He Hclose. pose proof (main_deeper _ _ _ _ Hmain0 Hc) as Hmain. set (L1 := with_nCcalls (nCcalls L + 1) L) in *.
  pose proof (m_good _ _ _ _ Hmain0) as Hg. pose proof (g_base _ Hg). pose proof (g_frames _ Hg) as (Hfr & _). pose proof (g_top _ Hg) as Ht. destruct (m_params _ _ _ _ Hmain) as (_ & _ & Hm).
  set (cl := the_closure pt k env) in *. set (s0 := replicate (Z.to_nat (maxstacksize pt)) TNil) in *.
  assert (Z.of_nat (length s0) = maxstacksize pt) as Hs0 by (unfold s0; rewrite length_replicate; lia).
  assert (runs_to cl s0 w (eval (cl_env cl) ex s0 w)) as Hrun.
  { apply Hcomp; [split; [done|apply Hcl]|done|]. intros j Hj. unfold rget. destruct (Z.ltb_spec j 0); [lia|]. apply lookup_replicate_2. lia. }
  change (cl_env cl) with env in Hrun. rewrite He in Hrun. destruct Hrun as (s & p & i & Hreach & Hi & Hop & HB & Hv & Hsl).
  apply rtc_nsteps in Hreach as [steps Hreach]. exists (S (S steps)). intros [|[|n]] Hle; try lia.
  pose (h := host (luaV_execute (S (S n)))). set (call := call_levels (H0 := h) (Nat.pred LEVELS)).
  destruct (precall_main (Host0 := h) call func nres a pt L1 w Hmain (at_proto _ _ _ _ _ Hcl)) as (ext & Epre & Hlen).
  set (Lf := main_frame func nres pt ext L1) in *. assert (fills s0 Lf) as Hfill by (apply main_fills; [cbn; lia|exact Hlen|exact Hs0]).
  assert (fills s Lf) as Hfs by (apply main_fills; [cbn; lia|exact Hlen|lia]).
  destruct (op_return_main (Host0 := host (luaV_execute (S n))) func nres a pt ext L1 w' w2 s (GETARG_A i) v (p + 1) Hmain Hn Hl Hlen ltac:(lia) Hv Hclose) as (L2 & Eret & Hret).
  exists (with_nCcalls (nCcalls L2 - 1) L2). split.
  - change (luaD_call_level (H0 := h) call func nres L w = Some (Ok tt, with_nCcalls (nCcalls L2 - 1) L2, w2)). unfold luaD_call_level. rewrite (mbind_eq _ _ L w tt L1 w eq_refl). rewrite (mbind_eq state _ L1 w L1 L1 w eq_refl).
    assert ((LUAI_MAXCCALLS <=? nCcalls L1) = false) as -> by (cbn; lia). rewrite (mbind_eq (mret tt) _ L1 w tt L1 w eq_refl).
    rewrite (mbind_eq _ _ _ _ _ _ _ Epre).
    enough (LDo.luaV_execute (Host := h) 1 Lf w = Some (Ok tt, L2, w2)) as Eex by (rewrite (mbind_eq _ _ _ _ _ _ _ Eex); reflexivity).
    change (enter (luaV_execute (S n)) (S (S n)) 1 Lf w = Some (Ok tt, L2, w2)).
    unfold enter. erewrite mbind_eq; [|apply running_main; [exact Hmain|exact Hm|exact Hlen|exact Hcl]]. cbv beta iota.
    rewrite (mbind_eq state _ Lf w Lf Lf w eq_refl). change (savedpc Lf) with 0. fold cl.
    destruct (loop_steps (luaV_execute (S n)) 1 a pt cl Lf steps (at_ s0 0 w) (at_ s p w') Hno Hfill Hreach) as [_ Hloop].
    specialize (Hloop (S (S n) - steps)%nat). replace (steps + (S (S n) - steps))%nat with (S (S n)) in Hloop by lia. cbn [LVm.pc LVm.regs LVm.world at_] in Hloop.
    assert (with_regs s0 Lf = Lf) as E0 by (apply main_own_regs; [done|cbn; lia|exact Hlen]). rewrite E0 in Hloop. rewrite Hloop.
    destruct (S (S n) - steps)%nat eqn:En; [lia|]. cbn [main_loop].
    assert (one_turn (luaV_execute (S n)) 1 a pt cl p (with_regs s Lf) w' = Some (Ok Done_, L2, w2)) as Et; [|by rewrite (mbind_eq _ _ _ _ _ _ _ Et)].
    eapply turn_returns; [exact Hfs|exact Hi|exact Hop|]. rewrite HB. exact Eret.
  - destruct Hret as (R1 & R2 & R3 & R4 & R5 & R6). unfold returned_to. cbn. rewrite R5. cbn. do 4 (split; [done|]). split; [lia|done].
Qed.
End Call.

(** ** A chunk that is parsed, called and run *)
Module RunChunk.
Import OneGlobal.
Definition no_proto : Proto := MkProto None 0 0 0 0 0 0 [] [] [] [] [] [].
Definition chunk_proto : Proto := match compile with Some (Return pt) => pt | _ => no_proto end.
Definition tvalue_of (x : kvalue) : tvalue :=
  match x with
  | KNil => TNil
  | KBoolean b => TBoolean b
  | KNumber n => TNumber n
  | KString s => TGC GString (str_addr (default [] s))
  end.
Definition constants : list tvalue := map tvalue_of (LProto.k chunk_proto).
(** The closure of the chunk is the function at 1; there are no C functions and no upvalues. *)
#[export] Instance machine : Machine unit := {|
  m_closure_of _ a := Some (if a =? 1 then Some chunk_proto else None);
  closure_data _ _ := Some (constants, 0);
  m_c_function _ _ := mret 0;
  m_hook_function _ _ _ := mret tt;
  m_luaF_close _ _ w := Some w;
  m_position_info _ _ := ""%string;
  m_junk := TNil;
  luaF_newLclosure _ _ w := (2, w);
  set_upvals _ _ _ _ w := Some w;
  luaF_findupval _ _ _ _ w := Some w;
  upvalue _ _ _ _ := None;
  set_upvalue _ _ _ _ _ := None;
  failed_at _ f := f;
|}.
(** A new thread with the chunk and one argument on its stack. *)
Definition thread : lua_State :=
  let L := luaE_newthread (H0 := host (fun _ => undefined)) false 0 in with_top 3 (with_stack (list_inserts 1 [TGC GFunction 1; TBoolean true] (stack L)) L).
Lemma chunk_compiled : compile = lret chunk_proto.
Proof. by vm_compute. Qed.
Lemma chunk_computes : computes 0 chunk_proto (resolved (fun _ => -1) chunk_expr).
Proof.
  pose proof (luaY_parser_main decimal_strtod (fun _ => (0, 0%nat)) 46 chunk_text (Tok 0 NoInfo) NoInfo (bytes_of_string "=x") 0 chunk_expr) as Hm.
  enough (lsafe compile (fun pt => computes 0 pt (resolved (fun _ => -1) chunk_expr) /\ numparams pt = 0 /\ is_vararg pt = VARARG_ISVARARG)) as Hs
    by (rewrite chunk_compiled in Hs; exact (proj1 Hs)).
  unfold compile. apply Hm; clear Hm.
  - cbn. repeat constructor; unfold is_byte; lia.
  - vm_compute. split; discriminate.
  - vm_compute. split; discriminate.
  - eexists _, _. split; [vm_compute; reflexivity|]. split; [vm_compute; reflexivity|]. cbn [app toks chunk_expr x num].
    repeat (split; [split; [reflexivity|vm_compute; try reflexivity; exact I]|]; try (eexists; split; [vm_compute; reflexivity|])).
    exact I.
  - vm_compute. reflexivity.
  - vm_compute. reflexivity.
Qed.
Lemma thread_main : main_at 1 1 chunk_proto thread.
Proof.
  split; try (vm_compute; done).
Qed.
End RunChunk.
Import OneGlobal RunChunk.

(** The value 3 at the function, for one result. *)
Lemma chunk_call_returns_witness : exists n0, forall n, (n0 <= n)%nat -> exists L2,
  luaD_call (H0 := host (luaV_execute n)) 1 1 thread tt = Some (Ok tt, L2, tt) /\ drop 1 (take (Z.to_nat (top L2)) (stack L2)) = [TNumber (cast_num 3)].
Proof.
  pose proof (chunk_call_returns 1 1 1 chunk_proto (resolved (fun _ => -1) chunk_expr) constants 0 thread tt (TNumber (cast_num 3)) tt tt
    thread_main ltac:(by vm_compute) ltac:(lia) ltac:(by vm_compute)) as Hr.
  destruct Hr as (n0 & Hr).
  - split; [reflexivity|reflexivity|vm_compute; reflexivity].
  - apply (bool_decide_unpack _). vm_compute. exact I.
  - exact chunk_computes.
  - vm_compute. reflexivity.
  - reflexivity.
  - exists n0. intros n Hn. destruct (Hr n Hn) as (L2 & E & Hq). exists L2. split; [exact E|apply Hq].
Defined.
