(* ===== verification/LGc.v ===== *)
(** * The mark phase of the garbage collector (src/lua/lgc.c, src/lua/lgc.h)

    A heap of collectable objects with their mark bytes, and the lists of the
    collector: [gray], [grayagain] and [weak] are linked through the objects ([gclist])
    in the code and lists of objects here (no object is in two of them). An open
    upvalue is a slot of a thread's stack, so the thread and the upvalue share the
    value. [tm_mode] and [tm_gc] are the names of the events __mode and __gc
    ([g->tmname]), strings that exist from the start; the cache of absent events
    ([flags]) is left out. The amounts the functions return only pace the collector,
    and stacks are not shrunk. A dangling reference is [None]. *)
From stdpp Require Import base list option gmap.
From Stdlib Require Import ZArith Lia ZifyBool.
From S2P Require Import Prelude.
#[local] Open Scope Z_scope.

(** ** Mark bytes (lgc.h) *)
Definition WHITEBITS : Z := 3.
Definition BLACKMASK : Z := 4.
Definition FINALIZEDMASK : Z := 8.
Definition KEYWEAK : Z := 8.
Definition VALUEWEAK : Z := 16.
Definition maskmarks : Z := 0xF8.

Definition iswhite (m : Z) : bool := negb (Z.land m WHITEBITS =? 0).
Definition isblack (m : Z) : bool := negb (Z.land m BLACKMASK =? 0).
Definition isgray (m : Z) : bool := negb (isblack m) && negb (iswhite m).
Definition white2gray (m : Z) : Z := Z.land m 0xFC.
Definition changewhite (m : Z) : Z := Z.lxor m WHITEBITS.
Definition gray2black (m : Z) : Z := Z.lor m BLACKMASK.
Definition black2gray (m : Z) : Z := Z.land m 0xFB.
Definition isfinalized (m : Z) : bool := negb (Z.land m FINALIZEDMASK =? 0).
Definition markfinalized (m : Z) : Z := Z.lor m FINALIZEDMASK.

(** ** Objects *)
Abbreviation id := nat.

Inductive value := Nil | Plain (n : Z) | Ref (o : id) | DeadKey (o : id).

(** Where the value of an upvalue lives: its own field, or a stack slot. *)
Inductive place := Own (v : value) | Slot (th : id) (i : nat).

Record Node := { gkey : value; gval : value }.

Inductive body :=
  | GString (str : list Z)
  | GUserdata (metatable : option id) (env : id)
  | GUpval (v : place)
  | GCClosure (env : id) (upvalue : list value)
  | GLClosure (env p : id) (upvals : list id)
  | GTable (metatable : option id) (array : list value) (node : list Node)
  | GThread (gt : value) (stack rest : list value)
  | GProto (source : option id) (k : list value) (upvalues p locvars : list (option id)).

Record GCObject := { marked : Z; contents : body }.

Inductive gc_phase := GCSpause | GCSpropagate | GCSsweepstring | GCSsweep | GCSfinalize.

Record global_State := {
  heap : gmap id GCObject;
  currentwhite : Z;
  gcstate : gc_phase;
  gray : list id;
  grayagain : list id;
  weak : list id;
  rootgc : list id;
  udata : list id;        (* the objects behind the main thread *)
  tmudata : list id;
  uvhead : list id;
  mainthread : id;
  registry : value;
  mt : list (option id);
}.

Definition set_heap (h : gmap id GCObject) (g : global_State) : global_State :=
  {| heap := h; currentwhite := currentwhite g; gcstate := gcstate g; gray := gray g; grayagain := grayagain g;
     weak := weak g; rootgc := rootgc g; udata := udata g; tmudata := tmudata g; uvhead := uvhead g;
     mainthread := mainthread g; registry := registry g; mt := mt g |}.
Definition set_lists (gr ga wk : list id) (g : global_State) : global_State :=
  {| heap := heap g; currentwhite := currentwhite g; gcstate := gcstate g; gray := gr; grayagain := ga;
     weak := wk; rootgc := rootgc g; udata := udata g; tmudata := tmudata g; uvhead := uvhead g;
     mainthread := mainthread g; registry := registry g; mt := mt g |}.
Definition set_phase (w : Z) (p : gc_phase) (g : global_State) : global_State :=
  {| heap := heap g; currentwhite := w; gcstate := p; gray := gray g; grayagain := grayagain g;
     weak := weak g; rootgc := rootgc g; udata := udata g; tmudata := tmudata g; uvhead := uvhead g;
     mainthread := mainthread g; registry := registry g; mt := mt g |}.
Definition set_objects (r u t : list id) (g : global_State) : global_State :=
  {| heap := heap g; currentwhite := currentwhite g; gcstate := gcstate g; gray := gray g; grayagain := grayagain g;
     weak := weak g; rootgc := r; udata := u; tmudata := t; uvhead := uvhead g;
     mainthread := mainthread g; registry := registry g; mt := mt g |}.

Definition luaC_white (g : global_State) : Z := Z.land (currentwhite g) WHITEBITS.
Definition otherwhite (g : global_State) : Z := Z.lxor (currentwhite g) WHITEBITS.
Definition isdead (g : global_State) (m : Z) : bool := negb (Z.land (Z.land m (otherwhite g)) WHITEBITS =? 0).
Definition makewhite (g : global_State) (m : Z) : Z := Z.lor (Z.land m maskmarks) (luaC_white g).

(** [f] on the mark byte of [o], and a new content. *)
Definition remark (f : Z -> Z) (o : id) (g : global_State) : global_State :=
  set_heap (alter (fun x => {| marked := f (marked x); contents := contents x |}) o (heap g)) g.
Definition set_contents (b : body) (o : id) (g : global_State) : global_State :=
  set_heap (alter (fun x => {| marked := marked x; contents := b |}) o (heap g)) g.

(** [*uv->v]. *)
Definition place_value (h : gmap id GCObject) (pl : place) : option value :=
  match pl with
  | Own v => Some v
  | Slot th i =>
      x ← h !! th;
      match contents x with GThread _ stack _ => stack !! i | _ => None end
  end.

(** ** Marking *)
Section Marking.
Variables tm_mode tm_gc : id.

(** [fasttm], [gfasttm]: the value of the event [e] in a metatable, if there is one
    (keys of live nodes are unique). *)
Definition is_nil (v : value) : bool := match v with Nil => true | _ => false end.

Definition node_is (e : id) (n : Node) : bool :=
  match gkey n with Ref k => bool_decide (k = e) && negb (is_nil (gval n)) | _ => false end.
Definition fasttm (h : gmap id GCObject) (et : option id) (e : id) : option value :=
  m ← et; x ← h !! m;
  match contents x with GTable _ _ node => gval <$> head (filter (fun n => node_is e n = true) node) | _ => None end.

(** [strchr(s, c) != NULL], [c] not being NUL. *)
Fixpoint strchr (s : list Z) (c : Z) : bool :=
  match s with [] => false | d :: s => negb (d =? 0) && ((d =? c) || strchr s c) end.

(** Weak keys, weak values. *)
Definition mode (h : gmap id GCObject) (et : option id) : bool * bool :=
  match fasttm h et tm_mode with
  | Some (Ref s) =>
      match contents <$> h !! s with Some (GString str) => (strchr str 107, strchr str 118) | _ => (false, false) end
  | _ => (false, false)
  end.

Definition gray_push (o : id) (g : global_State) : global_State := set_lists (o :: gray g) (grayagain g) (weak g) g.

(** [reallymarkobject] and the macros [markobject] and [markvalue] around it; the
    recursion is through upvalues and userdata only ([fuel]). *)
Fixpoint reallymarkobject (fuel : nat) (o : id) (g : global_State) : option global_State :=
  match fuel with
  | O => None
  | S fuel =>
      let markobject (o : id) (g : global_State) : option global_State :=
        x ← heap g !! o; if iswhite (marked x) then reallymarkobject fuel o g else Some g in
      x ← heap g !! o;
      let g := remark white2gray o g in
      match contents x with
      | GString _ => Some g
      | GUserdata metatable env =>
          let g := remark gray2black o g in
          g ← match metatable with Some m => markobject m g | None => Some g end;
          markobject env g
      | GUpval pl =>
          v ← place_value (heap g) pl;
          g ← match v with Ref c | DeadKey c => markobject c g | _ => Some g end;
          match pl with Own _ => Some (remark gray2black o g) | Slot _ _ => Some g end
      | _ => Some (gray_push o g)
      end
  end.

(** An upvalue, the userdata it holds, and that userdata's tables. *)
Definition MARKDEPTH : nat := 3.

Definition markobject (o : id) (g : global_State) : option global_State :=
  x ← heap g !! o; if iswhite (marked x) then reallymarkobject MARKDEPTH o g else Some g.
Definition markvalue (v : value) (g : global_State) : option global_State :=
  match v with Ref o | DeadKey o => markobject o g | _ => Some g end.
Definition stringmark (o : id) (g : global_State) : option global_State :=
  _ ← heap g !! o; Some (remark white2gray o g).

(** A function on the elements of a list, one after the other. *)
Fixpoint each {A} (f : A -> global_State -> option global_State) (l : list A) (g : global_State) : option global_State :=
  match l with [] => Some g | x :: l => g ← f x g; each f l g end.
Definition when_some {A} (f : A -> global_State -> option global_State) (x : option A) (g : global_State) : option global_State :=
  match x with Some x => f x g | None => Some g end.

Definition removeentry (n : Node) : Node :=
  match gkey n with Ref o | DeadKey o => {| gkey := DeadKey o; gval := gval n |} | _ => n end.

(** One turn of the loop over the nodes of [h]. *)
Definition mark_node (h : id) (weakkey weakvalue : bool) (n : nat * Node) (g : global_State) : option global_State :=
  if is_nil (gval n.2) then
    x ← heap g !! h;
    match contents x with
    | GTable m a nd => Some (set_contents (GTable m a (<[n.1 := removeentry n.2]> nd)) h g)
    | _ => None
    end
  else
    g ← (if weakkey then Some g else markvalue (gkey n.2) g);
    if weakvalue then Some g else markvalue (gval n.2) g.

Definition weak_bits (weakkey weakvalue : bool) (m : Z) : Z :=
  Z.lor (Z.land m 0xE7) (Z.lor (if weakkey then KEYWEAK else 0) (if weakvalue then VALUEWEAK else 0)).

(** [traversetable]: whether the table is weak, and the state. *)
Definition traversetable (h : id) (metatable : option id) (array : list value) (node : list Node) (g : global_State)
    : option (bool * global_State) :=
  g ← when_some markobject metatable g;
  let '(weakkey, weakvalue) := mode (heap g) metatable in
  let g :=
    if weakkey || weakvalue then
      let g := remark (weak_bits weakkey weakvalue) h g in
      set_lists (gray g) (grayagain g) (h :: weak g) g
    else g in
  if weakkey && weakvalue then Some (true, g)
  else
    g ← (if weakvalue then Some g else each markvalue (reverse array) g);
    g ← each (mark_node h weakkey weakvalue) (reverse (imap pair node)) g;
    Some (weakkey || weakvalue, g).

Definition traverseproto (source : option id) (k : list value) (upvalues p locvars : list (option id))
    (g : global_State) : option global_State :=
  g ← when_some stringmark source g;
  g ← each markvalue k g;
  g ← each (when_some stringmark) upvalues g;
  g ← each (when_some markobject) p g;
  each (when_some stringmark) locvars g.

(** [traversestack]: the slots above the top are cleared. *)
Definition traversestack (th : id) (gt : value) (stack rest : list value) (g : global_State) : option global_State :=
  g ← markvalue gt g;
  g ← each markvalue stack g;
  Some (set_contents (GThread gt stack ((fun _ => Nil) <$> rest)) th g).

Definition propagatemark (g : global_State) : option global_State :=
  match gray g with
  | [] => None
  | o :: gr =>
      x ← heap g !! o;
      let g := set_lists gr (grayagain g) (weak g) (remark gray2black o g) in
      match contents x with
      | GTable metatable array node =>
          '(w, g) ← traversetable o metatable array node g;
          Some (if (w : bool) then remark black2gray o g else g)
      | GCClosure env upvalue => g ← markobject env g; each markvalue upvalue g
      | GLClosure env p upvals => g ← markobject env g; g ← markobject p g; each markobject upvals g
      | GThread gt stack rest =>
          let g := remark black2gray o (set_lists (gray g) (o :: grayagain g) (weak g) g) in
          traversestack o gt stack rest g
      | GProto source k upvalues p locvars => traverseproto source k upvalues p locvars g
      | _ => None
      end
  end.

(** [while (g->gray)]; every turn takes a gray object or makes a white one gray. *)
Fixpoint propagate_loop (fuel : nat) (g : global_State) : option global_State :=
  match gray g with
  | [] => Some g
  | _ => match fuel with O => None | S fuel => g ← propagatemark g; propagate_loop fuel g end
  end.
Definition propagateall (g : global_State) : option global_State :=
  propagate_loop (length (gray g) + size (heap g)) g.

(** ** Userdata to be finalized *)
Definition metatable_of (x : GCObject) : option id := match contents x with GUserdata m _ => m | _ => None end.

(** The loop of [luaC_separateudata]: the list that stays, the list of the moved. *)
Fixpoint separate_loop (all : bool) (l : list id) (g : global_State) : option (list id * list id * global_State) :=
  match l with
  | [] => Some ([], [], g)
  | curr :: l =>
      x ← heap g !! curr;
      if negb (iswhite (marked x) || all) || isfinalized (marked x) then
        '(stay, moved, g) ← separate_loop all l g; Some (curr :: stay, moved, g)
      else if negb (bool_decide (is_Some (fasttm (heap g) (metatable_of x) tm_gc))) then
        '(stay, moved, g) ← separate_loop all l (remark markfinalized curr g); Some (curr :: stay, moved, g)
      else
        '(stay, moved, g) ← separate_loop all l (remark markfinalized curr g); Some (stay, curr :: moved, g)
  end.
Definition luaC_separateudata (all : bool) (g : global_State) : option global_State :=
  '(stay, moved, g) ← separate_loop all (udata g) g;
  Some (set_objects (rootgc g) stay (tmudata g ++ moved) g).

Definition marktmu (g : global_State) : option global_State :=
  each (fun u g => reallymarkobject MARKDEPTH u (remark (makewhite g) u g)) (tmudata g) g.

(** ** Weak tables *)

(** [iscleared]: strings are marked and kept. *)
Definition iscleared (v : value) (iskey : bool) (g : global_State) : option (bool * global_State) :=
  match v with
  | DeadKey o => x ← heap g !! o; Some (iswhite (marked x), g)
  | Ref o =>
      x ← heap g !! o;
      match contents x with
      | GString _ => Some (false, remark white2gray o g)
      | GUserdata _ _ => Some (iswhite (marked x) || (negb iskey && isfinalized (marked x)), g)
      | _ => Some (iswhite (marked x), g)
      end
  | _ => Some (false, g)
  end.

Definition clear_slot (h : id) (i : nat) (g : global_State) : option global_State :=
  x ← heap g !! h;
  match contents x with
  | GTable m a nd =>
      v ← a !! i;
      '(c, g) ← iscleared v false g;
      Some (if (c : bool) then set_contents (GTable m (<[i := Nil]> a) nd) h g else g)
  | _ => None
  end.

Definition clear_node (h : id) (i : nat) (g : global_State) : option global_State :=
  x ← heap g !! h;
  match contents x with
  | GTable m a nd =>
      n ← nd !! i;
      if is_nil (gval n) then Some g
      else
        '(c, g) ← iscleared (gkey n) true g;
        '(c, g) ← (if (c : bool) then Some (true, g) else iscleared (gval n) false g);
        Some (if (c : bool)
              then set_contents (GTable m a (<[i := removeentry {| gkey := gkey n; gval := Nil |}]> nd)) h g
              else g)
  | _ => None
  end.

Definition clear_one (h : id) (g : global_State) : option global_State :=
  x ← heap g !! h;
  match contents x with
  | GTable _ a nd =>
      g ← (if negb (Z.land (marked x) VALUEWEAK =? 0) then each (clear_slot h) (reverse (seq 0 (length a))) g else Some g);
      each (clear_node h) (reverse (seq 0 (length nd))) g
  | _ => None
  end.
Definition cleartable (l : list id) (g : global_State) : option global_State := each clear_one l g.

(** ** The phases *)
Definition markmt (g : global_State) : option global_State := each (when_some markobject) (mt g) g.

Definition thread_globals (g : global_State) (th : id) : option value :=
  x ← heap g !! th; match contents x with GThread gt _ _ => Some gt | _ => None end.

Definition markroot (g : global_State) : option global_State :=
  let g := set_lists [] [] [] g in
  g ← markobject (mainthread g) g;
  gt ← thread_globals g (mainthread g);
  g ← markvalue gt g;
  g ← markvalue (registry g) g;
  g ← markmt g;
  Some (set_phase (currentwhite g) GCSpropagate g).

Definition remark_upval (uv : id) (g : global_State) : option global_State :=
  x ← heap g !! uv;
  if isgray (marked x) then
    match contents x with
    | GUpval pl => v ← place_value (heap g) pl; markvalue v g
    | _ => None
    end
  else Some g.
Definition remarkupvals (g : global_State) : option global_State := each remark_upval (uvhead g) g.

(** [atomic], with the running thread [L]. *)
Definition atomic (L : id) (g : global_State) : option global_State :=
  g ← remarkupvals g;
  g ← propagateall g;
  let g := set_lists (weak g) (grayagain g) [] g in
  g ← markobject L g;
  g ← markmt g;
  g ← propagateall g;
  let g := set_lists (grayagain g) [] (weak g) g in
  g ← propagateall g;
  g ← luaC_separateudata false g;
  g ← marktmu g;
  g ← propagateall g;
  g ← cleartable (weak g) g;
  Some (set_phase (u8 (otherwhite g)) GCSsweepstring g).

(** ** Barriers *)
Definition luaC_barrierf (o v : id) (g : global_State) : option global_State :=
  match gcstate g with
  | GCSpropagate => reallymarkobject MARKDEPTH v g
  | _ => Some (remark (makewhite g) o g)
  end.
Definition luaC_barrierback (t : id) (g : global_State) : global_State :=
  let g := remark black2gray t g in set_lists (gray g) (t :: grayagain g) (weak g) g.

(** The macros: [luaC_barrier]/[luaC_objbarrier] and their versions for tables. *)
Definition luaC_objbarrier (p o : id) (g : global_State) : option global_State :=
  x ← heap g !! o; y ← heap g !! p;
  if iswhite (marked x) && isblack (marked y) then luaC_barrierf p o g else Some g.
Definition luaC_objbarriert (t o : id) (g : global_State) : option global_State :=
  x ← heap g !! o; y ← heap g !! t;
  if iswhite (marked x) && isblack (marked y) then Some (luaC_barrierback t g) else Some g.

Definition luaC_link (o : id) (b : body) (g : global_State) : global_State :=
  set_objects (o :: rootgc g) (udata g) (tmudata g)
    (set_heap (<[o := {| marked := luaC_white g; contents := b |}]> (heap g)) g).
End Marking.

(** The test of [sweeplist] that keeps an object. *)
Definition sweep_keeps (g : global_State) (m : Z) : bool :=
  negb (Z.land (Z.lxor m WHITEBITS) (otherwhite g) =? 0).
