(* ===== verification/LGcProps.v ===== *)
(** * What the collector keeps: colours, shapes, references

    The shape of an object is its content without what marking may clean up (the keys
    of empty nodes, the stack above the top). Marking keeps shapes, so what depends on
    shapes only - the references of an object, that the heap is well formed - is fixed
    during a mark phase. *)
From stdpp Require Import base list option gmap.
From Stdlib Require Import ZArith Lia ZifyBool.
From S2P Require Import Prelude LGc.
#[local] Open Scope Z_scope.
Implicit Types (g : global_State).

(** ** Colours *)
Lemma white2gray_white m : iswhite (white2gray m) = false.
Proof. unfold iswhite, white2gray. rewrite <- Z.land_assoc. change (Z.land 252 WHITEBITS) with 0. by rewrite Z.land_0_r. Qed.
Lemma white2gray_black m : isblack (white2gray m) = isblack m.
Proof. unfold isblack, white2gray. by rewrite <- Z.land_assoc. Qed.
Lemma gray2black_white m : iswhite (gray2black m) = iswhite m.
Proof.
  unfold iswhite, gray2black. rewrite Z.land_lor_distr_l. change (Z.land BLACKMASK WHITEBITS) with 0. by rewrite Z.lor_0_r.
Qed.
Lemma gray2black_black m : isblack (gray2black m) = true.
Proof.
  unfold isblack, gray2black. rewrite Z.land_lor_distr_l. change (Z.land BLACKMASK BLACKMASK) with BLACKMASK.
  destruct (Z.eqb_spec (Z.lor (Z.land m BLACKMASK) BLACKMASK) 0) as [E|]; [|done].
  by apply Z.lor_eq_0_iff in E as [_ E].
Qed.
Lemma black2gray_white m : iswhite (black2gray m) = iswhite m.
Proof. unfold iswhite, black2gray. by rewrite <- Z.land_assoc. Qed.
Lemma black2gray_black m : isblack (black2gray m) = false.
Proof. unfold isblack, black2gray. rewrite <- Z.land_assoc. change (Z.land 251 BLACKMASK) with 0. by rewrite Z.land_0_r. Qed.
Lemma white2gray_vbit m : Z.land (white2gray m) VALUEWEAK = Z.land m VALUEWEAK.
Proof. unfold white2gray. by rewrite <- Z.land_assoc. Qed.
Lemma gray2black_vbit m : Z.land (gray2black m) VALUEWEAK = Z.land m VALUEWEAK.
Proof. unfold gray2black. rewrite Z.land_lor_distr_l. change (Z.land BLACKMASK VALUEWEAK) with 0. by rewrite Z.lor_0_r. Qed.
Lemma black2gray_vbit m : Z.land (black2gray m) VALUEWEAK = Z.land m VALUEWEAK.
Proof. unfold black2gray. by rewrite <- Z.land_assoc. Qed.
Lemma weak_bits_colour k v m : iswhite (weak_bits k v m) = iswhite m /\ isblack (weak_bits k v m) = isblack m.
Proof.
  unfold iswhite, isblack, weak_bits. rewrite !Z.land_lor_distr_l, <- !Z.land_assoc.
  by destruct k, v; cbn; rewrite ?Z.lor_0_r.
Qed.
Lemma markfinalized_colour m : iswhite (markfinalized m) = iswhite m /\ isblack (markfinalized m) = isblack m.
Proof. unfold iswhite, isblack, markfinalized. rewrite !Z.land_lor_distr_l. by cbn; rewrite ?Z.lor_0_r. Qed.

(** *** The two whites *)
Lemma low_zero z : (Z.land z WHITEBITS =? 0) = negb (Z.testbit z 0) && negb (Z.testbit z 1).
Proof.
  change WHITEBITS with (Z.ones 2). rewrite Z.land_ones by done. change (2 ^ 2) with 4.
  rewrite Z.bit0_odd, (Z.testbit_odd z 1), Z.shiftr_div_pow2 by done. change (2 ^ 1) with 2.
  rewrite !Zodd_mod. Z.to_euclidean_division_equations. lia.
Qed.
Lemma isdead_bits g m : isdead g m =
  Z.testbit m 0 && negb (Z.testbit (currentwhite g) 0) || Z.testbit m 1 && negb (Z.testbit (currentwhite g) 1).
Proof.
  unfold isdead, otherwhite. rewrite low_zero, !Z.land_spec, !Z.lxor_spec. cbn [WHITEBITS Z.testbit].
  change (Z.testbit WHITEBITS 0) with true. change (Z.testbit WHITEBITS 1) with true.
  by destruct (Z.testbit m 0), (Z.testbit m 1), (Z.testbit (currentwhite g) 0), (Z.testbit (currentwhite g) 1).
Qed.
Lemma new_not_dead g : isdead g (luaC_white g) = false.
Proof.
  rewrite isdead_bits. unfold luaC_white. rewrite !Z.land_spec.
  by destruct (Z.testbit (currentwhite g) 0), (Z.testbit (currentwhite g) 1).
Qed.
Lemma changewhite_not_dead g m : luaC_white g <> 0 -> isdead g m = true -> isdead g (changewhite m) = false.
Proof.
  unfold luaC_white. intros Hw. rewrite !isdead_bits. unfold changewhite. rewrite !Z.lxor_spec.
  change (Z.testbit WHITEBITS 0) with true. change (Z.testbit WHITEBITS 1) with true.
  assert ((Z.land (currentwhite g) WHITEBITS =? 0) = false) as E by lia. rewrite low_zero in E.
  by destruct (Z.testbit m 0), (Z.testbit m 1), (Z.testbit (currentwhite g) 0), (Z.testbit (currentwhite g) 1).
Qed.

(** ** References *)
Definition refs (v : value) : list id := match v with Ref o | DeadKey o => [o] | _ => [] end.

Definition empty_node : Node := {| gkey := Nil; gval := Nil |}.
Definition strip_node (n : Node) : Node := if is_nil (gval n) then empty_node else n.

Definition strip (b : body) : body :=
  match b with
  | GTable m a nd => GTable m a (strip_node <$> nd)
  | GThread gt st _ => GThread gt st []
  | b => b
  end.
Definition shape g (o : id) : option body := (fun x => strip (contents x)) <$> heap g !! o.

Lemma elem_of_concat {A} (x : A) (ls : list (list A)) : x ∈ concat ls <-> exists l, l ∈ ls /\ x ∈ l.
Proof.
  induction ls as [|l ls IH]; cbn; [rewrite elem_of_nil; split; [done|]; intros (? & E%elem_of_nil & _); done|].
  rewrite elem_of_app, IH. setoid_rewrite elem_of_cons. naive_solver.
Qed.

Section Props.
Variables tm_mode tm_gc : id.
Implicit Types (o c : id) (b : body).

(** The references a node keeps alive, with the two kinds of weakness. *)
Definition node_kids (weakkey weakvalue : bool) (n : Node) : list id :=
  if is_nil (gval n) then []
  else (if weakkey then [] else refs (gkey n)) ++ (if weakvalue then [] else refs (gval n)).

Definition table_kids (weak : bool * bool) (m : option id) (a : list value) (nd : list Node) : list id :=
  option_list m ++ (if weak.2 then [] else concat (refs <$> a)) ++ concat (node_kids weak.1 weak.2 <$> nd).

(** All references of an object, weak ones too; an open upvalue has none of its own. *)
Definition brefs b : list id :=
  match b with
  | GString _ => []
  | GUserdata m env => option_list m ++ [env]
  | GUpval (Own v) => refs v
  | GUpval (Slot _ _) => []
  | GCClosure env up => env :: concat (refs <$> up)
  | GLClosure env p ups => env :: p :: ups
  | GTable m a nd => table_kids (false, false) m a nd
  | GThread gt st _ => refs gt ++ concat (refs <$> st)
  | GProto s k u p l =>
      option_list s ++ concat (refs <$> k) ++ concat (option_list <$> u) ++ concat (option_list <$> p) ++
      concat (option_list <$> l)
  end.

(** The references that keep other objects alive. *)
Definition body_kids (h : gmap id GCObject) b : list id :=
  match b with
  | GUpval pl => match place_value h pl with Some v => refs v | None => [] end
  | GTable m a nd => table_kids (mode tm_mode h m) m a nd
  | b => brefs b
  end.
Definition kids g o : list id := match shape g o with Some b => body_kids (heap g) b | None => [] end.

Lemma is_nil_strip n : is_nil (gval (strip_node n)) = is_nil (gval n).
Proof. unfold strip_node. by destruct (is_nil (gval n)) eqn:E. Qed.

Lemma table_kids_strip w m a nd : table_kids w m a (strip_node <$> nd) = table_kids w m a nd.
Proof.
  unfold table_kids. do 3 f_equal. rewrite <- list_fmap_compose. apply list_fmap_ext. intros i n _.
  unfold compose, node_kids. rewrite is_nil_strip. unfold strip_node. by destruct (is_nil (gval n)).
Qed.

Lemma brefs_strip b : brefs (strip b) = brefs b.
Proof. destruct b; try done. apply table_kids_strip. Qed.

Lemma body_kids_strip h b : body_kids h (strip b) = body_kids h b.
Proof. destruct b; try done. apply table_kids_strip. Qed.

Lemma node_kids_sub wk wv n : node_kids wk wv n ⊆ node_kids false false n.
Proof. unfold node_kids. destruct (is_nil _), wk, wv; set_solver. Qed.

Lemma table_kids_sub w m a nd : table_kids w m a nd ⊆ table_kids (false, false) m a nd.
Proof.
  unfold table_kids. intros c. rewrite !elem_of_app. intros [?|[Hc|Hc]]; [by left|..]; right.
  - destruct w as [wk [|]]; [by apply elem_of_nil in Hc|by left].
  - right. apply elem_of_concat in Hc as (l & Hc & Hl). apply elem_of_concat.
    apply list_elem_of_fmap in Hc as (n & -> & Hn). exists (node_kids false false n). split.
    + by apply list_elem_of_fmap_2.
    + by eapply node_kids_sub.
Qed.

(** *** What depends on shapes only *)
Definition same_shapes g g' : Prop := forall o, shape g' o = shape g o.

Lemma head_fmap_strip e nd :
  gval <$> head (filter (fun n => node_is e n = true) (strip_node <$> nd)) =
  gval <$> head (filter (fun n => node_is e n = true) nd).
Proof.
  induction nd as [|n nd IH]; [done|]. rewrite fmap_cons, !filter_cons.
  assert (node_is e (strip_node n) = node_is e n) as ->.
  { unfold node_is. rewrite is_nil_strip. unfold strip_node. destruct (is_nil (gval n)) eqn:E; [|done].
    cbn. destruct (gkey n); try done. by rewrite andb_false_r. }
  destruct (decide (node_is e n = true)) as [E|E]; [|done].
  cbn. f_equal. unfold strip_node. destruct (is_nil (gval n)) eqn:E'; [|done].
  unfold node_is in E. rewrite E' in E. destruct (gkey n); try done. by rewrite andb_false_r in E.
Qed.

Lemma shape_lookup g o b : shape g o = Some b -> exists x, heap g !! o = Some x /\ strip (contents x) = b.
Proof. unfold shape. destruct (heap g !! o) as [x|]; cbn; [|done]. intros [= <-]. by exists x. Qed.

Lemma fasttm_shape g g' et e : same_shapes g g' -> fasttm (heap g') et e = fasttm (heap g) et e.
Proof.
  intros Hs. destruct et as [m|]; [|done]. cbn. specialize (Hs m). unfold shape in Hs.
  destruct (heap g' !! m) as [x'|], (heap g !! m) as [x|]; cbn in *; try done. injection Hs as Hs.
  destruct (contents x'), (contents x); cbn in Hs; simplify_eq; try done.
  rewrite <- (head_fmap_strip e node), <- (head_fmap_strip e node0). congruence.
Qed.

Lemma mode_shape g g' et : same_shapes g g' -> mode tm_mode (heap g') et = mode tm_mode (heap g) et.
Proof.
  intros Hs. unfold mode. rewrite (fasttm_shape g g') by done.
  destruct (fasttm (heap g) et tm_mode) as [[| |s|]|]; try done. specialize (Hs s). unfold shape in Hs.
  destruct (heap g' !! s) as [x'|], (heap g !! s) as [x|]; cbn in *; try done. injection Hs as Hs.
  destruct (contents x'), (contents x); cbn in Hs; simplify_eq; done.
Qed.

Lemma place_shape g g' pl : same_shapes g g' -> place_value (heap g') pl = place_value (heap g) pl.
Proof.
  intros Hs. destruct pl as [v|th i]; [done|]. cbn. specialize (Hs th). unfold shape in Hs.
  destruct (heap g' !! th) as [x'|], (heap g !! th) as [x|]; cbn in *; try done. injection Hs as Hs.
  by destruct (contents x'), (contents x); cbn in Hs; simplify_eq.
Qed.

Lemma body_kids_shape g g' b : same_shapes g g' -> body_kids (heap g') b = body_kids (heap g) b.
Proof.
  intros Hs. destruct b; try done; cbn.
  - by rewrite (place_shape g g').
  - by rewrite (mode_shape g g').
Qed.

Lemma kids_shape g g' o : same_shapes g g' -> kids g' o = kids g o.
Proof. intros Hs. unfold kids. rewrite Hs. destruct (shape g o); [|done]. by apply body_kids_shape. Qed.

(** ** Well-formed heaps *)
Definition rank b : nat := match b with GUserdata _ _ => 1 | GUpval _ => 2 | _ => 0 end.
Definition limit b : nat := match b with GUserdata _ _ => 1 | GUpval _ => 2 | _ => 3 end.
Definition traversable b : Prop :=
  match b with GString _ | GUserdata _ _ | GUpval _ => False | _ => True end.

(** [o] is an object whose kind has [P]. *)
Definition is_kind g (P : body -> Prop) o : Prop := exists b, shape g o = Some b /\ P b.
Definition ref_ok g (n : nat) o : Prop := is_kind g (fun b => rank b < n)%nat o.
Definition is_string b : Prop := match b with GString _ => True | _ => False end.
Definition is_table b : Prop := match b with GTable _ _ _ => True | _ => False end.
Definition is_thread b : Prop := match b with GThread _ _ _ => True | _ => False end.
Definition is_udata b : Prop := match b with GUserdata _ _ => True | _ => False end.
Definition is_upval b : Prop := match b with GUpval _ => True | _ => False end.
Definition is_open b : Prop := match b with GUpval (Slot _ _) => True | _ => False end.
(** Objects whose references change without a barrier: they are never black. *)
Definition unbarriered b : Prop := match b with GUpval (Slot _ _) | GThread _ _ _ => True | _ => False end.

(** What a content refers to exists and is of a possible kind. *)
Definition body_ok g b : Prop :=
  Forall (ref_ok g (limit b)) (brefs b) /\
  match b with
  | GUpval pl => exists v, place_value (heap g) pl = Some v /\ Forall (ref_ok g 2) (refs v)
  | GProto s _ u _ l =>
      Forall (is_kind g is_string) (option_list s ++ concat (option_list <$> u) ++ concat (option_list <$> l))
  | _ => True
  end.

Record wt g : Prop := {
  wt_body : forall o b, shape g o = Some b -> body_ok g b;
  wt_main : is_kind g is_thread (mainthread g);
  wt_registry : Forall (ref_ok g 3) (refs (registry g));
  wt_mt : Forall (ref_ok g 3) (concat (option_list <$> mt g));
  wt_uvhead : Forall (is_kind g is_upval) (uvhead g);
  wt_open : forall o, is_kind g is_open o -> o ∈ uvhead g;
  wt_udata : Forall (is_kind g is_udata) (udata g);
  wt_tmudata : Forall (is_kind g is_udata) (tmudata g);
}.

(** The objects on the collector's lists. *)
Record wt_lists g : Prop := {
  wl_gray : Forall (is_kind g traversable) (gray g);
  wl_again : Forall (is_kind g traversable) (grayagain g);
  wl_weak : Forall (is_kind g is_table) (weak g);
}.

Lemma is_kind_shape g g' P o : same_shapes g g' -> is_kind g P o -> is_kind g' P o.
Proof. intros Hs (b & ? & ?). exists b. by rewrite Hs. Qed.
Lemma Forall_kind_shape g g' P l : same_shapes g g' -> Forall (is_kind g P) l -> Forall (is_kind g' P) l.
Proof. intros Hs Hl. eapply Forall_impl; [exact Hl|]. intros o. by apply is_kind_shape. Qed.

Lemma body_ok_shape g g' b : same_shapes g g' -> body_ok g b -> body_ok g' b.
Proof.
  intros Hs [H1 H2]. split; [by eapply Forall_kind_shape|].
  destruct b; try done.
  - destruct H2 as (w & ? & ?). exists w. rewrite (place_shape g g') by done. split; [done|]. by eapply Forall_kind_shape.
  - by eapply Forall_kind_shape.
Qed.

(** The roots and the lists that marking does not touch. *)
Definition rest g :=
  (currentwhite g, gcstate g, rootgc g, (udata g, tmudata g), (uvhead g, mainthread g, registry g, mt g)).

Lemma wt_rest g g' : same_shapes g g' -> rest g' = rest g -> wt g -> wt g'.
Proof.
  intros Hs [= ? ? ? Hu Ht Hv Hm Hr Hmt] [W1 W2 W3 W4 W5 W6 W7 W8].
  split; rewrite ?Hu, ?Ht, ?Hv, ?Hm, ?Hr, ?Hmt; try by eapply Forall_kind_shape.
  - intros o b Hb. rewrite Hs in Hb. eapply body_ok_shape; eauto.
  - by eapply is_kind_shape.
  - intros o Ho. apply W6. eapply is_kind_shape; [|exact Ho]. intros c. symmetry. apply Hs.
Qed.

(** ** Colours of objects *)
Definition nonwhite g o : Prop := exists x, heap g !! o = Some x /\ iswhite (marked x) = false.
Definition black g o : Prop := exists x, heap g !! o = Some x /\ isblack (marked x) = true.

(** Everything the object keeps alive is marked; every reference of it is. *)
Definition closed g o : Prop := forall c, c ∈ kids g o -> nonwhite g c.
Definition full g o : Prop := exists b, shape g o = Some b /\ ~ unbarriered b /\ forall c, c ∈ brefs b -> nonwhite g c.

Lemma full_closed g o : full g o -> closed g o.
Proof.
  intros (b & Hb & Ho & Hf) c. unfold kids. rewrite Hb. intros Hc. apply Hf.
  destruct b as [| |[|]| | | | |]; try done. by eapply table_kids_sub.
Qed.

Lemma closed_mono g g' o : same_shapes g g' -> (forall o, nonwhite g o -> nonwhite g' o) -> closed g o -> closed g' o.
Proof. intros Hs Hw Hc c. rewrite (kids_shape g g') by done. auto. Qed.
Lemma full_mono g g' o : same_shapes g g' -> (forall o, nonwhite g o -> nonwhite g' o) -> full g o -> full g' o.
Proof. intros Hs Hw (b & ? & ? & Hf). exists b. rewrite Hs. eauto. Qed.

(** The bit that says the values of a weak table are weak is set. *)
Definition vbit g o : Prop := exists x, heap g !! o = Some x /\
  match strip (contents x) with
  | GTable m _ _ => (mode tm_mode (heap g) m).2 = true -> (Z.land (marked x) VALUEWEAK =? 0) = false
  | _ => True
  end.

Lemma vbit_mono g g' o : same_shapes g g' ->
  (forall x x', heap g !! o = Some x -> heap g' !! o = Some x' -> Z.land (marked x') VALUEWEAK = Z.land (marked x) VALUEWEAK) ->
  vbit g o -> vbit g' o.
Proof.
  intros Hs Hm (x & E & Hv). assert (shape g' o = Some (strip (contents x))) as (x' & E' & Hx)%shape_lookup.
  { rewrite Hs. unfold shape. by rewrite E. }
  exists x'. split; [done|]. rewrite Hx. rewrite (Hm x x') by done. destruct (strip (contents x)); try done.
  by rewrite (mode_shape g g').
Qed.

(** Nothing is left to do for a marked object but to clear weak references. *)
Definition done_with g o : Prop :=
  full g o \/ (is_kind g unbarriered o /\ closed g o) \/ (o ∈ weak g /\ closed g o /\ vbit g o).

Lemma done_mono g g' o : same_shapes g g' -> (forall o, nonwhite g o -> nonwhite g' o) -> (vbit g o -> vbit g' o) ->
  (o ∈ weak g -> o ∈ weak g') -> done_with g o -> done_with g' o.
Proof.
  intros Hs Hw Hv Hwk [Hf|[[Ho Hc]|(? & Hc & ?)]].
  - left. by eapply full_mono.
  - right; left. split; [by eapply is_kind_shape|by eapply closed_mono].
  - right; right. split; [auto|]. split; [by eapply closed_mono|auto].
Qed.

Lemma done_closed g o : done_with g o -> closed g o.
Proof. intros [?|[[_ ?]|(_ & ? & _)]]; [by apply full_closed|done..]. Qed.

(** ** The elementary changes *)
Lemma lookup_remark f o g o' : heap (remark f o g) !! o' =
  if decide (o' = o) then (fun x => {| marked := f (marked x); contents := contents x |}) <$> heap g !! o' else heap g !! o'.
Proof.
  cbn. destruct (decide (o' = o)) as [->|Hne]; [by rewrite lookup_alter_eq|by rewrite lookup_alter_ne].
Qed.

Lemma shapes_remark f o g : same_shapes g (remark f o g).
Proof. intros o'. unfold shape. rewrite lookup_remark. destruct (decide _); [|done]. by destruct (heap g !! o'). Qed.

Lemma nonwhite_remark f o g o' :
  nonwhite (remark f o g) o' <-> if decide (o' = o) then exists x, heap g !! o = Some x /\ iswhite (f (marked x)) = false else nonwhite g o'.
Proof.
  unfold nonwhite. rewrite lookup_remark. destruct (decide (o' = o)) as [->|]; [|done].
  destruct (heap g !! o) as [x|]; cbn; split; intros (y & Hy & ?); simplify_eq; eauto.
Qed.

Lemma black_remark f o g o' :
  black (remark f o g) o' <-> if decide (o' = o) then exists x, heap g !! o = Some x /\ isblack (f (marked x)) = true else black g o'.
Proof.
  unfold black. rewrite lookup_remark. destruct (decide (o' = o)) as [->|]; [|done].
  destruct (heap g !! o) as [x|]; cbn; split; intros (y & Hy & ?); simplify_eq; eauto.
Qed.
End Props.

(** A mark byte that carries the current white and no other colour. *)
Definition white_now (g : global_State) (m : Z) : Prop :=
  Z.land m WHITEBITS = luaC_white g /\ isblack m = false.

Lemma makewhite_now g m : white_now g (makewhite g m).
Proof.
  unfold white_now, isblack, makewhite, luaC_white. split.
  - rewrite Z.land_lor_distr_l, <- !Z.land_assoc. change (Z.land maskmarks WHITEBITS) with 0.
    change (Z.land WHITEBITS WHITEBITS) with WHITEBITS. by rewrite Z.land_0_r.
  - rewrite Z.land_lor_distr_l, <- !Z.land_assoc. by rewrite ?Z.land_0_r.
Qed.
