(* ===== verification/LGcMark.v ===== *)
(** * The mark phase marks what is reachable

    [marks X g g'] is what every step of the mark phase does: shapes and roots stay,
    nothing turns white, the lists grow at the front, and a new grey or black object is
    in order - on the gray list, or all it refers to is marked - unless it is in [X],
    the objects still being worked on. [marking] adds that the step succeeds and which
    objects it has marked. *)
From stdpp Require Import base list option gmap relations.
From Stdlib Require Import ZArith Lia ZifyBool.
From S2P Require Import Prelude LGc LGcProps.
#[local] Open Scope Z_scope.
Implicit Types (g : global_State).

(** ** Functions that succeed *)
Definition yields {A} (m : option A) (Q : A -> Prop) : Prop := exists a, m = Some a /\ Q a.

Lemma yields_some {A} (a : A) (Q : A -> Prop) : Q a -> yields (Some a) Q.
Proof. exists a. done. Qed.
Lemma yields_bind {A B} (m : option A) (f : A -> option B) (P : A -> Prop) (Q : B -> Prop) :
  yields m P -> (forall a, P a -> yields (f a) Q) -> yields (m ≫= f) Q.
Proof. intros (a & -> & Ha) Hf. by apply Hf. Qed.
Lemma yields_mono {A} (m : option A) (P Q : A -> Prop) : yields m P -> (forall a, P a -> Q a) -> yields m Q.
Proof. intros (a & -> & Ha) Hf. exists a. auto. Qed.

(** A step for each element of a list, for a preorder [R] of steps and a stable promise [T]. *)
Lemma each_rel {A} (R : relation global_State) `{!PreOrder R} (T : A -> global_State -> Prop) f l g :
  (forall a g1 g2, T a g1 -> R g1 g2 -> T a g2) ->
  (forall a g', a ∈ l -> R g g' -> yields (f a g') (fun g2 => R g' g2 /\ T a g2)) ->
  yields (each f l g) (fun g' => R g g' /\ forall a, a ∈ l -> T a g').
Proof.
  intros HT. revert g. induction l as [|a l IH]; intros g H.
  - apply yields_some. split; [reflexivity|]. by intros a ?%elem_of_nil.
  - cbn [each]. eapply yields_bind; [apply H; [by left|reflexivity]|]. cbv beta. intros g1 [H1 Ta].
    eapply yields_mono; [apply IH; intros b g2 Hb H2; apply H; [by right|by transitivity g1]|].
    cbv beta. intros g2 [H2 Tl]. split; [by transitivity g1|]. intros b [->|Hb]%elem_of_cons; [by eapply HT|auto].
Qed.

(** ** Counting the work that is left *)
Definition white g (o : id) : Prop := exists x, heap g !! o = Some x /\ iswhite (marked x) = true.
Definition wset g : gset id := dom (filter (fun kv => iswhite (marked kv.2) = true) (heap g)).
Definition weight g : nat := (size (wset g) + length (gray g))%nat.

Lemma elem_of_wset g o : o ∈ wset g <-> white g o.
Proof. unfold wset, white. rewrite elem_of_dom. split; intros (x & Hx); exists x; by apply (map_lookup_filter_Some (fun kv : nat * GCObject => iswhite (marked kv.2) = true)) in Hx || apply map_lookup_filter_Some. Qed.

Lemma white_or_not g o x : heap g !! o = Some x -> white g o \/ nonwhite g o.
Proof. intros E. destruct (iswhite (marked x)) eqn:W; [left|right]; by exists x. Qed.
Lemma white_nonwhite g o : white g o -> nonwhite g o -> False.
Proof. intros (x & E & W) (y & E' & W'). congruence. Qed.

Lemma wset_remark f o g : (forall m, iswhite (f m) = iswhite m) -> wset (remark f o g) = wset g.
Proof.
  intros Hf. apply set_eq. intros c. rewrite !elem_of_wset. unfold white. rewrite lookup_remark.
  destruct (decide (c = o)) as [->|]; [|done]. destruct (heap g !! o) as [x|]; cbn; [|naive_solver].
  split; intros (y & [= <-] & Hy); eexists; (split; [done|]); cbn in *; by rewrite ?Hf in *.
Qed.

Lemma weight_white2gray g o : white g o -> weight g = S (weight (remark white2gray o g)).
Proof.
  intros Ho. unfold weight. cbn [gray remark set_heap].
  assert (wset (remark white2gray o g) = wset g ∖ {[o]}) as ->.
  { apply set_eq. intros c. rewrite elem_of_difference, elem_of_singleton, !elem_of_wset. unfold white.
    rewrite lookup_remark. destruct (decide (c = o)) as [->|]; [|naive_solver]. split; [|naive_solver].
    intros (y & Hy & W). destruct (heap g !! o) as [x|]; cbn in Hy; [|done]. injection Hy as <-. cbn in W.
    by rewrite white2gray_white in W. }
  assert (size (wset g) = S (size (wset g ∖ {[o]}))) as ->; [|done].
  rewrite size_difference by (apply singleton_subseteq_l; by apply elem_of_wset). rewrite size_singleton.
  assert (size (wset g) <> 0%nat); [|lia].
  intros E%size_empty_inv. by apply elem_of_wset, E, elem_of_empty in Ho.
Qed.

Section Mark.
Variables tm_mode tm_gc : id.
Implicit Types (o c : id) (X Y : id -> Prop).
#[local] Notation closed := (closed tm_mode).
#[local] Notation kids := (kids tm_mode).
#[local] Notation vbit := (vbit tm_mode).
#[local] Notation done_with := (done_with tm_mode).

(** ** The steps of the mark phase *)
Definition grown g (P : body -> Prop) (l l' : list id) : Prop := exists new, l' = new ++ l /\ Forall (is_kind g P) new.

Record core X g g' : Prop := {
  c_shape : same_shapes g g';
  c_rest : rest g' = rest g;
  c_white : forall o, nonwhite g o -> nonwhite g' o;
  c_new : forall o, nonwhite g' o -> nonwhite g o \/ X o \/ o ∈ gray g' \/ done_with g' o;
  c_vbit : forall o, vbit g o -> vbit g' o;
  c_gray : grown g traversable (gray g) (gray g');
  c_again : grown g traversable (grayagain g) (grayagain g');
  c_weak : grown g is_table (weak g) (weak g');
}.

(** Strings and open upvalues stay grey without being on a list. *)
Definition leaf b : Prop := is_string b \/ is_open b.

Record colour X g g' : Prop := {
  k_black : forall o, black g' o -> black g o \/ X o \/ full g' o;
  k_gray : forall o, nonwhite g' o -> nonwhite g o \/ X o \/ black g' o \/ o ∈ gray g' \/ is_kind g' leaf o;
  k_keep : forall o, black g o -> X o \/ black g' o;
}.

Record marks X g g' : Prop := {
  m_core : core X g g';
  m_colour : colour X g g';
  m_weight : (weight g' <= weight g)%nat;
}.

Lemma list_grown_refl g P l : grown g P l l.
Proof. by exists []. Qed.
Lemma list_grown_trans g1 g2 P l1 l2 l3 : same_shapes g1 g2 -> grown g1 P l1 l2 -> grown g2 P l2 l3 -> grown g1 P l1 l3.
Proof.
  intros Hs (n1 & -> & H1) (n2 & -> & H2). exists (n2 ++ n1). split; [by rewrite app_assoc|]. apply Forall_app. split; [|done].
  eapply Forall_kind_shape; [|exact H2]. intros o. symmetry. apply Hs.
Qed.
Lemma grown_elem g P l l' o : grown g P l l' -> o ∈ l -> o ∈ l'.
Proof. intros (n & -> & _) ?. apply elem_of_app. by right. Qed.

Lemma core_refl X g : core X g g.
Proof. split; auto using list_grown_refl. by intros o. Qed.
Lemma colour_refl X g : colour X g g.
Proof. split; auto. Qed.

Lemma core_trans X g1 g2 g3 : core X g1 g2 -> core X g2 g3 -> core X g1 g3.
Proof.
  intros H1 H2. pose proof (c_shape _ _ _ H1) as S1. pose proof (c_shape _ _ _ H2) as S2. split.
  - intros o. by rewrite S2, S1.
  - by rewrite (c_rest _ _ _ H2), (c_rest _ _ _ H1).
  - intros o Ho. by apply (c_white _ _ _ H2), (c_white _ _ _ H1).
  - intros o Ho. destruct (c_new _ _ _ H2 o Ho) as [Hn|?]; [|by right].
    destruct (c_new _ _ _ H1 o Hn) as [?|[?|[?|?]]]; [by left|by right; left|right; right; left|right; right; right].
    + eapply grown_elem; [apply H2|done].
    + eapply done_mono; [exact S2|apply H2|apply H2| |done]. eapply grown_elem; apply H2.
  - intros o Ho. by apply (c_vbit _ _ _ H2), (c_vbit _ _ _ H1).
  - eapply list_grown_trans; [exact S1|apply H1|apply H2].
  - eapply list_grown_trans; [exact S1|apply H1|apply H2].
  - eapply list_grown_trans; [exact S1|apply H1|apply H2].
Qed.

Lemma colour_trans X g1 g2 g3 : core X g2 g3 -> colour X g1 g2 -> colour X g2 g3 -> colour X g1 g3.
Proof.
  intros C2 H1 H2. pose proof (c_shape _ _ _ C2) as S2. split.
  - intros o Ho. destruct (k_black _ _ _ H2 o Ho) as [Hb|?]; [|by right].
    destruct (k_black _ _ _ H1 o Hb) as [?|[?|?]]; [by left|by right; left|right; right].
    eapply full_mono; [exact S2|apply C2|done].
  - intros o Ho. destruct (k_gray _ _ _ H2 o Ho) as [Hn|?]; [|by right].
    destruct (k_gray _ _ _ H1 o Hn) as [?|[?|[Hb|[?|?]]]]; [by left|by right; left|..]; right.
    + destruct (k_keep _ _ _ H2 o Hb); [by left|by right; left].
    + right; right; left. eapply grown_elem; [apply C2|done].
    + do 3 right. by eapply is_kind_shape.
  - intros o Ho. destruct (k_keep _ _ _ H1 o Ho) as [?|Hb]; [by left|]. by apply (k_keep _ _ _ H2).
Qed.

Lemma marks_refl X g : marks X g g.
Proof. split; auto using core_refl, colour_refl. Qed.
Lemma marks_trans X g1 g2 g3 : marks X g1 g2 -> marks X g2 g3 -> marks X g1 g3.
Proof.
  intros [C1 K1 W1] [C2 K2 W2]. split; [by eapply core_trans|by eapply colour_trans|lia].
Qed.

#[export] Instance marks_preorder X : PreOrder (marks X).
Proof. split; [intros g; apply marks_refl|intros g1 g2 g3; apply marks_trans]. Qed.

(** Fewer exceptions, once the objects of [X] are in order. *)
Lemma core_drop X Y g g' : core X g g' ->
  (forall o, X o -> nonwhite g' o -> nonwhite g o \/ Y o \/ o ∈ gray g' \/ done_with g' o) -> core Y g g'.
Proof.
  intros C H. split; try apply C. intros o Ho. destruct (c_new _ _ _ C o Ho) as [?|[HX|?]]; [by left|by apply H|by right; right].
Qed.
Lemma colour_drop X Y g g' : colour X g g' ->
  (forall o, X o -> (black g' o -> black g o \/ Y o \/ full g' o) /\
    (nonwhite g' o -> nonwhite g o \/ Y o \/ black g' o \/ o ∈ gray g' \/ is_kind g' leaf o) /\
    (black g o -> Y o \/ black g' o)) -> colour Y g g'.
Proof.
  intros K H. split; intros o Ho.
  - destruct (k_black _ _ _ K o Ho) as [?|[HX|?]]; [by left|by apply H|by right; right].
  - destruct (k_gray _ _ _ K o Ho) as [?|[HX|?]]; [by left|by apply H|by right; right].
  - destruct (k_keep _ _ _ K o Ho) as [HX|?]; [by apply H|by right].
Qed.
Definition nothing : id -> Prop := fun _ => False.
Lemma marks_nothing X g g' : marks nothing g g' -> marks X g g'.
Proof. intros [C K W]. split; [by eapply core_drop; [exact C|]|by eapply colour_drop; [exact K|]|done]. Qed.

Lemma marks_wt X g g' : marks X g g' -> wt g -> wt g'.
Proof. intros [C _ _]. apply wt_rest; apply C. Qed.
Lemma marks_kind X g g' P o : marks X g g' -> is_kind g P o -> is_kind g' P o.
Proof. intros [C _ _]. apply is_kind_shape, C. Qed.
Lemma marks_kinds X g g' P l : marks X g g' -> Forall (is_kind g P) l -> Forall (is_kind g' P) l.
Proof. intros [C _ _]. apply Forall_kind_shape, C. Qed.
Lemma marks_white X g g' o : marks X g g' -> nonwhite g o -> nonwhite g' o.
Proof. intros [C _ _]. apply C. Qed.

(** *** Elementary steps *)
Lemma vbit_remark f o g c : (forall m, Z.land (f m) VALUEWEAK = Z.land m VALUEWEAK) -> vbit g c -> vbit (remark f o g) c.
Proof.
  intros Hf. apply vbit_mono; [apply shapes_remark|]. intros x x' E. rewrite lookup_remark, E.
  destruct (decide _); cbn; intros [= <-]; [apply Hf|done].
Qed.

Lemma core_remark X f o g : (forall m, Z.land (f m) VALUEWEAK = Z.land m VALUEWEAK) ->
  (forall m, iswhite m = false -> iswhite (f m) = false) -> (X o \/ forall m, iswhite (f m) = iswhite m) ->
  core X g (remark f o g).
Proof.
  intros Hv Hf Ho. split; try apply list_grown_refl; try done; [|..|intros c; by apply vbit_remark].
  - apply shapes_remark.
  - intros c Hc. apply nonwhite_remark. destruct (decide (c = o)) as [->|]; [|done].
    destruct Hc as (x & ? & ?). exists x. auto.
  - intros c Hc. apply nonwhite_remark in Hc. destruct (decide (c = o)) as [->|]; [|by left].
    destruct Hc as (x & E & W). destruct Ho as [?|Hm]; [by right; left|]. left. exists x. by rewrite Hm in W.
Qed.

(** Mark bits change, the colour does not. *)
Lemma marks_same_colour X f o g :
  (forall x, heap g !! o = Some x -> iswhite (f (marked x)) = iswhite (marked x) /\ isblack (f (marked x)) = isblack (marked x)) ->
  (vbit g o -> vbit (remark f o g) o) -> marks X g (remark f o g).
Proof.
  intros Hf Hv. assert (forall c (P : bool * bool -> Prop),
    (exists y, heap (remark f o g) !! c = Some y /\ P (iswhite (marked y), isblack (marked y))) <->
    exists y, heap g !! c = Some y /\ P (iswhite (marked y), isblack (marked y))) as Hm.
  { intros c P. rewrite lookup_remark. destruct (decide (c = o)) as [->|]; [|done].
    destruct (heap g !! o) as [x|]; cbn; [|naive_solver]. destruct (Hf x eq_refl) as [Ew Ek].
    split; intros (y & [= <-] & Hy); eexists; (split; [done|]); cbn in *; by rewrite Ew, Ek in *. }
  assert (forall c, nonwhite (remark f o g) c <-> nonwhite g c) as Hw by (intros c; apply (Hm c (fun p => p.1 = false))).
  assert (forall c, black (remark f o g) c <-> black g c) as Hb by (intros c; apply (Hm c (fun p => p.2 = true))).
  split.
  - split; try apply list_grown_refl; try done; [apply shapes_remark|intros c; rewrite Hw; auto..|].
    intros c. destruct (decide (c = o)) as [->|Hne]; [done|]. apply vbit_mono; [apply shapes_remark|].
    intros x x' E. rewrite lookup_remark, decide_False, E by done. by intros [= <-].
  - split; intros c; rewrite ?Hw, ?Hb; auto.
  - unfold weight. apply Nat.add_le_mono_r, subseteq_size. intros c. rewrite !elem_of_wset.
    by apply (Hm c (fun p => p.1 = true)).
Qed.

Lemma marks_gray2black X o g : X o -> marks X g (remark gray2black o g).
Proof.
  intros HX. split.
  - apply core_remark; [apply gray2black_vbit| |by left]. intros m. by rewrite gray2black_white.
  - split; intros c.
    + rewrite black_remark. destruct (decide _) as [->|]; auto.
    + rewrite nonwhite_remark. destruct (decide _) as [->|]; auto.
    + rewrite black_remark. destruct (decide _) as [->|]; auto.
  - unfold weight. rewrite wset_remark; [done|]. apply gray2black_white.
Qed.

Lemma marks_black2gray X o g : X o -> marks X g (remark black2gray o g).
Proof.
  intros HX. split.
  - apply core_remark; [apply black2gray_vbit| |by left]. intros m. by rewrite black2gray_white.
  - split; intros c.
    + rewrite black_remark. destruct (decide _) as [->|]; auto.
    + rewrite nonwhite_remark. destruct (decide _) as [->|]; auto.
    + rewrite black_remark. destruct (decide _) as [->|]; auto.
  - unfold weight. rewrite wset_remark; [done|]. apply black2gray_white.
Qed.

Lemma marks_white2gray X o g : X o -> marks X g (remark white2gray o g).
Proof.
  intros HX. split.
  - apply core_remark; [apply white2gray_vbit| |by left]. intros m _. apply white2gray_white.
  - split; intros c.
    + rewrite black_remark. destruct (decide _) as [->|]; auto.
    + rewrite nonwhite_remark. destruct (decide _) as [->|]; auto.
    + rewrite black_remark. destruct (decide _) as [->|]; auto.
  - destruct (heap g !! o) as [x|] eqn:E.
    + destruct (white_or_not g o x E) as [W|W].
      * rewrite (weight_white2gray g o W). lia.
      * unfold weight. cbn [gray remark set_heap]. apply Nat.add_le_mono_r.
        apply subseteq_size. intros c. rewrite !elem_of_wset. unfold white. rewrite lookup_remark.
        destruct (decide (c = o)) as [->|]; [|done]. rewrite E. cbn. intros (y & [= <-] & Hy). cbn in Hy.
        by rewrite white2gray_white in Hy.
    + assert (remark white2gray o g = g) as ->; [|done]. unfold remark.
      rewrite alter_id by (intros x; congruence). by destruct g.
Qed.

Lemma nonwhite_white2gray o g x : heap g !! o = Some x -> nonwhite (remark white2gray o g) o.
Proof. intros E. apply nonwhite_remark. rewrite decide_True by done. exists x. by rewrite white2gray_white. Qed.

(** A new content of the same shape. *)
Lemma marks_set_contents X b o g x : heap g !! o = Some x -> strip b = strip (contents x) -> marks X g (set_contents b o g).
Proof.
  intros E Hb. assert (forall c, (fun y => (marked y, strip (contents y))) <$> heap (set_contents b o g) !! c =
    (fun y => (marked y, strip (contents y))) <$> heap g !! c) as Hl.
  { intros c. cbn. destruct (decide (c = o)) as [->|]; [|by rewrite lookup_alter_ne].
    rewrite lookup_alter_eq, E. cbn. by rewrite Hb. }
  assert (forall c (P : Z -> Prop), (exists y, heap (set_contents b o g) !! c = Some y /\ P (marked y)) <->
    exists y, heap g !! c = Some y /\ P (marked y)) as Hm.
  { intros c P. specialize (Hl c). destruct (heap (set_contents b o g) !! c), (heap g !! c); cbn in Hl; simplify_eq; try done.
    split; intros (y & [= <-] & Hy); eexists; (split; [done|]); congruence. }
  assert (forall c, nonwhite (set_contents b o g) c <-> nonwhite g c) as Hw by (intros c; apply (Hm c (fun m => iswhite m = false))).
  assert (forall c, black (set_contents b o g) c <-> black g c) as Hk by (intros c; apply (Hm c (fun m => isblack m = true))).
  split.
  - split; try apply list_grown_refl; try done.
    + intros c. unfold shape. specialize (Hl c).
      destruct (heap (set_contents b o g) !! c), (heap g !! c); cbn in Hl |- *; congruence.
    + intros c. by rewrite Hw.
    + intros c. rewrite Hw. by left.
    + intros c. apply vbit_mono; [intros c'; unfold shape; specialize (Hl c')|intros y y'; specialize (Hl c)].
      * destruct (heap (set_contents b o g) !! c'), (heap g !! c'); cbn in Hl |- *; congruence.
      * intros Ey Ey'. rewrite Ey, Ey' in Hl. cbn in Hl. congruence.
  - split; intros c; rewrite ?Hw, ?Hk; auto.
  - unfold weight. apply Nat.add_le_mono_r. apply subseteq_size. intros c. rewrite !elem_of_wset.
    by apply (Hm c (fun m => iswhite m = true)).
Qed.
(** ** The marking functions *)
Definition marking X (r : list id) g (m : option global_State) : Prop :=
  yields m (fun g' => marks X g g' /\ Forall (nonwhite g') r).

Lemma marking_none X g : marking X [] g (Some g).
Proof. apply yields_some. split; [apply marks_refl|done]. Qed.

Lemma marking_bind X r1 r2 g m (f : global_State -> option global_State) :
  marking X r1 g m -> (forall g', marks X g g' -> marking X r2 g' (f g')) -> marking X (r1 ++ r2) g (m ≫= f).
Proof.
  intros Hm Hf. eapply yields_bind; [exact Hm|]. cbv beta. intros g1 [H1 R1].
  eapply yields_mono; [by apply Hf|]. cbv beta. intros g2 [H2 R2]. split; [by eapply marks_trans|].
  apply Forall_app. split; [|done]. eapply Forall_impl; [exact R1|]. intros c. by eapply marks_white.
Qed.

Lemma marking_sub X r r' g m : (forall c, c ∈ r' -> c ∈ r) -> marking X r g m -> marking X r' g m.
Proof.
  intros Hr Hm. eapply yields_mono; [exact Hm|]. intros g' [? Hw]. split; [done|]. rewrite Forall_forall in Hw.
  apply Forall_forall. auto.
Qed.

Lemma marking_weaken X r g m : marking nothing r g m -> marking X r g m.
Proof. intros Hm. eapply yields_mono; [exact Hm|]. intros g' [? ?]. by split; [apply marks_nothing|]. Qed.

Lemma marking_each {A} X (r : A -> list id) (f : A -> global_State -> option global_State) l g :
  (forall a g', a ∈ l -> marks X g g' -> marking X (r a) g' (f a g')) -> marking X (concat (r <$> l)) g (each f l g).
Proof.
  intros H. eapply yields_mono.
  - apply (each_rel (marks X) (fun a g' => Forall (nonwhite g') (r a))); [|exact H].
    intros a g1 g2 Ha H12. eapply Forall_impl; [exact Ha|]. intros c. by eapply marks_white.
  - cbv beta. intros g' [Hg' Hl]. split; [done|]. apply Forall_forall.
    intros c (k & (a & -> & Ha)%list_elem_of_fmap & Hc)%elem_of_concat. specialize (Hl a Ha). rewrite Forall_forall in Hl. auto.
Qed.

Lemma marking_when X (f : id -> global_State -> option global_State) (x : option id) g :
  (forall o, x = Some o -> marking X [o] g (f o g)) -> marking X (option_list x) g (when_some f x g).
Proof. intros H. destruct x; [by apply H|apply marking_none]. Qed.

Lemma kind_lookup g P o : is_kind g P o -> exists x, heap g !! o = Some x /\ P (strip (contents x)).
Proof. intros (b & Hb & HP). destruct (shape_lookup g o b Hb) as (x & E & <-). by exists x. Qed.

Lemma shape_of g o x : heap g !! o = Some x -> shape g o = Some (strip (contents x)).
Proof. unfold shape. by intros ->. Qed.

(** *** [reallymarkobject] *)
Definition mark_with (fuel : nat) o g : option global_State :=
  x ← heap g !! o; if iswhite (marked x) then reallymarkobject fuel o g else Some g.

Definition real_ok (fuel : nat) : Prop := forall o g, wt g -> white g o ->
  is_kind g (fun b => rank b < fuel)%nat o -> marking nothing [o] g (reallymarkobject fuel o g).

Lemma mark_with_ok fuel o g : real_ok fuel -> wt g -> ref_ok g fuel o -> marking nothing [o] g (mark_with fuel o g).
Proof.
  intros Hreal Hwt Ho. unfold mark_with. destruct (kind_lookup _ _ _ Ho) as (x & E & _). rewrite E. cbn.
  destruct (iswhite (marked x)) eqn:W; [apply Hreal; [done|by exists x|done]|].
  apply yields_some. split; [apply marks_refl|]. apply Forall_singleton. by exists x.
Qed.

(** From the exceptional [o] to no exception: what [o] needs in the end. *)
Lemma marks_close o g g' : marks (eq o) g g' ->
  (black g' o -> black g o \/ full g' o) -> (black g o -> black g' o) ->
  (black g' o \/ o ∈ gray g' \/ is_kind g' leaf o) -> (o ∈ gray g' \/ done_with g' o) -> marks nothing g g'.
Proof.
  intros [C K W] H1 H2 H3 H4. split; [| |done].
  - eapply core_drop; [exact C|]. intros c <- _. tauto.
  - eapply colour_drop; [exact K|]. intros c <-. split; [|split]; tauto.
Qed.

(** The first line of the function, on a white object. *)
Lemma first_grey o g : white g o -> let g1 := remark white2gray o g in
  marks (eq o) g g1 /\ nonwhite g1 o /\ (black g1 o <-> black g o) /\ (weight g1 < weight g)%nat.
Proof.
  intros Hw g1. destruct (Hw) as (x & E & _). split; [by apply marks_white2gray|].
  split; [by eapply nonwhite_white2gray|]. split.
  - unfold g1. rewrite black_remark, decide_True by done. unfold black. setoid_rewrite white2gray_black. done.
  - rewrite (weight_white2gray g o Hw). unfold g1. lia.
Qed.

Lemma mark_string o g str : white g o -> shape g o = Some (GString str) -> marks nothing g (remark white2gray o g).
Proof.
  intros Hw Hb. destruct (first_grey o g Hw) as (Hm & Hn & Hk & _).
  assert (shape (remark white2gray o g) o = Some (GString str)) as Hs by (by rewrite shapes_remark).
  eapply marks_close; [exact Hm|tauto|tauto|right; right|right].
  - exists (GString str). split; [done|]. by left.
  - left. exists (GString str). split; [done|]. split; [by intros []|]. by intros c ?%elem_of_nil.
Qed.

Lemma mark_listed o g : white g o -> is_kind g traversable o -> marks nothing g (gray_push o (remark white2gray o g)).
Proof.
  intros Hw (b & Hb & Ht). destruct (first_grey o g Hw) as ([C K W] & Hn & Hk & Hlt). set (g1 := remark white2gray o g) in *.
  assert (marks (eq o) g (gray_push o g1)) as Hm.
  { split.
    - split; try apply C.
      + intros c [?|[?|[?|?]]]%(c_new _ _ _ C); auto. right; right; left. by right.
      + exists [o]. split; [done|]. apply Forall_singleton. by exists b.
    - split; intros c.
      + intros [?|[?|?]]%(k_black _ _ _ K); auto.
      + intros [?|[?|[?|[?|?]]]]%(k_gray _ _ _ K); auto. right; right; right; left. by right.
      + apply (k_keep _ _ _ K).
    - change (weight (gray_push o g1)) with (size (wset g1) + S (length (gray g1)))%nat. unfold weight in *. lia. }
  eapply marks_close; [exact Hm|intros ?; left; by apply Hk|by apply Hk|right; left; by left|left; by left].
Qed.

Lemma mark_udata fuel o g m env : real_ok fuel -> wt g -> white g o -> (1 <= fuel)%nat ->
  shape g o = Some (GUserdata m env) ->
  marking nothing [o] g
    (g ← when_some (mark_with fuel) m (remark gray2black o (remark white2gray o g)); mark_with fuel env g).
Proof.
  intros Hreal Hwt Hw Hf Hb. destruct (first_grey o g Hw) as (Hm & Hn & Hk & _). destruct (Hw) as (x & E & _).
  set (g1 := remark white2gray o g) in *. set (g2 := remark gray2black o g1).
  assert (marks (eq o) g g2) as H2 by (eapply marks_trans; [exact Hm|by apply marks_gray2black]).
  assert (black g2 o) as B2.
  { apply black_remark. rewrite decide_True by done. destruct Hn as (y & ? & _). exists y. by rewrite gray2black_black. }
  pose proof (wt_body _ (marks_wt _ _ _ H2 Hwt) o (GUserdata m env)) as Hok.
  assert (shape g2 o = Some (GUserdata m env)) as Hs2 by (by rewrite (c_shape _ _ _ (m_core _ _ _ H2))).
  specialize (Hok Hs2) as [Hr _]. cbn [limit brefs] in Hr. apply Forall_app in Hr as [Hrm Hre].
  assert (forall c g', ref_ok g2 1 c -> marks nothing g2 g' -> marking nothing [c] g' (mark_with fuel c g')) as Hmark.
  { intros c g' Hc Hg'. apply mark_with_ok; [done|exact (marks_wt _ _ _ Hg' (marks_wt _ _ _ H2 Hwt))|].
    eapply marks_kind; [exact Hg'|]. destruct Hc as (b & ? & ?). exists b. split; [done|lia]. }
  assert (marking nothing (option_list m ++ [env]) g2 (g ← when_some (mark_with fuel) m g2; mark_with fuel env g)) as Hkids.
  { apply marking_bind.
    - apply marking_when. intros c ->. apply Hmark; [exact (Forall_inv Hrm)|apply marks_refl].
    - intros g' Hg'. apply Hmark; [exact (Forall_inv Hre)|done]. }
  eapply yields_mono; [exact Hkids|]. cbv beta. intros g' [H' R'].
  assert (full g' o) as Hfull.
  { exists (GUserdata m env). split; [by rewrite (c_shape _ _ _ (m_core _ _ _ H'))|]. split; [by intros []|].
    rewrite Forall_forall in R'. exact R'. }
  assert (black g' o) as Hb' by (destruct (k_keep _ _ _ (m_colour _ _ _ H') o B2); [done|done]).
  split; [|apply Forall_singleton; eapply marks_white; [exact H'|eapply marks_white; [by apply marks_gray2black|done]]].
  eapply marks_close; [eapply marks_trans; [exact H2|by apply marks_nothing]|by right|done|by left|right; by left].
Qed.
(** The marking of a value with [f] for objects. *)
Definition value_with (f : id -> global_State -> option global_State) (v : value) g : option global_State :=
  match v with Ref c | DeadKey c => f c g | _ => Some g end.

Lemma marking_value X f v g : (forall c, refs v = [c] -> marking X [c] g (f c g)) -> marking X (refs v) g (value_with f v g).
Proof. intros H. destruct v; try apply marking_none; by apply H. Qed.

Lemma mark_upval fuel o g pl : real_ok fuel -> wt g -> white g o -> (2 <= fuel)%nat ->
  shape g o = Some (GUpval pl) ->
  marking nothing [o] g
    (v ← place_value (heap (remark white2gray o g)) pl;
     g ← value_with (mark_with fuel) v (remark white2gray o g);
     match pl with Own _ => Some (remark gray2black o g) | Slot _ _ => Some g end).
Proof.
  intros Hreal Hwt Hw Hf Hb. destruct (first_grey o g Hw) as (Hm & Hn & Hk & _).
  set (g1 := remark white2gray o g) in *.
  pose proof (marks_wt _ _ _ Hm Hwt) as Hwt1.
  assert (shape g1 o = Some (GUpval pl)) as Hs1 by (by rewrite (c_shape _ _ _ (m_core _ _ _ Hm))).
  destruct (wt_body _ Hwt1 o _ Hs1) as [_ (v & Hv & Hr)]. rewrite Hv. cbn [mbind option_bind].
  assert (marking nothing (refs v) g1 (value_with (mark_with fuel) v g1)) as Hval.
  { apply marking_value. intros c Hc. rewrite Hc in Hr. apply mark_with_ok; [done..|].
    destruct (Forall_inv Hr) as (b & ? & ?). exists b. split; [done|lia]. }
  eapply yields_bind; [exact Hval|]. cbv beta. intros g2 [H2 R2].
  assert (shape g2 o = Some (GUpval pl)) as Hs2 by (by rewrite (c_shape _ _ _ (m_core _ _ _ H2))).
  assert (place_value (heap g2) pl = Some v) as Hv2 by (rewrite (place_shape g1 g2); [done|apply H2]).
  pose proof (marks_white _ _ _ _ H2 Hn) as Hn2.
  assert (marks (eq o) g g2) as H02 by (eapply marks_trans; [exact Hm|by apply marks_nothing]).
  rewrite Forall_forall in R2. destruct pl as [v'|th i]; apply yields_some.
  - injection Hv as <-. set (g3 := remark gray2black o g2).
    assert (marks (eq o) g2 g3) as H3 by (by apply marks_gray2black).
    assert (black g3 o) as B3.
    { apply black_remark. rewrite decide_True by done. destruct Hn2 as (y & ? & _). exists y. by rewrite gray2black_black. }
    assert (full g3 o) as Hfull.
    { exists (GUpval (Own v')). split; [by rewrite (c_shape _ _ _ (m_core _ _ _ H3))|]. split; [by intros []|].
      intros c Hc. eapply marks_white; [exact H3|]. by apply R2. }
    split; [|apply Forall_singleton; by eapply marks_white].
    eapply marks_close; [by eapply marks_trans|by right|done|by left|right; by left].
  - split; [|by apply Forall_singleton]. eapply marks_close; [exact H02|..].
    + intros B. destruct (k_black _ _ _ (m_colour _ _ _ H2) o B) as [B1|[[]|?]]; [left; by apply Hk|by right].
    + intros B. apply Hk in B. by destruct (k_keep _ _ _ (m_colour _ _ _ H2) o B).
    + right; right. exists (GUpval (Slot th i)). split; [done|]. by right.
    + right. right; left. split; [by exists (GUpval (Slot th i))|]. intros c. unfold LGcProps.kids. rewrite Hs2. cbn [body_kids]. rewrite Hv2. apply R2.
Qed.

Theorem reallymark_ok fuel : real_ok fuel.
Proof.
  induction fuel as [|fuel IH]; intros o g Hwt Hw Ho; [destruct Ho as (b & _ & Hlt); lia|].
  destruct Ho as (b & Hb & Hlt). destruct (shape_lookup g o b Hb) as (x & E & Hx).
  assert (nonwhite (remark white2gray o g) o) as Hn by (by eapply nonwhite_white2gray).
  cbn [reallymarkobject]. rewrite E. cbn [mbind option_bind].
  assert (forall g', marks nothing g g' -> is_kind g traversable o -> marking nothing [o] g (Some (gray_push o (remark white2gray o g)))) as Hlist.
  { intros _ _ Ht. apply yields_some. split; [by apply mark_listed|]. by apply Forall_singleton. }
  destruct (contents x) as [str|m env|pl| | | | |] eqn:Ex; cbn in Hx; subst b; cbn in Hlt.
  - apply yields_some. split; [by eapply mark_string|]. by apply Forall_singleton.
  - apply (mark_udata fuel o g m env IH Hwt Hw); [lia|done].
  - apply (mark_upval fuel o g pl IH Hwt Hw); [lia|done].
  - apply (Hlist g); [apply marks_refl|by eexists].
  - apply (Hlist g); [apply marks_refl|by eexists].
  - apply (Hlist g); [apply marks_refl|by eexists].
  - apply (Hlist g); [apply marks_refl|by eexists].
  - apply (Hlist g); [apply marks_refl|by eexists].
Qed.

(** *** The macros around it *)
Lemma markobject_ok X o g : wt g -> ref_ok g 3 o -> marking X [o] g (markobject o g).
Proof. intros Hwt Ho. apply marking_weaken. apply (mark_with_ok MARKDEPTH o g (reallymark_ok _) Hwt Ho). Qed.

Lemma markvalue_ok X v g : wt g -> Forall (ref_ok g 3) (refs v) -> marking X (refs v) g (markvalue v g).
Proof.
  intros Hwt Hr. apply (marking_value X markobject). intros c Hc. rewrite Hc in Hr.
  apply markobject_ok; [done|exact (Forall_inv Hr)].
Qed.

Lemma stringmark_ok X o g : is_kind g is_string o -> marking X [o] g (stringmark o g).
Proof.
  intros (b & Hb & Hs). destruct (shape_lookup g o b Hb) as (x & E & Hx). unfold stringmark. rewrite E. cbn.
  destruct b as [str| | | | | | |]; try done. apply yields_some.
  split; [|apply Forall_singleton; by eapply nonwhite_white2gray]. apply marks_nothing.
  destruct (white_or_not g o x E) as [W|W]; [by eapply mark_string|].
apply marks_same_colour; [|apply vbit_remark, white2gray_vbit]. intros y Ey. destruct W as (z & Ez & W). assert (z = y) as -> by congruence.
  by rewrite white2gray_white, white2gray_black.
Qed.

(** *** The traversals *)
Lemma marks_weak_push X h g : is_kind g is_table h -> marks X g (set_lists (gray g) (grayagain g) (h :: weak g) g).
Proof.
  intros Hh. split; [|by split; auto|done]. split; try apply list_grown_refl; try done; [by intros c; left|].
  exists [h]. split; [done|]. by apply Forall_singleton.
Qed.

Lemma marking_values X l g : wt g -> Forall (ref_ok g 3) (concat (refs <$> l)) ->
  marking X (concat (refs <$> l)) g (each markvalue l g).
Proof.
  intros Hwt Hl. apply marking_each. intros v g' Hv Hg'. apply markvalue_ok; [by eapply marks_wt|].
  eapply marks_kinds; [exact Hg'|]. rewrite Forall_forall in Hl |- *. intros c Hc. apply Hl, elem_of_concat.
  exists (refs v). split; [|done]. by apply list_elem_of_fmap_2.
Qed.

Lemma strip_table g1 h m a nd : shape g1 h = Some (strip (GTable m a nd)) ->
  exists x nd', heap g1 !! h = Some x /\ contents x = GTable m a nd' /\ strip_node <$> nd' = strip_node <$> nd.
Proof.
  intros (x & E & Hx)%shape_lookup. destruct (contents x) as [| | | | |m' a' nd'| |] eqn:Ex; try done.
  cbn in Hx. injection Hx as -> -> Hn. by exists x, nd'.
Qed.

Lemma strip_removeentry n : is_nil (gval n) = true -> strip_node (removeentry n) = empty_node.
Proof. intros Hn. unfold strip_node, removeentry. destruct (gkey n); cbn; by rewrite Hn. Qed.

Lemma mark_node_ok X h m a nd wk wv i n g : wt g -> shape g h = Some (strip (GTable m a nd)) ->
  nd !! i = Some n -> Forall (ref_ok g 3) (node_kids false false n) ->
  marking X (node_kids wk wv n) g (mark_node h wk wv (i, n) g).
Proof.
  intros Hwt Hs Hi Hr. unfold mark_node. cbn [fst snd]. unfold node_kids in *. destruct (is_nil (gval n)) eqn:En.
  - destruct (strip_table _ _ _ _ _ Hs) as (x & nd' & E & Ex & Hnd). rewrite E. cbn [mbind option_bind]. rewrite Ex.
    apply yields_some. split; [|done]. eapply marks_set_contents; [exact E|]. rewrite Ex. cbn. f_equal.
    rewrite list_fmap_insert, strip_removeentry by done. apply list_insert_id.
    rewrite Hnd, list_lookup_fmap, Hi. cbn. unfold strip_node. by rewrite En.
  - apply Forall_app in Hr as [Hk Hv]. apply marking_bind.
    + destruct wk; [apply marking_none|by apply markvalue_ok].
    + intros g' Hg'. destruct wv; [apply marking_none|]. apply markvalue_ok; [by eapply marks_wt|by eapply marks_kinds].
Qed.

Lemma concat_reverse {A} (f : A -> list id) l c : c ∈ concat (f <$> l) -> c ∈ concat (f <$> reverse l).
Proof.
  rewrite !elem_of_concat. intros (r & Hr & Hc). exists r. split; [|done].
  apply list_elem_of_fmap in Hr as (y & -> & Hy). apply list_elem_of_fmap_2. by apply elem_of_reverse.
Qed.

Lemma concat_imap (f : Node -> list id) nd c : c ∈ concat (f <$> nd) -> c ∈ concat ((fun p => f p.2) <$> imap pair nd).
Proof.
  rewrite !elem_of_concat. intros (r & Hr & Hc). exists r. split; [|done].
  apply list_elem_of_fmap in Hr as (n & -> & (i & Hi)%list_elem_of_lookup). apply list_elem_of_fmap.
  exists (i, n). split; [done|]. apply elem_of_lookup_imap. by exists i, n.
Qed.

Lemma node_refs g m a nd i n : Forall (ref_ok g 3) (table_kids (false, false) m a nd) -> nd !! i = Some n ->
  Forall (ref_ok g 3) (node_kids false false n).
Proof.
  intros Hr Hi. unfold table_kids in Hr. rewrite !Forall_app in Hr. destruct Hr as (_ & _ & Hr). rewrite Forall_forall in Hr |- *.
  intros c Hc. apply Hr, elem_of_concat. eexists. split; [|exact Hc]. apply list_elem_of_fmap_2. by eapply list_elem_of_lookup_2.
Qed.

(** A weak table gets its bits and goes to the list of weak tables. *)
Definition enlist (wk wv : bool) h g : global_State :=
  if wk || wv then
    let g := remark (weak_bits wk wv) h g in set_lists (gray g) (grayagain g) (h :: weak g) g
  else g.

Lemma enlist_ok X h m a nd g : shape g h = Some (strip (GTable m a nd)) ->
  let w := mode tm_mode (heap g) m in let g' := enlist w.1 w.2 h g in
  marks X g g' /\ (w.1 || w.2 = true -> h ∈ weak g' /\ vbit g' h).
Proof.
  intros Hs w g'. unfold g', enlist. destruct (w.1 || w.2) eqn:Ew; [|by split; [apply marks_refl|]].
  set (g1 := remark _ h g). assert (vbit g1 h) as Hv.
  { destruct (shape_lookup _ _ _ Hs) as (x & E & Hx). eexists. unfold g1 at 1. rewrite lookup_remark, decide_True, E by done.
    split; [done|]. cbn [contents marked]. rewrite Hx. cbn [strip]. rewrite (mode_shape tm_mode g g1) by apply shapes_remark.
    change (w.2 = true -> (Z.land (weak_bits w.1 w.2 (marked x)) VALUEWEAK =? 0) = false). intros ->.
    unfold weak_bits. rewrite !Z.land_lor_distr_l, <- Z.land_assoc. by destruct (w.1); cbn; rewrite Z.land_0_r. }
  split; [|split; [by left|exact Hv]]. eapply marks_trans.
  - apply (marks_same_colour X (weak_bits w.1 w.2) h); [intros; apply weak_bits_colour|by intros _].
  - apply marks_weak_push. exists (strip (GTable m a nd)). split; [|done]. unfold g1. by rewrite shapes_remark.
Qed.

(** The array and the nodes. *)
Lemma traverse_slots X h m a nd wk wv g : wt g -> shape g h = Some (strip (GTable m a nd)) -> wk && wv = false ->
  marking X ((if wv then [] else concat (refs <$> a)) ++ concat (node_kids wk wv <$> nd)) g
    (g ← (if wv then Some g else each markvalue (reverse a) g);
     each (mark_node h wk wv) (reverse (imap pair nd)) g).
Proof.
  intros Hwt Hs Hww. pose proof (wt_body _ Hwt h _ Hs) as [Hr _]. rewrite brefs_strip in Hr. cbn [limit strip brefs] in Hr.
  apply marking_bind.
  - destruct wv; [apply marking_none|]. eapply marking_sub; [intros c; apply concat_reverse|]. apply marking_values; [done|].
    unfold table_kids in Hr. rewrite !Forall_app in Hr. destruct Hr as (_ & Ha & _). rewrite Forall_forall in Ha |- *.
    intros c Hc. apply Ha. apply concat_reverse in Hc. by rewrite reverse_involutive in Hc.
  - intros g1 H1.
    eapply (marking_sub X (concat ((fun p => node_kids wk wv p.2) <$> reverse (imap pair nd)))).
    { intros c Hc. by apply concat_reverse, concat_imap. }
    apply marking_each. intros [i n] g' Hin Hg'. apply elem_of_reverse, elem_of_lookup_imap in Hin as (i' & n' & [= -> ->] & Hi).
    assert (marks X g g') as H0' by by eapply marks_trans.
    eapply mark_node_ok; [by eapply marks_wt|by rewrite (c_shape _ _ _ (m_core _ _ _ H0'))|exact Hi|].
    eapply marks_kinds; [exact H0'|]. by eapply node_refs.
Qed.

Lemma both_weak_kids m a nd : table_kids (true, true) m a nd = option_list m.
Proof.
  unfold table_kids. cbn [fst snd]. rewrite app_nil_l. assert (concat (node_kids true true <$> nd) = []) as ->; [|apply app_nil_r].
  induction nd as [|n nd IH]; [done|]. rewrite fmap_cons. cbn [concat]. rewrite IH. unfold node_kids. by destruct (is_nil _).
Qed.

Lemma traversetable_ok X h m a nd g : wt g -> shape g h = Some (strip (GTable m a nd)) ->
  let w := mode tm_mode (heap g) m in
  yields (traversetable tm_mode h m a nd g) (fun p => marks X g p.2 /\
    Forall (nonwhite p.2) (table_kids w m a nd) /\ p.1 = w.1 || w.2 /\ (p.1 = true -> h ∈ weak p.2 /\ vbit p.2 h)).
Proof.
  intros Hwt Hs w. pose proof (wt_body _ Hwt h _ Hs) as [Hr _]. rewrite brefs_strip in Hr. cbn [limit strip brefs] in Hr.
  unfold traversetable. eapply yields_bind.
  { apply (marking_when X). intros c ->. apply markobject_ok; [done|exact (Forall_inv Hr)]. }
  cbv beta. intros g1 [H1 R1]. rewrite (mode_shape tm_mode g g1) by apply H1. fold w.
  assert (shape g1 h = Some (strip (GTable m a nd))) as Hs1 by by rewrite (c_shape _ _ _ (m_core _ _ _ H1)).
  destruct (enlist_ok X h m a nd g1 Hs1) as [H2 Hweak]. rewrite (mode_shape tm_mode g g1) in * by apply H1. fold w in H2, Hweak.
  destruct w as [wk wv]. cbn [fst snd] in *. fold (enlist wk wv h g1). set (g2 := enlist wk wv h g1) in *.
  assert (marks X g g2) as H02 by by eapply marks_trans.
  assert (Forall (nonwhite g2) (option_list m)) as R2.
  { eapply Forall_impl; [exact R1|]. intros c. by eapply marks_white. }
  destruct (wk && wv) eqn:Eb.
  - apply andb_true_iff in Eb as [-> ->]. apply yields_some. rewrite both_weak_kids. auto.
  - assert (wt g2) as Hwt2 by by eapply marks_wt.
    assert (shape g2 h = Some (strip (GTable m a nd))) as Hs2 by by rewrite (c_shape _ _ _ (m_core _ _ _ H2)).
    destruct (traverse_slots X h m a nd wk wv g2 Hwt2 Hs2 Eb) as (g3 & E3 & H3 & R3).
    apply bind_Some in E3 as (g' & E' & E3). rewrite E'. cbn [mbind option_bind]. rewrite E3. apply yields_some. cbn [fst snd].
    split; [by eapply marks_trans|]. split; [|split; [done|]].
    + unfold table_kids. cbn [fst snd]. apply Forall_app. split; [|done]. eapply Forall_impl; [exact R2|]. intros c. by eapply marks_white.
    + intros Hw. destruct (Hweak Hw) as [? ?]. split; [eapply grown_elem; [apply H3|done]|by apply (c_vbit _ _ _ (m_core _ _ _ H3))].
Qed.

Lemma marking_optional X (f : id -> global_State -> option global_State) (l : list (option id)) g :
  (forall o g', o ∈ concat (option_list <$> l) -> marks X g g' -> marking X [o] g' (f o g')) ->
  marking X (concat (option_list <$> l)) g (each (when_some f) l g).
Proof.
  intros H. apply marking_each. intros oo g' Hoo Hg'. apply marking_when. intros o ->. apply H; [|done].
  apply elem_of_concat. exists [o]. split; [|by left]. apply list_elem_of_fmap. by exists (Some o).
Qed.

Lemma traverseproto_ok X o s k u p l g : wt g -> shape g o = Some (GProto s k u p l) ->
  marking X (brefs (GProto s k u p l)) g (traverseproto s k u p l g).
Proof.
  intros Hwt Hs. destruct (wt_body _ Hwt o _ Hs) as [Hr Hstr]. cbn [brefs limit] in Hr.
  rewrite !Forall_app in Hr. destruct Hr as (_ & Hk & _ & Hp & _).
  rewrite !Forall_app in Hstr. destruct Hstr as (Ss & Su & Sl).
  unfold traverseproto. apply marking_bind; [|intros g1 H1; apply marking_bind; [|intros g2 H2; apply marking_bind;
    [|intros g3 H3; apply marking_bind; [|intros g4 H4]]]].
  - apply marking_when. intros c ->. apply stringmark_ok. exact (Forall_inv Ss).
  - apply marking_values; [by eapply marks_wt|by eapply marks_kinds].
  - assert (marks X g g2) as H by by eapply marks_trans.
    apply marking_optional. intros c g' Hc Hg'. apply stringmark_ok. eapply marks_kind; [exact Hg'|].
    eapply marks_kind; [exact H|]. rewrite Forall_forall in Su. auto.
  - assert (marks X g g3) as H by (do 2 (eapply marks_trans; [|done]); done).
    apply marking_optional. intros c g' Hc Hg'. assert (marks X g g') as H' by by eapply marks_trans.
    apply markobject_ok; [by eapply marks_wt|]. eapply marks_kind; [exact H'|]. rewrite Forall_forall in Hp. by apply Hp.
  - assert (marks X g g4) as H by (do 3 (eapply marks_trans; [|done]); done).
    apply marking_optional. intros c g' Hc Hg'. apply stringmark_ok. eapply marks_kind; [exact Hg'|].
    eapply marks_kind; [exact H|]. rewrite Forall_forall in Sl. auto.
Qed.

Lemma traverseCclosure_ok X o env up g : wt g -> shape g o = Some (GCClosure env up) ->
  marking X (brefs (GCClosure env up)) g (g ← markobject env g; each markvalue up g).
Proof.
  intros Hwt Hs. destruct (wt_body _ Hwt o _ Hs) as [Hr _]. cbn [brefs limit] in Hr. apply Forall_cons in Hr as [He Hu].
  change (brefs (GCClosure env up)) with ([env] ++ concat (refs <$> up)). apply marking_bind; [by apply markobject_ok|].
  intros g' Hg'. apply marking_values; [by eapply marks_wt|by eapply marks_kinds].
Qed.

Lemma marking_objects X l g : wt g -> Forall (ref_ok g 3) l -> marking X l g (each markobject l g).
Proof.
  intros Hwt Hl. apply (marking_sub X (concat ((fun o => [o]) <$> l))).
  { intros c Hc. apply elem_of_concat. exists [c]. split; [|by left]. by apply (list_elem_of_fmap_2 (fun o => [o])). }
  apply marking_each. intros o g' Ho Hg'. apply markobject_ok; [by eapply marks_wt|]. eapply marks_kind; [exact Hg'|].
  rewrite Forall_forall in Hl. by apply Hl.
Qed.

Lemma traverseLclosure_ok X o env p ups g : wt g -> shape g o = Some (GLClosure env p ups) ->
  marking X (brefs (GLClosure env p ups)) g (g ← markobject env g; g ← markobject p g; each markobject ups g).
Proof.
  intros Hwt Hs. destruct (wt_body _ Hwt o _ Hs) as [Hr _]. cbn [brefs limit] in Hr.
  apply Forall_cons in Hr as [He Hr]. apply Forall_cons in Hr as [Hp Hu].
  change (brefs (GLClosure env p ups)) with ([env] ++ [p] ++ ups). apply marking_bind; [by apply markobject_ok|].
  intros g1 H1. apply marking_bind; [apply markobject_ok; [by eapply marks_wt|by eapply marks_kind]|].
  intros g2 H2. assert (marks X g g2) as H by by eapply marks_trans.
  apply marking_objects; [by eapply marks_wt|by eapply marks_kinds].
Qed.

Lemma traversestack_ok X th gt st rs g : wt g -> shape g th = Some (GThread gt st []) ->
  marking X (brefs (GThread gt st [])) g (traversestack th gt st rs g).
Proof.
  intros Hwt Hs. destruct (wt_body _ Hwt th _ Hs) as [Hr _]. cbn [brefs limit] in Hr. apply Forall_app in Hr as [Hg Hst].
  unfold traversestack. cbn [brefs]. apply marking_bind; [by apply markvalue_ok|].
  intros g1 H1. rewrite <- (app_nil_r (concat _)). apply marking_bind; [apply marking_values; [by eapply marks_wt|by eapply marks_kinds]|].
  intros g2 H2. assert (marks X g g2) as H by by eapply marks_trans.
  assert (shape g2 th = Some (GThread gt st [])) as (x & E & Hx)%shape_lookup by (by rewrite (c_shape _ _ _ (m_core _ _ _ H))).
  apply yields_some. split; [|done]. eapply marks_set_contents; [exact E|]. by rewrite Hx.
Qed.

(** *** [propagatemark] *)
Definition pop g : global_State := set_lists (tail (gray g)) (grayagain g) (weak g) g.

Lemma wt_pop g : wt g -> wt (pop g).
Proof. by apply wt_rest. Qed.

(** What a turn does, apart from the object it takes from the gray list. *)
Record turn o g g' : Prop := {
  t_core : core (eq o) (pop g) g';
  t_colour : colour (eq o) (pop g) g';
  t_weight : (weight g' < weight g)%nat;
  t_done : done_with g' o;
  t_full : black g' o -> full g' o;
  t_kept : black g' o \/ o ∈ grayagain g' \/ o ∈ weak g';
}.

Lemma turn_intro o g g' : gray g = o :: tail (gray g) -> marks (eq o) (pop g) g' -> done_with g' o -> (black g' o -> full g' o) ->
  (black g' o \/ o ∈ grayagain g' \/ o ∈ weak g') -> turn o g g'.
Proof.
  intros Hg [C K W] Hd Hf Hk. split; try done.
  unfold weight in *. rewrite Hg. cbn [length]. change (wset (pop g)) with (wset g) in W. cbn [gray pop set_lists] in W. lia.
Qed.

Lemma turn_full o g g' : gray g = o :: tail (gray g) -> marks (eq o) (pop g) g' -> full g' o ->
  (black g' o \/ o ∈ grayagain g' \/ o ∈ weak g') -> turn o g g'.
Proof. intros. apply turn_intro; [done..|by left|done|done]. Qed.

(** The object is made black first, and everything it refers to is marked. *)
Lemma turn_after o b g m : wt g -> gray g = o :: tail (gray g) -> shape g o = Some b -> ~ unbarriered b ->
  let g1 := remark gray2black o (pop g) in
  marking nothing (brefs b) g1 m -> yields m (turn o g).
Proof.
  intros Hwt Hg Hs Hb g1 Hm. eapply yields_mono; [exact Hm|]. cbv beta. intros g' [H1 R1].
  assert (marks (eq o) (pop g) g1) as H0 by by apply marks_gray2black.
  assert (shape g1 o = Some b) as Hs1 by by rewrite (c_shape _ _ _ (m_core _ _ _ H0)).
  apply turn_full; [done|eapply marks_trans; [exact H0|by apply marks_nothing]|..].
  - exists b. split; [by rewrite (c_shape _ _ _ (m_core _ _ _ H1))|]. split; [done|]. by rewrite Forall_forall in R1.
  - destruct (shape_lookup _ _ _ Hs) as (x & E & _). left. assert (black g1 o) as B.
    { apply black_remark. rewrite decide_True by done. exists x. by rewrite gray2black_black. }
    by destruct (k_keep _ _ _ (m_colour _ _ _ H1) o B).
Qed.

Lemma turn_table o m a nd g : wt g -> gray g = o :: tail (gray g) -> shape g o = Some (strip (GTable m a nd)) ->
  yields ('(w, g') ← traversetable tm_mode o m a nd (remark gray2black o (pop g));
          Some (if (w : bool) then remark black2gray o g' else g')) (turn o g).
Proof.
  intros Hwt Hg Hs. set (g1 := remark gray2black o (pop g)).
  assert (marks (eq o) (pop g) g1) as H0 by by apply marks_gray2black.
  assert (shape g1 o = Some (strip (GTable m a nd))) as Hs1 by by rewrite (c_shape _ _ _ (m_core _ _ _ H0)).
  assert (wt g1) as Hwt1 by (eapply marks_wt; [exact H0|by apply wt_pop]).
  eapply yields_bind; [apply (traversetable_ok nothing o m a nd g1 Hwt1 Hs1)|]. cbv beta. intros [w g2] (H2 & R2 & Ew & Hw).
  cbn [fst snd] in *. rewrite Forall_forall in R2. apply yields_some.
  assert (marks (eq o) (pop g) g2) as H02 by (eapply marks_trans; [exact H0|by apply marks_nothing]).
  assert (shape g2 o = Some (strip (GTable m a nd))) as Hs2 by by rewrite (c_shape _ _ _ (m_core _ _ _ H2)).
  rewrite <- (mode_shape tm_mode g1 g2) in * by apply H2. destruct w.
  - assert (marks (eq o) g2 (remark black2gray o g2)) as H3 by by apply marks_black2gray.
    assert (marks (eq o) (pop g) (remark black2gray o g2)) as [C K W] by by eapply marks_trans.
    split; try done.
    + unfold weight in *. rewrite Hg. cbn [length]. change (wset (pop g)) with (wset g) in W. cbn [gray pop set_lists] in W. lia.
    + destruct (Hw eq_refl) as [Hin Hv]. right; right. split; [done|]. split; [|by apply (c_vbit _ _ _ (m_core _ _ _ H3))].
      intros c. unfold LGcProps.kids. rewrite (c_shape _ _ _ (m_core _ _ _ H3)), Hs2. cbn [strip body_kids].
      rewrite table_kids_strip, (mode_shape tm_mode g2) by apply H3. intros Hc.
      eapply marks_white; [exact H3|]. by apply R2.
    + rewrite black_remark, decide_True by done. intros (x & _ & B). by rewrite black2gray_black in B.
    + right; right. by apply Hw.
  - destruct (mode tm_mode (heap g2) m) as [[] []]; try done. apply turn_full; try done.
    + exists (strip (GTable m a nd)). split; [done|]. split; [by intros []|]. intros c. rewrite brefs_strip. apply R2.
    + destruct (shape_lookup _ _ _ Hs) as (x & E & _). left. assert (black g1 o) as B.
      { apply black_remark. rewrite decide_True by done. exists x. by rewrite gray2black_black. }
      by destruct (k_keep _ _ _ (m_colour _ _ _ H2) o B).
Qed.

Lemma turn_thread o gt st rs g : wt g -> gray g = o :: tail (gray g) -> shape g o = Some (GThread gt st []) ->
  let g1 := remark gray2black o (pop g) in
  yields (traversestack o gt st rs (remark black2gray o (set_lists (gray g1) (o :: grayagain g1) (weak g1) g1))) (turn o g).
Proof.
  intros Hwt Hg Hs g1. set (g2 := remark black2gray o _).
  assert (marks (eq o) (pop g) g2) as H2.
  { eapply marks_trans; [by apply marks_gray2black|]. eapply marks_trans; [|by apply marks_black2gray].
    split; [|by split; auto|done]. split; try apply list_grown_refl; try done; [by intros c; left|].
    exists [o]. split; [done|]. apply Forall_singleton. exists (GThread gt st []). split; [|done].
    rewrite shapes_remark. exact Hs. }
  assert (shape g2 o = Some (GThread gt st [])) as Hs2 by by rewrite (c_shape _ _ _ (m_core _ _ _ H2)).
  assert (wt g2) as Hwt2 by (eapply marks_wt; [exact H2|by apply wt_pop]).
  eapply yields_mono; [by apply (traversestack_ok nothing)|]. cbv beta. intros g' [H' R'].
  assert (shape g' o = Some (GThread gt st [])) as Hs' by by rewrite (c_shape _ _ _ (m_core _ _ _ H')).
  apply turn_intro; [done|eapply marks_trans; [exact H2|by apply marks_nothing]|..].
  - right; left. split; [by eexists|]. intros c. unfold LGcProps.kids. rewrite Hs'. rewrite Forall_forall in R'. apply R'.
  - intros B. destruct (k_black _ _ _ (m_colour _ _ _ H') o B) as [B2|[[]|?]]; [|done]. exfalso. revert B2.
    unfold g2. rewrite black_remark, decide_True by done. intros (x & _ & B2). by rewrite black2gray_black in B2.
  - right; left. eapply grown_elem; [apply H'|]. by left.
Qed.

Theorem propagatemark_ok o gr g : wt g -> gray g = o :: gr -> is_kind g traversable o ->
  yields (propagatemark tm_mode g) (turn o g).
Proof.
  intros Hwt Hg (b & Hs & Hb). assert (gray g = o :: tail (gray g)) as Hg' by by rewrite Hg.
  destruct (shape_lookup g o b Hs) as (x & E & Hx). unfold propagatemark. rewrite Hg, E. cbn [mbind option_bind].
  assert (set_lists gr (grayagain g) (weak g) (remark gray2black o g) = remark gray2black o (pop g)) as ->.
  { unfold pop. by rewrite Hg. }
  assert (shape (remark gray2black o (pop g)) o = Some b) as Hs1 by (by rewrite shapes_remark).
  assert (wt (remark gray2black o (pop g))) as Hwt1.
  { eapply (marks_wt (eq o)); [by apply marks_gray2black|by apply wt_pop]. }
  destruct (contents x) as [| | | | | |gt st rs|] eqn:Ex; cbn in Hx; subst b; try done.
  - eapply turn_after; [done..|by intros []|]. by eapply traverseCclosure_ok.
  - eapply turn_after; [done..|by intros []|]. by eapply traverseLclosure_ok.
  - by apply turn_table.
  - by apply turn_thread.
  - eapply turn_after; [done..|by intros []|]. by eapply traverseproto_ok.
Qed.
End Mark.
