(* ===== verification/LGcClear.v ===== *)
(** * Clearing weak tables

    [clears g g'] is what [cleartable] does: entries of tables become empty, strings
    are marked, nothing else changes. Afterwards no marked object refers to an
    unmarked one, not even weakly ([settled]). *)
From stdpp Require Import base list option gmap relations.
From Stdlib Require Import ZArith Lia ZifyBool.
From S2P Require Import Prelude LGc LGcProps LGcMark.
#[local] Open Scope Z_scope.
Implicit Types (g : global_State).

(** ** All references of an object *)
Definition body_refs (h : gmap id GCObject) (b : body) : list id :=
  match b with
  | GUpval pl => match place_value h pl with Some v => refs v | None => [] end
  | b => brefs b
  end.
Definition grefs g (o : id) : list id := match heap g !! o with Some x => body_refs (heap g) (contents x) | None => [] end.
Definition settled g (o : id) : Prop := forall c, c ∈ grefs g o -> nonwhite g c.

(** ** What is cleared *)
Definition slot_cleared (v v' : value) : Prop := v' = v \/ v' = Nil.
Definition node_cleared (n n' : Node) : Prop := n' = n \/ is_nil (gval n') = true.
Definition cleared (b b' : body) : Prop :=
  match b with
  | GTable m a nd => exists a' nd', b' = GTable m a' nd' /\ Forall2 slot_cleared a a' /\ Forall2 node_cleared nd nd'
  | _ => b' = b
  end.

#[export] Instance slot_cleared_trans : Transitive slot_cleared.
Proof. unfold slot_cleared. intros x y z. naive_solver. Qed.
#[export] Instance node_cleared_trans : Transitive node_cleared.
Proof. unfold node_cleared. intros x y z. naive_solver. Qed.

Lemma cleared_refl b : cleared b b.
Proof.
  destruct b; try done. eexists _, _. split; [done|]. split; apply Forall_Forall2_diag, Forall_true; intros; by left.
Qed.
Lemma cleared_trans b1 b2 b3 : cleared b1 b2 -> cleared b2 b3 -> cleared b1 b3.
Proof.
  destruct b1; cbn; try by intros ->. intros (a' & nd' & -> & Ha & Hn). cbn. intros (a'' & nd'' & -> & Ha' & Hn').
  exists a'', nd''. split; [done|]. split.
  - by transitivity a'.
  - by transitivity nd'.
Qed.

Lemma refs_cleared a a' c : Forall2 slot_cleared a a' -> c ∈ concat (refs <$> a') -> c ∈ concat (refs <$> a).
Proof.
  intros Ha (r & (v' & -> & (i & Hi)%list_elem_of_lookup)%list_elem_of_fmap & Hc)%elem_of_concat.
  destruct (Forall2_lookup_r _ _ _ _ _ Ha Hi) as (v & Hv & [->| ->]); [|by apply elem_of_nil in Hc].
  apply elem_of_concat. exists (refs v). split; [|done]. apply list_elem_of_fmap_2. by eapply list_elem_of_lookup_2.
Qed.

Lemma nodes_cleared wk wv nd nd' c : Forall2 node_cleared nd nd' ->
  c ∈ concat (node_kids wk wv <$> nd') -> c ∈ concat (node_kids wk wv <$> nd).
Proof.
  intros Ha (r & (n' & -> & (i & Hi)%list_elem_of_lookup)%list_elem_of_fmap & Hc)%elem_of_concat.
  destruct (Forall2_lookup_r _ _ _ _ _ Ha Hi) as (n & Hn & [->|E]); [|unfold node_kids in Hc; rewrite E in Hc; by apply elem_of_nil in Hc].
  apply elem_of_concat. exists (node_kids wk wv n). split; [|done]. apply list_elem_of_fmap_2. by eapply list_elem_of_lookup_2.
Qed.

Lemma table_kids_cleared w m a a' nd nd' c : Forall2 slot_cleared a a' -> Forall2 node_cleared nd nd' ->
  c ∈ table_kids w m a' nd' -> c ∈ table_kids w m a nd.
Proof.
  intros Ha Hn. unfold table_kids. rewrite !elem_of_app. intros [?|[Hc|Hc]]; [by left|..]; right.
  - left. destruct (w.2); [done|]. by eapply refs_cleared.
  - right. by eapply nodes_cleared.
Qed.

Record clears g g' : Prop := {
  cl_rest : rest g' = rest g;
  cl_lists : (gray g', grayagain g', weak g') = (gray g, grayagain g, weak g);
  cl_body : forall o x, heap g !! o = Some x -> exists x', heap g' !! o = Some x' /\ cleared (contents x) (contents x') /\
    Z.land (marked x') VALUEWEAK = Z.land (marked x) VALUEWEAK;
  cl_dom : forall o, heap g !! o = None -> heap g' !! o = None;
  cl_white : forall o, nonwhite g o -> nonwhite g' o;
  cl_new : forall o, nonwhite g' o -> nonwhite g o \/ is_kind g' is_string o;
}.

#[export] Instance clears_preorder : PreOrder clears.
Proof.
  split.
  - intros g. split; auto. intros o x E. exists x. split; [done|]. split; [apply cleared_refl|done].
  - intros g1 g2 g3 H1 H2. split.
    + by rewrite (cl_rest _ _ H2), (cl_rest _ _ H1).
    + by rewrite (cl_lists _ _ H2), (cl_lists _ _ H1).
    + intros o x E. destruct (cl_body _ _ H1 o x E) as (y & Ey & Cy & My). destruct (cl_body _ _ H2 o y Ey) as (z & Ez & Cz & Mz).
      exists z. split; [done|]. split; [by eapply cleared_trans|congruence].
    + intros o E. by apply (cl_dom _ _ H2), (cl_dom _ _ H1).
    + intros o Ho. by apply (cl_white _ _ H2), (cl_white _ _ H1).
    + intros o Ho. destruct (cl_new _ _ H2 o Ho) as [Hn|?]; [|by right].
      destruct (cl_new _ _ H1 o Hn) as [?|(b & Hb & Hs)]; [by left|right].
      destruct (shape_lookup _ _ _ Hb) as (x & E & Hx). destruct (cl_body _ _ H2 o x E) as (y & Ey & Cy & _).
      destruct (contents x) eqn:Ex; subst b; try done. cbn in Cy. exists (strip (contents y)). rewrite Cy.
      unfold shape. rewrite Ey. cbn. by rewrite Cy.
Qed.

Lemma place_cleared g g' pl v : clears g g' -> place_value (heap g) pl = Some v -> place_value (heap g') pl = Some v.
Proof.
  intros H. destruct pl as [w|th i]; [done|]. cbn. destruct (heap g !! th) as [x|] eqn:E; [|done]. cbn.
  destruct (cl_body _ _ H th x E) as (y & -> & Cy & _). cbn. destruct (contents x); try done. cbn in Cy. by rewrite Cy.
Qed.

Lemma grefs_cleared g g' o c : clears g g' ->
  (forall th i, shape g o = Some (GUpval (Slot th i)) -> is_Some (place_value (heap g) (Slot th i))) ->
  c ∈ grefs g' o -> c ∈ grefs g o.
Proof.
  intros H Hop. unfold grefs. destruct (heap g !! o) as [x|] eqn:E; [|by rewrite (cl_dom _ _ H o E)].
  destruct (cl_body _ _ H o x E) as (y & -> & Cy & _). destruct (contents x) as [| |pl| | |m a nd| |] eqn:Ex; cbn in Cy; try by rewrite Cy.
  - rewrite Cy. cbn [body_refs]. destruct pl as [w|th i]; [done|].
    destruct (Hop th i) as (v & Hv); [unfold shape; rewrite E; cbn; by rewrite Ex|].
    by rewrite Hv, (place_cleared _ _ _ _ H Hv).
  - destruct Cy as (a' & nd' & -> & Ha & Hn). by apply table_kids_cleared.
Qed.

(** ** The functions *)
Section Clear.
Variable tm_mode : id.
Implicit Types (h o c : id).

Lemma clears_mark_string o x str g : heap g !! o = Some x -> contents x = GString str -> clears g (remark white2gray o g).
Proof.
  intros E Ex. split; try done.
  - intros c y Ey. rewrite lookup_remark, Ey. destruct (decide _); eexists; (split; [done|]); (split; [apply cleared_refl|]); [apply white2gray_vbit|done].
  - intros c Ec. rewrite lookup_remark, Ec. by destruct (decide _).
  - intros c Hc. apply nonwhite_remark. destruct (decide (c = o)) as [->|]; [|done]. exists x. by rewrite white2gray_white.
  - intros c Hc. destruct (decide (c = o)) as [->|Hne]; [|left; apply nonwhite_remark in Hc; by rewrite decide_False in Hc].
    right. exists (GString str). split; [|done]. rewrite shapes_remark. unfold shape. rewrite E. cbn. by rewrite Ex.
Qed.

Lemma clears_set_contents b h x g : heap g !! h = Some x -> cleared (contents x) b ->
  (is_string (contents x) -> b = contents x) -> clears g (set_contents b h g).
Proof.
  intros E Hb Hs. assert (forall c y, heap g !! c = Some y -> exists y', heap (set_contents b h g) !! c = Some y' /\
    cleared (contents y) (contents y') /\ marked y' = marked y) as Hl.
  { intros c y Ey. cbn. destruct (decide (c = h)) as [->|Hne].
    - rewrite lookup_alter_eq, Ey. eexists. split; [done|]. assert (x = y) as -> by congruence. done.
    - rewrite lookup_alter_ne by done. exists y. split; [done|]. split; [apply cleared_refl|done]. }
  assert (forall c, heap g !! c = None -> heap (set_contents b h g) !! c = None) as Hd.
  { intros c Ec. cbn. rewrite lookup_alter_ne; [done|]. congruence. }
  split; try done.
  - intros c y Ey. destruct (Hl c y Ey) as (y' & E' & C' & M). exists y'. by rewrite M.
  - intros c (y & Ey & W). destruct (Hl c y Ey) as (y' & E' & _ & M). exists y'. split; [done|congruence].
  - intros c (y' & Ey' & W). left. destruct (heap g !! c) as [y|] eqn:Ey; [|by rewrite Hd in Ey'].
    destruct (Hl c y Ey) as (y'' & E' & _ & M). exists y. split; [done|]. congruence.
Qed.

Definition exists_in g o : Prop := is_Some (heap g !! o).

Lemma exists_cleared g g' o : clears g g' -> exists_in g o -> exists_in g' o.
Proof. intros H (x & E). destruct (cl_body _ _ H o x E) as (y & ? & _). by exists y. Qed.

Lemma iscleared_ok v iskey g : Forall (exists_in g) (refs v) ->
  yields (iscleared v iskey g) (fun p => clears g p.2 /\ (p.1 = false -> Forall (nonwhite p.2) (refs v)) /\
    (forall o x, heap g !! o = Some x -> exists m, heap p.2 !! o = Some {| marked := m; contents := contents x |})).
Proof.
  assert (forall (p : bool * global_State), p.2 = g -> (forall o x, heap g !! o = Some x ->
    exists m, heap p.2 !! o = Some {| marked := m; contents := contents x |})) as Hsame.
  { intros p -> o [m b] E. by exists m. }
  intros Hv. destruct v as [| |o|o]; cbn [iscleared refs] in *.
  - apply yields_some. split; [reflexivity|]. split; [done|by apply Hsame].
  - apply yields_some. split; [reflexivity|]. split; [done|by apply Hsame].
  - apply Forall_inv in Hv as (x & E). rewrite E. cbn [mbind option_bind].
    destruct (contents x) as [str| | | | | | |] eqn:Ex.
    all: apply yields_some; (split; [first [reflexivity|by eapply clears_mark_string]|]); (split; [|try by apply Hsame]).
    all: cbn [fst snd]; try (intros [? _]%orb_false_iff || intros ?; apply Forall_singleton; by exists x).
    + intros _. apply Forall_singleton. by eapply nonwhite_white2gray.
    + intros c y Ey. rewrite lookup_remark, Ey. destruct (decide _); [by eexists|]. destruct y as [m b]. by exists m.
  - apply Forall_inv in Hv as (x & E). rewrite E. cbn [mbind option_bind]. apply yields_some.
    split; [reflexivity|]. split; [|by apply Hsame]. intros ?. apply Forall_singleton. by exists x.
Qed.

Lemma insert_cleared {A} (R : A -> A -> Prop) (l : list A) i y : (forall z, R z z) -> (forall z, l !! i = Some z -> R z y) ->
  Forall2 R l (<[i := y]> l).
Proof.
  intros Hr Hy. apply Forall2_same_length_lookup. split; [by rewrite length_insert|]. intros j z z' Hz Hz'.
  destruct (decide (i = j)) as [->|Hne].
  - rewrite list_lookup_insert_eq in Hz' by (by eapply lookup_lt_Some). injection Hz' as <-. auto.
  - rewrite list_lookup_insert_ne in Hz' by done. by assert (z = z') as -> by congruence.
Qed.

(** A table of the state [g0] before the clearing, all of whose references exist. *)
Definition base g0 h m a0 nd0 : Prop :=
  exists x0, heap g0 !! h = Some x0 /\ contents x0 = GTable m a0 nd0 /\
    Forall (exists_in g0) (table_kids (false, false) m a0 nd0).

Lemma base_now g0 g h m a0 nd0 : base g0 h m a0 nd0 -> clears g0 g ->
  exists x a nd, heap g !! h = Some x /\ contents x = GTable m a nd /\
    Forall2 slot_cleared a0 a /\ Forall2 node_cleared nd0 nd /\
    Forall (exists_in g) (table_kids (false, false) m a nd).
Proof.
  intros (x0 & E0 & Ex0 & Hall) H. destruct (cl_body _ _ H h x0 E0) as (x & E & C & _). rewrite Ex0 in C.
  destruct C as (a & nd & Ex & Ha & Hn). exists x, a, nd. do 4 (split; [done|]). rewrite Forall_forall in Hall |- *.
  intros c Hc. eapply exists_cleared; [exact H|]. apply Hall. by eapply table_kids_cleared.
Qed.

Definition slot_ok h (i : nat) g : Prop := forall x m a nd v, heap g !! h = Some x -> contents x = GTable m a nd ->
  a !! i = Some v -> Forall (nonwhite g) (refs v).
Definition node_ok h (i : nat) g : Prop := forall x m a nd n, heap g !! h = Some x -> contents x = GTable m a nd ->
  nd !! i = Some n -> Forall (nonwhite g) (node_kids false false n).

Lemma table_before g g' h x' m a' nd' : clears g g' -> heap g' !! h = Some x' -> contents x' = GTable m a' nd' ->
  exists x a nd, heap g !! h = Some x /\ contents x = GTable m a nd /\ Forall2 slot_cleared a a' /\ Forall2 node_cleared nd nd'.
Proof.
  intros H E' Ex'. destruct (heap g !! h) as [x|] eqn:E; [|by rewrite (cl_dom _ _ H h E) in E'].
  destruct (cl_body _ _ H h x E) as (y & Ey & C & _). assert (y = x') as -> by congruence. rewrite Ex' in C.
  destruct (contents x) eqn:Ex; cbn in C; try done. destruct C as (? & ? & [= <- <- <-] & ? & ?). eauto 10.
Qed.

Lemma slot_ok_stable h i g1 g2 : slot_ok h i g1 -> clears g1 g2 -> slot_ok h i g2.
Proof.
  intros H1 H x m a nd v E Ex Hv. destruct (table_before _ _ _ _ _ _ _ H E Ex) as (x1 & a1 & nd1 & E1 & Ex1 & Ha & _).
  destruct (Forall2_lookup_r _ _ _ _ _ Ha Hv) as (v1 & Hv1 & [->| ->]); [|done].
  eapply Forall_impl; [by eapply H1|]. apply H.
Qed.

Lemma node_ok_stable h i g1 g2 : node_ok h i g1 -> clears g1 g2 -> node_ok h i g2.
Proof.
  intros H1 H x m a nd v E Ex Hv. destruct (table_before _ _ _ _ _ _ _ H E Ex) as (x1 & a1 & nd1 & E1 & Ex1 & _ & Hn).
  destruct (Forall2_lookup_r _ _ _ _ _ Hn Hv) as (v1 & Hv1 & [->|Hnil]); [|unfold node_kids; by rewrite Hnil].
  eapply Forall_impl; [by eapply H1|]. apply H.
Qed.

Lemma slot_refs_in m a nd i v : a !! i = Some v -> forall c, c ∈ refs v -> c ∈ table_kids (false, false) m a nd.
Proof.
  intros Hv c Hc. unfold table_kids. rewrite !elem_of_app. right; left. apply elem_of_concat. exists (refs v). split; [|done].
  apply list_elem_of_fmap_2. by eapply list_elem_of_lookup_2.
Qed.

Lemma node_refs_in w m a nd i n : nd !! i = Some n -> forall c, c ∈ node_kids w.1 w.2 n -> c ∈ table_kids w m a nd.
Proof.
  intros Hv c Hc. unfold table_kids. rewrite !elem_of_app. right; right. apply elem_of_concat. eexists. split; [|exact Hc].
  apply (list_elem_of_fmap_2 (node_kids w.1 w.2)). by eapply list_elem_of_lookup_2.
Qed.

Lemma clear_slot_ok g0 g h m a0 nd0 i : base g0 h m a0 nd0 -> clears g0 g -> (i < length a0)%nat ->
  yields (clear_slot h i g) (fun g' => clears g g' /\ slot_ok h i g').
Proof.
  intros Hb H Hi. destruct (base_now _ _ _ _ _ _ Hb H) as (x & a & nd & E & Ex & Ha & _ & Hall).
  destruct (lookup_lt_is_Some_2 a i) as [v Hv]; [by rewrite <- (Forall2_length _ _ _ Ha)|].
  unfold clear_slot. rewrite E. cbn [mbind option_bind]. rewrite Ex, Hv. cbn [mbind option_bind].
  assert (Forall (exists_in g) (refs v)) as Hr.
  { rewrite Forall_forall in Hall |- *. intros c Hc. apply Hall. by eapply slot_refs_in. }
  eapply yields_bind; [by apply iscleared_ok|]. cbv beta. intros [[] g1] (H1 & Hc & Hs); cbn [fst snd] in *; apply yields_some.
  - destruct (Hs h x E) as [mk E1]. rewrite Ex in E1.
    assert (clears g1 (set_contents (GTable m (<[i:=Nil]> a) nd) h g1)) as H2.
    { eapply clears_set_contents; [exact E1| |done]. cbn [contents]. eexists _, _. split; [done|].
      split; [apply insert_cleared; [by left|by right]|]. apply Forall_Forall2_diag, Forall_true. by left. }
    split; [by transitivity g1|]. intros y m' a' nd' w Ey. cbn in Ey. rewrite lookup_alter_eq, E1 in Ey. injection Ey as <-.
    cbn [contents]. intros [= <- <- <-]. rewrite list_lookup_insert_eq by (by eapply lookup_lt_Some). by intros [= <-].
  - split; [done|]. intros y m' a' nd' w Ey Ey' Hw. destruct (Hs h x E) as [mk E1]. assert (y = Build_GCObject mk (contents x)) as -> by congruence.
    cbn [contents] in Ey'. assert (w = v) as -> by congruence. by apply Hc.
Qed.

Lemma key_value_refs n : is_nil (gval n) = false -> node_kids false false n = refs (gkey n) ++ refs (gval n).
Proof. unfold node_kids. by intros ->. Qed.

(** The two tests of a node: cleared, or both references marked. *)
Lemma node_test_ok n g : Forall (exists_in g) (refs (gkey n) ++ refs (gval n)) ->
  yields ('(c, g) ← iscleared (gkey n) true g; if (c : bool) then Some (true, g) else iscleared (gval n) false g)
    (fun p => clears g p.2 /\ (p.1 = false -> Forall (nonwhite p.2) (refs (gkey n) ++ refs (gval n))) /\
      (forall o x, heap g !! o = Some x -> exists m, heap p.2 !! o = Some {| marked := m; contents := contents x |})).
Proof.
  intros [Hk Hv]%Forall_app. eapply yields_bind; [by apply iscleared_ok|]. cbv beta. intros [[] g1] (H1 & Hc1 & Hs1); cbn [fst snd] in *.
  - apply yields_some. split; [done|]. by split.
  - eapply yields_mono; [apply (iscleared_ok _ false)|].
    + eapply Forall_impl; [exact Hv|]. intros c. by apply exists_cleared.
    + cbv beta. intros [c g2] (H2 & Hc2 & Hs2). cbn [fst snd] in *. split; [by transitivity g1|]. split.
      * intros Hc. apply Forall_app. split; [|by apply Hc2]. eapply Forall_impl; [by apply Hc1|]. apply H2.
      * intros o x E. destruct (Hs1 o x E) as [m1 E1]. destruct (Hs2 o _ E1) as [m2 E2]. by exists m2.
Qed.

Lemma clear_node_ok g0 g h m a0 nd0 i : base g0 h m a0 nd0 -> clears g0 g -> (i < length nd0)%nat ->
  yields (clear_node h i g) (fun g' => clears g g' /\ node_ok h i g').
Proof.
  intros Hb H Hi. destruct (base_now _ _ _ _ _ _ Hb H) as (x & a & nd & E & Ex & _ & Hn & Hall).
  destruct (lookup_lt_is_Some_2 nd i) as [n Hv]; [by rewrite <- (Forall2_length _ _ _ Hn)|].
  unfold clear_node. rewrite E. cbn [mbind option_bind]. rewrite Ex, Hv. cbn [mbind option_bind].
  destruct (is_nil (gval n)) eqn:En.
  { apply yields_some. split; [done|]. intros y m' a' nd' w Ey Ey' Hw. assert (y = x) as -> by congruence.
    assert (w = n) as -> by congruence. unfold node_kids. by rewrite En. }
  assert (Forall (exists_in g) (refs (gkey n) ++ refs (gval n))) as Hr.
  { rewrite <- key_value_refs by done. rewrite Forall_forall in Hall |- *. intros c Hc. apply Hall. by eapply (node_refs_in (false, false)). }
  destruct (node_test_ok n g Hr) as ([c g1] & Et & H1 & Hc & Hs). cbn [fst snd] in *.
  apply bind_Some in Et as ([c1 g1'] & E1 & Et). rewrite E1. cbn [mbind option_bind]. rewrite Et. cbn [mbind option_bind].
  apply yields_some. destruct (Hs h x E) as [mk Eh]. rewrite Ex in Eh. destruct c.
  - set (n' := removeentry _). assert (is_nil (gval n') = true) as En' by (unfold n', removeentry; by destruct (gkey _)).
    assert (clears g1 (set_contents (GTable m a (<[i:=n']> nd)) h g1)) as H2.
    { eapply clears_set_contents; [exact Eh| |done]. cbn [contents]. eexists _, _. split; [done|].
      split; [apply Forall_Forall2_diag, Forall_true; by left|]. apply insert_cleared; [by left|by right]. }
    split; [by transitivity g1|]. intros y m' a' nd' w Ey. cbn in Ey. rewrite lookup_alter_eq, Eh in Ey. injection Ey as <-.
    cbn [contents]. intros [= <- <- <-]. rewrite list_lookup_insert_eq by (by eapply lookup_lt_Some). intros [= <-].
    unfold node_kids. by rewrite En'.
  - split; [done|]. intros y m' a' nd' w Ey Ey' Hw. assert (y = Build_GCObject mk (GTable m a nd)) as -> by congruence.
    cbn [contents] in Ey'. assert (w = n) as -> by congruence. rewrite key_value_refs by done. by apply Hc.
Qed.

(** A table whose strong references are marked, and whose array has been cleared if
    its values are weak. *)
Lemma settled_table g0 g h m a0 nd0 : base g0 h m a0 nd0 -> clears g0 g ->
  let w := mode tm_mode (heap g0) m in
  Forall (nonwhite g0) (table_kids w m a0 nd0) ->
  (w.2 = true -> forall i, slot_ok h i g) -> (forall i, node_ok h i g) -> settled g h.
Proof.
  intros Hb H w Hk Hslot Hnode c. destruct (base_now _ _ _ _ _ _ Hb H) as (x & a & nd & E & Ex & Ha & Hn & _).
  assert (forall c, c ∈ table_kids w m a0 nd0 -> nonwhite g c) as Hk'.
  { rewrite Forall_forall in Hk. intros d Hd. by apply H, Hk. }
  unfold grefs. rewrite E, Ex. cbn [body_refs brefs]. unfold table_kids at 1. rewrite !elem_of_app. intros [Hc|[Hc|Hc]].
  - apply Hk'. unfold table_kids. rewrite elem_of_app. by left.
  - cbn [snd] in Hc. destruct (w.2) eqn:Ew.
    + apply elem_of_concat in Hc as (r & (v & -> & (i & Hi)%list_elem_of_lookup)%list_elem_of_fmap & Hc).
      pose proof (Hslot eq_refl i x m a nd v E Ex Hi) as Hv. rewrite Forall_forall in Hv. auto.
    + apply Hk'. unfold table_kids. rewrite Ew, !elem_of_app. right; left. by eapply refs_cleared.
  - apply elem_of_concat in Hc as (r & (n & -> & (i & Hi)%list_elem_of_lookup)%list_elem_of_fmap & Hc).
    pose proof (Hnode i x m a nd n E Ex Hi) as Hv. rewrite Forall_forall in Hv. auto.
Qed.

Lemma closed_table g0 h m a0 nd0 : base g0 h m a0 nd0 -> closed tm_mode g0 h ->
  Forall (nonwhite g0) (table_kids (mode tm_mode (heap g0) m) m a0 nd0).
Proof.
  intros (x0 & E0 & Ex0 & _) Hc. apply Forall_forall. intros c Hin. apply Hc. unfold kids, shape. rewrite E0. cbn.
  rewrite Ex0. cbn. by rewrite table_kids_strip.
Qed.

Lemma seq_indices {A} (l : list A) (T : nat -> Prop) : (forall i, i ∈ reverse (seq 0 (length l)) -> T i) ->
  forall i v, l !! i = Some v -> T i.
Proof. intros H i v Hi%lookup_lt_Some. apply H, elem_of_reverse, elem_of_seq. lia. Qed.

Lemma all_slots_ok h g m a nd x : heap g !! h = Some x -> contents x = GTable m a nd ->
  (forall i, i ∈ reverse (seq 0 (length a)) -> slot_ok h i g) -> forall i, slot_ok h i g.
Proof.
  intros E Ex H i y m' a' nd' v Ey Ey' Hv. assert (y = x) as -> by congruence. assert (a' = a) as -> by congruence.
  exact (seq_indices _ _ H i v Hv x m' a nd' v E Ey' Hv).
Qed.
Lemma all_nodes_ok h g m a nd x : heap g !! h = Some x -> contents x = GTable m a nd ->
  (forall i, i ∈ reverse (seq 0 (length nd)) -> node_ok h i g) -> forall i, node_ok h i g.
Proof.
  intros E Ex H i y m' a' nd' v Ey Ey' Hv. assert (y = x) as -> by congruence. assert (nd' = nd) as -> by congruence.
  exact (seq_indices _ _ H i v Hv x m' a' nd v E Ey' Hv).
Qed.

Lemma clear_array_ok g0 g h m a0 nd0 (bit : bool) n : base g0 h m a0 nd0 -> clears g0 g -> n = length a0 ->
  yields (if bit then each (clear_slot h) (reverse (seq 0 n)) g else Some g)
    (fun g' => clears g g' /\ (bit = true -> forall i, slot_ok h i g')).
Proof.
  intros Hb H ->. destruct bit; [|by apply yields_some].
  eapply yields_mono; [apply (each_rel clears (fun i g' => slot_ok h i g'))|].
  - intros i g1 g2. apply slot_ok_stable.
  - intros i g' Hi%elem_of_reverse%elem_of_seq Hg'. eapply clear_slot_ok; [exact Hb|by transitivity g|lia].
  - cbv beta. intros g' [Hg' Hall]. split; [done|]. intros _.
    assert (clears g0 g') as H0 by by transitivity g. destruct (base_now _ _ _ _ _ _ Hb H0) as (x & a & nd & E & Ex & Ha & _).
    apply (all_slots_ok h g' m a nd x E Ex). by rewrite <- (Forall2_length _ _ _ Ha).
Qed.

Lemma clear_nodes_ok g0 g h m a0 nd0 n : base g0 h m a0 nd0 -> clears g0 g -> n = length nd0 ->
  yields (each (clear_node h) (reverse (seq 0 n)) g) (fun g' => clears g g' /\ forall i, node_ok h i g').
Proof.
  intros Hb H ->. eapply yields_mono; [apply (each_rel clears (fun i g' => node_ok h i g'))|].
  - intros i g1 g2. apply node_ok_stable.
  - intros i g' Hi%elem_of_reverse%elem_of_seq Hg'. eapply clear_node_ok; [exact Hb|by transitivity g|lia].
  - cbv beta. intros g' [Hg' Hall]. split; [done|].
    assert (clears g0 g') as H0 by by transitivity g. destruct (base_now _ _ _ _ _ _ Hb H0) as (x & a & nd & E & Ex & _ & Hn & _).
    apply (all_nodes_ok h g' m a nd x E Ex). by rewrite <- (Forall2_length _ _ _ Hn).
Qed.

Lemma clear_one_ok g0 g h m a0 nd0 : base g0 h m a0 nd0 -> clears g0 g ->
  yields (clear_one h g) (fun g' => clears g g' /\ (closed tm_mode g0 h -> vbit tm_mode g0 h -> settled g' h)).
Proof.
  intros Hb H. destruct (base_now _ _ _ _ _ _ Hb H) as (x & a & nd & E & Ex & Ha & Hn & _).
  unfold clear_one. rewrite E. cbn [mbind option_bind]. rewrite Ex.
  eapply yields_bind; [eapply clear_array_ok; [exact Hb|exact H|by rewrite (Forall2_length _ _ _ Ha)]|].
  cbv beta. intros g1 [H1 Hs]. eapply yields_mono.
  - eapply clear_nodes_ok; [exact Hb|by transitivity g|by rewrite (Forall2_length _ _ _ Hn)].
  - cbv beta. intros g2 [H2 Hnode]. split; [by transitivity g1|]. intros Hc (y & Ey & Hv).
    eapply settled_table; [exact Hb|by transitivity g1; [transitivity g|]|by eapply closed_table| |done].
    intros Ew i. eapply slot_ok_stable; [|exact H2]. apply Hs. destruct (Hb) as (x0 & E0 & Ex0 & _).
    assert (y = x0) as -> by congruence. rewrite Ex0 in Hv. specialize (Hv Ew).
    destruct (cl_body _ _ H h x0 E0) as (x' & E' & _ & Hm). assert (x' = x) as -> by congruence. by rewrite Hm, Hv.
Qed.

Lemma base_of g0 h : wt g0 -> is_kind g0 is_table h -> exists m a nd, base g0 h m a nd.
Proof.
  intros Hwt (b & Hb & Ht). pose proof (wt_body _ Hwt h b Hb) as [Hr _]. destruct (shape_lookup _ _ _ Hb) as (x & E & <-).
  rewrite brefs_strip in Hr. destruct (contents x) as [| | | | |m a nd| |] eqn:Ex; try done. exists m, a, nd, x.
  split; [done|]. split; [done|]. eapply Forall_impl; [exact Hr|]. intros c (b & Hc & _).
  destruct (shape_lookup _ _ _ Hc) as (y & ? & _). by exists y.
Qed.

Lemma settled_stable g g' o : clears g g' ->
  (forall th i, shape g o = Some (GUpval (Slot th i)) -> is_Some (place_value (heap g) (Slot th i))) ->
  settled g o -> settled g' o.
Proof. intros H Hop Hs c Hc. apply H, Hs. by eapply grefs_cleared. Qed.

Lemma table_no_slot g0 g h m a nd : base g0 h m a nd -> clears g0 g ->
  forall th i, shape g h = Some (GUpval (Slot th i)) -> is_Some (place_value (heap g) (Slot th i)).
Proof.
  intros Hb H th i Hs. destruct (base_now _ _ _ _ _ _ Hb H) as (x & a' & nd' & E & Ex & _).
  unfold shape in Hs. rewrite E in Hs. cbn in Hs. by rewrite Ex in Hs.
Qed.

Theorem cleartable_ok g0 l : wt g0 -> Forall (is_kind g0 is_table) l ->
  yields (cleartable l g0) (fun g' => clears g0 g' /\
    forall h, h ∈ l -> closed tm_mode g0 h -> vbit tm_mode g0 h -> settled g' h).
Proof.
  intros Hwt Hl. rewrite Forall_forall in Hl. eapply yields_mono.
  - apply (each_rel clears (fun h g => clears g0 g /\ is_kind g0 is_table h /\
      (closed tm_mode g0 h -> vbit tm_mode g0 h -> settled g h))).
    + intros h g1 g2 (H1 & Hk & Hs) H12. split; [by transitivity g1|]. split; [done|]. intros Hc Hv.
      destruct (base_of g0 h Hwt Hk) as (m & a & nd & Hb).
      eapply settled_stable; [exact H12|by eapply table_no_slot|auto].
    + intros h g Hh Hg. destruct (base_of g0 h Hwt (Hl h Hh)) as (m & a & nd & Hb).
      eapply yields_mono; [by eapply clear_one_ok|]. cbv beta. intros g' [? ?].
      split; [done|]. split; [by transitivity g|]. split; [by apply Hl|done].
  - cbv beta. intros g' [Hg' Hall]. split; [done|]. intros h Hh. by apply Hall.
Qed.
End Clear.
