(* ===== verification/LGcAtomic.v ===== *)
(** * The end of the mark phase, and the write barriers

    [tri] is the invariant of the mark phase, which every turn and every barrier keeps:
    a black object refers to marked objects only, and a marked object that is not
    black is on a list, a string, or an open upvalue. From it [atomic] ends with every
    reference of a marked object marked, and so keeps what is reachable. *)
From stdpp Require Import base list option gmap relations.
From Stdlib Require Import ZArith Lia ZifyBool.
From S2P Require Import Prelude LGc LGcProps LGcMark LGcClear.
#[local] Open Scope Z_scope.
Implicit Types (g : global_State).

Section Atomic.
Variables tm_mode tm_gc : id.
Implicit Types (o c : id) (X : id -> Prop).
#[local] Notation closed := (closed tm_mode).
#[local] Notation vbit := (vbit tm_mode).
#[local] Notation done_with := (done_with tm_mode).
#[local] Notation core := (core tm_mode).
#[local] Notation turn := (turn tm_mode).

(** ** Progress of the mark phase *)
Definition inv (P : id -> Prop) g : Prop := forall o, nonwhite g o -> o ∈ gray g \/ P o \/ done_with g o.
Definition roots g := (currentwhite g, gcstate g, uvhead g, mainthread g, registry g, mt g).

Record progress g g' : Prop := {
  p_shape : same_shapes g g';
  p_roots : roots g' = roots g;
  p_tmudata : tmudata g' = tmudata g;
  p_wt : wt g -> wt g';
  p_lists : wt_lists g -> wt_lists g';
  p_white : forall o, nonwhite g o -> nonwhite g' o;
  p_again : forall o, o ∈ grayagain g -> o ∈ grayagain g';
  p_weak : forall o, o ∈ weak g -> o ∈ weak g';
  p_inv : forall P, inv P g -> inv P g';
}.

Lemma progress_refl g : progress g g.
Proof. split; auto. by intros o. Qed.
Lemma progress_trans g1 g2 g3 : progress g1 g2 -> progress g2 g3 -> progress g1 g3.
Proof.
  intros [S1 R1 T1 W1 L1 N1 A1 K1 I1] [S2 R2 T2 W2 L2 N2 A2 K2 I2]. split; eauto; [|congruence..].
  intros o. by rewrite S2, S1.
Qed.

Lemma grown_kinds g g' P l l' : same_shapes g g' -> grown g P l l' -> Forall (is_kind g P) l -> Forall (is_kind g' P) l'.
Proof. intros Hs (n & -> & Hn) Hl. eapply Forall_kind_shape; [exact Hs|]. by apply Forall_app. Qed.

Lemma core_lists X g g' : core X g g' -> wt_lists g -> wt_lists g'.
Proof. intros C [H1 H2 H3]. split; (eapply grown_kinds; [apply C|apply C|done]). Qed.

Lemma core_progress g g' : core nothing g g' -> progress g g'.
Proof.
  intros C. pose proof (c_shape _ _ _ _ C) as S. split; try apply C.
  - unfold roots. pose proof (c_rest _ _ _ _ C) as [= ? ? ? ? ? ? ? ? ?]. congruence.
  - by pose proof (c_rest _ _ _ _ C) as [= ? ? ? ? ? ? ? ? ?].
  - apply wt_rest; apply C.
  - by eapply core_lists.
  - intros o. eapply grown_elem, C.
  - intros o. eapply grown_elem, C.
  - intros P HP o Ho. destruct (c_new _ _ _ _ C o Ho) as [Hn|[[]|[?|?]]]; [|by left|by right; right].
    destruct (HP o Hn) as [?|[?|?]]; [left|by right; left|right; right].
    + eapply grown_elem; [apply C|done].
    + eapply done_mono; [exact S|apply C|apply C| |done]. eapply grown_elem, C.
Qed.

Lemma turn_progress o g g' : gray g = o :: tail (gray g) -> turn o g g' -> progress g g'.
Proof.
  intros Hg [C K W D F T]. pose proof (c_shape _ _ _ _ C) as S. split.
  - exact S.
  - unfold roots. pose proof (c_rest _ _ _ _ C) as [= ? ? ? ? ? ? ? ? ?]. congruence.
  - by pose proof (c_rest _ _ _ _ C) as [= ? ? ? ? ? ? ? ? ?].
  - intros Hwt. eapply wt_rest; [exact S|apply C|by apply wt_pop].
  - intros [H1 H2 H3]. eapply core_lists; [exact C|]. split; [|done..].
    rewrite Hg in H1. by apply Forall_inv_tail in H1.
  - apply C.
  - intros c. eapply (grown_elem (pop g)), C.
  - intros c. eapply (grown_elem (pop g)), C.
  - intros P HP c Hc. destruct (c_new _ _ _ _ C c Hc) as [Hn|[<-|[?|?]]]; [|by right; right|by left|by right; right].
    destruct (HP c Hn) as [Hin|[?|?]]; [|by right; left|right; right].
    + rewrite Hg in Hin. apply elem_of_cons in Hin as [->|Hin]; [by right; right|]. left. by eapply (grown_elem (pop g)); [apply C|].
    + eapply (done_mono tm_mode g); [exact S|apply C|apply C| |done]. eapply (grown_elem (pop g)), C.
Qed.

Lemma weight_bound g : (weight g <= length (gray g) + size (heap g))%nat.
Proof.
  unfold weight. assert (size (wset g) <= size (heap g))%nat; [|lia].
  rewrite <- size_dom. apply subseteq_size. intros c (x & E & _)%elem_of_wset. apply elem_of_dom. by exists x.
Qed.

Lemma propagate_loop_ok fuel g : wt g -> wt_lists g -> (weight g <= fuel)%nat ->
  yields (propagate_loop tm_mode fuel g) (fun g' => progress g g' /\ gray g' = []).
Proof.
  revert g. induction fuel as [|fuel IH]; intros g Hwt Hl Hf.
  - cbn. destruct (gray g) as [|o gr] eqn:Hg; [apply yields_some; split; [apply progress_refl|done]|].
    unfold weight in Hf. rewrite Hg in Hf. cbn in Hf. lia.
  - cbn [propagate_loop]. destruct (gray g) as [|o gr] eqn:Hg; [apply yields_some; split; [apply progress_refl|done]|].
    assert (is_kind g traversable o) as Ho by (pose proof (wl_gray _ Hl) as H; rewrite Hg in H; by apply Forall_inv in H).
    eapply yields_bind; [by eapply propagatemark_ok|]. cbv beta. intros g1 H1.
    assert (progress g g1) as Hp by (apply (turn_progress o); [by rewrite Hg|done]).
    eapply yields_mono; [apply IH; [by apply Hp|by apply Hp|pose proof (t_weight _ _ _ _ H1); lia]|].
    cbv beta. intros g2 [H2 ?]. split; [by eapply progress_trans|done].
Qed.

Lemma propagateall_ok g : wt g -> wt_lists g ->
  yields (propagateall tm_mode g) (fun g' => progress g g' /\ gray g' = []).
Proof. intros. apply propagate_loop_ok; [done..|apply weight_bound]. Qed.

(** ** A step that succeeds with progress *)
Definition progressing (r : list id) g (m : option global_State) : Prop :=
  yields m (fun g' => progress g g' /\ Forall (nonwhite g') r).

Lemma progressing_marking r g m : marking tm_mode nothing r g m -> progressing r g m.
Proof. intros H. eapply yields_mono; [exact H|]. intros g' [[C _ _] ?]. by split; [apply core_progress|]. Qed.

#[export] Instance progress_preorder : PreOrder progress.
Proof. split; [intros g; apply progress_refl|intros g1 g2 g3; apply progress_trans]. Qed.

(** *** [markmt] *)
Lemma markmt_ok g : wt g -> marking tm_mode nothing (concat (option_list <$> mt g)) g (markmt g).
Proof.
  intros Hwt. apply marking_optional. intros o g' Ho Hg'. apply markobject_ok; [by eapply marks_wt|].
  eapply marks_kind; [exact Hg'|]. pose proof (wt_mt _ Hwt) as H. rewrite Forall_forall in H. by apply H.
Qed.

(** *** [luaC_separateudata] and [marktmu] *)
Lemma marks_markfinalized X o g : marks tm_mode X g (remark markfinalized o g).
Proof.
  apply marks_same_colour; [intros; apply markfinalized_colour|]. apply vbit_remark. intros m. unfold markfinalized.
  rewrite Z.land_lor_distr_l. change (Z.land FINALIZEDMASK VALUEWEAK) with 0. by rewrite Z.lor_0_r.
Qed.

Lemma separate_loop_ok all l g : Forall (is_kind g is_udata) l ->
  yields (separate_loop tm_gc all l g) (fun p => marks tm_mode nothing g p.2 /\
    Forall (is_kind p.2 is_udata) (p.1.1 ++ p.1.2)).
Proof.
  revert g. induction l as [|o l IH]; intros g Hl; [apply yields_some; split; [apply marks_refl|done]|].
  apply Forall_cons in Hl as [Ho Hl]. destruct (kind_lookup _ _ _ Ho) as (x & E & _). cbn [separate_loop]. rewrite E. cbn [mbind option_bind].
  set (g1 := remark markfinalized o g). assert (marks tm_mode nothing g g1) as H1 by apply marks_markfinalized.
  assert (forall g0, marks tm_mode nothing g g0 -> yields (separate_loop tm_gc all l g0) (fun p => marks tm_mode nothing g p.2 /\
    Forall (is_kind p.2 is_udata) (p.1.1 ++ o :: p.1.2))) as Hrest.
  { intros g0 H0. eapply yields_mono; [apply IH; by eapply marks_kinds|]. cbv beta. intros p [Hp Hk].
    assert (marks tm_mode nothing g p.2) as H by by eapply marks_trans. split; [done|].
    apply Forall_app in Hk as [Ha Hb]. apply Forall_app. split; [done|]. constructor; [by eapply marks_kind|done]. }
  assert (forall p : list id * list id * global_State, Forall (is_kind p.2 is_udata) (p.1.1 ++ o :: p.1.2) ->
    Forall (is_kind p.2 is_udata) ((o :: p.1.1) ++ p.1.2)) as Hperm.
  { intros p. rewrite !Forall_app, !Forall_cons. tauto. }
  destruct (negb _ || _); [|destruct (negb _)].
  all: eapply yields_bind; [apply Hrest; first [exact H1|apply marks_refl]|].
  all: cbv beta; intros [[st mv] g'] [Hm Hk]; apply yields_some; cbn [fst snd] in *; split; [done|].
  - by apply (Hperm (st, mv, g')).
  - by apply (Hperm (st, mv, g')).
  - done.
Qed.

Lemma remake_ok u g : wt g -> is_kind g is_udata u -> luaC_white g <> 0 ->
  progressing [u] g (reallymarkobject MARKDEPTH u (remark (makewhite g) u g)).
Proof.
  intros Hwt Hu Hcw. set (g1 := remark (makewhite g) u g).
  assert (same_shapes g g1) as S1 by apply shapes_remark.
  assert (wt g1) as Hwt1 by (by apply (wt_rest g)).
  assert (white g1 u) as Hw1.
  { destruct (kind_lookup _ _ _ Hu) as (x & E & _). eexists. unfold g1. rewrite lookup_remark, decide_True, E by done.
    split; [done|]. cbn [marked]. unfold iswhite, makewhite, luaC_white. rewrite Z.land_lor_distr_l, <- !Z.land_assoc.
    change (Z.land maskmarks WHITEBITS) with 0. change (Z.land WHITEBITS WHITEBITS) with WHITEBITS.
    rewrite Z.land_0_r, Z.lor_0_l. unfold luaC_white in Hcw. destruct (Z.eqb_spec (Z.land (currentwhite g) WHITEBITS) 0); done. }
  assert (forall c, c <> u -> nonwhite g1 c <-> nonwhite g c) as Hother.
  { intros c Hc. unfold g1. by rewrite nonwhite_remark, decide_False. }
  destruct (reallymark_ok tm_mode MARKDEPTH u g1 Hwt1 Hw1) as (g' & -> & [C _ _] & Hn).
  { destruct Hu as (b & Hb & Hk). exists b. rewrite S1. split; [done|]. destruct b; cbn; unfold MARKDEPTH; lia. }
  pose proof (Forall_inv Hn) as Hnu. apply yields_some. split; [|done]. apply core_progress. split; try apply C.
  - intros c. by rewrite (c_shape _ _ _ _ C), S1.
  - intros c Hc. destruct (decide (c = u)) as [->|Hne]; [done|]. apply (c_white _ _ _ _ C). by apply Hother.
  - intros c Hc. destruct (c_new _ _ _ _ C c Hc) as [H1|?]; [|by right]. destruct (decide (c = u)) as [->|Hne].
    + by destruct (white_nonwhite _ _ Hw1 H1).
    + left. by apply Hother.
  - intros c Hc. apply (c_vbit _ _ _ _ C). revert Hc. apply vbit_remark. intros m. unfold makewhite, luaC_white.
    rewrite Z.land_lor_distr_l, <- !Z.land_assoc. change (Z.land maskmarks VALUEWEAK) with VALUEWEAK.
    change (Z.land WHITEBITS VALUEWEAK) with 0. by rewrite Z.land_0_r, Z.lor_0_r.
  - destruct (c_gray _ _ _ _ C) as (n & E & Hk). exists n. split; [done|]. eapply Forall_kind_shape; [|exact Hk]. intros c. symmetry. apply S1.
  - destruct (c_again _ _ _ _ C) as (n & E & Hk). exists n. split; [done|]. eapply Forall_kind_shape; [|exact Hk]. intros c. symmetry. apply S1.
  - destruct (c_weak _ _ _ _ C) as (n & E & Hk). exists n. split; [done|]. eapply Forall_kind_shape; [|exact Hk]. intros c. symmetry. apply S1.
Qed.

Lemma marktmu_ok g : wt g -> luaC_white g <> 0 -> progressing (tmudata g) g (marktmu g).
Proof.
  intros Hwt Hcw. eapply yields_mono; [apply (each_rel progress (fun u g' => nonwhite g' u))|].
  - intros u g1 g2 Hu H12. by apply H12.
  - intros u g' Hu Hg'. eapply yields_mono; [apply remake_ok|intros g2 [? Hn]; split; [done|exact (Forall_inv Hn)]].
    + by apply Hg'.
    + eapply is_kind_shape; [apply Hg'|]. pose proof (wt_tmudata _ Hwt) as H. rewrite Forall_forall in H. by apply H.
    + pose proof (p_roots _ _ Hg') as [= E _ _ _ _ _]. unfold luaC_white. by rewrite E.
  - intros g' [? Hall]. split; [done|]. by apply Forall_forall.
Qed.

(** *** [remarkupvals] *)
Record tri g : Prop := {
  tri_black : forall o, black g o -> full g o;
  tri_gray : forall o, nonwhite g o ->
    black g o \/ o ∈ gray g \/ o ∈ grayagain g \/ o ∈ weak g \/ is_kind g leaf o;
}.

Lemma open_unbarriered b : is_open b -> unbarriered b.
Proof. by destruct b as [| |[]| | | | |]. Qed.

Lemma full_not_open g o : is_kind g is_open o -> ~ full g o.
Proof. intros (b & Hb & Ho) (b' & Hb' & Hno & _). apply Hno. assert (b' = b) as -> by congruence. by apply open_unbarriered. Qed.

Lemma not_black_open g o : tri g -> is_kind g is_open o -> ~ black g o.
Proof.
  intros Ht Ho Hk. by apply (full_not_open g o Ho), tri_black.
Qed.

Lemma remark_upval_ok g uv : wt g -> is_kind g is_upval uv -> (is_kind g is_open uv -> ~ black g uv) ->
  yields (remark_upval uv g) (fun g' => marks tm_mode nothing g g' /\
    (is_kind g is_open uv -> nonwhite g uv -> closed g' uv)).
Proof.
  intros Hwt (b & Hb & Huv) Hnb. destruct b as [| |pl| | | | |]; try done. destruct (shape_lookup _ _ _ Hb) as (x & E & Hx).
  destruct (contents x) eqn:Ex; cbn in Hx; try done. injection Hx as ->. unfold remark_upval. rewrite E. cbn [mbind option_bind].
  destruct (wt_body _ Hwt uv _ Hb) as [_ (v & Hv & Hr)]. rewrite Ex, Hv.
  destruct (isgray (marked x)) eqn:Eg.
  - cbn [mbind option_bind]. eapply yields_mono; [apply (markvalue_ok tm_mode nothing v g Hwt)|].
    { eapply Forall_impl; [exact Hr|]. intros c (b & ? & ?). exists b. split; [done|lia]. }
    cbv beta. intros g' [Hm Hn]. split; [done|]. intros _ _ c. unfold LGcProps.kids.
    rewrite (c_shape _ _ _ _ (m_core _ _ _ _ Hm)), Hb. cbn [body_kids].
    rewrite (place_shape g g'), Hv by apply Hm. rewrite Forall_forall in Hn. apply Hn.
  - apply yields_some. split; [apply marks_refl|]. intros Ho (y & Ey & Ew). exfalso. apply (Hnb Ho). exists x. split; [done|].
    assert (x = y) as -> by congruence. unfold isgray in Eg. rewrite Ew in Eg. cbn in Eg. by rewrite andb_true_r, negb_false_iff in Eg.
Qed.

Lemma remarkupvals_ok g : wt g -> tri g ->
  yields (remarkupvals g) (fun g' => progress g g' /\ inv (fun o => o ∈ grayagain g \/ o ∈ weak g) g').
Proof.
  intros Hwt Ht. eapply yields_mono.
  - apply (each_rel (marks tm_mode nothing) (fun uv g' => is_kind g is_open uv -> nonwhite g uv -> closed g' uv)).
    + intros uv g1 g2 H1 [C _ _] Ho Hn. eapply closed_mono; [apply C|apply C|auto].
    + intros uv g1 Huv H1. assert (wt g1) as Hwt1 by by eapply marks_wt.
      pose proof (wt_uvhead _ Hwt) as Hall. rewrite Forall_forall in Hall.
      eapply yields_mono; [apply remark_upval_ok; [done|by eapply marks_kind; [|apply Hall]|]|].
      * intros Ho Hk. destruct (k_black _ _ _ (m_colour _ _ _ _ H1) uv Hk) as [Hk0|[[]|Hf]]; [|by apply (full_not_open g1 uv)].
        eapply not_black_open; [exact Ht| |exact Hk0]. destruct Ho as (b & Hb & Ho). exists b.
        by rewrite <- (c_shape _ _ _ _ (m_core _ _ _ _ H1)).
      * cbv beta. intros g2 [H2 Hc]. split; [done|]. intros Ho Hn. apply Hc; [by eapply marks_kind|by eapply marks_white].
  - cbv beta. intros g' [Hm Hc]. pose proof (core_progress _ _ (m_core _ _ _ _ Hm)) as Hp. split; [done|].
    intros o Ho. destruct (c_new _ _ _ _ (m_core _ _ _ _ Hm) o Ho) as [Hn|[[]|[?|?]]]; [|by left|by right; right].
    destruct (tri_gray _ Ht o Hn) as [Hk|[?|[?|[?|(b & Hb & Hl)]]]].
    + right; right; left. eapply full_mono; [apply Hp|apply Hp|by apply tri_black].
    + left. eapply grown_elem; [apply Hm|done].
    + by right; left; left.
    + by right; left; right.
    + right; right. assert (shape g' o = Some b) as Hb' by by rewrite (p_shape _ _ Hp).
      destruct Hl as [Hs|Hop].
      * left. exists b. split; [done|]. destruct b; try done. split; [by intros []|]. by intros c ?%elem_of_nil.
      * right; left. split; [exists b; split; [done|by apply open_unbarriered]|]. apply Hc; [|by exists b|done]. apply (wt_open _ Hwt). by exists b.
Qed.

(** ** [atomic] *)
Record later g g' : Prop := {
  l_shape : same_shapes g g';
  l_roots : roots g' = roots g;
  l_wt : wt g -> wt g';
  l_white : forall o, nonwhite g o -> nonwhite g' o;
}.
#[export] Instance later_preorder : PreOrder later.
Proof.
  split; [by intros g; split; auto|]. intros g1 g2 g3 [S1 R1 W1 N1] [S2 R2 W2 N2]. split; eauto; [|congruence].
  intros o. by rewrite S2, S1.
Qed.
Lemma progress_later g g' : progress g g' -> later g g'.
Proof. intros []. by split. Qed.
Lemma set_lists_later gr ga wk g : later g (set_lists gr ga wk g).
Proof. split; try done. by apply wt_rest. Qed.

(** A state of [atomic]: where it comes from, and what is left to do. *)
Record stage (P : id -> Prop) g0 g : Prop := {
  st_later : later g0 g;
  st_wt : wt g;
  st_lists : wt_lists g;
  st_inv : inv P g;
}.

Lemma stage_progress (P : id -> Prop) g0 g g' : stage P g0 g -> progress g g' -> stage P g0 g'.
Proof.
  intros [L W T I] H. split; [|by apply H|by apply H|by apply H]. transitivity g; [done|by apply progress_later].
Qed.

Lemma stage_propagate (P : id -> Prop) g0 g : stage P g0 g ->
  yields (propagateall tm_mode g) (fun g' => progress g g' /\ stage P g0 g' /\ gray g' = []).
Proof.
  intros H. eapply yields_mono; [exact (propagateall_ok g (st_wt _ _ _ H) (st_lists _ _ _ H))|]. cbv beta. intros g' [Hp ?].
  split; [done|]. split; [by eapply stage_progress|done].
Qed.

Lemma tables_traversable g l : Forall (is_kind g is_table) l -> Forall (is_kind g traversable) l.
Proof. intros H. eapply Forall_impl; [exact H|]. intros o (b & ? & ?). exists b. split; [done|]. by destruct b. Qed.

Lemma stage_separate (P : id -> Prop) g0 g all : stage P g0 g ->
  yields (luaC_separateudata tm_gc all g) (stage P g0).
Proof.
  intros Hst. unfold luaC_separateudata. eapply yields_bind; [exact (separate_loop_ok all (udata g) g (wt_udata _ (st_wt _ _ _ Hst)))|].
  cbv beta. intros [[st mv] g1] [Hm Hk]. cbn [fst snd] in *. apply yields_some.
  destruct (stage_progress _ _ _ _ Hst (core_progress _ _ (m_core _ _ _ _ Hm))) as [L W T I].
  apply Forall_app in Hk as [Hs Hv]. pose proof W as [V1 V2 V3 V4 V5 V6 V7 V8].
  assert (wt (set_objects (rootgc g1) st (tmudata g1 ++ mv) g1)) as W'.
  { split; try done. cbn [tmudata set_objects]. by apply Forall_app. }
  split; [|done|by destruct T|done]. transitivity g1; [done|]. by split.
Qed.

(** The weak tables are traversed again. *)
Lemma stage_weak_again (A W : list id) g0 g : stage (fun o => o ∈ A \/ o ∈ W) g0 g -> gray g = [] ->
  (forall o, o ∈ W -> o ∈ weak g) -> stage (fun o => o ∈ A) g0 (set_lists (weak g) (grayagain g) [] g).
Proof.
  intros [L V [T1 T2 T3] I] Hg HW. split.
  - transitivity g; [done|apply set_lists_later].
  - by apply (set_lists_later _ _ _ g).
  - split; cbn; [by apply tables_traversable|done|constructor].
  - intros o Ho. destruct (I o Ho) as [Hin|[[?|?]|[?|[?|(? & ? & ?)]]]].
    + rewrite Hg in Hin. by apply elem_of_nil in Hin.
    + by right; left.
    + left. by apply HW.
    + by right; right; left.
    + by right; right; right; left.
    + by left.
Qed.

(** The threads and the tables caught by the barrier are traversed again. *)
Lemma stage_gray_again (A : list id) g0 g : stage (fun o => o ∈ A) g0 g -> gray g = [] ->
  (forall o, o ∈ A -> o ∈ grayagain g) -> stage nothing g0 (set_lists (grayagain g) [] (weak g) g).
Proof.
  intros [L V [T1 T2 T3] I] Hg HA. split.
  - transitivity g; [done|apply set_lists_later].
  - by apply (set_lists_later _ _ _ g).
  - split; cbn; [done|constructor|done].
  - intros o Ho. destruct (I o Ho) as [Hin|[?|[?|[?|(? & ? & ?)]]]].
    + rewrite Hg in Hin. by apply elem_of_nil in Hin.
    + left. by apply HA.
    + by right; right; left.
    + by right; right; right; left.
    + by right; right; right; right.
Qed.

(** Up to the second [propagateall]: what changed before is marked again. *)
Definition atomic_first (L : id) g : option global_State :=
  g ← remarkupvals g;
  g ← propagateall tm_mode g;
  let g := set_lists (weak g) (grayagain g) [] g in
  g ← markobject L g;
  g ← markmt g;
  propagateall tm_mode g.

Lemma atomic_first_ok L g : wt g -> wt_lists g -> tri g -> ref_ok g 3 L ->
  yields (atomic_first L g) (fun g' => stage (fun o => o ∈ grayagain g) g g' /\ gray g' = [] /\
    (forall o, o ∈ grayagain g -> o ∈ grayagain g') /\ nonwhite g' L /\ Forall (nonwhite g') (concat (option_list <$> mt g))).
Proof.
  intros Hwt Hl Ht HL. unfold atomic_first.
  eapply yields_bind; [by apply remarkupvals_ok|]. cbv beta. intros g1 [H1 I1].
  assert (stage (fun o => o ∈ grayagain g \/ o ∈ weak g) g g1) as S1.
  { split; [by apply progress_later|by apply H1|by apply H1|done]. }
  eapply yields_bind; [by eapply stage_propagate|]. cbv beta. intros g2 (H2 & S2 & E2).
  assert (stage (fun o => o ∈ grayagain g) g (set_lists (weak g2) (grayagain g2) [] g2)) as S3.
  { eapply stage_weak_again; [exact S2|done|]. intros o Ho. by apply H2, H1. }
  set (g3 := set_lists _ _ _ g2) in *.
  eapply yields_bind; [apply (progressing_marking [L]), markobject_ok; [exact (st_wt _ _ _ S3)|eapply is_kind_shape; [apply S3|done]]|].
  cbv beta. intros g4 [H4 NL]. pose proof (stage_progress _ _ _ _ S3 H4) as S4.
  eapply yields_bind; [exact (progressing_marking _ _ _ (markmt_ok g4 (st_wt _ _ _ S4)))|]. cbv beta. intros g5 [H5 NM].
  pose proof (stage_progress _ _ _ _ S4 H5) as S5.
  eapply yields_mono; [by eapply stage_propagate|]. cbv beta. intros g6 (H6 & S6 & E6).
  split; [done|]. split; [done|]. split.
  - intros o Ho. apply (p_again _ _ H6), (p_again _ _ H5), (p_again _ _ H4). cbn. by apply (p_again _ _ H2), (p_again _ _ H1).
  - split; [apply (p_white _ _ H6), (p_white _ _ H5); exact (Forall_inv NL)|].
    pose proof (l_roots _ _ (st_later _ _ _ S4)) as [= _ _ _ _ _ Em]. rewrite Em in NM.
    eapply Forall_impl; [exact NM|]. apply H6.
Qed.

(** The rest, up to the clearing of weak tables. *)
Definition atomic_second g : option global_State :=
  let g := set_lists (grayagain g) [] (weak g) g in
  g ← propagateall tm_mode g;
  g ← luaC_separateudata tm_gc false g;
  g ← marktmu g;
  propagateall tm_mode g.

Lemma atomic_second_ok (A : list id) g0 g : luaC_white g0 <> 0 -> stage (fun o => o ∈ A) g0 g -> gray g = [] ->
  (forall o, o ∈ A -> o ∈ grayagain g) ->
  yields (atomic_second g) (fun g' => stage nothing g0 g' /\ gray g' = [] /\ Forall (nonwhite g') (tmudata g')).
Proof.
  intros Hcw Hst Hg HA. unfold atomic_second.
  pose proof (stage_gray_again A g0 g Hst Hg HA) as S1. set (g1 := set_lists _ _ _ g) in *.
  eapply yields_bind; [by eapply stage_propagate|]. cbv beta. intros g2 (H2 & S2 & E2).
  eapply yields_bind; [by eapply stage_separate|]. cbv beta. intros g3 S3.
  eapply yields_bind; [apply marktmu_ok; [exact (st_wt _ _ _ S3)|]|].
  { pose proof (l_roots _ _ (st_later _ _ _ S3)) as [= E _ _ _ _ _]. unfold luaC_white in *. by rewrite E. }
  cbv beta. intros g4 [H4 NT]. pose proof (stage_progress _ _ _ _ S3 H4) as S4.
  eapply yields_mono; [by eapply stage_propagate|]. cbv beta. intros g5 (H5 & S5 & E5).
  split; [done|]. split; [done|]. rewrite (p_tmudata _ _ H5), (p_tmudata _ _ H4).
  eapply Forall_impl; [exact NT|]. apply H5.
Qed.
End Atomic.
