(* ===== verification/LGcCorrect.v ===== *)
(** * The collector keeps what is reachable

    [phase_ok] is the invariant of a running mark phase: a well-formed heap, the
    tri-colour invariant and marked roots. Every step of the collector and every write
    of the program keeps it ([mark_phase_invariant]); from it the end of the phase
    leaves no marked object with a reference to an unmarked one
    ([atomic_keeps_reachable]). *)
From stdpp Require Import base list option gmap relations.
From Stdlib Require Import ZArith Lia ZifyBool.
From S2P Require Import Prelude LGc LGcProps LGcMark LGcClear LGcAtomic.
#[local] Open Scope Z_scope.
Implicit Types (g : global_State).

Record phase_ok g : Prop := {
  ph_wt : wt g;
  ph_lists : wt_lists g;
  ph_tri : tri g;
  ph_main : nonwhite g (mainthread g);
  ph_registry : Forall (nonwhite g) (refs (registry g));
  ph_state : gcstate g = GCSpropagate;
  ph_white : luaC_white g <> 0;
}.

(** What the program can reach, from the running thread [L] too. *)
Definition root_set (L : id) g : list id :=
  L :: mainthread g :: refs (registry g) ++ concat (option_list <$> mt g) ++ tmudata g.
Definition refers g (o c : id) : Prop := c ∈ grefs g o.
Definition reachable (L : id) g (o : id) : Prop := exists r, r ∈ root_set L g /\ rtc (refers g) r o.

(** The sweep that follows keeps the object. *)
Definition kept g (o : id) : Prop :=
  exists x, heap g !! o = Some x /\ sweep_keeps g (marked x) = true /\ isdead g (marked x) = false.

Section Correct.
Variables tm_mode tm_gc : id.
Implicit Types (L o c : id) (X : id -> Prop).

(** ** The end of the mark phase *)
Lemma full_settled g o : full g o -> settled g o.
Proof.
  intros (b & Hb & Hno & Hf) c. destruct (shape_lookup _ _ _ Hb) as (x & E & <-). unfold grefs. rewrite E.
  intros Hc. apply Hf. rewrite brefs_strip. by destruct (contents x) as [| |[]| | | | |].
Qed.

Lemma unbarriered_settled g o : is_kind g unbarriered o -> closed tm_mode g o -> settled g o.
Proof.
  intros (b & Hb & Hu) Hc c. destruct (shape_lookup _ _ _ Hb) as (x & E & <-). unfold grefs. rewrite E. intros Hin.
  apply Hc. unfold kids. rewrite Hb. rewrite body_kids_strip. destruct (contents x) as [| |[]| | | | |]; done.
Qed.

Lemma cleared_settled g g' : wt g -> clears g g' -> (forall o, nonwhite g o -> done_with tm_mode g o) ->
  (forall h, h ∈ weak g -> closed tm_mode g h -> vbit tm_mode g h -> settled g' h) ->
  forall o, nonwhite g' o -> settled g' o.
Proof.
  intros Hwt H Hd Hw o Ho.
  assert (forall o, forall th i, shape g o = Some (GUpval (Slot th i)) -> is_Some (place_value (heap g) (Slot th i))) as Hop.
  { intros o' th i Hs. destruct (wt_body _ Hwt o' _ Hs) as [_ (v & Hv & _)]. by exists v. }
  destruct (cl_new _ _ H o Ho) as [Hn|(b & Hb & Hs)].
  - destruct (Hd o Hn) as [?|[[? ?]|(? & ? & ?)]]; [..|by apply Hw].
    + eapply settled_stable; [exact H|by apply Hop|by apply full_settled].
    + eapply settled_stable; [exact H|by apply Hop|by apply unbarriered_settled].
  - intros c. destruct (shape_lookup _ _ _ Hb) as (x & E & <-). unfold grefs. rewrite E.
    destruct (contents x); try done. by intros ?%elem_of_nil.
Qed.

Lemma atomic_split L g : atomic tm_mode tm_gc L g =
  (g ← atomic_first tm_mode L g; g ← atomic_second tm_mode tm_gc g; g ← cleartable (weak g) g;
   Some (set_phase (u8 (otherwhite g)) GCSsweepstring g)).
Proof.
  unfold atomic, atomic_first, atomic_second.
  repeat (match goal with |- context [@mbind _ option_bind _ _ ?f ?m] => destruct m; cbn [mbind option_bind]; [|done] end).
  done.
Qed.

Lemma low_bits m : iswhite m = false -> Z.land m WHITEBITS = 0.
Proof. unfold iswhite. destruct (Z.eqb_spec (Z.land m WHITEBITS) 0); done. Qed.

Lemma flipped g g' : luaC_white g <> 0 -> currentwhite g' = u8 (otherwhite g) -> Z.land (otherwhite g') WHITEBITS <> 0.
Proof.
  intros Hw Hc. unfold otherwhite. rewrite Hc. unfold otherwhite, luaC_white in *. intros E. apply Hw.
  rewrite <- E. apply Z.bits_inj'. intros i Hi. rewrite !Z.land_spec, Z.lxor_spec. unfold uwrap.
  destruct (Z.ltb_spec i 8) as [Hlt|Hge].
  - rewrite Z.mod_pow2_bits_low, Z.lxor_spec by lia. by destruct (Z.testbit (currentwhite g) i), (Z.testbit WHITEBITS i).
  - assert (Z.testbit WHITEBITS i = false) as ->; [|by rewrite !andb_false_r]. apply Z.bits_above_log2; [done|]. cbn. lia.
Qed.

Lemma nonwhite_kept g g' o : luaC_white g <> 0 -> currentwhite g' = u8 (otherwhite g) -> nonwhite g' o -> kept g' o.
Proof.
  intros Hw Hc (x & E & W). apply low_bits in W. pose proof (flipped g g' Hw Hc) as Hf. exists x. split; [done|].
  unfold sweep_keeps, isdead. split.
  - apply negb_true_iff, Z.eqb_neq. intros E0. apply Hf. rewrite <- (Z.land_0_l WHITEBITS), <- E0.
    apply Z.bits_inj'. intros i Hi. rewrite !Z.land_spec, Z.lxor_spec.
    assert (Z.testbit (Z.land (marked x) WHITEBITS) i = false) as Hb by (by rewrite W, Z.bits_0). rewrite Z.land_spec in Hb.
    by destruct (Z.testbit (marked x) i), (Z.testbit WHITEBITS i), (Z.testbit (otherwhite g') i).
  - rewrite <- Z.land_assoc, (Z.land_comm (otherwhite g')), Z.land_assoc, W. by rewrite Z.land_0_l.
Qed.

(** C17. The collector keeps everything the program can reach. At the end of a mark
    phase that is in order, [atomic] succeeds, and in the resulting state every object
    reachable from the running thread, the main thread, the registry, the basic
    metatables or the userdata waiting for their finalizer - through any references, weak
    ones and the stack slots of open upvalues included - is not dead and is kept by the
    sweep; moreover no kept reference leads to an object the sweep may free: every
    marked object refers to marked objects only. *)
Theorem atomic_keeps_reachable L g :
  phase_ok g -> ref_ok g 3 L ->
  exists g', atomic tm_mode tm_gc L g = Some g' /\ gcstate g' = GCSsweepstring /\
    (forall o, reachable L g' o -> kept g' o) /\ (forall o, nonwhite g' o -> settled g' o).
Proof.
  intros [Hwt Hl Ht Hm Hr Hst Hcw] HL. rewrite atomic_split.
  destruct (atomic_first_ok tm_mode L g Hwt Hl Ht HL) as (g1 & -> & S1 & E1 & A1 & NL & NM). cbn [mbind option_bind].
  destruct S1 as [L1 W1 T1 I1]. pose proof (l_roots _ _ L1) as [= Rw _ _ Rm Rr Rt].
  destruct (atomic_second_ok tm_mode tm_gc (grayagain g) g1 g1) as (g2 & -> & [L2 W2 T2 I2] & E2 & NT); [|by split| done..|].
  { unfold luaC_white in *. by rewrite Rw. }
  cbn [mbind option_bind].
  destruct (cleartable_ok tm_mode g2 (weak g2) W2 (wl_weak _ T2)) as (g3 & -> & H3 & Hclr). cbn [mbind option_bind].
  eexists. split; [done|]. split; [done|]. set (g4 := set_phase _ _ g3).
  assert (forall o, nonwhite g4 o -> settled g4 o) as Hset.
  { apply (cleared_settled g2 g3 W2 H3); [|exact Hclr]. intros o Ho.
    destruct (I2 o Ho) as [Hin|[[]|?]]; [rewrite E2 in Hin; by apply elem_of_nil in Hin|done]. }
  split; [|exact Hset]. pose proof (l_roots _ _ L2) as [= Qw _ _ Qm Qr Qt]. pose proof (cl_rest _ _ H3) as [= Cw _ _ _ Ct _ Cm Cr Cmt].
  intros o (r & Hrt & Hrtc). apply (nonwhite_kept g); [done|cbn; unfold otherwhite; by rewrite Cw, Qw, Rw|].
  assert (forall c, nonwhite g1 c -> nonwhite g4 c) as Hw4 by (intros c Hc; by apply H3, L2).
  assert (nonwhite g4 r) as Hn.
  { rewrite Forall_forall in Hr, NM, NT. unfold root_set in Hrt. cbn [mainthread registry mt tmudata g4 set_phase] in Hrt.
    rewrite Ct, Cm, Cr, Cmt, Qm, Qr, Qt, Rm, Rr, Rt in Hrt. rewrite !elem_of_cons, !elem_of_app in Hrt.
    destruct Hrt as [->|[->|[?|[?|?]]]]; [by apply Hw4|by apply Hw4, L1|by apply Hw4, L1, Hr|by apply Hw4, NM|].
    by apply H3, NT. }
  clear Hrt. induction Hrtc as [|r c o Hrc _ IH]; [done|]. apply IH. by apply (Hset r).
Qed.

(** ** The mark phase starts *)
Lemma marks_tri g g' : marks tm_mode nothing g g' -> (forall o, ~ nonwhite g o) -> (forall o, ~ black g o) -> tri g'.
Proof.
  intros [C K _] Hn Hb. split; intros o Ho.
  - destruct (k_black _ _ _ K o Ho) as [?|[[]|?]]; [by destruct (Hb o)|done].
  - destruct (k_gray _ _ _ K o Ho) as [?|[[]|[?|[?|?]]]]; [by destruct (Hn o)|by left|by right; left|by do 4 right].
Qed.

Lemma set_phase_ok g : luaC_white g <> 0 -> wt g -> wt_lists g -> tri g -> nonwhite g (mainthread g) -> Forall (nonwhite g) (refs (registry g)) ->
  phase_ok (set_phase (currentwhite g) GCSpropagate g).
Proof.
  intros Hcw Hwt [L1 L2 L3] [T1 T2] Hm Hr. split; try done. destruct Hwt as [V1 V2 V3 V4 V5 V6 V7 V8]. by split.
Qed.

Lemma markroot_ok g : luaC_white g <> 0 -> wt g -> (forall o, ~ nonwhite g o) -> (forall o, ~ black g o) -> yields (markroot g) phase_ok.
Proof.
  intros Hcw Hwt Hn Hb. unfold markroot. set (g0 := set_lists [] [] [] g).
  assert (wt g0) as Hwt0 by by apply (wt_rest g).
  destruct (wt_main _ Hwt0) as (b & Hs & Hth). destruct b as [| | | | | |gt st rs|]; try done.
  destruct (wt_body _ Hwt0 _ _ Hs) as [Hgt _]. cbn [limit brefs] in Hgt. apply Forall_app in Hgt as [Hgt _].
  eapply yields_bind; [apply (markobject_ok tm_mode nothing (mainthread g0) g0 Hwt0); exists (GThread gt st rs); split; [done|cbn; lia]|].
  cbv beta. intros g1 [H1 N1]. assert (wt g1) as Hwt1 by by eapply marks_wt.
  assert (rest g1 = rest g0) as [= C1 _ _ _ _ _ M1 R1 _] by apply H1.
  assert (shape g1 (mainthread g1) = Some (GThread gt st rs)) as Hs1.
  { rewrite M1. by rewrite (c_shape _ _ _ _ (m_core _ _ _ _ H1)). }
  destruct (shape_lookup _ _ _ Hs1) as (x & E & Hx). unfold thread_globals. rewrite E. cbn [mbind option_bind].
  destruct (contents x) as [| | | | | |gt' st' rs'|]; try done. injection Hx as -> -> <-. cbn [mbind option_bind].
  eapply yields_bind; [apply (markvalue_ok tm_mode nothing gt g1 Hwt1); by eapply marks_kinds|].
  cbv beta. intros g2 [H2 _]. assert (wt g2) as Hwt2 by by eapply marks_wt.
  eapply yields_bind; [apply (markvalue_ok tm_mode nothing (registry g2) g2 Hwt2), wt_registry, Hwt2|].
  cbv beta. intros g3 [H3 N3]. assert (wt g3) as Hwt3 by by eapply marks_wt.
  eapply yields_bind; [exact (markmt_ok tm_mode g3 Hwt3)|]. cbv beta. intros g4 [H4 _]. apply yields_some.
  assert (marks tm_mode nothing g0 g4) as H04 by (transitivity g1; [done|]; transitivity g2; [done|]; by transitivity g3).
  assert (rest g4 = rest g3) as [= C4 _ _ _ _ _ M4 R4 _] by apply H4.
  assert (rest g3 = rest g2) as [= C3 _ _ _ _ _ M3 R3 _] by apply H3.
  assert (rest g2 = rest g1) as [= C2 _ _ _ _ _ M2 R2 _] by apply H2.
  apply set_phase_ok.
  - unfold luaC_white in *. by rewrite C4, C3, C2, C1.
  - by eapply marks_wt.
  - eapply core_lists; [apply H04|]. by split; constructor.
  - by eapply marks_tri.
  - rewrite M4, M3, M2, M1. eapply marks_white; [exact H4|]. eapply marks_white; [exact H3|]. eapply marks_white; [exact H2|].
    exact (Forall_inv N1).
  - rewrite R4, R3. eapply Forall_impl; [exact N3|]. intros c. by eapply marks_white.
Qed.

(** ** A turn of the collector *)
Lemma turn_tri o g g' : gray g = o :: tail (gray g) -> tri g -> turn tm_mode o g g' -> tri g'.
Proof.
  intros Hg Ht [C K _ _ F T]. pose proof (c_shape _ _ _ _ C) as S. split; intros c Hc.
  - destruct (k_black _ _ _ K c Hc) as [Hb|[<-|?]]; [|by apply F|done].
    eapply (full_mono g); [exact S|apply C|by apply tri_black].
  - destruct (k_gray _ _ _ K c Hc) as [Hn|[<-|[?|[?|?]]]]; [| |by left|by right; left|by do 4 right].
    + destruct (decide (c = o)) as [->|Hne]; [destruct T as [?|[?|?]]; auto|].
      destruct (tri_gray _ Ht c Hn) as [Hb|[Hin|[Hin|[Hin|Hl]]]].
      * destruct (k_keep _ _ _ K c Hb) as [?|?]; [done|by left].
      * right; left. rewrite Hg in Hin. apply elem_of_cons in Hin as [?|Hin]; [done|]. by eapply (grown_elem (pop g)); [apply C|].
      * right; right; left. eapply (grown_elem (pop g)); [apply C|done].
      * right; right; right; left. eapply (grown_elem (pop g)); [apply C|done].
      * do 4 right. eapply (is_kind_shape g); [exact S|done].
    + destruct T as [?|[?|?]]; auto.
Qed.

Lemma phase_turn_ok o g g' : gray g = o :: tail (gray g) -> phase_ok g -> turn tm_mode o g g' -> phase_ok g'.
Proof.
  intros Hg [V L T M R S Cw] H. pose proof (turn_progress _ _ _ _ Hg H) as P.
  pose proof (p_roots _ _ _ P) as [= Ec Es _ Em Er _]. split; [by apply P|by apply P|by eapply turn_tri|..].
  - rewrite Em. by apply P.
  - rewrite Er. eapply Forall_impl; [exact R|]. apply P.
  - by rewrite Es.
  - unfold luaC_white in *. by rewrite Ec.
Qed.

(** ** Writes of the program *)
Definition same_kind (b b' : body) : Prop :=
  match b, b' with
  | GUserdata _ _, GUserdata _ _ | GUpval (Own _), GUpval (Own _) | GCClosure _ _, GCClosure _ _
  | GLClosure _ _ _, GLClosure _ _ _ | GTable _ _ _, GTable _ _ _ | GThread _ _ _, GThread _ _ _
  | GProto _ _ _ _ _, GProto _ _ _ _ _ => True
  | _, _ => False
  end.

(** [o] gets the content [b'], whose references it had before or are in [new]; the
    heap stays well formed. *)
Record writes o b' (new : list id) g : Prop := {
  w_old : exists x, heap g !! o = Some x /\ same_kind (contents x) b' /\
    forall c, c ∈ brefs b' -> c ∈ brefs (contents x) \/ c ∈ new;
  w_wt : wt (set_contents b' o g);
}.

(** A property of kinds that a write does not change. *)
Definition stable_kind (P : body -> Prop) : Prop := forall b b', same_kind b b' -> P (strip b) -> P (strip b').

Section Write.
Context (o : id) (b' : body) (new : list id) (g : global_State) (W : writes o b' new g).
Let g1 := set_contents b' o g.

Lemma write_marked c : (forall P : Z -> Prop, (exists y, heap g1 !! c = Some y /\ P (marked y)) <-> exists y, heap g !! c = Some y /\ P (marked y)).
Proof.
  intros P. cbn. destruct (decide (c = o)) as [->|Hne]; [|by rewrite lookup_alter_ne]. rewrite lookup_alter_eq.
  destruct (heap g !! o) as [y|]; cbn; [|naive_solver]. split; intros (z & [= <-] & Hz); eexists; (split; [done|]); exact Hz.
Qed.
Lemma write_nonwhite c : nonwhite g1 c <-> nonwhite g c.
Proof. apply (write_marked c (fun m => iswhite m = false)). Qed.
Lemma write_black c : black g1 c <-> black g c.
Proof. apply (write_marked c (fun m => isblack m = true)). Qed.

Lemma write_kind P c : stable_kind P -> is_kind g P c -> is_kind g1 P c.
Proof using W.
  intros HP (b & Hb & Hk). destruct (shape_lookup _ _ _ Hb) as (x & E & <-). unfold is_kind, shape. cbn.
  destruct (decide (c = o)) as [->|Hne]; [|rewrite lookup_alter_ne, E by done; by exists (strip (contents x))].
  rewrite lookup_alter_eq, E. cbn. eexists. split; [done|]. destruct (w_old _ _ _ _ W) as (y & Ey & Hs & _).
  assert (y = x) as -> by congruence. by eapply HP.
Qed.

Lemma write_lists : wt_lists g -> wt_lists g1.
Proof using W.
  intros [L1 L2 L3]. split; (eapply Forall_impl; [eassumption|]); intros c; apply write_kind; intros b b2; by destruct b as [| |[]| | | | |], b2 as [| |[]| | | | |].
Qed.

(** What the barrier has to repair: [o] may be black and refer to white objects of [new]. *)
Lemma write_tri : tri g ->
  (forall c, black g1 c -> c <> o -> full g1 c) /\
  (black g1 o -> exists b, shape g1 o = Some b /\ ~ unbarriered b /\ forall c, c ∈ brefs b -> nonwhite g1 c \/ c ∈ new) /\
  (forall c, nonwhite g1 c -> black g1 c \/ c ∈ gray g1 \/ c ∈ grayagain g1 \/ c ∈ weak g1 \/ is_kind g1 leaf c).
Proof using W.
  intros [T1 T2]. destruct (w_old _ _ _ _ W) as (x & E & Hs & Hr). split; [|split].
  - intros c Hc Hne. apply write_black in Hc. destruct (T1 c Hc) as (b & Hb & Hno & Hf). exists b. split.
    + unfold shape in *. cbn. by rewrite lookup_alter_ne.
    + split; [done|]. intros d Hd. apply write_nonwhite. auto.
  - intros Hc. apply write_black in Hc. destruct (T1 o Hc) as (b & Hb & Hno & Hf). unfold shape in Hb. rewrite E in Hb. injection Hb as <-.
    exists (strip b'). split; [unfold shape; cbn; by rewrite lookup_alter_eq, E|]. split.
    + destruct (contents x) as [| |[]| | | | |], b' as [| |[]| | | | |]; done.
    + intros c. rewrite brefs_strip in *. intros Hin. destruct (Hr c Hin) as [Hold|?]; [left|by right]. apply write_nonwhite. auto.
  - intros c Hc. apply write_nonwhite in Hc. rewrite write_black. destruct (T2 c Hc) as [?|[?|[?|[?|Hl]]]]; auto.
    do 4 right. eapply write_kind; [|exact Hl]. intros b b2. unfold leaf. destruct b as [| |[]| | | | |], b2 as [| |[]| | | | |]; cbn; tauto.
Qed.

Lemma write_phase : phase_ok g -> tri g1 -> phase_ok g1.
Proof using W.
  intros [V L T M R S Cw] T'. split; try done; [apply W|by apply write_lists|by apply write_nonwhite|].
  eapply Forall_impl; [exact R|]. intros c. by apply write_nonwhite.
Qed.

(** Without white references in [new], or for a thread, no barrier is needed. *)
Lemma write_plain : phase_ok g -> (black g1 o -> Forall (nonwhite g1) new) -> phase_ok g1.
Proof using W.
  intros H Hnew. apply write_phase; [done|]. destruct (write_tri (ph_tri _ H)) as (H1 & H2 & H3). split; [|done].
  intros c Hc. destruct (decide (c = o)) as [->|Hne]; [|by apply H1]. destruct (H2 Hc) as (b & Hb & Hno & Hf).
  exists b. do 2 (split; [done|]). intros d Hd. destruct (Hf d Hd) as [?|Hin]; [done|].
  specialize (Hnew Hc). rewrite Forall_forall in Hnew. auto.
Qed.
End Write.

(** The two objects a barrier tests. *)
Lemma written_pair o b' v g : writes o b' [v] g -> is_Some (heap g !! v) ->
  exists x y, heap (set_contents b' o g) !! v = Some x /\ heap (set_contents b' o g) !! o = Some y /\ contents y = b'.
Proof.
  intros W [xv Ev]. destruct (w_old _ _ _ _ W) as (y0 & E0 & _).
  assert (heap (set_contents b' o g) !! o = Some {| marked := marked y0; contents := b' |}) as Ho.
  { cbn. by rewrite lookup_alter_eq, E0. }
  destruct (decide (v = o)) as [->|Hne]; [by eexists _, _|].
  exists xv, {| marked := marked y0; contents := b' |}. split; [|done]. cbn. by rewrite lookup_alter_ne.
Qed.

(** When the test of the macros fails, there is nothing to repair. *)
Lemma no_barrier o b' v g x y : phase_ok g -> writes o b' [v] g ->
  heap (set_contents b' o g) !! v = Some x -> heap (set_contents b' o g) !! o = Some y ->
  iswhite (marked x) && isblack (marked y) = false -> phase_ok (set_contents b' o g).
Proof.
  intros H W Ex Ey Eb. eapply write_plain; [exact W|done|]. intros (y' & Ey' & Hy). assert (y' = y) as -> by congruence.
  rewrite Hy, andb_true_r in Eb. apply Forall_singleton. by exists x.
Qed.

Lemma barrierback_ok t b' v g : phase_ok g -> writes t b' [v] g -> is_table b' -> is_Some (heap g !! v) ->
  yields (luaC_objbarriert t v (set_contents b' t g)) phase_ok.
Proof.
  intros H W Hb Hv. destruct (written_pair _ _ _ _ W Hv) as (x & y & Ex & Ey & Ht). unfold luaC_objbarriert.
  destruct (write_tri _ _ _ _ W (ph_tri _ H)) as (H1 & _ & H3).
  pose proof (write_nonwhite t b' g) as Hnw. pose proof (write_lists _ _ _ _ W (ph_lists _ H)) as [L1 L2 L3]. pose proof (w_wt _ _ _ _ W) as Hwt.
  pose proof (no_barrier t b' v g x y H W Ex Ey) as Hno. set (g1 := set_contents b' t g) in *. rewrite Ex, Ey. cbn [mbind option_bind].
  destruct (iswhite (marked x) && isblack (marked y)); apply yields_some; [|by apply Hno].
  set (g2 := remark black2gray t g1). assert (same_shapes g1 g2) as S by apply shapes_remark.
  assert (forall c, nonwhite g2 c <-> nonwhite g1 c) as Hn.
  { intros c. unfold g2. rewrite nonwhite_remark. destruct (decide (c = t)) as [->|]; [|done]. unfold nonwhite.
    setoid_rewrite black2gray_white. done. }
  assert (forall c, black g2 c -> c <> t /\ black g1 c) as Hk.
  { intros c. unfold g2. rewrite black_remark. destruct (decide (c = t)) as [->|]; [|done]. intros (z & _ & B).
    by rewrite black2gray_black in B. }
  destruct H as [V L [T1 T2] M R St Cw]. split; try done.
  - by apply (wt_rest g1).
  - split; [by eapply Forall_kind_shape| |by eapply Forall_kind_shape]. constructor; [|by eapply Forall_kind_shape].
    eapply is_kind_shape; [exact S|]. exists (strip b'). split; [unfold shape; rewrite Ey; cbn; by rewrite Ht|]. by destruct b'.
  - split.
    + intros c Hc. destruct (Hk c Hc) as [Hne Hb1]. eapply (full_mono g1); [exact S|intros d; apply Hn|by apply H1].
    + intros c Hc. destruct (decide (c = t)) as [->|Hne]; [right; right; left; by left|].
      apply Hn in Hc. destruct (H3 c Hc) as [B|[?|[?|[?|?]]]].
      * left. unfold black. cbn. by rewrite lookup_alter_ne.
      * by right; left.
      * right; right; left. by right.
      * by right; right; right; left.
      * do 4 right. by eapply is_kind_shape.
  - apply Hn, Hnw, M.
  - eapply Forall_impl; [exact R|]. intros c Hc. by apply Hn, Hnw.
Qed.

Lemma barrierf_ok p b' v g : phase_ok g -> writes p b' [v] g -> is_Some (heap g !! v) ->
  yields (luaC_objbarrier p v (set_contents b' p g)) phase_ok.
Proof.
  intros H W Hv. destruct (written_pair _ _ _ _ W Hv) as (x & y & Ex & Ey & Hp). unfold luaC_objbarrier.
  destruct (write_tri _ _ _ _ W (ph_tri _ H)) as (H1 & H2 & H3).
  pose proof (write_nonwhite p b' g) as Hnw. pose proof (write_lists _ _ _ _ W (ph_lists _ H)) as Hl. pose proof (w_wt _ _ _ _ W) as Hwt.
  pose proof (no_barrier p b' v g x y H W Ex Ey) as Hno. set (g1 := set_contents b' p g) in *. rewrite Ex, Ey. cbn [mbind option_bind].
  destruct (iswhite (marked x)) eqn:Ewx; [|by apply yields_some, Hno].
  destruct (isblack (marked y)) eqn:Eby; [|by apply yields_some, Hno].
  unfold luaC_barrierf. cbn [andb]. change (gcstate g1) with (gcstate g). rewrite (ph_state _ H).
  assert (ref_ok g1 3 v) as Hrv.
  { exists (strip (contents x)). split; [unfold shape; by rewrite Ex|]. destruct (contents x); cbn; lia. }
  eapply yields_mono; [apply (reallymark_ok tm_mode MARKDEPTH v g1 Hwt); [by exists x|exact Hrv]|].
  cbv beta. intros g2 [[C K _] Nv]. pose proof (Forall_inv Nv) as Hv2. pose proof (c_shape _ _ _ _ C) as S.
  destruct H as [V L T M R St Cw]. pose proof (c_rest _ _ _ _ C) as [= Rc Rs _ _ _ _ Rm Rr _]. split.
  - by eapply wt_rest; [exact S|apply C|].
  - by eapply core_lists.
  - split.
    + intros c Hc. destruct (k_black _ _ _ K c Hc) as [Hb1|[[]|?]]; [|done]. destruct (decide (c = p)) as [->|Hne].
      * destruct (H2 Hb1) as (b & Hb & Hno' & Hf). exists b. split; [by rewrite S|]. split; [done|]. intros d Hd.
        destruct (Hf d Hd) as [?|Hin]; [by apply C|]. apply list_elem_of_singleton in Hin as ->. done.
      * eapply (full_mono g1); [exact S|apply C|by apply H1].
    + intros c Hc. destruct (k_gray _ _ _ K c Hc) as [Hn|[[]|[?|[?|?]]]]; [|by left|by right; left|by do 4 right].
      destruct (H3 c Hn) as [B|[?|[?|[?|?]]]].
      * destruct (k_keep _ _ _ K c B) as [[]|?]. by left.
      * right; left. eapply grown_elem; [apply C|done].
      * right; right; left. eapply grown_elem; [apply C|done].
      * right; right; right; left. eapply grown_elem; [apply C|done].
      * do 4 right. by eapply is_kind_shape.
  - rewrite Rm. by apply C, Hnw.
  - rewrite Rr. eapply Forall_impl; [exact R|]. intros c Hc. by apply C, Hnw.
  - by rewrite Rs.
  - unfold luaC_white in *. by rewrite Rc.
Qed.

(** ** New objects *)
Section Link.
Context (o : id) (b : body) (g : global_State) (Hfree : heap g !! o = None).
Let g1 := luaC_link o b g.

Lemma link_lookup c : heap g1 !! c = if decide (c = o) then Some {| marked := luaC_white g; contents := b |} else heap g !! c.
Proof. cbn. destruct (decide (c = o)) as [->|]; [by rewrite lookup_insert_eq|by rewrite lookup_insert_ne]. Qed.

Lemma link_kind P c : is_kind g P c -> is_kind g1 P c.
Proof using Hfree.
  intros (d & Hd & HP). exists d. split; [|done]. unfold shape in *. rewrite link_lookup. destruct (decide (c = o)) as [->|]; [|done].
  by rewrite Hfree in Hd.
Qed.
Lemma link_kinds P l : Forall (is_kind g P) l -> Forall (is_kind g1 P) l.
Proof using Hfree. intros H. eapply Forall_impl; [exact H|]. intros c. apply link_kind. Qed.

Lemma link_place pl v : place_value (heap g) pl = Some v -> place_value (heap g1) pl = Some v.
Proof using Hfree.
  destruct pl as [w|th i]; [done|]. unfold place_value. rewrite link_lookup. destruct (decide (th = o)) as [->|]; [|done].
  by rewrite Hfree.
Qed.

Lemma link_body_ok d : body_ok g d -> body_ok g1 d.
Proof using Hfree.
  intros [H1 H2]. split; [by apply link_kinds|]. destruct d; try done.
  - destruct H2 as (w & ? & ?). exists w. split; [by apply link_place|by apply link_kinds].
  - by apply link_kinds.
Qed.

Lemma link_marked c : (nonwhite g1 c -> luaC_white g <> 0 -> nonwhite g c) /\ (black g1 c -> black g c).
Proof.
  unfold nonwhite, black. rewrite link_lookup. destruct (decide (c = o)); [|done]. unfold luaC_white.
  split; intros (x & [= <-] & Hx); cbn in Hx.
  - intros Hw. exfalso. unfold iswhite in Hx. rewrite <- Z.land_assoc in Hx. change (Z.land WHITEBITS WHITEBITS) with WHITEBITS in Hx.
    destruct (Z.eqb_spec (Z.land (currentwhite g) WHITEBITS) 0); done.
  - exfalso. unfold isblack in Hx. rewrite <- Z.land_assoc in Hx. change (Z.land WHITEBITS BLACKMASK) with 0 in Hx.
    by rewrite Z.land_0_r in Hx.
Qed.

Lemma link_marked_again c : (nonwhite g c -> nonwhite g1 c) /\ (black g c -> black g1 c).
Proof using Hfree.
  unfold nonwhite, black. rewrite link_lookup. destruct (decide (c = o)) as [->|]; [|done]. by rewrite Hfree; split; intros (x & ? & _).
Qed.

Lemma link_ok : phase_ok g -> body_ok g (strip b) -> ~ is_open b -> phase_ok g1.
Proof using Hfree.
  intros [[V1 V2 V3 V4 V5 V6 V7 V8] [L1 L2 L3] [T1 T2] M R St Cw] Hb Ho. split; try done.
  - split; try (by apply link_kinds); [|by apply link_kind|].
    + intros c d. unfold shape. rewrite link_lookup. destruct (decide (c = o)); [intros [= <-]|intros Hd]; apply link_body_ok; [done|].
      by apply (V1 c).
    + intros c (d & Hd & Hop). apply V6. unfold shape in Hd. rewrite link_lookup in Hd. destruct (decide (c = o)); [|by exists d].
      injection Hd as <-. exfalso. apply Ho. by destruct b as [| |[]| | | | |].
  - split; by apply link_kinds.
  - split; intros c Hc.
    + apply link_marked in Hc. destruct (T1 c Hc) as (d & Hd & Hno & Hf). exists d. split.
      * unfold shape in *. rewrite link_lookup. destruct (decide (c = o)) as [->|]; [|done]. by rewrite Hfree in Hd.
      * split; [done|]. intros e He. apply link_marked_again. auto.
    + apply link_marked in Hc; [|done]. destruct (T2 c Hc) as [?|[?|[?|[?|?]]]]; [left; by apply link_marked_again|by auto..|].
      do 4 right. by apply link_kind.
  - by apply link_marked_again.
  - eapply Forall_impl; [exact R|]. intros c. apply link_marked_again.
Qed.
End Link.

(** ** The mark phase as a transition system *)
Inductive phase_step : global_State -> global_State -> Prop :=
  | collector_turn g g' : propagatemark tm_mode g = Some g' -> phase_step g g'
  | plain_write o b g : writes o b [] g -> phase_step g (set_contents b o g)
  | stack_write th b new g : writes th b new g -> is_thread b -> phase_step g (set_contents b th g)
  | table_write t b v g g' : writes t b [v] g -> is_table b -> is_Some (heap g !! v) ->
      luaC_objbarriert t v (set_contents b t g) = Some g' -> phase_step g g'
  | object_write p b v g g' : writes p b [v] g -> is_Some (heap g !! v) ->
      luaC_objbarrier p v (set_contents b p g) = Some g' -> phase_step g g'
  | new_object o b g : heap g !! o = None -> body_ok g (strip b) -> ~ is_open b -> phase_step g (luaC_link o b g).

Lemma yields_eq {A} (m : option A) (P : A -> Prop) a : yields m P -> m = Some a -> P a.
Proof. intros (a' & -> & H) [= <-]. done. Qed.

Lemma turn_total g : phase_ok g -> gray g <> [] -> yields (propagatemark tm_mode g) phase_ok.
Proof.
  intros H Hne. destruct (gray g) as [|o gr] eqn:Hg; [done|].
  assert (is_kind g traversable o) as Ho.
  { pose proof (wl_gray _ (ph_lists _ H)) as Hl. rewrite Hg in Hl. by apply Forall_inv in Hl. }
  eapply yields_mono; [eapply (propagatemark_ok tm_mode o gr g (ph_wt _ H) Hg Ho)|]. intros g'. apply phase_turn_ok; [by rewrite Hg|done].
Qed.

Lemma phase_step_ok g g' : phase_ok g -> phase_step g g' -> phase_ok g'.
Proof.
  intros H Hs. revert H. destruct Hs as [g0 g1 E|o b g0 W|th b new g0 W Ht|t b v g0 g1 W Ht Hv E|p b v g0 g1 W Hv E|o b g0 Hf Hb Ho]; intros H.
  - eapply yields_eq; [|exact E]. apply turn_total; [done|]. intros Hg. unfold propagatemark in E. by rewrite Hg in E.
  - eapply write_plain; [exact W|done|]. intros _. constructor.
  - eapply write_plain; [exact W|done|]. intros B. exfalso.
    destruct (write_tri _ _ _ _ W (ph_tri _ H)) as (_ & H2 & _). destruct (H2 B) as (d & Hd & Hno & _).
    destruct (w_old _ _ _ _ W) as (x & E & _). unfold shape in Hd. cbn in Hd. rewrite lookup_alter_eq, E in Hd.
    injection Hd as <-. by destruct b.
  - eapply yields_eq; [|exact E]. by apply barrierback_ok.
  - eapply yields_eq; [|exact E]. by apply barrierf_ok.
  - by apply link_ok.
Qed.

(** C18. The invariant of the mark phase. From a well-formed heap whose objects are all
    white, [markroot] succeeds and establishes [phase_ok]: the heap is well formed, what
    a black object refers to is marked, a marked object that is not black is on one of
    the collector's lists or is a string or an open upvalue, and the roots are marked.
    Every turn of the collector, every write of the program behind its barrier - to a
    table (backwards), to another object (forwards), to a stack (none) - and every new
    object keep it, and a turn never fails while there is a gray object. *)
Theorem mark_phase_invariant g0 :
  luaC_white g0 <> 0 -> wt g0 -> (forall o, ~ nonwhite g0 o) -> (forall o, ~ black g0 o) ->
  exists g1, markroot g0 = Some g1 /\ forall g, rtc phase_step g1 g ->
    phase_ok g /\ (gray g <> [] -> exists g', propagatemark tm_mode g = Some g').
Proof.
  intros Hcw Hwt Hn Hb. destruct (markroot_ok g0 Hcw Hwt Hn Hb) as (g1 & E & H). exists g1. split; [done|].
  intros g Hr. assert (phase_ok g) as Hg by (clear E; induction Hr as [|? ? ? Hs _ IH]; [done|]; by eapply IH, phase_step_ok).
  split; [done|]. intros Hne. destruct (turn_total g Hg Hne) as (g' & ? & _). by exists g'.
Qed.
End Correct.

(** ** Witnesses

    A thread (0) with a closure and a table with weak values on its stack, an open upvalue
    (4) into this stack, the metatable (5) that makes the table (6) weak, and a table
    (10) that only the weak table refers to. *)
Definition obj (b : body) : GCObject := {| marked := 1; contents := b |}.
Definition demo_objects : list GCObject := [
  {| marked := 97; contents := GThread (Ref 1) [Ref 2; Ref 6; Plain 7] [Ref 10] |};
  obj (GTable None [] [{| gkey := Ref 9; gval := Ref 2 |}; {| gkey := Ref 10; gval := Nil |}]);
  obj (GLClosure 1 3 [4]);
  obj (GProto (Some 9) [Ref 9; Plain 3] [Some 9] [] [None]);
  obj (GUpval (Slot 0 1));
  obj (GTable None [] [{| gkey := Ref 7; gval := Ref 8 |}]);
  obj (GTable (Some 5) [Ref 10; Ref 2] [{| gkey := Plain 3; gval := Ref 10 |}]);
  obj (GString [95; 95; 109; 111; 100; 101]%Z);
  obj (GString [118]%Z);
  obj (GString [120]%Z);
  obj (GTable None [] []);
  obj (GTable None [] []);
  obj (GUserdata (Some 5) 1)]%nat.
Definition demo_heap : gmap nat GCObject := map_seq 0 demo_objects.
Definition demo : global_State := {|
  heap := demo_heap; currentwhite := 33; gcstate := GCSpause; gray := []; grayagain := []; weak := []; rootgc := [0]%nat;
  udata := [12]%nat; tmudata := []; uvhead := [4]%nat; mainthread := 0%nat; registry := Ref 11; mt := [None; Some 5%nat] |}.


Lemma demo_object o x : heap demo !! o = Some x -> (o, x) ∈ imap pair demo_objects.
Proof.
  change (heap demo) with demo_heap. unfold demo_heap. rewrite lookup_map_seq_0. intros H. apply elem_of_lookup_imap. by exists o, x.
Qed.

Ltac each_object H := apply demo_object in H; repeat (apply elem_of_cons in H as [[= -> ->]|H]); [..|by apply elem_of_nil in H].

Lemma demo_wt : wt demo.
Proof.
  assert (forall o b, shape demo o = Some b -> body_ok demo b /\ (is_open b -> o = 4%nat)) as Hall.
  { intros o b Hb. destruct (shape_lookup _ _ _ Hb) as (x & H & <-). clear Hb. each_object H.
    all: split; [split|]; cbn; try done; try lia.
    all: repeat (apply Forall_cons; split); try apply Forall_nil; try done.
    all: try (eexists; split; [reflexivity|cbn; lia]).
    all: try (eexists; split; [reflexivity|done]).
    eexists; split; [reflexivity|]. cbn. apply Forall_singleton. eexists; split; [reflexivity|cbn; lia]. }
  split.
  - intros o b Hb. by apply Hall in Hb as [? _].
  - by eexists.
  - cbn. apply Forall_singleton. eexists; split; [reflexivity|cbn; lia].
  - cbn. apply Forall_singleton. eexists; split; [reflexivity|cbn; lia].
  - cbn. apply Forall_singleton. by eexists.
  - intros o (b & Hb & Ho). apply Hall in Hb as [_ ->]; [by left|done].
  - cbn. apply Forall_singleton. by eexists.
  - constructor.
Qed.

Lemma demo_white o x : heap demo !! o = Some x -> iswhite (marked x) = true /\ isblack (marked x) = false.
Proof. intros H. each_object H; done. Qed.

Lemma demo_fresh : (forall o, ~ nonwhite demo o) /\ (forall o, ~ black demo o).
Proof. split; intros o (x & E & H); apply demo_white in E as [? ?]; congruence. Qed.

Lemma mark_phase_invariant_witness :
  exists g1, markroot demo = Some g1 /\ gray g1 = [5; 11; 1; 0]%nat /\ forall g, rtc (phase_step 7) g1 g -> phase_ok g.
Proof.
  destruct (mark_phase_invariant 7 demo) as (g1 & E & H); [done|exact demo_wt|apply demo_fresh..|].
  exists g1. split; [done|]. split; [|intros g Hr; apply (H g Hr)].
  assert (gray <$> markroot demo = Some [5; 11; 1; 0]%nat) as Hg by (vm_compute; reflexivity). rewrite E in Hg.
  cbn in Hg. by injection Hg.
Defined.

(** The unreachable table 10 is gone from the weak table, and dead. *)
Lemma atomic_keeps_reachable_witness : exists g g', markroot demo = Some g /\ atomic 7 8 0 g = Some g' /\
  kept g' 6 /\ contents <$> heap g' !! 6%nat = Some (GTable (Some 5%nat) [Nil; Ref 2] [{| gkey := Plain 3; gval := Nil |}]) /\
  (isdead g' ∘ marked) <$> heap g' !! 10%nat = Some true.
Proof.
  destruct (markroot_ok 7 demo) as (g & Eg & Hok); [done|exact demo_wt|apply demo_fresh..|].
  assert (ref_ok g 3 0) as HL.
  { destruct (wt_main _ (ph_wt _ Hok)) as (b & Hb & Ht). exists b. split; [|by destruct b; cbn; lia].
    assert (mainthread <$> markroot demo = Some 0%nat) as Hm by (vm_compute; reflexivity).
    rewrite Eg in Hm. injection Hm as Hm. by rewrite Hm in Hb. }
  destruct (atomic_keeps_reachable 7 8 0 g Hok HL) as (g' & E & _ & Hk & _). exists g, g'. split; [done|]. split; [done|].
  assert (forall A (f : global_State -> A) v, f <$> (g ← markroot demo; atomic 7 8 0 g) = Some v -> f g' = v) as Hf.
  { intros A f v Hv. rewrite Eg in Hv. cbn [mbind option_bind] in Hv. rewrite E in Hv. by injection Hv. }
  split; [|split].
  - apply Hk. exists 0%nat. split; [by left|]. apply rtc_once. unfold refers.
    rewrite (Hf _ (fun g => grefs g 0) [1; 2; 6]%nat); [right; right; left|vm_compute; reflexivity].
  - apply (Hf _ (fun g => contents <$> heap g !! 6%nat)). vm_compute. reflexivity.
  - apply (Hf _ (fun g => (isdead g ∘ marked) <$> heap g !! 10%nat)). vm_compute. reflexivity.
Defined.
