(* ===== verification/LFunc.v ===== *)
(** * Upvalues (src/lua/lfunc.c)

    A thread's open upvalues, over the collector's state of [LGc]: [open] is the list
    [L->openupval] of the thread [th], linked through [next] and sorted by stack level.
    The doubly linked list of all open upvalues is [uvhead]. The address of a new upvalue
    is the allocator's answer, an argument. *)
From stdpp Require Import base list option gmap sorting.
From Stdlib Require Import ZArith Lia ZifyBool.
From S2P Require Import Prelude LGc LGcProps LGcMark LGcAtomic LGcCorrect.
#[local] Open Scope Z_scope.

Definition set_uvhead (l : list id) (g : global_State) : global_State :=
  {| heap := heap g; currentwhite := currentwhite g; gcstate := gcstate g; gray := gray g; grayagain := grayagain g;
     weak := weak g; rootgc := rootgc g; udata := udata g; tmudata := tmudata g; uvhead := l;
     mainthread := mainthread g; registry := registry g; mt := mt g |}.

(** [uv->v] of an open upvalue, as a level of the stack. *)
Definition level_of (uv : id) (g : global_State) : option nat :=
  x ← heap g !! uv; match contents x with GUpval (Slot _ i) => Some i | _ => None end.

(** ** [luaF_findupval] *)
Definition new_open (th : id) (level : nat) (uv : id) (g : global_State) : global_State :=
  set_uvhead (uv :: uvhead g)
    (set_heap (<[uv := {| marked := luaC_white g; contents := GUpval (Slot th level) |}]> (heap g)) g).

(** The search: the upvalue, and the list with it. *)
Fixpoint luaF_findupval (th : id) (level : nat) (addr : id) (open : list id) (g : global_State)
    : option (id * list id * global_State) :=
  match open with
  | [] => Some (addr, [addr], new_open th level addr g)
  | p :: next =>
      x ← heap g !! p; l ← level_of p g;
      if (level <=? l)%nat then
        if (l =? level)%nat then
          Some (p, open, if isdead g (marked x) then remark changewhite p g else g)
        else '(uv, next, g) ← luaF_findupval th level addr next g; Some (uv, p :: next, g)
      else Some (addr, addr :: open, new_open th level addr g)
  end.

(** ** Closing *)
Definition unlinkupval (uv : id) (g : global_State) : global_State :=
  set_uvhead (filter (fun o => o <> uv) (uvhead g)) g.
Definition luaF_freeupval (uv : id) (g : global_State) : option global_State :=
  x ← heap g !! uv;
  match contents x with
  | GUpval pl =>
      let g := match pl with Slot _ _ => unlinkupval uv g | Own _ => g end in
      Some (set_heap (delete uv (heap g)) g)
  | _ => None
  end.

(** [luaC_barrier], the macro for values. *)
Definition luaC_barrier (p : id) (v : value) (g : global_State) : option global_State :=
  match v with Ref o | DeadKey o => luaC_objbarrier p o g | _ => Some g end.

Definition luaC_linkupval (uv : id) (g : global_State) : option global_State :=
  x ← heap g !! uv;
  let g := set_objects (uv :: rootgc g) (udata g) (tmudata g) g in
  if isgray (marked x) then
    match gcstate g, contents x with
    | GCSpropagate, GUpval pl =>
        let g := remark gray2black uv g in
        v ← place_value (heap g) pl; luaC_barrier uv v g
    | GCSpropagate, _ => None
    | _, _ => Some (remark (makewhite g) uv g)
    end
  else Some g.

(** [setobj(L, &uv->u.value, uv->v); uv->v = &uv->u.value]. *)
Definition close_value (uv : id) (g : global_State) : option global_State :=
  x ← heap g !! uv;
  match contents x with
  | GUpval pl => v ← place_value (heap g) pl; Some (set_contents (GUpval (Own v)) uv g)
  | _ => None
  end.

Definition close_one (uv : id) (g : global_State) : option global_State :=
  x ← heap g !! uv;
  if isdead g (marked x) then luaF_freeupval uv g
  else g ← close_value uv (unlinkupval uv g); luaC_linkupval uv g.

Fixpoint luaF_close (level : nat) (open : list id) (g : global_State) : option (list id * global_State) :=
  match open with
  | [] => Some ([], g)
  | uv :: next =>
      l ← level_of uv g;
      if (level <=? l)%nat then g ← close_one uv g; luaF_close level next g
      else Some (open, g)
  end.

(** ** Properties of upvalues (src/lua/lfunc.c)

    Two closures over the same variable share one upvalue ([luaF_findupval_shares]), and
    when the variable goes out of scope the upvalue keeps its value
    ([luaF_close_closes]). Both also keep the invariant of the mark phase: an open
    upvalue is never black, a closed one may become black, and gets a barrier. *)
Implicit Types (g : global_State).

(** The open upvalues of a thread: one per level, the highest first. *)
Definition opened g (th : id) (uv : id) (i : nat) : Prop := shape g uv = Some (GUpval (Slot th i)).
Fixpoint open_list g (th : id) (open : list id) : Prop :=
  match open with
  | [] => True
  | uv :: next =>
      (exists i, opened g th uv i /\ forall uv' j, uv' ∈ next -> opened g th uv' j -> (j < i)%nat) /\ open_list g th next
  end.
Definition alive g (o : id) : Prop := forall x, heap g !! o = Some x -> isdead g (marked x) = false.

Lemma open_at g th uv i : opened g th uv i <-> exists x, heap g !! uv = Some x /\ contents x = GUpval (Slot th i).
Proof.
  unfold opened, shape. split; [|by intros (x & -> & E); cbn; rewrite E].
  destruct (heap g !! uv) as [x|]; cbn; [|done]. intros [= E]. exists x. split; [done|]. by destruct (contents x).
Qed.
Lemma opened_level g th uv i : opened g th uv i -> level_of uv g = Some i.
Proof. intros (x & E & Ex)%open_at. unfold level_of. rewrite E. cbn. by rewrite Ex. Qed.
Lemma opened_unique g th uv i j : opened g th uv i -> opened g th uv j -> i = j.
Proof. unfold opened. congruence. Qed.

Lemma open_list_opened g th open uv : open_list g th open -> uv ∈ open -> exists i, opened g th uv i.
Proof.
  induction open as [|p open IH]; intros H Hu; [by apply elem_of_nil in Hu|]. destruct H as [(i & Hi & _) H].
  apply elem_of_cons in Hu as [->|Hu]; eauto.
Qed.

Lemma open_list_unique g th open p q i : open_list g th open -> p ∈ open -> q ∈ open -> opened g th p i -> opened g th q i -> p = q.
Proof.
  induction open as [|r open IH]; intros H Hp Hq Hi Hj; [by apply elem_of_nil in Hp|]. destruct H as [(k & Hk & Hlt) H].
  assert (forall p, p ∈ open -> opened g th p i -> r <> p -> ~ opened g th r i) as Hr.
  { intros s Hs Hsi Hne Hri. specialize (Hlt s i Hs Hsi). pose proof (opened_unique _ _ _ _ _ Hk Hri). lia. }
  apply elem_of_cons in Hp as [->|Hp], Hq as [->|Hq]; [done|..|by apply IH].
  - destruct (decide (r = q)); [done|]. by destruct (Hr q).
  - destruct (decide (r = p)); [done|]. by destruct (Hr p).
Qed.

(** The list depends on the contents of its upvalues only. *)
Lemma open_list_same g g' th open :
  (forall uv, uv ∈ open -> shape g' uv = shape g uv) -> open_list g th open -> open_list g' th open.
Proof.
  induction open as [|p open IH]; intros Hs H; [done|]. destruct H as [(i & Hi & Hlt) H]. split.
  - exists i. split; [unfold opened; rewrite Hs; [done|by left]|]. intros uv j Hu. unfold opened. rewrite Hs by by right.
    by apply Hlt.
  - apply IH; [|done]. intros uv Hu. apply Hs. by right.
Qed.

(** ** [luaF_findupval] *)
Section Find.
Variables (th addr : id) (level : nat).

Lemma new_open_lookup g c : heap (new_open th level addr g) !! c =
  if decide (c = addr) then Some {| marked := luaC_white g; contents := GUpval (Slot th level) |} else heap g !! c.
Proof. cbn. destruct (decide (c = addr)) as [->|]; [by rewrite lookup_insert_eq|by rewrite lookup_insert_ne]. Qed.
Lemma new_open_shape g c : shape (new_open th level addr g) c = if decide (c = addr) then Some (GUpval (Slot th level)) else shape g c.
Proof. unfold shape. rewrite new_open_lookup. by destruct (decide _). Qed.

(** What a search does: it finds the upvalue of the level, or links a new one. *)
Definition found (open : list id) g (uv : id) (open' : list id) g' : Prop :=
  uv ∈ open /\ opened g th uv level /\ open' = open /\
    exists x, heap g !! uv = Some x /\ g' = if isdead g (marked x) then remark changewhite uv g else g.
Definition created (open : list id) g (uv : id) (open' : list id) g' : Prop :=
  (forall p, p ∈ open -> ~ opened g th p level) /\ uv = addr /\ g' = new_open th level addr g /\
    exists above below, open = above ++ below /\ open' = above ++ addr :: below /\
      (forall p j, p ∈ above -> opened g th p j -> (level < j)%nat) /\ (forall p j, p ∈ below -> opened g th p j -> (j < level)%nat).

Lemma findupval_spec open g : open_list g th open ->
  exists uv open' g', luaF_findupval th level addr open g = Some (uv, open', g') /\
    (found open g uv open' g' \/ created open g uv open' g').
Proof.
  induction open as [|p next IH]; intros H; cbn [luaF_findupval].
  - eexists _, _, _. split; [done|]. right. split; [by intros p ?%elem_of_nil|]. do 2 (split; [done|]). exists [], [].
    do 2 (split; [done|]). by split; intros p j ?%elem_of_nil.
  - destruct H as [(i & Hi & Hlt) H]. pose proof Hi as (x & E & _)%open_at. rewrite E, (opened_level _ _ _ _ Hi). cbn [mbind option_bind].
    destruct (Nat.leb_spec level i) as [Hle|Hgt].
    + destruct (Nat.eqb_spec i level) as [->|Hne].
      * eexists _, _, _. split; [done|]. left. split; [by left|]. split; [done|]. split; [done|]. by exists x.
      * destruct (IH H) as (uv & o' & g' & -> & [(H1 & H2 & -> & H4)|(H1 & -> & H3 & ab & be & -> & -> & Ha & Hb)]);
          cbn [mbind option_bind]; eexists _, _, _; (split; [done|]).
        -- left. split; [by right|]. done.
        -- right. split; [intros q [->|Hq]%elem_of_cons Ho; [by pose proof (opened_unique _ _ _ _ _ Hi Ho)|by apply (H1 q)]|].
           do 2 (split; [done|]). exists (p :: ab), be. do 2 (split; [done|]). split; [|done].
           intros q j [->|Hq]%elem_of_cons Ho; [pose proof (opened_unique _ _ _ _ _ Hi Ho); lia|by apply (Ha q)].
    + assert (forall q j, q ∈ p :: next -> opened g th q j -> (j < level)%nat) as Hall.
      { intros q j [->|Hq]%elem_of_cons Ho; [pose proof (opened_unique _ _ _ _ _ Hi Ho); lia|]. specialize (Hlt q j Hq Ho). lia. }
      eexists _, _, _. split; [done|]. right. split; [intros q Hq Ho; specialize (Hall q _ Hq Ho); lia|]. do 2 (split; [done|]).
      exists [], (p :: next). do 2 (split; [done|]). split; [by intros q j ?%elem_of_nil|done].
Qed.

(** The list stays ordered, one upvalue per level. *)
Lemma open_list_insert above below g : heap g !! addr = None -> open_list g th (above ++ below) ->
  (forall p j, p ∈ above -> opened g th p j -> (level < j)%nat) -> (forall p j, p ∈ below -> opened g th p j -> (j < level)%nat) ->
  open_list (new_open th level addr g) th (above ++ addr :: below).
Proof.
  intros Hf H Ha Hb. assert (forall p, (exists i, opened g th p i) -> p <> addr) as Hne.
  { intros p (i & (x & E & _)%open_at) ->. congruence. }
  assert (forall p j, opened (new_open th level addr g) th p j -> p = addr /\ j = level \/ opened g th p j) as Hold.
  { intros p j. unfold opened. rewrite new_open_shape. destruct (decide (p = addr)) as [->|]; [|by right]. intros [= ->]. by left. }
  induction above as [|p above IH]; cbn in *.
  - split; [|eapply open_list_same; [|exact H]].
    + exists level. split; [unfold opened; by rewrite new_open_shape, decide_True|]. intros q j Hq Ho.
      destruct (Hold q j Ho) as [[-> ->]|Ho']; [|by apply (Hb q)]. destruct (open_list_opened _ _ _ _ H Hq) as (i & Hi).
      by destruct (Hne addr (ex_intro _ _ Hi)).
    + intros q Hq. rewrite new_open_shape, decide_False; [done|]. apply Hne. by eapply open_list_opened.
  - destruct H as [(i & Hi & Hlt) H]. split; [|apply IH; [done|intros q j Hq; apply Ha; by right]].
    exists i. split; [unfold opened; rewrite new_open_shape, decide_False; [done|apply Hne; by exists i]|].
    intros q j Hq Ho. destruct (Hold q j Ho) as [[-> ->]|Ho'].
    + apply (Ha p); [by left|done].
    + apply (Hlt q); [|done]. apply elem_of_app in Hq as [?|[->|?]%elem_of_cons]; [apply elem_of_app; by left| |apply elem_of_app; by right].
      by destruct (Hne addr (ex_intro _ _ Ho')).
Qed.
End Find.

(** A new white object that is not a thread changes no other object. *)
Section NewOpen.
Variables (tm_mode : id) (th addr : id) (level : nat) (g : global_State) (v : value).
Hypothesis Hfree : heap g !! addr = None.
Hypothesis Hslot : place_value (heap g) (Slot th level) = Some v.
Hypothesis Hval : Forall (ref_ok g 2) (refs v).
Let g1 := new_open th level addr g.
Let b := GUpval (Slot th level).
(** But for the lists of objects it is an object linked as [luaC_link] does. *)
Let g2 := luaC_link addr b g.

Lemma new_open_heap : heap g1 = heap g2.
Proof. done. Qed.

Lemma new_open_ok : phase_ok g -> phase_ok g1.
Proof using Hfree Hslot Hval.
  intros [[V1 V2 V3 V4 V5 V6 V7 V8] [L1 L2 L3] [T1 T2] M R St Cw].
  assert (forall P c, is_kind g P c -> is_kind g1 P c) as Hk by (intros P c; apply (link_kind addr b g Hfree)).
  assert (forall P l, Forall (is_kind g P) l -> Forall (is_kind g1 P) l) as Hks by (intros P l; apply (link_kinds addr b g Hfree)).
  assert (forall d, body_ok g d -> body_ok g1 d) as Hb by (intros d; apply (link_body_ok addr b g Hfree)).
  assert (shape g1 addr = Some b) as Ha by (unfold g1; by rewrite new_open_shape, decide_True).
  assert (forall c, c <> addr -> shape g1 c = shape g c) as Ho by (intros c ?; unfold g1; by rewrite new_open_shape, decide_False).
  assert (forall c, nonwhite g c -> nonwhite g1 c) as Hn by (intros c; apply (link_marked_again addr b g Hfree)).
  assert (forall c, nonwhite g1 c -> nonwhite g c) as Hn' by (intros c ?; by apply (link_marked addr b g)).
  assert (forall c, black g1 c -> black g c) as Hbk by (intros c; apply (link_marked addr b g)).
  split; try done.
  - split; try (by apply Hks); [|by apply Hk| |].
    + intros c d Hd. destruct (decide (c = addr)) as [->|Hne].
      * rewrite Ha in Hd. injection Hd as <-. split; [constructor|]. exists v. split; [|by apply Hks].
        by apply (link_place addr b g Hfree).
      * rewrite Ho in Hd by done. apply Hb. by apply (V1 c).
    + constructor; [by exists b|by apply Hks].
    + intros c (d & Hd & Hop). destruct (decide (c = addr)) as [->|Hne]; [by left|]. right. apply V6. exists d. by rewrite <- Ho.
  - split; by apply Hks.
  - split; intros c Hc.
    + apply Hbk in Hc. destruct (T1 c Hc) as (d & Hd & Hno & Hf). exists d. split.
      * rewrite Ho; [done|]. intros ->. unfold shape in Hd. by rewrite Hfree in Hd.
      * split; [done|]. auto.
    + apply Hn' in Hc. destruct (T2 c Hc) as [?|[?|[?|[?|?]]]]; [left; by apply (link_marked_again addr b g Hfree)|by auto..|].
      do 4 right. by apply Hk.
  - by apply Hn.
  - eapply Forall_impl; [exact R|]. auto.
Qed.
End NewOpen.

(** ** Marking kills nothing *)
Definition keeps_alive g g' : Prop := currentwhite g' = currentwhite g /\ forall c, alive g c -> alive g' c.
Lemma keeps_alive_refl g : keeps_alive g g.
Proof. done. Qed.
Lemma keeps_alive_trans g1 g2 g3 : keeps_alive g1 g2 -> keeps_alive g2 g3 -> keeps_alive g1 g3.
Proof. intros [E1 H1] [E2 H2]. split; [congruence|auto]. Qed.

Lemma isdead_white2gray g m : isdead g (white2gray m) = false.
Proof.
  unfold isdead, white2gray. rewrite <- !Z.land_assoc, (Z.land_comm (otherwhite g)), !Z.land_assoc, <- (Z.land_assoc m).
  change (Z.land 252 WHITEBITS) with 0. by rewrite Z.land_0_r, Z.land_0_l.
Qed.
Lemma isdead_gray2black g m : isdead g (gray2black m) = isdead g m.
Proof.
  unfold isdead, gray2black. rewrite !Z.land_lor_distr_l, (Z.land_comm BLACKMASK), <- (Z.land_assoc _ BLACKMASK).
  change (Z.land BLACKMASK WHITEBITS) with 0. by rewrite Z.land_0_r, Z.lor_0_r.
Qed.
Lemma keeps_alive_remark f o g : (forall m, isdead g m = false -> isdead g (f m) = false) -> keeps_alive g (remark f o g).
Proof.
  intros Hf. split; [done|]. intros c Hc x. rewrite lookup_remark. destruct (decide (c = o)) as [->|]; [|apply Hc].
  destruct (heap g !! o) as [y|] eqn:E; cbn; [|done]. intros [= <-]. apply Hf, Hc, E.
Qed.
Lemma keeps_alive_gray o g : keeps_alive g (remark white2gray o g).
Proof. apply keeps_alive_remark. intros m _. apply isdead_white2gray. Qed.
Lemma keeps_alive_black o g : keeps_alive g (remark gray2black o g).
Proof. apply keeps_alive_remark. intros m. by rewrite isdead_gray2black. Qed.
#[local] Hint Resolve keeps_alive_refl keeps_alive_gray keeps_alive_black : core.

Lemma bind_keeps {A} (m : option A) (f : A -> option global_State) g' :
  mbind f m = Some g' -> exists a, m = Some a /\ f a = Some g'.
Proof. destruct m as [a|]; cbn; [|done]. by exists a. Qed.

Lemma reallymark_alive fuel o g g' : reallymarkobject fuel o g = Some g' -> keeps_alive g g'.
Proof.
  revert o g g'. induction fuel as [|fuel IH]; intros o g g'; cbn [reallymarkobject]; [done|].
  intros (x & E & H)%bind_keeps. eapply keeps_alive_trans; [apply (keeps_alive_gray o)|].
  set (g1 := remark white2gray o g) in *.
  assert (forall c g2 g3, (y ← heap g2 !! c; if iswhite (marked y) then reallymarkobject fuel c g2 else Some g2) = Some g3 ->
    keeps_alive g2 g3) as Hm.
  { intros c g2 g3 (y & _ & Hy)%bind_keeps. destruct (iswhite (marked y)); [by eapply IH|]. by simplify_eq. }
  destruct (contents x) as [str|m env|pl| | | | |]; simplify_eq; try done.
  - apply bind_keeps in H as (g3 & H & H'). eapply keeps_alive_trans; [apply (keeps_alive_black o)|].
    eapply keeps_alive_trans; [|by eapply Hm]. destruct m; [by eapply Hm|by simplify_eq].
  - apply bind_keeps in H as (v & _ & H). apply bind_keeps in H as (g3 & H & H').
    assert (keeps_alive g1 g3) as H3 by (destruct v; try (by simplify_eq); by eapply Hm).
    eapply keeps_alive_trans; [exact H3|]. by destruct pl; simplify_eq.
Qed.

(** ** [luaF_close] *)
Section Close.
Variables (th uv : id) (i : nat) (v : value) (g : global_State).
Hypothesis Hok : phase_ok g.
Hypothesis Hopen : opened g th uv i.
Hypothesis Hslot : place_value (heap g) (Slot th i) = Some v.

(** The upvalue unlinked, with its value, on [rootgc]. *)
Definition closed_upval : global_State :=
  set_objects (uv :: rootgc g) (udata g) (tmudata g) (set_contents (GUpval (Own v)) uv (unlinkupval uv g)).
Let g1 := closed_upval.

Lemma closed_lookup c : heap g1 !! c =
  if decide (c = uv) then (fun x => {| marked := marked x; contents := GUpval (Own v) |}) <$> heap g !! c else heap g !! c.
Proof. cbn. destruct (decide (c = uv)) as [->|]; [by rewrite lookup_alter_eq|by rewrite lookup_alter_ne]. Qed.
Lemma closed_shape c : shape g1 c = if decide (c = uv) then Some (GUpval (Own v)) else shape g c.
Proof using Hopen.
  unfold shape. rewrite closed_lookup. destruct (decide (c = uv)) as [->|]; [|done].
  apply open_at in Hopen as (x & -> & _). done.
Qed.
Lemma closed_marked (P : Z -> Prop) c :
  (exists y, heap g1 !! c = Some y /\ P (marked y)) <-> exists y, heap g !! c = Some y /\ P (marked y).
Proof.
  rewrite closed_lookup. destruct (decide (c = uv)); [|done]. destruct (heap g !! c) as [y|]; cbn; [|naive_solver].
  split; intros (z & [= <-] & Hz); eexists; (split; [done|]); exact Hz.
Qed.
Lemma closed_nonwhite c : nonwhite g1 c <-> nonwhite g c.
Proof. apply (closed_marked (fun m => iswhite m = false)). Qed.
Lemma closed_black c : black g1 c <-> black g c.
Proof. apply (closed_marked (fun m => isblack m = true)). Qed.
Lemma closed_kind P c : (P (GUpval (Slot th i)) -> P (GUpval (Own v))) -> is_kind g P c -> is_kind g1 P c.
Proof using Hopen.
  intros HP (b & Hb & Hk). unfold is_kind. rewrite closed_shape. destruct (decide (c = uv)) as [->|]; [|by exists b].
  eexists. split; [done|]. apply HP. unfold opened in Hopen. by replace (GUpval (Slot th i)) with b by congruence.
Qed.
Lemma closed_kinds P l : (P (GUpval (Slot th i)) -> P (GUpval (Own v))) -> Forall (is_kind g P) l -> Forall (is_kind g1 P) l.
Proof using Hopen. intros HP H. eapply Forall_impl; [exact H|]. intros c. by apply closed_kind. Qed.
Lemma closed_place pl w : place_value (heap g) pl = Some w -> place_value (heap g1) pl = Some w.
Proof using Hopen.
  destruct pl as [w'|th' j]; [done|]. unfold place_value. rewrite closed_lookup. destruct (decide (th' = uv)) as [->|]; [|done].
  apply open_at in Hopen as (x & -> & E). cbn. by rewrite E.
Qed.
Lemma closed_body_ok b : body_ok g b -> body_ok g1 b.
Proof using Hopen.
  intros [H1 H2]. split; [by apply closed_kinds|]. destruct b; try done.
  - destruct H2 as (w & ? & ?). exists w. split; [by apply closed_place|by apply closed_kinds].
  - by apply closed_kinds.
Qed.
Lemma slot_ref_ok : Forall (ref_ok g 2) (refs v).
Proof using Hok Hopen Hslot.
  destruct (wt_body _ (ph_wt _ Hok) _ _ Hopen) as [_ (w & Hw & Hr)]. by replace v with w by congruence.
Qed.

Lemma closed_wt : wt g1 /\ wt_lists g1.
Proof using Hok Hopen Hslot.
  pose proof slot_ref_ok as Hv. destruct Hok as [[V1 V2 V3 V4 V5 V6 V7 V8] [L1 L2 L3] _ _ _ _ _]. split; [split|].
  - intros c d. rewrite closed_shape. destruct (decide (c = uv)) as [->|]; [|intros Hd; by apply closed_body_ok, (V1 c)].
    intros [= <-]. apply closed_body_ok. split; [done|by exists v].
  - by apply closed_kind.
  - by apply closed_kinds.
  - by apply closed_kinds.
  - apply Forall_forall. intros c [_ Hc]%list_elem_of_filter. rewrite Forall_forall in V5. apply closed_kind; [done|by apply V5].
  - intros c (b & Hb & Hc). rewrite closed_shape in Hb. destruct (decide (c = uv)) as [->|Hne]; [by simplify_eq|].
    cbn. apply list_elem_of_filter. split; [done|]. apply V6. by exists b.
  - by apply closed_kinds.
  - by apply closed_kinds.
  - split; by apply closed_kinds.
Qed.

(** Nothing to repair but the upvalue itself, when it is marked. *)
Lemma closed_tri : (forall c, black g1 c -> full g1 c) /\ ~ black g1 uv /\
  (forall c, nonwhite g1 c -> c = uv \/ black g1 c \/ c ∈ gray g1 \/ c ∈ grayagain g1 \/ c ∈ weak g1 \/ is_kind g1 leaf c).
Proof using Hok Hopen.
  destruct (ph_tri _ Hok) as [T1 T2].
  assert (~ black g uv) as Hnb by (apply not_black_open; [apply Hok|eexists; by split]).
  split; [|split; [by rewrite closed_black|]].
  - intros c Hc. apply closed_black in Hc. destruct (T1 c Hc) as (b & Hb & Hno & Hf). exists b. rewrite closed_shape.
    destruct (decide (c = uv)) as [->|]; [done|]. do 2 (split; [done|]). intros d Hd. apply closed_nonwhite. auto.
  - intros c Hc. apply closed_nonwhite in Hc. rewrite closed_black. destruct (T2 c Hc) as [?|[?|[?|[?|(b & Hb & Hl)]]]]; auto 6.
    destruct (decide (c = uv)) as [->|Hne]; [by left|]. do 5 right. exists b. by rewrite closed_shape, decide_False.
Qed.

(** After marking from a state where the upvalue is black already and its references
    are not marked yet. *)
Lemma marked_phase tm_mode g2 g3 : g2 = remark gray2black uv g1 -> nonwhite g1 uv ->
  marks tm_mode nothing g2 g3 -> Forall (nonwhite g3) (refs v) -> phase_ok g3.
Proof using Hok Hopen Hslot.
  intros -> Hu [C K _] Hr. destruct closed_tri as (H1 & H2 & H3). destruct closed_wt as [W L].
  set (g2 := remark gray2black uv g1) in *. assert (same_shapes g1 g2) as S12 by apply shapes_remark.
  assert (forall c, nonwhite g1 c -> nonwhite g2 c) as Hn12.
  { intros c Hc. apply nonwhite_remark. destruct (decide (c = uv)) as [->|]; [|done].
    destruct Hu as (x & E & Hx). exists x. by rewrite gray2black_white. }
  pose proof (c_shape _ _ _ _ C) as S23. assert (same_shapes g1 g3) as S by (intros c; by rewrite S23).
  assert (forall c, nonwhite g1 c -> nonwhite g3 c) as Hn by (intros c ?; by apply C, Hn12).
  destruct Hok as [_ _ _ M R St Cw]. pose proof (c_rest _ _ _ _ C) as [= Rc Rs _ _ _ _ Rm Rr _].
  assert (full g3 uv) as Hfull.
  { exists (GUpval (Own v)). split; [by rewrite S, closed_shape, decide_True|]. split; [by intros []|].
    rewrite Forall_forall in Hr. exact Hr. }
  split.
  - eapply wt_rest; [exact S23|apply C|]. by eapply wt_rest; [exact S12|..].
  - eapply core_lists; [exact C|]. destruct L as [L1 L2 L3]. split; by eapply Forall_kind_shape.
  - split; intros c Hc.
    + destruct (k_black _ _ _ K c Hc) as [Hb|[[]|?]]; [|done]. apply black_remark in Hb.
      destruct (decide (c = uv)) as [->|]; [done|]. eapply (full_mono g1); [exact S|done|by apply H1].
    + destruct (k_gray _ _ _ K c Hc) as [Hc2|[[]|[?|[?|?]]]]; [|by left|by right; left|by do 4 right].
      assert (black g2 c -> black g3 c) as Hkeep by (intros B; by destruct (k_keep _ _ _ K c B) as [[]|?]).
      destruct (decide (c = uv)) as [->|Hne].
      * left. apply Hkeep, black_remark. rewrite decide_True by done. destruct Hu as (x & E & _). exists x. by rewrite gray2black_black.
      * apply nonwhite_remark in Hc2. rewrite decide_False in Hc2 by done. destruct (H3 c Hc2) as [?|[B|[?|[?|[?|?]]]]]; [done|..].
        -- left. apply Hkeep, black_remark. by rewrite decide_False.
        -- right; left. eapply grown_elem; [apply C|done].
        -- right; right; left. eapply grown_elem; [apply C|done].
        -- right; right; right; left. eapply grown_elem; [apply C|done].
        -- do 4 right. by eapply is_kind_shape.
  - rewrite Rm. by apply Hn, closed_nonwhite.
  - rewrite Rr. eapply Forall_impl; [exact R|]. intros c Hc. by apply Hn, closed_nonwhite.
  - by rewrite Rs.
  - unfold luaC_white in *. by rewrite Rc.
Qed.

Lemma closed_alive : keeps_alive g g1.
Proof.
  split; [done|]. intros c Hc x. rewrite closed_lookup. destruct (decide (c = uv)) as [->|]; [|apply Hc].
  destruct (heap g !! uv) as [y|] eqn:E; cbn; [|done]. intros [= <-]. by apply (Hc y).
Qed.

(** An upvalue that is not gray is white, and then nothing refers to it from a black object. *)
Lemma white_phase : ~ nonwhite g1 uv -> phase_ok g1.
Proof using Hok Hopen Hslot.
  intros Hu. destruct closed_tri as (H1 & _ & H3). destruct closed_wt as [W L]. destruct Hok as [_ _ _ M R St Cw].
  split; try done.
  - split; [done|]. intros c Hc. destruct (H3 c Hc) as [->|?]; [by destruct Hu|done].
  - by apply closed_nonwhite.
  - eapply Forall_impl; [exact R|]. intros c. by rewrite closed_nonwhite.
Qed.

Lemma barrier_closed tm_mode g2 : g2 = remark gray2black uv g1 -> nonwhite g1 uv ->
  yields (luaC_barrier uv v g2) (fun g3 => marks tm_mode nothing g2 g3 /\ Forall (nonwhite g3) (refs v) /\ keeps_alive g2 g3).
Proof using Hok Hopen Hslot.
  intros -> Hu. set (g2 := remark gray2black uv g1). destruct closed_wt as [W _].
  assert (same_shapes g1 g2) as S12 by apply shapes_remark. assert (wt g2) as W2 by (by eapply wt_rest; [exact S12|..]).
  assert (forall o, refs v = [o] -> yields (luaC_objbarrier uv o g2)
    (fun g3 => marks tm_mode nothing g2 g3 /\ Forall (nonwhite g3) [o] /\ keeps_alive g2 g3)) as Ho.
  { intros o Hr. pose proof slot_ref_ok as Hv. rewrite Hr in Hv. apply Forall_inv in Hv.
    assert (is_kind g2 (fun b => rank b < 3)%nat o) as Hk.
    { eapply is_kind_shape; [exact S12|]. apply closed_kind; [done|]. destruct Hv as (b & ? & ?). exists b. split; [done|lia]. }
    destruct (kind_lookup _ _ _ Hk) as (x & Ex & _). destruct Hu as (y & Ey & _).
    assert (heap g2 !! uv = Some {| marked := gray2black (marked y); contents := contents y |}) as Ey2.
    { unfold g2. by rewrite lookup_remark, decide_True, Ey. }
    unfold luaC_objbarrier. rewrite Ex, Ey2. cbn [mbind option_bind marked]. rewrite gray2black_black, andb_true_r.
    destruct (iswhite (marked x)) eqn:Ew.
    - unfold luaC_barrierf. change (gcstate g2) with (gcstate g). rewrite (ph_state _ Hok).
      destruct (reallymark_ok tm_mode MARKDEPTH o g2 W2) as (g3 & E3 & Hm & Hn); [by exists x|exact Hk|].
      rewrite E3. apply yields_some. do 2 (split; [done|]). by eapply reallymark_alive.
    - apply yields_some. split; [apply marks_refl|]. split; [|done]. apply Forall_singleton. by exists x. }
  destruct v; cbn [luaC_barrier]; try (apply Ho; done); apply yields_some; (split; [apply marks_refl|]); by split.
Qed.

(** In the mark phase no object is dead. *)
Lemma close_one_ok (tm_mode : id) : alive g uv -> yields (close_one uv g) (fun g' => phase_ok g' /\
  (forall c, shape g' c = if decide (c = uv) then Some (GUpval (Own v)) else shape g c) /\ (forall c, alive g c -> alive g' c) /\
  uvhead g' = filter (fun o => o <> uv) (uvhead g) /\ rootgc g' = uv :: rootgc g).
Proof using Hok Hopen Hslot.
  intros Hal. pose proof Hopen as (x & E & Ex)%open_at. unfold close_one. rewrite E. cbn [mbind option_bind].
  rewrite (Hal x E). unfold close_value. change (heap (unlinkupval uv g)) with (heap g). rewrite E. cbn [mbind option_bind].
  rewrite Ex, Hslot. cbn [mbind option_bind]. unfold luaC_linkupval.
  assert (heap g1 !! uv = Some {| marked := marked x; contents := GUpval (Own v) |}) as E1 by (by rewrite closed_lookup, decide_True, E).
  change (heap (set_contents (GUpval (Own v)) uv (unlinkupval uv g))) with (heap g1). rewrite E1. cbn [mbind option_bind marked contents].
  change (set_objects _ _ _ _) with g1. change (gcstate g1) with (gcstate g). rewrite (ph_state _ Hok).
  destruct (isgray (marked x)) eqn:Eg.
  - cbn [place_value mbind option_bind].
    assert (nonwhite g1 uv) as Hu.
    { exists {| marked := marked x; contents := GUpval (Own v) |}. split; [done|]. unfold isgray in Eg. cbn. by destruct (iswhite (marked x)); [rewrite andb_false_r in Eg|]. }
    eapply yields_mono; [by apply (barrier_closed tm_mode)|]. cbv beta. intros g3 (Hm & Hr & Hk).
    split; [by eapply marked_phase|]. split.
    + intros c. rewrite (c_shape _ _ _ _ (m_core _ _ _ _ Hm)). rewrite shapes_remark. apply closed_shape.
    + split; [intros c Hc; apply Hk, keeps_alive_black; by apply closed_alive|].
      pose proof (c_rest _ _ _ _ (m_core _ _ _ _ Hm)) as [= _ _ Rr _ _ Ru _ _ _]. by rewrite Rr, Ru.
  - apply yields_some. split; [|split; [apply closed_shape|split; [intros c; apply closed_alive|done]]]. apply white_phase.
    intros (y & Ey & Hy). assert (y = {| marked := marked x; contents := GUpval (Own v) |}) as -> by congruence. cbn in Hy.
    unfold isgray in Eg. rewrite Hy, andb_true_r in Eg. destruct closed_tri as (_ & Hnb & _). apply Hnb.
    eexists. split; [exact E1|]. by apply negb_false_iff.
Qed.
End Close.


(** What [luaF_close] does with the list: it closes a prefix of it. *)
Definition splits (level : nat) g (th : id) (open closed open' : list id) : Prop :=
  open = closed ++ open' /\ (forall uv i, uv ∈ closed -> opened g th uv i -> (level <= i)%nat) /\
  (forall uv i, uv ∈ open' -> opened g th uv i -> (i < level)%nat).
#[local] Instance gc_phase_eq_dec : EqDecision gc_phase.
Proof. solve_decision. Defined.

(** What closing makes of an upvalue whose slot holds [v]: a dead one is freed; another one
    gets the value, and when the collector is sweeping it does not stay gray: no gray list
    has it, so it is swept at once. *)
Definition close_result g (uv : id) (v : value) g' : Prop :=
  forall x, heap g !! uv = Some x ->
    if isdead g (marked x) then heap g' !! uv = None
    else exists m, heap g' !! uv = Some {| marked := m; contents := GUpval (Own v) |} /\
      (gcstate g <> GCSpropagate -> if isgray (marked x) then white_now g m else m = marked x).
Definition dead_upval g (uv : id) : bool := match heap g !! uv with Some x => isdead g (marked x) | None => false end.
(** The closed ones leave the list of open upvalues and, but for the dead, go to [rootgc]. *)
Definition relinked g (closed : list id) g' : Prop :=
  uvhead g' = filter (fun o => o ∉ closed) (uvhead g) /\
  rootgc g' = rev (filter (fun uv => dead_upval g uv = false) closed) ++ rootgc g.

Lemma splits_stop level g th uv next i : open_list g th (uv :: next) -> opened g th uv i -> (i < level)%nat ->
  splits level g th (uv :: next) [] (uv :: next).
Proof.
  intros [(k & Hk & Hlt) _] Hi Hl. pose proof (opened_unique _ _ _ _ _ Hk Hi) as ->. split; [done|]. split; [by intros ? ? ?%elem_of_nil|].
  intros c j [->|Hin]%elem_of_cons Hj; [pose proof (opened_unique _ _ _ _ _ Hi Hj); lia|]. specialize (Hlt _ _ Hin Hj). lia.
Qed.
Lemma splits_cons level g g1 th uv next closed open' i : opened g th uv i -> (level <= i)%nat -> uv ∉ next ->
  (forall c, c <> uv -> shape g1 c = shape g c) -> splits level g1 th next closed open' ->
  splits level g th (uv :: next) (uv :: closed) open'.
Proof.
  intros Hi Hle Hnin Hs (-> & Hc & Ho). apply not_elem_of_app in Hnin as [Hn1 Hn2]. split; [done|]. split; intros c j Hin Hj.
  - apply elem_of_cons in Hin as [->|Hin]; [pose proof (opened_unique _ _ _ _ _ Hi Hj); lia|]. apply (Hc c); [done|].
    unfold opened. rewrite Hs; [done|congruence].
  - apply (Ho c); [done|]. unfold opened. rewrite Hs; [done|congruence].
Qed.
Lemma filter_closed (uv : id) (closed l : list id) :
  filter (fun o => o ∉ closed) (filter (fun o => o <> uv) l) = filter (fun o => o ∉ uv :: closed) l.
Proof. rewrite list_filter_filter. apply list_filter_iff. intros o. rewrite not_elem_of_cons. tauto. Qed.
Lemma filter_none (l : list id) : filter (fun o => o ∉ ([] : list id)) l = l.
Proof. induction l as [|o l IH]; [done|]. rewrite filter_cons, decide_True, IH; [done|]. apply not_elem_of_nil. Qed.
Lemma relinked_nil g : relinked g [] g.
Proof. split; [by rewrite filter_none|done]. Qed.
Lemma relinked_cons g uv g1 closed g' : uvhead g1 = filter (fun o => o <> uv) (uvhead g) ->
  rootgc g1 = (if dead_upval g uv then [] else [uv]) ++ rootgc g -> (forall c, c ∈ closed -> dead_upval g1 c = dead_upval g c) ->
  relinked g1 closed g' -> relinked g (uv :: closed) g'.
Proof.
  intros E1 E2 Hd [U R]. split; [by rewrite U, E1, filter_closed|]. rewrite R, E2, filter_cons.
  assert (filter (fun c => dead_upval g1 c = false) closed = filter (fun c => dead_upval g c = false) closed) as ->.
  { clear -Hd. induction closed as [|c closed IH]; [done|]. rewrite !filter_cons, Hd by by left. rewrite IH; [done|].
    intros d ?. apply Hd. by right. }
  destruct (dead_upval g uv); [by rewrite decide_False by done|]. rewrite decide_True by done. cbn [rev]. by rewrite <- app_assoc.
Qed.

Lemma slot_same g g' th i : shape g' th = shape g th -> place_value (heap g') (Slot th i) = place_value (heap g) (Slot th i).
Proof.
  unfold shape. cbn. intros Hs. destruct (heap g' !! th) as [x'|], (heap g !! th) as [x|]; cbn in *; try done. injection Hs as Hs.
  by destruct (contents x'), (contents x); cbn in Hs; simplify_eq.
Qed.
Lemma open_not_thread g th uv i v : opened g th uv i -> place_value (heap g) (Slot th i) = Some v -> uv <> th.
Proof. intros (x & E & Ex)%open_at Hv ->. cbn in Hv. rewrite E in Hv. cbn in Hv. by rewrite Ex in Hv. Qed.
Lemma slot_of_open g th uv i : wt g -> opened g th uv i -> exists v, place_value (heap g) (Slot th i) = Some v /\ uv <> th.
Proof.
  intros Hwt Ho. destruct (wt_body _ Hwt _ _ Ho) as [_ (v & Hv & _)]. exists v. split; [done|]. by eapply open_not_thread.
Qed.

(** In the mark phase: each closed one has the value of its slot now, nothing else changes. *)
Definition values_kept g (th : id) (closed : list id) g' : Prop :=
  (forall uv i v, uv ∈ closed -> opened g th uv i -> place_value (heap g) (Slot th i) = Some v ->
    shape g' uv = Some (GUpval (Own v))) /\
  (forall c, c ∉ closed -> shape g' c = shape g c).
Lemma alive_not_dead g uv : alive g uv -> dead_upval g uv = false.
Proof. unfold alive, dead_upval. destruct (heap g !! uv) as [x|]; [|done]. intros H. by apply H. Qed.

Lemma values_kept_cons g g1 th uv i v closed g' : opened g th uv i -> place_value (heap g) (Slot th i) = Some v -> uv <> th -> uv ∉ closed ->
  (forall c, shape g1 c = if decide (c = uv) then Some (GUpval (Own v)) else shape g c) ->
  values_kept g1 th closed g' -> values_kept g th (uv :: closed) g'.
Proof.
  intros Hi Hv Hne Hnin Hs1 [Hv1 Hv2]. assert (forall c, c <> uv -> shape g1 c = shape g c) as Hs by (intros c Hc; by rewrite Hs1, decide_False).
  split; [intros c j w Hin Hj Hw; apply elem_of_cons in Hin as [->|Hin]|].
  - rewrite Hv2, Hs1, decide_True by done. pose proof (opened_unique _ _ _ _ _ Hi Hj) as <-. congruence.
  - assert (c <> uv) as Hcu by congruence. apply (Hv1 c j w); [done|unfold opened; by rewrite Hs|].
    rewrite (slot_same g g1); [done|]. by apply Hs.
  - intros c [Hcu Hin]%not_elem_of_cons. rewrite Hv2 by done. by apply Hs.
Qed.

Lemma close_marking (tm_mode th : id) (level : nat) open : forall g, phase_ok g -> open_list g th open -> Forall (alive g) open ->
  exists closed open' g', luaF_close level open g = Some (open', g') /\ phase_ok g' /\ open_list g' th open' /\
    splits level g th open closed open' /\ values_kept g th closed g' /\ relinked g closed g'.
Proof.
  induction open as [|uv next IH]; intros g Hok Hol Hal; cbn [luaF_close].
  - exists [], [], g. do 3 (split; [done|]). split; [split; [done|split; by intros ? ? ?%elem_of_nil]|].
    split; [split; [by intros ? ? ? ?%elem_of_nil|done]|apply relinked_nil].
  - pose proof Hol as [(i & Hi & Hlt) Hnext]. rewrite (opened_level _ _ _ _ Hi). cbn [mbind option_bind].
    destruct (Nat.leb_spec level i) as [Hle|Hgt].
    + destruct (slot_of_open _ _ _ _ (ph_wt _ Hok) Hi) as (v & Hv & Hne). apply Forall_cons in Hal as [Hal1 Hal].
      destruct (close_one_ok th uv i v g Hok Hi Hv tm_mode Hal1) as (g1 & -> & Hok1 & Hs1 & Ha1 & Hu1 & Hr1). cbn [mbind option_bind].
      assert (uv ∉ next) as Hnin by (intros Hin; specialize (Hlt _ _ Hin Hi); lia).
      assert (forall c, c <> uv -> shape g1 c = shape g c) as Hs by (intros c Hc; by rewrite Hs1, decide_False).
      assert (Forall (alive g1) next) as Hal' by (eapply Forall_impl; eauto).
      destruct (IH g1) as (closed & open' & g' & E & Hok' & Hol' & Hsp & Hvk & Hrl); [done|eapply open_list_same; [|exact Hnext]|done|].
      { intros c Hc. apply Hs. congruence. }
      destruct Hsp as (Hn & Hsp). assert (uv ∉ closed) as Hnc by (intros ?; apply Hnin; rewrite Hn; apply elem_of_app; by left).
      exists (uv :: closed), open', g'. do 3 (split; [done|]). split; [by eapply splits_cons|]. split; [by eapply values_kept_cons|].
      eapply relinked_cons; [exact Hu1|by rewrite Hr1, (alive_not_dead _ _ Hal1)| |exact Hrl].
      intros c Hc. rewrite Forall_forall in Hal, Hal'. assert (c ∈ next) by (rewrite Hn; apply elem_of_app; by left).
      by rewrite !alive_not_dead by auto.
    + exists [], (uv :: next), g. do 3 (split; [done|]). split; [by eapply splits_stop|].
      split; [split; [by intros ? ? ? ?%elem_of_nil|done]|apply relinked_nil].
Qed.

(** In the other phases: no object but the upvalues that are closed changes at all. *)
Lemma close_one_sweeping g th uv i v : gcstate g <> GCSpropagate -> opened g th uv i -> place_value (heap g) (Slot th i) = Some v ->
  exists g', close_one uv g = Some g' /\ gcstate g' = gcstate g /\ currentwhite g' = currentwhite g /\
    (forall c, c <> uv -> heap g' !! c = heap g !! c) /\ close_result g uv v g' /\
    uvhead g' = filter (fun o => o <> uv) (uvhead g) /\ rootgc g' = (if dead_upval g uv then [] else [uv]) ++ rootgc g.
Proof.
  intros Hp (x & E & Ex)%open_at Hv. unfold close_one, close_result, dead_upval. rewrite E. cbn [mbind option_bind].
  destruct (isdead g (marked x)) eqn:Ed.
  - unfold luaF_freeupval. rewrite E. cbn [mbind option_bind]. rewrite Ex. eexists. do 3 (split; [done|]).
    split; [intros c Hc; cbn; by rewrite lookup_delete_ne by done|]. split; [|done]. intros y [= <-]. rewrite Ed. cbn. by rewrite lookup_delete_eq.
  - unfold close_value. change (heap (unlinkupval uv g)) with (heap g). rewrite E. cbn [mbind option_bind]. rewrite Ex, Hv.
    cbn [mbind option_bind]. unfold luaC_linkupval. set (g1 := set_contents _ _ _).
    assert (heap g1 !! uv = Some {| marked := marked x; contents := GUpval (Own v) |}) as E1 by (cbn; by rewrite lookup_alter_eq, E).
    assert (forall c, c <> uv -> heap g1 !! c = heap g !! c) as Hne by (intros c ?; cbn; by rewrite lookup_alter_ne).
    rewrite E1. cbn [mbind option_bind marked contents]. set (g2 := set_objects _ _ _ g1). change (heap g1) with (heap g2) in *.
    destruct (isgray (marked x)) eqn:Eg.
    + exists (remark (makewhite g) uv g2). split; [change (gcstate g2) with (gcstate g); by destruct (gcstate g)|]. do 2 (split; [done|]).
      split; [intros c ?; by rewrite lookup_remark, decide_False by done; apply Hne|]. split; [|done].
      intros y [= <-]. rewrite Ed, Eg, lookup_remark, decide_True, E1 by done. eexists. split; [done|]. intros _. apply makewhite_now.
    + exists g2. do 3 (split; [done|]). split; [done|]. split; [|done]. intros y [= <-]. rewrite Ed, Eg. by eexists.
Qed.

Lemma close_result_same g g1 uv v g' : heap g1 !! uv = heap g !! uv -> gcstate g1 = gcstate g -> currentwhite g1 = currentwhite g ->
  close_result g1 uv v g' -> close_result g uv v g'.
Proof. unfold close_result, isdead, otherwhite, white_now, luaC_white. by intros -> -> ->. Qed.

Definition all_closed g (th : id) (closed : list id) g' : Prop :=
  (forall uv i v, uv ∈ closed -> opened g th uv i -> place_value (heap g) (Slot th i) = Some v -> close_result g uv v g') /\
  (forall c, c ∉ closed -> heap g' !! c = heap g !! c).
Definition slots_there g (th : id) (open : list id) : Prop :=
  forall uv i, uv ∈ open -> opened g th uv i -> exists v, place_value (heap g) (Slot th i) = Some v.

Lemma heap_shape g g' c : heap g' !! c = heap g !! c -> shape g' c = shape g c.
Proof. unfold shape. by intros ->. Qed.
Lemma all_closed_cons g g1 th uv i v closed g' : opened g th uv i -> place_value (heap g) (Slot th i) = Some v -> uv <> th -> uv ∉ closed ->
  gcstate g1 = gcstate g -> currentwhite g1 = currentwhite g -> (forall c, c <> uv -> heap g1 !! c = heap g !! c) ->
  close_result g uv v g1 -> all_closed g1 th closed g' -> all_closed g th (uv :: closed) g'.
Proof.
  intros Hi Hv Hne Hnin Es Ew Hh Hr [Hv1 Hv2]. split; [intros c j w Hin Hj Hw; apply elem_of_cons in Hin as [->|Hin]|].
  - pose proof (opened_unique _ _ _ _ _ Hi Hj) as <-. assert (w = v) as -> by congruence.
    intros x Ex. specialize (Hr x Ex). by rewrite Hv2.
  - assert (c <> uv) as Hcu by congruence. eapply close_result_same; [by apply Hh|done|done|].
    apply (Hv1 c j w); [done|unfold opened; by rewrite (heap_shape g) by auto|]. by rewrite (slot_same g g1) by (apply heap_shape; auto).
  - intros c [Hcu Hin]%not_elem_of_cons. rewrite Hv2 by done. auto.
Qed.

Lemma close_sweeping (th : id) (level : nat) open : forall g, gcstate g <> GCSpropagate -> open_list g th open -> slots_there g th open ->
  exists closed open' g', luaF_close level open g = Some (open', g') /\ open_list g' th open' /\
    splits level g th open closed open' /\ all_closed g th closed g' /\ relinked g closed g'.
Proof.
  induction open as [|uv next IH]; intros g Hp Hol Hsl; cbn [luaF_close].
  - exists [], [], g. do 2 (split; [done|]). split; [split; [done|split; by intros ? ? ?%elem_of_nil]|].
    split; [split; [by intros ? ? ? ?%elem_of_nil|done]|apply relinked_nil].
  - pose proof Hol as [(i & Hi & Hlt) Hnext]. rewrite (opened_level _ _ _ _ Hi). cbn [mbind option_bind].
    destruct (Nat.leb_spec level i) as [Hle|Hgt].
    + destruct (Hsl uv i (list_elem_of_here _ _) Hi) as (v & Hv). assert (uv <> th) as Hne by by eapply open_not_thread.
      destruct (close_one_sweeping g th uv i v Hp Hi Hv) as (g1 & -> & Es & Ew & Hh & Hr & Hu1 & Hr1). cbn [mbind option_bind].
      assert (uv ∉ next) as Hnin by (intros Hin; specialize (Hlt _ _ Hin Hi); lia).
      assert (forall c, c <> uv -> shape g1 c = shape g c) as Hs by (intros c Hc; by apply heap_shape, Hh).
      destruct (IH g1) as (closed & open' & g' & E & Hol' & Hsp & Hac & Hrl); [congruence|eapply open_list_same; [|exact Hnext]| |].
      { intros c Hc. apply Hs. congruence. }
      { intros c j Hc Hj. rewrite (slot_same g g1) by by apply Hs. apply (Hsl c j); [by right|]. unfold opened. rewrite <- Hs; [done|congruence]. }
      destruct Hsp as (Hn & Hsp). assert (uv ∉ closed) as Hnc by (intros ?; apply Hnin; rewrite Hn; apply elem_of_app; by left).
      exists (uv :: closed), open', g'. do 2 (split; [done|]). split; [by eapply splits_cons|]. split; [by eapply all_closed_cons|].
      eapply relinked_cons; [exact Hu1|exact Hr1| |exact Hrl].
      intros c Hc. unfold dead_upval, isdead, otherwhite. rewrite Hh, Ew; [done|congruence].
    + exists [], (uv :: next), g. do 2 (split; [done|]). split; [by eapply splits_stop|].
      split; [split; [by intros ? ? ? ?%elem_of_nil|done]|apply relinked_nil].
Qed.

(** ** The properties *)

(** C19. [luaF_findupval] finds or creates the upvalue of a stack slot: it never fails,
    the answer is an open upvalue of that slot and not dead (a dead one is
    resurrected), the list stays sorted with one upvalue per level, an existing upvalue
    of the level is the answer and a new one is made only when there is none, so
    closures over one variable share its upvalue. When no open upvalue is dead, the
    invariant of the mark phase is kept. *)
Theorem luaF_findupval_shares (th addr : id) (level : nat) open g :
  open_list g th open -> heap g !! addr = None -> luaC_white g <> 0 ->
  exists uv open' g', luaF_findupval th level addr open g = Some (uv, open', g') /\
    opened g' th uv level /\ alive g' uv /\ uv ∈ open' /\ open_list g' th open' /\
    (forall p, p ∈ open -> p ∈ open' /\ shape g' p = shape g p) /\
    (forall p, p ∈ open -> opened g th p level -> uv = p /\ open' = open) /\
    (uv = addr -> forall p, p ∈ open -> ~ opened g th p level) /\
    (forall v, phase_ok g -> Forall (alive g) open -> place_value (heap g) (Slot th level) = Some v ->
      Forall (ref_ok g 2) (refs v) -> phase_ok g').
Proof.
  intros Hol Hf Hw. destruct (findupval_spec th addr level open g Hol) as (uv & open' & g' & E & H). exists uv, open', g'. split; [done|].
  assert (forall p, p ∈ open -> p <> addr) as Hne.
  { intros p Hp ->. destruct (open_list_opened _ _ _ _ Hol Hp) as (i & (x & E' & _)%open_at). congruence. }
  destruct H as [(Hin & Ho & -> & x & Ex & ->)|(Hno & -> & -> & above & below & -> & -> & Ha & Hb)].
  - set (g' := if isdead g (marked x) then remark changewhite uv g else g).
    assert (forall c, shape g' c = shape g c) as Hs by (unfold g'; intros c; destruct (isdead _ _); [apply shapes_remark|done]).
    split; [unfold opened; by rewrite Hs|]. split.
    { unfold g'. intros y. destruct (isdead g (marked x)) eqn:Ed; [|intros Ey; by replace y with x by congruence].
      rewrite lookup_remark, decide_True, Ex by done. intros [= <-]. by apply changewhite_not_dead. }
    split; [done|]. split; [by apply (open_list_same g g')|]. split; [done|]. split; [|split].
    + intros p Hp Hpo. split; [|done]. by eapply open_list_unique.
    + intros ->. by destruct (Hne addr Hin).
    + intros v Hok Hal _ _. unfold g'. rewrite Forall_forall in Hal. by rewrite (Hal uv Hin x Ex).
  - assert (shape (new_open th level addr g) addr = Some (GUpval (Slot th level))) as Ha' by (by rewrite new_open_shape, decide_True).
    split; [done|]. split; [|split; [|split; [|split; [|split; [|split]]]]].
    + intros y. rewrite new_open_lookup, decide_True by done. intros [= <-]. apply new_not_dead.
    + apply elem_of_app. right. by left.
    + by apply open_list_insert.
    + intros p Hp. rewrite new_open_shape, decide_False by (by apply Hne). split; [|done].
      apply elem_of_app in Hp as [?|?]; apply elem_of_app; [by left|right; by right].
    + intros p Hp Hpo. by destruct (Hno p).
    + intros _. done.
    + intros v Hok _ Hv Hr. by eapply new_open_ok.
Qed.

(** C20. [luaF_close] closes the upvalues of the slots at [level] and above and no other, in
    every phase of the collector: it succeeds, the list that stays is the part below, sorted
    as before; each closed upvalue owns the value its slot had, whatever the stack holds
    later, except that one the collector has found dead is freed; the closed ones leave the
    list of open upvalues and, unless freed, are linked to [rootgc]. The content of every
    other object is unchanged. In the mark phase, where the invariant of that phase holds and
    nothing is dead yet, the invariant is kept: what is closed may turn black, and its value
    is marked by the barrier then. In the other phases no object but the closed ones changes
    at all, and a closed upvalue that was gray becomes white of the present cycle. The
    upvalues are those of one thread, ordered by level as [luaF_findupval] keeps them, and
    their slots are on its stack. *)
Theorem luaF_close_closes (th : id) (level : nat) open g :
  open_list g th open -> slots_there g th open ->
  (gcstate g = GCSpropagate -> phase_ok g /\ Forall (alive g) open) ->
  exists closed open' g', luaF_close level open g = Some (open', g') /\ open_list g' th open' /\
    splits level g th open closed open' /\ relinked g closed g' /\
    (forall uv i v, uv ∈ closed -> opened g th uv i -> place_value (heap g) (Slot th i) = Some v -> close_result g uv v g') /\
    (forall c, c ∉ closed -> shape g' c = shape g c /\ (gcstate g <> GCSpropagate -> heap g' !! c = heap g !! c)) /\
    (gcstate g = GCSpropagate -> phase_ok g').
Proof.
  intros Hol Hsl Hm. destruct (decide (gcstate g = GCSpropagate)) as [Hp|Hp].
  - destruct (Hm Hp) as [Hok Hal].
    destruct (close_marking 0%nat th level open g Hok Hol Hal) as (closed & open' & g' & E & Hok' & Hol' & Hsp & [Hv Hr] & Hrl).
    exists closed, open', g'. do 4 (split; [done|]). split; [|split; [intros c Hc; split; [by apply Hr|done]|done]].
    intros uv i v Hin Hi Hsv x Ex. assert (alive g uv) as Hau.
    { rewrite Forall_forall in Hal. apply Hal. destruct Hsp as [-> _]. apply elem_of_app. by left. }
    rewrite (Hau x Ex). specialize (Hv uv i v Hin Hi Hsv). unfold shape in Hv. destruct (heap g' !! uv) as [[m c]|]; [|done].
    exists m. split; [|done]. cbn in Hv. injection Hv as Hc. by destruct c; simplify_eq/=.
  - destruct (close_sweeping th level open g Hp Hol Hsl) as (closed & open' & g' & E & Hol' & Hsp & [Hv Hr] & Hrl).
    exists closed, open', g'. do 4 (split; [done|]). split; [done|]. split; [|done]. intros c Hc. split; [by apply heap_shape, Hr|].
    intros _. by apply Hr.
Qed.

(** ** Witnesses

    The heap of [LGcCorrect] at the start of a mark phase: the upvalue 4 is open on slot
    1 of the stack of thread 0. *)
Definition on_demo {A} (f : global_State -> A) : option A := f <$> markroot demo.
Lemma demo_state : exists g, markroot demo = Some g /\ phase_ok g /\ opened g 0 4 1 /\
  place_value (heap g) (Slot 0 1) = Some (Ref 6) /\ Forall (alive g) [4]%nat /\ heap g !! 20%nat = None /\ luaC_white g <> 0.
Proof.
  destruct (markroot_ok 7 demo) as (g & Eg & Hok); [done|exact demo_wt|apply demo_fresh..|]. exists g. split; [done|].
  assert (forall A (f : global_State -> A) v, on_demo f = Some v -> f g = v) as Hf.
  { intros A f v. unfold on_demo. rewrite Eg. by intros [= <-]. }
  split; [done|]. split; [|split; [|split; [|split]]].
  - apply (Hf _ (fun g => shape g 4%nat)). vm_compute. reflexivity.
  - apply (Hf _ (fun g => place_value (heap g) (Slot 0 1))). vm_compute. reflexivity.
  - apply Forall_singleton. intros x E.
    assert ((fun x => isdead g (marked x)) <$> heap g !! 4%nat = Some false) as H.
    { apply (Hf _ (fun g => (fun x => isdead g (marked x)) <$> heap g !! 4%nat)). vm_compute. reflexivity. }
    rewrite E in H. cbn in H. congruence.
  - apply (Hf _ (fun g => heap g !! 20%nat)). vm_compute. reflexivity.
  - rewrite (Hf _ luaC_white 1) by (vm_compute; reflexivity). done.
Qed.
Lemma open_list_single g th uv i : opened g th uv i -> open_list g th [uv].
Proof. intros Hi. split; [|done]. exists i. split; [done|]. by intros ? ? ?%elem_of_nil. Qed.

Lemma luaF_findupval_shares_witness : exists g uv open' g', luaF_findupval 0 1 20 [4]%nat g = Some (uv, open', g') /\ uv = 4%nat.
Proof.
  destruct demo_state as (g & _ & _ & Hi & _ & _ & Hf & Hw).
  destruct (luaF_findupval_shares 0 20 1 [4]%nat g (open_list_single _ _ _ _ Hi) Hf Hw) as (uv & open' & g' & E & _ & _ & _ & _ & _ & Hs & _).
  exists g, uv, open', g'. split; [done|]. apply (Hs 4%nat); [by left|done].
Defined.

(** In the sweep: the upvalue 4 is dead, the upvalue 5 is gray. *)
Definition sweeping : global_State :=
  {| heap := {[ 0%nat := {| marked := 1; contents := GThread Nil [Plain 5; Plain 7] [] |};
                4%nat := {| marked := 2; contents := GUpval (Slot 0 1) |};
                5%nat := {| marked := 0; contents := GUpval (Slot 0 0) |} ]};
     currentwhite := 33; gcstate := GCSsweep; gray := []; grayagain := []; weak := []; rootgc := []; udata := []; tmudata := [];
     uvhead := [4; 5]%nat; mainthread := 0%nat; registry := Nil; mt := [] |}.
Lemma sweeping_open : open_list sweeping 0 [4; 5]%nat /\ slots_there sweeping 0 [4; 5]%nat.
Proof.
  assert (opened sweeping 0 4 1) as H4 by done. assert (opened sweeping 0 5 0) as H5 by done. split.
  - split; [exists 1%nat; split; [done|]|by eapply open_list_single].
    intros uv j ->%list_elem_of_singleton Hj. pose proof (opened_unique _ _ _ _ _ H5 Hj) as <-. lia.
  - intros uv j [->| ->%list_elem_of_singleton]%elem_of_cons Hj.
    + pose proof (opened_unique _ _ _ _ _ H4 Hj) as <-. by eexists.
    + pose proof (opened_unique _ _ _ _ _ H5 Hj) as <-. by eexists.
Qed.
Lemma splits_all level g th open closed open' : splits level g th open closed open' ->
  (forall uv, uv ∈ open -> exists i, opened g th uv i /\ (level <= i)%nat) -> closed = open /\ open' = [].
Proof.
  intros (-> & _ & Ho) H. destruct open' as [|c open']; [by rewrite app_nil_r|].
  destruct (H c) as (i & Hi & Hl); [apply elem_of_app; right; by left|]. specialize (Ho c i (list_elem_of_here _ _) Hi). lia.
Qed.

(** At the start of a mark phase, and in the sweep. *)
Lemma luaF_close_closes_witness :
  (exists g g', luaF_close 1 [4]%nat g = Some ([], g') /\ phase_ok g' /\ shape g' 4 = Some (GUpval (Own (Ref 6)))) /\
  (exists g', luaF_close 0 [4; 5]%nat sweeping = Some ([], g') /\ heap g' !! 4%nat = None /\
     exists m, heap g' !! 5%nat = Some {| marked := m; contents := GUpval (Own (Plain 5)) |} /\ white_now sweeping m).
Proof.
  split.
  - destruct demo_state as (g & _ & Hok & Hi & Hv & Hal & _ & _). pose proof (ph_state _ Hok) as Hp.
    destruct (luaF_close_closes 0 1 [4]%nat g (open_list_single _ _ _ _ Hi)) as (closed & open' & g' & E & _ & Hsp & _ & Hs & _ & Hok');
      [intros uv j ->%list_elem_of_singleton Hj; pose proof (opened_unique _ _ _ _ _ Hi Hj) as <-; by eexists|done|].
    apply splits_all in Hsp as [-> ->]; [|intros uv ->%list_elem_of_singleton; by exists 1%nat].
    exists g, g'. split; [done|]. split; [by apply Hok'|]. pose proof Hi as (x & Ex & _)%open_at.
    specialize (Hs 4%nat 1%nat _ (list_elem_of_here _ _) Hi Hv x Ex).
    rewrite Forall_forall in Hal. rewrite (Hal 4%nat (list_elem_of_here _ _) x Ex) in Hs. destruct Hs as (m & Em & _).
    unfold shape. by rewrite Em.
  - destruct sweeping_open as [Hol Hsl].
    destruct (luaF_close_closes 0 0 [4; 5]%nat sweeping Hol Hsl) as (closed & open' & g' & E & _ & Hsp & _ & Hs & _ & _); [done|].
    apply splits_all in Hsp as [-> ->].
    2:{ intros uv [->| ->%list_elem_of_singleton]%elem_of_cons; [by exists 1%nat; split; [|lia]|by exists 0%nat]. }
    exists g'. split; [done|]. split.
    + exact (Hs 4%nat 1%nat (Plain 7) ltac:(by left) eq_refl eq_refl _ eq_refl).
    + destruct (Hs 5%nat 0%nat (Plain 5) ltac:(by right; left) eq_refl eq_refl _ eq_refl) as (m & Em & Hw). exists m. split; [done|].
      by apply Hw.
Defined.
