(* ===== verification/LString.v ===== *)
(** * The string table (src/lua/lstring.c)

    Strings are interned: [luaS_newlstr] returns the string of the table with the same
    bytes if there is one. Collisions are chained through [next]; a chain is the list
    of its strings here, and so is what the table holds in each place. [G] is the
    collector's state of [LGc], whose white and phase decide on dead strings. The address
    of a new string is the answer of the allocator, an argument. A place outside the
    table or a dangling pointer is [None]; "toobig" is an [Error]. *)
From stdpp Require Import base list option gmap.
From Stdlib Require Import ZArith Lia ZifyBool.
From S2P Require Import Prelude LGc.
#[local] Open Scope Z_scope.

Record TString := { ts_marked : Z; ts_hash : Z; ts_str : bytes }.
Record stringtable := { hash : list (list nat); nuse : Z; size : Z }.
Record sstate := { G : global_State; strings : gmap nat TString; strt : stringtable }.

Definition set_strt (tb : stringtable) (s : sstate) : sstate := {| G := G s; strings := strings s; strt := tb |}.
Definition set_strings (h : gmap nat TString) (s : sstate) : sstate := {| G := G s; strings := h; strt := strt s |}.

Definition MINSTRTABSIZE : Z := 32.
Definition MAX_INT : Z := INT_MAX - 2.
Definition MAX_SIZET : Z := 2 ^ 64 - 1 - 2.
Definition sizeof_TString : Z := 24.

Definition lmod (h size : Z) : Z := Z.land h (size - 1).
Definition isSweepString (g : global_State) : bool := match gcstate g with GCSsweepstring => true | _ => false end.

(** ** Resizing *)
Definition chain_in (id : nat) (i : Z) (hs : list (list nat)) : option (list (list nat)) :=
  l ← hs !! Z.to_nat i; Some (<[Z.to_nat i := id :: l]> hs).

Fixpoint rehash_chain (h : gmap nat TString) (newsize : Z) (p : list nat) (newhash : list (list nat)) : option (list (list nat)) :=
  match p with
  | [] => Some newhash
  | id :: next => ts ← h !! id; newhash ← chain_in id (lmod (ts_hash ts) newsize) newhash; rehash_chain h newsize next newhash
  end.
Fixpoint rehash_all (h : gmap nat TString) (newsize : Z) (hs newhash : list (list nat)) : option (list (list nat)) :=
  match hs with
  | [] => Some newhash
  | p :: hs => newhash ← rehash_chain h newsize p newhash; rehash_all h newsize hs newhash
  end.

Definition luaS_resize (newsize : Z) (s : sstate) : option sstate :=
  if isSweepString (G s) then Some s
  else
    newhash ← rehash_all (strings s) newsize (hash (strt s)) (replicate (Z.to_nat newsize) []);
    Some (set_strt {| hash := newhash; nuse := nuse (strt s); size := newsize |} s).

(** ** Making and finding strings *)
Definition newlstr (addr : nat) (str : bytes) (h : Z) (s : sstate) : LuaM (nat * sstate) :=
  let l := Z.of_nat (length str) in
  if l + 1 >? MAX_SIZET - sizeof_TString then lerror "memory allocation error: block too big"
  else
    let ts := {| ts_marked := luaC_white (G s); ts_hash := h; ts_str := str |} in
    let tb := strt s in
    let* newhash := llift (chain_in addr (lmod h (size tb)) (hash tb)) in
    let tb := {| hash := newhash; nuse := u32 (nuse tb + 1); size := size tb |} in
    let s := set_strt tb (set_strings (<[addr := ts]> (strings s)) s) in
    let* s := (if (nuse tb >? size tb) && (size tb <=? MAX_INT / 2) then llift (luaS_resize (size tb * 2) s) else lret s) in
    lret (addr, s).

(** The hash of a string: all its bytes, or 32 of them if it is long. *)
Fixpoint hash_loop (fuel : nat) (str : bytes) (step l1 h : Z) : option Z :=
  if l1 >=? step then
    match fuel with
    | O => None
    | S fuel =>
        c ← str !! Z.to_nat (l1 - 1);
        hash_loop fuel str step (l1 - step) (Z.lxor h (u32 (u32 (Z.shiftl h 5) + Z.shiftr h 2 + c)))
    end
  else Some h.
Definition str_hash (str : bytes) : option Z :=
  let l := Z.of_nat (length str) in hash_loop (length str) str (Z.shiftr l 5 + 1) l (u32 l).

Fixpoint find_chain (h : gmap nat TString) (str : bytes) (chain : list nat) : option (option nat) :=
  match chain with
  | [] => Some None
  | o :: next =>
      ts ← h !! o;
      if bool_decide (ts_str ts = str) then Some (Some o) else find_chain h str next
  end.

Definition resurrect (g : global_State) (ts : TString) : TString :=
  if isdead g (ts_marked ts) then {| ts_marked := changewhite (ts_marked ts); ts_hash := ts_hash ts; ts_str := ts_str ts |} else ts.

Definition luaS_newlstr (addr : nat) (str : bytes) (s : sstate) : LuaM (nat * sstate) :=
  let* h := llift (str_hash str) in
  let* chain := llift (hash (strt s) !! Z.to_nat (lmod h (size (strt s)))) in
  let* found := llift (find_chain (strings s) str chain) in
  match found with
  | Some o => lret (o, set_strings (alter (resurrect (G s)) o (strings s)) s)
  | None => newlstr addr str h s
  end.

(** ** The sweep of a chain (lgc.c) *)
Fixpoint sweep_chain (p : list nat) (s : sstate) : option (list nat * sstate) :=
  match p with
  | [] => Some ([], s)
  | curr :: next =>
      ts ← strings s !! curr;
      if sweep_keeps (G s) (ts_marked ts) then
        let ts := {| ts_marked := makewhite (G s) (ts_marked ts); ts_hash := ts_hash ts; ts_str := ts_str ts |} in
        '(rest, s) ← sweep_chain next (set_strings (<[curr := ts]> (strings s)) s); Some (curr :: rest, s)
      else
        let tb := {| hash := hash (strt s); nuse := u32 (nuse (strt s) - 1); size := size (strt s) |} in
        sweep_chain next (set_strt tb (set_strings (delete curr (strings s)) s))
  end.

(** [sweepwholelist(L, &g->strt.hash[i])]. *)
Definition sweep_strings (i : nat) (s : sstate) : option sstate :=
  p ← hash (strt s) !! i;
  '(rest, s) ← sweep_chain p s;
  Some (set_strt {| hash := <[i := rest]> (hash (strt s)); nuse := nuse (strt s); size := size (strt s) |} s).

(** The part of [checkSizes] about the string table. *)
Definition checkSizes (s : sstate) : option sstate :=
  let tb := strt s in
  if (nuse tb <? size tb / 4) && (size tb >? MINSTRTABSIZE * 2) then luaS_resize (size tb / 2) s else Some s.
