(* ===== verification/LStringProps.v ===== *)
(** * Strings are interned

    [table_ok]: every string of the table is in the chain its hash selects, once, and
    no two strings of the table have the same bytes. [luaS_newlstr], resizing and the
    sweep keep it, so comparing addresses compares strings. *)
From stdpp Require Import base list option gmap sorting.
From Stdlib Require Import ZArith Lia ZifyBool.
From S2P Require Import Prelude LGc LGcProps LString.
#[local] Open Scope Z_scope.
Implicit Types (s : sstate) (id : nat).

Definition members s : list nat := concat (hash (strt s)).
Definition interned s id (str : bytes) : Prop := id ∈ members s /\ exists ts, strings s !! id = Some ts /\ ts_str ts = str.

(** Each string of the chains [hs] is where its hash says, modulo [size]. *)
Definition placed (h : gmap nat TString) (size : Z) (hs : list (list nat)) : Prop := forall i p id,
  hs !! i = Some p -> id ∈ p ->
  exists ts, h !! id = Some ts /\ str_hash (ts_str ts) = Some (ts_hash ts) /\ lmod (ts_hash ts) size = Z.of_nat i.

Definition pow2_size (size : Z) (hs : list (list nat)) : Prop :=
  exists k, 0 <= k <= 30 /\ size = 2 ^ k /\ length hs = Z.to_nat (2 ^ k).

Record table_ok s : Prop := {
  to_size : pow2_size (size (strt s)) (hash (strt s));
  to_place : placed (strings s) (size (strt s)) (hash (strt s));
  to_nodup : NoDup (members s);
  to_unique : forall id1 id2 str, interned s id1 str -> interned s id2 str -> id1 = id2;
  to_nuse : nuse (strt s) = Z.of_nat (length (members s));
}.

(** ** Places *)
Lemma lmod_range h k : 0 <= k -> 0 <= lmod h (2 ^ k) < 2 ^ k.
Proof.
  intros Hk. unfold lmod. replace (2 ^ k - 1) with (Z.ones k) by (rewrite Z.ones_equiv; lia).
  rewrite Z.land_ones by done. apply Z.mod_pos_bound. lia.
Qed.

Lemma place_exists h size hs : pow2_size size hs -> exists p, hs !! Z.to_nat (lmod h size) = Some p.
Proof.
  intros (k & Hk & -> & Hl). pose proof (lmod_range h k ltac:(lia)). apply lookup_lt_is_Some_2. lia.
Qed.

Lemma member_place hs id : id ∈ concat hs -> exists i p, hs !! i = Some p /\ id ∈ p.
Proof.
  induction hs as [|p hs IH]; cbn; [by intros ?%elem_of_nil|]. intros [?|H]%elem_of_app; [by exists 0%nat, p|].
  destruct (IH H) as (i & q & ? & ?). by exists (S i), q.
Qed.
Lemma place_member hs i p id : hs !! i = Some p -> id ∈ p -> id ∈ concat hs.
Proof.
  revert i. induction hs as [|q hs IH]; intros [|i]; cbn; try done; rewrite elem_of_app; [intros [= ->]; by left|].
  intros ? ?. right. by eapply IH.
Qed.

Lemma concat_update (hs : list (list nat)) i p q : hs !! i = Some p ->
  exists r, concat hs ≡ₚ p ++ r /\ concat (<[i := q]> hs) ≡ₚ q ++ r.
Proof.
  revert i. induction hs as [|a hs IH]; intros [|i]; cbn; try done.
  - intros [= ->]. by exists (concat hs).
  - intros Hi. destruct (IH i Hi) as (r & H1 & H2). exists (a ++ r). rewrite H1, H2. by rewrite !(Permutation_app_swap_app a).
Qed.

Lemma chain_in_spec id i hs : 0 <= i < Z.of_nat (length hs) ->
  exists hs', chain_in id i hs = Some hs' /\ length hs' = length hs /\ concat hs' ≡ₚ id :: concat hs /\
    forall j p id', hs' !! j = Some p -> id' ∈ p -> (exists p0, hs !! j = Some p0 /\ id' ∈ p0) \/ (id' = id /\ Z.of_nat j = i).
Proof.
  intros Hi. unfold chain_in. destruct (lookup_lt_is_Some_2 hs (Z.to_nat i)) as [l Hl]; [lia|]. rewrite Hl. cbn [mbind option_bind].
  eexists. split; [done|]. split; [by rewrite length_insert|]. split.
  - destruct (concat_update hs _ l (id :: l) Hl) as (r & -> & ->). done.
  - intros j p id' Hj Hin. destruct (decide (j = Z.to_nat i)) as [->|Hne].
    + rewrite list_lookup_insert_eq in Hj by (by eapply lookup_lt_Some). injection Hj as <-.
      apply elem_of_cons in Hin as [->|Hin]; [right; split; [done|lia]|left; eauto].
    + rewrite list_lookup_insert_ne in Hj by done. left; eauto.
Qed.

Lemma placed_add h size hs hs' id ts i : placed h size hs -> h !! id = Some ts ->
  str_hash (ts_str ts) = Some (ts_hash ts) -> i = lmod (ts_hash ts) size ->
  (forall j p id', hs' !! j = Some p -> id' ∈ p -> (exists p0, hs !! j = Some p0 /\ id' ∈ p0) \/ (id' = id /\ Z.of_nat j = i)) ->
  placed h size hs'.
Proof.
  intros Hp Hid Hh -> H j p id' Hj Hin. destruct (H j p id' Hj Hin) as [(p0 & ? & ?)|[-> E]]; [by eapply Hp|].
  exists ts. by rewrite E.
Qed.

(** ** Resizing *)
Definition hashed (h : gmap nat TString) id : Prop := exists ts, h !! id = Some ts /\ str_hash (ts_str ts) = Some (ts_hash ts).

Lemma rehash_chain_spec h size p hs : Forall (hashed h) p -> pow2_size size hs -> placed h size hs ->
  exists hs', rehash_chain h size p hs = Some hs' /\ pow2_size size hs' /\ placed h size hs' /\ concat hs' ≡ₚ p ++ concat hs.
Proof.
  revert hs. induction p as [|id p IH]; intros hs Hp Hs Hpl; [by exists hs|].
  apply Forall_cons in Hp as [(ts & E & Hh) Hp]. cbn [rehash_chain]. rewrite E. cbn [mbind option_bind].
  destruct Hs as (k & Hk & -> & Hl). pose proof (lmod_range (ts_hash ts) k ltac:(lia)) as Hr.
  destruct (chain_in_spec id (lmod (ts_hash ts) (2 ^ k)) hs ltac:(lia)) as (hs1 & -> & Hl1 & Hc1 & Hp1). cbn [mbind option_bind].
  destruct (IH hs1 Hp) as (hs' & -> & ? & ? & Hc); [exists k; split; [done|]; split; [done|lia]|by eapply placed_add|].
  exists hs'. do 3 (split; [done|]). rewrite Hc, Hc1. by rewrite <- Permutation_middle.
Qed.

Lemma rehash_all_spec h size ps hs : Forall (hashed h) (concat ps) -> pow2_size size hs -> placed h size hs ->
  exists hs', rehash_all h size ps hs = Some hs' /\ pow2_size size hs' /\ placed h size hs' /\ concat hs' ≡ₚ concat ps ++ concat hs.
Proof.
  revert hs. induction ps as [|p ps IH]; intros hs Hp Hs Hpl; [by exists hs|].
  cbn [concat] in Hp. apply Forall_app in Hp as [Hp Hps]. cbn [rehash_all].
  destruct (rehash_chain_spec h size p hs Hp Hs Hpl) as (hs1 & -> & Hs1 & Hpl1 & Hc1). cbn [mbind option_bind].
  destruct (IH hs1 Hps Hs1 Hpl1) as (hs' & -> & ? & ? & Hc). exists hs'. do 3 (split; [done|]).
  rewrite Hc, Hc1. cbn [concat]. rewrite <- app_assoc. by rewrite Permutation_app_swap_app.
Qed.

Lemma members_hashed s : placed (strings s) (size (strt s)) (hash (strt s)) -> Forall (hashed (strings s)) (members s).
Proof.
  intros Hp. apply Forall_forall. intros id (i & p & Hi & Hin)%member_place. destruct (Hp i p id Hi Hin) as (ts & ? & ? & _). by exists ts.
Qed.

(** Two states with the same strings in the table. *)
Record same_table s s' : Prop := {
  st_G : G s' = G s;
  st_strings : strings s' = strings s;
  st_members : members s' ≡ₚ members s;
}.

Lemma same_interned s s' id str : same_table s s' -> interned s' id str <-> interned s id str.
Proof. intros [_ E M]. unfold interned. by rewrite E, M. Qed.

Lemma same_table_ok s s' : same_table s s' -> nuse (strt s') = nuse (strt s) -> pow2_size (size (strt s')) (hash (strt s')) ->
  placed (strings s') (size (strt s')) (hash (strt s')) -> table_ok s -> table_ok s'.
Proof.
  intros Hs Hn H1 H2 [_ _ Hd Hu Hc]. split; [done|done|..].
  - by rewrite (st_members _ _ Hs).
  - intros id1 id2 str. rewrite !(same_interned s s') by done. apply Hu.
  - rewrite Hn, Hc. by rewrite (st_members _ _ Hs).
Qed.

Lemma luaS_resize_spec s k : table_ok s -> 0 <= k <= 30 ->
  exists s', luaS_resize (2 ^ k) s = Some s' /\ table_ok s' /\ same_table s s' /\
    (isSweepString (G s) = false -> size (strt s') = 2 ^ k).
Proof.
  intros Hok Hk. unfold luaS_resize. destruct (isSweepString (G s)); [exists s; do 2 (split; [done|]); by split|].
  destruct (rehash_all_spec (strings s) (2 ^ k) (hash (strt s)) (replicate (Z.to_nat (2 ^ k)) [])) as (hs & -> & Hs & Hp & Hc).
  - by apply members_hashed, Hok.
  - exists k. rewrite length_replicate. done.
  - intros i p id [-> _]%lookup_replicate ?%elem_of_nil. done.
  - cbn [mbind option_bind]. eexists. split; [done|].
    assert (concat (replicate (Z.to_nat (2 ^ k)) []) = @nil nat) as Hnil.
    { generalize (Z.to_nat (2 ^ k)). intros n. by induction n. }
    rewrite Hnil, app_nil_r in Hc.
    assert (same_table s (set_strt {| hash := hs; nuse := nuse (strt s); size := 2 ^ k |} s)) as Hst by by split.
    split; [|by split]. by eapply same_table_ok.
Qed.

(** ** The hash *)
Lemma hash_loop_total fuel str step l1 h : 0 < step -> 0 <= l1 <= Z.of_nat (length str) -> l1 <= Z.of_nat fuel ->
  exists r, hash_loop fuel str step l1 h = Some r.
Proof.
  intros Hstep. revert l1 h. induction fuel as [|fuel IH]; intros l1 h Hl Hf; cbn [hash_loop].
  - destruct (l1 >=? step) eqn:E; [lia|by eexists].
  - destruct (l1 >=? step) eqn:E; [|by eexists].
    destruct (lookup_lt_is_Some_2 str (Z.to_nat (l1 - 1))) as [c ->]; [lia|]. cbn [mbind option_bind]. apply IH; lia.
Qed.

Lemma str_hash_total str : exists h, str_hash str = Some h.
Proof.
  unfold str_hash. apply hash_loop_total; [|lia|lia].
  assert (0 <= Z.shiftr (Z.of_nat (length str)) 5); [apply Z.shiftr_nonneg; lia|lia].
Qed.

(** ** Searching a chain *)
Lemma find_string_spec h str p : Forall (hashed h) p ->
  exists r, find_chain h str p = Some r /\
    match r with
    | Some o => o ∈ p /\ exists ts, h !! o = Some ts /\ ts_str ts = str
    | None => forall o ts, o ∈ p -> h !! o = Some ts -> ts_str ts <> str
    end.
Proof.
  induction p as [|o p IH]; intros Hp; [exists None; split; [done|]; by intros o ts ?%elem_of_nil|].
  apply Forall_cons in Hp as [(ts & E & _) Hp]. cbn [find_chain]. rewrite E. cbn [mbind option_bind].
  destruct (bool_decide_reflect (ts_str ts = str)) as [Es|Es].
  - exists (Some o). split; [done|]. split; [by left|]. by exists ts.
  - destruct (IH Hp) as (r & -> & Hr). exists r. split; [done|]. destruct r as [o'|].
    + destruct Hr as [? ?]. split; [by right|done].
    + intros o' ts' [->|Ho]%elem_of_cons; [congruence|by apply Hr].
Qed.

Lemma chain_hashed s i p : table_ok s -> hash (strt s) !! i = Some p -> Forall (hashed (strings s)) p.
Proof.
  intros Hok Hi. apply Forall_forall. intros id Hin. destruct (to_place _ Hok i p id Hi Hin) as (ts & ? & ? & _). by exists ts.
Qed.

(** The chain of a hash has all strings of the table with this hash. *)
Lemma interned_chain s id str h p : table_ok s -> interned s id str -> str_hash str = Some h ->
  hash (strt s) !! Z.to_nat (lmod h (size (strt s))) = Some p -> id ∈ p.
Proof.
  intros Hok (Hin & ts & E & <-) Hh Hp. apply member_place in Hin as (i & q & Hi & Hin).
  destruct (to_place _ Hok i q id Hi Hin) as (ts' & E' & Hh' & Hl). assert (ts' = ts) as -> by congruence.
  assert (ts_hash ts = h) as Eh by congruence. rewrite Eh in Hl. rewrite Hl, Nat2Z.id in Hp. congruence.
Qed.

(** ** [newlstr] *)
Lemma placed_fresh h addr ts size hs : placed h size hs -> h !! addr = None -> placed (<[addr := ts]> h) size hs.
Proof.
  intros Hp Hf i p id Hi Hin. destruct (Hp i p id Hi Hin) as (t & E & ? & ?). exists t.
  rewrite lookup_insert_ne by congruence. done.
Qed.


(** A new string in its chain, before the table is resized. *)
Lemma add_string addr str h s : table_ok s -> strings s !! addr = None -> str_hash str = Some h ->
  (forall id, ~ interned s id str) -> Z.of_nat (length (members s)) < 2 ^ 32 - 1 ->
  exists hs, chain_in addr (lmod h (size (strt s))) (hash (strt s)) = Some hs /\
    let ts := {| ts_marked := luaC_white (G s); ts_hash := h; ts_str := str |} in
    let s' := set_strt {| hash := hs; nuse := u32 (nuse (strt s) + 1); size := size (strt s) |}
                (set_strings (<[addr := ts]> (strings s)) s) in
    table_ok s' /\ members s' ≡ₚ addr :: members s.
Proof.
  intros [Hs Hp Hd Hu Hn] Hf Hh Hnew Hlen. destruct Hs as (k & Hk & Es & Hl). rewrite Es in *.
  pose proof (lmod_range h k ltac:(lia)) as Hr.
  destruct (chain_in_spec addr (lmod h (2 ^ k)) (hash (strt s)) ltac:(lia)) as (hs & -> & Hl' & Hc & Hpl). exists hs. split; [done|].
  intros ts s'. assert (members s' ≡ₚ addr :: members s) as Hm by exact Hc.
  assert (addr ∉ members s) as Hna.
  { intros Hin. assert (Forall (hashed (strings s)) (members s)) as Hall by (apply members_hashed; by rewrite Es).
    rewrite Forall_forall in Hall. destruct (Hall addr Hin) as (t & E & _). congruence. }
  split; [|done]. split.
  - exists k. split; [done|]. split; [done|]. cbn. lia.
  - cbn [strings size hash strt set_strt set_strings s']. eapply (placed_add _ _ (hash (strt s))); [by apply placed_fresh|apply lookup_insert_eq|done|done|done].
  - rewrite Hm. by constructor.
  - intros id1 id2 str'. unfold interned. rewrite !Hm, !elem_of_cons. cbn [strings s' set_strt set_strings].
    intros [H1 (t1 & E1 & S1)] [H2 (t2 & E2 & S2)].
    assert (forall id t, id ∈ members s -> <[addr:=ts]> (strings s) !! id = Some t -> ts_str t = str' -> interned s id str') as Hold.
    { intros id t Hin E St. split; [done|]. exists t. rewrite lookup_insert_ne in E; [done|]. congruence. }
    destruct H1 as [->|H1], H2 as [->|H2]; [done|..].
    + exfalso. rewrite lookup_insert_eq in E1. injection E1 as E1. rewrite <- E1 in S1. cbn in S1. apply (Hnew id2). rewrite S1. by eapply Hold.
    + exfalso. rewrite lookup_insert_eq in E2. injection E2 as E2. rewrite <- E2 in S2. cbn in S2. apply (Hnew id1). rewrite S2. by eapply Hold.
    + eapply Hu; by eapply Hold.
  - cbn [nuse strt s' set_strt]. rewrite Hm, Hn. cbn [length]. rewrite uwrap_small by lia. lia.
Qed.

Lemma newlstr_spec addr str h s : table_ok s -> strings s !! addr = None -> str_hash str = Some h ->
  (forall id, ~ interned s id str) -> Z.of_nat (length (members s)) < 2 ^ 32 - 1 ->
  Z.of_nat (length str) + 1 <= MAX_SIZET - sizeof_TString ->
  exists s', newlstr addr str h s = lret (addr, s') /\ table_ok s' /\ G s' = G s /\ members s' ≡ₚ addr :: members s /\
    strings s' = <[addr := {| ts_marked := luaC_white (G s); ts_hash := h; ts_str := str |}]> (strings s).
Proof.
  intros Hok Hf Hh Hnew Hlen Hbig. unfold newlstr.
  assert ((Z.of_nat (length str) + 1 >? MAX_SIZET - sizeof_TString) = false) as -> by lia.
  destruct (add_string addr str h s Hok Hf Hh Hnew Hlen) as (hs & -> & Hok' & Hm).
  set (ts := Build_TString _ _ _) in *. set (s1 := set_strt _ _) in Hok', Hm.
  change (lbind (llift (Some hs)) ?k) with (k hs). cbv beta zeta. cbn [nuse size].
  destruct ((u32 (nuse (strt s) + 1) >? size (strt s)) && (size (strt s) <=? MAX_INT / 2)) eqn:E.
  - destruct (to_size _ Hok) as (k & Hk & Es & _). assert (size (strt s) * 2 = 2 ^ (k + 1)) as Ed by (rewrite Es, Z.pow_add_r; lia).
    assert (k < 30) as Hk'.
    { apply andb_true_iff in E as [_ E]. change (MAX_INT / 2) with 1073741822 in E. rewrite Es in E.
      destruct (decide (k = 30)) as [->|]; [by cbv in E|lia]. }
    rewrite Ed. destruct (luaS_resize_spec s1 (k + 1) Hok' ltac:(lia)) as (s' & Er & ? & [EG ES EM] & _).
    change (luaS_resize (2 ^ (k + 1)) _) with (luaS_resize (2 ^ (k + 1)) s1). rewrite Er. exists s'.
    split; [done|]. split; [done|]. split; [done|]. split; [by rewrite EM|done].
  - exists s1. done.
Qed.

(** ** [luaS_newlstr] *)
Lemma resurrect_alive g ts : luaC_white g <> 0 -> isdead g (ts_marked (resurrect g ts)) = false.
Proof.
  intros Hw. unfold resurrect. destruct (isdead g (ts_marked ts)) eqn:E; [|done]. by apply changewhite_not_dead.
Qed.

(** Changing the marks of strings changes nothing else. *)
Lemma remarked_ok s h' : table_ok s ->
  (forall id, (fun ts => (ts_hash ts, ts_str ts)) <$> h' !! id = (fun ts => (ts_hash ts, ts_str ts)) <$> strings s !! id) ->
  table_ok (set_strings h' s) /\ forall id str, interned (set_strings h' s) id str <-> interned s id str.
Proof.
  intros [Hs Hp Hd Hu Hn] Hh.
  assert (forall id str, interned (set_strings h' s) id str <-> interned s id str) as Hi.
  { intros id str. unfold interned. change (members (set_strings h' s)) with (members s). cbn [strings set_strings].
    specialize (Hh id). destruct (h' !! id) as [t'|], (strings s !! id) as [t|]; cbn in Hh; simplify_eq; [|done].
    split; intros (? & u & [= <-] & E); (split; [done|]); eexists; (split; [done|]); congruence. }
  split; [|done]. split; try done.
  - intros i p id Hpi Hin. destruct (Hp i p id Hpi Hin) as (ts & E & Eh & El). specialize (Hh id). rewrite E in Hh.
    cbn [strings set_strings]. destruct (h' !! id) as [t'|]; [|done]. cbn in Hh. injection Hh as H1 H2.
    exists t'. by rewrite H1, H2.
  - intros id1 id2 str. rewrite !Hi. apply Hu.
Qed.

(** C27. Strings are interned. Whatever the table holds, [luaS_newlstr] returns a string
    with the bytes asked for that is not dead - the one of the table if there is one,
    brought back to life if the sweep had not reached it yet, a new one otherwise, even
    when this makes the table grow - and the table then holds the strings it held and this
    one. In the resulting state, as before, two strings of the table with the same bytes
    are the same object ([table_ok]), so strings are compared by their addresses. *)
Theorem luaS_newlstr_interns (addr : nat) (str : bytes) (s : sstate) :
  table_ok s -> luaC_white (G s) <> 0 -> strings s !! addr = None -> Z.of_nat (length (members s)) < 2 ^ 32 - 1 ->
  Z.of_nat (length str) + 1 <= MAX_SIZET - sizeof_TString ->
  exists id s', luaS_newlstr addr str s = lret (id, s') /\ table_ok s' /\ G s' = G s /\
    (exists ts, strings s' !! id = Some ts /\ isdead (G s') (ts_marked ts) = false) /\
    (forall o t, interned s' o t <-> interned s o t \/ (o = id /\ t = str)).
Proof.
  intros Hok Hw Hf Hlen Hbig. unfold luaS_newlstr. destruct (str_hash_total str) as [h Hh]. rewrite Hh.
  change (lbind (llift (Some h)) ?k) with (k h). cbv beta.
  destruct (place_exists h _ _ (to_size _ Hok)) as [p Hp]. rewrite Hp. change (lbind (llift (Some p)) ?k) with (k p). cbv beta.
  destruct (find_string_spec (strings s) str p) as (r & -> & Hr); [by eapply chain_hashed|].
  change (lbind (llift (Some r)) ?k) with (k r). cbv beta. destruct r as [o|].
  - destruct Hr as (Hin & ts & E & Es). eexists o, _. split; [done|].
    assert (interned s o str) as Ho by (split; [by eapply place_member|by exists ts]).
    destruct (remarked_ok s (alter (resurrect (G s)) o (strings s)) Hok) as [Hok' Hi].
    { intros id. destruct (decide (id = o)) as [->|]; [|by rewrite lookup_alter_ne]. rewrite lookup_alter_eq, E. cbn.
      unfold resurrect. by destruct (isdead _ _). }
    split; [done|]. split; [done|]. split.
    + exists (resurrect (G s) ts). cbn [strings set_strings]. rewrite lookup_alter_eq, E. split; [done|]. by apply resurrect_alive.
    + intros o' t. rewrite Hi. split; [by left|]. intros [?|[-> ->]]; done.
  - assert (forall id, ~ interned s id str) as Hnew.
    { intros id Hi. pose proof (interned_chain s id str h p Hok Hi Hh Hp) as Hin. destruct Hi as (_ & ts & E & Es).
      by apply (Hr id ts Hin E). }
    destruct (newlstr_spec addr str h s Hok Hf Hh Hnew Hlen Hbig) as (s' & -> & Hok' & EG & EM & ES).
    exists addr, s'. split; [done|]. split; [done|]. split; [done|]. split.
    + eexists. rewrite ES, lookup_insert_eq, EG. split; [done|]. by apply new_not_dead.
    + intros o t. unfold interned. rewrite EM, ES, elem_of_cons. split.
      * intros ([->|Hin] & ts & E & <-).
        -- rewrite lookup_insert_eq in E. injection E as <-. by right.
        -- left. split; [done|]. exists ts. rewrite lookup_insert_ne in E; [done|]. intros <-.
           pose proof (members_hashed s (to_place _ Hok)) as Hall. rewrite Forall_forall in Hall.
           destruct (Hall addr Hin) as (? & ? & _). congruence.
      * intros [(Hin & ts & E & <-)|[-> ->]].
        -- split; [by right|]. exists ts. rewrite lookup_insert_ne; [done|]. congruence.
        -- split; [by left|]. eexists. by rewrite lookup_insert_eq.
Qed.

(** ** The sweep *)

(** A string with the mark bits of a fresh one. *)
Definition whitened (g : global_State) (ts : TString) : TString :=
  {| ts_marked := makewhite g (ts_marked ts); ts_hash := ts_hash ts; ts_str := ts_str ts |}.

Lemma sweep_chain_spec (k : nat -> bool) p s : NoDup p -> Forall (hashed (strings s)) p ->
  (forall o ts, o ∈ p -> strings s !! o = Some ts -> sweep_keeps (G s) (ts_marked ts) = k o) ->
  Z.of_nat (length p) <= nuse (strt s) < 2 ^ 32 ->
  exists rest s', sweep_chain p s = Some (rest, s') /\ rest = filter (fun o => k o = true) p /\
    G s' = G s /\ hash (strt s') = hash (strt s) /\ size (strt s') = size (strt s) /\
    nuse (strt s') = nuse (strt s) - Z.of_nat (length p) + Z.of_nat (length rest) /\
    (forall o, o ∉ p -> strings s' !! o = strings s !! o) /\
    (forall o ts, o ∈ p -> strings s !! o = Some ts ->
       strings s' !! o = if k o then Some (whitened (G s) ts) else None).
Proof.
  revert s. induction p as [|curr p IH]; intros s Hd Hp Hk Hn.
  { exists [], s. split; [done|]. do 4 (split; [done|]). split; [cbn; lia|]. split; [done|]. by intros o ? ?%elem_of_nil. }
  apply NoDup_cons in Hd as [Hc Hd]. apply Forall_cons in Hp as [(ts & E & _) Hp]. cbn [sweep_chain]. rewrite E. cbn [mbind option_bind].
  pose proof (Hk curr ts ltac:(by left) E) as Ek. rewrite filter_cons. cbn [length] in Hn.
  assert (forall s1, G s1 = G s -> (forall o, o <> curr -> strings s1 !! o = strings s !! o) ->
    Forall (hashed (strings s1)) p /\
    (forall o t, o ∈ p -> strings s1 !! o = Some t -> sweep_keeps (G s1) (ts_marked t) = k o)) as Hrest.
  { intros s1 E1 Hs1. rewrite Forall_forall in Hp. split; [apply Forall_forall; intros o Ho|intros o t Ho Ht].
    - destruct (Hp o Ho) as (t & ? & ?). exists t. rewrite Hs1; [done|]. by intros ->.
    - rewrite E1. apply Hk; [by right|]. rewrite <- Hs1; [done|]. by intros ->. }
  destruct (sweep_keeps (G s) (ts_marked ts)); rewrite <- Ek.
  - rewrite decide_True by done. set (s1 := set_strings _ s).
    destruct (Hrest s1 eq_refl) as [Hp1 Hk1]; [intros o Ho; cbn; by rewrite lookup_insert_ne|].
    destruct (IH s1 Hd Hp1 Hk1) as (rest & s' & -> & -> & EG & EH & ES & EN & Hout & Hin); [cbn; lia|].
    cbn [mbind option_bind]. eexists _, s'. do 5 (split; [done|]). split; [rewrite EN; cbn [length]; change (nuse (strt s1)) with (nuse (strt s)); lia|]. split.
    + intros o Ho. apply not_elem_of_cons in Ho as [? ?]. rewrite Hout by done. cbn. by rewrite lookup_insert_ne.
    + intros o t Ho Et. apply elem_of_cons in Ho as [->|Ho].
      * rewrite Hout by done. cbn. rewrite lookup_insert_eq, <- Ek. assert (t = ts) as -> by congruence. done.
      * apply Hin; [done|]. cbn. rewrite lookup_insert_ne; [done|]. by intros <-.
  - rewrite decide_False by done. set (s1 := set_strt _ _).
    destruct (Hrest s1 eq_refl) as [Hp1 Hk1]; [intros o Ho; cbn; by rewrite lookup_delete_ne|].
    assert (nuse (strt s1) = nuse (strt s) - 1) as En by (cbn; apply uwrap_small; lia).
    destruct (IH s1 Hd Hp1 Hk1) as (rest & s' & -> & -> & EG & EH & ES & EN & Hout & Hin); [rewrite En; lia|].
    eexists _, s'. do 5 (split; [done|]). split; [rewrite EN, En; cbn [length]; lia|]. split.
    + intros o Ho. apply not_elem_of_cons in Ho as [? ?]. rewrite Hout by done. cbn. by rewrite lookup_delete_ne.
    + intros o t Ho Et. apply elem_of_cons in Ho as [->|Ho].
      * rewrite Hout by done. cbn. by rewrite lookup_delete_eq, <- Ek.
      * apply Hin; [done|]. cbn. rewrite lookup_delete_ne; [done|]. by intros <-.
Qed.

(** Whether the sweep of the chain [p] leaves the string alone. *)
Definition survives s (p : list nat) id : Prop :=
  id ∈ p -> exists ts, strings s !! id = Some ts /\ sweep_keeps (G s) (ts_marked ts) = true.

Definition kept_string s id : bool :=
  match strings s !! id with Some ts => sweep_keeps (G s) (ts_marked ts) | None => false end.
Definition same_string s s' id : Prop :=
  (fun ts => (ts_hash ts, ts_str ts)) <$> strings s' !! id = (fun ts => (ts_hash ts, ts_str ts)) <$> strings s !! id.

Lemma swept_interned s s' p r rest : members s ≡ₚ p ++ r -> members s' ≡ₚ rest ++ r -> (forall o, o ∈ p -> o ∉ r) ->
  (forall o, o ∈ rest <-> kept_string s o = true /\ o ∈ p) -> (forall o, o ∈ rest ++ r -> same_string s s' o) ->
  forall id str, interned s' id str <-> interned s id str /\ survives s p id.
Proof.
  intros Hm Hm' Hdis Hrest Hsame id str. unfold interned. rewrite Hm', Hm. split.
  - intros [Ho (ts' & E' & Es)]. specialize (Hsame id Ho). unfold same_string in Hsame. rewrite E' in Hsame.
    destruct (strings s !! id) as [ts|] eqn:Eo; [|done]. cbn in Hsame. injection Hsame as _ E2. split; [split|].
    + apply elem_of_app in Ho as [Ho|?]; apply elem_of_app; [left; by apply Hrest|by right].
    + exists ts. split; [done|congruence].
    + intros Hpid. exists ts. split; [done|]. apply elem_of_app in Ho as [Ho|Ho]; [|by destruct (Hdis id Hpid)].
      apply Hrest in Ho as [Hk _]. unfold kept_string in Hk. by rewrite Eo in Hk.
  - intros [[Ho (ts & Eo & Es)] Hsv]. assert (id ∈ rest ++ r) as Hor.
    { apply elem_of_app in Ho as [Ho|?]; apply elem_of_app; [left|by right]. apply Hrest. split; [|done].
      destruct (Hsv Ho) as (ts' & E' & Hk). unfold kept_string. by rewrite E'. }
    split; [done|]. specialize (Hsame id Hor). unfold same_string in Hsame. rewrite Eo in Hsame. destruct (strings s' !! id) as [ts'|]; [|done].
    cbn in Hsame. injection Hsame as _ E2. exists ts'. split; [done|congruence].
Qed.

Lemma kept_same s s' (p : list nat) o :
  (forall o ts, o ∈ p -> strings s !! o = Some ts -> strings s' !! o = if kept_string s o then Some (whitened (G s) ts) else None) ->
  kept_string s o = true /\ o ∈ p -> same_string s s' o.
Proof.
  intros H [Hk Ho]. unfold same_string. pose proof Hk as Hk'. unfold kept_string in Hk'.
  destruct (strings s !! o) as [ts|] eqn:E; [|done]. by rewrite (H o ts Ho E), Hk.
Qed.

(** What the sweep makes of a string of the chain: a dead one is freed; another one keeps its
    text, its hash and its other marks and becomes white for the next cycle. *)
Definition swept (s s' : sstate) id (ts : TString) : Prop :=
  if sweep_keeps (G s) (ts_marked ts) then
    exists ts', strings s' !! id = Some ts' /\ white_now (G s) (ts_marked ts') /\
      Z.land (ts_marked ts') maskmarks = Z.land (ts_marked ts) maskmarks /\
      ts_hash ts' = ts_hash ts /\ ts_str ts' = ts_str ts
  else strings s' !! id = None.

Lemma whitened_swept s s' id ts :
  strings s' !! id = (if sweep_keeps (G s) (ts_marked ts) then Some (whitened (G s) ts) else None) -> swept s s' id ts.
Proof.
  unfold swept. destruct (sweep_keeps _ _); [|done]. intros E. exists (whitened (G s) ts). split; [done|].
  split; [apply makewhite_now|]. split; [|done]. cbn [whitened ts_marked]. unfold makewhite, luaC_white.
  rewrite Z.land_lor_distr_l, <- !Z.land_assoc. change (Z.land WHITEBITS maskmarks) with 0. by rewrite Z.land_0_r, Z.lor_0_r.
Qed.

(** C32. The sweep of a chain removes from the table, and frees, exactly the dead strings of
    that chain; the others of the chain stay, with their text and hash, white for the next
    cycle; no string of another chain is touched, and the table stays in order. *)
Theorem sweep_strings_exact (i : nat) (p : list nat) (s : sstate) :
  table_ok s -> hash (strt s) !! i = Some p -> Z.of_nat (length (members s)) < 2 ^ 32 ->
  exists s', sweep_strings i s = Some s' /\ table_ok s' /\
    (forall id str, interned s' id str <-> interned s id str /\ survives s p id) /\
    (forall id ts, id ∈ p -> strings s !! id = Some ts -> swept s s' id ts) /\
    (forall id, id ∉ p -> strings s' !! id = strings s !! id).
Proof.
  intros Hok Hp Hlen. destruct (concat_update (hash (strt s)) i p p Hp) as (r & Hm & _). change (members s ≡ₚ p ++ r) in Hm.
  pose proof (to_nodup _ Hok) as Hd. rewrite Hm in Hd. apply NoDup_app in Hd as (Hd & Hdis & Hdr).
  assert (Z.of_nat (length p) <= nuse (strt s) < 2 ^ 32) as Hn by (rewrite (to_nuse _ Hok); rewrite Hm, length_app in *; lia).
  destruct (sweep_chain_spec (kept_string s) p s Hd) as (rest & s1 & E & Er & EG & EH & ES & EN & Hout & Hkept); [by eapply chain_hashed| |done|].
  { intros o ts _ Eo. unfold kept_string. by rewrite Eo. }
  unfold sweep_strings. rewrite Hp. cbn [mbind option_bind]. rewrite E. cbn [mbind option_bind]. set (s' := set_strt _ s1).
  exists s'. split; [done|].
  assert (forall o, o ∈ rest <-> kept_string s o = true /\ o ∈ p) as Hrest by (intros o; rewrite Er, list_elem_of_filter; done).
  assert (members s' ≡ₚ rest ++ r) as Hm'.
  { unfold members. cbn [hash strt s' set_strt]. rewrite EH. destruct (concat_update (hash (strt s)) i p rest Hp) as (r' & H1 & H2).
    rewrite H2. apply Permutation_app_head. change (members s ≡ₚ p ++ r') in H1. rewrite Hm in H1. symmetry. by apply Permutation_app_inv_l in H1. }
  assert (forall o, o ∈ rest ++ r -> same_string s s' o) as Hsame.
  { intros o [Ho|Ho]%elem_of_app; [by eapply kept_same; [exact Hkept|apply Hrest]|]. unfold same_string. cbn. rewrite Hout; [done|]. intros Hpo. by apply (Hdis o). }
  assert (forall id str, interned s' id str <-> interned s id str /\ survives s p id) as Hi by by eapply swept_interned.
  assert (forall id ts, id ∈ p -> strings s !! id = Some ts -> swept s s' id ts) as Hsw.
  { intros id ts Hid Eid. apply whitened_swept. etransitivity; [exact (Hkept id ts Hid Eid)|]. unfold kept_string. by rewrite Eid. }
  split; [|by split; [exact Hi|split; [exact Hsw|exact Hout]]]. split.
  - cbn. rewrite ES, EH. destruct (to_size _ Hok) as (m & ? & ? & ?). exists m. by rewrite length_insert.
  - intros j q id Hj Hq. assert (id ∈ rest ++ r) as Hor by (rewrite <- Hm'; by eapply place_member).
    assert (exists q0, hash (strt s) !! j = Some q0 /\ id ∈ q0) as (q0 & Hj0 & Hq0).
    { cbn in Hj. rewrite EH in Hj. destruct (decide (i = j)) as [<-|Hne].
      - rewrite list_lookup_insert_eq in Hj by (by eapply lookup_lt_Some). injection Hj as <-. exists p. split; [done|]. by apply Hrest.
      - rewrite list_lookup_insert_ne in Hj by done. by exists q. }
    destruct (to_place _ Hok j q0 id Hj0 Hq0) as (ts & Eo & Eh & El). specialize (Hsame id Hor). unfold same_string in Hsame. rewrite Eo in Hsame.
    destruct (strings s' !! id) as [ts'|]; [|done]. cbn in Hsame. injection Hsame as E1 E2. exists ts'. rewrite E1, E2. cbn. by rewrite ES.
  - rewrite Hm'. apply NoDup_app. split; [rewrite Er; by apply NoDup_filter|]. split; [|done]. intros o Ho. apply Hdis. by apply Hrest.
  - intros id1 id2 str [H1 _]%Hi [H2 _]%Hi. by eapply (to_unique _ Hok).
  - cbn [nuse strt s' set_strt]. rewrite EN, (to_nuse _ Hok), Hm', Hm, !length_app. lia.
Qed.

(** ** Witnesses *)
Definition empty_table (g : global_State) : sstate :=
  {| G := g; strings := ∅; strt := {| hash := replicate 32 []; nuse := 0; size := 32 |} |}.

Lemma empty_members g : members (empty_table g) = [].
Proof. done. Qed.

Lemma no_strings_ok g : table_ok (empty_table g).
Proof.
  split.
  - exists 5. done.
  - intros i p id [-> _]%(lookup_replicate 32) ?%elem_of_nil. done.
  - constructor.
  - intros id1 id2 str [?%elem_of_nil _]. done.
  - done.
Qed.

Definition demo_G : global_State := {|
  heap := ∅; currentwhite := 33; gcstate := GCSsweepstring; gray := []; grayagain := []; weak := []; rootgc := [];
  udata := []; tmudata := []; uvhead := []; mainthread := 0%nat; registry := Nil; mt := [] |}.

Lemma luaS_newlstr_interns_witness : exists id s, luaS_newlstr 7 (bytes_of_string "end") (empty_table demo_G) = lret (id, s) /\
  id = 7%nat /\ interned s 7 (bytes_of_string "end").
Proof.
  destruct (luaS_newlstr_interns 7 (bytes_of_string "end") (empty_table demo_G)) as (id & s & E & _ & _ & _ & H);
    [apply no_strings_ok|by done|done|done|done|].
  exists id, s. split; [done|]. assert (id = 7%nat) as ->.
  { assert (forall r, luaS_newlstr 7 (bytes_of_string "end") (empty_table demo_G) = lret r -> r.1 = 7%nat) as Hr.
    { intros r. vm_compute. by intros [= <-]. }
    exact (Hr _ E). }
  split; [done|]. apply H. by right.
Defined.

(** The dead "x", white of the last cycle, and the marked "8" in the same chain. *)
Definition hash_of (l : bytes) : Z := default 0 (str_hash l).
Definition two_in_chain : sstate := {|
  G := demo_G;
  strings := <[7%nat := {| ts_marked := 2; ts_hash := hash_of [120]; ts_str := [120] |}]>
    {[ 8%nat := {| ts_marked := 4; ts_hash := hash_of [56]; ts_str := [56] |} ]};
  strt := {| hash := <[25%nat := [7; 8]%nat]> (replicate 32 []); nuse := 2; size := 32 |} |}.

Lemma two_members : members two_in_chain = [7; 8]%nat.
Proof. vm_compute. reflexivity. Qed.

Lemma two_texts id str : interned two_in_chain id str -> id = 7%nat /\ str = [120] \/ id = 8%nat /\ str = [56].
Proof.
  intros [H (t & E & <-)]. rewrite two_members in H. apply elem_of_cons in H as [->|H].
  - left. assert (strings two_in_chain !! 7%nat = Some {| ts_marked := 2; ts_hash := hash_of [120]; ts_str := [120] |}) as E' by done.
    rewrite E' in E. by injection E as <-.
  - apply list_elem_of_singleton in H as ->. right.
    assert (strings two_in_chain !! 8%nat = Some {| ts_marked := 4; ts_hash := hash_of [56]; ts_str := [56] |}) as E' by done.
    rewrite E' in E. by injection E as <-.
Qed.

Lemma two_in_chain_ok : table_ok two_in_chain.
Proof.
  pose proof two_members as Hm. split.
  - exists 5. done.
  - intros i p id Hi Hin. assert (i = 25%nat) as ->.
    { apply list_lookup_insert_Some in Hi as [(<- & _ & _)|(Hne & Hi)]; [done|].
      apply lookup_replicate in Hi as [-> _]. by apply elem_of_nil in Hin. }
    assert (id ∈ members two_in_chain) as H by by eapply place_member.
    rewrite Hm in H. apply elem_of_cons in H as [->|H%list_elem_of_singleton]; [|subst id];
      (eexists; split; [reflexivity|]; split; vm_compute; reflexivity).
  - rewrite Hm. apply NoDup_cons. split; [|apply NoDup_singleton]. by intros ?%list_elem_of_singleton.
  - intros id1 id2 str H1%two_texts H2%two_texts. destruct H1 as [[-> ->]|[-> ->]], H2 as [[-> ?]|[-> ?]]; congruence.
  - by rewrite Hm.
Qed.

Lemma sweep_strings_exact_witness : exists s', sweep_strings 25 two_in_chain = Some s' /\
  strings s' !! 7%nat = None /\ exists ts, strings s' !! 8%nat = Some ts /\ iswhite (ts_marked ts) = true /\ interned s' 8 [56].
Proof.
  destruct (sweep_strings_exact 25 [7; 8]%nat two_in_chain) as (s' & E & _ & Hi & H & _);
    [exact two_in_chain_ok|done|by rewrite two_members|].
  exists s'. split; [done|]. split; [apply (H 7%nat _ ltac:(by left) eq_refl)|].
  destruct (H 8%nat _ ltac:(by right; left) eq_refl) as (ts & Ets & [Hw _] & _ & _ & Es). exists ts. split; [done|].
  split; [unfold iswhite; by rewrite Hw|]. apply Hi. split.
  - split; [rewrite two_members; by right; left|]. by eexists.
  - intros _. by eexists.
Defined.
