(* ===== verification/LTable.v ===== *)
(** * Lua tables (src/lua/ltable.c)

    A table is its array part, its node vector and the position below which free
    nodes are sought. A node is addressed by its index; the chain pointers are
    [option nat]. The shared constant [dummynode] of an empty hash part is the
    flag [isdummy] with one node that holds nil. A function that returns a
    [TValue] pointer returns a [slot] here, and [luaO_nilobject] is the absence of
    one. The hash of a string is a field of the string object: the variable
    [tsv_hash] gives it for an address. Allocation does not fail in the model and
    the collector's write barrier has no effect on the table. *)
From stdpp Require Import base list strings option.
From Stdlib Require Import ZArith Lia.
From S2P Require Import Prelude LObject.
Local Open Scope Z_scope.

Definition MAXBITS : Z := 26.
Definition MAXASIZE : Z := Z.shiftl 1 MAXBITS.

Record node_t := Node { gval : tvalue; gkey : tvalue; gnext : option nat }.

Record table := Table {
  flags : Z;
  lsizenode : Z;
  isdummy : bool;
  array : list tvalue;
  sizearray : Z;
  node : list node_t;
  lastfree : Z }.

Inductive slot := SArray (i : nat) | SNode (i : nat).

Definition empty_node : node_t := Node TNil TNil None.

(** ** Assignments to fields *)
Definition with_flags (f : Z) (t : table) : table :=
  Table f (lsizenode t) (isdummy t) (array t) (sizearray t) (node t) (lastfree t).
Definition with_array (a : list tvalue) (t : table) : table :=
  Table (flags t) (lsizenode t) (isdummy t) a (sizearray t) (node t) (lastfree t).
Definition with_sizearray (n : Z) (t : table) : table :=
  Table (flags t) (lsizenode t) (isdummy t) (array t) n (node t) (lastfree t).
Definition with_node (ns : list node_t) (t : table) : table :=
  Table (flags t) (lsizenode t) (isdummy t) (array t) (sizearray t) ns (lastfree t).
Definition with_lastfree (i : Z) (t : table) : table :=
  Table (flags t) (lsizenode t) (isdummy t) (array t) (sizearray t) (node t) i.

Definition with_val (v : tvalue) (n : node_t) : node_t := Node v (gkey n) (gnext n).
Definition with_key (k : tvalue) (n : node_t) : node_t := Node (gval n) k (gnext n).
Definition with_next (p : option nat) (n : node_t) : node_t := Node (gval n) (gkey n) p.

Definition read_slot (t : table) (s : slot) : option tvalue :=
  match s with SArray i => array t !! i | SNode i => gval <$> node t !! i end.

Definition write_slot (t : table) (s : slot) (v : tvalue) : table :=
  match s with
  | SArray i => with_array (<[i := v]> (array t)) t
  | SNode i => with_node (alter (with_val v) i (node t)) t
  end.

Section Table.
Variable tsv_hash : Z -> Z.

(** ** Main positions *)
Definition sizenode (t : table) : Z := Z.shiftl 1 (lsizenode t).
Definition hashpow2 (t : table) (n : Z) : nat := Z.to_nat (Z.land n (sizenode t - 1)).
Definition hashmod (t : table) (n : Z) : nat := Z.to_nat (n mod Z.lor (sizenode t - 1) 1).

Definition hashnum (t : table) (n : Z) : nat :=
  if luai_numeq n 0 then 0%nat
  else hashmod t (u32 (n mod 2 ^ 32 + n / 2 ^ 32)).

(** Never asked of a nil key: an occupied node has a key. *)
Definition mainposition (t : table) (key : tvalue) : nat :=
  match key with
  | TNumber n => hashnum t n
  | TGC GString p => hashpow2 t (tsv_hash p)
  | TBoolean b => hashpow2 t (if b then 1 else 0)
  | TLightUserData p => hashmod t (u32 p)
  | TGC _ p | TDead p => hashmod t (u32 p)
  | TNil => hashmod t 0
  end.

(** ** Search *)
Definition arrayindex (key : tvalue) : Z :=
  match key with
  | TNumber n => let k := lua_number2int n in if luai_numeq (cast_num k) n then k else -1
  | _ => -1
  end.

(** [do { if (f(n)) return n; else n = gnext(n); } while (n)] from node [i]. *)
Fixpoint find_chain (fuel : nat) (f : node_t -> bool) (ns : list node_t) (i : nat) : option (option nat) :=
  match fuel with
  | O => None
  | S fuel =>
      n ← ns !! i;
      if f n then Some (Some i)
      else match gnext n with None => Some None | Some j => find_chain fuel f ns j end
  end.

Definition in_chain (f : node_t -> bool) (t : table) (i : nat) : option (option slot) :=
  r ← find_chain (S (length (node t))) f (node t) i; Some (option_map SNode r).

Definition luaH_getnum (t : table) (key : Z) : option (option slot) :=
  if u32 (key - 1) <? u32 (sizearray t) then Some (Some (SArray (Z.to_nat (key - 1))))
  else
    let nk := cast_num key in
    in_chain (fun n => match gkey n with TNumber m => luai_numeq m nk | _ => false end) t (hashnum t nk).

Definition luaH_getstr (t : table) (key : Z) : option (option slot) :=
  in_chain (fun n => match gkey n with TGC GString p => p =? key | _ => false end)
    t (hashpow2 t (tsv_hash key)).

Definition luaH_get_default (t : table) (key : tvalue) : option (option slot) :=
  in_chain (fun n => luaO_rawequalObj (gkey n) key) t (mainposition t key).

Definition luaH_get (t : table) (key : tvalue) : option (option slot) :=
  match key with
  | TNil => Some None
  | TGC GString p => luaH_getstr t p
  | TNumber n =>
      let k := lua_number2int n in
      if luai_numeq (cast_num k) n then luaH_getnum t k else luaH_get_default t key
  | _ => luaH_get_default t key
  end.

(** ** Rehash *)
Fixpoint computesizes_loop (fuel : nat) (nums : list Z) (narray : Z) (i : nat) (twotoi a na n : Z) : option (Z * Z) :=
  match fuel with
  | O => None
  | S fuel =>
      if twotoi / 2 <? narray then
        x ← nums !! i;
        let '(a, na, n) :=
          if 0 <? x then
            let a := a + x in if twotoi / 2 <? a then (a, a, twotoi) else (a, na, n)
          else (a, na, n) in
        if a =? narray then Some (n, na)
        else computesizes_loop fuel nums narray (S i) (twotoi * 2) a na n
      else Some (n, na)
  end.

(** The new value of [*narray] and the result. *)
Definition computesizes (nums : list Z) (narray : Z) : option (Z * Z) :=
  computesizes_loop 32 nums narray 0 1 0 0 0.

Definition add_at (nums : list Z) (i : nat) (d : Z) : option (list Z) :=
  x ← nums !! i; Some (<[i := x + d]> nums).

Definition countint (key : tvalue) (nums : list Z) : option (Z * list Z) :=
  let k := arrayindex key in
  if (0 <? k) && (k <=? MAXASIZE) then
    lg ← ceillog2 k;
    nums ← add_at nums (Z.to_nat lg) 1;
    Some (1, nums)
  else Some (0, nums).

(** [for (; i <= lim; i++) if (!ttisnil(&t->array[i-1])) lc++], [n] turns. *)
Fixpoint count_slice (n : nat) (a : list tvalue) (i lc : Z) : option (Z * Z) :=
  match n with
  | O => Some (i, lc)
  | S n => v ← a !! Z.to_nat (i - 1); count_slice n a (i + 1) (if ttisnil v then lc else lc + 1)
  end.

Fixpoint numusearray_loop (n : nat) (t : table) (lg : nat) (ttlg i ause : Z) (nums : list Z) : option (Z * list Z) :=
  match n with
  | O => Some (ause, nums)
  | S n =>
      let lim := if sizearray t <? ttlg then sizearray t else ttlg in
      if (sizearray t <? ttlg) && (lim <? i) then Some (ause, nums)
      else
        '(i, lc) ← count_slice (Z.to_nat (lim - i + 1)) (array t) i 0;
        nums ← add_at nums lg lc;
        numusearray_loop n t (S lg) (ttlg * 2) i (ause + lc) nums
  end.

Definition numusearray (t : table) (nums : list Z) : option (Z * list Z) :=
  numusearray_loop 27 t 0 1 1 0 nums.

(** The nodes from the last one to the first: counts of all elements and of
    those with an integer key. *)
Fixpoint numusehash_loop (ns : list node_t) (totaluse ause : Z) (nums : list Z) : option (Z * Z * list Z) :=
  match ns with
  | [] => Some (totaluse, ause, nums)
  | n :: ns =>
      if ttisnil (gval n) then numusehash_loop ns totaluse ause nums
      else '(c, nums) ← countint (gkey n) nums; numusehash_loop ns (totaluse + 1) (ause + c) nums
  end.

Definition numusehash (t : table) (nums : list Z) : option (Z * Z * list Z) :=
  numusehash_loop (rev (node t)) 0 0 nums.

(** [realloc] keeps the elements up to the smaller size; the new ones are set to
    nil. *)
Definition setarrayvector (t : table) (size : Z) : table :=
  with_sizearray size (with_array
    (take (Z.to_nat (Z.min (sizearray t) size)) (array t) ++ replicate (Z.to_nat (size - sizearray t)) TNil) t).

Definition setnodevector (t : table) (size : Z) : LuaM table :=
  if size =? 0 then
    lret (Table (flags t) 0 true (array t) (sizearray t) [empty_node] 0)
  else
    let* lsize := llift (ceillog2 size) in
    if MAXBITS <? lsize then lerror "table overflow"
    else
      let size := Z.shiftl 1 lsize in
      lret (Table (flags t) lsize false (array t) (sizearray t)
                  (replicate (Z.to_nat size) empty_node) size).

(** The functions that insert a key, over the insertion [newkey] to be used. *)
Section Insert.
Variable newkey : table -> tvalue -> LuaM (table * slot).

Definition luaH_set_with (t : table) (key : tvalue) : LuaM (table * slot) :=
  let* p := llift (luaH_get t key) in
  let t := with_flags 0 t in
  match p with
  | Some s => lret (t, s)
  | None =>
      match key with
      | TNil => lerror "table index is nil"
      | TNumber n => if luai_numisnan n then lerror "table index is NaN" else newkey t key
      | _ => newkey t key
      end
  end.

Definition luaH_setnum_with (t : table) (key : Z) : LuaM (table * slot) :=
  let* p := llift (luaH_getnum t key) in
  match p with
  | Some s => lret (t, s)
  | None => newkey t (TNumber (cast_num key))
  end.

(** [for (i=nasize; i<oldasize; i++)], [n] turns. *)
Fixpoint reinsert_array (n : nat) (i : Z) (t : table) : LuaM table :=
  match n with
  | O => lret t
  | S n =>
      let* v := llift (array t !! Z.to_nat i) in
      if ttisnil v then reinsert_array n (i + 1) t
      else
        let* (t, s) := luaH_setnum_with t (i + 1) in
        reinsert_array n (i + 1) (write_slot t s v)
  end.

Fixpoint reinsert_nodes (old : list node_t) (t : table) : LuaM table :=
  match old with
  | [] => lret t
  | n :: old =>
      if ttisnil (gval n) then reinsert_nodes old t
      else
        let* (t, s) := luaH_set_with t (gkey n) in
        reinsert_nodes old (write_slot t s (gval n))
  end.

Definition resize_with (t : table) (nasize nhsize : Z) : LuaM table :=
  let oldasize := sizearray t in
  let nold := node t in
  let t := if oldasize <? nasize then setarrayvector t nasize else t in
  let* t := setnodevector t nhsize in
  let* t :=
    if nasize <? oldasize then
      let t := with_sizearray nasize t in
      let* t := reinsert_array (Z.to_nat (oldasize - nasize)) nasize t in
      lret (with_array (take (Z.to_nat nasize) (array t)) t)
    else lret t in
  reinsert_nodes (rev nold) t.

Definition rehash_with (t : table) (ek : tvalue) : LuaM table :=
  let nums := replicate 27 0 in
  let* (nasize, nums) := llift (numusearray t nums) in
  let totaluse := nasize in
  let* (total, ause, nums) := llift (numusehash t nums) in
  let totaluse := totaluse + total in
  let nasize := nasize + ause in
  let* (c, nums) := llift (countint ek nums) in
  let nasize := nasize + c in
  let totaluse := totaluse + 1 in
  let* (nasize, na) := llift (computesizes nums nasize) in
  resize_with t nasize (totaluse - na).

End Insert.

(** ** Insertion *)

(** [while (t->lastfree-- > t->node) if (ttisnil(gkey(t->lastfree))) return t->lastfree;] *)
Fixpoint getfreepos_loop (fuel : nat) (t : table) : option (table * option nat) :=
  match fuel with
  | O => None
  | S fuel =>
      let old := lastfree t in
      let t := with_lastfree (old - 1) t in
      if 0 <? old then
        n ← node t !! Z.to_nat (old - 1);
        if ttisnil (gkey n) then Some (t, Some (Z.to_nat (old - 1))) else getfreepos_loop fuel t
      else Some (t, None)
  end.

Definition getfreepos (t : table) : option (table * option nat) :=
  getfreepos_loop (S (Z.to_nat (lastfree t))) t.

(** [while (gnext(othern) != mp) othern = gnext(othern);] *)
Fixpoint find_prev (fuel : nat) (ns : list node_t) (othern mp : nat) : option nat :=
  match fuel with
  | O => None
  | S fuel =>
      n ← ns !! othern;
      j ← gnext n;
      if Nat.eqb j mp then Some othern else find_prev fuel ns j mp
  end.

(** The key goes to [mp], whose value is nil. *)
Definition put_key (t : table) (mp : nat) (key : tvalue) : table * slot :=
  (with_node (alter (with_key key) mp (node t)) t, SNode mp).

Fixpoint newkey (fuel : nat) (t : table) (key : tvalue) : LuaM (table * slot) :=
  match fuel with
  | O => None
  | S fuel =>
      let mp := mainposition t key in
      let* nmp := llift (node t !! mp) in
      if negb (ttisnil (gval nmp)) || isdummy t then
        let* (t, n) := llift (getfreepos t) in
        match n with
        | None =>
            let* t := rehash_with (newkey fuel) t key in
            luaH_set_with (newkey fuel) t key
        | Some n =>
            let othern := mainposition t (gkey nmp) in
            if negb (Nat.eqb othern mp) then
              let* prev := llift (find_prev (S (length (node t))) (node t) othern mp) in
              let ns := alter (with_next (Some n)) prev (node t) in
              let* nmp := llift (ns !! mp) in
              let ns := <[n := nmp]> ns in
              let ns := alter (fun m => with_val TNil (with_next None m)) mp ns in
              lret (put_key (with_node ns t) mp key)
            else
              let ns := alter (with_next (gnext nmp)) n (node t) in
              let ns := alter (with_next (Some n)) mp ns in
              lret (put_key (with_node ns t) n key)
        end
      else lret (put_key t mp key)
  end.

(** Two levels are enough: the insertions of a rehash find room
    ([luaH_store_is_map_insert]). *)
Definition luaH_set (t : table) (key : tvalue) : LuaM (table * slot) := luaH_set_with (newkey 2) t key.
Definition luaH_setnum (t : table) (key : Z) : LuaM (table * slot) := luaH_setnum_with (newkey 2) t key.

Definition luaH_setstr (t : table) (key : Z) : LuaM (table * slot) :=
  let* p := llift (luaH_getstr t key) in
  match p with
  | Some s => lret (t, s)
  | None => newkey 2 t (TGC GString key)
  end.

Definition luaH_resizearray (t : table) (nasize : Z) : LuaM table :=
  let nsize := if isdummy t then 0 else sizenode t in
  resize_with (newkey 2) t nasize nsize.

Definition luaH_new (narray nhash : Z) : LuaM table :=
  let t := Table 255 0 true [] 0 [empty_node] 0 in
  setnodevector (setarrayvector t narray) nhash.

(** [setobj2t(L, luaH_set(L, t, key), val)], the way lua_rawset and the virtual
    machine store into a table; and the value a key has. *)
Definition luaH_store (t : table) (key v : tvalue) : LuaM table :=
  let* (t, s) := luaH_set t key in
  lret (write_slot t s v).

Definition luaH_value (t : table) (key : tvalue) : option tvalue :=
  p ← luaH_get t key;
  match p with None => Some TNil | Some s => read_slot t s end.

(** ** Traversal *)
Definition findindex (t : table) (key : tvalue) : LuaM Z :=
  match key with
  | TNil => lret (-1)
  | _ =>
      let i := arrayindex key in
      if (0 <? i) && (i <=? sizearray t) then lret (i - 1)
      else
        let* r := llift (in_chain (fun n =>
          luaO_rawequalObj (gkey n) key ||
          match gkey n, key with TDead p, TGC _ q => p =? q | _, _ => false end) t (mainposition t key)) in
        match r with
        | Some (SNode i) => lret (Z.of_nat i + sizearray t)
        | _ => lerror "invalid key to 'next'"
        end
  end.

(** [for (i++; i < t->sizearray; i++)] on the elements from [i] on. *)
Fixpoint next_array (l : list tvalue) (i : Z) : option (tvalue * tvalue) :=
  match l with
  | [] => None
  | v :: l => if ttisnil v then next_array l (i + 1) else Some (TNumber (cast_num (i + 1)), v)
  end.

Fixpoint next_node (ns : list node_t) : option (tvalue * tvalue) :=
  match ns with
  | [] => None
  | n :: ns => if ttisnil (gval n) then next_node ns else Some (gkey n, gval n)
  end.

Definition luaH_next (t : table) (key : tvalue) : LuaM (option (tvalue * tvalue)) :=
  let* i := findindex t key in
  let i := i + 1 in
  lret (if i <? sizearray t
        then match next_array (take (Z.to_nat (sizearray t - i)) (drop (Z.to_nat i) (array t))) i with
             | Some kv => Some kv
             | None => next_node (node t)
             end
        else next_node (drop (Z.to_nat (i - sizearray t)) (node t))).

(** ** The collector on a table (lgc.c, traversetable)

    The key of a node without a value is marked dead if it is an object; the nodes
    are visited from the last one, [n] of them. *)
Definition removeentry (n : node_t) : node_t :=
  match gkey n with
  | TGC _ p | TDead p => with_key (TDead p) n
  | _ => n
  end.

Fixpoint clear_nodes (n : nat) (ns : list node_t) : list node_t :=
  match n with
  | O => ns
  | S i => clear_nodes i (alter (fun m => if ttisnil (gval m) then removeentry m else m) i ns)
  end.

Definition clear_entries (t : table) : table := with_node (clear_nodes (length (node t)) (node t)) t.

(** ** The length operator *)
Definition nil_at (t : table) (j : Z) : option bool :=
  p ← luaH_getnum t (i32 j);
  match p with None => Some true | Some s => v ← read_slot t s; Some (ttisnil v) end.

(** [while (j - i > 1)], halving. *)
Fixpoint binary_search (fuel : nat) (nil_at : Z -> option bool) (i j : Z) : option Z :=
  if 1 <? j - i then
    match fuel with
    | O => None
    | S fuel =>
        let m := u32 (i + j) / 2 in
        b ← nil_at m;
        if (b : bool) then binary_search fuel nil_at i m else binary_search fuel nil_at m j
    end
  else Some i.

(** [while (!ttisnil(luaH_getnum(t, i))) i++; return i - 1;] *)
Fixpoint linear_search (fuel : nat) (t : table) (i : Z) : option Z :=
  match fuel with
  | O => None
  | S fuel => b ← nil_at t i; if (b : bool) then Some (i - 1) else linear_search fuel t (u32 (i + 1))
  end.

Definition MAX_INT : Z := INT_MAX - 2.
Fixpoint unbound_loop (fuel : nat) (t : table) (i j : Z) : option Z :=
  match fuel with
  | O => None
  | S fuel =>
      b ← nil_at t j;
      if (b : bool) then binary_search 33 (nil_at t) i j
      else
        let i := j in
        let j := u32 (j * 2) in
        if MAX_INT <? j
        then linear_search (S (Z.to_nat (sizearray t) + length (node t))) t 1
        else unbound_loop fuel t i j
  end.

Definition unbound_search (t : table) (j : Z) : option Z := unbound_loop 33 t j (u32 (j + 1)).

Definition luaH_getn (t : table) : option Z :=
  let j := sizearray t in
  last_nil ← (if 0 <? j then v ← array t !! Z.to_nat (j - 1); Some (ttisnil v) else Some false);
  if (last_nil : bool) then
    binary_search 33 (fun m => v ← array t !! Z.to_nat (m - 1); Some (ttisnil v)) 0 j
  else if isdummy t then Some j
  else unbound_search t j.

End Table.
