(* ===== verification/LTableHash.v ===== *)
(** * The node vector of a table: chains and their invariant

    Lemmas on the hash part of LTable.v, over a main-position function. Keys that
    collide are linked through [gnext]; [hash_ok] is the invariant that makes a
    search from the main position complete, and the three ways [newkey] places a
    key preserve it. *)
From stdpp Require Import base list option.
From Stdlib Require Import ZArith Lia.
From S2P Require Import Prelude LObject LTable.
Local Open Scope Z_scope.

Definition live (k : tvalue) : bool := match k with TNil | TDead _ => false | _ => true end.

(** A key a table accepts. *)
Definition proper (k : tvalue) : bool :=
  match k with TNil | TDead _ => false | TNumber n => negb (luai_numisnan n) | _ => true end.

Lemma proper_live k : proper k = true -> live k = true.
Proof. by destruct k. Qed.

Lemma rawequal_refl k : proper k = true -> luaO_rawequalObj k k = true.
Proof.
  destruct k as [|[]| |n| |]; simpl; intros H; try done; try apply Z.eqb_refl.
  - apply luai_numeq_refl. by destruct (luai_numisnan n).
  - by rewrite Z.eqb_refl, bool_decide_true.
Qed.

Lemma rawequal_live k k' : luaO_rawequalObj k k' = true -> live k = live k'.
Proof. by destruct k, k'. Qed.

Lemma rawequal_not_live k k' : proper k = true -> live k' = false -> luaO_rawequalObj k' k = false.
Proof. by destruct k, k'. Qed.

(** ** Chains *)
Fixpoint is_chain (ns : list node_t) (o : option nat) (l : list nat) : Prop :=
  match l with
  | [] => o = None
  | i :: l => o = Some i /\ exists n, ns !! i = Some n /\ is_chain ns (gnext n) l
  end.

Lemma chain_det ns o l l' : is_chain ns o l -> is_chain ns o l' -> l = l'.
Proof.
  revert o l'. induction l as [|i l IH]; intros o [|j l']; simpl.
  - done.
  - by intros -> [? _].
  - by intros [-> _] ?.
  - intros [-> (n & Hn & Hc)] [[= <-] (n' & Hn' & Hc')]. simplify_eq. f_equal. by eapply IH.
Qed.

Lemma chain_suffix ns o l1 i l2 : is_chain ns o (l1 ++ i :: l2) -> is_chain ns (Some i) (i :: l2).
Proof.
  revert o. induction l1 as [|j l1 IH]; intros o; [by intros [-> H]|].
  intros [_ (n & _ & H)]. by eapply IH.
Qed.

Lemma chain_NoDup ns o l : is_chain ns o l -> NoDup l.
Proof.
  revert o. induction l as [|i l IH]; intros o Hc; [constructor|].
  pose proof Hc as [-> (n & Hn & Hl)]. constructor; [|by eapply IH].
  intros (l1 & l2 & ->)%list_elem_of_split.
  pose proof (chain_suffix ns (Some i) (i :: l1) i l2 Hc) as H'.
  pose proof (chain_det _ _ _ _ Hc H') as E. apply (f_equal length) in E.
  simpl in E. rewrite length_app in E. simpl in E. lia.
Qed.

Lemma chain_lt ns o l : is_chain ns o l -> Forall (fun i => i < length ns)%nat l.
Proof.
  revert o. induction l as [|i l IH]; intros o; [by constructor|].
  intros [_ (n & Hn & Hc)]. constructor; [by eapply lookup_lt_Some|by eapply IH].
Qed.

Lemma is_chain_length ns o l : is_chain ns o l -> (length l <= length ns)%nat.
Proof.
  intros Hc. rewrite <- (length_seq (length ns) 0). apply submseteq_length.
  apply NoDup_submseteq; [by eapply chain_NoDup|]. intros i Hi.
  pose proof (proj1 (Forall_forall _ _) (chain_lt _ _ _ Hc) i Hi). apply elem_of_seq. simpl in *. lia.
Qed.

(** A chain is carried along by a renaming of its nodes that keeps the links. *)
Lemma chain_map (f : nat -> nat) ns ns' o l :
  (forall i m, i ∈ l -> ns !! i = Some m ->
     exists m', ns' !! f i = Some m' /\ gnext m' = f <$> gnext m) ->
  is_chain ns o l -> is_chain ns' (f <$> o) (f <$> l).
Proof.
  revert o. induction l as [|i l IH]; intros o Hf; simpl; [by intros ->|].
  intros [-> (n & Hn & Hc)]. split; [done|].
  destruct (Hf i n) as (m' & Hm' & Hg); [by left|done|]. exists m'. split; [done|].
  rewrite Hg. apply IH; [|done]. intros j m Hj. apply Hf. by right.
Qed.

Lemma chain_same_next ns ns' o l :
  (forall i m, ns !! i = Some m -> exists m', ns' !! i = Some m' /\ gnext m' = gnext m) ->
  is_chain ns o l -> is_chain ns' o l.
Proof.
  intros H Hc. rewrite <- (option_fmap_id o), <- (list_fmap_id l). apply (chain_map id ns); [|done].
  intros i m _ Hi. rewrite option_fmap_id. by apply H.
Qed.

(** ** Search in a chain *)
Fixpoint first_match (f : node_t -> bool) (ns : list node_t) (l : list nat) : option nat :=
  match l with
  | [] => None
  | i :: l => match ns !! i with Some n => if f n then Some i else first_match f ns l | None => None end
  end.

Lemma find_chain_spec fuel f ns i l :
  is_chain ns (Some i) l -> (length l <= fuel)%nat -> find_chain fuel f ns i = Some (first_match f ns l).
Proof.
  revert i l. induction fuel as [|fuel IH]; intros i [|i' l]; simpl; try done; try lia.
  intros [[= <-] (n & Hn & Hc)] Hl. rewrite Hn. cbn [mbind option_bind]. destruct (f n); [done|].
  destruct (gnext n) as [j|] eqn:Hg.
  - apply IH; [done|lia].
  - destruct l; [done|]. by destruct Hc.
Qed.

Lemma first_match_Some f ns o l i :
  is_chain ns o l -> first_match f ns l = Some i -> i ∈ l /\ exists n, ns !! i = Some n /\ f n = true.
Proof.
  revert o. induction l as [|j l IH]; intros o; simpl; [done|].
  intros [-> (n & Hn & Hc)]. rewrite Hn. destruct (f n) eqn:Hf.
  - intros [= <-]. split; [by left|]. eauto.
  - intros H. destruct (IH _ Hc H) as [Hi Hex]. split; [by right|done].
Qed.

Lemma first_match_None f ns o l i n :
  is_chain ns o l -> first_match f ns l = None -> i ∈ l -> ns !! i = Some n -> f n = false.
Proof.
  revert o. induction l as [|j l IH]; intros o; simpl; [by intros _ _ ?%elem_of_nil|].
  intros [-> (m & Hm & Hc)]. rewrite Hm. destruct (f m) eqn:Hf; [done|].
  intros H [->|Hi]%elem_of_cons Hn; [by simplify_eq|by eapply IH].
Qed.

Lemma first_match_ext f g ns l :
  (forall i n, ns !! i = Some n -> f n = g n) -> first_match f ns l = first_match g ns l.
Proof.
  intros H. induction l as [|i l IH]; [done|]. simpl. destruct (ns !! i) as [n|] eqn:E; [|done].
  by rewrite (H i n E), IH.
Qed.

Lemma find_prev_spec fuel ns o l p :
  is_chain ns (Some o) l -> p ∈ l -> o <> p -> (length l <= fuel)%nat ->
  exists q m, find_prev fuel ns o p = Some q /\ q ∈ l /\ ns !! q = Some m /\ gnext m = Some p.
Proof.
  revert o l. induction fuel as [|fuel IH]; intros o [|o' l]; simpl; try done; try lia.
  intros [[= <-] (n & Hn & Hc)] [->|Hp]%elem_of_cons Hne Hl; [done|].
  rewrite Hn. cbn [mbind option_bind]. destruct l as [|j l]; [by apply elem_of_nil in Hp|].
  pose proof Hc as [Hg _]. rewrite Hg. cbn [mbind option_bind]. destruct (Nat.eqb_spec j p) as [->|Hjp].
  - exists o, n. split; [done|]. split; [by left|]. done.
  - rewrite Hg in Hc. destruct (IH j (j :: l) Hc Hp Hjp ltac:(simpl in *; lia)) as (q & m & -> & Hq & Hm).
    exists q, m. split; [done|]. split; [by right|done].
Qed.

(** ** The invariant *)
Section Hash.
Variable main : tvalue -> nat.

Record hash_ok (ns : list node_t) : Prop := {
  (* a node without a key is in no chain *)
  h_nil i n : ns !! i = Some n -> gkey n = TNil ->
    gval n = TNil /\ gnext n = None /\ forall j m, ns !! j = Some m -> gnext m <> Some i;
  h_dead i n : ns !! i = Some n -> live (gkey n) = false -> gval n = TNil;
  h_key i n : ns !! i = Some n -> live (gkey n) = true -> proper (gkey n) = true;
  (* chains end, and no two nodes have the same successor *)
  h_chain i : (i < length ns)%nat -> exists l, is_chain ns (Some i) l;
  h_inj i j m n k : ns !! i = Some m -> ns !! j = Some n -> gnext m = Some k -> gnext n = Some k -> i = j;
  (* a key is in the chain of its main position *)
  h_reach i n : ns !! i = Some n -> live (gkey n) = true ->
    exists l, is_chain ns (Some (main (gkey n))) l /\ i ∈ l;
  (* a node at the main position of some key is in its own main position *)
  h_main i n : ns !! i = Some n -> live (gkey n) = true ->
    exists m, ns !! main (gkey n) = Some m /\ gkey m <> TNil /\
      (live (gkey m) = true -> main (gkey m) = main (gkey n));
  h_uniq i j m n : ns !! i = Some m -> ns !! j = Some n -> i <> j ->
    live (gkey m) = true -> luaO_rawequalObj (gkey m) (gkey n) = false }.

(** The hash part maps [k] to the non-nil value [v]. *)
Definition hentry (ns : list node_t) (k v : tvalue) : Prop :=
  exists i n, ns !! i = Some n /\ luaO_rawequalObj (gkey n) k = true /\ gval n = v.

Definition absent (ns : list node_t) (k : tvalue) : Prop :=
  forall i n, ns !! i = Some n -> luaO_rawequalObj (gkey n) k = false.

(** Nodes that hold a key. *)
Definition has_key (n : node_t) : bool := negb (ttisnil (gkey n)).
Definition used (ns : list node_t) : nat := length (List.filter has_key ns).

Lemma proper_has_key v k o : proper k = true -> has_key (Node v k o) = true.
Proof. by destruct k. Qed.

(** What an insertion of the key [K] at node [s] does. *)
Record inserted (ns ns' : list node_t) (K : tvalue) (s : nat) : Prop := {
  ins_ok : hash_ok ns';
  ins_len : length ns' = length ns;
  ins_slot : exists m, ns' !! s = Some m /\ gkey m = K /\ gval m = TNil;
  ins_keys i n : ns' !! i = Some n -> gkey n = K \/ exists j m, ns !! j = Some m /\ gkey m = gkey n;
  ins_entry k v : v <> TNil -> hentry ns' k v <-> hentry ns k v;
  ins_used : exists x, forall i n n', ns !! i = Some n -> ns' !! i = Some n' ->
    (has_key n = true -> has_key n' = true) /\ (i <> x -> has_key n = has_key n') }.

Section Place.
Variable ns : list node_t.
Variable K : tvalue.
Variable np : node_t.
Hypothesis Hok : hash_ok ns.
Hypothesis HK : proper K = true.
Hypothesis Habs : absent ns K.
Let p : nat := main K.
Hypothesis Hp : ns !! p = Some np.

Lemma nil_not_in_chain i n nn l :
  ns !! n = Some nn -> gkey nn = TNil -> is_chain ns (Some i) l -> i <> n -> n ∉ l.
Proof.
  intros Hn Hk. revert i. induction l as [|j l IH]; intros i; simpl; [by intros _ _ ?%elem_of_nil|].
  intros [[= <-] (m & Hm & Hc)] Hin [->|Hj]%elem_of_cons; [done|].
  destruct (gnext m) as [k|] eqn:Hg.
  - apply (IH k); try done. intros ->. by apply (proj2 (proj2 (h_nil ns Hok n nn Hn Hk)) _ _ Hm).
  - destruct l; [by apply elem_of_nil in Hj|]. by destruct Hc.
Qed.

Lemma absent_uniq i n : ns !! i = Some n -> luaO_rawequalObj K (gkey n) = false.
Proof. intros Hi. rewrite rawequal_sym. by eapply Habs. Qed.

(** The main position has a nil value: the key goes there. *)
Lemma place_main : gval np = TNil -> inserted ns (alter (with_key K) p ns) K p.
Proof.
  intros Hv. set (ns' := alter (with_key K) p ns).
  assert (Hpp : ns' !! p = Some (with_key K np)) by (unfold ns'; by rewrite list_lookup_alter_eq, Hp).
  assert (Hne : forall i, i <> p -> ns' !! i = ns !! i) by (intros; unfold ns'; by rewrite list_lookup_alter_ne).
  assert (Hinv : forall i n, ns' !! i = Some n -> (i = p /\ n = with_key K np) \/ (i <> p /\ ns !! i = Some n)).
  { intros i n Hi. destruct (decide (i = p)) as [->|]; [left; split; congruence|right; split; [done|]]. by rewrite <- Hne. }
  assert (Hch : forall o l, is_chain ns o l -> is_chain ns' o l).
  { intros o l. apply chain_same_next. intros i m Hi. destruct (decide (i = p)) as [->|].
    - exists (with_key K np). simplify_eq. done.
    - exists m. by rewrite Hne. }
  assert (Hnx : forall i n, ns' !! i = Some n -> exists m, ns !! i = Some m /\ gnext m = gnext n).
  { intros i n [[-> ->]|[_ Hi]]%Hinv; eauto. }
  split.
  - split.
    + intros i n [[-> ->]|[Hip Hi]]%Hinv Hk; [by simpl in Hk; subst K|].
      destruct (h_nil ns Hok i n Hi Hk) as (? & ? & Hpred). split; [done|]. split; [done|].
      intros j m (m' & Hm' & <-)%Hnx. by eapply Hpred.
    + intros i n [[-> ->]|[_ Hi]]%Hinv Hl; [done|]. by eapply h_dead.
    + intros i n [[-> ->]|[_ Hi]]%Hinv Hl; [done|]. by eapply h_key.
    + intros i Hi. unfold ns' in Hi. rewrite length_alter in Hi. destruct (h_chain ns Hok i Hi) as [l Hl]. eauto.
    + intros i j m n k (m' & Hm' & <-)%Hnx (n' & Hn' & <-)%Hnx. by eapply h_inj.
    + intros i n [[-> ->]|[_ Hi]]%Hinv Hl.
      * cbn [gkey with_key]. destruct (h_chain ns Hok p) as [l Hc]; [by eapply lookup_lt_Some|].
        exists l. split; [by apply Hch|]. destruct l; [done|]. destruct Hc as [[= <-] _]. by left.
      * destruct (h_reach ns Hok i n Hi Hl) as (l & Hc & Hin). eauto.
    + intros i n [[-> ->]|[_ Hi]]%Hinv Hl.
      * cbn [gkey with_key]. exists (with_key K np). split; [done|]. split; [by intros E; simpl in E; subst K|done].
      * destruct (h_main ns Hok i n Hi Hl) as (m & Hm & Hnn & Hmm). destruct (decide (main (gkey n) = p)) as [E|E].
        -- exists (with_key K np). rewrite E. split; [done|]. split; [by intros E'; simpl in E'; subst K|done].
        -- exists m. by rewrite Hne.
    + intros i j m n [[-> ->]|[_ Hi]]%Hinv [[-> ->]|[_ Hj]]%Hinv Hij Hl; [done|..].
      * by eapply absent_uniq.
      * by eapply Habs.
      * by eapply h_uniq.
  - unfold ns'. apply length_alter.
  - eauto.
  - intros i n [[-> ->]|[_ Hi]]%Hinv; [by left|right; eauto].
  - intros k v Hv'. split; intros (i & n & Hi & He & Hval).
    + apply Hinv in Hi as [[-> ->]|[_ Hi]]; [by simpl in Hval; congruence|]. by exists i, n.
    + exists i, n. rewrite Hne; [done|]. intros ->. congruence.
  - exists p. intros i n n' Hi [[-> ->]|[Hip Hi']]%Hinv; [|by simplify_eq].
    split; [|done]. intros _. by apply proper_has_key.
Qed.

(** The other two cases use a free node. *)
Section Free.
Variable n : nat.
Variable nn : node_t.
Hypothesis Hn : ns !! n = Some nn.
Hypothesis Hfree : gkey nn = TNil.
Hypothesis Hv : gval np <> TNil.

Lemma free_ne_main : n <> p.
Proof. intros ->. simplify_eq. by destruct (h_nil ns Hok p np Hp Hfree). Qed.

Lemma free_no_pred j m : ns !! j = Some m -> gnext m <> Some n.
Proof. apply (h_nil ns Hok n nn Hn Hfree). Qed.

Lemma np_live : live (gkey np) = true.
Proof.
  destruct (live (gkey np)) eqn:E; [done|]. by rewrite (h_dead ns Hok p np Hp E) in Hv.
Qed.

(** The free node is nobody's main position. *)
Lemma free_not_main i m : ns !! i = Some m -> live (gkey m) = true -> main (gkey m) <> n.
Proof. intros Hi Hl E. destruct (h_main ns Hok i m Hi Hl) as (m' & Hm' & Hne & _). congruence. Qed.

Lemma not_self_next i m : ns !! i = Some m -> gnext m <> Some i.
Proof.
  intros Hi Hg. destruct (h_chain ns Hok i) as [l Hc]; [by eapply lookup_lt_Some|].
  destruct l as [|i' l]; [done|]. pose proof Hc as [[= <-] (m' & Hm' & Hc')]. simplify_eq.
  rewrite Hg in Hc'. pose proof (chain_det _ _ _ _ Hc Hc') as E.
  apply (f_equal length) in E. simpl in E. lia.
Qed.

(** [mp] is in its own main position: the key goes to the free node, behind [mp]. *)
Definition behind : list node_t :=
  alter (with_key K) n (alter (with_next (Some n)) p (alter (with_next (gnext np)) n ns)).

Fixpoint add_behind (l : list nat) : list nat :=
  match l with
  | [] => []
  | i :: l => if decide (i = p) then p :: n :: add_behind l else i :: add_behind l
  end.

Lemma behind_lookup i m : behind !! i = Some m ->
  (i = p /\ m = with_next (Some n) np) \/
  (i = n /\ m = Node TNil K (gnext np)) \/
  (i <> p /\ i <> n /\ ns !! i = Some m).
Proof.
  pose proof free_ne_main as Hne. unfold behind. intros H.
  destruct (decide (i = p)) as [->|Hip].
  - rewrite list_lookup_alter_ne, list_lookup_alter_eq, list_lookup_alter_ne, Hp in H by congruence. left. simpl in H. split; congruence.
  - destruct (decide (i = n)) as [->|Hin]; [|rewrite !list_lookup_alter_ne in H by congruence; by right; right].
    rewrite list_lookup_alter_eq, list_lookup_alter_ne, list_lookup_alter_eq, Hn in H by congruence.
    right. left. split; [done|]. simplify_eq/=. unfold with_key, with_next. simpl.
    by destruct (h_nil ns Hok n nn Hn Hfree) as [-> _].
Qed.

Lemma behind_p : behind !! p = Some (with_next (Some n) np).
Proof.
  pose proof free_ne_main. unfold behind.
  by rewrite list_lookup_alter_ne, list_lookup_alter_eq, list_lookup_alter_ne, Hp by congruence.
Qed.

Lemma behind_n : behind !! n = Some (Node TNil K (gnext np)).
Proof.
  pose proof free_ne_main as Hne. unfold behind.
  rewrite list_lookup_alter_eq, list_lookup_alter_ne, list_lookup_alter_eq, Hn by congruence. simpl.
  unfold with_key, with_next. simpl. by destruct (h_nil ns Hok n nn Hn Hfree) as [-> _].
Qed.

Lemma behind_other i : i <> p -> i <> n -> behind !! i = ns !! i.
Proof. intros. unfold behind. by rewrite !list_lookup_alter_ne by congruence. Qed.

Lemma behind_chain o l : n ∉ l -> is_chain ns o l -> is_chain behind o (add_behind l).
Proof.
  revert o. induction l as [|i l IH]; intros o Hnl; simpl; [done|].
  intros [-> (m & Hm & Hc)]. apply not_elem_of_cons in Hnl as [Hni Hnl]. case_decide as Hip.
  - subst i. simplify_eq. simpl. split; [done|]. eexists. split; [apply behind_p|]. split; [done|].
    eexists. split; [apply behind_n|]. by apply IH.
  - simpl. split; [done|]. exists m. rewrite behind_other by done. split; [done|]. by apply IH.
Qed.

Lemma elem_add_behind i l : i ∈ l -> i ∈ add_behind l.
Proof.
  induction l as [|j l IH]; simpl; [done|].
  intros [->|Hi]%elem_of_cons; case_decide; subst; rewrite !elem_of_cons; auto.
Qed.

Lemma elem_add_behind_n l : p ∈ l -> n ∈ add_behind l.
Proof.
  induction l as [|j l IH]; simpl; [by intros ?%elem_of_nil|].
  intros [->|Hi]%elem_of_cons; [rewrite decide_True by done; rewrite !elem_of_cons; auto|].
  case_decide; rewrite !elem_of_cons; auto.
Qed.

(** A chain from any node but the free one. *)
Lemma behind_chain_from i : (i < length ns)%nat -> i <> n ->
  exists l, is_chain ns (Some i) l /\ is_chain behind (Some i) (add_behind l).
Proof.
  intros Hi Hin. destruct (h_chain ns Hok i Hi) as [l Hc]. exists l. split; [done|].
  apply behind_chain; [|done]. by eapply nil_not_in_chain.
Qed.

Lemma place_behind : main (gkey np) = p -> inserted ns behind K n.
Proof.
  intros Hmain. pose proof free_ne_main as Hne. pose proof np_live as Hlive.
  assert (HKnil : K <> TNil) by (by intros ->).
  assert (Hlt : (p < length ns)%nat) by (by eapply lookup_lt_Some).
  assert (Hlen : length behind = length ns) by (unfold behind; by rewrite !length_alter).
  split.
  - split.
    + intros i m Hi Hk. apply behind_lookup in Hi as [[-> ->]|[[-> ->]|(Hip & Hin & Hi)]].
      * simpl in Hk. by rewrite Hk in Hlive.
      * by simpl in Hk.
      * destruct (h_nil ns Hok i m Hi Hk) as (? & ? & Hpred). split; [done|]. split; [done|].
        intros j m' [[-> ->]|[[-> ->]|(? & ? & Hj)]]%behind_lookup; simpl; [congruence|by eapply Hpred|by eapply Hpred].
    + intros i m [[-> ->]|[[-> ->]|(? & ? & Hi)]]%behind_lookup Hl; simpl in *; [congruence|done|by eapply h_dead].
    + intros i m [[-> ->]|[[-> ->]|(? & ? & Hi)]]%behind_lookup Hl; simpl in *; [by eapply h_key|done|by eapply h_key].
    + intros i Hi. rewrite Hlen in Hi. destruct (decide (i = n)) as [->|Hin].
      * destruct (behind_chain_from p Hlt ltac:(done)) as (l & Hc & Hc').
        destruct l as [|p' l]; [done|]. destruct Hc as [[= <-] _]. simpl in Hc'. rewrite decide_True in Hc' by done.
        eexists. eapply (chain_suffix _ _ [p]). exact Hc'.
      * destruct (behind_chain_from i Hi Hin) as (l & _ & Hc'). eauto.
    + intros i j m m' k [[-> ->]|[[-> ->]|(? & ? & Hi)]]%behind_lookup
        [[-> ->]|[[-> ->]|(? & ? & Hj)]]%behind_lookup; simpl; intros E1 E2; simplify_eq/=; try done.
      all: first
        [ exfalso; apply (free_no_pred p np Hp); congruence
        | exfalso; apply (free_no_pred j m' Hj); congruence
        | exfalso; apply (free_no_pred i m Hi); congruence
        | by eapply (h_inj ns Hok i j m m' k)
        | assert (p = j) by (by eapply (h_inj ns Hok p j np m' k)); congruence
        | assert (i = p) by (by eapply (h_inj ns Hok i p m np k)); congruence ].
    + intros i m Hi Hl. destruct (decide (i = n)) as [->|Hin].
      * rewrite behind_n in Hi. simplify_eq/=. destruct (behind_chain_from p Hlt ltac:(done)) as (l & Hc & Hc').
        exists (add_behind l). split; [done|]. apply elem_add_behind_n. destruct l; [done|]. destruct Hc as [[= <-] _]. by left.
      * assert (exists m0, ns !! i = Some m0 /\ gkey m0 = gkey m) as (m0 & Hi0 & Hk0).
        { apply behind_lookup in Hi as [[-> ->]|[[-> ->]|(? & ? & Hi)]]; [eauto|done|eauto]. }
        rewrite <- Hk0 in *. destruct (h_reach ns Hok i m0 Hi0 Hl) as (l & Hc & Hil).
        exists (add_behind l). split; [|by apply elem_add_behind].
        apply behind_chain; [|done]. eapply nil_not_in_chain; try done. by eapply free_not_main.
    + assert (Hocc : forall q m0, ns !! q = Some m0 -> q <> n ->
        exists m1, behind !! q = Some m1 /\ gkey m1 = gkey m0).
      { intros q m0 Hq Hqn. destruct (decide (q = p)) as [->|].
        - exists (with_next (Some n) np). rewrite behind_p. simplify_eq. done.
        - exists m0. by rewrite behind_other. }
      intros i m Hi Hl. destruct (decide (i = n)) as [->|Hin].
      * rewrite behind_n in Hi. simplify_eq/=. exists (with_next (Some n) np).
        split; [exact behind_p|]. split; [by intros E; simpl in E; rewrite E in Hlive|done].
      * assert (exists m0, ns !! i = Some m0 /\ gkey m0 = gkey m) as (m0 & Hi0 & Hk0).
        { apply behind_lookup in Hi as [[-> ->]|[[-> ->]|(? & ? & Hi)]]; [eauto|done|eauto]. }
        rewrite <- Hk0 in *. destruct (h_main ns Hok i m0 Hi0 Hl) as (m1 & Hm1 & Hk1 & Hmm).
        destruct (Hocc _ _ Hm1) as (m2 & Hm2 & Hk2); [by eapply free_not_main|].
        exists m2. rewrite Hk2. done.
    + intros i j m m' Hi Hj Hij Hl.
      apply behind_lookup in Hi as [[-> ->]|[[-> ->]|(? & ? & Hi)]];
        apply behind_lookup in Hj as [[-> ->]|[[-> ->]|(? & ? & Hj)]]; simpl in *; try done;
        first [by eapply (h_uniq ns Hok) | by eapply Habs | by eapply absent_uniq].
  - done.
  - eexists. split; [apply behind_n|done].
  - intros i m [[-> ->]|[[-> ->]|(? & ? & Hi)]]%behind_lookup; simpl; eauto.
  - intros k v Hv'. split; intros (i & m & Hi & He & Hval).
    + apply behind_lookup in Hi as [[-> ->]|[[-> ->]|(? & ? & Hi)]]; simpl in *.
      * by exists p, np.
      * congruence.
      * by exists i, m.
    + destruct (decide (i = p)) as [->|]; [|exists i, m; rewrite behind_other; [done|done|]].
      * exists p, (with_next (Some n) np). rewrite behind_p. by simplify_eq.
      * intros ->. simplify_eq. by destruct (h_nil ns Hok n nn Hn Hfree).
  - exists n. intros i m m' Hi [[-> ->]|[[-> ->]|(? & ? & Hi')]]%behind_lookup; simplify_eq; [done| |done].
    split; [|done]. intros _. by apply proper_has_key.
Qed.

(** [mp] holds a key out of its main position: that node moves to the free one,
    its predecessor [prev] is linked to it, and the key takes its place. *)
Section Moved.
Variable prev : nat.
Variable npv : node_t.
Hypothesis Hprev : ns !! prev = Some npv.
Hypothesis Hlink : gnext npv = Some p.
Hypothesis Hout : main (gkey np) <> p.

Definition moved : list node_t :=
  alter (with_key K) p
    (alter (fun m => with_val TNil (with_next None m)) p
      (<[n := np]> (alter (with_next (Some n)) prev ns))).

Lemma prev_ne : prev <> p /\ prev <> n.
Proof.
  split; intros ->.
  - by eapply not_self_next.
  - rewrite Hn in Hprev. injection Hprev as <-. destruct (h_nil ns Hok n nn Hn Hfree) as (_ & E & _). congruence.
Qed.

Lemma moved_p : moved !! p = Some (Node TNil K None).
Proof.
  pose proof free_ne_main. destruct prev_ne. unfold moved.
  rewrite !list_lookup_alter_eq, list_lookup_insert_ne, list_lookup_alter_ne, Hp by congruence. done.
Qed.

Lemma moved_n : moved !! n = Some np.
Proof.
  pose proof free_ne_main. unfold moved. rewrite !list_lookup_alter_ne by congruence.
  apply list_lookup_insert_eq. rewrite length_alter. by eapply lookup_lt_Some.
Qed.

Lemma moved_prev : moved !! prev = Some (with_next (Some n) npv).
Proof.
  destruct prev_ne. unfold moved. rewrite !list_lookup_alter_ne, list_lookup_insert_ne by congruence.
  by rewrite list_lookup_alter_eq, Hprev.
Qed.

Lemma moved_other i : i <> p -> i <> n -> i <> prev -> moved !! i = ns !! i.
Proof.
  intros. unfold moved. by rewrite !list_lookup_alter_ne, list_lookup_insert_ne, list_lookup_alter_ne by congruence.
Qed.

Lemma moved_lookup i m : moved !! i = Some m ->
  (i = p /\ m = Node TNil K None) \/ (i = n /\ m = np) \/
  (i = prev /\ m = with_next (Some n) npv) \/
  (i <> p /\ i <> n /\ i <> prev /\ ns !! i = Some m).
Proof.
  intros H. destruct (decide (i = p)) as [->|]; [left; rewrite moved_p in H; split; congruence|].
  destruct (decide (i = n)) as [->|]; [right; left; rewrite moved_n in H; split; congruence|].
  destruct (decide (i = prev)) as [->|]; [right; right; left; rewrite moved_prev in H; split; congruence|].
  rewrite moved_other in H by done. by do 3 right.
Qed.

(** Every old node, at its new place. *)
Definition redirect (i : nat) : nat := if decide (i = p) then n else i.

Lemma moved_node i m : ns !! i = Some m -> i <> n ->
  exists m', moved !! redirect i = Some m' /\ gkey m' = gkey m /\ gval m' = gval m /\
    gnext m' = redirect <$> gnext m.
Proof.
  intros Hi Hin. unfold redirect at 1. case_decide as Hip.
  - exists np. subst i. rewrite moved_n. assert (m = np) as -> by congruence.
    split; [done|]. split; [done|]. split; [done|]. destruct (gnext np) as [k|] eqn:E; [|done]. simpl. unfold redirect.
    rewrite decide_False; [done|]. intros ->. by eapply not_self_next.
  - destruct (decide (i = prev)) as [->|Hipr].
    + exists (with_next (Some n) npv). rewrite moved_prev. assert (m = npv) as -> by congruence.
      split; [done|]. split; [done|]. split; [done|]. rewrite Hlink. simpl. unfold redirect. by rewrite decide_True.
    + exists m. rewrite moved_other by done. split; [done|]. split; [done|]. split; [done|].
      destruct (gnext m) as [k|] eqn:E; [|done]. simpl. unfold redirect.
      rewrite decide_False; [done|]. intros ->. apply Hipr. by eapply (h_inj ns Hok i prev).
Qed.

Lemma moved_chain i l : is_chain ns (Some i) l -> i <> n -> is_chain moved (Some (redirect i)) (redirect <$> l).
Proof.
  intros Hc Hin. apply (chain_map redirect ns moved (Some i)); [|done].
  intros j m Hj Hm. destruct (moved_node j m Hm) as (m' & ? & _ & _ & ?); [|eauto].
  intros ->. by eapply (nil_not_in_chain i n nn l).
Qed.

Lemma moved_origin i m : moved !! i = Some m -> i <> p ->
  exists j m0, redirect j = i /\ j <> n /\ ns !! j = Some m0 /\ gkey m0 = gkey m /\ gval m0 = gval m.
Proof.
  intros Hi Hip. apply moved_lookup in Hi as [[-> ->]|[[-> ->]|[[-> ->]|(? & ? & ? & Hi)]]]; [done|..].
  - exists p, np. unfold redirect. rewrite decide_True by done. split; [done|]. split; [apply not_eq_sym, free_ne_main|done].
  - exists prev, npv. unfold redirect. destruct prev_ne. by rewrite decide_False.
  - exists i, m. unfold redirect. by rewrite decide_False.
Qed.

(** No old key has its main position at [mp]. *)
Lemma out_not_main i m : ns !! i = Some m -> live (gkey m) = true -> main (gkey m) <> p.
Proof.
  intros Hi Hl E. destruct (h_main ns Hok i m Hi Hl) as (m' & Hm' & _ & Hmm).
  rewrite E, Hp in Hm'. injection Hm' as <-. apply Hout. rewrite <- E. apply Hmm, np_live.
Qed.

Lemma redirect_main i m : ns !! i = Some m -> live (gkey m) = true -> redirect (main (gkey m)) = main (gkey m).
Proof. intros. unfold redirect. rewrite decide_False; [done|by eapply out_not_main]. Qed.

Lemma redirect_inj i j : i <> n -> j <> n -> redirect i = redirect j -> i = j.
Proof. unfold redirect. repeat case_decide; congruence. Qed.

Lemma place_moved : inserted ns moved K p.
Proof.
  pose proof free_ne_main as Hne. destruct prev_ne as [Hpp Hpn]. pose proof np_live as Hlive.
  assert (HKnil : K <> TNil) by (by intros ->).
  assert (Hlen : length moved = length ns) by (unfold moved; by rewrite !length_alter, length_insert, length_alter).
  assert (Hpc : is_chain moved (Some p) [p]).
  { split; [done|]. eexists. split; [apply moved_p|]. done. }
  split.
  - split.
    + intros i m Hi Hk. destruct (decide (i = p)) as [->|Hip].
      { rewrite moved_p in Hi. injection Hi as <-. by simpl in Hk. }
      apply moved_lookup in Hi as [[-> ->]|[[-> ->]|[[-> ->]|(? & ? & ? & Hi)]]]; [done|..].
      * by rewrite Hk in Hlive.
      * simpl in Hk. destruct (h_nil ns Hok prev npv Hprev Hk) as (_ & E & _). congruence.
      * destruct (h_nil ns Hok i m Hi Hk) as (? & ? & Hpred). split; [done|]. split; [done|].
        intros j m' [[-> ->]|[[-> ->]|[[-> ->]|(? & ? & ? & Hj)]]]%moved_lookup; simpl;
          [done|by eapply Hpred|congruence|by eapply Hpred].
    + intros i m Hi Hl. destruct (decide (i = p)) as [->|Hip].
      { rewrite moved_p in Hi. by injection Hi as <-. }
      destruct (moved_origin i m Hi Hip) as (j & m0 & _ & _ & Hj & Hk & <-). rewrite <- Hk in Hl. by eapply h_dead.
    + intros i m Hi Hl. destruct (decide (i = p)) as [->|Hip].
      { rewrite moved_p in Hi. by injection Hi as <-. }
      destruct (moved_origin i m Hi Hip) as (j & m0 & _ & _ & Hj & Hk & _). rewrite <- Hk in *. by eapply h_key.
    + intros i Hi. rewrite Hlen in Hi. destruct (decide (i = p)) as [->|Hip]; [eauto|].
      assert (exists j, j <> n /\ redirect j = i /\ (j < length ns)%nat) as (j & Hjn & <- & Hj).
      { destruct (decide (i = n)) as [->|].
        - exists p. unfold redirect. rewrite decide_True by done.
          split; [congruence|]. split; [done|]. by eapply lookup_lt_Some.
        - exists i. unfold redirect. by rewrite decide_False. }
      destruct (h_chain ns Hok j Hj) as [l Hc]. eexists. by eapply moved_chain.
    + intros i j m m' k Hi Hj E1 E2.
      apply moved_lookup in Hi as [[-> ->]|[[-> ->]|[[-> ->]|(? & ? & ? & Hi)]]];
        apply moved_lookup in Hj as [[-> ->]|[[-> ->]|[[-> ->]|(? & ? & ? & Hj)]]]; simpl in *; try done.
      all: first
        [ exfalso; apply (free_no_pred p np Hp); congruence
        | exfalso; apply (free_no_pred j m' Hj); congruence
        | exfalso; apply (free_no_pred i m Hi); congruence
        | by eapply (h_inj ns Hok i j m m' k)
        | assert (p = j) by (by eapply (h_inj ns Hok p j np m' k)); congruence
        | assert (i = p) by (by eapply (h_inj ns Hok i p m np k)); congruence ].
    + intros i m Hi Hl. destruct (decide (i = p)) as [->|Hip].
      { rewrite moved_p in Hi. injection Hi as <-. exists [p]. split; [done|by left]. }
      destruct (moved_origin i m Hi Hip) as (j & m0 & <- & Hjn & Hj & Hk & _). rewrite <- Hk in *.
      destruct (h_reach ns Hok j m0 Hj Hl) as (l & Hc & Hin). exists (redirect <$> l).
      rewrite <- (redirect_main j m0 Hj Hl). split; [|by apply list_elem_of_fmap_2].
      apply moved_chain; [done|]. by eapply free_not_main.
    + intros i m Hi Hl. destruct (decide (i = p)) as [->|Hip].
      { rewrite moved_p in Hi. injection Hi as <-. eexists. split; [apply moved_p|]. split; done. }
      destruct (moved_origin i m Hi Hip) as (j & m0 & <- & Hjn & Hj & Hk & _). rewrite <- Hk in *.
      destruct (h_main ns Hok j m0 Hj Hl) as (m1 & Hm1 & Hk1 & Hmm).
      destruct (moved_node _ m1 Hm1) as (m2 & Hm2 & Hk2 & _); [by eapply free_not_main|].
      rewrite (redirect_main j m0 Hj Hl) in Hm2. exists m2. by rewrite Hk2.
    + intros i j m m' Hi Hj Hij Hl.
      destruct (decide (i = p)) as [->|Hip], (decide (j = p)) as [->|Hjp]; [done|..].
      * rewrite moved_p in Hi. injection Hi as <-. destruct (moved_origin j m' Hj Hjp) as (j0 & m0 & _ & _ & Hj0 & <- & _).
        by eapply absent_uniq.
      * rewrite moved_p in Hj. injection Hj as <-. destruct (moved_origin i m Hi Hip) as (j0 & m0 & _ & _ & Hj0 & <- & _).
        by eapply Habs.
      * destruct (moved_origin i m Hi Hip) as (i0 & m0 & Ei & Hi0n & Hi0 & Hk & _).
        destruct (moved_origin j m' Hj Hjp) as (j0 & m1 & Ej & Hj0n & Hj0 & <- & _). rewrite <- Hk in *.
        apply (h_uniq ns Hok i0 j0 m0 m1); try done. congruence.
  - done.
  - eexists. split; [apply moved_p|done].
  - intros i m Hi. destruct (decide (i = p)) as [->|Hip].
    + rewrite moved_p in Hi. injection Hi as <-. by left.
    + right. destruct (moved_origin i m Hi Hip) as (j & m0 & _ & _ & Hj & Hk & _). eauto.
  - intros k v Hv'. split; intros (i & m & Hi & He & Hval).
    + destruct (decide (i = p)) as [->|Hip]; [rewrite moved_p in Hi; injection Hi as <-; simpl in Hval; congruence|].
      destruct (moved_origin i m Hi Hip) as (j & m0 & _ & _ & Hj & Hk & Hv0). exists j, m0. by rewrite Hk, Hv0.
    + destruct (moved_node i m Hi) as (m' & Hm' & Hk' & Hv0 & _).
      * intros ->. assert (m = nn) as -> by congruence. by destruct (h_nil ns Hok n nn Hn Hfree) as [? _]; congruence.
      * exists (redirect i), m'. by rewrite Hk', Hv0.
  - exists n. intros i m m' Hi Hm'.
    apply moved_lookup in Hm' as [[-> ->]|[[-> ->]|[[-> ->]|(? & ? & ? & Hm')]]].
    + split; [by intros _; apply proper_has_key|]. intros _. rewrite (proper_has_key _ K) by done.
      assert (m = np) as -> by congruence. unfold has_key. by destruct (gkey np).
    + split; [|done]. intros _. unfold has_key. by destruct (gkey np).
    + assert (m = npv) as -> by congruence. done.
    + by assert (m = m') as -> by congruence.
Qed.

End Moved.
End Free.
End Place.

(** ** Other changes of a node *)

(** A value is stored at a node that has a key. *)
Lemma store_val_ok ns s v n : hash_ok ns -> ns !! s = Some n -> live (gkey n) = true ->
  hash_ok (alter (with_val v) s ns).
Proof.
  intros Hok Hs Hlive.
  assert (Hinv : forall i m, alter (with_val v) s ns !! i = Some m ->
    exists m0, ns !! i = Some m0 /\ gkey m0 = gkey m /\ gnext m0 = gnext m /\ (live (gkey m) = false -> gval m0 = gval m)).
  { intros i m Hi. destruct (decide (i = s)) as [->|Hne].
    - rewrite list_lookup_alter_eq, Hs in Hi. injection Hi as <-. exists n. split; [done|]. cbn. split; [done|].
      split; [done|]. congruence.
    - rewrite list_lookup_alter_ne in Hi by done. eauto. }
  assert (Hfwd : forall i m, ns !! i = Some m -> exists m', alter (with_val v) s ns !! i = Some m' /\
    gkey m' = gkey m /\ gnext m' = gnext m).
  { intros i m Hi. destruct (decide (i = s)) as [->|Hne].
    - exists (with_val v m). by rewrite list_lookup_alter_eq, Hi.
    - exists m. by rewrite list_lookup_alter_ne. }
  assert (Hch : forall o l, is_chain ns o l -> is_chain (alter (with_val v) s ns) o l).
  { intros o l. apply chain_same_next. intros i m Hi. destruct (Hfwd i m Hi) as (m' & ? & _ & ?). eauto. }
  split.
  - intros i m (m0 & Hi & Hk0 & Hn0 & Hv0)%Hinv Hk. rewrite Hk in *.
    destruct (h_nil ns Hok i m0 Hi Hk0) as (Hv & Hx & Hpred). rewrite <- Hv0, <- Hn0 by done.
    split; [done|]. split; [done|]. intros j m' (m1 & Hj & _ & <- & _)%Hinv. by eapply Hpred.
  - intros i m (m0 & Hi & Hk0 & Hn0 & Hv0)%Hinv Hl. rewrite <- Hv0 by done. rewrite <- Hk0 in Hl. by eapply h_dead.
  - intros i m (m0 & Hi & <- & _ & _)%Hinv Hl. by eapply h_key.
  - intros i Hi. rewrite length_alter in Hi. destruct (h_chain ns Hok i Hi) as [l Hc]. eauto.
  - intros i j m m' k (m0 & Hi & _ & <- & _)%Hinv (m1 & Hj & _ & <- & _)%Hinv. by eapply h_inj.
  - intros i m (m0 & Hi & <- & _ & _)%Hinv Hl. destruct (h_reach ns Hok i m0 Hi Hl) as (l & Hc & Hin). eauto.
  - intros i m (m0 & Hi & <- & _ & _)%Hinv Hl. destruct (h_main ns Hok i m0 Hi Hl) as (m1 & Hm1 & Hne & Hmm).
    destruct (Hfwd _ _ Hm1) as (m2 & Hm2 & Hk2 & _). exists m2. by rewrite Hk2.
  - intros i j m m' (m0 & Hi & <- & _ & _)%Hinv (m1 & Hj & <- & _ & _)%Hinv. by eapply h_uniq.
Qed.

Lemma store_val_entry ns s v n k v' : hash_ok ns -> ns !! s = Some n -> live (gkey n) = true ->
  proper k = true ->
  hentry (alter (with_val v) s ns) k v' <->
  (if luaO_rawequalObj (gkey n) k then v' = v else hentry ns k v').
Proof.
  intros Hok Hs Hlive Hk. destruct (luaO_rawequalObj (gkey n) k) eqn:E.
  - split.
    + intros (i & m & Hi & He & Hv). destruct (decide (i = s)) as [->|Hne].
      * rewrite list_lookup_alter_eq, Hs in Hi. injection Hi as <-. by simpl in Hv.
      * rewrite list_lookup_alter_ne in Hi by done.
        assert (luaO_rawequalObj (gkey n) (gkey m) = false) as Hf by (by eapply (h_uniq ns Hok s i)).
        rewrite (rawequal_trans _ k) in Hf; [done|done|]. by rewrite rawequal_sym.
    + intros ->. exists s, (with_val v n). by rewrite list_lookup_alter_eq, Hs.
  - split; intros (i & m & Hi & He & Hv).
    + destruct (decide (i = s)) as [->|Hne].
      * rewrite list_lookup_alter_eq, Hs in Hi. injection Hi as <-. simpl in He. congruence.
      * rewrite list_lookup_alter_ne in Hi by done. by exists i, m.
    + exists i, m. rewrite list_lookup_alter_ne; [done|]. intros ->. congruence.
Qed.

(** The collector kills the key of a node whose value is nil. *)
Lemma kill_key_ok ns s k p : hash_ok ns -> ns !! s = Some (Node TNil k p) -> k <> TNil ->
  forall q, hash_ok (alter (with_key (TDead q)) s ns).
Proof.
  intros Hok Hs Hk q.
  assert (Hinv : forall i m, alter (with_key (TDead q)) s ns !! i = Some m ->
    exists m0, ns !! i = Some m0 /\ gval m0 = gval m /\ gnext m0 = gnext m /\
      (live (gkey m) = true \/ gkey m = TNil -> gkey m0 = gkey m)).
  { intros i m Hi. destruct (decide (i = s)) as [->|Hne].
    - rewrite list_lookup_alter_eq, Hs in Hi. injection Hi as <-. eexists. split; [done|]. cbn. split; [done|].
      split; [done|]. by intros [?|?].
    - rewrite list_lookup_alter_ne in Hi by done. eauto. }
  assert (Hfwd : forall i m, ns !! i = Some m -> exists m', alter (with_key (TDead q)) s ns !! i = Some m' /\
    gnext m' = gnext m /\ (gkey m' = gkey m \/ gkey m' = TDead q)).
  { intros i m Hi. destruct (decide (i = s)) as [->|Hne].
    - exists (with_key (TDead q) m). rewrite list_lookup_alter_eq, Hi. cbn. auto.
    - exists m. rewrite list_lookup_alter_ne; auto. }
  assert (Hch : forall o l, is_chain ns o l -> is_chain (alter (with_key (TDead q)) s ns) o l).
  { intros o l. apply chain_same_next. intros i m Hi. destruct (Hfwd i m Hi) as (m' & ? & ? & _). eauto. }
  split.
  - intros i m (m0 & Hi & <- & <- & Hk0)%Hinv Hkm. rewrite Hkm in Hk0.
    destruct (h_nil ns Hok i m0 Hi) as (Hv & Hx & Hpred); [auto|]. split; [done|]. split; [done|].
    intros j m' (m1 & Hj & _ & <- & _)%Hinv. by eapply Hpred.
  - intros i m Hi Hl. destruct (decide (i = s)) as [->|Hne].
    + rewrite list_lookup_alter_eq, Hs in Hi. by injection Hi as <-.
    + rewrite list_lookup_alter_ne in Hi by done. by eapply h_dead.
  - intros i m (m0 & Hi & _ & _ & Hk0)%Hinv Hl. specialize (Hk0 (or_introl Hl)). rewrite <- Hk0 in *. by eapply h_key.
  - intros i Hi. rewrite length_alter in Hi. destruct (h_chain ns Hok i Hi) as [l Hc]. eauto.
  - intros i j m m' k' (m0 & Hi & _ & <- & _)%Hinv (m1 & Hj & _ & <- & _)%Hinv. by eapply h_inj.
  - intros i m (m0 & Hi & _ & _ & Hk0)%Hinv Hl. specialize (Hk0 (or_introl Hl)). rewrite <- Hk0 in *.
    destruct (h_reach ns Hok i m0 Hi Hl) as (l & Hc & Hin). eauto.
  - intros i m (m0 & Hi & _ & _ & Hk0)%Hinv Hl. specialize (Hk0 (or_introl Hl)). rewrite <- Hk0 in *.
    destruct (h_main ns Hok i m0 Hi Hl) as (m1 & Hm1 & Hne & Hmm).
    destruct (Hfwd _ _ Hm1) as (m2 & Hm2 & _ & [E|E]); exists m2; by rewrite E.
  - intros i j m m' (m0 & Hi & _ & _ & Hk0)%Hinv Hj Hij Hl. specialize (Hk0 (or_introl Hl)). rewrite <- Hk0 in *.
    destruct (decide (j = s)) as [->|Hne].
    + rewrite list_lookup_alter_eq, Hs in Hj. injection Hj as <-. simpl. by destruct (gkey m0).
    + rewrite list_lookup_alter_ne in Hj by done. by eapply (h_uniq ns Hok i j).
Qed.

(** A vector of free nodes. *)
Lemma empty_ok n : hash_ok (replicate n empty_node).
Proof.
  assert (forall i m, replicate n empty_node !! i = Some m -> m = empty_node) as Hr.
  { by intros i m [-> _]%lookup_replicate. }
  split; try (intros i m Hi; apply Hr in Hi as ->; done).
  - intros i m Hi%Hr _. subst m. split; [done|]. split; [done|]. by intros j m ->%Hr.
  - intros i Hi. rewrite length_replicate in Hi. exists [i]. split; [done|]. exists empty_node.
    split; [by apply lookup_replicate_2|done].
  - by intros i j m m' k ->%Hr.
  - intros i j m m' Hi%Hr _ _. by subst m.
Qed.

End Hash.

(** ** Counting the nodes that hold a key *)
Lemma used_le ns : (used ns <= length ns)%nat.
Proof. unfold used. induction ns as [|n ns IH]; simpl; [lia|]. destruct (has_key n); simpl; lia. Qed.

Lemma used_full ns : used ns = length ns -> Forall (fun n => has_key n = true) ns.
Proof.
  induction ns as [|n ns IH]; [constructor|]. unfold used in *. simpl. pose proof (used_le ns). unfold used in *.
  destruct (has_key n) eqn:E; simpl; intros Hl; [constructor; [done|apply IH; lia]|lia].
Qed.

Lemma used_all ns : (forall i n, ns !! i = Some n -> has_key n = true) -> used ns = length ns.
Proof.
  unfold used. induction ns as [|n ns IH]; intros Hall; [done|]. simpl. rewrite (Hall 0%nat n) by done. simpl.
  f_equal. apply IH. intros i. apply (Hall (S i)).
Qed.

Lemma used_same ns ns' :
  length ns' = length ns ->
  (forall i n n', ns !! i = Some n -> ns' !! i = Some n' -> has_key n = has_key n') -> used ns' = used ns.
Proof.
  revert ns'. induction ns as [|n ns IH]; intros [|n' ns'] Hl H; try done. injection Hl as Hl.
  unfold used in *. simpl. rewrite <- (H 0%nat n n') by done.
  assert (length (List.filter has_key ns') = length (List.filter has_key ns)) as E.
  { apply IH; [done|]. intros i. apply (H (S i)). }
  destruct (has_key n); simpl; lia.
Qed.

Lemma used_one ns ns' x :
  length ns' = length ns ->
  (forall i n n', ns !! i = Some n -> ns' !! i = Some n' -> i <> x -> has_key n = has_key n') ->
  (used ns' <= S (used ns))%nat.
Proof.
  revert ns' x. induction ns as [|n ns IH]; intros [|n' ns'] x Hl H; try done; [unfold used; simpl; lia|].
  injection Hl as Hl. destruct x as [|x].
  - assert (used ns' = used ns) as E.
    { apply used_same; [done|]. intros i m m' Hi Hi'. by apply (H (S i)). }
    unfold used in *. simpl. destruct (has_key n), (has_key n'); simpl; lia.
  - assert (used ns' <= S (used ns))%nat as E.
    { apply (IH ns' x Hl). intros i m m' Hi Hi' Hne. apply (H (S i)); [done..|lia]. }
    unfold used in *. simpl. rewrite <- (H 0%nat n n') by done. destruct (has_key n); simpl; lia.
Qed.

Lemma used_empty n : used (replicate n empty_node) = 0%nat.
Proof. by induction n. Qed.
