(* ===== verification/LTableMap.v ===== *)
(** * Tables as finite maps

    The invariant [wf] of a whole table, the value of a key ([tlookup]), and the
    effect of a search, of an insertion that finds room and of a store. *)
From stdpp Require Import base list option.
From Stdlib Require Import ZArith Lia.
From S2P Require Import Prelude LObject LTable LTableHash.
Local Open Scope Z_scope.

(** ** Keys *)
Lemma rawequal_congr a b c : luaO_rawequalObj a b = true -> luaO_rawequalObj c a = luaO_rawequalObj c b.
Proof.
  intros H. destruct (luaO_rawequalObj c a) eqn:Ea, (luaO_rawequalObj c b) eqn:Eb; try done.
  - by rewrite (rawequal_trans c a b) in Eb.
  - rewrite (rawequal_trans c b a) in Ea; [done|done|]. by rewrite rawequal_sym.
Qed.

Lemma rawequal_number k n : luaO_rawequalObj k (TNumber n) = match k with TNumber m => luai_numeq m n | _ => false end.
Proof. by destruct k. Qed.

Lemma rawequal_string k p : luaO_rawequalObj k (TGC GString p) = match k with TGC GString q => q =? p | _ => false end.
Proof. by destruct k as [| | | |[]|]. Qed.

Lemma proper_rawequal k k' : proper k = true -> luaO_rawequalObj k k' = true -> proper k' = true.
Proof.
  destruct k as [| | |n| |], k' as [| | |m| |]; simpl; try done.
  intros _ H. by destruct (luai_numeq_nan n m H) as [_ ->].
Qed.

Lemma proper_cast k : INT_MIN <= k <= INT_MAX -> proper (TNumber (cast_num k)) = true.
Proof. intros H. simpl. by rewrite cast_num_not_nan. Qed.

Lemma arrayindex_cast k : INT_MIN <= k <= INT_MAX -> arrayindex (TNumber (cast_num k)) = k.
Proof.
  intros H. simpl. rewrite number2int_cast by done. rewrite luai_numeq_refl; [done|]. by apply cast_num_not_nan.
Qed.

Lemma arrayindex_rawequal k k' : luaO_rawequalObj k k' = true -> arrayindex k = arrayindex k'.
Proof.
  destruct k as [| | |n| |], k' as [| | |m| |]; simpl; try done. intros H.
  rewrite (number2int_numeq n m H).
  by rewrite (rawequal_congr (TNumber n) (TNumber m) (TNumber (cast_num (lua_number2int m))) H : luai_numeq _ _ = luai_numeq _ _).
Qed.

Lemma arrayindex_range k : INT_MIN <= arrayindex k <= INT_MAX.
Proof.
  destruct k as [| | |n| |]; simpl; try (unfold INT_MIN, INT_MAX; lia).
  destruct (luai_numeq _ _); [apply number2int_range|unfold INT_MIN, INT_MAX; lia].
Qed.

(** A key with an index in the array is the number of that index. *)
Lemma arrayindex_pos k : 0 < arrayindex k -> luaO_rawequalObj k (TNumber (cast_num (arrayindex k))) = true.
Proof.
  destruct k as [| | |n| |]; simpl; try lia. intros H.
  destruct (luai_numeq (cast_num (lua_number2int n)) n) eqn:E; [by rewrite luai_numeq_sym|lia].
Qed.

Section Map.
Variable tsv_hash : Z -> Z.
Abbreviation mainposition := (LTable.mainposition tsv_hash).
Abbreviation luaH_get := (LTable.luaH_get tsv_hash).
Abbreviation newkey := (LTable.newkey tsv_hash).

(** ** The invariant *)
Record wf (t : table) : Prop := {
  wf_size : 0 <= lsizenode t <= MAXBITS;
  wf_len : Z.of_nat (length (node t)) = 2 ^ lsizenode t;
  wf_hash : hash_ok (mainposition t) (node t);
  wf_asize : 0 <= sizearray t <= MAXASIZE;
  wf_array : sizearray t <= Z.of_nat (length (array t));
  (* integer keys of the array part are not in the hash part *)
  wf_range i n : node t !! i = Some n -> live (gkey n) = true -> ~ (0 < arrayindex (gkey n) <= sizearray t);
  (* no free node above lastfree *)
  wf_free : lastfree t <= Z.of_nat (length (node t));
  wf_taken i n : isdummy t = false -> node t !! i = Some n -> lastfree t <= Z.of_nat i -> has_key n = true;
  wf_dummy : isdummy t = true -> node t = [empty_node] /\ lastfree t <= 0 }.

Lemma sizenode_pow t : 0 <= lsizenode t -> sizenode t = 2 ^ lsizenode t.
Proof. intros H. unfold sizenode. rewrite Z.shiftl_mul_pow2 by done. lia. Qed.

Lemma hashpow2_lt t n : 0 <= lsizenode t -> Z.of_nat (hashpow2 t n) < 2 ^ lsizenode t.
Proof.
  intros H. unfold hashpow2. rewrite sizenode_pow by done.
  replace (2 ^ lsizenode t - 1) with (Z.ones (lsizenode t)) by (rewrite Z.ones_equiv; lia).
  rewrite Z.land_ones by done. pose proof (Z.mod_pos_bound n (2 ^ lsizenode t)). pose proof (Z.pow_pos_nonneg 2 (lsizenode t)). lia.
Qed.

Lemma hashmod_lt t n : 0 <= lsizenode t -> Z.of_nat (hashmod t n) < 2 ^ lsizenode t.
Proof.
  intros H. unfold hashmod. rewrite sizenode_pow by done.
  destruct (decide (lsizenode t = 0)) as [->|Hne]; [change (Z.lor (2 ^ 0 - 1) 1) with 1; rewrite Z.mod_1_r; done|].
  assert (Z.lor (2 ^ lsizenode t - 1) 1 = 2 ^ lsizenode t - 1) as ->.
  { replace (2 ^ lsizenode t - 1) with (Z.ones (lsizenode t)) by (rewrite Z.ones_equiv; lia).
    apply Z.bits_inj'. intros i Hi. rewrite Z.lor_spec. change 1 with (Z.ones 1).
    rewrite !Z.testbit_ones by lia.
    destruct (Z.ltb_spec i (lsizenode t)), (Z.ltb_spec i 1), (Z.leb_spec 0 i); simpl; try done; lia. }
  assert (2 <= 2 ^ lsizenode t) by (apply (Z.pow_le_mono_r 2 1); lia).
  pose proof (Z.mod_pos_bound n (2 ^ lsizenode t - 1) ltac:(lia)). lia.
Qed.

Lemma main_lt t k : wf t -> (mainposition t k < length (node t))%nat.
Proof.
  intros Hwf. pose proof (wf_len t Hwf). destruct (wf_size t Hwf) as [H0 _].
  assert (Z.of_nat (mainposition t k) < 2 ^ lsizenode t); [|lia].
  destruct k as [|[]| |n|[]|]; simpl; try apply hashmod_lt; try apply hashpow2_lt; try done.
  unfold hashnum. destruct (luai_numeq n 0); [|by apply hashmod_lt]. pose proof (Z.pow_pos_nonneg 2 (lsizenode t)). lia.
Qed.

Lemma main_rawequal t k k' : luaO_rawequalObj k k' = true -> mainposition t k = mainposition t k'.
Proof.
  destruct k as [|[]| |n|[]|], k' as [|[]| |m|[]|]; simpl; try done;
    try (intros ->%Z.eqb_eq; done).
  intros H. unfold hashnum.
  assert (luai_numeq n 0 = luai_numeq m 0) as ->.
  { rewrite (luai_numeq_sym n), (luai_numeq_sym m). exact (rawequal_congr (TNumber n) (TNumber m) (TNumber 0) H). }
  destruct (luai_numeq m 0) eqn:E; [done|].
  destruct (luai_numeq_cases n m H) as [->|[_ Hm]]; [done|]. exfalso.
  destruct (luai_numeq_nan n m H) as [_ Hnan]. unfold luai_numeq in E. rewrite Hnan, Hm in E. simpl in E.
  by rewrite orb_true_r in E.
Qed.

(** ** Search *)
Definition in_array (t : table) (k : tvalue) : Prop := 0 < arrayindex k <= sizearray t.

#[local] Instance in_array_dec t k : Decision (in_array t k).
Proof. unfold in_array. apply _. Defined.

(** The answer of a search in the hash part. *)
Definition search_result (t : table) (k : tvalue) (r : option nat) : Prop :=
  match r with
  | Some i => exists n, node t !! i = Some n /\ luaO_rawequalObj (gkey n) k = true
  | None => absent (node t) k
  end.

Lemma in_chain_spec t k f i : wf t -> proper k = true ->
  (forall n, f n = luaO_rawequalObj (gkey n) k) -> i = mainposition t k ->
  exists r, in_chain f t i = Some (SNode <$> r) /\ search_result t k r.
Proof.
  intros Hwf Hk Hf ->. unfold in_chain.
  destruct (h_chain _ _ (wf_hash t Hwf) _ (main_lt t k Hwf)) as [l Hc].
  rewrite (find_chain_spec _ f (node t) _ l Hc) by (pose proof (is_chain_length _ _ _ Hc); lia).
  cbn [mbind option_bind]. eexists. split; [reflexivity|].
  destruct (first_match f (node t) l) as [i|] eqn:E; simpl.
  - destruct (first_match_Some f _ _ _ _ Hc E) as (_ & n & Hn & Hfn). exists n. by rewrite <- Hf.
  - intros i n Hn. destruct (luaO_rawequalObj (gkey n) k) eqn:Eq; [|done]. exfalso.
    assert (live (gkey n) = true) as Hl by (rewrite (rawequal_live _ _ Eq); by apply proper_live).
    destruct (h_reach _ _ (wf_hash t Hwf) i n Hn Hl) as (l' & Hc' & Hi).
    rewrite (main_rawequal t _ _ Eq) in Hc'. rewrite (chain_det _ _ _ _ Hc' Hc) in Hi.
    pose proof (first_match_None f _ _ _ _ _ Hc E Hi Hn) as Hfalse. rewrite Hf in Hfalse. congruence.
Qed.

Lemma getnum_spec t k : wf t -> INT_MIN <= k <= INT_MAX ->
  if decide (0 < k <= sizearray t) then luaH_getnum t k = Some (Some (SArray (Z.to_nat (k - 1))))
  else exists r, luaH_getnum t k = Some (SNode <$> r) /\ search_result t (TNumber (cast_num k)) r.
Proof.
  intros Hwf Hk. unfold luaH_getnum. destruct (wf_asize t Hwf) as [H0 Hmax]. change MAXASIZE with 67108864 in Hmax.
  unfold INT_MIN, INT_MAX in Hk. rewrite (uwrap_small 32 (sizearray t)) by lia.
  case_decide as Hin.
  - rewrite uwrap_small by lia. by rewrite (proj2 (Z.ltb_lt _ _)) by lia.
  - assert ((u32 (k - 1) <? sizearray t) = false) as ->.
    { apply Z.ltb_ge. destruct (decide (1 <= k)); [rewrite uwrap_small by lia; lia|].
      unfold uwrap. assert ((k - 1) mod 2 ^ 32 = k - 1 + 2 ^ 32) as ->; [|lia].
      symmetry. apply (Z.mod_unique _ _ (-1)); lia. }
    apply in_chain_spec; [done|by apply proper_cast| |done]. intros n. by rewrite rawequal_number.
Qed.

Lemma get_spec t k : wf t -> proper k = true ->
  if decide (in_array t k) then luaH_get t k = Some (Some (SArray (Z.to_nat (arrayindex k - 1))))
  else exists r, luaH_get t k = Some (SNode <$> r) /\ search_result t k r.
Proof.
  intros Hwf Hk. case_decide as Hin; unfold in_array in Hin; destruct k as [|b|p|n|ty p|p]; try done; simpl in Hin; try lia.
  - simpl. destruct (luai_numeq (cast_num (lua_number2int n)) n) eqn:E; [|lia].
    pose proof (getnum_spec t _ Hwf (number2int_range n)) as H. by rewrite decide_True in H.
  - apply in_chain_spec; done.
  - apply in_chain_spec; done.
  - simpl. destruct (luai_numeq (cast_num (lua_number2int n)) n) eqn:E; [|apply in_chain_spec; done].
    pose proof (getnum_spec t _ Hwf (number2int_range n)) as H. rewrite decide_False in H by done.
    destruct H as (r & -> & Hr). exists r. split; [done|]. destruct r as [i|]; simpl in *.
    + destruct Hr as (m & Hm & He). exists m. split; [done|]. by eapply rawequal_trans.
    + intros i m Hi. rewrite <- (rawequal_congr (TNumber (cast_num (lua_number2int n))) (TNumber n) _ E). by eapply Hr.
  - destruct ty; try (apply in_chain_spec; done). apply in_chain_spec; try done. intros m. by rewrite rawequal_string.
Qed.

(** ** The value of a key *)
Definition tlookup (t : table) (k : tvalue) : tvalue := default TNil (luaH_value tsv_hash t k).

(** [k] has the non-nil value [v]. *)
Definition tentry (t : table) (k v : tvalue) : Prop :=
  if decide (in_array t k) then array t !! Z.to_nat (arrayindex k - 1) = Some v else hentry (node t) k v.

Lemma luaH_value_total t k : wf t -> proper k = true -> luaH_value tsv_hash t k = Some (tlookup t k).
Proof.
  intros Hwf Hk. unfold tlookup, luaH_value. pose proof (get_spec t k Hwf Hk) as H. case_decide as Hin.
  - rewrite H. cbn [mbind option_bind read_slot].
    destruct (lookup_lt_is_Some_2 (array t) (Z.to_nat (arrayindex k - 1))) as [v ->]; [|done].
    pose proof (wf_array t Hwf). unfold in_array in Hin. lia.
  - destruct H as (r & -> & Hr). cbn [mbind option_bind]. destruct r as [i|]; [|done]. simpl.
    destruct Hr as (n & -> & _). done.
Qed.

Lemma tlookup_entry t k v : wf t -> proper k = true -> v <> TNil -> tlookup t k = v <-> tentry t k v.
Proof.
  intros Hwf Hk Hv. unfold tlookup, luaH_value, tentry. pose proof (get_spec t k Hwf Hk) as H. case_decide as Hin.
  - rewrite H. cbn [mbind option_bind read_slot].
    destruct (array t !! _) as [v'|] eqn:E; simpl; split; congruence.
  - destruct H as (r & -> & Hr). cbn [mbind option_bind]. destruct r as [i|]; simpl.
    + destruct Hr as (n & Hn & He). rewrite Hn. simpl. split.
      * intros <-. by exists i, n.
      * intros (j & m & Hm & He' & <-). destruct (decide (i = j)) as [->|Hij]; [congruence|].
        assert (live (gkey n) = true) as Hl by (rewrite (rawequal_live _ _ He); by apply proper_live).
        pose proof (h_uniq _ _ (wf_hash t Hwf) i j n m Hn Hm Hij Hl) as Hf.
        rewrite (rawequal_trans _ k) in Hf; [done|done|]. by rewrite rawequal_sym.
    + split; [congruence|]. intros (j & m & Hm & He' & _). rewrite (Hr j m Hm) in He'. done.
Qed.

Lemma tlookup_ext t t' k k' : wf t -> wf t' -> proper k = true -> proper k' = true ->
  (forall v, v <> TNil -> tentry t k v <-> tentry t' k' v) -> tlookup t k = tlookup t' k'.
Proof.
  intros Hwf Hwf' Hk Hk' H.
  assert (forall v, v <> TNil -> tlookup t k = v <-> tlookup t' k' = v) as H'.
  { intros v Hv. rewrite !tlookup_entry by done. by apply H. }
  destruct (decide (tlookup t k = TNil)) as [E|E].
  - destruct (decide (tlookup t' k' = TNil)) as [E'|E']; [congruence|]. by apply (H' _ E').
  - symmetry. by apply (H' _ E).
Qed.

Lemma hentry_rawequal ns k k' v : luaO_rawequalObj k k' = true -> hentry ns k v <-> hentry ns k' v.
Proof.
  intros H. split; intros (i & n & Hi & He & Hv); exists i, n; (split; [done|]); (split; [|done]).
  - by rewrite <- (rawequal_congr k k').
  - by rewrite (rawequal_congr k k').
Qed.

Lemma in_array_rawequal t k k' : luaO_rawequalObj k k' = true -> in_array t k <-> in_array t k'.
Proof. intros H. unfold in_array. by rewrite (arrayindex_rawequal k k' H). Qed.

Lemma tlookup_rawequal t k k' : wf t -> proper k = true -> luaO_rawequalObj k k' = true -> tlookup t k = tlookup t k'.
Proof.
  intros Hwf Hk H. apply tlookup_ext; try done; [by eapply proper_rawequal|].
  intros v Hv. unfold tentry. pose proof (in_array_rawequal t k k' H). rewrite (arrayindex_rawequal k k' H).
  repeat case_decide; try tauto. by apply hentry_rawequal.
Qed.

(** ** Insertion of a new key *)
Lemma getfreepos_loop_spec fuel t :
  (Z.to_nat (lastfree t) < fuel)%nat ->
  lastfree t <= Z.of_nat (length (node t)) ->
  (forall i m, node t !! i = Some m -> lastfree t <= Z.of_nat i -> has_key m = true) ->
  exists L r, getfreepos_loop fuel t = Some (with_lastfree L t, r) /\ L <= Z.of_nat (length (node t)) /\
    match r with
    | Some n => L = Z.of_nat n /\ (exists nn, node t !! n = Some nn /\ gkey nn = TNil) /\
        forall i m, node t !! i = Some m -> L < Z.of_nat i -> has_key m = true
    | None => forall i m, node t !! i = Some m -> has_key m = true
    end.
Proof.
  revert t. induction fuel as [|fuel IH]; intros t Hf Hl Hk; [lia|]. cbn [getfreepos_loop].
  destruct (Z.ltb_spec 0 (lastfree t)) as [Hpos|Hpos].
  - cbn [node with_lastfree].
    destruct (lookup_lt_is_Some_2 (node t) (Z.to_nat (lastfree t - 1))) as [m Hm]; [lia|].
    rewrite Hm. cbn [mbind option_bind]. destruct (ttisnil (gkey m)) eqn:Enil.
    + eexists _, _. split; [reflexivity|]. split; [lia|]. split; [lia|]. split.
      * exists m. split; [done|]. by destruct (gkey m).
      * intros i m' Hi Hlt. apply (Hk i m' Hi). lia.
    + destruct (IH (with_lastfree (lastfree t - 1) t)) as (L & r & -> & HL & Hr); cbn [lastfree node with_lastfree];
        [lia|lia| |exists L, r; done].
      intros i m' Hi Hle. destruct (decide (lastfree t <= Z.of_nat i)) as [?|?]; [by eapply Hk|].
      assert (Z.to_nat (lastfree t - 1) = i) as E by lia. rewrite E in Hm. rewrite Hm in Hi. injection Hi as <-.
      unfold has_key. by rewrite Enil.
  - eexists _, _. split; [reflexivity|]. split; [lia|]. intros i m Hi. apply (Hk i m Hi). lia.
Qed.

Lemma inserted_has_key main ns ns' K s : inserted main ns ns' K s ->
  forall i m, ns' !! i = Some m -> (forall m0, ns !! i = Some m0 -> has_key m0 = true) -> has_key m = true.
Proof.
  intros Hins i m Hi H. pose proof (ins_len _ _ _ _ _ Hins) as Hlen.
  destruct (lookup_lt_is_Some_2 ns i) as [m0 Hm0]; [rewrite <- Hlen; by eapply lookup_lt_Some|].
  destruct (ins_used _ _ _ _ _ Hins) as [x Hx]. by apply (Hx i m0 m Hm0 Hi), H.
Qed.

Lemma wf_inserted t ns' K s L :
  wf t -> isdummy t = false -> proper K = true -> ~ in_array t K ->
  inserted (mainposition t) (node t) ns' K s -> L <= Z.of_nat (length (node t)) ->
  (forall i m, ns' !! i = Some m -> L <= Z.of_nat i -> has_key m = true) ->
  wf (with_node ns' (with_lastfree L t)).
Proof.
  intros Hwf Hd HK Hin Hins HL Hk. pose proof (ins_len _ _ _ _ _ Hins) as Hlen.
  split; cbn [lsizenode node sizearray array lastfree isdummy with_node with_lastfree].
  - apply (wf_size t Hwf).
  - rewrite Hlen. apply (wf_len t Hwf).
  - exact (ins_ok _ _ _ _ _ Hins).
  - apply (wf_asize t Hwf).
  - apply (wf_array t Hwf).
  - intros i n Hi Hl. destruct (ins_keys _ _ _ _ _ Hins i n Hi) as [->|(j & m & Hj & E)]; [done|].
    rewrite <- E in *. by apply (wf_range t Hwf j m Hj).
  - by rewrite Hlen.
  - intros i n _. apply Hk.
  - congruence.
Qed.

(** What an insertion keeps. *)
Record same_shape (t t' : table) : Prop := {
  ss_flags : flags t' = flags t;
  ss_lsize : lsizenode t' = lsizenode t;
  ss_dummy : isdummy t' = isdummy t;
  ss_array : array t' = array t;
  ss_asize : sizearray t' = sizearray t }.

(** There is a free node. *)
Definition has_room (t : table) : Prop := isdummy t = false /\ (used (node t) < length (node t))%nat.

(** An insertion puts the key in a node, or finds no free node and rehashes. *)
Lemma newkey_cases fuel t K :
  wf t -> proper K = true -> ~ in_array t K -> absent (node t) K ->
  (exists t' s, newkey (S fuel) t K = Some (Return (t', SNode s)) /\ wf t' /\ same_shape t t' /\
    inserted (mainposition t) (node t) (node t') K s) \/
  (~ has_room t /\ exists L, wf (with_lastfree L t) /\
    newkey (S fuel) t K = let* t := rehash_with tsv_hash (newkey fuel) (with_lastfree L t) K in
                          luaH_set_with tsv_hash (newkey fuel) t K).
Proof.
  intros Hwf HK Hin Habs. pose proof (wf_hash t Hwf) as Hok.
  destruct (lookup_lt_is_Some_2 _ _ (main_lt t K Hwf)) as [np Hp].
  cbn [LTable.newkey]. rewrite Hp. cbn [llift fmap option_fmap option_map lbind].
  destruct (isdummy t) eqn:Hd.
  { rewrite orb_true_r. destruct (wf_dummy t Hwf Hd) as [En El]. right. split; [intros [? _]; congruence|].
    exists (lastfree t - 1). unfold getfreepos. cbn [getfreepos_loop]. rewrite (proj2 (Z.ltb_ge 0 (lastfree t))) by done.
    cbn [llift fmap option_fmap option_map lbind]. split; [|done].
    destruct Hwf; split; try done; cbn [lastfree node with_lastfree isdummy]; [lia|congruence|].
    intros _. split; [done|lia]. }
  rewrite orb_false_r. destruct (ttisnil (gval np)) eqn:Hval; cbn [negb].
  - assert (gval np = TNil) as Hv by (by destruct (gval np)).
    pose proof (place_main _ _ K np Hok HK Habs Hp Hv) as Hins.
    left. exists (with_node (alter (with_key K) (mainposition t K) (node t)) (with_lastfree (lastfree t) t)), (mainposition t K).
    split; [by destruct t|]. split; [|by split]. eapply wf_inserted; try done; [apply (wf_free t Hwf)|].
    intros i m Hi Hle. apply (inserted_has_key _ _ _ _ _ Hins i m Hi). intros m0 Hm0. by eapply (wf_taken t Hwf).
  - assert (gval np <> TNil) as Hv by (by intros E; rewrite E in Hval).
    destruct (getfreepos_loop_spec (S (Z.to_nat (lastfree t))) t) as (L & r & Hg & HL & Hr);
      [lia|apply (wf_free t Hwf)|intros; by eapply (wf_taken t Hwf)|].
    unfold getfreepos. rewrite Hg. cbn [llift fmap option_fmap option_map lbind]. destruct r as [n|].
    2: { right. split; [intros [_ Hroom]; pose proof (used_all _ Hr); lia|]. exists L. split; [|done].
         destruct Hwf; split; try done. intros i n _ Hi _. by eapply Hr. cbn. congruence. }
    left.
    destruct Hr as (-> & (nn & Hn & Hfree) & Hk).
    change (LTable.mainposition tsv_hash (with_lastfree (Z.of_nat n) t)) with (mainposition t).
    destruct (Nat.eqb_spec (mainposition t (gkey np)) (mainposition t K)) as [Hmain|Hmain]; cbn [negb].
    + pose proof (place_behind _ _ K np Hok HK Habs Hp n nn Hn Hfree Hv Hmain) as Hins.
      exists (with_node (behind (mainposition t) (node t) K np n) (with_lastfree (Z.of_nat n) t)), n.
      split; [by destruct t|]. split; [|by split]. eapply wf_inserted; try done.
      intros i m Hi Hle. destruct (decide (i = n)) as [->|Hne].
      * destruct (ins_slot _ _ _ _ _ Hins) as (m' & Hm' & HmK & _). assert (m = m') as -> by congruence.
        unfold has_key. rewrite HmK. by destruct K.
      * apply (inserted_has_key _ _ _ _ _ Hins i m Hi). intros m0 Hm0. apply (Hk i m0 Hm0). lia.
    + assert (live (gkey np) = true) as Hlive by (by eapply np_live).
      destruct (h_reach _ _ Hok _ np Hp Hlive) as (l & Hc & Hin').
      cbn [node with_lastfree].
      destruct (find_prev_spec (S (length (node t))) (node t) _ l _ Hc Hin' Hmain) as (prev & npv & -> & _ & Hprev & Hlink).
      { pose proof (is_chain_length _ _ _ Hc). lia. }
      cbn [llift fmap option_fmap option_map lbind].
      pose proof (place_moved _ _ K np Hok HK Habs Hp n nn Hn Hfree Hv prev npv Hprev Hlink Hmain) as Hins.
      rewrite list_lookup_alter_ne, Hp by (intros ->; by eapply not_self_next).
      cbn [llift fmap option_fmap option_map lbind].
      exists (with_node (moved (mainposition t) (node t) K np n prev) (with_lastfree (Z.of_nat n) t)), (mainposition t K).
      split; [by destruct t|]. split; [|by split]. eapply wf_inserted; try done.
      intros i m Hi Hle. destruct (decide (i = n)) as [->|Hne].
      * rewrite (moved_n _ _ K np Hok Hp n nn Hn Hfree Hv) in Hi. injection Hi as <-.
        unfold has_key. by destruct (gkey np).
      * apply (inserted_has_key _ _ _ _ _ Hins i m Hi). intros m0 Hm0. apply (Hk i m0 Hm0). lia.
Qed.

Lemma newkey_room fuel t K :
  wf t -> proper K = true -> ~ in_array t K -> absent (node t) K -> has_room t ->
  exists t' s, newkey (S fuel) t K = Some (Return (t', SNode s)) /\ wf t' /\ same_shape t t' /\
    inserted (mainposition t) (node t) (node t') K s.
Proof. intros Hwf HK Hin Habs Hroom. by destruct (newkey_cases fuel t K Hwf HK Hin Habs) as [?|[? _]]. Qed.

(** ** Stores *)

(** [t''] is [t] with [v] stored under [k]. *)
Record stored (t : table) (k v : tvalue) (t'' : table) : Prop := {
  st_wf : wf t'';
  st_lookup k' : proper k' = true -> tlookup t'' k' = if luaO_rawequalObj k k' then v else tlookup t k';
  st_used : (used (node t'') <= used (node t) + if decide (in_array t k) then 0 else 1)%nat;
  st_lsize : lsizenode t'' = lsizenode t;
  st_dummy : isdummy t'' = isdummy t;
  st_asize : sizearray t'' = sizearray t;
  st_alen : length (array t'') = length (array t);
  st_beyond i : sizearray t <= Z.of_nat i -> array t'' !! i = array t !! i }.

(** The slot of [k]. *)
Definition slot_of (t : table) (k : tvalue) (s : slot) : Prop :=
  match s with
  | SArray i => in_array t k /\ i = Z.to_nat (arrayindex k - 1)
  | SNode i => ~ in_array t k /\ exists n, node t !! i = Some n /\ luaO_rawequalObj (gkey n) k = true
  end.

Lemma node_live n k : proper k = true -> luaO_rawequalObj (gkey n) k = true -> live (gkey n) = true.
Proof. intros Hk H. rewrite (rawequal_live _ _ H). by apply proper_live. Qed.

Lemma write_slot_wf t k s v : wf t -> proper k = true -> slot_of t k s -> wf (write_slot t s v).
Proof.
  intros Hwf Hk Hs. destruct s as [i|i].
  - destruct Hwf; split; try done. cbn [sizearray array write_slot with_array]. by rewrite length_insert.
  - destruct Hs as (_ & n & Hn & He). pose proof (node_live n k Hk He) as Hlive.
    split; cbn [lsizenode node sizearray array lastfree isdummy write_slot with_node]; try apply Hwf.
    + rewrite length_alter. apply Hwf.
    + eapply store_val_ok; [apply Hwf|done|done].
    + intros j m Hj Hl. destruct (decide (j = i)) as [->|Hne].
      * rewrite list_lookup_alter_eq, Hn in Hj. injection Hj as <-. by apply (wf_range t Hwf i n Hn).
      * rewrite list_lookup_alter_ne in Hj by done. by apply (wf_range t Hwf j m Hj).
    + rewrite length_alter. apply Hwf.
    + intros j m Hd Hj Hle. destruct (decide (j = i)) as [->|Hne].
      * rewrite list_lookup_alter_eq, Hn in Hj. injection Hj as <-. by apply (wf_taken t Hwf i n Hd Hn).
      * rewrite list_lookup_alter_ne in Hj by done. by apply (wf_taken t Hwf j m Hd Hj).
    + intros Hd. destruct (wf_dummy t Hwf Hd) as [E _]. rewrite E in Hn.
      apply list_lookup_singleton_Some in Hn as [_ <-]. done.
Qed.

Lemma write_slot_entry t k s v k' v' : wf t -> proper k = true -> proper k' = true -> slot_of t k s ->
  tentry (write_slot t s v) k' v' <-> if luaO_rawequalObj k k' then v' = v else tentry t k' v'.
Proof.
  intros Hwf Hk Hk' Hs. unfold tentry. destruct s as [i|i].
  - destruct Hs as [Hin ->]. change (in_array (write_slot t _ v) k') with (in_array t k').
    cbn [array node write_slot with_array]. destruct (luaO_rawequalObj k k') eqn:E.
    + pose proof (in_array_rawequal t k k' E) as Hin'. rewrite decide_True by tauto.
      rewrite <- (arrayindex_rawequal k k' E). rewrite list_lookup_insert_eq; [split; congruence|].
      pose proof (wf_array t Hwf). unfold in_array in Hin. lia.
    + repeat case_decide; try done. rewrite list_lookup_insert_ne; [done|].
      intros Heq. unfold in_array in *. assert (arrayindex k = arrayindex k') as Ei by lia.
      assert (luaO_rawequalObj k k' = true); [|congruence].
      eapply rawequal_trans; [apply arrayindex_pos; lia|]. rewrite rawequal_sym, Ei. apply arrayindex_pos; lia.
  - destruct Hs as (Hin & n & Hn & He). change (in_array (write_slot t _ v) k') with (in_array t k').
    cbn [array node write_slot with_node]. destruct (luaO_rawequalObj k k') eqn:E.
    + rewrite decide_False by (by rewrite <- (in_array_rawequal t k k' E)).
      rewrite (store_val_entry _ _ _ _ n _ _ (wf_hash t Hwf) Hn (node_live n k Hk He) Hk').
      by rewrite (rawequal_trans _ _ _ He E).
    + repeat case_decide; try done.
      rewrite (store_val_entry _ _ _ _ n _ _ (wf_hash t Hwf) Hn (node_live n k Hk He) Hk').
      destruct (luaO_rawequalObj (gkey n) k') eqn:E'; [|done].
      assert (luaO_rawequalObj k k' = true); [|congruence]. eapply rawequal_trans; [|done]. by rewrite rawequal_sym.
Qed.
Lemma write_slot_used t s v : used (node (write_slot t s v)) = used (node t).
Proof.
  destruct s as [i|i]; [done|]. cbn [node write_slot with_node].
  apply used_same; [by rewrite length_alter|]. intros j m m' Hj. destruct (decide (j = i)) as [->|Hne].
  - rewrite list_lookup_alter_eq, Hj. by intros [= <-].
  - rewrite list_lookup_alter_ne by done. congruence.
Qed.

Lemma write_slot_stored t k s v : wf t -> proper k = true -> slot_of t k s -> stored t k v (write_slot t s v).
Proof.
  intros Hwf Hk Hs. pose proof (write_slot_wf t k s v Hwf Hk Hs) as Hwf'. split; try by destruct s.
  - intros k' Hk'. destruct (luaO_rawequalObj k k') eqn:E.
    + destruct (decide (v = TNil)) as [->|Hv].
      * destruct (decide (tlookup (write_slot t s TNil) k' = TNil)) as [?|Hne]; [done|].
        pose proof (proj1 (tlookup_entry _ _ _ Hwf' Hk' Hne) eq_refl) as He.
        rewrite (write_slot_entry t k s _ k') in He by done. by rewrite E in He.
      * apply tlookup_entry; [done..|]. rewrite (write_slot_entry t k s v k') by done. by rewrite E.
    + apply tlookup_ext; try done. intros v' _. rewrite (write_slot_entry t k s v k') by done. by rewrite E.
  - rewrite write_slot_used. lia.
  - destruct s; [|done]. cbn. by rewrite length_insert.
  - destruct s as [j|j]; [|done]. intros i Hi. destruct Hs as [Hin ->]. cbn [array write_slot with_array].
    rewrite list_lookup_insert_ne; [done|]. unfold in_array in Hin. lia.
Qed.

(** The answer of luaH_get or luaH_getnum for [k]. *)
Definition search_answer (t : table) (k : tvalue) (r : option slot) : Prop :=
  if decide (in_array t k) then r = Some (SArray (Z.to_nat (arrayindex k - 1)))
  else exists o, r = SNode <$> o /\ search_result t k o.

Lemma answer_slot t k s : search_answer t k (Some s) -> slot_of t k s.
Proof.
  unfold search_answer. case_decide; [by intros [= ->]|]. by intros ([i|] & [= ->] & Ho).
Qed.

Lemma get_answer t k : wf t -> proper k = true -> exists r, luaH_get t k = Some r /\ search_answer t k r.
Proof.
  intros Hwf Hk. pose proof (get_spec t k Hwf Hk) as H. unfold search_answer. case_decide; [eauto|].
  destruct H as (o & -> & Ho). eauto.
Qed.

Lemma getnum_answer t k : wf t -> INT_MIN <= k <= INT_MAX ->
  exists r, luaH_getnum t k = Some r /\ search_answer t (TNumber (cast_num k)) r.
Proof.
  intros Hwf Hk. pose proof (getnum_spec t k Hwf Hk) as H. unfold search_answer.
  assert (in_array t (TNumber (cast_num k)) <-> 0 < k <= sizearray t) as Hia.
  { unfold in_array. by rewrite arrayindex_cast. }
  repeat case_decide; try tauto.
  - eexists. split; [done|]. by rewrite arrayindex_cast.
  - destruct H as (o & -> & Ho). eauto.
Qed.

(** A search followed, when it fails, by an insertion that finds room. *)
Lemma slot_or_new fuel t k r : wf t -> proper k = true -> in_array t k \/ has_room t -> search_answer t k r ->
  exists t' s, match r with Some s => lret (t, s) | None => newkey (S fuel) t k end = Some (Return (t', s)) /\
    forall v, stored t k v (write_slot t' s v).
Proof.
  intros Hwf Hk Hroom Hr. unfold search_answer in Hr. case_decide as Hin.
  { subst r. eexists _, _. split; [reflexivity|]. intros v. by apply write_slot_stored. }
  destruct Hr as (o & -> & Ho). destruct o as [i|]; cbn [fmap option_fmap option_map].
  { eexists _, _. split; [reflexivity|]. intros v. by apply write_slot_stored. }
  destruct Hroom as [?|Hroom]; [done|].
  destruct (newkey_room fuel t k Hwf Hk Hin Ho Hroom) as (t' & s & -> & Hwf' & Hss & Hins).
  destruct Hss as [_ Hl Hd Ha Hsz]. exists t', (SNode s). split; [done|]. intros v.
  destruct (ins_slot _ _ _ _ _ Hins) as (m & Hm & HmK & _).
  assert (slot_of t' k (SNode s)) as Hs.
  { split; [unfold in_array; by rewrite Hsz|]. exists m. rewrite HmK. split; [done|]. by apply rawequal_refl. }
  destruct (write_slot_stored t' k (SNode s) v Hwf' Hk Hs) as [W1 W2 W3 W4 W5 W6 W7 W8].
  assert (~ in_array t' k) as Hin' by apply Hs.
  split; [done| | |congruence|congruence|congruence|by rewrite W7, Ha|].
  3: { intros i Hi. rewrite <- Ha. apply W8. by rewrite Hsz. }
  - intros k' Hk'. rewrite W2 by done. destruct (luaO_rawequalObj k k'); [done|].
    apply tlookup_ext; try done. intros v' Hv'. unfold tentry. rewrite Ha.
    assert (in_array t' k' <-> in_array t k') by (unfold in_array; by rewrite Hsz). repeat case_decide; try tauto.
    exact (ins_entry _ _ _ _ _ Hins k' v' Hv').
  - rewrite decide_False by done. rewrite write_slot_used.
    destruct (ins_used _ _ _ _ _ Hins) as [x Hx].
    pose proof (used_one (node t) (node t') x (ins_len _ _ _ _ _ Hins)) as Hone.
    assert (used (node t') <= S (used (node t)))%nat; [|lia].
    apply Hone. intros i n n' Hi Hi' Hne. by apply (Hx i n n').
Qed.

Lemma wf_with_flags f t : wf t -> wf (with_flags f t).
Proof. by intros []. Qed.

Lemma set_with_room fuel t k : wf t -> proper k = true -> in_array t k \/ has_room t ->
  exists t' s, luaH_set_with tsv_hash (newkey (S fuel)) t k = Some (Return (t', s)) /\
    forall v, stored t k v (write_slot t' s v).
Proof.
  intros Hwf Hk Hroom. unfold luaH_set_with. destruct (get_answer t k Hwf Hk) as (r & -> & Hr).
  cbn [llift fmap option_fmap option_map lbind].
  destruct (slot_or_new fuel (with_flags 0 t) k r (wf_with_flags 0 t Hwf) Hk Hroom Hr) as (t' & s & He & Hst).
  exists t', s. split.
  - rewrite <- He. destruct r; [done|]. destruct k; try done. simpl in Hk. by destruct (luai_numisnan n).
  - intros v. destruct (Hst v). by split.
Qed.

Lemma setnum_with_room fuel t k : wf t -> INT_MIN <= k <= INT_MAX ->
  in_array t (TNumber (cast_num k)) \/ has_room t ->
  exists t' s, luaH_setnum_with (newkey (S fuel)) t k = Some (Return (t', s)) /\
    forall v, stored t (TNumber (cast_num k)) v (write_slot t' s v).
Proof.
  intros Hwf Hk Hroom. unfold luaH_setnum_with. destruct (getnum_answer t k Hwf Hk) as (r & -> & Hr).
  cbn [llift fmap option_fmap option_map lbind].
  destruct (slot_or_new fuel t _ r Hwf (proper_cast k Hk) Hroom Hr) as (t' & s & He & Hst).
  exists t', s. split; [|done]. rewrite <- He. by destruct r.
Qed.

End Map.
