(* ===== verification/LTableCount.v ===== *)
(** * Counting the elements of a table

    What the counting functions of a rehash compute: [counted ks nums] says that
    [nums] holds, per power of two, how many of the integer keys [ks] fall in its
    slice. *)
From stdpp Require Import base list option numbers.
From Stdlib Require Import ZArith Lia.
From S2P Require Import Prelude LObject LTable LTableHash LTableMap.
Local Open Scope Z_scope.

(** Number of keys of [ks] with a property. *)
Definition count (f : Z -> bool) (ks : list Z) : Z := Z.of_nat (length (List.filter f ks)).

Lemma count_nil f : count f [] = 0.
Proof. done. Qed.

Lemma count_cons f k ks : count f (k :: ks) = (if f k then 1 else 0) + count f ks.
Proof. unfold count. simpl. destruct (f k); simpl; lia. Qed.

Lemma count_app f ks ks' : count f (ks ++ ks') = count f ks + count f ks'.
Proof. unfold count. rewrite List.filter_app, length_app. lia. Qed.

Lemma count_ext f g ks : (forall k, k ∈ ks -> f k = g k) -> count f ks = count g ks.
Proof.
  intros H. induction ks as [|k ks IH]; [done|]. rewrite !count_cons, (H k) by apply list_elem_of_here.
  rewrite IH; [done|]. intros. apply H. by right.
Qed.

Lemma count_range f ks : 0 <= count f ks <= Z.of_nat (length ks).
Proof. induction ks as [|k ks IH]; [unfold count; simpl; lia|]. rewrite count_cons. simpl. destruct (f k); lia. Qed.

Lemma count_true ks : count (fun _ => true) ks = Z.of_nat (length ks).
Proof. induction ks as [|k ks IH]; [done|]. rewrite count_cons, IH. simpl. lia. Qed.

Lemma count_false ks : count (fun _ => false) ks = 0.
Proof. induction ks as [|k ks IH]; [done|]. by rewrite count_cons, IH. Qed.

Lemma count_split (f g h : Z -> bool) ks : (forall k, k ∈ ks -> (if f k then 1 else 0) = (if g k then 1 else 0) + (if h k then 1 else 0)) ->
  count f ks = count g ks + count h ks.
Proof.
  intros H. induction ks as [|k ks IH]; [done|]. rewrite !count_cons, (H k) by apply list_elem_of_here.
  rewrite IH; [lia|]. intros. apply H. by right.
Qed.

Lemma count_perm f ks ks' : Permutation ks ks' -> count f ks = count f ks'.
Proof. induction 1; rewrite ?count_cons; lia. Qed.

(** The slice of an index. *)
Definition in_slice (j : Z) (k : Z) : bool := Z.log2_up k =? j.
Definition upto (n : Z) (k : Z) : bool := k <=? n.

Definition array_key (k : Z) : bool := (0 <? k) && (k <=? MAXASIZE).

Definition counted (ks nums : list Z) : Prop :=
  length nums = 27%nat /\ Forall (fun k => array_key k = true) ks /\
  forall j, (j < 27)%nat -> nums !! j = Some (count (in_slice (Z.of_nat j)) ks).

Lemma counted_nil : counted [] (replicate 27 0).
Proof. split; [done|]. split; [constructor|]. intros j Hj. by rewrite lookup_replicate_2. Qed.

Lemma array_key_slice k : array_key k = true -> 0 <= Z.log2_up k <= 26.
Proof.
  unfold array_key. change MAXASIZE with (2 ^ 26). intros H. split; [apply Z.log2_up_nonneg|].
  apply Z.log2_up_le_pow2; lia.
Qed.

Lemma counted_add ks nums new (lg : nat) :
  counted ks nums -> (lg < 27)%nat ->
  Forall (fun k => array_key k = true /\ Z.log2_up k = Z.of_nat lg) new ->
  exists nums', add_at nums lg (Z.of_nat (length new)) = Some nums' /\ counted (new ++ ks) nums'.
Proof.
  intros (Hl & Hks & Hn) Hlg Hnew. unfold add_at. rewrite (Hn lg Hlg). cbn [mbind option_bind].
  eexists. split; [reflexivity|]. split; [by rewrite length_insert|]. split.
  - apply Forall_app. split; [|done]. eapply Forall_impl; [exact Hnew|]. by intros k [? _].
  - intros j Hj. rewrite count_app. destruct (decide (j = lg)) as [->|Hne].
    + rewrite list_lookup_insert_eq by lia. f_equal.
      rewrite (count_ext (in_slice (Z.of_nat lg)) (fun _ => true) new); [rewrite count_true; lia|].
      intros k Hk. destruct (proj1 (Forall_forall _ _) Hnew k Hk) as [_ E]. unfold in_slice. lia.
    + rewrite list_lookup_insert_ne by done. rewrite Hn by done. f_equal.
      rewrite (count_ext (in_slice (Z.of_nat j)) (fun _ => false) new); [by rewrite count_false|].
      intros k Hk. destruct (proj1 (Forall_forall _ _) Hnew k Hk) as [_ E]. unfold in_slice. lia.
Qed.

Lemma counted_perm ks ks' nums : Permutation ks ks' -> counted ks nums -> counted ks' nums.
Proof.
  intros Hp (Hl & Hks & Hn). split; [done|]. split; [by rewrite <- Hp|]. intros j Hj. rewrite Hn by done. f_equal.
  by apply count_perm.
Qed.

(** ** The counting functions *)
Lemma countint_spec ks nums key : counted ks nums ->
  exists nums', countint key nums = Some (if array_key (arrayindex key) then 1 else 0, nums') /\
    counted ((if array_key (arrayindex key) then [arrayindex key] else []) ++ ks) nums'.
Proof.
  intros Hc. unfold countint. cbv zeta. fold (array_key (arrayindex key)).
  destruct (array_key (arrayindex key)) eqn:E; [|eauto].
  pose proof (array_key_slice _ E) as Hs. pose proof E as E'. unfold array_key in E'. change MAXASIZE with (2 ^ 26) in E'.
  rewrite ceillog2_spec by lia. cbn [mbind option_bind].
  destruct (counted_add ks nums [arrayindex key] (Z.to_nat (Z.log2_up (arrayindex key))) Hc) as (nums' & Ha & Hc'); [lia| |].
  { constructor; [|constructor]. split; [done|lia]. }
  change (Z.of_nat (length [arrayindex key])) with 1 in Ha. rewrite Ha. cbn [mbind option_bind]. eauto.
Qed.

(** The nodes in use, and the array candidates among their keys. *)
Definition live_nodes (ns : list node_t) : list node_t := List.filter (fun n => negb (ttisnil (gval n))) ns.
Definition hash_ints (ns : list node_t) : list Z := List.filter array_key (arrayindex ∘ gkey <$> live_nodes ns).

Lemma live_nodes_cons n ns : live_nodes (n :: ns) = if ttisnil (gval n) then live_nodes ns else n :: live_nodes ns.
Proof. unfold live_nodes. simpl. by destruct (ttisnil (gval n)). Qed.

Lemma hash_ints_cons n ns : hash_ints (n :: ns) =
  if ttisnil (gval n) then hash_ints ns
  else (if array_key (arrayindex (gkey n)) then [arrayindex (gkey n)] else []) ++ hash_ints ns.
Proof.
  unfold hash_ints. rewrite live_nodes_cons. destruct (ttisnil (gval n)); [done|].
  cbn [fmap list_fmap List.filter compose]. by destruct (array_key (arrayindex (gkey n))).
Qed.

Lemma numusehash_loop_spec ns ks nums total ause : counted ks nums ->
  exists nums', numusehash_loop ns total ause nums =
      Some (total + Z.of_nat (length (live_nodes ns)), ause + Z.of_nat (length (hash_ints ns)), nums') /\
    counted (hash_ints ns ++ ks) nums'.
Proof.
  revert ks nums total ause. induction ns as [|n ns IH]; intros ks nums total ause Hc; cbn [numusehash_loop].
  - exists nums. simpl. by rewrite !Z.add_0_r.
  - rewrite live_nodes_cons, hash_ints_cons. destruct (ttisnil (gval n)) eqn:E; [by apply IH|].
    destruct (countint_spec ks nums (gkey n) Hc) as (nums1 & -> & Hc1). cbn [mbind option_bind].
    destruct (IH _ _ (total + 1) (ause + if array_key (arrayindex (gkey n)) then 1 else 0) Hc1) as (nums2 & -> & Hc2).
    exists nums2. rewrite length_app. cbn [length]. split.
    + f_equal. f_equal. f_equal; [lia|]. destruct (array_key (arrayindex (gkey n))); cbn [length]; lia.
    + eapply counted_perm; [|exact Hc2]. rewrite <- app_assoc.
      destruct (array_key (arrayindex (gkey n))); cbn [app]; [|done]. by rewrite Permutation_middle.
Qed.

(** The indices of the non-nil elements, from [i] on. *)
Fixpoint array_ints (n : nat) (a : list tvalue) (i : Z) : list Z :=
  match n with
  | O => []
  | S n => (if ttisnil (default TNil (a !! Z.to_nat (i - 1))) then [] else [i]) ++ array_ints n a (i + 1)
  end.

Lemma array_ints_range n a i k : k ∈ array_ints n a i -> i <= k < i + Z.of_nat n.
Proof.
  revert i. induction n as [|n IH]; intros i; cbn [array_ints]; [by intros ?%elem_of_nil|].
  intros [H|H]%elem_of_app; [|apply IH in H; lia]. destruct (ttisnil _); [by apply elem_of_nil in H|].
  apply list_elem_of_singleton in H. lia.
Qed.

Lemma array_ints_app n m a i : array_ints (n + m) a i = array_ints n a i ++ array_ints m a (i + Z.of_nat n).
Proof.
  revert i. induction n as [|n IH]; intros i; simpl; [by rewrite Z.add_0_r|].
  rewrite IH, <- app_assoc. do 3 f_equal. lia.
Qed.

Lemma count_slice_spec n a i lc : 1 <= i -> i - 1 + Z.of_nat n <= Z.of_nat (length a) ->
  count_slice n a i lc = Some (i + Z.of_nat n, lc + Z.of_nat (length (array_ints n a i))).
Proof.
  revert i lc. induction n as [|n IH]; intros i lc Hi Hn; cbn [count_slice array_ints].
  - simpl. by rewrite !Z.add_0_r.
  - destruct (lookup_lt_is_Some_2 a (Z.to_nat (i - 1))) as [v Hv]; [lia|]. rewrite Hv. cbn [mbind option_bind default].
    rewrite IH by lia. rewrite length_app. f_equal. f_equal; [lia|]. unfold id. destruct (ttisnil v); simpl; lia.
Qed.

(** Where the slice of 2^lg begins. *)
Definition slice_start (lg : nat) : Z := 2 ^ Z.of_nat lg / 2 + 1.

Lemma slice_start_S lg : slice_start (S lg) = 2 ^ Z.of_nat lg + 1.
Proof.
  unfold slice_start. f_equal. rewrite Nat2Z.inj_succ, Z.pow_succ_r by lia.
  rewrite Z.mul_comm. by apply Z.div_mul.
Qed.

Lemma slice_start_range lg : 1 <= slice_start lg <= 2 ^ Z.of_nat lg.
Proof.
  destruct lg as [|lg]; [done|]. rewrite slice_start_S, Nat2Z.inj_succ, Z.pow_succ_r by lia.
  pose proof (Z.pow_pos_nonneg 2 (Z.of_nat lg)). lia.
Qed.

Lemma slice_log lg k : slice_start lg <= k <= 2 ^ Z.of_nat lg -> Z.log2_up k = Z.of_nat lg.
Proof.
  destruct lg as [|lg]; intros Hk; [assert (k = 1) as -> by (change (slice_start 0) with 1 in Hk; change (2 ^ Z.of_nat 0) with 1 in Hk; lia); done|].
  rewrite slice_start_S in Hk. apply Z.log2_up_unique; [lia|].
  replace (Z.pred (Z.of_nat (S lg))) with (Z.of_nat lg) by lia. lia.
Qed.

Lemma numusearray_loop_spec n t lg i ause ks nums :
  (n + lg = 27)%nat -> 0 <= sizearray t <= MAXASIZE -> sizearray t <= Z.of_nat (length (array t)) ->
  i = Z.min (slice_start lg) (sizearray t + 1) ->
  counted ks nums ->
  exists nums', numusearray_loop n t lg (2 ^ Z.of_nat lg) i ause nums =
      Some (ause + Z.of_nat (length (array_ints (Z.to_nat (sizearray t - i + 1)) (array t) i)), nums') /\
    counted (array_ints (Z.to_nat (sizearray t - i + 1)) (array t) i ++ ks) nums'.
Proof.
  revert lg i ause ks nums. induction n as [|n IH]; intros lg i ause ks nums Hlg Hs Ha Hi Hc; cbn [numusearray_loop].
  - assert (lg = 27%nat) as -> by lia. change (slice_start 27) with (MAXASIZE + 1) in Hi.
    replace (Z.to_nat (sizearray t - i + 1)) with 0%nat by lia. cbn [array_ints length app].
    exists nums. by rewrite Z.add_0_r.
  - pose proof (slice_start_range lg) as Hr.
    set (lim := if sizearray t <? 2 ^ Z.of_nat lg then sizearray t else 2 ^ Z.of_nat lg).
    destruct ((sizearray t <? 2 ^ Z.of_nat lg) && (lim <? i)) eqn:Ebr.
    + assert (i = sizearray t + 1) as E.
      { unfold lim in Ebr. destruct (Z.ltb_spec (sizearray t) (2 ^ Z.of_nat lg)); simpl in Ebr; [|done]. lia. }
      replace (Z.to_nat (sizearray t - i + 1)) with 0%nat by lia. cbn [array_ints length app].
      exists nums. by rewrite Z.add_0_r.
    + assert (lim = Z.min (2 ^ Z.of_nat lg) (sizearray t) /\ i <= lim /\ i = slice_start lg) as (Hlim & Hle & Hist).
      { unfold lim in *. destruct (Z.ltb_spec (sizearray t) (2 ^ Z.of_nat lg)); simpl in Ebr; lia. }
      rewrite count_slice_spec by lia. cbn [mbind option_bind].
      set (new := array_ints (Z.to_nat (lim - i + 1)) (array t) i).
      destruct (counted_add ks nums new lg Hc) as (nums1 & Ha1 & Hc1); [lia| |].
      { apply Forall_forall. intros k Hk%array_ints_range.
        assert (slice_start lg <= k <= 2 ^ Z.of_nat lg) as Hk' by lia. split; [|by apply slice_log].
        unfold array_key. lia. }
      rewrite Z.add_0_l, Ha1. cbn [mbind option_bind].
      replace (2 ^ Z.of_nat lg * 2) with (2 ^ Z.of_nat (S lg)) by (rewrite Nat2Z.inj_succ, Z.pow_succ_r; lia).
      destruct (IH (S lg) (i + Z.of_nat (Z.to_nat (lim - i + 1))) (ause + Z.of_nat (length new)) (new ++ ks) nums1 ltac:(lia) Hs Ha
        ltac:(rewrite slice_start_S; lia) Hc1) as (nums2 & -> & Hc2).
      exists nums2.
      set (j := i + Z.of_nat (Z.to_nat (lim - i + 1))) in *.
      assert (array_ints (Z.to_nat (sizearray t - i + 1)) (array t) i =
        new ++ array_ints (Z.to_nat (sizearray t - j + 1)) (array t) j) as ->.
      { unfold new, j. rewrite <- array_ints_app. f_equal. lia. }
      split; [rewrite length_app; do 2 f_equal; lia|].
      eapply counted_perm; [|exact Hc2]. by rewrite app_assoc, (Permutation_app_comm _ new).
Qed.

(** The integer keys of the array part. *)
Definition array_part (t : table) : list Z := array_ints (Z.to_nat (sizearray t)) (array t) 1.

Lemma numusearray_spec t : 0 <= sizearray t <= MAXASIZE -> sizearray t <= Z.of_nat (length (array t)) ->
  exists nums, numusearray t (replicate 27 0) = Some (Z.of_nat (length (array_part t)), nums) /\
    counted (array_part t) nums.
Proof.
  intros Hs Ha. unfold numusearray, array_part.
  destruct (numusearray_loop_spec 27 t 0 1 0 [] (replicate 27 0)) as (nums & He & Hc); try done.
  - change (slice_start 0) with 1. lia.
  - exact counted_nil.
  - replace (sizearray t - 1 + 1) with (sizearray t) in * by lia. rewrite app_nil_r in Hc.
    exists nums. split; [exact He|exact Hc].
Qed.

(** ** The size of the array part *)
Lemma count_upto_slice ks (j : nat) : Forall (fun k => array_key k = true) ks ->
  count (upto (2 ^ Z.of_nat (S j))) ks = count (upto (2 ^ Z.of_nat j)) ks + count (in_slice (Z.of_nat (S j))) ks.
Proof.
  intros Hks. apply count_split. intros k Hk. pose proof (proj1 (Forall_forall _ _) Hks k Hk) as Hak.
  unfold array_key in Hak. unfold upto, in_slice.
  pose proof (Z.log2_up_le_pow2 k (Z.of_nat j) ltac:(lia)). pose proof (Z.log2_up_le_pow2 k (Z.of_nat (S j)) ltac:(lia)).
  destruct (Z.leb_spec k (2 ^ Z.of_nat j)), (Z.leb_spec k (2 ^ Z.of_nat (S j))), (Z.eqb_spec (Z.log2_up k) (Z.of_nat (S j))); lia.
Qed.

Lemma count_upto_0 ks : Forall (fun k => array_key k = true) ks -> count (upto 1) ks = count (in_slice 0) ks.
Proof.
  intros Hks. apply count_ext. intros k Hk. pose proof (proj1 (Forall_forall _ _) Hks k Hk) as Hak.
  unfold array_key in Hak. unfold upto, in_slice. pose proof (Z.log2_up_null k).
  destruct (Z.leb_spec k 1), (Z.eqb_spec (Z.log2_up k) 0); lia.
Qed.

(** Elements below 2^i / 2. *)
Definition before (ks : list Z) (i : nat) : Z := match i with O => 0 | S j => count (upto (2 ^ Z.of_nat j)) ks end.

Lemma before_S ks nums i : counted ks nums -> (i < 27)%nat ->
  exists x, nums !! i = Some x /\ 0 <= x /\ before ks (S i) = before ks i + x.
Proof.
  intros (_ & Hks & Hn) Hi. exists (count (in_slice (Z.of_nat i)) ks). split; [by apply Hn|].
  split; [apply count_range|]. destruct i as [|j]; simpl before.
  - by rewrite count_upto_0.
  - by apply count_upto_slice.
Qed.

(** A size chosen so far: half of its slots are in use, and [na] counts them. *)
Definition chosen (ks : list Z) (n na : Z) : Prop :=
  (n = 0 /\ na = 0) \/ exists m : nat, (m <= 26)%nat /\ n = 2 ^ Z.of_nat m /\ na = count (upto n) ks /\ n / 2 < na.

(** Distinct indices from 1: at most [n] of them are up to [n]. *)
Lemma count_upto_le ks n : NoDup ks -> Forall (fun k => array_key k = true) ks -> 0 <= n -> count (upto n) ks <= n.
Proof.
  intros Hnd Hks Hn. unfold count. rewrite <- (Z2Nat.id n) at 2 by done. apply inj_le.
  rewrite <- (length_seqZ 1 n). apply submseteq_length, NoDup_submseteq.
  - apply NoDup_ListNoDup, List.NoDup_filter. by apply NoDup_ListNoDup.
  - intros k Hk. apply list_elem_of_In, List.filter_In in Hk as [Hk Hu]. apply list_elem_of_In in Hk.
    pose proof (proj1 (Forall_forall _ _) Hks k Hk) as Ha. unfold array_key in Ha. unfold upto in Hu. apply elem_of_seqZ. lia.
Qed.

Lemma before_le ks i : NoDup ks -> Forall (fun k => array_key k = true) ks -> before ks i <= 2 ^ Z.of_nat i / 2.
Proof.
  intros Hnd Hks. destruct i as [|j]; [done|]. cbn [before].
  pose proof (slice_start_S j) as E. unfold slice_start in E.
  assert (2 ^ Z.of_nat (S j) / 2 = 2 ^ Z.of_nat j) as -> by lia. apply count_upto_le; [done..|].
  apply Z.pow_nonneg. lia.
Qed.

Lemma pow_half_mono (i m : nat) : (i <= m)%nat -> 2 ^ Z.of_nat i / 2 <= 2 ^ Z.of_nat m / 2.
Proof. intros H. apply Z.div_le_mono; [lia|]. apply Z.pow_le_mono_r; lia. Qed.

(** No larger power of two would do, among those that [P] selects. *)
Definition no_better (ks : list Z) (n : Z) (P : nat -> Prop) : Prop :=
  forall m, P m -> n < 2 ^ Z.of_nat m -> count (upto (2 ^ Z.of_nat m)) ks <= 2 ^ Z.of_nat m / 2.

Lemma computesizes_loop_spec fuel ks nums i n na :
  counted ks nums -> (27 <= i + fuel)%nat -> (i <= 26)%nat -> chosen ks n na ->
  exists n' na', computesizes_loop fuel nums (Z.of_nat (length ks)) i (2 ^ Z.of_nat i) (before ks i) na n = Some (n', na') /\
    chosen ks n' na' /\
    (NoDup ks -> no_better ks n (fun m => (m < i)%nat) -> no_better ks n' (fun m => (m <= 26)%nat)).
Proof.
  revert i n na. induction fuel as [|fuel IH]; intros i n na Hc Hf Hi Hch; [lia|]. cbn [computesizes_loop].
  pose proof Hc as (_ & Hks & _). destruct (Z.ltb_spec (2 ^ Z.of_nat i / 2) (Z.of_nat (length ks))) as [Hlt|Hge].
  2: { exists n, na. split; [done|]. split; [done|]. intros Hnd Hbest m Hm Hn.
       destruct (decide (m < i)%nat); [by apply Hbest|]. pose proof (count_range (upto (2 ^ Z.of_nat m)) ks).
       pose proof (pow_half_mono i m ltac:(lia)). lia. }
  destruct (before_S ks nums i Hc) as (x & Hx & Hx0 & Hb); [lia|]. rewrite Hx. cbn [mbind option_bind].
  set (upd := if 0 <? x then _ else _).
  assert (exists n1 na1, upd = (before ks (S i), na1, n1) /\ chosen ks n1 na1 /\
    (NoDup ks -> no_better ks n (fun m => (m < i)%nat) -> no_better ks n1 (fun m => (m < S i)%nat))) as (n1 & na1 & -> & Hch1 & Hb1).
  { assert (Hkeep : before ks (S i) <= 2 ^ Z.of_nat i / 2 \/ x = 0 ->
      NoDup ks -> no_better ks n (fun m => (m < i)%nat) -> no_better ks n (fun m => (m < S i)%nat)).
    { intros Hor Hnd Hbest m Hm Hn. destruct (decide (m < i)%nat); [by apply Hbest|]. assert (m = i) as -> by lia.
      cbn [before] in *. pose proof (before_le ks i Hnd Hks). lia. }
    unfold upd. rewrite <- Hb. destruct (Z.ltb_spec 0 x).
    - destruct (Z.ltb_spec (2 ^ Z.of_nat i / 2) (before ks (S i))).
      + eexists _, _. split; [reflexivity|]. split.
        * right. exists i. split; [done|]. split; [done|]. by split.
        * intros _ _ m Hm Hn. pose proof (Z.pow_le_mono_r 2 (Z.of_nat m) (Z.of_nat i) ltac:(lia) ltac:(lia)). lia.
      + eexists _, _. split; [reflexivity|]. split; [done|]. apply Hkeep. by left.
    - eexists _, _. assert (x = 0) as E by lia. rewrite E, Z.add_0_r in Hb. rewrite Hb. split; [reflexivity|]. split; [done|].
      apply Hkeep. by right. }
  destruct (Z.eqb_spec (before ks (S i)) (Z.of_nat (length ks))) as [Eall|Enot].
  - exists n1, na1. split; [done|]. split; [done|]. intros Hnd Hbest m Hm Hn.
    destruct (decide (m < S i)%nat); [by apply Hb1|]. pose proof (count_range (upto (2 ^ Z.of_nat m)) ks).
    pose proof (before_le ks (S i) Hnd Hks). pose proof (pow_half_mono (S i) m ltac:(lia)). lia.
  - assert (i <> 26%nat) as Hi26.
    { intros ->. apply Enot. cbn [before]. rewrite <- count_true. apply count_ext. intros k Hk.
      pose proof (proj1 (Forall_forall _ _) Hks k Hk) as Ha. unfold array_key in Ha. change MAXASIZE with (2 ^ Z.of_nat 26) in Ha.
      unfold upto. lia. }
    replace (2 ^ Z.of_nat i * 2) with (2 ^ Z.of_nat (S i)) by (rewrite Nat2Z.inj_succ, Z.pow_succ_r; lia).
    destruct (IH (S i) n1 na1 Hc ltac:(lia) ltac:(lia) Hch1) as (n' & na' & -> & Hch' & Hb').
    exists n', na'. split; [done|]. split; [done|]. intros Hnd Hbest. apply Hb'; [done|]. by apply Hb1.
Qed.

(** The result of [computesizes], whatever the keys; and the best choice when they
    are distinct, as the keys of a table are. *)
Lemma computesizes_spec ks nums : counted ks nums ->
  exists n na, computesizes nums (Z.of_nat (length ks)) = Some (n, na) /\ chosen ks n na /\
    (NoDup ks -> no_better ks n (fun m => (m <= 26)%nat)).
Proof.
  intros Hc. destruct (computesizes_loop_spec 32 ks nums 0 0 0 Hc) as (n & na & He & Hch & Hb); [lia|lia|by left|].
  exists n, na. split; [exact He|]. split; [done|]. intros Hnd. apply Hb; [done|]. intros m Hm. lia.
Qed.

(** C37. [computesizes], on the counts of a table's integer keys, chooses the array
    size: a power of two (or 0) with more than half of its slots in use, the
    largest one with that property, and it returns how many keys that part takes. *)
Theorem computesizes_optimal (ks nums : list Z) :
  counted ks nums -> NoDup ks ->
  exists n na, computesizes nums (Z.of_nat (length ks)) = Some (n, na) /\
    na = count (upto n) ks /\ n / 2 <= na <= n /\
    (n = 0 \/ exists m, 0 <= m <= MAXBITS /\ n = 2 ^ m /\ n / 2 < na) /\
    (forall m, 0 <= m <= MAXBITS -> n < 2 ^ m -> count (upto (2 ^ m)) ks <= 2 ^ m / 2).
Proof.
  intros Hc Hnd. destruct (computesizes_spec ks nums Hc) as (n & na & He & Hch & Hb).
  pose proof Hc as (_ & Hks & _). exists n, na. split; [done|].
  assert (na = count (upto n) ks) as Hna.
  { destruct Hch as [[-> ->]|(m & _ & -> & -> & _)]; [|done]. symmetry.
    rewrite (count_ext (upto 0) (fun _ => false)); [apply count_false|].
    intros k Hk. pose proof (proj1 (Forall_forall _ _) Hks k Hk) as Ha. unfold array_key in Ha. unfold upto. lia. }
  assert (0 <= n) as Hn0 by (destruct Hch as [[-> _]|(m & _ & -> & _)]; [done|apply Z.pow_nonneg; lia]).
  split; [done|]. split; [|split].
  - pose proof (count_upto_le ks n Hnd Hks Hn0). destruct Hch as [[-> ->]|(m & _ & _ & _ & ?)]; [done|lia].
  - destruct Hch as [[-> _]|(m & Hm & -> & _ & ?)]; [by left|right]. exists (Z.of_nat m). unfold MAXBITS. split; [lia|done].
  - intros m Hm Hlt. specialize (Hb Hnd (Z.to_nat m)). rewrite Z2Nat.id in Hb by lia. apply Hb; [|done].
    unfold MAXBITS in Hm. lia.
Qed.

(** Keys 1, 2, 3 and 40: an array of four slots for three keys. *)
Lemma computesizes_optimal_witness :
  exists nums, (n ← countint (TNumber (cast_num 1)) (replicate 27 0); n' ← countint (TNumber (cast_num 2)) n.2;
                n'' ← countint (TNumber (cast_num 3)) n'.2; n3 ← countint (TNumber (cast_num 40)) n''.2; Some n3.2) = Some nums /\
    computesizes nums 4 = Some (4, 3).
Proof.
  eexists. split; [vm_compute; reflexivity|].
  match goal with |- computesizes ?l _ = _ => set (nums := l) end.
  assert (counted [40; 3; 2; 1] nums) as Hc.
  { split; [done|]. split; [repeat constructor|]. intros j Hj. do 27 (destruct j as [|j]; [reflexivity|]). lia. }
  assert (NoDup [40; 3; 2; 1]) as Hnd by (by apply (bool_decide_eq_true_1 _); vm_compute).
  destruct (computesizes_optimal [40; 3; 2; 1] nums Hc Hnd) as (n & na & He & _).
  change (Z.of_nat (length [40; 3; 2; 1])) with 4 in He. rewrite He. vm_compute in He. congruence.
Defined.
