(* ===== verification/LTableRehash.v ===== *)
(** * Rehash

    A rehash computes new sizes for both parts, makes fresh ones and re-inserts
    every element. The counts guarantee that each re-insertion finds room, so a
    rehash never nests, and that there is room for the key that caused it. *)
From stdpp Require Import base list option.
From Stdlib Require Import ZArith Lia ZifyBool.
From S2P Require Import Prelude LObject LTable LTableHash LTableMap LTableCount.
Local Open Scope Z_scope.

Section Rehash.
Variable tsv_hash : Z -> Z.
Abbreviation wf := (LTableMap.wf tsv_hash).
Abbreviation tlookup := (LTableMap.tlookup tsv_hash).
Abbreviation newkey := (LTable.newkey tsv_hash).

(** ** Room for several insertions *)
Definition fits (t : table) (n : nat) : Prop :=
  n = 0%nat \/ (isdummy t = false /\ (used (node t) + n <= length (node t))%nat).

Lemma fits_room t n : fits t (S n) -> has_room t.
Proof. intros [?|[? ?]]; [done|]. split; [done|lia]. Qed.

Lemma fits_le t n m : (m <= n)%nat -> fits t n -> fits t m.
Proof. intros H [->|[? ?]]; [left; lia|]. right. split; [done|lia]. Qed.

(** What the insertions of a rehash keep. *)
Record grown (t t' : table) (n : nat) : Prop := {
  gr_wf : wf t';
  gr_lsize : lsizenode t' = lsizenode t;
  gr_dummy : isdummy t' = isdummy t;
  gr_asize : sizearray t' = sizearray t;
  gr_alen : length (array t') = length (array t);
  gr_used : (used (node t') <= used (node t) + n)%nat;
  gr_beyond i : sizearray t <= Z.of_nat i -> array t' !! i = array t !! i }.

Lemma grown_refl t : wf t -> grown t t 0.
Proof. intros H. split; try done. lia. Qed.

Lemma wf_same_len t t' : wf t -> wf t' -> lsizenode t' = lsizenode t -> length (node t') = length (node t).
Proof. intros H H' E. apply Nat2Z.inj. by rewrite (wf_len _ _ H), (wf_len _ _ H'), E. Qed.

Lemma grown_fits t t' n m : wf t -> grown t t' n -> fits t (n + m) -> fits t' m.
Proof.
  intros Hwf [] [E|[Hd Hr]]; [left; lia|right]. split; [congruence|].
  rewrite (wf_same_len t t') by done. lia.
Qed.

Lemma grown_trans t t' t'' n m : grown t t' n -> grown t' t'' m -> grown t t'' (n + m).
Proof.
  intros [] []. split; try congruence; try lia; try done.
  intros i Hi. rewrite gr_beyond1 by congruence. by apply gr_beyond0.
Qed.

(** One for a key of the hash part, none for a key of the array part. *)
Definition cost (asize : Z) (k : tvalue) : nat := if (0 <? arrayindex k) && (arrayindex k <=? asize) then 0 else 1.

Lemma cost_in_array t k : cost (sizearray t) k = if decide (in_array t k) then 0%nat else 1%nat.
Proof. unfold cost, in_array. case_decide; destruct (_ && _) eqn:E; try done; lia. Qed.

Lemma stored_grown t k v t' : stored tsv_hash t k v t' -> grown t t' (cost (sizearray t) k).
Proof. intros []. rewrite cost_in_array. by split. Qed.

Lemma cost_room t k n : fits t (cost (sizearray t) k + n) -> in_array t k \/ has_room t.
Proof.
  rewrite cost_in_array. case_decide; [by left|]. intros Hf. right. by eapply fits_room.
Qed.

(** ** Re-insertion of nodes *)
Definition override (old : list node_t) (d k : tvalue) : tvalue :=
  foldl (fun d n => if negb (ttisnil (gval n)) && luaO_rawequalObj (gkey n) k then gval n else d) d old.

Definition need (asize : Z) (old : list node_t) : nat :=
  sum_list_with (fun n => if ttisnil (gval n) then 0%nat else cost asize (gkey n)) old.

Lemma reinsert_nodes_spec fuel old t :
  wf t -> (forall n, n ∈ old -> ttisnil (gval n) = false -> proper (gkey n) = true) ->
  fits t (need (sizearray t) old) ->
  exists t', reinsert_nodes tsv_hash (newkey (S fuel)) old t = Some (Return t') /\
    grown t t' (need (sizearray t) old) /\
    forall k, proper k = true -> tlookup t' k = override old (tlookup t k) k.
Proof.
  revert t. induction old as [|n old IH]; intros t Hwf Hp Hfit; cbn [reinsert_nodes].
  - exists t. split; [done|]. split; [by apply grown_refl|done].
  - unfold need in *. cbn [sum_list_with] in *. unfold override. cbn [foldl].
    destruct (ttisnil (gval n)) eqn:Enil; cbn [negb andb].
    { destruct (IH t Hwf) as (t' & -> & Hg & Hl); [intros; apply Hp; [by right|done]|done|]. by exists t'. }
    assert (proper (gkey n) = true) as Hk by (apply Hp; [by left|done]).
    destruct (set_with_room tsv_hash fuel t (gkey n) Hwf Hk (cost_room _ _ _ Hfit)) as (t1 & s & -> & Hst).
    cbn [lbind]. pose proof (Hst (gval n)) as Hst1. pose proof (stored_grown _ _ _ _ Hst1) as Hg1.
    pose proof (grown_fits _ _ _ _ Hwf Hg1 Hfit) as Hfit1. pose proof (gr_asize _ _ _ Hg1) as Ea.
    destruct (IH (write_slot t1 s (gval n))) as (t' & -> & Hg & Hl);
      [apply Hg1|intros; apply Hp; [by right|done]|by rewrite Ea|].
    exists t'. split; [done|]. rewrite Ea in Hg. split; [by eapply grown_trans|].
    intros k Hk'. rewrite Hl by done. unfold override. f_equal. by apply (st_lookup _ _ _ _ _ Hst1).
Qed.

(** ** Re-insertion of the end of the array *)
Fixpoint override_array (n : nat) (a : list tvalue) (i : Z) (d k : tvalue) : tvalue :=
  match n with
  | O => d
  | S n =>
      let v := default TNil (a !! Z.to_nat (i - 1)) in
      override_array n a (i + 1) (if negb (ttisnil v) && (arrayindex k =? i) then v else d) k
  end.

Lemma override_array_spec n a i d k : 0 < i ->
  override_array n a i d k =
    if (i <=? arrayindex k) && (arrayindex k <? i + Z.of_nat n)
    then let v := default TNil (a !! Z.to_nat (arrayindex k - 1)) in if ttisnil v then d else v
    else d.
Proof.
  revert i d. induction n as [|n IH]; intros i d Hi; cbn [override_array].
  - destruct ((i <=? arrayindex k) && (arrayindex k <? i + Z.of_nat 0)) eqn:E; [exfalso; lia|done].
  - rewrite IH by lia. destruct (Z.eqb_spec (arrayindex k) i) as [->|Hne].
    + assert ((i + 1 <=? i) = false) as -> by lia. assert ((i <=? i) && (i <? i + Z.of_nat (S n)) = true) as -> by lia.
      cbv zeta. cbn [andb]. destruct (ttisnil (default TNil (a !! Z.to_nat (i - 1)))); done.
    + rewrite andb_false_r. assert ((i + 1 <=? arrayindex k) && (arrayindex k <? i + 1 + Z.of_nat n) =
        (i <=? arrayindex k) && (arrayindex k <? i + Z.of_nat (S n))) as -> by lia. done.
Qed.

Lemma rawequal_cast i k : 0 < i <= INT_MAX -> proper k = true ->
  luaO_rawequalObj (TNumber (cast_num i)) k = (arrayindex k =? i).
Proof.
  intros Hi Hk. assert (arrayindex (TNumber (cast_num i)) = i) as E by (apply arrayindex_cast; unfold INT_MIN; lia).
  destruct (Z.eqb_spec (arrayindex k) i) as [Ek|Ek].
  - rewrite rawequal_sym, <- Ek. apply arrayindex_pos. lia.
  - destruct (luaO_rawequalObj (TNumber (cast_num i)) k) eqn:H; [|done].
    rewrite (arrayindex_rawequal _ _ H) in E. lia.
Qed.

Lemma array_ints_ext n a a' i : 1 <= i -> (forall j : nat, i - 1 <= Z.of_nat j -> a !! j = a' !! j) ->
  array_ints n a i = array_ints n a' i.
Proof.
  revert i. induction n as [|n IH]; intros i Hi H; cbn [array_ints]; [done|].
  rewrite H by lia. f_equal. apply IH; [lia|]. intros j Hj. apply H. lia.
Qed.

Lemma override_array_ext n a a' i d k : 1 <= i -> (forall j : nat, i - 1 <= Z.of_nat j -> a !! j = a' !! j) ->
  override_array n a i d k = override_array n a' i d k.
Proof.
  revert i d. induction n as [|n IH]; intros i d Hi H; cbn [override_array]; [done|].
  rewrite H by lia. apply IH; [lia|]. intros j Hj. apply H. lia.
Qed.

Lemma reinsert_array_spec fuel n t i :
  wf t -> sizearray t <= i -> i + Z.of_nat n <= Z.of_nat (length (array t)) -> i + Z.of_nat n <= INT_MAX ->
  fits t (length (array_ints n (array t) (i + 1))) ->
  exists t', reinsert_array (newkey (S fuel)) n i t = Some (Return t') /\
    grown t t' (length (array_ints n (array t) (i + 1))) /\
    forall k, proper k = true -> tlookup t' k = override_array n (array t) (i + 1) (tlookup t k) k.
Proof.
  revert t i. induction n as [|n IH]; intros t i Hwf Hi Hlen Hmax; cbn [reinsert_array array_ints override_array].
  { exists t. split; [done|]. split; [by apply grown_refl|done]. }
  pose proof (wf_asize _ _ Hwf) as Hs. replace (i + 1 - 1) with i by lia.
  destruct (lookup_lt_is_Some_2 (array t) (Z.to_nat i)) as [v Hv]; [lia|]. rewrite Hv.
  cbn [llift fmap option_fmap option_map lbind default]. unfold id.
  destruct (ttisnil v) eqn:Enil; cbn [negb andb app]; intros Hfit; [apply IH; try done; lia|].
  cbn [length] in *. set (k0 := TNumber (cast_num (i + 1))).
  assert (INT_MIN <= i + 1 <= INT_MAX) as Hint by (unfold INT_MIN; lia).
  assert (cost (sizearray t) k0 = 1%nat) as Hcost.
  { rewrite cost_in_array, decide_False; [done|]. unfold in_array, k0. rewrite arrayindex_cast by done. lia. }
  destruct (setnum_with_room tsv_hash fuel t (i + 1) Hwf Hint) as (t1 & s & -> & Hst).
  { eapply cost_room. fold k0. rewrite Hcost. exact Hfit. }
  cbn [lbind]. pose proof (Hst v) as Hst1. pose proof (stored_grown _ _ _ _ Hst1) as Hg1. fold k0 in Hg1. rewrite Hcost in Hg1.
  set (t2 := write_slot t1 s v) in *.
  assert (forall j : nat, i + 1 + 1 - 1 <= Z.of_nat j -> array t2 !! j = array t !! j) as Hext.
  { intros j Hj. apply (gr_beyond _ _ _ Hg1). lia. }
  pose proof (array_ints_ext n (array t2) (array t) (i + 1 + 1) ltac:(lia) Hext) as Eints.
  destruct (IH t2 (i + 1)) as (t' & -> & Hg & Hl).
  - apply Hg1.
  - rewrite (gr_asize _ _ _ Hg1). lia.
  - rewrite (gr_alen _ _ _ Hg1). lia.
  - lia.
  - rewrite Eints. eapply (grown_fits t t2 1); done.
  - exists t'. split; [done|]. rewrite Eints in Hg. split; [exact (grown_trans _ _ _ _ _ Hg1 Hg)|].
    intros k Hk. rewrite Hl by done. rewrite (override_array_ext n (array t2) (array t)) by (done || lia).
    f_equal. rewrite (st_lookup _ _ _ _ _ Hst1) by done. by rewrite rawequal_cast by (done || lia).
Qed.

(** ** The value of the hash part *)
Definition hval (ns : list node_t) (k : tvalue) : tvalue := override (rev ns) TNil k.

Lemma override_miss old d k :
  (forall n, n ∈ old -> ttisnil (gval n) = false -> luaO_rawequalObj (gkey n) k = false) -> override old d k = d.
Proof.
  unfold override. revert d. induction old as [|n old IH]; intros d H; cbn [foldl]; [done|].
  destruct (ttisnil (gval n)) eqn:E; cbn [negb andb]; [|rewrite (H n) by (by left || done)];
    apply IH; intros m Hm; apply H; by right.
Qed.

Lemma override_hit old d k v :
  v <> TNil ->
  d = v \/ (exists n, n ∈ old /\ luaO_rawequalObj (gkey n) k = true /\ gval n = v) ->
  (forall n, n ∈ old -> ttisnil (gval n) = false -> luaO_rawequalObj (gkey n) k = true -> gval n = v) ->
  override old d k = v.
Proof.
  unfold override. intros Hne. revert d. induction old as [|n old IH]; intros d Hor Huniq; cbn [foldl].
  { destruct Hor as [?|(n & Hn & _)]; [done|by apply elem_of_nil in Hn]. }
  apply IH; [|intros m Hm; apply Huniq; by right].
  destruct (negb (ttisnil (gval n)) && luaO_rawequalObj (gkey n) k) eqn:E.
  - apply andb_true_iff in E as [E1 E2]. left. apply Huniq; [by left| |done]. by destruct (ttisnil (gval n)).
  - destruct Hor as [?|(m & Hm & Heq & Hv)]; [by left|]. apply elem_of_cons in Hm as [->|Hm]; [|by right; exists m].
    exfalso. rewrite Heq, Hv, andb_true_r in E. by destruct v.
Qed.

Lemma hval_entry main ns k v : hash_ok main ns -> proper k = true -> v <> TNil -> hval ns k = v <-> hentry ns k v.
Proof.
  intros Hok Hk Hv. split.
  - intros E. destruct (decide (Exists (fun n => luaO_rawequalObj (gkey n) k = true /\ gval n = v) ns)) as [Hex|Hno].
    + apply Exists_exists in Hex as (n & Hn & Heq & Hval). apply list_elem_of_lookup_1 in Hn as [i Hi]. by exists i, n.
    + exfalso. apply Hno, Exists_exists. unfold hval, override in E.
      assert (Hgen : forall old d, (forall n, n ∈ old -> n ∈ ns) -> d <> v ->
        foldl (fun d n => if negb (ttisnil (gval n)) && luaO_rawequalObj (gkey n) k then gval n else d) d old = v ->
        exists n, n ∈ ns /\ luaO_rawequalObj (gkey n) k = true /\ gval n = v).
      { induction old as [|n old IH]; intros d Hin Hd Hf; cbn [foldl] in Hf; [done|].
        destruct (negb (ttisnil (gval n)) && luaO_rawequalObj (gkey n) k) eqn:E1; [|apply (IH d); try done; intros; apply Hin; by right].
        destruct (decide (gval n = v)) as [Ev|Ev]; [|apply (IH (gval n)); try done; intros; apply Hin; by right].
        apply andb_true_iff in E1 as [_ E1]. exists n. split; [apply Hin; by left|done]. }
      apply (Hgen (rev ns) TNil); [|congruence|done]. intros n Hn. apply list_elem_of_In. apply in_rev. by apply list_elem_of_In.
  - intros (i & n & Hi & Heq & Hval). apply override_hit; [done|right; exists n; split; [|done]|].
    + apply list_elem_of_In, in_rev. rewrite rev_involutive. apply list_elem_of_In. by eapply list_elem_of_lookup_2.
    + intros m Hm _ Heq'. apply list_elem_of_In, in_rev in Hm.
      apply list_elem_of_In, list_elem_of_lookup_1 in Hm as [j Hj].
      destruct (decide (i = j)) as [->|Hij]; [congruence|].
      assert (live (gkey n) = true) as Hl by (by eapply node_live).
      pose proof (h_uniq _ _ Hok i j n m Hi Hj Hij Hl) as Hf.
      rewrite (rawequal_trans _ k) in Hf; [done|done|]. by rewrite rawequal_sym.
Qed.

(** The value of a key, part by part. *)
Lemma tlookup_parts t k : wf t -> proper k = true ->
  tlookup t k = if decide (in_array t k) then default TNil (array t !! Z.to_nat (arrayindex k - 1)) else hval (node t) k.
Proof.
  intros Hwf Hk.
  assert (forall v, v <> TNil -> tlookup t k = v <->
    (if decide (in_array t k) then default TNil (array t !! Z.to_nat (arrayindex k - 1)) else hval (node t) k) = v) as H.
  { intros v Hv. rewrite tlookup_entry by done. unfold tentry. repeat case_decide; try done.
    - destruct (array t !! _); cbn [default]; unfold id; split; congruence.
    - symmetry. eapply hval_entry; [apply (wf_hash _ _ Hwf)|done|done]. }
  destruct (decide (tlookup t k = TNil)) as [E|E].
  - destruct (decide ((if decide (in_array t k) then default TNil (array t !! Z.to_nat (arrayindex k - 1))
      else hval (node t) k) = TNil)) as [E'|E']; [congruence|]. by apply (H _ E').
  - symmetry. by apply (H _ E).
Qed.

(** ** Fresh parts *)
Lemma hval_empty n k : hval (replicate n empty_node) k = TNil.
Proof.
  apply override_miss. intros m Hm Hv. apply list_elem_of_In, in_rev, list_elem_of_In, elem_of_replicate in Hm as [-> _]. done.
Qed.

Lemma setnodevector_spec t size :
  0 <= size <= 2 ^ 31 -> 0 <= sizearray t <= MAXASIZE -> sizearray t <= Z.of_nat (length (array t)) ->
  if 2 ^ MAXBITS <? size then setnodevector t size = lerror "table overflow"
  else exists t', setnodevector t size = Some (Return t') /\ wf t' /\
    array t' = array t /\ sizearray t' = sizearray t /\ used (node t') = 0%nat /\ fits t' (Z.to_nat size) /\
    forall k, hval (node t') k = TNil.
Proof.
  intros Hsize Hs Ha. unfold setnodevector. destruct (Z.eqb_spec size 0) as [->|Hne].
  - change (2 ^ MAXBITS <? 0) with false. cbn iota. eexists. split; [reflexivity|].
    split; [|by split_and!; try done; left].
    split; cbn; try done; try lia.
    + exact (empty_ok _ 1).
    + intros i n Hi. apply list_lookup_singleton_Some in Hi as [_ <-]. done.
  - rewrite ceillog2_spec by lia. cbn [llift fmap option_fmap option_map lbind].
    pose proof (Z.log2_up_nonneg size). pose proof (Z.log2_up_le_pow2 size MAXBITS ltac:(lia)) as Hlog.
    destruct (Z.ltb_spec (2 ^ MAXBITS) size), (Z.ltb_spec MAXBITS (Z.log2_up size)); try lia; [done|].
    rewrite Z.shiftl_mul_pow2 by lia. rewrite Z.mul_1_l.
    pose proof (Z.pow_pos_nonneg 2 (Z.log2_up size) ltac:(lia) ltac:(lia)) as Hpos.
    assert (size <= 2 ^ Z.log2_up size) as Hle by (apply Z.log2_up_le_pow2; lia).
    eexists. split; [reflexivity|]. split.
    + split; cbn [lsizenode node isdummy array sizearray lastfree]; try done; try lia.
      * rewrite length_replicate. lia.
      * apply empty_ok.
      * intros i n [-> _]%lookup_replicate. done.
      * rewrite length_replicate. lia.
      * intros i n _ [_ Hi]%lookup_replicate ?. lia.
    + cbn [lsizenode node isdummy array sizearray lastfree]. rewrite used_empty. split_and!; try done.
      * right. cbn [isdummy node]. rewrite used_empty, length_replicate. split; [done|lia].
      * intros k. apply hval_empty.
Qed.

Lemma wf_shrink t n : wf t -> 0 <= n <= sizearray t -> wf (with_sizearray n t).
Proof.
  intros Hwf Hn. pose proof (wf_asize _ _ Hwf). pose proof (wf_array _ _ Hwf).
  split; cbn [lsizenode node isdummy array sizearray lastfree with_sizearray]; try apply Hwf; try lia.
  intros i m Hi Hl ?. apply (wf_range _ _ Hwf i m Hi Hl). lia.
Qed.

Lemma wf_realloc t : wf t -> wf (with_array (take (Z.to_nat (sizearray t)) (array t)) t).
Proof.
  intros Hwf. pose proof (wf_asize _ _ Hwf). pose proof (wf_array _ _ Hwf).
  split; cbn [lsizenode node isdummy array sizearray lastfree with_array]; try apply Hwf; try lia.
  rewrite length_take. lia.
Qed.

(** ** Resizing *)

(** Elements that go to the hash part when the array part gets size [n]. *)
Definition tail_ints (t : table) (n : Z) : list Z := array_ints (Z.to_nat (sizearray t - n)) (array t) (n + 1).
Definition hash_need (t : table) (n : Z) : nat := length (tail_ints t n) + need n (rev (node t)).

Lemma rebuilt t k d : wf t -> proper k = true ->
  d = (if decide (in_array t k) then default TNil (array t !! Z.to_nat (arrayindex k - 1)) else TNil) ->
  override (rev (node t)) d k = tlookup t k.
Proof.
  intros Hwf Hk ->. rewrite tlookup_parts by done. case_decide as Hin; [|done].
  apply override_miss. intros n Hn _. apply list_elem_of_In, in_rev, list_elem_of_In, list_elem_of_lookup_1 in Hn as [i Hi].
  destruct (luaO_rawequalObj (gkey n) k) eqn:E; [|done]. exfalso.
  apply (wf_range _ _ Hwf i n Hi); [by eapply node_live|]. rewrite (arrayindex_rawequal _ _ E). exact Hin.
Qed.

Lemma old_keys_proper t : wf t -> forall n, n ∈ rev (node t) -> ttisnil (gval n) = false -> proper (gkey n) = true.
Proof.
  intros Hwf n Hn Hv. apply list_elem_of_In, in_rev, list_elem_of_In, list_elem_of_lookup_1 in Hn as [i Hi].
  apply (h_key _ _ (wf_hash _ _ Hwf) i n Hi). destruct (live (gkey n)) eqn:E; [done|].
  by rewrite (h_dead _ _ (wf_hash _ _ Hwf) i n Hi E) in Hv.
Qed.

Definition shrink_array (fuel : nat) (t : table) (nasize oldasize : Z) : LuaM table :=
  let t := with_sizearray nasize t in
  let* t := reinsert_array (newkey fuel) (Z.to_nat (oldasize - nasize)) nasize t in
  lret (with_array (take (Z.to_nat nasize) (array t)) t).

(** The vanishing slice of the array goes to the fresh hash part. *)
Lemma shrink_spec fuel t t1 n m :
  wf t -> wf t1 -> array t1 = array t -> sizearray t1 = sizearray t -> 0 <= n <= sizearray t ->
  used (node t1) = 0%nat -> (forall k, hval (node t1) k = TNil) -> fits t1 (length (tail_ints t n) + m) ->
  exists t', shrink_array (S fuel) t1 n (sizearray t) = Some (Return t') /\ wf t' /\ sizearray t' = n /\ fits t' m /\
    forall k, proper k = true ->
      tlookup t' k = if decide (in_array t k) then default TNil (array t !! Z.to_nat (arrayindex k - 1)) else TNil.
Proof.
  intros Hwf Hwf1 Ea Es Hn Hu Hh Hfit. pose proof (wf_asize _ _ Hwf) as Hs. pose proof (wf_array _ _ Hwf) as Hal.
  change MAXASIZE with 67108864 in Hs.
  unfold shrink_array, tail_ints in *. pose proof (wf_shrink t1 n Hwf1 ltac:(lia)) as Hwf2.
  assert (array (with_sizearray n t1) = array t) as Ea2 by done.
  set (t2 := with_sizearray n t1) in *.
  assert (fits t2 (length (array_ints (Z.to_nat (sizearray t - n)) (array t) (n + 1)) + m)) as Hfit2 by exact Hfit.
  destruct (reinsert_array_spec fuel (Z.to_nat (sizearray t - n)) t2 n Hwf2) as (t3 & -> & Hg & Hl).
  - done.
  - rewrite Ea2. lia.
  - unfold INT_MAX. lia.
  - rewrite Ea2. eapply fits_le; [|exact Hfit2]. lia.
  - cbn [lbind]. rewrite Ea2 in Hg, Hl. pose proof (gr_wf _ _ _ Hg) as Hwf3.
    assert (sizearray t3 = n) as Es3 by (rewrite (gr_asize _ _ _ Hg); done).
    eexists. split; [reflexivity|]. pose proof (wf_realloc t3 Hwf3) as Hwf4. rewrite Es3 in Hwf4.
    split; [exact Hwf4|]. split; [exact Es3|]. split; [exact (grown_fits _ _ _ _ Hwf2 Hg Hfit2)|].
    intros k Hk. transitivity (tlookup t3 k).
    { rewrite !tlookup_parts by done.
      assert (in_array (with_array (take (Z.to_nat n) (array t3)) t3) k <-> in_array t3 k) as Hia by done.
      repeat case_decide; try tauto; try done. cbn [array with_array]. unfold in_array in *. rewrite Es3 in *.
      by rewrite lookup_take_lt by lia. }
    rewrite Hl by done. rewrite override_array_spec by lia. rewrite tlookup_parts by done. rewrite Ea2.
    assert (in_array t2 k <-> 0 < arrayindex k <= n) as Hia by done. change (node t2) with (node t1). rewrite Hh.
    unfold in_array in Hia |- *.
    destruct ((n + 1 <=? arrayindex k) && (arrayindex k <? n + 1 + Z.of_nat (Z.to_nat (sizearray t - n)))) eqn:E.
    + cbv zeta. rewrite decide_False by (unfold in_array in *; lia). rewrite decide_True by lia. by destruct (default _ _).
    + repeat case_decide; try done; unfold in_array in *; lia.
Qed.

Lemma resize_spec fuel t nasize nhsize :
  wf t -> 0 <= nasize <= MAXASIZE -> Z.of_nat (hash_need t nasize) <= nhsize <= 2 ^ 31 ->
  if 2 ^ MAXBITS <? nhsize then resize_with tsv_hash (newkey (S fuel)) t nasize nhsize = lerror "table overflow"
  else exists t', resize_with tsv_hash (newkey (S fuel)) t nasize nhsize = Some (Return t') /\
    wf t' /\ sizearray t' = nasize /\ fits t' (Z.to_nat nhsize - hash_need t nasize) /\
    forall k, proper k = true -> tlookup t' k = tlookup t k.
Proof.
  intros Hwf Hna Hnh. pose proof (wf_asize _ _ Hwf) as Hs. pose proof (wf_array _ _ Hwf) as Ha.
  unfold resize_with. set (t0 := if sizearray t <? nasize then setarrayvector t nasize else t).
  assert (sizearray t0 = Z.max (sizearray t) nasize /\ Z.max (sizearray t) nasize <= Z.of_nat (length (array t0)) /\
    forall i, (Z.of_nat i < Z.max (sizearray t) nasize) ->
      default TNil (array t0 !! i) = if Z.of_nat i <? sizearray t then default TNil (array t !! i) else TNil) as (Es & Ea & Ev).
  { unfold t0. destruct (Z.ltb_spec (sizearray t) nasize).
    - cbn [sizearray array setarrayvector with_sizearray with_array]. rewrite length_app, length_take, length_replicate.
      split; [lia|]. split; [lia|]. intros i Hi. destruct (Z.ltb_spec (Z.of_nat i) (sizearray t)).
      + rewrite lookup_app_l by (rewrite length_take; lia). by rewrite lookup_take_lt by lia.
      + rewrite lookup_app_r by (rewrite length_take; lia). rewrite length_take, lookup_replicate_2 by lia. done.
    - split; [lia|]. split; [lia|]. intros i Hi. by rewrite (proj2 (Z.ltb_lt _ _)) by lia. }
  pose proof (setnodevector_spec t0 nhsize ltac:(lia) ltac:(lia) ltac:(lia)) as Hset.
  destruct (2 ^ MAXBITS <? nhsize); [by rewrite Hset|].
  destruct Hset as (t1 & -> & Hwf1 & Ea1 & Es1 & Hu1 & Hfit1 & Hh1). cbn [lbind].
  assert (exists t4, (if nasize <? sizearray t then shrink_array (S fuel) t1 nasize (sizearray t) else lret t1) = Some (Return t4) /\
    wf t4 /\ sizearray t4 = nasize /\ fits t4 (Z.to_nat nhsize - length (tail_ints t nasize)) /\
    forall k, proper k = true ->
      tlookup t4 k = if decide (in_array t k) then default TNil (array t !! Z.to_nat (arrayindex k - 1)) else TNil)
    as (t4 & E4 & Hwf4 & Es4 & Hfit4 & Hl4).
  { unfold hash_need in Hnh. destruct (Z.ltb_spec nasize (sizearray t)) as [Hshrink|Hgrow].
    - assert (t0 = t) as E0 by (unfold t0; by rewrite (proj2 (Z.ltb_ge _ _)) by lia). rewrite E0 in *.
      apply shrink_spec; try done; [lia|]. eapply fits_le; [|exact Hfit1]. lia.
    - exists t1. split; [done|]. split; [done|]. split; [lia|]. split; [eapply fits_le; [|exact Hfit1]; lia|].
      intros k Hk. rewrite tlookup_parts, Hh1, Ea1 by done. unfold in_array at 1.
      assert (in_array t1 k <-> 0 < arrayindex k <= nasize) as Hia by (unfold in_array; by rewrite Es1, Es, Z.max_r by lia).
      repeat case_decide; try done; unfold in_array in *; try lia; rewrite Ev by lia.
      + by rewrite (proj2 (Z.ltb_lt _ _)) by lia.
      + by rewrite (proj2 (Z.ltb_ge _ _)) by lia. }
  unfold shrink_array in E4. cbv zeta in E4. rewrite E4. cbn [lbind].
  destruct (reinsert_nodes_spec fuel (rev (node t)) t4 Hwf4 (old_keys_proper t Hwf)) as (t' & -> & Hg & Hl).
  { rewrite Es4. eapply fits_le; [|exact Hfit4]. unfold hash_need in Hnh. lia. }
  rewrite Es4 in Hg. exists t'. split; [done|]. split; [apply Hg|]. split; [rewrite (gr_asize _ _ _ Hg); done|]. split.
  - eapply (grown_fits _ _ _ _ Hwf4 Hg). eapply fits_le; [|exact Hfit4]. unfold hash_need in *. lia.
  - intros k Hk. rewrite Hl by done. apply rebuilt; [done|done|]. by apply Hl4.
Qed.

(** ** Rehash *)

(** The number of elements of a table. *)
Definition elements (t : table) : Z := Z.of_nat (length (array_part t) + length (live_nodes (rev (node t)))).

Lemma count_all f ks : (forall k, k ∈ ks -> f k = true) -> count f ks = Z.of_nat (length ks).
Proof. intros H. rewrite (count_ext f (fun _ => true)); [apply count_true|exact H]. Qed.

Lemma count_none f ks : (forall k, k ∈ ks -> f k = false) -> count f ks = 0.
Proof. intros H. rewrite (count_ext f (fun _ => false)); [apply count_false|exact H]. Qed.

Lemma count_array_part t n : 0 <= n -> 0 <= sizearray t ->
  count (upto n) (array_part t) + Z.of_nat (length (tail_ints t n)) = Z.of_nat (length (array_part t)).
Proof.
  intros Hn Hs. unfold array_part, tail_ints.
  replace (Z.to_nat (sizearray t)) with (Z.to_nat (Z.min n (sizearray t)) + Z.to_nat (sizearray t - n))%nat by lia.
  rewrite array_ints_app, count_app, length_app.
  rewrite (count_all (upto n)), (count_none (upto n)).
  - destruct (decide (n <= sizearray t)).
    + replace (1 + Z.of_nat (Z.to_nat (Z.min n (sizearray t)))) with (n + 1) by lia. lia.
    + replace (Z.to_nat (sizearray t - n)) with 0%nat by lia. cbn [array_ints length]. lia.
  - intros k Hk%array_ints_range. unfold upto. lia.
  - intros k Hk%array_ints_range. unfold upto. lia.
Qed.

Lemma cost_key n k : 0 <= n <= MAXASIZE ->
  Z.of_nat (cost n k) = 1 - count (upto n) (if array_key (arrayindex k) then [arrayindex k] else []).
Proof.
  intros Hn. unfold cost, array_key. destruct ((0 <? arrayindex k) && (arrayindex k <=? n)) eqn:E.
  - rewrite (proj2 (andb_true_iff _ _)) by lia. rewrite count_cons, count_nil. unfold upto. rewrite (proj2 (Z.leb_le _ _)) by lia. done.
  - destruct (_ && (arrayindex k <=? MAXASIZE)) eqn:E'; [|done].
    rewrite count_cons, count_nil. unfold upto. rewrite (proj2 (Z.leb_gt _ _)) by lia. done.
Qed.

Lemma count_hash_ints n ns : 0 <= n <= MAXASIZE ->
  count (upto n) (hash_ints ns) + Z.of_nat (need n ns) = Z.of_nat (length (live_nodes ns)).
Proof.
  intros Hn. induction ns as [|m ns IH]; [done|]. rewrite hash_ints_cons, live_nodes_cons.
  unfold need in *. cbn [sum_list_with]. destruct (ttisnil (gval m)); [exact IH|].
  rewrite count_app. pose proof (cost_key n (gkey m) Hn). cbn [length]. lia.
Qed.

Lemma chosen_count ks n na : Forall (fun k => array_key k = true) ks -> chosen ks n na ->
  na = count (upto n) ks /\ 0 <= n <= MAXASIZE.
Proof.
  intros Hks [[-> ->]|(m & Hm & -> & -> & _)].
  - split; [|done]. symmetry. apply count_none. intros k Hk. pose proof (proj1 (Forall_forall _ _) Hks k Hk) as Ha.
    unfold array_key in Ha. unfold upto. lia.
  - split; [done|]. change MAXASIZE with (2 ^ 26). split; [apply Z.pow_nonneg; lia|apply Z.pow_le_mono_r; lia].
Qed.

(** A rehash keeps every element and leaves room for the key it was started for. *)
Lemma rehash_spec fuel t ek :
  wf t -> elements t < 2 ^ MAXBITS ->
  exists t', rehash_with tsv_hash (newkey (S fuel)) t ek = Some (Return t') /\ wf t' /\
    fits t' (cost (sizearray t') ek) /\ forall k, proper k = true -> tlookup t' k = tlookup t k.
Proof.
  intros Hwf Hel. pose proof (wf_asize _ _ Hwf) as Hs. unfold rehash_with.
  destruct (numusearray_spec t Hs (wf_array _ _ Hwf)) as (nums1 & -> & Hc1).
  cbn [llift fmap option_fmap option_map lbind]. unfold numusehash.
  destruct (numusehash_loop_spec (rev (node t)) _ nums1 0 0 Hc1) as (nums2 & -> & Hc2).
  cbn [llift fmap option_fmap option_map lbind].
  destruct (countint_spec _ nums2 ek Hc2) as (nums3 & -> & Hc3). cbn [llift fmap option_fmap option_map lbind].
  set (eks := if array_key (arrayindex ek) then [arrayindex ek] else []) in *.
  set (ks := eks ++ hash_ints (rev (node t)) ++ array_part t) in *.
  assert (Z.of_nat (length (array_part t)) + (0 + Z.of_nat (length (hash_ints (rev (node t))))) +
    (if array_key (arrayindex ek) then 1 else 0) = Z.of_nat (length ks)) as ->.
  { unfold ks, eks. rewrite !length_app. destruct (array_key (arrayindex ek)); cbn [length]; lia. }
  destruct (computesizes_spec ks nums3 Hc3) as (n & na & -> & Hch & _). cbn [llift fmap option_fmap option_map lbind].
  destruct (chosen_count ks n na (proj1 (proj2 Hc3)) Hch) as [-> Hn].
  assert (Z.of_nat (length (array_part t)) + (0 + Z.of_nat (length (live_nodes (rev (node t))))) + 1 - count (upto n) ks =
    Z.of_nat (hash_need t n + cost n ek)) as ->.
  { unfold ks. rewrite !count_app. pose proof (count_array_part t n ltac:(lia) ltac:(lia)).
    pose proof (count_hash_ints n (rev (node t)) Hn). pose proof (cost_key n ek Hn) as Hck. fold eks in Hck.
    unfold hash_need. lia. }
  assert (Z.of_nat (hash_need t n + cost n ek) <= 2 ^ MAXBITS) as Hbound.
  { unfold elements, hash_need in *. pose proof (count_array_part t n ltac:(lia) ltac:(lia)).
    pose proof (count_hash_ints n (rev (node t)) Hn). pose proof (count_range (upto n) (hash_ints (rev (node t)))).
    pose proof (count_range (upto n) (array_part t)).
    assert (cost n ek <= 1)%nat by (unfold cost; destruct (_ && _); lia). lia. }
  pose proof (resize_spec fuel t n (Z.of_nat (hash_need t n + cost n ek)) Hwf Hn) as Hr.
  rewrite (proj2 (Z.ltb_ge _ _)) in Hr by exact Hbound.
  destruct Hr as (t' & He & Hwf' & Es & Hfit & Hl); [unfold MAXBITS in Hbound; lia|].
  exists t'. split; [exact He|]. split; [done|]. split; [|done]. rewrite Es. eapply fits_le; [|exact Hfit]. lia.
Qed.

(** ** Insertion, with or without a rehash *)
Lemma newkey_total fuel t k :
  wf t -> proper k = true -> ~ in_array t k -> absent (node t) k -> elements t < 2 ^ MAXBITS ->
  exists t' s, newkey (S (S fuel)) t k = Some (Return (t', s)) /\
    forall v, wf (write_slot t' s v) /\
      forall k', proper k' = true -> tlookup (write_slot t' s v) k' = if luaO_rawequalObj k k' then v else tlookup t k'.
Proof.
  intros Hwf Hk Hin Habs Hel.
  destruct (newkey_cases tsv_hash (S fuel) t k Hwf Hk Hin Habs) as [(t' & s & He & Hwf' & Hss & Hins)|(_ & L & HwfL & ->)].
  - exists t', (SNode s). split; [exact He|]. destruct (ins_slot _ _ _ _ _ Hins) as (m & Hm & HmK & _).
    assert (slot_of t' k (SNode s)) as Hs.
    { split; [unfold in_array; by rewrite (ss_asize _ _ Hss)|]. exists m. rewrite HmK. split; [done|]. by apply rawequal_refl. }
    intros v. destruct (write_slot_stored tsv_hash t' k (SNode s) v Hwf' Hk Hs) as [W1 W2 _ _ _ _ _ _]. split; [done|].
    intros k' Hk'. rewrite W2 by done. destruct (luaO_rawequalObj k k'); [done|].
    apply tlookup_ext; try done. intros v' Hv'. unfold tentry. rewrite (ss_array _ _ Hss).
    assert (in_array t' k' <-> in_array t k') by (unfold in_array; by rewrite (ss_asize _ _ Hss)). repeat case_decide; try tauto.
    exact (ins_entry _ _ _ _ _ Hins k' v' Hv').
  - destruct (rehash_spec fuel (with_lastfree L t) k HwfL Hel) as (t1 & -> & Hwf1 & Hfit & Hl). cbn [lbind].
    destruct (set_with_room tsv_hash fuel t1 k Hwf1 Hk) as (t' & s & -> & Hst).
    { apply (cost_room t1 k 0). by rewrite Nat.add_0_r. }
    exists t', s. split; [done|]. intros v. destruct (Hst v) as [W1 W2 _ _ _ _ _ _]. split; [done|].
    intros k' Hk'. rewrite W2 by done. by rewrite Hl by done.
Qed.

End Rehash.
