(* ===== verification/LTableProps.v ===== *)
(** * Properties of Lua tables

    Stores and lookups obey the laws of a finite map through every rehash, the
    traversal visits each element once, and the length operator finds a border. *)
From stdpp Require Import base list option numbers.
From Stdlib Require Import ZArith Lia ZifyBool.
From S2P Require Import Prelude LObject LTable LTableHash LTableMap LTableCount LTableRehash.
Local Open Scope Z_scope.

Section Props.
Variable tsv_hash : Z -> Z.
Abbreviation wf := (LTableMap.wf tsv_hash).
Abbreviation tlookup := (LTableMap.tlookup tsv_hash).
Abbreviation luaH_value := (LTable.luaH_value tsv_hash).
Abbreviation luaH_store := (LTable.luaH_store tsv_hash).

(** ** Creation *)
Lemma luaH_new_spec narray nhash :
  0 <= narray <= MAXASIZE -> 0 <= nhash <= 2 ^ MAXBITS ->
  exists t, luaH_new narray nhash = Some (Return t) /\ wf t /\ sizearray t = narray /\
    forall k, proper k = true -> luaH_value t k = Some TNil.
Proof.
  intros Ha Hh. unfold luaH_new. set (t0 := setarrayvector _ narray).
  assert (array t0 = replicate (Z.to_nat narray) TNil /\ sizearray t0 = narray) as [Ea Es].
  { unfold t0. cbn [array sizearray setarrayvector with_sizearray with_array]. rewrite take_nil, Z.sub_0_r. done. }
  pose proof (setnodevector_spec tsv_hash t0 nhash) as Hs. rewrite (proj2 (Z.ltb_ge _ _)) in Hs by lia.
  destruct Hs as (t & -> & Hwf & Ea' & Es' & _ & _ & Hv); [unfold MAXBITS in Hh; lia|lia|rewrite Ea, length_replicate; lia|].
  exists t. split; [done|]. split; [done|]. split; [congruence|]. intros k Hk.
  rewrite luaH_value_total by done. rewrite tlookup_parts by done. rewrite Hv, Ea', Ea.
  case_decide as Hin; [|done]. unfold in_array in Hin. rewrite lookup_replicate_2 by lia. done.
Qed.

(** ** Stores *)

(** C6. A table is a finite map: storing [v] under a key other than nil and NaN
    succeeds, whether or not the table has to grow, keeps the table well formed,
    gives that key (and every key equal to it, such as the two zeros) the value [v]
    and leaves the value of every other key unchanged. *)
Theorem luaH_store_is_map_insert (t : table) (k v : tvalue) :
  wf t -> proper k = true -> elements t < 2 ^ MAXBITS ->
  exists t', luaH_store t k v = Some (Return t') /\ wf t' /\
    forall k', proper k' = true ->
      luaH_value t' k' = if luaO_rawequalObj k k' then Some v else luaH_value t k'.
Proof.
  intros Hwf Hk Hel. unfold LTable.luaH_store, luaH_set, luaH_set_with.
  destruct (get_answer tsv_hash t k Hwf Hk) as (r & -> & Hr). cbn [llift fmap option_fmap option_map lbind].
  assert (exists t1 s, match r with Some s => lret (with_flags 0 t, s) | None => LTable.newkey tsv_hash 2 (with_flags 0 t) k end =
      Some (Return (t1, s)) /\ forall v, wf (write_slot t1 s v) /\ forall k', proper k' = true ->
        tlookup (write_slot t1 s v) k' = if luaO_rawequalObj k k' then v else tlookup t k') as (t1 & s & E & H).
  { pose proof (wf_with_flags tsv_hash 0 t Hwf) as Hwf0. destruct r as [s|].
    - eexists _, s. split; [reflexivity|]. intros v'.
      destruct (write_slot_stored tsv_hash (with_flags 0 t) k s v' Hwf0 Hk (answer_slot _ _ _ Hr)) as [W1 W2 _ _ _ _ _ _].
      by split.
    - unfold search_answer in Hr. case_decide as Hin; [done|]. destruct Hr as ([i|] & [=] & Hr).
      by apply (newkey_total tsv_hash 0 (with_flags 0 t) k Hwf0 Hk Hin Hr). }
  assert (match r with
    | Some s => lret (with_flags 0 t, s)
    | None => match k with
              | TNil => lerror "table index is nil"
              | TNumber n => if luai_numisnan n then lerror "table index is NaN" else LTable.newkey tsv_hash 2 (with_flags 0 t) k
              | _ => LTable.newkey tsv_hash 2 (with_flags 0 t) k
              end
    end = Some (Return (t1, s))) as ->.
  { rewrite <- E. destruct r; [done|]. destruct k; try done. simpl in Hk. by destruct (luai_numisnan n). }
  cbn [lbind]. destruct (H v) as [H1 H2]. exists (write_slot t1 s v). split; [done|]. split; [done|].
  intros k' Hk'. rewrite !luaH_value_total, H2 by done. by destruct (luaO_rawequalObj k k').
Qed.

(** A search for a NaN or for nil finds nothing. *)
Lemma get_improper t k : wf t -> live k = true \/ k = TNil -> proper k = false -> LTable.luaH_get tsv_hash t k = Some None.
Proof.
  intros Hwf Hl Hk. destruct k as [| | |n| |]; try done; [|by destruct Hl].
  simpl in Hk. assert (luai_numisnan n = true) as Hn by (by destruct (luai_numisnan n)).
  assert (forall a, luai_numeq a n = false) as Hne.
  { intros a. destruct (luai_numeq a n) eqn:E; [|done]. by destruct (luai_numeq_nan _ _ E) as [_ ?]; congruence. }
  unfold LTable.luaH_get. rewrite Hne. unfold luaH_get_default, in_chain.
  destruct (h_chain _ _ (wf_hash _ _ Hwf) _ (main_lt tsv_hash t (TNumber n) Hwf)) as [l Hc].
  rewrite (find_chain_spec _ _ (node t) _ l Hc) by (pose proof (is_chain_length _ _ _ Hc); lia). cbn [mbind option_bind].
  destruct (first_match _ (node t) l) as [i|] eqn:E; [|done].
  destruct (first_match_Some _ _ _ _ _ Hc E) as (_ & m & _ & Hm). rewrite rawequal_number in Hm.
  destruct (gkey m); try done. by rewrite Hne in Hm.
Qed.

(** Nil and NaN are refused as keys with the messages of the manual, and both
    read as nil. *)
Theorem luaH_set_errors (t : table) (v : tvalue) (n : Z) :
  wf t -> luai_numisnan n = true ->
  luaH_store t TNil v = lerror "table index is nil" /\ luaH_value t TNil = Some TNil /\
  luaH_store t (TNumber n) v = lerror "table index is NaN" /\ luaH_value t (TNumber n) = Some TNil.
Proof.
  intros Hwf Hn. unfold LTable.luaH_store, LTable.luaH_value, luaH_set, luaH_set_with.
  rewrite (get_improper t (TNumber n) Hwf (or_introl eq_refl)) by (simpl; by rewrite Hn).
  cbn [LTable.luaH_get llift fmap option_fmap option_map lbind mbind option_bind]. by rewrite Hn.
Qed.

(** ** Traversal *)

(** The positions of a table in traversal order, and the elements among them. *)
Definition slots (t : table) : list (tvalue * tvalue) :=
  imap (fun i v => (TNumber (cast_num (Z.of_nat i + 1)), v)) (take (Z.to_nat (sizearray t)) (array t)) ++
  ((fun n => (gkey n, gval n)) <$> node t).

Definition entries (t : table) : list (tvalue * tvalue) := List.filter (fun kv => negb (ttisnil kv.2)) (slots t).

(** [for k, v in next, t]: the pairs luaH_next yields from [key] on. *)
Fixpoint traverse (fuel : nat) (t : table) (key : tvalue) : LuaM (list (tvalue * tvalue)) :=
  match fuel with
  | O => None
  | S fuel =>
      let* r := luaH_next tsv_hash t key in
      match r with
      | None => lret []
      | Some (k, v) => let* l := traverse fuel t k in lret ((k, v) :: l)
      end
  end.

(** No key in use has the address that a dead key still shows: the collector has
    not let a new object take the address of a dead one while the table holds
    both. *)
Definition no_ghost (t : table) : Prop :=
  forall i j n m p ty, node t !! i = Some n -> node t !! j = Some m ->
    gkey n = TDead p -> gkey m = TGC ty p -> gval m = TNil.

Definition head_entry (l : list (tvalue * tvalue)) : option (tvalue * tvalue) :=
  head (List.filter (fun kv => negb (ttisnil kv.2)) l).

Lemma next_array_spec l i ns :
  match next_array l (Z.of_nat i) with Some kv => Some kv | None => next_node ns end =
  head_entry (imap (fun j v => (TNumber (cast_num (Z.of_nat (i + j) + 1)), v)) l ++ ((fun n => (gkey n, gval n)) <$> ns)).
Proof.
  revert i. induction l as [|v l IH]; intros i; cbn [next_array].
  - rewrite imap_nil. cbn [app]. induction ns as [|n ns IHn]; [done|]. unfold head_entry in *. cbn [next_node fmap list_fmap List.filter snd].
    destruct (ttisnil (gval n)); [exact IHn|done].
  - rewrite imap_cons. unfold head_entry in *. cbn [app List.filter snd]. rewrite Nat.add_0_r.
    destruct (ttisnil v); cbn [negb]; [|done].
    replace (Z.of_nat i + 1) with (Z.of_nat (S i)) by lia. rewrite IH. do 3 f_equal.
    apply imap_ext. intros j w _. cbn. do 3 f_equal. lia.
Qed.

Lemma slots_length t : wf t -> length (slots t) = (Z.to_nat (sizearray t) + length (node t))%nat.
Proof.
  intros Hwf. pose proof (wf_asize _ _ Hwf). pose proof (wf_array _ _ Hwf).
  unfold slots. rewrite length_app, length_imap, length_fmap, length_take. lia.
Qed.

(** [luaH_next] yields the first element after the position of the key. *)
Lemma next_from t key (i : Z) : wf t -> findindex tsv_hash t key = Some (Return i) -> -1 <= i ->
  luaH_next tsv_hash t key = Some (Return (head_entry (drop (Z.to_nat (i + 1)) (slots t)))).
Proof.
  intros Hwf Hf Hi. unfold luaH_next. rewrite Hf. cbn [lbind]. unfold lret. f_equal. f_equal.
  pose proof (wf_asize _ _ Hwf). pose proof (wf_array _ _ Hwf). unfold slots.
  set (a := take (Z.to_nat (sizearray t)) (array t)).
  assert (length a = Z.to_nat (sizearray t)) as Hla by (unfold a; rewrite length_take; lia).
  destruct (Z.ltb_spec (i + 1) (sizearray t)) as [Hlt|Hge].
  - assert (take (Z.to_nat (sizearray t - (i + 1))) (drop (Z.to_nat (i + 1)) (array t)) = drop (Z.to_nat (i + 1)) a) as ->.
    { unfold a. rewrite take_drop_commute. do 2 f_equal. lia. }
    rewrite <- (Z2Nat.id (i + 1)) at 2 by lia. rewrite next_array_spec.
    rewrite drop_app_le by (rewrite length_imap; lia). unfold head_entry. do 4 f_equal.
    apply list_eq. intros j. rewrite lookup_drop, !list_lookup_imap, lookup_drop. done.
  - rewrite drop_app_ge by (rewrite length_imap; lia). rewrite length_imap, Hla, <- fmap_drop.
    pose proof (next_array_spec [] 0 (drop (Z.to_nat (i + 1 - sizearray t)) (node t))) as Hn.
    cbn [next_array] in Hn. rewrite Hn, imap_nil. cbn [app]. do 3 f_equal. lia.
Qed.

Lemma slots_lookup t p k v : wf t -> slots t !! p = Some (k, v) ->
  (Z.of_nat p < sizearray t /\ k = TNumber (cast_num (Z.of_nat p + 1)) /\ array t !! p = Some v) \/
  (exists i n, (p = Z.to_nat (sizearray t) + i)%nat /\ node t !! i = Some n /\ k = gkey n /\ v = gval n).
Proof.
  intros Hwf. pose proof (wf_asize _ _ Hwf). pose proof (wf_array _ _ Hwf). unfold slots.
  destruct (decide (Z.of_nat p < sizearray t)) as [Hlt|Hge].
  - rewrite lookup_app_l by (rewrite length_imap, length_take; lia).
    rewrite list_lookup_imap, lookup_take_lt by lia.
    destruct (array t !! p) eqn:E; [|done]. intros [= <- <-]. left. done.
  - rewrite lookup_app_r by (rewrite length_imap, length_take; lia). rewrite length_imap, length_take.
    rewrite list_lookup_fmap. intros Hp. right.
    replace (Z.to_nat (sizearray t) `min` length (array t))%nat with (Z.to_nat (sizearray t)) in Hp by lia.
    destruct (node t !! (p - Z.to_nat (sizearray t))%nat) as [n|] eqn:E; [|done]. injection Hp as <- <-.
    exists (p - Z.to_nat (sizearray t))%nat, n. split; [lia|done].
Qed.

Lemma live_entry t i n : wf t -> node t !! i = Some n -> gval n <> TNil -> live (gkey n) = true.
Proof.
  intros Hwf Hi Hv. destruct (live (gkey n)) eqn:E; [done|]. by rewrite (h_dead _ _ (wf_hash _ _ Hwf) i n Hi E) in Hv.
Qed.

Lemma int_of_size t p : wf t -> Z.of_nat p < sizearray t -> INT_MIN <= Z.of_nat p + 1 <= INT_MAX.
Proof. intros Hwf Hp. pose proof (wf_asize _ _ Hwf). change MAXASIZE with 67108864 in *. unfold INT_MIN, INT_MAX. lia. Qed.

(** The test of findindex on a node. *)
Definition find_test (key : tvalue) (n : node_t) : bool :=
  luaO_rawequalObj (gkey n) key || match gkey n, key with TDead p, TGC _ q => p =? q | _, _ => false end.

Lemma findindex_node t k i : k <> TNil -> ~ (0 < arrayindex k <= sizearray t) ->
  in_chain (find_test k) t (mainposition tsv_hash t k) = Some (Some (SNode i)) ->
  findindex tsv_hash t k = Some (Return (Z.of_nat i + sizearray t)).
Proof.
  intros Hk Hr Hc. unfold findindex.
  assert ((0 <? arrayindex k) && (arrayindex k <=? sizearray t) = false) as -> by lia.
  unfold find_test in Hc. rewrite Hc. by destruct k.
Qed.

Lemma findindex_slot t p k v : wf t -> no_ghost t -> slots t !! p = Some (k, v) -> v <> TNil ->
  findindex tsv_hash t k = Some (Return (Z.of_nat p)).
Proof.
  intros Hwf Hng Hp Hv. destruct (slots_lookup t p k v Hwf Hp) as [(Hlt & -> & _)|(i & n & -> & Hn & -> & ->)].
  - pose proof (int_of_size t p Hwf Hlt) as Hint. unfold findindex. rewrite arrayindex_cast by done.
    assert ((0 <? Z.of_nat p + 1) && (Z.of_nat p + 1 <=? sizearray t) = true) as -> by lia.
    unfold lret. do 2 f_equal. lia.
  - pose proof (live_entry t i n Hwf Hn Hv) as Hl. pose proof (h_key _ _ (wf_hash _ _ Hwf) i n Hn Hl) as Hk.
    pose proof (wf_range _ _ Hwf i n Hn Hl) as Hr. pose proof (wf_asize _ _ Hwf).
    rewrite (findindex_node t (gkey n) i); [do 2 f_equal; lia|by intros E; rewrite E in Hl|done|].
    unfold in_chain. destruct (h_reach _ _ (wf_hash _ _ Hwf) i n Hn Hl) as (l & Hc & Hi).
    rewrite (find_chain_spec _ _ (node t) _ l Hc) by (pose proof (is_chain_length _ _ _ Hc); lia).
    cbn [mbind option_bind]. destruct (first_match (find_test (gkey n)) (node t) l) as [j|] eqn:E.
    + destruct (first_match_Some _ _ _ _ _ Hc E) as (_ & m & Hm & Hf). cbn [option_map]. do 3 f_equal.
      apply orb_true_iff in Hf as [Hf|Hf].
      * destruct (decide (j = i)) as [|Hne]; [done|].
        rewrite rawequal_sym in Hf. by rewrite (h_uniq _ _ (wf_hash _ _ Hwf) i j n m Hn Hm (not_eq_sym Hne) Hl) in Hf.
      * destruct (gkey m) eqn:Ek; try done. destruct (gkey n) eqn:Ek'; try done. apply Z.eqb_eq in Hf as ->.
        exfalso. apply Hv. by apply (Hng j i m n _ _ Hm Hn Ek Ek').
    + exfalso. pose proof (first_match_None _ _ _ _ _ _ Hc E Hi Hn) as Hf. unfold find_test in Hf. by rewrite rawequal_refl in Hf.
Qed.

(** ** The elements in order *)
Lemma filter_head {A} (f : A -> bool) l x r :
  List.filter f l = x :: r -> exists p, l !! p = Some x /\ f x = true /\ r = List.filter f (drop (S p) l).
Proof.
  revert r. induction l as [|y l IH]; intros r; cbn [List.filter]; [done|]. destruct (f y) eqn:Ef.
  - intros [= -> <-]. exists 0%nat. cbn [drop]. by rewrite drop_0.
  - intros Hr. destruct (IH r Hr) as (p & Hp & Hx & ->). exists (S p). done.
Qed.

Lemma filter_pairs {A} (R : A -> A -> Prop) (f : A -> bool) l :
  (forall i j x y, (i < j)%nat -> l !! i = Some x -> l !! j = Some y -> f x = true -> f y = true -> R x y) ->
  ForallOrdPairs R (List.filter f l).
Proof.
  induction l as [|x l IH]; intros H; cbn [List.filter]; [constructor|].
  assert (ForallOrdPairs R (List.filter f l)) as Hl by (apply IH; intros i j; intros; apply (H (S i) (S j)); [lia|done..]).
  destruct (f x) eqn:E; [|done]. constructor; [|done]. apply List.Forall_forall. intros y Hy.
  apply List.filter_In in Hy as [Hy Hfy]. apply list_elem_of_In, list_elem_of_lookup_1 in Hy as [j Hj].
  by apply (H 0%nat (S j)); [lia|..].
Qed.

Lemma traverse_from fuel t key i : wf t -> no_ghost t ->
  findindex tsv_hash t key = Some (Return i) -> -1 <= i ->
  (length (List.filter (fun kv => negb (ttisnil kv.2)) (drop (Z.to_nat (i + 1)) (slots t))) < fuel)%nat ->
  traverse fuel t key = Some (Return (List.filter (fun kv => negb (ttisnil kv.2)) (drop (Z.to_nat (i + 1)) (slots t)))).
Proof.
  intros Hwf Hng. revert key i. induction fuel as [|fuel IH]; intros key i Hf Hi Hlen; [lia|]. cbn [traverse].
  rewrite (next_from t key i Hwf Hf Hi). cbn [lbind]. unfold head_entry.
  destruct (List.filter _ (drop (Z.to_nat (i + 1)) (slots t))) as [|[k v] r] eqn:E; cbn [head]; [done|].
  destruct (filter_head _ _ _ _ E) as (p & Hp & Hv & ->). rewrite lookup_drop in Hp. rewrite drop_drop in Hlen |- *.
  assert (v <> TNil) as Hvn by (by intros ->).
  pose proof (findindex_slot t _ k v Hwf Hng Hp Hvn) as Hf'.
  assert (Z.to_nat (Z.of_nat (Z.to_nat (i + 1) + p) + 1) = (Z.to_nat (i + 1) + S p)%nat) as Eq by lia.
  rewrite (IH k _ Hf' ltac:(lia)); [by rewrite Eq|]. rewrite Eq. cbn [length] in Hlen. lia.
Qed.

Lemma slots_uniq t i j k v k' v' : wf t -> (i < j)%nat -> slots t !! i = Some (k, v) -> slots t !! j = Some (k', v') ->
  v <> TNil -> v' <> TNil -> luaO_rawequalObj k k' = false.
Proof.
  intros Hwf Hij Hi Hj Hv Hv'. destruct (luaO_rawequalObj k k') eqn:E; [|done]. exfalso.
  pose proof (arrayindex_rawequal _ _ E) as Ea. pose proof (wf_asize _ _ Hwf).
  destruct (slots_lookup t i k v Hwf Hi) as [(Hl & -> & _)|(i' & n & -> & Hn & -> & ->)],
    (slots_lookup t j k' v' Hwf Hj) as [(Hl' & -> & _)|(j' & m & -> & Hm & -> & ->)].
  - rewrite !arrayindex_cast in Ea by (by apply (int_of_size t)). lia.
  - rewrite arrayindex_cast in Ea by (by apply (int_of_size t)).
    apply (wf_range _ _ Hwf j' m Hm); [by eapply live_entry|]. lia.
  - lia.
  - rewrite (h_uniq _ _ (wf_hash _ _ Hwf) i' j' n m) in E; try done; [lia|by eapply live_entry].
Qed.

Lemma entries_complete t k v : wf t -> proper k = true -> v <> TNil ->
  tlookup t k = v <-> exists k', (k', v) ∈ entries t /\ luaO_rawequalObj k' k = true.
Proof.
  intros Hwf Hk Hv. pose proof (wf_asize _ _ Hwf). rewrite tlookup_entry by done. unfold tentry, entries.
  assert (forall k', (k', v) ∈ List.filter (fun kv => negb (ttisnil kv.2)) (slots t) <-> (k', v) ∈ slots t) as Hin.
  { intros k'. rewrite !list_elem_of_In, List.filter_In. cbn. destruct v; naive_solver. }
  setoid_rewrite Hin. split.
  - case_decide as Hia.
    + intros Ha. unfold in_array in Hia. exists (TNumber (cast_num (arrayindex k))). split.
      * apply list_elem_of_lookup_2 with (Z.to_nat (arrayindex k - 1)). unfold slots.
        rewrite lookup_app_l by (rewrite length_imap, length_take; pose proof (wf_array _ _ Hwf); lia).
        rewrite list_lookup_imap, lookup_take_lt, Ha by lia. cbn. do 4 f_equal. lia.
      * rewrite rawequal_sym. apply arrayindex_pos. lia.
    + intros (i & n & Hi & He & Hval). exists (gkey n). split; [|done]. apply elem_of_app. right.
      apply list_elem_of_fmap. exists n. split; [by rewrite Hval|by eapply list_elem_of_lookup_2].
  - intros (k' & Hs & He). apply list_elem_of_lookup_1 in Hs as [p Hp].
    destruct (slots_lookup t p k' v Hwf Hp) as [(Hlt & -> & Ha)|(i & n & -> & Hn & -> & ->)].
    + pose proof (arrayindex_rawequal _ _ He) as Ea. rewrite arrayindex_cast in Ea by (by apply (int_of_size t)).
      rewrite decide_True by (unfold in_array; lia). rewrite <- Ea. replace (Z.to_nat _) with p by lia. done.
    + rewrite decide_False; [by exists i, n|]. unfold in_array. rewrite <- (arrayindex_rawequal _ _ He).
      apply (wf_range _ _ Hwf i n Hn). by eapply live_entry.
Qed.

(** C35. A traversal with luaH_next from nil, on a table that is well formed and in which no
    key in use has the address that a dead key still shows ([no_ghost]: the collector has
    not let a new object take the address of a dead key of the table): it ends, and yields
    each element of the table exactly once. The pairs it yields are, key by key, the keys
    with a non-nil value and their values, and no two of their keys are equal. (With such a
    key findindex may stop at the dead one, and the traversal goes on from there.) *)
Theorem luaH_next_enumerates (t : table) :
  wf t -> no_ghost t ->
  exists l, traverse (S (length l)) t TNil = Some (Return l) /\
    ForallOrdPairs (fun a b => luaO_rawequalObj a.1 b.1 = false) l /\
    forall k v, proper k = true -> v <> TNil ->
      luaH_value t k = Some v <-> exists k', (k', v) ∈ l /\ luaO_rawequalObj k' k = true.
Proof.
  intros Hwf Hng. exists (entries t). split; [|split].
  - rewrite (traverse_from _ t TNil (-1) Hwf Hng eq_refl ltac:(lia)); rewrite drop_0; [done|].
    unfold entries. lia.
  - apply filter_pairs. intros i j [k v] [k' v'] Hij Hi Hj Hv Hv'. cbn in *.
    apply (slots_uniq t i j k v k' v' Hwf Hij Hi Hj); by intros ->.
  - intros k v Hk Hv. rewrite luaH_value_total, <- entries_complete by done. split; congruence.
Qed.

(** ** The length operator *)
Lemma answer_unique t k r r' : wf t -> proper k = true -> search_answer t k r -> search_answer t k r' -> r = r'.
Proof.
  intros Hwf Hk. unfold search_answer. case_decide; [congruence|]. intros (o & -> & Ho) (o' & -> & Ho').
  destruct o as [i|], o' as [j|]; simpl in *; try done.
  - destruct Ho as (n & Hn & He), Ho' as (m & Hm & He'). destruct (decide (i = j)) as [->|Hne]; [done|].
    pose proof (h_uniq _ _ (wf_hash _ _ Hwf) i j n m Hn Hm Hne (node_live n k Hk He)) as Hf.
    rewrite (rawequal_trans _ k) in Hf; [done|done|]. by rewrite rawequal_sym.
  - destruct Ho as (n & Hn & He). by rewrite (Ho' i n Hn) in He.
  - destruct Ho' as (m & Hm & He'). by rewrite (Ho j m Hm) in He'.
Qed.

(** Whether the element of index [j] is nil. *)
Definition isnil (t : table) (j : Z) : bool := ttisnil (tlookup t (TNumber (cast_num j))).

Lemma nil_at_spec t j : wf t -> 0 <= j <= INT_MAX -> nil_at t j = Some (isnil t j).
Proof.
  intros Hwf Hj. unfold nil_at. unfold INT_MAX in Hj. rewrite swrap_small by lia.
  assert (INT_MIN <= j <= INT_MAX) as Hint by (unfold INT_MIN, INT_MAX; lia).
  destruct (getnum_answer tsv_hash t j Hwf Hint) as (r & -> & Hr). cbn [mbind option_bind].
  pose proof (proper_cast j Hint) as Hk. destruct (get_answer tsv_hash t _ Hwf Hk) as (r' & Hg & Hr').
  rewrite <- (answer_unique t _ r r' Hwf Hk Hr Hr') in Hg.
  pose proof (luaH_value_total tsv_hash t _ Hwf Hk) as Hv. unfold LTable.luaH_value in Hv. rewrite Hg in Hv.
  cbn [mbind option_bind] in Hv. unfold isnil. destruct r as [s|]; [by rewrite Hv|by injection Hv as <-].
Qed.

Lemma isnil_array t j : wf t -> 0 < j <= sizearray t ->
  array t !! Z.to_nat (j - 1) = Some (tlookup t (TNumber (cast_num j))).
Proof.
  intros Hwf Hj. pose proof (wf_asize _ _ Hwf) as Hs. change MAXASIZE with 67108864 in Hs. pose proof (wf_array _ _ Hwf).
  assert (INT_MIN <= j <= INT_MAX) as Hint by (unfold INT_MIN, INT_MAX; lia).
  rewrite tlookup_parts by (try done; by apply proper_cast). rewrite decide_True by (unfold in_array; by rewrite arrayindex_cast).
  rewrite arrayindex_cast by done. destruct (lookup_lt_is_Some_2 (array t) (Z.to_nat (j - 1))) as [v ->]; [lia|done].
Qed.

(** A border: an element that is not nil (or 0) before one that is. *)
Definition border (b : Z -> bool) (i r : Z) : Prop := (r = i \/ b r = false) /\ b (r + 1) = true.

Lemma binary_search_spec fuel nilf b i j :
  0 <= i < j -> j <= INT_MAX -> j - i <= 2 ^ Z.of_nat fuel ->
  (forall m, i < m < j -> nilf m = Some (b m)) -> b j = true ->
  exists r, binary_search fuel nilf i j = Some r /\ i <= r < j /\ border b i r.
Proof.
  revert i j. induction fuel as [|fuel IH]; intros i j Hij Hmax Hf Hn Hj; cbn [binary_search]; unfold INT_MAX in Hmax.
  - change (2 ^ Z.of_nat 0) with 1 in Hf. rewrite (proj2 (Z.ltb_ge 1 (j - i))) by lia.
    exists i. split; [done|]. split; [lia|]. split; [by left|]. by replace (i + 1) with j by lia.
  - destruct (Z.ltb_spec 1 (j - i)) as [Hlt|Hge].
    2: { exists i. split; [done|]. split; [lia|]. split; [by left|]. by replace (i + 1) with j by lia. }
    rewrite uwrap_small by lia. rewrite Nat2Z.inj_succ, Z.pow_succ_r in Hf by lia.
    set (m := (i + j) / 2). assert (2 * m <= i + j < 2 * m + 2) as Hm.
    { pose proof (Z.div_mod (i + j) 2 ltac:(lia)). pose proof (Z.mod_pos_bound (i + j) 2 ltac:(lia)). fold m in H. lia. }
    rewrite (Hn m) by lia. cbn [mbind option_bind]. destruct (b m) eqn:Eb.
    + destruct (IH i m) as (r & -> & Hr & Hb); [lia|unfold INT_MAX; lia|lia|intros; apply Hn; lia|done|].
      exists r. split; [done|]. split; [lia|done].
    + destruct (IH m j) as (r & -> & Hr & Hb); [lia|unfold INT_MAX; lia|lia|intros; apply Hn; lia|done|].
      exists r. split; [done|]. split; [lia|]. destruct Hb as [[->|Hb] Hb1]; (split; [by right|done]).
Qed.

(** Every index with an element is one of the array or the key of a node. *)
Lemma present_index t j : wf t -> 0 < j <= INT_MAX -> isnil t j = false ->
  j ∈ seqZ 1 (sizearray t) ++ (arrayindex ∘ gkey <$> node t).
Proof.
  intros Hwf Hj Hp. assert (INT_MIN <= j <= INT_MAX) as Hint by (unfold INT_MIN; lia).
  pose proof (proper_cast j Hint) as Hk. unfold isnil in Hp.
  assert (tlookup t (TNumber (cast_num j)) <> TNil) as Hne by (intros E; by rewrite E in Hp).
  pose proof (proj1 (tlookup_entry tsv_hash t _ _ Hwf Hk Hne) eq_refl) as He. unfold tentry in He.
  apply elem_of_app. case_decide as Hin.
  - left. unfold in_array in Hin. rewrite arrayindex_cast in Hin by done. apply elem_of_seqZ. lia.
  - right. destruct He as (i & n & Hi & Heq & _). apply list_elem_of_fmap. exists n.
    split; [|by eapply list_elem_of_lookup_2]. cbn. rewrite (arrayindex_rawequal _ _ Heq). by rewrite arrayindex_cast.
Qed.

Lemma linear_search_spec fuel t i : wf t -> 1 <= i -> i + Z.of_nat fuel <= INT_MAX ->
  (forall m, 1 <= m < i -> isnil t m = false) ->
  (exists r, linear_search fuel t i = Some r /\ 0 <= r < INT_MAX /\ border (isnil t) 0 r) \/
  (forall m, 1 <= m < i + Z.of_nat fuel -> isnil t m = false).
Proof.
  intros Hwf. revert i. induction fuel as [|fuel IH]; intros i Hi Hmax Hall; cbn [linear_search].
  - right. intros m Hm. apply Hall. lia.
  - rewrite nil_at_spec by (done || lia). cbn [mbind option_bind]. destruct (isnil t i) eqn:E.
    + left. exists (i - 1). split; [done|]. split; [lia|]. split; [|by replace (i - 1 + 1) with i by lia].
      destruct (decide (i = 1)) as [->|]; [by left|]. right. apply Hall. lia.
    + unfold INT_MAX in *. rewrite uwrap_small by lia. destruct (IH (i + 1)) as [?|Hr]; [lia|lia| |by left|].
      * intros m Hm. destruct (decide (m = i)) as [->|]; [done|]. apply Hall. lia.
      * right. intros m Hm. apply Hr. lia.
Qed.

Lemma sizes_small t : wf t -> 0 <= sizearray t <= 2 ^ 26 /\ Z.of_nat (length (node t)) <= 2 ^ 26.
Proof.
  intros Hwf. pose proof (wf_asize _ _ Hwf) as Hs. change MAXASIZE with (2 ^ 26) in Hs. split; [done|].
  rewrite (wf_len _ _ Hwf). apply Z.pow_le_mono_r; [lia|]. apply (wf_size _ _ Hwf).
Qed.

Lemma linear_search_finds t : wf t ->
  exists r, linear_search (S (Z.to_nat (sizearray t) + length (node t))) t 1 = Some r /\ 0 <= r < INT_MAX /\
    border (isnil t) 0 r.
Proof.
  intros Hwf. destruct (sizes_small t Hwf) as [Hs Hn].
  destruct (linear_search_spec (S (Z.to_nat (sizearray t) + length (node t))) t 1 Hwf) as [?|Hall];
    [lia|unfold INT_MAX; lia|intros; lia|done|]. exfalso.
  set (N := Z.of_nat (S (Z.to_nat (sizearray t) + length (node t)))) in *.
  assert (length (seqZ 1 N) <= length (seqZ 1 (sizearray t) ++ (arrayindex ∘ gkey <$> node t)))%nat as Hlen.
  { apply submseteq_length, NoDup_submseteq; [apply NoDup_seqZ|]. intros j Hj%elem_of_seqZ.
    apply present_index; [done|unfold INT_MAX; lia|]. apply Hall. lia. }
  rewrite length_app, length_fmap, !length_seqZ in Hlen. lia.
Qed.

Lemma unbound_loop_spec fuel t i j : wf t ->
  0 <= i < j -> j <= INT_MAX -> 2 ^ 31 <= j * 2 ^ Z.of_nat fuel -> (i = 0 \/ isnil t i = false) ->
  exists r, unbound_loop (S fuel) t i j = Some r /\ 0 <= r < INT_MAX /\ border (isnil t) 0 r.
Proof.
  intros Hwf. revert i j. induction fuel as [|fuel IH]; intros i j Hij Hmax Hf Hi; cbn [unbound_loop];
    assert (0 <= j <= INT_MAX) as Hj by (clear Hf; lia); rewrite (nil_at_spec t j Hwf Hj); clear Hj; cbn [mbind option_bind]; unfold INT_MAX in Hmax.
  { change (2 ^ Z.of_nat 0) with 1 in Hf. lia. }
  destruct (isnil t j) eqn:Ej.
  - destruct (binary_search_spec 33 (nil_at t) (isnil t) i j) as (r & -> & Hr & Hb).
    + lia.
    + unfold INT_MAX. lia.
    + change (2 ^ Z.of_nat 33) with (4 * 2 ^ 31). lia.
    + intros m Hm. apply nil_at_spec; [done|]. unfold INT_MAX. lia.
    + done.
    + exists r. split; [done|]. split; [unfold INT_MAX; lia|]. destruct Hb as [Hb Hb1]. split; [|done].
      destruct Hb as [->|Hb]; [|by right]. destruct Hi; [by left|by right].
  - rewrite uwrap_small by lia. destruct (Z.ltb_spec MAX_INT (j * 2)) as [Hlt|Hge]; [by apply linear_search_finds|]. unfold MAX_INT, INT_MAX in Hge.
    apply IH; [lia|unfold INT_MAX; lia| |by right]. rewrite Nat2Z.inj_succ, Z.pow_succ_r in Hf by lia. lia.
Qed.

(** C36. The length operator finds a border and always ends: an index (0 included)
    whose element is not nil, or 0, such that the next element is nil; also when
    the border is in the hash part and when every power of two is a key. *)
Theorem luaH_getn_border (t : table) :
  wf t ->
  exists n, luaH_getn t = Some n /\ 0 <= n < INT_MAX /\
    (n = 0 \/ exists v, v <> TNil /\ luaH_value t (TNumber (cast_num n)) = Some v) /\
    luaH_value t (TNumber (cast_num (n + 1))) = Some TNil.
Proof.
  intros Hwf. destruct (sizes_small t Hwf) as [Hs _].
  assert (exists n, luaH_getn t = Some n /\ 0 <= n < INT_MAX /\ border (isnil t) 0 n) as (n & En & Hn & Hb & Hb1).
  { unfold luaH_getn.
    assert ((if 0 <? sizearray t then v ← array t !! Z.to_nat (sizearray t - 1); Some (ttisnil v) else Some false) =
      Some ((0 <? sizearray t) && isnil t (sizearray t))) as ->.
    { destruct (Z.ltb_spec 0 (sizearray t)); [|done]. rewrite isnil_array by (done || lia). done. }
    cbn [mbind option_bind]. destruct ((0 <? sizearray t) && isnil t (sizearray t)) eqn:Elast.
    - apply andb_true_iff in Elast as [Hpos Hnil].
      destruct (binary_search_spec 33 (fun m => v ← array t !! Z.to_nat (m - 1); Some (ttisnil v)) (isnil t) 0 (sizearray t))
        as (r & -> & Hr & Hb).
      + lia.
      + unfold INT_MAX. lia.
      + change (2 ^ Z.of_nat 33) with (128 * 2 ^ 26). lia.
      + intros m Hm. rewrite isnil_array by (done || lia). done.
      + done.
      + exists r. split; [done|]. split; [unfold INT_MAX; lia|done].
    - assert (sizearray t = 0 \/ isnil t (sizearray t) = false) as Hlast.
      { destruct (Z.ltb_spec 0 (sizearray t)); [by right|left; lia]. }
      destruct (isdummy t) eqn:Hd.
      + exists (sizearray t). split; [done|]. split; [unfold INT_MAX; lia|]. split; [destruct Hlast; auto|].
        assert (INT_MIN <= sizearray t + 1 <= INT_MAX) as Hint by (unfold INT_MIN, INT_MAX; lia).
        unfold isnil. rewrite tlookup_parts by (try done; by apply proper_cast).
        rewrite decide_False by (unfold in_array; rewrite arrayindex_cast by done; lia).
        destruct (wf_dummy _ _ Hwf Hd) as [-> _]. by rewrite (hval_empty 1).
      + unfold unbound_search. rewrite uwrap_small by lia.
        apply (unbound_loop_spec 32 t (sizearray t) (sizearray t + 1) Hwf); [lia|unfold INT_MAX; lia| |done].
        change (2 ^ Z.of_nat 32) with (2 * 2 ^ 31). lia. }
  exists n. split; [done|]. split; [done|]. unfold isnil in *. unfold INT_MAX in Hn.
  rewrite !luaH_value_total by (try done; apply proper_cast; unfold INT_MIN, INT_MAX; lia). split.
  - destruct Hb as [?|Hb]; [by left|right]. eexists. split; [|reflexivity]. intros E. by rewrite E in Hb.
  - by destruct (tlookup t (TNumber (cast_num (n + 1)))).
Qed.

(** ** Resizing and collection *)
Lemma need_le n ns : (need n ns <= length (live_nodes ns))%nat.
Proof.
  induction ns as [|m ns IH]; [done|]. rewrite live_nodes_cons. unfold need in *. cbn [sum_list_with].
  destruct (ttisnil (gval m)); [exact IH|]. cbn [length]. assert (cost n (gkey m) <= 1)%nat by (unfold cost; destruct (_ && _); lia). lia.
Qed.

Lemma live_nodes_le ns : (length (live_nodes ns) <= length ns)%nat.
Proof. induction ns as [|n ns IH]; [done|]. rewrite live_nodes_cons. destruct (ttisnil (gval n)); cbn [length]; lia. Qed.

(** Growing the array part with luaH_resizearray keeps the table well formed and
    moves elements between the two parts without changing the value of any key. *)
Theorem luaH_resizearray_keeps_elements (t : table) (nasize : Z) :
  wf t -> sizearray t <= nasize <= MAXASIZE ->
  exists t', luaH_resizearray tsv_hash t nasize = Some (Return t') /\ wf t' /\ sizearray t' = nasize /\
    forall k, proper k = true -> luaH_value t' k = luaH_value t k.
Proof.
  intros Hwf Hn. destruct (sizes_small t Hwf) as [Hs Hlen]. unfold luaH_resizearray.
  set (nsize := if isdummy t then 0 else sizenode t).
  assert (Z.of_nat (hash_need t nasize) <= nsize <= 2 ^ 26) as Hneed.
  { unfold hash_need, tail_ints, nsize. replace (Z.to_nat (sizearray t - nasize)) with 0%nat by lia. cbn [array_ints length].
    pose proof (need_le nasize (rev (node t))). pose proof (live_nodes_le (rev (node t))) as Hl. rewrite length_rev in Hl.
    destruct (isdummy t) eqn:Hd.
    - destruct (wf_dummy _ _ Hwf Hd) as [E _]. rewrite E in *. cbn in *. lia.
    - rewrite sizenode_pow by apply (wf_size _ _ Hwf). rewrite <- (wf_len _ _ Hwf). lia. }
  pose proof (resize_spec tsv_hash 1 t nasize nsize Hwf ltac:(lia) ltac:(lia)) as Hr.
  change (2 ^ MAXBITS) with (2 ^ 26) in Hr. rewrite (proj2 (Z.ltb_ge _ _)) in Hr by lia.
  destruct Hr as (t' & -> & Hwf' & Es & _ & Hl). exists t'. split; [done|]. split; [done|]. split; [done|].
  intros k Hk. rewrite !luaH_value_total by done. by rewrite Hl.
Qed.

Lemma removeentry_cases n : gval n = TNil ->
  removeentry n = n \/ (gkey n <> TNil /\ exists p, removeentry n = with_key (TDead p) n).
Proof.
  intros Hv. unfold removeentry. destruct (gkey n) as [| | | |ty p|p] eqn:E; try (by left); right; (split; [done|by exists p]).
Qed.

(** One node of the sweep. *)
Definition sweep (m : node_t) : node_t := if ttisnil (gval m) then removeentry m else m.

Lemma sweep_node main ns i : hash_ok main ns ->
  alter sweep i ns = ns \/
  (exists n q, ns !! i = Some n /\ gval n = TNil /\ gkey n <> TNil /\ alter sweep i ns = alter (with_key (TDead q)) i ns).
Proof.
  intros Hok. destruct (ns !! i) as [n|] eqn:Hi.
  2: { left. apply list_eq. intros j. destruct (decide (i = j)) as [<-|]; [by rewrite list_lookup_alter_eq, Hi|by rewrite list_lookup_alter_ne]. }
  assert (sweep n = n -> alter sweep i ns = ns) as Hsame.
  { intros E. apply list_eq. intros j. destruct (decide (i = j)) as [<-|]; [by rewrite list_lookup_alter_eq, Hi; simpl; rewrite E|by rewrite list_lookup_alter_ne]. }
  unfold sweep in Hsame at 1. destruct (ttisnil (gval n)) eqn:Ev; [|left; by apply Hsame].
  assert (gval n = TNil) as Hv by (by destruct (gval n)).
  destruct (removeentry_cases n Hv) as [E|(Hk & q & E)]; [left; by apply Hsame|].
  right. exists n, q. split; [done|]. split; [done|]. split; [done|].
  apply list_eq. intros j. destruct (decide (i = j)) as [<-|]; [|by rewrite !list_lookup_alter_ne].
  rewrite !list_lookup_alter_eq, Hi. simpl. unfold sweep. by rewrite Ev, E.
Qed.

(** What a sweep keeps of the nodes. *)
Record swept (ns ns' : list node_t) : Prop := {
  sw_len : length ns' = length ns;
  sw_key i n : ns' !! i = Some n -> live (gkey n) = true -> exists m, ns !! i = Some m /\ gkey m = gkey n;
  sw_has i n : ns' !! i = Some n -> exists m, ns !! i = Some m /\ has_key m = has_key n;
  sw_entry k v : proper k = true -> v <> TNil -> hentry ns' k v <-> hentry ns k v }.

Lemma kill_key_swept ns i n q : ns !! i = Some n -> gval n = TNil -> gkey n <> TNil -> swept ns (alter (with_key (TDead q)) i ns).
Proof.
  intros Hi Hv Hk.
  assert (forall j m, alter (with_key (TDead q)) i ns !! j = Some m ->
    (j = i /\ m = with_key (TDead q) n) \/ (j <> i /\ ns !! j = Some m)) as Hinv.
  { intros j m Hj. destruct (decide (j = i)) as [->|]; [rewrite list_lookup_alter_eq, Hi in Hj; left; by injection Hj|].
    rewrite list_lookup_alter_ne in Hj by done. by right. }
  split.
  - apply length_alter.
  - intros j m [[-> ->]|[_ Hj]]%Hinv; [done|eauto].
  - intros j m [[-> ->]|[_ Hj]]%Hinv; [|eauto]. exists n. split; [done|]. unfold has_key. simpl. by destruct (gkey n).
  - intros k v Hpk Hvn. split; intros (j & m & Hj & He & Hval).
    + apply Hinv in Hj as [[-> ->]|[_ Hj]]; [simpl in He; by destruct k|by exists j, m].
    + destruct (decide (j = i)) as [->|Hne]; [congruence|]. exists j, m. by rewrite list_lookup_alter_ne.
Qed.

Lemma clear_nodes_spec main n ns : hash_ok main ns -> hash_ok main (clear_nodes n ns) /\ swept ns (clear_nodes n ns).
Proof.
  revert ns. induction n as [|i IH]; intros ns Hok; cbn [clear_nodes]; [split; [done|split; eauto; done]|].
  fold sweep. destruct (sweep_node main ns i Hok) as [->|([v k p] & q & Hi & Hv & Hk & ->)]; [by apply IH|].
  simpl in Hv, Hk. subst v. pose proof (kill_key_ok main ns i k p Hok Hi Hk q) as Hok'.
  destruct (IH _ Hok') as [Hok'' [S1 S2 S3 S4]]. split; [done|].
  destruct (kill_key_swept ns i _ q Hi eq_refl Hk) as [T1 T2 T3 T4]. split.
  - congruence.
  - intros j m Hj Hl. destruct (S2 j m Hj Hl) as (m' & Hm' & E). rewrite <- E in Hl |- *. by eapply T2.
  - intros j m Hj. destruct (S3 j m Hj) as (m' & Hm' & <-). by eapply T3.
  - intros k' v' Hk' Hv'. by rewrite S4, T4.
Qed.

(** The collector's pass over a table, which marks the keys of empty nodes dead,
    keeps the table well formed and the value of every key. *)
Theorem collector_keeps_elements (t : table) :
  wf t -> wf (clear_entries t) /\ forall k, proper k = true -> luaH_value (clear_entries t) k = luaH_value t k.
Proof.
  intros Hwf. destruct (clear_nodes_spec _ (length (node t)) (node t) (wf_hash _ _ Hwf)) as [Hok [Hlen Hkey Hhas Hent]].
  assert (wf (clear_entries t)) as Hwf'.
  { split; cbn [lsizenode node isdummy array sizearray lastfree clear_entries with_node]; rewrite ?Hlen; try apply Hwf; try done.
    - intros i n Hi Hl. destruct (Hkey i n Hi Hl) as (m & Hm & E). rewrite <- E in *. by apply (wf_range _ _ Hwf i m Hm).
    - intros i n Hd Hi Hle. destruct (Hhas i n Hi) as (m & Hm & <-). by apply (wf_taken _ _ Hwf i m Hd Hm).
    - intros Hd. destruct (wf_dummy _ _ Hwf Hd) as [-> ?]. done. }
  split; [done|]. intros k Hk. rewrite !luaH_value_total by done. f_equal. apply tlookup_ext; try done.
  intros v Hv. unfold tentry. cbn [array node clear_entries with_node].
  assert (in_array (clear_entries t) k <-> in_array t k) by done. repeat case_decide; try tauto. by apply Hent.
Qed.

End Props.

(** ** Witnesses: strings hashed by their address *)
Definition addr_hash (p : Z) : Z := p.

(** The table of [luaH_new(L, 0, 0)], and [{[s] = true; 7}] with one string key. *)
Definition new_table : table := Table 255 0 true [] 0 [empty_node] 0.
Definition one_table : table := Table 0 0 false [TNumber (cast_num 7)] 1 [Node (TBoolean true) (TGC GString 16) None] 0.

Lemma wf_new : LTableMap.wf addr_hash new_table.
Proof.
  destruct (luaH_new_spec addr_hash 0 0) as (t & E & Hwf & _); [by compute_done|by compute_done|].
  vm_compute in E. injection E as <-. exact Hwf.
Qed.

Lemma wf_one : LTableMap.wf addr_hash one_table.
Proof.
  assert (Hone : forall i n, node one_table !! i = Some n -> i = 0%nat /\ n = Node (TBoolean true) (TGC GString 16) None).
  { by intros i n [? <-]%list_lookup_singleton_Some. }
  assert (Hch : is_chain (node one_table) (Some 0%nat) [0%nat]) by (split; [done|by eexists]).
  split; try done.
  - split.
    + by intros i n [_ ->]%Hone.
    + by intros i n [_ ->]%Hone.
    + by intros i n [_ ->]%Hone.
    + intros i Hi. assert (i = 0)%nat as -> by (simpl in Hi; lia). eauto.
    + by intros i j m n k [_ ->]%Hone.
    + intros i n [-> ->]%Hone _. exists [0%nat]. split; [done|by left].
    + intros i n [-> ->]%Hone _. by eexists.
    + by intros i j m n [-> ->]%Hone [-> ->]%Hone.
  - intros i n [_ ->]%Hone _. simpl. lia.
  - by intros i n _ [_ ->]%Hone.
Qed.

Lemma luaH_store_is_map_insert_witness : exists t',
  LTable.luaH_store addr_hash new_table (TGC GString 16) (TBoolean true) = Some (Return t') /\
  LTable.luaH_value addr_hash t' (TGC GString 16) = Some (TBoolean true) /\
  LTable.luaH_value addr_hash t' (TNumber 0) = Some TNil.
Proof.
  destruct (luaH_store_is_map_insert addr_hash new_table (TGC GString 16) (TBoolean true) wf_new eq_refl)
    as (t' & E & _ & H); [vm_compute; reflexivity|].
  exists t'. split; [exact E|]. split; rewrite H by reflexivity; reflexivity.
Defined.

Lemma luaH_set_errors_witness : luai_numisnan 0x7FF8000000000000 = true /\
  LTable.luaH_store addr_hash one_table TNil (TBoolean true) = lerror "table index is nil".
Proof.
  split; [reflexivity|]. exact (proj1 (luaH_set_errors addr_hash one_table (TBoolean true) 0x7FF8000000000000 wf_one eq_refl)).
Defined.

Lemma luaH_next_enumerates_witness : exists l, traverse addr_hash (S (length l)) one_table TNil = Some (Return l).
Proof.
  destruct (luaH_next_enumerates addr_hash one_table wf_one) as (l & E & _).
  - intros i j n m p ty Hi _ Hk. apply list_lookup_singleton_Some in Hi as [_ <-]. discriminate Hk.
  - exists l. exact E.
Defined.

Lemma luaH_getn_border_witness : exists n, luaH_getn one_table = Some n /\ n = 1.
Proof.
  destruct (luaH_getn_border addr_hash one_table wf_one) as (n & E & _). exists n. split; [exact E|].
  vm_compute in E. injection E as <-. reflexivity.
Defined.

Lemma luaH_resizearray_keeps_elements_witness : exists t',
  luaH_resizearray addr_hash one_table 4 = Some (Return t') /\ LTable.luaH_value addr_hash t' (TNumber (cast_num 1)) = Some (TNumber (cast_num 7)).
Proof.
  destruct (luaH_resizearray_keeps_elements addr_hash one_table 4 wf_one) as (t' & E & _ & _ & H); [by compute_done|].
  exists t'. split; [exact E|]. rewrite H by reflexivity. reflexivity.
Defined.

Lemma collector_keeps_elements_witness : LTableMap.wf addr_hash (clear_entries one_table) /\
  LTable.luaH_value addr_hash (clear_entries one_table) (TGC GString 16) = Some (TBoolean true).
Proof.
  destruct (collector_keeps_elements addr_hash one_table wf_one) as [Hwf H]. split; [exact Hwf|].
  rewrite H by reflexivity. reflexivity.
Defined.
